(* ===== verification/_CoqProject ===== *)
-Q . S2P
Prelude.v
Printf.v
Endian.v
Buffer.v
ByteQueue.v
Timestamp.v
TimerQueue.v
TimerQueueSafety.v
Channel.v
EPollPoller.v
PollPoller.v
Pollers.v
EventLoop.v
EventLoopSafety.v
TcpConnection.v
TcpConnectionSafety.v
TcpConnectionRuns.v
Http.v
HttpSpec.v
HttpRoundTrip.v
HttpServer.v
Inspector.v
Mutex.v
Thread.v
Monitor.v
BlockingQueue.v
ThreadPool.v
ThreadPoolRuns.v
Date.v
TimeZone.v
TimeZoneSpec.v
TimeText.v
LogStream.v
Connector.v
LogFile.v
FileUtil.v
Logging.v
AsyncLogging.v
AsyncLoggingSafety.v
ProtobufCodecLite.v
ProtobufCodecSpec.v
RpcChannel.v
RpcServer.v
Sudoku.v
DancingLinks.v
ExactCover.v
SudokuBuild.v
SudokuSpec.v
SudokuServer.v
CircularBuffer.v
IdleConnection.v
Hub.v
HubSpec.v
PubSubClient.v
Chat.v
SudokuStat.v
Memcached.v
MemcachedSession.v
MemcachedSpec.v
MemcachedCommands.v
Acceptor.v
ConnLife.v
EventLoopThread.v
EventLoopThreadPool.v
TcpClient.v
TcpClientSafety.v
TcpServer.v
TcpServerSafety.v
