(* ===== verification/Prelude.v ===== *)
(** * muduo, a reactor network library: a verification development

    The repository's program is muduo (Linux多线程服务端编程/muduo/muduo), a C++
    library for multi-threaded TCP servers, with the directories [base] (time,
    threads, logging) and [net] (the reactor, connections, HTTP, protobuf
    framing), and five of its examples: a memcached server
    (muduo/examples/memcached/server), a Sudoku server
    (muduo/examples/sudoku), a publish-subscribe hub (muduo/examples/hub), a chat
    server (muduo/examples/asio/chat) and a server that drops idle connections
    (muduo/examples/idleconnection).  Every file of this development models the
    class or classes its header names: the members of a class are a record, every
    member function is a definition with the name it has in the source, and a
    helper definition stands for a part of a function.

    ** How code is modelled

    - An operation returns in the [outcome] monad of this file: it gives a
      value, or a fault: a failed [assert] (with its line), an access outside an
      object, a null or dangling pointer, an exception of the standard library,
      undefined behaviour, or [LOG_FATAL].  [m ⇓ Q] says that [m] returns and
      its result satisfies [Q] (total correctness); [m ⇓[F] Q] also allows the
      faults [F], for which the environment is responsible (a vector that
      cannot grow, for the most part).
    - Integers are [Z] with the width written out ([u64], [i32], ...) where the
      code can wrap; signed arithmetic that can overflow is checked
      ([Date.iadd], [TimeZone.checked_i64]).
    - Loops that are not structural take fuel and return [None] without it.
      The fuel of each entry point is shown to be enough: the length of the
      input plus one ([Http.parseRequest], where every turn takes a line,
      [ProtobufCodecLite.onMessage], where every turn takes a frame, and
      [LogFile.AppendFile_append], where every turn writes a byte; also
      [SudokuServer.onMessage], [Hub.onMessage] and [PubSubClient.onMessage],
      where every turn takes a line, and [Inspector.split], where every turn
      takes a slash), twice that
      ([MemcachedSession.onMessage], where a turn can also finish a value that
      needs no bytes), the 64 digits of an integer ([LogStream.convert]), or the
      number of nodes plus one ([Sudoku.walk_fuel]: a list has no more nodes, and
      the search covers a column with every call).
    - System calls, the kernel, user callbacks and libraries are parameters:
      their results are arguments or inputs, or a class of operations with its
      laws ([EPollPoller.EpollKernel], [EventLoop.EventFd],
      [ProtobufCodecSpec.LibraryLaws], ...), which a concrete instance satisfies.
    - Concurrency is interleaving: a run is a list of inputs or a step relation
      ([Monitor.mstep]), cut where another thread can come in between.

    ** The files, and what they show

    Buffers.  [Endian] and [Buffer] model Endian.h, Buffer.h and Buffer.cc: the
    vector and the two indices.  [ByteQueue] shows that every legal sequence of
    operations refines a byte queue, integers survive the wire, and
    [readFd] appends what was read, with at most one allocation.

    Timers.  [Timestamp] and [TimerQueue] model Timestamp.h, Timer.h, TimerId.h
    and TimerQueue.cc with the timer objects' lifetime and the armed
    descriptor.  [TimerQueueSafety]: the two sets stay consistent and no
    operation faults, but for the read that [addTimer] makes in another thread
    after it gave the timer away; an event runs the expired timers in order and
    reschedules the repeating ones, a timer that waits always has the
    descriptor armed in time, cancelling removes.

    Pollers.  [Channel] states what a poller promises a channel ([PollerOps],
    [PollerLaws]); [EPollPoller] and [PollPoller] are its two instances, and
    deliver every event of the kernel's report.
    [Pollers]: both agree with one abstract poller, hence with each other.

    The loop.  [EventLoop] models EventLoop.cc as a machine of the loop's thread
    and any number of other threads, statement by statement where they
    interfere.  [EventLoopSafety]: no wakeup is lost, functors run once and
    in order, a turn runs all that were pending.

    Connections.  [TcpConnection] models TcpConnection.cc over a poller and a
    socket whose reads and writes are inputs; calls of other threads are cut
    between the test of the state, its change and the queueing of the functor,
    where the code does not synchronize.  [TcpConnectionSafety]: the bytes
    on the wire and in the output buffer are the stream that was sent, no
    legal run faults, callbacks are bracketed, the write side is shut
    down only after the output is drained, destruction is safe.
    [TcpConnectionRuns] has the runs that fail, with the races of the state that
    the legal runs leave out.  [Connector]: outgoing
    connections own one socket, one channel and one timer at a time.
    [Acceptor]: accepting goes on when descriptors run out.
    [EventLoopThreadPool]: round robin.  [TcpServer] and [TcpServerSafety]: the
    server's connection map and the life of its connections across the loops of
    a pool, with the pointers of users and the calls of other threads, which are
    cut in the same way; [connectEstablished_life] and its siblings tie the life of a
    connection there ([ConnLife]) to the operations of [TcpConnection].
    [TcpClient] and [TcpClientSafety]: a client with its connector, what outlives
    it, and reconnecting (here a call is one step, in any thread).
    [EventLoopThread]: starting a loop in a thread and
    quitting it from another; both sides make progress; who uses a loop that is
    gone, and when.

    HTTP.  [Http] models the request and its parser, [HttpServer] the response
    and the server.  [HttpSpec]: parsing does not depend on segmentation
    and returns.  [HttpRoundTrip]: a request that is printed is read back.
    [Inspector]: the commands of an inspector, two tables that refine one, and
    what a request gets.

    Framing.  [ProtobufCodecLite] models the codec, [ProtobufCodecSpec] shows
    that it is a faithful channel for any segmentation and robust to any input.
    [RpcChannel] models the calls made over it: a client and a server joined by
    two links, where every call is answered once, with its own answer.
    [RpcServer]: a channel per connection, every request is answered or in
    work, and what the destructor of a channel deletes.

    Threads.  [Mutex] models MutexLock and Condition::wait with the id of the
    holder: it is the thread that is in the section, also around waits, so
    that the assertions hold.  [Thread]: a thread that is started never touches
    its object after the owner may have destroyed it.  [Monitor] is a semantics of classes with one mutex and conditions;
    [BlockingQueue] and [ThreadPool] are its clients.  [ThreadPoolRuns] runs a
    pool with its workers: every task is taken once and in order, the queue is
    drained, and [stop] joins all workers.

    Dates and times.  [Date]: day numbers and the Gregorian
    calendar.  [TimeZone], [TimeZoneSpec]: UTC and local time, zone files.
    [Printf] is what the sources use of [snprintf]; [TimeText]: times as text,
    and that the text says the time.

    Logging.  [LogStream]: bounded formatting; [Logging]: log statements of
    several threads, where every enabled statement gives one line with its own
    time and thread, whatever is cached; [LogFile]: appending, rolling and
    flushing, and what a crash can lose; [FileUtil]: reading small files;
    [AsyncLogging], [AsyncLoggingSafety]: lines are kept in order, and one round
    of the back end takes all of them out of the buffers.

    The memcached server.  [Memcached]: items, the sharded store, and that it
    refines a table; an update that checks the number it has read is exclusive.
    [MemcachedSession] models the sessions; [MemcachedSpec]: a session's state is
    well formed, it always returns, and segmentation does not matter;
    [MemcachedCommands]: a client that sends commands gets the answers of the
    table.

    The Sudoku server.  [Sudoku] models the solver: nodes in an array whose four
    pointers are maps from nodes to nodes, and the search over them.
    [DancingLinks]: linked rings of nodes, and that hiding and unhiding the rows of a column are exact
    inverses.  [ExactCover]: the nodes represent an exact cover problem, and
    the search finds a cover or shows that there is none.  [SudokuBuild]: what the
    constructor builds.  [SudokuSpec]: the covers are the solutions of the puzzle.
    [SudokuServer]: every request is answered, and what is not a request is
    rejected, whatever the segments are.  [SudokuStat]: the statistics of the
    server over a circular buffer, which is an interface ([CircularBuffer]).

    The other examples.  [IdleConnection]: a timing wheel of buckets, over the
    same interface, shuts down exactly the connections that were idle for the
    given number of ticks, and echoes until then.  [Hub]: topics and subscriptions; [HubSpec]: the hub
    refines a relation between connections and topics, and the commands it runs
    are those its clients wrote.  [PubSubClient]: a client of the hub, and what
    goes from one client to another.  [Chat]: the threads of a chat server share
    a list that is copied on write, and see values.

    ** What is not modelled

    The reports of the inspectors (text about the process, out of /proc), the
    wrapper of zlib, and the thin wrappers of system calls (Socket.cc,
    SocketsOps.cc but for [accept], InetAddress.cc, ProcessInfo.cc, ...), whose
    results are inputs of the models here.  [formatSI] and [formatIEC] of
    LogStream.cc, which print rounded floating-point quotients.  Of the modelled classes, functions
    that only wire callbacks are left out.  The other examples, the tests,
    recipes and notes of the repository are not part of the library.

    This file holds what the others share: the [outcome] monad with its
    tactics, machine integers, bytes and slices of lists, and the hint database
    [muduo]. *)
From Stdlib Require Import Strings.Byte.
From stdpp Require Import base numbers list strings gmap.
Open Scope Z_scope.

Create HintDb muduo discriminated.
#[export] Hint Constants Opaque : muduo.

(** ** Faults and the outcome monad

    A C++ operation of the sources either returns or stops the process: an
    [assert] that fails, an access outside an object, an exception of the
    standard library, undefined behaviour of the language, or a [LOG_FATAL].
    The line of an [assert] or of a [LOG_FATAL] is the line in its source file. *)

Inductive fault :=
  | AssertFailure (line : Z)
  | OutOfRange
  | LengthError
  | BadDeref
  | BadAlloc
  | Undefined
  | Fatal (line : Z).

Inductive outcome (A : Type) :=
  | Ok (a : A)
  | Fault (f : fault).
Arguments Ok {A} _.
Arguments Fault {A} _.

#[export] Instance fault_eq_dec : EqDecision fault.
Proof. solve_decision. Defined.

#[export] Instance outcome_eq_dec `{EqDecision A} : EqDecision (outcome A).
Proof. solve_decision. Defined.

#[export] Instance outcome_ret : MRet outcome := @Ok.
#[export] Instance outcome_bind : MBind outcome :=
  λ A B f m, match m with Ok a => f a | Fault e => Fault e end.

Definition assertb (line : Z) (c : bool) : outcome unit :=
  if c then Ok tt else Fault (AssertFailure line).

(** [m ⇓ Q]: the operation returns (it does not fault) and its result
    satisfies [Q]; total correctness of a fallible operation. *)
Definition yields {A} (m : outcome A) (Q : A → Prop) : Prop :=
  match m with Ok a => Q a | Fault _ => False end.

Declare Scope muduo_scope.
Delimit Scope muduo_scope with muduo.
Notation "m ⇓ Q" := (yields m Q) (at level 70, Q at level 200) : muduo_scope.
Open Scope muduo_scope.

Section Outcome.
Context {A B : Type}.
Implicit Types (m : outcome A) (f : A → outcome B).

Lemma yields_bind m f Q : (m ⇓ λ a, f a ⇓ Q) → (m ≫= f) ⇓ Q.
Proof. by destruct m. Qed.

Lemma yields_mono m (P Q : A → Prop) : (m ⇓ P) → (∀ a, P a → Q a) → m ⇓ Q.
Proof. destruct m; simpl; auto. Qed.

Lemma yields_Ok m Q : (m ⇓ Q) ↔ ∃ a, m = Ok a ∧ Q a.
Proof. destruct m; simpl; split; [by eauto|by intros (?&[= ->]&?)|done|by intros (?&?&?)]. Qed.

Lemma yields_ret (a : A) (Q : A → Prop) : Q a → mret a ⇓ Q.
Proof. done. Qed.

Lemma bind_Ok_inv m f (b : B) :
  m ≫= f = Ok b → ∃ a, m = Ok a ∧ f a = Ok b.
Proof. destruct m; naive_solver. Qed.
End Outcome.

Lemma yields_assert line c (Q : unit → Prop) :
  c = true → Q tt → assertb line c ⇓ Q.
Proof. by intros ->. Qed.

Lemma assertb_Ok_inv line c u : assertb line c = Ok u → c = true.
Proof. by destruct c. Qed.

(** [m ⇓[F] Q]: the same, except that the operation may also stop with a
    fault of [F], the faults the environment is responsible for. *)
Definition yields_or {A} (F : fault → Prop) (m : outcome A) (Q : A → Prop) : Prop :=
  match m with Ok a => Q a | Fault f => F f end.
Notation "m ⇓[ F ] Q" := (yields_or F m Q) (at level 70, Q at level 200) : muduo_scope.

Section OutcomeOr.
Context {A B : Type} (F : fault → Prop).
Implicit Types (m : outcome A) (f : A → outcome B).

Lemma yields_or_bind m f Q : (m ⇓[F] λ a, f a ⇓[F] Q) → (m ≫= f) ⇓[F] Q.
Proof. by destruct m. Qed.

Lemma yields_or_mono m (P Q : A → Prop) : (m ⇓[F] P) → (∀ a, P a → Q a) → m ⇓[F] Q.
Proof. destruct m; simpl; auto. Qed.

Lemma yields_or_weaken (F' : fault → Prop) m Q :
  (∀ e : fault, F' e → F e) → (m ⇓[F'] Q) → m ⇓[F] Q.
Proof. destruct m; simpl; auto. Qed.

Lemma yields_yields_or m Q : (m ⇓ Q) → m ⇓[F] Q.
Proof. by destruct m. Qed.

Lemma yields_or_ret (a : A) (Q : A → Prop) : Q a → mret a ⇓[F] Q.
Proof. done. Qed.

Lemma yields_or_Ok m Q a : (m ⇓[F] Q) → m = Ok a → Q a.
Proof. by intros ? ->. Qed.
End OutcomeOr.

Lemma yields_or_assert F line c (Q : unit → Prop) :
  c = true → Q tt → assertb line c ⇓[F] Q.
Proof. by intros ->. Qed.

(** Run one step of an operation whose assertion holds by arithmetic. *)
Ltac yassert :=
  apply yields_bind, yields_assert; [try lia|cbv beta].
(** Run one step by a specification of the called operation. *)
Tactic Notation "ystep" uconstr(spec) :=
  apply yields_bind; eapply yields_mono; [apply spec|cbv beta].
(** The same two steps when environment faults are allowed. *)
Ltac oassert := apply yields_or_bind, yields_or_assert; [try lia|cbv beta].
Tactic Notation "ostep" uconstr(spec) :=
  apply yields_or_bind; eapply yields_or_mono; [apply spec|cbv beta].
(** Continue after a call that returned. *)
Ltac run_ok :=
  change (assertb ?n true) with (Ok tt);
  first [progress change (Ok ?x ≫= ?f) with (f x)
        |progress change (mret (M := outcome) ?x ≫= ?f) with (f x)]; cbv beta.
(** Break a hypothesis [m1 ≫= λ x, ... = Ok b] into the steps that ran. *)
Ltac inv_ok :=
  repeat match goal with
  | H : _ ≫= _ = Ok _ |- _ => apply bind_Ok_inv in H as (? & ? & ?)
  | H : assertb _ _ = Ok _ |- _ => apply assertb_Ok_inv in H
  | H : mret _ = Ok _ |- _ => injection H as H
  | H : Ok _ = Ok _ |- _ => injection H as H
  end.

(** Facts, and what follows from them. *)
Lemma conj_apply (P Q : Prop) : P → (P → Q) → P ∧ Q.
Proof. tauto. Qed.

(** A partial function that checks a condition first. *)
Lemma guard_Some {A} (P : Prop) `{Decision P} (k : option A) (x : A) :
  (guard P;; k) = Some x → P ∧ k = Some x.
Proof. case_guard; [done|by intros [=]]. Qed.
Ltac inv_guard :=
  repeat match goal with H : (guard _;; _) = Some _ |- _ => apply guard_Some in H as [? H] end;
  match goal with H : Some _ = Some _ |- _ => injection H as <- <- | _ => idtac end.

(** ** Machine integers *)

Definition to_unsigned (w x : Z) : Z := x mod 2 ^ w.
Definition to_signed (w x : Z) : Z :=
  if to_unsigned w x <? 2 ^ (w - 1) then to_unsigned w x else to_unsigned w x - 2 ^ w.

Notation u64 := (to_unsigned 64).
Notation u32 := (to_unsigned 32).
Notation u16 := (to_unsigned 16).
Notation i64 := (to_signed 64).
Notation i32 := (to_signed 32).
Notation i16 := (to_signed 16).
Notation i8 := (to_signed 8).

Definition in_signed (w x : Z) : Prop := - 2 ^ (w - 1) ≤ x < 2 ^ (w - 1).

Lemma to_unsigned_small w x : 0 ≤ x < 2 ^ w → to_unsigned w x = x.
Proof. apply Z.mod_small. Qed.

Lemma to_unsigned_range w x : 0 ≤ w → 0 ≤ to_unsigned w x < 2 ^ w.
Proof. intros. apply Z.mod_pos_bound. lia. Qed.

Lemma to_unsigned_idemp w x : to_unsigned w (to_unsigned w x) = to_unsigned w x.
Proof. unfold to_unsigned. by rewrite Zmod_mod. Qed.

Lemma pow2_half w : 0 < w → 2 ^ w = 2 * 2 ^ (w - 1).
Proof. intros. rewrite <- Z.pow_succ_r by lia. f_equal. lia. Qed.

Lemma to_unsigned_to_signed w x : 0 < w → to_unsigned w (to_signed w x) = to_unsigned w x.
Proof.
  intros Hw. unfold to_signed. case_match; [apply to_unsigned_idemp|].
  unfold to_unsigned. rewrite Zminus_mod, Z_mod_same_full, Z.sub_0_r, !Zmod_mod. done.
Qed.

Lemma to_signed_to_unsigned w x : to_signed w (to_unsigned w x) = to_signed w x.
Proof. unfold to_signed. by rewrite to_unsigned_idemp. Qed.

Lemma to_signed_range w x : 0 < w → in_signed w (to_signed w x).
Proof.
  intros Hw. unfold in_signed, to_signed. pose proof (to_unsigned_range w x).
  pose proof (pow2_half w). case_match; lia.
Qed.

Lemma to_signed_small w x : 0 < w → in_signed w x → to_signed w x = x.
Proof.
  intros Hw Hx. unfold in_signed in Hx. pose proof (pow2_half w Hw).
  unfold to_signed, to_unsigned.
  destruct (Z.le_gt_cases 0 x).
  - rewrite Z.mod_small by lia. case_match; lia.
  - rewrite <- (Z.mod_add x 1 (2 ^ w)), Z.mul_1_l by lia.
    rewrite Z.mod_small by lia. case_match; lia.
Qed.

(** ** Bytes *)

#[export] Instance byte_eq_dec' : EqDecision byte := Byte.byte_eq_dec.

Definition Z_of_byte (b : byte) : Z := Z.of_N (Byte.to_N b).
Definition byte_of_Z (z : Z) : byte :=
  default x00 (Byte.of_N (Z.to_N (z mod 256))).

Lemma Z_of_byte_range b : 0 ≤ Z_of_byte b < 256.
Proof. unfold Z_of_byte. pose proof (Byte.to_N_bounded b). lia. Qed.

Lemma Z_of_byte_of_Z z : Z_of_byte (byte_of_Z z) = z mod 256.
Proof.
  unfold Z_of_byte, byte_of_Z.
  pose proof (Z.mod_pos_bound z 256 ltac:(lia)).
  destruct (Byte.of_N (Z.to_N (z mod 256))) as [b|] eqn:E; simpl.
  - apply Byte.to_of_N in E. rewrite E. lia.
  - apply Byte.of_N_None_iff in E. lia.
Qed.

Lemma byte_of_Z_of_byte b : byte_of_Z (Z_of_byte b) = b.
Proof.
  unfold byte_of_Z. rewrite Z.mod_small by apply Z_of_byte_range.
  unfold Z_of_byte. rewrite N2Z.id, Byte.of_to_N. done.
Qed.

#[export] Instance Z_of_byte_inj : Inj (=) (=) Z_of_byte.
Proof. intros a b H. by rewrite <- (byte_of_Z_of_byte a), H, byte_of_Z_of_byte. Qed.

#[export] Instance byte_countable : Countable byte := inj_countable' Z_of_byte byte_of_Z byte_of_Z_of_byte.

(** A string literal as the bytes it denotes. *)
Definition lit (s : string) : list byte := String.list_byte_of_string s.

(** ** Lists indexed by [Z] *)

Definition size_of {A} (l : list A) : Z := Z.of_nat (length l).
Definition slice {A} (l : list A) (i j : Z) : list A :=
  take (Z.to_nat (j - i)) (drop (Z.to_nat i) l).

Section Slices.
Context {A : Type}.
Implicit Types l k : list A.

Lemma size_of_app l k : size_of (l ++ k) = size_of l + size_of k.
Proof. unfold size_of. rewrite length_app. lia. Qed.

Lemma size_of_nonneg l : 0 ≤ size_of l.
Proof. unfold size_of. lia. Qed.

Lemma size_of_nil : size_of (@nil A) = 0.
Proof. done. Qed.

Lemma size_of_cons x l : size_of (x :: l) = 1 + size_of l.
Proof. unfold size_of. simpl. lia. Qed.

Lemma size_of_take n l : 0 ≤ n ≤ size_of l → size_of (take (Z.to_nat n) l) = n.
Proof. unfold size_of. rewrite length_take. lia. Qed.

Lemma size_of_drop n l : 0 ≤ n ≤ size_of l → size_of (drop (Z.to_nat n) l) = size_of l - n.
Proof. unfold size_of. rewrite length_drop. lia. Qed.

Lemma size_of_slice l i j :
  0 ≤ i ≤ j → j ≤ size_of l → size_of (slice l i j) = j - i.
Proof. unfold size_of, slice. rewrite length_take, length_drop. lia. Qed.

Lemma slice_empty l i : slice l i i = [].
Proof. unfold slice. by rewrite Z.sub_diag. Qed.

Lemma slice_all l : slice l 0 (size_of l) = l.
Proof. unfold slice. simpl. rewrite drop_0. apply take_ge. unfold size_of. lia. Qed.

(** A slice followed by the next one. *)
Lemma slice_app_slice l i j n :
  0 ≤ i ≤ j → j ≤ n → slice l i j ++ slice l j n = slice l i n.
Proof.
  intros. unfold slice.
  replace (Z.to_nat (n - i)) with (Z.to_nat (j - i) + Z.to_nat (n - j))%nat by lia.
  replace (Z.to_nat j) with (Z.to_nat i + Z.to_nat (j - i))%nat by lia.
  rewrite <- drop_drop, <- take_take_drop. done.
Qed.

Lemma drop_slice l i j n :
  0 ≤ n → 0 ≤ i → drop (Z.to_nat n) (slice l i j) = slice l (i + n) j.
Proof.
  intros. unfold slice. rewrite skipn_firstn_comm, drop_drop.
  f_equal; [lia|f_equal; lia].
Qed.

Lemma take_slice l i j n :
  0 ≤ n ≤ j - i → take (Z.to_nat n) (slice l i j) = slice l i (i + n).
Proof. intros. unfold slice. rewrite take_take. f_equal. lia. Qed.

Lemma slice_app_l l k i j :
  0 ≤ i → j ≤ size_of l → slice (l ++ k) i j = slice l i j.
Proof.
  intros Hi Hj. unfold slice, size_of in *.
  destruct (decide (Z.to_nat i ≤ length l)%nat).
  - rewrite drop_app_le by lia. rewrite take_app_le; [done|].
    rewrite length_drop. lia.
  - replace (Z.to_nat (j - i)) with 0%nat by lia. done.
Qed.

Lemma slice_app_r l k i j :
  size_of l ≤ i → slice (l ++ k) i j = slice k (i - size_of l) (j - size_of l).
Proof.
  intros Hi. unfold slice, size_of in *. rewrite drop_app_ge by lia.
  f_equal; [lia|f_equal; lia].
Qed.

Lemma slice_slice l a b i j :
  0 ≤ a → 0 ≤ i ≤ j → j ≤ b - a → slice (slice l a b) i j = slice l (a + i) (a + j).
Proof.
  intros. unfold slice at 1. rewrite drop_slice by lia.
  rewrite take_slice by lia. f_equal. lia.
Qed.
End Slices.

Section Filters.
Context {A : Type} (P : A → Prop) `{∀ x, Decision (P x)}.

Lemma filter_id (l : list A) : (∀ x, x ∈ l → P x) → filter P l = l.
Proof.
  induction l as [|x l IH]; intros Hl; [done|].
  rewrite filter_cons_True by (apply Hl; left). f_equal. apply IH. intros y Hy. apply Hl. by right.
Qed.

Lemma filter_none (l : list A) : (∀ x, x ∈ l → ¬ P x) → filter P l = [].
Proof.
  induction l as [|x l IH]; intros Hl; [done|].
  rewrite filter_cons_False by (apply Hl; left). apply IH. intros y Hy. apply Hl. by right.
Qed.

Lemma filter_ext_in (Q : A → Prop) `{!∀ x, Decision (Q x)} (l : list A) :
  (∀ x, x ∈ l → P x ↔ Q x) → filter P l = filter Q l.
Proof.
  induction l as [|x l IH]; intros Hpq; [done|]. rewrite !filter_cons. pose proof (Hpq x ltac:(by left)) as Hx.
  rewrite IH by (intros; apply Hpq; by right). destruct (decide (P x)), (decide (Q x)); done || tauto.
Qed.
End Filters.

Lemma elem_of_concat {A} (x : A) (ls : list (list A)) : x ∈ concat ls ↔ ∃ l, x ∈ l ∧ l ∈ ls.
Proof. rewrite list_elem_of_In, in_concat. setoid_rewrite list_elem_of_In. naive_solver. Qed.

Lemma NoDup_concat_fmap {A B} (f : A → list B) (l : list A) :
  NoDup l → (∀ x, x ∈ l → NoDup (f x)) → (∀ x y b, x ∈ l → y ∈ l → b ∈ f x → b ∈ f y → x = y) → NoDup (concat (f <$> l)).
Proof.
  induction l as [|x l IH]; intros Hd Hn Hu; [apply NoDup_nil_2|]. apply NoDup_cons in Hd as [Hx Hd]. cbn. apply NoDup_app. split_and!.
  - apply Hn. by left.
  - intros b Hb (l' & Hb' & (y & -> & Hy)%list_elem_of_fmap)%elem_of_concat. assert (x = y) as ->; [|done].
    apply (Hu x y b); [by left|by right|done|done].
  - apply IH; [done|intros; apply Hn; by right|]. intros y z b ? ?. apply Hu; by right.
Qed.

Lemma fmap_concat {A B} (f : A → B) (ls : list (list A)) : fmap (M:=list) f (concat ls) = concat (fmap (M:=list) (fmap (M:=list) f) ls).
Proof. induction ls as [|l ls IH]; [done|]. cbn. by rewrite fmap_app, IH. Qed.

#[export] Hint Resolve size_of_nonneg : muduo.
