(* ===== verification/Printf.v ===== *)
(** * Numbers in text: what the code uses of [snprintf]

    The conversions [%d], [%Nd] and [%0Nd] of an integer, and how the digits of
    a number read back and compare. *)
From Stdlib Require Import Strings.Byte.
From stdpp Require Import base numbers list strings.
From S2P Require Import Prelude.
Open Scope Z_scope.

(** ** Digits *)

Definition digit (d : Z) : byte := byte_of_Z (48 + d).
Definition dec_digit (b : byte) : Z := Z_of_byte b - 48.
Definition is_digit (b : byte) : bool := (48 <=? Z_of_byte b) && (Z_of_byte b <=? 57).

(** The last [k] digits of [n], the most significant one first. *)
Fixpoint dec_digits (k : nat) (n : Z) : list byte :=
  match k with
  | O => []
  | S k => dec_digits k (n / 10) ++ [digit (n mod 10)]
  end.

(** How many digits [n] has; [log2 n] divisions are more than enough. *)
Fixpoint count_digits (fuel : nat) (n : Z) : nat :=
  match fuel with
  | O => 1
  | S fuel => if n <? 10 then 1 else S (count_digits fuel (n / 10))
  end.
Definition num_digits (n : Z) : nat := count_digits (Z.to_nat (Z.log2 n)) n.

Definition sign (v : Z) : list byte := if v <? 0 then [x2d] else [].

(** [%d], [%0Nd] and [%Nd]. *)
Definition decimal (v : Z) : list byte := sign v ++ dec_digits (num_digits (Z.abs v)) (Z.abs v).
Definition zero_padded (width : nat) (v : Z) : list byte :=
  sign v ++ dec_digits (num_digits (Z.abs v) `max` (width - length (sign v))) (Z.abs v).
Definition space_padded (width : nat) (v : Z) : list byte :=
  replicate (width - length (decimal v)) x20 ++ decimal v.

(** [snprintf(buf, size, ...)]: what [buf] then holds as a C string; the value
    returned is the length of the whole text. *)
Definition snprintf (size : nat) (text : list byte) : list byte := take (size - 1) text.

(** ** Reading digits back *)

Definition dec_value (l : list byte) : Z := foldl (λ acc b, 10 * acc + dec_digit b) 0 l.

Lemma dec_value_snoc l b : dec_value (l ++ [b]) = 10 * dec_value l + dec_digit b.
Proof. unfold dec_value. by rewrite foldl_app. Qed.

Lemma dec_digit_digit d : 0 ≤ d < 10 → dec_digit (digit d) = d.
Proof. intros Hd. unfold dec_digit, digit. rewrite Z_of_byte_of_Z, Z.mod_small by lia. lia. Qed.

Lemma digit_is_digit d : 0 ≤ d < 10 → is_digit (digit d) = true.
Proof.
  intros Hd. unfold is_digit, digit. rewrite Z_of_byte_of_Z, Z.mod_small by lia.
  apply andb_true_intro. split; apply Z.leb_le; lia.
Qed.

Lemma length_dec_digits k n : length (dec_digits k n) = k.
Proof. revert n. induction k as [|k IH]; intros n; [done|]. cbn. rewrite length_app, IH. cbn. lia. Qed.

Lemma dec_digits_are k n : Forall (λ b, is_digit b = true) (dec_digits k n).
Proof.
  revert n. induction k as [|k IH]; intros n; [constructor|]. apply Forall_app. split; [apply IH|].
  apply Forall_singleton. apply digit_is_digit. apply Z.mod_pos_bound. lia.
Qed.

Lemma dec_value_digits k n : dec_value (dec_digits k n) = n mod 10 ^ Z.of_nat k.
Proof.
  revert n. induction k as [|k IH]; intros n; [by rewrite Z.mod_1_r|]. cbn [dec_digits].
  rewrite dec_value_snoc, IH, dec_digit_digit by (apply Z.mod_pos_bound; lia).
  rewrite Nat2Z.inj_succ, Z.pow_succ_r by lia. rewrite Z.rem_mul_r by lia. lia.
Qed.

Lemma dec_digits_inj k n n' :
  0 ≤ n < 10 ^ Z.of_nat k → 0 ≤ n' < 10 ^ Z.of_nat k → dec_digits k n = dec_digits k n' → n = n'.
Proof. intros Hn Hn' E%(f_equal dec_value). by rewrite !dec_value_digits, !Z.mod_small in E by lia. Qed.

(** ** How many digits *)

Lemma count_digits_spec fuel n :
  0 ≤ n < 2 ^ Z.of_nat (S fuel) →
  n < 10 ^ Z.of_nat (count_digits fuel n) ∧ (1 ≤ count_digits fuel n)%nat ∧
  ∀ k : nat, (1 ≤ k)%nat → n < 10 ^ Z.of_nat k → (count_digits fuel n ≤ k)%nat.
Proof.
  revert n. induction fuel as [|fuel IH]; intros n Hn.
  - cbn [count_digits]. change (2 ^ Z.of_nat 1) with 2 in Hn. split_and!; [cbn; lia|lia|lia].
  - cbn [count_digits]. destruct (Z.ltb_spec n 10) as [Hlt|Hge]; [split_and!; [cbn; lia|lia|lia]|].
    rewrite Nat2Z.inj_succ, Z.pow_succ_r in Hn by lia.
    destruct (IH (n / 10)) as (H1 & H2 & H3).
    { split; [apply Z.div_pos; lia|]. apply Z.div_lt_upper_bound; lia. }
    split_and!; [|lia|].
    + rewrite Nat2Z.inj_succ, Z.pow_succ_r by lia. pose proof (Z.div_mod n 10). pose proof (Z.mod_pos_bound n 10). lia.
    + intros [|[|k]] Hk Hnk; [lia|cbn in Hnk; lia|]. apply le_n_S, H3; [lia|].
      rewrite (Nat2Z.inj_succ (S k)), Z.pow_succ_r in Hnk by lia. apply Z.div_lt_upper_bound; lia.
Qed.

Lemma num_digits_spec n :
  0 ≤ n → n < 10 ^ Z.of_nat (num_digits n) ∧ (1 ≤ num_digits n)%nat ∧
  ∀ k : nat, (1 ≤ k)%nat → n < 10 ^ Z.of_nat k → (num_digits n ≤ k)%nat.
Proof.
  intros Hn. apply count_digits_spec. split; [done|]. rewrite Nat2Z.inj_succ, Z2Nat.id by apply Z.log2_nonneg.
  destruct (Z.eq_dec n 0) as [->|]; [done|]. apply Z.log2_spec. lia.
Qed.

(** A number that fits is printed in exactly [width] digits. *)
Lemma zero_padded_digits (width : nat) n :
  (1 ≤ width)%nat → 0 ≤ n < 10 ^ Z.of_nat width → zero_padded width n = dec_digits width n.
Proof.
  intros Hw Hn. unfold zero_padded, sign. rewrite (proj2 (Z.ltb_ge n 0)), Z.abs_eq by lia. cbn [app length].
  destruct (num_digits_spec n) as (_ & _ & Hk); [lia|]. specialize (Hk width Hw ltac:(lia)).
  f_equal. lia.
Qed.

Lemma space_padded_digits (width : nat) n :
  (2 ≤ width)%nat → 10 ^ (Z.of_nat width - 1) ≤ n < 10 ^ Z.of_nat width → space_padded width n = dec_digits width n.
Proof.
  intros Hw Hn. assert (0 < 10 ^ (Z.of_nat width - 1)) by (apply Z.pow_pos_nonneg; lia).
  unfold space_padded, decimal, sign. rewrite (proj2 (Z.ltb_ge n 0)), Z.abs_eq by lia. cbn [app length].
  destruct (num_digits_spec n) as (Hlt & H1 & Hk); [lia|]. specialize (Hk width ltac:(lia) ltac:(lia)).
  assert (num_digits n = width) as ->.
  { assert (Z.of_nat width - 1 < Z.of_nat (num_digits n)); [|lia]. apply (Z.pow_lt_mono_r_iff 10); lia. }
  rewrite length_dec_digits, Nat.sub_diag. done.
Qed.

(** At least [width] characters. *)
Lemma length_space_padded width v : (width ≤ length (space_padded width v))%nat.
Proof. unfold space_padded. rewrite length_app, length_replicate. lia. Qed.

Lemma length_zero_padded width v : (width ≤ length (zero_padded width v))%nat.
Proof. unfold zero_padded. rewrite length_app, length_dec_digits. lia. Qed.

Lemma decimal_reads n : 0 ≤ n → dec_value (decimal n) = n.
Proof.
  intros Hn. unfold decimal, sign. rewrite (proj2 (Z.ltb_ge n 0)), Z.abs_eq by lia. cbn [app].
  rewrite dec_value_digits. apply Z.mod_small. split; [done|]. by apply num_digits_spec.
Qed.
