(* ===== verification/Endian.v ===== *)
(** * Byte order (muduo/net/Endian.h)

    The memory image of machine integers on a host of either byte order, and
    the six conversion functions of [muduo::net::sockets].  [htobe64] and its
    companions of <endian.h> exchange the bytes on a little-endian host and
    are the identity on a big-endian one.  The byte order is a parameter
    ([HostOrder]), so every theorem holds on both kinds of host. *)
From Stdlib Require Import Strings.Byte.
From stdpp Require Import base numbers list.
From S2P Require Import Prelude.
Open Scope Z_scope.

(** ** Little- and big-endian byte strings *)

Fixpoint le_bytes (n : nat) (x : Z) : list byte :=
  match n with
  | O => []
  | S n => byte_of_Z x :: le_bytes n (x / 256)
  end.

Fixpoint le_value (bs : list byte) : Z :=
  match bs with
  | [] => 0
  | b :: bs => Z_of_byte b + 256 * le_value bs
  end.

Definition be_bytes (n : nat) (x : Z) : list byte := reverse (le_bytes n x).
Definition be_value (bs : list byte) : Z := le_value (reverse bs).

(** ** The host *)

(** [true] on a little-endian host. *)
Class HostOrder := host_is_little : bool.

Section Host.
Context `{HostOrder}.

(** The bytes of an [n]-byte integer in memory, and the integer they hold. *)
Definition host_bytes (n : nat) (x : Z) : list byte :=
  if host_is_little then le_bytes n x else be_bytes n x.
Definition host_value (bs : list byte) : Z :=
  if host_is_little then le_value bs else be_value bs.

Definition bswap (n : nat) (x : Z) : Z := le_value (reverse (le_bytes n x)).
Definition htobe (n : nat) (x : Z) : Z := if host_is_little then bswap n x else x.
Definition betoh (n : nat) (x : Z) : Z := if host_is_little then bswap n x else x.

Definition hostToNetwork64 (host64 : Z) : Z := htobe 8 host64.
Definition hostToNetwork32 (host32 : Z) : Z := htobe 4 host32.
Definition hostToNetwork16 (host16 : Z) : Z := htobe 2 host16.
Definition networkToHost64 (net64 : Z) : Z := betoh 8 net64.
Definition networkToHost32 (net32 : Z) : Z := betoh 4 net32.
Definition networkToHost16 (net16 : Z) : Z := betoh 2 net16.
End Host.

(** ** Facts *)

Definition width (n : nat) : Z := 8 * Z.of_nat n.

Lemma pow2_width_S n : 2 ^ width (S n) = 256 * 2 ^ width n.
Proof.
  unfold width. replace (8 * Z.of_nat (S n)) with (8 + 8 * Z.of_nat n) by lia.
  rewrite Z.pow_add_r by lia. done.
Qed.

Lemma length_le_bytes n x : length (le_bytes n x) = n.
Proof. revert x. induction n; intros; simpl; auto. Qed.

Lemma le_value_range bs : 0 ≤ le_value bs < 2 ^ width (length bs).
Proof.
  induction bs as [|b bs IH]; simpl length.
  - done.
  - rewrite pow2_width_S. simpl. pose proof (Z_of_byte_range b). lia.
Qed.

Lemma le_value_bytes n x : le_value (le_bytes n x) = x mod 2 ^ width n.
Proof.
  revert x. induction n as [|n IH]; intros x; simpl.
  - by rewrite Z.mod_1_r.
  - rewrite IH, Z_of_byte_of_Z, pow2_width_S.
    rewrite (Z.rem_mul_r x 256) by (unfold width; lia). lia.
Qed.

Lemma le_bytes_value bs : le_bytes (length bs) (le_value bs) = bs.
Proof.
  induction bs as [|b bs IH]; simpl; [done|].
  pose proof (Z_of_byte_range b).
  f_equal.
  - rewrite <- (byte_of_Z_of_byte b) at 2. apply (inj Z_of_byte).
    rewrite !Z_of_byte_of_Z, (Z.mul_comm 256), Z.mod_add by lia. done.
  - rewrite (Z.mul_comm 256), Z.div_add, Z.div_small by lia.
    by rewrite Z.add_0_l.
Qed.

Lemma le_value_inj bs bs' : length bs = length bs' → le_value bs = le_value bs' → bs = bs'.
Proof. intros Hl Hv. by rewrite <- (le_bytes_value bs), Hl, Hv, le_bytes_value. Qed.

(** Only the low [8 n] bits of the integer matter. *)
Lemma le_bytes_mod n x : le_bytes n (x mod 2 ^ width n) = le_bytes n x.
Proof.
  apply le_value_inj; rewrite ?length_le_bytes; [done|].
  by rewrite !le_value_bytes, Zmod_mod.
Qed.

Section Facts.
Context `{HostOrder}.

Lemma length_be_bytes n x : length (be_bytes n x) = n.
Proof. unfold be_bytes. by rewrite length_reverse, length_le_bytes. Qed.

Lemma length_host_bytes n x : length (host_bytes n x) = n.
Proof. unfold host_bytes. case_match; rewrite ?length_be_bytes, ?length_le_bytes; done. Qed.

Lemma be_value_bytes n x : be_value (be_bytes n x) = x mod 2 ^ width n.
Proof. unfold be_value, be_bytes. by rewrite reverse_involutive, le_value_bytes. Qed.

(** The image in memory of [htobe x] is the big-endian form of [x]. *)
Lemma host_bytes_htobe n x : host_bytes n (htobe n x) = be_bytes n x.
Proof.
  unfold host_bytes, htobe. case_match; [|done].
  unfold bswap. fold (be_bytes n x).
  rewrite <- (length_be_bytes n x) at 1. apply le_bytes_value.
Qed.

Lemma betoh_host_value n bs :
  length bs = n → betoh n (host_value bs) = be_value bs.
Proof.
  intros <-. unfold betoh, host_value. case_match; [|done].
  unfold bswap, be_value. by rewrite le_bytes_value.
Qed.

Lemma host_value_range bs : 0 ≤ host_value bs < 2 ^ width (length bs).
Proof.
  unfold host_value, be_value. case_match; [apply le_value_range|].
  rewrite <- (length_reverse bs). apply le_value_range.
Qed.

Lemma host_bytes_mod n x : host_bytes n (x mod 2 ^ width n) = host_bytes n x.
Proof. unfold host_bytes, be_bytes. by rewrite le_bytes_mod. Qed.

Lemma be_bytes_mod n x : be_bytes n (x mod 2 ^ width n) = be_bytes n x.
Proof. unfold be_bytes. by rewrite le_bytes_mod. Qed.
End Facts.
