(* ===== verification/Buffer.v ===== *)
(** * The byte buffer (muduo/net/Buffer.h, Buffer.cc)

    [Buffer] is the vector of bytes with its two indices; a [const char*] into
    it is the offset from the beginning of the vector.  [size_t] arithmetic
    wraps at 64 bits as it does in the source.  The abstract view of a buffer
    is its content, the bytes between the two indices; the specifications say
    what each operation does to the content, and [exec_refines] relates every
    run of operations with the run on a plain byte queue. *)
From Stdlib Require Import Strings.Byte.
From stdpp Require Import base numbers list strings.
From S2P Require Import Prelude Endian.
Open Scope Z_scope.
Open Scope muduo_scope.

(** ** The standard library operations the class uses *)

(** [std::vector<char>::max_size()]. *)
Definition vector_max_size : Z := 2 ^ 63 - 1.

(** [v.resize(n)]: new elements are zero. *)
Definition resize (v : list byte) (n : Z) : outcome (list byte) :=
  if n <=? vector_max_size
  then Ok (take (Z.to_nat n) v ++ replicate (Z.to_nat (n - size_of v)) x00)
  else Fault LengthError.

(** [std::copy] of [src] to offset [off] of the vector. *)
Definition copy_to (dst : list byte) (off : Z) (src : list byte) : outcome (list byte) :=
  if (0 <=? off) && (off + size_of src <=? size_of dst)
  then Ok (take (Z.to_nat off) dst ++ src ++ drop (Z.to_nat (off + size_of src)) dst)
  else Fault OutOfRange.

(** Read [len] bytes at offset [off]. *)
Definition load (src : list byte) (off len : Z) : outcome (list byte) :=
  if (0 <=? off) && (0 <=? len) && (off + len <=? size_of src)
  then Ok (slice src off (off + len))
  else Fault OutOfRange.

(** [std::search]: the offset of the first occurrence of [pat], the length of
    the text when there is none. *)
Fixpoint search (text pat : list byte) : nat :=
  if bool_decide (pat `prefix_of` text) then 0%nat
  else match text with
       | [] => 0%nat
       | _ :: text' => S (search text' pat)
       end.

(** [memchr]: the offset of the first byte equal to [c]. *)
Fixpoint memchr (text : list byte) (c : byte) : option nat :=
  match text with
  | [] => None
  | b :: text' => if bool_decide (b = c) then Some 0%nat else S <$> memchr text' c
  end.

(** ** The class *)

Record Buffer := mkBuffer {
  buffer_ : list byte;
  readerIndex_ : Z;
  writerIndex_ : Z
}.

#[export] Instance Buffer_eq_dec : EqDecision Buffer.
Proof. solve_decision. Defined.

Definition kCheapPrepend : Z := 8.
Definition kInitialSize : Z := 1024.
Definition kCRLF : list byte := [x0d; x0a].

Definition readableBytes (b : Buffer) : Z := u64 (writerIndex_ b - readerIndex_ b).
Definition writableBytes (b : Buffer) : Z := u64 (size_of (buffer_ b) - writerIndex_ b).
Definition prependableBytes (b : Buffer) : Z := readerIndex_ b.
Definition peek (b : Buffer) : Z := readerIndex_ b.
Definition beginWrite (b : Buffer) : Z := writerIndex_ b.

Definition Buffer_new (initialSize : Z) : outcome Buffer :=
  v ← resize [] (u64 (kCheapPrepend + initialSize));
  let b := mkBuffer v kCheapPrepend kCheapPrepend in
  _ ← assertb 53 (readableBytes b =? 0);
  _ ← assertb 54 (writableBytes b =? initialSize);
  _ ← assertb 55 (prependableBytes b =? kCheapPrepend);
  mret b.

Definition swap (b rhs : Buffer) : Buffer * Buffer :=
  (mkBuffer (buffer_ rhs) (readerIndex_ rhs) (writerIndex_ rhs),
   mkBuffer (buffer_ b) (readerIndex_ b) (writerIndex_ b)).

(** [std::search(start, beginWrite(), kCRLF, kCRLF+2)], [NULL] as [None]. *)
Definition search_crlf (b : Buffer) (start : Z) : option Z :=
  let crlf := start + Z.of_nat (search (slice (buffer_ b) start (beginWrite b)) kCRLF) in
  if crlf =? beginWrite b then None else Some crlf.

Definition findCRLF (b : Buffer) : option Z := search_crlf b (peek b).

Definition findCRLF_from (b : Buffer) (start : Z) : outcome (option Z) :=
  _ ← assertb 89 (peek b <=? start);
  _ ← assertb 90 (start <=? beginWrite b);
  mret (search_crlf b start).

Definition findEOL (b : Buffer) : option Z :=
  (λ n, peek b + Z.of_nat n) <$>
    memchr (slice (buffer_ b) (peek b) (peek b + readableBytes b)) x0a.

Definition findEOL_from (b : Buffer) (start : Z) : outcome (option Z) :=
  _ ← assertb 104 (peek b <=? start);
  _ ← assertb 105 (start <=? beginWrite b);
  mret ((λ n, start + Z.of_nat n) <$> memchr (slice (buffer_ b) start (beginWrite b)) x0a).

Definition retrieveAll (b : Buffer) : Buffer :=
  mkBuffer (buffer_ b) kCheapPrepend kCheapPrepend.

Definition retrieve (b : Buffer) (len : Z) : outcome Buffer :=
  _ ← assertb 115 (len <=? readableBytes b);
  if len <? readableBytes b
  then mret (mkBuffer (buffer_ b) (u64 (readerIndex_ b + len)) (writerIndex_ b))
  else mret (retrieveAll b).

Definition retrieveUntil (b : Buffer) (end_ : Z) : outcome Buffer :=
  _ ← assertb 128 (peek b <=? end_);
  _ ← assertb 129 (end_ <=? beginWrite b);
  retrieve b (end_ - peek b).

Definition retrieveInt64 (b : Buffer) : outcome Buffer := retrieve b 8.
Definition retrieveInt32 (b : Buffer) : outcome Buffer := retrieve b 4.
Definition retrieveInt16 (b : Buffer) : outcome Buffer := retrieve b 2.
Definition retrieveInt8 (b : Buffer) : outcome Buffer := retrieve b 1.

Definition retrieveAsString (b : Buffer) (len : Z) : outcome (list byte * Buffer) :=
  _ ← assertb 166 (len <=? readableBytes b);
  result ← load (buffer_ b) (peek b) len;
  b' ← retrieve b len;
  mret (result, b').

Definition retrieveAllAsString (b : Buffer) : outcome (list byte * Buffer) :=
  retrieveAsString b (readableBytes b).

(** A [StringPiece] into the buffer: an offset and an [int] length. *)
Definition toStringPiece (b : Buffer) : Z * Z := (peek b, i32 (readableBytes b)).

Definition hasWritten (b : Buffer) (len : Z) : outcome Buffer :=
  _ ← assertb 211 (len <=? writableBytes b);
  mret (mkBuffer (buffer_ b) (readerIndex_ b) (u64 (writerIndex_ b + len))).

Definition unwrite (b : Buffer) (len : Z) : outcome Buffer :=
  _ ← assertb 217 (len <=? readableBytes b);
  mret (mkBuffer (buffer_ b) (readerIndex_ b) (u64 (writerIndex_ b - len))).

Definition makeSpace (b : Buffer) (len : Z) : outcome Buffer :=
  if u64 (writableBytes b + prependableBytes b) <? u64 (len + kCheapPrepend)
  then
    v ← resize (buffer_ b) (u64 (writerIndex_ b + len));
    mret (mkBuffer v (readerIndex_ b) (writerIndex_ b))
  else
    _ ← assertb 400 (kCheapPrepend <? readerIndex_ b);
    let readable := readableBytes b in
    data ← load (buffer_ b) (readerIndex_ b) (writerIndex_ b - readerIndex_ b);
    v ← copy_to (buffer_ b) kCheapPrepend data;
    let b' := mkBuffer v kCheapPrepend (u64 (kCheapPrepend + readable)) in
    _ ← assertb 407 (readable =? readableBytes b');
    mret b'.

Definition ensureWritableBytes (b : Buffer) (len : Z) : outcome Buffer :=
  b' ← (if writableBytes b <? len then makeSpace b len else mret b);
  _ ← assertb 200 (len <=? writableBytes b');
  mret b'.

(** [append(data, len)] with [data] pointing at offset [off] of [src]. *)
Definition append_raw (b : Buffer) (src : list byte) (off len : Z) : outcome Buffer :=
  b1 ← ensureWritableBytes b len;
  data ← load src off len;
  v ← copy_to (buffer_ b1) (beginWrite b1) data;
  hasWritten (mkBuffer v (readerIndex_ b1) (writerIndex_ b1)) len.

Definition append (b : Buffer) (data : list byte) : outcome Buffer :=
  append_raw b data 0 (size_of data).

Definition prepend (b : Buffer) (data : list byte) : outcome Buffer :=
  _ ← assertb 356 (size_of data <=? prependableBytes b);
  let r := u64 (readerIndex_ b - size_of data) in
  v ← copy_to (buffer_ b) r data;
  mret (mkBuffer v r (writerIndex_ b)).

Definition shrink (b : Buffer) (reserve : Z) : outcome Buffer :=
  other ← Buffer_new kInitialSize;
  other ← ensureWritableBytes other (u64 (readableBytes b + reserve));
  other ← append_raw other (buffer_ b) (toStringPiece b).1 (u64 (toStringPiece b).2);
  mret (swap b other).1.

(** ** Integers in network byte order *)

Section Integers.
Context `{HostOrder}.

Definition appendInt64 (b : Buffer) (x : Z) : outcome Buffer :=
  let be64 := i64 (hostToNetwork64 (u64 x)) in append b (host_bytes 8 be64).
Definition appendInt32 (b : Buffer) (x : Z) : outcome Buffer :=
  let be32 := i32 (hostToNetwork32 (u32 x)) in append b (host_bytes 4 be32).
Definition appendInt16 (b : Buffer) (x : Z) : outcome Buffer :=
  let be16 := i16 (hostToNetwork16 (u16 x)) in append b (host_bytes 2 be16).
Definition appendInt8 (b : Buffer) (x : Z) : outcome Buffer :=
  append b (host_bytes 1 x).

Definition peekInt64 (b : Buffer) : outcome Z :=
  _ ← assertb 292 (8 <=? readableBytes b);
  bs ← load (buffer_ b) (peek b) 8;
  let be64 := i64 (host_value bs) in mret (i64 (networkToHost64 (u64 be64))).
Definition peekInt32 (b : Buffer) : outcome Z :=
  _ ← assertb 304 (4 <=? readableBytes b);
  bs ← load (buffer_ b) (peek b) 4;
  let be32 := i32 (host_value bs) in mret (i32 (networkToHost32 (u32 be32))).
Definition peekInt16 (b : Buffer) : outcome Z :=
  _ ← assertb 312 (2 <=? readableBytes b);
  bs ← load (buffer_ b) (peek b) 2;
  let be16 := i16 (host_value bs) in mret (i16 (networkToHost16 (u16 be16))).
Definition peekInt8 (b : Buffer) : outcome Z :=
  _ ← assertb 320 (1 <=? readableBytes b);
  bs ← load (buffer_ b) (peek b) 1;
  mret (i8 (host_value bs)).

Definition readInt64 (b : Buffer) : outcome (Z * Buffer) :=
  result ← peekInt64 b; b' ← retrieveInt64 b; mret (result, b').
Definition readInt32 (b : Buffer) : outcome (Z * Buffer) :=
  result ← peekInt32 b; b' ← retrieveInt32 b; mret (result, b').
Definition readInt16 (b : Buffer) : outcome (Z * Buffer) :=
  result ← peekInt16 b; b' ← retrieveInt16 b; mret (result, b').
Definition readInt8 (b : Buffer) : outcome (Z * Buffer) :=
  result ← peekInt8 b; b' ← retrieveInt8 b; mret (result, b').

Definition prependInt64 (b : Buffer) (x : Z) : outcome Buffer :=
  let be64 := i64 (hostToNetwork64 (u64 x)) in prepend b (host_bytes 8 be64).
Definition prependInt32 (b : Buffer) (x : Z) : outcome Buffer :=
  let be32 := i32 (hostToNetwork32 (u32 x)) in prepend b (host_bytes 4 be32).
Definition prependInt16 (b : Buffer) (x : Z) : outcome Buffer :=
  let be16 := i16 (hostToNetwork16 (u16 x)) in prepend b (host_bytes 2 be16).
Definition prependInt8 (b : Buffer) (x : Z) : outcome Buffer :=
  prepend b (host_bytes 1 x).
End Integers.

(** ** Scatter read *)

(** What [readv(2)] does: an error with its [errno], or the bytes it stored,
    filling the vectors in order. *)
Inductive ReadvResult :=
  | ReadvError (errno : Z)
  | ReadvBytes (bytes : list byte).

Definition extrabuf_size : Z := 65536.

Section ReadFd.
Context (readv : Z → list Z → ReadvResult).

Definition readFd (b : Buffer) (fd : Z) : outcome (Z * option Z * Buffer) :=
  let writable := writableBytes b in
  let iov := if writable <? extrabuf_size then [writable; extrabuf_size] else [writable] in
  match readv fd iov with
  | ReadvError e => mret (-1, Some e, b)
  | ReadvBytes bytes =>
    let n := size_of bytes in
    let extrabuf := drop (Z.to_nat writable) bytes in
    v ← copy_to (buffer_ b) (writerIndex_ b) (take (Z.to_nat writable) bytes);
    if n <=? writable
    then mret (n, None, mkBuffer v (readerIndex_ b) (u64 (writerIndex_ b + n)))
    else
      b' ← append_raw (mkBuffer v (readerIndex_ b) (size_of v)) extrabuf 0 (n - writable);
      mret (n, None, b')
  end.
End ReadFd.

(** ** Invariant and content *)

Record buffer_ok (b : Buffer) : Prop := {
  ok_reader : 0 ≤ readerIndex_ b;
  ok_order : readerIndex_ b ≤ writerIndex_ b;
  ok_writer : writerIndex_ b ≤ size_of (buffer_ b);
  ok_size : size_of (buffer_ b) ≤ vector_max_size
}.

Definition content (b : Buffer) : list byte :=
  slice (buffer_ b) (readerIndex_ b) (writerIndex_ b).

Definition represents (b : Buffer) (c : list byte) : Prop :=
  buffer_ok b ∧ content b = c.

(** Making room keeps the cheap prepend area, never moves the content
    towards the end and never shrinks the vector. *)
Definition room_kept (b b' : Buffer) : Prop :=
  Z.min kCheapPrepend (readerIndex_ b) ≤ readerIndex_ b' ≤ readerIndex_ b ∧
  size_of (buffer_ b) ≤ size_of (buffer_ b').

(** [len] bytes can be added: the vector can grow that much, or there is room. *)
Definition fits (b : Buffer) (len : Z) : Prop :=
  writerIndex_ b + len ≤ vector_max_size ∨
  len + kCheapPrepend ≤ writableBytes b + prependableBytes b.

#[export] Instance fits_dec b len : Decision (fits b len).
Proof. unfold fits. apply _. Defined.

Section Specs.
Implicit Types (b : Buffer) (c data : list byte) (len : Z).

Lemma readableBytes_eq b : buffer_ok b → readableBytes b = writerIndex_ b - readerIndex_ b.
Proof.
  intros []. unfold readableBytes. apply to_unsigned_small.
  unfold vector_max_size in *. lia.
Qed.

Lemma writableBytes_eq b : buffer_ok b → writableBytes b = size_of (buffer_ b) - writerIndex_ b.
Proof.
  intros []. unfold writableBytes. apply to_unsigned_small.
  unfold vector_max_size in *. lia.
Qed.

Lemma size_of_content b : buffer_ok b → size_of (content b) = writerIndex_ b - readerIndex_ b.
Proof. intros []. apply size_of_slice; lia. Qed.

Lemma readableBytes_content b : buffer_ok b → readableBytes b = size_of (content b).
Proof. intros. by rewrite readableBytes_eq, size_of_content. Qed.

Lemma copy_to_spec dst off src :
  0 ≤ off → off + size_of src ≤ size_of dst →
  copy_to dst off src ⇓ λ v,
    size_of v = size_of dst ∧ slice v off (off + size_of src) = src ∧
    (∀ i j, 0 ≤ i → j ≤ off → slice v i j = slice dst i j) ∧
    (∀ i j, off + size_of src ≤ i → slice v i j = slice dst i j).
Proof.
  intros Ho Hs. unfold copy_to.
  replace ((0 <=? off) && (off + size_of src <=? size_of dst)) with true by lia.
  pose proof (size_of_nonneg src). simpl.
  pose proof (size_of_take off dst ltac:(lia)) as Ht.
  split; [|split; [|split]].
  - rewrite !size_of_app, Ht, size_of_drop by lia. lia.
  - rewrite slice_app_r, Ht by lia. rewrite slice_app_l by lia.
    rewrite Z.sub_diag. replace (off + size_of src - off) with (size_of src) by lia.
    apply slice_all.
  - intros i j Hi Hj. rewrite slice_app_l by lia.
    unfold slice. rewrite skipn_firstn_comm, take_take. f_equal. lia.
  - intros i j Hi. rewrite slice_app_r, Ht by lia. rewrite slice_app_r by lia.
    unfold slice. rewrite drop_drop. f_equal; [lia|f_equal; lia].
Qed.

Lemma load_spec src off len :
  0 ≤ off → 0 ≤ len → off + len ≤ size_of src →
  load src off len = Ok (slice src off (off + len)).
Proof.
  intros. unfold load.
  by replace ((0 <=? off) && (0 <=? len) && (off + len <=? size_of src)) with true by lia.
Qed.

Lemma resize_spec v n :
  size_of v ≤ n ≤ vector_max_size →
  resize v n ⇓ λ v', size_of v' = n ∧
    (∀ i j, 0 ≤ i → j ≤ size_of v → slice v' i j = slice v i j).
Proof.
  intros Hn. unfold resize. replace (n <=? vector_max_size) with true by lia. simpl.
  rewrite take_ge by (unfold size_of in *; lia). split.
  - rewrite size_of_app. unfold size_of at 2. rewrite length_replicate. lia.
  - intros. by apply slice_app_l.
Qed.

(** [makeSpace]: the content is kept, [len] bytes become writable, and the
    vector only grows when the free space at both ends is too small. *)
Lemma makeSpace_spec b len :
  buffer_ok b → writableBytes b < len → fits b len →
  makeSpace b len ⇓ λ b',
    buffer_ok b' ∧ content b' = content b ∧ len ≤ writableBytes b' ∧
    room_kept b b' ∧
    (len + kCheapPrepend ≤ writableBytes b + prependableBytes b →
       size_of (buffer_ b') = size_of (buffer_ b)).
Proof.
  intros Hok Hlt Hmax. pose proof Hok as [Hr Hrw Hw Hs].
  pose proof (writableBytes_eq b Hok) as Hwr.
  unfold fits, makeSpace, prependableBytes, kCheapPrepend, vector_max_size in *.
  rewrite !to_unsigned_small by lia.
  case_match.
  - ystep resize_spec; [unfold vector_max_size; lia|].
    intros v [Hv Hsl]. simpl.
    assert (buffer_ok (mkBuffer v (readerIndex_ b) (writerIndex_ b))) as Hok'.
    { split; simpl; unfold vector_max_size; lia. }
    rewrite writableBytes_eq by done. unfold content. simpl.
    split; [done|]. split; [apply Hsl; lia|]. unfold room_kept. simpl. lia.
  - yassert. rewrite load_spec by lia. simpl.
    replace (readerIndex_ b + (writerIndex_ b - readerIndex_ b)) with (writerIndex_ b) by lia.
    fold (content b). pose proof (size_of_content b Hok) as Hc.
    ystep copy_to_spec; [lia|lia|]. intros v (Hv & Hcp & _).
    rewrite readableBytes_eq by done. rewrite !to_unsigned_small by lia.
    set (b' := mkBuffer _ _ _).
    assert (buffer_ok b') as Hok'.
    { unfold b'. split; simpl; unfold vector_max_size; lia. }
    apply yields_bind, yields_assert.
    { rewrite readableBytes_eq by done. simpl. lia. }
    simpl. rewrite writableBytes_eq by done. unfold content in *. simpl.
    split; [done|]. split; [|unfold room_kept, kCheapPrepend; simpl; lia].
    rewrite <- Hcp at 1. f_equal. lia.
Qed.

Lemma ensureWritableBytes_spec b len :
  buffer_ok b → 0 ≤ len → fits b len →
  ensureWritableBytes b len ⇓ λ b',
    buffer_ok b' ∧ content b' = content b ∧ len ≤ writableBytes b' ∧
    room_kept b b' ∧
    (len ≤ writableBytes b → b' = b) ∧
    (len + kCheapPrepend ≤ writableBytes b + prependableBytes b →
       size_of (buffer_ b') = size_of (buffer_ b)).
Proof.
  intros Hok Hlen Hmax. unfold ensureWritableBytes.
  destruct (Z.ltb_spec (writableBytes b) len) as [Hlt|Hge].
  - ystep makeSpace_spec; [done..|]. intros b' (Hok' & Hc & Hw & Hr & Hg).
    yassert. simpl. repeat split_and; try done. lia.
  - apply yields_bind. simpl. yassert. simpl. repeat split_and; unfold room_kept; try done; lia.
Qed.

Lemma hasWritten_spec b len :
  buffer_ok b → 0 ≤ len ≤ writableBytes b →
  hasWritten b len = Ok (mkBuffer (buffer_ b) (readerIndex_ b) (writerIndex_ b + len)).
Proof.
  intros Hok Hlen. pose proof Hok as []. unfold hasWritten.
  replace (len <=? writableBytes b) with true by lia. simpl.
  rewrite writableBytes_eq in Hlen by done.
  by rewrite to_unsigned_small by (unfold vector_max_size in *; lia).
Qed.

Lemma append_raw_spec b src off len :
  buffer_ok b → 0 ≤ off → 0 ≤ len → off + len ≤ size_of src →
  fits b len →
  append_raw b src off len ⇓ λ b',
    represents b' (content b ++ slice src off (off + len)) ∧
    room_kept b b' ∧
    (len + kCheapPrepend ≤ writableBytes b + prependableBytes b →
       size_of (buffer_ b') = size_of (buffer_ b)).
Proof.
  intros Hok Hoff Hlen Hsrc Hmax. unfold append_raw.
  ystep ensureWritableBytes_spec; [done..|].
  intros b1 (Hok1 & Hc1 & Hw1 & Hr1 & _ & Hg1).
  rewrite load_spec by lia. simpl.
  pose proof (size_of_slice src off (off + len) ltac:(lia) ltac:(lia)) as Hd.
  pose proof (writableBytes_eq b1 Hok1) as Hwb. pose proof Hok1 as [R1 RW1 W1 S1].
  ystep copy_to_spec; [unfold beginWrite; lia..|].
  unfold beginWrite. rewrite Hd. intros v (Hv & Hcp & Hlow & _).
  replace (off + len - off) with len in * by lia.
  assert (buffer_ok (mkBuffer v (readerIndex_ b1) (writerIndex_ b1))) as Hok2.
  { split; simpl; lia. }
  rewrite hasWritten_spec; [|done|rewrite writableBytes_eq by done; simpl; lia].
  simpl. split; [split|split].
  - split; simpl; lia.
  - unfold content in *. simpl.
    rewrite <- (slice_app_slice v (readerIndex_ b1) (writerIndex_ b1)) by lia.
    rewrite Hlow by lia. rewrite Hc1, Hcp. done.
  - unfold room_kept in *. simpl. lia.
  - intros Hfit. rewrite Hv. auto.
Qed.

(** Appending adds the bytes at the end of the content. *)
Lemma append_spec b data :
  buffer_ok b → fits b (size_of data) →
  append b data ⇓ λ b', represents b' (content b ++ data) ∧
    room_kept b b' ∧
    (size_of data + kCheapPrepend ≤ writableBytes b + prependableBytes b →
       size_of (buffer_ b') = size_of (buffer_ b)).
Proof.
  intros Hok Hmax. unfold append. pose proof (size_of_nonneg data).
  eapply yields_mono; [apply append_raw_spec; auto; lia|].
  rewrite Z.add_0_l, slice_all. done.
Qed.

(** Without a bound on the sizes: appending works, or the vector cannot grow any more. *)
Lemma append_or_spec b data :
  buffer_ok b → size_of data ≤ vector_max_size →
  append b data ⇓[λ f, f = LengthError ∧ ¬ fits b (size_of data)] λ b',
    represents b' (content b ++ data) ∧ room_kept b b'.
Proof.
  intros Hok Hd. pose proof Hok as [].
  destruct (decide (fits b (size_of data))) as [Hfit|Hno].
  { eapply yields_yields_or, yields_mono; [by apply append_spec|]. by intros b' (? & ? & _). }
  enough (append b data = Fault LengthError) as -> by done.
  pose proof (writableBytes_eq b Hok) as Hwr. unfold fits, kCheapPrepend in Hno.
  unfold append, append_raw, ensureWritableBytes, makeSpace, prependableBytes in *.
  unfold vector_max_size, kCheapPrepend in *.
  rewrite (proj2 (Z.ltb_lt (writableBytes b) (size_of data))) by lia.
  rewrite !to_unsigned_small by lia. rewrite (proj2 (Z.ltb_lt _ _)) by lia.
  unfold resize, vector_max_size. rewrite (proj2 (Z.leb_gt _ _)) by lia. done.
Qed.
End Specs.

Section MoreSpecs.
Implicit Types (b : Buffer) (c data : list byte) (len : Z).

(** Retrieving drops bytes from the front of the content; once everything is
    consumed both indices go back to [kCheapPrepend]. *)
Lemma retrieve_spec b len :
  buffer_ok b → kCheapPrepend ≤ size_of (buffer_ b) → 0 ≤ len ≤ readableBytes b →
  retrieve b len ⇓ λ b',
    represents b' (drop (Z.to_nat len) (content b)) ∧
    buffer_ b' = buffer_ b ∧
    (len = readableBytes b → readerIndex_ b' = kCheapPrepend ∧ writerIndex_ b' = kCheapPrepend) ∧
    Z.min kCheapPrepend (readerIndex_ b) ≤ readerIndex_ b' ∧
    writerIndex_ b' ≤ Z.max kCheapPrepend (writerIndex_ b).
Proof.
  intros Hok Hs Hlen. pose proof Hok as [R RW W S]. unfold retrieve. yassert.
  rewrite readableBytes_eq in Hlen by done.
  case_match eqn:E; rewrite readableBytes_eq in * by done; simpl.
  - rewrite to_unsigned_small by (unfold vector_max_size in *; lia).
    split; [split; [split; simpl; lia|]|split; [done|lia]].
    unfold content. simpl. rewrite drop_slice by lia. done.
  - unfold retrieveAll, kCheapPrepend in *.
    split; [split; [split; simpl; lia|]|split; [done|simpl; lia]].
    unfold content at 1. simpl. rewrite slice_empty, drop_ge; [done|].
    pose proof (size_of_content b Hok). unfold size_of in *. lia.
Qed.

Lemma retrieveAll_spec b :
  buffer_ok b → kCheapPrepend ≤ size_of (buffer_ b) → represents (retrieveAll b) [].
Proof.
  intros [R RW W S] Hs. unfold kCheapPrepend in *. split.
  - split; simpl; unfold kCheapPrepend; lia.
  - apply slice_empty.
Qed.

Lemma retrieveUntil_spec b p :
  buffer_ok b → kCheapPrepend ≤ size_of (buffer_ b) → peek b ≤ p ≤ beginWrite b →
  retrieveUntil b p ⇓ λ b',
    represents b' (drop (Z.to_nat (p - peek b)) (content b)) ∧ buffer_ b' = buffer_ b ∧
    Z.min kCheapPrepend (readerIndex_ b) ≤ readerIndex_ b' ∧
    writerIndex_ b' ≤ Z.max kCheapPrepend (writerIndex_ b).
Proof.
  intros Hok Hs Hp. unfold retrieveUntil. do 2 yassert.
  unfold peek, beginWrite in *.
  eapply yields_mono; [apply retrieve_spec; auto; rewrite readableBytes_eq by done; lia|].
  cbv beta. tauto.
Qed.

Lemma retrieveAsString_spec b len :
  buffer_ok b → kCheapPrepend ≤ size_of (buffer_ b) → 0 ≤ len ≤ readableBytes b →
  retrieveAsString b len ⇓ λ '(s, b'),
    s = take (Z.to_nat len) (content b) ∧
    represents b' (drop (Z.to_nat len) (content b)) ∧ buffer_ b' = buffer_ b ∧
    Z.min kCheapPrepend (readerIndex_ b) ≤ readerIndex_ b' ∧
    writerIndex_ b' ≤ Z.max kCheapPrepend (writerIndex_ b).
Proof.
  intros Hok Hs Hlen. pose proof Hok as []. unfold retrieveAsString. yassert.
  rewrite readableBytes_eq in Hlen by done. unfold peek.
  rewrite load_spec by lia. simpl.
  ystep retrieve_spec; [done..|rewrite readableBytes_eq by done; lia|].
  intros b' (Hrep & Hb & _ & Hroom). split; [|done].
  unfold content. rewrite take_slice by lia. done.
Qed.

(** Prepending fits in the room before the content. *)
Lemma prepend_spec b data :
  buffer_ok b → size_of data ≤ prependableBytes b →
  prepend b data ⇓ λ b', represents b' (data ++ content b) ∧
    size_of (buffer_ b') = size_of (buffer_ b) ∧
    readerIndex_ b' = readerIndex_ b - size_of data.
Proof.
  intros Hok Hd. pose proof Hok as []. pose proof (size_of_nonneg data).
  unfold prepend, prependableBytes in *. yassert.
  rewrite to_unsigned_small by (unfold vector_max_size in *; lia).
  ystep copy_to_spec; [lia..|]. intros v (Hv & Hcp & _ & Hhigh).
  replace (readerIndex_ b - size_of data + size_of data) with (readerIndex_ b) in * by lia.
  simpl. split; [split; [split; simpl; lia|]|done].
  unfold content. simpl.
  rewrite <- (slice_app_slice v (readerIndex_ b - size_of data) (readerIndex_ b)) by lia.
  rewrite Hcp, Hhigh by lia. done.
Qed.

Lemma unwrite_spec b len :
  buffer_ok b → 0 ≤ len ≤ readableBytes b →
  unwrite b len ⇓ λ b',
    represents b' (take (Z.to_nat (readableBytes b - len)) (content b)) ∧
    buffer_ b' = buffer_ b ∧ readerIndex_ b' = readerIndex_ b.
Proof.
  intros Hok Hlen. pose proof Hok as []. unfold unwrite. yassert.
  rewrite readableBytes_eq in * by done.
  rewrite to_unsigned_small by (unfold vector_max_size in *; lia). simpl.
  split; [split; [split; simpl; lia|]|done].
  unfold content. simpl. rewrite take_slice by lia. f_equal. lia.
Qed.

(** ** Searching *)

Lemma search_le text pat : (search text pat ≤ length text)%nat.
Proof. induction text; simpl; case_match; simpl; lia. Qed.

Lemma search_found text pat :
  (search text pat < length text)%nat →
  pat `prefix_of` drop (search text pat) text ∧
  ∀ i, (i < search text pat)%nat → ¬ pat `prefix_of` drop i text.
Proof.
  induction text as [|x text IH]; simpl.
  { case_match; simpl; lia. }
  case_bool_decide as Hp; simpl.
  { intros _. split; [done|lia]. }
  intros Hlt. destruct IH as [Hf Hn]; [lia|]. split; [done|].
  intros [|i] Hi; simpl; [done|]. apply Hn. lia.
Qed.

Lemma search_not_found text pat i :
  pat ≠ [] → search text pat = length text → ¬ pat `prefix_of` drop i text.
Proof.
  intros Hne. revert i. induction text as [|x text IH]; intros i; simpl.
  - intros _ Hp. rewrite drop_nil in Hp. by apply prefix_nil_inv in Hp.
  - case_bool_decide as Hp; simpl; [done|]. intros Heq.
    destruct i as [|i]; simpl; [done|]. apply IH. lia.
Qed.

Lemma memchr_spec text ch :
  match memchr text ch with
  | Some n => text !! n = Some ch ∧ ch ∉ take n text
  | None => ch ∉ text
  end.
Proof.
  induction text as [|x text IH]; simpl; [apply not_elem_of_nil|].
  case_bool_decide as Hx.
  - subst. split; [done|]. simpl. apply not_elem_of_nil.
  - destruct (memchr text ch) as [n|]; simpl in *.
    + destruct IH as [Hl Hn]. split; [done|]. by rewrite not_elem_of_cons.
    + by rewrite not_elem_of_cons.
Qed.

(** [findCRLF] gives the first CR LF of the content, or [NULL] if the content
    has none. *)
Definition crlf_at (c : list byte) (i : nat) : Prop := kCRLF `prefix_of` drop i c.

Lemma findCRLF_spec b :
  buffer_ok b →
  match findCRLF b with
  | Some p => ∃ i, p = peek b + Z.of_nat i ∧ (i + 2 ≤ length (content b))%nat ∧
                crlf_at (content b) i ∧ ∀ j, (j < i)%nat → ¬ crlf_at (content b) j
  | None => ∀ i, ¬ crlf_at (content b) i
  end.
Proof.
  intros Hok. pose proof Hok as []. unfold findCRLF, search_crlf, peek, beginWrite.
  fold (content b). pose proof (size_of_content b Hok) as Hsz. unfold size_of in Hsz.
  pose proof (search_le (content b) kCRLF) as Hle.
  destruct (_ =? _) eqn:E.
  - intros i. unfold crlf_at. apply search_not_found; [done|lia].
  - destruct (search_found (content b) kCRLF) as [Hf Hn]; [lia|].
    exists (search (content b) kCRLF). split; [done|]. split; [|done].
    apply prefix_length in Hf. rewrite length_drop in Hf. simpl in Hf. lia.
Qed.
End MoreSpecs.

Section IntegerSpecs.
Context `{HostOrder}.
Implicit Types (b : Buffer).

(** What [hostToNetwork] and the copy of the object representation put in the
    buffer: the two's complement big-endian bytes, on either kind of host. *)
Lemma network_image n w x :
  w = width n → (0 < n)%nat →
  host_bytes n (to_signed w (htobe n (to_unsigned w x))) = be_bytes n x.
Proof.
  intros -> Hn. rewrite <- host_bytes_mod.
  change (?a mod 2 ^ width n) with (to_unsigned (width n) a).
  rewrite to_unsigned_to_signed by (unfold width; lia).
  unfold to_unsigned at 1. rewrite host_bytes_mod, host_bytes_htobe.
  apply be_bytes_mod.
Qed.

Lemma network_value n w bs :
  w = width n → (0 < n)%nat → length bs = n →
  to_signed w (betoh n (to_unsigned w (to_signed w (host_value bs)))) = to_signed w (be_value bs).
Proof.
  intros -> Hn Hl. rewrite to_unsigned_to_signed by (unfold width; lia).
  rewrite to_unsigned_small by (subst; apply host_value_range).
  by rewrite betoh_host_value.
Qed.

Lemma appendInt64_bytes b x : appendInt64 b x = append b (be_bytes 8 x).
Proof. unfold appendInt64, hostToNetwork64. by rewrite network_image by (done || lia). Qed.
Lemma appendInt32_bytes b x : appendInt32 b x = append b (be_bytes 4 x).
Proof. unfold appendInt32, hostToNetwork32. by rewrite network_image by (done || lia). Qed.
Lemma appendInt16_bytes b x : appendInt16 b x = append b (be_bytes 2 x).
Proof. unfold appendInt16, hostToNetwork16. by rewrite network_image by (done || lia). Qed.
Lemma appendInt8_bytes b x : appendInt8 b x = append b (be_bytes 1 x).
Proof. unfold appendInt8, host_bytes. by case_match. Qed.
Lemma prependInt64_bytes b x : prependInt64 b x = prepend b (be_bytes 8 x).
Proof. unfold prependInt64, hostToNetwork64. by rewrite network_image by (done || lia). Qed.
Lemma prependInt32_bytes b x : prependInt32 b x = prepend b (be_bytes 4 x).
Proof. unfold prependInt32, hostToNetwork32. by rewrite network_image by (done || lia). Qed.
Lemma prependInt16_bytes b x : prependInt16 b x = prepend b (be_bytes 2 x).
Proof. unfold prependInt16, hostToNetwork16. by rewrite network_image by (done || lia). Qed.
Lemma prependInt8_bytes b x : prependInt8 b x = prepend b (be_bytes 1 x).
Proof. unfold prependInt8, host_bytes. by case_match. Qed.

(** The bytes a [peek] of [n] bytes sees. *)
Lemma load_peek b n :
  buffer_ok b → (Z.of_nat n ≤ readableBytes b) →
  load (buffer_ b) (peek b) (Z.of_nat n) = Ok (take n (content b)) ∧
  length (take n (content b)) = n.
Proof.
  intros Hok Hn. pose proof Hok as []. rewrite readableBytes_eq in Hn by done.
  unfold peek. rewrite load_spec by lia.
  pose proof (size_of_content b Hok) as Hs. unfold size_of in Hs.
  split; [|rewrite length_take; lia].
  unfold content. rewrite <- (take_slice _ _ (writerIndex_ b)) by lia.
  by rewrite Nat2Z.id.
Qed.

Lemma peekInt64_spec b :
  buffer_ok b → 8 ≤ readableBytes b → peekInt64 b = Ok (i64 (be_value (take 8 (content b)))).
Proof.
  intros Hok Hr. unfold peekInt64, networkToHost64.
  replace (8 <=? readableBytes b) with true by lia. simpl.
  destruct (load_peek b 8 Hok Hr) as [Hl Hn]. change (Z.of_nat 8) with 8 in Hl.
  rewrite Hl. simpl. by rewrite network_value by (done || lia).
Qed.

Lemma peekInt32_spec b :
  buffer_ok b → 4 ≤ readableBytes b → peekInt32 b = Ok (i32 (be_value (take 4 (content b)))).
Proof.
  intros Hok Hr. unfold peekInt32, networkToHost32.
  replace (4 <=? readableBytes b) with true by lia. simpl.
  destruct (load_peek b 4 Hok Hr) as [Hl Hn]. change (Z.of_nat 4) with 4 in Hl.
  rewrite Hl. simpl. by rewrite network_value by (done || lia).
Qed.

Lemma peekInt16_spec b :
  buffer_ok b → 2 ≤ readableBytes b → peekInt16 b = Ok (i16 (be_value (take 2 (content b)))).
Proof.
  intros Hok Hr. unfold peekInt16, networkToHost16.
  replace (2 <=? readableBytes b) with true by lia. simpl.
  destruct (load_peek b 2 Hok Hr) as [Hl Hn]. change (Z.of_nat 2) with 2 in Hl.
  rewrite Hl. simpl. by rewrite network_value by (done || lia).
Qed.

Lemma peekInt8_spec b :
  buffer_ok b → 1 ≤ readableBytes b → peekInt8 b = Ok (i8 (be_value (take 1 (content b)))).
Proof.
  intros Hok Hr. unfold peekInt8.
  replace (1 <=? readableBytes b) with true by lia. simpl.
  destruct (load_peek b 1 Hok Hr) as [Hl Hn]. change (Z.of_nat 1) with 1 in Hl.
  rewrite Hl. simpl. f_equal. f_equal.
  destruct (take 1 (content b)) as [|x [|y l]]; simpl in Hn; [lia| |lia].
  unfold host_value, be_value. by case_match.
Qed.

(** Decoding what was encoded gives the integer back, at each width. *)
Lemma be_decode_encode n w x rest :
  w = width n → (0 < n)%nat → in_signed w x →
  to_signed w (be_value (take n (be_bytes n x ++ rest))) = x.
Proof.
  intros -> Hn Hx. rewrite take_app_length' by (by rewrite length_be_bytes).
  rewrite be_value_bytes.
  change (x mod 2 ^ width n) with (to_unsigned (width n) x).
  rewrite to_signed_to_unsigned. apply to_signed_small; [unfold width; lia|done].
Qed.
End IntegerSpecs.

Section Storage.
Implicit Types (b : Buffer) (data : list byte).

Lemma fresh_ok n :
  0 ≤ n → n + kCheapPrepend ≤ vector_max_size →
  represents (mkBuffer (replicate (Z.to_nat (kCheapPrepend + n)) x00)
                kCheapPrepend kCheapPrepend) [].
Proof.
  intros. unfold kCheapPrepend in *. split; [|apply slice_empty].
  split; cbn [buffer_ readerIndex_ writerIndex_]; unfold size_of;
    rewrite ?length_replicate; lia.
Qed.

Lemma Buffer_new_spec n :
  0 ≤ n → n + kCheapPrepend ≤ vector_max_size →
  Buffer_new n = Ok (mkBuffer (replicate (Z.to_nat (kCheapPrepend + n)) x00)
                       kCheapPrepend kCheapPrepend).
Proof.
  intros Hn Hm. destruct (fresh_ok n Hn Hm) as [Hok _].
  unfold Buffer_new, resize, kCheapPrepend, vector_max_size in *.
  rewrite to_unsigned_small by lia. replace (8 + n <=? 2 ^ 63 - 1) with true by lia.
  change (Ok ?x ≫= ?f) with (f x). cbv beta zeta.
  rewrite take_nil, app_nil_l, size_of_nil, Z.sub_0_r.
  rewrite readableBytes_eq, writableBytes_eq by done. cbn [buffer_ readerIndex_ writerIndex_].
  unfold size_of. rewrite length_replicate.
  replace (Z.of_nat (Z.to_nat (8 + n)) - 8) with n by lia.
  rewrite (Z.eqb_refl n). reflexivity.
Qed.

(** [shrink] reallocates: same content, back at [kCheapPrepend], and at least
    the requested room after it. *)
Lemma shrink_spec b reserve :
  buffer_ok b → readableBytes b < 2 ^ 31 → 0 ≤ reserve →
  kCheapPrepend + readableBytes b + reserve ≤ vector_max_size →
  shrink b reserve ⇓ λ b',
    represents b' (content b) ∧ readerIndex_ b' = kCheapPrepend ∧
    reserve ≤ writableBytes b' ∧ kCheapPrepend ≤ size_of (buffer_ b').
Proof.
  intros Hok Hi Hres Hmax. pose proof Hok as [].
  pose proof (readableBytes_eq b Hok) as Hrd. unfold shrink.
  rewrite Buffer_new_spec by (unfold kInitialSize, kCheapPrepend, vector_max_size; lia).
  change (Ok ?x ≫= ?f) with (f x). cbv beta.
  set (b0 := mkBuffer (replicate _ _) _ _).
  destruct (fresh_ok kInitialSize) as [Hok0 Hc0];
    [unfold kInitialSize, kCheapPrepend, vector_max_size; lia..|fold b0 in Hok0, Hc0].
  rewrite (to_unsigned_small 64 (readableBytes b + reserve)) by (unfold vector_max_size, kCheapPrepend in *; lia).
  ystep ensureWritableBytes_spec; [done|lia|left; change (writerIndex_ b0) with kCheapPrepend; lia|].
  intros b1 (Hok1 & Hc1 & Hw1 & [Hr1 Hs1] & _). rewrite Hc0 in Hc1.
  change (readerIndex_ b0) with kCheapPrepend in Hr1.
  pose proof (writableBytes_eq b1 Hok1) as Hw1'. pose proof Hok1 as [].
  pose proof (size_of_content b1 Hok1) as Hsz1. rewrite Hc1, size_of_nil in Hsz1.
  unfold toStringPiece. cbn [fst snd].
  rewrite to_signed_small by (unfold in_signed; lia).
  rewrite to_unsigned_small by (unfold vector_max_size in *; lia).
  unfold kCheapPrepend, peek in *.
  ystep append_raw_spec; [done|lia..|unfold fits; lia|].
  intros b2 ([Hok2 Hc2] & [Hr2 Hs2] & _). unfold kCheapPrepend in *.
  rewrite Hrd, Hc1, app_nil_l in Hc2.
  replace (readerIndex_ b + (writerIndex_ b - readerIndex_ b)) with (writerIndex_ b) in Hc2 by lia.
  fold (content b) in Hc2.
  pose proof (size_of_content b2 Hok2) as Hsz2. rewrite Hc2, (size_of_content b Hok) in Hsz2.
  replace (swap b b2).1 with b2 by (by destruct b2).
  apply yields_ret. rewrite (writableBytes_eq b2) by done.
  split; [done|]. lia.
Qed.

(** A buffer with more than [INT_MAX] readable bytes cannot be shrunk: the
    [int] length of [toStringPiece] is negative, [append] receives it as a
    [size_t] near 2^64 and [std::vector] throws [length_error]. *)
Theorem shrink_int_overflow b reserve :
  buffer_ok b → 2 ^ 31 ≤ readableBytes b ≤ 2 ^ 32 - 16 → 0 ≤ reserve ≤ 2 ^ 40 →
  shrink b reserve = Fault LengthError.
Proof.
  intros Hok Hi Hres. unfold shrink.
  rewrite Buffer_new_spec by (unfold kInitialSize, kCheapPrepend, vector_max_size; lia).
  change (Ok ?x ≫= ?f) with (f x). cbv beta.
  set (b0 := mkBuffer (replicate _ _) _ _).
  destruct (fresh_ok kInitialSize) as [Hok0 Hc0];
    [unfold kInitialSize, kCheapPrepend, vector_max_size; lia..|fold b0 in Hok0, Hc0].
  rewrite (to_unsigned_small 64 (readableBytes b + reserve)) by lia.
  assert (writerIndex_ b0 + (readableBytes b + reserve) ≤ vector_max_size) as Hfit.
  { change (writerIndex_ b0) with kCheapPrepend. unfold kCheapPrepend, vector_max_size. lia. }
  pose proof (ensureWritableBytes_spec b0 (readableBytes b + reserve) Hok0 ltac:(lia) (or_introl Hfit))
    as (b1 & -> & Hok1 & Hc1 & Hw1 & [Hr1 Hs1] & _)%yields_Ok.
  rewrite Hc0 in Hc1. change (readerIndex_ b0) with kCheapPrepend in Hr1.
  pose proof (size_of_content b1 Hok1) as Hsz1. rewrite Hc1, size_of_nil in Hsz1.
  change (Ok ?x ≫= ?f) with (f x). cbv beta.
  unfold toStringPiece. cbn [fst snd].
  replace (u64 (i32 (readableBytes b))) with (2 ^ 64 + readableBytes b - 2 ^ 32).
  2: { unfold to_signed. rewrite (to_unsigned_small 32) by lia.
       replace (readableBytes b <? 2 ^ (32 - 1)) with false by lia.
       unfold to_unsigned. rewrite <- (Z.mod_add _ 1) by lia.
       symmetry. rewrite Z.mod_small by lia. lia. }
  pose proof (writableBytes_eq b1 Hok1) as Hw1'. pose proof Hok1 as [].
  unfold kCheapPrepend, vector_max_size in *.
  unfold append_raw, ensureWritableBytes.
  replace (writableBytes b1 <? _) with true by lia.
  unfold makeSpace, prependableBytes, kCheapPrepend, resize, vector_max_size.
  rewrite !to_unsigned_small by lia.
  replace (_ <? _) with true by lia. by replace (_ <=? _) with false by lia.
Qed.

Lemma shrink_int_overflow_witness :
  shrink (mkBuffer (replicate (Z.to_nat (2 ^ 31 + 8)) x00) 8 (2 ^ 31 + 8)) 0 = Fault LengthError.
Proof.
  assert (size_of (replicate (Z.to_nat (2 ^ 31 + 8)) x00) = 2 ^ 31 + 8) as Hs.
  { unfold size_of. rewrite length_replicate. lia. }
  assert (buffer_ok (mkBuffer (replicate (Z.to_nat (2 ^ 31 + 8)) x00) 8 (2 ^ 31 + 8))) as Hok.
  { split; cbn [buffer_ readerIndex_ writerIndex_]; unfold vector_max_size; lia. }
  apply shrink_int_overflow; [done| |lia].
  rewrite readableBytes_eq by done. cbn [readerIndex_ writerIndex_]. lia.
Defined.

(** [readFd] appends exactly what [readv] stored, whether or not the extra
    buffer was needed; on error the buffer is untouched and [errno] saved. *)
Section ReadFdSpec.
Context (readv : Z → list Z → ReadvResult).
Hypothesis readv_bound : ∀ fd iov bytes,
  Forall (λ n, 0 ≤ n) iov → readv fd iov = ReadvBytes bytes →
  size_of bytes ≤ foldr Z.add 0 iov.

Definition readFd_iov (b : Buffer) : list Z :=
  if writableBytes b <? extrabuf_size then [writableBytes b; extrabuf_size]
  else [writableBytes b].

Lemma readFd_or_spec b fd :
  buffer_ok b →
  readFd readv b fd
    ⇓[λ f, f = LengthError ∧ ¬ (size_of (buffer_ b) + extrabuf_size ≤ vector_max_size)] λ '(n, savedErrno, b'),
    match readv fd (readFd_iov b) with
    | ReadvError e => n = -1 ∧ savedErrno = Some e ∧ b' = b
    | ReadvBytes bytes =>
        n = size_of bytes ∧ savedErrno = None ∧
        represents b' (content b ++ bytes) ∧ room_kept b b' ∧
        (n ≤ writableBytes b → size_of (buffer_ b') = size_of (buffer_ b)) ∧
        (writableBytes b < extrabuf_size → n ≤ 2 * extrabuf_size - 1)
    end.
Proof.
  intros Hok. unfold readFd. fold (readFd_iov b).
  destruct (readv fd (readFd_iov b)) as [e|bytes] eqn:E; [done|].
  pose proof Hok as [R RW W S]. pose proof (writableBytes_eq b Hok) as Hw.
  apply readv_bound in E.
  2: { unfold readFd_iov, extrabuf_size. case_match; repeat constructor; lia. }
  unfold readFd_iov in E.
  pose proof (size_of_nonneg bytes) as Hb0. unfold extrabuf_size in *.
  set (n := Z.min (size_of bytes) (writableBytes b)).
  assert (size_of (take (Z.to_nat (writableBytes b)) bytes) = n) as Hn.
  { unfold n, size_of. rewrite length_take. lia. }
  apply yields_or_bind. eapply yields_yields_or, yields_mono; [apply copy_to_spec; lia|].
  rewrite Hn. intros v (Hv & Hcp & Hlow & _).
  assert (slice v (readerIndex_ b) (writerIndex_ b + n) =
          content b ++ take (Z.to_nat (writableBytes b)) bytes) as Hcont.
  { rewrite <- (slice_app_slice v _ (writerIndex_ b)) by lia.
    rewrite Hcp, Hlow by lia. done. }
  destruct (Z.leb_spec (size_of bytes) (writableBytes b)) as [Hle|Hgt].
  - replace n with (size_of bytes) in Hcont by lia.
    rewrite to_unsigned_small by (unfold vector_max_size in *; lia).
    rewrite (take_ge bytes) in Hcont by (unfold size_of in *; lia).
    cbn. split; [done|]. split; [done|]. split; [split; [split; cbn; lia|done]|].
    unfold room_kept. cbn. repeat split_and; try lia.
  - destruct (writableBytes b <? 65536) eqn:Hext; cbn in E; [|lia].
    replace n with (writableBytes b) in * by lia.
    set (b1 := mkBuffer v (readerIndex_ b) (size_of v)).
    assert (buffer_ok b1) as Hok1 by (split; cbn; lia).
    pose proof (size_of_drop (writableBytes b) bytes ltac:(lia)) as Hd.
    rewrite <- Hd. fold (append b1 (drop (Z.to_nat (writableBytes b)) bytes)).
    apply yields_or_bind. eapply yields_or_mono; [eapply yields_or_weaken; [|apply append_or_spec]|].
    { intros f [-> Hno]. split; [done|]. intros ?. apply Hno. left. cbn. lia. }
    { done. }
    { unfold vector_max_size. lia. }
    intros b' ([Hok' Hc'] & [Hr' Hs']).
    cbn. split; [done|]. split; [done|]. split; [split; [done|]|].
    + rewrite Hc'. unfold content at 1. unfold b1. cbn [buffer_ readerIndex_ writerIndex_].
      replace (size_of v) with (writerIndex_ b + writableBytes b) by lia.
      rewrite Hcont, <- app_assoc, take_drop. done.
    + unfold room_kept in *. cbn in *. lia.
Qed.

Lemma readFd_spec b fd :
  buffer_ok b → size_of (buffer_ b) + extrabuf_size ≤ vector_max_size →
  readFd readv b fd ⇓ λ '(n, savedErrno, b'),
    match readv fd (readFd_iov b) with
    | ReadvError e => n = -1 ∧ savedErrno = Some e ∧ b' = b
    | ReadvBytes bytes =>
        n = size_of bytes ∧ savedErrno = None ∧
        represents b' (content b ++ bytes) ∧ room_kept b b' ∧
        (n ≤ writableBytes b → size_of (buffer_ b') = size_of (buffer_ b)) ∧
        (writableBytes b < extrabuf_size → n ≤ 2 * extrabuf_size - 1)
    end.
Proof.
  intros Hok Hmax. pose proof (readFd_or_spec b fd Hok) as Hr.
  destruct (readFd readv b fd); [done|]. destruct Hr as [_ Hr]. by apply Hr.
Qed.
End ReadFdSpec.
End Storage.
