(* ===== verification/ByteQueue.v ===== *)
(** * The buffer as a byte queue

    The contract of [Buffer]: a queue of bytes with room for a header in
    front.  [Queue] is that contract, with the operations as functions on
    lists; [exec_refines] is the simulation of every sequence of operations of
    the class by the queue. *)
From Stdlib Require Import Strings.Byte.
From stdpp Require Import base numbers list strings.
From S2P Require Import Prelude Endian Buffer.
Open Scope Z_scope.
Open Scope muduo_scope.

(** ** Operations and what they return *)

Inductive BufferOp :=
  | OpAppend (data : list byte)
  | OpPrepend (data : list byte)
  | OpRetrieve (len : Z)
  | OpRetrieveAsString (len : Z)
  | OpRetrieveAll
  | OpUnwrite (len : Z)
  | OpEnsureWritable (len : Z)
  | OpShrink (reserve : Z)
  | OpAppendInt64 (x : Z)
  | OpAppendInt32 (x : Z)
  | OpPrependInt32 (x : Z)
  | OpReadInt64
  | OpReadInt32
  | OpFindCRLF.

Inductive Output :=
  | OutNone
  | OutBytes (s : list byte)
  | OutInt (x : Z)
  | OutPos (i : option Z).

#[export] Instance Output_eq_dec : EqDecision Output.
Proof. solve_decision. Defined.

(** ** The contract *)

(** [q_room]: bytes that can be prepended for sure; [q_high]: a bound of the
    writer index, by which the size of the vector is bounded. *)
Record Queue := mkQueue { q_bytes : list byte; q_room : Z; q_high : Z }.

(** The first CR LF of a byte string. *)
Fixpoint first_crlf (c : list byte) : option nat :=
  match c with
  | [] => None
  | a :: t =>
      if bool_decide (a = x0d ∧ head t = Some x0a) then Some 0%nat else S <$> first_crlf t
  end.

Definition keep_room (q : Queue) : Z := Z.min kCheapPrepend (q_room q).

Definition queue_append (q : Queue) (data : list byte) : option (Output * Queue) :=
  guard (q_high q + size_of data ≤ vector_max_size);;
  Some (OutNone, mkQueue (q_bytes q ++ data) (keep_room q) (q_high q + size_of data)).

Definition queue_prepend (q : Queue) (data : list byte) : option (Output * Queue) :=
  guard (size_of data ≤ q_room q);;
  Some (OutNone, mkQueue (data ++ q_bytes q) (q_room q - size_of data) (q_high q)).

Definition queue_drop (q : Queue) (n : Z) : Queue :=
  mkQueue (drop (Z.to_nat n) (q_bytes q)) (keep_room q) (q_high q).

Definition queue_op (q : Queue) (op : BufferOp) : option (Output * Queue) :=
  match op with
  | OpAppend data => queue_append q data
  | OpPrepend data => queue_prepend q data
  | OpRetrieve len =>
      guard (0 ≤ len ≤ size_of (q_bytes q));; Some (OutNone, queue_drop q len)
  | OpRetrieveAsString len =>
      guard (0 ≤ len ≤ size_of (q_bytes q));;
      Some (OutBytes (take (Z.to_nat len) (q_bytes q)), queue_drop q len)
  | OpRetrieveAll => Some (OutNone, mkQueue [] kCheapPrepend (q_high q))
  | OpUnwrite len =>
      guard (0 ≤ len ≤ size_of (q_bytes q));;
      Some (OutNone, mkQueue (take (Z.to_nat (size_of (q_bytes q) - len)) (q_bytes q))
                       (q_room q) (q_high q))
  | OpEnsureWritable len =>
      guard (0 ≤ len);; guard (q_high q + len ≤ vector_max_size);;
      Some (OutNone, mkQueue (q_bytes q) (keep_room q) (q_high q))
  | OpShrink reserve =>
      guard (size_of (q_bytes q) < 2 ^ 31);; guard (0 ≤ reserve);;
      guard (kCheapPrepend + size_of (q_bytes q) + reserve ≤ vector_max_size);;
      Some (OutNone, mkQueue (q_bytes q) kCheapPrepend (kCheapPrepend + size_of (q_bytes q)))
  | OpAppendInt64 x => queue_append q (be_bytes 8 x)
  | OpAppendInt32 x => queue_append q (be_bytes 4 x)
  | OpPrependInt32 x => queue_prepend q (be_bytes 4 x)
  | OpReadInt64 =>
      guard (8 ≤ size_of (q_bytes q));;
      Some (OutInt (i64 (be_value (take 8 (q_bytes q)))), queue_drop q 8)
  | OpReadInt32 =>
      guard (4 ≤ size_of (q_bytes q));;
      Some (OutInt (i32 (be_value (take 4 (q_bytes q)))), queue_drop q 4)
  | OpFindCRLF => Some (OutPos (Z.of_nat <$> first_crlf (q_bytes q)), q)
  end.

Fixpoint queue_run (q : Queue) (ops : list BufferOp) : option (list Output * Queue) :=
  match ops with
  | [] => Some ([], q)
  | op :: ops =>
      '(o, q1) ← queue_op q op; '(os, q2) ← queue_run q1 ops; Some (o :: os, q2)
  end.

(** ** The class *)

Section Exec.
Context `{HostOrder}.

Definition silent (m : outcome Buffer) : outcome (Output * Buffer) :=
  b ← m; mret (OutNone, b).

Definition exec_op (b : Buffer) (op : BufferOp) : outcome (Output * Buffer) :=
  match op with
  | OpAppend data => silent (append b data)
  | OpPrepend data => silent (prepend b data)
  | OpRetrieve len => silent (retrieve b len)
  | OpRetrieveAsString len => '(s, b') ← retrieveAsString b len; mret (OutBytes s, b')
  | OpRetrieveAll => mret (OutNone, retrieveAll b)
  | OpUnwrite len => silent (unwrite b len)
  | OpEnsureWritable len => silent (ensureWritableBytes b len)
  | OpShrink reserve => silent (shrink b reserve)
  | OpAppendInt64 x => silent (appendInt64 b x)
  | OpAppendInt32 x => silent (appendInt32 b x)
  | OpPrependInt32 x => silent (prependInt32 b x)
  | OpReadInt64 => '(x, b') ← readInt64 b; mret (OutInt x, b')
  | OpReadInt32 => '(x, b') ← readInt32 b; mret (OutInt x, b')
  | OpFindCRLF => mret (OutPos ((λ p, p - peek b) <$> findCRLF b), b)
  end.

Fixpoint exec (b : Buffer) (ops : list BufferOp) : outcome (list Output * Buffer) :=
  match ops with
  | [] => mret ([], b)
  | op :: ops => '(o, b1) ← exec_op b op; '(os, b2) ← exec b1 ops; mret (o :: os, b2)
  end.

(** The simulation relation. *)
Record simulates (b : Buffer) (q : Queue) : Prop := {
  sim_content : represents b (q_bytes q);
  sim_room : q_room q ≤ readerIndex_ b;
  sim_high : writerIndex_ b ≤ q_high q;
  sim_size : kCheapPrepend ≤ size_of (buffer_ b);
  sim_high_min : kCheapPrepend ≤ q_high q
}.

Lemma first_crlf_spec c i :
  first_crlf c = Some i ↔ crlf_at c i ∧ ∀ j, (j < i)%nat → ¬ crlf_at c j.
Proof.
  revert i. induction c as [|a c IH]; intros i.
  { split; [done|]. intros [Hc _]. unfold crlf_at in Hc. rewrite drop_nil in Hc.
    by apply prefix_nil_inv in Hc. }
  assert (crlf_at (a :: c) 0 ↔ a = x0d ∧ head c = Some x0a) as H0.
  { unfold crlf_at, kCRLF. simpl. split.
    - intros [t Ht]. by simplify_eq/=.
    - intros [-> Hc]. destruct c as [|b c]; simplify_eq/=. by exists c. }
  assert (∀ j, crlf_at (a :: c) (S j) ↔ crlf_at c j) as HS by done.
  simpl. case_bool_decide as Hb.
  - split.
    + intros [= <-]. split; [by apply H0|lia].
    + intros [_ Hn]. destruct i as [|i]; [done|]. destruct (Hn 0%nat); [lia|by apply H0].
  - destruct i as [|i].
    + split; [by destruct (first_crlf c)|]. intros [Hc _]. by apply H0 in Hc.
    + rewrite HS. split.
      * destruct (first_crlf c) as [k|]; [|done]. intros [= ->].
        destruct (proj1 (IH i) eq_refl) as [Hi Hlt]. split; [done|].
        intros [|j] Hj; [by rewrite H0|]. rewrite HS. apply Hlt. lia.
      * intros [Hi Hlt]. rewrite (proj2 (IH i)); [done|]. split; [done|].
        intros j Hj. rewrite <- HS. apply Hlt. lia.
Qed.

Lemma first_crlf_lt c i : first_crlf c = Some i → (i + 2 ≤ length c)%nat.
Proof.
  intros [Hc _]%first_crlf_spec. unfold crlf_at in Hc. apply prefix_length in Hc.
  rewrite length_drop in Hc. cbn in Hc. lia.
Qed.

(** More input does not move the first line. *)
Lemma first_crlf_app c1 c2 i : first_crlf c1 = Some i → first_crlf (c1 ++ c2) = Some i.
Proof.
  intros Hi. pose proof (first_crlf_lt _ _ Hi) as Hlen. apply first_crlf_spec in Hi as [Hc Hn].
  apply first_crlf_spec. unfold crlf_at in *. split.
  - rewrite drop_app_le by lia. by apply prefix_app_r.
  - intros j Hj Hp. apply (Hn j Hj). rewrite drop_app_le in Hp by lia.
    destruct Hp as [k Hk]. exists (take (length (drop j c1) - 2) k).
    apply (f_equal (take (length (drop j c1)))) in Hk. rewrite take_app_length in Hk.
    rewrite Hk at 1. rewrite take_app_ge; [done|]. cbn. rewrite length_drop. lia.
Qed.

(** A line that ends, and one that does not yet. *)
Lemma first_crlf_line l rest : x0d ∉ l → first_crlf (l ++ kCRLF ++ rest) = Some (length l).
Proof.
  induction l as [|b l IH]; intros Hl; [done|]. apply not_elem_of_cons in Hl as [Hb Hl]. cbn [app first_crlf length].
  rewrite bool_decide_false by (intros [-> _]; by apply Hb). by rewrite IH.
Qed.

(** A line without a CR LF in it, which may have a CR, ends where its CR LF is. *)
Lemma first_crlf_end l rest : first_crlf l = None → first_crlf (l ++ kCRLF ++ rest) = Some (length l).
Proof.
  induction l as [|b l IH]; intros Hl; [done|]. cbn [app first_crlf length] in *. case_bool_decide as Hb; [done|].
  apply fmap_None in Hl. rewrite bool_decide_false, IH by done || (intros [-> Hh]; apply Hb; split; [done|]; by destruct l). done.
Qed.
Lemma first_crlf_skip a l : x0d ∉ a → first_crlf l = None → first_crlf (a ++ l) = None.
Proof.
  intros Ha Hl. induction a as [|b a IH]; [done|]. apply not_elem_of_cons in Ha as [Hb Ha]. cbn [app first_crlf].
  rewrite bool_decide_false, IH by done || (intros [-> _]; done). done.
Qed.
Lemma first_crlf_drop l k : first_crlf l = None → first_crlf (drop k l) = None.
Proof.
  revert k. induction l as [|b l IH]; intros [|k] Hl; try done. cbn [first_crlf drop] in *. case_bool_decide; [done|].
  apply IH. by apply fmap_None in Hl.
Qed.
Lemma first_crlf_take l n : first_crlf l = Some n → first_crlf (take n l) = None.
Proof.
  revert n. induction l as [|b l IH]; intros n Hl; [done|]. cbn [first_crlf] in Hl. case_bool_decide as Hb; [by injection Hl as <-|].
  destruct (first_crlf l) as [m|] eqn:E; [|done]. injection Hl as <-. cbn [take first_crlf].
  rewrite bool_decide_false, IH; [done|done|]. intros [-> Hh]. apply Hb. split; [done|]. by destruct l, m.
Qed.

Lemma first_crlf_none l : x0d ∉ l → first_crlf l = None ∧ first_crlf (l ++ [x0d]) = None.
Proof.
  induction l as [|b l IH]; intros Hl; [done|]. apply not_elem_of_cons in Hl as [Hb Hl]. destruct (IH Hl) as [H1 H2].
  cbn [app first_crlf]. rewrite !bool_decide_false by (intros [-> _]; by apply Hb). by rewrite H1, H2.
Qed.

Lemma findCRLF_first b :
  buffer_ok b → (λ p, p - peek b) <$> findCRLF b = Z.of_nat <$> first_crlf (content b).
Proof.
  intros Hok. pose proof (findCRLF_spec b Hok) as Hs. destruct (findCRLF b) as [p|].
  - destruct Hs as (i & -> & _ & Hi). rewrite (proj2 (first_crlf_spec _ i)) by done.
    simpl. f_equal. lia.
  - destruct (first_crlf (content b)) as [i|] eqn:E; [|done].
    apply first_crlf_spec in E as [E _]. by destruct (Hs i).
Qed.

(** One operation. *)
Lemma silent_yields m (Q : Output * Buffer → Prop) :
  (m ⇓ λ b, Q (OutNone, b)) → silent m ⇓ Q.
Proof. by destruct m. Qed.

Lemma append_sim b q data :
  simulates b q → q_high q + size_of data ≤ vector_max_size →
  append b data ⇓ λ b',
    simulates b' (mkQueue (q_bytes q ++ data) (keep_room q) (q_high q + size_of data)).
Proof.
  intros [[Hok Hc] Hr Hh Hs Hm] Hfit. pose proof (size_of_nonneg data).
  eapply yields_mono; [apply append_spec; [done|left; lia]|].
  intros b' ([Hok' Hc'] & [Hr' Hs'] & _).
  pose proof (size_of_content b Hok). pose proof (size_of_content b' Hok') as Hsz.
  rewrite Hc', size_of_app in Hsz. rewrite Hc in *. unfold keep_room.
  split; simpl; try lia. done.
Qed.

Lemma prepend_sim b q data :
  simulates b q → size_of data ≤ q_room q →
  prepend b data ⇓ λ b',
    simulates b' (mkQueue (data ++ q_bytes q) (q_room q - size_of data) (q_high q)).
Proof.
  intros [[Hok Hc] Hr Hh Hs Hm] Hfit. pose proof (size_of_nonneg data).
  eapply yields_mono; [apply prepend_spec; [done|unfold prependableBytes; lia]|].
  intros b' ([Hok' Hc'] & Hs' & Hr').
  pose proof (size_of_content b Hok). pose proof (size_of_content b' Hok') as Hsz.
  rewrite Hc', size_of_app in Hsz. rewrite Hc in *.
  split; simpl; try lia. done.
Qed.

Lemma drop_sim b b' q n :
  simulates b q →
  represents b' (drop (Z.to_nat n) (content b)) → buffer_ b' = buffer_ b →
  Z.min kCheapPrepend (readerIndex_ b) ≤ readerIndex_ b' →
  writerIndex_ b' ≤ Z.max kCheapPrepend (writerIndex_ b) →
  simulates b' (queue_drop q n).
Proof.
  intros [[Hok Hc] Hr Hh Hs Hm] Hrep Hb Hr' Hw'. rewrite Hc in Hrep.
  unfold queue_drop, keep_room. split; simpl; rewrite ?Hb; try lia. done.
Qed.

Lemma retrieve_sim b q n :
  simulates b q → 0 ≤ n ≤ size_of (q_bytes q) →
  retrieve b n ⇓ λ b', simulates b' (queue_drop q n).
Proof.
  intros Hsim Hn. pose proof Hsim as [[Hok Hc] _ _ Hs _].
  eapply yields_mono; [apply retrieve_spec; [done..|rewrite readableBytes_content, Hc by done; lia]|].
  intros b' (Hrep & Hb & _ & Hr & Hw). by apply (drop_sim b).
Qed.

Lemma sim_readable b q : simulates b q → readableBytes b = size_of (q_bytes q).
Proof. intros [[Hok Hc] _ _ _ _]. by rewrite readableBytes_content, Hc. Qed.

Lemma exec_op_refines b q op o q' :
  simulates b q → queue_op q op = Some (o, q') →
  exec_op b op ⇓ λ '(o', b'), o' = o ∧ simulates b' q'.
Proof.
  intros Hsim Hop. pose proof Hsim as [[Hok Hc] Hr Hh Hs Hm].
  pose proof (sim_readable b q Hsim) as Hrd. pose proof Hok as [].
  destruct op; simpl in Hop |- *; unfold queue_append, queue_prepend in Hop;
    inv_guard; try apply silent_yields.
  - by eapply yields_mono; [apply append_sim|].
  - by eapply yields_mono; [apply prepend_sim|].
  - by eapply yields_mono; [apply retrieve_sim|].
  - ystep retrieveAsString_spec; [done..|lia|].
    intros [s b'] (-> & Hrep & Hb & Hr' & Hw'). rewrite Hc. simpl.
    split; [done|]. by apply (drop_sim b).
  - split; [done|]. split; simpl; try lia. apply retrieveAll_spec; [done|lia].
  - eapply yields_mono; [apply unwrite_spec; [done|lia]|].
    intros b' ([Hok' Hc'] & Hb & Hr'). split; [done|].
    pose proof (size_of_content b' Hok') as Hsz.
    rewrite Hc', Hrd, Hc in Hsz. rewrite size_of_take in Hsz by lia.
    pose proof (size_of_content b Hok) as Hsz0. rewrite Hc in Hsz0.
    split; simpl; rewrite ?Hb; try lia. split; [done|]. by rewrite Hc', Hrd, Hc.
  - eapply yields_mono; [apply ensureWritableBytes_spec; [done|lia|left; lia]|].
    intros b' (Hok' & Hc' & _ & [Hr' Hs'] & _). split; [done|].
    pose proof (size_of_content b' Hok') as Hsz. rewrite Hc' in Hsz.
    rewrite (size_of_content b Hok) in Hsz.
    unfold keep_room. split; simpl; try lia. split; [done|congruence].
  - eapply yields_mono; [apply shrink_spec; [done|lia..]|].
    intros b' ([Hok' Hc'] & Hr' & _ & Hs'). split; [done|].
    pose proof (size_of_content b' Hok') as Hsz. rewrite Hc', Hc in Hsz.
    split; simpl; try lia; [split; [done|congruence]|]. pose proof (size_of_nonneg (q_bytes q)). lia.
  - rewrite appendInt64_bytes. by eapply yields_mono; [apply append_sim|].
  - rewrite appendInt32_bytes. by eapply yields_mono; [apply append_sim|].
  - rewrite prependInt32_bytes. by eapply yields_mono; [apply prepend_sim|].
  - unfold readInt64, retrieveInt64. rewrite peekInt64_spec by (done || lia).
    apply yields_bind, yields_bind. simpl. apply yields_bind.
    eapply yields_mono; [apply (retrieve_sim b q 8); [done|lia]|].
    intros b' Hb'. simpl. by rewrite Hc.
  - unfold readInt32, retrieveInt32. rewrite peekInt32_spec by (done || lia).
    apply yields_bind, yields_bind. simpl. apply yields_bind.
    eapply yields_mono; [apply (retrieve_sim b q 4); [done|lia]|].
    intros b' Hb'. simpl. by rewrite Hc.
  - by rewrite findCRLF_first, Hc.
Qed.

(** Every sequence of operations. *)
Lemma exec_refines ops b q os q' :
  simulates b q → queue_run q ops = Some (os, q') →
  exec b ops ⇓ λ '(os', b'), os' = os ∧ simulates b' q'.
Proof.
  revert b q os. induction ops as [|op ops IH]; intros b q os Hsim Hrun.
  { by simplify_option_eq. }
  simpl in Hrun. destruct (queue_op q op) as [[o q1]|] eqn:Hop; [|done]. simpl in Hrun.
  destruct (queue_run q1 ops) as [[os1 q2]|] eqn:Hrun1; [|done]. simplify_eq/=.
  ystep (exec_op_refines b q op o q1); [done..|]. intros [o' b1] [-> Hsim1].
  ystep (IH b1 q1 os1); [done..|]. intros [os' b2] [-> Hsim2]. done.
Qed.
End Exec.

(** ** The integer operations by width *)

Inductive IntWidth := W8 | W16 | W32 | W64.

Definition nbytes (w : IntWidth) : nat :=
  match w with W8 => 1 | W16 => 2 | W32 => 4 | W64 => 8 end.
Definition nbits (w : IntWidth) : Z := width (nbytes w).

Section ByWidth.
Context `{HostOrder}.

Definition appendInt (w : IntWidth) : Buffer → Z → outcome Buffer :=
  match w with W8 => appendInt8 | W16 => appendInt16 | W32 => appendInt32 | W64 => appendInt64 end.
Definition prependInt (w : IntWidth) : Buffer → Z → outcome Buffer :=
  match w with
  | W8 => prependInt8 | W16 => prependInt16 | W32 => prependInt32 | W64 => prependInt64
  end.
Definition readInt (w : IntWidth) : Buffer → outcome (Z * Buffer) :=
  match w with W8 => readInt8 | W16 => readInt16 | W32 => readInt32 | W64 => readInt64 end.

Lemma appendInt_bytes w b x : appendInt w b x = append b (be_bytes (nbytes w) x).
Proof.
  destruct w; [apply appendInt8_bytes|apply appendInt16_bytes|apply appendInt32_bytes|
               apply appendInt64_bytes].
Qed.

Lemma prependInt_bytes w b x : prependInt w b x = prepend b (be_bytes (nbytes w) x).
Proof.
  destruct w; [apply prependInt8_bytes|apply prependInt16_bytes|apply prependInt32_bytes|
               apply prependInt64_bytes].
Qed.

Lemma readInt_spec w b :
  buffer_ok b → kCheapPrepend ≤ size_of (buffer_ b) → Z.of_nat (nbytes w) ≤ readableBytes b →
  readInt w b ⇓ λ '(x, b'),
    x = to_signed (nbits w) (be_value (take (nbytes w) (content b))) ∧
    represents b' (drop (nbytes w) (content b)).
Proof.
  intros Hok Hs Hr. destruct w; simpl in Hr |- *;
    [unfold readInt8, retrieveInt8; rewrite peekInt8_spec by (done || lia)
    |unfold readInt16, retrieveInt16; rewrite peekInt16_spec by (done || lia)
    |unfold readInt32, retrieveInt32; rewrite peekInt32_spec by (done || lia)
    |unfold readInt64, retrieveInt64; rewrite peekInt64_spec by (done || lia)];
    apply yields_bind; simpl; apply yields_bind;
    (eapply yields_mono; [apply retrieve_spec; [done..|lia]|]);
    intros b' [Hrep _]; done.
Qed.

Lemma size_be_bytes w x : size_of (be_bytes (nbytes w) x) = Z.of_nat (nbytes w).
Proof. unfold size_of. by rewrite length_be_bytes. Qed.

Lemma drop_be_bytes w x c : drop (nbytes w) (be_bytes (nbytes w) x ++ c) = c.
Proof. rewrite drop_app_length'; [done|by rewrite length_be_bytes]. Qed.
End ByWidth.

(** ** Properties *)

(** C4. Every sequence of buffer operations that is legal on a byte queue runs
    without a failed assertion, out-of-range access or exception from a freshly
    constructed [Buffer], returns the outputs of the queue (strings, integers,
    CRLF positions) and ends with the queue's content: [Buffer] refines the
    byte-queue contract. *)
Theorem buffer_refines_queue `{HostOrder} (n : Z) (ops : list BufferOp)
    (os : list Output) (q' : Queue) :
  0 ≤ n → n + kCheapPrepend ≤ vector_max_size →
  queue_run (mkQueue [] kCheapPrepend kCheapPrepend) ops = Some (os, q') →
  (b ← Buffer_new n; exec b ops) ⇓ λ '(os', b'),
    os' = os ∧ content b' = q_bytes q' ∧ buffer_ok b'.
Proof.
  intros Hn Hmax Hrun. rewrite Buffer_new_spec by done. simpl.
  eapply yields_mono; [eapply exec_refines; [|done]|].
  - split; simpl; try done; [by apply fresh_ok|].
    unfold size_of, kCheapPrepend. rewrite length_replicate. lia.
  - intros [os' b'] [-> [[Hok Hc] _ _ _ _]]. done.
Qed.

Definition demo_ops : list BufferOp :=
  [OpAppend (lit "abc"); OpAppend kCRLF; OpAppendInt32 (-2); OpFindCRLF;
   OpRetrieveAsString 5; OpPrependInt32 7; OpReadInt32; OpReadInt32;
   OpAppend (replicate 30 x41); OpUnwrite 29; OpShrink 3; OpRetrieveAsString 1].

Lemma buffer_refines_queue_witness :
  (b ← Buffer_new 16; @exec true b demo_ops) ⇓ λ '(os', b'),
    os' = [OutNone; OutNone; OutNone; OutPos (Some 3); OutBytes (lit "abc" ++ kCRLF); OutNone;
           OutInt 7; OutInt (-2); OutNone; OutNone; OutNone; OutBytes [x41]] ∧
    content b' = [] ∧ buffer_ok b'.
Proof.
  apply (@buffer_refines_queue true 16 demo_ops _ (mkQueue [] 8 9)); vm_compute; [done..|].
  reflexivity.
Defined.

(** Integers of 8, 16, 32 and 64 bits travel in network byte order on hosts
    of either endianness: an appended integer adds its two's complement
    big-endian bytes at the end; a prepended integer is what the next read
    returns, and that read restores the previous content. *)
Theorem int_wire_roundtrip `{HostOrder} (w : IntWidth) (b : Buffer) (x : Z) :
  buffer_ok b → kCheapPrepend ≤ size_of (buffer_ b) → in_signed (nbits w) x →
  (writerIndex_ b + Z.of_nat (nbytes w) ≤ vector_max_size →
     appendInt w b x ⇓ λ b', represents b' (content b ++ be_bytes (nbytes w) x) ∧
       (content b = [] → readInt w b' ⇓ λ '(y, b''), y = x ∧ content b'' = [])) ∧
  (Z.of_nat (nbytes w) ≤ prependableBytes b →
     prependInt w b x ⇓ λ b', readInt w b' ⇓ λ '(y, b''), y = x ∧ content b'' = content b).
Proof.
  intros Hok Hs Hx.
  assert (0 < nbytes w)%nat as Hpos by (destruct w; simpl; lia).
  assert (∀ b' rest, represents b' (be_bytes (nbytes w) x ++ rest) →
            kCheapPrepend ≤ size_of (buffer_ b') →
            readInt w b' ⇓ λ '(y, b''), y = x ∧ content b'' = rest) as Hread.
  { intros b' rest [Hok' Hc'] Hs'. pose proof (size_of_nonneg rest).
    eapply yields_mono; [apply readInt_spec; [done..|]|].
    - rewrite readableBytes_content, Hc', size_of_app, size_be_bytes by done. lia.
    - intros [y b''] [-> [_ ->]]. rewrite Hc', drop_be_bytes, be_decode_encode; done. }
  split; intros Hfit.
  - rewrite appendInt_bytes.
    eapply yields_mono; [apply append_spec; [done|left; rewrite size_be_bytes; lia]|].
    intros b' (Hrep & [_ Hs'] & _). split; [done|]. intros Hnil.
    apply (Hread b' []); [|lia]. rewrite app_nil_r. by rewrite Hnil in Hrep.
  - rewrite prependInt_bytes.
    eapply yields_mono; [apply prepend_spec; [done|rewrite size_be_bytes; lia]|].
    intros b' (Hrep & Hs' & _). apply Hread; [done|lia].
Qed.

Lemma int_wire_roundtrip_witness :
  @prependInt true W16 (mkBuffer (replicate 12 x00) 8 10) (-300) ⇓ λ b',
    @readInt true W16 b' ⇓ λ '(y, b''), y = -300 ∧ content b'' = [x00; x00].
Proof.
  apply (@int_wire_roundtrip true W16 (mkBuffer (replicate 12 x00) 8 10) (-300));
    [split; vm_compute; congruence|vm_compute; congruence|
     unfold in_signed; vm_compute; intuition congruence|vm_compute; congruence].
Defined.

(** A scatter read appends to the content exactly the bytes [readv] stored,
    in order, also when they overflowed into the 64 KiB stack buffer; it leaves
    the vector alone when they fit, reads less than 128 KiB when the extra
    buffer is used, and on error keeps the buffer and reports [errno]. *)
Theorem readFd_appends (readv : Z → list Z → ReadvResult) (b : Buffer) (fd : Z) :
  (∀ fd iov bytes, Forall (λ n, 0 ≤ n) iov → readv fd iov = ReadvBytes bytes →
     size_of bytes ≤ foldr Z.add 0 iov) →
  buffer_ok b → size_of (buffer_ b) + extrabuf_size ≤ vector_max_size →
  readFd readv b fd ⇓ λ '(n, savedErrno, b'),
    match readv fd (readFd_iov b) with
    | ReadvError e => n = -1 ∧ savedErrno = Some e ∧ b' = b
    | ReadvBytes bytes =>
        n = size_of bytes ∧ savedErrno = None ∧
        represents b' (content b ++ bytes) ∧ room_kept b b' ∧
        (n ≤ writableBytes b → size_of (buffer_ b') = size_of (buffer_ b)) ∧
        (writableBytes b < extrabuf_size → n ≤ 2 * extrabuf_size - 1)
    end.
Proof. intros Hreadv. by apply readFd_spec. Qed.

(** A kernel that has [data] ready on every descriptor. *)
Definition ready_kernel (data : list byte) (fd : Z) (iov : list Z) : ReadvResult :=
  ReadvBytes (take (Z.to_nat (foldr Z.add 0 iov)) data).

Lemma ready_kernel_bound data fd iov bytes :
  Forall (λ n, 0 ≤ n) iov →
  ready_kernel data fd iov = ReadvBytes bytes → size_of bytes ≤ foldr Z.add 0 iov.
Proof.
  intros Hiov [= <-]. unfold size_of. rewrite length_take.
  assert (0 ≤ foldr Z.add 0 iov) by (induction Hiov; simpl; lia). lia.
Qed.

Definition small_buffer : Buffer := mkBuffer (replicate 12 x00) 8 10.

Lemma readFd_appends_witness :
  readFd (ready_kernel (lit "hello")) small_buffer 3 ⇓ λ '(n, savedErrno, b'),
    n = 5 ∧ savedErrno = None ∧ represents b' ([x00; x00] ++ lit "hello") ∧
    room_kept small_buffer b' ∧
    (n ≤ writableBytes small_buffer → size_of (buffer_ b') = size_of (buffer_ small_buffer)) ∧
    (writableBytes small_buffer < extrabuf_size → n ≤ 2 * extrabuf_size - 1).
Proof.
  apply (readFd_appends (ready_kernel (lit "hello")) small_buffer 3);
    [apply ready_kernel_bound|split; vm_compute; congruence|vm_compute; congruence].
Defined.

(** [append] reuses the vector: when the bytes in front of and behind the
    content are enough for the data and the cheap prepend area, the data is
    stored without growing the vector, and the content only moves towards the
    front, never into the prepend area. *)
Theorem append_in_place (b : Buffer) (data : list byte) :
  buffer_ok b → writerIndex_ b + size_of data ≤ vector_max_size →
  size_of data + kCheapPrepend ≤ writableBytes b + prependableBytes b →
  append b data ⇓ λ b',
    represents b' (content b ++ data) ∧ size_of (buffer_ b') = size_of (buffer_ b) ∧
    Z.min kCheapPrepend (readerIndex_ b) ≤ readerIndex_ b' ≤ readerIndex_ b.
Proof.
  intros Hok Hm Hfit. eapply yields_mono; [apply append_spec; [done|by left]|].
  intros b' (Hrep & [Hr _] & Hg). auto.
Qed.

Lemma append_in_place_witness :
  append (mkBuffer (replicate 16 x00) 12 14) (lit "wxyz") ⇓ λ b',
    represents b' ([x00; x00] ++ lit "wxyz") ∧ size_of (buffer_ b') = 16 ∧ 8 ≤ readerIndex_ b' ≤ 12.
Proof.
  apply (append_in_place (mkBuffer (replicate 16 x00) 12 14) (lit "wxyz"));
    [split; vm_compute; congruence|vm_compute; congruence..].
Defined.
