(* ===== verification/Timestamp.v ===== *)
(** * Time stamps (muduo/base/Timestamp.h, Timestamp.cc)

    A [Timestamp] is its [int64_t] of microseconds since the epoch.  [double]
    is IEEE binary64 as specified by the Standard Library's [SpecFloat], so
    the conversions of seconds to microseconds round as the machine does;
    converting a value outside [int64_t], and overflow of the signed sum, are
    undefined behaviour. *)
From Stdlib Require Import Floats.SpecFloat.
From stdpp Require Import base numbers list.
From S2P Require Import Prelude.
Open Scope Z_scope.
Open Scope muduo_scope.

(** ** [double] *)

Definition double := spec_float.
Definition double_of_Z (z : Z) : double := binary_normalize 53 1024 z 0 false.
Definition double_mul : double → double → double := SFmul 53 1024.
Definition double_div : double → double → double := SFdiv 53 1024.
Definition double_ltb : double → double → bool := SFltb.
Definition double_zero : double := S754_zero false.

(** [static_cast<int64_t>(d)]: truncation towards zero. *)
Definition double_trunc (d : double) : option Z :=
  match d with
  | S754_zero _ => Some 0
  | S754_finite s m e =>
      let a := if 0 <=? e then Z.pos m * 2 ^ e else Z.pos m / 2 ^ (- e) in
      Some (if s then - a else a)
  | S754_infinity _ | S754_nan => None
  end.

(** A result that must fit in [int64_t]. *)
Definition checked_i64 (z : Z) : outcome Z :=
  if (- 2 ^ 63 <=? z) && (z <? 2 ^ 63) then Ok z else Fault Undefined.

Lemma checked_i64_ok z (Q : Z → Prop) : - 2 ^ 63 ≤ z < 2 ^ 63 → Q z → checked_i64 z ⇓ Q.
Proof. intros [H1 H2] HQ. unfold checked_i64. by rewrite (proj2 (Z.leb_le _ _) H1), (proj2 (Z.ltb_lt _ _) H2). Qed.

Definition int64_of_double (d : double) : outcome Z :=
  match double_trunc d with Some z => checked_i64 z | None => Fault Undefined end.

(** ** The class *)

Definition Timestamp := Z.

Definition kMicroSecondsPerSecond : Z := 1000 * 1000.
Definition microSecondsSinceEpoch (t : Timestamp) : Z := t.
Definition invalid : Timestamp := 0.
Definition valid (t : Timestamp) : bool := 0 <? t.
Definition secondsSinceEpoch (t : Timestamp) : Z := Z.quot t kMicroSecondsPerSecond.
Definition fromUnixTime (t microseconds : Z) : outcome Timestamp :=
  s ← checked_i64 (t * kMicroSecondsPerSecond); checked_i64 (s + microseconds).

(** [now()] from what [gettimeofday] stored. *)
Definition now (tv_sec tv_usec : Z) : outcome Timestamp :=
  s ← checked_i64 (tv_sec * kMicroSecondsPerSecond); checked_i64 (s + tv_usec).

Definition timestamp_ltb (lhs rhs : Timestamp) : bool :=
  microSecondsSinceEpoch lhs <? microSecondsSinceEpoch rhs.
Definition timestamp_eqb (lhs rhs : Timestamp) : bool :=
  microSecondsSinceEpoch lhs =? microSecondsSinceEpoch rhs.

Definition timeDifference (high low : Timestamp) : outcome double :=
  diff ← checked_i64 (microSecondsSinceEpoch high - microSecondsSinceEpoch low);
  mret (double_div (double_of_Z diff) (double_of_Z kMicroSecondsPerSecond)).

(** [static_cast<int64_t>(seconds * Timestamp::kMicroSecondsPerSecond)]. *)
Definition delta_of_seconds (seconds : double) : outcome Z :=
  int64_of_double (double_mul seconds (double_of_Z kMicroSecondsPerSecond)).

Definition addTime (timestamp : Timestamp) (seconds : double) : outcome Timestamp :=
  delta ← delta_of_seconds seconds;
  checked_i64 (microSecondsSinceEpoch timestamp + delta).

(** ** Facts *)

Lemma checked_i64_Ok z r : checked_i64 z = Ok r → r = z ∧ - 2 ^ 63 ≤ z < 2 ^ 63.
Proof. unfold checked_i64. destruct (_ && _) eqn:E; [|done]. intros [= <-]. split; [done|lia]. Qed.

Lemma checked_i64_small z : - 2 ^ 63 ≤ z < 2 ^ 63 → checked_i64 z = Ok z.
Proof. intros. unfold checked_i64. by replace (_ && _) with true by lia. Qed.

(** A double is at most zero, or it has a positive sign. *)
Lemma double_pos_sign d :
  double_ltb double_zero d = true →
  d = S754_infinity false ∨ ∃ m e, d = S754_finite false m e.
Proof.
  unfold double_ltb, double_zero, SFltb, SFcompare.
  destruct d as [s|s| |s m e]; try destruct s; try discriminate; eauto.
Qed.

Lemma trunc_round_nonneg m e l :
  ∀ z, double_trunc (binary_round_aux 53 1024 false m e l) = Some z → 0 ≤ z.
Proof.
  intros z. unfold binary_round_aux, shr_fexp. destruct (shr _ _ _) as [mrs e'].
  destruct (shr _ _ _) as [mrs' e''].
  destruct (shr_m mrs'); simpl; [intros [= <-]; lia| |discriminate].
  case_match; [|discriminate]. simpl. intros [= <-].
  case_match; [apply Z.mul_nonneg_nonneg; lia|apply Z.div_pos; lia].
Qed.

(** A positive number of seconds never gives a negative delay. *)
Lemma delta_nonneg seconds delta :
  double_ltb double_zero seconds = true → delta_of_seconds seconds = Ok delta → 0 ≤ delta.
Proof.
  intros Hpos Hd. unfold delta_of_seconds, int64_of_double in Hd.
  destruct (double_trunc _) as [z|] eqn:E; [|done].
  apply checked_i64_Ok in Hd as [-> _].
  apply double_pos_sign in Hpos as [->|(m & e & ->)]; [done|].
  unfold double_mul in E. vm_compute (double_of_Z _) in E.
  unfold SFmul in E. by apply trunc_round_nonneg in E.
Qed.

Lemma addTime_spec t seconds t' :
  addTime t seconds = Ok t' →
  ∃ delta, delta_of_seconds seconds = Ok delta ∧ t' = t + delta ∧ - 2 ^ 63 ≤ t' < 2 ^ 63.
Proof.
  unfold addTime. intros Ht. inv_ok. apply checked_i64_Ok in H0 as [-> ?].
  unfold microSecondsSinceEpoch in *. eauto.
Qed.
