(* ===== verification/TimerQueue.v ===== *)
(** * Timers (muduo/net/Timer.h, Timer.cc, TimerId.h, TimerQueue.h, TimerQueue.cc)

    [Timer] objects live on a heap and are named by their address, as the
    [Timer*] of the source; [new] and [delete] change the heap, and using an
    address that is not allocated is a fault.  [timers_] is the ordered
    [std::set<Entry>], [activeTimers_] and [cancelingTimers_] are sets of
    (address, sequence).  A timer callback may itself add and cancel timers:
    its behaviour is a list of actions that may depend on the queue. *)
From stdpp Require Import base numbers list gmap sorting.
From S2P Require Import Prelude Timestamp.
Open Scope Z_scope.
Open Scope muduo_scope.

Definition UINTPTR_MAX : Z := 2 ^ 64 - 1.

(** [std::pair<Timestamp, Timer*>] with the lexicographic order of [std::pair]. *)
Definition Entry : Type := Z * Z.
Definition entry_ltb (a b : Entry) : bool :=
  timestamp_ltb a.1 b.1 || (negb (timestamp_ltb b.1 a.1) && (a.2 <? b.2)).

(** [std::set<Entry>] as its elements in order. *)
Fixpoint set_insert (e : Entry) (l : list Entry) : list Entry * bool :=
  match l with
  | [] => ([e], true)
  | x :: l' =>
      if entry_ltb e x then (e :: l, true)
      else if entry_ltb x e then let '(l'', b) := set_insert e l' in (x :: l'', b)
      else (l, false)
  end.

Definition set_erase (e : Entry) (l : list Entry) : list Entry * Z :=
  (filter (λ x, entry_ltb x e || entry_ltb e x) l,
   size_of (filter (λ x, ¬ (entry_ltb x e || entry_ltb e x)) l)).

(** [begin()..lower_bound(e)] and [lower_bound(e)..end()]. *)
Fixpoint lower_bound (e : Entry) (l : list Entry) : list Entry * list Entry :=
  match l with
  | [] => ([], [])
  | x :: l' =>
      if entry_ltb x e then let '(a, b) := lower_bound e l' in (x :: a, b) else ([], l)
  end.

Section Timers.
Context (Callback : Type).

(** ** Timer and TimerId *)

Record Timer := mkTimer {
  callback_ : Callback;
  expiration_ : Timestamp;
  interval_ : double;
  repeat_ : bool;
  sequence_ : Z
}.

Record TimerId := mkTimerId { timer_ : Z; id_sequence_ : Z }.

(** [Timer::Timer], with the value of [s_numCreated_.incrementAndGet()]. *)
Definition Timer_new (cb : Callback) (when : Timestamp) (interval : double) (seq : Z) : Timer :=
  mkTimer cb when interval (double_ltb double_zero interval) seq.

Definition set_expiration (t : Timer) (e : Timestamp) : Timer :=
  mkTimer (callback_ t) e (interval_ t) (repeat_ t) (sequence_ t).

Definition restart (t : Timer) (now : Timestamp) : outcome Timer :=
  if repeat_ t
  then e ← addTime now (interval_ t); mret (set_expiration t e)
  else mret (set_expiration t Timestamp.invalid).

(** ** The timer descriptor *)

Record timespec := mkTimespec { tv_sec : Z; tv_nsec : Z }.

Definition howMuchTimeFromNow (when now : Timestamp) : outcome timespec :=
  microseconds ← checked_i64 (microSecondsSinceEpoch when - microSecondsSinceEpoch now);
  let microseconds := if microseconds <? 100 then 100 else microseconds in
  mret (mkTimespec (Z.quot microseconds kMicroSecondsPerSecond)
                   (Z.rem microseconds kMicroSecondsPerSecond * 1000)).

(** ** The queue *)

(** [heap]: the allocated timers.  [numCreated]: [Timer::s_numCreated_].
    [clock]: the wall clock [Timestamp::now()] reads.  [armed]: the time at
    which [timerfd_] becomes readable, if it is armed or has fired and was not
    read.  [ran]: the sequence numbers of the callbacks run so far. *)
Record TimerQueue := mkTimerQueue {
  heap : gmap Z Timer;
  numCreated : Z;
  clock : Timestamp;
  armed : option Z;
  ran : list Z;
  timers_ : list Entry;
  activeTimers_ : gset (Z * Z);
  callingExpiredTimers_ : bool;
  cancelingTimers_ : gset (Z * Z)
}.

Definition TimerQueue_new (t : Timestamp) : TimerQueue :=
  mkTimerQueue ∅ 0 t None [] [] ∅ false ∅.

Definition set_heap (q : TimerQueue) (h : gmap Z Timer) : TimerQueue :=
  mkTimerQueue h (numCreated q) (clock q) (armed q) (ran q) (timers_ q) (activeTimers_ q)
    (callingExpiredTimers_ q) (cancelingTimers_ q).
Definition set_numCreated (q : TimerQueue) (n : Z) : TimerQueue :=
  mkTimerQueue (heap q) n (clock q) (armed q) (ran q) (timers_ q) (activeTimers_ q)
    (callingExpiredTimers_ q) (cancelingTimers_ q).
Definition set_clock (q : TimerQueue) (t : Timestamp) : TimerQueue :=
  mkTimerQueue (heap q) (numCreated q) t (armed q) (ran q) (timers_ q) (activeTimers_ q)
    (callingExpiredTimers_ q) (cancelingTimers_ q).
Definition set_armed (q : TimerQueue) (a : option Z) : TimerQueue :=
  mkTimerQueue (heap q) (numCreated q) (clock q) a (ran q) (timers_ q) (activeTimers_ q)
    (callingExpiredTimers_ q) (cancelingTimers_ q).
Definition log_run (q : TimerQueue) (seq : Z) : TimerQueue :=
  mkTimerQueue (heap q) (numCreated q) (clock q) (armed q) (ran q ++ [seq]) (timers_ q)
    (activeTimers_ q) (callingExpiredTimers_ q) (cancelingTimers_ q).
Definition set_timers (q : TimerQueue) (l : list Entry) (a : gset (Z * Z)) : TimerQueue :=
  mkTimerQueue (heap q) (numCreated q) (clock q) (armed q) (ran q) l a
    (callingExpiredTimers_ q) (cancelingTimers_ q).
Definition set_calling (q : TimerQueue) (b : bool) (c : gset (Z * Z)) : TimerQueue :=
  mkTimerQueue (heap q) (numCreated q) (clock q) (armed q) (ran q) (timers_ q)
    (activeTimers_ q) b c.

(** [*p] and [delete p]. *)
Definition deref (q : TimerQueue) (p : Z) : outcome Timer :=
  match heap q !! p with Some t => Ok t | None => Fault BadDeref end.
Definition delete_timer (q : TimerQueue) (p : Z) : outcome TimerQueue :=
  _ ← deref q p; mret (set_heap q (delete p (heap q))).

(** [assert(timers_.size() == activeTimers_.size())]. *)
Definition assert_sizes (line : Z) (q : TimerQueue) : outcome unit :=
  assertb line (size_of (timers_ q) =? Z.of_nat (size (activeTimers_ q))).

(** [timerfd_settime] with a relative one-shot value. *)
Definition resetTimerfd (q : TimerQueue) (expiration : Timestamp) : outcome TimerQueue :=
  ts ← howMuchTimeFromNow expiration (clock q);
  mret (set_armed q (Some (clock q + tv_sec ts * kMicroSecondsPerSecond + tv_nsec ts / 1000))).

(** Reading the descriptor consumes an expiration that has happened. *)
Definition readTimerfd (q : TimerQueue) : TimerQueue :=
  match armed q with
  | Some fire => if fire <=? clock q then set_armed q None else q
  | None => q
  end.

Definition insert (q : TimerQueue) (p : Z) : outcome (bool * TimerQueue) :=
  _ ← assert_sizes 238 q;
  timer ← deref q p;
  let when := expiration_ timer in
  let earliestChanged :=
    match timers_ q with [] => true | it :: _ => timestamp_ltb when it.1 end in
  let '(l, inserted) := set_insert (when, p) (timers_ q) in
  _ ← assertb 249 inserted;
  _ ← assertb 254 (bool_decide ((p, sequence_ timer) ∉ activeTimers_ q));
  let q' := set_timers q l ({[ (p, sequence_ timer) ]} ∪ activeTimers_ q) in
  _ ← assert_sizes 257 q';
  mret (earliestChanged, q').

Definition addTimerInLoop (q : TimerQueue) (p : Z) : outcome TimerQueue :=
  '(earliestChanged, q') ← insert q p;
  if (earliestChanged : bool)
  then timer ← deref q' p; resetTimerfd q' (expiration_ timer)
  else mret q'.

Definition cancelInLoop (q : TimerQueue) (timerId : TimerId) : outcome TimerQueue :=
  _ ← assert_sizes 146 q;
  let timer := (timer_ timerId, id_sequence_ timerId) in
  q' ← (if bool_decide (timer ∈ activeTimers_ q) then
          t ← deref q (timer_ timerId);
          let '(l, n) := set_erase (expiration_ t, timer_ timerId) (timers_ q) in
          _ ← assertb 152 (n =? 1);
          q1 ← delete_timer q (timer_ timerId);
          mret (set_timers q1 l (activeTimers_ q ∖ {[ timer ]}))
        else if callingExpiredTimers_ q then
          mret (set_calling q true ({[ timer ]} ∪ cancelingTimers_ q))
        else mret q);
  _ ← assert_sizes 160 q';
  mret q'.

(** The loop of [getExpired] that erases from [activeTimers_]. *)
Fixpoint erase_active (q : TimerQueue) (expired : list Entry) : outcome TimerQueue :=
  match expired with
  | [] => mret q
  | it :: expired =>
      t ← deref q it.2;
      _ ← assertb 197 (bool_decide ((it.2, sequence_ t) ∈ activeTimers_ q));
      erase_active (set_timers q (timers_ q) (activeTimers_ q ∖ {[ (it.2, sequence_ t) ]})) expired
  end.

Definition getExpired (q : TimerQueue) (now : Timestamp) : outcome (list Entry * TimerQueue) :=
  _ ← assert_sizes 185 q;
  let sentry := (now, UINTPTR_MAX) in
  let '(expired, rest) := lower_bound sentry (timers_ q) in
  _ ← assertb 189 (match rest with [] => true | e :: _ => timestamp_ltb now e.1 end);
  q' ← erase_active (set_timers q rest (activeTimers_ q)) expired;
  _ ← assert_sizes 200 q';
  mret (expired, q').

(** The loop of [reset]. *)
Fixpoint reset_loop (q : TimerQueue) (expired : list Entry) (now : Timestamp)
    : outcome TimerQueue :=
  match expired with
  | [] => mret q
  | it :: expired =>
      t ← deref q it.2;
      q' ← (if repeat_ t && bool_decide ((it.2, sequence_ t) ∉ cancelingTimers_ q)
            then t' ← restart t now;
                 '(_, q1) ← insert (set_heap q (<[it.2 := t']> (heap q))) it.2; mret q1
            else delete_timer q it.2);
      reset_loop q' expired now
  end.

Definition reset (q : TimerQueue) (expired : list Entry) (now : Timestamp)
    : outcome TimerQueue :=
  q1 ← reset_loop q expired now;
  nextExpire ← match timers_ q1 with
               | [] => mret Timestamp.invalid
               | it :: _ => t ← deref q1 it.2; mret (expiration_ t)
               end;
  if Timestamp.valid nextExpire then resetTimerfd q1 nextExpire else mret q1.

(** ** Callbacks *)

(** What a timer callback does to the queue: add a timer, cancel one, or let
    time pass. *)
Inductive TimerAction :=
  | ActAdd (cb : Callback) (when : Timestamp) (interval : double)
  | ActCancel (id : TimerId)
  | ActElapse (microseconds : Z).

(** [malloc]: the address [new Timer] gets ([None]: [bad_alloc]).
    [body]: the actions of a callback. *)
Context (malloc : gmap Z Timer → option Z).
Context (body : Callback → TimerQueue → list TimerAction).

(** [new Timer(cb, when, interval)]. *)
Definition new_timer (q : TimerQueue) (cb : Callback) (when : Timestamp) (interval : double)
    : outcome (TimerId * TimerQueue) :=
  match malloc (heap q) with
  | None => Fault BadAlloc
  | Some p =>
      let seq := numCreated q + 1 in
      mret (mkTimerId p seq,
            set_numCreated (set_heap q (<[p := Timer_new cb when interval seq]> (heap q))) seq)
  end.

(** The last line of [addTimer], [TimerId(timer, timer->sequence())]. *)
Definition return_id (q : TimerQueue) (p : Z) : outcome TimerId :=
  t ← deref q p; mret (mkTimerId p (sequence_ t)).

(** [addTimer] called in the loop thread, where [runInLoop] calls at once; in another thread it queues the
    call, and the loop can come before the last line. *)
Definition addTimer (q : TimerQueue) (cb : Callback) (when : Timestamp) (interval : double)
    : outcome (TimerId * TimerQueue) :=
  '(id, q1) ← new_timer q cb when interval;
  q2 ← addTimerInLoop q1 (timer_ id);
  id ← return_id q2 (timer_ id);
  mret (id, q2).

Definition run_action (q : TimerQueue) (a : TimerAction) : outcome TimerQueue :=
  match a with
  | ActAdd cb when interval => '(_, q') ← addTimer q cb when interval; mret q'
  | ActCancel id => cancelInLoop q id
  | ActElapse us => mret (set_clock q (clock q + Z.abs us))
  end.

Fixpoint run_actions (q : TimerQueue) (l : list TimerAction) : outcome TimerQueue :=
  match l with [] => mret q | a :: l => q' ← run_action q a; run_actions q' l end.

(** [it.second->run()] for every expired entry. *)
Fixpoint run_expired (q : TimerQueue) (expired : list Entry) : outcome TimerQueue :=
  match expired with
  | [] => mret q
  | it :: expired =>
      t ← deref q it.2;
      q' ← run_actions (log_run q (sequence_ t)) (body (callback_ t) q);
      run_expired q' expired
  end.

Definition handleRead (q : TimerQueue) : outcome TimerQueue :=
  let now := clock q in
  let q0 := readTimerfd q in
  '(expired, q1) ← getExpired q0 now;
  q2 ← run_expired (set_calling q1 true ∅) expired;
  reset (set_calling q2 false (cancelingTimers_ q2)) expired now.
End Timers.

Arguments mkTimer {Callback} _ _ _ _ _.
Arguments callback_ {Callback} _.
Arguments expiration_ {Callback} _.
Arguments interval_ {Callback} _.
Arguments repeat_ {Callback} _.
Arguments sequence_ {Callback} _.
Arguments Timer_new {Callback} _ _ _ _.
Arguments set_expiration {Callback} _ _.
Arguments restart {Callback} _ _.
Arguments mkTimerQueue {Callback} _ _ _ _ _ _ _ _ _.
Arguments heap {Callback} _.
Arguments numCreated {Callback} _.
Arguments clock {Callback} _.
Arguments armed {Callback} _.
Arguments ran {Callback} _.
Arguments timers_ {Callback} _.
Arguments activeTimers_ {Callback} _.
Arguments callingExpiredTimers_ {Callback} _.
Arguments cancelingTimers_ {Callback} _.
Arguments TimerQueue_new {Callback} _.
Arguments set_heap {Callback} _ _.
Arguments set_numCreated {Callback} _ _.
Arguments set_clock {Callback} _ _.
Arguments set_armed {Callback} _ _.
Arguments log_run {Callback} _ _.
Arguments set_timers {Callback} _ _ _.
Arguments set_calling {Callback} _ _ _.
Arguments deref {Callback} _ _.
Arguments delete_timer {Callback} _ _.
Arguments assert_sizes {Callback} _ _.
Arguments resetTimerfd {Callback} _ _.
Arguments readTimerfd {Callback} _.
Arguments insert {Callback} _ _.
Arguments addTimerInLoop {Callback} _ _.
Arguments cancelInLoop {Callback} _ _.
Arguments erase_active {Callback} _ _.
Arguments getExpired {Callback} _ _.
Arguments reset_loop {Callback} _ _ _.
Arguments reset {Callback} _ _ _.
Arguments ActAdd {Callback} _ _ _.
Arguments ActCancel {Callback} _.
Arguments ActElapse {Callback} _.
Arguments new_timer {Callback} _ _ _ _ _.
Arguments return_id {Callback} _ _.
Arguments addTimer {Callback} _ _ _ _ _.
Arguments run_action {Callback} _ _ _.
Arguments run_actions {Callback} _ _ _.
Arguments run_expired {Callback} _ _ _ _.
Arguments handleRead {Callback} _ _ _.
