(* ===== verification/TimerQueueSafety.v ===== *)
(** * Correctness of the timer queue

    The representation invariant [tq_ok] (the ordered set, the active set and
    the heap agree), what each operation does to it, and the theorems: no
    operation fails an assertion or touches a freed timer whatever the
    callbacks do, the expired callbacks run in order and once, repeating timers
    are rescheduled, cancelled ones are not, and the descriptor stays armed. *)
From stdpp Require Import base numbers list gmap sorting.
From S2P Require Import Prelude Timestamp TimerQueue.
Open Scope Z_scope.
Open Scope muduo_scope.

Arguments assert_sizes : simpl never.

(** ** The ordered set *)

Definition entry_lt (a b : Entry) : Prop := entry_ltb a b = true.

Lemma entry_lt_spec a b : entry_lt a b ↔ a.1 < b.1 ∨ (a.1 = b.1 ∧ a.2 < b.2).
Proof.
  unfold entry_lt, entry_ltb, timestamp_ltb, microSecondsSinceEpoch. lia.
Qed.

Lemma entry_lt_false a b : entry_ltb a b = false ↔ ¬ entry_lt a b.
Proof. unfold entry_lt. by destruct (entry_ltb a b). Qed.

#[export] Instance entry_lt_trans : Transitive entry_lt.
Proof. intros a b c. rewrite !entry_lt_spec. lia. Qed.

Lemma entry_lt_total a b : ¬ entry_lt a b → ¬ entry_lt b a → a = b.
Proof. rewrite !entry_lt_spec. intros. destruct a, b; simpl in *. f_equal; lia. Qed.

Lemma entry_lt_irrefl a : ¬ entry_lt a a.
Proof. rewrite entry_lt_spec. lia. Qed.

Notation ordered := (StronglySorted entry_lt).

Lemma ordered_NoDup l : ordered l → NoDup l.
Proof.
  induction 1 as [|x l Hl IH Hx]; constructor; [|done].
  intros Hin. rewrite Forall_forall in Hx. by apply (entry_lt_irrefl x), Hx.
Qed.

Lemma set_insert_perm e l : e ∉ l → (set_insert e l).1 ≡ₚ e :: l ∧ (set_insert e l).2 = true.
Proof.
  induction l as [|x l IH]; simpl; [done|].
  rewrite not_elem_of_cons. intros [Hne Hni].
  destruct (entry_ltb e x) eqn:E1; [done|]. destruct (entry_ltb x e) eqn:E2.
  - destruct (IH Hni) as [Hp Hb]. destruct (set_insert e l) as [l'' b]. simpl in *.
    split; [|done]. rewrite Hp. apply Permutation_swap.
  - apply entry_lt_false in E1, E2. by destruct Hne; apply entry_lt_total.
Qed.

Lemma set_insert_ordered e l : ordered l → ordered (set_insert e l).1.
Proof.
  induction 1 as [|x l Hl IH Hx]; simpl; [by repeat constructor|].
  destruct (entry_ltb e x) eqn:E1.
  - constructor; [by constructor|]. constructor; [done|].
    eapply Forall_impl; [done|]. intros y Hy. by transitivity x.
  - destruct (entry_ltb x e) eqn:E2; [|by constructor].
    destruct (decide (e ∈ l)) as [Hin|Hni].
    + assert ((set_insert e l).1 = l) as Heq.
      { clear -Hl Hin. induction Hl as [|y l Hl IH Hy]; simpl; [by apply not_elem_of_nil in Hin|].
        rewrite Forall_forall in Hy.
        apply elem_of_cons in Hin as [->|Hin].
        - assert (entry_ltb y y = false) as -> by (apply entry_lt_false, entry_lt_irrefl). done.
        - assert (entry_ltb e y = false) as ->.
          { apply entry_lt_false. intros Hlt. destruct (entry_lt_irrefl e). transitivity y; auto. }
          rewrite (Hy e Hin). destruct (set_insert e l). simpl in *. by rewrite IH. }
      destruct (set_insert e l) as [l'' b]. simpl in *. subst. by constructor.
    + destruct (set_insert_perm e l Hni) as [Hp _].
      destruct (set_insert e l) as [l'' b]. simpl in *. constructor; [done|].
      rewrite Hp. by constructor.
Qed.

Lemma erase_keep e x : Is_true (entry_ltb x e || entry_ltb e x) ↔ x ≠ e.
Proof.
  split.
  - intros H ->. rewrite orb_diag in H. apply Is_true_true in H. by apply entry_lt_irrefl in H.
  - intros Hne. destruct (entry_ltb x e) eqn:E1; [done|].
    destruct (entry_ltb e x) eqn:E2; [done|].
    apply entry_lt_false in E1, E2. by destruct Hne; apply entry_lt_total.
Qed.

Lemma set_erase_eq e l :
  set_erase e l = (filter (λ x, x ≠ e) l, size_of (filter (λ x, x = e) l)).
Proof.
  unfold set_erase. f_equal; [|f_equal]; apply list_filter_iff; intros x; rewrite erase_keep; [done|].
  split; [apply dec_stable|by intros ? ?].
Qed.

Lemma set_erase_spec e l :
  ordered l → e ∈ l →
  (set_erase e l).2 = 1 ∧ ordered (set_erase e l).1 ∧ l ≡ₚ e :: (set_erase e l).1.
Proof.
  rewrite set_erase_eq. simpl. induction 1 as [|x l Hl IH Hx]; intros Hin.
  { by apply not_elem_of_nil in Hin. }
  pose proof (ordered_NoDup (x :: l) (SSorted_cons _ Hl Hx)) as [Hni _]%NoDup_cons.
  apply elem_of_cons in Hin as [->|Hin].
  - rewrite !filter_cons. rewrite decide_True by done. rewrite decide_False by (intros Hc; by apply Hc).
    assert (filter (λ y, y ≠ x) l = l) as Heq.
    { apply filter_id. intros y Hy ->. done. }
    assert (filter (λ y, y = x) l = []) as Hemp.
    { apply filter_none. intros y Hy ->. done. }
    rewrite Heq, Hemp. done.
  - assert (x ≠ e) as Hne by (intros ->; done).
    rewrite !filter_cons. rewrite decide_False, decide_True by done.
    destruct (IH Hin) as (Hn & Ho & Hp). split; [done|]. split.
    + constructor; [done|]. apply Forall_forall. intros y [_ Hy]%list_elem_of_filter.
      rewrite Forall_forall in Hx. auto.
    + rewrite Hp at 1. apply Permutation_swap.
Qed.

Lemma lower_bound_spec s l :
  ordered l →
  let '(a, b) := lower_bound s l in
  l = a ++ b ∧ (∀ e, e ∈ a → entry_lt e s) ∧ (∀ e, e ∈ b → ¬ entry_lt e s) ∧ ordered b.
Proof.
  induction 1 as [|x l Hl IH Hx]; simpl.
  { split_and!; [done|intros e []%not_elem_of_nil..|constructor]. }
  destruct (entry_ltb x s) eqn:E.
  - destruct (lower_bound s l) as [a b]. destruct IH as (-> & Ha & Hb & Ho).
    split_and!; [done| |done|done]. intros e [->|He]%elem_of_cons; auto.
  - split_and!; [done|intros e []%not_elem_of_nil| |by constructor].
    apply entry_lt_false in E. rewrite Forall_forall in Hx.
    intros e [->|He]%elem_of_cons; [done|]. intros Hlt. destruct E. transitivity e; auto.
Qed.

(** ** The invariant *)

Section Invariant.
Context {Callback : Type}.
Notation TQ := (TimerQueue Callback).
Implicit Types (q : TQ) (t : Timer Callback).

Record tq_ok (q : TQ) : Prop := {
  tq_sorted : ordered (timers_ q);
  tq_timers : ∀ w p, (w, p) ∈ timers_ q →
    ∃ t, heap q !! p = Some t ∧ expiration_ t = w ∧ (p, sequence_ t) ∈ activeTimers_ q;
  tq_active : ∀ p s, (p, s) ∈ activeTimers_ q →
    ∃ t, heap q !! p = Some t ∧ sequence_ t = s ∧ (expiration_ t, p) ∈ timers_ q;
  tq_heap : ∀ p t, heap q !! p = Some t →
    0 < p < UINTPTR_MAX ∧ sequence_ t ≤ numCreated q ∧
    repeat_ t = double_ltb double_zero (interval_ t)
}.

(** An allocated timer that is not scheduled. *)
Definition idle q p t : Prop :=
  heap q !! p = Some t ∧ (p, sequence_ t) ∉ activeTimers_ q.

Lemma tq_NoDup q : tq_ok q → NoDup (timers_ q).
Proof. intros Hq. apply ordered_NoDup, Hq. Qed.

Lemma idle_not_in_timers q p t w : tq_ok q → idle q p t → (w, p) ∉ timers_ q.
Proof.
  intros Hq [Hp Ha] Hin. destruct (tq_timers q Hq _ _ Hin) as (t' & Hp' & _ & Ha').
  congruence.
Qed.

(** The two sets have the same size. *)
Definition active_of q (e : Entry) : Z * Z :=
  (e.2, default 0 (sequence_ <$> heap q !! e.2)).

Lemma active_of_timers q : tq_ok q → activeTimers_ q = list_to_set (active_of q <$> timers_ q).
Proof.
  intros Hq. apply set_eq. intros [p s]. rewrite elem_of_list_to_set, list_elem_of_fmap. split.
  - intros Ha. destruct (tq_active q Hq _ _ Ha) as (t & Hp & Hs & Hin).
    exists (expiration_ t, p). split; [|done]. unfold active_of. simpl. by rewrite Hp, <- Hs.
  - intros ([w p'] & Heq & Hin). destruct (tq_timers q Hq _ _ Hin) as (t & Hp & _ & Ha).
    unfold active_of in Heq. simpl in Heq. rewrite Hp in Heq. simpl in Heq. by rewrite Heq.
Qed.

Lemma timers_address_inj q e e' :
  tq_ok q → e ∈ timers_ q → e' ∈ timers_ q → e.2 = e'.2 → e = e'.
Proof.
  intros Hq. destruct e as [w p], e' as [w' p']. intros H1 H2 Heq. simpl in Heq. subst p'.
  destruct (tq_timers q Hq _ _ H1) as (t & Hp & Hw & _).
  destruct (tq_timers q Hq _ _ H2) as (t' & Hp' & Hw' & _). congruence.
Qed.

Lemma tq_sizes q : tq_ok q → size_of (timers_ q) = Z.of_nat (size (activeTimers_ q)).
Proof.
  intros Hq. rewrite active_of_timers by done. rewrite size_list_to_set.
  { unfold size_of. by rewrite length_fmap. }
  pose proof (tq_NoDup q Hq) as Hnd.
  assert (∀ e e', e ∈ timers_ q → e' ∈ timers_ q → active_of q e = active_of q e' → e = e') as Hinj.
  { intros e e' H1 H2 Heq. apply (timers_address_inj q); auto.
    unfold active_of in Heq. congruence. }
  clear Hq. induction Hnd as [|e l Hni Hnd IH]; simpl; constructor.
  - rewrite list_elem_of_fmap. intros (e' & Heq & He').
    apply Hinj in Heq; [|left|by right]. congruence.
  - apply IH. intros; apply Hinj; auto; by right.
Qed.

Lemma assert_sizes_ok line q : tq_ok q → assert_sizes line q = Ok tt.
Proof. intros Hq. unfold assert_sizes. by rewrite tq_sizes, Z.eqb_refl. Qed.

(** ** Elementary changes of the state *)

Lemma tq_schedule q p t l :
  tq_ok q → idle q p t → ordered l → l ≡ₚ (expiration_ t, p) :: timers_ q →
  tq_ok (set_timers q l ({[ (p, sequence_ t) ]} ∪ activeTimers_ q)).
Proof.
  intros Hq [Hp Ha] Ho Hl. split; simpl; [done| | |apply Hq].
  - intros w p'. rewrite Hl. intros [[= -> ->]|Hin]%elem_of_cons.
    + exists t. set_solver.
    + destruct (tq_timers q Hq _ _ Hin) as (t' & ? & ? & ?). exists t'. set_solver.
  - intros p' s [[= -> ->]%elem_of_singleton|Hin]%elem_of_union.
    + exists t. rewrite Hl. split_and!; [done..|left].
    + destruct (tq_active q Hq _ _ Hin) as (t' & ? & ? & ?). exists t'.
      rewrite Hl. split_and!; [done..|by right].
Qed.

Lemma tq_unschedule q e t l :
  tq_ok q → heap q !! e.2 = Some t → ordered l → timers_ q ≡ₚ e :: l →
  tq_ok (set_timers q l (activeTimers_ q ∖ {[ (e.2, sequence_ t) ]})).
Proof.
  intros Hq Hp Ho Hl. pose proof (tq_NoDup q Hq) as Hnd. rewrite Hl in Hnd.
  apply NoDup_cons in Hnd as [Hni Hnd].
  assert (e ∈ timers_ q) as He by (rewrite Hl; left).
  split; simpl; [done| | |apply Hq].
  - intros w p Hin. assert ((w, p) ∈ timers_ q) as Hin' by (rewrite Hl; by right).
    destruct (tq_timers q Hq _ _ Hin') as (t' & ? & ? & Ha). exists t'. split_and!; [done..|].
    apply elem_of_difference. split; [done|]. intros [= -> _]%elem_of_singleton.
    apply Hni. by rewrite (timers_address_inj q e (w, e.2)).
  - intros p s [Ha Hne]%elem_of_difference.
    destruct (tq_active q Hq _ _ Ha) as (t' & Hp' & Hs & Hin). exists t'. split_and!; [done..|].
    rewrite Hl in Hin. apply elem_of_cons in Hin as [<-|Hin]; [|done].
    simpl in *. destruct Hne. apply elem_of_singleton. congruence.
Qed.

Lemma tq_free q p :
  tq_ok q → (∀ t, heap q !! p = Some t → idle q p t) → tq_ok (set_heap q (delete p (heap q))).
Proof.
  intros Hq Hidle.
  assert (∀ w p', (w, p') ∈ timers_ q → p' ≠ p) as Hne.
  { intros w p' Hin ->. destruct (tq_timers q Hq _ _ Hin) as (t & Hp & _).
    exact (idle_not_in_timers q p t w Hq (Hidle t Hp) Hin). }
  split; simpl; [apply Hq| | |].
  - intros w p' Hin. destruct (tq_timers q Hq _ _ Hin) as (t & ? & ? & ?).
    exists t. rewrite lookup_delete_ne by (by apply not_eq_sym, (Hne w)). done.
  - intros p' s Ha. destruct (tq_active q Hq _ _ Ha) as (t & ? & ? & Hin).
    exists t. rewrite lookup_delete_ne by (by eapply not_eq_sym, Hne). done.
  - intros p' t [_ Hp]%lookup_delete_Some. by apply Hq.
Qed.

Lemma tq_store q p t' :
  tq_ok q → (∀ t, heap q !! p = Some t → idle q p t) →
  0 < p < UINTPTR_MAX → sequence_ t' ≤ numCreated q →
  repeat_ t' = double_ltb double_zero (interval_ t') →
  tq_ok (set_heap q (<[ p := t' ]> (heap q))).
Proof.
  intros Hq Hidle Hp Hs Hr.
  assert (∀ w p', (w, p') ∈ timers_ q → p ≠ p') as Hne.
  { intros w p' Hin ->. destruct (tq_timers q Hq _ _ Hin) as (t & Hp' & _).
    exact (idle_not_in_timers q p' t w Hq (Hidle t Hp') Hin). }
  split; simpl; [apply Hq| | |].
  - intros w p' Hin. destruct (tq_timers q Hq _ _ Hin) as (t & ? & ? & ?).
    exists t. rewrite lookup_insert_ne by (by eapply Hne). done.
  - intros p' s Ha. destruct (tq_active q Hq _ _ Ha) as (t & ? & ? & Hin).
    exists t. rewrite lookup_insert_ne by (by eapply Hne). done.
  - intros p' t [[-> <-]|[_ Hl]]%lookup_insert_Some; [done|]. by apply Hq.
Qed.

Lemma tq_same_sets q q' :
  tq_ok q → heap q' = heap q → numCreated q ≤ numCreated q' →
  timers_ q' = timers_ q → activeTimers_ q' = activeTimers_ q → tq_ok q'.
Proof.
  intros Hq Hh Hn Ht Ha. split; rewrite ?Hh, ?Ht, ?Ha; try apply Hq.
  intros p t Hp. destruct (tq_heap q Hq _ _ Hp) as (? & ? & ?). split; [done|]. split; [lia|done].
Qed.

(** ** The timer descriptor *)

(** [P e]: the descriptor must serve the entry [e]. *)
Definition serves q (P : Entry → Prop) : Prop :=
  ∀ e, e ∈ timers_ q → P e → ∃ fire, armed q = Some fire ∧ fire ≤ Z.max e.1 (clock q + 100).

Definition downward (P : Entry → Prop) : Prop := ∀ e e', e.1 ≤ e'.1 → P e' → P e.

Lemma howMuchTimeFromNow_spec when now :
  howMuchTimeFromNow when now ⇓[ λ f, f = Undefined ] λ ts,
    0 ≤ tv_nsec ts < 1000000000 ∧ 0 ≤ tv_sec ts ∧ 0 < tv_sec ts + tv_nsec ts ∧
    tv_sec ts * kMicroSecondsPerSecond + tv_nsec ts / 1000 = Z.max 100 (when - now).
Proof.
  unfold howMuchTimeFromNow, microSecondsSinceEpoch, checked_i64, kMicroSecondsPerSecond.
  change (1000 * 1000) with 1000000.
  destruct (_ && _); [|done]. simpl.
  set (us := if _ <? _ then _ else _).
  assert (us = Z.max 100 (when - now)) as Hus by (unfold us; case_match; lia).
  rewrite Hus. clear us Hus. set (us := Z.max 100 (when - now)).
  assert (100 ≤ us) by (unfold us; lia).
  rewrite Z.quot_div_nonneg, Z.rem_mod_nonneg by lia.
  rewrite Z.div_mul by lia. pose proof (Z.div_mod us 1000000 ltac:(lia)).
  pose proof (Z.mod_pos_bound us 1000000 ltac:(lia)).
  pose proof (Z.div_pos us 1000000 ltac:(lia) ltac:(lia)). lia.
Qed.

Lemma resetTimerfd_spec q e :
  resetTimerfd q e ⇓[ λ f, f = Undefined ] λ q',
    q' = set_armed q (Some (Z.max e (clock q + 100))).
Proof.
  unfold resetTimerfd. ostep howMuchTimeFromNow_spec. intros ts (_ & _ & _ & Heq).
  simpl. f_equal. f_equal. lia.
Qed.

(** ** Adding *)

Lemma insert_spec q p t :
  tq_ok q → idle q p t →
  insert q p ⇓ λ '(b, q'),
    tq_ok q' ∧ (∃ l, q' = set_timers q l ({[ (p, sequence_ t) ]} ∪ activeTimers_ q)) ∧
    timers_ q' ≡ₚ (expiration_ t, p) :: timers_ q ∧
    b = match timers_ q with [] => true | it :: _ => timestamp_ltb (expiration_ t) it.1 end.
Proof.
  intros Hq Hi. pose proof Hi as [Hp Ha]. unfold insert, deref.
  rewrite assert_sizes_ok, Hp by done. simpl.
  pose proof (set_insert_perm _ _ (idle_not_in_timers q p t (expiration_ t) Hq Hi)) as [Hl Hb].
  pose proof (set_insert_ordered (expiration_ t, p) _ (tq_sorted q Hq)) as Ho.
  destruct (set_insert _ _) as [l b]. simpl in *. subst b. simpl.
  rewrite bool_decide_true by done. simpl.
  pose proof (tq_schedule q p t l Hq Hi Ho Hl) as Hq'.
  rewrite assert_sizes_ok by done. simpl. eauto.
Qed.

Lemma ordered_head l e e' l' : ordered l → l = e :: l' → e' ∈ l → e.1 ≤ e'.1.
Proof.
  intros Ho -> [->|Hin]%elem_of_cons; [done|].
  inversion Ho as [|?? _ Hf]; subst. rewrite Forall_forall in Hf.
  apply Hf, entry_lt_spec in Hin. lia.
Qed.

Lemma addTimerInLoop_spec q p t :
  tq_ok q → idle q p t →
  addTimerInLoop q p ⇓[ λ f, f = Undefined ] λ q',
    tq_ok q' ∧
    (∃ l a, q' = set_armed (set_timers q l ({[ (p, sequence_ t) ]} ∪ activeTimers_ q)) a) ∧
    timers_ q' ≡ₚ (expiration_ t, p) :: timers_ q ∧
    (∀ P, downward P → serves q P → serves q' P).
Proof.
  intros Hq Hi. pose proof Hi as [Hp Ha]. unfold addTimerInLoop.
  apply yields_or_bind. eapply yields_yields_or, yields_mono; [by apply insert_spec|].
  intros [b q1] (Hq1 & [l ->] & Hl & Hb). simpl in Hl. subst b.
  destruct (timers_ q) as [|it l0] eqn:E; [|destruct (timestamp_ltb _ _) eqn:Hlt].
  - unfold deref. simpl. rewrite Hp. simpl. eapply yields_or_mono; [apply resetTimerfd_spec|].
    intros q' ->. simpl. split_and!; [by eapply tq_same_sets|by eauto|done|].
    intros P HP _ e He _. simpl in *. rewrite Hl in He.
    apply list_elem_of_singleton in He as ->. simpl. eauto with lia.
  - unfold deref. simpl. rewrite Hp. simpl. eapply yields_or_mono; [apply resetTimerfd_spec|].
    intros q' ->. simpl. split_and!; [by eapply tq_same_sets|by eauto|done|].
    intros P HP _ e He _. simpl in *. rewrite Hl in He. eexists; split; [done|].
    apply elem_of_cons in He as [->|He]; simpl; [lia|].
    unfold timestamp_ltb, microSecondsSinceEpoch in Hlt.
    pose proof (ordered_head (timers_ q) it e l0 (tq_sorted q Hq) E). rewrite E in *.
    specialize (H He). lia.
  - simpl. split_and!; [done|by exists l, (armed q); destruct q|done|].
    intros P HP Hs e He HPe. simpl in *. rewrite Hl in He.
    apply elem_of_cons in He as [->|He]; [|by apply Hs; [rewrite E|]].
    unfold timestamp_ltb, microSecondsSinceEpoch in Hlt. simpl in *.
    destruct (Hs it) as (fire & Hf & Hle); [rewrite E; left|by apply (HP it (expiration_ t, p)); [simpl; lia|]|].
    exists fire. split; [done|]. lia.
Qed.

(** ** What callbacks can do *)

(** The faults the timer queue is not responsible for. *)
Definition env_fault (f : fault) : Prop := f = BadAlloc ∨ f = Undefined.

(** No timer among the first [n] created is both cancelled and scheduled. *)
Definition cancel_ok (n : Z) q : Prop :=
  ∀ p s, (p, s) ∈ cancelingTimers_ q → s ≤ n → (p, s) ∉ activeTimers_ q.

(** From [q] to [q'] by actions of callbacks: idle timers are untouched, new
    timers have new sequence numbers, [r] was appended to the trace. *)
Record evolves (r : list Z) (q q' : TQ) : Prop := {
  ev_ok : tq_ok q';
  ev_idle : ∀ p t, idle q p t → idle q' p t;
  ev_created : numCreated q ≤ numCreated q';
  ev_clock : clock q ≤ clock q';
  ev_ran : ran q' = ran q ++ r;
  ev_calling : callingExpiredTimers_ q' = callingExpiredTimers_ q;
  ev_cancel : cancelingTimers_ q ⊆ cancelingTimers_ q';
  ev_serves : ∀ P, downward P → serves q P → serves q' P;
  ev_active : ∀ p s, (p, s) ∈ activeTimers_ q' → (p, s) ∈ activeTimers_ q ∨ numCreated q < s;
  ev_canceled : ∀ n, n ≤ numCreated q → cancel_ok n q → cancel_ok n q';
  ev_leak : ∀ p t, idle q' p t → idle q p t
}.

Lemma evolves_refl q : tq_ok q → evolves [] q q.
Proof. intros. split; auto with lia. by rewrite app_nil_r. Qed.

Lemma evolves_trans r1 r2 q1 q2 q3 :
  evolves r1 q1 q2 → evolves r2 q2 q3 → evolves (r1 ++ r2) q1 q3.
Proof.
  intros [K1 I1 N1 C1 R1 G1 X1 S1 A1 D1 L1] [K2 I2 N2 C2 R2 G2 X2 S2 A2 D2 L2]. split.
  - done.
  - intros p t Hi. by apply I2, I1.
  - lia.
  - lia.
  - by rewrite R2, R1, app_assoc.
  - congruence.
  - by transitivity (cancelingTimers_ q2).
  - intros P HP HS. by apply S2, S1.
  - intros p s Hp. apply A2 in Hp as [Hp|Hp]; [by apply A1|right; lia].
  - intros n Hn Hc. apply D2; [lia|]. by apply D1.
  - auto.
Qed.

Lemma cancelInLoop_spec q id :
  tq_ok q →
  cancelInLoop q id ⇓ λ q', evolves [] q q' ∧
    (timer_ id, id_sequence_ id) ∉ activeTimers_ q' ∧
    activeTimers_ q' = activeTimers_ q ∖ {[ (timer_ id, id_sequence_ id) ]} ∧
    ((timer_ id, id_sequence_ id) ∈ activeTimers_ q → heap q' = delete (timer_ id) (heap q)) ∧
    ((timer_ id, id_sequence_ id) ∉ activeTimers_ q → callingExpiredTimers_ q = true →
      (timer_ id, id_sequence_ id) ∈ cancelingTimers_ q').
Proof.
  intros Hq. unfold cancelInLoop. rewrite assert_sizes_ok by done. run_ok.
  destruct id as [p s]. cbn [timer_ id_sequence_].
  case_bool_decide as Ha; [|destruct (callingExpiredTimers_ q) eqn:Hc].
  - destruct (tq_active q Hq _ _ Ha) as (t & Hp & Hs & Hin). unfold delete_timer, deref.
    rewrite Hp. run_ok.
    pose proof (set_erase_spec _ _ (tq_sorted q Hq) Hin) as (Hn & Ho & Hl).
    destruct (set_erase _ _) as [l n]. simpl in *. subst n. simpl. subst s.
    set (q1 := set_timers q l (activeTimers_ q ∖ {[ (p, sequence_ t) ]})).
    assert (tq_ok q1) as Hq1 by (by apply (tq_unschedule q (expiration_ t, p))).
    assert (tq_ok (set_heap q1 (delete p (heap q1)))) as Hq2.
    { apply tq_free; [done|]. intros t' Hp'. simpl in Hp'. split; [done|].
      assert (t' = t) as -> by congruence. simpl. set_solver. }
    change (set_timers (set_heap q _) l _) with (set_heap q1 (delete p (heap q1))).
    rewrite assert_sizes_ok by done. simpl. split; [|set_solver].
    split; simpl; [done| |lia|lia|by rewrite app_nil_r|done|done| |set_solver| |].
    + intros p' t' [Hp' Ha']. split; simpl; [|set_solver].
      rewrite lookup_delete_ne; [done|]. intros ->. congruence.
    + intros P HP Hsv e He HPe. apply Hsv; [|done]. simpl in *. rewrite Hl. by right.
    + intros n Hn Hc p' s' Hp' Hs'. simpl in *. pose proof (Hc p' s' Hp' Hs'). set_solver.
    + intros p' t' [Hp' Ha']. simpl in *. apply lookup_delete_Some in Hp' as [Hne Hp'].
      split; [done|]. set_solver.
  - run_ok. rewrite assert_sizes_ok by (by apply (tq_same_sets q)). simpl.
    split; [|set_solver].
    split; simpl; [by apply (tq_same_sets q)|done|lia|lia|by rewrite app_nil_r|done|set_solver|done|
                   by auto| |done].
    intros n Hn Hc' p' s' Hp' Hs'. simpl in *.
    apply elem_of_union in Hp' as [[= -> ->]%elem_of_singleton|Hp']; [done|]. by apply Hc'.
  - run_ok. rewrite assert_sizes_ok by done. simpl.
    split; [by apply evolves_refl|]. split_and!; [done|set_solver|done|done].
Qed.

Context (malloc : gmap Z (Timer Callback) → option Z).
Hypothesis malloc_fresh : ∀ h p, malloc h = Some p → h !! p = None ∧ 0 < p < UINTPTR_MAX.

Lemma new_timer_spec q cb when interval :
  tq_ok q →
  new_timer malloc q cb when interval ⇓[env_fault] λ '(id, q'),
    ∃ t, t = Timer_new cb when interval (numCreated q + 1) ∧
      id = mkTimerId (timer_ id) (numCreated q + 1) ∧
      tq_ok q' ∧ idle q' (timer_ id) t ∧ heap q !! timer_ id = None ∧
      q' = set_numCreated (set_heap q (<[ timer_ id := t ]> (heap q))) (numCreated q + 1).
Proof.
  intros Hq. unfold new_timer. destruct (malloc (heap q)) as [p|] eqn:E; [|by left].
  destruct (malloc_fresh _ _ E) as [Hp Hr]. simpl. eexists. split_and!; [done|done| | |done|done].
  - eapply tq_same_sets; [|done|simpl|done|done].
    + apply (tq_store (set_numCreated q (numCreated q + 1)) p); simpl; try done.
      * eapply tq_same_sets; [done|done|simpl; lia|done|done].
      * intros t Ht. simpl in Ht. congruence.
    + simpl. done.
  - split; simpl; [by rewrite lookup_insert_eq|].
    intros Ha. destruct (tq_active q Hq _ _ Ha) as (t & Hp' & _). congruence.
Qed.

Lemma addTimer_spec q cb when interval :
  tq_ok q →
  addTimer malloc q cb when interval ⇓[env_fault] λ '(id, q'),
    evolves [] q q' ∧ id_sequence_ id = numCreated q + 1 ∧
    activeTimers_ q' = {[ (timer_ id, id_sequence_ id) ]} ∪ activeTimers_ q ∧
    timers_ q' ≡ₚ (when, timer_ id) :: timers_ q.
Proof.
  intros Hq. unfold addTimer. ostep new_timer_spec; [done|].
  intros [[p s] q1] (t & -> & Hid & Hq1 & Hi1 & Hfresh & ->). simpl in *. injection Hid as ->.
  apply yields_or_bind. eapply yields_or_mono.
  { eapply yields_or_weaken; [|by apply addTimerInLoop_spec]. intros f ->. by right. }
  cbv beta. intros q' (Hq' & (l & a & ->) & Hl & Hsv). simpl in *.
  unfold return_id, deref. simpl. rewrite lookup_insert_eq. simpl.
  split; [|by auto].
  split; simpl; [done| |lia|lia|by rewrite app_nil_r|done|done|by apply Hsv| | |].
  - intros p' t' [Hp' Ha']. split; simpl.
    + rewrite lookup_insert_ne; [done|]. intros ->. congruence.
    + intros [[= -> Hs]%elem_of_singleton|Hin]%elem_of_union; [congruence|done].
  - intros p' s [[= -> ->]%elem_of_singleton|Hin]%elem_of_union; auto with lia.
  - intros n Hn Hc p' s Hp' Hs. simpl in *.
    intros [[= -> ->]%elem_of_singleton|Hin]%elem_of_union; [lia|]. by apply (Hc p' s).
  - intros p' t' [Hp' Ha']. simpl in *.
    apply lookup_insert_Some in Hp' as [[-> <-]|[Hne Hp']]; [set_solver|].
    split; [done|set_solver].
Qed.

Context (body : Callback → TQ → list (TimerAction Callback)).

Lemma run_action_spec q a : tq_ok q → run_action malloc q a ⇓[env_fault] evolves [] q.
Proof.
  intros Hq. destruct a as [cb when interval|id|us]; simpl.
  - ostep addTimer_spec; [done|]. intros [id q'] [Hev _]. done.
  - eapply yields_yields_or, yields_mono; [by apply cancelInLoop_spec|]. by intros q' [? _].
  - split; simpl; try done; [by eapply tq_same_sets|lia|by rewrite app_nil_r| |by auto].
    intros P HP Hs e He HPe. destruct (Hs e He HPe) as (fire & Hf & Hle).
    exists fire. split; [done|]. simpl. lia.
Qed.

Lemma run_actions_spec l q : tq_ok q → run_actions malloc q l ⇓[env_fault] evolves [] q.
Proof.
  revert q. induction l as [|a l IH]; intros q Hq; simpl; [by apply evolves_refl|].
  ostep run_action_spec; [done|]. intros q1 H1.
  eapply yields_or_mono; [apply IH, H1|]. intros q2 H2.
  by apply (evolves_trans [] [] q q1).
Qed.

(** Entries whose timers are allocated but not scheduled. *)
Definition unscheduled q (l : list Entry) : Prop := ∀ e, e ∈ l → ∃ t, idle q e.2 t.

Definition seq_of q (e : Entry) : Z := default 0 (sequence_ <$> heap q !! e.2).

Lemma idle_seq q e t : idle q e.2 t → seq_of q e = sequence_ t.
Proof. intros [Hp _]. unfold seq_of. by rewrite Hp. Qed.

Lemma evolves_unscheduled r q q' l : evolves r q q' → unscheduled q l → unscheduled q' l.
Proof. intros Hev Hu e He. destruct (Hu e He) as [t Ht]. exists t. by eapply ev_idle. Qed.

Lemma evolves_seq_of r q q' l :
  evolves r q q' → unscheduled q l → seq_of q' <$> l = seq_of q <$> l.
Proof.
  intros Hev Hu. apply list_fmap_ext. intros i e He.
  destruct (Hu e) as [t Ht]; [by eapply list_elem_of_lookup_2|].
  rewrite (idle_seq q e t Ht). apply idle_seq. by eapply ev_idle.
Qed.

Lemma evolves_log q s : tq_ok q → evolves [s] q (log_run q s).
Proof.
  intros Hq. split; simpl; auto with lia. by eapply tq_same_sets.
Qed.

Lemma run_expired_spec l q :
  tq_ok q → unscheduled q l →
  run_expired malloc body q l ⇓[env_fault] evolves (seq_of q <$> l) q.
Proof.
  revert q. induction l as [|e l IH]; intros q Hq Hu; simpl; [by apply evolves_refl|].
  destruct (Hu e) as [t Ht]; [left|]. pose proof Ht as [Hp _].
  unfold deref. rewrite Hp. run_ok.
  pose proof (evolves_log q (sequence_ t) Hq) as H0.
  ostep run_actions_spec; [apply H0|]. intros q1 H1.
  pose proof (evolves_trans _ _ _ _ _ H0 H1) as H01. simpl in H01.
  assert (unscheduled q l) as Hu' by (intros e' He'; apply Hu; by right).
  eapply yields_or_mono; [apply IH; [apply H01|by eapply evolves_unscheduled]|].
  intros q2 H2. rewrite (evolves_seq_of _ _ _ _ H01 Hu') in H2.
  unfold seq_of at 1. rewrite Hp. by apply (evolves_trans [sequence_ t] _ q q1).
Qed.

(** ** Expiration *)

Lemma erase_active_spec q exp rest A :
  tq_ok (set_timers q (exp ++ rest) A) → timers_ q = rest → activeTimers_ q = A →
  erase_active q exp ⇓ λ q',
    ∃ A', q' = set_timers q rest A' ∧ A' ⊆ A ∧ tq_ok q' ∧ unscheduled q' exp.
Proof.
  revert q A. induction exp as [|e exp IH]; intros q A Hq Hr HA; simpl.
  { exists A. subst. destruct q; simpl in *. split_and!; [done|done|done|].
    by intros e He%not_elem_of_nil. }
  destruct (tq_timers _ Hq e.1 e.2) as (t & Hp & Hw & Ha).
  { simpl. rewrite <- surjective_pairing. left. }
  simpl in Hp, Ha. unfold deref. rewrite Hp. run_ok. subst A.
  rewrite bool_decide_true by done. run_ok.
  pose proof (tq_unschedule _ e t (exp ++ rest) Hq Hp) as Hq1.
  assert (ordered (exp ++ rest)) as Ho.
  { pose proof (tq_sorted _ Hq) as Ho. simpl in Ho. by inversion Ho. }
  specialize (Hq1 Ho (reflexivity _)). simpl in Hq1.
  set (q1 := set_timers q (timers_ q) (activeTimers_ q ∖ {[ (e.2, sequence_ t) ]})).
  eapply yields_mono; [apply (IH q1 (activeTimers_ q1)); [exact Hq1|done|done]|].
  intros q' (A' & -> & HA' & Hq' & Hu). exists A'. simpl in HA'.
  split_and!; [done|set_solver|done|].
  intros e' [->|He']%elem_of_cons; [|by apply Hu].
  exists t. split; simpl; [done|set_solver].
Qed.

Lemma getExpired_spec q now :
  tq_ok q →
  getExpired q now ⇓ λ '(expired, q'), ∃ A',
    q' = set_timers q (timers_ q') A' ∧ A' ⊆ activeTimers_ q ∧ tq_ok q' ∧
    timers_ q = expired ++ timers_ q' ∧ NoDup expired.*2 ∧
    (∀ e, e ∈ expired → e.1 ≤ now) ∧ (∀ e, e ∈ timers_ q' → now < e.1) ∧
    unscheduled q' expired.
Proof.
  intros Hq. unfold getExpired. rewrite assert_sizes_ok by done. run_ok.
  pose proof (lower_bound_spec (now, UINTPTR_MAX) _ (tq_sorted q Hq)) as Hlb.
  destruct (lower_bound _ _) as [exp rest]. destruct Hlb as (Hl & Hexp & Hrest & Ho).
  assert (∀ e, e ∈ exp → e.1 ≤ now) as He1.
  { intros e He%Hexp. apply entry_lt_spec in He. simpl in He. lia. }
  assert (∀ e, e ∈ rest → now < e.1) as He2.
  { intros [w p] He. pose proof (Hrest _ He) as Hn. rewrite entry_lt_spec in Hn. simpl in *.
    destruct (tq_timers q Hq w p) as (t & Hp & _); [rewrite Hl; set_solver|].
    destruct (tq_heap q Hq _ _ Hp) as [? _]. lia. }
  replace (match rest with [] => true | e :: _ => timestamp_ltb now e.1 end) with true.
  2: { destruct rest as [|e rest]; [done|]. symmetry.
       unfold timestamp_ltb, microSecondsSinceEpoch. apply Z.ltb_lt, He2. left. }
  run_ok. ystep (erase_active_spec (set_timers q rest (activeTimers_ q)) exp rest
                   (activeTimers_ q)); [|done|done|].
  { simpl. rewrite <- Hl. by destruct q. }
  intros q' (A' & -> & HA & Hq' & Hu). rewrite assert_sizes_ok by done. run_ok.
  exists A'. simpl. split_and!; [done|done|done|done| |done|done|done].
  pose proof (tq_NoDup q Hq) as Hnd. rewrite Hl in Hnd. apply NoDup_app in Hnd as (Hnd & _ & _).
  apply NoDup_fmap_2_strong; [|done]. intros e e' H1 H2. apply (timers_address_inj q); [done|..];
    rewrite Hl; set_solver.
Qed.

(** ** Rescheduling *)

Definition rescheduled q (now : Timestamp) (cancelled : gset (Z * Z)) (p : Z) (t : Timer Callback)
    : Prop :=
  if repeat_ t && bool_decide ((p, sequence_ t) ∉ cancelled)
  then ∃ delta, delta_of_seconds (interval_ t) = Ok delta ∧ 0 ≤ delta ∧
         heap q !! p = Some (set_expiration t (now + delta)) ∧
         (now + delta, p) ∈ timers_ q ∧ (p, sequence_ t) ∈ activeTimers_ q
  else heap q !! p = None.

(** What [reset] leaves alone: every timer that is not in the list. *)
Record reset_frame (l : list Entry) (now : Timestamp) (q q' : TQ) : Prop := {
  rf_shape : ∃ h k A, q' = set_timers (set_heap q h) k A;
  rf_heap : ∀ p, p ∉ l.*2 → heap q' !! p = heap q !! p;
  rf_active : ∀ p s, p ∉ l.*2 → (p, s) ∈ activeTimers_ q' ↔ (p, s) ∈ activeTimers_ q;
  rf_keep : ∀ e, e ∈ timers_ q → e ∈ timers_ q';
  rf_new : ∀ e, e ∈ timers_ q' → e ∈ timers_ q ∨ now ≤ e.1
}.

(** The body of the loop for one expired entry. *)
Definition reset_one q (p : Z) (t : Timer Callback) (now : Timestamp) : outcome TQ :=
  if repeat_ t && bool_decide ((p, sequence_ t) ∉ cancelingTimers_ q)
  then t' ← restart t now;
       '(_, q1) ← insert (set_heap q (<[p := t']> (heap q))) p; mret q1
  else delete_timer q p.

Lemma reset_one_spec q e t now :
  tq_ok q → idle q e.2 t →
  reset_one q e.2 t now ⇓[ λ f, f = Undefined ] λ q',
    tq_ok q' ∧ reset_frame [e] now q q' ∧ rescheduled q' now (cancelingTimers_ q) e.2 t.
Proof.
  intros Hq Hi. pose proof Hi as [Hp Ha]. destruct e as [w p]. simpl in *.
  destruct (tq_heap q Hq _ _ Hp) as (Hpr & Hsq & Hrep).
  unfold reset_one, rescheduled.
  destruct (repeat_ t && _) eqn:E.
  - apply andb_true_iff in E as [Hr Hc]. unfold restart. rewrite Hr.
    apply yields_or_bind, yields_or_bind.
    destruct (addTime now (interval_ t)) as [w'|f] eqn:Hadd.
    2: { simpl. unfold addTime, delta_of_seconds, int64_of_double, checked_i64 in Hadd.
         repeat case_match; simplify_eq/=; try done; by repeat case_match; simplify_eq/=. }
    apply addTime_spec in Hadd as (delta & Hd & -> & _). cbn [yields_or].
    assert (0 ≤ delta) as Hd0 by (eapply delta_nonneg; [by rewrite <- Hrep|done]).
    set (t' := set_expiration t (now + delta)).
    set (q1 := set_heap q (<[p := t']> (heap q))).
    assert (tq_ok q1) as Hq1.
    { apply tq_store; try done. intros t0 Ht0. assert (t0 = t) as -> by congruence. done. }
    assert (idle q1 p t') as Hi1 by (split; simpl; [apply lookup_insert_eq|done]).
    apply yields_or_bind. eapply yields_yields_or, yields_mono; [by apply insert_spec|].
    intros [b q2] (Hq2 & [k ->] & Hk & _). simpl in Hk |- *. split; [done|]. split.
    + split; simpl.
      * eexists _, _, _. done.
      * intros p' Hp'. rewrite lookup_insert_ne; [done|]. set_solver.
      * intros p' s Hp'. set_solver.
      * intros e He. rewrite Hk. by right.
      * intros e He. rewrite Hk in He. apply elem_of_cons in He as [->|He]; [|by left].
        right. simpl. lia.
    + exists delta. split_and!; [done|done|apply lookup_insert_eq|rewrite Hk; left|set_solver].
  - unfold delete_timer, deref. rewrite Hp. run_ok. simpl. split; [|split].
    + apply tq_free; [done|]. intros t0 Ht0. assert (t0 = t) as -> by congruence. done.
    + split; simpl.
      * exists (delete p (heap q)), (timers_ q), (activeTimers_ q). by destruct q.
      * intros p' Hp'. rewrite lookup_delete_ne; [done|]. set_solver.
      * done.
      * done.
      * auto.
    + apply lookup_delete_eq.
Qed.

Lemma reset_frame_trans l1 l2 now q1 q2 q3 :
  reset_frame l1 now q1 q2 → reset_frame l2 now q2 q3 → reset_frame (l1 ++ l2) now q1 q3.
Proof.
  intros [(h1 & k1 & A1 & E1) H1 AC1 K1 N1] [(h2 & k2 & A2 & E2) H2 AC2 K2 N2]. split.
  - exists h2, k2, A2. rewrite E2, E1. done.
  - intros p Hp. rewrite fmap_app, not_elem_of_app in Hp. rewrite H2 by tauto. apply H1; tauto.
  - intros p s Hp. rewrite fmap_app, not_elem_of_app in Hp. rewrite AC2 by tauto. apply AC1; tauto.
  - auto.
  - intros e He. apply N2 in He as [He|He]; auto.
Qed.

Lemma reset_frame_idle l now q q' p t :
  reset_frame l now q q' → p ∉ l.*2 → idle q p t → idle q' p t.
Proof.
  intros Hf Hp [H1 H2]. split.
  - by rewrite (rf_heap _ _ _ _ Hf).
  - by rewrite (rf_active _ _ _ _ Hf).
Qed.

Lemma reset_frame_rescheduled l now q q' cs p t :
  reset_frame l now q q' → p ∉ l.*2 → rescheduled q now cs p t → rescheduled q' now cs p t.
Proof.
  intros Hf Hp. unfold rescheduled. rewrite (rf_heap _ _ _ _ Hf) by done. case_match; [|done].
  intros (d & ? & ? & ? & ? & ?). exists d. split_and!; try done.
  - by apply (rf_keep _ _ _ _ Hf).
  - by apply (rf_active _ _ _ _ Hf).
Qed.

Lemma reset_loop_spec l q now :
  tq_ok q → unscheduled q l → NoDup l.*2 →
  reset_loop q l now ⇓[ λ f, f = Undefined ] λ q',
    tq_ok q' ∧ reset_frame l now q q' ∧
    ∀ e t, e ∈ l → idle q e.2 t → rescheduled q' now (cancelingTimers_ q) e.2 t.
Proof.
  revert q. induction l as [|e l IH]; intros q Hq Hu Hnd; simpl.
  { split; [done|]. split; [|by intros e t He%not_elem_of_nil].
    split; auto. by exists (heap q), (timers_ q), (activeTimers_ q); destruct q. }
  apply NoDup_cons in Hnd as [Hni Hnd].
  destruct (Hu e) as [t Ht]; [left|]. pose proof Ht as [Hp _].
  unfold deref at 1. rewrite Hp. run_ok. fold (reset_one q e.2 t now).
  ostep reset_one_spec; [done..|]. intros q1 (Hq1 & Hf1 & Hr1).
  assert (∀ e', e' ∈ l → e'.2 ∉ [e].*2) as Hne.
  { intros e' He' Heq%list_elem_of_singleton. apply Hni. rewrite <- Heq.
    by apply list_elem_of_fmap_2. }
  eapply yields_or_mono; [apply IH; [done| |done]|].
  { intros e' He'. destruct (Hu e') as [t' Ht']; [by right|]. exists t'.
    apply (reset_frame_idle [e] now q); auto. }
  intros q2 (Hq2 & Hf2 & Hr2). split; [done|]. split; [by apply (reset_frame_trans [e] l now q q1)|].
  assert (cancelingTimers_ q1 = cancelingTimers_ q) as Hcq.
  { destruct (rf_shape _ _ _ _ Hf1) as (h & k & A & ->). done. }
  intros e' t' [->|He']%elem_of_cons Ht'.
  - destruct Ht' as [Hp' _]. assert (t' = t) as -> by congruence.
    by apply (reset_frame_rescheduled l now q1).
  - rewrite <- Hcq. apply Hr2; [done|]. apply (reset_frame_idle [e] now q); auto.
Qed.

Lemma reset_spec l q now :
  tq_ok q → unscheduled q l → NoDup l.*2 →
  reset q l now ⇓[ λ f, f = Undefined ] λ q',
    tq_ok q' ∧ (∃ q1 a, q' = set_armed q1 a ∧ reset_frame l now q q1) ∧
    (∀ e t, e ∈ l → idle q e.2 t → rescheduled q' now (cancelingTimers_ q) e.2 t) ∧
    (0 < now → serves q (λ e, e.1 ≤ 0) → serves q' (λ _, True)).
Proof.
  intros Hq Hu Hnd. unfold reset. ostep reset_loop_spec; [done..|].
  intros q1 (Hq1 & Hf & Hr).
  assert (armed q1 = armed q ∧ clock q1 = clock q) as [Harm Hclk].
  { destruct (rf_shape _ _ _ _ Hf) as (h & k & A & ->). done. }
  destruct (timers_ q1) as [|[w p] l1] eqn:El; simpl.
  { split; [done|]. split; [exists q1, (armed q1); by destruct q1|]. split; [done|].
    intros _ _ e He. rewrite El in He. by apply not_elem_of_nil in He. }
  destruct (tq_timers q1 Hq1 w p) as (t & Hp & Hw & _); [rewrite El; left|].
  unfold deref. rewrite Hp. simpl. rewrite Hw.
  assert (∀ e, e ∈ timers_ q1 → w ≤ e.1) as Hmin.
  { intros e He. by apply (ordered_head (timers_ q1) (w, p) e l1 (tq_sorted q1 Hq1)). }
  unfold Timestamp.valid. destruct (Z.ltb_spec 0 w) as [Hpos|Hneg].
  - eapply yields_or_mono; [apply resetTimerfd_spec|]. intros q' ->.
    split; [by apply (tq_same_sets q1)|]. split; [by eauto|]. split; [done|].
    intros _ _ e He _. simpl in *. eexists. split; [done|]. specialize (Hmin e He). lia.
  - simpl. split; [done|]. split; [exists q1, (armed q1); by destruct q1|]. split; [done|].
    intros Hnow Hs e He _.
    destruct (rf_new _ _ _ _ Hf (w, p)) as [Hin|Hin]; [rewrite El; left| |simpl in Hin; lia].
    destruct (Hs (w, p) Hin) as (fire & Hf1 & Hle); [simpl; lia|].
    exists fire. rewrite Harm, Hclk. split; [done|]. specialize (Hmin e He). simpl in *. lia.
Qed.

(** ** The timer event *)

Lemma readTimerfd_shape q : ∃ a, readTimerfd q = set_armed q a.
Proof.
  unfold readTimerfd. repeat case_match; [by eexists|exists (armed q); by destruct q..].
Qed.

(** Moving entries out of the two sets changes the idle timers only at them. *)
Lemma expire_idle q qc expired A p t :
  tq_ok q → tq_ok qc → heap qc = heap q → timers_ q = expired ++ timers_ qc →
  activeTimers_ qc = A → A ⊆ activeTimers_ q → p ∉ expired.*2 → idle q p t ↔ idle qc p t.
Proof.
  intros Hq Hqc Hh Hl HA Hsub Hni. unfold idle. rewrite Hh, HA.
  split; intros [Hp Ha]; (split; [done|]); [set_solver|]. intros Hin. apply Ha. subst A.
  destruct (tq_active q Hq _ _ Hin) as (t' & Hp' & _ & Hin'). rewrite Hl in Hin'.
  apply elem_of_app in Hin' as [Hin'|Hin'].
  - destruct Hni. apply list_elem_of_fmap. by eexists (_, _).
  - destruct (tq_timers qc Hqc _ _ Hin') as (t0 & Hp0 & _ & Ha0). congruence.
Qed.

Lemma handleRead_spec q :
  tq_ok q →
  handleRead malloc body q ⇓[env_fault] λ q', ∃ expired rest,
    timers_ q = expired ++ rest ∧
    (∀ e, e ∈ expired → e.1 ≤ clock q) ∧ (∀ e, e ∈ rest → clock q < e.1) ∧
    tq_ok q' ∧ ran q' = ran q ++ (seq_of q <$> expired) ∧
    callingExpiredTimers_ q' = false ∧ clock q ≤ clock q' ∧
    (∀ p t, idle q' p t ↔ idle q p t) ∧
    cancel_ok (numCreated q) q' ∧
    (∀ e t, e ∈ expired → heap q !! e.2 = Some t →
       rescheduled q' (clock q) (cancelingTimers_ q') e.2 t) ∧
    (0 < clock q → serves q' (λ _, True)).
Proof.
  intros Hq. unfold handleRead. destruct (readTimerfd_shape q) as [a ->].
  set (q0 := set_armed q a).
  assert (tq_ok q0) as Hq0 by (by apply (tq_same_sets q)).
  apply yields_or_bind. eapply yields_yields_or, yields_mono; [by apply getExpired_spec|].
  intros [expired q1] (A1 & E1 & HA & Hq1 & Hsplit & Hnd & Hle & Hlt & Hu). simpl in Hsplit.
  set (qc := set_calling q1 true ∅).
  assert (tq_ok qc) as Hqc by (by apply (tq_same_sets q1)).
  assert (unscheduled qc expired) as Huc by done.
  assert (heap qc = heap q ∧ clock qc = clock q ∧ ran qc = ran q ∧ numCreated qc = numCreated q)
    as (Hh & Hck & Hran & Hnum) by (unfold qc; rewrite E1; done).
  ostep run_expired_spec; [done..|]. intros q2 Hev. pose proof Hev as [K2 I2 N2 C2 R2 G2 X2 S2 AC2 D2 L2].
  set (q3 := set_calling q2 false _).
  assert (tq_ok q3) as Hq3 by (by apply (tq_same_sets q2)).
  assert (unscheduled q3 expired) as Hu3 by (intros e He; destruct (Huc e He); eauto).
  eapply yields_or_mono.
  { eapply yields_or_weaken; [|by apply reset_spec]. intros f ->. by right. }
  intros q' (Hq' & (q4 & a' & -> & Hf) & Hr & Hsv).
  assert (ran q4 = ran q2 ∧ callingExpiredTimers_ q4 = false ∧ clock q4 = clock q2 ∧
          cancelingTimers_ q4 = cancelingTimers_ q2) as (Hran4 & Hcal4 & Hck4 & Hcan4).
  { destruct (rf_shape _ _ _ _ Hf) as (h & k & A & ->). done. }
  exists expired, (timers_ q1). split_and!; [done|done|done|done| |done|simpl; lia| | | |].
  - simpl. rewrite Hran4, R2, Hran. f_equal. apply list_fmap_ext. intros i e _.
    unfold seq_of. by rewrite Hh.
  - intros p t.
    assert (∀ t, p ∉ expired.*2 → idle q p t ↔ idle qc p t) as Hqc_idle.
    { intros t0 Hni. apply (expire_idle q qc expired A1); try done. unfold qc. simpl.
      by rewrite E1. }
    split.
    + intros [Hp Ha]. simpl in Hp, Ha.
      destruct (decide (p ∈ expired.*2)) as [(e & -> & He)%list_elem_of_fmap|Hni].
      * destruct (Hu3 e He) as [t0 Ht0]. pose proof (Hr e t0 He Ht0) as Hre.
        unfold rescheduled in Hre. simpl in Hre. destruct (repeat_ t0 && _); [|congruence].
        destruct Hre as (d & _ & _ & Hp' & _ & Ha'). rewrite Hp in Hp'. by injection Hp' as ->.
      * apply Hqc_idle; [done|]. apply L2.
        rewrite (rf_heap _ _ _ _ Hf) in Hp by done. rewrite (rf_active _ _ _ _ Hf) in Ha by done.
        by split.
    + intros Hi. assert (p ∉ expired.*2) as Hni.
      { intros (e & -> & He)%list_elem_of_fmap.
        apply (idle_not_in_timers q e.2 t e.1 Hq Hi). rewrite Hsplit, <- surjective_pairing.
        set_solver. }
      assert (idle q4 p t) as [Hp4 Ha4]; [|by split].
      apply (reset_frame_idle expired (clock q) q3); [done|done|].
      assert (idle q2 p t) as [Hp2 Ha2] by (by apply I2, Hqc_idle). by split.
  - intros p s Hc Hs Ha. simpl in *. rewrite Hcan4 in Hc.
    destruct (decide (p ∈ expired.*2)) as [(e & -> & He)%list_elem_of_fmap|Hni].
    + destruct (Hu3 e He) as [t Ht]. specialize (Hr e t He Ht). unfold rescheduled in Hr.
      destruct (tq_active _ Hq' _ _ Ha) as (t' & Hp' & Hs' & _). simpl in Hp', Hr.
      destruct (repeat_ t && _) eqn:Hrep; [|congruence].
      destruct Hr as (d & _ & _ & Hp & _). apply andb_true_iff in Hrep as [_ Hnc%bool_decide_eq_true].
      assert (sequence_ t = s) as <- by (subst; rewrite Hp in Hp'; by injection Hp' as <-).
      by apply Hnc.
    + rewrite (rf_active _ _ _ _ Hf) in Ha by done. simpl in Ha.
      refine (D2 (numCreated q) _ _ p s Hc Hs Ha); [lia|].
      by intros p' s' Hin%not_elem_of_empty.
  - intros e t He Hp. destruct (Huc e He) as [t' Ht']. pose proof Ht' as [Hp' _].
    rewrite Hh in Hp'. assert (t' = t) as -> by congruence.
    specialize (Hr e t He (I2 _ _ Ht')). simpl in *. by rewrite Hcan4.
  - intros Hpos. apply Hsv; [done|].
    assert (serves q2 (λ e, e.1 ≤ 0)) as Hs2.
    { apply S2; [intros ?? ? ?; simpl in *; lia|].
      intros e He Hneg. simpl in He. specialize (Hlt e He). lia. }
    exact Hs2.
Qed.
End Invariant.

(** ** The queue in its environment *)

Section System.
Context {Callback : Type}.
Context (malloc : gmap Z (Timer Callback) → option Z).
Context (body : Callback → TimerQueue Callback → list (TimerAction Callback)).

(** [pending]: the [addTimerInLoop] functors queued by other threads.
    [returning]: the timers of other threads that are in [addTimer], before its
    last line. *)
Record World := mkWorld { tq : TimerQueue Callback; pending : list Z; returning : list Z }.

(** Another thread calls [addTimer], up to its last line, or executes that; the
    loop runs the oldest queued functor; the loop thread adds or cancels a timer;
    time passes; [timerfd_] is readable. *)
Inductive Event :=
  | EvAddFromThread (cb : Callback) (when : Timestamp) (interval : double)
  | EvReturn (n : nat)
  | EvRunFunctor
  | EvAction (a : TimerAction Callback)
  | EvTimerfd.

Definition exec_event (w : World) (ev : Event) : outcome World :=
  match ev with
  | EvAddFromThread cb when interval =>
      '(id, q) ← new_timer malloc (tq w) cb when interval;
      mret (mkWorld q (pending w ++ [timer_ id]) (returning w ++ [timer_ id]))
  | EvReturn n =>
      match returning w !! n with
      | None => mret w
      | Some p => _ ← return_id (tq w) p; mret (mkWorld (tq w) (pending w) (delete n (returning w)))
      end
  | EvRunFunctor =>
      match pending w with
      | [] => mret w
      | p :: ps => q ← addTimerInLoop (tq w) p; mret (mkWorld q ps (returning w))
      end
  | EvAction a => q ← run_action malloc (tq w) a; mret (mkWorld q (pending w) (returning w))
  | EvTimerfd => q ← handleRead malloc body (tq w); mret (mkWorld q (pending w) (returning w))
  end.

Inductive reachable (t0 : Timestamp) : World → Prop :=
  | reach_init : reachable t0 (mkWorld (TimerQueue_new t0) [] [])
  | reach_step w ev w' : reachable t0 w → exec_event w ev = Ok w' → reachable t0 w'.

(** Another thread gets to the last line of [addTimer] while its timer is still queued or scheduled. *)
Definition event_ok (w : World) (ev : Event) : Prop :=
  match ev with
  | EvReturn n => ∀ p, returning w !! n = Some p → p ∈ pending w ∨ p ∈ (timers_ (tq w)).*2
  | _ => True
  end.

(** The allocated timers are the scheduled ones and the queued ones, and the
    descriptor serves every scheduled timer. *)
Record world_ok (w : World) : Prop := {
  w_ok : tq_ok (tq w);
  w_NoDup : NoDup (pending w);
  w_owned : ∀ p, p ∈ pending w ↔ ∃ t, idle (tq w) p t;
  w_clock : 0 < clock (tq w);
  w_calling : callingExpiredTimers_ (tq w) = false;
  w_serves : serves (tq w) (λ _, True)
}.

Lemma init_ok t0 : 0 < t0 → world_ok (mkWorld (TimerQueue_new t0) [] []).
Proof.
  intros Ht. split; simpl; try done.
  - split; simpl; [constructor|by intros ?? ?%not_elem_of_nil|by intros ?? ?%not_elem_of_empty|].
    intros p t. by rewrite lookup_empty.
  - constructor.
  - intros p. split; [by intros ?%not_elem_of_nil|]. intros (t & Hp & _). simpl in Hp.
    by rewrite lookup_empty in Hp.
  - by intros e He%not_elem_of_nil.
Qed.

Hypothesis malloc_fresh : ∀ h p, malloc h = Some p → h !! p = None ∧ 0 < p < UINTPTR_MAX.

Lemma serves_all_downward : downward (λ _, True).
Proof. done. Qed.

(** Queued and scheduled timers are allocated. *)
Lemma kept_timer w p : world_ok w → p ∈ pending w ∨ p ∈ (timers_ (tq w)).*2 → is_Some (heap (tq w) !! p).
Proof.
  intros [] [Hp|([e p'] & -> & Hp)%list_elem_of_fmap].
  - destruct (proj1 (w_owned0 p) Hp) as (t & Ht & _). eauto.
  - destruct (tq_timers _ w_ok0 e p' Hp) as (t & Ht & _). eauto.
Qed.

Lemma return_ok w n : world_ok w → event_ok w (EvReturn n) → exec_event w (EvReturn n) ⇓ world_ok.
Proof.
  intros Hw He. simpl. destruct (returning w !! n) as [p|] eqn:Hp; [|by apply yields_ret].
  destruct (kept_timer w p Hw (He p Hp)) as [t Ht]. unfold return_id, deref. rewrite Ht. simpl.
  by destruct Hw.
Qed.

Lemma exec_event_ok w ev : world_ok w → event_ok w ev → exec_event w ev ⇓[env_fault] world_ok.
Proof.
  intros Hw He. destruct ev as [cb when interval|n| |a|];
    [|by apply yields_yields_or, return_ok|..]; destruct Hw as [Hq Hnd Hown Hclk Hcal Hsv]; simpl.
  - ostep new_timer_spec; [done..|].
    intros [[p s] q'] (t & -> & Hid & Hq' & Hi & Hfresh & ->). simpl in *.
    assert (p ∉ pending w) as Hni.
    { intros (t' & Hp & _)%Hown. congruence. }
    split; simpl; try done.
    + apply NoDup_app. split_and!; [done|set_solver|apply NoDup_singleton].
    + intros p'. rewrite elem_of_app, list_elem_of_singleton, Hown. unfold idle. simpl.
      destruct (decide (p = p')) as [->|Hne].
      * split; [|by auto]. intros _. eexists. split; [apply lookup_insert_eq|]. apply Hi.
      * setoid_rewrite lookup_insert_ne; [|done]. naive_solver.
  - destruct (pending w) as [|p ps] eqn:Ep; simpl; [by split; rewrite ?Ep|].
    destruct (proj1 (Hown p)) as [t Hi]; [left|].
    apply yields_or_bind. eapply yields_or_mono.
    { eapply yields_or_weaken; [|by apply addTimerInLoop_spec]. intros f ->. by right. }
    cbv beta. intros q' (Hq' & (l & a & ->) & Hl & Hs). apply NoDup_cons in Hnd as [Hni Hnd].
    split; simpl; try done; [|by apply Hs].
    intros p'. specialize (Hown p'). rewrite elem_of_cons in Hown. unfold idle in *. simpl.
    destruct Hi as [Hp Ha]. split.
    + intros Hin. destruct (proj1 Hown (or_intror Hin)) as (t' & Hp' & Ha'). exists t'.
      split; [done|]. intros [[= -> Hseq]%elem_of_singleton|Hin']%elem_of_union; [|done].
      by destruct Hni.
    + intros (t' & Hp' & Ha'). destruct (proj2 Hown) as [->|Hin]; [|set_solver|done].
      exists t'. set_solver.
  - ostep run_action_spec; [done..|]. intros q' Hev. destruct Hev. split; simpl; try done.
    + intros p. rewrite Hown. split; intros [t Ht]; exists t; auto.
    + lia.
    + congruence.
    + by apply ev_serves0.
  - ostep handleRead_spec; [done..|].
    intros q' (expd & rest & _ & _ & _ & Hq' & _ & Hcal' & Hclk' & Hidle & _ & _ & Hsv').
    split; simpl; try done; [|lia|by apply Hsv'].
    intros p. rewrite Hown. by setoid_rewrite Hidle.
Qed.

(** A step that was made keeps the invariant. *)
Lemma timer_step_ok w ev w' : world_ok w → exec_event w ev = Ok w' → world_ok w'.
Proof.
  intros Hw Hex.
  assert (event_ok w ev → world_ok w') as Hok
    by (intros He; eapply yields_or_Ok; [exact (exec_event_ok w ev Hw He)|done]).
  destruct ev as [cb when interval|n| |a|]; try exact (Hok I).
  simpl in Hex. destruct (returning w !! n); [|by injection Hex as <-].
  apply bind_Ok_inv in Hex as (? & _ & [= <-]). by destruct Hw.
Qed.

Lemma reachable_ok t0 w : 0 < t0 → reachable t0 w → world_ok w.
Proof.
  intros Ht. induction 1 as [|w ev w' Hr IH Hex]; [by apply init_ok|by eapply timer_step_ok].
Qed.
End System.

(** ** Properties *)

(** C5. In every state reached by any interleaving of timers added by other
    threads, queued functors, loop-thread additions and cancellations, passing
    time and timer events with arbitrary callbacks, the next operation fails no
    assertion and dereferences or frees no unallocated timer; it keeps the two
    sets in agreement and allocates exactly the scheduled and the queued
    timers.  The only faults left are a failed allocation and an interval out
    of the range of [int64_t].  One operation needs a condition: the last line of
    [addTimer] in another thread reads the timer's sequence number after it gave
    the timer to the loop, and that read is claimed to be safe only while the
    timer is still queued or scheduled ([event_ok]); when the loop has run and
    deleted it before, the thread reads a freed object ([late_return_dangles]). *)
Theorem timer_queue_safe {Callback : Type} (malloc : gmap Z (Timer Callback) → option Z)
    (body : Callback → TimerQueue Callback → list (TimerAction Callback))
    (t0 : Timestamp) (w : World) (ev : Event) :
  (∀ h p, malloc h = Some p → h !! p = None ∧ 0 < p < UINTPTR_MAX) →
  0 < t0 → reachable malloc body t0 w →
  size_of (timers_ (tq w)) = Z.of_nat (size (activeTimers_ (tq w))) ∧
  (event_ok w ev → exec_event malloc body w ev ⇓[ λ f, f = BadAlloc ∨ f = Undefined ] world_ok).
Proof.
  intros Hm Ht Hr. pose proof (reachable_ok malloc body Hm t0 w Ht Hr) as Hw. split.
  - apply tq_sizes, Hw.
  - intros He. by apply exec_event_ok.
Qed.

(** Callbacks of the examples: number [n] stands for a callback that cancels
    the timer at address 32 when [n] is 1 and does nothing otherwise. *)
Definition demo_malloc (h : gmap Z (Timer nat)) : option Z :=
  let p := 16 * (1 + Z.of_nat (size h)) in
  if bool_decide (h !! p = None ∧ 0 < p < UINTPTR_MAX) then Some p else None.
Definition demo_body (n : nat) (q : TimerQueue nat) : list (TimerAction nat) :=
  if bool_decide (n = 1%nat) then [ActCancel (mkTimerId 32 2)] else [].

Lemma demo_malloc_fresh h p :
  demo_malloc h = Some p → h !! p = None ∧ 0 < p < UINTPTR_MAX.
Proof. unfold demo_malloc. case_bool_decide as H; [|done]. by intros [= <-]. Qed.

Definition demo_add (w : @World nat) (n : nat) (interval : double) : @World nat :=
  match exec_event demo_malloc demo_body w (EvAction (ActAdd n 500 interval)) with
  | Ok w' => w'
  | Fault _ => w
  end.

(** One second. *)
Definition one_second : double := double_of_Z 1.

Definition demo_world : @World nat :=
  demo_add (demo_add (mkWorld (TimerQueue_new 1000) [] []) 1 double_zero) 2 one_second.

Lemma demo_reachable : reachable demo_malloc demo_body 1000 demo_world.
Proof.
  unfold demo_world.
  apply (reach_step _ _ 1000 (demo_add (mkWorld (TimerQueue_new 1000) [] []) 1 double_zero)
           (EvAction (ActAdd 2%nat 500 one_second))); [|vm_compute; reflexivity].
  apply (reach_step _ _ 1000 (mkWorld (TimerQueue_new 1000) [] [])
           (EvAction (ActAdd 1%nat 500 double_zero))); [|vm_compute; reflexivity].
  constructor.
Defined.

Lemma timer_queue_safe_witness :
  size_of (timers_ (tq demo_world)) = Z.of_nat (size (activeTimers_ (tq demo_world))) ∧
  (event_ok demo_world EvTimerfd →
   exec_event demo_malloc demo_body demo_world EvTimerfd
     ⇓[ λ f, f = BadAlloc ∨ f = Undefined ] world_ok).
Proof.
  apply (timer_queue_safe demo_malloc demo_body 1000 demo_world EvTimerfd);
    [exact demo_malloc_fresh|lia|exact demo_reachable].
Defined.

(** C11. When the timer event is handled, exactly the timers whose expiration is
    not after the current time run, each once and in the order of expiration
    (then address), whatever the callbacks do; the timers that remain from
    before expire later. *)
Theorem timer_event_runs_expired {Callback : Type}
    (malloc : gmap Z (Timer Callback) → option Z)
    (body : Callback → TimerQueue Callback → list (TimerAction Callback))
    (q q' : TimerQueue Callback) :
  (∀ h p, malloc h = Some p → h !! p = None ∧ 0 < p < UINTPTR_MAX) →
  tq_ok q → handleRead malloc body q = Ok q' →
  ran q' = ran q ++ (seq_of q <$> filter (λ e, e.1 ≤ clock q) (timers_ q)) ∧
  StronglySorted entry_lt (filter (λ e, e.1 ≤ clock q) (timers_ q)).
Proof.
  intros Hm Hq Hh. pose proof (yields_or_Ok _ _ _ _ (handleRead_spec malloc Hm body q Hq) Hh)
    as (expd & rest & Hl & Hle & Hlt & _ & Hran & _).
  assert (filter (λ e, e.1 ≤ clock q) (timers_ q) = expd) as ->.
  { rewrite Hl, filter_app, filter_id, filter_none, app_nil_r by
      (intros e He; (apply Hle in He || apply Hlt in He); lia). done. }
  split; [done|]. pose proof (tq_sorted q Hq) as Ho. rewrite Hl in Ho.
  by eapply StronglySorted_app_1_l.
Qed.

Lemma timer_event_runs_expired_witness :
  ∃ q', handleRead demo_malloc demo_body (tq demo_world) = Ok q' ∧ ran q' = [1; 2].
Proof.
  destruct (handleRead demo_malloc demo_body (tq demo_world)) as [q'|f] eqn:E;
    [|vm_compute in E; discriminate].
  exists q'. split; [done|].
  assert (tq_ok (tq demo_world)) as Hq.
  { apply (reachable_ok demo_malloc demo_body demo_malloc_fresh 1000); [lia|exact demo_reachable]. }
  destruct (timer_event_runs_expired demo_malloc demo_body _ q' demo_malloc_fresh Hq E) as [-> _].
  vm_compute. reflexivity.
Defined.

(** After the timer event every expired timer is either scheduled again (it
    repeats and was not cancelled during the callbacks) at the time of the
    event plus its interval, with its object kept, or its object is freed; and
    no timer that existed before and was cancelled during the callbacks, the
    running one included, is scheduled afterwards. *)
Theorem timer_event_reschedules {Callback : Type}
    (malloc : gmap Z (Timer Callback) → option Z)
    (body : Callback → TimerQueue Callback → list (TimerAction Callback))
    (q q' : TimerQueue Callback) (w p : Z) (t : Timer Callback) :
  (∀ h p, malloc h = Some p → h !! p = None ∧ 0 < p < UINTPTR_MAX) →
  tq_ok q → handleRead malloc body q = Ok q' →
  (w, p) ∈ timers_ q → w ≤ clock q → heap q !! p = Some t →
  (if repeat_ t && bool_decide ((p, sequence_ t) ∉ cancelingTimers_ q')
   then ∃ delta, delta_of_seconds (interval_ t) = Ok delta ∧ 0 ≤ delta ∧
          heap q' !! p = Some (set_expiration t (clock q + delta)) ∧
          (clock q + delta, p) ∈ timers_ q' ∧ (p, sequence_ t) ∈ activeTimers_ q'
   else heap q' !! p = None) ∧
  (∀ p' s, (p', s) ∈ cancelingTimers_ q' → s ≤ numCreated q → (p', s) ∉ activeTimers_ q').
Proof.
  intros Hm Hq Hh Hin Hw Hp. pose proof (yields_or_Ok _ _ _ _ (handleRead_spec malloc Hm body q Hq) Hh)
    as (expd & rest & Hl & Hle & Hlt & _ & _ & _ & _ & _ & Hc & Hr & _).
  split; [|exact Hc]. apply (Hr (w, p) t); [|done].
  rewrite Hl in Hin. apply elem_of_app in Hin as [Hin|Hin]; [done|].
  apply Hlt in Hin. simpl in Hin. lia.
Qed.

Definition demo_event : TimerQueue nat :=
  match handleRead demo_malloc (λ _ _, []) (tq demo_world) with
  | Ok q' => q'
  | Fault _ => tq demo_world
  end.

Lemma timer_event_reschedules_witness :
  heap demo_event !! 32 = Some (mkTimer 2%nat 1001000 one_second true 2) ∧
  (∀ p' s, (p', s) ∈ cancelingTimers_ demo_event → s ≤ 2 → (p', s) ∉ activeTimers_ demo_event).
Proof.
  assert (tq_ok (tq demo_world)) as Hq.
  { apply (reachable_ok demo_malloc demo_body demo_malloc_fresh 1000); [lia|exact demo_reachable]. }
  destruct (timer_event_reschedules demo_malloc (λ _ _, []) (tq demo_world) demo_event 500 32
              (mkTimer 2%nat 500 one_second true 2) demo_malloc_fresh Hq) as [Hr Hc];
    [vm_compute; reflexivity|vm_compute; set_solver|vm_compute; congruence|vm_compute; reflexivity|].
  split; [|exact Hc]. vm_compute. reflexivity.
Defined.

(** The loop never sleeps past a timer: in every reachable state with a
    scheduled timer the descriptor is armed (or has fired), for a time no later
    than the expiration of the timer, or within 100 microseconds from now. *)
Theorem timerfd_always_armed {Callback : Type}
    (malloc : gmap Z (Timer Callback) → option Z)
    (body : Callback → TimerQueue Callback → list (TimerAction Callback))
    (t0 : Timestamp) (w : World) (e : Entry) :
  (∀ h p, malloc h = Some p → h !! p = None ∧ 0 < p < UINTPTR_MAX) →
  0 < t0 → reachable malloc body t0 w → e ∈ timers_ (tq w) →
  ∃ fire, armed (tq w) = Some fire ∧ fire ≤ Z.max e.1 (clock (tq w) + 100).
Proof.
  intros Hm Ht Hr He. pose proof (reachable_ok malloc body Hm t0 w Ht Hr) as Hw.
  by apply (w_serves w Hw).
Qed.

Lemma timerfd_always_armed_witness :
  ∃ fire, armed (tq demo_world) = Some fire ∧ fire ≤ 1100.
Proof.
  destruct (timerfd_always_armed demo_malloc demo_body 1000 demo_world (500, 32))
    as (fire & Hf & Hle);
    [exact demo_malloc_fresh|lia|exact demo_reachable|vm_compute; set_solver|].
  exists fire. split; [exact Hf|]. vm_compute in Hf. injection Hf as <-. lia.
Defined.

(** Cancelling takes effect at once: the timer is no longer scheduled, its
    object is freed if it was, no other timer is touched, and when it is not
    scheduled because its callback is running the cancellation is remembered
    for [reset]. *)
Theorem cancel_removes {Callback : Type} (q : TimerQueue Callback) (id : TimerId) :
  tq_ok q →
  cancelInLoop q id ⇓ λ q', tq_ok q' ∧
    activeTimers_ q' = activeTimers_ q ∖ {[ (timer_ id, id_sequence_ id) ]} ∧
    (∀ p t, idle q p t ↔ idle q' p t) ∧
    ((timer_ id, id_sequence_ id) ∈ activeTimers_ q → heap q' = delete (timer_ id) (heap q)) ∧
    ((timer_ id, id_sequence_ id) ∉ activeTimers_ q → callingExpiredTimers_ q = true →
      (timer_ id, id_sequence_ id) ∈ cancelingTimers_ q').
Proof.
  intros Hq. eapply yields_mono; [by apply cancelInLoop_spec|].
  intros q' (Hev & _ & Ha & Hh & Hc). destruct Hev. split_and!; auto. split; auto.
Qed.

Lemma cancel_removes_witness :
  cancelInLoop (tq demo_world) (mkTimerId 32 2) ⇓ λ q', tq_ok q' ∧
    activeTimers_ q' = activeTimers_ (tq demo_world) ∖ {[ (32, 2) ]} ∧
    (∀ p t, idle (tq demo_world) p t ↔ idle q' p t) ∧
    ((32, 2) ∈ activeTimers_ (tq demo_world) → heap q' = delete 32 (heap (tq demo_world))) ∧
    ((32, 2) ∉ activeTimers_ (tq demo_world) → callingExpiredTimers_ (tq demo_world) = true →
      (32, 2) ∈ cancelingTimers_ q').
Proof.
  apply (cancel_removes (tq demo_world) (mkTimerId 32 2)).
  apply (reachable_ok demo_malloc demo_body demo_malloc_fresh 1000); [lia|exact demo_reachable].
Defined.

(** A timer cancelled by the callback of another timer of the same expired
    batch still runs once: the cancellation only stops its rescheduling. *)
Theorem cancel_in_batch_still_runs :
  ∃ q', handleRead demo_malloc demo_body (tq demo_world) = Ok q' ∧
    demo_body 1 (tq demo_world) = [ActCancel (mkTimerId 32 2)] ∧
    ran q' = [1; 2] ∧ activeTimers_ q' = ∅.
Proof.
  destruct (handleRead demo_malloc demo_body (tq demo_world)) as [q'|f] eqn:E;
    [|vm_compute in E; discriminate].
  exists q'. vm_compute in E. injection E as <-. split_and!; vm_compute; reflexivity.
Qed.

(** Another thread adds a timer that is due; the loop schedules it, runs it and deletes it before the thread gets to
    the last line of [addTimer], which then reads a freed object. *)
Definition exec_events (evs : list (Event (Callback := nat))) (w : @World nat) : outcome World :=
  foldl (λ m ev, w ← m; exec_event demo_malloc demo_body w ev) (Ok w) evs.

Theorem late_return_dangles :
  let added := [EvAddFromThread 0%nat 500 double_zero] in
  (w ← exec_events (added ++ [EvReturn 0]) (mkWorld (TimerQueue_new 1000) [] []); mret (pending w, returning w))
    = Ok ([16], []) ∧
  exec_events (added ++ [EvRunFunctor; EvTimerfd; EvReturn 0]) (mkWorld (TimerQueue_new 1000) [] []) = Fault BadDeref.
Proof. split; vm_compute; reflexivity. Qed.

(** The relative time given to [timerfd_settime] is a valid [timespec],
    never zero (which would disarm the descriptor), and is the time left until
    the expiration but at least 100 microseconds. *)
Theorem howMuchTimeFromNow_valid (when now : Timestamp) :
  - 2 ^ 63 ≤ when - now < 2 ^ 63 →
  howMuchTimeFromNow when now ⇓ λ ts,
    0 ≤ tv_nsec ts < 1000000000 ∧ 0 ≤ tv_sec ts ∧ 0 < tv_sec ts + tv_nsec ts ∧
    tv_sec ts * kMicroSecondsPerSecond + tv_nsec ts / 1000 = Z.max 100 (when - now).
Proof.
  intros Hr. pose proof (howMuchTimeFromNow_spec when now) as Hs.
  unfold howMuchTimeFromNow, microSecondsSinceEpoch in *.
  rewrite checked_i64_small in * by done. exact Hs.
Qed.

Lemma howMuchTimeFromNow_valid_witness :
  howMuchTimeFromNow 2500000 1000000 ⇓ λ ts,
    0 ≤ tv_nsec ts < 1000000000 ∧ 0 ≤ tv_sec ts ∧ 0 < tv_sec ts + tv_nsec ts ∧
    tv_sec ts * kMicroSecondsPerSecond + tv_nsec ts / 1000 = 1500000.
Proof. apply (howMuchTimeFromNow_valid 2500000 1000000). lia. Defined.
