(* ===== verification/Channel.v ===== *)
(** * Channels (muduo/net/Channel.h, Channel.cc)

    A [Channel] is a record; the objects are found by their address in a store
    [Channels], because pollers keep and compare [Channel*].  The member
    functions that call [loop_->updateChannel(this)] go through the [Poller]
    interface, which is the virtual class of muduo/net/Poller.h: what an
    implementation must promise is stated by the class [PollerLaws]. *)
From stdpp Require Import base numbers list gmap strings pretty.
From S2P Require Import Prelude.
Open Scope Z_scope.
Open Scope muduo_scope.

(** ** Event masks of poll(2) *)

Definition POLLIN : Z := 1.
Definition POLLPRI : Z := 2.
Definition POLLOUT : Z := 4.
Definition POLLERR : Z := 8.
Definition POLLHUP : Z := 16.
Definition POLLNVAL : Z := 32.
Definition POLLRDHUP : Z := 8192.

(** [ev & mask] as a condition. *)
Definition hasb (ev mask : Z) : bool := negb (Z.land ev mask =? 0).

Definition kNoneEvent : Z := 0.
Definition kReadEvent : Z := Z.lor POLLIN POLLPRI.
Definition kWriteEvent : Z := POLLOUT.

(** ** The class *)

(** A callback is represented by whether the [std::function] is set. *)
Record Channel := mkChannel {
  fd_ : Z;
  events_ : Z;
  revents_ : Z;
  index_ : Z;
  logHup_ : bool;
  tied_ : bool;
  eventHandling_ : bool;
  addedToLoop_ : bool;
  readCallback_ : bool;
  writeCallback_ : bool;
  closeCallback_ : bool;
  errorCallback_ : bool
}.

#[export] Instance Channel_eq_dec : EqDecision Channel.
Proof. solve_decision. Defined.

Definition Channel_new (fd : Z) : Channel :=
  mkChannel fd 0 0 (-1) true false false false false false false false.

Definition set_events (c : Channel) (ev : Z) : Channel :=
  mkChannel (fd_ c) ev (revents_ c) (index_ c) (logHup_ c) (tied_ c) (eventHandling_ c)
    (addedToLoop_ c) (readCallback_ c) (writeCallback_ c) (closeCallback_ c) (errorCallback_ c).
Definition set_revents (c : Channel) (revt : Z) : Channel :=
  mkChannel (fd_ c) (events_ c) revt (index_ c) (logHup_ c) (tied_ c) (eventHandling_ c)
    (addedToLoop_ c) (readCallback_ c) (writeCallback_ c) (closeCallback_ c) (errorCallback_ c).
Definition set_index (c : Channel) (idx : Z) : Channel :=
  mkChannel (fd_ c) (events_ c) (revents_ c) idx (logHup_ c) (tied_ c) (eventHandling_ c)
    (addedToLoop_ c) (readCallback_ c) (writeCallback_ c) (closeCallback_ c) (errorCallback_ c).
Definition set_added (c : Channel) (b : bool) : Channel :=
  mkChannel (fd_ c) (events_ c) (revents_ c) (index_ c) (logHup_ c) (tied_ c) (eventHandling_ c)
    b (readCallback_ c) (writeCallback_ c) (closeCallback_ c) (errorCallback_ c).
Definition set_handling (c : Channel) (b : bool) : Channel :=
  mkChannel (fd_ c) (events_ c) (revents_ c) (index_ c) (logHup_ c) (tied_ c) b
    (addedToLoop_ c) (readCallback_ c) (writeCallback_ c) (closeCallback_ c) (errorCallback_ c).
Definition tie (c : Channel) : Channel :=
  mkChannel (fd_ c) (events_ c) (revents_ c) (index_ c) (logHup_ c) true (eventHandling_ c)
    (addedToLoop_ c) (readCallback_ c) (writeCallback_ c) (closeCallback_ c) (errorCallback_ c).

Definition isNoneEvent (c : Channel) : bool := events_ c =? kNoneEvent.
Definition isWriting (c : Channel) : bool := hasb (events_ c) kWriteEvent.
Definition isReading (c : Channel) : bool := hasb (events_ c) kReadEvent.

(** ** Dispatch *)

Inductive CallbackKind := CloseCb | ErrorCb | ReadCb | WriteCb.

#[export] Instance CallbackKind_eq_dec : EqDecision CallbackKind.
Proof. solve_decision. Defined.

Definition when (b : bool) (k : CallbackKind) : list CallbackKind := if b then [k] else [].

(** The callbacks [handleEventWithGuard] calls, in order. *)
Definition handleEventWithGuard (c : Channel) : list CallbackKind :=
  when (hasb (revents_ c) POLLHUP && negb (hasb (revents_ c) POLLIN) && closeCallback_ c) CloseCb ++
  when (hasb (revents_ c) (Z.lor POLLERR POLLNVAL) && errorCallback_ c) ErrorCb ++
  when (hasb (revents_ c) (Z.lor POLLIN (Z.lor POLLPRI POLLRDHUP)) && readCallback_ c) ReadCb ++
  when (hasb (revents_ c) POLLOUT && writeCallback_ c) WriteCb.

(** [locked]: whether [tie_.lock()] gives the owner. *)
Definition handleEvent (c : Channel) (locked : bool) : list CallbackKind :=
  if tied_ c then if locked then handleEventWithGuard c else [] else handleEventWithGuard c.

Definition eventsToString (fd ev : Z) : string :=
  (pretty fd +:+ ": " +:+
   (if hasb ev POLLIN then "IN " else "") +:+
   (if hasb ev POLLPRI then "PRI " else "") +:+
   (if hasb ev POLLOUT then "OUT " else "") +:+
   (if hasb ev POLLHUP then "HUP " else "") +:+
   (if hasb ev POLLRDHUP then "RDHUP " else "") +:+
   (if hasb ev POLLERR then "ERR " else "") +:+
   (if hasb ev POLLNVAL then "NVAL " else ""))%string.

Definition reventsToString (c : Channel) : string := eventsToString (fd_ c) (revents_ c).

(** ** Channels and their poller *)

Abbreviation Channels := (gmap Z Channel).

Definition get_channel (cs : Channels) (a : Z) : outcome Channel :=
  match cs !! a with Some c => Ok c | None => Fault BadDeref end.

(** The virtual functions of [Poller]. *)
Class PollerOps (P : Type) := {
  poller_updateChannel : Channels → P → Z → outcome (Channels * P);
  poller_removeChannel : Channels → P → Z → outcome (Channels * P);
  poller_channels : P → gmap Z Z
}.

(** [Poller::hasChannel]. *)
Definition hasChannel `{PollerOps P} (cs : Channels) (p : P) (a : Z) : outcome bool :=
  c ← get_channel cs a; mret (bool_decide (poller_channels p !! fd_ c = Some a)).

Section Members.
Context `{PollerOps P}.

(** [Channel::update] after [events_] got the value [ev]. *)
Definition update (cs : Channels) (p : P) (a ev : Z) : outcome (Channels * P) :=
  c ← get_channel cs a;
  poller_updateChannel (<[ a := set_added (set_events c ev) true ]> cs) p a.

Definition enableReading (cs : Channels) (p : P) (a : Z) : outcome (Channels * P) :=
  c ← get_channel cs a; update cs p a (Z.lor (events_ c) kReadEvent).
Definition disableReading (cs : Channels) (p : P) (a : Z) : outcome (Channels * P) :=
  c ← get_channel cs a; update cs p a (Z.ldiff (events_ c) kReadEvent).
Definition enableWriting (cs : Channels) (p : P) (a : Z) : outcome (Channels * P) :=
  c ← get_channel cs a; update cs p a (Z.lor (events_ c) kWriteEvent).
Definition disableWriting (cs : Channels) (p : P) (a : Z) : outcome (Channels * P) :=
  c ← get_channel cs a; update cs p a (Z.ldiff (events_ c) kWriteEvent).
Definition disableAll (cs : Channels) (p : P) (a : Z) : outcome (Channels * P) :=
  update cs p a kNoneEvent.

Definition remove (cs : Channels) (p : P) (a : Z) : outcome (Channels * P) :=
  c ← get_channel cs a;
  _ ← assertb 61 (isNoneEvent c);
  poller_removeChannel (<[ a := set_added c false ]> cs) p a.
End Members.

(** ** What a poller promises *)

(** The masks [Channel] can set: [n] bits beyond read and write stay clear. *)
Definition mask_ok (ev : Z) : Prop := ev = 0 ∨ ev = 3 ∨ ev = 4 ∨ ev = 7.

(** Descriptors the system hands out. *)
Definition fd_valid (fd : Z) : Prop := 0 ≤ fd < 2 ^ 31 - 1.

(** The reports [evs] (mask and channel) were stored in the channels, and nothing else changed. *)
Definition delivered (cs cs' : Channels) (evs : list (Z * Z)) : Prop :=
  (∀ rev a, (rev, a) ∈ evs → ∃ c, cs !! a = Some c ∧ cs' !! a = Some (set_revents c rev)) ∧
  (∀ b, b ∉ evs.*2 → cs' !! b = cs !! b).

Lemma delivered_nil cs : delivered cs cs [].
Proof. split; [|done]. intros ?? []%elem_of_nil. Qed.

Lemma delivered_cons cs cs' rev a c evs :
  cs !! a = Some c → a ∉ evs.*2 →
  delivered (<[ a := set_revents c rev ]> cs) cs' evs → delivered cs cs' ((rev, a) :: evs).
Proof.
  intros Hc Hnew [Hdel Hoth]. split.
  - intros r b [[= -> ->]|Hb]%elem_of_cons.
    + exists c. split; [done|]. rewrite (Hoth a) by done. apply lookup_insert_eq.
    + destruct (Hdel _ _ Hb) as (d & Hd & ?). exists d. split; [|done].
      rewrite lookup_insert_ne in Hd; [done|]. intros ->. apply Hnew, list_elem_of_fmap.
      by exists (r, b).
  - intros b [? ?]%not_elem_of_cons. rewrite Hoth by done. by apply lookup_insert_ne.
Qed.

(** The fields a poller may not touch. *)
Definition same_channel (c c' : Channel) : Prop := c' = set_index c (index_ c').

#[export] Instance same_channel_equiv : Equivalence same_channel.
Proof.
  unfold same_channel, set_index. split.
  - by intros [].
  - intros [] []; simpl. by intros [= -> -> -> -> -> -> -> -> -> -> ->].
  - intros [] [] []; simpl. by intros [= -> -> -> -> -> -> -> -> -> -> ->].
Qed.

(** The removal of [a] may renumber registered channels and does nothing else to other channels. *)
Definition others_kept (registered : gmap Z Z) (a : Z) (cs cs' : Channels) : Prop :=
  ∀ b, b ≠ a → match cs !! b with
               | None => cs' !! b = None
               | Some d => ∃ d', cs' !! b = Some d' ∧ same_channel d d' ∧
                                 (registered !! fd_ d ≠ Some b → d' = d)
               end.

Lemma others_kept_insert registered a cs c : others_kept registered a cs (<[ a := c ]> cs).
Proof.
  intros b Hb. rewrite lookup_insert_ne by done. destruct (cs !! b) as [d|]; [|done].
  exists d. split; [done|]. split; [reflexivity|done].
Qed.

(** [poller_ok cs p]: the invariant.  [poller_watched p]: the descriptors the
    operating system watches, with their masks. *)
Class PollerLaws (P : Type) `{PollerOps P} := {
  poller_ok : Channels → P → Prop;
  poller_watched : P → gmap Z Z;

  poller_ok_registered cs p fd a :
    poller_ok cs p → poller_channels p !! fd = Some a →
    ∃ c, cs !! a = Some c ∧ fd_ c = fd ∧ mask_ok (events_ c);

  (** The store may grow and the callbacks may set any field the pollers do not use. *)
  poller_ok_frame cs cs' p :
    poller_ok cs p →
    (∀ fd a c, poller_channels p !! fd = Some a → cs !! a = Some c →
       ∃ c', cs' !! a = Some c' ∧ fd_ c' = fd_ c ∧ events_ c' = events_ c ∧ index_ c' = index_ c) →
    poller_ok cs' p;

  (** Every registered channel with a non-empty mask is watched with this mask,
      and nothing else is watched with a non-empty mask. *)
  poller_ok_watched cs p fd ev :
    poller_ok cs p → ev ≠ 0 →
    poller_watched p !! fd = Some ev ↔
    ∃ a c, poller_channels p !! fd = Some a ∧ cs !! a = Some c ∧ events_ c = ev;

  (** A new channel, whose descriptor is not registered yet. *)
  poller_add_ok cs p a c ev :
    poller_ok cs p → cs !! a = Some c → poller_channels p !! fd_ c = None → fd_valid (fd_ c) →
    index_ c = -1 → mask_ok ev → ev ≠ 0 →
    update cs p a ev ⇓ λ '(cs', p'),
      poller_ok cs' p' ∧ poller_channels p' = <[ fd_ c := a ]> (poller_channels p) ∧
      (∃ c', cs' = <[ a := c' ]> cs ∧ same_channel (set_added (set_events c ev) true) c');

  (** A registered channel. *)
  poller_update_ok cs p a c ev :
    poller_ok cs p → cs !! a = Some c → poller_channels p !! fd_ c = Some a → mask_ok ev →
    update cs p a ev ⇓ λ '(cs', p'),
      poller_ok cs' p' ∧ poller_channels p' = poller_channels p ∧
      (∃ c', cs' = <[ a := c' ]> cs ∧ same_channel (set_added (set_events c ev) true) c');

  (** Removal; the indices of other channels may change. *)
  poller_remove_ok cs p a c :
    poller_ok cs p → cs !! a = Some c → poller_channels p !! fd_ c = Some a → events_ c = 0 →
    remove cs p a ⇓ λ '(cs', p'),
      poller_ok cs' p' ∧ poller_channels p' = delete (fd_ c) (poller_channels p) ∧
      others_kept (poller_channels p) a cs cs' ∧
      (∃ c', cs' !! a = Some c' ∧ same_channel (set_added c false) c')
}.
