(* ===== verification/EPollPoller.v ===== *)
(** * The epoll(4) poller (muduo/net/poller/EPollPoller.h, EPollPoller.cc)

    The kernel side is a parameter: a type [K] of kernel states with the calls
    the poller makes ([EpollKernel]) and the documented behaviour the poller
    relies on ([EpollKernelLaws]).  The poller keeps [Poller::channels_] and
    the vector [events_] that [epoll_wait] fills.  It discharges the interface
    [PollerLaws]; in particular no [LOG_SYSFATAL] of [update] is reached. *)
From stdpp Require Import base numbers list gmap strings.
From S2P Require Import Prelude Channel.
Open Scope Z_scope.
Open Scope muduo_scope.

(** ** The kernel *)

Inductive EpollOp := EPOLL_CTL_ADD | EPOLL_CTL_DEL | EPOLL_CTL_MOD.

(** What [epoll_wait] gives back: the records it wrote (mask and [data.ptr]), or [errno]. *)
Inductive WaitResult :=
  | Ready (evs : list (Z * Z))
  | WaitError (errno : Z).

(** [epoll_ctl k op fd mask data]: the new kernel state and whether the call succeeded. *)
Class EpollKernel (K : Type) := {
  epoll_ctl : K → EpollOp → Z → Z → Z → K * bool;
  interest : K → gmap Z (Z * Z)
}.

(** epoll_ctl(2): ADD fails with EEXIST on a registered descriptor, MOD and DEL
    with ENOENT on one that is not; on success the interest list is changed.  The
    kernel's own limits (ENOMEM, ENOSPC) are not reached. *)
Class EpollKernelLaws (K : Type) `{EpollKernel K} := {
  epoll_add k fd ev d :
    0 ≤ fd → interest k !! fd = None →
    ∃ k', epoll_ctl k EPOLL_CTL_ADD fd ev d = (k', true) ∧
          interest k' = <[ fd := (ev, d) ]> (interest k);
  epoll_mod k fd ev d :
    interest k !! fd ≠ None →
    ∃ k', epoll_ctl k EPOLL_CTL_MOD fd ev d = (k', true) ∧
          interest k' = <[ fd := (ev, d) ]> (interest k);
  epoll_del k fd ev d :
    interest k !! fd ≠ None →
    ∃ k', epoll_ctl k EPOLL_CTL_DEL fd ev d = (k', true) ∧
          interest k' = delete fd (interest k)
}.

(** The simplest kernel: its state is the interest list. *)
#[export] Instance gmap_kernel : EpollKernel (gmap Z (Z * Z)) := {
  interest k := k;
  epoll_ctl k op fd ev d :=
    match op, k !! fd with
    | EPOLL_CTL_ADD, None => if 0 <=? fd then (<[ fd := (ev, d) ]> k, true) else (k, false)
    | EPOLL_CTL_MOD, Some _ => (<[ fd := (ev, d) ]> k, true)
    | EPOLL_CTL_DEL, Some _ => (delete fd k, true)
    | _, _ => (k, false)
    end
}.

#[export] Instance gmap_kernel_laws : EpollKernelLaws (gmap Z (Z * Z)).
Proof.
  split; intros k fd ev d; simpl.
  - intros ? ->. eexists. case_match; [done|lia].
  - destruct (k !! fd); [eauto|done].
  - destruct (k !! fd); [eauto|done].
Qed.

(** ** The class *)

Definition kNew : Z := -1.
Definition kAdded : Z := 1.
Definition kDeleted : Z := 2.
Definition kInitEventListSize : nat := 16.

Record EPollPoller (K : Type) := mkEPollPoller {
  channels_ : gmap Z Z;
  epoll_ : K;                   (* what [epollfd_] refers to *)
  events_ : list (Z * Z)
}.
Arguments mkEPollPoller {K} _ _ _.
Arguments channels_ {K} _.
Arguments epoll_ {K} _.
Arguments events_ {K} _.

Definition operationToString (op : EpollOp) : string :=
  match op with EPOLL_CTL_ADD => "ADD" | EPOLL_CTL_DEL => "DEL" | EPOLL_CTL_MOD => "MOD" end.

Section Operations.
Context {K : Type} `{EpollKernel K}.
Implicit Types p : EPollPoller K.

Definition EPollPoller_new (k : K) : EPollPoller K :=
  mkEPollPoller ∅ k (replicate kInitEventListSize (0, 0)).

(** A failed DEL is logged, a failed ADD or MOD is fatal. *)
Definition update (op : EpollOp) (c : Channel) (a : Z) (p : EPollPoller K) :
    outcome (EPollPoller K) :=
  let '(k', ok) := epoll_ctl (epoll_ p) op (fd_ c) (Channel.events_ c) a in
  let p' := mkEPollPoller (channels_ p) k' (events_ p) in
  if ok then mret p'
  else match op with EPOLL_CTL_DEL => mret p' | _ => Fault (Fatal 189) end.

Definition updateChannel (cs : Channels) (p : EPollPoller K) (a : Z) :
    outcome (Channels * EPollPoller K) :=
  c ← get_channel cs a;
  let index := index_ c in
  let fd := fd_ c in
  if (index =? kNew) || (index =? kDeleted) then
    p ← (if index =? kNew then
           _ ← assertb 119 (bool_decide (channels_ p !! fd = None));
           mret (mkEPollPoller (<[ fd := a ]> (channels_ p)) (epoll_ p) (events_ p))
         else
           _ ← assertb 124 (bool_decide (channels_ p !! fd ≠ None));
           _ ← assertb 125 (bool_decide (channels_ p !! fd = Some a));
           mret p);
    let c := set_index c kAdded in
    p ← update EPOLL_CTL_ADD c a p;
    mret (<[ a := c ]> cs, p)
  else
    _ ← assertb 136 (bool_decide (channels_ p !! fd ≠ None));
    _ ← assertb 137 (bool_decide (channels_ p !! fd = Some a));
    _ ← assertb 138 (index =? kAdded);
    if isNoneEvent c then
      p ← update EPOLL_CTL_DEL c a p;
      mret (<[ a := set_index c kDeleted ]> cs, p)
    else
      p ← update EPOLL_CTL_MOD c a p;
      mret (cs, p).

Definition removeChannel (cs : Channels) (p : EPollPoller K) (a : Z) :
    outcome (Channels * EPollPoller K) :=
  c ← get_channel cs a;
  let fd := fd_ c in
  _ ← assertb 156 (bool_decide (channels_ p !! fd ≠ None));
  _ ← assertb 157 (bool_decide (channels_ p !! fd = Some a));
  _ ← assertb 158 (isNoneEvent c);
  let index := index_ c in
  _ ← assertb 160 ((index =? kAdded) || (index =? kDeleted));
  let n := if channels_ p !! fd is Some _ then 1 else 0 in
  let p := mkEPollPoller (delete fd (channels_ p)) (epoll_ p) (events_ p) in
  _ ← assertb 163 (n =? 1);
  p ← (if index =? kAdded then update EPOLL_CTL_DEL c a p else mret p);
  mret (<[ a := set_index c kNew ]> cs, p).

(** The loop of [fillActiveChannels] over the records the kernel wrote. *)
Fixpoint fill_loop (cs : Channels) (p : EPollPoller K) (evs : list (Z * Z)) (active : list Z) :
    outcome (Channels * list Z) :=
  match evs with
  | [] => mret (cs, active)
  | (revents, a) :: evs =>
    c ← get_channel cs a;
    let it := channels_ p !! fd_ c in
    _ ← assertb 99 (bool_decide (it ≠ None));
    _ ← assertb 100 (bool_decide (it = Some a));
    fill_loop (<[ a := set_revents c revents ]> cs) p evs (active ++ [a])
  end.

Definition fillActiveChannels (cs : Channels) (p : EPollPoller K) (numEvents : nat)
    (active : list Z) : outcome (Channels * list Z) :=
  _ ← assertb 92 (numEvents <=? length (events_ p))%nat;
  fill_loop cs p (take numEvents (events_ p)) active.

(** [epoll_wait] overwrites the first records of [events_]; a full vector is doubled. *)
Definition poll (cs : Channels) (p : EPollPoller K) (w : WaitResult) (active : list Z) :
    outcome (Channels * EPollPoller K * list Z) :=
  match w with
  | Ready evs =>
    let numEvents := length evs in
    let p := mkEPollPoller (channels_ p) (epoll_ p) (evs ++ drop numEvents (events_ p)) in
    if (0 <? numEvents)%nat then
      '(cs, active) ← fillActiveChannels cs p numEvents active;
      let p := if (numEvents =? length (events_ p))%nat
               then mkEPollPoller (channels_ p) (epoll_ p)
                      (events_ p ++ replicate (length (events_ p)) (0, 0))
               else p in
      mret (cs, p, active)
    else mret (cs, p, active)
  | WaitError _ => mret (cs, p, active)
  end.

#[export] Instance EPollPoller_ops : PollerOps (EPollPoller K) := {
  poller_updateChannel := updateChannel;
  poller_removeChannel := removeChannel;
  poller_channels := channels_
}.
End Operations.

(** ** The invariant *)

Section Invariant.
Context {K : Type} `{EpollKernel K}.

(** A registered channel is in the interest list with its mask and address, or
    it was taken out of it ([kDeleted]) when its mask became empty. *)
Definition epoll_entry (c : Channel) (a : Z) (entry : option (Z * Z)) : Prop :=
  (index_ c = kAdded ∧ entry = Some (Channel.events_ c, a)) ∨
  (index_ c = kDeleted ∧ entry = None ∧ Channel.events_ c = 0).

Record epoll_ok (cs : Channels) (p : EPollPoller K) : Prop := {
  epoll_registered fd a : channels_ p !! fd = Some a →
    ∃ c, cs !! a = Some c ∧ fd_ c = fd ∧ 0 ≤ fd ∧ mask_ok (Channel.events_ c) ∧
         epoll_entry c a (interest (epoll_ p) !! fd);
  epoll_unregistered fd : channels_ p !! fd = None → interest (epoll_ p) !! fd = None
}.
End Invariant.

Section Laws.
Context {K : Type} `{EpollKernelLaws K}.
Implicit Types p : EPollPoller K.

(** The entry of one channel changes, everything else is kept. *)
Lemma epoll_ok_insert cs p a c c' k' evs :
  epoll_ok cs p → cs !! a = Some c →
  (channels_ p !! fd_ c = None ∨ channels_ p !! fd_ c = Some a) →
  fd_ c' = fd_ c → 0 ≤ fd_ c → mask_ok (Channel.events_ c') →
  (∀ fd, fd ≠ fd_ c → interest k' !! fd = interest (epoll_ p) !! fd) →
  epoll_entry c' a (interest k' !! fd_ c) →
  epoll_ok (<[ a := c' ]> cs) (mkEPollPoller (<[ fd_ c := a ]> (channels_ p)) k' evs).
Proof.
  intros [Hreg Hun] Hc Hch Hfd Hpos Hm Hk He. split; simpl.
  - intros fd b [[<- <-]|[Hne Hb]]%lookup_insert_Some.
    { exists c'. rewrite lookup_insert_eq. done. }
    destruct (Hreg _ _ Hb) as (d & Hd & <- & ? & ? & ?).
    exists d. rewrite lookup_insert_ne, Hk by congruence. done.
  - intros fd [Hb ?]%lookup_insert_None. rewrite Hk by done. auto.
Qed.

Lemma channels_self p fd a : channels_ p !! fd = Some a → <[ fd := a ]> (channels_ p) = channels_ p.
Proof. apply insert_id. Qed.

Ltac ctl_call law :=
  let k' := fresh "k'" in let Ek := fresh "Ek" in let Hk := fresh "Hk" in
  destruct law as (k' & Ek & Hk); unfold update;
  cbn [fd_ Channel.events_ set_index set_added set_events epoll_]; rewrite Ek; simpl.

Lemma epoll_add_ok cs p a c ev :
  epoll_ok cs p → cs !! a = Some c → channels_ p !! fd_ c = None → fd_valid (fd_ c) →
  index_ c = -1 → mask_ok ev →
  Channel.update cs p a ev ⇓ λ '(cs', p'),
    epoll_ok cs' p' ∧ channels_ p' = <[ fd_ c := a ]> (channels_ p) ∧
    (∃ c', cs' = <[ a := c' ]> cs ∧ same_channel (set_added (set_events c ev) true) c').
Proof.
  intros Hok Hc Hch [Hfd _] Hi Hm. unfold Channel.update, get_channel. rewrite Hc. run_ok.
  unfold poller_updateChannel, EPollPoller_ops, updateChannel, get_channel.
  rewrite lookup_insert_eq. run_ok. cbn [index_ fd_ set_added set_events]. rewrite Hi.
  cbn [Z.eqb orb kNew Pos.eqb]. rewrite bool_decide_true by done. repeat run_ok.
  ctl_call (epoll_add (epoll_ p) (fd_ c) ev a Hfd (epoll_unregistered _ _ Hok _ Hch)).
  rewrite insert_insert_eq. split; [|split; [done|]].
  - eapply epoll_ok_insert; [done..|by left|done|done|done| |].
    + intros fd ?. rewrite Hk, lookup_insert_ne by done. done.
    + left. rewrite Hk, lookup_insert_eq. done.
  - eexists. split; [done|]. done.
Qed.

Lemma epoll_update_ok cs p a c ev :
  epoll_ok cs p → cs !! a = Some c → channels_ p !! fd_ c = Some a → mask_ok ev →
  Channel.update cs p a ev ⇓ λ '(cs', p'),
    epoll_ok cs' p' ∧ channels_ p' = channels_ p ∧
    (∃ c', cs' = <[ a := c' ]> cs ∧ same_channel (set_added (set_events c ev) true) c').
Proof.
  intros Hok Hc Hch Hm. destruct (epoll_registered _ _ Hok _ _ Hch) as (c0 & ? & _ & Hfd & _ & He).
  assert (c0 = c) as -> by congruence.
  unfold Channel.update, get_channel. rewrite Hc. run_ok.
  unfold poller_updateChannel, EPollPoller_ops, updateChannel, get_channel.
  rewrite lookup_insert_eq. run_ok. cbn [index_ fd_ set_added set_events]. rewrite Hch.
  assert (∀ k' c' evs, fd_ c' = fd_ c → Channel.events_ c' = ev →
    (∀ fd, fd ≠ fd_ c → interest k' !! fd = interest (epoll_ p) !! fd) →
    epoll_entry c' a (interest k' !! fd_ c) →
    epoll_ok (<[ a := c' ]> cs) (mkEPollPoller (channels_ p) k' evs)) as Hins.
  { intros k' c' evs ? Hev ? ?. rewrite <- (channels_self p (fd_ c) a) by done.
    eapply epoll_ok_insert; eauto; by rewrite Hev. }
  destruct He as [[Hi Hin]|(Hi & Hin & Hz)]; rewrite Hi; cbn [Z.eqb orb kNew kDeleted kAdded Pos.eqb];
    rewrite !bool_decide_true by done; repeat run_ok.
  - unfold isNoneEvent. cbn [Channel.events_ set_added set_events].
    destruct (Z.eqb_spec ev kNoneEvent) as [->|Hne].
    + ctl_call (epoll_del (epoll_ p) (fd_ c) kNoneEvent a ltac:(by rewrite Hin)).
      rewrite insert_insert_eq. split; [|split; [done|by eexists]].
      apply Hins; [done..| |].
      * intros fd ?. by rewrite Hk, lookup_delete_ne.
      * right. by rewrite Hk, lookup_delete_eq.
    + ctl_call (epoll_mod (epoll_ p) (fd_ c) ev a ltac:(by rewrite Hin)).
      split; [|split; [done|by eexists]].
      apply Hins; [done..| |].
      * intros fd ?. by rewrite Hk, lookup_insert_ne.
      * left. by rewrite Hk, lookup_insert_eq.
  - ctl_call (epoll_add (epoll_ p) (fd_ c) ev a Hfd Hin).
    rewrite insert_insert_eq. split; [|split; [done|by eexists]].
    apply Hins; [done..| |].
    * intros fd ?. by rewrite Hk, lookup_insert_ne.
    * left. by rewrite Hk, lookup_insert_eq.
Qed.

Lemma epoll_remove_ok cs p a c :
  epoll_ok cs p → cs !! a = Some c → channels_ p !! fd_ c = Some a → Channel.events_ c = 0 →
  Channel.remove cs p a ⇓ λ '(cs', p'),
    epoll_ok cs' p' ∧ channels_ p' = delete (fd_ c) (channels_ p) ∧
    cs' = <[ a := set_index (set_added c false) kNew ]> cs.
Proof.
  intros Hok Hc Hch Hz. destruct (epoll_registered _ _ Hok _ _ Hch) as (c0 & ? & _ & Hfd & _ & He).
  assert (c0 = c) as -> by congruence.
  unfold Channel.remove, get_channel, isNoneEvent. rewrite Hc. run_ok. rewrite Hz. change (0 =? kNoneEvent) with true. run_ok.
  unfold poller_removeChannel, EPollPoller_ops, removeChannel, get_channel, isNoneEvent.
  rewrite lookup_insert_eq. run_ok. cbn [index_ fd_ set_added Channel.events_]. rewrite Hch, Hz.
  rewrite !bool_decide_true by done. change (0 =? kNoneEvent) with true. do 3 run_ok.
  assert (∀ k' c' evs, interest k' = delete (fd_ c) (interest (epoll_ p)) →
    epoll_ok (<[ a := c' ]> cs) (mkEPollPoller (delete (fd_ c) (channels_ p)) k' evs)) as Hdel.
  { intros k' c' evs Hk. split; simpl.
    - intros fd b [Hne Hb]%lookup_delete_Some.
      destruct (epoll_registered _ _ Hok _ _ Hb) as (d & Hd & <- & ? & ? & ?).
      exists d. rewrite lookup_insert_ne, Hk, lookup_delete_ne by congruence. done.
    - intros fd Hb. rewrite Hk. destruct (decide (fd = fd_ c)) as [->|].
      + by rewrite lookup_delete_eq.
      + rewrite lookup_delete_ne by done. apply lookup_delete_None in Hb as [?|?]; [done|].
        by apply (epoll_unregistered _ _ Hok). }
  destruct He as [[Hi Hin]|(Hi & Hin & _)]; rewrite Hi; cbn [Z.eqb orb kNew kDeleted kAdded Pos.eqb];
    repeat run_ok.
  - ctl_call (epoll_del (epoll_ p) (fd_ c) (Channel.events_ c) a ltac:(by rewrite Hin)).
    rewrite insert_insert_eq. auto.
  - cbn. rewrite insert_insert_eq. split; [|done]. apply Hdel. by rewrite delete_id.
Qed.

Lemma epoll_ok_frame cs cs' p :
  epoll_ok cs p →
  (∀ fd a c, channels_ p !! fd = Some a → cs !! a = Some c →
     ∃ c', cs' !! a = Some c' ∧ fd_ c' = fd_ c ∧
           Channel.events_ c' = Channel.events_ c ∧ index_ c' = index_ c) →
  epoll_ok cs' p.
Proof.
  intros [Hreg Hun] Hfr. split; [|done]. intros fd a Hch.
  destruct (Hreg _ _ Hch) as (c & Hc & Hfd & ? & ? & He).
  destruct (Hfr _ _ _ Hch Hc) as (c' & Hc' & Hf & Hev & Hix). exists c'.
  unfold epoll_entry. rewrite Hf, Hev, Hix. done.
Qed.

#[export] Instance EPollPoller_laws : PollerLaws (EPollPoller K).
Proof.
  refine {| poller_ok := epoll_ok; poller_watched p := fst <$> interest (epoll_ p) |}.
  - intros cs p fd a Hok Hch. destruct (epoll_registered _ _ Hok _ _ Hch) as (c & ? & ? & ? & ? & _).
    eauto.
  - apply epoll_ok_frame.
  - intros cs p fd ev Hok Hne. rewrite lookup_fmap, fmap_Some. simpl. split.
    + intros ([ev' a] & Hin & ->). simpl in *.
      destruct (channels_ p !! fd) as [b|] eqn:Hch;
        [|by rewrite (epoll_unregistered _ _ Hok _ Hch) in Hin].
      destruct (epoll_registered _ _ Hok _ _ Hch) as (c & ? & ? & _ & _ & [[_ E]|(_ & E & _)]);
        rewrite E in Hin; [|done]. injection Hin as <- <-. eauto.
    + intros (a & c & Hch & Hc & <-).
      destruct (epoll_registered _ _ Hok _ _ Hch) as (c0 & ? & _ & _ & _ & [[_ E]|(_ & _ & E)]);
        assert (c0 = c) as -> by congruence; [|done]. exists (Channel.events_ c, a). done.
  - intros. by apply epoll_add_ok.
  - apply epoll_update_ok.
  - intros cs p a c Hok Hc Hch Hz. eapply yields_mono; [by apply epoll_remove_ok|].
    intros [cs' p'] (? & ? & ->). do 2 (split; [done|]). split.
    + apply others_kept_insert.
    + eexists. rewrite lookup_insert_eq. done.
Defined.
End Laws.

(** ** Polling *)

Section Polling.
Context {K : Type} `{EpollKernelLaws K}.
Implicit Types p : EPollPoller K.

(** What epoll_wait(2) may report: at most as many records as there is room
    for, each for one descriptor of the interest list, with its [data.ptr]. *)
Definition report_ok (p : EPollPoller K) (evs : list (Z * Z)) : Prop :=
  (length evs ≤ length (events_ p))%nat ∧ NoDup evs.*2 ∧
  ∀ rev a, (rev, a) ∈ evs → ∃ fd ev, interest (epoll_ p) !! fd = Some (ev, a).

Lemma interest_registered cs p fd ev a :
  epoll_ok cs p → interest (epoll_ p) !! fd = Some (ev, a) →
  ∃ c, channels_ p !! fd = Some a ∧ cs !! a = Some c ∧ fd_ c = fd ∧ Channel.events_ c = ev.
Proof.
  intros Hok Hin. destruct (channels_ p !! fd) as [b|] eqn:Hch;
    [|by rewrite (epoll_unregistered _ _ Hok _ Hch) in Hin].
  destruct (epoll_registered _ _ Hok _ _ Hch) as (c & ? & ? & _ & _ & [[_ E]|(_ & E & _)]);
    rewrite E in Hin; [|done]. injection Hin as <- <-. eauto.
Qed.

Lemma epoll_ok_revents cs p a c rev :
  epoll_ok cs p → cs !! a = Some c → epoll_ok (<[ a := set_revents c rev ]> cs) p.
Proof.
  intros Hok Hc. apply (epoll_ok_frame cs); [done|]. intros fd b d _ Hd.
  destruct (decide (b = a)) as [->|].
  - rewrite lookup_insert_eq. eexists; split; [done|]. simplify_eq. done.
  - rewrite lookup_insert_ne by done. eauto.
Qed.

Lemma fill_loop_spec cs p evs active :
  epoll_ok cs p → NoDup evs.*2 →
  (∀ rev a, (rev, a) ∈ evs → ∃ fd ev, interest (epoll_ p) !! fd = Some (ev, a)) →
  fill_loop cs p evs active ⇓ λ '(cs', active'),
    epoll_ok cs' p ∧ active' = active ++ evs.*2 ∧ delivered cs cs' evs.
Proof.
  revert cs active. induction evs as [|[rev a] evs IH]; intros cs active Hok Hnd Hin.
  { simpl. rewrite app_nil_r. do 2 (split; [done|]). apply delivered_nil. }
  apply NoDup_cons in Hnd as [Hnew Hnd].
  destruct (Hin rev a ltac:(left)) as (fd & ev & Hint).
  destruct (interest_registered _ _ _ _ _ Hok Hint) as (c & Hch & Hc & Hfd & _).
  cbn [fill_loop]. unfold get_channel. rewrite Hc. run_ok. rewrite Hfd, Hch.
  rewrite !bool_decide_true by done. do 2 run_ok.
  eapply yields_mono.
  { apply IH; [by apply epoll_ok_revents|done|]. intros r b Hb. apply (Hin r b). by right. }
  intros [cs' active'] (? & -> & Hd). split; [done|]. split; [by rewrite <- app_assoc|].
  by eapply delivered_cons.
Qed.

(** [EPollPoller::poll] on a report of the kernel: no assertion fails, the
    active list gets exactly the reported channels in the reported order, each
    reported channel has its [revents_] set and no other channel is touched,
    and the vector of records is doubled exactly when the report filled it. *)
Theorem epoll_poll_delivers cs p evs active :
  epoll_ok cs p → report_ok p evs → evs ≠ [] →
  poll cs p (Ready evs) active ⇓ λ '(cs', p', active'),
    epoll_ok cs' p' ∧ active' = active ++ evs.*2 ∧ delivered cs cs' evs ∧
    length (events_ p') =
      if decide (length evs = length (events_ p)) then (2 * length (events_ p))%nat
      else length (events_ p).
Proof.
  intros Hok (Hlen & Hnd & Hin) Hne. unfold poll.
  set (p1 := mkEPollPoller (channels_ p) (epoll_ p) (evs ++ drop (length evs) (events_ p))).
  assert (epoll_ok cs p1) as Hok1 by (destruct Hok; by split).
  assert (length (events_ p1) = length (events_ p)) as Hl1
    by (simpl; rewrite length_app, length_drop; lia).
  destruct evs as [|e evs']; [done|]. cbn [length Nat.ltb Nat.leb]. fold (length evs').
  set (evs := e :: evs') in *. change (S (length evs')) with (length evs).
  unfold fillActiveChannels.
  replace (length evs <=? length (events_ p1))%nat with true by (symmetry; apply Nat.leb_le; lia).
  run_ok. replace (take (length evs) (events_ p1)) with evs by (simpl; by rewrite take_app_length).
  ystep (fill_loop_spec cs p1 evs active Hok1 Hnd Hin). intros [cs' active'] (Hok' & -> & Hd).
  rewrite Hl1. destruct (Nat.eqb_spec (length evs) (length (events_ p))) as [E|E].
  - rewrite decide_True by done. apply yields_ret. split; [destruct Hok'; by split|].
    split; [done|]. split; [done|]. cbn [events_]. rewrite length_app, length_replicate. lia.
  - rewrite decide_False by done. apply yields_ret. done.
Qed.

(** [epoll_wait] that times out or fails (EINTR or worse) changes nothing. *)
Lemma poll_nothing cs p w active :
  w = Ready [] ∨ (∃ e, w = WaitError e) → poll cs p w active = Ok (cs, p, active).
Proof. by intros [->|[e ->]]; [destruct p; simpl; rewrite drop_0|]. Qed.
End Polling.

(** A channel whose mask is already empty and that is updated with the empty
    mask again ([disableAll] after [disableAll]) is put back in the interest
    list with the mask 0, so that the kernel reports errors and hang-ups of it. *)
Theorem epoll_double_disable_rearms :
  let a := 7 in
  let s0 := (<[ a := Channel_new 5 ]> ∅ : Channels, EPollPoller_new (∅ : gmap Z (Z * Z))) in
  (s1 ← enableReading s0.1 s0.2 a; s2 ← disableAll s1.1 s1.2 a; mret (interest (epoll_ s2.2)))
    = Ok ∅ ∧
  (s1 ← enableReading s0.1 s0.2 a; s2 ← disableAll s1.1 s1.2 a; s3 ← disableAll s2.1 s2.2 a;
   mret (interest (epoll_ s3.2))) = Ok {[ 5 := (0, a) ]}.
Proof. split; vm_compute; reflexivity. Qed.

(** One registered channel that becomes readable. *)
Lemma epoll_poll_delivers_witness :
  ∃ cs (p : EPollPoller (gmap Z (Z * Z))) evs,
    (epoll_ok cs p ∧ report_ok p evs ∧ evs ≠ []) ∧
    poll cs p (Ready evs) [] ⇓ λ '(cs', p', active'),
      epoll_ok cs' p' ∧ active' = [] ++ evs.*2 ∧ delivered cs cs' evs ∧
      length (events_ p') =
        if decide (length evs = length (events_ p)) then (2 * length (events_ p))%nat
        else length (events_ p).
Proof.
  exists ({[ 7 := set_index (set_added (set_events (Channel_new 5) 3) true) kAdded ]}),
    (mkEPollPoller {[ 5 := 7 ]} {[ 5 := (3, 7) ]} (replicate kInitEventListSize (0, 0))), [(1, 7)].
  apply conj_apply; [|intros (?&?&?); by apply epoll_poll_delivers].
  split_and!; [split; cbn [channels_ epoll_]| |done].
  - intros fd a [<- <-]%lookup_singleton_Some. eexists. split; [done|].
    split_and!; [done|done|by right; left|by left].
  - intros fd Hn. apply lookup_singleton_None in Hn. by apply lookup_singleton_None.
  - split; [simpl; lia|]. split; [apply NoDup_singleton|].
    intros rev a [= -> ->]%list_elem_of_singleton. by exists 5, 3.
Defined.
