(* ===== verification/PollPoller.v ===== *)
(** * The poll(2) poller (muduo/net/poller/PollPoller.h, PollPoller.cc)

    The array [pollfds_] is a list; a channel's [index_] is its position in it.
    A channel with an empty mask keeps its entry with the descriptor [-fd-1],
    which poll(2) ignores.  Removal swaps the entry with the last one. *)
From stdpp Require Import base numbers list gmap.
From S2P Require Import Prelude Channel.
Open Scope Z_scope.
Open Scope muduo_scope.

Record PollFd := mkPollFd { fd : Z; events : Z; revents : Z }.

#[export] Instance PollFd_eq_dec : EqDecision PollFd.
Proof. solve_decision. Defined.

Record PollPoller := mkPollPoller {
  channels_ : gmap Z Z;
  pollfds_ : list PollFd
}.

Definition PollPoller_new : PollPoller := mkPollPoller ∅ [].

(** [pollfds_.size()], and its [static_cast<int>]. *)
Definition pollfds_size (p : PollPoller) : Z := size_of (pollfds_ p).
Definition pollfds_size_int (p : PollPoller) : Z := i32 (pollfds_size p).

(** [pollfds_[idx]]. *)
Definition pollfds_at (p : PollPoller) (idx : Z) : outcome PollFd :=
  if idx <? 0 then Fault OutOfRange
  else match pollfds_ p !! Z.to_nat idx with Some pfd => Ok pfd | None => Fault OutOfRange end.

Definition updateChannel (cs : Channels) (p : PollPoller) (a : Z) :
    outcome (Channels * PollPoller) :=
  c ← get_channel cs a;
  if index_ c <? 0 then
    _ ← assertb 82 (bool_decide (channels_ p !! fd_ c = None));
    let pfd := mkPollFd (fd_ c) (i16 (events_ c)) 0 in
    let p := mkPollPoller (channels_ p) (pollfds_ p ++ [pfd]) in
    let idx := pollfds_size_int p - 1 in
    mret (<[ a := set_index c idx ]> cs, mkPollPoller (<[ fd pfd := a ]> (channels_ p)) (pollfds_ p))
  else
    _ ← assertb 95 (bool_decide (channels_ p !! fd_ c ≠ None));
    _ ← assertb 96 (bool_decide (channels_ p !! fd_ c = Some a));
    let idx := index_ c in
    _ ← assertb 98 ((0 <=? idx) && (idx <? pollfds_size_int p));
    pfd ← pollfds_at p idx;
    _ ← assertb 100 ((fd pfd =? fd_ c) || (fd pfd =? - fd_ c - 1));
    let pfd := mkPollFd (fd_ c) (i16 (events_ c)) 0 in
    let pfd := if isNoneEvent c then mkPollFd (- fd_ c - 1) (events pfd) (revents pfd) else pfd in
    mret (cs, mkPollPoller (channels_ p) (<[ Z.to_nat idx := pfd ]> (pollfds_ p))).

(** [iter_swap(begin()+idx, end()-1); pop_back()]. *)
Definition swap_pop (l : list PollFd) (idx : nat) (pfd last : PollFd) : list PollFd :=
  take (length l - 1) (<[ (length l - 1)%nat := pfd ]> (<[ idx := last ]> l)).

Definition removeChannel (cs : Channels) (p : PollPoller) (a : Z) :
    outcome (Channels * PollPoller) :=
  c ← get_channel cs a;
  _ ← assertb 116 (bool_decide (channels_ p !! fd_ c ≠ None));
  _ ← assertb 117 (bool_decide (channels_ p !! fd_ c = Some a));
  _ ← assertb 118 (isNoneEvent c);
  let idx := index_ c in
  _ ← assertb 120 ((0 <=? idx) && (idx <? pollfds_size_int p));
  pfd ← pollfds_at p idx;
  _ ← assertb 122 ((fd pfd =? - fd_ c - 1) && (events pfd =? events_ c));
  let n := if channels_ p !! fd_ c is Some _ then 1 else 0 in
  let channels := delete (fd_ c) (channels_ p) in
  _ ← assertb 124 (n =? 1);
  if idx =? pollfds_size p - 1 then
    mret (cs, mkPollPoller channels (take (length (pollfds_ p) - 1) (pollfds_ p)))
  else
    back ← pollfds_at p (pollfds_size p - 1);
    let channelAtEnd := fd back in
    let pollfds := swap_pop (pollfds_ p) (Z.to_nat idx) pfd back in
    let channelAtEnd := if channelAtEnd <? 0 then - channelAtEnd - 1 else channelAtEnd in
    match channels !! channelAtEnd with
    | None => Fault BadDeref
    | Some b =>
      d ← get_channel cs b;
      mret (<[ b := set_index d idx ]> cs, mkPollPoller channels pollfds)
    end.

(** The loop of [fillActiveChannels]. *)
Fixpoint fill_loop (cs : Channels) (p : PollPoller) (pfds : list PollFd) (numEvents : Z)
    (active : list Z) : outcome (Channels * list Z) :=
  match pfds with
  | [] => mret (cs, active)
  | pfd :: pfds =>
    if numEvents <=? 0 then mret (cs, active)
    else if 0 <? revents pfd then
      let it := channels_ p !! fd pfd in
      _ ← assertb 65 (bool_decide (it ≠ None));
      match it with
      | None => Fault BadDeref
      | Some a =>
        c ← get_channel cs a;
        _ ← assertb 67 (fd_ c =? fd pfd);
        fill_loop (<[ a := set_revents c (revents pfd) ]> cs) p pfds (numEvents - 1) (active ++ [a])
      end
    else fill_loop cs p pfds numEvents active
  end.

Definition fillActiveChannels (cs : Channels) (p : PollPoller) (numEvents : Z)
    (active : list Z) : outcome (Channels * list Z) :=
  fill_loop cs p (pollfds_ p) numEvents active.

(** poll(2) writes the [revents] fields and returns a count, or fails. *)
Inductive PollResult :=
  | Polled (revs : list Z) (numEvents : Z)
  | PollError (errno : Z).

Definition write_revents (l : list PollFd) (revs : list Z) : list PollFd :=
  zip_with (λ pfd r, mkPollFd (fd pfd) (events pfd) r) l revs.

Definition poll (cs : Channels) (p : PollPoller) (w : PollResult) (active : list Z) :
    outcome (Channels * PollPoller * list Z) :=
  match w with
  | Polled revs numEvents =>
    let p := mkPollPoller (channels_ p) (write_revents (pollfds_ p) revs) in
    if 0 <? numEvents then
      '(cs, active) ← fillActiveChannels cs p numEvents active;
      mret (cs, p, active)
    else mret (cs, p, active)
  | PollError _ => mret (cs, p, active)
  end.

#[export] Instance PollPoller_ops : PollerOps PollPoller := {
  poller_updateChannel := updateChannel;
  poller_removeChannel := removeChannel;
  poller_channels := channels_
}.

(** ** The invariant *)

(** The entry of a channel in [pollfds_]; [revents] is what poll(2) left. *)
Definition entry_ok (c : Channel) (pfd : PollFd) : Prop :=
  fd pfd = (if isNoneEvent c then - fd_ c - 1 else fd_ c) ∧ events pfd = events_ c.

(** The descriptor an entry stands for. *)
Definition owner_fd (pfd : PollFd) : Z := if fd pfd <? 0 then - fd pfd - 1 else fd pfd.

Record poll_ok (cs : Channels) (p : PollPoller) : Prop := {
  poll_registered f a : channels_ p !! f = Some a →
    ∃ c pfd, cs !! a = Some c ∧ fd_ c = f ∧ fd_valid f ∧ mask_ok (events_ c) ∧ 0 ≤ index_ c ∧
             pollfds_ p !! Z.to_nat (index_ c) = Some pfd ∧ entry_ok c pfd;
  poll_entries i pfd : pollfds_ p !! i = Some pfd →
    ∃ a c, channels_ p !! owner_fd pfd = Some a ∧ cs !! a = Some c ∧ index_ c = Z.of_nat i
}.

Lemma entry_owner c pfd : fd_valid (fd_ c) → entry_ok c pfd → owner_fd pfd = fd_ c.
Proof. intros [? _] [Hf _]. unfold owner_fd. rewrite Hf. repeat case_match; lia. Qed.

Lemma mask_i16 ev : mask_ok ev → i16 ev = ev.
Proof. by intros [->|[->|[->| ->]]]. Qed.

(** The entries stand for distinct descriptors, so [pollfds_.size()] fits an [int]. *)
Lemma poll_ok_fds cs p :
  poll_ok cs p → NoDup (owner_fd <$> pollfds_ p) ∧ ∀ f, f ∈ owner_fd <$> pollfds_ p →
  fd_valid f ∧ channels_ p !! f ≠ None.
Proof.
  intros Hok. split.
  - apply NoDup_alt.
    intros i j f (x & Hx & Hi)%list_lookup_fmap_Some (y & Hy & Hj)%list_lookup_fmap_Some.
    destruct (poll_entries _ _ Hok _ _ Hi) as (a & c & Ha & Hc & Hci).
    destruct (poll_entries _ _ Hok _ _ Hj) as (b & d & Hb & Hd & Hdj). subst f.
    simplify_eq. rewrite <- Hy in Hb. simplify_eq. lia.
  - intros f (x & -> & (i & Hi)%list_elem_of_lookup)%list_elem_of_fmap.
    destruct (poll_entries _ _ Hok _ _ Hi) as (a & c & Ha & _).
    destruct (poll_registered _ _ Hok _ _ Ha) as (? & ? & _ & _ & ? & _).
    split; [done|]. by rewrite Ha.
Qed.

Lemma fds_bound (l : list Z) : NoDup l → (∀ f, f ∈ l → fd_valid f) → size_of l ≤ 2 ^ 31 - 1.
Proof.
  intros Hnd Hl. assert (∀ f, f ∈ l → f ∈ seqZ 0 (2 ^ 31 - 1)) as Hin.
  { intros f [? ?]%Hl. apply elem_of_seqZ. lia. }
  pose proof (submseteq_length l _ (NoDup_submseteq _ _ Hnd Hin)) as Hlen.
  rewrite length_seqZ in Hlen. unfold size_of. lia.
Qed.

Lemma poll_ok_size cs p : poll_ok cs p → pollfds_size p ≤ 2 ^ 31 - 1.
Proof.
  intros [Hnd Hv]%poll_ok_fds. pose proof (fds_bound _ Hnd (λ f Hf, proj1 (Hv f Hf))) as Hb.
  unfold pollfds_size, size_of in *. by rewrite length_fmap in Hb.
Qed.

Lemma poll_ok_size_new cs p f :
  poll_ok cs p → fd_valid f → channels_ p !! f = None → pollfds_size p < 2 ^ 31 - 1.
Proof.
  intros [Hnd Hv]%poll_ok_fds Hf Hn.
  assert (NoDup (f :: (owner_fd <$> pollfds_ p))) as Hnd'.
  { apply NoDup_cons. split; [|done]. by intros [_ ?]%Hv. }
  pose proof (fds_bound _ Hnd') as Hb. unfold pollfds_size, size_of in *. simpl in Hb.
  rewrite length_fmap in Hb. enough (Z.of_nat (S (length (pollfds_ p))) ≤ 2 ^ 31 - 1) by lia.
  apply Hb. intros g [->|?]%elem_of_cons; [done|]. by apply Hv.
Qed.

Lemma size_int n : 0 ≤ n ≤ 2 ^ 31 - 1 → i32 n = n.
Proof. intros. apply to_signed_small; [lia|]. unfold in_signed. lia. Qed.

Lemma poll_index_inj cs p f1 a1 c1 f2 a2 c2 :
  poll_ok cs p → channels_ p !! f1 = Some a1 → cs !! a1 = Some c1 →
  channels_ p !! f2 = Some a2 → cs !! a2 = Some c2 → index_ c1 = index_ c2 → f1 = f2.
Proof.
  intros Hok H1 Hc1 H2 Hc2 Hi.
  destruct (poll_registered _ _ Hok _ _ H1) as (? & x & ? & <- & Hv1 & _ & _ & Hx & Ex).
  destruct (poll_registered _ _ Hok _ _ H2) as (? & y & ? & <- & Hv2 & _ & _ & Hy & Ey).
  simplify_eq. rewrite Hi in Hx. simplify_eq.
  rewrite <- (entry_owner _ _ Hv1 Ex). by apply entry_owner.
Qed.

Lemma poll_ok_frame cs cs' p :
  poll_ok cs p →
  (∀ f a c, channels_ p !! f = Some a → cs !! a = Some c →
     ∃ c', cs' !! a = Some c' ∧ fd_ c' = fd_ c ∧ events_ c' = events_ c ∧ index_ c' = index_ c) →
  poll_ok cs' p.
Proof.
  intros [Hreg Hent] Hfr. split.
  - intros f a Hch. destruct (Hreg _ _ Hch) as (c & pfd & Hc & Hf & ? & ? & ? & ? & He).
    destruct (Hfr _ _ _ Hch Hc) as (c' & Hc' & Ef & Eev & Eix). exists c', pfd.
    unfold entry_ok, isNoneEvent. rewrite Ef, Eev, Eix. done.
  - intros i pfd Hi. destruct (Hent _ _ Hi) as (a & c & Hch & Hc & ?).
    destruct (Hfr _ _ _ Hch Hc) as (c' & Hc' & _ & _ & Eix). exists a, c'.
    rewrite Eix. done.
Qed.

(** ** Adding a channel *)
Lemma poll_add_ok cs p a c ev :
  poll_ok cs p → cs !! a = Some c → channels_ p !! fd_ c = None → fd_valid (fd_ c) →
  index_ c = -1 → mask_ok ev → ev ≠ 0 →
  update cs p a ev ⇓ λ '(cs', p'),
    poll_ok cs' p' ∧ channels_ p' = <[ fd_ c := a ]> (channels_ p) ∧
    (∃ c', cs' = <[ a := c' ]> cs ∧ same_channel (set_added (set_events c ev) true) c').
Proof.
  intros Hok Hc Hch Hv Hi Hm Hev. pose proof (poll_ok_size_new _ _ _ Hok Hv Hch) as Hsz.
  unfold update, get_channel. rewrite Hc. run_ok.
  unfold poller_updateChannel, PollPoller_ops, updateChannel, get_channel.
  rewrite lookup_insert_eq. run_ok. cbn [index_ fd_ set_added set_events events_]. rewrite Hi.
  cbn [Z.ltb Z.compare]. rewrite bool_decide_true by done. run_ok.
  rewrite (mask_i16 ev Hm), insert_insert_eq. apply yields_ret.
  set (pfd := mkPollFd (fd_ c) ev 0). set (l := pollfds_ p).
  assert (pollfds_size_int (mkPollPoller (channels_ p) (l ++ [pfd])) - 1 = size_of l) as ->.
  { unfold pollfds_size_int, pollfds_size in *. cbn [pollfds_]. rewrite size_of_app, size_int.
    - unfold size_of. simpl. lia.
    - unfold l, size_of in *. simpl. lia. }
  split; [|split; [done|by eexists]].
  assert (∀ f b, channels_ p !! f = Some b → f ≠ fd_ c ∧ b ≠ a) as Hold.
  { intros f b Hb. destruct (poll_registered _ _ Hok _ _ Hb) as (d & ? & Hd & <- & _).
    split; congruence. }
  split; cbn [channels_ pollfds_ fd].
  - intros f b [[<- <-]|[Hne Hb]]%lookup_insert_Some.
    { eexists _, pfd. rewrite lookup_insert_eq. split; [done|]. unfold size_of. cbn.
      split_and!; [done|apply Hv..|done|lia| |].
      - rewrite Nat2Z.id. by apply list_lookup_middle.
      - unfold entry_ok, isNoneEvent. cbn. by rewrite (proj2 (Z.eqb_neq ev kNoneEvent)). }
    destruct (poll_registered _ _ Hok _ _ Hb) as (d & x & Hd & ? & ? & ? & ? & Hx & ?).
    exists d, x. rewrite lookup_insert_ne by (symmetry; by eapply Hold).
    split_and!; [done..| |done]. by apply lookup_app_l_Some.
  - intros i x [Hx|[Hlen Hx]]%lookup_app_Some.
    + destruct (poll_entries _ _ Hok _ _ Hx) as (b & d & Hb & Hd & ?).
      destruct (Hold _ _ Hb). exists b, d. rewrite !lookup_insert_ne by done. done.
    + destruct (i - length l)%nat as [|n] eqn:Ei; [|done]. injection Hx as <-.
      eexists a, _. assert (owner_fd pfd = fd_ c) as ->.
      { unfold owner_fd, pfd. simpl. destruct Hv. case_match; lia. }
      rewrite !lookup_insert_eq. split_and!; [done..|]. cbn. unfold size_of. lia.
Qed.

(** ** Changing the mask *)
Lemma pollfds_at_Some p idx pfd :
  0 ≤ idx → pollfds_ p !! Z.to_nat idx = Some pfd → pollfds_at p idx = Ok pfd.
Proof. intros ? Hl. unfold pollfds_at. rewrite Hl. case_match; [lia|done]. Qed.

(** A valid index passes the assertions of the sources. *)
Lemma index_in_range cs p idx pfd :
  poll_ok cs p → 0 ≤ idx → pollfds_ p !! Z.to_nat idx = Some pfd →
  (0 <=? idx) && (idx <? pollfds_size_int p) = true.
Proof.
  intros Hok Hi Hl%lookup_lt_Some. pose proof (poll_ok_size _ _ Hok). unfold pollfds_size_int.
  rewrite size_int by (unfold pollfds_size, size_of in *; lia).
  unfold pollfds_size, size_of. lia.
Qed.

Lemma poll_update_ok cs p a c ev :
  poll_ok cs p → cs !! a = Some c → channels_ p !! fd_ c = Some a → mask_ok ev →
  update cs p a ev ⇓ λ '(cs', p'),
    poll_ok cs' p' ∧ channels_ p' = channels_ p ∧
    (∃ c', cs' = <[ a := c' ]> cs ∧ same_channel (set_added (set_events c ev) true) c').
Proof.
  intros Hok Hc Hch Hm.
  destruct (poll_registered _ _ Hok _ _ Hch) as (? & pfd & ? & _ & Hv & _ & Hi & Hl & He).
  simplify_eq. pose proof (index_in_range _ _ _ _ Hok Hi Hl) as Hr.
  unfold update, get_channel. rewrite Hc. run_ok.
  unfold poller_updateChannel, PollPoller_ops, updateChannel, get_channel.
  rewrite lookup_insert_eq. run_ok. cbn [index_ fd_ set_added set_events events_].
  rewrite (proj2 (Z.ltb_ge (index_ c) 0) Hi), Hch, !bool_decide_true by done.
  do 2 run_ok. rewrite Hr. run_ok. rewrite (pollfds_at_Some _ _ _ Hi Hl). run_ok.
  yassert. { destruct He as [-> _]. case_match; lia. }
  rewrite (mask_i16 ev Hm). cbn [events revents]. apply yields_ret.
  split; [|split; [done|by eexists]].
  set (c' := set_added (set_events c ev) true). set (pfd' := if isNoneEvent c' then _ else _).
  assert (entry_ok c' pfd') as He'.
  { unfold entry_ok, pfd'. change (fd_ c') with (fd_ c). by destruct (isNoneEvent c'). }
  assert (∀ f b d, channels_ p !! f = Some b → f ≠ fd_ c → cs !! b = Some d →
            b ≠ a ∧ index_ d ≠ index_ c) as Hold.
  { intros f b d Hb Hne Hd. destruct (poll_registered _ _ Hok _ _ Hb) as (d' & ? & ? & Hf & _).
    simplify_eq. split; [congruence|]. intros E.
    by apply Hne, (poll_index_inj _ _ _ _ _ _ _ _ Hok Hb Hd Hch Hc). }
  split; cbn [channels_ pollfds_].
  - intros f b Hb. destruct (decide (f = fd_ c)) as [->|Hne].
    + assert (b = a) as -> by congruence. exists c', pfd'. rewrite lookup_insert_eq.
      split_and!; [done|done|apply Hv..|done|done| |done].
      apply list_lookup_insert_eq. by eapply lookup_lt_Some.
    + destruct (poll_registered _ _ Hok _ _ Hb) as (d & x & Hd & ? & ? & ? & ? & Hx & ?).
      destruct (Hold _ _ _ Hb Hne Hd). exists d, x. rewrite lookup_insert_ne by done.
      split_and!; [done..| |done]. rewrite list_lookup_insert_ne by lia. done.
  - intros i x [(<- & -> & _)|[Hne Hx]]%list_lookup_insert_Some.
    + rewrite (entry_owner c' x Hv He'). exists a, c'. rewrite lookup_insert_eq.
      split_and!; [done..|]. cbn. lia.
    + destruct (poll_entries _ _ Hok _ _ Hx) as (b & d & Hb & Hd & ?).
      exists b. destruct (decide (b = a)) as [->|].
      { simplify_eq. lia. }
      exists d. rewrite lookup_insert_ne by done. done.
Qed.

(** ** Removing a channel *)
Lemma swap_pop_lookup l idx pfd back i :
  (idx < length l - 1)%nat →
  swap_pop l idx pfd back !! i =
    if decide (i < length l - 1)%nat then if decide (i = idx) then Some back else l !! i else None.
Proof.
  intros Hidx. unfold swap_pop. destruct (decide _).
  - rewrite lookup_take_lt, list_lookup_insert_ne by lia. destruct (decide _) as [->|].
    + apply list_lookup_insert_eq. lia.
    + by apply list_lookup_insert_ne.
  - apply lookup_take_ge. lia.
Qed.

(** [cs1] and [l1] are [cs] and [l] with the entry of [fd] taken out and the
    entry that was last, if it is another one, moved to the free place. *)
Lemma poll_ok_removed cs p f a c cs1 l1 (move : nat → nat) :
  poll_ok cs p → channels_ p !! f = Some a → cs !! a = Some c →
  (∀ b d, channels_ p !! fd_ d = Some b → cs !! b = Some d → b ≠ a → 0 ≤ index_ d →
     ∃ d', cs1 !! b = Some d' ∧ fd_ d' = fd_ d ∧ events_ d' = events_ d ∧
           (index_ d < size_of (pollfds_ p) → index_ d' = Z.of_nat (move (Z.to_nat (index_ d))))) →
  (∀ i x, pollfds_ p !! i = Some x → i ≠ Z.to_nat (index_ c) → l1 !! move i = Some x) →
  (∀ j x, l1 !! j = Some x → ∃ i, j = move i ∧ i ≠ Z.to_nat (index_ c) ∧ pollfds_ p !! i = Some x) →
  poll_ok cs1 (mkPollPoller (delete f (channels_ p)) l1).
Proof.
  intros Hok Hch Hc Hcs Hl1 Hl1'.
  assert (∀ g b d, channels_ p !! g = Some b → g ≠ f → cs !! b = Some d →
            b ≠ a ∧ 0 ≤ index_ d < size_of (pollfds_ p) ∧ index_ d ≠ index_ c) as Hold.
  { intros g b d Hb Hne Hd.
    destruct (poll_registered _ _ Hok _ _ Hb) as (d' & x & ? & Hf & _ & _ & ? & Hx & _).
    destruct (poll_registered _ _ Hok _ _ Hch) as (c' & ? & ? & Hfc & _).
    simplify_eq. split; [congruence|]. apply lookup_lt_Some in Hx. unfold size_of.
    split; [lia|]. intros E. by apply Hne, (poll_index_inj _ _ _ _ _ _ _ _ Hok Hb Hd Hch Hc). }
  destruct (poll_registered _ _ Hok _ _ Hch) as (c' & y & ? & Hfc & Hvc & _ & Hic & Hy & Hey).
  simplify_eq. split; cbn [channels_ pollfds_].
  - intros g b [Hne Hb]%lookup_delete_Some.
    destruct (poll_registered _ _ Hok _ _ Hb) as (d & x & Hd & ? & Hvd & ? & ? & Hx & He).
    destruct (Hold _ _ _ Hb (not_eq_sym Hne) Hd) as (Hba & Hr & Hi).
    destruct (Hcs b d ltac:(congruence) Hd Hba) as (d' & Hd' & Ef & Eev & Eix); [lia|].
    exists d', x. unfold entry_ok, isNoneEvent. rewrite Ef, Eev, Eix, Nat2Z.id by lia.
    do 4 (split; [done|]). split; [lia|]. split; [|apply He]. apply Hl1; [done|lia].
  - intros j x (i & -> & Hne & Hx)%Hl1'.
    destruct (poll_entries _ _ Hok _ _ Hx) as (b & d & Hb & Hd & Hi). simplify_eq.
    assert (owner_fd x ≠ fd_ c) as Hox.
    { intros E. rewrite E in Hb. simplify_eq. lia. }
    destruct (Hold _ _ _ Hb Hox Hd) as (Hba & Hr & _).
    destruct (poll_registered _ _ Hok _ _ Hb) as (? & ? & ? & Hfd & _). simplify_eq.
    destruct (Hcs b d ltac:(congruence) Hd Hba) as (d' & Hd' & _ & _ & Eix); [lia|].
    exists b, d'. rewrite lookup_delete_ne by done. split_and!; [done..|].
    rewrite Eix by lia. by rewrite Hi, Nat2Z.id.
Qed.

(** The entry that goes is the last one. *)
Lemma poll_ok_pop cs p a c :
  poll_ok cs p → cs !! a = Some c → channels_ p !! fd_ c = Some a →
  index_ c = size_of (pollfds_ p) - 1 →
  poll_ok (<[ a := set_added c false ]> cs)
    (mkPollPoller (delete (fd_ c) (channels_ p)) (take (length (pollfds_ p) - 1) (pollfds_ p))).
Proof.
  intros Hok Hc Hch Hlast. eapply (poll_ok_removed _ _ _ _ _ _ _ id); [done..| | |].
  - intros b d _ Hd ? ?. exists d. rewrite lookup_insert_ne by done.
    split_and!; [done..|]. simpl. lia.
  - intros i x Hx Hne. simpl. rewrite lookup_take_lt; [done|].
    apply lookup_lt_Some in Hx. unfold size_of in *. lia.
  - intros j x [Hx ?]%lookup_take_Some. exists j. split_and!; [done| |done].
    unfold size_of in *. lia.
Qed.

(** The last entry takes the place of the one that goes. *)
Lemma poll_ok_swap cs p a c pfd b d back :
  poll_ok cs p → cs !! a = Some c → channels_ p !! fd_ c = Some a →
  0 ≤ index_ c < size_of (pollfds_ p) - 1 →
  pollfds_ p !! (length (pollfds_ p) - 1)%nat = Some back →
  channels_ p !! owner_fd back = Some b → cs !! b = Some d →
  index_ d = size_of (pollfds_ p) - 1 →
  poll_ok (<[ b := set_index d (index_ c) ]> (<[ a := set_added c false ]> cs))
    (mkPollPoller (delete (fd_ c) (channels_ p))
       (swap_pop (pollfds_ p) (Z.to_nat (index_ c)) pfd back)).
Proof.
  intros Hok Hc Hch Hi Hback Hb Hd Hid. unfold size_of in *.
  eapply (poll_ok_removed _ _ _ _ _ _ _
    (λ i, if decide (i = length (pollfds_ p) - 1)%nat then Z.to_nat (index_ c) else i));
    [done..| | |].
  - intros b' d' Hch' Hd' ? ?. destruct (decide (b' = b)) as [->|Hbb].
    { assert (d' = d) as -> by congruence. exists (set_index d (index_ c)).
      rewrite lookup_insert_eq. split_and!; [done..|]. intros _. rewrite decide_True by lia. cbn. lia. }
    exists d'. rewrite !lookup_insert_ne by done. split_and!; [done..|].
    intros Hlt'. destruct (decide _) as [E|]; [|lia].
    destruct Hbb. apply (inj Some). rewrite <- Hb, <- Hch'. f_equal.
    by eapply (poll_index_inj _ _ _ _ d' _ _ d Hok); [done|done|done|done|lia].
  - intros i x Hx Hne'. pose proof (lookup_lt_Some _ _ _ Hx).
    destruct (decide (i = length (pollfds_ p) - 1)%nat) as [->|].
    + rewrite swap_pop_lookup, decide_True, decide_True by lia. congruence.
    + rewrite swap_pop_lookup, decide_True, decide_False by lia. done.
  - intros j x. rewrite swap_pop_lookup by lia.
    destruct (decide _) as [Hj|]; [|done]. destruct (decide _) as [->|].
    + intros [= <-]. exists (length (pollfds_ p) - 1)%nat. rewrite decide_True by done.
      split_and!; [done|lia|done].
    + intros Hx. exists j. rewrite decide_False by lia. done.
Qed.

Lemma poll_remove_ok cs p a c :
  poll_ok cs p → cs !! a = Some c → channels_ p !! fd_ c = Some a → events_ c = 0 →
  remove cs p a ⇓ λ '(cs', p'),
    poll_ok cs' p' ∧ channels_ p' = delete (fd_ c) (channels_ p) ∧
    others_kept (channels_ p) a cs cs' ∧ cs' !! a = Some (set_added c false).
Proof.
  intros Hok Hc Hch Hz.
  destruct (poll_registered _ _ Hok _ _ Hch) as (? & pfd & ? & _ & Hv & _ & Hi & Hl & He).
  simplify_eq. pose proof (index_in_range _ _ _ _ Hok Hi Hl) as Hr.
  pose proof (lookup_lt_Some _ _ _ Hl) as Hlt.
  unfold remove, get_channel, isNoneEvent. rewrite Hc. run_ok. rewrite Hz.
  change (0 =? kNoneEvent) with true. run_ok.
  unfold poller_removeChannel, PollPoller_ops, removeChannel, get_channel, isNoneEvent.
  rewrite lookup_insert_eq. run_ok. cbn [index_ fd_ set_added events_]. rewrite Hch, Hz.
  rewrite !bool_decide_true by done. change (0 =? kNoneEvent) with true. do 3 run_ok.
  rewrite Hr. run_ok. rewrite (pollfds_at_Some _ _ _ Hi Hl). run_ok.
  yassert. { destruct He as [-> ->]. unfold isNoneEvent. rewrite Hz, Z.eqb_refl. done. }
  change (1 =? 1) with true. run_ok. unfold pollfds_size.
  destruct (Z.eqb_spec (index_ c) (size_of (pollfds_ p) - 1)) as [Elast|Elast].
  - apply yields_ret. split; [by apply poll_ok_pop|split; [done|split]].
    + apply others_kept_insert.
    + apply lookup_insert_eq.
  - destruct (lookup_lt_is_Some_2 (pollfds_ p) (length (pollfds_ p) - 1)) as [back Hback]; [lia|].
    rewrite (pollfds_at_Some p _ back) by (unfold size_of in *;
      first [lia|by replace (Z.to_nat _) with (length (pollfds_ p) - 1)%nat by lia]).
    run_ok. fold (owner_fd back).
    destruct (poll_entries _ _ Hok _ _ Hback) as (b & d & Hb & Hd & Hid).
    unfold size_of in *.
    assert (owner_fd back ≠ fd_ c) as Hne. { intros E. rewrite E in Hb. simplify_eq. lia. }
    assert (b ≠ a) as Hba. { intros ->. simplify_eq. lia. }
    rewrite lookup_delete_ne, Hb, lookup_insert_ne, Hd by done. run_ok. apply yields_ret.
    split; [eapply poll_ok_swap; unfold size_of; eauto; lia|split; [done|split]].
    + intros b' ?. destruct (decide (b' = b)) as [->|]; rewrite ?lookup_insert_eq.
      * rewrite Hd. destruct (poll_registered _ _ Hok _ _ Hb) as (? & _ & ? & ? & _).
        exists (set_index d (index_ c)). split_and!; [done..|]. congruence.
      * rewrite lookup_insert_ne by done. by apply (others_kept_insert (channels_ p)).
    + rewrite lookup_insert_ne by done. apply lookup_insert_eq.
Qed.

(** ** The interface *)

(** What poll(2) watches: it ignores entries with a negative descriptor. *)
Definition watched (p : PollPoller) : gmap Z Z :=
  list_to_map ((λ pfd, (fd pfd, events pfd)) <$> filter (λ pfd, 0 ≤ fd pfd) (pollfds_ p)).

Lemma watched_lookup cs p f ev :
  poll_ok cs p →
  watched p !! f = Some ev ↔ ∃ pfd, pfd ∈ pollfds_ p ∧ fd pfd = f ∧ events pfd = ev ∧ 0 ≤ f.
Proof.
  intros Hok. unfold watched. rewrite <- elem_of_list_to_map.
  - rewrite list_elem_of_fmap. setoid_rewrite list_elem_of_filter. split.
    + intros (pfd & [= -> ->] & ? & ?). eauto.
    + intros (pfd & ? & <- & <- & ?). eauto.
  - rewrite <- list_fmap_compose. destruct (poll_ok_fds _ _ Hok) as [Hnd _].
    apply NoDup_fmap_2_strong; [|by apply NoDup_filter, (NoDup_fmap_1 owner_fd)].
    intros x y [Hx (i & Hi)%list_elem_of_lookup]%list_elem_of_filter
      [Hy (j & Hj)%list_elem_of_lookup]%list_elem_of_filter E. simpl in E.
    assert (i = j); [|congruence].
    eapply (NoDup_lookup (owner_fd <$> pollfds_ p)); [done| |].
    + rewrite list_lookup_fmap, Hi. done.
    + rewrite list_lookup_fmap, Hj. simpl. unfold owner_fd. by rewrite E.
Qed.

#[export] Instance PollPoller_laws : PollerLaws PollPoller.
Proof.
  refine {| poller_ok := poll_ok; poller_watched := watched |}.
  - intros cs p f a Hok Hch.
    destruct (poll_registered _ _ Hok _ _ Hch) as (c & ? & ? & ? & ? & ? & _). eauto.
  - apply poll_ok_frame.
  - intros cs p f ev Hok Hne. rewrite (watched_lookup _ _ _ _ Hok). split.
    + intros (pfd & (i & Hi)%list_elem_of_lookup & Hf & Hev & Hpos).
      destruct (poll_entries _ _ Hok _ _ Hi) as (a & c & Ha & Hc & Hix).
      destruct (poll_registered _ _ Hok _ _ Ha) as (c' & pfd' & ? & _ & _ & _ & _ & Hl & [_ Eev]).
      simplify_eq. rewrite Hix, Nat2Z.id in Hl. simplify_eq.
      exists a, c. unfold owner_fd in Ha. rewrite (proj2 (Z.ltb_ge _ _) Hpos) in Ha. done.
    + intros (a & c & Ha & Hc & <-).
      destruct (poll_registered _ _ Hok _ _ Ha) as (c' & pfd & ? & <- & [? _] & _ & _ & Hl & [Ef Ee]).
      simplify_eq. exists pfd. rewrite Ef. unfold isNoneEvent.
      rewrite (proj2 (Z.eqb_neq _ kNoneEvent) Hne).
      split_and!; [by eapply list_elem_of_lookup_2|done..].
  - apply poll_add_ok.
  - apply poll_update_ok.
  - intros cs p a c Hok Hc Hch Hz. eapply yields_mono; [by apply poll_remove_ok|].
    intros [cs' p'] (? & ? & ? & ?). do 3 (split; [done|]). eexists. split; [done|reflexivity].
Defined.

(** ** Polling *)

(** The reports in the array, in its order. *)
Definition reports (p : PollPoller) (pfds : list PollFd) : list (Z * Z) :=
  omap (λ pfd, if 0 <? revents pfd then pair (revents pfd) <$> channels_ p !! fd pfd else None) pfds.

Definition fired (pfds : list PollFd) : Z := size_of (filter (λ pfd, 0 < revents pfd) pfds).

(** What poll(2) does: [revents] of an ignored entry is 0, and the result
    counts the entries with a report. *)
Definition polled_ok (p : PollPoller) (revs : list Z) (numEvents : Z) : Prop :=
  length revs = length (pollfds_ p) ∧
  (∀ i pfd, pollfds_ p !! i = Some pfd → fd pfd < 0 → revs !! i = Some 0) ∧
  numEvents = fired (write_revents (pollfds_ p) revs).

Lemma write_revents_lookup l revs i pfd :
  write_revents l revs !! i = Some pfd ↔
  ∃ x, l !! i = Some x ∧ revs !! i = Some (revents pfd) ∧ fd pfd = fd x ∧ events pfd = events x.
Proof.
  unfold write_revents. rewrite lookup_zip_with_Some. split.
  - intros (x & r & -> & ? & ?). eauto.
  - intros (x & ? & ? & Ef & Ee). exists x, (revents pfd). rewrite <- Ef, <- Ee. by destruct pfd.
Qed.

Lemma poll_ok_write cs p revs :
  poll_ok cs p → length revs = length (pollfds_ p) →
  poll_ok cs (mkPollPoller (channels_ p) (write_revents (pollfds_ p) revs)).
Proof.
  intros [Hreg Hent] Hlen. split; cbn [channels_ pollfds_].
  - intros f a Hch. destruct (Hreg _ _ Hch) as (c & x & ? & ? & ? & ? & ? & Hx & He).
    pose proof (lookup_lt_Some _ _ _ Hx).
    destruct (lookup_lt_is_Some_2 revs (Z.to_nat (index_ c))) as [r Hr]; [lia|].
    exists c, (mkPollFd (fd x) (events x) r). do 5 (split; [done|]). split; [|exact He].
    apply write_revents_lookup. eauto.
  - intros i pfd (x & Hx & _ & Ef & _)%write_revents_lookup.
    destruct (Hent _ _ Hx) as (a & c & ?). exists a, c. unfold owner_fd. by rewrite Ef.
Qed.

(** An entry with a report is one of a registered channel. *)
Definition entry_live (cs : Channels) (p : PollPoller) (pfd : PollFd) : Prop :=
  0 < revents pfd → ∃ a c, channels_ p !! fd pfd = Some a ∧ cs !! a = Some c ∧ fd_ c = fd pfd.

Lemma entries_live cs p :
  poll_ok cs p → (∀ pfd, pfd ∈ pollfds_ p → fd pfd < 0 → revents pfd = 0) →
  Forall (entry_live cs p) (pollfds_ p).
Proof.
  intros Hok Hneg. apply Forall_forall. intros pfd Hin Hrev.
  pose proof Hin as (i & Hi)%list_elem_of_lookup.
  destruct (poll_entries _ _ Hok _ _ Hi) as (a & c & Ha & Hc & _).
  destruct (poll_registered _ _ Hok _ _ Ha) as (c' & _ & Hc' & Hf & _).
  assert (owner_fd pfd = fd pfd) as E.
  { unfold owner_fd. case_match; [|done]. rewrite (Hneg _ Hin) in Hrev; lia. }
  rewrite E in *. simplify_eq. eauto.
Qed.

Lemma reports_snd_notin cs p pfd pfds a :
  NoDup (fd <$> pfd :: pfds) → Forall (entry_live cs p) (pfd :: pfds) → 0 < revents pfd →
  channels_ p !! fd pfd = Some a → a ∉ (reports p pfds).*2.
Proof.
  intros [Hnot _]%NoDup_cons [Hl Hls]%Forall_cons Hrev Ha
    ([r b] & -> & (x & Hx & Er)%list_elem_of_omap)%list_elem_of_fmap.
  destruct (Z.ltb_spec 0 (revents x)); [|done].
  apply fmap_Some in Er as (b' & Hb & [= -> ->]). simpl in *.
  rewrite Forall_forall in Hls.
  destruct (Hls x Hx) as (? & cx & ? & Hcx & Hfx); [lia|].
  destruct (Hl Hrev) as (? & c & ? & Hc & Hf). simplify_eq.
  apply Hnot, list_elem_of_fmap. exists x. split; [|done]. congruence.
Qed.

Lemma fired_cons pfd pfds :
  fired (pfd :: pfds) = (if 0 <? revents pfd then 1 else 0) + fired pfds.
Proof.
  unfold fired. destruct (Z.ltb_spec 0 (revents pfd)).
  - rewrite filter_cons_True by done. apply size_of_cons.
  - rewrite filter_cons_False by lia. done.
Qed.

(** Once the count is used up, no entry with a report is left. *)
Lemma reports_fired p pfds : fired pfds ≤ 0 → reports p pfds = [].
Proof.
  induction pfds as [|pfd pfds IH]; [done|]. rewrite fired_cons. intros Hf.
  pose proof (size_of_nonneg (filter (λ x, 0 < revents x) pfds)) as Hnn.
  fold (fired pfds) in Hnn. unfold reports. cbn [omap list_omap].
  destruct (0 <? revents pfd); [lia|]. apply IH. lia.
Qed.

Lemma poll_fill_spec cs p pfds numEvents active :
  poll_ok cs p → NoDup (fd <$> pfds) → Forall (entry_live cs p) pfds → numEvents = fired pfds →
  fill_loop cs p pfds numEvents active ⇓ λ '(cs', active'),
    poll_ok cs' p ∧ active' = active ++ (reports p pfds).*2 ∧ delivered cs cs' (reports p pfds).
Proof.
  revert cs numEvents active.
  induction pfds as [|pfd pfds IH]; intros cs numEvents active Hok Hnd Hlive ->.
  { simpl. rewrite app_nil_r. do 2 (split; [done|]). apply delivered_nil. }
  cbn [fill_loop]. destruct (Z.leb_spec (fired (pfd :: pfds)) 0) as [Hz|Hz].
  { rewrite reports_fired, app_nil_r by done. do 2 (split; [done|]). apply delivered_nil. }
  pose proof (proj2 (proj1 (NoDup_cons _ _) Hnd)) as Hnd'.
  apply Forall_cons in Hlive as Hl. destruct Hl as [Hl Hls]. rewrite fired_cons in *.
  destruct (Z.ltb_spec 0 (revents pfd)) as [Hrev|Hrev].
  - destruct (Hl Hrev) as (a & c & Ha & Hc & Hf).
    rewrite Ha, bool_decide_true by done. run_ok. unfold get_channel. rewrite Hc. run_ok.
    rewrite Hf, Z.eqb_refl. run_ok.
    assert (reports p (pfd :: pfds) = (revents pfd, a) :: reports p pfds) as ->.
    { unfold reports. cbn [omap list_omap]. rewrite (proj2 (Z.ltb_lt _ _) Hrev), Ha. done. }
    assert (a ∉ (reports p pfds).*2) as Hnew by by eapply reports_snd_notin.
    eapply yields_mono; [apply IH|].
    + apply (poll_ok_frame cs); [done|]. intros g b d _ Hd. destruct (decide (b = a)) as [->|].
      * rewrite lookup_insert_eq. eexists. split; [done|]. by simplify_eq.
      * rewrite lookup_insert_ne by done. eauto.
    + done.
    + eapply Forall_impl; [exact Hls|]. intros x Hx Hr. destruct (Hx Hr) as (b & d & Hb & Hd & Hfd).
      exists b. destruct (decide (b = a)) as [->|].
      * exists (set_revents c (revents pfd)). rewrite lookup_insert_eq. simplify_eq. done.
      * exists d. by rewrite lookup_insert_ne.
    + lia.
    + intros [cs' active'] (? & -> & ?). split; [done|].
      split; [by rewrite <- app_assoc|]. by eapply delivered_cons.
  - unfold reports. cbn [omap list_omap]. rewrite (proj2 (Z.ltb_ge _ _) Hrev). by apply IH.
Qed.

(** [PollPoller::poll] on what poll(2) wrote: no assertion fails, the scan
    of [pollfds_] may stop after [numEvents] reports without missing one, the
    active list gets exactly the channels with a report, in the order of the
    array, and only their [revents_] change. *)
Theorem poll_poll_delivers cs p revs numEvents active :
  poll_ok cs p → polled_ok p revs numEvents →
  poll cs p (Polled revs numEvents) active ⇓ λ '(cs', p', active'),
    poll_ok cs' p' ∧ active' = active ++ (reports p' (pollfds_ p')).*2 ∧
    delivered cs cs' (reports p' (pollfds_ p')).
Proof.
  intros Hok (Hlen & Hneg & Hn). unfold poll.
  set (p1 := mkPollPoller _ _).
  assert (poll_ok cs p1) as Hok1 by by apply poll_ok_write.
  assert (∀ pfd, pfd ∈ pollfds_ p1 → fd pfd < 0 → revents pfd = 0) as Hneg1.
  { intros pfd (i & (x & Hx & Hr & Ef & _)%write_revents_lookup)%list_elem_of_lookup Hlt.
    rewrite Ef in Hlt. specialize (Hneg _ _ Hx Hlt). congruence. }
  destruct (Z.ltb_spec 0 numEvents) as [Hpos|Hpos].
  - destruct (poll_ok_fds _ _ Hok1) as [Hnd _].
    change owner_fd with ((λ z, if z <? 0 then - z - 1 else z) ∘ fd) in Hnd.
    rewrite list_fmap_compose in Hnd. apply NoDup_fmap_1 in Hnd.
    ystep (poll_fill_spec cs p1 (pollfds_ p1) numEvents active Hok1 Hnd
             (entries_live _ _ Hok1 Hneg1) Hn).
    intros [cs' active'] (? & -> & ?). by apply yields_ret.
  - apply yields_ret. rewrite reports_fired by (rewrite Hn in Hpos; done).
    rewrite app_nil_r. do 2 (split; [done|]). apply delivered_nil.
Qed.

(** Two registered channels, the second of which is ignored. *)
Lemma poll_poll_delivers_witness :
  ∃ cs p revs numEvents, (poll_ok cs p ∧ polled_ok p revs numEvents) ∧
    poll cs p (Polled revs numEvents) [] ⇓ λ '(cs', p', active'),
      poll_ok cs' p' ∧ active' = [] ++ (reports p' (pollfds_ p')).*2 ∧
      delivered cs cs' (reports p' (pollfds_ p')).
Proof.
  exists ({[ 1 := set_index (set_added (set_events (Channel_new 5) 3) true) 0;
             2 := set_index (set_added (set_events (Channel_new 6) 0) true) 1 ]}),
    (mkPollPoller {[ 5 := 1; 6 := 2 ]} [mkPollFd 5 3 0; mkPollFd (-7) 0 0]), [1; 0], 1.
  apply conj_apply; [|intros [? ?]; by apply poll_poll_delivers].
  split; [split; cbn [channels_ pollfds_]|split_and!].
  - intros f a [[<- <-]|[_ [<- <-]%lookup_singleton_Some]]%lookup_insert_Some;
      eexists _, _; (split; [done|]); split_and!; try done; [by right; left|by left].
  - intros [|[|i]] pfd Hi; cbn in Hi; [injection Hi as <-..|done].
    + eexists 1, _. done.
    + eexists 2, _. done.
  - done.
  - intros [|[|i]] pfd Hi Hf; cbn in Hi; [injection Hi as <-..|done]; done.
  - done.
Defined.
