(* ===== verification/Pollers.v ===== *)
(** * The two pollers as one abstract poller (muduo/net/Poller.h)

    [EventLoop] works with any [Poller].  Here the sequence of channel
    operations a loop makes is run on an abstract description of the channels
    (which descriptor, which mask, registered or not), and every implementation
    of [PollerLaws] is shown to follow it: no operation of a legal sequence
    faults, and the operating system watches what the channels ask for. *)
From stdpp Require Import base numbers list gmap.
From S2P Require Import Prelude EPollPoller PollPoller Channel.
Open Scope Z_scope.
Open Scope muduo_scope.

Inductive ChannelOp :=
  | NewChannel (a fd : Z)
  | EnableReading (a : Z) | DisableReading (a : Z)
  | EnableWriting (a : Z) | DisableWriting (a : Z)
  | DisableAll (a : Z)
  | Remove (a : Z).

(** ** Running operations on a poller *)
Section Run.
Context `{PollerOps P}.

Definition apply_op (s : Channels * P) (op : ChannelOp) : outcome (Channels * P) :=
  let '(cs, p) := s in
  match op with
  | NewChannel a fd => mret (<[ a := Channel_new fd ]> cs, p)
  | EnableReading a => enableReading cs p a
  | DisableReading a => disableReading cs p a
  | EnableWriting a => enableWriting cs p a
  | DisableWriting a => disableWriting cs p a
  | DisableAll a => disableAll cs p a
  | Remove a => remove cs p a
  end.

Fixpoint apply_ops (s : Channels * P) (ops : list ChannelOp) : outcome (Channels * P) :=
  match ops with
  | [] => mret s
  | op :: ops => s ← apply_op s op; apply_ops s ops
  end.
End Run.

(** ** The abstract poller *)

Inductive Status := Fresh | Registered | Removed.

#[export] Instance Status_eq_dec : EqDecision Status.
Proof. solve_decision. Defined.

Record Entry := mkEntry { e_fd : Z; e_mask : Z; e_status : Status }.

Abbreviation Spec := (gmap Z Entry).

#[export] Instance fd_valid_dec fd : Decision (fd_valid fd).
Proof. unfold fd_valid. apply _. Defined.

(** No registered channel has this descriptor. *)
Definition fd_free (s : Spec) (fd : Z) : Prop :=
  map_Forall (λ _ e, ¬ (e_status e = Registered ∧ e_fd e = fd)) s.

(** A channel asks for [mask]: the first time with a non-empty mask, on a free
    descriptor; a removed channel is not used again. *)
Definition spec_mask (s : Spec) (a : Z) (f : Z → Z) : option Spec :=
  e ← s !! a;
  let mask := f (e_mask e) in
  match e_status e with
  | Fresh => guard (mask ≠ 0);; guard (fd_free s (e_fd e));;
             Some (<[ a := mkEntry (e_fd e) mask Registered ]> s)
  | Registered => Some (<[ a := mkEntry (e_fd e) mask Registered ]> s)
  | Removed => None
  end.

Definition spec_op (s : Spec) (op : ChannelOp) : option Spec :=
  match op with
  | NewChannel a fd =>
    guard (s !! a = None);; guard (fd_valid fd);; Some (<[ a := mkEntry fd 0 Fresh ]> s)
  | EnableReading a => spec_mask s a (λ m, Z.lor m kReadEvent)
  | DisableReading a => spec_mask s a (λ m, Z.ldiff m kReadEvent)
  | EnableWriting a => spec_mask s a (λ m, Z.lor m kWriteEvent)
  | DisableWriting a => spec_mask s a (λ m, Z.ldiff m kWriteEvent)
  | DisableAll a => spec_mask s a (λ _, kNoneEvent)
  | Remove a =>
    e ← s !! a;
    guard (e_status e = Registered);; guard (e_mask e = 0);;
    Some (<[ a := mkEntry (e_fd e) 0 Removed ]> s)
  end.

Definition spec_ops (s : Spec) (ops : list ChannelOp) : option Spec :=
  foldl (λ os op, s ← os; spec_op s op) (Some s) ops.

(** ** Simulation *)
Section Simulation.
Context `{PollerLaws P}.

Definition entry_rel (e : Entry) (c : Channel) : Prop :=
  fd_ c = e_fd e ∧ events_ c = e_mask e ∧ fd_valid (e_fd e) ∧ mask_ok (e_mask e) ∧
  (e_status e = Fresh → index_ c = -1).

Record simulates (s : Spec) (cs : Channels) (p : P) : Prop := {
  sim_ok : poller_ok cs p;
  sim_dom a : s !! a = None → cs !! a = None;
  sim_entry a e : s !! a = Some e → ∃ c, cs !! a = Some c ∧ entry_rel e c;
  sim_reg fd a : poller_channels p !! fd = Some a ↔
                 ∃ e, s !! a = Some e ∧ e_status e = Registered ∧ e_fd e = fd
}.

Lemma mask_ok_ops m :
  mask_ok m → mask_ok (Z.lor m kReadEvent) ∧ mask_ok (Z.ldiff m kReadEvent) ∧
  mask_ok (Z.lor m kWriteEvent) ∧ mask_ok (Z.ldiff m kWriteEvent) ∧ mask_ok kNoneEvent.
Proof. unfold mask_ok. intros [->|[->|[->| ->]]]; vm_compute; tauto. Qed.

(** The registration of [a] on its descriptor. *)
Lemma simulates_registered s cs cs' p p' a e mask c' :
  simulates s cs p → s !! a = Some e →
  poller_ok cs' p' → poller_channels p' = <[ e_fd e := a ]> (poller_channels p) →
  (e_status e = Registered ∨ fd_free s (e_fd e)) →
  cs' = <[ a := c' ]> cs → entry_rel (mkEntry (e_fd e) mask Registered) c' →
  simulates (<[ a := mkEntry (e_fd e) mask Registered ]> s) cs' p'.
Proof.
  intros [_ Hdom Hent Hreg] He Hok' Hch' Hst -> Hrel. split; [done|..].
  - intros b [? ?]%lookup_insert_None. rewrite lookup_insert_ne by done. auto.
  - intros b e' [[<- <-]|[Hne He']]%lookup_insert_Some.
    + exists c'. by rewrite lookup_insert_eq.
    + rewrite lookup_insert_ne by done. auto.
  - intros fd b. rewrite Hch'. destruct (decide (b = a)) as [->|Hne].
    + setoid_rewrite lookup_insert_eq. split.
      * intros [[<- _]|[? Hb]]%lookup_insert_Some; [by eexists|].
        apply Hreg in Hb as (e' & ? & ? & ?). by simplify_eq.
      * intros (? & [= <-] & _ & <-). by rewrite lookup_insert_eq.
    + setoid_rewrite (lookup_insert_ne s a b); [|done]. rewrite <- Hreg.
      rewrite lookup_insert_Some. split; [naive_solver|]. intros Hb. right. split; [|done].
      intros <-. destruct Hst as [Hst|Hst].
      * assert (poller_channels p !! e_fd e = Some a) by (apply Hreg; eauto). congruence.
      * apply Hreg in Hb as (e' & He' & ? & ?). by apply (Hst _ _ He').
Qed.

(** Every operation on the mask. *)
Lemma simulates_mask s cs p a f s' :
  simulates s cs p → spec_mask s a f = Some s' → (∀ m, mask_ok m → mask_ok (f m)) →
  (c ← get_channel cs a; update cs p a (f (events_ c))) ⇓ λ '(cs', p'), simulates s' cs' p'.
Proof.
  intros Hsim Hs Hf. unfold spec_mask in Hs.
  destruct (s !! a) as [e|] eqn:He; [|done]. cbn in Hs.
  destruct (sim_entry _ _ _ Hsim _ _ He) as (c & Hc & Hfd & Hev & Hv & Hm & Hidx).
  unfold get_channel. rewrite Hc. run_ok. rewrite Hev.
  assert (∀ c', same_channel (set_added (set_events c (f (e_mask e))) true) c' →
            entry_rel (mkEntry (e_fd e) (f (e_mask e)) Registered) c') as Hrel.
  { intros c' Hs'. rewrite Hs'. split_and!; cbn; auto; try apply Hv. done. }
  destruct (e_status e) eqn:Hst; [..|done].
  - apply guard_Some in Hs as [Hne Hs]. apply guard_Some in Hs as [Hfree [= <-]].
    eapply yields_mono; [apply (poller_add_ok cs p a c); auto|].
    + apply (sim_ok _ _ _ Hsim).
    + rewrite Hfd. apply eq_None_not_Some. intros [b (e' & He' & ? & ?)%(sim_reg _ _ _ Hsim)].
      by apply (Hfree _ _ He').
    + by rewrite Hfd.
    + intros [cs' p'] (Hok' & Hch & c' & -> & Hsame). rewrite Hfd in Hch.
      eapply simulates_registered; eauto.
  - injection Hs as <-.
    assert (poller_channels p !! fd_ c = Some a) as Hch0
      by (apply (sim_reg _ _ _ Hsim); eauto).
    eapply yields_mono; [apply (poller_update_ok cs p a c); auto|].
    + apply (sim_ok _ _ _ Hsim).
    + intros [cs' p'] (Hok' & Hch & c' & -> & Hsame).
      eapply simulates_registered; eauto. by rewrite <- Hfd, insert_id.
Qed.

Lemma simulates_remove s cs p a s' :
  simulates s cs p → spec_op s (Remove a) = Some s' →
  remove cs p a ⇓ λ '(cs', p'), simulates s' cs' p'.
Proof.
  intros Hsim Hs. simpl in Hs. destruct (s !! a) as [e|] eqn:He; [|done]. cbn in Hs.
  apply guard_Some in Hs as [Hst Hs]. apply guard_Some in Hs as [Hz [= <-]].
  destruct (sim_entry _ _ _ Hsim _ _ He) as (c & Hc & Hfd & Hev & Hv & Hm & Hidx).
  assert (poller_channels p !! fd_ c = Some a) as Hch0 by (apply (sim_reg _ _ _ Hsim); eauto).
  eapply yields_mono; [apply (poller_remove_ok cs p a c); try done;
    [apply (sim_ok _ _ _ Hsim)|congruence]|].
  intros [cs' p'] (Hok' & Hch & Hkept & c' & Hc' & Hsame). split; [done|..].
  - intros b [Hb ?]%lookup_insert_None. specialize (Hkept b).
    rewrite (sim_dom _ _ _ Hsim b Hb) in Hkept. auto.
  - intros b e' [[<- <-]|[Hne He']]%lookup_insert_Some.
    + exists c'. split; [done|]. rewrite Hsame. split_and!; cbn; auto; try apply Hv; congruence.
    + destruct (sim_entry _ _ _ Hsim _ _ He') as (d & Hd & Hfd' & Hev' & Hv' & Hm' & Hidx').
      specialize (Hkept b (not_eq_sym Hne)). rewrite Hd in Hkept.
      destruct Hkept as (d' & Hd' & Hsame' & Hun). exists d'. split; [done|].
      rewrite Hsame'. split_and!; cbn; auto; try apply Hv'. intros Hfresh.
      rewrite Hun; [auto|]. intros (e2 & ? & ? & _)%(sim_reg _ _ _ Hsim). congruence.
  - intros fd b. rewrite Hch, lookup_delete_Some, (sim_reg _ _ _ Hsim). split.
    + intros (Hne & e' & He' & ? & ?). exists e'. rewrite lookup_insert_ne by congruence. done.
    + intros (e' & [[<- <-]|[Hne He']]%lookup_insert_Some & ? & ?); [done|].
      split; [|by eauto]. intros Hfd'.
      assert (poller_channels p !! fd_ c = Some b) 
        by (apply (sim_reg _ _ _ Hsim); exists e'; split_and!; congruence).
      congruence.
Qed.

Lemma simulates_new s cs p a fd :
  simulates s cs p → s !! a = None → fd_valid fd →
  simulates (<[ a := mkEntry fd 0 Fresh ]> s) (<[ a := Channel_new fd ]> cs) p.
Proof.
  intros Hsim Ha Hfd. split.
  - apply (poller_ok_frame cs); [apply (sim_ok _ _ _ Hsim)|]. intros g b d _ Hd. exists d.
    rewrite lookup_insert_ne; [done|]. intros <-. by rewrite (sim_dom _ _ _ Hsim _ Ha) in Hd.
  - intros b [? ?]%lookup_insert_None. rewrite lookup_insert_ne by done.
    by apply (sim_dom _ _ _ Hsim).
  - intros b e [[<- <-]|[Hne He]]%lookup_insert_Some.
    + exists (Channel_new fd). rewrite lookup_insert_eq. split; [done|].
      split_and!; cbn; auto; try apply Hfd. by left.
    + rewrite lookup_insert_ne by done. by apply (sim_entry _ _ _ Hsim).
  - intros g b. rewrite (sim_reg _ _ _ Hsim). split.
    + intros (e & He & ?). exists e. rewrite lookup_insert_ne by congruence. done.
    + intros (e & [[<- <-]|[Hne He]]%lookup_insert_Some & Hst & ?); [done|eauto].
Qed.

Lemma simulates_op s cs p op s' :
  simulates s cs p → spec_op s op = Some s' →
  apply_op (cs, p) op ⇓ λ '(cs', p'), simulates s' cs' p'.
Proof.
  intros Hsim Hs. destruct op; cbn [apply_op spec_op] in *.
  - apply guard_Some in Hs as [? Hs]. apply guard_Some in Hs as [? [= <-]].
    by apply simulates_new.
  - eapply (simulates_mask _ _ _ _ _ _ Hsim Hs). intros m Hm. by apply mask_ok_ops.
  - eapply (simulates_mask _ _ _ _ _ _ Hsim Hs). intros m Hm. by apply mask_ok_ops.
  - eapply (simulates_mask _ _ _ _ _ _ Hsim Hs). intros m Hm. by apply mask_ok_ops.
  - eapply (simulates_mask _ _ _ _ _ _ Hsim Hs). intros m Hm. by apply mask_ok_ops.
  - pose proof (simulates_mask _ _ _ _ _ _ Hsim Hs ltac:(intros; by left)) as Hm.
    unfold disableAll, get_channel in *.
    destruct (s !! a) as [e|] eqn:He; [|by unfold spec_mask in Hs; rewrite He in Hs].
    destruct (sim_entry _ _ _ Hsim _ _ He) as (c & Hc & _). by rewrite Hc in Hm.
  - by eapply simulates_remove.
Qed.

Lemma spec_ops_cons s op ops : spec_ops s (op :: ops) = s' ← spec_op s op; spec_ops s' ops.
Proof.
  unfold spec_ops. simpl. destruct (spec_op s op) as [s'|]; [done|].
  simpl. by induction ops.
Qed.

Lemma simulates_ops s cs p ops s' :
  simulates s cs p → spec_ops s ops = Some s' →
  apply_ops (cs, p) ops ⇓ λ '(cs', p'), simulates s' cs' p'.
Proof.
  revert s cs p. induction ops as [|op ops IH]; intros s cs p Hsim Hs.
  { by injection Hs as <-. }
  rewrite spec_ops_cons in Hs. destruct (spec_op s op) as [s1|] eqn:E1; [|done].
  cbn [apply_ops]. ystep (simulates_op s cs p op s1 Hsim E1). intros [cs1 p1] Hsim1. by eapply IH.
Qed.

Lemma simulates_watched s cs p fd mask :
  simulates s cs p → mask ≠ 0 →
  poller_watched p !! fd = Some mask ↔ ∃ a, s !! a = Some (mkEntry fd mask Registered).
Proof.
  intros Hsim Hne. rewrite (poller_ok_watched cs p fd mask (sim_ok _ _ _ Hsim) Hne). split.
  - intros (a & c & (e & He & Hst & Hfd)%(sim_reg _ _ _ Hsim) & Hc & Hev). exists a.
    destruct (sim_entry _ _ _ Hsim _ _ He) as (c' & Hc' & _ & Hev' & _).
    rewrite He. destruct e. simpl in *. congruence.
  - intros (a & He). destruct (sim_entry _ _ _ Hsim _ _ He) as (c & Hc & _ & Hev & _).
    exists a, c. split_and!; [|done..]. apply (sim_reg _ _ _ Hsim). eauto.
Qed.

Lemma simulates_empty p : poller_ok ∅ p → poller_channels p = ∅ → simulates ∅ ∅ p.
Proof.
  intros Hok Hch. split; [done|done|done|]. intros fd a. rewrite Hch. split; [done|].
  by intros (? & ? & _).
Qed.
End Simulation.

(** The new pollers. *)
Lemma epoll_new_ok {K} `{EpollKernelLaws K} k :
  interest k = ∅ → simulates ∅ ∅ (EPollPoller_new k).
Proof.
  intros Hk. apply simulates_empty; [|done]. split; [done|]. intros fd _. cbn. by rewrite Hk.
Qed.

Lemma poll_new_ok : simulates ∅ ∅ PollPoller_new.
Proof. apply simulates_empty; [|done]. split; [done|]. by intros i pfd. Qed.

(** C6. [EPollPoller] and [PollPoller] are interchangeable: a sequence of
    channel operations that is legal for the abstract poller (fresh addresses,
    a free descriptor and a non-empty mask at registration, an empty mask at
    removal, no use after removal) runs on both without a failed assertion or
    a fatal epoll_ctl error, for every kernel that behaves as documented, and
    afterwards the kernel watches, for both, exactly the descriptors and
    non-empty masks the registered channels ask for. *)
Theorem pollers_agree {K} `{EpollKernelLaws K} (k : K) ops s :
  interest k = ∅ → spec_ops ∅ ops = Some s →
  (apply_ops (∅, EPollPoller_new k) ops ⇓ λ '(_, p), ∀ fd mask, mask ≠ 0 →
     poller_watched p !! fd = Some mask ↔ ∃ a, s !! a = Some (mkEntry fd mask Registered)) ∧
  (apply_ops (∅, PollPoller_new) ops ⇓ λ '(_, p), ∀ fd mask, mask ≠ 0 →
     poller_watched p !! fd = Some mask ↔ ∃ a, s !! a = Some (mkEntry fd mask Registered)).
Proof.
  intros Hk Hs. split; (eapply yields_mono; [eapply simulates_ops; [|done]|]).
  - by apply epoll_new_ok.
  - intros [cs p] Hsim fd mask. by apply (simulates_watched s cs).
  - apply poll_new_ok.
  - intros [cs p] Hsim fd mask. by apply (simulates_watched s cs).
Qed.

(** Three channels, with the removal of the first one. *)
Definition sample_ops : list ChannelOp :=
  [NewChannel 1 5; EnableReading 1; NewChannel 2 6; EnableReading 2; EnableWriting 2;
   NewChannel 3 7; EnableWriting 3; DisableAll 1; DisableReading 2; Remove 1].
Definition sample_spec : Spec :=
  {[ 1 := mkEntry 5 0 Removed; 2 := mkEntry 6 4 Registered; 3 := mkEntry 7 4 Registered ]}.

Lemma pollers_agree_witness :
  (interest (∅ : gmap Z (Z * Z)) = ∅ ∧ spec_ops ∅ sample_ops = Some sample_spec) ∧
  apply_ops (∅, PollPoller_new) sample_ops ⇓ λ '(_, p), ∀ fd mask, mask ≠ 0 →
     poller_watched p !! fd = Some mask ↔ ∃ a, sample_spec !! a = Some (mkEntry fd mask Registered).
Proof.
  split; [split; [done|vm_compute; reflexivity]|].
  apply (pollers_agree (∅ : gmap Z (Z * Z)) sample_ops sample_spec); [done|vm_compute; reflexivity].
Defined.

(** A removed channel keeps its index in [PollPoller], so it cannot be used
    again; [EPollPoller] resets the index and accepts it. *)
Theorem readd_after_remove_differs :
  let ops := [NewChannel 1 5; EnableReading 1; DisableAll 1; Remove 1; EnableReading 1] in
  apply_ops (∅, PollPoller_new) ops = Fault (AssertFailure 95) ∧
  (s ← apply_ops (∅, EPollPoller_new (∅ : gmap Z (Z * Z))) ops; mret (interest (epoll_ s.2)))
    = Ok {[ 5 := (3, 1) ]}.
Proof. split; vm_compute; reflexivity. Qed.

(** A channel registered with the empty mask cannot be removed from [PollPoller]. *)
Theorem poll_empty_registration_stuck :
  apply_ops (∅, PollPoller_new) [NewChannel 1 5; DisableAll 1; Remove 1]
    = Fault (AssertFailure 122).
Proof. vm_compute. reflexivity. Qed.
