(* ===== verification/EventLoop.v ===== *)
(** * The reactor (muduo/net/EventLoop.h, EventLoop.cc)

    The loop thread and any number of other threads run against the members of
    one [EventLoop].  Each thread is a program of atomic instructions; the body
    of every member function is compiled to the instructions that other threads
    can be interleaved with (the push under [mutex_], the test and the wakeup
    that follow it, the store to [quit_]).  The loop thread moreover has the
    control state of [EventLoop::loop].  Callbacks are arbitrary programs that
    call back into the loop.  The eventfd is a parameter with its documented
    behaviour. *)
From stdpp Require Import base numbers list gmap.
From S2P Require Import Prelude Channel.
Open Scope Z_scope.
Open Scope muduo_scope.

(** ** The eventfd *)

Class EventFd (E : Type) := {
  eventfd_new : E;                  (* eventfd(0, EFD_NONBLOCK | EFD_CLOEXEC) *)
  eventfd_write : E → E * Z;        (* write of the value 1, and its result *)
  eventfd_read : E → E * Z;
  readable : E → bool
}.

(** eventfd(2): a write makes the descriptor readable (also when it fails with
    EAGAIN, because then the counter is at its maximum); a read resets it. *)
Class EventFdLaws (E : Type) `{EventFd E} := {
  readable_new : readable eventfd_new = false;
  readable_write e : readable (eventfd_write e).1 = true;
  readable_read e : readable (eventfd_read e).1 = false
}.

(** The kernel's 64-bit counter. *)
Definition eventfd_max : N := 2 ^ 64 - 2.

#[export] Instance counter_eventfd : EventFd N := {
  eventfd_new := 0%N;
  eventfd_write e := if (e <? eventfd_max)%N then (N.succ e, 8) else (e, -1);
  eventfd_read e := if (0 <? e)%N then (0%N, 8) else (e, -1);
  readable e := (0 <? e)%N
}.

#[export] Instance counter_eventfd_laws : EventFdLaws N.
Proof.
  split; [done|..]; intros e; simpl.
  - destruct (N.ltb_spec e eventfd_max) as [?|Hmax]; apply N.ltb_lt; [cbn; lia|].
    cbn. unfold eventfd_max in Hmax. lia.
  - destruct (N.ltb_spec 0 e) as [?|?]; apply N.ltb_ge; cbn; lia.
Qed.

(** ** Callbacks *)

(** A [Functor] has an identity and calls back into the loop. *)
Inductive Functor := Fn (id : Z) (body : list Call)
with Call :=
  | RunInLoop (f : Functor)
  | QueueInLoop (f : Functor)
  | Quit.

Definition body (f : Functor) : list Call := let '(Fn _ b) := f in b.

(** ** The class *)

Record EventLoop (E : Type) := mkEventLoop {
  looping_ : bool;
  quit_ : bool;
  eventHandling_ : bool;
  callingPendingFunctors_ : bool;
  iteration_ : Z;
  threadId_ : nat;
  wakeupFd_ : E;
  activeChannels_ : list Z;
  currentActiveChannel_ : option Z;
  pendingFunctors_ : list Functor
}.
Arguments mkEventLoop {E} _ _ _ _ _ _ _ _ _ _.
Arguments looping_ {E} _.
Arguments quit_ {E} _.
Arguments eventHandling_ {E} _.
Arguments callingPendingFunctors_ {E} _.
Arguments iteration_ {E} _.
Arguments threadId_ {E} _.
Arguments wakeupFd_ {E} _.
Arguments activeChannels_ {E} _.
Arguments currentActiveChannel_ {E} _.
Arguments pendingFunctors_ {E} _.

Definition EventLoop_new `{EventFd E} (tid : nat) : EventLoop E :=
  mkEventLoop false false false false 0 tid eventfd_new [] None [].

Section Setters.
Context {E : Type}.
Implicit Types l : EventLoop E.

Definition set_looping l b : EventLoop E :=
  mkEventLoop b (quit_ l) (eventHandling_ l) (callingPendingFunctors_ l) (iteration_ l)
    (threadId_ l) (wakeupFd_ l) (activeChannels_ l) (currentActiveChannel_ l) (pendingFunctors_ l).
Definition set_quit l b : EventLoop E :=
  mkEventLoop (looping_ l) b (eventHandling_ l) (callingPendingFunctors_ l) (iteration_ l)
    (threadId_ l) (wakeupFd_ l) (activeChannels_ l) (currentActiveChannel_ l) (pendingFunctors_ l).
Definition set_calling l b : EventLoop E :=
  mkEventLoop (looping_ l) (quit_ l) (eventHandling_ l) b (iteration_ l)
    (threadId_ l) (wakeupFd_ l) (activeChannels_ l) (currentActiveChannel_ l) (pendingFunctors_ l).
Definition set_wakeupFd l e : EventLoop E :=
  mkEventLoop (looping_ l) (quit_ l) (eventHandling_ l) (callingPendingFunctors_ l) (iteration_ l)
    (threadId_ l) e (activeChannels_ l) (currentActiveChannel_ l) (pendingFunctors_ l).
Definition set_pending l fs : EventLoop E :=
  mkEventLoop (looping_ l) (quit_ l) (eventHandling_ l) (callingPendingFunctors_ l) (iteration_ l)
    (threadId_ l) (wakeupFd_ l) (activeChannels_ l) (currentActiveChannel_ l) fs.
(** The scratch variables of one turn of [loop]. *)
Definition set_active l (handling : bool) (it : Z) (active : list Z) (cur : option Z) : EventLoop E :=
  mkEventLoop (looping_ l) (quit_ l) handling (callingPendingFunctors_ l) it
    (threadId_ l) (wakeupFd_ l) active cur (pendingFunctors_ l).
End Setters.

Definition isInLoopThread {E} (l : EventLoop E) (tid : nat) : bool := bool_decide (threadId_ l = tid).
Definition queueSize {E} (l : EventLoop E) : nat := length (pendingFunctors_ l).

(** ** Member functions that touch the poller *)
Section Channels.
Context {E : Type} `{PollerOps P}.

(** [assertInLoopThread] stops the process with LOG_FATAL. *)
Definition assertInLoopThread (l : EventLoop E) (tid : nat) : outcome unit :=
  if isInLoopThread l tid then Ok tt else Fault (Fatal 229).

Definition updateChannel (l : EventLoop E) (tid : nat) (cs : Channels) (p : P) (a : Z) :
    outcome (Channels * P) :=
  _ ← assertInLoopThread l tid; poller_updateChannel cs p a.

Definition removeChannel (l : EventLoop E) (tid : nat) (cs : Channels) (p : P) (a : Z) :
    outcome (Channels * P) :=
  _ ← assertInLoopThread l tid;
  _ ← (if eventHandling_ l then
         assertb 214 (bool_decide (currentActiveChannel_ l = Some a) ||
                      negb (bool_decide (a ∈ activeChannels_ l)))
       else mret tt);
  poller_removeChannel cs p a.
End Channels.

(** ** Instructions *)

Inductive Instr :=
  | ICall (c : Call)
  | IPush (f : Functor)       (* the critical section of queueInLoop *)
  | IWakeIf                   (* if (!isInLoopThread() || callingPendingFunctors_) wakeup(); *)
  | ISetQuit                  (* quit_ = true; *)
  | IWakeIfForeign            (* if (!isInLoopThread()) wakeup(); *)
  | IHandleRead.              (* the read callback of wakeupChannel_ *)

Section Instructions.
Context {E : Type} `{EventFd E}.
Implicit Types l : EventLoop E.

(** A short write is only logged. *)
Definition wakeup l : EventLoop E :=
  let '(e, n) := eventfd_write (wakeupFd_ l) in set_wakeupFd l e.

Definition handleRead l : EventLoop E :=
  let '(e, n) := eventfd_read (wakeupFd_ l) in set_wakeupFd l e.

Definition queueInLoop (f : Functor) : list Instr := [IPush f; IWakeIf].

Definition quit : list Instr := [ISetQuit; IWakeIfForeign].

Definition runInLoop l (tid : nat) (f : Functor) : list Instr :=
  if isInLoopThread l tid then ICall <$> body f else queueInLoop f.

Definition call l (tid : nat) (c : Call) : list Instr :=
  match c with
  | RunInLoop f => runInLoop l tid f
  | QueueInLoop f => queueInLoop f
  | Quit => quit
  end.

(** One instruction of thread [tid]: the new state, and what it has to do next. *)
Definition exec (tid : nat) (i : Instr) l : EventLoop E * list Instr :=
  match i with
  | ICall c => (l, call l tid c)
  | IPush f => (set_pending l (pendingFunctors_ l ++ [f]), [])
  | IWakeIf =>
    (if negb (isInLoopThread l tid) || callingPendingFunctors_ l then wakeup l else l, [])
  | ISetQuit => (set_quit l true, [])
  | IWakeIfForeign => (if negb (isInLoopThread l tid) then wakeup l else l, [])
  | IHandleRead => (handleRead l, [])
  end.
End Instructions.

(** ** The loop thread *)

Inductive Control :=
  | NotStarted (k : list Instr)                   (* before loop(); [k]: what is left to do *)
  | Test                                          (* while (!quit_) *)
  | Polling                                       (* poller_->poll(...) *)
  | Handling (rest : list Z) (k : list Instr)     (* the active channels *)
  | BeforeSwap                                    (* doPendingFunctors, flag set *)
  | Running (rest : list Functor) (k : list Instr)(* the functors of this turn *)
  | Stopped.

(** [sent]: every functor pushed, in the order of the critical sections;
    [ran]: every functor doPendingFunctors has started. *)
Record System (E : Type) := mkSystem {
  lp : EventLoop E;
  pc : Control;
  others : gmap nat (list Instr);
  sent : list Functor;
  ran : list Functor
}.
Arguments mkSystem {E} _ _ _ _ _.
Arguments lp {E} _.
Arguments pc {E} _.
Arguments others {E} _.
Arguments sent {E} _.
Arguments ran {E} _.

Definition pushes (i : Instr) : list Functor := if i is IPush f then [f] else [].

(** The address of [wakeupChannel_]. *)
Definition wakeupChannel_ : Z := 0.

Section Loop.
Context {E : Type} `{EventFd E}.
(** What the read, write, close and error callbacks of a channel do. *)
Variable handler : Z → list Call.

Definition channel_code (a : Z) : list Instr :=
  if a =? wakeupChannel_ then [IHandleRead] else ICall <$> handler a.

(** The loop thread runs one instruction of the callback it is in. *)
Definition in_callback (s : System E) (i : Instr) (back : list Instr → Control) (k : list Instr) :
    System E :=
  let '(l, next) := exec (threadId_ (lp s)) i (lp s) in
  mkSystem l (back (next ++ k)) (others s) (sent s ++ pushes i) (ran s).

(** One step of the loop thread; [active] is what [poll] reports. *)
Definition loop_step (active : list Z) (s : System E) : option (System E) :=
  let l := lp s in
  match pc s with
  | NotStarted (i :: k) => Some (in_callback s i NotStarted k)
  | NotStarted [] =>
    Some (mkSystem (set_quit (set_looping l true) false) Test (others s) (sent s) (ran s))
  | Test =>
    if quit_ l then Some (mkSystem (set_looping l false) Stopped (others s) (sent s) (ran s))
    else Some (mkSystem (set_active l (eventHandling_ l) (iteration_ l) [] (currentActiveChannel_ l))
                 Polling (others s) (sent s) (ran s))
  | Polling =>
    Some (mkSystem (set_active l true (iteration_ l + 1) active (currentActiveChannel_ l))
            (Handling active []) (others s) (sent s) (ran s))
  | Handling rest k =>
    match k, rest with
    | i :: k, _ => Some (in_callback s i (Handling rest) k)
    | [], a :: rest =>
      Some (mkSystem (set_active l true (iteration_ l) (activeChannels_ l) (Some a))
              (Handling rest (channel_code a)) (others s) (sent s) (ran s))
    | [], [] =>
      Some (mkSystem (set_calling (set_active l false (iteration_ l) (activeChannels_ l) None) true)
              BeforeSwap (others s) (sent s) (ran s))
    end
  | BeforeSwap =>
    Some (mkSystem (set_pending l []) (Running (pendingFunctors_ l) []) (others s) (sent s) (ran s))
  | Running rest k =>
    match k, rest with
    | i :: k, _ => Some (in_callback s i (Running rest) k)
    | [], f :: rest =>
      Some (mkSystem l (Running rest (ICall <$> body f)) (others s) (sent s) (ran s ++ [f]))
    | [], [] => Some (mkSystem (set_calling l false) Test (others s) (sent s) (ran s))
    end
  | Stopped => None
  end.

(** One instruction of another thread. *)
Definition thread_step (t : nat) (s : System E) : option (System E) :=
  guard (t ≠ threadId_ (lp s));;
  match others s !! t with
  | Some (i :: k) =>
    let '(l, next) := exec t i (lp s) in
    Some (mkSystem l (pc s) (<[ t := next ++ k ]> (others s)) (sent s ++ pushes i) (ran s))
  | _ => None
  end.

(** Another thread begins a call of a member function. *)
Definition thread_call (t : nat) (c : Call) (s : System E) : option (System E) :=
  guard (t ≠ threadId_ (lp s));;
  guard (default [] (others s !! t) = []);;
  Some (mkSystem (lp s) (pc s) (<[ t := [ICall c] ]> (others s)) (sent s) (ran s)).

Inductive step : System E → System E → Prop :=
  | step_loop s active s' : loop_step active s = Some s' → step s s'
  | step_thread s t s' : thread_step t s = Some s' → step s s'
  | step_call s t c s' : thread_call t c s = Some s' → step s s'.

Definition init (tid : nat) (prologue : list Call) : System E :=
  mkSystem (EventLoop_new tid) (NotStarted (ICall <$> prologue)) ∅ [] [].

Definition reachable (tid : nat) : System E → Prop := rtc step (init tid []).
End Loop.
