(* ===== verification/EventLoopSafety.v ===== *)
(** * What the reactor promises (muduo/net/EventLoop.cc)

    Invariants of every interleaving of the loop thread with other threads:
    queued functors are run in the order of their critical sections, each once,
    and a functor or a [quit] never waits for an unrelated event, because the
    loop cannot block in [poll] while one is pending.  Then progress: one turn
    of the loop runs everything that was pending. *)
From stdpp Require Import base numbers list gmap.
From S2P Require Import Prelude Channel EventLoop.
Open Scope Z_scope.
Open Scope muduo_scope.

(** ** Code of other threads *)

(** A push is followed by its test, a store to [quit_] too, and only the loop
    reads the eventfd. *)
Fixpoint paired (k : list Instr) : Prop :=
  match k with
  | [] => True
  | IPush _ :: k' => head k' = Some IWakeIf ∧ paired k'
  | ISetQuit :: k' => head k' = Some IWakeIfForeign ∧ paired k'
  | IHandleRead :: _ => False
  | _ :: k' => paired k'
  end.

Lemma paired_calls cs k : paired k → paired ((ICall <$> cs) ++ k).
Proof. by induction cs. Qed.

(** How many instructions a callback executes in the loop thread, at most. *)
Fixpoint functor_weight (f : Functor) : nat :=
  let '(Fn _ b) := f in
  (fix go (cs : list Call) : nat :=
     match cs with [] => O | c :: cs => (call_weight c + go cs)%nat end) b
with call_weight (c : Call) : nat :=
  match c with RunInLoop f => (3 + functor_weight f)%nat | QueueInLoop _ | Quit => 3%nat end.
Fixpoint calls_weight (cs : list Call) : nat :=
  match cs with [] => O | c :: cs => (call_weight c + calls_weight cs)%nat end.
Lemma functor_weight_body f : functor_weight f = calls_weight (body f).
Proof. by destruct f as [id b]. Qed.
Definition instr_weight (i : Instr) : nat := if i is ICall c then call_weight c else 1%nat.
Fixpoint code_weight (k : list Instr) : nat :=
  match k with [] => O | i :: k => (instr_weight i + code_weight k)%nat end.

Definition waker (i : Instr) : bool :=
  match i with IWakeIf | IWakeIfForeign => true | _ => false end.

Section Safety.
Context {E : Type} `{EventFdLaws E}.
Variable handler : Z → list Call.
Implicit Types (s : System E) (l : EventLoop E).

Lemma paired_exec tid i k l : paired (i :: k) → paired ((exec tid i l).2 ++ k).
Proof.
  destruct i as [[f|f|]| | | | |]; simpl; try tauto.
  unfold runInLoop. case_match; [by apply paired_calls|]. simpl. tauto.
Qed.

Lemma wakeup_readable l : readable (wakeupFd_ (wakeup l)) = true.
Proof.
  unfold wakeup. pose proof (readable_write (wakeupFd_ l)) as Hr.
  by destruct (eventfd_write (wakeupFd_ l)).
Qed.

(** What one instruction leaves alone. *)
Lemma exec_frame tid i l :
  threadId_ (exec tid i l).1 = threadId_ l ∧
  callingPendingFunctors_ (exec tid i l).1 = callingPendingFunctors_ l ∧
  pendingFunctors_ (exec tid i l).1 = pendingFunctors_ l ++ pushes i ∧
  (i ≠ ISetQuit → quit_ (exec tid i l).1 = quit_ l) ∧
  (i ≠ IHandleRead → readable (wakeupFd_ l) = true → readable (wakeupFd_ (exec tid i l).1) = true).
Proof.
  pose proof (wakeup_readable l) as Hw. unfold wakeup in Hw.
  destruct i; simpl; unfold wakeup, handleRead;
    destruct (eventfd_write (wakeupFd_ l)), (eventfd_read (wakeupFd_ l));
    repeat case_match; simpl in *; rewrite ?app_nil_r; auto; by split_and!.
Qed.

(** A test of another thread, or of the loop while it runs functors, wakes the loop. *)
Lemma exec_wakes tid i l :
  waker i → (tid ≠ threadId_ l ∨ i = IWakeIf ∧ callingPendingFunctors_ l = true) →
  readable (wakeupFd_ (exec tid i l).1) = true.
Proof.
  intros Hi Ht.
  assert (exec tid i l = (wakeup l, [])) as ->; [|apply wakeup_readable].
  unfold exec, isInLoopThread. destruct Ht as [Ht|[-> ->]].
  - rewrite bool_decide_false by congruence. by destruct i.
  - by rewrite orb_true_r.
Qed.

(** ** The invariant *)

(** The eventfd is readable, or a thread is about to make it so. *)
Definition awake s : Prop :=
  readable (wakeupFd_ (lp s)) = true ∨
  ∃ t i k, t ≠ threadId_ (lp s) ∧ others s !! t = Some (i :: k) ∧ waker i.

Definition batch (c : Control) : list Functor := if c is Running fs _ then fs else [].

(** What holds at each control point about functors that are pending. *)
Definition pending_ok s : Prop :=
  match pc s with
  | NotStarted k => k = [] ∧ (pendingFunctors_ (lp s) ≠ [] → awake s)
  | Test | Polling => pendingFunctors_ (lp s) ≠ [] → awake s
  | Running _ k => paired k ∧ (pendingFunctors_ (lp s) ≠ [] → awake s ∨ IWakeIf ∈ k)
  | Handling _ _ | BeforeSwap | Stopped => True
  end.

Definition calling_at (c : Control) : bool :=
  match c with BeforeSwap | Running _ _ => true | _ => false end.

Record inv s : Prop := {
  inv_code t k : others s !! t = Some k → paired k;
  inv_calling : callingPendingFunctors_ (lp s) = calling_at (pc s);
  inv_pending : pending_ok s;
  inv_quit : pc s = Polling → quit_ (lp s) = true → awake s;
  inv_fifo : sent s = ran s ++ batch (pc s) ++ pendingFunctors_ (lp s)
}.

Lemma inv_init tid : inv (init tid []).
Proof. by split. Qed.

(** *** Steps of other threads *)
Definition after_thread s (t : nat) (i : Instr) (k : list Instr) : System E :=
  mkSystem (exec t i (lp s)).1 (pc s) (<[ t := (exec t i (lp s)).2 ++ k ]> (others s))
    (sent s ++ pushes i) (ran s).

Section Thread.
Variables (s : System E) (t : nat) (i : Instr) (k : list Instr).
Hypothesis Ht : t ≠ threadId_ (lp s).
Hypothesis Hk : others s !! t = Some (i :: k).
Hypothesis Hcode : paired (i :: k).

Lemma thread_awake : awake s → awake (after_thread s t i k).
Proof.
  intros Ha. destruct (exec_frame t i (lp s)) as (Hid & _ & _ & _ & Hr).
  destruct (waker i) eqn:Hw.
  { left. apply exec_wakes; [by rewrite Hw|auto]. }
  destruct Ha as [Ha|(t' & i' & k' & Ht' & Hk' & Hw')].
  - left. apply Hr; [|done]. intros ->. done.
  - right. exists t', i', k'. simpl. rewrite Hid, lookup_insert_ne; [done|].
    intros ->. simplify_eq. by rewrite Hw in Hw'.
Qed.

Lemma thread_changes_awake : i = ISetQuit ∨ pushes i ≠ [] → awake (after_thread s t i k).
Proof.
  intros Hi. right. destruct (exec_frame t i (lp s)) as (Hid & _).
  destruct i; simpl in *; try by destruct Hi.
  all: destruct Hcode as [Hh _]; destruct k as [|j k0]; [done|]; injection Hh as ->.
  all: eexists t, _, k0; by rewrite lookup_insert_eq.
Qed.

Lemma thread_pending : pendingFunctors_ (lp (after_thread s t i k)) ≠ [] → pendingFunctors_ (lp s) ≠ [] ∨ awake (after_thread s t i k).
Proof.
  destruct (exec_frame t i (lp s)) as (_ & _ & Hpe & _). simpl. rewrite Hpe. intros Hp.
  destruct (pushes i) eqn:Hpu; [left; by rewrite app_nil_r in Hp|].
  right. apply thread_changes_awake. right. by rewrite Hpu.
Qed.

Lemma thread_inv : inv s → inv (after_thread s t i k).
Proof.
  intros [Hco Hca Hpe Hqu Hfi].
  destruct (exec_frame t i (lp s)) as (Hid & Hcal & Hpend & Hquit & _).
  pose proof thread_awake as Haw. pose proof thread_pending as Hpen. split.
  - intros t' k'. cbn [others after_thread].
    intros [[<- <-]|[? ?]]%lookup_insert_Some; [by apply paired_exec|by eauto].
  - simpl. by rewrite Hcal.
  - unfold pending_ok in *. change (pc (after_thread s t i k)) with (pc s). destruct (pc s); naive_solver.
  - intros Hp Hq. simpl in Hp, Hq. assert (i = ISetQuit ∨ i ≠ ISetQuit) as [Hi|Hne] by (destruct i; auto).
    + apply thread_changes_awake. by left.
    + rewrite Hquit in Hq by done. auto.
  - simpl. rewrite Hpend, Hfi. by rewrite !app_assoc.
Qed.
End Thread.

(** *** Steps of the loop thread *)

(** The invariant depends on the members named here only. *)
Lemma awake_same s s' :
  others s' = others s → wakeupFd_ (lp s') = wakeupFd_ (lp s) →
  threadId_ (lp s') = threadId_ (lp s) → awake s → awake s'.
Proof. unfold awake. by intros -> -> ->. Qed.

Lemma in_callback_eq s i back k :
  in_callback s i back k =
    mkSystem (exec (threadId_ (lp s)) i (lp s)).1 (back ((exec (threadId_ (lp s)) i (lp s)).2 ++ k))
      (others s) (sent s ++ pushes i) (ran s).
Proof. unfold in_callback. by destruct (exec _ _ _). Qed.

Lemma running_inv s i rest k :
  pc s = Running rest (i :: k) → inv s → inv (in_callback s i (Running rest) k).
Proof.
  intros Hpc [Hco Hca Hpe Hqu Hfi]. rewrite in_callback_eq.
  set (tid := threadId_ (lp s)).
  destruct (exec_frame tid i (lp s)) as (Hid & Hcal & Hpend & _ & Hr).
  unfold pending_ok in Hpe. rewrite Hpc in *. destruct Hpe as [Hcode Hpe].
  split; cbn [others pc lp sent ran calling_at batch]; [by eauto|by rewrite Hcal| |done|].
  - split; [by apply paired_exec|]. cbn [lp others]. rewrite Hpend. intros Hp.
    assert (i = IWakeIf ∨ i ≠ IWakeIf) as [->|Hne] by (destruct i; auto).
    { left. left. apply exec_wakes; [done|]. right. by rewrite Hca. }
    destruct (pushes i) as [|f fs] eqn:Hpu.
    + rewrite app_nil_r in Hp. destruct (Hpe Hp) as [Ha|[?|Hin]%elem_of_cons]; [left|done|right].
      * destruct Ha as [Ha|Ha]; [left|right; cbn [lp others]; by rewrite Hid].
        apply Hr; [|done]. intros ->. done.
      * apply elem_of_app. by right.
    + right. apply elem_of_app. right. destruct i; try done.
      destruct Hcode as [Hh _], k as [|j k0]; [done|]. injection Hh as ->. left.
  - rewrite Hpend, Hfi. by rewrite !app_assoc.
Qed.

Lemma handling_inv s i rest k :
  pc s = Handling rest (i :: k) → inv s → inv (in_callback s i (Handling rest) k).
Proof.
  intros Hpc [Hco Hca Hpe Hqu Hfi]. rewrite in_callback_eq.
  destruct (exec_frame (threadId_ (lp s)) i (lp s)) as (_ & Hcal & Hpend & _).
  rewrite Hpc in *. split; cbn [others pc lp sent ran calling_at batch]; try done.
  - by rewrite Hcal.
  - rewrite Hpend, Hfi. by rewrite !app_assoc.
Qed.

Lemma loop_inv active s s' : loop_step handler active s = Some s' → inv s → inv s'.
Proof.
  intros Hst Hinv. pose proof Hinv as [Hco Hca Hpe Hqu Hfi].
  unfold loop_step in Hst. unfold pending_ok in Hpe. destruct (pc s) eqn:Hpc.
  - destruct Hpe as [-> Hpe]. injection Hst as <-.
    split; cbn; [done|done| |done|done]. intros Hp. by apply (awake_same s), Hpe.
  - destruct (quit_ (lp s)) eqn:Hq; injection Hst as <-; split; cbn; try done.
    by rewrite Hq.
  - injection Hst as <-. by split.
  - destruct k as [|i k].
    + destruct rest as [|a rest]; injection Hst as <-; by split.
    + simplify_eq. by apply handling_inv.
  - injection Hst as <-. split; cbn; try done. by rewrite app_nil_r.
  - destruct k as [|i k]; [destruct rest as [|f rest]|]; simplify_eq.
    + destruct Hpe as [_ Hpe]. split; cbn; try done.
      intros Hp. destruct (Hpe Hp) as [?|?%elem_of_nil]; [by apply (awake_same s)|done].
    + destruct Hpe as [_ Hpe]. split; cbn; try done.
      * split; [by rewrite <- (app_nil_r (ICall <$> body f)); apply paired_calls|].
        intros Hp. left. destruct (Hpe Hp) as [?|?%elem_of_nil]; [by apply (awake_same s)|done].
      * by rewrite Hfi, <- app_assoc.
    + by apply running_inv.
  - done.
Qed.

Lemma step_inv s s' : step handler s s' → inv s → inv s'.
Proof.
  intros Hst Hinv. destruct Hst as [s active s' Hst|s t s' Hst|s t c s' Hst].
  - by eapply loop_inv.
  - apply guard_Some in Hst as [Ht Hst].
    destruct (others s !! t) as [[|i k]|] eqn:Hk; [done| |done].
    destruct (exec t i (lp s)) as [l next] eqn:He. injection Hst as <-.
    pose proof (thread_inv s t i k Ht Hk (inv_code _ Hinv _ _ Hk) Hinv) as Hi.
    unfold after_thread in Hi. by rewrite He in Hi.
  - apply guard_Some in Hst as [Ht Hst]. apply guard_Some in Hst as [Hnil [= <-]].
    assert (awake s → awake (mkSystem (lp s) (pc s) (<[ t := [ICall c] ]> (others s)) (sent s) (ran s)))
      as Haw.
    { intros [?|(t' & i & k & ? & Hk & ?)]; [by left|right]. exists t', i, k. cbn.
      rewrite lookup_insert_ne; [done|]. intros ->. by rewrite Hk in Hnil. }
    destruct Hinv as [Hco Hca Hpe Hqu Hfi]. split; cbn [others pc lp sent ran]; try done.
    + intros t' k [[<- <-]|[? ?]]%lookup_insert_Some; [done|by eauto].
    + unfold pending_ok in *. cbn [pc lp]. destruct (pc s); naive_solver.
    + auto.
Qed.

Lemma reachable_inv tid s : reachable handler tid s → inv s.
Proof.
  unfold reachable. intros Hr. pose proof (inv_init tid) as Hi. revert Hi.
  induction Hr as [|s s1 s2 Hst _ IH]; [done|]. intros Hi. by eapply IH, step_inv.
Qed.

(** C3. No lost wakeup.  For a loop whose own thread did nothing with it before
    it called [loop] (a functor it queued there does not wake the loop,
    [queued_before_loop_waits]), in every interleaving with the calls of other
    threads: when the loop is about to block in [poll] while a functor is queued or
    [quit_] is set, the eventfd is readable or a thread that queued a functor or
    set [quit_] is about to make it readable; so the loop does not sleep on pending
    work.  A [quit] whose store [loop] has overwritten, because it came before
    [loop] did, no longer counts ([quit_before_loop_lost]). *)
Theorem no_lost_wakeup tid s :
  reachable handler tid s → pc s = Polling →
  pendingFunctors_ (lp s) ≠ [] ∨ quit_ (lp s) = true → awake s.
Proof.
  intros Hinv%reachable_inv Hpc [Hp|Hq].
  - pose proof (inv_pending _ Hinv) as Hpe. unfold pending_ok in Hpe. rewrite Hpc in Hpe. auto.
  - by apply (inv_quit _ Hinv).
Qed.

(** C8. First in, first out, exactly once.  In every interleaving, the functors
    [doPendingFunctors] has started, those of the batch it is running and those
    still queued are together exactly the functors pushed by [queueInLoop], in
    the order of the critical sections that pushed them. *)
Theorem functors_fifo_once tid s :
  reachable handler tid s → sent s = ran s ++ batch (pc s) ++ pendingFunctors_ (lp s).
Proof. intros Hinv%reachable_inv. apply (inv_fifo _ Hinv). Qed.

(** ** Progress *)

(** [n] steps of the loop thread. *)
Fixpoint loop_run (n : nat) (active : list Z) s : option (System E) :=
  match n with
  | O => Some s
  | S n => s' ← loop_step handler active s; loop_run n active s'
  end.

Lemma loop_run_app n m active s s' :
  loop_run n active s = Some s' → loop_run (n + m) active s = loop_run m active s'.
Proof.
  revert s. induction n as [|n IH]; intros s Hr; simpl in *; [by injection Hr as ->|].
  destruct (loop_step handler active s); [|done]. simpl in *. auto.
Qed.

(** [goes active s s']: the loop thread alone takes [s] to [s'], other threads
    keep their place, and what was queued is still queued or running. *)
Definition goes (active : list Z) s s' : Prop :=
  (∃ n, loop_run n active s = Some s') ∧ others s' = others s ∧
  iteration_ (lp s') = iteration_ (lp s).

Lemma goes_refl active s : goes active s s.
Proof. split; [by exists O|done]. Qed.

Lemma goes_trans active s1 s2 s3 : goes active s1 s2 → goes active s2 s3 → goes active s1 s3.
Proof.
  intros ((n & Hn) & Ho & Hi) ((m & Hm) & Ho' & Hi'). split_and!; [|congruence..].
  exists (n + m)%nat. by rewrite (loop_run_app _ _ _ _ _ Hn).
Qed.

Lemma goes_step active s s' :
  loop_step handler active s = Some s' → others s' = others s →
  iteration_ (lp s') = iteration_ (lp s) → goes active s s'.
Proof. intros Hs. split; [|done]. exists 1%nat. simpl. by rewrite Hs. Qed.

Lemma exec_iteration tid i l : iteration_ (exec tid i l).1 = iteration_ l.
Proof.
  destruct i; simpl; unfold wakeup, handleRead;
    destruct (eventfd_write (wakeupFd_ l)), (eventfd_read (wakeupFd_ l)); by repeat case_match.
Qed.

(** The code of a callback ends: inline functors are nested finitely. *)
Lemma exec_weight tid i l : (code_weight (exec tid i l).2 < instr_weight i)%nat.
Proof.
  destruct i as [[f|f|]| | | | |]; simpl; try lia.
  rewrite functor_weight_body. unfold runInLoop. case_match; [|simpl; lia].
  assert (code_weight (ICall <$> body f) = calls_weight (body f)) as ->; [|lia].
  induction (body f) as [|c b IH]; [done|]. rewrite fmap_cons.
  cbn [code_weight calls_weight instr_weight]. by rewrite IH.
Qed.

Lemma code_weight_app k1 k2 : code_weight (k1 ++ k2) = (code_weight k1 + code_weight k2)%nat.
Proof. induction k1; simpl; lia. Qed.

Lemma callback_ends active (back : list Instr → Control) k s :
  (∀ s i k, pc s = back (i :: k) → loop_step handler active s = Some (in_callback s i back k)) →
  pc s = back k →
  ∃ s' extra, goes active s s' ∧ pc s' = back [] ∧ ran s' = ran s ∧
    pendingFunctors_ (lp s') = pendingFunctors_ (lp s) ++ extra ∧ sent s' = sent s ++ extra.
Proof.
  intros Hback. remember (code_weight k) as w eqn:Hw. revert k s Hw.
  induction (lt_wf w) as [w _ IH]. intros [|i k] s -> Hpc.
  { exists s, []. rewrite !app_nil_r. split; [apply goes_refl|done]. }
  pose proof (Hback _ _ _ Hpc) as Hst. rewrite in_callback_eq in Hst.
  set (tid := threadId_ (lp s)) in *. set (s1 := mkSystem _ _ _ _ _) in Hst.
  destruct (exec_frame tid i (lp s)) as (_ & _ & Hpend & _).
  pose proof (exec_weight tid i (lp s)) as Hlt. simpl in IH.
  destruct (IH (code_weight ((exec tid i (lp s)).2 ++ k))
              ltac:(rewrite code_weight_app; lia) _ s1 eq_refl eq_refl)
    as (s' & extra & Hgo & Hpc' & Hran & Hp' & Hs').
  exists s', (pushes i ++ extra). split_and!; [|done|exact Hran|..].
  - eapply goes_trans; [eapply goes_step; [exact Hst|done|]|exact Hgo]. apply exec_iteration.
  - rewrite Hp'. cbn [lp s1]. by rewrite Hpend, app_assoc.
  - rewrite Hs'. cbn [sent s1]. by rewrite app_assoc.
Qed.

Lemma handling_ends active rest s :
  pc s = Handling rest [] →
  ∃ s' extra, goes active s s' ∧ pc s' = BeforeSwap ∧ ran s' = ran s ∧
    pendingFunctors_ (lp s') = pendingFunctors_ (lp s) ++ extra ∧ sent s' = sent s ++ extra.
Proof.
  revert s. induction rest as [|a rest IH]; intros s Hpc.
  - eexists _, []. rewrite !app_nil_r. split.
    { apply goes_step; [unfold loop_step; by rewrite Hpc|done..]. }
    done.
  - set (s1 := mkSystem (set_active (lp s) true (iteration_ (lp s)) (activeChannels_ (lp s)) (Some a))
                 (Handling rest (channel_code handler a)) (others s) (sent s) (ran s)).
    destruct (callback_ends active (Handling rest) (channel_code handler a) s1) as
      (s2 & e2 & Hg2 & Hpc2 & Hr2 & Hp2 & Hs2); [|done|].
    { intros s' i k E'. unfold loop_step. by rewrite E'. }
    destruct (IH s2 Hpc2) as (s3 & e3 & Hg3 & Hpc3 & Hr3 & Hp3 & Hs3).
    exists s3, (e2 ++ e3). split_and!; [|done|by rewrite Hr3, Hr2|..].
    + eapply goes_trans; [apply goes_step with (s' := s1)|by eapply goes_trans]; try done.
      unfold loop_step. by rewrite Hpc.
    + rewrite Hp3, Hp2. by rewrite app_assoc.
    + rewrite Hs3, Hs2. by rewrite app_assoc.
Qed.

Lemma running_ends active rest s :
  pc s = Running rest [] →
  ∃ s' extra, goes active s s' ∧ pc s' = Test ∧ ran s' = ran s ++ rest ∧
    pendingFunctors_ (lp s') = pendingFunctors_ (lp s) ++ extra ∧ sent s' = sent s ++ extra.
Proof.
  revert s. induction rest as [|f rest IH]; intros s Hpc.
  - eexists _, []. rewrite !app_nil_r. split.
    { apply goes_step; [unfold loop_step; by rewrite Hpc|done..]. }
    done.
  - set (s1 := mkSystem (lp s) (Running rest (ICall <$> body f)) (others s) (sent s) (ran s ++ [f])).
    destruct (callback_ends active (Running rest) (ICall <$> body f) s1) as
      (s2 & e2 & Hg2 & Hpc2 & Hr2 & Hp2 & Hs2); [|done|].
    { intros s' i k E'. unfold loop_step. by rewrite E'. }
    destruct (IH s2 Hpc2) as (s3 & e3 & Hg3 & Hpc3 & Hr3 & Hp3 & Hs3).
    exists s3, (e2 ++ e3). split_and!; [|done|by rewrite Hr3, Hr2; cbn; rewrite <- app_assoc|..].
    + eapply goes_trans; [apply goes_step with (s' := s1)|by eapply goes_trans]; try done.
      unfold loop_step. by rewrite Hpc.
    + rewrite Hp3, Hp2. by rewrite app_assoc.
    + rewrite Hs3, Hs2. by rewrite app_assoc.
Qed.

(** Progress.  Whatever the callbacks do, once [poll] has returned the loop
    thread by itself comes back to the test of [while (!quit_)] after finitely
    many instructions, and by then it has run every functor that was queued
    when it polled, in order, followed by the ones queued by the handlers of
    this turn; functors queued by functors are left for the next turn. *)
Theorem turn_runs_pending s active :
  pc s = Polling →
  ∃ n s' from_handlers from_functors,
    loop_run n active s = Some s' ∧ pc s' = Test ∧
    ran s' = ran s ++ pendingFunctors_ (lp s) ++ from_handlers ∧
    pendingFunctors_ (lp s') = from_functors ∧
    sent s' = sent s ++ from_handlers ++ from_functors ∧
    iteration_ (lp s') = iteration_ (lp s) + 1.
Proof.
  intros Hpc.
  set (s1 := mkSystem (set_active (lp s) true (iteration_ (lp s) + 1) active
                         (currentActiveChannel_ (lp s)))
               (Handling active []) (others s) (sent s) (ran s)).
  destruct (handling_ends active active s1) as (s2 & e2 & ((n2 & Hn2) & _ & Hi2) & Hpc2 & Hr2 & Hp2 & Hs2);
    [done|].
  set (s3 := mkSystem (set_pending (lp s2) []) (Running (pendingFunctors_ (lp s2)) [])
               (others s2) (sent s2) (ran s2)).
  destruct (running_ends active (pendingFunctors_ (lp s2)) s3) as
    (s4 & e4 & ((n4 & Hn4) & _ & Hi4) & Hpc4 & Hr4 & Hp4 & Hs4); [done|].
  exists (1 + (n2 + (1 + n4)))%nat, s4, e2, e4. split_and!; [|done|..].
  - rewrite (loop_run_app 1 _ active s s1) by (simpl; unfold loop_step; by rewrite Hpc).
    rewrite (loop_run_app _ _ _ _ _ Hn2).
    by rewrite (loop_run_app 1 _ active s2 s3) by (simpl; unfold loop_step; by rewrite Hpc2).
  - rewrite Hr4. cbn [ran s3]. by rewrite Hr2, Hp2.
  - by rewrite Hp4.
  - rewrite Hs4. cbn [sent s3]. rewrite Hs2. by rewrite app_assoc.
  - rewrite Hi4. cbn. by rewrite Hi2.
Qed.
End Safety.

(** ** Runs *)

(** A schedule: which thread moves, and what [poll] reports. *)
Inductive Move := MLoop (active : list Z) | MThread (t : nat) | MCall (t : nat) (c : Call).

Definition move {E} `{EventFd E} (handler : Z → list Call) (m : Move) (s : System E) :
    option (System E) :=
  match m with
  | MLoop active => loop_step handler active s
  | MThread t => thread_step t s
  | MCall t c => thread_call t c s
  end.

Definition moves {E} `{EventFd E} (handler : Z → list Call) (ms : list Move) (s : System E) :
    option (System E) :=
  foldl (λ os m, s ← os; move handler m s) (Some s) ms.

Lemma moves_reachable {E} `{EventFd E} (handler : Z → list Call) ms (s s' : System E) :
  moves handler ms s = Some s' → rtc (step handler) s s'.
Proof.
  revert s. induction ms as [|m ms IH]; intros s Hm; [by injection Hm as ->|].
  unfold moves in Hm. simpl in Hm. destruct (move handler m s) as [s1|] eqn:E1.
  - eapply rtc_l; [|by apply IH]. destruct m; by econstructor.
  - exfalso. clear -Hm. simpl in Hm. induction ms; [done|auto].
Qed.

(** Thread 1 queues a functor while the loop is about to poll, up to the push. *)
Definition sample_moves : list Move :=
  [MLoop []; MLoop []; MCall 1 (QueueInLoop (Fn 7 [QueueInLoop (Fn 8 [])])); MThread 1; MThread 1].
Definition no_handler : Z → list Call := λ _, [].

Lemma no_lost_wakeup_witness :
  ∃ s : System N, moves no_handler sample_moves (init 0 []) = Some s ∧
    reachable no_handler 0 s ∧ pc s = Polling ∧ pendingFunctors_ (lp s) ≠ [] ∧
    readable (wakeupFd_ (lp s)) = false ∧ awake s.
Proof.
  eexists. split; [vm_compute; reflexivity|].
  apply conj_apply; [by apply (moves_reachable _ sample_moves)|]. intros Hr.
  split; [done|]. split; [done|]. split; [done|].
  apply (no_lost_wakeup no_handler 0 _ Hr); [done|by left].
Defined.

(** Then the loop is woken up and runs the functor, which queues another one. *)
Definition sample_turn : list Move :=
  sample_moves ++ [MThread 1; MLoop [0]; MLoop []; MLoop []; MLoop []; MLoop []; MLoop []; MLoop []].

Lemma functors_fifo_once_witness :
  ∃ s : System N,
    moves no_handler sample_turn (init 0 []) = Some s ∧
    reachable no_handler 0 s ∧ ran s ≠ [] ∧
    sent s = ran s ++ batch (pc s) ++ pendingFunctors_ (lp s).
Proof.
  eexists. split; [vm_compute; reflexivity|].
  apply conj_apply; [by apply (moves_reachable _ sample_turn)|]. intros Hr.
  split; [done|]. apply (functors_fifo_once no_handler 0 _ Hr).
Defined.

Lemma turn_runs_pending_witness :
  ∃ s : System N, moves no_handler sample_moves (init 0 []) = Some s ∧ pc s = Polling ∧
    ∃ n s' from_handlers from_functors,
      loop_run no_handler n [0] s = Some s' ∧ pc s' = Test ∧
      ran s' = ran s ++ pendingFunctors_ (lp s) ++ from_handlers ∧
      pendingFunctors_ (lp s') = from_functors ∧
      sent s' = sent s ++ from_handlers ++ from_functors ∧ iteration_ (lp s') = iteration_ (lp s) + 1.
Proof.
  eexists. split; [vm_compute; reflexivity|]. split; [done|].
  apply (turn_runs_pending no_handler). done.
Defined.

(** A functor queued by the loop's own thread before it calls [loop] does not
    wake the loop: it is left pending while the loop blocks in its first poll. *)
Theorem queued_before_loop_waits :
  ∃ (s : System N) n,
    moves no_handler (replicate n (MLoop [])) (init 0 [QueueInLoop (Fn 7 [])]) = Some s ∧
    pc s = Polling ∧ pendingFunctors_ (lp s) = [Fn 7 []] ∧ ¬ awake s.
Proof.
  eexists _, 5%nat. split; [vm_compute; reflexivity|]. split; [done|]. split; [done|].
  intros [?|(t & i & k & _ & Hk & _)]; [done|]. by destruct t.
Qed.

(** A call of [quit] that takes effect before [loop] starts is lost: [loop]
    clears [quit_], and although the loop is woken up once it polls again, with
    no way left to stop. *)
Theorem quit_before_loop_lost :
  ∃ s : System N,
    moves no_handler [MCall 1 Quit; MThread 1; MThread 1; MThread 1;
                      MLoop []; MLoop []; MLoop [0]; MLoop []; MLoop []; MLoop []; MLoop [];
                      MLoop []; MLoop []] (init 0 []) = Some s ∧
    pc s = Polling ∧ quit_ (lp s) = false ∧ readable (wakeupFd_ (lp s)) = false ∧
    others s !! 1%nat = Some [].
Proof. eexists. split; [vm_compute; reflexivity|]. split_and!; vm_compute; reflexivity. Qed.
