(* ===== verification/TcpConnection.v ===== *)
(** * TCP connections (muduo/net/TcpConnection.h, TcpConnection.cc)

    One connection in its event loop: the members of the class, its channel in
    the poller (through the interface [PollerOps]), its two buffers, what the
    kernel accepted for the peer ([wire]) and whether the write side was shut
    down, the functors it queued in its loop, and the calls of user callbacks.
    The results of read(2) and write(2) are arguments of the handlers.  User
    code reacts to a callback with calls of the public member functions, which
    are run inside the callback.  Other threads call them too: there a call is
    cut where the loop can come in between, after the test of [state_] and after
    its change, and goes on later, in a callback or outside. *)
From Stdlib Require Import Strings.Byte.
From stdpp Require Import base numbers list gmap strings.
From S2P Require Import Prelude Buffer Channel.
Open Scope Z_scope.
Open Scope muduo_scope.

Inductive StateE := kDisconnected | kConnecting | kConnected | kDisconnecting.

#[export] Instance StateE_eq_dec : EqDecision StateE.
Proof. solve_decision. Defined.

Definition stateToString (s : StateE) : string :=
  match s with
  | kDisconnected => "kDisconnected"
  | kConnecting => "kConnecting"
  | kConnected => "kConnected"
  | kDisconnecting => "kDisconnecting"
  end.

Record TcpConnection := mkTcpConnection {
  state_ : StateE;
  reading_ : bool;
  channel_ : Z;
  writeCompleteCallback_ : bool;
  highWaterMarkCallback_ : bool;
  highWaterMark_ : Z;
  inputBuffer_ : Buffer;
  outputBuffer_ : Buffer
}.

(** ** The system around it *)

Definition EWOULDBLOCK : Z := 11.
Definition EPIPE : Z := 32.
Definition ECONNRESET : Z := 104.

(** write(2) on the socket, as a function of the bytes offered; [logged] is what [errno] is after the
    error was logged. *)
Inductive WriteResult := Wrote (n : Z) | WriteError (errno logged : Z).
Abbreviation Write := (list byte → WriteResult).

(** Functors in the loop's queue that belong to this connection. *)
Inductive Task :=
  | TSend (message : list byte)
  | TShutdown
  | TForceClose
  | TStartRead
  | TStopRead
  | TWriteComplete
  | THighWaterMark (size : Z).

(** Calls of other threads that go on later: the test of [state_] succeeded and the change follows, with the
    functor that is queued then; or the functor is queued. *)
Inductive OffCall :=
  | SetState (next : option Task)
  | Queue (t : Task).

(** Calls of user callbacks. *)
Inductive Notice :=
  | NConnection (up : bool)
  | NMessage (readable : list byte)
  | NWriteComplete
  | NHighWaterMark (size : Z)
  | NClose.

(** [accepted]: the messages [sendInLoop] has taken over, as one stream. *)
Record World (P : Type) := mkWorld {
  conn : TcpConnection;
  chans : Channels;
  poller : P;
  wire : list byte;
  wr_shut : bool;
  queued : list Task;
  suspended : list OffCall;
  notices : list Notice;
  accepted : list byte
}.
Arguments mkWorld {P} _ _ _ _ _ _ _ _ _.
Arguments conn {P} _.
Arguments chans {P} _.
Arguments poller {P} _.
Arguments wire {P} _.
Arguments wr_shut {P} _.
Arguments queued {P} _.
Arguments suspended {P} _.
Arguments notices {P} _.
Arguments accepted {P} _.

Definition setState (c : TcpConnection) (s : StateE) : TcpConnection :=
  mkTcpConnection s (reading_ c) (channel_ c) (writeCompleteCallback_ c) (highWaterMarkCallback_ c)
    (highWaterMark_ c) (inputBuffer_ c) (outputBuffer_ c).
Definition set_reading (c : TcpConnection) (b : bool) : TcpConnection :=
  mkTcpConnection (state_ c) b (channel_ c) (writeCompleteCallback_ c) (highWaterMarkCallback_ c)
    (highWaterMark_ c) (inputBuffer_ c) (outputBuffer_ c).
Definition set_input (c : TcpConnection) (b : Buffer) : TcpConnection :=
  mkTcpConnection (state_ c) (reading_ c) (channel_ c) (writeCompleteCallback_ c)
    (highWaterMarkCallback_ c) (highWaterMark_ c) b (outputBuffer_ c).
Definition set_output (c : TcpConnection) (b : Buffer) : TcpConnection :=
  mkTcpConnection (state_ c) (reading_ c) (channel_ c) (writeCompleteCallback_ c)
    (highWaterMarkCallback_ c) (highWaterMark_ c) (inputBuffer_ c) b.

Definition connected (c : TcpConnection) : bool := bool_decide (state_ c = kConnected).
Definition disconnected (c : TcpConnection) : bool := bool_decide (state_ c = kDisconnected).

Section Setters.
Context {P : Type}.
Implicit Types w : World P.

Definition with_conn w c : World P :=
  mkWorld c (chans w) (poller w) (wire w) (wr_shut w) (queued w) (suspended w) (notices w) (accepted w).
Definition with_chans w (cp : Channels * P) : World P :=
  mkWorld (conn w) cp.1 cp.2 (wire w) (wr_shut w) (queued w) (suspended w) (notices w) (accepted w).
(** The kernel took [bytes] for the peer. *)
Definition transmit w (bytes : list byte) : World P :=
  mkWorld (conn w) (chans w) (poller w) (wire w ++ bytes) (wr_shut w) (queued w) (suspended w) (notices w)
    (accepted w).
(** [loop_->queueInLoop]. *)
Definition queueInLoop w (t : Task) : World P :=
  mkWorld (conn w) (chans w) (poller w) (wire w) (wr_shut w) (queued w ++ [t]) (suspended w) (notices w)
    (accepted w).
Definition with_queue w (q : list Task) : World P :=
  mkWorld (conn w) (chans w) (poller w) (wire w) (wr_shut w) q (suspended w) (notices w) (accepted w).
Definition with_suspended w (l : list OffCall) : World P :=
  mkWorld (conn w) (chans w) (poller w) (wire w) (wr_shut w) (queued w) l (notices w) (accepted w).
Definition suspend w (c : OffCall) : World P := with_suspended w (suspended w ++ [c]).
Definition notify w (n : Notice) : World P :=
  mkWorld (conn w) (chans w) (poller w) (wire w) (wr_shut w) (queued w) (suspended w) (notices w ++ [n])
    (accepted w).
Definition accept w (message : list byte) : World P :=
  mkWorld (conn w) (chans w) (poller w) (wire w) (wr_shut w) (queued w) (suspended w) (notices w)
    (accepted w ++ message).
(** [socket_->shutdownWrite()]. *)
Definition shutdownWrite w : World P :=
  mkWorld (conn w) (chans w) (poller w) (wire w) true (queued w) (suspended w) (notices w) (accepted w).

Definition set_state w (s : StateE) : World P := with_conn w (setState (conn w) s).
End Setters.

(** The constructor, for the channel at address [a] on [sockfd]. *)
Definition TcpConnection_new (a : Z) (input output : Buffer) : TcpConnection :=
  mkTcpConnection kConnecting true a false false (64 * 1024 * 1024) input output.

Definition connection_channel (sockfd : Z) : Channel :=
  mkChannel sockfd 0 0 (-1) true false false false true true true true.

Section Operations.
Context `{PollerOps P}.
Implicit Types w : World P.

Definition get_conn_channel w : outcome Channel := get_channel (chans w) (channel_ (conn w)).

(** A member function of [channel_]. *)
Definition on_channel (f : Channels → P → Z → outcome (Channels * P)) w : outcome (World P) :=
  cp ← f (chans w) (poller w) (channel_ (conn w)); mret (with_chans w cp).

(** ** Sending *)

(** The direct write: new state, [nwrote], [remaining] and [faultError]. *)
Definition write_direct (write : Write) (data : list byte) w : World P * Z * Z * bool :=
  let len := size_of data in
  match write data with
  | Wrote nwrote =>
    let w := transmit w (take (Z.to_nat nwrote) data) in
    let remaining := u64 (len - nwrote) in
    let w := if (remaining =? 0) && writeCompleteCallback_ (conn w)
             then queueInLoop w TWriteComplete else w in
    (w, nwrote, remaining, false)
  | WriteError e logged =>
    (w, 0, len, negb (e =? EWOULDBLOCK) && ((logged =? EPIPE) || (logged =? ECONNRESET)))
  end.

(** What was not written goes to the output buffer. *)
Definition buffer_remaining (c : Channel) (rest : list byte) (remaining : Z) w : outcome (World P) :=
  let oldLen := readableBytes (outputBuffer_ (conn w)) in
  let w := if (highWaterMark_ (conn w) <=? u64 (oldLen + remaining)) &&
              (oldLen <? highWaterMark_ (conn w)) && highWaterMarkCallback_ (conn w)
           then queueInLoop w (THighWaterMark (u64 (oldLen + remaining))) else w in
  out ← append (outputBuffer_ (conn w)) rest;
  let w := with_conn w (set_output (conn w) out) in
  if negb (isWriting c) then on_channel enableWriting w else mret w.

Definition sendInLoop (write : Write) (data : list byte) w : outcome (World P) :=
  let len := size_of data in
  if disconnected (conn w) then mret w
  else
    c ← get_conn_channel w;
    let '(w, nwrote, remaining, faultError) :=
      if negb (isWriting c) && (readableBytes (outputBuffer_ (conn w)) =? 0)
      then write_direct write data w else (w, 0, len, false) in
    _ ← assertb 176 (remaining <=? len);
    let w := if faultError : bool then w else accept w data in
    if negb faultError && (0 <? remaining)
    then buffer_remaining c (drop (Z.to_nat nwrote) data) remaining w
    else mret w.

(** A [StringPiece] of a string has an [int] for its length, to which the size is cut; the [size_t] that a negative
    one becomes reaches beyond the string. *)
Definition StringPiece_of (message : list byte) : outcome (list byte) :=
  let length_ := to_signed 32 (size_of message) in
  if length_ <? 0 then Fault OutOfRange else mret (take (Z.to_nat length_) message).

(** [sendInLoop] of a [StringPiece]. *)
Definition sendInLoop_piece (write : Write) (message : list byte) w : outcome (World P) :=
  piece ← StringPiece_of message;
  sendInLoop write piece w.

(** [send] in the thread of the loop. *)
Definition send (write : Write) (message : list byte) w : outcome (World P) :=
  piece ← StringPiece_of message;
  if connected (conn w) then sendInLoop write piece w else mret w.

(** [send] in another thread, up to the test. *)
Definition send_off (message : list byte) w : outcome (World P) :=
  piece ← StringPiece_of message;
  mret (if connected (conn w) then suspend w (Queue (TSend piece)) else w).

(** The overload of [send] for a [Buffer], which is emptied when the connection takes it. *)
Definition send_buffer (inLoop : bool) (write : Write) (buf : Buffer) w :
    outcome (World P * Buffer) :=
  if connected (conn w) then
    if inLoop then
      data ← load (buffer_ buf) (peek buf) (readableBytes buf);
      w ← sendInLoop write data w;
      mret (w, retrieveAll buf)
    else
      '(message, buf) ← retrieveAllAsString buf;
      mret (suspend w (Queue (TSend message)), buf)
  else mret (w, buf).

(** ** Closing *)

Definition shutdownInLoop w : outcome (World P) :=
  c ← get_conn_channel w;
  if negb (isWriting c) then mret (shutdownWrite w) else mret w.

(** [shutdown] in the thread of the loop: between its test and its change another thread can only make
    the same change. *)
Definition shutdown w : outcome (World P) :=
  if connected (conn w) then shutdownInLoop (set_state w kDisconnecting) else mret w.
(** In another thread, up to the test. *)
Definition shutdown_off w : World P := if connected (conn w) then suspend w (SetState (Some TShutdown)) else w.

Definition open (c : TcpConnection) : bool :=
  bool_decide (state_ c = kConnected) || bool_decide (state_ c = kDisconnecting).

Definition forceClose w : outcome (World P) :=
  if open (conn w) then mret (queueInLoop (set_state w kDisconnecting) TForceClose) else mret w.
Definition forceClose_off w : World P := if open (conn w) then suspend w (SetState (Some TForceClose)) else w.

(** [forceCloseWithDelay] up to the timer, which then calls [forceClose]. *)
Definition forceCloseWithDelay w : outcome (World P) :=
  if open (conn w) then mret (set_state w kDisconnecting) else mret w.
Definition forceCloseWithDelay_off w : World P := if open (conn w) then suspend w (SetState None) else w.

(** The [n]-th call of another thread goes on: [setState(kDisconnecting)], whatever the state is by now. *)
Definition resume_set (n : nat) w : World P :=
  match suspended w !! n with
  | Some (SetState next) =>
    let rest := delete n (suspended w) in
    set_state (with_suspended w (match next with Some t => rest ++ [Queue t] | None => rest end)) kDisconnecting
  | _ => w
  end.
(** ... and [loop_->queueInLoop], or [runInLoop], which is the same there. *)
Definition resume_queue (n : nat) w : World P :=
  match suspended w !! n with
  | Some (Queue t) => queueInLoop (with_suspended w (delete n (suspended w))) t
  | _ => w
  end.

(** ** Reading on and off *)

Definition startReadInLoop w : outcome (World P) :=
  c ← get_conn_channel w;
  if negb (reading_ (conn w)) || negb (isReading c) then
    w ← on_channel enableReading w;
    mret (with_conn w (set_reading (conn w) true))
  else mret w.

Definition stopReadInLoop w : outcome (World P) :=
  c ← get_conn_channel w;
  if reading_ (conn w) || isReading c then
    w ← on_channel disableReading w;
    mret (with_conn w (set_reading (conn w) false))
  else mret w.

Definition startRead (inLoop : bool) w : outcome (World P) :=
  if inLoop then startReadInLoop w else mret (queueInLoop w TStartRead).
Definition stopRead (inLoop : bool) w : outcome (World P) :=
  if inLoop then stopReadInLoop w else mret (queueInLoop w TStopRead).

(** ** User code *)

Inductive UserCall :=
  | CSend (write : Write) (message : list byte)
  | CShutdown
  | CForceClose
  | CForceCloseWithDelay
  | CStartRead
  | CStopRead
  | CRetrieve (n : nat).        (* inputBuffer()->retrieve, of at most what is readable *)

(** In the thread of the loop. *)
Definition user_call (c : UserCall) w : outcome (World P) :=
  match c with
  | CSend write message => send write message w
  | CShutdown => shutdown w
  | CForceClose => forceClose w
  | CForceCloseWithDelay => forceCloseWithDelay w
  | CStartRead => startRead true w
  | CStopRead => stopRead true w
  | CRetrieve n =>
    let b := inputBuffer_ (conn w) in
    b ← retrieve b (Z.min (Z.of_nat n) (readableBytes b)); mret (with_conn w (set_input (conn w) b))
  end.

(** In another thread, up to where the loop can come in between; the input buffer is not locked. *)
Definition off_call (c : UserCall) w : outcome (World P) :=
  match c with
  | CSend _ message => send_off message w
  | CShutdown => mret (shutdown_off w)
  | CForceClose => mret (forceClose_off w)
  | CForceCloseWithDelay => mret (forceCloseWithDelay_off w)
  | CStartRead => startRead false w
  | CStopRead => stopRead false w
  | CRetrieve _ => Fault Undefined
  end.

(** What user code does: a call in the loop, a call in another thread, and its parts that follow. *)
Inductive Step :=
  | InLoop (u : UserCall)
  | OffLoop (u : UserCall)
  | ResumeSet (n : nat)
  | ResumeQueue (n : nat).

Definition user_step (s : Step) w : outcome (World P) :=
  match s with
  | InLoop u => user_call u w
  | OffLoop u => off_call u w
  | ResumeSet n => mret (resume_set n w)
  | ResumeQueue n => mret (resume_queue n w)
  end.

(** A callback: it is recorded, and the user code in it runs, with what other threads do meanwhile. *)
Fixpoint user_steps (us : list Step) w : outcome (World P) :=
  match us with
  | [] => mret w
  | u :: us => w ← user_step u w; user_steps us w
  end.

Definition callback (n : Notice) (us : list Step) w : outcome (World P) :=
  user_steps us (notify w n).

(** ** Handlers *)

Definition connectEstablished (us : list Step) w : outcome (World P) :=
  _ ← assertb 326 (bool_decide (state_ (conn w) = kConnecting));
  let w := set_state w kConnected in
  c ← get_conn_channel w;
  let w := with_chans w (<[ channel_ (conn w) := tie c ]> (chans w), poller w) in
  w ← on_channel enableReading w;
  callback (NConnection true) us w.

Definition connectDestroyed (us : list Step) w : outcome (World P) :=
  w ← (if connected (conn w) then
         let w := set_state w kDisconnected in
         w ← on_channel disableAll w;
         callback (NConnection false) us w
       else mret w);
  on_channel remove w.

Definition handleClose (us : list Step) w : outcome (World P) :=
  _ ← assertb 412 (open (conn w));
  let w := set_state w kDisconnected in
  w ← on_channel disableAll w;
  w ← callback (NConnection false) us w;
  mret (notify w NClose).

Definition handleError w : outcome (World P) := mret w.

Definition handleRead (readv : Z → list Z → ReadvResult) (us : list Step) w :
    outcome (World P) :=
  c ← get_conn_channel w;
  '(n, savedErrno, b) ← readFd readv (inputBuffer_ (conn w)) (fd_ c);
  let w := with_conn w (set_input (conn w) b) in
  if 0 <? n then callback (NMessage (content b)) us w
  else if n =? 0 then handleClose us w
  else handleError w.

Definition handleWrite (write : Write) w : outcome (World P) :=
  c ← get_conn_channel w;
  if isWriting c then
    let out := outputBuffer_ (conn w) in
    data ← load (buffer_ out) (peek out) (readableBytes out);
    match write data with
    | Wrote n =>
      if 0 <? n then
        let w := transmit w (take (Z.to_nat n) data) in
        out ← retrieve out n;
        let w := with_conn w (set_output (conn w) out) in
        if readableBytes out =? 0 then
          w ← on_channel disableWriting w;
          let w := if writeCompleteCallback_ (conn w) then queueInLoop w TWriteComplete else w in
          if bool_decide (state_ (conn w) = kDisconnecting) then shutdownInLoop w else mret w
        else mret w
      else mret w
    | WriteError _ _ => mret w
    end
  else mret w.

Definition forceCloseInLoop (us : list Step) w : outcome (World P) :=
  if open (conn w) then handleClose us w else mret w.

(** What happens to the connection in one callback of its channel. *)
Definition run_callback (readv : Z → list Z → ReadvResult) (write : Write)
    (us : CallbackKind → list Step) (k : CallbackKind) w : outcome (World P) :=
  match k with
  | CloseCb => handleClose (us CloseCb) w
  | ErrorCb => handleError w
  | ReadCb => handleRead readv (us ReadCb) w
  | WriteCb => handleWrite write w
  end.

Fixpoint run_callbacks (readv : Z → list Z → ReadvResult) (write : Write)
    (us : CallbackKind → list Step) (ks : list CallbackKind) w : outcome (World P) :=
  match ks with
  | [] => mret w
  | k :: ks => w ← run_callback readv write us k w; run_callbacks readv write us ks w
  end.

(** The poller reports [revents]; the owner is alive, so [tie_.lock()] succeeds. *)
Definition channel_event (revents : Z) (readv : Z → list Z → ReadvResult) (write : Write)
    (us : CallbackKind → list Step) w : outcome (World P) :=
  c ← get_conn_channel w;
  let c := set_revents c revents in
  let w := with_chans w (<[ channel_ (conn w) := c ]> (chans w), poller w) in
  run_callbacks readv write us (handleEvent c true) w.

(** The loop runs the first queued functor. *)
Definition run_task (write : Write) (us : list Step) w : outcome (World P) :=
  match queued w with
  | [] => mret w
  | t :: rest =>
    let w := with_queue w rest in
    match t with
    | TSend message => sendInLoop_piece write message w
    | TShutdown => shutdownInLoop w
    | TForceClose => forceCloseInLoop us w
    | TStartRead => startReadInLoop w
    | TStopRead => stopReadInLoop w
    | TWriteComplete => callback NWriteComplete us w
    | THighWaterMark n => callback (NHighWaterMark n) us w
    end
  end.
End Operations.
