(* ===== verification/TcpConnectionSafety.v ===== *)
(** * What a connection promises (muduo/net/TcpConnection.cc)

    The invariant of a connection over every sequence of events: the bytes
    given to [send] reach the kernel in order, without loss or duplication; the
    write side is shut down only when nothing is left to send; the assertions
    hold, for every implementation of the poller interface; user callbacks come
    in the order up, messages, down. *)
From Stdlib Require Import Strings.Byte.
From stdpp Require Import base numbers list gmap.
From S2P Require Import Prelude Buffer EPollPoller PollPoller Pollers Channel TcpConnection.
Open Scope Z_scope.
Open Scope muduo_scope.

(** ** The environment *)

Definition out_of_memory (f : fault) : Prop := f = LengthError.

(** write(2) takes a prefix of what it is offered. *)
Definition write_ok (write : Write) : Prop :=
  ∀ data n, write data = Wrote n → 0 ≤ n ≤ size_of data.

(** readv(2) stores at most what the vectors hold. *)
Definition readv_ok (readv : Z → list Z → ReadvResult) : Prop :=
  ∀ fd iov bytes, Forall (λ n, 0 ≤ n) iov → readv fd iov = ReadvBytes bytes →
  size_of bytes ≤ foldr Z.add 0 iov.

(** The length of a [StringPiece] is an [int]. *)
Definition message_ok (message : list byte) : Prop := size_of message < 2 ^ 31.

(** User code: [is_open] tells whether the connection is still open; reading is
    not switched on or off after that. *)
Definition call_ok (is_open : bool) (c : UserCall) : Prop :=
  match c with
  | CSend write message => write_ok write ∧ message_ok message
  | CStartRead | CStopRead => is_open = true
  | _ => True
  end.

(** In another thread nothing is asked of the state, but the input buffer is not touched. *)
Definition off_call_ok (c : UserCall) : Prop :=
  match c with
  | CSend _ message => message_ok message
  | CRetrieve _ => False
  | _ => True
  end.

(** The test of [state_] in another thread and the change that follows it are not separated by the close. *)
Definition step_ok (is_open : bool) (s : Step) : Prop :=
  match s with
  | InLoop u => call_ok is_open u
  | OffLoop u => off_call_ok u
  | ResumeSet _ => is_open = true
  | ResumeQueue _ => True
  end.

(** ** Masks *)

Definition writing (ev : Z) : bool := hasb ev kWriteEvent.

Lemma mask_writing ev :
  mask_ok ev →
  writing (Z.lor ev kWriteEvent) = true ∧ writing (Z.ldiff ev kWriteEvent) = false ∧
  writing (Z.lor ev kReadEvent) = writing ev ∧ writing (Z.ldiff ev kReadEvent) = writing ev.
Proof. by intros [->|[->|[->| ->]]]. Qed.

(** ** Notices *)

(** Between the two connection callbacks. *)
Definition plain (n : Notice) : Prop :=
  match n with NConnection _ | NClose => False | _ => True end.
(** After the second one. *)
Definition late (n : Notice) : Prop :=
  match n with NConnection _ | NMessage _ => False | _ => True end.

Definition up_notices (ns : list Notice) : Prop :=
  ∃ l, ns = NConnection true :: l ∧ Forall plain l.
Definition down_notices (ns : list Notice) : Prop :=
  ∃ l l', ns = NConnection true :: l ++ NConnection false :: l' ∧ Forall plain l ∧ Forall late l'.

Lemma up_snoc ns n : up_notices ns → plain n → up_notices (ns ++ [n]).
Proof.
  intros (l & -> & Hl) Hn. exists (l ++ [n]). split; [done|]. apply Forall_app. auto.
Qed.
Lemma up_down ns : up_notices ns → down_notices (ns ++ [NConnection false]).
Proof. intros (l & -> & Hl). exists l, []. auto. Qed.
Lemma down_snoc ns n : down_notices ns → late n → down_notices (ns ++ [n]).
Proof.
  intros (l & l' & -> & Hl & Hl') Hn. exists l, (l' ++ [n]).
  split; [by rewrite <- app_comm_cons, <- app_assoc|]. split; [done|]. apply Forall_app. auto.
Qed.

Section Safety.
Context `{PollerLaws P}.
Implicit Types w : World P.

(** ** The invariant *)

Definition buf_ok (b : Buffer) : Prop := buffer_ok b ∧ kCheapPrepend ≤ size_of (buffer_ b).

Definition callbacks_set (c : Channel) : Prop :=
  readCallback_ c = true ∧ writeCallback_ c = true ∧ closeCallback_ c = true ∧ errorCallback_ c = true.

(** The channel [c] of the connection is registered in the poller. *)
Record link w (c : Channel) : Prop := {
  link_chan : chans w !! channel_ (conn w) = Some c;
  link_poller : poller_ok (chans w) (poller w);
  link_reg : poller_channels (poller w) !! fd_ c = Some (channel_ (conn w));
  link_mask : mask_ok (Channel.events_ c);
  link_callbacks : callbacks_set c
}.

Definition phase (st : StateE) (ev : Z) (out : list byte) (shut : bool) (ns : list Notice) : Prop :=
  match st with
  | kConnecting => False
  | kConnected => (writing ev = true ↔ out ≠ []) ∧ shut = false ∧ up_notices ns
  | kDisconnecting => (writing ev = true ↔ out ≠ []) ∧ (shut = true → out = []) ∧ up_notices ns
  | kDisconnected => ev = 0 ∧ down_notices ns
  end.

(** The functors in the queue. *)
Definition task_ok (st : StateE) (t : Task) : Prop :=
  match t with
  | TShutdown => st ≠ kConnected
  | TSend message => message_ok message
  | _ => True
  end.
Definition queue_ok (st : StateE) (q : list Task) : Prop := Forall (task_ok st) q.

Lemma queue_ok_snoc st q t : queue_ok st q → task_ok st t → queue_ok st (q ++ [t]).
Proof. intros. apply Forall_app. auto. Qed.

Lemma queue_ok_leave st st' q : queue_ok st q → st' ≠ kConnected → queue_ok st' q.
Proof. intros Hq Hs. eapply Forall_impl; [exact Hq|]. by intros []. Qed.

(** The calls of other threads that go on later. *)
Definition off_ok (st : StateE) (c : OffCall) : Prop :=
  match c with
  | SetState (Some (TShutdown | TForceClose)) | SetState None => True
  | SetState (Some _) => False
  | Queue t => task_ok st t
  end.
Definition pending_ok (st : StateE) (l : list OffCall) : Prop := Forall (off_ok st) l.

Lemma pending_ok_leave st st' l : pending_ok st l → st' ≠ kConnected → pending_ok st' l.
Proof. intros Hq Hs. eapply Forall_impl; [exact Hq|]. by intros [[[]|]|[]]. Qed.

Lemma message_max message : message_ok message → size_of message ≤ vector_max_size.
Proof. unfold message_ok, vector_max_size. lia. Qed.

Definition out_bytes w : list byte := content (outputBuffer_ (conn w)).

(** A connection after [connectEstablished]. *)
Record live w (c : Channel) : Prop := {
  live_input : buf_ok (inputBuffer_ (conn w));
  live_output : buf_ok (outputBuffer_ (conn w));
  live_stream : accepted w = wire w ++ out_bytes w;
  live_link : link w c;
  live_queue : queue_ok (state_ (conn w)) (queued w);
  live_phase : phase (state_ (conn w)) (Channel.events_ c) (out_bytes w) (wr_shut w) (notices w);
  live_pending : pending_ok (state_ (conn w)) (suspended w)
}.

Definition alive w : Prop := ∃ c, live w c.

Lemma live_channel w c : live w c → get_conn_channel w = Ok c.
Proof. intros Hl. unfold get_conn_channel, get_channel. by rewrite (link_chan _ _ (live_link _ _ Hl)). Qed.

(** Changing the mask of the registered channel. *)
Lemma link_update w c ev :
  link w c → mask_ok ev →
  update (chans w) (poller w) (channel_ (conn w)) ev ⇓ λ cp,
    ∃ c', link (with_chans w cp) c' ∧ Channel.events_ c' = ev.
Proof.
  intros [Hc Hok Hreg Hm Hcb] Hev.
  eapply yields_mono; [by apply (poller_update_ok _ _ _ c)|].
  intros [cs' p'] (Hok' & Hch & c' & -> & Hs). exists c'.
  split; [split|by rewrite Hs]; cbn [chans poller conn with_chans fst snd].
  - apply lookup_insert_eq.
  - done.
  - rewrite Hch, Hs. done.
  - by rewrite Hs.
  - by rewrite Hs.
Qed.

Lemma on_channel_mask w c (f : Channels → P → Z → outcome (Channels * P)) ev :
  link w c → mask_ok ev →
  f (chans w) (poller w) (channel_ (conn w)) = update (chans w) (poller w) (channel_ (conn w)) ev →
  on_channel f w ⇓ λ w', ∃ cp c', w' = with_chans w cp ∧ link w' c' ∧ Channel.events_ c' = ev.
Proof.
  intros Hl Hev Hf. unfold on_channel. rewrite Hf.
  ystep (link_update w c ev Hl Hev). intros cp (c' & ? & ?). apply yields_ret. eauto.
Qed.

(** The four operations on the mask, for a registered channel. *)
Lemma channel_ops w c :
  link w c →
  let at_ (f : Channels → P → Z → outcome (Channels * P)) :=
    f (chans w) (poller w) (channel_ (conn w)) in
  at_ enableReading = at_ (λ cs p a, update cs p a (Z.lor (Channel.events_ c) kReadEvent)) ∧
  at_ disableReading = at_ (λ cs p a, update cs p a (Z.ldiff (Channel.events_ c) kReadEvent)) ∧
  at_ enableWriting = at_ (λ cs p a, update cs p a (Z.lor (Channel.events_ c) kWriteEvent)) ∧
  at_ disableWriting = at_ (λ cs p a, update cs p a (Z.ldiff (Channel.events_ c) kWriteEvent)).
Proof.
  intros Hl. cbv beta zeta.
  unfold enableReading, disableReading, enableWriting, disableWriting, get_channel.
  by rewrite (link_chan _ _ Hl).
Qed.

(** Queueing a functor is not seen by the invariant. *)
Lemma if_queue (b : bool) w t :
  (∀ st, task_ok st t) →
  ∃ q, (if b then queueInLoop w t else w) = with_queue w q ∧
       ∀ st, queue_ok st (queued w) → queue_ok st q.
Proof.
  intros Ht. destruct b.
  - eexists. split; [done|]. intros st Hq. by apply queue_ok_snoc.
  - exists (queued w). by destruct w.
Qed.

Lemma link_frame w w' c :
  conn w' = conn w → chans w' = chans w → poller w' = poller w → link w c → link w' c.
Proof. intros E1 E2 E3 []. by split; rewrite ?E1, ?E2, ?E3. Qed.

(** The channel belongs to the connection, whatever else happened to it. *)
Lemma link_conn w w' c :
  channel_ (conn w') = channel_ (conn w) → chans w' = chans w → poller w' = poller w →
  link w c → link w' c.
Proof. intros E1 E2 E3 []. by split; rewrite ?E1, ?E2, ?E3. Qed.

Definition is_open w : Prop := open (conn w) = true.

Lemma open_states w :
  is_open w ↔ state_ (conn w) = kConnected ∨ state_ (conn w) = kDisconnecting.
Proof. unfold is_open, open. rewrite orb_true_iff, !bool_decide_eq_true. done. Qed.

(** What an open connection knows, in both states. *)
Lemma live_open w c :
  live w c → is_open w →
  (writing (Channel.events_ c) = true ↔ out_bytes w ≠ []) ∧ up_notices (notices w) ∧
  (wr_shut w = true → out_bytes w = [] ∧ state_ (conn w) = kDisconnecting).
Proof.
  intros Hl [Hs|Hs]%open_states; pose proof (live_phase _ _ Hl) as Hp; rewrite Hs in Hp.
  - destruct Hp as (? & Hsh & ?). split_and!; [done..|]. by rewrite Hsh.
  - destruct Hp as (? & ? & ?). auto.
Qed.

Lemma open_phase st ev out shut ns :
  st = kConnected ∨ st = kDisconnecting → (writing ev = true ↔ out ≠ []) → up_notices ns →
  (shut = true → out = [] ∧ st = kDisconnecting) → phase st ev out shut ns.
Proof.
  intros [->| ->] ? ? Hs; split_and!; auto.
  - destruct shut; [|done]. by destruct (Hs eq_refl).
  - intros Ht. by apply Hs.
Qed.

(** [sendInLoop] after the direct write: [rest] is accepted and not yet sent. *)
Lemma buffer_remaining_spec w c rest :
  buf_ok (inputBuffer_ (conn w)) → buf_ok (outputBuffer_ (conn w)) →
  accepted w = wire w ++ out_bytes w ++ rest → link w c → is_open w →
  (writing (Channel.events_ c) = true ↔ out_bytes w ≠ []) → up_notices (notices w) →
  wr_shut w = false → queue_ok (state_ (conn w)) (queued w) →
  pending_ok (state_ (conn w)) (suspended w) → rest ≠ [] → size_of rest ≤ vector_max_size →
  buffer_remaining c rest (size_of rest) w ⇓[out_of_memory] λ w',
    alive w' ∧ state_ (conn w') = state_ (conn w).
Proof.
  intros Hin [Hout Hsz] Hacc Hlk Hop Hwr Hup Hsh Hqu Hpe Hrest Hmax. unfold buffer_remaining.
  destruct (if_queue ((highWaterMark_ (conn w) <=? u64 (readableBytes (outputBuffer_ (conn w)) + size_of rest))
    && (readableBytes (outputBuffer_ (conn w)) <? highWaterMark_ (conn w))
    && highWaterMarkCallback_ (conn w)) w
    (THighWaterMark (u64 (readableBytes (outputBuffer_ (conn w)) + size_of rest))) ltac:(done)) as (q & -> & Hq).
  cbv zeta. cbn [conn with_queue].
  apply yields_or_bind. eapply yields_or_mono.
  { eapply yields_or_weaken; [|by apply append_or_spec]. by intros f [-> _]. }
  intros out ([Hok' Hc'] & [_ Hsz']).
  set (w1 := with_conn (with_queue w q) (set_output (conn w) out)).
  assert (link w1 c) as Hlk1 by by apply (link_conn w).
  assert (out_bytes w1 = out_bytes w ++ rest) as Hb1 by exact Hc'.
  assert (out_bytes w1 ≠ []) as Hne by (rewrite Hb1; by destruct (out_bytes w), rest).
  assert (∀ w2 c2, w2 = w1 ∨ (∃ cp, w2 = with_chans w1 cp) → link w2 c2 →
            writing (Channel.events_ c2) = true → alive w2 ∧ state_ (conn w2) = state_ (conn w)) as Hfin.
  { intros w2 c2 Hw2 Hlk2 Hw. split; [exists c2|by destruct Hw2 as [->|[cp ->]]].
    assert (buf_ok out) as Hbo by (split; [done|lia]).
    apply open_states in Hop.
    destruct Hw2 as [->|[cp ->]]; (split; [exact Hin|exact Hbo| |exact Hlk2|exact (Hq _ Hqu)| |exact Hpe]).
    1, 3: cbn; rewrite Hacc; f_equal; symmetry; exact Hc'.
    all: apply open_phase; [exact Hop|by split|exact Hup|]; cbn; by rewrite Hsh. }
  unfold isWriting. fold (writing (Channel.events_ c)).
  destruct (writing (Channel.events_ c)) eqn:Hw; cbn [negb].
  - apply yields_or_ret. eapply Hfin; eauto.
  - apply yields_yields_or. destruct (channel_ops _ _ Hlk1) as (_ & _ & He & _).
    destruct (mask_ok_ops _ (link_mask _ _ Hlk)) as (_ & _ & Hm & _).
    eapply yields_mono; [by apply (on_channel_mask w1 c _ _ Hlk1 Hm)|].
    intros w2 (cp & c2 & -> & Hlk2 & Hev). eapply Hfin; eauto.
    rewrite Hev. by apply mask_writing, (link_mask _ _ Hlk).
Qed.

(** ** Member functions keep the invariant *)

(** [keeps m w]: [m] returns, or memory is exhausted; the connection stays
    alive and in the same state. *)
Definition keeps (m : outcome (World P)) w : Prop :=
  m ⇓[out_of_memory] λ w', alive w' ∧ state_ (conn w') = state_ (conn w).

Lemma keeps_same w c : live w c → keeps (mret w) w.
Proof. intros Hl. apply yields_or_ret. split; [by exists c|done]. Qed.

Lemma live_with_queue w c q :
  live w c → queue_ok (state_ (conn w)) q → live (with_queue w q) c.
Proof. intros [? ? ? ? _ ? ?] ?. split; auto. by apply (link_conn w). Qed.

Lemma keeps_queue w c t :
  live w c → task_ok (state_ (conn w)) t → keeps (mret (queueInLoop w t)) w.
Proof.
  intros Hl Ht. apply yields_or_ret. split; [|done]. exists c.
  apply live_with_queue; [done|]. apply queue_ok_snoc; [apply Hl|done].
Qed.

Lemma readable_zero b : buf_ok b → (readableBytes b =? 0) = bool_decide (content b = []).
Proof.
  intros [Hb _]. rewrite readableBytes_content by done.
  case_bool_decide as Hc; [by rewrite Hc|]. apply Z.eqb_neq. unfold size_of.
  by destruct (content b).
Qed.

(** [data] is accepted, of which the kernel took the first [n] bytes. *)
Lemma accept_keeps w c w1 data n :
  live w c → is_open w → wr_shut w = false → size_of data ≤ vector_max_size →
  0 ≤ n ≤ size_of data → n = 0 ∨ out_bytes w = [] →
  (∃ q, w1 = with_queue (transmit w (take (Z.to_nat n) data)) q ∧
        ∀ st, queue_ok st (queued w) → queue_ok st q) →
  keeps (if 0 <? size_of data - n
         then buffer_remaining c (drop (Z.to_nat n) data) (size_of data - n) (accept w1 data)
         else mret (accept w1 data)) w.
Proof.
  intros Hl Hop Hns Hmax Hn Hcase (q & -> & Hq).
  destruct (live_open _ _ Hl Hop) as (Hwr & Hup & _). destruct Hl as [Hin Hout Hst Hlk Hqu Hph Hpe].
  set (w2 := accept _ data).
  assert (accepted w2 = wire w2 ++ out_bytes w ++ drop (Z.to_nat n) data) as Hacc.
  { cbn. rewrite Hst. destruct Hcase as [->| ->].
    - by rewrite app_nil_r, <- app_assoc.
    - by rewrite app_nil_r, <- app_assoc, app_nil_l, take_drop. }
  destruct (Z.ltb_spec 0 (size_of data - n)) as [Hlt|Hle].
  - rewrite <- (size_of_drop n data) by lia.
    eapply yields_or_mono; [apply buffer_remaining_spec|]; auto.
    + by apply (link_conn w).
    + intros E. apply (f_equal size_of) in E. rewrite size_of_drop, size_of_nil in E; lia.
    + rewrite size_of_drop; lia.
  - apply yields_or_ret. split; [|done]. exists c.
    split; auto; [|by apply (link_conn w)].
    rewrite Hacc, (drop_ge data), app_nil_r by (unfold size_of in *; lia). done.
Qed.

Lemma queue_id w : w = with_queue (transmit w []) (queued w).
Proof. destruct w. unfold with_queue, transmit. cbn. by rewrite app_nil_r. Qed.

Lemma sendInLoop_keeps w c write data :
  live w c → write_ok write → size_of data ≤ vector_max_size →
  (wr_shut w = true → ∀ d, write d = WriteError EPIPE EPIPE) → keeps (sendInLoop write data w) w.
Proof.
  intros Hl Hw Hmax Hsh. unfold sendInLoop, disconnected.
  case_bool_decide as Hd; [by eapply keeps_same|].
  rewrite (live_channel _ _ Hl). run_ok.
  assert (is_open w) as Hop.
  { apply open_states. pose proof (live_phase _ _ Hl) as Hp. by destruct (state_ (conn w)); auto. }
  destruct (live_open _ _ Hl Hop) as (Hwr & Hup & Hshut).
  rewrite (readable_zero _ (live_output _ _ Hl)). fold (out_bytes w).
  unfold isWriting. fold (writing (Channel.events_ c)).
  pose proof (size_of_nonneg data) as Hpos.
  (* nothing is written directly *)
  assert (wr_shut w = false →
    keeps (if 0 <? size_of data then buffer_remaining c (drop (Z.to_nat 0) data) (size_of data) (accept w data)
           else mret (accept w data)) w) as Hall.
  { intros Hns. pose proof (accept_keeps w c w data 0 Hl Hop Hns Hmax ltac:(lia) ltac:(by left)
      ltac:(exists (queued w); split; [apply queue_id|done])) as Hk. by rewrite Z.sub_0_r in Hk. }
  destruct (writing (Channel.events_ c)) eqn:Hev; cbn [negb andb].
  { oassert. apply Hall. destruct (wr_shut w); [|done]. destruct (Hshut eq_refl).
    by destruct (proj1 Hwr eq_refl). }
  assert (out_bytes w = []) as Hemp.
  { destruct (out_bytes w); [done|]. by discriminate (proj2 Hwr ltac:(done)). }
  rewrite bool_decide_true by done. unfold write_direct.
  destruct (write data) as [n|e lg] eqn:Hwd.
  - pose proof (Hw _ _ Hwd) as Hn.
    rewrite (to_unsigned_small 64 (size_of data - n)) by (unfold vector_max_size in *; lia).
    destruct (if_queue ((size_of data - n =? 0) && writeCompleteCallback_ (conn w))
                (transmit w (take (Z.to_nat n) data)) TWriteComplete ltac:(done))
      as (q & Hq & Hqq).
    cbn [conn transmit] in *. rewrite Hq. oassert. cbn [negb andb].
    apply accept_keeps; auto; [|by exists q].
    destruct (wr_shut w) eqn:E; [|done]. by rewrite (Hsh eq_refl data) in Hwd.
  - oassert. destruct (negb (e =? EWOULDBLOCK) && _) eqn:Hf; cbn [negb andb];
      [by eapply keeps_same|]. apply Hall.
    destruct (wr_shut w); [|done]. rewrite (Hsh eq_refl data) in Hwd. by injection Hwd as <- <-.
Qed.

Lemma shutdownInLoop_keeps w c :
  live w c → state_ (conn w) ≠ kConnected → keeps (shutdownInLoop w) w.
Proof.
  intros Hl Hs. unfold shutdownInLoop. rewrite (live_channel _ _ Hl). run_ok.
  unfold isWriting. fold (writing (Channel.events_ c)).
  destruct (writing (Channel.events_ c)) eqn:Hev; cbn [negb]; [by eapply keeps_same|].
  apply yields_or_ret. split; [|done]. exists c.
  destruct Hl as [? ? ? ? ? Hp ?]. split; auto; [by apply (link_conn w)|].
  cbn. change (out_bytes (shutdownWrite w)) with (out_bytes w).
  destruct (state_ (conn w)); try done. destruct Hp as (Hw & ? & ?). split_and!; auto.
  intros _. rewrite Hev in Hw. destruct (out_bytes w); [done|]. by discriminate (proj2 Hw ltac:(done)).
Qed.

(** Leaving [kConnected] for [kDisconnecting]. *)
Lemma live_disconnecting w c : live w c → is_open w → live (set_state w kDisconnecting) c.
Proof.
  intros Hl Hop. destruct (live_open _ _ Hl Hop) as (? & ? & Hs).
  destruct Hl as [? ? ? ? Hq Hp Hpe].
  split; auto; [by apply (link_conn w)|by apply (queue_ok_leave _ _ _ Hq)| |by apply (pending_ok_leave _ _ _ Hpe)].
  apply open_phase; auto. intros Ht. split; [|done]. by apply Hs.
Qed.

(** Only the phases before the close may switch reading on and off. *)
Lemma set_reading_keeps w c (f : Channels → P → Z → outcome (Channels * P)) ev b :
  live w c → is_open w → mask_ok ev → writing ev = writing (Channel.events_ c) →
  f (chans w) (poller w) (channel_ (conn w)) = update (chans w) (poller w) (channel_ (conn w)) ev →
  keeps (w ← on_channel f w; mret (with_conn w (set_reading (conn w) b))) w.
Proof.
  intros Hl Hop Hm Hw Hf. destruct (live_open _ _ Hl Hop) as (Hwr & Hup & Hsh).
  apply yields_yields_or. destruct Hl as [? ? ? Hlk ? ? ?].
  ystep (on_channel_mask w c f ev Hlk Hm Hf).
  intros w' (cp & c' & -> & Hlk' & Hev). apply yields_ret. split; [exists c'|done].
  split; auto; [by apply (link_conn (with_chans w cp))|].
  apply open_phase; auto; [by apply open_states|]. by rewrite Hev, Hw.
Qed.

Lemma startReadInLoop_keeps w c : live w c → is_open w → keeps (startReadInLoop w) w.
Proof.
  intros Hl Hop. unfold startReadInLoop. rewrite (live_channel _ _ Hl). run_ok.
  case_match; [|by eapply keeps_same].
  destruct (channel_ops _ _ (live_link _ _ Hl)) as (He & _).
  pose proof (link_mask _ _ (live_link _ _ Hl)) as Hm.
  eapply (set_reading_keeps w c _ _ _ Hl Hop); [..|exact He];
    [by apply mask_ok_ops|by apply mask_writing].
Qed.

Lemma stopReadInLoop_keeps w c : live w c → is_open w → keeps (stopReadInLoop w) w.
Proof.
  intros Hl Hop. unfold stopReadInLoop. rewrite (live_channel _ _ Hl). run_ok.
  case_match; [|by eapply keeps_same].
  destruct (channel_ops _ _ (live_link _ _ Hl)) as (_ & He & _).
  pose proof (link_mask _ _ (live_link _ _ Hl)) as Hm.
  eapply (set_reading_keeps w c _ _ _ Hl Hop); [..|exact He];
    [by apply mask_ok_ops|by apply mask_writing].
Qed.

(** ** User code *)

(** User calls may move the connection from one open state to the other. *)
Definition steps_to w w' : Prop :=
  alive w' ∧ (is_open w' ↔ is_open w) ∧
  (state_ (conn w) = kConnected ∨ state_ (conn w') = state_ (conn w)).

Lemma steps_to_trans w1 w2 w3 : steps_to w1 w2 → steps_to w2 w3 → steps_to w1 w3.
Proof.
  intros (_ & Ho & Hs) (Ha & Ho' & Hs'). split; [done|]. split; [by rewrite Ho'|].
  destruct Hs as [?|Hs]; [by left|]. rewrite Hs in Hs'. auto.
Qed.

Lemma keeps_steps m w : keeps m w → m ⇓[out_of_memory] steps_to w.
Proof.
  intros Hk. eapply yields_or_mono; [exact Hk|]. intros w' [? Hs].
  split; [done|]. rewrite !open_states, Hs. auto.
Qed.

Lemma StringPiece_small message : message_ok message → StringPiece_of message = Ok message.
Proof.
  intros Hm. pose proof (size_of_nonneg message). unfold StringPiece_of, message_ok in *.
  rewrite to_signed_small by (unfold in_signed; lia). rewrite (proj2 (Z.ltb_ge _ _)) by lia.
  rewrite take_ge; [done|]. unfold size_of. lia.
Qed.

(** An open connection goes on in [kDisconnecting]. *)
Lemma disconnecting_steps w m :
  is_open w → keeps m (set_state w kDisconnecting) → m ⇓[out_of_memory] steps_to w.
Proof.
  intros Ho Hm. eapply yields_or_mono; [by apply keeps_steps|]. intros w' (? & Ho' & Hs).
  pose proof (proj1 (open_states w) Ho) as Ho2. split; [done|]. split.
  - rewrite Ho'. split; [done|]. intros _. apply open_states. by right.
  - destruct Hs as [Hs|Hs]; cbn in Hs; [done|]. destruct Ho2 as [|Ho2]; [by left|]. right. congruence.
Qed.

Lemma user_call_spec w u :
  alive w → call_ok (open (conn w)) u → user_call u w ⇓[out_of_memory] steps_to w.
Proof.
  intros [c Hl] Hu. destruct u as [write message| | | | | |n]; cbn [user_call call_ok] in *.
  - destruct Hu as [Hw Hm]. apply keeps_steps. unfold send, connected.
    rewrite (StringPiece_small _ Hm). run_ok.
    case_bool_decide as Hs; [|by eapply keeps_same].
    eapply sendInLoop_keeps; eauto using message_max. intros Hsh.
    destruct (live_open _ _ Hl) as (_ & _ & Hx); [apply open_states; by left|].
    destruct (Hx Hsh). congruence.
  - unfold shutdown, connected. case_bool_decide as Hs; [|by eapply keeps_steps, keeps_same].
    assert (is_open w) as Hop by (apply open_states; by left).
    apply disconnecting_steps; [done|].
    by eapply shutdownInLoop_keeps; [apply live_disconnecting|].
  - unfold forceClose. destruct (open (conn w)) eqn:Ho; [|by eapply keeps_steps, keeps_same].
    apply disconnecting_steps; [done|]. by eapply keeps_queue; [apply live_disconnecting|].
  - unfold forceCloseWithDelay. destruct (open (conn w)) eqn:Ho; [|by eapply keeps_steps, keeps_same].
    apply disconnecting_steps; [done|]. by eapply keeps_same, live_disconnecting.
  - by eapply keeps_steps, startReadInLoop_keeps.
  - by eapply keeps_steps, stopReadInLoop_keeps.
  - apply keeps_steps, yields_yields_or. destruct Hl as [[Hb Hsz] ? ? ? ? ? ?].
    pose proof (readableBytes_content _ Hb) as Hr. pose proof (size_of_nonneg (content (inputBuffer_ (conn w)))).
    ystep (retrieve_spec (inputBuffer_ (conn w)) (Z.min (Z.of_nat n) (readableBytes (inputBuffer_ (conn w))))
             Hb Hsz ltac:(lia)).
    intros b ([Hb' _] & Eb & _). apply yields_ret. split; [exists c|done].
    split; auto; [split; [done|cbn; by rewrite Eb]|by apply (link_conn w)].
Qed.

(** ** Other threads *)

Lemma live_with_suspended w c l :
  live w c → pending_ok (state_ (conn w)) l → live (with_suspended w l) c.
Proof. intros [? ? ? ? ? ? _] ?. split; auto. by apply (link_conn w). Qed.

Lemma keeps_suspend (b : bool) w c o :
  live w c → off_ok (state_ (conn w)) o → keeps (mret (if b then suspend w o else w)) w.
Proof.
  intros Hl Ho. destruct b; [|by eapply keeps_same]. apply yields_or_ret. split; [|done]. exists c.
  apply live_with_suspended; [done|]. apply Forall_app. split; [apply Hl|by constructor].
Qed.

Lemma off_call_keeps w u : alive w → off_call_ok u → keeps (off_call u w) w.
Proof.
  intros [c Hl] Hu. destruct u as [write message| | | | | |n]; cbn [off_call off_call_ok] in *.
  - unfold send_off. rewrite (StringPiece_small _ Hu). run_ok. by eapply keeps_suspend.
  - by eapply keeps_suspend.
  - by eapply keeps_suspend.
  - by eapply keeps_suspend.
  - by eapply keeps_queue.
  - by eapply keeps_queue.
  - done.
Qed.

Lemma resume_set_spec w n : alive w → is_open w → steps_to w (resume_set n w).
Proof.
  intros [c Hl] Hop. unfold resume_set.
  destruct (suspended w !! n) as [[next|t]|] eqn:E; [|by split; [exists c|split; auto]..].
  pose proof (live_pending _ _ Hl) as Hpe. pose proof (Forall_lookup_1 _ _ _ _ Hpe E) as Hn.
  assert (pending_ok kDisconnecting (delete n (suspended w))) as Hd.
  { apply (pending_ok_leave (state_ (conn w))); [|done]. by apply Forall_delete. }
  set (l := match next with Some t => _ | None => _ end).
  assert (pending_ok kDisconnecting l) as Hl'.
  { subst l. destruct next as [t|]; [|done]. apply Forall_app. split; [done|].
    constructor; [|done]. by destruct t. }
  split; [exists c|].
  - change (live (with_suspended (set_state w kDisconnecting) l) c).
    apply live_with_suspended; [by apply live_disconnecting|done].
  - rewrite !open_states. cbn. apply open_states in Hop. naive_solver.
Qed.

Lemma resume_queue_keeps w n : alive w → keeps (mret (resume_queue n w)) w.
Proof.
  intros [c Hl]. unfold resume_queue.
  destruct (suspended w !! n) as [[next|t]|] eqn:E; [by eapply keeps_same| |by eapply keeps_same].
  pose proof (live_pending _ _ Hl) as Hpe. pose proof (Forall_lookup_1 _ _ _ _ Hpe E) as Hn.
  apply (keeps_queue (with_suspended w (delete n (suspended w))) c); [|done].
  apply live_with_suspended; [done|]. by apply Forall_delete.
Qed.

Lemma user_step_spec w s :
  alive w → step_ok (open (conn w)) s → user_step s w ⇓[out_of_memory] steps_to w.
Proof.
  intros Ha Hs. destruct s as [u|u|n|n]; cbn [user_step step_ok] in *.
  - by apply user_call_spec.
  - by apply keeps_steps, off_call_keeps.
  - apply yields_or_ret. by apply resume_set_spec.
  - by apply keeps_steps, resume_queue_keeps.
Qed.

Lemma user_steps_spec w us :
  alive w → Forall (step_ok (open (conn w))) us → user_steps us w ⇓[out_of_memory] steps_to w.
Proof.
  revert w. induction us as [|u us IH]; intros w Ha Hus; cbn [user_steps].
  { apply yields_or_ret. split; auto. }
  apply Forall_cons in Hus as [Hu Hus]. ostep (user_step_spec w u Ha Hu).
  intros w1 H1. pose proof H1 as (Ha1 & Ho1 & _).
  eapply yields_or_mono; [apply IH; [done|]|].
  - replace (open (conn w1)) with (open (conn w)); [done|].
    unfold is_open in Ho1. destruct (open (conn w)), (open (conn w1)); intuition congruence.
  - intros w2. by apply steps_to_trans.
Qed.

Lemma live_notify w c n :
  live w c → (if open (conn w) then plain n else late n) → live (notify w n) c.
Proof.
  intros Hl Hn. destruct Hl as [? ? ? ? ? Hp ?]. split; auto; [by apply (link_conn w)|].
  cbn. unfold open in Hn.
  destruct (state_ (conn w)) eqn:Hs; cbn in Hn; [|done|..].
  - destruct Hp. split; [done|]. by apply down_snoc.
  - destruct Hp as (? & ? & ?). split_and!; auto. by apply up_snoc.
  - destruct Hp as (? & ? & ?). split_and!; auto. by apply up_snoc.
Qed.

Lemma callback_spec w n us :
  alive w → (if open (conn w) then plain n else late n) → Forall (step_ok (open (conn w))) us →
  callback n us w ⇓[out_of_memory] steps_to w.
Proof.
  intros [c Hl] Hn Hus. unfold callback. eapply yields_or_mono.
  { apply (user_steps_spec (notify w n)); [exists c; by apply live_notify|done]. }
  done.
Qed.

(** ** Handlers *)

(** The only ways the state changes. *)
Definition state_le (st st' : StateE) : Prop :=
  st' = st ∨ st' = kDisconnected ∨ (st = kConnected ∧ st' = kDisconnecting).

#[local] Instance state_le_preorder : PreOrder state_le.
Proof. split; [by left|]. intros x y z. unfold state_le. naive_solver. Qed.

(** The connection lives on, in the same or in a later state. *)
Definition closes_or_stays w w' : Prop :=
  alive w' ∧ state_le (state_ (conn w)) (state_ (conn w')).

Lemma steps_to_le w w' : steps_to w w' → closes_or_stays w w'.
Proof.
  intros (? & Ho & Hs). split; [done|]. rewrite !open_states in Ho. unfold state_le.
  destruct Hs as [Hs|Hs]; [|by left]. rewrite Hs in *. naive_solver.
Qed.

Lemma closes_or_stays_trans w1 w2 w3 :
  closes_or_stays w1 w2 → closes_or_stays w2 w3 → closes_or_stays w1 w3.
Proof. intros [_ H12] [? H23]. split; [done|]. by etrans. Qed.

(** The channel is disabled on the way down; the callback is recorded next. *)
Lemma down_live w c :
  live w c → is_open w →
  on_channel disableAll (set_state w kDisconnected) ⇓ λ w',
    ∃ c', live (notify w' (NConnection false)) c' ∧ state_ (conn w') = kDisconnected.
Proof.
  intros Hl Hop.
  destruct (live_open _ _ Hl Hop) as (_ & Hup & _). destruct Hl as [Hin Hout Hst Hlk Hqu _ Hpe].
  set (w1 := set_state w kDisconnected).
  assert (link w1 c) as Hlk1 by by apply (link_conn w).
  eapply yields_mono; [apply (on_channel_mask w1 c disableAll kNoneEvent); [done|by left|done]|].
  intros w2 (cp & c2 & -> & Hlk2 & Hev). exists c2. split; [|done].
  split; auto; [by apply (link_conn (with_chans w1 cp))|by apply (queue_ok_leave _ _ _ Hqu)| |by apply (pending_ok_leave _ _ _ Hpe)].
  split; [done|]. by apply up_down.
Qed.

(** User code in the last connection callback. *)
Lemma down_callback w c us :
  live (notify w (NConnection false)) c → state_ (conn w) = kDisconnected →
  Forall (step_ok false) us →
  callback (NConnection false) us w ⇓[out_of_memory] λ w',
    alive w' ∧ state_ (conn w') = kDisconnected.
Proof.
  intros Hl Hs Hus. unfold callback.
  assert (open (conn (notify w (NConnection false))) = false) as Ho by (unfold open; cbn; by rewrite Hs).
  eapply yields_or_mono; [apply user_steps_spec; [by exists c|by rewrite Ho]|].
  intros w' (? & _ & [Hs'|Hs']); cbn in Hs'; [congruence|]. split; congruence.
Qed.

Lemma handleClose_spec w us :
  alive w → is_open w → Forall (step_ok false) us →
  handleClose us w ⇓[out_of_memory] λ w', alive w' ∧ state_ (conn w') = kDisconnected.
Proof.
  intros [c Hl] Hop Hus. unfold handleClose. rewrite Hop. run_ok.
  apply yields_or_bind. eapply yields_yields_or, yields_mono; [by apply (down_live w c)|].
  intros w2 (c2 & Hl3 & Hs2). ostep (down_callback w2 c2 us Hl3 Hs2 Hus).
  intros w3 [[c3 Hl4] Hs]. apply yields_or_ret. split; [|done]. exists c3.
  apply live_notify; [done|]. unfold open. by rewrite Hs.
Qed.

Lemma conn_handleRead_spec w readv us :
  alive w → is_open w → readv_ok readv → Forall (step_ok true) us →
  (∀ fd iov, readv fd iov = ReadvBytes [] → Forall (step_ok false) us) →
  handleRead readv us w ⇓[out_of_memory] closes_or_stays w.
Proof.
  intros [c Hl] Hop Hrv Hus Hus0. unfold handleRead. rewrite (live_channel _ _ Hl). run_ok.
  pose proof Hl as [[Hb Hsz] Hout Hst Hlk Hqu Hph Hpe].
  apply yields_or_bind. eapply yields_or_mono.
  { eapply yields_or_weaken; [|by apply (readFd_or_spec readv Hrv)]. by intros f [-> _]. }
  intros [[n savedErrno] b] Hr.
  destruct (readv (fd_ c) (readFd_iov (inputBuffer_ (conn w)))) as [e|bytes] eqn:Er.
  - destruct Hr as (-> & _ & ->). apply yields_or_ret. split; [|by left].
    exists c. split; auto; [by split|by apply (link_conn w)].
  - destruct Hr as (-> & _ & [Hb' Hc'] & [_ Hsz'] & _).
    set (w1 := with_conn w (set_input (conn w) b)).
    assert (live w1 c) as Hl1.
    { split; auto; [|by apply (link_conn w)]. split; [done|]. cbn. lia. }
    pose proof (size_of_nonneg bytes).
    destruct (Z.ltb_spec 0 (size_of bytes)) as [Hlt|Hle].
    + eapply yields_or_mono.
      * apply (callback_spec w1); [by exists c|..]; change (open (conn w1)) with (open (conn w));
          by rewrite Hop.
      * intros w'. apply (steps_to_le w1).
    + assert (bytes = []) as -> by (destruct bytes; [done|rewrite size_of_cons in Hle; unfold size_of in *; lia]).
      cbn [size_of length Z.of_nat Z.eqb].
      eapply yields_or_mono; [apply handleClose_spec|]; [by exists c|done|by eapply Hus0|].
      intros w' [? ?]. split; [done|]. by right; left.
Qed.

Lemma handleWrite_keeps w c write :
  live w c → write_ok write → keeps (handleWrite write w) w.
Proof.
  intros Hl Hw. unfold handleWrite. rewrite (live_channel _ _ Hl). run_ok.
  unfold isWriting. fold (writing (Channel.events_ c)).
  destruct (writing (Channel.events_ c)) eqn:Hev; [|by eapply keeps_same].
  pose proof Hl as [Hin [Hb Hsz] Hst Hlk Hqu Hph Hpe]. pose proof Hb as [].
  rewrite load_spec by (unfold peek; rewrite ?readableBytes_eq by done; lia). run_ok.
  rewrite readableBytes_eq by done. unfold peek.
  replace (readerIndex_ _ + (writerIndex_ _ - readerIndex_ _))
    with (writerIndex_ (outputBuffer_ (conn w))) by lia.
  fold (content (outputBuffer_ (conn w))). fold (out_bytes w).
  destruct (write (out_bytes w)) as [n|e lg] eqn:Hwd; [|by eapply keeps_same].
  pose proof (Hw _ _ Hwd) as Hn.
  destruct (Z.ltb_spec 0 n) as [Hlt|Hle]; [|by eapply keeps_same].
  assert (is_open w) as Hop.
  { apply open_states. destruct (state_ (conn w)); auto; [|done]. destruct Hph as [E _].
    by rewrite E in Hev. }
  destruct (live_open _ _ Hl Hop) as (Hwr & Hup & Hsh).
  apply yields_or_bind. eapply yields_or_mono; [apply yields_yields_or|].
  { apply (retrieve_spec _ n Hb Hsz). rewrite readableBytes_content by done. fold (out_bytes w). lia. }
  intros out ([Hbo Hco] & Eb & _).
  set (w1 := with_conn (transmit w (take (Z.to_nat n) (out_bytes w))) (set_output (conn w) out)).
  change (with_conn _ _) with w1.
  assert (buf_ok out) as Hok by (split; [done|by rewrite Eb]).
  assert (link w1 c) as Hlk1 by by apply (link_conn w).
  assert (out_bytes w1 = drop (Z.to_nat n) (out_bytes w)) as Ho1 by exact Hco.
  assert (accepted w1 = wire w1 ++ out_bytes w1) as Hst1.
  { rewrite Ho1. cbn. by rewrite Hst, <- app_assoc, take_drop. }
  assert (wr_shut w = false) as Hns.
  { destruct (wr_shut w); [|done]. destruct (Hsh eq_refl). by destruct (proj1 Hwr Hev). }
  rewrite (readable_zero _ Hok). case_bool_decide as Hemp.
  - destruct (channel_ops _ _ Hlk1) as (_ & _ & _ & He).
    destruct (mask_ok_ops _ (link_mask _ _ Hlk)) as (_ & _ & _ & Hm & _).
    apply yields_or_bind. eapply yields_yields_or, yields_mono;
      [by apply (on_channel_mask w1 c _ _ Hlk1 Hm)|].
    intros w2 (cp & c2 & -> & Hlk2 & Hev2).
    destruct (if_queue (writeCompleteCallback_ (conn w1)) (with_chans w1 cp) TWriteComplete
                ltac:(done)) as (q & Hq & Hqq).
    cbn [conn with_chans w1] in Hq |- *. rewrite Hq.
    assert (live (with_queue (with_chans w1 cp) q) c2) as Hl2.
    { apply live_with_queue; [|by apply Hqq]. split; auto. apply open_phase; auto; [by apply open_states| |cbn; by rewrite Hns].
      rewrite Hev2. destruct (mask_writing _ (link_mask _ _ Hlk)) as (_ & -> & _).
      split; [done|]. intros []. exact Hemp. }
    case_bool_decide as Hs; [|apply yields_or_ret; by split; [exists c2|]].
    eapply yields_or_mono; [eapply (shutdownInLoop_keeps _ c2)|]; [done| |done].
    cbn in Hs |- *. congruence.
  - apply yields_or_ret. split; [|done]. exists c.
    split; auto. apply open_phase; auto; [by apply open_states| |cbn; by rewrite Hns].
    rewrite Hev. split; [|done]. intros _. exact Hemp.
Qed.

Lemma forceCloseInLoop_spec w us :
  alive w → Forall (step_ok false) us →
  forceCloseInLoop us w ⇓[out_of_memory] closes_or_stays w.
Proof.
  intros Ha Hus. unfold forceCloseInLoop. destruct (open (conn w)) eqn:Ho.
  - eapply yields_or_mono; [by apply handleClose_spec|]. intros w' [? Hs]. split; [done|by right; left].
  - apply yields_or_ret. split; [done|by left].
Qed.

(** ** Channel events *)

(** What the kernel reports for a watched descriptor: what was asked for, and
    errors and hang-ups; a hang-up of a socket comes with POLLIN when it is
    asked for, so POLLPRI does not come with a bare hang-up. *)
Definition revents_ok (ev revents : Z) : Prop :=
  ev ≠ 0 ∧ 0 ≤ revents ∧
  Z.ldiff revents (Z.lor ev (Z.lor POLLERR (Z.lor POLLHUP POLLNVAL))) = 0 ∧
  (hasb revents POLLHUP = true → hasb revents POLLIN = false → hasb revents POLLPRI = false).

Lemma no_rdhup ev revents :
  mask_ok ev → revents_ok ev revents → hasb revents POLLRDHUP = false.
Proof.
  intros Hm (_ & Hpos & Hl & _). unfold hasb. apply negb_false_iff, Z.eqb_eq, Z.bits_inj_0. intros n.
  rewrite Z.land_spec. destruct (decide (n = 13)) as [->|Hn].
  - assert (Z.testbit revents 13 = false) as ->; [|done].
    pose proof (f_equal (λ z, Z.testbit z 13) Hl) as Hb. cbv beta in Hb.
    rewrite Z.ldiff_spec, Z.bits_0 in Hb.
    destruct Hm as [->|[->|[->| ->]]]; cbn in Hb; by rewrite andb_true_r in Hb.
  - change POLLRDHUP with (2 ^ 13). rewrite Z.pow2_bits_false by done. apply andb_false_r.
Qed.

Lemma hasb_lor ev a b : hasb ev (Z.lor a b) = hasb ev a || hasb ev b.
Proof.
  unfold hasb. rewrite Z.land_lor_distr_r.
  destruct (Z.eqb_spec (Z.land ev a) 0) as [->|Ha]; [by rewrite Z.lor_0_l|]. cbn.
  apply negb_true_iff, Z.eqb_neq. intros [? ?]%Z.lor_eq_0_iff. done.
Qed.

(** The callbacks of one report: after the close callback, no read callback. *)
Lemma dispatch_order c ev revents :
  mask_ok ev → revents_ok ev revents → callbacks_set c →
  ∃ close error read write, handleEvent (set_revents c revents) true =
    when close CloseCb ++ when error ErrorCb ++ when read ReadCb ++ when write WriteCb ∧
    (close = true → read = false).
Proof.
  intros Hm Hr (Hrc & Hwc & Hcc & Hec). pose proof (no_rdhup _ _ Hm Hr) as Hrd.
  destruct Hr as (_ & _ & _ & Hpri).
  exists (hasb revents POLLHUP && negb (hasb revents POLLIN)),
    (hasb revents (Z.lor POLLERR POLLNVAL)),
    (hasb revents (Z.lor POLLIN (Z.lor POLLPRI POLLRDHUP))), (hasb revents POLLOUT).
  split.
  - unfold handleEvent, handleEventWithGuard. cbn [tied_ set_revents revents_].
    cbn [readCallback_ writeCallback_ closeCallback_ errorCallback_ set_revents].
    rewrite Hrc, Hwc, Hcc, Hec, !andb_true_r. by destruct (tied_ c).
  - intros [Hh Hi%negb_true_iff]%andb_true_iff. rewrite !hasb_lor, Hi, Hrd.
    by rewrite (Hpri Hh Hi).
Qed.

Lemma channel_event_spec w c revents readv write us :
  live w c → is_open w → revents_ok (Channel.events_ c) revents →
  readv_ok readv → write_ok write →
  Forall (step_ok false) (us CloseCb) → Forall (step_ok true) (us ReadCb) →
  (∀ fd iov, readv fd iov = ReadvBytes [] → Forall (step_ok false) (us ReadCb)) →
  channel_event revents readv write us w ⇓[out_of_memory] closes_or_stays w.
Proof.
  intros Hl Hop Hr Hrv Hw Hc Hrd Hrd0. unfold channel_event. rewrite (live_channel _ _ Hl). run_ok.
  pose proof (live_link _ _ Hl) as Hlk.
  destruct (dispatch_order c _ _ (link_mask _ _ Hlk) Hr (link_callbacks _ _ Hlk))
    as (cl & er & rd & wr & -> & Hcr).
  set (w1 := with_chans w _).
  assert (alive w1) as Ha1.
  { exists (set_revents c revents). destruct Hl as [? ? ? [? ? ? ? ?] ? ? ?].
    split; auto. split; cbn; auto; [apply lookup_insert_eq|].
    apply (poller_ok_frame (chans w)); [done|]. intros fd a d _ Hd.
    destruct (decide (a = channel_ (conn w))) as [->|].
    - rewrite lookup_insert_eq. eexists. split; [done|]. by simplify_eq.
    - rewrite lookup_insert_ne by done. eauto. }
  assert (∀ w2, closes_or_stays w w2 →
            run_callbacks readv write us (when wr WriteCb) w2 ⇓[out_of_memory] closes_or_stays w) as Hwrite.
  { intros w2 [[c2 Hl2] Ho2]. destruct wr; cbn [when run_callbacks]; [|by split; [exists c2|]].
    ostep (handleWrite_keeps w2 c2 write Hl2 Hw). intros w3 [Ha3 Hs3].
    apply yields_or_ret. split; [done|]. by rewrite Hs3. }
  assert (∀ w2, closes_or_stays w w2 → (rd = true → is_open w2) →
            run_callbacks readv write us (when er ErrorCb ++ when rd ReadCb ++ when wr WriteCb) w2
              ⇓[out_of_memory] closes_or_stays w) as Hrest.
  { intros w2 H2 Hop2. replace (run_callbacks _ _ _ _ _)
      with (run_callbacks readv write us (when rd ReadCb ++ when wr WriteCb) w2) by by destruct er.
    destruct rd; cbn [when app]; [|by apply Hwrite]. cbn [run_callbacks run_callback].
    destruct H2 as [Ha2 Ho2]. ostep (conn_handleRead_spec w2 readv (us ReadCb) Ha2 (Hop2 eq_refl) Hrv Hrd Hrd0).
    intros w3 H3. apply Hwrite. by eapply closes_or_stays_trans; [split|]. }
  destruct cl; cbn [when app].
  - cbn [run_callbacks run_callback].
    ostep (handleClose_spec w1 (us CloseCb) Ha1 Hop Hc). intros w2 [Ha2 Hs2].
    apply Hrest; [split; [done|by right; left]|]. by rewrite (Hcr eq_refl).
  - apply Hrest; [split; [done|by left]|done].
Qed.

(** ** Life of a connection *)

(** Before [connectEstablished]: a new channel on a descriptor that is not registered. *)
Record fresh w (c : Channel) : Prop := {
  fresh_state : state_ (conn w) = kConnecting;
  fresh_input : buf_ok (inputBuffer_ (conn w));
  fresh_output : buf_ok (outputBuffer_ (conn w)) ∧ out_bytes w = [];
  fresh_chan : chans w !! channel_ (conn w) = Some c;
  fresh_poller : poller_ok (chans w) (poller w);
  fresh_unreg : poller_channels (poller w) !! fd_ c = None;
  fresh_channel : fd_valid (fd_ c) ∧ index_ c = -1 ∧ Channel.events_ c = 0 ∧ callbacks_set c;
  fresh_stream : wire w = [] ∧ accepted w = [] ∧ wr_shut w = false ∧ queued w = [] ∧ notices w = [] ∧ suspended w = []
}.

Lemma connectEstablished_spec w c us :
  fresh w c → Forall (step_ok true) us →
  connectEstablished us w ⇓[out_of_memory] λ w', alive w' ∧ is_open w'.
Proof.
  intros [Hs Hin [Hout Hob] Hc Hp Hun (Hv & Hi & He & Hcb) (Hw & Ha & Hsh & Hq & Hn & Hsu)] Hus.
  unfold connectEstablished. rewrite Hs, bool_decide_true by done. run_ok.
  change (get_conn_channel (set_state w kConnected)) with (get_channel (chans w) (channel_ (conn w))).
  unfold get_channel. rewrite Hc. run_ok.
  set (w1 := with_chans (set_state w kConnected) (<[ _ := tie c ]> _, _)).
  assert (chans w1 !! channel_ (conn w1) = Some (tie c)) as Hc1 by apply lookup_insert_eq.
  assert (poller_ok (chans w1) (poller w1)) as Hp1.
  { apply (poller_ok_frame (chans w)); [done|]. intros fd a d Hreg Hd. exists d. cbn.
    rewrite lookup_insert_ne; [done|]. intros <-.
    destruct (poller_ok_registered _ _ _ _ Hp Hreg) as (d' & Hd' & <- & _).
    change (chans w !! channel_ (conn w) = Some d') in Hd'. assert (d' = c) as -> by congruence.
    change (poller_channels (poller w) !! fd_ c = Some (channel_ (conn w))) in Hreg. congruence. }
  unfold on_channel at 1, enableReading, get_channel. rewrite Hc1. run_ok. cbn [Channel.events_ tie].
  rewrite He. change (Z.lor 0 kReadEvent) with 3.
  apply yields_or_bind. apply yields_or_bind. eapply yields_yields_or, yields_mono.
  { apply (poller_add_ok _ _ _ (tie c)); auto. by right; left. }
  intros [cs' p'] (Hok' & Hch & c' & -> & Hsame). cbn [fst snd].
  set (w2 := with_chans w1 _). change (notify w2 _) with (notify w2 (NConnection true)).
  assert (live (notify w2 (NConnection true)) c') as Hl2.
  { assert (link w2 c') as Hlk.
    { split; [apply lookup_insert_eq|done| |rewrite Hsame; by right; left|by rewrite Hsame].
      change (poller w2) with p'. rewrite Hch, Hsame. apply lookup_insert_eq. }
    split; auto.
    - change (accepted w = wire w ++ out_bytes w). by rewrite Ha, Hw, Hob.
    - by apply (link_conn w2).
    - cbn. rewrite Hq. by constructor.
    - cbn. change (out_bytes (notify w2 (NConnection true))) with (out_bytes w).
      split_and!; [|done|exists []; by rewrite Hn]. rewrite Hob, Hsame. by split.
    - cbn. rewrite Hsu. by constructor. }
  apply yields_or_ret. unfold callback. eapply yields_or_mono; [apply user_steps_spec; [by exists c'|done]|].
  intros w3 (? & Ho & _). split; [done|]. by apply Ho.
Qed.

(** What can happen to an established connection. *)
Inductive Event :=
  | EStep (s : Step)
  | EChannel (revents : Z) (readv : Z → list Z → ReadvResult) (write : Write)
             (us : CallbackKind → list Step)
  | ETask (write : Write) (us : list Step).

Definition apply_event (e : Event) w : outcome (World P) :=
  match e with
  | EStep s => user_step s w
  | EChannel revents readv write us => channel_event revents readv write us w
  | ETask write us => run_task write us w
  end.

(** The environment's side: the kernel behaves as documented (a write after the
    shutdown fails with EPIPE, which is still [errno] when it was logged); messages are
    shorter than 2 GiB; reading is not toggled after the close; and no thread has
    [state_] tested before the close and changed after it. *)
Definition event_ok (e : Event) w : Prop :=
  match e with
  | EStep s => step_ok (open (conn w)) s
  | EChannel revents readv write us =>
    is_open w ∧
    (∀ c, chans w !! channel_ (conn w) = Some c → revents_ok (Channel.events_ c) revents) ∧
    readv_ok readv ∧ write_ok write ∧
    Forall (step_ok false) (us CloseCb) ∧ Forall (step_ok true) (us ReadCb) ∧
    (∀ fd iov, readv fd iov = ReadvBytes [] → Forall (step_ok false) (us ReadCb))
  | ETask write us =>
    write_ok write ∧ (wr_shut w = true → ∀ d, write d = WriteError EPIPE EPIPE) ∧
    match head (queued w) with
    | Some (TStartRead | TStopRead) => is_open w
    | Some TForceClose => Forall (step_ok false) us
    | _ => Forall (step_ok (open (conn w))) us
    end
  end.

Lemma keeps_le m w : keeps m w → m ⇓[out_of_memory] closes_or_stays w.
Proof. intros Hk. eapply yields_or_mono; [exact Hk|]. intros w' [? ?]. split; [done|by left]. Qed.
Lemma steps_le m w : (m ⇓[out_of_memory] steps_to w) → m ⇓[out_of_memory] closes_or_stays w.
Proof. intros Hk. eapply yields_or_mono; [exact Hk|]. apply steps_to_le. Qed.

Lemma run_task_spec w write us :
  alive w → event_ok (ETask write us) w → run_task write us w ⇓[out_of_memory] closes_or_stays w.
Proof.
  intros [c Hl] (Hw & Hsh & Hu). unfold run_task.
  destruct (queued w) as [|t rest] eqn:Eq; [apply yields_or_ret; split; [by exists c|by left]|]. cbn [head] in Hu.
  pose proof (live_queue _ _ Hl) as Hq. rewrite Eq in Hq. apply Forall_cons in Hq as [Ht Hq].
  assert (live (with_queue w rest) c) as Hl' by by apply live_with_queue.
  set (w1 := with_queue w rest) in *. assert (alive w1) as Ha' by by exists c.
  assert (if open (conn w1) then plain NWriteComplete else late NWriteComplete) as Hn1
    by by destruct (open (conn w1)).
  destruct t as [message| | | | | |size]; cbn in Ht.
  - eapply (keeps_le _ w1). unfold sendInLoop_piece. rewrite (StringPiece_small _ Ht). run_ok.
    eapply sendInLoop_keeps; eauto using message_max.
  - eapply (keeps_le _ w1), shutdownInLoop_keeps; eauto.
  - by apply (forceCloseInLoop_spec w1).
  - eapply (keeps_le _ w1), startReadInLoop_keeps; eauto.
  - eapply (keeps_le _ w1), stopReadInLoop_keeps; eauto.
  - eapply (steps_le _ w1), (callback_spec w1); auto.
  - eapply (steps_le _ w1), (callback_spec w1); auto.
Qed.

Lemma apply_event_spec w e :
  alive w → event_ok e w → apply_event e w ⇓[out_of_memory] closes_or_stays w.
Proof.
  intros Ha He. destruct e as [s|revents readv write us|write us]; cbn [apply_event].
  - by apply steps_le, user_step_spec.
  - destruct Ha as [c Hl]. destruct He as (Hop & Hr & ? & ? & ? & ? & ?).
    eapply channel_event_spec; eauto. apply Hr, (link_chan _ _ (live_link _ _ Hl)).
  - by apply run_task_spec.
Qed.

(** Runs of the connection in which the environment keeps its side. *)
Inductive runs : World P → World P → Prop :=
  | runs_nil w : runs w w
  | runs_event w e w1 w2 :
      event_ok e w → apply_event e w = Ok w1 → runs w1 w2 → runs w w2.

Lemma runs_alive w w' : runs w w' → alive w → alive w'.
Proof.
  induction 1 as [|w e w1 w2 He Ha _ IH]; [done|]. intros Hal. apply IH.
  pose proof (apply_event_spec w e Hal He) as Hs. rewrite Ha in Hs. apply Hs.
Qed.

(** [established us w0 w]: the connection [w] was established from the new one [w0]. *)
Definition reaches w0 us w : Prop :=
  ∃ w1, connectEstablished us w0 = Ok w1 ∧ runs w1 w.

Lemma reaches_alive w0 c us w :
  fresh w0 c → Forall (step_ok true) us → reaches w0 us w → alive w.
Proof.
  intros Hf Hus (w1 & He & Hr). eapply runs_alive; [done|].
  pose proof (connectEstablished_spec w0 c us Hf Hus) as Hs. rewrite He in Hs. by destruct Hs.
Qed.

(** C1. Stream integrity.  Whatever the interleaving of user calls from any
    thread, channel events and queued functors, and however little each write
    takes, the bytes the kernel has accepted for the peer followed by the bytes
    in the output buffer are exactly the bytes of the messages [sendInLoop] took
    over, in order: nothing is lost, duplicated or reordered.  The runs are those
    of [reaches]: messages are shorter than 2 GiB, a write after the shutdown
    fails with EPIPE and logging leaves that [errno], reading is not switched
    after the close, and no other thread's [shutdown] or [forceClose] has the close
    between its test and its change of [state_]. *)
Theorem stream_integrity w0 c us w :
  fresh w0 c → Forall (step_ok true) us → reaches w0 us w →
  accepted w = wire w ++ content (outputBuffer_ (conn w)).
Proof. intros Hf Hus Hr. destruct (reaches_alive _ _ _ _ Hf Hus Hr) as [c' Hl]. apply Hl. Qed.

(** C10. Shutdown does not truncate.  While the connection is not closed, if the
    write side was shut down then every accepted byte had been handed to the
    kernel before; and while output is pending the channel watches for
    writability, so the rest will be written.  The runs are those of [reaches]:
    messages are shorter than 2 GiB, a write after the shutdown fails with EPIPE
    and logging leaves that [errno], reading is not switched after the close, and
    no other thread's [shutdown] or [forceClose] has the close between its test and
    its change of [state_]. *)
Theorem shutdown_after_drain w0 c us w :
  fresh w0 c → Forall (step_ok true) us → reaches w0 us w → is_open w →
  (wr_shut w = true → wire w = accepted w) ∧
  (∃ d, chans w !! channel_ (conn w) = Some d ∧
        (isWriting d = true ↔ content (outputBuffer_ (conn w)) ≠ [])).
Proof.
  intros Hf Hus Hr Hop. destruct (reaches_alive _ _ _ _ Hf Hus Hr) as [d Hl].
  destruct (live_open _ _ Hl Hop) as (Hw & _ & Hs). split.
  - intros Ht. destruct (Hs Ht) as [He _]. by rewrite (live_stream _ _ Hl), He, app_nil_r.
  - exists d. split; [apply Hl|done].
Qed.

(** C2. Safety of the handlers, for every poller that implements the interface:
    from a state reached by a connection, every event that [event_ok] allows runs
    to its end - no [assert] of TcpConnection.cc, of Channel.cc, of the poller or of
    Buffer.h fails - except that a buffer may outgrow [max_size()]; and the state
    only moves forward, from [kConnected] over [kDisconnecting] to [kDisconnected].
    Calls of other threads are cut after their test of [state_], after its change
    and before the functor is queued.  [event_ok] asks: the poller reports the
    channel only while the connection is open and only what it watches for, and
    no urgent data with a bare hang-up; the kernel moves no more bytes than asked;
    [startRead] and [stopRead] take no effect after the close
    ([start_read_after_close_asserts], [stop_read_after_close_asserts]); the close
    does not come between the test and the change of [state_] in another thread's
    [shutdown], [forceClose] or [forceCloseWithDelay] ([late_force_close_twice],
    [late_shutdown_reopens]); messages are shorter than 2 GiB; only the loop's
    thread touches the input buffer; and a write after the shutdown fails with
    EPIPE, which is still [errno] after LOG_SYSERR ([errno_lost_in_log]). *)
Theorem connection_safe w0 c us w e :
  fresh w0 c → Forall (step_ok true) us → reaches w0 us w → event_ok e w →
  apply_event e w ⇓[λ f, f = LengthError] λ w',
    state_le (state_ (conn w)) (state_ (conn w')).
Proof.
  intros Hf Hus Hr He. eapply yields_or_mono.
  - apply (apply_event_spec w e (reaches_alive _ _ _ _ Hf Hus Hr) He).
  - by intros w' [_ ?].
Qed.

(** C9. Order of the callbacks: the connection callback reports up first, and
    down at most once; messages are delivered only between the two, the close
    callback comes only after down, and the state is [kDisconnected] from then on.
    The runs are those of [reaches], in which every event meets [event_ok]: in
    particular no other thread's [shutdown], [forceClose] or [forceCloseWithDelay]
    tests [state_] before the close and changes it after it - there the order is
    lost ([late_force_close_twice]) -, and [startRead] and [stopRead] take no effect
    after the close. *)
Theorem callbacks_bracketed w0 c us w :
  fresh w0 c → Forall (step_ok true) us → reaches w0 us w →
  (is_open w ∧ up_notices (notices w)) ∨
  (state_ (conn w) = kDisconnected ∧ down_notices (notices w)).
Proof.
  intros Hf Hus Hr. destruct (reaches_alive _ _ _ _ Hf Hus Hr) as [d Hl].
  pose proof (live_phase _ _ Hl) as Hp. rewrite open_states.
  destruct (state_ (conn w)); [right|done|left..].
  - by destruct Hp.
  - destruct Hp as (? & ? & ?). auto.
  - destruct Hp as (? & ? & ?). auto.
Qed.

(** Destruction of a closed or connected connection succeeds: the channel is
    out of the poller and the connection is disconnected, so the assertion of
    its destructor holds. *)
Theorem destroy_safe w0 c us w us' :
  fresh w0 c → Forall (step_ok true) us → reaches w0 us w → Forall (step_ok false) us' →
  state_ (conn w) ≠ kDisconnecting →
  connectDestroyed us' w ⇓[out_of_memory] λ w',
    state_ (conn w') = kDisconnected ∧
    ∃ d, chans w' !! channel_ (conn w') = Some d ∧ poller_channels (poller w') !! fd_ d = None.
Proof.
  intros Hf Hus Hr Hus' Hs. pose proof (reaches_alive _ _ _ _ Hf Hus Hr) as Ha.
  unfold connectDestroyed.
  assert (∀ w, alive w → state_ (conn w) = kDisconnected →
    on_channel remove w ⇓[out_of_memory] λ w', state_ (conn w') = kDisconnected ∧
      ∃ d, chans w' !! channel_ (conn w') = Some d ∧ poller_channels (poller w') !! fd_ d = None) as Hrm.
  { clear. intros w [d Hl] Hs. pose proof (live_phase _ _ Hl) as Hp. rewrite Hs in Hp.
    destruct Hp as [Hev _]. destruct (live_link _ _ Hl) as [Hc Hok Hreg _ _]. unfold on_channel.
    apply yields_or_bind. eapply yields_yields_or, yields_mono; [by apply (poller_remove_ok _ _ _ d)|].
    intros [cs' p'] (_ & Hch & _ & d' & Hd' & Hsame). apply yields_or_ret. split; [done|].
    exists d'. split; [done|]. cbn. rewrite Hch, Hsame. apply lookup_delete_eq. }
  apply yields_or_bind. unfold connected. case_bool_decide as Hcn.
  - destruct Ha as [d Hl].
    apply yields_or_bind. eapply yields_yields_or, yields_mono.
    { apply (down_live w d); [done|]. apply open_states. by left. }
    intros w2 (c2 & Hl3 & Hs2).
    eapply yields_or_mono; [by apply (down_callback w2 c2)|]. intros w3 []. by apply Hrm.
  - apply yields_or_ret. apply Hrm; [done|]. destruct Ha as [d Hl].
    pose proof (live_phase _ _ Hl) as Hp. by destruct (state_ (conn w)).
Qed.

(** [connectDestroyed] of a connection in [kDisconnecting] (the server goes
    away while a shutdown is under way) does not disable the channel, so that
    the assertion of [Channel::remove] fails if the channel still watches for
    anything. *)
Theorem destroy_disconnecting_asserts w us' d :
  state_ (conn w) = kDisconnecting → chans w !! channel_ (conn w) = Some d →
  Channel.events_ d ≠ 0 →
  connectDestroyed us' w = Fault (AssertFailure 61).
Proof.
  intros Hs Hd Hev. unfold connectDestroyed, connected. rewrite Hs, bool_decide_false by done.
  unfold on_channel, remove, get_channel. run_ok. rewrite Hd. run_ok.
  unfold isNoneEvent. rewrite (proj2 (Z.eqb_neq _ kNoneEvent)) by done. done.
Qed.
End Safety.
