(* ===== verification/TcpConnectionRuns.v ===== *)
(** * Runs of a connection

    A concrete connection on [EPollPoller]: the theorems of TcpConnectionSafety
    applied to it, and runs that show which uses of the class are not safe. *)
From Stdlib Require Import Strings.Byte.
From stdpp Require Import base numbers list gmap strings.
From S2P Require Import Prelude Buffer EPollPoller Pollers Channel TcpConnection TcpConnectionSafety.
Open Scope Z_scope.
Open Scope muduo_scope.

Abbreviation Kernel := (gmap Z (Z * Z)).

(** A new connection with descriptor 5, whose channel is at address 1. *)
Definition empty_buffer : Buffer := mkBuffer (replicate 32 x00) 8 8.
Definition new_world : World (EPollPoller Kernel) :=
  mkWorld (TcpConnection_new 1 empty_buffer empty_buffer) {[ 1 := connection_channel 5 ]}
    (EPollPoller_new ∅) [] false [] [] [] [].

(** A socket that takes at most [n] bytes at a time. *)
Definition write_upto (n : nat) : Write := λ data, Wrote (Z.min (Z.of_nat n) (size_of data)).
Definition write_broken : Write := λ _, WriteError EPIPE EPIPE.
(** A peer that sent [bytes], or closed its side. *)
Definition readv_bytes (bytes : list byte) : Z → list Z → ReadvResult :=
  λ _ iov, ReadvBytes (take (Z.to_nat (foldr Z.add 0 iov)) bytes).
Definition no_calls : CallbackKind → list Step := λ _, [].

Lemma write_upto_ok n : write_ok (write_upto n).
Proof. intros data m [= <-]. pose proof (size_of_nonneg data). lia. Qed.

Lemma readv_bytes_ok bytes : readv_ok (readv_bytes bytes).
Proof.
  intros fd iov bs Hiov [= <-]. unfold size_of. rewrite length_take.
  assert (0 ≤ foldr Z.add 0 iov); [|lia]. induction Hiov; cbn; lia.
Qed.

Lemma empty_buffer_ok : buf_ok empty_buffer.
Proof. split; [split|]; vm_compute; congruence. Qed.

Lemma new_world_fresh : fresh new_world (connection_channel 5).
Proof. by split. Qed.

(** A writability event of a run with everything known. *)
Ltac writable_event :=
  split_and!; [done| |apply readv_bytes_ok|apply write_upto_ok|constructor|constructor|constructor];
  intros c Hc; vm_compute in Hc; injection Hc as <-; by split_and!.

(** Two messages are sent, one from another thread, which then shuts the connection
    down; the socket takes two bytes, then three, then the rest. *)
Lemma sample_run :
  ∃ w, reaches new_world [] w ∧ is_open w ∧ wr_shut w = true ∧ wire w = lit "helloworld".
Proof.
  eexists. split.
  - eexists. split; [vm_compute; reflexivity|].
    eapply (runs_event _ (EStep (InLoop (CSend (write_upto 2) (lit "hello"))))); [|vm_compute; reflexivity|].
    { split; [apply write_upto_ok|vm_compute; congruence]. }
    eapply (runs_event _ (EStep (OffLoop (CSend (write_upto 0) (lit "world"))))); [done|vm_compute; reflexivity|].
    eapply (runs_event _ (EStep (OffLoop CShutdown))); [done|vm_compute; reflexivity|].
    eapply (runs_event _ (EStep (ResumeQueue 0))); [done|vm_compute; reflexivity|].
    eapply (runs_event _ (EStep (ResumeSet 0))); [done|vm_compute; reflexivity|].
    eapply (runs_event _ (EStep (ResumeQueue 0))); [done|vm_compute; reflexivity|].
    eapply (runs_event _ (ETask (write_upto 9) [])); [|vm_compute; reflexivity|].
    { split_and!; [apply write_upto_ok|done|constructor]. }
    eapply (runs_event _ (ETask (write_upto 9) [])); [|vm_compute; reflexivity|].
    { split_and!; [apply write_upto_ok|done|constructor]. }
    eapply (runs_event _ (EChannel POLLOUT (readv_bytes []) (write_upto 3) no_calls));
      [writable_event|vm_compute; reflexivity|].
    eapply (runs_event _ (EChannel POLLOUT (readv_bytes []) (write_upto 9) no_calls));
      [writable_event|vm_compute; reflexivity|].
    apply runs_nil.
  - vm_compute. done.
Qed.

Lemma stream_integrity_witness :
  ∃ w, reaches new_world [] w ∧ wire w = lit "helloworld" ∧
       accepted w = wire w ++ content (outputBuffer_ (conn w)).
Proof.
  destruct sample_run as (w & Hr & _ & _ & Hw). exists w. split; [done|]. split; [done|].
  apply (stream_integrity new_world (connection_channel 5) [] w);
    [apply new_world_fresh|constructor|done].
Defined.

Lemma shutdown_after_drain_witness :
  ∃ w, reaches new_world [] w ∧ is_open w ∧ wr_shut w = true ∧
    (wr_shut w = true → wire w = accepted w) ∧
    (∃ d, chans w !! channel_ (conn w) = Some d ∧
          (isWriting d = true ↔ content (outputBuffer_ (conn w)) ≠ [])).
Proof.
  destruct sample_run as (w & Hr & Ho & Hs & _). exists w. do 3 (split; [done|]).
  apply (shutdown_after_drain new_world (connection_channel 5) [] w);
    [apply new_world_fresh|constructor|done|done].
Defined.

Lemma connection_safe_witness :
  ∃ w, reaches new_world [] w ∧ event_ok (EStep (InLoop CForceClose)) w ∧
    apply_event (EStep (InLoop CForceClose)) w ⇓[λ f, f = LengthError] λ w',
      state_le (state_ (conn w)) (state_ (conn w')).
Proof.
  destruct sample_run as (w & Hr & _). exists w. split; [done|]. split; [done|].
  apply (connection_safe new_world (connection_channel 5) [] w (EStep (InLoop CForceClose)));
    [apply new_world_fresh|constructor|done|done].
Defined.

Lemma callbacks_bracketed_witness :
  ∃ w, reaches new_world [] w ∧
    ((is_open w ∧ up_notices (notices w)) ∨
     (state_ (conn w) = kDisconnected ∧ down_notices (notices w))).
Proof.
  destruct sample_run as (w & Hr & _). exists w. split; [done|].
  apply (callbacks_bracketed new_world (connection_channel 5) [] w);
    [apply new_world_fresh|constructor|done].
Defined.

(** A connection that was only established, and one that was shut down. *)
Lemma established_run :
  ∃ w, reaches new_world [] w ∧ state_ (conn w) = kConnected.
Proof.
  eexists. split; [eexists; split; [vm_compute; reflexivity|apply runs_nil]|]. done.
Qed.
Lemma disconnecting_run :
  ∃ w d, reaches new_world [] w ∧ state_ (conn w) = kDisconnecting ∧
    chans w !! channel_ (conn w) = Some d ∧ Channel.events_ d ≠ 0.
Proof.
  eexists _, _. split.
  - eexists. split; [vm_compute; reflexivity|].
    eapply (runs_event _ (EStep (InLoop CShutdown))); [done|vm_compute; reflexivity|apply runs_nil].
  - split; [done|]. split; [vm_compute; reflexivity|done].
Qed.

Lemma destroy_safe_witness :
  ∃ w, reaches new_world [] w ∧ state_ (conn w) = kConnected ∧
    connectDestroyed [] w ⇓[out_of_memory] λ w',
      state_ (conn w') = kDisconnected ∧
      ∃ d, chans w' !! channel_ (conn w') = Some d ∧ poller_channels (poller w') !! fd_ d = None.
Proof.
  destruct established_run as (w & Hr & Hs). exists w. do 2 (split; [done|]).
  apply (destroy_safe new_world (connection_channel 5) [] w []);
    [apply new_world_fresh|constructor|done|constructor|by rewrite Hs].
Defined.

Lemma destroy_disconnecting_asserts_witness :
  ∃ w, reaches new_world [] w ∧ state_ (conn w) = kDisconnecting ∧
       connectDestroyed [] w = Fault (AssertFailure 61).
Proof.
  destruct disconnecting_run as (w & d & Hr & Hs & Hd & He). exists w. do 2 (split; [done|]).
  by apply (destroy_disconnecting_asserts w [] d).
Defined.

(** ** Uses that are not safe *)

(** The peer closes; the user switches reading back on in the connection
    callback, as [startRead] allows in any state.  The destruction asserts. *)
Theorem start_read_after_close_asserts :
  (w ← connectEstablished [] new_world;
   w ← channel_event POLLIN (readv_bytes []) (write_upto 0)
         (λ k, if k is ReadCb then [InLoop CStartRead] else []) w;
   connectDestroyed [] w) = Fault (AssertFailure 61).
Proof. vm_compute. reflexivity. Qed.

(** The same with [stopRead]: the descriptor, which [handleClose] had taken out
    of the interest list, is put back with an empty mask, and the hang-up the
    kernel then reports runs [handleClose] a second time, which asserts. *)
Theorem stop_read_after_close_asserts :
  let closed := (w ← connectEstablished [] new_world;
                 channel_event POLLIN (readv_bytes []) (write_upto 0)
                   (λ k, if k is ReadCb then [InLoop CStopRead] else []) w) in
  (w ← closed; mret (interest (epoll_ (poller w)))) = Ok {[ 5 := (0, 1) ]} ∧
  (w ← closed; channel_event POLLHUP (readv_bytes []) (write_upto 0) no_calls w)
    = Fault (AssertFailure 412).
Proof. split; vm_compute; reflexivity. Qed.

(** Another thread is in [forceClose], between its test of [state_] and its change, when the peer closes: the
    change takes the state back from [kDisconnected] to [kDisconnecting], and the functor closes a second
    time, with a second down and a second close callback. *)
Theorem late_force_close_twice :
  (w ← connectEstablished [] new_world;
   w ← user_steps [OffLoop CForceClose] w;
   w ← channel_event POLLIN (readv_bytes []) (write_upto 0) no_calls w;
   w ← user_steps [ResumeSet 0; ResumeQueue 0] w;
   w' ← run_task (write_upto 0) [] w;
   mret (state_ (conn w), notices w'))
  = Ok (kDisconnecting, [NConnection true; NConnection false; NClose; NConnection false; NClose]).
Proof. vm_compute. reflexivity. Qed.

(** In [shutdown] the same race leaves a closed connection in [kDisconnecting] for good. *)
Theorem late_shutdown_reopens :
  (w ← connectEstablished [] new_world;
   w ← user_steps [OffLoop CShutdown] w;
   w ← channel_event POLLIN (readv_bytes []) (write_upto 0) no_calls w;
   w ← user_steps [ResumeSet 0; ResumeQueue 0] w;
   w ← run_task (write_upto 0) [] w;
   w ← connectDestroyed [] w;
   mret (state_ (conn w), notices w))
  = Ok (kDisconnecting, [NConnection true; NConnection false; NClose]).
Proof. vm_compute. reflexivity. Qed.

(** A write after the shutdown fails with EPIPE; when logging it changes [errno], the data is taken for
    pending, and the channel waits to write it to a socket that takes no more. *)
Theorem errno_lost_in_log :
  (w ← connectEstablished [] new_world;
   w ← user_steps [OffLoop (CSend (write_upto 0) (lit "x")); InLoop CShutdown; ResumeQueue 0] w;
   w ← run_task (λ _, WriteError EPIPE EWOULDBLOCK) [] w;
   mret (wr_shut w, content (outputBuffer_ (conn w))))
  = Ok (true, lit "x").
Proof. vm_compute. reflexivity. Qed.
