(* ===== verification/Http.v ===== *)
(** * HTTP requests (muduo/net/http/HttpRequest.h, HttpContext.h, HttpContext.cc)

    The parser works on the input buffer of a connection.  A pair of pointers
    into the buffer is the byte string between them.  The loop of
    [parseRequest] has fuel; [None] means that the fuel is used up. *)
From Stdlib Require Import Strings.Byte.
From stdpp Require Import base numbers list strings.
From S2P Require Import Prelude Buffer ByteQueue.
Open Scope Z_scope.
Open Scope muduo_scope.

Abbreviation bytes := (list byte).

(** ** Standard library *)

(** [std::find]: the position of the first [ch], the length if there is none. *)
Fixpoint find (l : bytes) (ch : byte) : nat :=
  match l with
  | [] => 0
  | b :: l => if bool_decide (b = ch) then 0 else S (find l ch)
  end.

Lemma find_app l ch rest : ch ∉ l → find (l ++ ch :: rest) ch = length l.
Proof.
  induction l as [|b l IH]; intros Hn; cbn; [by rewrite bool_decide_true|].
  apply not_elem_of_cons in Hn as [? ?]. rewrite bool_decide_false by done. by rewrite IH.
Qed.

Lemma find_none l ch : ch ∉ l → find l ch = length l.
Proof.
  induction l as [|b l IH]; intros Hn; [done|]. cbn.
  apply not_elem_of_cons in Hn as [? ?]. rewrite bool_decide_false by done. by rewrite IH.
Qed.

(** isspace(3) in the C locale; a byte from 128 on, which a signed [char] makes a negative argument, is no space. *)
Definition isspace (b : byte) : bool :=
  bool_decide (b = x20) || ((9 <=? Z_of_byte b) && (Z_of_byte b <=? 13)).

Fixpoint skip_spaces (l : bytes) : bytes :=
  match l with
  | b :: l' => if isspace b then skip_spaces l' else l
  | [] => []
  end.

(** Strings compare as byte strings. *)
Fixpoint bytes_ltb (a b : bytes) : bool :=
  match a, b with
  | [], [] => false
  | [], _ :: _ => true
  | _ :: _, [] => false
  | x :: a, y :: b =>
    if Z_of_byte x <? Z_of_byte y then true
    else if Z_of_byte y <? Z_of_byte x then false else bytes_ltb a b
  end.

(** [std::map<string, string>], in the order of its keys. *)
Abbreviation headers := (list (bytes * bytes)).

Fixpoint map_set (m : headers) (k v : bytes) : headers :=
  match m with
  | [] => [(k, v)]
  | (k', v') :: m' =>
    if bytes_ltb k k' then (k, v) :: m
    else if bytes_ltb k' k then (k', v') :: map_set m' k v
    else (k', v) :: m'
  end.

Fixpoint map_find (m : headers) (k : bytes) : option bytes :=
  match m with
  | [] => None
  | (k', v) :: m => if bool_decide (k' = k) then Some v else map_find m k
  end.

(** ** HttpRequest *)

Inductive Method := kInvalid | kGet | kPost | kHead | kPut | kDelete.
Inductive Version := kUnknown | kHttp10 | kHttp11.

#[export] Instance Method_eq_dec : EqDecision Method.
Proof. solve_decision. Defined.
#[export] Instance Version_eq_dec : EqDecision Version.
Proof. solve_decision. Defined.

Record HttpRequest := mkHttpRequest {
  method_ : Method;
  version_ : Version;
  path_ : bytes;
  query_ : bytes;
  receiveTime_ : Z;
  headers_ : headers
}.

#[export] Instance HttpRequest_eq_dec : EqDecision HttpRequest.
Proof. solve_decision. Defined.

Definition HttpRequest_new : HttpRequest := mkHttpRequest kInvalid kUnknown [] [] 0 [].

Definition set_method (r : HttpRequest) (m : Method) : HttpRequest :=
  mkHttpRequest m (version_ r) (path_ r) (query_ r) (receiveTime_ r) (headers_ r).
Definition setVersion (r : HttpRequest) (v : Version) : HttpRequest :=
  mkHttpRequest (method_ r) v (path_ r) (query_ r) (receiveTime_ r) (headers_ r).
Definition setPath (r : HttpRequest) (p : bytes) : HttpRequest :=
  mkHttpRequest (method_ r) (version_ r) p (query_ r) (receiveTime_ r) (headers_ r).
Definition setQuery (r : HttpRequest) (q : bytes) : HttpRequest :=
  mkHttpRequest (method_ r) (version_ r) (path_ r) q (receiveTime_ r) (headers_ r).
Definition setReceiveTime (r : HttpRequest) (t : Z) : HttpRequest :=
  mkHttpRequest (method_ r) (version_ r) (path_ r) (query_ r) t (headers_ r).
Definition set_headers (r : HttpRequest) (h : headers) : HttpRequest :=
  mkHttpRequest (method_ r) (version_ r) (path_ r) (query_ r) (receiveTime_ r) h.

Definition method_of (m : bytes) : Method :=
  if bool_decide (m = lit "GET") then kGet
  else if bool_decide (m = lit "POST") then kPost
  else if bool_decide (m = lit "HEAD") then kHead
  else if bool_decide (m = lit "PUT") then kPut
  else if bool_decide (m = lit "DELETE") then kDelete
  else kInvalid.

Definition setMethod (r : HttpRequest) (m : bytes) : outcome (bool * HttpRequest) :=
  _ ← assertb 55 (bool_decide (method_ r = kInvalid));
  let r := set_method r (method_of m) in
  mret (bool_decide (method_ r ≠ kInvalid), r).

Definition methodString (r : HttpRequest) : string :=
  match method_ r with
  | kGet => "GET" | kPost => "POST" | kHead => "HEAD" | kPut => "PUT" | kDelete => "DELETE"
  | kInvalid => "UNKNOWN"
  end.

(** [line] is the header line, [colon] the position of its first colon. *)
Definition addHeader (r : HttpRequest) (line : bytes) (colon : nat) : HttpRequest :=
  let field := take colon line in
  let value := skip_spaces (drop (S colon) line) in
  let value := reverse (skip_spaces (reverse value)) in
  set_headers r (map_set (headers_ r) field value).

Definition getHeader (r : HttpRequest) (field : bytes) : bytes :=
  default [] (map_find (headers_ r) field).

Definition swap (a b : HttpRequest) : HttpRequest * HttpRequest := (b, a).

(** ** HttpContext *)

Inductive HttpRequestParseState := kExpectRequestLine | kExpectHeaders | kExpectBody | kGotAll.

#[export] Instance HttpRequestParseState_eq_dec : EqDecision HttpRequestParseState.
Proof. solve_decision. Defined.

Record HttpContext := mkHttpContext { state_ : HttpRequestParseState; request_ : HttpRequest }.

#[export] Instance HttpContext_eq_dec : EqDecision HttpContext.
Proof. solve_decision. Defined.

Definition HttpContext_new : HttpContext := mkHttpContext kExpectRequestLine HttpRequest_new.
Definition gotAll (c : HttpContext) : bool := bool_decide (state_ c = kGotAll).
Definition reset (c : HttpContext) : HttpContext :=
  mkHttpContext kExpectRequestLine (swap (request_ c) HttpRequest_new).1.

(** The version at the end of a request line. *)
Definition parse_version (r : HttpRequest) (v : bytes) : bool * HttpRequest :=
  if bool_decide (length v = 8%nat) && bool_decide (take 7 v = lit "HTTP/1.") then
    if bool_decide (drop 7 v = lit "1") then (true, setVersion r kHttp11)
    else if bool_decide (drop 7 v = lit "0") then (true, setVersion r kHttp10)
    else (false, r)
  else (false, r).

Definition processRequestLine (r : HttpRequest) (line : bytes) : outcome (bool * HttpRequest) :=
  let space := find line x20 in
  if bool_decide (space = length line) then mret (false, r)
  else
    '(ok, r) ← setMethod r (take space line);
    if (ok : bool) then
      let rest := drop (S space) line in
      let space := find rest x20 in
      if bool_decide (space = length rest) then mret (false, r)
      else
        let target := take space rest in
        let question := find target x3f in
        let r := if bool_decide (question ≠ length target)
                 then setQuery (setPath r (take question target)) (drop question target)
                 else setPath r target in
        mret (parse_version r (drop (S space) rest))
    else mret (false, r).

(** One turn of the loop: [ok], [hasMore], the context and the buffer. *)
Definition parse_turn (now : Z) (ctx : HttpContext) (buf : Buffer) :
    outcome (bool * bool * HttpContext * Buffer) :=
  match state_ ctx with
  | kExpectRequestLine =>
    match findCRLF buf with
    | Some crlf =>
      line ← load (buffer_ buf) (peek buf) (crlf - peek buf);
      '(ok, r) ← processRequestLine (request_ ctx) line;
      if (ok : bool) then
        buf ← retrieveUntil buf (crlf + 2);
        mret (true, true, mkHttpContext kExpectHeaders (setReceiveTime r now), buf)
      else mret (false, false, mkHttpContext kExpectRequestLine r, buf)
    | None => mret (true, false, ctx, buf)
    end
  | kExpectHeaders =>
    match findCRLF buf with
    | Some crlf =>
      line ← load (buffer_ buf) (peek buf) (crlf - peek buf);
      let colon := find line x3a in
      buf ← retrieveUntil buf (crlf + 2);
      if bool_decide (colon ≠ length line)
      then mret (true, true, mkHttpContext kExpectHeaders (addHeader (request_ ctx) line colon), buf)
      else mret (true, false, mkHttpContext kGotAll (request_ ctx), buf)
    | None => mret (true, false, ctx, buf)
    end
  | kExpectBody | kGotAll => mret (true, true, ctx, buf)
  end.

Fixpoint parse_loop (fuel : nat) (now : Z) (ctx : HttpContext) (buf : Buffer) :
    option (outcome (bool * HttpContext * Buffer)) :=
  match fuel with
  | O => None
  | S fuel =>
    match parse_turn now ctx buf with
    | Fault f => Some (Fault f)
    | Ok (ok, true, ctx, buf) => parse_loop fuel now ctx buf
    | Ok (ok, false, ctx, buf) => Some (Ok (ok, ctx, buf))
    end
  end.

(** Enough fuel for a buffer: every turn that goes on takes two bytes at least. *)
Definition parseRequest (ctx : HttpContext) (buf : Buffer) (now : Z) :
    option (outcome (bool * HttpContext * Buffer)) :=
  parse_loop (S (length (content buf))) now ctx buf.
