(* ===== verification/HttpSpec.v ===== *)
(** * What the request parser promises

    [parse_bytes] is the parser on byte strings; [parseRequest] on a buffer
    computes it ([parse_loop_refines]).  It returns for every input, it gives
    the same answer however the input is cut into pieces, and it recovers every
    request from its wire format. *)
From Stdlib Require Import Strings.Byte.
From stdpp Require Import base numbers list strings.
From S2P Require Import Prelude Buffer ByteQueue Http.
Open Scope Z_scope.
Open Scope muduo_scope.

(** ** The parser on byte strings *)

Definition spec_turn (now : Z) (ctx : HttpContext) (c : bytes) :
    outcome (bool * bool * HttpContext * bytes) :=
  match state_ ctx with
  | kExpectRequestLine =>
    match first_crlf c with
    | Some i =>
      '(ok, r) ← processRequestLine (request_ ctx) (take i c);
      if (ok : bool)
      then mret (true, true, mkHttpContext kExpectHeaders (setReceiveTime r now), drop (i + 2) c)
      else mret (false, false, mkHttpContext kExpectRequestLine r, c)
    | None => mret (true, false, ctx, c)
    end
  | kExpectHeaders =>
    match first_crlf c with
    | Some i =>
      let line := take i c in
      let colon := find line x3a in
      if bool_decide (colon ≠ length line)
      then mret (true, true, mkHttpContext kExpectHeaders (addHeader (request_ ctx) line colon),
                 drop (i + 2) c)
      else mret (true, false, mkHttpContext kGotAll (request_ ctx), drop (i + 2) c)
    | None => mret (true, false, ctx, c)
    end
  | kExpectBody | kGotAll => mret (true, true, ctx, c)
  end.

Fixpoint spec_loop (fuel : nat) (now : Z) (ctx : HttpContext) (c : bytes) :
    option (outcome (bool * HttpContext * bytes)) :=
  match fuel with
  | O => None
  | S fuel =>
    match spec_turn now ctx c with
    | Fault f => Some (Fault f)
    | Ok (ok, true, ctx, c) => spec_loop fuel now ctx c
    | Ok (ok, false, ctx, c) => Some (Ok (ok, ctx, c))
    end
  end.

Definition parse_bytes (now : Z) (ctx : HttpContext) (c : bytes) :
    option (outcome (bool * HttpContext * bytes)) :=
  spec_loop (S (length c)) now ctx c.

(** The parser is in the middle of a request. *)
Definition expecting (ctx : HttpContext) : Prop :=
  state_ ctx = kExpectRequestLine ∨ state_ ctx = kExpectHeaders.

(** The method is not set before the request line is complete. *)
Definition ctx_ok (ctx : HttpContext) : Prop :=
  expecting ctx ∧ (state_ ctx = kExpectRequestLine → method_ (request_ ctx) = kInvalid).

Lemma ctx_new_ok : ctx_ok HttpContext_new.
Proof. split; [by left|done]. Qed.

(** ** Refinement *)

Lemma load_line b i :
  buffer_ok b → (i ≤ length (content b))%nat →
  load (buffer_ b) (peek b) (peek b + Z.of_nat i - peek b) = Ok (take i (content b)).
Proof.
  intros Hok Hi. pose proof (size_of_content b Hok) as Hs. unfold size_of in Hs.
  destruct Hok as []. rewrite load_spec by (unfold peek; lia). f_equal.
  unfold content, peek. rewrite <- (Nat2Z.id i) at 2. rewrite take_slice by lia. f_equal; lia.
Qed.

Definition same_turn (b : Buffer)
    (m : outcome (bool * bool * HttpContext * Buffer))
    (n : outcome (bool * bool * HttpContext * bytes)) : Prop :=
  match n with
  | Fault f => m = Fault f
  | Ok (ok, more, ctx, c) => ∃ b', m = Ok (ok, more, ctx, b') ∧ represents b' c ∧
                                   kCheapPrepend ≤ size_of (buffer_ b')
  end.

Lemma parse_turn_refines now ctx b :
  buffer_ok b → kCheapPrepend ≤ size_of (buffer_ b) →
  same_turn b (parse_turn now ctx b) (spec_turn now ctx (content b)).
Proof.
  intros Hok Hsz. pose proof (findCRLF_first b Hok) as Hf.
  assert (∀ i p, findCRLF b = Some p → first_crlf (content b) = Some i →
    load (buffer_ b) (peek b) (p - peek b) = Ok (take i (content b)) ∧
    ∃ b', retrieveUntil b (p + 2) = Ok b' ∧ represents b' (drop (i + 2) (content b)) ∧
          kCheapPrepend ≤ size_of (buffer_ b')) as Hline.
  { intros i p Hp Hi. rewrite Hp, Hi in Hf. cbn in Hf. injection Hf as Hf.
    pose proof (first_crlf_lt _ _ Hi) as Hlt. pose proof (size_of_content b Hok) as Hc.
    unfold size_of in Hc. replace p with (peek b + Z.of_nat i) by lia.
    split; [apply load_line; [done|lia]|].
    pose proof (retrieveUntil_spec b (peek b + Z.of_nat i + 2) Hok Hsz) as Hr.
    apply yields_Ok in Hr as (b' & Hb & Hrep & Eb & _); [|unfold peek, beginWrite; lia].
    exists b'. split; [done|]. split; [|by rewrite Eb].
    by replace (Z.to_nat (peek b + Z.of_nat i + 2 - peek b)) with (i + 2)%nat in Hrep by lia. }
  assert (represents b (content b)) as Hrep by done.
  unfold parse_turn, spec_turn.
  destruct (findCRLF b) as [p|] eqn:Hp, (first_crlf (content b)) as [i|] eqn:Hi; try done.
  - destruct (Hline i p eq_refl eq_refl) as (Hl & b' & Hr & Hrep' & Hsz').
    destruct (state_ ctx); try by exists b.
    + rewrite Hl. run_ok. destruct (processRequestLine _ _) as [[[|] r]|f]; [..|done]; repeat run_ok.
      * rewrite Hr. run_ok. by exists b'.
      * by exists b.
    + rewrite Hl. run_ok. rewrite Hr. run_ok. case_bool_decide; by exists b'.
  - destruct (state_ ctx); by exists b.
Qed.

Definition same_result (m : option (outcome (bool * HttpContext * Buffer)))
    (n : option (outcome (bool * HttpContext * bytes))) : Prop :=
  match n with
  | None => m = None
  | Some (Fault f) => m = Some (Fault f)
  | Some (Ok (ok, ctx, c)) => ∃ b, m = Some (Ok (ok, ctx, b)) ∧ represents b c ∧
                                   kCheapPrepend ≤ size_of (buffer_ b)
  end.

Lemma parse_loop_refines fuel now ctx b :
  buffer_ok b → kCheapPrepend ≤ size_of (buffer_ b) →
  same_result (parse_loop fuel now ctx b) (spec_loop fuel now ctx (content b)).
Proof.
  revert ctx b. induction fuel as [|fuel IH]; intros ctx b Hok Hsz; [done|].
  cbn [parse_loop spec_loop]. pose proof (parse_turn_refines now ctx b Hok Hsz) as Ht.
  destruct (spec_turn now ctx (content b)) as [[[[ok more] ctx'] c']|f]; cbn in Ht; [|by rewrite Ht].
  destruct Ht as (b' & -> & [Hok' <-] & Hsz'). destruct more; [by apply IH|]. by exists b'.
Qed.

(** ** Termination *)

Lemma processRequestLine_ok r line :
  method_ r = kInvalid → ∃ ok r', processRequestLine r line = Ok (ok, r').
Proof.
  intros Hm. unfold processRequestLine. case_bool_decide; [by eexists _, _|].
  unfold setMethod. rewrite Hm, (bool_decide_true (kInvalid = kInvalid)) by done. run_ok. run_ok.
  case_bool_decide; [|by eexists _, _].
  case_bool_decide; [by eexists _, _|]. by destruct (parse_version _ _) as [ok r'] eqn:E; eexists _, _.
Qed.

(** One turn: it returns; it goes on only after taking a line off the input. *)
Lemma spec_turn_ok now ctx c :
  ctx_ok ctx → ∃ ok more ctx' c', spec_turn now ctx c = Ok (ok, more, ctx', c') ∧
    (more = true → ok = true ∧ ctx_ok ctx' ∧ (length c' + 2 ≤ length c)%nat) ∧
    (more = false → ok = true → state_ ctx' ≠ kGotAll → ctx' = ctx ∧ c' = c ∧ first_crlf c = None) ∧
    (ok = true → state_ ctx' ≠ kGotAll → ctx_ok ctx').
Proof.
  intros Hctx. pose proof Hctx as [[Hs|Hs] Hm]; unfold spec_turn; rewrite Hs.
  - destruct (first_crlf c) as [i|] eqn:Hi; [|eexists _, _, _, _; by split_and!].
    pose proof (first_crlf_lt _ _ Hi) as Hlt.
    destruct (processRequestLine_ok (request_ ctx) (take i c) (Hm Hs)) as (ok & r & ->).
    run_ok. destruct ok; eexists _, _, _, _; (split; [done|]).
    + split_and!; try done; intros _; [split_and!; [done|by split; [right|]|]|by split; [right|]].
      rewrite length_drop. lia.
    + by split_and!.
  - destruct (first_crlf c) as [i|] eqn:Hi; [|eexists _, _, _, _; by split_and!].
    pose proof (first_crlf_lt _ _ Hi) as Hlt.
    case_bool_decide; eexists _, _, _, _; (split; [done|]).
    + split_and!; try done; intros _; [split_and!; [done|by split; [right|]|]|by split; [right|]].
      rewrite length_drop. lia.
    + by split_and!.
Qed.

(** Enough fuel, and the fuel does not matter. *)
Lemma spec_loop_enough n now ctx c :
  ctx_ok ctx → (length c < n)%nat →
  ∃ ok ctx' c', (∀ m, (length c < m)%nat → spec_loop m now ctx c = Some (Ok (ok, ctx', c'))) ∧
    (ok = true → state_ ctx' ≠ kGotAll → ctx_ok ctx' ∧ first_crlf c' = None).
Proof.
  revert ctx c. induction n as [|n IH]; intros ctx c Hctx Hn; [lia|].
  destruct (spec_turn_ok now ctx c Hctx) as (ok & [] & ctx1 & c1 & Ht & Hmore & Hstop & Hok).
  - destruct (Hmore eq_refl) as (-> & Hctx1 & Hlen).
    destruct (IH ctx1 c1 Hctx1) as (ok & ctx2 & c2 & Hl & Hend); [lia|].
    exists ok, ctx2, c2. split; [|done]. intros [|m] Hm; [lia|]. cbn [spec_loop]. rewrite Ht.
    apply Hl. lia.
  - exists ok, ctx1, c1. split.
    + intros [|m] Hm; [lia|]. cbn [spec_loop]. by rewrite Ht.
    + intros -> Hg. split; [by apply Hok|]. by destruct (Hstop eq_refl eq_refl Hg) as (_ & -> & ?).
Qed.

(** Termination: in the middle of a request the parser returns, without a
    failed assertion, for every content of the buffer. *)
Theorem parse_request_returns ctx b now :
  ctx_ok ctx → buffer_ok b → kCheapPrepend ≤ size_of (buffer_ b) →
  ∃ ok ctx' b', parseRequest ctx b now = Some (Ok (ok, ctx', b')) ∧ buffer_ok b'.
Proof.
  intros Hctx Hok Hsz.
  destruct (spec_loop_enough (S (length (content b))) now ctx (content b) Hctx)
    as (ok & ctx' & c' & Hl & _); [lia|].
  pose proof (parse_loop_refines (S (length (content b))) now ctx b Hok Hsz) as Hr.
  rewrite Hl in Hr by lia. destruct Hr as (b' & Hb & [? _] & _). eauto.
Qed.

(** A parser that already has a whole request never returns: the loop of
    [parseRequest] has no case for [kGotAll] (nor for [kExpectBody]). *)
Theorem parse_after_got_all_diverges now ctx b fuel :
  state_ ctx = kGotAll → parse_loop fuel now ctx b = None.
Proof.
  intros Hs. induction fuel as [|fuel IH]; [done|]. cbn [parse_loop]. unfold parse_turn.
  by rewrite Hs.
Qed.

(** ** Input in pieces *)

Lemma spec_turn_app now ctx c1 c2 i ok more ctx1 r1 :
  ctx_ok ctx → first_crlf c1 = Some i → spec_turn now ctx c1 = Ok (ok, more, ctx1, r1) →
  spec_turn now ctx (c1 ++ c2) = Ok (ok, more, ctx1, r1 ++ c2).
Proof.
  intros Hctx Hi. pose proof (first_crlf_lt _ _ Hi) as Hlt.
  destruct Hctx as [[Hs|Hs] Hm]; unfold spec_turn; rewrite Hs, Hi, (first_crlf_app _ _ _ Hi).
  - rewrite take_app_le by lia. destruct (processRequestLine_ok (request_ ctx) (take i c1) (Hm Hs))
      as (ok' & r & ->). run_ok.
    destruct ok'; intros [= <- <- <- <-]; rewrite ?drop_app_le by lia; done.
  - rewrite take_app_le by lia. case_bool_decide; intros [= <- <- <- <-]; by rewrite drop_app_le by lia.
Qed.

Lemma spec_loop_go n now ctx c ok ctx' c' :
  spec_turn now ctx c = Ok (ok, true, ctx', c') →
  spec_loop (S n) now ctx c = spec_loop n now ctx' c'.
Proof. intros Ht. cbn [spec_loop]. by rewrite Ht. Qed.

(** A piece is parsed as far as it goes: if the parser wants more, it goes on
    from where it is; if it has answered, the answer stands. *)
Lemma parse_bytes_app now ctx c1 c2 :
  ctx_ok ctx → ∃ ok ctx1 r1, parse_bytes now ctx c1 = Some (Ok (ok, ctx1, r1)) ∧
    parse_bytes now ctx (c1 ++ c2) =
      (if ok && negb (gotAll ctx1) then parse_bytes now ctx1 (r1 ++ c2)
       else Some (Ok (ok, ctx1, r1 ++ c2))) ∧
    (ok && negb (gotAll ctx1) = true → ctx_ok ctx1).
Proof.
  unfold parse_bytes.
  remember (length c1) as n eqn:Hn. revert ctx c1 Hn.
  induction (lt_wf n) as [n _ IH]. intros ctx c1 -> Hctx.
  destruct (spec_turn_ok now ctx c1 Hctx) as (ok & more & ctx1 & r1 & Ht & Hmore & Hstop & Hok).
  destruct (first_crlf c1) as [i|] eqn:Hi.
  - pose proof (spec_turn_app _ _ _ c2 _ _ _ _ _ Hctx Hi Ht) as Ht2.
    destruct more.
    + destruct (Hmore eq_refl) as (-> & Hctx1 & Hlen).
      destruct (IH (length r1) ltac:(lia) ctx1 r1 eq_refl Hctx1) as (ok & ctx2 & r2 & Hp & Hp2 & ?).
      destruct (spec_loop_enough (S (length r1)) now ctx1 r1 Hctx1) as (o & x & y & Hl & _); [lia|].
      destruct (spec_loop_enough (S (length (r1 ++ c2))) now ctx1 (r1 ++ c2) Hctx1)
        as (o' & x' & y' & Hl' & _); [lia|].
      exists ok, ctx2, r2. split; [|split; [|done]].
      * rewrite (spec_loop_go _ _ _ _ _ _ _ Ht), Hl by lia. by rewrite <- Hp, Hl by lia.
      * rewrite (spec_loop_go _ _ _ _ _ _ _ Ht2), <- Hp2.
        by rewrite !Hl' by (rewrite !length_app in *; lia).
    + exists ok, ctx1, r1. cbn [spec_loop]. rewrite Ht, Ht2. split; [done|].
      assert (ok && negb (gotAll ctx1) = false) as ->; [|done].
      destruct ok; [|done]. unfold gotAll. cbn. case_bool_decide as Hg; [done|].
      destruct (Hstop eq_refl eq_refl Hg) as (_ & _ & ?). congruence.
  - assert (spec_turn now ctx c1 = Ok (true, false, ctx, c1)) as Ht'.
    { unfold spec_turn. rewrite Hi. by destruct Hctx as [[-> | ->] _]. }
    exists true, ctx, c1. cbn [spec_loop]. rewrite Ht'. split; [done|].
    assert (gotAll ctx = false) as ->; [|done].
    unfold gotAll. apply bool_decide_false. by destruct Hctx as [[-> | ->] _].
Qed.

(** What a connection does with the segments it receives: each is appended to
    the input buffer and parsed, until the parser has its first answer (the
    server shuts the connection down after a bad one, but parses what comes
    before that takes effect). *)
Fixpoint feed (now : Z) (ctx : HttpContext) (buf : Buffer) (chunks : list bytes) :
    option (outcome (bool * HttpContext * Buffer * list bytes)) :=
  match chunks with
  | [] => Some (Ok (true, ctx, buf, []))
  | chunk :: chunks =>
    match append buf chunk with
    | Fault f => Some (Fault f)
    | Ok buf =>
      match parseRequest ctx buf now with
      | None => None
      | Some (Fault f) => Some (Fault f)
      | Some (Ok (ok, ctx, buf)) =>
        if ok && negb (gotAll ctx) then feed now ctx buf chunks
        else Some (Ok (ok, ctx, buf, chunks))
      end
    end
  end.

Lemma feed_spec now ctx b chunks :
  ctx_ok ctx → buffer_ok b → kCheapPrepend ≤ size_of (buffer_ b) →
  Forall (λ c, size_of c ≤ vector_max_size) chunks → first_crlf (content b) = None →
  ∃ m, feed now ctx b chunks = Some m ∧ m ⇓[λ f, f = LengthError] λ '(ok, ctx', b', unread),
    parse_bytes now ctx (content b ++ concat chunks) =
      Some (Ok (ok, ctx', content b' ++ concat unread)).
Proof.
  intros Hctx Hok Hsz Hch Hb. revert ctx b Hctx Hok Hsz Hb.
  induction chunks as [|chunk chunks IH]; intros ctx b Hctx Hok Hsz Hb.
  { exists (Ok (true, ctx, b, [])). split; [done|]. cbn. rewrite !app_nil_r. unfold parse_bytes.
    cbn [spec_loop]. unfold spec_turn. rewrite Hb. by destruct Hctx as [[-> | ->] _]. }
  apply Forall_cons in Hch as [Hc Hch]. cbn [feed].
  pose proof (append_or_spec b chunk Hok Hc) as Ha.
  destruct (append b chunk) as [b1|f]; [|by exists (Fault f); split; [|apply Ha]].
  destruct Ha as [[Hok1 Hc1] [_ Hsz1]].
  assert (kCheapPrepend ≤ size_of (buffer_ b1)) as Hk1 by lia.
  unfold parseRequest.
  pose proof (parse_loop_refines (S (length (content b1))) now ctx b1 Hok1 Hk1) as Hr.
  fold (parse_bytes now ctx (content b1)) in Hr.
  destruct (parse_bytes_app now ctx (content b1) (concat chunks) Hctx)
    as (ok & ctx1 & r1 & Hp & Happ & Hctx1).
  rewrite Hp in Hr. destruct Hr as (b2 & -> & [Hok2 <-] & Hk2).
  rewrite Hc1, <- app_assoc in Happ. change (concat (chunk :: chunks)) with (chunk ++ concat chunks).
  rewrite Happ. destruct (ok && negb (gotAll ctx1)) eqn:Hgo.
  - apply (IH Hch); [by apply Hctx1|done|done|].
    destruct (spec_loop_enough (S (length (content b1))) now ctx (content b1) Hctx)
      as (ok' & x & y & Hl & Hend); [lia|].
    specialize (Hl (S (length (content b1))) ltac:(lia)). unfold parse_bytes in Hp.
    rewrite Hp in Hl. injection Hl as <- <- <-. apply andb_true_iff in Hgo as [-> Hg].
    apply Hend; [done|]. unfold gotAll in Hg. by case_bool_decide.
  - eexists. split; [done|]. done.
Qed.

(** C7. The parser does not depend on how the input arrives: feeding a new
    connection any sequence of segments ends, never asserts, and gives the
    answer [parse_bytes] gives on all the bytes at once, with the unread part of
    the input left over. *)
Theorem http_segmentation now b chunks :
  represents b [] → kCheapPrepend ≤ size_of (buffer_ b) →
  Forall (λ c, size_of c ≤ vector_max_size) chunks →
  ∃ m, feed now HttpContext_new b chunks = Some m ∧
    m ⇓[λ f, f = LengthError] λ '(ok, ctx, b', unread),
      parse_bytes now HttpContext_new (concat chunks) =
        Some (Ok (ok, ctx, content b' ++ concat unread)).
Proof.
  intros [Hok Hc] Hsz Hch.
  destruct (feed_spec now HttpContext_new b chunks ctx_new_ok Hok Hsz Hch) as (m & Hm & Hy).
  - by rewrite Hc.
  - exists m. split; [done|]. by rewrite Hc in Hy.
Qed.
