(* ===== verification/HttpRoundTrip.v ===== *)
(** * Requests on the wire

    [print_request] is the wire format of a request (request line, header
    lines, empty line); the parser recovers the request from it. *)
From Stdlib Require Import Strings.Byte.
From stdpp Require Import base numbers list strings sorting.
From S2P Require Import Prelude Buffer ByteQueue Http HttpSpec.
Open Scope Z_scope.
Open Scope muduo_scope.

(** ** Wire format *)

Abbreviation crlf := kCRLF.

Definition print_version (v : Version) : bytes :=
  match v with kHttp11 => lit "HTTP/1.1" | _ => lit "HTTP/1.0" end.

Definition print_line (r : HttpRequest) : bytes :=
  lit (methodString r) ++ x20 :: path_ r ++ query_ r ++ x20 :: print_version (version_ r).

Definition print_header (h : bytes * bytes) : bytes := h.1 ++ x3a :: x20 :: h.2.

Definition print_request (r : HttpRequest) : bytes :=
  print_line r ++ crlf ++ concat ((λ h, print_header h ++ crlf) <$> headers_ r) ++ crlf.

(** ** Requests that can be written *)

(** No leading or trailing space. *)
Definition trimmed (v : bytes) : Prop :=
  skip_spaces v = v ∧ skip_spaces (reverse v) = reverse v.

Definition header_ok (h : bytes * bytes) : Prop :=
  x3a ∉ h.1 ∧ x0d ∉ h.1 ∧ x0d ∉ h.2 ∧ trimmed h.2.

Definition key_lt (h h' : bytes * bytes) : Prop := bytes_ltb h.1 h'.1 = true.

Record request_ok (r : HttpRequest) : Prop := {
  ok_method : method_ r ≠ kInvalid;
  ok_version : version_ r ≠ kUnknown;
  ok_path : x20 ∉ path_ r ∧ x3f ∉ path_ r ∧ x0d ∉ path_ r;
  ok_query : query_ r = [] ∨ (head (query_ r) = Some x3f ∧ x20 ∉ query_ r ∧ x0d ∉ query_ r);
  ok_headers : Forall header_ok (headers_ r);
  ok_sorted : StronglySorted key_lt (headers_ r)
}.

(** ** Searching *)

Lemma take_line l rest : take (length l) (l ++ crlf ++ rest) = l.
Proof. by rewrite take_app_length. Qed.
Lemma drop_line l rest : drop (length l + 2) (l ++ crlf ++ rest) = rest.
Proof. rewrite <- drop_drop, drop_app_length. done. Qed.

(** ** The request line *)

Lemma method_string_ok r :
  method_ r ≠ kInvalid →
  method_of (lit (methodString r)) = method_ r ∧ x20 ∉ lit (methodString r) ∧
  x0d ∉ lit (methodString r).
Proof.
  unfold methodString. destruct (method_ r); [done|..]; intros _;
    (split; [vm_compute; reflexivity|]); split; by apply (bool_decide_unpack _); vm_compute.
Qed.

Lemma print_line_no_cr r : request_ok r → x0d ∉ print_line r.
Proof.
  intros [Hm _ (_ & _ & Hp) Hq _ _]. destruct (method_string_ok r Hm) as (_ & _ & Hs).
  assert (x0d ∉ print_version (version_ r)).
  { by destruct (version_ r); apply (bool_decide_unpack _); vm_compute. }
  assert (x0d ∉ query_ r) by (destruct Hq as [->|(_ & _ & ?)]; [apply not_elem_of_nil|done]).
  unfold print_line. rewrite !not_elem_of_app, !not_elem_of_cons, !not_elem_of_app, not_elem_of_cons.
  done.
Qed.

(** The target of the request line is split at the first question mark. *)
Lemma parse_target r r0 :
  request_ok r →
  (let target := path_ r ++ query_ r in
   let question := find target x3f in
   if bool_decide (question ≠ length target)
   then setQuery (setPath r0 (take question target)) (drop question target)
   else setPath r0 target) = setQuery (setPath r0 (path_ r)) (if query_ r is [] then query_ r0 else query_ r).
Proof.
  intros [_ _ (_ & Hq & _) Hqu _ _]. cbv zeta. destruct (query_ r) as [|b q] eqn:Eq.
  - rewrite app_nil_r, find_none by done. by rewrite bool_decide_false by naive_solver.
  - destruct Hqu as [|(Hh & _)]; [done|]. injection Hh as ->. rewrite find_app by done.
    rewrite bool_decide_true by (rewrite length_app; cbn; lia).
    by rewrite take_app_length, drop_app_length.
Qed.

Lemma parse_line r r0 :
  request_ok r → method_ r0 = kInvalid → query_ r0 = [] →
  processRequestLine r0 (print_line r) =
    Ok (true, mkHttpRequest (method_ r) (version_ r) (path_ r) (query_ r) (receiveTime_ r0) (headers_ r0)).
Proof.
  intros Hok Hm0 Hq0. pose proof Hok as [Hm Hv (Hp & _) Hq _ _].
  destruct (method_string_ok r Hm) as (Hmo & Hs & _).
  unfold processRequestLine, print_line. rewrite find_app by done.
  rewrite bool_decide_false by (rewrite length_app; cbn; lia).
  rewrite take_app_length. unfold setMethod. rewrite Hm0, (bool_decide_true (kInvalid = kInvalid)) by done.
  run_ok. rewrite Hmo. run_ok. cbn [method_ set_method].
  rewrite (bool_decide_true (method_ r ≠ kInvalid)) by done.
  assert (drop (S (length (lit (methodString r))))
            (lit (methodString r) ++ x20 :: path_ r ++ query_ r ++ x20 :: print_version (version_ r)) =
          (path_ r ++ query_ r) ++ x20 :: print_version (version_ r)) as ->.
  { rewrite <- Nat.add_1_r, <- drop_drop, drop_app_length. cbn. by rewrite drop_0, app_assoc. }
  assert (x20 ∉ path_ r ++ query_ r) as Hsp.
  { apply not_elem_of_app. split; [done|]. destruct Hq as [->|(_ & ? & _)]; [apply not_elem_of_nil|done]. }
  rewrite find_app by done. rewrite bool_decide_false by (rewrite (length_app (path_ r ++ query_ r)); cbn; lia).
  rewrite take_app_length. pose proof (parse_target r (set_method r0 (method_ r)) Hok) as Ht.
  cbv zeta in Ht. rewrite Ht.
  rewrite <- Nat.add_1_r, <- drop_drop, drop_app_length. cbn [drop]. rewrite drop_0.
  assert ((if query_ r is [] then query_ (set_method r0 (method_ r)) else query_ r) = query_ r) as ->.
  { by destruct (query_ r). }
  unfold parse_version. by destruct (version_ r); [done|..]; vm_compute.
Qed.

(** ** Header lines *)

Lemma bytes_ltb_asym a b : bytes_ltb a b = true → bytes_ltb b a = false.
Proof.
  revert b. induction a as [|x a IH]; intros [|y b]; cbn; try done.
  destruct (Z.ltb_spec (Z_of_byte x) (Z_of_byte y)), (Z.ltb_spec (Z_of_byte y) (Z_of_byte x));
    try done; try lia. apply IH.
Qed.

(** Headers in the order of their keys are stored in that order. *)
Lemma map_set_last m k v :
  Forall (λ h, key_lt h (k, v)) m → map_set m k v = m ++ [(k, v)].
Proof.
  induction m as [|[k' v'] m IH]; intros Hm; [done|]. apply Forall_cons in Hm as [Hk Hm].
  unfold key_lt in Hk. cbn in Hk. cbn [map_set app].
  by rewrite (bytes_ltb_asym _ _ Hk), Hk, IH.
Qed.

Lemma add_printed_header r h :
  header_ok h → Forall (λ h', key_lt h' h) (headers_ r) →
  addHeader r (print_header h) (find (print_header h) x3a) = set_headers r (headers_ r ++ [h]) ∧
  find (print_header h) x3a ≠ length (print_header h) ∧ x0d ∉ print_header h.
Proof.
  intros (Hc & Hcr1 & Hcr2 & Ht1 & Ht2) Hlt. destruct h as [k v]. unfold print_header. cbn [fst snd] in *.
  rewrite find_app by done. split_and!.
  - unfold addHeader. rewrite take_app_length.
    rewrite <- Nat.add_1_r, <- drop_drop, drop_app_length. cbn [drop skip_spaces].
    change (isspace x20) with true. cbv iota. rewrite Ht1, Ht2, reverse_involutive.
    by rewrite map_set_last.
  - rewrite length_app. cbn. lia.
  - rewrite not_elem_of_app, !not_elem_of_cons. done.
Qed.

(** The header lines of a request, then the empty line. *)
Lemma parse_headers now r hs rest n :
  Forall header_ok hs → StronglySorted key_lt (headers_ r ++ hs) → (length hs < n)%nat →
  spec_loop n now (mkHttpContext kExpectHeaders r)
      (concat ((λ h, print_header h ++ crlf) <$> hs) ++ crlf ++ rest) =
    Some (Ok (true, mkHttpContext kGotAll (set_headers r (headers_ r ++ hs)), rest)).
Proof.
  revert r n. induction hs as [|h hs IH]; intros r [|n] Hok Hs Hn; cbn [length] in Hn; try lia.
  - cbn [fmap list_fmap concat app spec_loop]. rewrite app_nil_r.
    unfold spec_turn. cbn. by destruct r.
  - apply Forall_cons in Hok as [Hh Hok]. rewrite fmap_cons. cbn [concat].
    rewrite <- !app_assoc.
    assert (Forall (λ h', key_lt h' h) (headers_ r)) as Hlt.
    { apply Forall_forall. intros h' Hin. eapply StronglySorted_app_1_elem_of; [exact Hs|done|left]. }
    destruct (add_printed_header r h Hh Hlt) as (Hadd & Hcol & Hcr).
    cbn [spec_loop]. unfold spec_turn. cbn [state_ request_].
    rewrite first_crlf_line, take_line, drop_line by done.
    rewrite bool_decide_true by done. cbn [mret outcome_ret]. rewrite Hadd.
    assert (headers_ (set_headers r (headers_ r ++ [h])) ++ hs = headers_ r ++ h :: hs) as E.
    { cbn. by rewrite <- app_assoc. }
    rewrite IH; [|done|by rewrite E|lia]. by rewrite E.
Qed.

Lemma print_request_length r : (length (headers_ r) + 2 ≤ length (print_request r))%nat.
Proof.
  unfold print_request. rewrite !length_app. cbn [crlf length].
  enough (length (headers_ r) ≤ length (concat ((λ h, print_header h ++ crlf) <$> headers_ r)))%nat by lia.
  induction (headers_ r) as [|h hs IH]; [done|]. rewrite fmap_cons. cbn [concat length].
  rewrite length_app, (length_app (print_header h)). cbn [crlf length]. lia.
Qed.

Lemma http_request_parsed now r rest :
  request_ok r →
  parse_bytes now HttpContext_new (print_request r ++ rest) =
    Some (Ok (true, mkHttpContext kGotAll (setReceiveTime r now), rest)).
Proof.
  intros Hok. unfold parse_bytes, print_request.
  pose proof (print_request_length r) as Hlen. unfold print_request in Hlen.
  pose proof (print_line_no_cr r Hok) as Hcr.
  rewrite <- !app_assoc. cbn [spec_loop]. unfold spec_turn. cbn [state_ request_ HttpContext_new].
  rewrite first_crlf_line, take_line, drop_line by done.
  rewrite (parse_line r HttpRequest_new Hok eq_refl eq_refl). run_ok. cbn [mret outcome_ret].
  rewrite parse_headers; [by destruct r|apply Hok|apply Hok|].
  rewrite !length_app in *. cbn [crlf length] in *. lia.
Qed.

(** C34. Round trip: the parser recovers every well-formed request from its wire
    format, whatever follows it (for example the next request), and leaves
    exactly what follows in the buffer. *)
Theorem http_request_roundtrip now b r rest :
  request_ok r → represents b (print_request r ++ rest) → kCheapPrepend ≤ size_of (buffer_ b) →
  ∃ b', parseRequest HttpContext_new b now =
          Some (Ok (true, mkHttpContext kGotAll (setReceiveTime r now), b')) ∧
        represents b' rest.
Proof.
  intros Hreq [Hok Hc] Hsz. unfold parseRequest.
  pose proof (parse_loop_refines (S (length (content b))) now HttpContext_new b Hok Hsz) as Hp.
  fold (parse_bytes now HttpContext_new (content b)) in Hp.
  rewrite Hc, (http_request_parsed now r rest Hreq) in Hp. rewrite <- Hc in Hp.
  destruct Hp as (b' & Hb & Hrep & _). eauto.
Qed.

(** ** Runs *)

Definition sample_request : HttpRequest :=
  mkHttpRequest kGet kHttp11 (lit "/index.html") (lit "?a=1") 0
    [(lit "Accept", lit "*/*"); (lit "Host", lit "example.com")].

Lemma sample_request_ok : request_ok sample_request.
Proof.
  split; try done.
  - split_and!; by apply (bool_decide_unpack _); vm_compute.
  - right. split_and!; [done|by apply (bool_decide_unpack _); vm_compute..].
  - repeat constructor; try (by apply (bool_decide_unpack _); vm_compute); vm_compute; reflexivity.
  - repeat constructor.
Qed.

Definition request_buffer (c : bytes) : Buffer :=
  mkBuffer (replicate 8 x00 ++ c) 8 (8 + size_of c).

Lemma http_request_roundtrip_witness :
  let b := request_buffer (print_request sample_request ++ lit "GET") in
  (request_ok sample_request ∧ represents b (print_request sample_request ++ lit "GET") ∧
   kCheapPrepend ≤ size_of (buffer_ b)) ∧
  ∃ b', parseRequest HttpContext_new b 7 =
          Some (Ok (true, mkHttpContext kGotAll (setReceiveTime sample_request 7), b')) ∧
        represents b' (lit "GET").
Proof.
  intros b.
  assert (represents b (print_request sample_request ++ lit "GET")) as Hb.
  { split; [split; vm_compute; congruence|vm_compute; reflexivity]. }
  assert (kCheapPrepend ≤ size_of (buffer_ b)) as Hs by (vm_compute; congruence).
  split; [split; [apply sample_request_ok|done]|].
  by apply http_request_roundtrip; [apply sample_request_ok|..].
Defined.

(** An empty input buffer. *)
Definition input_buffer : Buffer := mkBuffer (replicate 64 x00) 8 8.

Lemma input_buffer_ok : represents input_buffer [] ∧ kCheapPrepend ≤ size_of (buffer_ input_buffer).
Proof. split; [split; [split|done]|]; vm_compute; congruence. Qed.

(** The request arrives in two segments, cut inside a line end. *)
Lemma http_segmentation_witness :
  let chunks := [lit "GET / HTTP/1.0"; [x0d]; [x0a; x0d; x0a]] in
  (represents input_buffer [] ∧ kCheapPrepend ≤ size_of (buffer_ input_buffer) ∧
   Forall (λ c, size_of c ≤ vector_max_size) chunks) ∧
  ∃ m, feed 7 HttpContext_new input_buffer chunks = Some m ∧
    m ⇓[λ f, f = LengthError] λ '(ok, ctx, b', unread),
      parse_bytes 7 HttpContext_new (concat chunks) =
        Some (Ok (ok, ctx, content b' ++ concat unread)).
Proof.
  intros chunks. destruct input_buffer_ok as [Hr Hs].
  assert (Forall (λ c, size_of c ≤ vector_max_size) chunks) as Hc.
  { repeat constructor; vm_compute; congruence. }
  split; [done|]. by apply http_segmentation.
Defined.

Lemma parse_request_returns_witness :
  (ctx_ok HttpContext_new ∧ buffer_ok input_buffer ∧ kCheapPrepend ≤ size_of (buffer_ input_buffer)) ∧
  ∃ ok ctx' b', parseRequest HttpContext_new input_buffer 7 = Some (Ok (ok, ctx', b')) ∧ buffer_ok b'.
Proof.
  destruct input_buffer_ok as [[Hr _] Hs]. split; [split; [apply ctx_new_ok|done]|].
  apply parse_request_returns; [apply ctx_new_ok|done|done].
Defined.

Lemma parse_after_got_all_diverges_witness :
  state_ (mkHttpContext kGotAll sample_request) = kGotAll ∧
  parse_loop 1000 7 (mkHttpContext kGotAll sample_request) input_buffer = None.
Proof. split; [done|]. by apply parse_after_got_all_diverges. Defined.

(** A request line with a known method and an unknown version leaves the
    method set and the line in the buffer.  When the client sends anything
    more, the same line is parsed again and the assertion of [setMethod]
    fails: a client can stop a server built with assertions. *)
Theorem bad_request_twice_asserts :
  let first := feed 7 HttpContext_new input_buffer [lit "GET / HTTP/2.0" ++ crlf] in
  (∃ ctx b, first = Some (Ok (false, ctx, b, [])) ∧
     append b (lit "x") ⇓ λ b',
       parseRequest ctx b' 8 = Some (Fault (AssertFailure 55))).
Proof. eexists _, _. split; [vm_compute; reflexivity|]. vm_compute. reflexivity. Qed.
