(* ===== verification/HttpServer.v ===== *)
(** * HTTP responses and the server (muduo/net/http/HttpResponse.h, HttpResponse.cc, HttpServer.cc)

    The user's callback is a parameter.  What the server does on a connection
    is the list of calls it makes ([send], [shutdown]). *)
From Stdlib Require Import Strings.Byte.
From stdpp Require Import base numbers list strings.
From S2P Require Import Prelude Printf Buffer ByteQueue Http HttpSpec HttpRoundTrip.
Open Scope Z_scope.
Open Scope muduo_scope.

(** ** HttpResponse *)

(** The status codes the class names, with their values. *)
Definition kUnknownStatus : Z := 0.
Definition k200Ok : Z := 200.
Definition k301MovedPermanently : Z := 301.
Definition k400BadRequest : Z := 400.
Definition k404NotFound : Z := 404.

Record HttpResponse := mkHttpResponse {
  resp_headers_ : headers;
  statusCode_ : Z;
  statusMessage_ : bytes;
  closeConnection_ : bool;
  body_ : bytes
}.

Definition HttpResponse_new (close : bool) : HttpResponse :=
  mkHttpResponse [] kUnknownStatus [] close [].

Definition setStatusCode (r : HttpResponse) (code : Z) : HttpResponse :=
  mkHttpResponse (resp_headers_ r) code (statusMessage_ r) (closeConnection_ r) (body_ r).
Definition setStatusMessage (r : HttpResponse) (m : bytes) : HttpResponse :=
  mkHttpResponse (resp_headers_ r) (statusCode_ r) m (closeConnection_ r) (body_ r).
Definition setCloseConnection (r : HttpResponse) (on : bool) : HttpResponse :=
  mkHttpResponse (resp_headers_ r) (statusCode_ r) (statusMessage_ r) on (body_ r).
Definition resp_addHeader (r : HttpResponse) (key value : bytes) : HttpResponse :=
  mkHttpResponse (map_set (resp_headers_ r) key value) (statusCode_ r) (statusMessage_ r)
    (closeConnection_ r) (body_ r).
Definition setContentType (r : HttpResponse) (contentType : bytes) : HttpResponse :=
  resp_addHeader r (lit "Content-Type") contentType.
Definition setBody (r : HttpResponse) (body : bytes) : HttpResponse :=
  mkHttpResponse (resp_headers_ r) (statusCode_ r) (statusMessage_ r) (closeConnection_ r) body.

(** [snprintf] into a [char buf[32]]: at most 31 characters. *)
Definition snprintf32 (s : bytes) : bytes := snprintf 32 s.

(** A sequence of [output->append] calls. *)
Fixpoint append_all (output : Buffer) (pieces : list bytes) : outcome Buffer :=
  match pieces with
  | [] => mret output
  | p :: ps => output ← append output p; append_all output ps
  end.

Definition appendToBuffer (r : HttpResponse) (output : Buffer) : outcome Buffer :=
  output ← append_all output
    [snprintf32 (lit "HTTP/1.1 " ++ decimal (statusCode_ r) ++ lit " "); statusMessage_ r; crlf];
  output ← append_all output
    (if closeConnection_ r then [lit "Connection: close" ++ crlf]
     else [snprintf32 (lit "Content-Length: " ++ decimal (size_of (body_ r)) ++ crlf);
           lit "Connection: Keep-Alive" ++ crlf]);
  output ← append_all output
    (concat ((λ h, [h.1; lit ": "; h.2; crlf]) <$> resp_headers_ r));
  append_all output [crlf; body_ r].

(** ** HttpServer *)

(** What the server calls on the connection. *)
Inductive Reply := RSend (message : bytes) | RShutdown.

Definition defaultHttpCallback (_ : HttpRequest) (r : HttpResponse) : HttpResponse :=
  setCloseConnection (setStatusMessage (setStatusCode r k404NotFound) (lit "Not Found")) true.

Section Server.
Variable httpCallback_ : HttpRequest → HttpResponse → HttpResponse.

(** Whether the connection is closed after the response, before the callback. *)
Definition wants_close (req : HttpRequest) : bool :=
  let connection := getHeader req (lit "Connection") in
  bool_decide (connection = lit "close") ||
  (bool_decide (version_ req = kHttp10) && negb (bool_decide (connection = lit "Keep-Alive"))).

Definition onRequest (req : HttpRequest) : outcome (list Reply) :=
  let response := httpCallback_ req (HttpResponse_new (wants_close req)) in
  buf ← Buffer_new kInitialSize;
  buf ← appendToBuffer response buf;
  mret (RSend (content buf) :: if closeConnection_ response then [RShutdown] else []).

Definition bad_request : bytes := lit "HTTP/1.1 400 Bad Request" ++ crlf ++ crlf.

Definition onMessage (ctx : HttpContext) (buf : Buffer) (receiveTime : Z) :
    option (outcome (HttpContext * Buffer * list Reply)) :=
  match parseRequest ctx buf receiveTime with
  | None => None
  | Some (Fault f) => Some (Fault f)
  | Some (Ok (ok, ctx, buf)) =>
    let bad := if (ok : bool) then [] else [RSend bad_request; RShutdown] in
    Some (if gotAll ctx then
            replies ← onRequest (request_ ctx);
            mret (reset ctx, buf, bad ++ replies)
          else mret (ctx, buf, bad))
  end.
End Server.

(** ** The bytes of a response *)

Definition response_bytes (r : HttpResponse) : bytes :=
  snprintf32 (lit "HTTP/1.1 " ++ decimal (statusCode_ r) ++ lit " ") ++ statusMessage_ r ++ crlf ++
  (if closeConnection_ r then lit "Connection: close" ++ crlf
   else snprintf32 (lit "Content-Length: " ++ decimal (size_of (body_ r)) ++ crlf) ++
        lit "Connection: Keep-Alive" ++ crlf) ++
  concat ((λ h, print_header h ++ crlf) <$> resp_headers_ r) ++ crlf ++ body_ r.

Lemma append_all_spec b ps :
  buffer_ok b → kCheapPrepend ≤ size_of (buffer_ b) →
  Forall (λ p, size_of p ≤ vector_max_size) ps →
  append_all b ps ⇓[λ f, f = LengthError] λ b',
    represents b' (content b ++ concat ps) ∧ kCheapPrepend ≤ size_of (buffer_ b').
Proof.
  intros Hok Hsz Hps. revert b Hok Hsz. induction Hps as [|p ps Hp _ IH]; intros b Hok Hsz.
  { apply yields_or_ret. cbn. by rewrite app_nil_r. }
  cbn [append_all concat]. apply yields_or_bind. eapply yields_or_mono.
  { eapply yields_or_weaken; [|by apply append_or_spec]. by intros f [-> _]. }
  intros b1 ([Hok1 Hc1] & [_ Hsz1]). eapply yields_or_mono; [apply IH; [done|lia]|].
  intros b2 [[? Hc2] ?]. rewrite Hc1, <- app_assoc in Hc2. done.
Qed.

(** The parts of a response fit a string each. *)
Definition response_ok (r : HttpResponse) : Prop :=
  size_of (statusMessage_ r) ≤ vector_max_size ∧ size_of (body_ r) ≤ vector_max_size ∧
  Forall (λ h, size_of h.1 ≤ vector_max_size ∧ size_of h.2 ≤ vector_max_size) (resp_headers_ r).

Lemma snprintf32_small s : size_of (snprintf32 s) ≤ vector_max_size.
Proof. unfold snprintf32, snprintf, size_of, vector_max_size. rewrite length_take. lia. Qed.

Lemma header_pieces hs :
  concat (concat ((λ h : bytes * bytes, [h.1; lit ": "; h.2; crlf]) <$> hs)) =
  concat ((λ h, print_header h ++ crlf) <$> hs).
Proof.
  induction hs as [|h hs IH]; [done|]. rewrite !fmap_cons. cbn [concat app].
  rewrite IH. unfold print_header. by rewrite <- !app_assoc.
Qed.

Lemma appendToBuffer_spec r b :
  buffer_ok b → kCheapPrepend ≤ size_of (buffer_ b) → response_ok r →
  appendToBuffer r b ⇓[λ f, f = LengthError] λ b',
    represents b' (content b ++ response_bytes r) ∧ kCheapPrepend ≤ size_of (buffer_ b').
Proof.
  intros Hok Hsz (Hm & Hb & Hh). unfold appendToBuffer.
  ostep (append_all_spec b _ Hok Hsz); [repeat constructor; [apply snprintf32_small|done|done]|].
  intros b1 [[Hok1 Hc1] Hs1].
  ostep (append_all_spec b1 _ Hok1 Hs1).
  { case_match; repeat constructor; try apply snprintf32_small; vm_compute; congruence. }
  intros b2 [[Hok2 Hc2] Hs2].
  ostep (append_all_spec b2 _ Hok2 Hs2).
  { induction Hh as [|h hs [? ?] _ IH]; [constructor|]. rewrite fmap_cons. cbn [concat app].
    repeat (constructor; [done|]). exact IH. }
  intros b3 [[Hok3 Hc3] Hs3].
  eapply yields_or_mono; [apply append_all_spec; [done|done|repeat constructor; done]|].
  intros b4 [[Hok4 Hc4] Hs4]. split; [split; [done|]|done].
  rewrite Hc4, Hc3, Hc2, Hc1, header_pieces. unfold response_bytes. cbn [concat].
  rewrite !app_nil_r, <- !app_assoc. f_equal. do 3 f_equal.
  destruct (closeConnection_ r); cbn [concat]; rewrite ?app_nil_r, <- ?app_assoc; done.
Qed.

Lemma Buffer_new_default :
  ∃ b, Buffer_new kInitialSize = Ok b ∧ represents b [] ∧ kCheapPrepend ≤ size_of (buffer_ b).
Proof.
  eexists. split; [vm_compute; reflexivity|].
  split; [split; [split|]|]; vm_compute; congruence.
Qed.

Lemma onRequest_spec cb req :
  let response := cb req (HttpResponse_new (wants_close req)) in
  response_ok response →
  onRequest cb req ⇓[λ f, f = LengthError] λ replies,
    replies = RSend (response_bytes response) ::
              if closeConnection_ response then [RShutdown] else [].
Proof.
  intros response Hr. unfold onRequest. fold response.
  destruct Buffer_new_default as (b & -> & [Hok Hc] & Hsz). run_ok.
  ostep (appendToBuffer_spec response b Hok Hsz Hr). intros b' [[_ Hc'] _].
  apply yields_or_ret. by rewrite Hc', Hc.
Qed.

(** The server answers: when a whole well-formed request is in the input
    buffer of a fresh context, [onMessage] sends exactly the response of the
    user's callback, shuts the connection down if the response says so, leaves
    what follows the request in the buffer, and is ready for the next request.
    In particular a second request that came in the same segment is not
    answered before more input arrives. *)
Theorem http_server_answers cb now b r rest :
  let req := setReceiveTime r now in
  let response := cb req (HttpResponse_new (wants_close req)) in
  request_ok r → represents b (print_request r ++ rest) → kCheapPrepend ≤ size_of (buffer_ b) →
  response_ok response →
  ∃ m, onMessage cb HttpContext_new b now = Some m ∧
    m ⇓[λ f, f = LengthError] λ '(ctx, b', replies),
      ctx = HttpContext_new ∧ represents b' rest ∧
      replies = RSend (response_bytes response) ::
                if closeConnection_ response then [RShutdown] else [].
Proof.
  intros req response Hreq [Hok Hc] Hsz Hresp. unfold onMessage, parseRequest.
  pose proof (parse_loop_refines (S (length (content b))) now HttpContext_new b Hok Hsz) as Hp.
  fold (parse_bytes now HttpContext_new (content b)) in Hp.
  rewrite Hc, (http_request_parsed now r rest Hreq) in Hp. rewrite <- Hc in Hp.
  destruct Hp as (b' & -> & Hrep & _). eexists. split; [done|].
  change (gotAll _) with true. cbn [request_].
  ostep (onRequest_spec cb req Hresp). intros replies ->. by apply yields_or_ret.
Qed.

(** A page of the sample request. *)
Definition sample_callback (_ : HttpRequest) (r : HttpResponse) : HttpResponse :=
  setBody (setContentType (setStatusMessage (setStatusCode r k200Ok) (lit "OK")) (lit "text/plain"))
    (lit "hello").

Lemma http_server_answers_witness :
  let b := request_buffer (print_request sample_request ++ print_request sample_request) in
  let req := setReceiveTime sample_request 7 in
  let response := sample_callback req (HttpResponse_new (wants_close req)) in
  (request_ok sample_request ∧ represents b (print_request sample_request ++ print_request sample_request) ∧
   kCheapPrepend ≤ size_of (buffer_ b) ∧ response_ok response) ∧
  ∃ m, onMessage sample_callback HttpContext_new b 7 = Some m ∧
    m ⇓[λ f, f = LengthError] λ '(ctx, b', replies),
      ctx = HttpContext_new ∧ represents b' (print_request sample_request) ∧
      replies = RSend (response_bytes response) ::
                if closeConnection_ response then [RShutdown] else [].
Proof.
  intros b req response.
  assert (represents b (print_request sample_request ++ print_request sample_request)) as Hb.
  { split; [split; vm_compute; congruence|vm_compute; reflexivity]. }
  assert (kCheapPrepend ≤ size_of (buffer_ b)) as Hs by (vm_compute; congruence).
  assert (response_ok response) as Hr.
  { split; [vm_compute; congruence|]. split; [vm_compute; congruence|].
    apply Forall_cons. split; [split; vm_compute; congruence|apply Forall_nil; done]. }
  split; [split_and!; auto using sample_request_ok|].
  by apply http_server_answers; [apply sample_request_ok|..].
Defined.
