(* ===== verification/Inspector.v ===== *)
(** * The inspector of a process (muduo/net/inspect/Inspector.h, Inspector.cc)

    A table of commands, [/module/command], which an HTTP server answers.  A callback is a
    function of the method and the arguments; the picture for favicon.ico is a parameter.
    The methods lock the mutex for all they do with the tables. *)
From Stdlib Require Import Strings.Byte.
From stdpp Require Import base numbers list gmap strings sorting.
From S2P Require Import Prelude Buffer ByteQueue Http HttpServer.
Open Scope Z_scope.
Open Scope muduo_scope.

(** ** Paths *)

(** [str.find('/', start)], [npos] as [None]. *)
Definition find_slash (str : bytes) (start : nat) : option nat :=
  let i := (start + find (drop start str) x2f)%nat in
  if (i <? length str)%nat then Some i else None.

Fixpoint split_loop (fuel : nat) (str : bytes) (start : nat) (pos : option nat) (result : list bytes) : option (list bytes) :=
  match fuel with
  | O => None
  | S fuel =>
    match pos with
    | Some pos =>
      let result := if (start <? pos)%nat then result ++ [take (pos - start) (drop start str)] else result in
      split_loop fuel str (pos + 1) (find_slash str (pos + 1)) result
    | None => Some (if (start <? length str)%nat then result ++ [drop start str] else result)
    end
  end.
(** Every turn takes a slash. *)
Definition split (str : bytes) : option (list bytes) := split_loop (S (length str)) str 0 (find_slash str 0) [].

(** ** The tables *)

(** A callback, which may be empty. *)
Definition Callback : Type := option (Method → list bytes → bytes).

Record Inspector := mkInspector {
  modules_ : gmap bytes (gmap bytes Callback);
  helps_ : gmap bytes (gmap bytes bytes)
}.
Definition Inspector_new : Inspector := mkInspector ∅ ∅.

(** [m[module][command] = x] *)
Definition set2 {A} (module command : bytes) (x : A) (m : gmap bytes (gmap bytes A)) : gmap bytes (gmap bytes A) :=
  <[ module := <[ command := x ]> (default ∅ (m !! module)) ]> m.
(** [m[module].erase(command)] *)
Definition erase2 {A} (module command : bytes) (m : gmap bytes (gmap bytes A)) : gmap bytes (gmap bytes A) :=
  <[ module := delete command (default ∅ (m !! module)) ]> m.

Definition add (module command : bytes) (cb : Callback) (help : bytes) (i : Inspector) : Inspector :=
  mkInspector (set2 module command cb (modules_ i)) (set2 module command help (helps_ i)).

Definition remove (module command : bytes) (i : Inspector) : Inspector :=
  match modules_ i !! module with
  | Some commands => mkInspector (<[ module := delete command commands ]> (modules_ i)) (erase2 module command (helps_ i))
  | None => i
  end.

(** The commands of the reports, which the constructor registers; the reports themselves are arguments. *)
Definition ProcessInspector_commands : list (bytes * bytes) :=
  [(lit "overview", lit "print basic overview"); (lit "pid", lit "print pid"); (lit "status", lit "print /proc/self/status");
   (lit "threads", lit "list /proc/self/task")].
Definition SystemInspector_commands : list (bytes * bytes) :=
  [(lit "overview", lit "print system overview"); (lit "loadavg", lit "print /proc/loadavg"); (lit "version", lit "print /proc/version");
   (lit "cpuinfo", lit "print /proc/cpuinfo"); (lit "meminfo", lit "print /proc/meminfo"); (lit "stat", lit "print /proc/stat")].
Definition registerCommands (module : bytes) (report : bytes → Callback) (commands : list (bytes * bytes)) (i : Inspector) : Inspector :=
  foldl (λ i c, add module c.1 (report c.1) c.2 i) i commands.
(** Built without [HAVE_TCMALLOC], which adds a third module. *)
Definition Inspector_built (process system : bytes → Callback) : Inspector :=
  registerCommands (lit "sys") system SystemInspector_commands
    (registerCommands (lit "proc") process ProcessInspector_commands Inspector_new).

(** ** Requests *)

(** The entries of a [std::map], in the order of its keys. *)
Definition key_le {A} (x y : bytes * A) : Prop := bytes_ltb y.1 x.1 = false.
#[export] Instance key_le_dec {A} : RelDecision (@key_le A) := λ x y, decide (_ = _).
Definition in_order {A} (m : gmap bytes A) : list (bytes * A) := merge_sort key_le (map_to_list m).

Definition help_line (module command help : bytes) : bytes :=
  let len := size_of module + size_of command in
  lit "/" ++ module ++ lit "/" ++ command ++ replicate (Z.to_nat (if 25 <=? len then 1 else 25 - len)) x20 ++ help ++ [x0a].
Definition help_text (i : Inspector) : bytes :=
  concat ((λ m, concat ((λ c, help_line m.1 c.1 c.2) <$> in_order m.2)) <$> in_order (helps_ i)).

Definition ok_response (contentType body : bytes) (resp : HttpResponse) : HttpResponse :=
  setBody (setContentType (setStatusMessage (setStatusCode resp k200Ok) (lit "OK")) contentType) body.
Definition not_found (resp : HttpResponse) : HttpResponse :=
  setStatusMessage (setStatusCode resp k404NotFound) (lit "Not Found").

Section Requests.
Context (favicon : bytes).

(** The callback of a command. *)
Definition find_command (module command : bytes) (i : Inspector) : Callback :=
  match modules_ i !! module with
  | Some commList => match commList !! command with Some cb => cb | None => None end
  | None => None
  end.

Definition onRequest (req : HttpRequest) (resp : HttpResponse) (i : Inspector) : option HttpResponse :=
  if bool_decide (path_ req = lit "/") then Some (ok_response (lit "text/plain") (help_text i) resp)
  else
    result ← split (path_ req);
    Some match result with
    | [] => not_found resp
    | [module] => if bool_decide (module = lit "favicon.ico") then ok_response (lit "image/png") favicon resp else not_found resp
    | module :: command :: args =>
      match find_command module command i with
      | Some cb => ok_response (lit "text/plain") (cb (method_ req) args) resp
      | None => not_found resp
      end
    end.
End Requests.

(** ** Splitting a path *)

(** What is between the slashes. *)
Fixpoint pieces (l : bytes) : list bytes :=
  match l with
  | [] => [[]]
  | b :: l =>
    if bool_decide (b = x2f) then [] :: pieces l
    else match pieces l with p :: ps => (b :: p) :: ps | [] => [[b]] end
  end.
Definition segments (l : bytes) : list bytes := filter (λ p, p ≠ []) (pieces l).

Lemma pieces_slash p l : x2f ∉ p → pieces (p ++ x2f :: l) = p :: pieces l.
Proof.
  induction p as [|b p IH]; intros Hp; cbn; [done|]. apply not_elem_of_cons in Hp as [Hb Hp].
  rewrite bool_decide_false by (intros ->; by apply Hb). by rewrite IH.
Qed.
Lemma pieces_last p : x2f ∉ p → pieces p = [p].
Proof.
  induction p as [|b p IH]; intros Hp; cbn; [done|]. apply not_elem_of_cons in Hp as [Hb Hp].
  rewrite bool_decide_false by (intros ->; by apply Hb). by rewrite IH.
Qed.

(** The first slash, if there is one. *)
Lemma find_split l : (find l x2f = length l ∧ x2f ∉ l) ∨
  ∃ p r, l = p ++ x2f :: r ∧ x2f ∉ p ∧ find l x2f = length p.
Proof.
  destruct (decide (x2f ∈ l)) as [Hin|Hn]; [right|left; split; [by apply find_none|done]].
  apply list_elem_of_split_l in Hin as (p & r & -> & Hp). exists p, r. split_and!; [done|done|by apply find_app].
Qed.

Lemma split_loop_spec fuel : ∀ str start result, (length str - start < fuel)%nat →
  split_loop fuel str start (find_slash str start) result = Some (result ++ segments (drop start str)).
Proof.
  induction fuel as [|fuel IH]; intros str start result Hf; [lia|]. cbn [split_loop]. unfold find_slash at 1.
  destruct (find_split (drop start str)) as [[Hfind Hn]|(p & r & E & Hp & Hfind)]; rewrite Hfind.
  - rewrite length_drop. rewrite (proj2 (Nat.ltb_ge _ _)) by lia. unfold segments. rewrite pieces_last by done. rewrite filter_cons, filter_nil.
    destruct (Nat.ltb_spec start (length str)) as [Hlt|Hge].
    + rewrite decide_True; [done|]. intros E. apply (f_equal length) in E. rewrite length_drop in E. cbn in E. lia.
    + rewrite drop_ge by lia. by rewrite decide_False, app_nil_r by (intros ?; done).
  - pose proof (f_equal length E) as El. rewrite length_drop, length_app in El. cbn in El.
    rewrite (proj2 (Nat.ltb_lt _ _)) by lia. rewrite IH by lia.
    assert (drop (start + length p + 1) str = r) as Er.
    { replace (start + length p + 1)%nat with (start + (length p + 1))%nat by lia. rewrite <- drop_drop, E.
      rewrite drop_app_ge by lia. by replace (length p + 1 - length p)%nat with 1%nat by lia. }
    rewrite Er, E. unfold segments. rewrite pieces_slash by done. rewrite filter_cons.
    replace (start + length p - start)%nat with (length p) by lia. rewrite take_app_length.
    destruct p as [|b p]; cbn [length].
    + rewrite (proj2 (Nat.ltb_ge _ _)) by lia. by rewrite decide_False by (intros ?; done).
    + rewrite (proj2 (Nat.ltb_lt _ _)) by lia. rewrite decide_True by done. by rewrite <- app_assoc.
Qed.

Lemma split_segments str : split str = Some (segments str).
Proof. unfold split. by rewrite split_loop_spec by lia. Qed.

(** A path is made of its segments. *)
Definition path_text (segs : list bytes) : bytes := concat ((λ s, x2f :: s) <$> segs).

Lemma segments_path segs : Forall (λ s, s ≠ [] ∧ x2f ∉ s) segs → segments (path_text segs) = segs.
Proof.
  intros Hs. assert (pieces (path_text segs) = [] :: segs) as E.
  { induction Hs as [|s segs [Hne Hn] Hs IH]; [done|]. cbn. f_equal. destruct Hs as [|s2 segs Hs2 Hs].
    - rewrite app_nil_r. by apply pieces_last.
    - change (path_text (s2 :: segs)) with (x2f :: (s2 ++ path_text segs)) in IH. cbn in IH. injection IH as IH.
      change (concat _) with (x2f :: (s2 ++ path_text segs)). by rewrite pieces_slash, IH by done. }
  unfold segments. rewrite E, filter_cons, decide_False by (intros ?; done). apply filter_id. intros s Hin. rewrite Forall_forall in Hs. by apply Hs.
Qed.

(** ** The tables as one table *)

Inductive Op :=
  | OAdd (module command : bytes) (cb : Callback) (help : bytes)
  | ORemove (module command : bytes).

Definition exec_op (i : Inspector) (op : Op) : Inspector :=
  match op with OAdd m c cb help => add m c cb help i | ORemove m c => remove m c i end.
Definition exec_ops (ops : list Op) : Inspector := foldl exec_op Inspector_new ops.

(** What the constructor registers. *)
Definition built_ops (process system : bytes → Callback) : list Op :=
  ((λ c, OAdd (lit "proc") c.1 (process c.1) c.2) <$> ProcessInspector_commands) ++
  ((λ c, OAdd (lit "sys") c.1 (system c.1) c.2) <$> SystemInspector_commands).
Lemma Inspector_built_ops process system : Inspector_built process system = exec_ops (built_ops process system).
Proof. reflexivity. Qed.

(** What is registered for each module and command. *)
Abbreviation Table := (gmap (bytes * bytes) (Callback * bytes)).
Definition table_op (t : Table) (op : Op) : Table :=
  match op with OAdd m c cb help => <[ (m, c) := (cb, help) ]> t | ORemove m c => delete (m, c) t end.
Definition table (ops : list Op) : Table := foldl table_op ∅ ops.

Definition lookup2 {A} (m : gmap bytes (gmap bytes A)) (module command : bytes) : option A := default ∅ (m !! module) !! command.

Lemma lookup2_set2 {A} (m c : bytes) (x : A) (mm : gmap bytes (gmap bytes A)) (m' c' : bytes) :
  lookup2 (set2 m c x mm) m' c' = if decide ((m, c) = (m', c')) then Some x else lookup2 mm m' c'.
Proof.
  unfold lookup2, set2. destruct (decide (m = m')) as [<-|Hm].
  - rewrite lookup_insert_eq. cbn. destruct (decide (c = c')) as [<-|Hc].
    + by rewrite lookup_insert_eq, decide_True.
    + rewrite lookup_insert_ne by done. by rewrite decide_False by congruence.
  - rewrite lookup_insert_ne by done. by rewrite decide_False by congruence.
Qed.

Lemma lookup2_erase2 {A} (m c : bytes) (mm : gmap bytes (gmap bytes A)) (m' c' : bytes) :
  lookup2 (erase2 m c mm) m' c' = if decide ((m, c) = (m', c')) then None else lookup2 mm m' c'.
Proof.
  unfold lookup2, erase2. destruct (decide (m = m')) as [<-|Hm].
  - rewrite lookup_insert_eq. cbn. destruct (decide (c = c')) as [<-|Hc].
    + by rewrite lookup_delete_eq, decide_True.
    + rewrite lookup_delete_ne by done. by rewrite decide_False by congruence.
  - rewrite lookup_insert_ne by done. by rewrite decide_False by congruence.
Qed.

Record represents (t : Table) (i : Inspector) : Prop := {
  rep_modules m c : lookup2 (modules_ i) m c = fst <$> t !! (m, c);
  rep_helps m c : lookup2 (helps_ i) m c = snd <$> t !! (m, c)
}.

Lemma exec_op_represents t i op : represents t i → represents (table_op t op) (exec_op i op).
Proof.
  intros [H1 H2]. destruct op as [m c cb help|m c]; cbn [table_op exec_op].
  - split; intros m' c'; cbn; rewrite lookup2_set2, lookup_insert; [rewrite H1|rewrite H2]; by destruct (decide _).
  - unfold remove. destruct (modules_ i !! m) as [commands|] eqn:E.
    + assert (<[ m := delete c commands ]> (modules_ i) = erase2 m c (modules_ i)) as -> by (unfold erase2; by rewrite E).
      split; intros m' c'; cbn; rewrite lookup2_erase2, lookup_delete; [rewrite H1|rewrite H2]; by destruct (decide _).
    + assert (delete (m, c) t = t) as ->; [|by split]. apply delete_id. specialize (H1 m c). unfold lookup2 in H1. rewrite E in H1. cbn in H1.
      rewrite lookup_empty in H1. by destruct (t !! (m, c)).
Qed.

Lemma exec_ops_represents ops : represents (table ops) (exec_ops ops).
Proof.
  unfold table, exec_ops. induction ops as [|op ops IH] using rev_ind.
  - split; intros m c; cbn; unfold lookup2; by rewrite lookup_empty.
  - rewrite !foldl_app. by apply exec_op_represents.
Qed.

Lemma find_command_table t i m c : represents t i → find_command m c i = match t !! (m, c) with Some (cb, _) => cb | None => None end.
Proof.
  intros [H1 _]. specialize (H1 m c). unfold lookup2 in H1. unfold find_command. destruct (modules_ i !! m) as [l|]; cbn in H1.
  - rewrite H1. by destruct (t !! (m, c)) as [[cb help]|].
  - rewrite lookup_empty in H1. by destruct (t !! (m, c)).
Qed.

(** ** The help *)

(** All entries, by module and then by command. *)
Definition entries (i : Inspector) : list (bytes * bytes * bytes) :=
  concat ((λ m, (λ c, (m.1, c.1, c.2)) <$> in_order m.2) <$> in_order (helps_ i)).

Lemma help_text_entries i : help_text i = concat ((λ e, help_line e.1.1 e.1.2 e.2) <$> entries i).
Proof.
  unfold help_text, entries. induction (in_order (helps_ i)) as [|m l IH]; [done|]. rewrite !fmap_cons. cbn [concat].
  rewrite IH, fmap_app, concat_app. f_equal. by rewrite <- list_fmap_compose.
Qed.

Lemma in_order_perm {A} (m : gmap bytes A) : in_order m ≡ₚ map_to_list m.
Proof. apply merge_sort_Permutation. Qed.

Lemma in_order_elem {A} (m : gmap bytes A) k x : (k, x) ∈ in_order m ↔ m !! k = Some x.
Proof. rewrite in_order_perm. apply elem_of_map_to_list. Qed.

Lemma in_order_nodup {A} (m : gmap bytes A) : NoDup (in_order m).*1.
Proof. rewrite in_order_perm. apply NoDup_fst_map_to_list. Qed.

Lemma entries_elem i m c h : (m, c, h) ∈ entries i ↔ lookup2 (helps_ i) m c = Some h.
Proof.
  unfold entries, lookup2. rewrite elem_of_concat. split.
  - intros (l & Hl & ([m' cs] & -> & Hm)%list_elem_of_fmap). apply list_elem_of_fmap in Hl as ([c' h'] & E & Hc). cbn in E. injection E as -> -> ->.
    apply in_order_elem in Hm, Hc. rewrite Hm. done.
  - destruct (helps_ i !! m) as [cs|] eqn:Hm; cbn; [|by rewrite lookup_empty]. intros Hc. exists ((λ c, (m, c.1, c.2)) <$> in_order cs). split.
    + apply list_elem_of_fmap. exists (c, h). split; [done|]. by apply in_order_elem.
    + apply (list_elem_of_fmap_2 (λ m, (λ c, (m.1, c.1, c.2)) <$> in_order m.2) _ (m, cs)). by apply in_order_elem.
Qed.

Lemma entries_nodup i : NoDup (entries i).
Proof.
  assert (∀ {A} (m : gmap bytes A), NoDup (in_order m)) as Hd by (intros; eapply NoDup_fmap_1, in_order_nodup).
  unfold entries. apply NoDup_concat_fmap; [apply Hd|..].
  - intros [m cs] _. apply NoDup_fmap_2_strong; [|apply Hd]. intros [c1 h1] [c2 h2] _ _. by intros [= -> ->].
  - intros [m1 cs1] [m2 cs2] b H1%in_order_elem H2%in_order_elem ([c1 h1] & -> & _)%list_elem_of_fmap ([c2 h2] & E & _)%list_elem_of_fmap.
    cbn in E. injection E as -> _ _. congruence.
Qed.

(** The help of the table. *)
Definition table_help (t : Table) : list (bytes * bytes * bytes) := (λ x, (x.1, x.2.2)) <$> map_to_list t.

Lemma entries_table t i : represents t i → entries i ≡ₚ table_help t.
Proof.
  intros [_ H2]. apply NoDup_Permutation; [apply entries_nodup|..].
  - apply NoDup_fmap_2_strong; [|apply NoDup_map_to_list]. intros [k1 [cb1 h1]] [k2 [cb2 h2]] E1%elem_of_map_to_list E2%elem_of_map_to_list.
    cbn. intros [= -> ->]. congruence.
  - intros [[m c] h]. rewrite entries_elem, H2. unfold table_help. rewrite list_elem_of_fmap. split.
    + destruct (t !! (m, c)) as [[cb h']|] eqn:E; [|done]. cbn. intros [= ->]. exists ((m, c), (cb, h)). split; [done|]. by apply elem_of_map_to_list.
    + intros ([k [cb h']] & E & Hin%elem_of_map_to_list). cbn in E. injection E as -> ->. by rewrite Hin.
Qed.

(** C28. The inspector serves its commands.  After its construction and any sequence of commands being added and removed, also again:
    a request for a path, with modules, commands and arguments that are not empty and have no slash, gets the result of the callback which was added last for its
    module and command, with its arguments, and gets "not found" if it was not added, if it was removed after that, or if the callback is
    empty; the request for "/" gets the help of exactly the commands that are there, each once.  ([split], which
    takes the path apart, always returns, and it returns what is between the slashes, empty parts left out.) *)
Theorem inspector_serves favicon process system ops req resp :
  let i := foldl exec_op (Inspector_built process system) ops in
  let t := table (built_ops process system ++ ops) in
  (∀ path, split path = Some (segments path)) ∧
  (path_ req = lit "/" → ∃ l, l ≡ₚ table_help t ∧
    onRequest favicon req resp i = Some (ok_response (lit "text/plain") (concat ((λ e, help_line e.1.1 e.1.2 e.2) <$> l)) resp)) ∧
  (∀ module command args, path_ req = path_text (module :: command :: args) → Forall (λ s, s ≠ [] ∧ x2f ∉ s) (module :: command :: args) →
    onRequest favicon req resp i = Some match t !! (module, command) with
      | Some (Some cb, _) => ok_response (lit "text/plain") (cb (method_ req) args) resp
      | _ => not_found resp
      end).
Proof.
  intros i t. assert (Hi : i = exec_ops (built_ops process system ++ ops)) by (unfold i, exec_ops; by rewrite foldl_app).
  rewrite Hi. pose proof (exec_ops_represents (built_ops process system ++ ops)) as Hr. fold t in Hr. clearbody t. clear i Hi.
  split_and!; [apply split_segments|..]; unfold onRequest.
  - intros ->. rewrite bool_decide_true by done. eexists. split; [by apply entries_table|]. by rewrite help_text_entries.
  - intros module command args -> Hs. rewrite bool_decide_false.
    + rewrite split_segments, segments_path by done. cbn [mbind option_bind]. rewrite (find_command_table t) by done.
      by destruct (t !! (module, command)) as [[[cb|] help]|].
    + apply Forall_cons in Hs as [[Hne _] _]. destruct module; [done|]. by intros [=].
Qed.

Definition sample_cb : Method → list bytes → bytes := λ _ args, lit "args" ++ concat args.
Definition sample_ops : list Op :=
  [OAdd (lit "app") (lit "stat") (Some sample_cb) (lit "print stat"); ORemove (lit "proc") (lit "pid")].
Definition sample_report (command : bytes) : Callback := Some (λ _ _, command).

(** A command that is there, and one that was removed. *)
Lemma inspector_serves_witness :
  let req path := mkHttpRequest kGet kHttp11 path [] 0 [] in
  let i := foldl exec_op (Inspector_built sample_report sample_report) sample_ops in
  onRequest [] (req (lit "/app/stat/x")) (HttpResponse_new false) i
    = Some (ok_response (lit "text/plain") (lit "argsx") (HttpResponse_new false)) ∧
  onRequest [] (req (lit "/sys/stat")) (HttpResponse_new false) i
    = Some (ok_response (lit "text/plain") (lit "stat") (HttpResponse_new false)) ∧
  onRequest [] (req (lit "/proc/pid")) (HttpResponse_new false) i = Some (not_found (HttpResponse_new false)).
Proof.
  intros req i. unfold i. assert (∀ s, bool_decide (s ≠ [] ∧ x2f ∉ s) = true → s ≠ [] ∧ x2f ∉ s) as Hs by (intros s H; by apply bool_decide_eq_true in H).
  pose proof (λ path, inspector_serves [] sample_report sample_report sample_ops (req path) (HttpResponse_new false)) as H.
  split_and!.
  - rewrite (proj2 (proj2 (H (lit "/app/stat/x"))) (lit "app") (lit "stat") [lit "x"]);
      [reflexivity|reflexivity|]. repeat apply Forall_cons_2; [..|apply Forall_nil_2]; apply Hs; reflexivity.
  - rewrite (proj2 (proj2 (H (lit "/sys/stat"))) (lit "sys") (lit "stat") []);
      [reflexivity|reflexivity|]. repeat apply Forall_cons_2; [..|apply Forall_nil_2]; apply Hs; reflexivity.
  - rewrite (proj2 (proj2 (H (lit "/proc/pid"))) (lit "proc") (lit "pid") []);
      [reflexivity|reflexivity|]. repeat apply Forall_cons_2; [..|apply Forall_nil_2]; apply Hs; reflexivity.
Defined.

Example help_example :
  help_text (exec_ops [OAdd (lit "proc") (lit "pid") None (lit "print pid"); OAdd (lit "proc") (lit "status") None (lit "print status");
    ORemove (lit "proc") (lit "pid")]) = lit "/proc/status" ++ replicate 15 x20 ++ lit "print status" ++ [x0a].
Proof. by vm_compute. Qed.
