(* ===== verification/Mutex.v ===== *)
(** * Mutexes and conditions (muduo/base/Mutex.h, Condition.h, Condition.cc)

    A [MutexLock] is a pthread mutex and the id of the thread that holds it, for
    assertions.  A member function is the list of what it does, one step at a
    time, and threads take turns between the steps.  The pthread functions are
    their documentation: a mutex has an owner, to lock it a thread waits until there is none, and
    [pthread_cond_wait] unlocks it and waits at once, and locks it again. *)
From Stdlib Require Import Floats.SpecFloat.
From stdpp Require Import base numbers list gmap.
From S2P Require Import Prelude Timestamp.
Open Scope Z_scope.
Open Scope muduo_scope.

(** ** Member functions *)

Inductive Instr :=
  | PthreadLock
  | PthreadUnlock
  | AssignHolder
  | UnassignHolder
  (** [pthread_cond_wait] without the lock at its end *)
  | PthreadCondWait
  | PthreadCondWake.

Definition lock : list Instr := [PthreadLock; AssignHolder].
Definition unlock : list Instr := [UnassignHolder; PthreadUnlock].
(** [UnassignGuard] around [pthread_cond_wait]. *)
Definition wait : list Instr := [UnassignHolder; PthreadCondWait; PthreadCondWake; PthreadLock; AssignHolder].

(** ** State *)

(** A thread: what is left of the function it is in, and whether it has a [MutexLockGuard]. *)
Record Thread := mkThread { code : list Instr; guarded : bool }.

Record MutexLock := mkMutexLock {
  mutex_ : option Z;
  holder_ : Z;
  threads : gmap Z Thread
}.

(** A mutex, with the threads that know it. *)
Definition MutexLock_new (tids : list Z) : MutexLock :=
  mkMutexLock None 0 (list_to_map ((λ t, (t, mkThread [] false)) <$> tids)).

Definition isLockedByThisThread (tid : Z) (m : MutexLock) : bool := holder_ m =? tid.
Definition assertLocked (tid : Z) (m : MutexLock) : outcome unit := assertb 144 (isLockedByThisThread tid m).
(** [MCHECK(pthread_mutex_destroy(...))], which fails if the mutex is locked. *)
Definition MutexLock_destructor (m : MutexLock) : outcome unit :=
  _ ← assertb 132 (holder_ m =? 0);
  assertb 133 (bool_decide (mutex_ m = None)).

(** One step of a thread; [None] if it has to wait.  Unlocking what is not its own is an error that
    [MCHECK] sees. *)
Definition instr_step (tid : Z) (i : Instr) (m : MutexLock) : option (outcome (option Z * Z)) :=
  match i with
  | PthreadLock => if bool_decide (mutex_ m = None) then Some (Ok (Some tid, holder_ m)) else None
  | PthreadUnlock =>
    if bool_decide (mutex_ m = Some tid) then Some (Ok (None, holder_ m)) else Some (Fault (AssertFailure 158))
  | PthreadCondWait =>
    if bool_decide (mutex_ m = Some tid) then Some (Ok (None, holder_ m)) else Some (Fault (AssertFailure 33))
  | PthreadCondWake => Some (Ok (mutex_ m, holder_ m))
  | AssignHolder => Some (Ok (mutex_ m, tid))
  | UnassignHolder => Some (Ok (mutex_ m, 0))
  end.

(** What a thread does: goes on, makes a [MutexLockGuard], destroys it, or waits on a condition.  It
    makes one guard at a time, and waits only under a guard. *)
Inductive Action := AGo | AGuard | AUnguard | AWait.

Definition act (tid : Z) (a : Action) (m : MutexLock) : option (outcome MutexLock) :=
  match threads m !! tid with
  | None => None
  | Some th =>
    match a, code th, guarded th with
    | AGo, i :: rest, g =>
      match instr_step tid i m with
      | Some (Ok (owner, holder)) => Some (Ok (mkMutexLock owner holder (<[ tid := mkThread rest g ]> (threads m))))
      | Some (Fault f) => Some (Fault f)
      | None => None
      end
    | AGuard, [], false => Some (Ok (mkMutexLock (mutex_ m) (holder_ m) (<[ tid := mkThread lock true ]> (threads m))))
    | AUnguard, [], true => Some (Ok (mkMutexLock (mutex_ m) (holder_ m) (<[ tid := mkThread unlock false ]> (threads m))))
    | AWait, [], true => Some (Ok (mkMutexLock (mutex_ m) (holder_ m) (<[ tid := mkThread wait true ]> (threads m))))
    | _, _, _ => None
    end
  end.

(** Actions of threads in any order; those that cannot be taken are left out. *)
Fixpoint run (l : list (Z * Action)) (m : MutexLock) : outcome MutexLock :=
  match l with
  | [] => mret m
  | (tid, a) :: l => match act tid a m with Some (Ok m) => run l m | Some (Fault f) => Fault f | None => run l m end
  end.

(** ** Where a thread is *)

(** What a thread that has the mutex can have left to do. *)
Definition owns (th : Thread) : bool :=
  match code th, guarded th with
  | [], g => g
  | [AssignHolder], true | [UnassignHolder; PthreadUnlock], false | [PthreadUnlock], false => true
  | UnassignHolder :: PthreadCondWait :: _, true | PthreadCondWait :: _, true => true
  | _, _ => false
  end.
(** Inside the section: after [assignHolder], before [unassignHolder]. *)
Definition inside (th : Thread) : bool :=
  match code th, guarded th with
  | [], g => g
  | [UnassignHolder; PthreadUnlock], false => true
  | UnassignHolder :: PthreadCondWait :: _, true => true
  | _, _ => false
  end.

(** Where the functions can be. *)
Definition codes : list Thread :=
  [mkThread [] true; mkThread [] false; mkThread lock true; mkThread [AssignHolder] true; mkThread unlock false;
   mkThread [PthreadUnlock] false; mkThread wait true; mkThread (drop 1 wait) true; mkThread (drop 2 wait) true].

#[export] Instance Instr_eq_dec : EqDecision Instr.
Proof. solve_decision. Defined.
#[export] Instance Thread_eq_dec : EqDecision Thread.
Proof. solve_decision. Defined.

(** The owner of the mutex, and the id that is stored, are those of the threads that say so. *)
Record mutex_inv (m : MutexLock) : Prop := {
  mi_codes tid th : threads m !! tid = Some th → tid ≠ 0 ∧ th ∈ codes;
  mi_owner tid : mutex_ m = Some tid ↔ ∃ th, threads m !! tid = Some th ∧ owns th = true;
  mi_holder tid : tid ≠ 0 → holder_ m = tid ↔ ∃ th, threads m !! tid = Some th ∧ inside th = true
}.

Lemma codes_cases (P : Thread → Prop) : Forall P codes → ∀ th, th ∈ codes → P th.
Proof. by rewrite Forall_forall. Qed.

Lemma inside_owns th : th ∈ codes → inside th = true → owns th = true.
Proof. revert th. apply (codes_cases (λ th, inside th = true → owns th = true)). by repeat apply Forall_cons_2. Qed.

Section Invariant.
Context (m : MutexLock) (Hm : mutex_inv m).

Lemma holder_owns tid : tid ≠ 0 → holder_ m = tid → mutex_ m = Some tid.
Proof.
  intros Hne Hh. apply (mi_holder m Hm) in Hh as (th & Hth & Hin); [|done]. apply (mi_owner m Hm). exists th. split; [done|].
  apply inside_owns; [|done]. by apply (mi_codes m Hm tid th).
Qed.

(** A thread moves on. *)
Lemma mutex_inv_update tid th th' owner holder : threads m !! tid = Some th → th' ∈ codes →
  (∀ t, t ≠ tid → owner = Some t ↔ mutex_ m = Some t) → (owner = Some tid ↔ owns th' = true) →
  (∀ t, t ≠ 0 → t ≠ tid → holder = t ↔ holder_ m = t) → (holder = tid ↔ inside th' = true) →
  mutex_inv (mkMutexLock owner holder (<[ tid := th' ]> (threads m))).
Proof.
  intros Hth Hc Ho1 Ho2 Hh1 Hh2. split; cbn [threads mutex_ holder_].
  - intros t x. destruct (decide (t = tid)) as [->|Hne].
    + rewrite lookup_insert_eq. intros [= <-]. split; [by apply (mi_codes m Hm tid th)|done].
    + rewrite lookup_insert_ne by done. apply (mi_codes m Hm).
  - intros t. destruct (decide (t = tid)) as [->|Hne]; [rewrite lookup_insert_eq|rewrite lookup_insert_ne by done].
    + rewrite Ho2. split; [eauto|]. by intros (x & [= <-] & ?).
    + rewrite Ho1 by done. apply (mi_owner m Hm).
  - intros t H0. destruct (decide (t = tid)) as [->|Hne]; [rewrite lookup_insert_eq|rewrite lookup_insert_ne by done].
    + rewrite Hh2. split; [eauto|]. by intros (x & [= <-] & ?).
    + rewrite Hh1 by done. by apply (mi_holder m Hm).
Qed.

(** What the state says of the thread that is about to act. *)
Lemma thread_facts tid th : threads m !! tid = Some th →
  tid ≠ 0 ∧ th ∈ codes ∧ (mutex_ m = Some tid ↔ owns th = true) ∧ (holder_ m = tid ↔ inside th = true).
Proof.
  intros Hth. destruct (mi_codes m Hm tid th Hth) as [Hne Hc]. split_and!; [done|done|..].
  - rewrite (mi_owner m Hm tid). split; [by intros (x & Hx & ?); simplify_eq|eauto].
  - rewrite (mi_holder m Hm tid Hne). split; [by intros (x & Hx & ?); simplify_eq|eauto].
Qed.

(** No action fails, and the invariant is kept. *)
Lemma mutex_act_inv tid a r : act tid a m = Some r → r ⇓ mutex_inv.
Proof.
  unfold act. destruct (threads m !! tid) as [th|] eqn:Hth; [|done]. destruct (thread_facts tid th Hth) as (Hne & Hc & Ho & Hh).
  assert (∀ t, t ≠ 0 → holder_ m = t → mutex_ m = Some t) as Hho by apply holder_owns.
  pose proof (λ th' owner holder, mutex_inv_update tid th th' owner holder Hth) as Hup. clear Hth.
  revert Ho Hh Hup. pattern th. revert th Hc. apply codes_cases. unfold codes, lock, unlock, wait. cbn [drop].
  repeat apply Forall_cons_2; [..|apply Forall_nil_2]; unfold owns, inside; cbn [code guarded instr_step]; intros Ho Hh Hup; destruct a; try done;
    repeat case_bool_decide; try (intros [= <-]); try done; cbn [yields].
  all: try (apply Hup; [by repeat (left || right)|..]; clear Hup; unfold owns, inside; cbn [code guarded]; intros; naive_solver).
  all: naive_solver.
Qed.
End Invariant.

Lemma mutex_inv_new tids : 0 ∉ tids → mutex_inv (MutexLock_new tids).
Proof.
  intros H0. assert (∀ tid th, threads (MutexLock_new tids) !! tid = Some th → tid ≠ 0 ∧ th = mkThread [] false) as Hth.
  { intros tid th Hl. apply elem_of_list_to_map_2, list_elem_of_fmap in Hl as (t & [= -> ->] & Hin). split; [|done]. by intros ->. }
  split; cbn [MutexLock_new mutex_ holder_].
  - intros tid th Hl. destruct (Hth tid th Hl) as [? ->]. split; [done|]. right. by left.
  - intros tid. split; [done|]. intros (th & Hl & Ho). by destruct (Hth tid th Hl) as [_ ->].
  - intros tid Hne. split; [done|]. intros (th & Hl & Ho). by destruct (Hth tid th Hl) as [_ ->].
Qed.

Lemma run_inv l : ∀ m, mutex_inv m → run l m ⇓ mutex_inv.
Proof.
  induction l as [|[tid a] l IH]; intros m Hm; [done|]. cbn [run]. destruct (act tid a m) as [r|] eqn:E; [|by apply IH].
  pose proof (mutex_act_inv m Hm tid a r E) as Hr. destruct r as [m'|]; [by apply IH|done].
Qed.

(** C14. A mutex knows who holds it.  However threads (with ids other than 0) make and destroy
    guards and wait on conditions, and however their steps are interleaved: no check of a
    pthread function fails; at every time [isLockedByThisThread] is true for exactly the thread that is inside of its
    section, which owns the mutex then, so that [assertLocked] holds there, also after a wait, and is
    not true for two threads; and if no thread has a guard, or is still in [lock] or [unlock], then the mutex can be destroyed. *)
Theorem mutex_holder tids l : 0 ∉ tids →
  run l (MutexLock_new tids) ⇓ λ m,
    (∀ tid th, threads m !! tid = Some th →
      (isLockedByThisThread tid m = true ↔ inside th = true) ∧ (inside th = true → mutex_ m = Some tid ∧ assertLocked tid m = Ok tt)) ∧
    (∀ t1 t2 th1 th2, threads m !! t1 = Some th1 → threads m !! t2 = Some th2 → owns th1 = true → owns th2 = true → t1 = t2) ∧
    ((∀ tid th, threads m !! tid = Some th → th = mkThread [] false) → MutexLock_destructor m = Ok tt).
Proof.
  intros H0. eapply yields_mono; [by apply run_inv, mutex_inv_new|]. intros m Hm. split_and!.
  - intros tid th Hth. destruct (thread_facts m Hm tid th Hth) as (Hne & Hc & Ho & Hh). unfold assertLocked, isLockedByThisThread.
    rewrite Z.eqb_eq. split; [done|]. intros Hin. split; [by apply Ho, inside_owns|]. by rewrite (proj2 (Z.eqb_eq _ _) (proj2 Hh Hin)).
  - intros t1 t2 th1 th2 H1 H2 O1 O2. destruct (thread_facts m Hm t1 th1 H1) as (_ & _ & E1 & _), (thread_facts m Hm t2 th2 H2) as (_ & _ & E2 & _).
    apply E1 in O1. apply E2 in O2. congruence.
  - intros Hidle. unfold MutexLock_destructor. assert (holder_ m = 0) as ->.
    { destruct (decide (holder_ m = 0)) as [|Hne]; [done|]. destruct (proj1 (mi_holder m Hm _ Hne) eq_refl) as (th & Hth & Hin).
      by rewrite (Hidle _ _ Hth) in Hin. }
    cbn. rewrite bool_decide_true; [done|]. destruct (mutex_ m) as [tid|] eqn:E; [|done].
    destruct (proj1 (mi_owner m Hm tid) E) as (th & Hth & Ho). by rewrite (Hidle _ _ Hth) in Ho.
Qed.

(** Two threads, one of which waits on a condition while the other has its section. *)
Lemma mutex_holder_witness :
  let l := [(7, AGuard); (9, AGuard); (7, AGo); (7, AGo); (9, AGo); (7, AWait); (7, AGo); (7, AGo); (9, AGo); (9, AGo)] in
  0 ∉ [7; 9] ∧ run l (MutexLock_new [7; 9]) ⇓ λ m,
    ∀ tid th, threads m !! tid = Some th → isLockedByThisThread tid m = true ↔ inside th = true.
Proof.
  intros l. assert (0 ∉ [7; 9]) as H0 by (by apply (bool_decide_unpack _)). split; [exact H0|].
  eapply yields_mono; [apply (mutex_holder [7; 9] l H0)|]. intros m (H1 & _ & _) tid th Hth. apply (H1 tid th Hth).
Defined.

Example mutex_example :
  (λ m, (mutex_ m, holder_ m)) <$> match run [(7, AGuard); (9, AGuard); (7, AGo); (7, AGo); (9, AGo); (7, AWait); (7, AGo); (7, AGo); (9, AGo); (9, AGo)]
    (MutexLock_new [7; 9]) with Ok m => Some m | _ => None end = Some (Some 9, 9).
Proof. by vm_compute. Qed.

(** ** Waiting for a time *)

Definition kNanoSecondsPerSecond : Z := 1000000000.

(** The time until which [waitForSeconds] waits; [tv_sec] and [tv_nsec] are the time now. *)
Definition wait_until (seconds : double) (tv_sec tv_nsec : Z) : outcome (Z * Z) :=
  nanoseconds ← int64_of_double (double_mul seconds (double_of_Z kNanoSecondsPerSecond));
  sum ← checked_i64 (tv_nsec + nanoseconds);
  sec ← checked_i64 (tv_sec + Z.quot sum kNanoSecondsPerSecond);
  mret (sec, Z.rem sum kNanoSecondsPerSecond).

Section WaitForSeconds.
(** What [pthread_cond_timedwait] returns for a time. *)
Context (ETIMEDOUT : Z) (pthread_cond_timedwait : Z → Z → Z).

Definition waitForSeconds (seconds : double) (tv_sec tv_nsec : Z) : outcome bool :=
  '(sec, nsec) ← wait_until seconds tv_sec tv_nsec;
  mret (ETIMEDOUT =? pthread_cond_timedwait sec nsec).
End WaitForSeconds.

(** The time is now plus the seconds, and it is one that [pthread_cond_timedwait] takes, if the seconds are not negative. *)
Lemma wait_until_spec seconds tv_sec tv_nsec ns :
  0 ≤ tv_sec < 2 ^ 62 → 0 ≤ tv_nsec < kNanoSecondsPerSecond →
  int64_of_double (double_mul seconds (double_of_Z kNanoSecondsPerSecond)) = Ok ns → 0 ≤ ns < 2 ^ 62 →
  wait_until seconds tv_sec tv_nsec ⇓ λ '(sec, nsec),
    0 ≤ nsec < kNanoSecondsPerSecond ∧ sec * kNanoSecondsPerSecond + nsec = tv_sec * kNanoSecondsPerSecond + tv_nsec + ns.
Proof.
  intros Hs Hn Hd Hns. unfold wait_until, kNanoSecondsPerSecond in *. rewrite Hd. run_ok. apply yields_bind, checked_i64_ok; [lia|].
  pose proof (Z.quot_rem' (tv_nsec + ns) 1000000000). pose proof (Z.rem_bound_pos (tv_nsec + ns) 1000000000).
  assert (0 ≤ Z.quot (tv_nsec + ns) 1000000000 < 2 ^ 62) by (Z.to_euclidean_division_equations; lia).
  apply yields_bind, checked_i64_ok; [lia|]. apply yields_ret. split; lia.
Qed.

(** With a negative number of seconds the nanoseconds can be negative, which is not a time. *)
Lemma wait_negative : wait_until (S754_finite true 1 (-1)) 100 0 = Ok (100, -500000000).
Proof. by vm_compute. Qed.
