(* ===== verification/Thread.v ===== *)
(** * Threads (muduo/base/Thread.h, Thread.cc, with the CountDownLatch by which [start] waits)

    The owner of a [Thread] object and the thread that it starts, which take turns between any two accesses to the
    object: the new thread writes [tid_] and counts the latch down through pointers into the object, and the owner, once
    [start] has returned, may destroy it.  An access to an object that is gone is a fault.  The pthread functions are their
    documentation, and waiting on a condition can end spuriously. *)
From Stdlib Require Import Strings.Byte.
From stdpp Require Import base numbers list strings.
From S2P Require Import Prelude Printf.
Open Scope Z_scope.
Open Scope muduo_scope.

(** ** State *)

(** Where the owner is: outside, in [latch_.wait()] ([OLock] to [OUnlock]), before the assertion of [start], or in [join]. *)
Inductive OwnerAt := OIdle | OLock | OCheck | OSleep | OUnlock | OAssert | OJoin.
(** Where the new thread is: not created, in [runInThread] up to the end of [latch_->countDown()] ([CSetTid] to [CUnlock]), in [func_], or at its end. *)
Inductive ChildAt := CNone | CSetTid | CLock | CDec | CNotify | CUnlock | CFunc | CDone.
#[export] Instance OwnerAt_eq_dec : EqDecision OwnerAt.
Proof. solve_decision. Defined.
#[export] Instance ChildAt_eq_dec : EqDecision ChildAt.
Proof. solve_decision. Defined.

Inductive Who := Owner | Child.
#[export] Instance Who_eq_dec : EqDecision Who.
Proof. solve_decision. Defined.

(** [count_] and [mutex_] are those of [latch_]; [alive]: the object exists; [runs]: how often [func_] was run. *)
Record Thread := mkThread {
  started_ : bool;
  joined_ : bool;
  tid_ : Z;
  count_ : Z;
  mutex_ : option Who;
  alive : bool;
  detached : bool;
  runs : Z;
  owner : OwnerAt;
  child : ChildAt
}.

Definition Thread_new : Thread := mkThread false false 0 1 None true false 0 OIdle CNone.

Definition at_owner (o : OwnerAt) (m : option Who) (t : Thread) : Thread :=
  mkThread (started_ t) (joined_ t) (tid_ t) (count_ t) m (alive t) (detached t) (runs t) o (child t).
Definition at_child (c : ChildAt) (m : option Who) (t : Thread) : Thread :=
  mkThread (started_ t) (joined_ t) (tid_ t) (count_ t) m (alive t) (detached t) (runs t) (owner t) c.

(** ** The member functions *)

(** [start] up to the wait; [created]: whether [pthread_create] succeeds. *)
Definition start (created : bool) (t : Thread) : outcome Thread :=
  _ ← assertb 175 (negb (started_ t));
  if created then mret (mkThread true (joined_ t) (tid_ t) (count_ t) (mutex_ t) (alive t) (detached t) (runs t) OLock CSetTid)
  else Fault (Fatal 183).

(** [join] up to [pthread_join]. *)
Definition join (t : Thread) : outcome Thread :=
  _ ← assertb 194 (started_ t);
  _ ← assertb 195 (negb (joined_ t));
  mret (mkThread (started_ t) true (tid_ t) (count_ t) (mutex_ t) (alive t) (detached t) (runs t) OJoin (child t)).

(** [~Thread], with [~MutexLock] of the latch, which fails if the mutex is locked. *)
Definition Thread_destructor (t : Thread) : outcome Thread :=
  _ ← assertb 133 (bool_decide (mutex_ t = None));
  mret (mkThread (started_ t) (joined_ t) (tid_ t) (count_ t) (mutex_ t) false (started_ t && negb (joined_ t)) (runs t) OIdle (child t)).

(** A step of the owner in [latch_.wait()], [start] or [join]; [None] if it has to wait. *)
Definition owner_step (t : Thread) : option (outcome Thread) :=
  match owner t with
  | OLock => if bool_decide (mutex_ t = None) then Some (mret (at_owner OCheck (Some Owner) t)) else None
  | OCheck => Some (mret (if 0 <? count_ t then at_owner OSleep None t else at_owner OUnlock (mutex_ t) t))
  | OUnlock => Some (mret (at_owner OAssert None t))
  | OAssert => Some (_ ← assertb 188 (0 <? tid_ t); mret (at_owner OIdle (mutex_ t) t))
  | OJoin => if bool_decide (child t = CDone) then Some (mret (at_owner OIdle (mutex_ t) t)) else None
  | OIdle | OSleep => None
  end.

(** An access of the new thread to the object. *)
Definition touch (t : Thread) (k : outcome Thread) : outcome Thread := if alive t then k else Fault BadDeref.

(** A step of the new thread in [runInThread]; [tid] is what [gettid] returns. *)
Definition child_step (tid : Z) (t : Thread) : option (outcome Thread) :=
  match child t with
  | CSetTid => Some (touch t (mret (mkThread (started_ t) (joined_ t) tid (count_ t) (mutex_ t) (alive t) (detached t) (runs t) (owner t) CLock)))
  | CLock =>
    if alive t then if bool_decide (mutex_ t = None) then Some (mret (at_child CDec (Some Child) t)) else None
    else Some (Fault BadDeref)
  | CDec =>
    Some (touch t (let count := count_ t - 1 in
      mret (mkThread (started_ t) (joined_ t) (tid_ t) count (mutex_ t) (alive t) (detached t) (runs t) (owner t)
              (if count =? 0 then CNotify else CUnlock))))
  | CNotify =>
    Some (touch t (mret (at_child CUnlock (mutex_ t) (if bool_decide (owner t = OSleep) then at_owner OLock (mutex_ t) t else t))))
  | CUnlock => Some (touch t (mret (at_child CFunc None t)))
  | CFunc =>
    Some (mret (mkThread (started_ t) (joined_ t) (tid_ t) (count_ t) (mutex_ t) (alive t) (detached t) (runs t + 1) (owner t) CDone))
  | CNone | CDone => None
  end.

(** ** Runs *)

(** The owner calls a member function, goes on in one, or wakes up spuriously; the new thread goes on. *)
Inductive Action := AStart (created : bool) | AJoin | ADestroy | AOwner | ASpurious | AChild.

Definition exec (tid : Z) (a : Action) (t : Thread) : option (outcome Thread) :=
  match a with
  | AStart created => if bool_decide (owner t = OIdle) && alive t then Some (start created t) else None
  | AJoin => if bool_decide (owner t = OIdle) && alive t then Some (join t) else None
  | ADestroy => if bool_decide (owner t = OIdle) && alive t then Some (Thread_destructor t) else None
  | AOwner => owner_step t
  | ASpurious => if bool_decide (owner t = OSleep) then Some (mret (at_owner OLock (mutex_ t) t)) else None
  | AChild => child_step tid t
  end.

(** What the owner may do: start once, join once and after the start; threads can be created. *)
Definition allowed (a : Action) (t : Thread) : bool :=
  match a with
  | AStart created => created && negb (started_ t)
  | AJoin => started_ t && negb (joined_ t)
  | _ => true
  end.

(** Actions in any order; those that cannot or may not be taken are left out. *)
Fixpoint run (tid : Z) (l : list Action) (t : Thread) : outcome Thread :=
  match l with
  | [] => mret t
  | a :: l => if allowed a t then match exec tid a t with Some m => t ← m; run tid l t | None => run tid l t end else run tid l t
  end.

(** ** The invariant *)

(** What the place of the new thread says of the object. *)
Definition tid_at (tid : Z) (c : ChildAt) : Z := match c with CNone | CSetTid => 0 | _ => tid end.
Definition count_at (c : ChildAt) : Z := match c with CNone | CSetTid | CLock | CDec => 1 | _ => 0 end.
Definition runs_at (c : ChildAt) : Z := match c with CDone => 1 | _ => 0 end.
Definition mutex_at (o : OwnerAt) (c : ChildAt) : option Who :=
  match c with
  | CDec | CNotify | CUnlock => Some Child
  | _ => match o with OCheck | OUnlock => Some Owner | _ => None end
  end.

(** Where both can be at once: a sleeper will be notified, and whoever has left [wait] finds the new thread past its last access. *)
Definition places_ok (o : OwnerAt) (c : ChildAt) : bool :=
  match o, c with
  | OIdle, (CNone | CFunc | CDone) => true
  | OLock, (CSetTid | CLock | CDec | CNotify | CUnlock | CFunc | CDone) => true
  | OCheck, (CSetTid | CLock | CFunc | CDone) => true
  | OSleep, (CSetTid | CLock | CDec | CNotify) => true
  | (OUnlock | OAssert | OJoin), (CFunc | CDone) => true
  | _, _ => false
  end.

(** Whether the object is joined, alive and detached, as it can be. *)
Definition life_ok (o : OwnerAt) (c : ChildAt) (joined alive detached : bool) : bool :=
  implb joined (match o, c with OIdle, CDone | OJoin, _ => true | _, _ => false end) &&
  implb (bool_decide (o = OJoin)) joined &&
  implb (negb alive) (bool_decide (o = OIdle)) &&
  eqb detached (negb alive && bool_decide (c ≠ CNone) && negb joined).

Record thread_inv (tid : Z) (t : Thread) : Prop := {
  ti_places : places_ok (owner t) (child t) = true;
  ti_life : life_ok (owner t) (child t) (joined_ t) (alive t) (detached t) = true;
  ti_started : started_ t = bool_decide (child t ≠ CNone);
  ti_tid : tid_ t = tid_at tid (child t);
  ti_count : count_ t = count_at (child t);
  ti_mutex : mutex_ t = mutex_at (owner t) (child t);
  ti_runs : runs t = runs_at (child t)
}.

Lemma Thread_new_inv tid : thread_inv tid Thread_new.
Proof. by split. Qed.

(** The state is determined by the two places and three flags. *)
Definition thread_at (tid : Z) (o : OwnerAt) (c : ChildAt) (j a d : bool) : Thread :=
  mkThread (bool_decide (c ≠ CNone)) j (tid_at tid c) (count_at c) (mutex_at o c) a d (runs_at c) o c.
Lemma thread_inv_at tid t : thread_inv tid t →
  ∃ o c j a d, t = thread_at tid o c j a d ∧ places_ok o c = true ∧ life_ok o c j a d = true.
Proof. destruct t as [s j i n m a d r o c]. intros [H1 H2 H3 H4 H5 H6 H7]; cbn in *; subst. by exists o, c, j, a, d. Qed.

Lemma thread_exec_inv tid a t m : 0 < tid → thread_inv tid t → allowed a t = true → exec tid a t = Some m → m ⇓ thread_inv tid.
Proof.
  intros Htid (o & c & j & al & d & -> & Hp & Hl)%thread_inv_at.
  assert (Hpos : (0 <? tid) = true) by (by apply Z.ltb_lt).
  destruct a as [[]| | | | |], o, c, j, al, d; cbn in Hp, Hl |- *; try done;
    intros Ha [= <-]; cbn; rewrite ?Hpos; cbn; try done; by split.
Qed.

Lemma start_run_inv tid l t : 0 < tid → thread_inv tid t → run tid l t ⇓ thread_inv tid.
Proof.
  intros Htid. revert t. induction l as [|a l IH]; intros t Ht; [done|]. cbn [run].
  destruct (allowed a t) eqn:Ha; [|by apply IH]. destruct (exec tid a t) as [m|] eqn:E; [|by apply IH].
  ystep (thread_exec_inv tid a t m); [done..|]. apply IH.
Qed.

(** How far the two are from their ends. *)
Definition rank (t : Thread) : Z :=
  match owner t with OIdle => 0 | OAssert | OJoin => 1 | OUnlock | OSleep => 2 | OCheck => 3 | OLock => 4 end +
  match child t with CNone | CDone => 0 | CFunc => 1 | CUnlock => 2 | CNotify => 6 | CDec => 7 | CLock => 8 | CSetTid => 9 end.

(** Without spurious wake-ups every step comes closer to the end, and one can be made until both are there. *)
Lemma step_rank tid a t m t' : thread_inv tid t → a = AOwner ∨ a = AChild → exec tid a t = Some m → m = Ok t' → 0 ≤ rank t' < rank t.
Proof.
  intros (o & c & j & al & d & -> & Hp & Hl)%thread_inv_at [-> | ->]; destruct o, c; try done;
    destruct j, al, d; try done; cbn; intros [= <-]; cbn; destruct (0 <? tid); cbn; intros [= <-]; done.
Qed.
Lemma step_enabled tid t : thread_inv tid t → owner t ≠ OIdle ∨ child t ∉ [CNone; CDone] →
  is_Some (exec tid AOwner t) ∨ is_Some (exec tid AChild t).
Proof.
  intros (o & c & j & al & d & -> & Hp & Hl)%thread_inv_at Hin.
  destruct o, c, j, al, d; try done; cbn in Hin |- *; try (left; by eexists); try (right; by eexists).
  all: exfalso; destruct Hin as [|Hin]; [done|]; apply Hin; (apply list_elem_of_here || (apply list_elem_of_further, list_elem_of_here)).
Qed.



Example thread_destroyed_early :
  run 7 [AStart true; AOwner; AOwner; AChild; ASpurious; AChild; AChild; AOwner; AChild; AChild; AOwner; AOwner; AOwner; AOwner; ADestroy; AChild] Thread_new
  = Ok (mkThread true false 7 0 None false true 1 OIdle CDone).
Proof. reflexivity. Qed.

(** ** Names *)

(** The name of a thread that is made as the [numCreated_]-th; the count is an [AtomicInt32], which wraps. *)
Definition setDefaultName (numCreated : Z) (name : list byte) : Z * list byte :=
  let num := to_signed 32 (numCreated + 1) in
  (num, if bool_decide (name = []) then snprintf 32 (lit "Thread" ++ decimal num) else name).

(** Threads without a name of their own get different names. *)
Lemma default_names_distinct i j : 0 ≤ i < 2 ^ 31 - 1 → 0 ≤ j < 2 ^ 31 - 1 → (setDefaultName i []).2 = (setDefaultName j []).2 → i = j.
Proof.
  intros Hi Hj. unfold setDefaultName. rewrite !to_signed_small by (unfold in_signed; lia). cbn [snd]. rewrite !bool_decide_true by done.
  assert (Hl : ∀ n, 0 < n < 2 ^ 31 → snprintf 32 (lit "Thread" ++ decimal n) = lit "Thread" ++ decimal n).
  { intros n Hn. apply take_ge. unfold decimal, sign. rewrite (proj2 (Z.ltb_ge n 0)), Z.abs_eq by lia. cbn [app].
    destruct (num_digits_spec n) as (_ & _ & Hk); [lia|]. specialize (Hk 10%nat ltac:(lia) ltac:(cbn; lia)).
    rewrite length_app, length_dec_digits. cbn. lia. }
  rewrite !Hl by lia. intros E%app_inv_head. apply (f_equal dec_value) in E. rewrite !decimal_reads in E by lia. lia.
Qed.
