(* ===== verification/Monitor.v ===== *)
(** * Monitors (muduo/base/Mutex.h, Condition.h)

    A class with one [MutexLock] and some [Condition]s.  Every member function
    is a critical section that is run with the mutex held: it returns a result
    and notifications, or it waits on a condition, which gives the mutex up, so
    that the section starts over when the thread is woken up (the [while] around
    every [wait] in the sources).  Wake-ups may be spurious. *)
From stdpp Require Import base numbers list.
From S2P Require Import Prelude.
Open Scope nat_scope.

Inductive Notification := NotifyOne (cond : nat) | NotifyAll (cond : nat).

Inductive Critical (S R : Type) :=
  | Wait (cond : nat)
  | Return (s : S) (r : R) (ns : list Notification).
Arguments Wait {S R} _.
Arguments Return {S R} _ _ _.

(** A thread: about to enter the section of a call, waiting in it, or done. *)
Inductive Thread (C R : Type) :=
  | Entering (c : C)
  | Waiting (cond : nat) (c : C)
  | Idle (last : option R).
Arguments Entering {C R} _.
Arguments Waiting {C R} _ _.
Arguments Idle {C R} _.

Definition waits_on {C R} (cond : nat) (t : Thread C R) : bool :=
  if t is Waiting cond' _ then Nat.eqb cond' cond else false.

Definition wake {C R} (t : Thread C R) : Thread C R :=
  if t is Waiting _ c then Entering c else t.

Definition count {A} (f : A → bool) (l : list A) : nat := length (filter (λ x, f x = true) l).
Arguments count : simpl never.

(** [Condition::notify] wakes one waiter if there is one, [notifyAll] all of them. *)
Inductive notifies {C R} : Notification → list (Thread C R) → list (Thread C R) → Prop :=
  | notify_one cond ths i c :
      ths !! i = Some (Waiting cond c) → notifies (NotifyOne cond) ths (<[ i := Entering c ]> ths)
  | notify_none cond ths :
      count (waits_on cond) ths = 0 → notifies (NotifyOne cond) ths ths
  | notify_all cond ths :
      notifies (NotifyAll cond) ths ((λ t, if waits_on cond t then wake t else t) <$> ths).

Inductive notifies_all {C R} : list Notification → list (Thread C R) → list (Thread C R) → Prop :=
  | notifies_nil ths : notifies_all [] ths ths
  | notifies_cons n ns ths1 ths2 ths3 :
      notifies n ths1 ths2 → notifies_all ns ths2 ths3 → notifies_all (n :: ns) ths1 ths3.

Record Monitor (S C R : Type) := mkMonitor { shared : S; threads : list (Thread C R) }.
Arguments mkMonitor {S C R} _ _.
Arguments shared {S C R} _.
Arguments threads {S C R} _.

Class MonitorOps (S C R : Type) := section : C → S → Critical S R.

Section Steps.
Context {S C R : Type} `{MonitorOps S C R}.

Inductive mstep : Monitor S C R → Monitor S C R → Prop :=
  (** an idle thread makes a call *)
  | mstep_call m i r c :
      threads m !! i = Some (Idle r) →
      mstep m (mkMonitor (shared m) (<[ i := Entering c ]> (threads m)))
  (** it gets the mutex and waits *)
  | mstep_wait m i c cond :
      threads m !! i = Some (Entering c) → section c (shared m) = Wait cond →
      mstep m (mkMonitor (shared m) (<[ i := Waiting cond c ]> (threads m)))
  (** it gets the mutex and runs to the end *)
  | mstep_return m i c s r ns ths :
      threads m !! i = Some (Entering c) → section c (shared m) = Return s r ns →
      notifies_all ns (<[ i := Idle (Some r) ]> (threads m)) ths →
      mstep m (mkMonitor s ths)
  (** a spurious wake-up *)
  | mstep_spurious m i cond c :
      threads m !! i = Some (Waiting cond c) →
      mstep m (mkMonitor (shared m) (<[ i := Entering c ]> (threads m))).

Definition all_idle (m : Monitor S C R) : Prop := Forall (λ t, ∃ r, t = Idle r) (threads m).
End Steps.

(** ** Counting threads *)
Section Count.
Context {A : Type} (f : A → bool).

Lemma count_cons x l : count f (x :: l) = ((if f x then 1 else 0) + count f l)%nat.
Proof. unfold count. rewrite filter_cons. destruct (f x); simpl; by rewrite ?decide_True, ?decide_False. Qed.

Lemma count_insert l i x y :
  l !! i = Some y →
  (count f (<[ i := x ]> l) + (if f y then 1 else 0) = count f l + (if f x then 1 else 0))%nat.
Proof.
  revert i. induction l as [|z l IH]; intros [|i] Hi; [done|done| |].
  - injection Hi as ->. change (<[ 0 := x ]> (y :: l)) with (x :: l). rewrite !count_cons. lia.
  - change (<[ S i := x ]> (z :: l)) with (z :: <[ i := x ]> l). rewrite !count_cons.
    specialize (IH i Hi). lia.
Qed.

Lemma count_elem l : count f l = 0 ↔ ∀ i x, l !! i = Some x → f x = false.
Proof.
  induction l as [|z l IH]; [done|]. rewrite count_cons. split.
  - intros Hc [|i] x Hi; cbn in Hi.
    + injection Hi as ->. destruct (f x); [lia|done].
    + eapply IH; [|exact Hi]. destruct (f z); lia.
  - intros Hl. rewrite (Hl 0 z) by done. cbn. apply IH. intros i x Hi. by apply (Hl (S i)).
Qed.

Lemma count_pos l : 0 < count f l → ∃ i x, l !! i = Some x ∧ f x = true.
Proof.
  induction l as [|z l IH]; [unfold count; cbn; lia|]. rewrite count_cons. destruct (f z) eqn:Hz.
  - intros _. by exists 0, z.
  - intros Hp. destruct IH as (i & x & ? & ?); [lia|]. by exists (S i), x.
Qed.
End Count.
