(* ===== verification/BlockingQueue.v ===== *)
(** * Blocking queues (muduo/base/BlockingQueue.h, BoundedBlockingQueue.h)

    Both classes are monitors over a queue.  [sent] and [got] record the order
    of the critical sections that put and took elements. *)
From stdpp Require Import base numbers list relations.
From S2P Require Import Prelude Monitor.
Open Scope nat_scope.

Definition notEmpty_ : nat := 0.
Definition notFull_ : nat := 1.

Inductive QueueCall (T : Type) := Put (x : T) | Take.
Arguments Put {T} _.
Arguments Take {T}.

Record Queue (T : Type) := mkQueue { queue_ : list T; sent : list T; got : list T }.
Arguments mkQueue {T} _ _ _.
Arguments queue_ {T} _.
Arguments sent {T} _.
Arguments got {T} _.

Section Queues.
Context {T : Type}.
Implicit Types q : Queue T.

Definition push_back q (x : T) : Queue T := mkQueue (queue_ q ++ [x]) (sent q ++ [x]) (got q).
Definition pop_front q (x : T) (rest : list T) : Queue T := mkQueue rest (sent q) (got q ++ [x]).

(** ** BlockingQueue *)

Definition BlockingQueue_put (x : T) q : Critical (Queue T) (option T) :=
  Return (push_back q x) None [NotifyOne notEmpty_].

Definition BlockingQueue_take q : Critical (Queue T) (option T) :=
  match queue_ q with
  | [] => Wait notEmpty_
  | x :: rest => Return (pop_front q x rest) (Some x) []
  end.

(** ** BoundedBlockingQueue *)

(** [boost::circular_buffer::full]. *)
Definition full (maxSize : nat) q : bool := length (queue_ q) =? maxSize.

Definition BoundedBlockingQueue_put (maxSize : nat) (x : T) q : Critical (Queue T) (option T) :=
  if full maxSize q then Wait notFull_
  else Return (push_back q x) None [NotifyOne notEmpty_].

Definition BoundedBlockingQueue_take q : Critical (Queue T) (option T) :=
  match queue_ q with
  | [] => Wait notEmpty_
  | x :: rest => Return (pop_front q x rest) (Some x) [NotifyOne notFull_]
  end.

(** The calls of one of the two classes; [None] is the class without a bound. *)
Definition queue_section (maxSize : option nat) (c : QueueCall T) q : Critical (Queue T) (option T) :=
  match maxSize, c with
  | None, Put x => BlockingQueue_put x q
  | None, Take => BlockingQueue_take q
  | Some n, Put x => BoundedBlockingQueue_put n x q
  | Some n, Take => BoundedBlockingQueue_take q
  end.
End Queues.

(** ** The invariant *)
Section Invariant.
Context {T : Type} (maxSize : option nat).

#[local] Instance queue_ops : MonitorOps (Queue T) (QueueCall T) (option T) := queue_section maxSize.
Abbreviation QThread := (Thread (QueueCall T) (option T)).
Abbreviation QMonitor := (Monitor (Queue T) (QueueCall T) (option T)).

Definition taking (t : QThread) : bool := if t is Entering Take then true else false.
Definition putting (t : QThread) : bool := if t is Entering (Put _) then true else false.

(** Takers wait for [notEmpty_], putters for [notFull_]. *)
Definition thread_ok (t : QThread) : Prop :=
  match t with
  | Waiting cond Take => cond = notEmpty_
  | Waiting cond (Put _) => cond = notFull_ ∧ maxSize ≠ None
  | _ => True
  end.

Record queue_inv (m : QMonitor) : Prop := {
  inv_fifo : sent (shared m) = got (shared m) ++ queue_ (shared m);
  inv_bound n : maxSize = Some n → length (queue_ (shared m)) ≤ n;
  inv_threads : Forall thread_ok (threads m);
  (** every element has a taker on its way, if takers wait *)
  inv_takers : 0 < count (waits_on notEmpty_) (threads m) →
               length (queue_ (shared m)) ≤ count taking (threads m);
  (** every free place has a putter on its way, if putters wait *)
  inv_putters n : maxSize = Some n → 0 < count (waits_on notFull_) (threads m) →
               n ≤ length (queue_ (shared m)) + count putting (threads m)
}.

(** What a change of one thread does to the counters. *)
Lemma counts_insert (ths : list QThread) i x y :
  ths !! i = Some y →
  let b2n (b : bool) := if b then 1 else 0 in
  count (waits_on notEmpty_) (<[ i := x ]> ths) + b2n (waits_on notEmpty_ y) =
    count (waits_on notEmpty_) ths + b2n (waits_on notEmpty_ x) ∧
  count (waits_on notFull_) (<[ i := x ]> ths) + b2n (waits_on notFull_ y) =
    count (waits_on notFull_) ths + b2n (waits_on notFull_ x) ∧
  count taking (<[ i := x ]> ths) + b2n (taking y) = count taking ths + b2n (taking x) ∧
  count putting (<[ i := x ]> ths) + b2n (putting y) = count putting ths + b2n (putting x).
Proof. intros Hi. split_and!; by apply count_insert. Qed.

Lemma notify_one_inv cond (ths ths' : list QThread) :
  notifies_all [NotifyOne cond] ths ths' →
  (count (waits_on cond) ths = 0 ∧ ths' = ths) ∨
  (∃ i c, ths !! i = Some (Waiting cond c) ∧ ths' = <[ i := Entering c ]> ths).
Proof.
  intros Hn. inversion Hn as [|? ? ? ths2 ? H1 H2]; subst. inversion H2; subst.
  inversion H1; subst; [right; eauto|by left].
Qed.

Lemma thread_ok_insert (ths : list QThread) i x :
  Forall thread_ok ths → thread_ok x → Forall thread_ok (<[ i := x ]> ths).
Proof. intros. by apply Forall_insert. Qed.

Lemma waiting_ok (ths : list QThread) i cond c :
  Forall thread_ok ths → ths !! i = Some (Waiting cond c) →
  match c with Take => cond = notEmpty_ | Put _ => cond = notFull_ ∧ maxSize ≠ None end.
Proof. intros Hf Hi. by pose proof (Forall_lookup_1 _ _ _ _ Hf Hi). Qed.

(** The two ways a section ends. *)
Lemma section_wait c q cond :
  section c q = Wait cond →
  (∃ x n, c = Put x ∧ maxSize = Some n ∧ length (queue_ q) = n ∧ cond = notFull_) ∨
  (c = Take ∧ queue_ q = [] ∧ cond = notEmpty_).
Proof.
  unfold section, queue_ops, queue_section, BlockingQueue_put, BlockingQueue_take,
    BoundedBlockingQueue_put, BoundedBlockingQueue_take, full.
  destruct maxSize as [n|], c as [x|]; try done.
  - destruct (Nat.eqb_spec (length (queue_ q)) n); [|done]. intros [= <-]. left. eauto 10.
  - destruct (queue_ q); [|done]. intros [= <-]. by right.
  - destruct (queue_ q); [|done]. intros [= <-]. by right.
Qed.

Lemma section_return c q s r ns :
  section c q = Return s r ns →
  (∃ x, c = Put x ∧ s = push_back q x ∧ ns = [NotifyOne notEmpty_] ∧
        ∀ n, maxSize = Some n → length (queue_ q) ≠ n) ∨
  (∃ x rest, c = Take ∧ queue_ q = x :: rest ∧ s = pop_front q x rest ∧
        (maxSize = None ∧ ns = [] ∨ ns = [NotifyOne notFull_])).
Proof.
  unfold section, queue_ops, queue_section, BlockingQueue_put, BlockingQueue_take,
    BoundedBlockingQueue_put, BoundedBlockingQueue_take, full.
  destruct maxSize as [n|], c as [x|].
  - destruct (Nat.eqb_spec (length (queue_ q)) n); [done|]. intros [= <- <- <-].
    left. exists x. split_and!; [done..|]. by intros n' [= <-].
  - destruct (queue_ q) as [|x rest]; [done|]. intros [= <- <- <-]. right. exists x, rest. split_and!; auto.
  - intros [= <- <- <-]. left. by exists x.
  - destruct (queue_ q) as [|x rest]; [done|]. intros [= <- <- <-]. right. exists x, rest. split_and!; auto.
Qed.

Ltac count_change ths i x Hi :=
  let C1 := fresh "C" in let C2 := fresh "C" in let C3 := fresh "C" in let C4 := fresh "C" in
  destruct (counts_insert ths i x _ Hi) as (C1 & C2 & C3 & C4); cbn in C1, C2, C3, C4.

Lemma call_inv m i r c :
  queue_inv m → threads m !! i = Some (Idle r) →
  queue_inv (mkMonitor (shared m) (<[ i := Entering c ]> (threads m))).
Proof.
  intros [Hfifo Hb Hth Ht Hp] Hi. count_change (threads m) i (Entering (R := option T) c) Hi.
  split; cbn [shared threads]; auto; [by apply thread_ok_insert|destruct c; lia|].
  intros n Hn Hw. specialize (Hp n Hn). destruct c; lia.
Qed.

Lemma wait_inv m i c cond :
  queue_inv m → threads m !! i = Some (Entering c) → section c (shared m) = Wait cond →
  queue_inv (mkMonitor (shared m) (<[ i := Waiting cond c ]> (threads m))).
Proof.
  intros [Hfifo Hb Hth Ht Hp] Hi [(x & n & -> & Hn & Hf & ->)|(-> & Hq & ->)]%section_wait.
  - count_change (threads m) i (Waiting (R := option T) notFull_ (Put x)) Hi.
    split; cbn [shared threads]; auto; [|lia|].
    + apply thread_ok_insert; [done|]. split; [done|]. congruence.
    + intros n' Hn' _. simplify_eq. lia.
  - count_change (threads m) i (Waiting (C := QueueCall T) (R := option T) notEmpty_ Take) Hi.
    split; cbn [shared threads]; auto; [by apply thread_ok_insert|rewrite Hq; cbn; lia|].
    intros n Hn Hw. specialize (Hp n Hn). lia.
Qed.

Lemma spurious_inv m i cond c :
  queue_inv m → threads m !! i = Some (Waiting cond c) →
  queue_inv (mkMonitor (shared m) (<[ i := Entering c ]> (threads m))).
Proof.
  intros [Hfifo Hb Hth Ht Hp] Hi. pose proof (waiting_ok _ _ _ _ Hth Hi) as Hok.
  destruct c as [x|]; [destruct Hok as [-> _]|rewrite Hok in *].
  - count_change (threads m) i (Entering (R := option T) (Put x)) Hi.
    split; cbn [shared threads]; auto; [by apply thread_ok_insert|lia|].
    intros n Hn Hw. specialize (Hp n Hn). lia.
  - count_change (threads m) i (Entering (C := QueueCall T) (R := option T) Take) Hi.
    split; cbn [shared threads]; auto; [by apply thread_ok_insert|lia|].
    intros n Hn Hw. specialize (Hp n Hn). lia.
Qed.

Lemma put_inv m i x r ths :
  queue_inv m → threads m !! i = Some (Entering (Put x)) →
  (∀ n, maxSize = Some n → length (queue_ (shared m)) ≠ n) →
  notifies_all [NotifyOne notEmpty_] (<[ i := Idle (Some r) ]> (threads m)) ths →
  queue_inv (mkMonitor (push_back (shared m) x) ths).
Proof.
  intros [Hfifo Hb Hth Ht Hp] Hi Hroom Hn.
  count_change (threads m) i (Idle (C := QueueCall T) (Some r)) Hi.
  assert (Forall thread_ok (<[ i := Idle (Some r) ]> (threads m))) as Hth' by by apply thread_ok_insert.
  set (ths1 := <[ i := Idle (Some r) ]> (threads m)) in *.
  assert (length (queue_ (push_back (shared m) x)) = S (length (queue_ (shared m)))) as Hlen.
  { cbn. rewrite length_app. cbn. lia. }
  assert (sent (push_back (shared m) x) = got (push_back (shared m) x) ++ queue_ (push_back (shared m) x)).
  { cbn. by rewrite Hfifo, app_assoc. }
  assert (∀ n, maxSize = Some n → S (length (queue_ (shared m))) ≤ n) as Hb'.
  { intros n Hn'. specialize (Hb n Hn'). specialize (Hroom n Hn'). lia. }
  destruct (notify_one_inv _ _ _ Hn) as [[Hz ->]|(j & c & Hj & ->)].
  - split; cbn [shared threads]; rewrite ?Hlen; auto; [lia|].
    intros n Hn' Hw. specialize (Hp n Hn'). lia.
  - pose proof (waiting_ok _ _ _ _ Hth' Hj) as Hok. destruct c as [y|]; [by destruct Hok|].
    count_change ths1 j (Entering (C := QueueCall T) (R := option T) Take) Hj.
    split; cbn [shared threads]; rewrite ?Hlen; auto; [by apply thread_ok_insert|lia|].
    intros n Hn' Hw. specialize (Hp n Hn'). lia.
Qed.

Lemma take_inv m i x rest r ns ths :
  queue_inv m → threads m !! i = Some (Entering Take) → queue_ (shared m) = x :: rest →
  maxSize = None ∧ ns = [] ∨ ns = [NotifyOne notFull_] →
  notifies_all ns (<[ i := Idle (Some r) ]> (threads m)) ths →
  queue_inv (mkMonitor (pop_front (shared m) x rest) ths).
Proof.
  intros [Hfifo Hb Hth Ht Hp] Hi Hq Hns Hn. rewrite Hq in *. cbn [length] in *.
  count_change (threads m) i (Idle (C := QueueCall T) (Some r)) Hi.
  assert (Forall thread_ok (<[ i := Idle (Some r) ]> (threads m))) as Hth' by by apply thread_ok_insert.
  set (ths1 := <[ i := Idle (Some r) ]> (threads m)) in *.
  assert (sent (shared m) = (got (shared m) ++ [x]) ++ rest) as Hfifo' by by rewrite Hfifo, <- app_assoc.
  assert (∀ n, maxSize = Some n → length rest ≤ n) as Hb'.
  { intros n Hn'. specialize (Hb n Hn'). lia. }
  assert ((count (waits_on notFull_) ths1 = 0 ∨ maxSize = None) ∧ ths = ths1 ∨
          ∃ j c, ths1 !! j = Some (Waiting notFull_ c) ∧ ths = <[ j := Entering c ]> ths1) as Hcase.
  { destruct Hns as [[-> ->]| ->].
    - inversion Hn; subst. auto.
    - destruct (notify_one_inv _ _ _ Hn) as [[? ->]|?]; auto. }
  destruct Hcase as [[Hz ->]|(j & c & Hj & ->)].
  - split; cbn [shared threads pop_front queue_]; auto; [lia|].
    intros n Hn' Hw. destruct Hz as [Hz|Hz]; [lia|congruence].
  - pose proof (waiting_ok _ _ _ _ Hth' Hj) as Hok. destruct c as [y|]; [|done].
    count_change ths1 j (Entering (R := option T) (Put y)) Hj.
    split; cbn [shared threads pop_front queue_]; auto; [by apply thread_ok_insert|lia|].
    intros n Hn' Hw. specialize (Hp n Hn'). lia.
Qed.

Lemma queue_inv_step m m' : queue_inv m → mstep m m' → queue_inv m'.
Proof.
  intros Hinv Hst.
  destruct Hst as [m i r c Hi|m i c cond Hi Hsec|m i c s r ns ths Hi Hsec Hn|m i cond c Hi].
  - by eapply call_inv.
  - by eapply wait_inv.
  - apply section_return in Hsec as [(x & -> & -> & -> & Hroom)|(x & rest & -> & Hq & -> & Hns)].
    + by eapply put_inv.
    + by eapply take_inv.
  - by eapply spurious_inv.
Qed.

(** The queue starts empty, with any number of idle threads. *)
Definition queue_start (m : QMonitor) : Prop := shared m = mkQueue [] [] [] ∧ all_idle m.

Lemma queue_inv_start m : queue_start m → queue_inv m.
Proof.
  intros [Hs Hidle]. unfold all_idle in Hidle. rewrite Forall_lookup in Hidle.
  assert (∀ f : QThread → bool, (∀ r, f (Idle r) = false) → count f (threads m) = 0) as Hz.
  { intros f Hf. apply count_elem. intros i x Hi. by destruct (Hidle _ _ Hi) as [r ->]. }
  split; rewrite ?Hs; cbn.
  - done.
  - lia.
  - apply Forall_lookup. intros i x Hi. by destruct (Hidle _ _ Hi) as [r ->].
  - lia.
  - intros n _. rewrite Hz by done. lia.
Qed.

Lemma queue_reachable m m' : queue_start m → rtc mstep m m' → queue_inv m'.
Proof.
  intros Hm Hr. pose proof (queue_inv_start m Hm) as Hi. clear Hm.
  induction Hr as [|m1 m2 m3 Hst _ IH]; [done|]. by eapply IH, queue_inv_step.
Qed.

(** C12. Blocking queues.  In every interleaving of threads that put and take,
    with spurious wake-ups: elements are taken in the order they were put, each
    once; a bounded queue never holds more than its capacity; and no wake-up is
    lost - if a thread waits in [take] while the queue is not empty, another
    thread is on its way to take, and if a thread waits in [put] while there is
    room, another one is on its way to put. *)
Theorem blocking_queue_correct m m' :
  queue_start m → rtc mstep m m' →
  sent (shared m') = got (shared m') ++ queue_ (shared m') ∧
  (∀ n, maxSize = Some n → length (queue_ (shared m')) ≤ n) ∧
  (∀ i cond, threads m' !! i = Some (Waiting cond Take) → queue_ (shared m') ≠ [] →
     ∃ j, threads m' !! j = Some (Entering Take)) ∧
  (∀ i cond x n, threads m' !! i = Some (Waiting cond (Put x)) → maxSize = Some n →
     length (queue_ (shared m')) < n → ∃ j y, threads m' !! j = Some (Entering (Put y))).
Proof.
  intros Hm Hr. destruct (queue_reachable _ _ Hm Hr) as [Hfifo Hb Hth Ht Hp].
  assert (∀ i cond c, threads m' !! i = Some (Waiting cond c) →
            0 < count (waits_on cond) (threads m')) as Hpos.
  { intros i cond c Hi. destruct (count (waits_on cond) (threads m')) eqn:Hc; [|lia].
    pose proof (proj1 (count_elem _ _) Hc _ _ Hi) as Hf. cbn in Hf. by rewrite Nat.eqb_refl in Hf. }
  split; [done|]. split; [done|]. split.
  - intros i cond Hi Hq. pose proof (waiting_ok _ _ _ _ Hth Hi) as Hc. cbn in Hc. subst cond.
    specialize (Ht (Hpos _ _ _ Hi)).
    destruct (count_pos taking (threads m')) as (j & t & Hj & Htk).
    { destruct (queue_ (shared m')); [done|]. cbn in Ht. lia. }
    exists j. destruct t as [[y|]|cond c|r]; try done.
  - intros i cond x n Hi Hn Hlt. destruct (waiting_ok _ _ _ _ Hth Hi) as [-> _].
    specialize (Hp n Hn (Hpos _ _ _ Hi)).
    destruct (count_pos putting (threads m')) as (j & t & Hj & Htk); [lia|].
    destruct t as [[y|]|cond c|r]; try done. eauto.
Qed.
End Invariant.

(** Two takers wait; one element is put. *)
Lemma blocking_queue_correct_witness :
  ∃ m' : Monitor (Queue nat) (QueueCall nat) (option nat),
    rtc (mstep (H := queue_section (Some 1)))
      (mkMonitor (mkQueue [] [] []) [Idle None; Idle None; Idle None]) m' ∧
    threads m' !! 0 = Some (Waiting 0 Take) ∧ queue_ (shared m') = [7] ∧
    ∃ j, threads m' !! j = Some (Entering Take).
Proof.
  set (m0 := mkMonitor (mkQueue [] [] []) [Idle None; Idle None; Idle None]).
  assert (∃ m', rtc (mstep (H := queue_section (Some 1))) m0 m' ∧
            threads m' !! 0 = Some (Waiting 0 Take) ∧ queue_ (shared m') = [7]) as (m' & Hr & Hw & Hq).
  { eexists. split; [|shelve].
    eapply rtc_l; [by apply (mstep_call _ 0 None Take)|].
    eapply rtc_l; [by apply (mstep_wait _ 0 Take 0)|].
    eapply rtc_l; [by apply (mstep_call _ 1 None Take)|].
    eapply rtc_l; [by apply (mstep_wait _ 1 Take 0)|].
    eapply rtc_l; [by apply (mstep_call _ 2 None (Put 7))|].
    eapply rtc_l; [|apply rtc_refl].
    eapply (mstep_return _ 2 (Put 7)); [done|reflexivity|].
    eapply notifies_cons; [|apply notifies_nil]. by apply (notify_one _ _ 1 Take).
    Unshelve. done. }
  exists m'. split; [done|]. split; [done|]. split; [done|].
  destruct (blocking_queue_correct (Some 1) m0 m') as (_ & _ & Ht & _);
    [split; [done|repeat constructor; by eexists]|done|].
  apply (Ht 0 0 Hw). by rewrite Hq.
Defined.
