(* ===== verification/ThreadPool.v ===== *)
(** * Latches and thread pools (muduo/base/CountDownLatch.h, CountDownLatch.cc, ThreadPool.h,
    ThreadPool.cc)

    Two more monitors.  A task is an identity; [queued_order] and [started]
    record the order in which tasks entered and left the queue of a pool. *)
From stdpp Require Import base numbers list relations.
From S2P Require Import Prelude Monitor.
Open Scope nat_scope.

(** ** CountDownLatch *)

Inductive LatchCall := LatchWait | LatchCountDown | LatchGetCount.

Definition condition_ : nat := 0.

(** The shared state is [count_]; only [getCount] has a result. *)
Definition latch_wait (count : Z) : Critical Z Z :=
  if (0 <? count)%Z then Wait condition_ else Return count 0%Z [].
Definition latch_countDown (count : Z) : Critical Z Z :=
  let count := (count - 1)%Z in
  Return count 0%Z (if (count =? 0)%Z then [NotifyAll condition_] else []).
Definition latch_getCount (count : Z) : Critical Z Z := Return count count [].

Definition latch_section (c : LatchCall) (count : Z) : Critical Z Z :=
  match c with
  | LatchWait => latch_wait count
  | LatchCountDown => latch_countDown count
  | LatchGetCount => latch_getCount count
  end.

#[local] Instance latch_ops : MonitorOps Z LatchCall Z := latch_section.

Abbreviation LatchMonitor := (Monitor Z LatchCall Z).

(** Nobody waits on a latch that is open. *)
Definition latch_inv (m : LatchMonitor) : Prop :=
  ∀ i cond c, threads m !! i = Some (Waiting cond c) →
  c = LatchWait ∧ cond = condition_ ∧ (0 < shared m)%Z.

Lemma insert_waiting {C R} (ths : list (Thread C R)) i j x cond c :
  <[ i := x ]> ths !! j = Some (Waiting cond c) → x = Waiting cond c ∨ ths !! j = Some (Waiting cond c).
Proof.
  intros [(<- & -> & _)|[_ ?]]%list_lookup_insert_Some; auto.
Qed.

(** After [notifyAll] on the condition, no thread waits on it. *)
Lemma notify_all_waiting {C R} (ths ths' : list (Thread C R)) cond :
  notifies (NotifyAll cond) ths ths' →
  ∀ i cond' c, ths' !! i = Some (Waiting cond' c) → cond' ≠ cond ∧ ths !! i = Some (Waiting cond' c).
Proof.
  intros Hn i cond' c Hi. inversion Hn; subst. rewrite list_lookup_fmap in Hi.
  destruct (ths !! i) as [t|]; [|done]. cbn in Hi. destruct t as [c0|cond0 c0|r]; cbn in Hi; try done.
  destruct (Nat.eqb_spec cond0 cond); cbn in Hi; [done|]. by simplify_eq.
Qed.

Lemma latch_inv_step m m' : latch_inv m → mstep m m' → latch_inv m'.
Proof.
  intros Hinv Hst j cond' c' Hj.
  destruct Hst as [m i r c Hi|m i c cond Hi Hsec|m i c s r ns ths Hi Hsec Hn|m i cond c Hi]; cbn in *.
  - apply insert_waiting in Hj as [?|Hj]; [done|]. eauto.
  - apply insert_waiting in Hj as [Hj|Hj]; [|eauto]. simplify_eq.
    destruct c'; cbn in Hsec; unfold latch_wait in Hsec; [|done|done].
    destruct (Z.ltb_spec 0 (shared m)); [|done]. by simplify_eq.
  - destruct c; cbn in Hsec; unfold latch_wait, latch_countDown in Hsec.
    + destruct (0 <? shared m)%Z; [done|]. simplify_eq. inversion Hn; subst.
      apply insert_waiting in Hj as [?|Hj]; [done|]. eauto.
    + destruct (Z.eqb_spec (shared m - 1) 0); simplify_eq.
      * inversion Hn as [|? ? ? ? ? H1 H2]; subst. inversion H2; subst.
        apply (notify_all_waiting _ _ _ H1) in Hj as [? Hj].
        apply insert_waiting in Hj as [?|Hj]; [done|]. by destruct (Hinv _ _ _ Hj) as (_ & ? & _).
      * inversion Hn; subst. apply insert_waiting in Hj as [?|Hj]; [done|].
        destruct (Hinv _ _ _ Hj) as (? & ? & ?). split_and!; [done..|]. lia.
    + injection Hsec as <- <- <-. inversion Hn; subst.
      apply insert_waiting in Hj as [?|Hj]; [done|]. eauto.
  - apply insert_waiting in Hj as [?|Hj]; [done|]. eauto.
Qed.

(** Once the count is down to zero, no caller of [wait] is left behind. *)
Lemma latch_opens (m m' : LatchMonitor) :
  all_idle m → rtc mstep m m' → (shared m' ≤ 0)%Z →
  ∀ i cond c, threads m' !! i ≠ Some (Waiting cond c).
Proof.
  intros Hidle Hr Hc i cond c Hi.
  assert (latch_inv m') as Hinv.
  { assert (latch_inv m) as H0.
    { intros j cond' c' Hj. unfold all_idle in Hidle. rewrite Forall_lookup in Hidle.
      by destruct (Hidle _ _ Hj). }
    clear Hi Hc Hidle. induction Hr as [|m1 m2 m3 Hst _ IH]; [done|]. by eapply IH, latch_inv_step. }
  destruct (Hinv _ _ _ Hi) as (_ & _ & ?). lia.
Qed.

(** ** ThreadPool *)

Definition pool_notEmpty : nat := 0.
Definition pool_notFull : nat := 1.

(** Members under [mutex_]. *)
Record ThreadPool := mkThreadPool {
  queue_ : list Z;
  maxQueueSize_ : nat;
  running_ : bool;
  queued_order : list Z;
  started : list Z
}.

(** The constructor, [setMaxQueueSize] and [start] with at least one thread. *)
Definition ThreadPool_started (maxSize : nat) : ThreadPool := mkThreadPool [] maxSize true [] [].

Definition isFull (p : ThreadPool) : bool :=
  (0 <? maxQueueSize_ p) && (maxQueueSize_ p <=? length (queue_ p)).

Definition enqueue (p : ThreadPool) (task : Z) : ThreadPool :=
  mkThreadPool (queue_ p ++ [task]) (maxQueueSize_ p) (running_ p) (queued_order p ++ [task]) (started p).
Definition dequeue (p : ThreadPool) (task : Z) (rest : list Z) : ThreadPool :=
  mkThreadPool rest (maxQueueSize_ p) (running_ p) (queued_order p) (started p ++ [task]).

Inductive PoolCall := PoolRun (task : Z) | PoolTake | PoolStop | PoolQueueSize.

(** [run] of a pool with threads.  The result is a task, for [take]. *)
Definition pool_run (task : Z) (p : ThreadPool) : Critical ThreadPool (option Z) :=
  if isFull p && running_ p then Wait pool_notFull
  else if negb (running_ p) then Return p None []
  else Return (enqueue p task) None [NotifyOne pool_notEmpty].

Definition pool_take (p : ThreadPool) : Critical ThreadPool (option Z) :=
  match queue_ p with
  | [] => if running_ p then Wait pool_notEmpty else Return p None []
  | task :: rest =>
    Return (dequeue p task rest) (Some task)
      (if 0 <? maxQueueSize_ p then [NotifyOne pool_notFull] else [])
  end.

(** [stop] up to the joins. *)
Definition pool_stop (p : ThreadPool) : Critical ThreadPool (option Z) :=
  Return (mkThreadPool (queue_ p) (maxQueueSize_ p) false (queued_order p) (started p)) None
    [NotifyAll pool_notEmpty; NotifyAll pool_notFull].

Definition pool_queueSize (p : ThreadPool) : Critical ThreadPool (option Z) :=
  Return p (Some (Z.of_nat (length (queue_ p)))) [].

Definition pool_section (c : PoolCall) (p : ThreadPool) : Critical ThreadPool (option Z) :=
  match c with
  | PoolRun task => pool_run task p
  | PoolTake => pool_take p
  | PoolStop => pool_stop p
  | PoolQueueSize => pool_queueSize p
  end.

#[local] Instance pool_ops : MonitorOps ThreadPool PoolCall (option Z) := pool_section.

Abbreviation PoolMonitor := (Monitor ThreadPool PoolCall (option Z)).

Record pool_inv (m : PoolMonitor) : Prop := {
  pool_fifo : queued_order (shared m) = started (shared m) ++ queue_ (shared m);
  pool_bound : 0 < maxQueueSize_ (shared m) → length (queue_ (shared m)) ≤ maxQueueSize_ (shared m);
  pool_waiters i cond c : threads m !! i = Some (Waiting cond c) →
    running_ (shared m) = true ∧ (cond = pool_notEmpty ∨ cond = pool_notFull)
}.

Lemma notify_one_waiting {C R} (ths ths' : list (Thread C R)) cond :
  notifies (NotifyOne cond) ths ths' →
  ∀ i cond' c, ths' !! i = Some (Waiting cond' c) → ths !! i = Some (Waiting cond' c).
Proof.
  intros Hn i cond' c Hi. inversion Hn; subst; [|done].
  apply insert_waiting in Hi as [?|?]; done.
Qed.

(** Notifications wake threads up; they put none to sleep. *)
Lemma notifies_waiting {C R} ns (ths ths' : list (Thread C R)) :
  notifies_all ns ths ths' →
  ∀ i cond c, ths' !! i = Some (Waiting cond c) →
  ths !! i = Some (Waiting cond c) ∧ NotifyAll cond ∉ ns.
Proof.
  induction 1 as [|n ns ths1 ths2 ths3 H1 _ IH]; intros i cond c Hi; [split; [done|apply not_elem_of_nil]|].
  destruct (IH _ _ _ Hi) as [Hi2 Hns]. destruct n as [cond'|cond'].
  - split; [by eapply notify_one_waiting|]. by apply not_elem_of_cons.
  - destruct (notify_all_waiting _ _ _ H1 _ _ _ Hi2) as [Hne Hi1]. split; [done|].
    apply not_elem_of_cons. split; [congruence|done].
Qed.

Lemma pool_inv_step m m' : pool_inv m → mstep m m' → pool_inv m'.
Proof.
  intros [Hf Hb Hw] Hst.
  destruct Hst as [m i r c Hi|m i c cond Hi Hsec|m i c s r ns ths Hi Hsec Hn|m i cond c Hi].
  - split; cbn; auto. intros j cond' c' [?|Hj]%insert_waiting; [done|eauto].
  - split; cbn; auto. intros j cond' c' [Hj|Hj]%insert_waiting; [|eauto]. simplify_eq.
    destruct c'; cbn in Hsec; unfold pool_run, pool_take, pool_stop, pool_queueSize in Hsec.
    + destruct (isFull (shared m)), (running_ (shared m)); cbn in Hsec; simplify_eq; auto.
    + destruct (queue_ (shared m)), (running_ (shared m)); simplify_eq; auto.
    + done.
    + done.
  - assert (∀ j cond' c', ths !! j = Some (Waiting cond' c') →
      running_ (shared m) = true ∧ (cond' = pool_notEmpty ∨ cond' = pool_notFull) ∧
      NotifyAll cond' ∉ ns) as Hw'.
    { intros j cond' c' Hj. destruct (notifies_waiting _ _ _ Hn _ _ _ Hj) as [Hj' ?].
      apply insert_waiting in Hj' as [?|Hj']; [done|]. destruct (Hw _ _ _ Hj'). auto. }
    destruct c as [task| | |]; cbn in Hsec;
      unfold pool_run, pool_take, pool_stop, pool_queueSize in Hsec.
    + destruct (isFull (shared m)) eqn:Hfull, (running_ (shared m)) eqn:Hrun; cbn in Hsec; simplify_eq;
        try solve [split; cbn; auto; intros j cond' c' Hj; destruct (Hw' _ _ _ Hj) as (? & ? & _); done].
      split; cbn; [by rewrite Hf, app_assoc| |].
      2: { intros j cond' c' Hj. destruct (Hw' _ _ _ Hj) as (? & ? & _). auto. }
      intros Hpos. rewrite length_app. cbn.
      apply andb_false_iff in Hfull as [?%Nat.ltb_ge|?%Nat.leb_gt]; lia.
    + destruct (queue_ (shared m)) as [|task rest] eqn:Hq.
      * destruct (running_ (shared m)) eqn:Hrun; [done|]. simplify_eq.
        split; cbn; rewrite ?Hq; [done..|]. intros j cond' c' Hj.
        by destruct (Hw' _ _ _ Hj) as (? & ? & _).
      * simplify_eq. split; cbn.
        -- by rewrite Hf, <- app_assoc.
        -- intros Hpos. specialize (Hb Hpos). cbn in Hb. lia.
        -- intros j cond' c' Hj. destruct (Hw' _ _ _ Hj) as (? & ? & _). auto.
    + simplify_eq. split; cbn; auto. intros j cond' c' Hj.
      destruct (Hw' _ _ _ Hj) as (_ & Hc & Hns). exfalso. apply Hns.
      rewrite !elem_of_cons. destruct Hc as [->| ->]; auto.
    + simplify_eq. split; [done..|]. intros j cond' c' Hj. destruct (Hw' _ _ _ Hj) as (? & ? & _). auto.
  - split; cbn; auto. intros j cond' c' [?|Hj]%insert_waiting; [done|eauto].
Qed.

Definition pool_start (m : PoolMonitor) : Prop :=
  (∃ n, shared m = ThreadPool_started n) ∧ all_idle m.

(** Thread pools.  In every interleaving of callers of [run] with worker
    threads and [stop]: tasks are started in the order they were queued, each
    at most once; a bounded queue never exceeds [maxQueueSize_]; and after
    [stop] no thread is left waiting, so that every caller of [run] returns and
    every worker leaves [take] and can be joined. *)
Theorem thread_pool_correct m m' :
  pool_start m → rtc mstep m m' →
  queued_order (shared m') = started (shared m') ++ queue_ (shared m') ∧
  (0 < maxQueueSize_ (shared m') → length (queue_ (shared m')) ≤ maxQueueSize_ (shared m')) ∧
  (running_ (shared m') = false → ∀ i cond c, threads m' !! i ≠ Some (Waiting cond c)).
Proof.
  intros [[n Hs] Hidle] Hr. assert (pool_inv m) as Hinv.
  { split; rewrite ?Hs; cbn; [done|lia|]. intros i cond c Hi. unfold all_idle in Hidle.
    rewrite Forall_lookup in Hidle. by destruct (Hidle _ _ Hi). }
  clear Hs Hidle. assert (pool_inv m') as [Hf Hb Hw].
  { induction Hr as [|m1 m2 m3 Hst _ IH]; [done|]. by eapply IH, pool_inv_step. }
  split_and!; [done..|]. intros Hrun i cond c Hi. destruct (Hw _ _ _ Hi). congruence.
Qed.

(** A worker that waits, and [stop]. *)
Lemma thread_pool_correct_witness :
  ∃ m' : PoolMonitor,
    rtc mstep (mkMonitor (ThreadPool_started 2) [Idle None; Idle None]) m' ∧
    running_ (shared m') = false ∧ ∀ i cond c, threads m' !! i ≠ Some (Waiting cond c).
Proof.
  set (m0 := mkMonitor (ThreadPool_started 2) [Idle None; Idle None]).
  assert (∃ m', rtc mstep m0 m' ∧ running_ (shared m') = false) as (m' & Hr & Hrun).
  { eexists. split; [|shelve].
    eapply rtc_l; [by apply (mstep_call _ 0 None PoolTake)|].
    eapply rtc_l; [by apply (mstep_wait _ 0 PoolTake 0)|].
    eapply rtc_l; [by apply (mstep_call _ 1 None PoolStop)|].
    eapply rtc_l; [|apply rtc_refl].
    eapply (mstep_return _ 1 PoolStop); [done|reflexivity|].
    eapply notifies_cons; [apply notify_all|]. eapply notifies_cons; [apply notify_all|].
    apply notifies_nil.
    Unshelve. done. }
  exists m'. split; [done|]. split; [done|].
  by apply (thread_pool_correct m0 m'); [split; [by exists 2|repeat constructor; by eexists]|..].
Defined.
