(* ===== verification/ThreadPoolRuns.v ===== *)
(** * Thread pools at work (muduo/base/ThreadPool.h, ThreadPool.cc)

    A started pool: the monitor of [ThreadPool] with the worker threads that run
    [runInThread], the threads that call [run], [stop] and [queueSize], and the
    tasks, which may call [run] themselves.  No wake-up is lost; every task that
    was taken is run once; the workers by themselves drain the queue; and after
    [stop] they come to their end, so that the joins return. *)
From stdpp Require Import base numbers list relations.
From S2P Require Import Prelude Monitor ThreadPool.
Open Scope nat_scope.

#[local] Existing Instance pool_ops.
Abbreviation PThread := (Thread PoolCall (option Z)).

(** ** No wake-up is lost *)

Definition taking (t : PThread) : bool := if t is Entering PoolTake then true else false.
Definition putting (t : PThread) : bool := if t is Entering (PoolRun _) then true else false.

(** Workers wait for [notEmpty_], callers of [run] for [notFull_]. *)
Definition pool_thread_ok (max : nat) (t : PThread) : Prop :=
  match t with
  | Waiting cond PoolTake => cond = pool_notEmpty
  | Waiting cond (PoolRun _) => cond = pool_notFull ∧ 0 < max
  | Waiting _ _ => False
  | _ => True
  end.

Record wake_inv (m : PoolMonitor) : Prop := {
  wake_threads : Forall (pool_thread_ok (maxQueueSize_ (shared m))) (threads m);
  wake_takers : 0 < count (waits_on pool_notEmpty) (threads m) →
                length (queue_ (shared m)) ≤ count taking (threads m);
  wake_putters : 0 < count (waits_on pool_notFull) (threads m) →
                 maxQueueSize_ (shared m) ≤ length (queue_ (shared m)) + count putting (threads m)
}.

(** What a change of one thread does to the counters. *)
Definition b2n (b : bool) : nat := if b then 1 else 0.
Lemma pool_counts (ths : list PThread) i x y :
  ths !! i = Some y →
  count (waits_on pool_notEmpty) (<[ i := x ]> ths) + b2n (waits_on pool_notEmpty y) =
    count (waits_on pool_notEmpty) ths + b2n (waits_on pool_notEmpty x) ∧
  count (waits_on pool_notFull) (<[ i := x ]> ths) + b2n (waits_on pool_notFull y) =
    count (waits_on pool_notFull) ths + b2n (waits_on pool_notFull x) ∧
  count taking (<[ i := x ]> ths) + b2n (taking y) = count taking ths + b2n (taking x) ∧
  count putting (<[ i := x ]> ths) + b2n (putting y) = count putting ths + b2n (putting x).
Proof. intros Hi. unfold b2n. split_and!; by apply count_insert. Qed.

Ltac pool_count ths i x Hi :=
  let C1 := fresh "C" in let C2 := fresh "C" in let C3 := fresh "C" in let C4 := fresh "C" in
  destruct (pool_counts ths i x _ Hi) as (C1 & C2 & C3 & C4); cbn in C1, C2, C3, C4.

Lemma pool_waiting_ok max (ths : list PThread) i cond c :
  Forall (pool_thread_ok max) ths → ths !! i = Some (Waiting cond c) →
  c = PoolTake ∧ cond = pool_notEmpty ∨ (∃ x, c = PoolRun x) ∧ cond = pool_notFull ∧ 0 < max.
Proof.
  intros Hf Hi. pose proof (Forall_lookup_1 _ _ _ _ Hf Hi) as H. destruct c; cbn in H; try done; [|by left].
  right. destruct H. eauto.
Qed.

(** A notification in a state where the invariant holds but for what it is for. *)
Lemma notify_one_cases cond (ths ths' : list PThread) :
  notifies (NotifyOne cond) ths ths' →
  (count (waits_on cond) ths = 0 ∧ ths' = ths) ∨
  (∃ i c, ths !! i = Some (Waiting cond c) ∧ ths' = <[ i := Entering c ]> ths).
Proof. intros Hn. inversion Hn; subst; [right; eauto|by left]. Qed.

Lemma notifies_single n (ths ths' : list PThread) : notifies_all [n] ths ths' → notifies n ths ths'.
Proof. intros Hn. inversion Hn as [|? ? ? ths2 ? H1 H2]; subst. by inversion H2; subst. Qed.

(** [run] has put a task. *)
Lemma wake_put m i task r ths :
  wake_inv m → threads m !! i = Some (Entering (PoolRun task)) →
  notifies_all [NotifyOne pool_notEmpty] (<[ i := Idle (Some r) ]> (threads m)) ths →
  wake_inv (mkMonitor (enqueue (shared m) task) ths).
Proof.
  intros [Hth Ht Hp] Hi Hn%notifies_single. pool_count (threads m) i (Idle (C := PoolCall) (Some r)) Hi.
  assert (Forall (pool_thread_ok (maxQueueSize_ (shared m))) (<[ i := Idle (Some r) ]> (threads m))) as Hth'
    by by apply Forall_insert.
  set (ths1 := <[ i := Idle (Some r) ]> (threads m)) in *.
  assert (length (queue_ (enqueue (shared m) task)) = S (length (queue_ (shared m)))) as Hlen
    by (cbn; rewrite length_app; cbn; lia).
  destruct (notify_one_cases _ _ _ Hn) as [[Hz ->]|(j & c & Hj & ->)].
  - split; cbn [shared threads]; rewrite ?Hlen; [exact Hth'|lia|cbn; lia].
  - destruct (pool_waiting_ok _ _ _ _ _ Hth' Hj) as [[-> _]|[_ [? _]]]; [|done].
    pool_count ths1 j (Entering (R := option Z) PoolTake) Hj.
    split; cbn [shared threads]; rewrite ?Hlen; [by apply Forall_insert|lia|cbn; lia].
Qed.

(** [take] has taken one. *)
Lemma wake_take m i task rest r ths :
  wake_inv m → threads m !! i = Some (Entering PoolTake) → queue_ (shared m) = task :: rest →
  notifies_all (if 0 <? maxQueueSize_ (shared m) then [NotifyOne pool_notFull] else [])
    (<[ i := Idle (Some r) ]> (threads m)) ths →
  wake_inv (mkMonitor (dequeue (shared m) task rest) ths).
Proof.
  intros [Hth Ht Hp] Hi Hq Hn. rewrite Hq in *. cbn [length] in *.
  pool_count (threads m) i (Idle (C := PoolCall) (Some r)) Hi.
  assert (Forall (pool_thread_ok (maxQueueSize_ (shared m))) (<[ i := Idle (Some r) ]> (threads m))) as Hth'
    by by apply Forall_insert.
  set (ths1 := <[ i := Idle (Some r) ]> (threads m)) in *.
  destruct (Nat.ltb_spec 0 (maxQueueSize_ (shared m))) as [Hmax|Hmax].
  - apply notifies_single, notify_one_cases in Hn as [[Hz ->]|(j & c & Hj & ->)].
    + split; cbn [shared threads queue_ dequeue maxQueueSize_]; [exact Hth'|lia|lia].
    + destruct (pool_waiting_ok _ _ _ _ _ Hth' Hj) as [[_ ?]|[[x ->] _]]; [done|].
      pool_count ths1 j (Entering (R := option Z) (PoolRun x)) Hj.
      split; cbn [shared threads queue_ dequeue maxQueueSize_]; [by apply Forall_insert|lia|lia].
  - inversion Hn; subst. split; cbn [shared threads queue_ dequeue maxQueueSize_]; [exact Hth'|lia|lia].
Qed.

Lemma count_waiting cond (ths : list PThread) :
  (∀ i c, ths !! i ≠ Some (Waiting cond c)) → count (waits_on cond) ths = 0.
Proof.
  intros Hn. apply count_elem. intros i t Hi. destruct t as [c|cond' c|r]; try done. cbn.
  destruct (Nat.eqb_spec cond' cond) as [->|]; [|done]. by destruct (Hn i c).
Qed.

(** A section that ends without touching the queue, when nobody waits for the caller. *)
Lemma wake_idle m i c r :
  wake_inv m → threads m !! i = Some (Entering c) →
  (c = PoolTake → queue_ (shared m) = []) → (∀ x, c = PoolRun x → count (waits_on pool_notFull) (threads m) = 0) →
  wake_inv (mkMonitor (shared m) (<[ i := Idle (Some r) ]> (threads m))).
Proof.
  intros [Hth Ht Hp] Hi Hq Hr. pool_count (threads m) i (Idle (C := PoolCall) (Some r)) Hi.
  split; cbn [shared threads]; [by apply Forall_insert|..].
  - destruct c; cbn in *; try lia. rewrite (Hq eq_refl) in *. cbn. lia.
  - destruct c as [x| | |]; cbn in *; try lia. specialize (Hr x eq_refl). lia.
Qed.

Lemma wake_inv_step m m' : pool_inv m → wake_inv m → mstep m m' → wake_inv m'.
Proof.
  intros Hpool Hw Hst.
  destruct Hst as [m i r c Hi|m i c cond Hi Hsec|m i c s r ns ths Hi Hsec Hn|m i cond c Hi].
  - destruct Hw as [Hth Ht Hp]. pool_count (threads m) i (Entering (R := option Z) c) Hi.
    split; cbn [shared threads]; [by apply Forall_insert|lia|lia].
  - destruct Hw as [Hth Ht Hp]. pool_count (threads m) i (Waiting (R := option Z) cond c) Hi.
    destruct c as [task| | |]; cbn in Hsec; unfold pool_run, pool_take, isFull in Hsec; try done.
    + destruct ((0 <? maxQueueSize_ (shared m)) && (maxQueueSize_ (shared m) <=? length (queue_ (shared m)))) eqn:Hf;
        [|by destruct (running_ (shared m))]. apply andb_true_iff in Hf as [Hm%Nat.ltb_lt Hl%Nat.leb_le].
      destruct (running_ (shared m)); [|done]. injection Hsec as <-. cbn in *.
      split; cbn [shared threads]; [by apply Forall_insert|lia|lia].
    + destruct (queue_ (shared m)) eqn:Hq; [|done]. destruct (running_ (shared m)); [|done]. injection Hsec as <-. cbn in *.
      split; cbn [shared threads]; rewrite ?Hq; cbn; [by apply Forall_insert|lia|].
      intros Hpos. cbn in Hp. lia.
  - destruct c as [task| | |]; cbn in Hsec; unfold pool_run, pool_take, pool_stop, pool_queueSize in Hsec.
    + destruct (isFull (shared m) && running_ (shared m)); [done|]. destruct (running_ (shared m)) eqn:Hrun; cbn in Hsec.
      * injection Hsec as <- <- <-. by eapply wake_put.
      * injection Hsec as <- <- <-. inversion Hn; subst. eapply wake_idle; [done|done|done|].
        intros x _. apply count_waiting. intros j c Hj. destruct (pool_waiters m Hpool _ _ _ Hj). congruence.
    + destruct (queue_ (shared m)) as [|task rest] eqn:Hq.
      * destruct (running_ (shared m)); [done|]. injection Hsec as <- <- <-. inversion Hn; subst.
        by eapply wake_idle.
      * injection Hsec as <- <- <-. by eapply wake_take.
    + injection Hsec as <- <- <-. destruct Hw as [Hth Ht Hp].
      assert (∀ j cond c, ths !! j ≠ Some (Waiting cond c)) as Hnone.
      { intros j cond c Hj. destruct (notifies_waiting _ _ _ Hn _ _ _ Hj) as [Hj' Hns].
        apply insert_waiting in Hj' as [?|Hj']; [done|]. apply Hns. rewrite !elem_of_cons.
        destruct (pool_waiting_ok _ _ _ _ _ Hth Hj') as [[_ ->]|[_ [-> _]]]; auto. }
      split; cbn [shared threads].
      * apply Forall_lookup. intros j t Hj. destruct t as [c|cond c|r']; try done. by destruct (Hnone _ _ _ Hj).
      * rewrite count_waiting by done. lia.
      * rewrite count_waiting by done. lia.
    + injection Hsec as <- <- <-. inversion Hn; subst. by eapply wake_idle.
  - destruct Hw as [Hth Ht Hp]. pool_count (threads m) i (Entering (R := option Z) c) Hi.
    destruct (pool_waiting_ok _ _ _ _ _ Hth Hi) as [[-> ->]|[[x ->] [-> _]]]; cbn in *;
      (split; cbn [shared threads]; [by apply Forall_insert|lia|lia]).
Qed.

(** ** Workers *)

(** Where a worker is in [runInThread]: before [threadInitCallback_]; at the test
    of [running_]; in [take]; in a task, which still has to [run] the tasks of the
    list; returned. *)
Inductive Phase := PInit | PTest | PTake | PRunTask (task : Z) (rest : list Z) | PEnd.

#[export] Instance Phase_eq_dec : EqDecision Phase.
Proof. solve_decision. Defined.

(** A pool: the first threads of the monitor are its workers. *)
Record Pool := mkPool { mon : PoolMonitor; phases : list Phase; finished : list Z }.

(** [start] with at least one thread, next to [callers] other threads.  (A pool
    without threads has no queue: its [run] calls the task.) *)
Definition Pool_start (maxSize numThreads callers : nat) : Pool :=
  mkPool (mkMonitor (ThreadPool_started maxSize) (replicate (numThreads + callers) (Idle None)))
    (replicate numThreads PInit) [].

Definition pool (s : Pool) : ThreadPool := shared (mon s).
Definition set_thread (i : nat) (t : PThread) (s : Pool) : PoolMonitor :=
  mkMonitor (pool s) (<[ i := t ]> (threads (mon s))).
Definition set_phase (i : nat) (p : Phase) (s : Pool) : list Phase := <[ i := p ]> (phases s).

Section Body.
(** The tasks that a task gives to [run]. *)
Variable body : Z → list Z.

(** What the worker does with what a section has returned. *)
Definition after_section (p : Phase) (r : option Z) : Phase :=
  match p, r with
  | PTake, Some task => PRunTask task (body task)
  | PTake, None => PTest
  | p, _ => p
  end.

(** A step of thread [i]. *)
Inductive act (i : nat) : Pool → Pool → Prop :=
  | act_init s :
      phases s !! i = Some PInit → act i s (mkPool (mon s) (set_phase i PTest s) (finished s))
  | act_again s r :
      phases s !! i = Some PTest → running_ (pool s) = true → threads (mon s) !! i = Some (Idle r) →
      act i s (mkPool (set_thread i (Entering PoolTake) s) (set_phase i PTake s) (finished s))
  | act_leave s :
      phases s !! i = Some PTest → running_ (pool s) = false →
      act i s (mkPool (mon s) (set_phase i PEnd s) (finished s))
  | act_submit s task x rest r :
      phases s !! i = Some (PRunTask task (x :: rest)) → threads (mon s) !! i = Some (Idle r) →
      act i s (mkPool (set_thread i (Entering (PoolRun x)) s) (set_phase i (PRunTask task rest) s) (finished s))
  | act_finish s task r :
      phases s !! i = Some (PRunTask task []) → threads (mon s) !! i = Some (Idle r) →
      act i s (mkPool (mon s) (set_phase i PTest s) (finished s ++ [task]))
  (** a caller: no worker calls [stop], which would join itself *)
  | act_call s r c :
      phases s !! i = None → threads (mon s) !! i = Some (Idle r) → c ≠ PoolTake →
      act i s (mkPool (set_thread i (Entering c) s) (phases s) (finished s))
  | act_wait s c cond :
      threads (mon s) !! i = Some (Entering c) → section c (pool s) = Wait cond →
      act i s (mkPool (set_thread i (Waiting cond c) s) (phases s) (finished s))
  | act_return s c p r ns ths :
      threads (mon s) !! i = Some (Entering c) → section c (pool s) = Return p r ns →
      notifies_all ns (<[ i := Idle (Some r) ]> (threads (mon s))) ths →
      act i s (mkPool (mkMonitor p ths) (alter (λ ph, after_section ph r) i (phases s)) (finished s)).

Inductive pool_step : Pool → Pool → Prop :=
  | pool_act i s s' : act i s s' → pool_step s s'
  | pool_spurious s i cond c :
      threads (mon s) !! i = Some (Waiting cond c) →
      pool_step s (mkPool (set_thread i (Entering c) s) (phases s) (finished s)).

(** Steps of the workers only. *)
Definition workers_step (s s' : Pool) : Prop := ∃ i, i < length (phases s) ∧ act i s s'.

(** ** The invariant *)

Definition running_task (p : Phase) : option Z := if p is PRunTask task _ then Some task else None.
Definition in_progress (s : Pool) : list Z := omap running_task (phases s).

(** What the phase of a worker says about its thread. *)
Definition linked (p : Phase) (t : PThread) : Prop :=
  match p, t with
  | (PInit | PTest | PEnd), Idle _ => True
  | PTake, (Entering PoolTake | Waiting _ PoolTake) => True
  | PRunTask _ _, (Idle _ | Entering (PoolRun _) | Waiting _ (PoolRun _)) => True
  | _, _ => False
  end.
Definition outsider (t : PThread) : Prop :=
  match t with Entering PoolTake | Waiting _ PoolTake => False | _ => True end.

Record run_inv (s : Pool) : Prop := {
  run_pool : pool_inv (mon s);
  run_wake : wake_inv (mon s);
  run_workers i p : phases s !! i = Some p → ∃ t, threads (mon s) !! i = Some t ∧ linked p t;
  run_others i t : phases s !! i = None → threads (mon s) !! i = Some t → outsider t;
  run_tasks : started (pool s) ≡ₚ finished s ++ in_progress s
}.

Lemma act_monitor i s s' : act i s s' → mon s' = mon s ∨ mstep (mon s) (mon s').
Proof.
  destruct 1; cbn; auto; right; unfold set_thread, pool.
  - by eapply mstep_call.
  - by eapply mstep_call.
  - by eapply mstep_call.
  - by eapply mstep_wait.
  - by eapply mstep_return.
Qed.

Lemma step_monitor s s' : pool_step s s' → mon s' = mon s ∨ mstep (mon s) (mon s').
Proof. destruct 1 as [i s s' Ha|s i cond c Hi]; [by eapply act_monitor|]. right. by eapply mstep_spurious. Qed.

Lemma insert_perm_omap i p (ps : list Phase) q :
  ps !! i = Some p →
  omap running_task ps ≡ₚ option_list (running_task p) ++ omap running_task (delete i ps) ∧
  omap running_task (<[ i := q ]> ps) ≡ₚ option_list (running_task q) ++ omap running_task (delete i ps).
Proof.
  intros Hi. rewrite (delete_Permutation ps i p) at 1 by done.
  rewrite (delete_Permutation (<[ i := q ]> ps) i q) at 1 by (apply list_lookup_insert_eq; by eapply lookup_lt_Some).
  assert (delete i (<[ i := q ]> ps) = delete i ps) as ->.
  { clear Hi. revert i. induction ps as [|x ps IH]; intros [|i]; [done|done|done|]. cbn. f_equal. apply IH. }
  split; [by destruct p|by destruct q].
Qed.

(** A notification leaves a thread alone, or lets it go on with its call. *)
Definition woken (t t' : PThread) : Prop := t' = t ∨ ∃ cond c, t = Waiting cond c ∧ t' = Entering c.

Lemma notifies_woken n (ths ths' : list PThread) : notifies n ths ths' → Forall2 woken ths ths'.
Proof.
  intros Hn. apply Forall2_same_length_lookup. inversion Hn as [cond ? i c Hi| |cond]; subst.
  - split; [by rewrite length_insert|]. intros j t t' Ht Ht'.
    apply list_lookup_insert_Some in Ht' as [(<- & <- & _)|[_ ?]]; [|left; congruence]. right. simplify_eq. eauto.
  - split; [done|]. intros j t t' ? ?. left. congruence.
  - split; [by rewrite length_fmap|]. intros j t t' Ht Ht'. rewrite list_lookup_fmap, Ht in Ht'. cbn in Ht'. injection Ht' as <-.
    destruct (waits_on cond t) eqn:Hw; [|by left]. destruct t as [c|cond' c|r]; try done. right. eauto.
Qed.

Lemma notifies_all_woken ns (ths ths' : list PThread) : notifies_all ns ths ths' → Forall2 woken ths ths'.
Proof.
  induction 1 as [|n ns ths1 ths2 ths3 H1 _ IH].
  - apply Forall2_same_length_lookup. split; [done|]. intros j t t' ? ?. left. congruence.
  - apply notifies_woken in H1. clear -H1 IH. revert ths3 IH.
    induction H1 as [|t1 t2 ths1 ths2 Ht _ IH]; intros ths3 H3; inversion H3 as [|? t3 ? ths4 Ht' H4]; subst; constructor.
    + destruct Ht as [->|(cond & c & -> & ->)]; [done|]. destruct Ht' as [->|(? & ? & ? & _)]; [right; eauto|done].
    + by apply IH.
Qed.

Lemma woken_linked p t t' : woken t t' → linked p t → linked p t'.
Proof. intros [->|(cond & c & -> & ->)]; [done|]. by destruct p, c. Qed.
Lemma woken_outsider t t' : woken t t' → outsider t → outsider t'.
Proof. intros [->|(cond & c & -> & ->)]; [done|]. by destruct c. Qed.

(** Thread [i] changes, and its phase if it is a worker. *)
Lemma links_insert s i t0 t p (ps : list Phase) ths :
  run_inv s → threads (mon s) !! i = Some t0 →
  Forall2 woken (<[ i := t ]> (threads (mon s))) ths →
  (phases s !! i = Some p → ∃ q, ps = <[ i := q ]> (phases s) ∧ linked q t) →
  (phases s !! i = None → ps = phases s ∧ outsider t) →
  (phases s !! i = Some p ∨ phases s !! i = None) →
  (∀ j q, ps !! j = Some q → ∃ t, ths !! j = Some t ∧ linked q t) ∧
  (∀ j t, ps !! j = None → ths !! j = Some t → outsider t).
Proof.
  intros Hs Hi Hw H1 H2 Hp. pose proof (run_workers s Hs) as Hwk. pose proof (run_others s Hs) as Hot.
  assert (∀ j t1, <[ i := t ]> (threads (mon s)) !! j = Some t1 → j = i ∧ t1 = t ∨ j ≠ i ∧ threads (mon s) !! j = Some t1) as Hl.
  { intros j t1 [(-> & <- & _)|[? ?]]%list_lookup_insert_Some; [by left|by right]. }
  assert (i < length (threads (mon s))) as Hlt by (by eapply lookup_lt_Some).
  split.
  - intros j q Hq.
    assert (∃ t1, <[ i := t ]> (threads (mon s)) !! j = Some t1 ∧ linked q t1) as (t1 & Ht1 & Hk).
    { destruct (decide (j = i)) as [->|Hne].
      - rewrite list_lookup_insert_eq by done. exists t. split; [done|]. destruct Hp as [Hp|Hp].
        + destruct (H1 Hp) as (q' & -> & Hk). rewrite list_lookup_insert_eq in Hq by (by eapply lookup_lt_Some). by simplify_eq.
        + destruct (H2 Hp) as [-> _]. congruence.
      - rewrite list_lookup_insert_ne by done. apply Hwk. destruct Hp as [Hp|Hp].
        + destruct (H1 Hp) as (q' & -> & _). by rewrite list_lookup_insert_ne in Hq by done.
        + by destruct (H2 Hp) as [-> _]. }
    destruct (Forall2_lookup_l _ _ _ _ _ Hw Ht1) as (t2 & Ht2 & Hwo). exists t2. split; [done|]. by eapply woken_linked.
  - intros j t2 Hq Ht2. destruct (Forall2_lookup_r _ _ _ _ _ Hw Ht2) as (t1 & Ht1 & Hwo).
    eapply woken_outsider; [done|]. destruct (Hl _ _ Ht1) as [[-> ->]|[Hne Hj]].
    + destruct Hp as [Hp|Hp]; [|by destruct (H2 Hp)]. destruct (H1 Hp) as (q' & -> & _).
      rewrite list_lookup_insert_eq in Hq by (by eapply lookup_lt_Some). done.
    + eapply Hot; [|done]. destruct Hp as [Hp|Hp]; [|by destruct (H2 Hp) as [-> _]].
      destruct (H1 Hp) as (q' & -> & _). by rewrite list_lookup_insert_ne in Hq by done.
Qed.

Lemma woken_refl (ths : list PThread) : Forall2 woken ths ths.
Proof. apply Forall2_same_length_lookup. split; [done|]. intros j t t' ? ?. left. congruence. Qed.

(** What a section returns, and what it does to [started]. *)
Lemma section_started c p q r ns :
  section c p = Return q r ns →
  (c = PoolTake ∧ (∃ task, r = Some task ∧ started q = started p ++ [task]) ∨
   (c = PoolTake → r = None) ∧ started q = started p).
Proof.
  cbn. destruct c as [task| | |]; cbn; unfold pool_run, pool_take, pool_stop, pool_queueSize.
  - destruct (isFull p && running_ p); [done|]. destruct (running_ p); cbn; intros [= <- <- <-]; by right.
  - destruct (queue_ p) as [|task rest]; [destruct (running_ p); [done|]|]; intros [= <- <- <-]; [by right|].
    left. eauto.
  - intros [= <- <- <-]. by right.
  - intros [= <- <- <-]. by right.
Qed.

Lemma phase_tasks s i p q fs :
  started (pool s) ≡ₚ finished s ++ in_progress s → phases s !! i = Some p →
  option_list (running_task p) ≡ₚ fs ++ option_list (running_task q) →
  started (pool s) ≡ₚ (finished s ++ fs) ++ omap running_task (<[ i := q ]> (phases s)).
Proof.
  intros Ht Hi Hp. destruct (insert_perm_omap i p (phases s) q Hi) as [E1 E2].
  rewrite Ht. unfold in_progress. rewrite E1, E2, Hp. solve_Permutation.
Qed.

Lemma run_inv_keep s m ps fs :
  run_inv s → m = mon s ∨ mstep (mon s) m →
  (∀ j q, ps !! j = Some q → ∃ t, threads m !! j = Some t ∧ linked q t) →
  (∀ j t, ps !! j = None → threads m !! j = Some t → outsider t) →
  started (shared m) ≡ₚ fs ++ omap running_task ps →
  run_inv (mkPool m ps fs).
Proof.
  intros Hs Hm Hw Ho Ht. split; cbn; try done.
  - destruct Hm as [->|Hm]; [apply Hs|]. eapply pool_inv_step; [apply Hs|done].
  - destruct Hm as [->|Hm]; [apply Hs|]. eapply wake_inv_step; [apply Hs|apply Hs|done].
Qed.

Lemma phase_thread s i p : run_inv s → phases s !! i = Some p → ∃ t, threads (mon s) !! i = Some t ∧ linked p t.
Proof. intros Hs Hi. by apply (run_workers s Hs). Qed.

(** The phase of a worker changes, its thread stays. *)
Lemma run_inv_phase s i p q fs :
  run_inv s → phases s !! i = Some p →
  (∀ t, linked p t → linked q t) → option_list (running_task p) ≡ₚ fs ++ option_list (running_task q) →
  run_inv (mkPool (mon s) (<[ i := q ]> (phases s)) (finished s ++ fs)).
Proof.
  intros Hs Hi Hl Hp. destruct (phase_thread s i p Hs Hi) as (t & Ht & Hk).
  destruct (links_insert s i t t p (<[ i := q ]> (phases s)) (threads (mon s)) Hs Ht) as [Hw Ho].
  - rewrite list_insert_id by done. apply woken_refl.
  - intros _. exists q. auto.
  - congruence.
  - by left.
  - apply (run_inv_keep s); try done; [by left|]. apply (phase_tasks s i p); [apply Hs|done|done].
Qed.

(** A thread changes, with its phase when it is a worker, and runs no task to its end. *)
Lemma run_inv_thread s i t0 t m ps :
  run_inv s → threads (mon s) !! i = Some t0 → mstep (mon s) m →
  Forall2 woken (<[ i := t ]> (threads (mon s))) (threads m) →
  (∀ p, phases s !! i = Some p → ∃ q, ps = <[ i := q ]> (phases s) ∧ linked q t) →
  (phases s !! i = None → ps = phases s ∧ outsider t) →
  started (shared m) ≡ₚ finished s ++ omap running_task ps →
  run_inv (mkPool m ps (finished s)).
Proof.
  intros Hs Hi Hm Hw H1 H2 Ht. destruct (phases s !! i) as [p|] eqn:Hp.
  - destruct (links_insert s i t0 t p ps (threads m) Hs Hi Hw) as [Hwk Hot];
      [intros _; by apply (H1 p)|congruence|by left|]. apply (run_inv_keep s); auto.
  - destruct (links_insert s i t0 t PInit ps (threads m) Hs Hi Hw) as [Hwk Hot];
      [congruence|by auto|by right|]. apply (run_inv_keep s); auto.
Qed.

Lemma alter_Some {A} (f : A → A) (l : list A) (i : nat) x : l !! i = Some x → alter f i l = <[ i := f x ]> l.
Proof. revert i. induction l as [|y l IH]; intros [|i] Hi; cbn in *; [done|done|by simplify_eq|]. f_equal. by apply IH. Qed.
Lemma alter_None {A} (f : A → A) (l : list A) (i : nat) : l !! i = None → alter f i l = l.
Proof. revert i. induction l as [|y l IH]; intros [|i] Hi; cbn in *; try done. f_equal. by apply IH. Qed.

Lemma act_return_inv i s c p r ns ths :
  run_inv s → threads (mon s) !! i = Some (Entering c) → section c (pool s) = Return p r ns →
  notifies_all ns (<[ i := Idle (Some r) ]> (threads (mon s))) ths →
  run_inv (mkPool (mkMonitor p ths) (alter (λ ph, after_section ph r) i (phases s)) (finished s)).
Proof.
  intros Hs Hi Hsec Hn. pose proof (section_started _ _ _ _ _ Hsec) as Hst. pose proof (run_tasks s Hs) as Ht.
  assert (mstep (mon s) (mkMonitor p ths)) as Hm by (by eapply mstep_return).
  eapply (run_inv_thread s i (Entering c) (Idle (Some r))); try done; [by eapply notifies_all_woken|..].
  - intros ph Hph. exists (after_section ph r). rewrite (alter_Some _ _ _ ph) by done. split; [done|].
    destruct (phase_thread s i ph Hs Hph) as (t & Ht' & Hk). simplify_eq.
    destruct ph as [| | |task rest|], c, r; by cbn in *.
  - intros Hph. by rewrite alter_None.
  - cbn [shared]. destruct (phases s !! i) as [ph|] eqn:Hph.
    + rewrite (alter_Some _ _ _ ph) by done. destruct (phase_thread s i ph Hs Hph) as (t & Ht' & Hk). simplify_eq.
      destruct (insert_perm_omap i ph (phases s) (after_section ph r) Hph) as [E1 E2]. unfold in_progress in Ht.
      destruct Hst as [(-> & task & -> & ->)|[Hr ->]].
      * destruct ph; try done. rewrite E2, Ht, E1. cbn. solve_Permutation.
      * rewrite E2. unfold pool in Ht. rewrite Ht, E1. destruct ph, c; try done. by rewrite (Hr eq_refl).
    + rewrite alter_None by done. destruct Hst as [(-> & _)|[_ ->]]; [|exact Ht].
      by destruct (run_others s Hs i _ Hph Hi).
Qed.

Lemma act_inv i s s' : run_inv s → act i s s' → run_inv s'.
Proof.
  intros Hs Ha. pose proof (act_monitor i s s' Ha) as Hm. pose proof (run_tasks s Hs) as Ht. unfold in_progress in Ht.
  destruct Ha as [s Hp|s r Hp Hr Hi|s Hp Hr|s task x rest r Hp Hi|s task r Hp Hi|s r c Hp Hi Hc|s c cond Hi Hsec|
    s c p r ns ths Hi Hsec Hn].
  - rewrite <- (app_nil_r (finished s)). by eapply run_inv_phase.
  - eapply (run_inv_thread s i (Idle r)); [done..|by eapply mstep_call|apply woken_refl| |congruence|].
    + intros p' _. by exists PTake.
    + cbn. destruct (insert_perm_omap i PTest (phases s) PTake Hp) as [E1 E2]. unfold set_phase. by rewrite E2, <- E1.
  - rewrite <- (app_nil_r (finished s)). by eapply run_inv_phase.
  - eapply (run_inv_thread s i (Idle r)); [done..|by eapply mstep_call|apply woken_refl| |congruence|].
    + intros p' _. by exists (PRunTask task rest).
    + cbn. destruct (insert_perm_omap i _ (phases s) (PRunTask task rest) Hp) as [E1 E2]. unfold set_phase.
      by rewrite E2, <- E1.
  - destruct (phase_thread s i _ Hs Hp) as (t & Ht' & Hk). simplify_eq.
    destruct (links_insert s i (Idle r) (Idle r) (PRunTask task []) (<[ i := PTest ]> (phases s)) (threads (mon s)) Hs Hi)
      as [Hw Ho]; [rewrite list_insert_id by done; apply woken_refl|intros _; by exists PTest|congruence|by left|].
    apply (run_inv_keep s); try done. by eapply phase_tasks.
  - eapply (run_inv_thread s i (Idle r)); [done..|by eapply mstep_call|apply woken_refl|congruence| |exact Ht].
    intros _. split; [done|]. by destruct c.
  - eapply (run_inv_thread s i (Entering c)); [done..|by eapply mstep_wait|apply woken_refl| | |exact Ht].
    + intros p' Hp'. exists p'. split; [by rewrite list_insert_id|]. destruct (phase_thread s i p' Hs Hp') as (t & Ht' & Hk).
      simplify_eq. by destruct p', c.
    + intros Hp'. split; [done|]. pose proof (run_others s Hs i _ Hp' Hi) as Ho. by destruct c.
  - by eapply act_return_inv.
Qed.

Lemma pool_step_inv s s' : run_inv s → pool_step s s' → run_inv s'.
Proof.
  intros Hs Hst. destruct Hst as [i s s' Ha|s i cond c Hi]; [by eapply act_inv|].
  pose proof (run_tasks s Hs) as Ht.
  eapply (run_inv_thread s i (Waiting cond c)); [done..|by eapply mstep_spurious|apply woken_refl| | |exact Ht].
  - intros p' Hp'. exists p'. split; [by rewrite list_insert_id|]. destruct (phase_thread s i p' Hs Hp') as (t & Ht' & Hk).
    simplify_eq. by destruct p', c.
  - intros Hp'. split; [done|]. pose proof (run_others s Hs i _ Hp' Hi) as Ho. by destruct c.
Qed.

Lemma run_inv_start maxSize n callers : run_inv (Pool_start maxSize n callers).
Proof.
  assert (∀ i (t : PThread), replicate (n + callers) (Idle None) !! i = Some t → t = Idle None) as Hidle.
  { intros i t Hi. by apply lookup_replicate in Hi as [-> _]. }
  assert (∀ f : PThread → bool, f (Idle None) = false → count f (replicate (n + callers) (Idle None)) = 0) as Hz.
  { intros f Hf. apply count_elem. intros i t Hi. by rewrite (Hidle _ _ Hi). }
  split; cbn.
  - split; cbn; [done|lia|]. intros i cond c Hi. by apply Hidle in Hi.
  - split; cbn; [apply Forall_replicate; done|lia|]. rewrite Hz by done. lia.
  - intros i p [-> Hi]%lookup_replicate. exists (Idle None). split; [apply lookup_replicate_2; lia|done].
  - intros i t _ Hi. by rewrite (Hidle _ _ Hi).
  - unfold in_progress. cbn. assert (omap running_task (replicate n PInit) = []) as ->; [|done].
    clear. induction n as [|n IH]; [done|exact IH].
Qed.

Lemma pool_reachable maxSize n callers s : rtc pool_step (Pool_start maxSize n callers) s → run_inv s.
Proof.
  intros Hr. pose proof (run_inv_start maxSize n callers) as H0. revert H0. generalize (Pool_start maxSize n callers), Hr.
  intros s0 Hr0 H0. clear Hr. induction Hr0 as [|s1 s2 s3 Hst _ IH]; [done|]. by eapply IH, pool_step_inv.
Qed.

(** C38. Thread pools.  In every interleaving of the workers with callers of [run],
    [stop] and [queueSize], with spurious wake-ups and tasks that call [run]
    themselves: tasks leave the queue in the order they entered it; every task
    that left it is run by exactly one worker, and is finished or in progress; a
    bounded queue never exceeds [maxQueueSize_]; no wake-up is lost, so that a
    worker waits while tasks are queued only if another one is on its way to take,
    and a caller waits while there is room only if another one is on its way to
    put; and after [stop] nobody is left waiting. *)
Theorem pool_tasks_once maxSize n callers s :
  rtc pool_step (Pool_start maxSize (S n) callers) s →
  queued_order (pool s) = started (pool s) ++ queue_ (pool s) ∧
  started (pool s) ≡ₚ finished s ++ in_progress s ∧
  (0 < maxQueueSize_ (pool s) → length (queue_ (pool s)) ≤ maxQueueSize_ (pool s)) ∧
  (∀ i cond, threads (mon s) !! i = Some (Waiting cond PoolTake) → queue_ (pool s) ≠ [] →
     ∃ j, threads (mon s) !! j = Some (Entering PoolTake)) ∧
  (∀ i cond x, threads (mon s) !! i = Some (Waiting cond (PoolRun x)) →
     length (queue_ (pool s)) < maxQueueSize_ (pool s) → ∃ j y, threads (mon s) !! j = Some (Entering (PoolRun y))) ∧
  (running_ (pool s) = false → ∀ i cond c, threads (mon s) !! i ≠ Some (Waiting cond c)).
Proof.
  intros [[Hf Hb Hwait] [Hth Ht Hp] Hw Ho Htasks]%pool_reachable.
  assert (∀ i cond c, threads (mon s) !! i = Some (Waiting cond c) →
            0 < count (waits_on cond) (threads (mon s))) as Hpos.
  { intros i cond c Hi. destruct (count (waits_on cond) (threads (mon s))) eqn:Hc; [|lia].
    pose proof (proj1 (count_elem _ _) Hc _ _ Hi) as Hfalse. cbn in Hfalse. by rewrite Nat.eqb_refl in Hfalse. }
  split_and!; [done..| | |].
  - intros i cond Hi Hq. destruct (pool_waiting_ok _ _ _ _ _ Hth Hi) as [[_ ->]|[[x ?] _]]; [|done].
    specialize (Ht (Hpos _ _ _ Hi)). destruct (count_pos taking (threads (mon s))) as (j & t & Hj & Htk).
    { unfold pool in *. destruct (queue_ (shared (mon s))); [done|]. cbn in Ht. lia. }
    exists j. destruct t as [[| | |]|cond c|r]; done.
  - intros i cond x Hi Hlt. destruct (pool_waiting_ok _ _ _ _ _ Hth Hi) as [[? _]|[_ [-> _]]]; [done|].
    specialize (Hp (Hpos _ _ _ Hi)). destruct (count_pos putting (threads (mon s))) as (j & t & Hj & Htk).
    { unfold pool in *. lia. }
    exists j. destruct t as [[y| | |]|cond c|r]; try done. by exists y.
  - intros Hr i cond c Hi. destruct (Hwait _ _ _ Hi) as [? _]. unfold pool in *. congruence.
Qed.

(** ** Work that is left *)

Definition work (w : Phase → PThread → nat) (qw : Z → nat) (s : Pool) : nat :=
  sum_list (zip_with w (phases s) (threads (mon s))) + sum_list (qw <$> queue_ (pool s)).

Lemma zip_insert (w : Phase → PThread → nat) ps i p q ths t t' :
  ps !! i = Some p → ths !! i = Some t →
  sum_list (zip_with w (<[ i := q ]> ps) (<[ i := t' ]> ths)) + w p t = sum_list (zip_with w ps ths) + w q t'.
Proof.
  revert i ths. induction ps as [|p0 ps IH]; intros [|i] [|t0 ths] Hp Ht; try done.
  - cbn in *. simplify_eq. lia.
  - specialize (IH i ths Hp Ht).
    change (w p0 t0 + sum_list (zip_with w (<[ i := q ]> ps) (<[ i := t' ]> ths)) + w p t =
            w p0 t0 + sum_list (zip_with w ps ths) + w q t'). lia.
Qed.

Lemma zip_same (w : Phase → PThread → nat) ps : ∀ ths ths',
  (∀ j, j < length ps → ths' !! j = ths !! j) → zip_with w ps ths' = zip_with w ps ths.
Proof.
  induction ps as [|p ps IH]; intros ths ths' Hj; [done|].
  pose proof (Hj 0 ltac:(cbn; lia)) as H0. destruct ths as [|t ths], ths' as [|t' ths']; try done.
  injection H0 as ->. cbn. f_equal. apply IH. intros j Hlt. apply (Hj (S j)). cbn. lia.
Qed.

(** A notification can always be carried out. *)
Lemma notifies_exists n (ths : list PThread) : ∃ ths', notifies n ths ths'.
Proof.
  destruct n as [cond|cond]; [|eexists; apply notify_all].
  destruct (count (waits_on cond) ths) eqn:Hc; [eexists; by apply notify_none|].
  destruct (count_pos (waits_on cond) ths) as (i & t & Hi & Ht); [lia|].
  destruct t as [c|cond' c|r]; try done. cbn in Ht. apply Nat.eqb_eq in Ht as ->. eexists. by eapply notify_one.
Qed.
Lemma notifies_all_exists ns (ths : list PThread) : ∃ ths', notifies_all ns ths ths'.
Proof.
  revert ths. induction ns as [|n ns IH]; intros ths; [eexists; apply notifies_nil|].
  destruct (notifies_exists n ths) as [ths1 H1]. destruct (IH ths1) as [ths2 H2]. eexists. by eapply notifies_cons.
Qed.

(** ** After [stop] *)

Definition stop_weight (p : Phase) (t : PThread) : nat :=
  match p with
  | PEnd => 0
  | PTest => 1
  | PInit | PTake => 2
  | PRunTask _ rest => 2 * length rest + (if t is Idle _ then 2 else 3)
  end.
Definition stop_work : Pool → nat := work stop_weight (λ task, 2 * length (body task) + 2).

Lemma nobody_waits s i cond c :
  run_inv s → running_ (pool s) = false → threads (mon s) !! i ≠ Some (Waiting cond c).
Proof. intros Hs Hr Hi. destruct (pool_waiters _ (run_pool s Hs) _ _ _ Hi) as [? _]. unfold pool in *. congruence. Qed.

Lemma woken_nobody (ths ths' : list PThread) :
  Forall2 woken ths ths' → (∀ i cond c, ths !! i ≠ Some (Waiting cond c)) → ths' = ths.
Proof.
  intros Hw. induction Hw as [|t t' ths ths' Ht _ IH]; intros Hn; [done|]. f_equal.
  - destruct Ht as [->|(cond & c & -> & _)]; [done|]. by destruct (Hn 0 cond c).
  - apply IH. intros i. apply (Hn (S i)).
Qed.

(** The sections of a pool that has stopped. *)
Lemma stopped_section c p :
  running_ p = false →
  match c with
  | PoolTake =>
    match queue_ p with
    | [] => section c p = Return p None []
    | task :: rest => ∃ ns, section c p = Return (dequeue p task rest) (Some task) ns
    end
  | PoolRun _ => section c p = Return p None []
  | _ => ∃ q r ns, section c p = Return q r ns ∧ queue_ q = queue_ p ∧ running_ q = false
  end.
Proof.
  intros Hr. destruct c as [x| | |]; cbn; unfold pool_run, pool_take, pool_stop, pool_queueSize; rewrite ?Hr, ?andb_false_r; try done.
  - destruct (queue_ p); [done|]. by eexists.
  - by eexists _, _, _.
  - by eexists _, _, _.
Qed.

(** The weights of worker [i] before and after a step that changes it alone. *)
Lemma work_change w qw s i p q t t' p' :
  phases s !! i = Some p → threads (mon s) !! i = Some t →
  sum_list (qw <$> queue_ p') + w q t' < sum_list (qw <$> queue_ (pool s)) + w p t →
  ∀ fs, work w qw (mkPool (mkMonitor p' (<[ i := t' ]> (threads (mon s)))) (<[ i := q ]> (phases s)) fs) < work w qw s.
Proof.
  intros Hp Ht Hlt fs. pose proof (zip_insert w _ _ _ q _ _ t' Hp Ht) as Hz. unfold work, pool in *. cbn. lia.
Qed.

Lemma mon_eta s i t : threads (mon s) !! i = Some t → mon s = mkMonitor (pool s) (<[ i := t ]> (threads (mon s))).
Proof. intros Hi. rewrite list_insert_id by done. unfold pool. by destruct (mon s). Qed.

Lemma stop_return i s c p r ns ths ph :
  run_inv s → running_ (pool s) = false → phases s !! i = Some ph →
  threads (mon s) !! i = Some (Entering c) → section c (pool s) = Return p r ns →
  notifies_all ns (<[ i := Idle (Some r) ]> (threads (mon s))) ths →
  running_ p = false ∧
  stop_work (mkPool (mkMonitor p ths) (alter (λ ph, after_section ph r) i (phases s)) (finished s)) < stop_work s.
Proof.
  intros Hs Hr Hp Hi Hsec Hn. rewrite (alter_Some _ _ _ ph) by done.
  destruct (phase_thread s i ph Hs Hp) as (t & Ht & Hk). simplify_eq.
  assert (ths = <[ i := Idle (Some r) ]> (threads (mon s))) as ->.
  { apply (woken_nobody (<[ i := Idle (Some r) ]> (threads (mon s)))); [by eapply notifies_all_woken|].
    intros j cond' c' [?|Hj]%insert_waiting; [done|]. by eapply nobody_waits. }
  pose proof (stopped_section c (pool s) Hr) as Hst. destruct ph as [| | |task rest|], c as [x| | |]; try done.
  - destruct (queue_ (pool s)) as [|task rest] eqn:Hq.
    + rewrite Hst in Hsec. simplify_eq. split; [done|]. eapply work_change; [done..|]. cbn. lia.
    + destruct Hst as [ns' Hst]. rewrite Hst in Hsec. simplify_eq. split; [done|]. eapply work_change; [done..|].
      cbn. rewrite Hq. cbn. lia.
  - rewrite Hst in Hsec. simplify_eq. split; [done|]. eapply work_change; [done..|]. cbn. lia.
Qed.

Lemma stop_decreases i s s' :
  run_inv s → running_ (pool s) = false → i < length (phases s) → act i s s' →
  running_ (pool s') = false ∧ stop_work s' < stop_work s.
Proof.
  intros Hs Hr Hi Ha.
  destruct Ha as [s Hp|s r Hp Hr' Ht|s Hp Hr'|s task x rest r Hp Ht|s task r Hp Ht|s r c Hp Ht Hc|s c cond Ht Hsec|
    s c p r ns ths Ht Hsec Hn].
  - destruct (phase_thread s i _ Hs Hp) as (t & Ht & Hk). split; [done|]. rewrite (mon_eta s i t) by done.
    eapply work_change; [done..|]. cbn. lia.
  - congruence.
  - destruct (phase_thread s i _ Hs Hp) as (t & Ht & Hk). split; [done|]. rewrite (mon_eta s i t) by done.
    eapply work_change; [done..|]. cbn. lia.
  - split; [done|]. eapply work_change; [done..|]. cbn. lia.
  - split; [done|]. rewrite (mon_eta s i (Idle r)) by done. eapply work_change; [done..|]. cbn. lia.
  - apply lookup_ge_None in Hp. lia.
  - pose proof (stopped_section c (pool s) Hr) as Hst.
    destruct c; [congruence|destruct (queue_ (pool s)); [congruence|by destruct Hst; congruence]|..];
      destruct Hst as (? & ? & ? & ? & _); congruence.
  - destruct (lookup_lt_is_Some_2 _ _ Hi) as [ph Hph]. cbn. by eapply stop_return.
Qed.

(** The steps of callers make no work. *)
Lemma callers_keep w qw s i t p ths fs :
  phases s !! i = None → queue_ p = queue_ (pool s) → ths = <[ i := t ]> (threads (mon s)) →
  work w qw (mkPool (mkMonitor p ths) (phases s) fs) = work w qw s.
Proof.
  intros Hp Hq ->. unfold work, pool in *. cbn. rewrite Hq. f_equal. f_equal. apply zip_same. intros j Hj.
  apply list_lookup_insert_ne. apply lookup_ge_None in Hp. lia.
Qed.

Lemma stop_keeps s s' :
  run_inv s → running_ (pool s) = false → pool_step s s' →
  running_ (pool s') = false ∧ stop_work s' ≤ stop_work s.
Proof.
  intros Hs Hr Hst. destruct Hst as [i s s' Ha|s i cond c Hi]; [|by destruct (nobody_waits s i cond c Hs Hr)].
  destruct (decide (i < length (phases s))) as [Hlt|Hge].
  { destruct (stop_decreases i s s' Hs Hr Hlt Ha). split; [done|lia]. }
  assert (phases s !! i = None) as Hnone by (apply lookup_ge_None; lia).
  destruct Ha as [s Hp|s r Hp Hr' Ht|s Hp Hr'|s task x rest r Hp Ht|s task r Hp Ht|s r c Hp Ht Hc|s c cond Ht Hsec|
    s c p r ns ths Ht Hsec Hn]; try congruence.
  - split; [done|]. unfold stop_work. unfold set_thread. by erewrite callers_keep.
  - pose proof (stopped_section c (pool s) Hr) as Hst.
    destruct c; [congruence|destruct (queue_ (pool s)); [congruence|by destruct Hst; congruence]|..];
      destruct Hst as (? & ? & ? & ? & _); congruence.
  - rewrite alter_None by done.
    assert (ths = <[ i := Idle (Some r) ]> (threads (mon s))) as Hths.
    { apply (woken_nobody (<[ i := Idle (Some r) ]> (threads (mon s)))); [by eapply notifies_all_woken|].
      intros j cond' c' [?|Hj]%insert_waiting; [done|]. by eapply nobody_waits. }
    pose proof (stopped_section c (pool s) Hr) as Hst. pose proof (run_others s Hs i _ Hnone Ht) as Ho.
    assert (queue_ p = queue_ (pool s) ∧ running_ p = false) as [Hq Hrp].
    { destruct c; [|done|..].
      - rewrite Hst in Hsec. by simplify_eq.
      - destruct Hst as (? & ? & ? & Hst & ? & ?). rewrite Hst in Hsec. by simplify_eq.
      - destruct Hst as (? & ? & ? & Hst & ? & ?). rewrite Hst in Hsec. by simplify_eq. }
    split; [done|]. unfold stop_work. by erewrite callers_keep.
Qed.

Definition all_ended (s : Pool) : Prop := Forall (λ p, p = PEnd) (phases s).

Lemma stop_progress s :
  run_inv s → running_ (pool s) = false → all_ended s ∨ ∃ s', workers_step s s'.
Proof.
  intros Hs Hr. destruct (decide (Exists (λ p, p ≠ PEnd) (phases s))) as [He|He].
  2: { left. apply not_Exists_Forall in He; [|apply _]. eapply Forall_impl; [exact He|]. intros p Hp. by apply dec_stable. }
  right. apply Exists_exists in He as (p & Hin & Hne). apply list_elem_of_lookup in Hin as [i Hi].
  destruct (phase_thread s i p Hs Hi) as (t & Ht & Hk).
  enough (∃ s', act i s s') as [s' Ha] by (exists s', i; split; [by eapply lookup_lt_Some|done]).
  assert (∀ c, t = Entering c → ∃ s', act i s s') as Hsec.
  { intros c ->. pose proof (stopped_section c (pool s) Hr) as Hst.
    assert (∃ q r ns, section c (pool s) = Return q r ns) as (q & r & ns & Hret).
    { destruct c; [eauto|destruct (queue_ (pool s)); [eauto|destruct Hst; eauto]|..]; destruct Hst as (? & ? & ? & ? & _); eauto. }
    destruct (notifies_all_exists ns (<[ i := Idle (Some r) ]> (threads (mon s)))) as [ths Hn].
    eexists. by eapply act_return. }
  destruct t as [c|cond c|r]; [by eapply Hsec|by destruct (nobody_waits s i cond c Hs Hr)|].
  destruct p as [| | |task [|x rest]|]; try done; eexists;
    [by apply act_init|by apply act_leave|by eapply act_finish|by eapply act_submit].
Qed.

(** C37. Stopping a pool.  After [stop] has set [running_] to false, in any state the
    pool can get to: whatever happens, the workers' remaining work never grows,
    every step of a worker makes it smaller, and a worker that has not returned
    from [runInThread] has a step; so all of them return, and the joins of [stop]
    with them, after at most [stop_work] steps, whatever else happens. *)
Theorem pool_stops maxSize n callers s :
  rtc pool_step (Pool_start maxSize (S n) callers) s → running_ (pool s) = false →
  (∀ s', pool_step s s' → running_ (pool s') = false ∧ stop_work s' ≤ stop_work s) ∧
  (∀ s', workers_step s s' → stop_work s' < stop_work s) ∧
  (all_ended s ∨ ∃ s', workers_step s s') ∧
  ∃ s', rtc workers_step s s' ∧ all_ended s'.
Proof.
  intros Hs%pool_reachable Hr. split_and!.
  - intros s' Hst. by apply stop_keeps.
  - intros s' (i & Hi & Ha). by destruct (stop_decreases i s s' Hs Hr Hi Ha).
  - by apply stop_progress.
  - remember (stop_work s) as w eqn:Hw. revert s Hs Hr Hw. induction (lt_wf w) as [w _ IH]. intros s Hs Hr ->.
    destruct (stop_progress s Hs Hr) as [He|[s1 (i & Hi & Ha)]]; [by exists s|].
    destruct (stop_decreases i s s1 Hs Hr Hi Ha) as [Hr1 Hlt].
    destruct (IH _ Hlt s1) as (s2 & H2 & He2); [by eapply act_inv|done|done|].
    exists s2. split; [|done]. eapply rtc_l; [|exact H2]. by exists i.
Qed.

(** ** Draining the queue *)

Section Drain.
(** Tasks that do not call [run]. *)
Hypothesis Hbody : ∀ task, body task = [].

(** A worker in a task is not in a section, and only a stopped pool loses workers. *)
Definition plain (s : Pool) : Prop := ∀ i p, phases s !! i = Some p →
  match p with
  | PRunTask _ rest => rest = [] ∧ ∃ r, threads (mon s) !! i = Some (Idle r)
  | PEnd => running_ (pool s) = false
  | _ => True
  end.

Lemma section_running c p q r ns : section c p = Return q r ns → running_ q = true → running_ p = true.
Proof.
  destruct c as [x| | |]; cbn; unfold pool_run, pool_take, pool_stop, pool_queueSize.
  - destruct (isFull p && running_ p); [done|]. destruct (running_ p) eqn:E; cbn; [done|]. intros [= <- <- <-]. congruence.
  - destruct (queue_ p); [destruct (running_ p) eqn:E; [done|]|]; intros [= <- <- <-]; [congruence|done].
  - by intros [= <- <- <-].
  - by intros [= <- <- <-].
Qed.

(** Worker [i] and its thread change; those in a task stay idle. *)
Lemma plain_insert s i t m ps q fs :
  plain s → Forall2 woken (<[ i := t ]> (threads (mon s))) (threads m) →
  (running_ (pool s) = false → running_ (shared m) = false) →
  (ps = <[ i := q ]> (phases s) ∧ match q with PRunTask _ rest => rest = [] ∧ ∃ r, t = Idle r | PEnd => running_ (pool s) = false | _ => True end ∨
   ps = phases s ∧ ∀ task rest, phases s !! i ≠ Some (PRunTask task rest)) →
  i < length (threads (mon s)) →
  plain (mkPool m ps fs).
Proof.
  intros Hs Hw Hr Hps Hlt j p Hp. cbn in *.
  assert (∀ j r, <[ i := t ]> (threads (mon s)) !! j = Some (Idle r) → threads m !! j = Some (Idle r)) as Hidle.
  { intros j' r Hj. destruct (Forall2_lookup_l _ _ _ _ _ Hw Hj) as (t' & Ht' & [->|(? & ? & ? & _)]); done. }
  destruct Hps as [[-> Hq]|[-> Hq]].
  - apply list_lookup_insert_Some in Hp as [(<- & <- & _)|[Hne Hp]].
    + destruct q; try done; [|auto]. destruct Hq as (-> & r & ->). split; [done|]. exists r. apply Hidle.
      by apply list_lookup_insert_eq.
    + specialize (Hs j p Hp). destruct p; try done; [|auto]. destruct Hs as (-> & r & Hj). split; [done|]. exists r.
      apply Hidle. by rewrite list_lookup_insert_ne.
  - pose proof (Hs j p Hp) as Hj. destruct p as [| | |task rest|]; try done; [|auto]. destruct Hj as (-> & r & Hj).
    split; [done|]. exists r. apply Hidle. rewrite list_lookup_insert_ne; [done|]. intros ->. by destruct (Hq task []).
Qed.

Lemma insert_same (s : Pool) i t : threads (mon s) !! i = Some t → Forall2 woken (<[ i := t ]> (threads (mon s))) (threads (mon s)).
Proof. intros Hi. rewrite list_insert_id by done. apply woken_refl. Qed.

Lemma plain_step s s' : run_inv s → plain s → pool_step s s' → plain s'.
Proof.
  intros Hinv Hs Hst.
  assert (∀ i t, threads (mon s) !! i = Some t → (∀ r, t ≠ Idle r) → ∀ task rest, phases s !! i ≠ Some (PRunTask task rest)) as Hnot.
  { intros i t Ht Hne task rest Hp. destruct (Hs _ _ Hp) as (_ & r & Hr). simplify_eq. by destruct (Hne r). }
  assert (∀ i t, threads (mon s) !! i = Some t → i < length (threads (mon s))) as Hlt by (intros; by eapply lookup_lt_Some).
  assert (∀ i p, phases s !! i = Some p → ∃ t, threads (mon s) !! i = Some t ∧ linked p t) as Hph by apply Hinv.
  destruct Hst as [i s s' Ha|s i cond c Hi].
  2: { eapply (plain_insert s i (Entering c) _ _ PInit); [done|apply woken_refl|done| |eauto]. right. split; [done|]. by eapply Hnot. }
  destruct Ha as [s Hp|s r Hp Hr' Ht|s Hp Hr'|s task x rest r Hp Ht|s task r Hp Ht|s r c Hp Ht Hc|s c cond Ht Hsec|
    s c p r ns ths Ht Hsec Hn].
  - destruct (Hph i _ Hp) as (t & Ht & _). eapply (plain_insert s i t _ _ PTest); [done|by apply insert_same|done|by left|eauto].
  - eapply (plain_insert s i (Entering PoolTake) _ _ PTake); [done|apply woken_refl|done|by left|eauto].
  - destruct (Hph i _ Hp) as (t & Ht & _). eapply (plain_insert s i t _ _ PEnd); [done|by apply insert_same|done|by left|eauto].
  - by destruct (Hs _ _ Hp).
  - eapply (plain_insert s i (Idle r) _ _ PTest); [done|by apply insert_same|done|by left|eauto].
  - eapply (plain_insert s i (Entering c) _ _ PInit); [done|apply woken_refl|done| |eauto]. right. split; [done|]. congruence.
  - eapply (plain_insert s i (Waiting cond c) _ _ PInit); [done|apply woken_refl|done| |eauto]. right. split; [done|]. by eapply Hnot.
  - assert (running_ (pool s) = false → running_ p = false) as Hr.
    { intros Hr. destruct (running_ p) eqn:E; [|done]. by rewrite (section_running _ _ _ _ _ Hsec E) in Hr. }
    destruct (phases s !! i) as [ph|] eqn:Hp.
    + rewrite (alter_Some _ _ _ ph) by done. destruct (Hph i ph Hp) as (t & Ht' & Hk). simplify_eq.
      eapply (plain_insert s i (Idle (Some r)) _ _ (after_section ph r)); [done|by eapply notifies_all_woken|done| |eauto].
      left. split; [done|]. destruct ph as [| | |task rest|], c, r; cbn in *; try done; [|by destruct (Hs _ _ Hp) as (_ & ? & ?); simplify_eq..].
      split; [apply Hbody|by eexists].
    + rewrite alter_None by done.
      eapply (plain_insert s i (Idle (Some r)) _ _ PInit); [done|by eapply notifies_all_woken|done| |eauto].
      right. split; [done|]. congruence.
Qed.

Definition drain_weight (p : Phase) (t : PThread) : nat :=
  match p with
  | PEnd => 0
  | PInit => 4
  | PTest => 3
  | PTake => if t is Waiting _ _ then 0 else 2
  | PRunTask _ _ => 5
  end.
Definition drain_work : Pool → nat := work drain_weight (λ _, 10).

(** What draining keeps. *)
Record draining (s : Pool) : Prop := {
  drain_inv : run_inv s;
  drain_plain : plain s;
  drain_running : running_ (pool s) = true;
  drain_some : 0 < length (phases s)
}.

(** A step of a worker towards an empty queue. *)
Definition drains (s s' : Pool) : Prop :=
  workers_step s s' ∧ drain_work s' < drain_work s ∧ running_ (pool s') = true ∧
  length (phases s') = length (phases s) ∧ queued_order (pool s') = queued_order (pool s).

Lemma draining_step s s' : draining s → drains s s' → draining s'.
Proof.
  intros [H1 H2 H3 H4] ((i & Hi & Ha) & _ & Hr & Hl & _). split; [by eapply act_inv| |done|lia].
  eapply plain_step; [done|done|by eapply pool_act].
Qed.

Lemma drain_take s i task rest :
  draining s → phases s !! i = Some PTake → threads (mon s) !! i = Some (Entering PoolTake) →
  queue_ (pool s) = task :: rest → ∃ s', drains s s'.
Proof.
  intros [Hs Hpl Hr _] Hp Hi Hq.
  assert (section PoolTake (pool s) = Return (dequeue (pool s) task rest) (Some task)
    (if 0 <? maxQueueSize_ (pool s) then [NotifyOne pool_notFull] else [])) as Hsec.
  { unfold section, pool_ops. cbn. unfold pool_take. by rewrite Hq. }
  set (ns := if 0 <? maxQueueSize_ (pool s) then [NotifyOne pool_notFull] else []) in Hsec.
  set (ths1 := <[ i := Idle (Some (Some task)) ]> (threads (mon s))).
  destruct (notifies_all_exists ns ths1) as [ths Hn].
  assert (∀ j, j < length (phases s) → ths !! j = ths1 !! j) as Hsame.
  { intros j Hj. subst ns. destruct (0 <? maxQueueSize_ (pool s)); [|by inversion Hn].
    apply notifies_single, notify_one_cases in Hn as [[_ ->]|(k & c & Hk & ->)]; [done|].
    apply list_lookup_insert_ne. intros ->. subst ths1. pose proof Hk as [?|Hk']%insert_waiting; [done|].
    destruct (lookup_lt_is_Some_2 _ _ Hj) as [ph Hph]. destruct (phase_thread s j ph Hs Hph) as (t & Ht & Hl). simplify_eq.
    destruct (pool_waiting_ok _ _ _ _ _ (wake_threads _ (run_wake s Hs)) Hk') as [[_ ?]|[[x ->] _]]; [done|].
    destruct ph as [| | |task' rest'|]; try done. destruct (Hpl _ _ Hph) as (_ & r & ?). congruence. }
  eexists. split_and!.
  - exists i. split; [by eapply lookup_lt_Some|]. by eapply act_return.
  - unfold drain_work, work, pool. cbn. rewrite (alter_Some _ _ _ PTake) by done.
    rewrite (zip_same _ _ ths1) by (rewrite length_insert; exact Hsame).
    pose proof (zip_insert drain_weight _ _ _ (PRunTask task (body task)) _ _ (Idle (Some (Some task))) Hp Hi) as Hz.
    unfold pool in Hq. rewrite Hq. cbn in *. fold ths1 in Hz. lia.
  - exact Hr.
  - cbn. by rewrite length_alter.
  - done.
Qed.

Lemma drain_progress s :
  draining s → queue_ (pool s) ≠ [] ∨ in_progress s ≠ [] → ∃ s', drains s s'.
Proof.
  intros Hd Hw. pose proof Hd as [Hs Hpl Hr Hn].
  assert (∀ i task rest, phases s !! i = Some (PRunTask task rest) → ∃ s', drains s s') as Hfinish.
  { intros i task rest Hp. destruct (Hpl _ _ Hp) as (-> & r & Hi). eexists. split_and!.
    - exists i. split; [by eapply lookup_lt_Some|by eapply act_finish].
    - rewrite (mon_eta s i (Idle r)) by done. eapply work_change; [done..|]. cbn. lia.
    - exact Hr.
    - cbn. unfold set_phase. by rewrite length_insert.
    - done. }
  destruct (in_progress s) as [|task l] eqn:Hip.
  2: { assert (task ∈ in_progress s) as Hin by (rewrite Hip; by left). apply list_elem_of_omap in Hin as (p & Hin & Hp).
       destruct p as [| | |task' rest|]; try done. apply list_elem_of_lookup in Hin as [i Hi]. by eapply Hfinish. }
  destruct Hw as [Hq|]; [|done]. destruct (queue_ (pool s)) as [|task rest] eqn:Eq; [done|].
  (* the first worker, or one that is about to take *)
  destruct (lookup_lt_is_Some_2 _ _ Hn) as [p Hp]. destruct (phase_thread s 0 p Hs Hp) as (t & Ht & Hl).
  destruct p as [| | |task' rest'|].
  - eexists. split_and!; [exists 0; split; [done|by apply act_init]| |exact Hr|cbn; unfold set_phase; by rewrite length_insert|done].
    rewrite (mon_eta s 0 t) by done. eapply work_change; [done..|]. cbn. lia.
  - destruct t as [| |r]; try done.
    eexists. split_and!; [exists 0; split; [done|by eapply act_again]| |exact Hr|cbn; unfold set_phase; by rewrite length_insert|done].
    eapply work_change; [done..|]. cbn. lia.
  - assert (∃ j, phases s !! j = Some PTake ∧ threads (mon s) !! j = Some (Entering PoolTake)) as (j & Hpj & Htj).
    { destruct t as [[]|cond []|]; try done; [by exists 0|].
      pose proof (wake_takers _ (run_wake s Hs)) as Htk. unfold pool in *. rewrite Eq in Htk.
      destruct (pool_waiting_ok _ _ _ _ _ (wake_threads _ (run_wake s Hs)) Ht) as [[_ ->]|[[? ?] _]]; [|done].
      destruct (count_pos taking (threads (mon s))) as (j & t & Hj & Hjt).
      { assert (count (waits_on pool_notEmpty) (threads (mon s)) ≠ 0) as Hne.
        { intros Hz. pose proof (proj1 (count_elem _ _) Hz _ _ Ht) as Hf. done. }
        cbn in Htk. lia. }
      exists j. destruct t as [[]|cond c|r]; try done. split; [|done].
      destruct (phases s !! j) as [pj|] eqn:Hpj.
      - destruct (phase_thread s j pj Hs Hpj) as (t & Ht' & Hl'). simplify_eq. by destruct pj.
      - by destruct (run_others s Hs j _ Hpj Hj). }
    by eapply drain_take.
  - by eapply Hfinish.
  - pose proof (Hpl _ _ Hp) as Hf. cbn in Hf. congruence.
Qed.

(** A pool with workers does its work.  As long as it is not stopped, and
    tasks do not themselves call [run], the workers alone come from any state
    the pool can get to in finitely many steps to one where the queue is empty
    and every task that was ever queued has been run to its end, once. *)
Theorem pool_drains maxSize n callers s :
  rtc pool_step (Pool_start maxSize (S n) callers) s → running_ (pool s) = true →
  ∃ s', rtc workers_step s s' ∧ queue_ (pool s') = [] ∧ in_progress s' = [] ∧
    finished s' ≡ₚ queued_order (pool s).
Proof.
  intros Hreach Hr.
  assert (draining s) as Hd.
  { assert (∀ s0, run_inv s0 ∧ plain s0 ∧ length (phases s0) = S n → rtc pool_step s0 s →
      run_inv s ∧ plain s ∧ length (phases s) = S n) as Hall.
    { clear Hreach Hr. intros s0 H0 Hrtc. induction Hrtc as [|s1 s2 s3 Hst _ IH]; [done|]. apply IH. destruct H0 as (H1 & H2 & H3).
      split_and!; [by eapply pool_step_inv|by eapply plain_step|]. rewrite <- H3.
      destruct Hst as [i s1 s2 Ha|]; [|done]. destruct Ha; cbn; unfold set_phase; by rewrite ?length_insert, ?length_alter. }
    destruct (Hall (Pool_start maxSize (S n) callers)) as (H1 & H2 & H3); [|done|].
    - split_and!; [apply run_inv_start| |cbn; by rewrite length_replicate].
      intros i p [-> _]%lookup_replicate. done.
    - split; try done. lia. }
  clear Hreach Hr. remember (drain_work s) as w eqn:Hw. revert s Hd Hw. induction (lt_wf w) as [w _ IH]. intros s Hd ->.
  destruct (decide (queue_ (pool s) ≠ [] ∨ in_progress s ≠ [])) as [Hleft|Hdone].
  - destruct (drain_progress s Hd Hleft) as [s1 H1]. pose proof H1 as (Hst & Hlt & _ & _ & Ho).
    destruct (IH _ Hlt s1) as (s2 & Hs2 & Hq2 & Hp2 & Hf2); [by eapply draining_step|done|].
    exists s2. split_and!; [by eapply rtc_l|done|done|]. by rewrite Hf2, Ho.
  - exists s. assert (queue_ (pool s) = []) as Hq by (destruct (queue_ (pool s)); [done|]; exfalso; apply Hdone; by left).
    assert (in_progress s = []) as Hp by (destruct (in_progress s); [done|]; exfalso; apply Hdone; by right).
    split_and!; [done..|]. destruct Hd as [Hs _ _ _]. pose proof (run_tasks s Hs) as Ht.
    pose proof (pool_fifo _ (run_pool s Hs)) as Hf. unfold pool in *. rewrite Hf, Hq, app_nil_r, Ht, Hp. by rewrite app_nil_r.
Qed.
End Drain.
End Body.

(** ** Pools at work *)

(** A pool with one worker, one caller and room for one task in the queue: the
    worker has taken task 7, the caller has put task 8. *)
Definition busy_pool (rest : list Z) : Pool :=
  mkPool (mkMonitor (mkThreadPool [8%Z] 1 true [7%Z; 8%Z] [7%Z]) [Idle (Some (Some 7%Z)); Idle (Some None)])
    [PRunTask 7 rest] [].

Ltac thread_acts i := eapply rtc_l; [apply (pool_act _ i)|].
Ltac unheard := eapply notifies_cons; [by apply notify_none|apply notifies_nil].

Lemma busy_reached body : rtc (pool_step body) (Pool_start 1 1 1) (busy_pool (body 7%Z)).
Proof.
  thread_acts 1; [by apply (act_call _ _ _ None (PoolRun 7))|].
  thread_acts 1; [eapply act_return; [reflexivity|reflexivity|unheard]|].
  thread_acts 0; [by apply act_init|].
  thread_acts 0; [by eapply act_again|].
  thread_acts 0; [eapply act_return; [reflexivity|reflexivity|unheard]|].
  thread_acts 1; [by eapply (act_call _ _ _ (Some None) (PoolRun 8))|].
  thread_acts 1; [eapply act_return; [reflexivity|reflexivity|unheard]|].
  apply rtc_refl.
Qed.

(** The caller stops it. *)
Definition stopped_pool : Pool :=
  mkPool (mkMonitor (mkThreadPool [8%Z] 1 false [7%Z; 8%Z] [7%Z]) [Idle (Some (Some 7%Z)); Idle (Some None)])
    [PRunTask 7 []] [].

Definition no_runs (task : Z) : list Z := [].

Lemma stopped_reached : rtc (pool_step no_runs) (Pool_start 1 1 1) stopped_pool.
Proof.
  etransitivity; [apply busy_reached|].
  thread_acts 1; [by eapply (act_call _ _ _ (Some None) PoolStop)|].
  thread_acts 1; [eapply act_return; [reflexivity|reflexivity|]|apply rtc_refl].
  eapply notifies_cons; [apply notify_all|]. eapply notifies_cons; [apply notify_all|]. apply notifies_nil.
Qed.

Lemma pool_tasks_once_witness :
  started (pool (busy_pool [])) ≡ₚ [] ++ in_progress (busy_pool []) ∧ in_progress (busy_pool []) = [7%Z].
Proof. split; [apply (pool_tasks_once no_runs 1 0 1 (busy_pool [])); apply busy_reached|done]. Defined.

Lemma pool_stops_witness : ∃ s', rtc (workers_step no_runs) stopped_pool s' ∧ all_ended s'.
Proof. apply (pool_stops no_runs 1 0 1 stopped_pool); [apply stopped_reached|done]. Defined.

Lemma pool_drains_witness :
  ∃ s', rtc (workers_step no_runs) (busy_pool []) s' ∧ queue_ (pool s') = [] ∧ finished s' ≡ₚ [7%Z; 8%Z].
Proof.
  destruct (pool_drains no_runs (λ _, eq_refl) 1 0 1 (busy_pool [])) as (s' & Hs' & Hq & _ & Hf);
    [apply busy_reached|done|]. by exists s'.
Defined.

(** [stop] does not wait for the queue: task 8 is never run. *)
Lemma stop_leaves_tasks :
  ∃ s, rtc (workers_step no_runs) stopped_pool s ∧ all_ended s ∧ queue_ (pool s) = [8%Z] ∧ finished s = [7%Z].
Proof.
  eexists. split_and!.
  - eapply rtc_l; [exists 0; split; [cbn; lia|by eapply act_finish]|].
    eapply rtc_l; [exists 0; split; [cbn; lia|by eapply act_leave]|]. apply rtc_refl.
  - by repeat constructor.
  - done.
  - done.
Qed.

(** A task that calls [run] on a full queue waits for a worker: when it runs in the
    only one, the pool is stuck for good. *)
Lemma nested_run_deadlocks :
  ∃ s, rtc (pool_step (λ _, [9%Z])) (Pool_start 1 1 1) s ∧ queue_ (pool s) = [8%Z] ∧
    ∀ s', ¬ workers_step (λ _, [9%Z]) s s'.
Proof.
  eexists. split_and!.
  - etransitivity; [apply (busy_reached (λ _, [9%Z]))|].
    thread_acts 0; [by eapply act_submit|].
    thread_acts 0; [by eapply (act_wait _ _ _ (PoolRun 9))|]. apply rtc_refl.
  - done.
  - intros s' (i & Hi & Ha). assert (i = 0) as -> by (cbn in Hi; lia). by inversion Ha; simplify_eq.
Qed.
