(* ===== verification/Date.v ===== *)
(** * Dates (muduo/base/Date.h, Date.cc)

    A [Date] is its Julian day number, an [int].  The conversions are computed
    in [int] arithmetic: division truncates, and an intermediate result that
    does not fit in 32 bits is undefined behaviour.  They are related to the
    Gregorian calendar, written down independently below. *)
From stdpp Require Import base numbers list.
From S2P Require Import Prelude.
Open Scope Z_scope.
Open Scope muduo_scope.

(** ** [int] arithmetic *)

Definition checked_i32 (z : Z) : outcome Z :=
  if (- 2 ^ 31 <=? z) && (z <? 2 ^ 31) then Ok z else Fault Undefined.

Definition iadd (x y : Z) : outcome Z := checked_i32 (x + y).
Definition isub (x y : Z) : outcome Z := checked_i32 (x - y).
Definition imul (x y : Z) : outcome Z := checked_i32 (x * y).

(** ** The class *)

Record YearMonthDay := mkYearMonthDay { year : Z; month : Z; day : Z }.

#[export] Instance YearMonthDay_eq_dec : EqDecision YearMonthDay.
Proof. solve_decision. Defined.

Definition kDaysPerWeek : Z := 7.

Definition getJulianDayNumber (year month day : Z) : outcome Z :=
  t ← isub 14 month;
  let a := Z.quot t 12 in
  y ← iadd year 4800; y ← isub y a;
  m ← imul 12 a; m ← iadd month m; m ← isub m 3;
  t ← imul 153 m; t ← iadd t 2; r ← iadd day (Z.quot t 5);
  t ← imul y 365; r ← iadd r t;
  r ← iadd r (Z.quot y 4);
  r ← isub r (Z.quot y 100);
  r ← iadd r (Z.quot y 400);
  isub r 32045.

Definition getYearMonthDay (julianDayNumber : Z) : outcome YearMonthDay :=
  a ← iadd julianDayNumber 32044;
  t ← imul 4 a; t ← iadd t 3;
  let b := Z.quot t 146097 in
  t ← imul b 146097; c ← isub a (Z.quot t 4);
  t ← imul 4 c; t ← iadd t 3;
  let d := Z.quot t 1461 in
  t ← imul 1461 d; e ← isub c (Z.quot t 4);
  t ← imul 5 e; t ← iadd t 2;
  let m := Z.quot t 153 in
  t ← imul 153 m; t ← iadd t 2; t ← isub e (Z.quot t 5); ymd_day ← iadd t 1;
  t ← iadd m 3; u ← imul 12 (Z.quot m 10); ymd_month ← isub t u;
  t ← imul b 100; t ← iadd t d; t ← isub t 4800; ymd_year ← iadd t (Z.quot m 10);
  mret (mkYearMonthDay ymd_year ymd_month ymd_day).

(** [getJulianDayNumber(1970, 1, 1)]. *)
Definition kJulianDayOf1970_01_01 : outcome Z := getJulianDayNumber 1970 1 1.

(** [Date], [Date(year, month, day)] and [Date(julianDayNum)]. *)
Definition Date := Z.
Definition Date_default : Date := 0.
Definition Date_of_ymd (y m d : Z) : outcome Date := getJulianDayNumber y m d.
Definition Date_of_julian (julianDayNum : Z) : Date := julianDayNum.

Definition valid (d : Date) : bool := 0 <? d.
Definition julianDayNumber (d : Date) : Z := d.
Definition yearMonthDay (d : Date) : outcome YearMonthDay := getYearMonthDay d.
Definition weekDay (d : Date) : outcome Z := t ← iadd d 1; mret (Z.rem t kDaysPerWeek).
Definition date_ltb (x y : Date) : bool := julianDayNumber x <? julianDayNumber y.
Definition date_eqb (x y : Date) : bool := julianDayNumber x =? julianDayNumber y.

(** ** The Gregorian calendar *)

Definition is_leap (y : Z) : bool :=
  (y mod 4 =? 0) && (negb (y mod 100 =? 0) || (y mod 400 =? 0)).

Definition days_in_month (y m : Z) : Z :=
  if m =? 2 then (if is_leap y then 29 else 28)
  else if bool_decide (m ∈ [4; 6; 9; 11]) then 30 else 31.

Definition valid_ymd (d : YearMonthDay) : Prop :=
  1 ≤ month d ≤ 12 ∧ 1 ≤ day d ≤ days_in_month (year d) (month d).

Definition next_day (d : YearMonthDay) : YearMonthDay :=
  if day d <? days_in_month (year d) (month d) then mkYearMonthDay (year d) (month d) (day d + 1)
  else if month d <? 12 then mkYearMonthDay (year d) (month d + 1) 1
  else mkYearMonthDay (year d + 1) 1 1.

(** The days and years for which the [int] arithmetic is exact. *)
Definition julian_in_range (j : Z) : Prop := -31738 ≤ j ≤ 536838866.
Definition year_in_range (y : Z) : Prop := -4799 ≤ y ≤ 1465201.

(** ** The computation without machine arithmetic

    Years start in March: [b] centuries, [d] years, then [e] days. *)

Definition march_days (b d e : Z) : Z := 146097 * b / 4 + 1461 * d / 4 + e.
Definition month_start (m : Z) : Z := (153 * m + 2) / 5.

(** The day [e] exists in year [100 b + d]. *)
Definition march_day_ok (b d e : Z) : Prop :=
  0 ≤ b ∧ 0 ≤ d ≤ 99 ∧ 0 ≤ e ≤ 365 ∧
  (e = 365 → d mod 4 = 3 ∧ (d = 99 → b mod 4 = 3)).

Ltac euclid := Z.to_euclidean_division_equations; lia.

Lemma checked_i32_ok z : - 2 ^ 31 ≤ z < 2 ^ 31 → checked_i32 z = Ok z.
Proof. intros. unfold checked_i32. rewrite (proj2 (Z.leb_le _ _)), (proj2 (Z.ltb_lt _ _)) by lia. done. Qed.

Lemma march_century b d e : march_day_ok b d e → (4 * march_days b d e + 3) / 146097 = b.
Proof.
  unfold march_day_ok, march_days. intros (? & ? & ? & Hleap). symmetry.
  apply Z.div_unique with (r := 4 * (146097 * b / 4 + 1461 * d / 4 + e) + 3 - 146097 * b); [|lia].
  left. destruct (decide (e = 365)) as [->|]; [destruct (Hleap eq_refl) as [? Hd]|].
  - destruct (decide (d = 99)) as [->|]; [specialize (Hd eq_refl)|]; euclid.
  - euclid.
Qed.

Lemma march_year d e : 0 ≤ d ≤ 99 → 0 ≤ e ≤ 365 → (e = 365 → d mod 4 = 3) →
  (4 * (1461 * d / 4 + e) + 3) / 1461 = d.
Proof.
  intros ? ? Hleap. symmetry.
  apply Z.div_unique with (r := 4 * (1461 * d / 4 + e) + 3 - 1461 * d); [|lia].
  left. destruct (decide (e = 365)) as [->|]; [specialize (Hleap eq_refl)|]; euclid.
Qed.

(** Every day number is a day of some year. *)
Lemma march_days_exists a :
  0 ≤ a → ∃ b d e, march_day_ok b d e ∧ a = march_days b d e ∧
    b = (4 * a + 3) / 146097 ∧ d = (4 * (a - b * 146097 / 4) + 3) / 1461 ∧
    e = a - b * 146097 / 4 - 1461 * d / 4.
Proof.
  intros Ha. set (b := (4 * a + 3) / 146097). set (c := a - b * 146097 / 4).
  set (d := (4 * c + 3) / 1461). set (e := c - 1461 * d / 4).
  assert (0 ≤ b ∧ 146097 * b ≤ 4 * a + 3 < 146097 * b + 146097) as (? & ?) by (subst b; euclid).
  assert (0 ≤ c ∧ 4 * c + 3 < 146100 ∧ (b mod 4 ≠ 3 → 4 * c + 3 < 146097)) as (? & ? & ?)
    by (subst c; clearbody b; euclid).
  assert (0 ≤ d ≤ 99 ∧ 1461 * d ≤ 4 * c + 3 < 1461 * d + 1461) as (? & ?)
    by (subst d; clearbody c; euclid).
  exists b, d, e. unfold march_day_ok, march_days.
  assert (0 ≤ e ≤ 365 ∧ (e = 365 → d mod 4 = 3 ∧ (d = 99 → b mod 4 = 3))) by (subst e; clearbody d c; euclid).
  rewrite (Z.mul_comm 146097 b). split_and!; try done; lia.
Qed.

(** The month and day of month of the [e]-th day of a year that starts in March. *)
Lemma month_of_day e :
  0 ≤ e ≤ 365 → let m := (5 * e + 2) / 153 in
  0 ≤ m ≤ 11 ∧ month_start m ≤ e < month_start (m + 1).
Proof. intros He m. unfold month_start. subst m. euclid. Qed.

Lemma day_of_month m e : 0 ≤ m ≤ 11 → month_start m ≤ e < month_start (m + 1) → e ≤ 366 →
  (5 * e + 2) / 153 = m.
Proof. unfold month_start. intros. euclid. Qed.

(** Years and months of the calendar as years that start in March. *)
Definition march_shift (mo : Z) : Z := if mo <=? 2 then 1 else 0.
Definition march_month (mo : Z) : Z := mo + 12 * march_shift mo - 3.

Lemma month_length y mo : 1 ≤ mo ≤ 12 → mo ≠ 2 →
  days_in_month y mo = month_start (march_month mo + 1) - month_start (march_month mo).
Proof.
  intros Hm H2. assert (mo ∈ [1; 3; 4; 5; 6; 7; 8; 9; 10; 11; 12]) as Hin.
  { rewrite !elem_of_cons. lia. }
  clear Hm H2. repeat (apply elem_of_cons in Hin as [->|Hin]; [reflexivity|]).
  by apply elem_of_nil in Hin.
Qed.

Lemma leap_march b d : 0 ≤ d ≤ 99 →
  is_leap (100 * b + d + 1 - 4800) = (d mod 4 =? 3) && (negb (d =? 99) || (b mod 4 =? 3)).
Proof. intros. unfold is_leap. apply eq_true_iff_eq.
  rewrite !andb_true_iff, !orb_true_iff, !negb_true_iff, !Z.eqb_neq, !Z.eqb_eq. euclid. Qed.

(** Run a chain of [int] operations that stay in range. *)
Lemma checked_bind {A} z (f : Z → outcome A) : - 2 ^ 31 ≤ z < 2 ^ 31 → checked_i32 z ≫= f = f z.
Proof. intros. by rewrite checked_i32_ok. Qed.
Ltac in_int := etrans; [apply checked_bind; first [lia|euclid]|cbv beta zeta].

Lemma quot_pos x k : 0 ≤ x → 0 < k → Z.quot x k = x / k.
Proof. intros. by apply Z.quot_div_nonneg. Qed.

Definition march_ymd (y mo dy : Z) : Z :=
  let y' := y + 4800 - march_shift mo in
  march_days (y' / 100) (y' mod 100) (month_start (march_month mo) + dy - 1).

Lemma century_days y : 0 ≤ y →
  146097 * (y / 100) / 4 + 1461 * (y mod 100) / 4 = 365 * y + y / 4 - y / 100 + y / 400.
Proof. intros. euclid. Qed.

Lemma getJulianDayNumber_spec y mo dy :
  year_in_range y → 1 ≤ mo ≤ 12 → 0 ≤ dy ≤ 31 →
  getJulianDayNumber y mo dy = Ok (march_ymd y mo dy - 32044).
Proof.
  unfold year_in_range. intros Hy Hmo Hdy. unfold getJulianDayNumber, isub, iadd, imul.
  assert (Z.quot (14 - mo) 12 = march_shift mo) as Ha.
  { rewrite quot_pos by lia. unfold march_shift. destruct (Z.leb_spec mo 2); euclid. }
  in_int. rewrite Ha. assert (0 ≤ march_shift mo ≤ 1) as Hs by (unfold march_shift; case_match; lia).
  assert (0 ≤ march_month mo ≤ 11) as Hm.
  { unfold march_month, march_shift. destruct (Z.leb_spec mo 2); lia. }
  unfold march_month in Hm. do 7 in_int.
  unfold march_ymd. set (y' := y + 4800 - march_shift mo) in *. assert (0 ≤ y' ≤ 1470001) as Hy' by lia.
  rewrite !(quot_pos y') by lia. rewrite (quot_pos (153 * _ + 2)) by lia.
  change ((153 * (mo + 12 * march_shift mo - 3) + 2) / 5) with (month_start (march_month mo)).
  assert (0 ≤ month_start (march_month mo) ≤ 340) as Hms by (unfold month_start, march_month; euclid).
  clearbody y'. clear Ha Hy. do 6 in_int. rewrite checked_i32_ok by euclid.
  f_equal. unfold march_days. rewrite century_days by lia. lia.
Qed.

Lemma getYearMonthDay_spec b d e :
  march_day_ok b d e → b ≤ 14699 → march_days b d e ≤ 536870910 →
  let m := (5 * e + 2) / 153 in
  getYearMonthDay (march_days b d e - 32044) =
    Ok (mkYearMonthDay (b * 100 + d - 4800 + m / 10) (m + 3 - 12 * (m / 10)) (e - month_start m + 1)).
Proof.
  intros Hok Hb Ha m. pose proof Hok as (? & ? & ? & Hleap).
  pose proof (march_century _ _ _ Hok) as Hc.
  assert ((4 * (1461 * d / 4 + e) + 3) / 1461 = d) as Hd.
  { apply march_year; [done..|]. intros. by apply Hleap. }
  pose proof (month_of_day e ltac:(lia)) as [Hm He]. fold m in Hm, He.
  assert (0 ≤ march_days b d e) as Ha0 by (unfold march_days; euclid).
  assert (march_days b d e - b * 146097 / 4 = 1461 * d / 4 + e) as Hsub.
  { unfold march_days. rewrite (Z.mul_comm b). lia. }
  unfold getYearMonthDay, isub, iadd, imul. in_int. rewrite Z.sub_add.
  do 2 in_int. rewrite (quot_pos (4 * march_days b d e + 3) 146097), Hc by lia.
  in_int. rewrite (quot_pos (b * 146097)) by lia. rewrite Hsub. clear Hsub.
  assert (0 ≤ 1461 * d / 4 ≤ 36160) as Hd4 by euclid.
  do 3 in_int. rewrite (quot_pos _ 1461), Hd by lia.
  in_int. rewrite (quot_pos (1461 * d)) by lia.
  replace (1461 * d / 4 + e - 1461 * d / 4) with e by lia.
  do 3 in_int. rewrite (quot_pos _ 153) by lia. fold m.
  do 2 in_int. rewrite (quot_pos (153 * m + 2)) by lia. fold (month_start m).
  assert (0 ≤ m / 10 ≤ 1) by euclid. assert (0 ≤ month_start m) by (unfold month_start; euclid).
  rewrite (quot_pos m 10) by lia. do 9 in_int. done.
Qed.

(** ** The calendar *)

Lemma march_month_range mo : 1 ≤ mo ≤ 12 → 0 ≤ march_month mo ≤ 11.
Proof. intros. unfold march_month, march_shift. destruct (Z.leb_spec mo 2); lia. Qed.

(** A day of the calendar as a day of a year that starts in March ... *)
Lemma ymd_march d :
  valid_ymd d → -4799 ≤ year d →
  let y' := year d + 4800 - march_shift (month d) in
  let e := month_start (march_month (month d)) + day d - 1 in
  march_day_ok (y' / 100) (y' mod 100) e ∧ (5 * e + 2) / 153 = march_month (month d).
Proof.
  intros [Hmo Hdy] Hy y' e. pose proof (march_month_range _ Hmo) as Hm.
  assert (0 ≤ y' / 100) by (subst y'; unfold march_shift; case_match; euclid).
  assert (0 ≤ y' mod 100 ≤ 99) by euclid.
  destruct (decide (month d = 2)) as [H2|H2].
  - assert (march_month (month d) = 11) as E11 by (rewrite H2; done).
    assert (is_leap (year d) =
      (y' mod 100 mod 4 =? 3) && (negb (y' mod 100 =? 99) || ((y' / 100) mod 4 =? 3))) as Hleap.
    { rewrite <- leap_march by done. f_equal.
      pose proof (Z_div_mod_eq_full y' 100).
      assert (y' = year d + 4800 - 1) by (subst y'; by rewrite H2). lia. }
    subst e. rewrite E11. rewrite H2 in Hdy. change (month_start 11) with 337.
    unfold days_in_month in Hdy. change (2 =? 2) with true in Hdy. cbv iota in Hdy.
    destruct (is_leap (year d)); symmetry in Hleap.
    + apply andb_true_iff in Hleap as [?%Z.eqb_eq Hc]. apply orb_true_iff in Hc.
      rewrite negb_true_iff, Z.eqb_neq, Z.eqb_eq in Hc.
      split; [|euclid]. split_and!; try lia; intros; split; lia.
    + split; [|euclid]. split_and!; lia.
  - assert (march_month (month d) ≤ 10) by (unfold march_month, march_shift; destruct (Z.leb_spec (month d) 2); lia).
    rewrite month_length in Hdy by done. subst e.
    split; [|apply day_of_month; unfold month_start in *; euclid].
    split_and!; unfold month_start in *; euclid.
Qed.

(** ... and back. *)
Lemma march_ymd_valid b d e :
  march_day_ok b d e → let m := (5 * e + 2) / 153 in
  let ymd := mkYearMonthDay (b * 100 + d - 4800 + m / 10) (m + 3 - 12 * (m / 10)) (e - month_start m + 1) in
  valid_ymd ymd ∧ march_ymd (year ymd) (month ymd) (day ymd) = march_days b d e.
Proof.
  intros (Hb & Hd & He & Hleap) m ymd. pose proof (month_of_day e He) as [Hm Hme]. fold m in Hm, Hme.
  assert (m / 10 = march_shift (month ymd)) as Hsh.
  { unfold march_shift. cbn. destruct (Z.leb_spec (m + 3 - 12 * (m / 10)) 2); euclid. }
  assert (march_month (month ymd) = m) as Hmm by (unfold march_month; rewrite <- Hsh; cbn; lia).
  assert (1 ≤ month ymd ≤ 12) as Hmo by (cbn; euclid).
  split; [split; [done|]|].
  - destruct (decide (month ymd = 2)) as [H2|H2].
    + assert (m = 11) as E11 by (rewrite <- Hmm, H2; done).
      assert (is_leap (year ymd) = (d mod 4 =? 3) && (negb (d =? 99) || (b mod 4 =? 3))) as Hl.
      { rewrite <- leap_march by done. cbn. rewrite E11. change (11 / 10) with 1. f_equal. lia. }
      rewrite H2. unfold days_in_month. change (2 =? 2) with true. cbv iota. rewrite Hl.
      cbn [ymd day]. rewrite E11 in *. change (month_start 11) with 337 in *. change (month_start (11 + 1)) with 367 in *.
      destruct (decide (e = 365)) as [->|].
      * destruct (Hleap eq_refl) as [-> H99]. destruct (Z.eqb_spec d 99) as [->|]; cbn; [rewrite (H99 eq_refl)|]; cbn; lia.
      * case_match; lia.
    + rewrite month_length by done. rewrite Hmm. cbn. lia.
  - unfold march_ymd. rewrite Hmm, <- Hsh. cbn.
    replace (b * 100 + d - 4800 + m / 10 + 4800 - m / 10) with (d + b * 100) by lia.
    rewrite Z.div_add, Z.mod_add, (Z.div_small d), (Z.mod_small d) by lia. f_equal; lia.
Qed.

Lemma leap_year_days y : 0 ≤ y →
  let f y := 365 * y + y / 4 - y / 100 + y / 400 in
  f (y + 1) = f y + (if is_leap (y + 1 - 4800) then 366 else 365).
Proof.
  intros Hy f. subst f. cbv beta. unfold is_leap.
  destruct (Z.eqb_spec ((y + 1 - 4800) mod 4) 0), (Z.eqb_spec ((y + 1 - 4800) mod 100) 0),
    (Z.eqb_spec ((y + 1 - 4800) mod 400) 0); cbn; euclid.
Qed.

Lemma march_ymd_next d :
  valid_ymd d → -4799 ≤ year d →
  valid_ymd (next_day d) ∧
  march_ymd (year (next_day d)) (month (next_day d)) (day (next_day d)) =
    march_ymd (year d) (month d) (day d) + 1.
Proof.
  destruct d as [y mo dy]. intros [Hmo Hdy] Hy. cbn in *. unfold next_day, valid_ymd. cbn.
  assert (∀ y' mo', 28 ≤ days_in_month y' mo') as Hlen.
  { intros. unfold days_in_month. repeat case_match; lia. }
  destruct (Z.ltb_spec dy (days_in_month y mo)); cbn.
  { split; [lia|]. unfold march_ymd, march_days. lia. }
  pose proof (Hlen y (mo + 1)). pose proof (Hlen (y + 1) 1).
  assert (dy = days_in_month y mo) as -> by lia. clear Hdy.
  destruct (Z.ltb_spec mo 12); cbn [year month day]; (split; [lia|]); unfold march_ymd.
  - destruct (decide (mo = 2)) as [->|].
    + change (march_shift (2 + 1)) with 0. change (march_shift 2) with 1.
      change (march_month (2 + 1)) with 0. change (march_month 2) with 11.
      unfold march_days. rewrite !century_days by lia.
      pose proof (leap_year_days (y + 4800 - 1) ltac:(lia)) as Hl. cbv zeta beta in Hl.
      replace (y + 4800 - 1 + 1) with (y + 4800 - 0) in Hl by lia. rewrite Hl.
      unfold days_in_month. change (2 =? 2) with true. cbv iota.
      replace (y + 4800 - 0 - 4800) with y by lia. change (month_start 11) with 337.
      change (month_start 0) with 0. destruct (is_leap y); lia.
    + rewrite month_length by lia. assert (march_shift (mo + 1) = march_shift mo) as Hs.
      { unfold march_shift. destruct (Z.leb_spec (mo + 1) 2), (Z.leb_spec mo 2); lia. }
      assert (march_month (mo + 1) = march_month mo + 1) as -> by (unfold march_month; lia).
      rewrite Hs. unfold march_days. lia.
  - assert (mo = 12) as -> by lia. change (march_shift 1) with 1. change (march_shift 12) with 0.
    replace (y + 1 + 4800 - 1) with (y + 4800 - 0) by lia.
    change (march_month 1) with 10. change (march_month 12) with 9.
    change (days_in_month y 12) with 31.
    unfold march_days. change (month_start 10) with 306. change (month_start 9) with 275. lia.
Qed.

Lemma date_decode d :
  valid_ymd d → -4799 ≤ year d → march_ymd (year d) (month d) (day d) ≤ 536870910 →
  yearMonthDay (march_ymd (year d) (month d) (day d) - 32044) = Ok d.
Proof.
  intros Hv Hy Ha. destruct (ymd_march d Hv Hy) as [Hok Hm]. destruct Hv as [Hmo Hdy].
  unfold yearMonthDay, march_ymd in *. pose proof Hok as (Hb & Hd & He & _).
  rewrite getYearMonthDay_spec, Hm; [|done| |done].
  2: { unfold march_days in Ha. revert Ha Hb Hd He. generalize ((year d + 4800 - march_shift (month d)) / 100).
       generalize ((year d + 4800 - march_shift (month d)) mod 100).
       generalize (month_start (march_month (month d)) + day d - 1). clear. intros. euclid. }
  assert (march_month (month d) / 10 = march_shift (month d)) as ->.
  { unfold march_month, march_shift. destruct (Z.leb_spec (month d) 2); euclid. }
  destruct d as [y mo dy]; cbn in *. f_equal. f_equal; unfold march_month; try lia.
  pose proof (Z_div_mod_eq_full (y + 4800 - march_shift mo) 100). lia.
Qed.

Lemma next_day_year d : year d ≤ year (next_day d).
Proof. unfold next_day. repeat case_match; cbn; lia. Qed.

Lemma ymd_small d : valid_ymd d → 0 ≤ day d ≤ 31.
Proof. intros [_ Hd]. unfold days_in_month in Hd. repeat case_match; lia. Qed.

Lemma date_encode d : valid_ymd d → year_in_range (year d) →
  Date_of_ymd (year d) (month d) (day d) = Ok (march_ymd (year d) (month d) (day d) - 32044).
Proof. intros Hv Hy. apply getJulianDayNumber_spec; [done|by destruct Hv|by apply ymd_small]. Qed.

(** The first of January comes first. *)
Lemma year_day y mo dy :
  valid_ymd (mkYearMonthDay y mo dy) → -4799 ≤ y →
  0 ≤ march_ymd y mo dy - march_ymd y 1 1 ≤ (if is_leap y then 365 else 364).
Proof.
  intros Hv Hy. destruct (ymd_march _ Hv Hy) as [(_ & _ & He & _) Hm]. destruct Hv as [Hmo Hdy].
  cbn in *. unfold march_ymd, march_days. rewrite !century_days by (unfold march_shift; case_match; lia).
  change (march_shift 1) with 1. change (march_month 1) with 10. change (month_start 10) with 306.
  pose proof (leap_year_days (y + 4800 - 1) ltac:(lia)) as Hl. cbv zeta beta in Hl.
  replace (y + 4800 - 1 + 1) with (y + 4800) in Hl by lia. replace (y + 4800 - 4800) with y in Hl by lia.
  unfold march_shift in *. destruct (Z.leb_spec mo 2) as [H2|H2].
  - assert (mo = 1 ∨ mo = 2) as [->| ->] by lia.
    + change (days_in_month y 1) with 31 in Hdy. change (march_month 1) with 10. change (month_start 10) with 306.
      destruct (is_leap y); lia.
    + unfold days_in_month in Hdy. change (2 =? 2) with true in Hdy. cbv iota in Hdy.
      change (march_month 2) with 11. change (month_start 11) with 337. destruct (is_leap y); lia.
  - rewrite Z.sub_0_r, Hl. rewrite month_length in Hdy by lia.
    assert (0 ≤ month_start (march_month mo) ∧ month_start (march_month mo + 1) ≤ 306).
    { unfold march_month, march_shift in *. destruct (Z.leb_spec mo 2); [lia|]. unfold month_start. euclid. }
    destruct (is_leap y); lia.
Qed.

(** The date of a day number. *)
Lemma julian_date j :
  julian_in_range j →
  ∃ d, yearMonthDay j = Ok d ∧ valid_ymd d ∧ year_in_range (year d) ∧
       j = march_ymd (year d) (month d) (day d) - 32044.
Proof.
  unfold julian_in_range. intros Hj.
  destruct (march_days_exists (j + 32044) ltac:(lia)) as (b & dd & e & Hok & Ha & Hb & _ & _).
  destruct (march_ymd_valid _ _ _ Hok) as [Hv Heq]. cbv zeta in Hv, Heq.
  match type of Hv with valid_ymd ?x => set (d := x) in * end.
  assert (b ≤ 14699) as Hb' by (clear -Hb Hj; euclid).
  assert (year_in_range (year d)) as Hyr.
  { pose proof Hok as (? & ? & ? & _). pose proof (month_of_day e ltac:(lia)) as [? _].
    assert (b = 0 → dd = 0 → 10 ≤ (5 * e + 2) / 153).
    { intros -> ->. unfold march_days in Ha. cbn in Ha. clear -Ha Hj. euclid. }
    unfold year_in_range. subst d. cbn [year]. revert H2 H3. generalize ((5 * e + 2) / 153).
    clear -H H0 Hb'. intros. euclid. }
  exists d. assert (j = march_ymd (year d) (month d) (day d) - 32044) as Hjd by lia.
  split_and!; [|done..]. rewrite Hjd. apply date_decode; [done|apply Hyr|lia].
Qed.

(** C35. Dates.  The Julian day numbers and the calendar dates of [Date] are in
    one-to-one correspondence, for every day number from 1 January 4800 BC up to
    the year 1,465,000, without overflow: the date of a day number is a date
    of the Gregorian calendar, converting it back gives the number, no other
    date has that number, and the date of the next number is the next day of
    the calendar.  With 2440588 as 1 January 1970 this determines every date. *)
Theorem date_calendar j :
  julian_in_range j →
  ∃ d, yearMonthDay (Date_of_julian j) = Ok d ∧ valid_ymd d ∧
       Date_of_ymd (year d) (month d) (day d) = Ok j ∧
       (∀ d', valid_ymd d' → year_in_range (year d') →
          Date_of_ymd (year d') (month d') (day d') = Ok j → d' = d) ∧
       (julian_in_range (j + 1) → yearMonthDay (Date_of_julian (j + 1)) = Ok (next_day d)) ∧
       yearMonthDay (Date_of_julian 2440588) = Ok (mkYearMonthDay 1970 1 1).
Proof.
  intros Hj. destruct (julian_date j Hj) as (d & Hd & Hv & Hyr & Hjd). unfold julian_in_range in *.
  exists d. split_and!; [done|done| | | |done].
  - rewrite date_encode by done. by rewrite Hjd.
  - intros d' Hv' Hy' Hd'. rewrite date_encode in Hd' by done. injection Hd' as Hd'.
    assert (yearMonthDay j = Ok d') as E; [|congruence].
    rewrite <- Hd'. apply date_decode; [done|apply Hy'|lia].
  - intros Hj1. destruct (march_ymd_next d Hv (proj1 Hyr)) as [Hvn Hn].
    replace (j + 1) with (march_ymd (year (next_day d)) (month (next_day d)) (day (next_day d)) - 32044)
      by lia.
    unfold Date_of_julian. apply date_decode; [done| |lia].
    pose proof (next_day_year d). destruct Hyr. lia.
Qed.

Lemma date_calendar_witness :
  julian_in_range 2460370 ∧
  ∃ d, yearMonthDay (Date_of_julian 2460370) = Ok d ∧ yearMonthDay (Date_of_julian 2460371) = Ok (next_day d) ∧
       d = mkYearMonthDay 2024 2 29.
Proof.
  assert (julian_in_range 2460370) as Hr by (unfold julian_in_range; lia).
  split; [exact Hr|]. destruct (date_calendar 2460370 Hr) as (d & Hd & _ & _ & _ & Hn & _).
  exists d. split; [exact Hd|]. split; [apply Hn; unfold julian_in_range; lia|].
  vm_compute in Hd. congruence.
Defined.
