(* ===== verification/TimeZone.v ===== *)
(** * Time zones (muduo/base/TimeZone.h, TimeZone.cc)

    Conversions between seconds since the epoch and broken-down time, in UTC
    and in a zone read from a TZif file.  [::gmtime_r] and [::timegm] are
    parameters of the local conversions. *)
From Stdlib Require Import Strings.Byte.
From stdpp Require Import base numbers list strings.
From S2P Require Import Prelude Endian Timestamp Date.
Open Scope Z_scope.
Open Scope muduo_scope.

(** ** Data *)

Record Transition := mkTransition { gmttime : Z; localtime : Z; localtimeIdx : Z }.
Record Localtime := mkLocaltime { gmtOffset : Z; isDst : bool; arrbIdx : Z }.

(** [Comp(compareGmt)]. *)
Definition comp_time (compareGmt : bool) (t : Transition) : Z :=
  if compareGmt then gmttime t else localtime t.
Definition comp (compareGmt : bool) (lhs rhs : Transition) : bool :=
  comp_time compareGmt lhs <? comp_time compareGmt rhs.
Definition comp_equal (compareGmt : bool) (lhs rhs : Transition) : bool :=
  comp_time compareGmt lhs =? comp_time compareGmt rhs.

Record Data := mkData {
  transitions : list Transition;
  localtimes : list Localtime;
  names : list (list byte);
  abbreviation : list byte
}.
Definition Data_new : Data := mkData [] [] [] [].

(** [struct tm]. *)
Record tm := mktm {
  tm_sec : Z; tm_min : Z; tm_hour : Z; tm_mday : Z; tm_mon : Z; tm_year : Z;
  tm_wday : Z; tm_yday : Z; tm_isdst : Z; tm_gmtoff : Z; tm_zone : list byte
}.

Definition kSecondsPerDay : Z := 24 * 60 * 60.

(** ** UTC *)

Definition fillHMS (seconds : Z) : Z * Z * Z :=
  let minutes := seconds / 60 in (seconds mod 60, minutes mod 60, minutes / 60).

Definition toUtcTime (secondsSinceEpoch : Z) (yday : bool) : outcome tm :=
  let seconds := i32 (Z.rem secondsSinceEpoch kSecondsPerDay) in
  let days := i32 (Z.quot secondsSinceEpoch kSecondsPerDay) in
  '(seconds, days) ←
    (if seconds <? 0 then
       seconds ← iadd seconds kSecondsPerDay; days ← isub days 1; mret (seconds, days)
     else mret (seconds, days));
  let '(sec, min, hour) := fillHMS (u32 seconds) in
  epoch ← kJulianDayOf1970_01_01; j ← iadd days epoch;
  let date := Date_of_julian j in
  ymd ← yearMonthDay date;
  y ← isub (year ymd) 1900; mo ← isub (month ymd) 1; wday ← weekDay date;
  yd ← (if yday : bool then
          startOfYear ← Date_of_ymd (year ymd) 1 1;
          isub (julianDayNumber date) (julianDayNumber startOfYear)
        else mret 0);
  mret (mktm sec min hour (day ymd) mo y wday yd 0 0 (lit "GMT")).

Definition fromUtcTime_fields (year month day hour minute seconds : Z) : outcome Z :=
  date ← Date_of_ymd year month day;
  t ← imul hour 3600; u ← imul minute 60; t ← iadd t u; secondsInDay ← iadd t seconds;
  epoch ← kJulianDayOf1970_01_01; days ← isub (julianDayNumber date) epoch;
  t ← checked_i64 (days * kSecondsPerDay); checked_i64 (t + secondsInDay).

Definition fromUtcTime (utc : tm) : outcome Z :=
  y ← iadd (tm_year utc) 1900; mo ← iadd (tm_mon utc) 1;
  fromUtcTime_fields y mo (tm_mday utc) (tm_hour utc) (tm_min utc) (tm_sec utc).

(** ** Finding the local time type *)

(** [std::lower_bound]: the first position whose element is not before [value]. *)
Fixpoint lower_bound_loop (fuel : nat) (lt : Transition → Transition → bool)
    (l : list Transition) (value : Transition) (first len : nat) : nat :=
  match fuel with
  | O => first
  | S fuel =>
    match len with
    | O => first
    | _ =>
      let half := (len / 2)%nat in
      match l !! (first + half)%nat with
      | Some x =>
        if lt x value then lower_bound_loop fuel lt l value (S (first + half)) (len - half - 1)
        else lower_bound_loop fuel lt l value first half
      | None => first
      end
    end
  end.
Definition lower_bound lt (l : list Transition) value : nat :=
  lower_bound_loop (length l) lt l value 0 (length l).

(** An element of a vector; outside it, undefined behaviour. *)
Definition vector_at {A} (l : list A) (i : Z) : outcome A :=
  match (if 0 <=? i then l !! Z.to_nat i else None) with Some x => Ok x | None => Fault Undefined end.

Definition findLocaltime (data : Data) (sentry : Transition) (compareGmt : bool) : outcome Localtime :=
  match transitions data with
  | [] => vector_at (localtimes data) 0
  | front :: _ =>
    if comp compareGmt sentry front then vector_at (localtimes data) 0
    else
      let transI := lower_bound (comp compareGmt) (transitions data) sentry in
      match transitions data !! transI with
      | Some tr =>
        if comp_equal compareGmt sentry tr then vector_at (localtimes data) (localtimeIdx tr)
        else
          _ ← assertb 242 (negb (transI =? 0)%nat);
          prev ← vector_at (transitions data) (Z.of_nat transI - 1);
          vector_at (localtimes data) (localtimeIdx prev)
      | None =>
        back ← vector_at (transitions data) (size_of (transitions data) - 1);
        vector_at (localtimes data) (localtimeIdx back)
      end
  end.

Fixpoint c_string (s : list byte) : list byte :=
  match s with
  | [] => []
  | b :: s => if bool_decide (b = x00) then [] else b :: c_string s
  end.

(** [&data.abbreviation[idx]] as a C string. *)
Definition c_string_at (s : list byte) (i : Z) : outcome (list byte) :=
  if (0 <=? i) && (i <=? size_of s)
  then Ok (c_string (drop (Z.to_nat i) s))
  else Fault Undefined.

(** ** Local time *)
Section Local.
Context (gmtime_r : Z → tm) (timegm : tm → Z).

(** [data_] is the argument; [assert(data_ != NULL)]. *)
Definition toLocalTime (data_ : option Data) (seconds : Z) : outcome tm :=
  match data_ with
  | None => Fault (AssertFailure 281)
  | Some data =>
    local ← findLocaltime data (mkTransition seconds 0 0) true;
    localSeconds ← checked_i64 (seconds + gmtOffset local);
    let t := gmtime_r localSeconds in
    zone ← c_string_at (abbreviation data) (arrbIdx local);
    mret (mktm (tm_sec t) (tm_min t) (tm_hour t) (tm_mday t) (tm_mon t) (tm_year t) (tm_wday t) (tm_yday t)
            (if isDst local then 1 else 0) (gmtOffset local) zone)
  end.

Definition fromLocalTime (data_ : option Data) (localTm : tm) : outcome Z :=
  match data_ with
  | None => Fault (AssertFailure 301)
  | Some data =>
    let seconds := timegm localTm in
    local ← findLocaltime data (mkTransition 0 seconds 0) false;
    seconds ←
      (if negb (tm_isdst localTm =? 0) then
         t ← checked_i64 (seconds - gmtOffset local);
         tryTm ← toLocalTime data_ t;
         if (tm_isdst tryTm =? 0) && (tm_hour tryTm =? tm_hour localTm) && (tm_min tryTm =? tm_min localTm)
         then checked_i64 (seconds - 3600)
         else mret seconds
       else mret seconds);
    checked_i64 (seconds - gmtOffset local)
  end.
End Local.

(** ** Zone files *)

(** Reading a file: the bytes left, and the [Data] that is being filled; a
    [logic_error] is thrown with its message. *)
Inductive thrown (A : Type) := Value (a : A) | Throw (what : string).
Arguments Value {A} _.
Arguments Throw {A} _.

Definition reading (A : Type) : Type := list byte * Data → outcome (thrown A * (list byte * Data)).

#[export] Instance reading_ret : MRet reading := λ A a s, Ok (Value a, s).
#[export] Instance reading_bind : MBind reading := λ A B f m s,
  match m s with
  | Ok (Value a, s') => f a s'
  | Ok (Throw w, s') => Ok (Throw w, s')
  | Fault e => Fault e
  end.

Definition throw {A} (what : string) : reading A := λ s, Ok (Throw what, s).

(** [fread] of [n] bytes, all of them or what is left. *)
Definition fread (n : nat) (s : list byte * Data) : list byte * (list byte * Data) :=
  (take n s.1, (drop n s.1, s.2)).

Definition readBytes (n : Z) : reading (list byte) := λ s,
  if n <? 0 then Fault Undefined
  else
    let '(bs, s') := fread (Z.to_nat n) s in
    if size_of bs =? n then Ok (Value bs, s') else Ok (Throw "no enough data", s').

Section Files.
Context `{HostOrder}.

Definition readInt32 : reading Z := λ s,
  let '(bs, s') := fread 4 s in
  if size_of bs =? 4 then Ok (Value (i32 (betoh 4 (host_value bs))), s')
  else Ok (Throw "bad int32_t data", s').

Definition readUInt8 : reading Z := λ s,
  let '(bs, s') := fread 1 s in
  match bs with
  | [b] => Ok (Value (Z_of_byte b), s')
  | _ => Ok (Throw "bad uint8_t data", s')
  end.

(** [for (int i = 0; i < n; ++i)], collecting what the body reads. *)
Fixpoint repeat_read {A} (n : nat) (body : reading A) : reading (list A) :=
  match n with
  | O => mret []
  | S n => x ← body; xs ← repeat_read n body; mret (x :: xs)
  end.

Definition push_localtime (l : Localtime) : reading unit := λ s,
  let d := s.2 in
  Ok (Value tt, (s.1, mkData (transitions d) (localtimes d ++ [l]) (names d) (abbreviation d))).
Definition push_transition (t : Transition) : reading unit := λ s,
  let d := s.2 in
  Ok (Value tt, (s.1, mkData (transitions d ++ [t]) (localtimes d) (names d) (abbreviation d))).
Definition set_abbreviation (a : list byte) : reading unit := λ s,
  let d := s.2 in Ok (Value tt, (s.1, mkData (transitions d) (localtimes d) (names d) a)).

(** [data->localtimes[localIdx].gmtOffset]. *)
Definition offset_at (localIdx : Z) : reading Z := λ s,
  l ← vector_at (localtimes s.2) localIdx; mret (Value (gmtOffset l), s).

Definition read_localtime : reading unit :=
  gmtoff ← readInt32; isdst ← readUInt8; abbrind ← readUInt8;
  push_localtime (mkLocaltime gmtoff (negb (isdst =? 0)) abbrind).

Fixpoint push_transitions (trans idxs : list Z) : reading unit :=
  match trans, idxs with
  | t :: trans, localIdx :: idxs =>
    off ← offset_at localIdx;
    _ ← push_transition (mkTransition t (t + off) localIdx);
    push_transitions trans idxs
  | _, _ => mret tt
  end.

(** The body of the [try] block. *)
Definition read_zone : reading unit :=
  head ← readBytes 4;
  _ ← (if bool_decide (head = lit "TZif") then mret tt else throw "bad head");
  version ← readBytes 1;
  _ ← readBytes 15;
  isgmtcnt ← readInt32; isstdcnt ← readInt32; leapcnt ← readInt32;
  timecnt ← readInt32; typecnt ← readInt32; charcnt ← readInt32;
  _ ← (if timecnt <? 0 then throw "vector::reserve" else mret tt);
  trans ← repeat_read (Z.to_nat timecnt) readInt32;
  idxs ← repeat_read (Z.to_nat timecnt) readUInt8;
  _ ← repeat_read (Z.to_nat typecnt) read_localtime;
  _ ← push_transitions trans idxs;
  a ← readBytes charcnt;
  set_abbreviation a.

(** [file] is the contents of the file, [None] when it cannot be opened. *)
Definition readTimeZoneFile (file : option (list byte)) (data : Data) : outcome (bool * Data) :=
  match file with
  | Some bytes => '(_, (_, data')) ← read_zone (bytes, data); mret (true, data')
  | None => mret (true, data)
  end.

Definition TimeZone_of_file (file : option (list byte)) : outcome (option Data) :=
  '(ok, data) ← readTimeZoneFile file Data_new;
  mret (if ok : bool then Some data else None).

End Files.

Definition TimeZone_fixed (eastOfUtc : Z) (name : list byte) : option Data :=
  Some (mkData [] [mkLocaltime eastOfUtc false 0] [] name).

Definition valid (data_ : option Data) : bool := bool_decide (is_Some data_).

(** ** UTC conversions *)

Definition epoch_day : Z := 2440588.
Definition utc_in_range (s : Z) : Prop := julian_in_range (s / kSecondsPerDay + epoch_day).

Lemma i32_small x : - 2 ^ 31 ≤ x < 2 ^ 31 → i32 x = x.
Proof. intros. apply to_signed_small; [lia|]. unfold in_signed. cbn. lia. Qed.

(** Seconds and days by truncation and correction are the floored ones. *)
Lemma split_day {A} s (f : Z * Z → outcome A) :
  utc_in_range s →
  (if i32 (Z.rem s kSecondsPerDay) <? 0 then
     seconds ← iadd (i32 (Z.rem s kSecondsPerDay)) kSecondsPerDay;
     days ← isub (i32 (Z.quot s kSecondsPerDay)) 1; mret (seconds, days)
   else mret (i32 (Z.rem s kSecondsPerDay), i32 (Z.quot s kSecondsPerDay))) ≫= f =
  f (s mod kSecondsPerDay, s / kSecondsPerDay).
Proof.
  unfold utc_in_range, julian_in_range, epoch_day, kSecondsPerDay. intros Hs.
  change (24 * 60 * 60) with 86400 in *.
  rewrite !i32_small by (revert Hs; euclid).
  destruct (Z.ltb_spec (Z.rem s 86400) 0) as [Hneg|Hpos].
  - assert (Z.rem s 86400 + 86400 = s mod 86400 ∧ Z.quot s 86400 - 1 = s / 86400) as [E1 E2] by euclid.
    unfold iadd, isub. rewrite E1, E2, !checked_i32_ok by euclid. done.
  - assert (Z.rem s 86400 = s mod 86400 ∧ Z.quot s 86400 = s / 86400) as [-> ->] by euclid. done.
Qed.

Lemma epoch_is : kJulianDayOf1970_01_01 = Ok epoch_day.
Proof. by vm_compute. Qed.

Lemma checked_i64_bind {A} z (f : Z → outcome A) : - 2 ^ 63 ≤ z < 2 ^ 63 → checked_i64 z ≫= f = f z.
Proof. intros. by rewrite checked_i64_small. Qed.

(** What [fillHMS] does to a second of the day. *)
Lemma fillHMS_spec s : 0 ≤ s < kSecondsPerDay →
  let '(sec, min, hour) := fillHMS s in
  0 ≤ sec < 60 ∧ 0 ≤ min < 60 ∧ 0 ≤ hour < 24 ∧ s = hour * 3600 + min * 60 + sec.
Proof. unfold fillHMS, kSecondsPerDay. intros. euclid. Qed.

Lemma fromUtcTime_fields_spec y mo d h mi sec j :
  Date_of_ymd y mo d = Ok j → julian_in_range j →
  0 ≤ sec < 60 → 0 ≤ mi < 60 → 0 ≤ h < 24 →
  fromUtcTime_fields y mo d h mi sec = Ok ((j - epoch_day) * kSecondsPerDay + (h * 3600 + mi * 60 + sec)).
Proof.
  unfold julian_in_range, epoch_day, kSecondsPerDay. intros Hj Hr Hs Hm Hh. unfold fromUtcTime_fields. rewrite Hj, epoch_is.
  cbn [mbind outcome_bind]. unfold imul, iadd, isub, julianDayNumber, epoch_day, kSecondsPerDay.
  rewrite !checked_bind by lia. cbv beta. rewrite checked_i64_bind by lia.
  rewrite checked_i64_small by lia. done.
Qed.

(** [toUtcTime] of second [sec] of day [j], whose date is [d]. *)
Lemma toUtcTime_spec s yday d :
  utc_in_range s → let j := s / kSecondsPerDay + epoch_day in
  yearMonthDay j = Ok d → valid_ymd d → year_in_range (year d) →
  j = march_ymd (year d) (month d) (day d) - 32044 →
  let '(sec, mi, h) := fillHMS (s mod kSecondsPerDay) in
  toUtcTime s yday =
    Ok (mktm sec mi h (day d) (month d - 1) (year d - 1900) (Z.rem (j + 1) 7)
          (if yday : bool then j - (march_ymd (year d) 1 1 - 32044) else 0) 0 0 (lit "GMT")).
Proof.
  intros Hs j Hd Hv Hyr Hjd. unfold toUtcTime. rewrite split_day by done.
  rewrite to_unsigned_small by (unfold kSecondsPerDay; clear; euclid).
  destruct (fillHMS _) as [[sec mi] h]. rewrite epoch_is. cbn [mbind outcome_bind].
  unfold utc_in_range, julian_in_range in Hs. fold j in Hs.
  assert (1 ≤ month d ≤ 12) as Hmo by (by destruct Hv).
  unfold iadd, isub, weekDay, Date_of_julian, iadd, julianDayNumber, kDaysPerWeek.
  fold j. in_int. rewrite Hd. cbn [mbind outcome_bind]. pose proof Hyr as Hyr'. unfold year_in_range in Hyr'.
  do 2 in_int. rewrite (checked_i32_ok (j + 1)) by lia. cbn [mbind outcome_bind].
  destruct yday; [|done]. unfold Date_of_ymd. rewrite getJulianDayNumber_spec by (done || lia).
  cbn [mbind outcome_bind]. destruct (year_day (year d) (month d) (day d)) as [? ?]; [by destruct d|lia|].
  rewrite checked_i32_ok; [done|]. destruct (is_leap _); lia.
Qed.

(** The way back. *)
Lemma toUtcTime_inverse s yday :
  utc_in_range s → ∃ t, toUtcTime s yday = Ok t ∧ fromUtcTime t = Ok s.
Proof.
  intros Hs. destruct (julian_date _ Hs) as (d & Hd & Hv & Hyr & Hjd).
  pose proof (toUtcTime_spec s yday d Hs Hd Hv Hyr Hjd) as Ht.
  assert (0 ≤ s mod kSecondsPerDay < kSecondsPerDay) as Hsec by (unfold kSecondsPerDay; euclid).
  pose proof (fillHMS_spec _ Hsec) as Hf. destruct (fillHMS _) as [[sec mi] h]. destruct Hf as (? & ? & ? & Hhms).
  eexists. split; [exact Ht|]. pose proof Hyr as Hyr'. unfold year_in_range in Hyr'. pose proof Hv as [Hmo _].
  unfold fromUtcTime. cbn [tm_sec tm_min tm_hour tm_mday tm_mon tm_year]. unfold iadd.
  do 2 in_int. rewrite !Z.sub_add.
  erewrite fromUtcTime_fields_spec; [|by apply date_encode|by rewrite <- Hjd|done..].
  rewrite <- Hjd. f_equal. rewrite <- Hhms. unfold kSecondsPerDay. euclid.
Qed.

(** UTC conversions.  For every time within the range of [Date], before
    the epoch too, [toUtcTime] returns a time of day, a date of the Gregorian
    calendar, the right day of the week (1 January 1970 was a Thursday) and,
    if asked to, the day of the year; and [fromUtcTime] gives back exactly the
    same number of seconds. *)
Theorem utc_roundtrip s yday :
  utc_in_range s →
  ∃ t, toUtcTime s yday = Ok t ∧ fromUtcTime t = Ok s ∧
       0 ≤ tm_sec t < 60 ∧ 0 ≤ tm_min t < 60 ∧ 0 ≤ tm_hour t < 24 ∧
       s mod kSecondsPerDay = tm_hour t * 3600 + tm_min t * 60 + tm_sec t ∧
       valid_ymd (mkYearMonthDay (tm_year t + 1900) (tm_mon t + 1) (tm_mday t)) ∧
       (0 ≤ s → tm_wday t = (s / kSecondsPerDay + 4) mod 7) ∧
       (yday = true →
        0 ≤ tm_yday t ≤ (if is_leap (tm_year t + 1900) then 365 else 364) ∧
        Date_of_ymd (tm_year t + 1900) 1 1 = Ok (s / kSecondsPerDay + epoch_day - tm_yday t)).
Proof.
  intros Hs. pose proof Hs as Hj. unfold utc_in_range in Hj.
  destruct (julian_date _ Hj) as (d & Hd & Hv & Hyr & Hjd).
  pose proof (toUtcTime_spec s yday d Hs Hd Hv Hyr Hjd) as Ht.
  assert (0 ≤ s mod kSecondsPerDay < kSecondsPerDay) as Hsec by (unfold kSecondsPerDay; euclid).
  pose proof (fillHMS_spec _ Hsec) as Hf. destruct (fillHMS _) as [[sec mi] h]. destruct Hf as (? & ? & ? & Hhms).
  set (j := s / kSecondsPerDay + epoch_day) in *.
  eexists. split; [exact Ht|]. cbn [tm_sec tm_min tm_hour tm_mday tm_mon tm_year tm_wday tm_yday].
  rewrite !Z.sub_add. pose proof Hyr as Hyr'. unfold year_in_range in Hyr'. pose proof Hv as [Hmo _].
  split_and!; try done || lia.
  - destruct (toUtcTime_inverse s yday Hs) as (t' & Ht' & ?). congruence.
  - intros Hpos. assert (0 ≤ s / kSecondsPerDay) by (unfold kSecondsPerDay; euclid).
    subst j. unfold epoch_day. revert H2. generalize (s / kSecondsPerDay). intros. euclid.
  - intros ->. destruct (year_day (year d) (month d) (day d)) as [? ?]; [by destruct d|lia|].
    split; [lia|]. unfold Date_of_ymd. rewrite getJulianDayNumber_spec by (done || lia). f_equal. lia.
Qed.

(** One second before the epoch. *)
Lemma utc_roundtrip_witness :
  utc_in_range (-1) ∧
  ∃ t, toUtcTime (-1) true = Ok t ∧ fromUtcTime t = Ok (-1) ∧ tm_year t = 69 ∧ tm_yday t = 364.
Proof.
  assert (utc_in_range (-1)) as Hr by (vm_compute; by split).
  split; [exact Hr|]. destruct (utc_roundtrip (-1) true Hr) as (t & Ht & Hf & _).
  exists t. split; [exact Ht|]. split; [exact Hf|]. vm_compute in Ht. injection Ht as <-. by split.
Defined.
