(* ===== verification/TimeZoneSpec.v ===== *)
(** * Time zones: what the conversions and the file reader promise *)
From Stdlib Require Import Strings.Byte.
From stdpp Require Import base numbers list strings.
From S2P Require Import Prelude Endian Timestamp Date TimeZone.
Open Scope Z_scope.
Open Scope muduo_scope.

(** ** Binary search *)

Definition sorted_by (gmt : bool) (l : list Transition) : Prop :=
  ∀ i j x y, (i < j)%nat → l !! i = Some x → l !! j = Some y → comp_time gmt x < comp_time gmt y.

(** Position [k] splits the list at [v]. *)
Definition splits (gmt : bool) (l : list Transition) (v : Transition) (k : nat) : Prop :=
  (∀ i x, (i < k)%nat → l !! i = Some x → comp_time gmt x < comp_time gmt v) ∧
  (∀ i x, (k ≤ i)%nat → l !! i = Some x → comp_time gmt v ≤ comp_time gmt x).

Lemma transition_bound_loop_spec gmt l v :
  sorted_by gmt l → ∀ fuel first len,
  (len ≤ fuel)%nat → (first + len ≤ length l)%nat →
  (∀ i x, (i < first)%nat → l !! i = Some x → comp_time gmt x < comp_time gmt v) →
  (∀ i x, (first + len ≤ i)%nat → l !! i = Some x → comp_time gmt v ≤ comp_time gmt x) →
  splits gmt l v (lower_bound_loop fuel (comp gmt) l v first len) ∧
  (lower_bound_loop fuel (comp gmt) l v first len ≤ length l)%nat.
Proof.
  intros Hsort. induction fuel as [|fuel IH]; intros first len Hf Hlen Hlo Hhi.
  { assert (len = 0%nat) as -> by lia. rewrite Nat.add_0_r in *. cbn. split; [by split|lia]. }
  destruct len as [|len']; [rewrite Nat.add_0_r in *; cbn; split; [by split|lia]|].
  set (len := S len') in *. change (lower_bound_loop (S fuel) (comp gmt) l v first len) with
    (match l !! (first + len / 2)%nat with
     | Some x => if comp gmt x v then lower_bound_loop fuel (comp gmt) l v (S (first + len / 2)) (len - len / 2 - 1)
                 else lower_bound_loop fuel (comp gmt) l v first (len / 2)
     | None => first end).
  assert (len / 2 < len)%nat as Hhalf by (apply Nat.div_lt; subst len; lia).
  destruct (lookup_lt_is_Some_2 l (first + len / 2)) as [x Hx]; [lia|]. rewrite Hx.
  assert (comp gmt x v = (comp_time gmt x <? comp_time gmt v)) as -> by done.
  destruct (Z.ltb_spec (comp_time gmt x) (comp_time gmt v)) as [Hlt|Hge].
  - apply IH; [lia|lia| |].
    + intros i y Hi Hy. destruct (decide (i = first + len / 2)%nat) as [->|]; [by simplify_eq|].
      assert (comp_time gmt y < comp_time gmt x) by (eapply (Hsort i (first + len / 2)%nat); [lia|done..]). lia.
    + intros i y Hi Hy. eapply Hhi; [|done]. lia.
  - apply IH; [lia|lia|done|].
    intros i y Hi Hy. destruct (decide (i = first + len / 2)%nat) as [->|]; [by simplify_eq|].
    assert (comp_time gmt x < comp_time gmt y) by (eapply (Hsort (first + len / 2)%nat i); [lia|done..]). lia.
Qed.

Lemma transition_bound_spec gmt l v :
  sorted_by gmt l →
  splits gmt l v (lower_bound (comp gmt) l v) ∧ (lower_bound (comp gmt) l v ≤ length l)%nat.
Proof.
  intros Hsort. apply transition_bound_loop_spec; [done|lia|lia|intros; lia|].
  intros i x Hi Hx. apply lookup_lt_Some in Hx. lia.
Qed.

(** ** The local time type in force *)

(** After [n] transitions. *)
Definition in_force (data : Data) (n : nat) : outcome Localtime :=
  match n with
  | O => vector_at (localtimes data) 0
  | S k => tr ← vector_at (transitions data) (Z.of_nat k); vector_at (localtimes data) (localtimeIdx tr)
  end.

(** [n] transitions have passed at time [x]. *)
Definition passed (gmt : bool) (data : Data) (x : Z) (n : nat) : Prop :=
  (n ≤ length (transitions data))%nat ∧
  (∀ k tr, n = S k → transitions data !! k = Some tr → comp_time gmt tr ≤ x) ∧
  (∀ tr, transitions data !! n = Some tr → x < comp_time gmt tr).

Lemma vector_at_nat {A} (l : list A) (k : nat) x : l !! k = Some x → vector_at l (Z.of_nat k) = Ok x.
Proof.
  intros Hx. unfold vector_at. rewrite (proj2 (Z.leb_le 0 _)) by lia. by rewrite Nat2Z.id, Hx.
Qed.

Lemma vector_at_elem {A} (l : list A) i x : vector_at l i = Ok x → x ∈ l.
Proof.
  unfold vector_at. destruct (0 <=? i); [|done]. destruct (l !! Z.to_nat i) eqn:Hx; [|done].
  intros [= ->]. by eapply list_elem_of_lookup_2.
Qed.

Lemma in_force_elem data n l : in_force data n = Ok l → l ∈ localtimes data.
Proof.
  destruct n as [|k]; [apply vector_at_elem|]. cbn. intros (tr & _ & Hl)%bind_Ok_inv. by eapply vector_at_elem.
Qed.

(** [findLocaltime] returns the type of the last transition that has passed,
    and the first type before all transitions. *)
Lemma findLocaltime_spec gmt data sentry n :
  sorted_by gmt (transitions data) → passed gmt data (comp_time gmt sentry) n →
  findLocaltime data sentry gmt = in_force data n.
Proof.
  intros Hsort (Hn & Hlo & Hhi). set (x := comp_time gmt sentry) in *.
  unfold findLocaltime. destruct (transitions data) as [|front rest] eqn:Htr.
  { destruct n; [done|]. cbn in Hn. lia. }
  rewrite <- Htr in *. unfold comp at 1. fold x.
  assert (transitions data !! 0%nat = Some front) as H0 by (by rewrite Htr).
  destruct (Z.ltb_spec x (comp_time gmt front)) as [Hlt|Hge].
  { destruct n as [|k]; [done|]. exfalso.
    destruct (lookup_lt_is_Some_2 (transitions data) k) as [tr Hk]; [lia|].
    specialize (Hlo _ _ eq_refl Hk). destruct k as [|k]; [simplify_eq; lia|].
    assert (comp_time gmt front < comp_time gmt tr) by (eapply (Hsort 0%nat (S k)); [lia|done..]). lia. }
  destruct n as [|k]; [specialize (Hhi _ H0); lia|].
  destruct (lookup_lt_is_Some_2 (transitions data) k) as [tr Hk]; [lia|].
  specialize (Hlo _ _ eq_refl Hk). cbn [in_force]. rewrite (vector_at_nat _ _ _ Hk).
  cbn [mbind outcome_bind].
  destruct (transition_bound_spec gmt (transitions data) sentry Hsort) as [[Hl Hr] Hlen].
  set (j := lower_bound _ _ _) in *. fold x in Hl, Hr.
  assert (j = k ∨ j = S k) as Hj.
  { assert (¬ (j < k)%nat).
    { intros Hjk. destruct (lookup_lt_is_Some_2 (transitions data) j) as [y Hy]; [lia|].
      specialize (Hr j y ltac:(lia) Hy). pose proof (Hsort _ _ _ _ Hjk Hy Hk). lia. }
    assert (¬ (S k < j)%nat); [|lia].
    intros Hjk. destruct (lookup_lt_is_Some_2 (transitions data) (S k)) as [y Hy]; [lia|].
    specialize (Hl (S k) y ltac:(lia) Hy). specialize (Hhi _ Hy). lia. }
  unfold comp_equal. fold x. destruct Hj as [Hj|Hj]; rewrite Hj in *.
  - rewrite Hk. specialize (Hr k tr ltac:(lia) Hk). rewrite (proj2 (Z.eqb_eq x _)) by lia. done.
  - destruct (transitions data !! S k) as [y|] eqn:Hy.
    + specialize (Hhi _ eq_refl). rewrite (proj2 (Z.eqb_neq x _)) by lia.
      change (negb (S k =? 0)%nat) with true. run_ok.
      replace (Z.of_nat (S k) - 1) with (Z.of_nat k) by lia. by rewrite (vector_at_nat _ _ _ Hk).
    + apply lookup_ge_None in Hy. replace (size_of (transitions data) - 1) with (Z.of_nat k) by (unfold size_of; lia).
      by rewrite (vector_at_nat _ _ _ Hk).
Qed.

(** ** Local time *)

(** A zone: every type exists, the transitions are in order on both clocks, a
    transition's local time is told in the type it starts, and when clocks go
    back, they go back from daylight saving time by one hour, and stay for one. *)
Record zone_ok (data : Data) : Prop := {
  zone_types n : (n ≤ length (transitions data))%nat →
    ∃ l, in_force data n = Ok l ∧ - 2 ^ 31 ≤ gmtOffset l < 2 ^ 31 ∧
         0 ≤ arrbIdx l ≤ size_of (abbreviation data);
  zone_gmt_sorted : sorted_by true (transitions data);
  zone_local_sorted : sorted_by false (transitions data);
  zone_local k tr l : transitions data !! k = Some tr → in_force data (S k) = Ok l →
    localtime tr = gmttime tr + gmtOffset l;
  zone_back k tr l l' : transitions data !! k = Some tr →
    in_force data k = Ok l → in_force data (S k) = Ok l' → gmtOffset l' < gmtOffset l →
    isDst l = true ∧ isDst l' = false ∧ gmtOffset l = gmtOffset l' + 3600 ∧
    ∀ tr', transitions data !! S k = Some tr' →
      gmttime tr + 3600 ≤ gmttime tr' ∧ localtime tr + 3600 ≤ localtime tr'
}.

(** Some number of transitions has passed at every time. *)
Lemma passed_exists gmt data x : sorted_by gmt (transitions data) → ∃ n, passed gmt data x n.
Proof.
  intros Hsort. set (v := mkTransition x x 0).
  destruct (transition_bound_spec gmt (transitions data) v Hsort) as [[Hl Hr] Hlen].
  set (j := lower_bound _ _ _) in *.
  assert (comp_time gmt v = x) as Hv by (by destruct gmt). rewrite Hv in *.
  destruct (transitions data !! j) as [y|] eqn:Hy.
  - destruct (decide (comp_time gmt y = x)) as [Heq|Hne].
    + exists (S j). split; [apply lookup_lt_Some in Hy; lia|]. split.
      * intros k tr [= <-] Hk. simplify_eq. lia.
      * intros tr Htr. assert (comp_time gmt y < comp_time gmt tr) by (eapply (Hsort j (S j)); [lia|done..]). lia.
    + exists j. split; [done|]. split.
      * intros k tr -> Hk. specialize (Hl k tr ltac:(lia) Hk). lia.
      * intros tr Htr. simplify_eq. specialize (Hr j y ltac:(lia) Hy). lia.
  - exists j. split; [done|]. split.
    + intros k tr -> Hk. specialize (Hl k tr ltac:(lia) Hk). lia.
    + congruence.
Qed.

Section LocalTime.
Context (gmtime_r : Z → tm) (timegm : tm → Z) (time_range : Z → Prop).

(** The date and the time of day of two broken-down times agree. *)
Definition same_clock (t t' : tm) : Prop :=
  tm_sec t = tm_sec t' ∧ tm_min t = tm_min t' ∧ tm_hour t = tm_hour t' ∧
  tm_mday t = tm_mday t' ∧ tm_mon t = tm_mon t' ∧ tm_year t = tm_year t'.

(** [timegm] inverts [gmtime_r] and reads nothing but the date and the time of day. *)
Definition timegm_inverts : Prop :=
  ∀ s t, time_range s → same_clock t (gmtime_r s) → timegm t = s.

(** The local time in a type. *)
Definition told (data : Data) (l : Localtime) (seconds : Z) (t : tm) : Prop :=
  same_clock t (gmtime_r (seconds + gmtOffset l)) ∧
  tm_isdst t = (if isDst l then 1 else 0) ∧ tm_gmtoff t = gmtOffset l.

Lemma toLocalTime_spec data n l seconds :
  zone_ok data → passed true data seconds n → in_force data n = Ok l →
  - 2 ^ 62 ≤ seconds < 2 ^ 62 →
  ∃ t, toLocalTime gmtime_r (Some data) seconds = Ok t ∧ told data l seconds t.
Proof.
  intros Hz Hp Hl Hs. destruct (zone_types _ Hz n) as (l' & Hl' & Hoff & Harr); [apply Hp|].
  assert (l' = l) as -> by congruence. unfold toLocalTime.
  rewrite (findLocaltime_spec true data _ n), Hl by (done || apply Hz). cbn [mbind outcome_bind].
  rewrite checked_i64_bind by lia. unfold c_string_at.
  rewrite (proj2 (Z.leb_le 0 _)), (proj2 (Z.leb_le _ (size_of _))) by lia. cbn.
  eexists. split; [done|]. by repeat split.
Qed.

(** Converting back a clock that is told once ... *)
Lemma fromLocalTime_once data n l seconds t :
  zone_ok data → passed true data seconds n → in_force data n = Ok l →
  - 2 ^ 61 ≤ seconds < 2 ^ 61 → told data l seconds t → timegm t = seconds + gmtOffset l →
  passed false data (seconds + gmtOffset l) n →
  fromLocalTime gmtime_r timegm (Some data) t = Ok seconds.
Proof.
  intros Hz Hp Hl Hs (Hclock & Hdst & _) Htm Hpl.
  destruct (zone_types _ Hz n) as (l' & Hl' & Hoff & _); [apply Hp|]. assert (l' = l) as -> by congruence.
  unfold fromLocalTime. rewrite Htm.
  rewrite (findLocaltime_spec false data _ n), Hl by (done || apply Hz). cbn [mbind outcome_bind].
  replace (seconds + gmtOffset l - gmtOffset l) with seconds by lia.
  assert (checked_i64 seconds = Ok seconds) as Hck by (apply checked_i64_small; lia).
  rewrite Hdst. destruct (isDst l) eqn:Edst; [|cbn; replace (_ - _) with seconds by lia; done].
  change (negb (1 =? 0)) with true. cbv iota. rewrite Hck. cbn [mbind outcome_bind].
  destruct (toLocalTime_spec data n l seconds Hz Hp Hl) as (t' & -> & _ & Hdst' & _); [lia|].
  rewrite Edst in Hdst'. cbn [mbind outcome_bind]. rewrite Hdst'. cbn.
  by replace (seconds + gmtOffset l - gmtOffset l) with seconds by lia.
Qed.

(** ... and one that is told again after the clocks have gone back. *)
Lemma fromLocalTime_twice data n l seconds t tr :
  zone_ok data → passed true data seconds n → in_force data n = Ok l →
  - 2 ^ 61 ≤ seconds < 2 ^ 61 → told data l seconds t → timegm t = seconds + gmtOffset l →
  transitions data !! n = Some tr → localtime tr ≤ seconds + gmtOffset l →
  fromLocalTime gmtime_r timegm (Some data) t = Ok seconds.
Proof.
  intros Hz Hp Hl Hs (Hclock & Hdst & _) Htm Htr Hle.
  pose proof (proj2 (proj2 Hp) _ Htr) as Hlt. cbn in Hlt.
  destruct (zone_types _ Hz (S n)) as (l' & Hl' & Hoff' & _); [by apply lookup_lt_Some in Htr|].
  pose proof (zone_local _ Hz _ _ _ Htr Hl') as Hloc.
  destruct (zone_back _ Hz n tr l l') as (Hd & Hd' & Hdiff & Hnext); [done..|lia|].
  assert (passed false data (seconds + gmtOffset l) (S n)) as Hpl.
  { split; [by apply lookup_lt_Some in Htr|]. split; [intros k tr' [= <-] ?; by simplify_eq|].
    intros tr' Htr'. destruct (Hnext _ Htr'). cbn. lia. }
  assert (passed true data (seconds + 3600) (S n)) as Hpg.
  { split; [by apply lookup_lt_Some in Htr|]. split; [intros k tr' [= <-] ?; simplify_eq; cbn; lia|].
    intros tr' Htr'. destruct (Hnext _ Htr'). cbn. lia. }
  unfold fromLocalTime. rewrite Htm.
  rewrite (findLocaltime_spec false data _ (S n)), Hl' by (done || apply Hz). cbn [mbind outcome_bind].
  rewrite Hdst, Hd. change (negb (1 =? 0)) with true. cbv iota.
  rewrite checked_i64_bind by lia.
  replace (seconds + gmtOffset l - gmtOffset l') with (seconds + 3600) by lia.
  destruct (toLocalTime_spec data (S n) l' (seconds + 3600) Hz Hpg Hl') as (t' & -> & Hclock' & Hdst' & _); [lia|].
  cbn [mbind outcome_bind]. replace (seconds + 3600 + gmtOffset l') with (seconds + gmtOffset l) in Hclock' by lia.
  destruct Hclock as (_ & Hmin & Hhour & _), Hclock' as (_ & Hmin' & Hhour' & _).
  rewrite Hdst', Hd', Hmin', Hmin, Hhour', Hhour, !Z.eqb_refl. cbn [andb Z.eqb].
  rewrite (checked_i64_small (_ - 3600)) by lia. cbn [mbind outcome_bind].
  rewrite checked_i64_small by lia. f_equal. lia.
Qed.

(** C36. Local time.  In every zone whose clocks go back only from daylight
    saving time and by one hour, converting a time to local time gives the
    clock of the type in force, and converting the result back gives the same
    time, also in the hour that happens twice, on both of its passes. *)
Theorem local_time_roundtrip data seconds :
  timegm_inverts → zone_ok data → - 2 ^ 61 ≤ seconds < 2 ^ 61 →
  (∀ l, l ∈ localtimes data → time_range (seconds + gmtOffset l)) →
  ∃ n l t, passed true data seconds n ∧ in_force data n = Ok l ∧
    toLocalTime gmtime_r (Some data) seconds = Ok t ∧ told data l seconds t ∧
    fromLocalTime gmtime_r timegm (Some data) t = Ok seconds.
Proof.
  intros Hinv Hz Hs Hrange. destruct (passed_exists true data seconds) as [n Hp]; [apply Hz|].
  destruct (zone_types _ Hz n) as (l & Hl & Hoff & Harr); [apply Hp|].
  destruct (toLocalTime_spec data n l seconds Hz Hp Hl) as (t & Ht & Htold); [lia|].
  exists n, l, t. split_and!; [done..|].
  pose proof (Hinv _ _ (Hrange _ (in_force_elem _ _ _ Hl)) (proj1 Htold)) as Htm.
  assert (∀ k tr, n = S k → transitions data !! k = Some tr → localtime tr ≤ seconds + gmtOffset l) as Hlo.
  { intros k tr -> Hk. rewrite (zone_local _ Hz k tr l Hk Hl).
    destruct Hp as (_ & Hlo & _). specialize (Hlo k tr eq_refl Hk). cbn in Hlo. lia. }
  destruct (transitions data !! n) as [tr|] eqn:Htr.
  - destruct (Z.le_gt_cases (localtime tr) (seconds + gmtOffset l)); [by eapply fromLocalTime_twice|].
    eapply fromLocalTime_once; [done..|]. split; [apply Hp|]. split; [done|]. intros ? ?. by simplify_eq.
  - eapply fromLocalTime_once; [done..|]. split; [apply Hp|]. split; [done|congruence].
Qed.
End LocalTime.

(** Eastern time in 2023. *)
Definition eastern : Data :=
  mkData [mkTransition 1678604400 (1678604400 - 14400) 1; mkTransition 1699164000 (1699164000 - 18000) 0]
    [mkLocaltime (-18000) false 0; mkLocaltime (-14400) true 4] [] (lit "EST" ++ [x00] ++ lit "EDT" ++ [x00]).

Lemma eastern_ok : zone_ok eastern.
Proof.
  split.
  - intros [|[|[|n]]] Hn; cbn in Hn; [eexists; split; [reflexivity|by vm_compute]..|lia].
  - intros [|[|i]] [|[|j]] x y Hij Hi Hj; try lia; try done; cbn in Hi, Hj; simplify_eq; done.
  - intros [|[|i]] [|[|j]] x y Hij Hi Hj; try lia; try done; cbn in Hi, Hj; simplify_eq; done.
  - intros [|[|k]] tr l Hk Hl; try done; vm_compute in Hk, Hl; simplify_eq; reflexivity.
  - intros [|[|k]] tr l l' Hk Hl Hl' Hlt; try done; vm_compute in Hk, Hl, Hl';
      injection Hk as <-; injection Hl as <-; injection Hl' as <-; [done|].
    by split_and!.
Qed.

Definition utc_tm (s : Z) : tm :=
  match toUtcTime s false with Ok t => t | Fault _ => mktm 0 0 0 0 0 0 0 0 0 0 [] end.
Definition utc_seconds (t : tm) : Z := match fromUtcTime t with Ok s => s | Fault _ => 0 end.

Lemma utc_inverts : timegm_inverts utc_tm utc_seconds utc_in_range.
Proof.
  intros s t Hs (H1 & H2 & H3 & H4 & H5 & H6). unfold utc_tm in *. unfold utc_seconds.
  destruct (toUtcTime_inverse s false Hs) as (t' & Ht' & Hf). rewrite Ht' in H1, H2, H3, H4, H5, H6.
  assert (fromUtcTime t = fromUtcTime t') as -> by (unfold fromUtcTime; by rewrite H1, H2, H3, H4, H5, H6).
  by rewrite Hf.
Qed.

(** Ten minutes before the clocks go back. *)
Lemma local_time_roundtrip_witness :
  ∃ t, toLocalTime utc_tm (Some eastern) 1699163400 = Ok t ∧ tm_isdst t = 1 ∧ tm_hour t = 1 ∧
       fromLocalTime utc_tm utc_seconds (Some eastern) t = Ok 1699163400.
Proof.
  destruct (local_time_roundtrip utc_tm utc_seconds utc_in_range eastern 1699163400)
    as (n & l & t & _ & _ & Ht & _ & Hf).
  - exact utc_inverts.
  - exact eastern_ok.
  - lia.
  - intros l Hl. repeat (apply elem_of_cons in Hl as [->|Hl]; [vm_compute; by split|]). by apply elem_of_nil in Hl.
  - exists t. split; [exact Ht|]. split; [|split; [|exact Hf]]; vm_compute in Ht; injection Ht as <-; reflexivity.
Defined.

(** ** Zone files

    The first data block of a TZif file (version 1 fields). *)

Record ZoneFile := mkZoneFile {
  zf_version : byte;
  zf_reserved : list byte;
  zf_isgmtcnt : Z; zf_isstdcnt : Z; zf_leapcnt : Z;
  zf_times : list (Z * Z);
  zf_types : list Localtime;
  zf_chars : list byte
}.

Definition be32 (x : Z) : list byte := be_bytes 4 x.

Definition encode_type (l : Localtime) : list byte :=
  be32 (gmtOffset l) ++ [byte_of_Z (if isDst l then 1 else 0); byte_of_Z (arrbIdx l)].

Definition encode_zone (z : ZoneFile) : list byte :=
  lit "TZif" ++ [zf_version z] ++ zf_reserved z ++
  be32 (zf_isgmtcnt z) ++ be32 (zf_isstdcnt z) ++ be32 (zf_leapcnt z) ++
  be32 (size_of (zf_times z)) ++ be32 (size_of (zf_types z)) ++ be32 (size_of (zf_chars z)) ++
  concat ((λ p, be32 p.1) <$> zf_times z) ++
  ((λ p, byte_of_Z p.2) <$> zf_times z) ++
  concat (encode_type <$> zf_types z) ++
  zf_chars z.

Record zone_file_ok (z : ZoneFile) : Prop := {
  zf_reserved_15 : size_of (zf_reserved z) = 15;
  zf_unused x : x ∈ [zf_isgmtcnt z; zf_isstdcnt z; zf_leapcnt z] → - 2 ^ 31 ≤ x < 2 ^ 31;
  zf_counts : size_of (zf_times z) < 2 ^ 31 ∧ size_of (zf_types z) < 2 ^ 31 ∧ size_of (zf_chars z) < 2 ^ 31;
  zf_times_ok : Forall (λ p, - 2 ^ 31 ≤ p.1 < 2 ^ 31 ∧ 0 ≤ p.2 < 256 ∧ p.2 < size_of (zf_types z)) (zf_times z);
  zf_types_ok : Forall (λ l, - 2 ^ 31 ≤ gmtOffset l < 2 ^ 31 ∧ 0 ≤ arrbIdx l < 256) (zf_types z)
}.

(** The transitions a file describes. *)
Definition zone_transition (types : list Localtime) (p : Z * Z) : Transition :=
  mkTransition p.1 (p.1 + default 0 (gmtOffset <$> types !! Z.to_nat p.2)) p.2.
Definition zone_data (z : ZoneFile) : Data :=
  mkData (zone_transition (zf_types z) <$> zf_times z) (zf_types z) [] (zf_chars z).

Section Files.
Context `{HostOrder}.
Implicit Types (d : Data) (rest : list byte).

(** [m] consumes [bs] and returns [v]. *)
Definition reads {A} (m : reading A) (bs : list byte) (d : Data) (v : A) (d' : Data) : Prop :=
  ∀ rest, m (bs ++ rest, d) = Ok (Value v, (rest, d')).

Lemma reads_bind {A B} (m : reading A) (f : A → reading B) bs bs' d d' d'' v w :
  reads m bs d v d' → reads (f v) bs' d' w d'' → reads (m ≫= f) (bs ++ bs') d w d''.
Proof.
  intros Hm Hf rest. rewrite <- app_assoc. unfold mbind, reading_bind. rewrite Hm. apply Hf.
Qed.

Lemma reads_ret {A} (v : A) d : reads (mret v) [] d v d.
Proof. by intros rest. Qed.

(** An operation that reads nothing. *)
Lemma reads_bind_nil {A B} (m : reading A) (f : A → reading B) bs d d' d'' v w :
  reads m [] d v d' → reads (f v) bs d' w d'' → reads (m ≫= f) bs d w d''.
Proof. intros Hm Hf. by apply (reads_bind m f [] bs d d' d'' v w). Qed.

Lemma reads_bind_last {A B} (m : reading A) (f : A → reading B) bs d d' d'' v w :
  reads m bs d v d' → reads (f v) [] d' w d'' → reads (m ≫= f) bs d w d''.
Proof. intros Hm Hf. rewrite <- (app_nil_r bs). by eapply reads_bind. Qed.

Lemma fread_app bs rest d n : length bs = n → fread n (bs ++ rest, d) = (bs, (rest, d)).
Proof. intros <-. unfold fread. cbn. by rewrite take_app_length, drop_app_length. Qed.

Lemma readBytes_reads bs d n : size_of bs = n → reads (readBytes n) bs d bs d.
Proof.
  intros <- rest. unfold readBytes. rewrite (proj2 (Z.ltb_ge _ 0)) by apply size_of_nonneg.
  rewrite fread_app by (unfold size_of; lia). by rewrite Z.eqb_refl.
Qed.

Lemma readInt32_reads x d : - 2 ^ 31 ≤ x < 2 ^ 31 → reads readInt32 (be32 x) d x d.
Proof.
  intros Hx rest. unfold readInt32, be32. rewrite fread_app by apply length_be_bytes.
  unfold size_of. rewrite length_be_bytes, betoh_host_value by apply length_be_bytes.
  rewrite be_value_bytes. change (width 4) with 32. change (x mod 2 ^ 32) with (u32 x).
  rewrite to_signed_to_unsigned, i32_small by lia. done.
Qed.

Lemma readUInt8_reads x d : 0 ≤ x < 256 → reads readUInt8 [byte_of_Z x] d x d.
Proof.
  intros Hx rest. unfold readUInt8, fread. cbn. by rewrite Z_of_byte_of_Z, Z.mod_small by lia.
Qed.

Lemma concat_singletons (l : list byte) : concat ((λ b, [b]) <$> l) = l.
Proof. induction l as [|b l IH]; [done|]. cbn. by rewrite <- IH at 2. Qed.

Lemma repeat_read_reads {A B} (m : reading A) (enc : B → list byte) (f : B → A) d l :
  (∀ x, x ∈ l → reads m (enc x) d (f x) d) →
  reads (repeat_read (length l) m) (concat (enc <$> l)) d (f <$> l) d.
Proof.
  induction l as [|x l IH]; intros Hl; [apply reads_ret|]. cbn.
  eapply reads_bind; [apply Hl; left|].
  eapply reads_bind_last; [apply IH; intros y Hy; apply Hl; by right|]. apply reads_ret.
Qed.

Definition add_localtimes d (l : list Localtime) : Data :=
  mkData (transitions d) (localtimes d ++ l) (names d) (abbreviation d).
Definition add_transitions d (l : list Transition) : Data :=
  mkData (transitions d ++ l) (localtimes d) (names d) (abbreviation d).

Lemma read_localtime_reads l d :
  - 2 ^ 31 ≤ gmtOffset l < 2 ^ 31 ∧ 0 ≤ arrbIdx l < 256 →
  reads read_localtime (encode_type l) d tt (add_localtimes d [l]).
Proof.
  intros [Ho Ha]. unfold read_localtime, encode_type.
  eapply reads_bind; [by apply readInt32_reads|].
  eapply (reads_bind _ _ [_] [_]); [apply readUInt8_reads; destruct (isDst l); lia|].
  eapply reads_bind_last; [by apply readUInt8_reads|].
  intros rest. unfold push_localtime, add_localtimes. destruct l as [o [|] a]; done.
Qed.

Lemma read_localtimes_reads l : ∀ d,
  Forall (λ l, - 2 ^ 31 ≤ gmtOffset l < 2 ^ 31 ∧ 0 ≤ arrbIdx l < 256) l →
  reads (repeat_read (length l) read_localtime) (concat (encode_type <$> l)) d
    (replicate (length l) tt) (add_localtimes d l).
Proof.
  induction l as [|x l IH]; intros d Hl.
  { intros rest. unfold add_localtimes. rewrite app_nil_r. by destruct d. }
  apply Forall_cons in Hl as [Hx Hl]. rewrite fmap_cons. cbn [concat length repeat_read replicate].
  eapply reads_bind; [by apply read_localtime_reads|].
  eapply reads_bind_last; [by apply IH|].
  unfold add_localtimes. cbn. rewrite <- app_assoc. apply reads_ret.
Qed.

Lemma push_transition_reads t d : reads (push_transition t) [] d tt (add_transitions d [t]).
Proof. by intros rest. Qed.

Lemma add_transitions_cons d t l :
  add_transitions d (t :: l) = add_transitions (add_transitions d [t]) l.
Proof. unfold add_transitions. cbn. by rewrite <- app_assoc. Qed.

Lemma push_transitions_reads types ps : ∀ d,
  localtimes d = types → Forall (λ p, 0 ≤ p.2 < size_of types) ps →
  reads (push_transitions (fst <$> ps) (snd <$> ps)) [] d tt (add_transitions d (zone_transition types <$> ps)).
Proof.
  induction ps as [|[t i] ps IH]; intros d Hd Hps.
  { intros rest. unfold add_transitions. rewrite app_nil_r. by destruct d. }
  apply Forall_cons in Hps as [Hi Hps]. cbn in Hi |- *. unfold size_of in Hi.
  destruct (lookup_lt_is_Some_2 types (Z.to_nat i)) as [l Hl]; [lia|].
  eapply reads_bind_nil.
  { intros rest. unfold offset_at. cbn [snd]. rewrite Hd.
    replace i with (Z.of_nat (Z.to_nat i)) by lia. by rewrite (vector_at_nat _ _ _ Hl). }
  eapply reads_bind_nil; [apply push_transition_reads|]. cbn [snd fst].
  assert (mkTransition t (t + gmtOffset l) i = zone_transition types (t, i)) as ->
    by (unfold zone_transition; cbn; by rewrite Hl).
  rewrite (add_transitions_cons d _ (_ <$> _)). by apply IH.
Qed.

Lemma read_zone_reads z :
  zone_file_ok z → reads read_zone (encode_zone z) Data_new tt (zone_data z).
Proof.
  intros [H15 Hun (Hn1 & Hn2 & Hn3) Htimes Htypes]. unfold read_zone, encode_zone.
  eapply reads_bind; [by apply readBytes_reads|].
  eapply reads_bind_nil; [by intros rest|].
  eapply reads_bind; [by apply readBytes_reads|].
  eapply reads_bind; [by apply readBytes_reads|].
  do 3 (eapply reads_bind; [apply readInt32_reads, Hun; rewrite !elem_of_cons; auto|]).
  pose proof (size_of_nonneg (zf_times z)). pose proof (size_of_nonneg (zf_types z)).
  pose proof (size_of_nonneg (zf_chars z)).
  do 3 (eapply reads_bind; [apply readInt32_reads; lia|]).
  rewrite (proj2 (Z.ltb_ge (size_of (zf_times z)) 0)) by lia.
  eapply reads_bind_nil; [apply reads_ret|]. unfold size_of. rewrite !Nat2Z.id.
  eapply reads_bind.
  { apply (repeat_read_reads _ (λ p : Z * Z, be32 p.1) fst). intros p Hp.
    rewrite Forall_forall in Htimes. by apply readInt32_reads, Htimes. }
  eapply reads_bind.
  { rewrite <- (concat_singletons (_ <$> zf_times z)), <- list_fmap_compose.
    apply (repeat_read_reads _ _ snd). intros p Hp. rewrite Forall_forall in Htimes.
    by apply readUInt8_reads, Htimes. }
  eapply reads_bind; [by apply read_localtimes_reads|].
  eapply reads_bind_nil; [apply (push_transitions_reads (zf_types z)); [done|]|].
  { eapply Forall_impl; [exact Htimes|]. cbn. lia. }
  eapply reads_bind_last; [by apply readBytes_reads|]. by intros rest.
Qed.

(** Zone files.  Reading a file that starts with the first data block of
    the TZif format yields exactly the transitions, types and abbreviations it
    describes, with every transition's local time told in the type it starts,
    on hosts of either byte order, whatever follows the block. *)
Theorem zone_file_read z rest :
  zone_file_ok z → TimeZone_of_file (Some (encode_zone z ++ rest)) = Ok (Some (zone_data z)).
Proof.
  intros Hz. unfold TimeZone_of_file, readTimeZoneFile. by rewrite (read_zone_reads z Hz rest).
Qed.

(** Of a file that is missing or cut short there is a zone all the same, and
    it is [valid], but it has no type to convert times with. *)
Theorem missing_zone_file_undefined gmtime_r :
  ∃ data, TimeZone_of_file None = Ok data ∧ TimeZone_of_file (Some (lit "TZif")) = Ok data ∧
    valid data = true ∧ ∀ seconds, toLocalTime gmtime_r data seconds = Fault Undefined.
Proof. by exists (Some Data_new). Qed.
End Files.

(** The zone above as a file, on a little-endian host. *)
Definition eastern_file : ZoneFile :=
  mkZoneFile x32 (replicate 15 x00) 0 0 0 [(1678604400, 1); (1699164000, 0)] (localtimes eastern) (abbreviation eastern).

Lemma zone_file_read_witness :
  zone_file_ok eastern_file ∧
  (let _ : HostOrder := true in TimeZone_of_file (Some (encode_zone eastern_file ++ [])) = Ok (Some eastern)).
Proof.
  assert (zone_file_ok eastern_file) as Hz.
  { split; [done| |done|by repeat constructor..].
    intros x Hx. repeat (apply elem_of_cons in Hx as [->|Hx]; [cbn; lia|]). by apply elem_of_nil in Hx. }
  split; [exact Hz|]. exact (zone_file_read (H := true) eastern_file [] Hz).
Defined.
