(* ===== verification/TimeText.v ===== *)
(** * Times as text

    [Timestamp::toString] and [toFormattedString] (muduo/base/Timestamp.cc),
    [Date::toIsoString] (Date.cc) and the time in the name of a log file
    ([LogFile::getLogFileName], LogFile.cc).  [gmtime_r] is a parameter; that it
    tells UTC is the hypothesis [gmtime_utc]. *)
From Stdlib Require Import Strings.Byte.
From stdpp Require Import base numbers list strings.
From S2P Require Import Prelude Printf Timestamp Date TimeZone TimeZoneSpec.
Open Scope Z_scope.
Open Scope muduo_scope.

(** "%4d%02d%02d %02d:%02d:%02d" of a broken-down time. *)
Definition clock_text (t : tm) : outcome (list byte) :=
  y ← iadd (tm_year t) 1900; mo ← iadd (tm_mon t) 1;
  mret (space_padded 4 y ++ zero_padded 2 mo ++ zero_padded 2 (tm_mday t) ++ [x20] ++
        zero_padded 2 (tm_hour t) ++ [x3a] ++ zero_padded 2 (tm_min t) ++ [x3a] ++ zero_padded 2 (tm_sec t)).

Definition Timestamp_toString (t : Timestamp) : list byte :=
  let seconds := Z.quot t kMicroSecondsPerSecond in
  let microseconds := Z.rem t kMicroSecondsPerSecond in
  snprintf 32 (decimal seconds ++ [x2e] ++ zero_padded 6 microseconds).

Definition Date_toIsoString (d : Date) : outcome (list byte) :=
  ymd ← yearMonthDay d;
  mret (snprintf 32 (space_padded 4 (year ymd) ++ [x2d] ++ zero_padded 2 (month ymd) ++ [x2d] ++ zero_padded 2 (day ymd))).

Section Gmtime.
Context (gmtime_r : Z → tm).

Definition Timestamp_toFormattedString (showMicroseconds : bool) (t : Timestamp) : outcome (list byte) :=
  let seconds := Z.quot t kMicroSecondsPerSecond in
  text ← clock_text (gmtime_r seconds);
  if showMicroseconds : bool then
    let microseconds := i32 (Z.rem t kMicroSecondsPerSecond) in
    mret (snprintf 64 (text ++ [x2e] ++ zero_padded 6 microseconds))
  else mret (snprintf 64 text).

(** [strftime(timebuf, 32, ".%Y%m%d-%H%M%S.", &tm)]. *)
Definition timebuf (now : Z) : list byte :=
  let t := gmtime_r now in
  [x2e] ++ decimal (tm_year t + 1900) ++ zero_padded 2 (tm_mon t + 1) ++ zero_padded 2 (tm_mday t) ++ [x2d] ++
  zero_padded 2 (tm_hour t) ++ zero_padded 2 (tm_min t) ++ zero_padded 2 (tm_sec t) ++ [x2e].
End Gmtime.

(** ** Reading times back *)

Definition read_num (k : nat) (l : list byte) : Z * list byte := (dec_value (take k l), drop k l).

Lemma read_num_digits k n l : 0 ≤ n < 10 ^ Z.of_nat k → read_num k (dec_digits k n ++ l) = (n, l).
Proof.
  intros Hn. unfold read_num. rewrite take_app_length', drop_app_length' by (by rewrite length_dec_digits).
  by rewrite dec_value_digits, Z.mod_small.
Qed.

(** The clock of "YYYYmmdd HH:MM:SS"; what follows is returned. *)
Definition read_clock (l : list byte) : outcome (Z * list byte) :=
  let '(y, l) := read_num 4 l in let '(mo, l) := read_num 2 l in let '(d, l) := read_num 2 l in
  let '(h, l) := read_num 2 (drop 1 l) in let '(mi, l) := read_num 2 (drop 1 l) in
  let '(s, l) := read_num 2 (drop 1 l) in
  t ← fromUtcTime_fields y mo d h mi s; mret (t, l).
Definition read_timestamp (l : list byte) : outcome Timestamp :=
  '(s, l) ← read_clock l; mret (s * kMicroSecondsPerSecond + dec_value (drop 1 l)).

(** A clock that fits the text. *)
Definition clock_fits (t : tm) : Prop :=
  1000 ≤ tm_year t + 1900 ≤ 9999 ∧ 0 ≤ tm_mon t < 12 ∧ 0 ≤ tm_mday t ≤ 31 ∧
  0 ≤ tm_hour t < 24 ∧ 0 ≤ tm_min t < 60 ∧ 0 ≤ tm_sec t ≤ 60.

Definition clock_digits (t : tm) : list byte :=
  dec_digits 4 (tm_year t + 1900) ++ dec_digits 2 (tm_mon t + 1) ++ dec_digits 2 (tm_mday t) ++ [x20] ++
  dec_digits 2 (tm_hour t) ++ [x3a] ++ dec_digits 2 (tm_min t) ++ [x3a] ++ dec_digits 2 (tm_sec t).
Arguments clock_digits : simpl never.

Lemma length_clock_digits t : length (clock_digits t) = 17%nat.
Proof. unfold clock_digits. rewrite !length_app, !length_dec_digits. done. Qed.

Lemma clock_text_digits t : clock_fits t → clock_text t = Ok (clock_digits t).
Proof.
  intros (Hy & Hmo & Hd & Hh & Hmi & Hs). unfold clock_text, iadd. rewrite !checked_bind by lia. cbv beta.
  unfold clock_digits. rewrite space_padded_digits, !zero_padded_digits by (try lia; cbn; lia). done.
Qed.

(** Reading gives the second that [fromUtcTime] says. *)
Lemma read_clock_digits t l : clock_fits t → read_clock (clock_digits t ++ l) = (s ← fromUtcTime t; mret (s, l)).
Proof.
  intros (Hy & Hmo & Hd & Hh & Hmi & Hs). unfold read_clock, clock_digits, fromUtcTime, iadd.
  rewrite !checked_bind by lia. rewrite <- !app_assoc.
  do 3 (rewrite read_num_digits by (cbn; lia); cbv beta iota).
  do 3 (cbn [app drop]; rewrite drop_0, read_num_digits by (cbn; lia); cbv beta iota). done.
Qed.

(** ** UTC *)

(** The years 1000 to 9999. *)
Definition four_digit_year (s : Z) : Prop := -30610224000 ≤ s < 253402300800.

Lemma utc_clock s :
  four_digit_year s → ∃ t, toUtcTime s false = Ok t ∧ fromUtcTime t = Ok s ∧ clock_fits t ∧ tm_sec t < 60.
Proof.
  intros Hs.
  assert (utc_in_range s) as Hr.
  { unfold utc_in_range, julian_in_range, epoch_day, kSecondsPerDay. unfold four_digit_year in Hs. euclid. }
  destruct (julian_date _ Hr) as (d & Hd & Hv & Hyr & Hjd).
  pose proof (toUtcTime_spec s false d Hr Hd Hv Hyr Hjd) as Ht.
  destruct (toUtcTime_inverse s false Hr) as (t & Ht' & Hinv).
  assert (0 ≤ s mod kSecondsPerDay < kSecondsPerDay) as Hsec by (unfold kSecondsPerDay; euclid).
  pose proof (fillHMS_spec _ Hsec) as Hf. destruct (fillHMS _) as [[sec mi] h]. destruct Hf as (? & ? & ? & _).
  assert (1000 ≤ year d ≤ 9999) as Hy.
  { assert (2086303 ≤ s / kSecondsPerDay + epoch_day < 5373485) as Hj.
    { unfold kSecondsPerDay, epoch_day. unfold four_digit_year in Hs. euclid. }
    rewrite Hjd in Hj. pose proof Hv as [Hmo Hdy]. assert (day d ≤ 31) by (unfold days_in_month in Hdy; repeat case_match; lia).
    unfold year_in_range in Hyr. unfold march_ymd, march_days in Hj.
    rewrite century_days in Hj by (unfold march_shift; case_match; lia).
    unfold march_shift, march_month, march_shift, month_start in Hj. destruct (Z.leb_spec (month d) 2); euclid. }
  exists t. split_and!; [done|done| |]; rewrite Ht in Ht'; injection Ht' as <-; cbn; [|lia].
  destruct Hv as [Hmo Hdy]. assert (day d ≤ 31) by (unfold days_in_month in Hdy; repeat case_match; lia).
  repeat split; cbn; lia.
Qed.

Section Utc.
Context (gmtime_r : Z → tm).

(** [gmtime_r] tells the UTC clock, in the years of four digits. *)
Definition gmtime_utc : Prop :=
  ∀ s, four_digit_year s → ∃ t, toUtcTime s false = Ok t ∧ same_clock (gmtime_r s) t.
Hypothesis Hgmtime : gmtime_utc.

Lemma gmtime_clock s :
  four_digit_year s → clock_fits (gmtime_r s) ∧ fromUtcTime (gmtime_r s) = Ok s.
Proof.
  intros Hs. destruct (Hgmtime s Hs) as (t & Ht & H1 & H2 & H3 & H4 & H5 & H6).
  destruct (utc_clock s Hs) as (t' & Ht' & Hinv & Hfit & _). assert (t' = t) as -> by congruence.
  unfold clock_fits, fromUtcTime in *. rewrite H1, H2, H3, H4, H5, H6. split; [exact Hfit|exact Hinv].
Qed.

Lemma gmtime_text s :
  four_digit_year s → clock_text (gmtime_r s) = Ok (clock_digits (gmtime_r s)) ∧
  ∀ l, read_clock (clock_digits (gmtime_r s) ++ l) = Ok (s, l).
Proof.
  intros [Hfit Hinv]%gmtime_clock. split; [by apply clock_text_digits|].
  intros l. rewrite read_clock_digits, Hinv by done. done.
Qed.

Lemma split_microseconds t :
  0 ≤ t → let s := Z.quot t kMicroSecondsPerSecond in let us := Z.rem t kMicroSecondsPerSecond in
  0 ≤ us < 10 ^ 6 ∧ i32 us = us ∧ s * kMicroSecondsPerSecond + us = t ∧ 0 ≤ s.
Proof.
  unfold kMicroSecondsPerSecond. change (1000 * 1000) with 1000000. change (10 ^ 6) with 1000000.
  intros Ht. cbv zeta. assert (0 ≤ Z.rem t 1000000 < 1000000) by euclid.
  split_and!; try euclid. apply i32_small. lia.
Qed.

(** Times in text.  A time from the epoch to the year 9999 is formatted as the
    seventeen characters of its UTC date and clock and, if asked for, a point and
    six digits of microseconds; the text says exactly which time it is, to the
    microsecond.  The short form is a number of seconds in decimal, a point and
    six digits, which reads back too. *)
Theorem time_text_roundtrip t :
  0 ≤ t → four_digit_year (Z.quot t kMicroSecondsPerSecond) →
  ∃ text, Timestamp_toFormattedString gmtime_r true t = Ok text ∧
    Timestamp_toFormattedString gmtime_r false t = Ok (take 17 text) ∧
    length text = 24%nat ∧ read_timestamp text = Ok t ∧
    ∃ secs us, Timestamp_toString t = secs ++ [x2e] ++ us ∧
      dec_value secs * kMicroSecondsPerSecond + dec_value us = t ∧ length us = 6%nat ∧
      Forall (λ b, is_digit b = true) (secs ++ us).
Proof.
  intros Ht Hy. destruct (split_microseconds t Ht) as (Hus & Hi & Hsum & Hs).
  set (s := Z.quot t kMicroSecondsPerSecond) in *. set (us := Z.rem t kMicroSecondsPerSecond) in *.
  destruct (gmtime_text s Hy) as [Htext Hread].
  exists (clock_digits (gmtime_r s) ++ [x2e] ++ dec_digits 6 us).
  assert (zero_padded 6 us = dec_digits 6 us) as Hz by (apply zero_padded_digits; [lia|exact Hus]).
  assert (length (clock_digits (gmtime_r s) ++ [x2e] ++ dec_digits 6 us) = 24%nat) as Hlen.
  { by rewrite !length_app, length_clock_digits, length_dec_digits. }
  assert (dec_value (dec_digits 6 us) = us) as Hval by (rewrite dec_value_digits; by apply Z.mod_small).
  unfold Timestamp_toFormattedString. fold s us. rewrite Htext. cbn [mbind outcome_bind]. rewrite Hi, Hz.
  unfold snprintf. split_and!.
  - by rewrite (take_ge _ 63) by (rewrite Hlen; lia).
  - rewrite take_app_length' by (by rewrite length_clock_digits).
    by rewrite take_ge by (rewrite length_clock_digits; lia).
  - done.
  - unfold read_timestamp. rewrite Hread. cbn [mbind outcome_bind]. cbn [app drop]. rewrite drop_0, Hval. by rewrite Hsum.
  - exists (decimal s), (dec_digits 6 us). rewrite decimal_reads, Hval, length_dec_digits by done.
    split_and!; [|done|done|].
    + unfold Timestamp_toString, snprintf. fold s us. rewrite Hz. apply take_ge.
      rewrite !length_app, length_dec_digits. unfold decimal, sign.
      rewrite (proj2 (Z.ltb_ge s 0)), Z.abs_eq by lia. cbn [app length]. rewrite length_dec_digits.
      destruct (num_digits_spec s) as (_ & _ & Hk); [done|].
      specialize (Hk 12%nat ltac:(lia) ltac:(unfold four_digit_year in Hy; cbn; lia)). lia.
    + apply Forall_app. split; [|apply dec_digits_are]. unfold decimal, sign.
      rewrite (proj2 (Z.ltb_ge s 0)) by lia. apply dec_digits_are.
Qed.

(** The time in the name of a log file tells the second. *)
Lemma timebuf_digits s :
  four_digit_year s → let t := gmtime_r s in
  timebuf gmtime_r s = [x2e] ++ dec_digits 4 (tm_year t + 1900) ++ dec_digits 2 (tm_mon t + 1) ++
    dec_digits 2 (tm_mday t) ++ [x2d] ++ dec_digits 2 (tm_hour t) ++ dec_digits 2 (tm_min t) ++
    dec_digits 2 (tm_sec t) ++ [x2e].
Proof.
  intros Hs t. destruct (gmtime_clock s Hs) as [(Hy & Hmo & Hd & Hh & Hmi & Hsec) _]. fold t in Hy, Hmo, Hd, Hh, Hmi, Hsec.
  unfold timebuf. fold t. rewrite !zero_padded_digits by (try lia; cbn; lia).
  rewrite <- (space_padded_digits 4 (tm_year t + 1900)) by (try lia; cbn; lia).
  unfold space_padded. replace (4 - length (decimal (tm_year t + 1900)))%nat with 0%nat; [done|].
  unfold decimal, sign. rewrite (proj2 (Z.ltb_ge (tm_year t + 1900) 0)), Z.abs_eq by lia. cbn [app].
  rewrite length_dec_digits. destruct (num_digits_spec (tm_year t + 1900)) as (Hlt & _ & _); [lia|].
  destruct (num_digits (tm_year t + 1900)) as [|[|[|[|n]]]]; cbn in Hlt; lia.
Qed.

Lemma length_timebuf s : four_digit_year s → length (timebuf gmtime_r s) = 17%nat.
Proof. intros Hs. rewrite timebuf_digits by done. by rewrite !length_app, !length_dec_digits. Qed.

Lemma timebuf_inj s s' :
  four_digit_year s → four_digit_year s' → timebuf gmtime_r s = timebuf gmtime_r s' → s = s'.
Proof.
  intros Hs Hs'. rewrite !timebuf_digits by done.
  destruct (gmtime_clock s Hs) as [(Hy & Hmo & Hd & Hh & Hmi & Hsec) Hinv].
  destruct (gmtime_clock s' Hs') as [(Hy' & Hmo' & Hd' & Hh' & Hmi' & Hsec') Hinv'].
  intros E. apply app_inj_1 in E as [_ E]; [|done].
  apply app_inj_1 in E as [E1 E]; [|by rewrite !length_dec_digits].
  apply app_inj_1 in E as [E2 E]; [|by rewrite !length_dec_digits].
  apply app_inj_1 in E as [E3 E]; [|by rewrite !length_dec_digits]. apply app_inj_1 in E as [_ E]; [|done].
  apply app_inj_1 in E as [E4 E]; [|by rewrite !length_dec_digits].
  apply app_inj_1 in E as [E5 E]; [|by rewrite !length_dec_digits].
  apply app_inj_1 in E as [E6 E]; [|by rewrite !length_dec_digits].
  apply dec_digits_inj in E1, E2, E3, E4, E5, E6; [|cbn; lia..].
  unfold fromUtcTime in Hinv, Hinv'. unfold iadd in *. rewrite E1, E2, E3, E4, E5, E6 in Hinv. congruence.
Qed.
End Utc.

Lemma utc_tm_utc : gmtime_utc utc_tm.
Proof.
  intros s Hs. destruct (utc_clock s Hs) as (t & Ht & _). exists t. split; [done|].
  unfold utc_tm. rewrite Ht. by repeat split.
Qed.

Lemma time_text_roundtrip_witness :
  ∃ text, Timestamp_toFormattedString utc_tm true 1700000000123456 = Ok text ∧
    text = lit "20231114 22:13:20.123456" ∧ read_timestamp text = Ok 1700000000123456.
Proof.
  destruct (time_text_roundtrip utc_tm utc_tm_utc 1700000000123456) as (text & Ht & _ & _ & Hr & _);
    [lia|vm_compute; by split|].
  exists text. split; [exact Ht|]. split; [|exact Hr]. vm_compute in Ht. injection Ht as <-. reflexivity.
Defined.

(** A time before the epoch is split by truncation, and its text is no time. *)
Lemma negative_time_text :
  Timestamp_toString (-1) = lit "0.-00001" ∧
  Timestamp_toFormattedString utc_tm true (-1) = Ok (lit "19700101 00:00:00.-00001").
Proof. by vm_compute. Qed.

(** ** ISO dates *)

Definition read_iso (l : list byte) : outcome Date :=
  let '(y, l) := read_num 4 l in let '(mo, l) := read_num 2 (drop 1 l) in let '(d, l) := read_num 2 (drop 1 l) in
  Date_of_ymd y mo d.

(** The text of a date in the years 1000 to 9999 gives the date back. *)
Lemma iso_roundtrip j :
  2086303 ≤ j < 5373485 → ∃ text, Date_toIsoString j = Ok text ∧ length text = 10%nat ∧ read_iso text = Ok j.
Proof.
  intros Hj. destruct (julian_date j) as (d & Hd & Hv & Hyr & Hjd); [unfold julian_in_range; lia|].
  pose proof Hv as [Hmo Hdy]. assert (day d ≤ 31) by (unfold days_in_month in Hdy; repeat case_match; lia).
  assert (1000 ≤ year d ≤ 9999) as Hy.
  { rewrite Hjd in Hj. unfold year_in_range in Hyr. unfold march_ymd, march_days in Hj.
    rewrite century_days in Hj by (unfold march_shift; case_match; lia).
    unfold march_shift, march_month, march_shift, month_start in Hj. destruct (Z.leb_spec (month d) 2); euclid. }
  unfold Date_toIsoString. rewrite Hd. cbn [mbind outcome_bind].
  rewrite space_padded_digits, !zero_padded_digits by (try lia; cbn; lia).
  eexists. split; [done|]. unfold snprintf.
  assert (length (dec_digits 4 (year d) ++ [x2d] ++ dec_digits 2 (month d) ++ [x2d] ++ dec_digits 2 (day d)) = 10%nat) as Hlen
    by (by rewrite !length_app, !length_dec_digits).
  rewrite take_ge by (rewrite Hlen; lia). split; [done|]. unfold read_iso.
  rewrite read_num_digits by (cbn; lia). cbv beta iota. cbn [app drop]. rewrite drop_0, read_num_digits by (cbn; lia).
  cbv beta iota. cbn [app drop]. rewrite drop_0. rewrite <- (app_nil_r (dec_digits 2 (day d))), read_num_digits by (cbn; lia).
  unfold Date_of_ymd. rewrite getJulianDayNumber_spec by (done || lia). by rewrite Hjd.
Qed.
