(* ===== verification/LogStream.v ===== *)
(** * Log streams (muduo/base/LogStream.h, LogStream.cc)

    A [FixedBuffer] is its array [data_] and the offset of [cur_] in it; a
    write outside the array faults.  Every [operator<<] of [LogStream] is one
    case of [shift_left]. *)
From Stdlib Require Import Strings.Byte.
From stdpp Require Import base numbers list strings.
From S2P Require Import Prelude Printf Timestamp.
Open Scope Z_scope.
Open Scope muduo_scope.

(** ** FixedBuffer *)

Record FixedBuffer := mkFixedBuffer { data_ : list byte; cur_ : Z }.

Definition kSmallBuffer : Z := 4000.
Definition kLargeBuffer : Z := 4000 * 1000.
Definition kMaxNumericSize : Z := 32.

Definition FixedBuffer_new (data : list byte) : FixedBuffer := mkFixedBuffer data 0.

(** Store bytes at an offset of the array. *)
Definition store (data : list byte) (off : Z) (bs : list byte) : outcome (list byte) :=
  if (0 <=? off) && (off + size_of bs <=? size_of data)
  then Ok (take (Z.to_nat off) data ++ bs ++ drop (Z.to_nat (off + size_of bs)) data)
  else Fault OutOfRange.

Definition avail (b : FixedBuffer) : Z := size_of (data_ b) - cur_ b.
Definition length_ (b : FixedBuffer) : Z := cur_ b.
Definition append (b : FixedBuffer) (buf : list byte) : outcome FixedBuffer :=
  if size_of buf <? avail b then
    data ← store (data_ b) (cur_ b) buf; mret (mkFixedBuffer data (cur_ b + size_of buf))
  else mret b.
(** [memcpy] to [current()]. *)
Definition write_current (b : FixedBuffer) (bs : list byte) : outcome FixedBuffer :=
  data ← store (data_ b) (cur_ b) bs; mret (mkFixedBuffer data (cur_ b)).
Definition add (b : FixedBuffer) (len : Z) : FixedBuffer := mkFixedBuffer (data_ b) (cur_ b + len).
Definition reset (b : FixedBuffer) : FixedBuffer := mkFixedBuffer (data_ b) 0.
Definition bzero (b : FixedBuffer) : FixedBuffer :=
  mkFixedBuffer (replicate (length (data_ b)) x00) (cur_ b).
Definition debugString (b : FixedBuffer) : outcome FixedBuffer := write_current b [x00].
Definition toString (b : FixedBuffer) : list byte := slice (data_ b) 0 (length_ b).

(** ** Integers to text *)

Definition digits : list byte := lit "9876543210123456789".
Definition digitsHex : list byte := lit "0123456789ABCDEF".

(** [zero[lsd]], with [zero = digits + 9]. *)
Definition zero_at (lsd : Z) : byte := default x00 (digits !! Z.to_nat (9 + lsd)).
Definition digitsHex_at (lsd : Z) : byte := default x00 (digitsHex !! Z.to_nat lsd).

(** The [do]-[while] loop; the digits in the order they are stored. *)
Fixpoint convert_loop (fuel : nat) (base : Z) (digit : Z → byte) (i : Z) : option (list byte) :=
  match fuel with
  | O => None
  | S fuel =>
    let lsd := Z.rem i base in
    let i := Z.quot i base in
    if i =? 0 then Some [digit lsd]
    else rest ← convert_loop fuel base digit i; Some (digit lsd :: rest)
  end.

(** The text, without the terminating NUL. *)
Definition convert (value : Z) : option (list byte) :=
  p ← convert_loop 64 10 zero_at value;
  Some (reverse (p ++ if value <? 0 then [x2d] else [])).
Definition convertHex (value : Z) : option (list byte) :=
  p ← convert_loop 64 16 digitsHex_at value; Some (reverse p).

(** ** LogStream *)
Section LogStream.
Context (snprintf_g : double → list byte).

(** What can be shifted into a stream: integers of any width, pointers, ... *)
Inductive Item :=
  | LBool (v : bool)
  | LInteger (v : Z)
  | LPointer (p : Z)
  | LDouble (v : double)
  | LChar (c : byte)
  | LCString (str : option (list byte))
  | LString (v : list byte)
  | LBuffer (v : FixedBuffer)
  | LFmt (text : list byte).

Definition write_number (b : FixedBuffer) (text : option (list byte)) : outcome FixedBuffer :=
  match text with
  | None => Fault Undefined
  | Some t => b ← write_current b (t ++ [x00]); mret (add b (size_of t))
  end.

Definition formatInteger (b : FixedBuffer) (v : Z) : outcome FixedBuffer :=
  if kMaxNumericSize <=? avail b then write_number b (convert v) else mret b.

Definition shift_pointer (b : FixedBuffer) (p : Z) : outcome FixedBuffer :=
  if kMaxNumericSize <=? avail b then
    write_number b (t ← convertHex p; Some (lit "0x" ++ t))
  else mret b.

(** [snprintf(current(), 32, "%.12g", v)]: at most 31 characters and a NUL. *)
Definition shift_double (b : FixedBuffer) (v : double) : outcome FixedBuffer :=
  if kMaxNumericSize <=? avail b then
    let text := snprintf_g v in
    b ← write_current b (take 31 text ++ [x00]);
    mret (add b (size_of text))
  else mret b.

Definition shift_left (b : FixedBuffer) (it : Item) : outcome FixedBuffer :=
  match it with
  | LBool v => append b (if v then lit "1" else lit "0")
  | LInteger v => formatInteger b v
  | LPointer p => shift_pointer b p
  | LDouble v => shift_double b v
  | LChar c => append b [c]
  | LCString (Some str) => append b str
  | LCString None => append b (lit "(null)")
  | LString v => append b v
  | LBuffer v => append b (toString v)
  | LFmt text => append b text
  end.

Fixpoint shift_all (b : FixedBuffer) (its : list Item) : outcome FixedBuffer :=
  match its with
  | [] => mret b
  | it :: its => b ← shift_left b it; shift_all b its
  end.
End LogStream.

(** ** The text of an integer *)

(** The value of digits, the least significant one first. *)
Fixpoint lsd_value (base : Z) (dv : byte → Z) (l : list byte) : Z :=
  match l with
  | [] => 0
  | b :: l => dv b + base * lsd_value base dv l
  end.

Section Convert.
Context (base : Z) (digit : Z → byte) (dv : byte → Z).
Hypothesis (base_ge_2 : 2 ≤ base).
Hypothesis (digit_dv : ∀ r, Z.abs r < base → dv (digit r) = Z.abs r).

(** Enough fuel gives the digits, the most significant of which is not zero. *)
Lemma convert_loop_spec n : ∀ fuel i,
  (1 ≤ n ≤ fuel)%nat → Z.abs i < base ^ Z.of_nat n →
  ∃ l, convert_loop fuel base digit i = Some l ∧ (1 ≤ length l ≤ n)%nat ∧
       lsd_value base dv l = Z.abs i ∧ (∀ b, b ∈ l → ∃ r, Z.abs r < base ∧ b = digit r) ∧
       (i ≠ 0 → ∃ b, last l = Some b ∧ dv b ≠ 0).
Proof.
  induction n as [|n IH]; intros fuel i Hf Hi; [lia|]. destruct fuel as [|fuel]; [lia|]. cbn [convert_loop].
  assert (Z.abs (Z.rem i base) < base) as Hr.
  { rewrite <- (Z.abs_eq base) at 2 by lia. apply Z.rem_bound_abs. lia. }
  assert (Z.abs i = Z.abs (Z.rem i base) + base * Z.abs (Z.quot i base)) as Hsplit.
  { rewrite <- Z.rem_abs, <- Z.quot_abs by lia. rewrite !(Z.abs_eq base) by lia.
    pose proof (Z.quot_rem (Z.abs i) base). lia. }
  destruct (Z.eqb_spec (Z.quot i base) 0) as [Hz|Hnz].
  - rewrite Hz in Hsplit. exists [digit (Z.rem i base)]. split; [done|]. split; [cbn; lia|].
    split; [cbn [lsd_value]; rewrite digit_dv by done; lia|].
    split; [intros b Hb; apply list_elem_of_singleton in Hb as ->; eauto|].
    intros Hi0. exists (digit (Z.rem i base)). split; [done|]. rewrite digit_dv by done. lia.
  - assert (1 ≤ n)%nat.
    { destruct n; [|lia]. exfalso. rewrite Z.pow_1_r in Hi. nia. }
    destruct (IH fuel (Z.quot i base)) as (l & -> & Hlen & Hval & Hel & Hlast).
    { lia. }
    { rewrite Nat2Z.inj_succ, Z.pow_succ_r in Hi by lia. nia. }
    exists (digit (Z.rem i base) :: l). split; [done|]. split; [cbn; lia|].
    split; [cbn [lsd_value]; rewrite digit_dv by done; lia|]. split.
    + intros b Hb. apply elem_of_cons in Hb as [->|Hb]; eauto.
    + intros _. destruct (Hlast Hnz) as (b & Hb & ?). exists b. split; [|done].
      destruct l as [|c l]; done.
Qed.
End Convert.

(** Reading a number: an optional minus sign and decimal digits. *)
Definition decimal_value (t : list byte) : Z :=
  match t with
  | x2d :: t => - lsd_value 10 dec_digit (reverse t)
  | _ => lsd_value 10 dec_digit (reverse t)
  end.

(** The usual way to write an integer: no sign but a minus, no leading zeros. *)
Definition canonical_decimal (t : list byte) : Prop :=
  t = lit "0" ∨
  ∃ sign ds d, t = sign ++ d :: ds ∧ (sign = [] ∨ sign = [x2d]) ∧
    is_digit d = true ∧ dec_digit d ≠ 0 ∧ Forall (λ b, is_digit b = true) ds.

Lemma zero_at_digit r : Z.abs r < 10 → dec_digit (zero_at r) = Z.abs r ∧ is_digit (zero_at r) = true.
Proof.
  intros Hr. assert (r ∈ (λ k, Z.of_nat k - 9) <$> seq 0 19) as Hin.
  { apply list_elem_of_fmap. exists (Z.to_nat (r + 9)). split; [lia|]. apply elem_of_seq. lia. }
  revert Hin. clear Hr. revert r. apply Forall_forall. by repeat constructor.
Qed.

Lemma decimal_value_unsigned t :
  Forall (λ b, is_digit b = true) t → decimal_value t = lsd_value 10 dec_digit (reverse t).
Proof. intros [|b t' Hb _]; [done|]. by destruct b. Qed.

(** A list of digits whose last one is not zero, written the other way round. *)
Lemma reverse_canonical p b :
  (∀ x, x ∈ p → is_digit x = true) → last p = Some b → dec_digit b ≠ 0 →
  ∃ ds, reverse p = b :: ds ∧ is_digit b = true ∧ Forall (λ x, is_digit x = true) ds.
Proof.
  intros Hp Hlast Hb. apply last_Some in Hlast as [q ->]. exists (reverse q).
  rewrite reverse_app. split; [done|]. split; [apply Hp, elem_of_app; right; by apply list_elem_of_singleton|].
  apply Forall_reverse, Forall_forall. intros x Hx. apply Hp, elem_of_app. by left.
Qed.

(** At most [n] digits and a sign. *)
Lemma convert_digits n v :
  (1 ≤ n ≤ 64)%nat → Z.abs v < 10 ^ Z.of_nat n →
  ∃ t, convert v = Some t ∧ 1 ≤ size_of t ≤ Z.of_nat n + (if v <? 0 then 1 else 0) ∧ decimal_value t = v ∧ canonical_decimal t.
Proof.
  intros Hn Hv. destruct (decide (v = 0)) as [->|Hv0].
  { exists (lit "0"). split; [done|]. split; [change (size_of (lit "0")) with 1; cbn; lia|]. split; [done|by left]. }
  destruct (convert_loop_spec 10 zero_at dec_digit ltac:(lia) (λ r Hr, proj1 (zero_at_digit r Hr)) n 64 v)
    as (p & Hp & Hlen & Hval & Hel & Hlast); [lia|done|].
  assert (∀ x, x ∈ p → is_digit x = true) as Hdig.
  { intros x Hx. destruct (Hel x Hx) as (r & Hr & ->). by apply zero_at_digit. }
  destruct (Hlast Hv0) as (b & Hb & Hb0).
  destruct (reverse_canonical p b Hdig Hb Hb0) as (ds & Hrev & Hbd & Hds).
  unfold convert. rewrite Hp. cbn [mbind option_bind]. eexists. split; [done|].
  rewrite reverse_app. assert (lsd_value 10 dec_digit (reverse (reverse p)) = Z.abs v) as Hrv
    by (by rewrite reverse_involutive).
  assert (size_of (reverse p) = size_of p) as Hsz by (unfold size_of; by rewrite length_reverse).
  assert (1 ≤ size_of p ≤ Z.of_nat n) by (unfold size_of; lia).
  destruct (Z.ltb_spec v 0).
  - change (reverse [x2d] ++ reverse p) with (x2d :: reverse p). rewrite size_of_cons, Hsz.
    split; [lia|]. split; [cbn [decimal_value]; lia|]. right. exists [x2d], ds, b. rewrite Hrev. auto.
  - change (reverse [] ++ reverse p) with (reverse p). rewrite Hsz. split; [lia|].
    split; [|right; exists [], ds, b; rewrite Hrev; auto].
    rewrite decimal_value_unsigned by (rewrite Hrev; by constructor). lia.
Qed.

Lemma convert_spec v :
  Z.abs v < 10 ^ 20 →
  ∃ t, convert v = Some t ∧ 1 ≤ size_of t ≤ 21 ∧ decimal_value t = v ∧ canonical_decimal t.
Proof.
  intros Hv. destruct (convert_digits 20 v) as (t & ? & Hsz & ? & ?); [lia|done|].
  exists t. split_and!; try done; [lia|]. destruct (v <? 0); lia.
Qed.

Lemma digitsHex_digit r : 0 ≤ r < 16 → ∃ b, digitsHex !! Z.to_nat r = Some b.
Proof. intros. apply lookup_lt_is_Some_2. cbn. lia. Qed.

Definition hex_digit (b : byte) : Z :=
  if Z_of_byte b <? 65 then Z_of_byte b - 48 else Z_of_byte b - 55.

Lemma convertHex_spec v :
  0 ≤ v < 2 ^ 64 →
  ∃ t, convertHex v = Some t ∧ 1 ≤ size_of t ≤ 16 ∧ lsd_value 16 hex_digit (reverse t) = v.
Proof.
  intros Hv.
  destruct (convert_loop_spec 16 (λ r, digitsHex_at (Z.abs r)) hex_digit ltac:(lia)) with
    (n := 16%nat) (fuel := 64%nat) (i := v) as (p & Hp & Hlen & Hval & _); [|lia|lia|].
  { intros r Hr. assert (Z.abs r ∈ (λ k, Z.of_nat k) <$> seq 0 16) as Hin.
    { apply list_elem_of_fmap. exists (Z.to_nat (Z.abs r)). split; [lia|]. apply elem_of_seq. lia. }
    revert Hin. generalize (Z.abs r). apply Forall_forall. by repeat constructor. }
  assert (∀ n i, 0 ≤ i → convert_loop n 16 digitsHex_at i = convert_loop n 16 (λ r, digitsHex_at (Z.abs r)) i) as Heq.
  { induction n as [|n IH]; intros i Hi; [done|]. cbn [convert_loop].
    rewrite (Z.abs_eq (Z.rem i 16)) by (apply Z.rem_nonneg; lia).
    rewrite IH by (apply Z.quot_pos; lia). done. }
  unfold convertHex. rewrite Heq, Hp by lia. cbn. eexists. split; [done|].
  unfold size_of. rewrite length_reverse, reverse_involutive. split; lia.
Qed.

(** ** What a stream holds *)

(** The text of an item. *)
Definition item_text (snprintf_g : double → list byte) (it : Item) : list byte :=
  match it with
  | LBool v => if v then lit "1" else lit "0"
  | LInteger v => default [] (convert v)
  | LPointer p => lit "0x" ++ default [] (convertHex p)
  | LDouble v => snprintf_g v
  | LChar c => [c]
  | LCString (Some str) => str
  | LCString None => lit "(null)"
  | LString v => v
  | LBuffer v => toString v
  | LFmt text => text
  end.

Definition numeric (it : Item) : bool :=
  match it with LInteger _ | LPointer _ | LDouble _ => true | _ => false end.

(** Integers of at most 64 bits. *)
Definition item_ok (it : Item) : Prop :=
  match it with
  | LInteger v => - 2 ^ 63 ≤ v < 2 ^ 64
  | LPointer p => 0 ≤ p < 2 ^ 64
  | _ => True
  end.

(** A bounded log: an item is appended whole if there is room, or dropped. *)
Definition emit (SIZE : Z) (snprintf_g : double → list byte) (text : list byte) (it : Item) : list byte :=
  let t := item_text snprintf_g it in
  let room := SIZE - size_of text in
  if (if numeric it then kMaxNumericSize <=? room else size_of t <? room) then text ++ t else text.

Lemma store_spec data off bs :
  0 ≤ off → off + size_of bs ≤ size_of data →
  store data off bs ⇓ λ data', size_of data' = size_of data ∧
    ∀ k, 0 ≤ k ≤ size_of bs → slice data' 0 (off + k) = slice data 0 off ++ take (Z.to_nat k) bs.
Proof.
  intros Hoff Hle. unfold store. rewrite (proj2 (Z.leb_le 0 off)), (proj2 (Z.leb_le _ (size_of data))) by lia.
  pose proof (size_of_nonneg bs). cbn [andb yields]. split.
  - rewrite !size_of_app, size_of_take, size_of_drop by lia. lia.
  - intros k Hk. unfold slice. rewrite !Z.sub_0_r. cbn [Z.to_nat]. rewrite !drop_0.
    rewrite Z2Nat.inj_add, take_app_add' by (lia || (rewrite length_take; unfold size_of in *; lia)).
    f_equal. apply take_app_le. unfold size_of in *. lia.
Qed.

Record buffer_ok (SIZE : Z) (b : FixedBuffer) : Prop := {
  ok_size : size_of (data_ b) = SIZE;
  ok_cur : 0 ≤ cur_ b < SIZE
}.

Lemma toString_size SIZE b : buffer_ok SIZE b → size_of (toString b) = cur_ b.
Proof. intros [Hs Hc]. unfold toString, length_. rewrite size_of_slice by lia. lia. Qed.

Lemma fixed_append_spec SIZE b bs :
  buffer_ok SIZE b →
  append b bs ⇓ λ b', buffer_ok SIZE b' ∧
    toString b' = if size_of bs <? SIZE - cur_ b then toString b ++ bs else toString b.
Proof.
  intros [Hs Hc]. unfold append, avail. rewrite Hs.
  destruct (Z.ltb_spec (size_of bs) (SIZE - cur_ b)); [|by split].
  pose proof (size_of_nonneg bs).
  ystep store_spec; [lia..|]. intros data (Hsz & Hsl). apply yields_ret. split; [split; cbn; lia|].
  unfold toString, length_. cbn. rewrite Hsl by lia.
  rewrite (take_ge bs) by (unfold size_of; lia). done.
Qed.

(** A number of at most 31 characters, and a NUL, in the last 32 bytes. *)
Lemma write_number_spec SIZE b t :
  buffer_ok SIZE b → kMaxNumericSize ≤ SIZE - cur_ b → size_of t ≤ 31 →
  write_number b (Some t) ⇓ λ b', buffer_ok SIZE b' ∧ toString b' = toString b ++ t.
Proof.
  intros [Hs Hc] Hroom Ht. unfold kMaxNumericSize in Hroom. unfold write_number, write_current.
  pose proof (size_of_nonneg t).
  assert (size_of (t ++ [x00]) = size_of t + 1) as Hsz1 by (rewrite size_of_app; done).
  apply yields_bind. ystep store_spec; [lia..|]. intros data (Hsz & Hsl). apply yields_ret, yields_ret.
  split; [split; cbn; lia|]. unfold toString, length_. cbn. rewrite Hsl by lia.
  rewrite take_app_le, (take_ge t) by (unfold size_of; lia). done.
Qed.

Section Refinement.
Context (snprintf_g : double → list byte) (SIZE : Z).
(** "%.12g" prints at most a sign, a point, twelve digits and an exponent. *)
Hypothesis (snprintf_g_short : ∀ v, size_of (snprintf_g v) ≤ 31).

Lemma shift_left_spec b it :
  buffer_ok SIZE b → item_ok it →
  shift_left snprintf_g b it ⇓ λ b', buffer_ok SIZE b' ∧ toString b' = emit SIZE snprintf_g (toString b) it.
Proof.
  intros Hok Hit. unfold emit. rewrite (toString_size SIZE) by done. pose proof (ok_size _ _ Hok) as Hs.
  assert (∀ t, append b t ⇓ λ b', buffer_ok SIZE b' ∧
    toString b' = if size_of t <? SIZE - cur_ b then toString b ++ t else toString b) as Happ
    by (intros t; by apply fixed_append_spec).
  destruct it as [v|v|p|v|c|[str|]|v|v|text]; cbn [numeric shift_left item_text]; try apply Happ.
  - unfold formatInteger, avail. rewrite Hs. destruct (Z.leb_spec kMaxNumericSize (SIZE - cur_ b)); [|done].
    destruct (convert_spec v) as (t & -> & Ht & _); [unfold item_ok in Hit; lia|]. apply (write_number_spec SIZE b t); [done|done|lia].
  - unfold shift_pointer, avail. rewrite Hs. destruct (Z.leb_spec kMaxNumericSize (SIZE - cur_ b)); [|done].
    destruct (convertHex_spec p) as (t & -> & Ht & _); [done|]. cbn [mbind option_bind].
    apply (write_number_spec SIZE b (lit "0x" ++ t)); [done|done|]. rewrite size_of_app. change (size_of (lit "0x")) with 2. lia.
  - unfold shift_double, avail. rewrite Hs. destruct (Z.leb_spec kMaxNumericSize (SIZE - cur_ b)); [|done].
    rewrite take_ge by (specialize (snprintf_g_short v); unfold size_of in *; lia).
    by apply write_number_spec.
Qed.

Lemma shift_all_spec its : ∀ b,
  buffer_ok SIZE b → Forall item_ok its →
  shift_all snprintf_g b its ⇓ λ b', buffer_ok SIZE b' ∧
    toString b' = foldl (emit SIZE snprintf_g) (toString b) its.
Proof.
  induction its as [|it its IH]; intros b Hok Hits; [by apply yields_ret|].
  apply Forall_cons in Hits as [Hit Hits]. cbn [shift_all foldl].
  ystep shift_left_spec; [done|done|]. intros b' (Hok' & <-). by apply IH.
Qed.

(** C40. Log streams.  Whatever is shifted into a stream, nothing is written
    outside its array: the stream holds the texts of the items in order, each
    one whole or, when there is no room for it, not at all, and one byte for
    the terminating NUL is always left. *)
Theorem log_stream_bounded data its :
  0 < SIZE → size_of data = SIZE → Forall item_ok its →
  shift_all snprintf_g (FixedBuffer_new data) its ⇓ λ b,
    toString b = foldl (emit SIZE snprintf_g) [] its ∧ size_of (toString b) < SIZE ∧
    debugString b ⇓ λ b', toString b' = toString b.
Proof.
  intros Hpos Hs Hits. eapply yields_mono; [apply shift_all_spec; [split; cbn; lia|done]|].
  intros b (Hok & Htext). split_and!.
  - rewrite Htext. f_equal.
  - rewrite (toString_size SIZE) by done. apply Hok.
  - destruct Hok as [Hs' Hc]. unfold debugString, write_current.
    ystep store_spec; [lia|change (size_of [x00]) with 1; lia|]. intros d (_ & Hsl). apply yields_ret.
    unfold toString, length_. cbn. specialize (Hsl 0 ltac:(pose proof (size_of_nonneg [x00]); lia)). rewrite Z.add_0_r in Hsl.
    rewrite Hsl. apply app_nil_r.
Qed.

(** Integers in a log.  An integer of any type of at most 64 bits, signed
    or unsigned, the smallest ones included, appears as its usual decimal
    notation, which reads back as the same integer. *)
Theorem integer_text_roundtrip b v :
  buffer_ok SIZE b → kMaxNumericSize ≤ SIZE - cur_ b → - 2 ^ 63 ≤ v < 2 ^ 64 →
  shift_left snprintf_g b (LInteger v) ⇓ λ b',
    ∃ t, toString b' = toString b ++ t ∧ canonical_decimal t ∧ decimal_value t = v.
Proof.
  intros Hok Hroom Hv. eapply yields_mono; [by apply shift_left_spec|].
  intros b' (_ & ->). unfold emit. cbn [numeric item_text].
  rewrite (toString_size SIZE), (proj2 (Z.leb_le _ _) Hroom) by done.
  destruct (convert_spec v) as (t & -> & _ & Hval & Hcan); [lia|]. eauto.
Qed.
End Refinement.

(** ** Texts that fit *)

Definition texts (snprintf_g : double → list byte) (its : list Item) : list byte := concat (item_text snprintf_g <$> its).

Lemma emit_all snprintf_g SIZE its : ∀ text,
  size_of (text ++ texts snprintf_g its) + kMaxNumericSize ≤ SIZE → foldl (emit SIZE snprintf_g) text its = text ++ texts snprintf_g its.
Proof.
  induction its as [|it its IH]; intros text Hsize; [by rewrite app_nil_r|].
  change (texts snprintf_g (it :: its)) with (item_text snprintf_g it ++ texts snprintf_g its) in *. rewrite app_assoc in Hsize |- *.
  cbn [foldl]. assert (emit SIZE snprintf_g text it = text ++ item_text snprintf_g it) as ->; [|by apply IH].
  rewrite !size_of_app in Hsize. pose proof (size_of_nonneg (item_text snprintf_g it)). pose proof (size_of_nonneg (texts snprintf_g its)).
  unfold kMaxNumericSize in Hsize. unfold emit. destruct (numeric it).
  - rewrite (proj2 (Z.leb_le _ _)); [done|]. unfold kMaxNumericSize. lia.
  - rewrite (proj2 (Z.ltb_lt _ _)); [done|]. lia.
Qed.

(** [convert] prints what [%d] does. *)
Lemma num_digits_step n : 10 ≤ n → num_digits n = S (num_digits (n / 10)).
Proof.
  intros Hn. assert (0 ≤ n / 10) as Hq by (apply Z.div_pos; lia).
  destruct (num_digits_spec n) as (H1 & H2 & H3); [lia|]. destruct (num_digits_spec (n / 10) Hq) as (Q1 & Q2 & Q3).
  apply Nat.le_antisymm.
  - apply H3; [lia|]. rewrite Nat2Z.inj_succ, Z.pow_succ_r by lia.
    pose proof (Z.div_mod n 10). pose proof (Z.mod_pos_bound n 10). lia.
  - destruct (num_digits n) as [|[|k]]; [lia|cbn in H1; lia|]. apply le_n_S, Q3; [lia|].
    rewrite (Nat2Z.inj_succ (S k)), Z.pow_succ_r in H1 by lia. apply Z.div_lt_upper_bound; lia.
Qed.

Lemma zero_at_nonneg r : 0 ≤ r < 10 → zero_at r = digit r.
Proof.
  intros Hr. assert (r ∈ Z.of_nat <$> seq 0 10) as Hin.
  { apply list_elem_of_fmap. exists (Z.to_nat r). split; [lia|]. apply elem_of_seq. lia. }
  clear Hr. revert r Hin. apply Forall_forall. by repeat constructor.
Qed.

Lemma convert_loop_digits fuel : ∀ n,
  0 ≤ n → (num_digits n ≤ fuel)%nat → convert_loop fuel 10 zero_at n = Some (reverse (dec_digits (num_digits n) n)).
Proof.
  induction fuel as [|fuel IH]; intros n Hn Hf; [pose proof (proj1 (proj2 (num_digits_spec n Hn))); lia|].
  cbn [convert_loop]. rewrite Z.rem_mod_nonneg, Z.quot_div_nonneg by lia.
  destruct (Z.eqb_spec (n / 10) 0) as [Hz|Hz].
  - assert (n < 10) as Hlt by (pose proof (Z.div_mod n 10); pose proof (Z.mod_pos_bound n 10); lia).
    assert (num_digits n = 1%nat) as ->.
    { destruct (num_digits_spec n Hn) as (_ & H1 & Hk). specialize (Hk 1%nat ltac:(lia) ltac:(cbn; lia)). lia. }
    cbn [dec_digits]. by rewrite zero_at_nonneg by (apply Z.mod_pos_bound; lia).
  - assert (10 ≤ n) as Hge by (destruct (Z.le_gt_cases 10 n); [done|]; rewrite Z.div_small in Hz by lia; done).
    rewrite num_digits_step in Hf |- * by done. rewrite IH by (try apply Z.div_pos; lia). cbn [mbind option_bind dec_digits].
    rewrite reverse_app, zero_at_nonneg by (apply Z.mod_pos_bound; lia). done.
Qed.

Lemma convert_decimal v : 0 ≤ v < 10 ^ 20 → convert v = Some (decimal v).
Proof.
  intros Hv. destruct (num_digits_spec v) as (_ & _ & Hk); [lia|]. specialize (Hk 20%nat ltac:(lia) ltac:(cbn; lia)).
  unfold convert, decimal, sign. rewrite convert_loop_digits by lia. rewrite (proj2 (Z.ltb_ge v 0)) by lia. cbn.
  by rewrite app_nil_r, reverse_involutive, Z.abs_eq by lia.
Qed.

Lemma log_stream_bounded_witness :
  shift_all (λ _, []) (FixedBuffer_new (replicate 40 x00)) [LString (lit "n="); LInteger (-42); LInteger 7] ⇓
    λ b, toString b = lit "n=-427".
Proof.
  eapply yields_mono.
  - apply (log_stream_bounded (λ _, []) 40); [by intros ?|lia|reflexivity|]. by repeat constructor.
  - intros b (Ht & _). rewrite Ht. reflexivity.
Defined.

Lemma integer_text_roundtrip_witness :
  shift_left (λ _, []) (FixedBuffer_new (replicate 40 x00)) (LInteger (- 2 ^ 63)) ⇓
    λ b', ∃ t, toString b' = [] ++ t ∧ canonical_decimal t ∧ decimal_value t = - 2 ^ 63.
Proof.
  apply (integer_text_roundtrip (λ _, []) 40); [done|by split|by vm_compute|lia].
Defined.
