(* ===== verification/Connector.v ===== *)
(** * Connectors (muduo/net/Connector.h, Connector.cc)

    A connector, the part of the event loop it uses (the functors it queues,
    the timers it sets, the phase of the loop) and the sockets it owns.  The
    kernel's answers are arguments: the descriptor of a new socket, the
    [errno] of [connect], the error of a socket. *)
From stdpp Require Import base numbers list.
From S2P Require Import Prelude.
Open Scope Z_scope.
Open Scope muduo_scope.

Inductive States := kDisconnected | kConnecting | kConnected.

Definition kMaxRetryDelayMs : Z := 30 * 1000.
Definition kInitRetryDelayMs : Z := 500.

Inductive Errno :=
  | ESUCCESS | EINPROGRESS | EINTR | EISCONN
  | EAGAIN | EADDRINUSE | EADDRNOTAVAIL | ECONNREFUSED | ENETUNREACH
  | EACCES | EPERM | EAFNOSUPPORT | EALREADY | EBADF | EFAULT | ENOTSOCK
  | EOTHER.

(** The channel of a connection in progress: registered as long as it writes. *)
Record WriteChannel := mkWriteChannel { fd : Z; writing : bool }.

(** What is queued in the loop. *)
Inductive Functor := FStartInLoop | FStopInLoop | FResetChannel.

#[export] Instance States_eq_dec : EqDecision States.
Proof. solve_decision. Defined.
#[export] Instance Functor_eq_dec : EqDecision Functor.
Proof. solve_decision. Defined.

Record Connector := mkConnector {
  connect_ : bool;
  state_ : States;
  channel_ : option WriteChannel;
  retryDelayMs_ : Z;
  (** the loop: its turn; the functors being run, when it runs functors;
      those queued; the timers, with the turn in which they were set *)
  turn : nat;
  batch : option (list Functor);
  pendingFunctors_ : list Functor;
  timers : list (nat * Z);
  (** open sockets that are ours, and those handed to [newConnectionCallback_] *)
  open_fds : list Z;
  delivered : list Z;
  (** how it has been used: [start] and [stop] were called; the turn of the
      last connection *)
  started : bool;
  stopped : bool;
  connected_at : nat
}.

Definition Connector_new : Connector :=
  mkConnector false kDisconnected None kInitRetryDelayMs 0 None [] [] [] [] false false 0.

Definition setState (s : States) (c : Connector) : Connector :=
  mkConnector (connect_ c) s (channel_ c) (retryDelayMs_ c) (turn c) (batch c) (pendingFunctors_ c)
    (timers c) (open_fds c) (delivered c) (started c) (stopped c) (connected_at c).
Definition set_connect (v : bool) (c : Connector) : Connector :=
  mkConnector v (state_ c) (channel_ c) (retryDelayMs_ c) (turn c) (batch c) (pendingFunctors_ c)
    (timers c) (open_fds c) (delivered c) (started c) (stopped c) (connected_at c).
Definition set_channel (ch : option WriteChannel) (c : Connector) : Connector :=
  mkConnector (connect_ c) (state_ c) ch (retryDelayMs_ c) (turn c) (batch c) (pendingFunctors_ c)
    (timers c) (open_fds c) (delivered c) (started c) (stopped c) (connected_at c).
Definition set_delay (d : Z) (c : Connector) : Connector :=
  mkConnector (connect_ c) (state_ c) (channel_ c) d (turn c) (batch c) (pendingFunctors_ c)
    (timers c) (open_fds c) (delivered c) (started c) (stopped c) (connected_at c).
Definition queueInLoop (f : Functor) (c : Connector) : Connector :=
  mkConnector (connect_ c) (state_ c) (channel_ c) (retryDelayMs_ c) (turn c) (batch c)
    (pendingFunctors_ c ++ [f]) (timers c) (open_fds c) (delivered c) (started c) (stopped c) (connected_at c).
Definition set_loop (t : nat) (b : option (list Functor)) (p : list Functor) (c : Connector) : Connector :=
  mkConnector (connect_ c) (state_ c) (channel_ c) (retryDelayMs_ c) t b p
    (timers c) (open_fds c) (delivered c) (started c) (stopped c) (connected_at c).
Definition set_timers (ts : list (nat * Z)) (c : Connector) : Connector :=
  mkConnector (connect_ c) (state_ c) (channel_ c) (retryDelayMs_ c) (turn c) (batch c) (pendingFunctors_ c)
    ts (open_fds c) (delivered c) (started c) (stopped c) (connected_at c).
Definition set_sockets (o d : list Z) (c : Connector) : Connector :=
  mkConnector (connect_ c) (state_ c) (channel_ c) (retryDelayMs_ c) (turn c) (batch c) (pendingFunctors_ c)
    (timers c) o d (started c) (stopped c) (connected_at c).
Definition set_usage (st sp : bool) (ca : nat) (c : Connector) : Connector :=
  mkConnector (connect_ c) (state_ c) (channel_ c) (retryDelayMs_ c) (turn c) (batch c) (pendingFunctors_ c)
    (timers c) (open_fds c) (delivered c) st sp ca.

Definition without (sockfd : Z) (fds : list Z) : list Z := filter (λ x, x ≠ sockfd) fds.
Arguments without : simpl never.

(** [sockets::createNonblockingOrDie], [sockets::close] (which logs when the descriptor is not open), handing a socket on. *)
Definition create_socket (sockfd : Z) (c : Connector) : Connector :=
  set_sockets (open_fds c ++ [sockfd]) (delivered c) c.
Definition close_socket (sockfd : Z) (c : Connector) : Connector :=
  set_sockets (without sockfd (open_fds c)) (delivered c) c.
Definition newConnectionCallback_ (sockfd : Z) (c : Connector) : Connector :=
  set_sockets (without sockfd (open_fds c)) (delivered c ++ [sockfd]) c.

(** ** Operations *)

Definition retry (sockfd : Z) (c : Connector) : Connector :=
  let c := setState kDisconnected (close_socket sockfd c) in
  if connect_ c then
    let c := set_timers (timers c ++ [(turn c, retryDelayMs_ c)]) c in
    set_delay (Z.min (retryDelayMs_ c * 2) kMaxRetryDelayMs) c
  else c.

Definition connecting (sockfd : Z) (c : Connector) : outcome Connector :=
  let c := setState kConnecting c in
  _ ← assertb 131 (bool_decide (channel_ c = None));
  mret (set_channel (Some (mkWriteChannel sockfd true)) c).

(** The socket and the [errno] of [connect], [ESUCCESS] when it returns 0. *)
Definition connect (sockfd : Z) (savedErrno : Errno) (c : Connector) : outcome Connector :=
  let c := create_socket sockfd c in
  match savedErrno with
  | ESUCCESS | EINPROGRESS | EINTR | EISCONN => connecting sockfd c
  | EAGAIN | EADDRINUSE | EADDRNOTAVAIL | ECONNREFUSED | ENETUNREACH => mret (retry sockfd c)
  | EACCES | EPERM | EAFNOSUPPORT | EALREADY | EBADF | EFAULT | ENOTSOCK => mret (close_socket sockfd c)
  | EOTHER => mret (close_socket sockfd c)
  end.

Definition startInLoop (sockfd : Z) (e : Errno) (c : Connector) : outcome Connector :=
  _ ← assertb 49 (bool_decide (state_ c = kDisconnected));
  if connect_ c then connect sockfd e c else mret c.

Definition start (inLoopThread : bool) (sockfd : Z) (e : Errno) (c : Connector) : outcome Connector :=
  let c := set_usage true (stopped c) (connected_at c) (set_connect true c) in
  if inLoopThread then startInLoop sockfd e c else mret (queueInLoop FStartInLoop c).

Definition removeAndResetChannel (c : Connector) : outcome (Z * Connector) :=
  match channel_ c with
  | None => Fault BadDeref
  | Some ch =>
    let c := set_channel (Some (mkWriteChannel (fd ch) false)) c in
    mret (fd ch, queueInLoop FResetChannel c)
  end.

Definition resetChannel (c : Connector) : Connector := set_channel None c.

Definition stop (c : Connector) : Connector :=
  queueInLoop FStopInLoop (set_usage (started c) true (connected_at c) (set_connect false c)).

Definition stopInLoop (c : Connector) : outcome Connector :=
  match state_ c with
  | kConnecting =>
    '(sockfd, c) ← removeAndResetChannel (setState kDisconnected c);
    mret (retry sockfd c)
  | _ => mret c
  end.

Definition restart (sockfd : Z) (e : Errno) (c : Connector) : outcome Connector :=
  let c := setState kDisconnected c in
  let c := set_delay kInitRetryDelayMs c in
  let c := set_connect true c in
  startInLoop sockfd e c.

(** [err] is SO_ERROR of the socket. *)
Definition handleWrite (err : Z) (isSelfConnect : bool) (c : Connector) : outcome Connector :=
  match state_ c with
  | kConnecting =>
    '(sockfd, c) ← removeAndResetChannel c;
    if negb (err =? 0) then mret (retry sockfd c)
    else if isSelfConnect then mret (retry sockfd c)
    else
      let c := set_usage (started c) (stopped c) (turn c) (setState kConnected c) in
      mret (if connect_ c then newConnectionCallback_ sockfd c else close_socket sockfd c)
  | _ => _ ← assertb 193 (bool_decide (state_ c = kDisconnected)); mret c
  end.

Definition handleError (c : Connector) : outcome Connector :=
  match state_ c with
  | kConnecting => '(sockfd, c) ← removeAndResetChannel c; mret (retry sockfd c)
  | _ => mret c
  end.

Definition Connector_destructor (c : Connector) : outcome unit :=
  assertb 37 (bool_decide (channel_ c = None)).

(** ** The loop *)

(** [Channel::handleEvent]: the error callback, then the write callback. *)
Definition handleEvent (error write : bool) (err : Z) (isSelfConnect : bool) (c : Connector) : outcome Connector :=
  c ← (if error then handleError c else mret c);
  if write then handleWrite err isSelfConnect c else mret c.

Definition run_functor (f : Functor) (sockfd : Z) (e : Errno) (c : Connector) : outcome Connector :=
  match f with
  | FStartInLoop => startInLoop sockfd e c
  | FStopInLoop => stopInLoop c
  | FResetChannel => mret (resetChannel c)
  end.

Inductive Input :=
  | IStart (inLoopThread : bool) (sockfd : Z) (e : Errno)
  | IStop
  | IRestart (sockfd : Z) (e : Errno)
  | IEvent (error write : bool) (err : Z) (isSelfConnect : bool)
  | ITimer (i : nat) (sockfd : Z) (e : Errno)
  | IBeginFunctors
  | IFunctor (sockfd : Z) (e : Errno)
  | IEndFunctors.

Definition exec (i : Input) (c : Connector) : outcome Connector :=
  match i with
  | IStart inLoop sockfd e => start inLoop sockfd e c
  | IStop => mret (stop c)
  | IRestart sockfd e => restart sockfd e c
  | IEvent error write err self => handleEvent error write err self c
  | ITimer i sockfd e => startInLoop sockfd e (set_timers (delete i (timers c)) c)
  | IBeginFunctors => mret (set_loop (turn c) (Some (pendingFunctors_ c)) [] c)
  | IFunctor sockfd e =>
    match batch c with
    | Some (f :: rest) => run_functor f sockfd e (set_loop (turn c) (Some rest) (pendingFunctors_ c) c)
    | _ => mret c
    end
  | IEndFunctors => mret (set_loop (S (turn c)) None (pendingFunctors_ c) c)
  end.

Fixpoint exec_all (inputs : list Input) (c : Connector) : outcome Connector :=
  match inputs with
  | [] => mret c
  | i :: inputs => c ← exec i c; exec_all inputs c
  end.

(** The functors that have not run yet. *)
Definition queued (c : Connector) : list Functor := default [] (batch c) ++ pendingFunctors_ c.
Definition same (f g : Functor) : bool :=
  match f, g with
  | FStartInLoop, FStartInLoop | FStopInLoop, FStopInLoop | FResetChannel, FResetChannel => true
  | _, _ => false
  end.
Definition occurrences (f : Functor) (q : list Functor) : nat :=
  length (filter (λ g, same f g = true) q).
Arguments occurrences : simpl never.

Lemma occurrences_app f q q' : occurrences f (q ++ q') = (occurrences f q + occurrences f q')%nat.
Proof. unfold occurrences. by rewrite filter_app, length_app. Qed.
Lemma occurrences_cons f g q :
  occurrences f (g :: q) = ((if same f g then 1 else 0) + occurrences f q)%nat.
Proof. unfold occurrences. rewrite filter_cons. by destruct (same f g). Qed.
Lemma occurrences_nil f : occurrences f [] = 0%nat.
Proof. done. Qed.

(** How a connector is used, and what the loop does: [start] is called once,
    [restart] only when it has made a connection and its channel has been reset,
    neither after [stop]; events come from a registered channel and timers from
    earlier turns, while no functors are run. *)
Definition allowed (i : Input) (c : Connector) : bool :=
  match i with
  | IStart _ _ _ => negb (started c) && negb (stopped c)
  | IStop => true
  | IRestart _ _ => started c && negb (stopped c) && bool_decide (state_ c = kConnected) &&
                    (occurrences FResetChannel (queued c) =? 0)%nat
  | IEvent _ _ _ _ => bool_decide (batch c = None) && (if channel_ c is Some ch then writing ch else false)
  | ITimer i _ _ => bool_decide (batch c = None) &&
                    (if timers c !! i is Some (t, _) then (t <? turn c)%nat else false)
  | IBeginFunctors => bool_decide (batch c = None)
  | IFunctor _ _ => if batch c is Some (_ :: _) then true else false
  | IEndFunctors => bool_decide (batch c = Some [])
  end.

Fixpoint allowed_all (inputs : list Input) (c : Connector) : bool :=
  match inputs with
  | [] => true
  | i :: inputs =>
    allowed i c && match exec i c with Ok c' => allowed_all inputs c' | Fault _ => true end
  end.

(** ** The invariant *)

(** A delay of the exponential backoff. *)
Definition backoff (k : nat) : Z := Z.min (kInitRetryDelayMs * 2 ^ Z.of_nat k) kMaxRetryDelayMs.

Definition nothing_going_on (c : Connector) : Prop :=
  state_ c = kDisconnected ∧ channel_ c = None ∧ timers c = [] ∧ open_fds c = [].

Record connector_inv (c : Connector) : Prop := {
  inv_timers : timers c = [] ∨ state_ c = kDisconnected ∧ ∃ t k, timers c = [(t, backoff k)];
  inv_unstarted : started c = false → nothing_going_on c ∧ occurrences FStartInLoop (queued c) = 0%nat;
  inv_start : occurrences FStartInLoop (queued c) = 0%nat ∨
              occurrences FStartInLoop (queued c) = 1%nat ∧ nothing_going_on c;
  inv_sockets :
    match state_ c with
    | kConnecting => ∃ sockfd, channel_ c = Some (mkWriteChannel sockfd true) ∧ open_fds c = [sockfd]
    | _ => open_fds c = [] ∧ ∀ ch, channel_ c = Some ch → writing ch = false
    end;
  inv_reset : occurrences FResetChannel (queued c) =
              if channel_ c is Some (mkWriteChannel _ false) then 1%nat else 0%nat;
  inv_fresh : occurrences FResetChannel (queued c) ≠ 0%nat → stopped c = true ∨ Forall (λ t, t.1 = turn c) (timers c);
  inv_connected : state_ c = kConnected → (occurrences FResetChannel (queued c) ≠ 0%nat → connected_at c = turn c) ∧
                  (batch c ≠ None → occurrences FResetChannel (pendingFunctors_ c) = 0%nat);
  inv_batch : batch c ≠ None → occurrences FResetChannel (pendingFunctors_ c) ≠ 0%nat → stopped c = true;
  inv_stop : stopped c = true → connect_ c = false ∧
             (state_ c = kConnecting → occurrences FStopInLoop (queued c) ≠ 0%nat);
  inv_stopping : occurrences FStopInLoop (queued c) ≠ 0%nat → stopped c = true;
  inv_delay : ∃ k, retryDelayMs_ c = backoff k
}.

Lemma connector_inv_new : connector_inv Connector_new.
Proof. split; cbn; try done; auto. exists 0%nat. done. Qed.

Lemma backoff_next k : Z.min (backoff k * 2) kMaxRetryDelayMs = backoff (S k).
Proof.
  unfold backoff, kInitRetryDelayMs, kMaxRetryDelayMs. rewrite Nat2Z.inj_succ, Z.pow_succ_r by lia. lia.
Qed.

(** ** What the operations preserve *)

Lemma without_self (x : Z) : without x [x] = [].
Proof. unfold without. rewrite filter_cons_False; [done|]. intros H. by apply H. Qed.

(** The cases of the invariant, for a connector whose fields are known. *)
Ltac open_connector c :=
  destruct c as [cn st ch dl tn ba pe ti op de sd sp ca];
  unfold nothing_going_on, queued in *; cbn in *; subst.
Ltac inv_fields :=
  split; unfold nothing_going_on, queued in *; cbn in *;
  rewrite ?occurrences_cons, ?occurrences_app, ?occurrences_cons, ?occurrences_nil in *; cbn in *; rewrite ?Nat.add_0_r in *.

Ltac solve_field :=
  match goal with
  | |- ∃ k, _ = backoff k => first [eexists; reflexivity|eexists; apply backoff_next]
  | _ => try done; first [lia|solve [left; lia]|solve [split; [done|by intros ? [= <-]]]
                         |solve [right; eauto]|solve [intros; right; by repeat constructor]
                         |solve [intros ->; match goal with H : true = true → _ |- _ => destruct (H eq_refl) end; auto]
                         |solve [let E := fresh in let Hc := fresh in intros E;
                                 match goal with H : _ = kConnected → _ ∧ _ |- _ => destruct (H E) as [? Hc] end;
                                 try specialize (Hc ltac:(done)); split; intros;
                                 first [lia|done|match goal with H : _ → _ = _ |- _ => apply H; lia end]]
                         |solve [eexists; split; reflexivity]|solve [auto]|idtac]
  end.

(** The first attempt, and the next one. *)
Lemma connect_inv sockfd e c :
  connector_inv c → nothing_going_on c → occurrences FStartInLoop (queued c) = 0%nat →
  started c = true → stopped c = false →
  connect sockfd e c ⇓ connector_inv.
Proof.
  intros [Ht Hu Hs Hk Hr Hf Hcd Hb Hp Hq [k Hd]] (H1 & H2 & H3 & H4) H0 Hst Hsp.
  open_connector c.
  assert (connector_inv (close_socket sockfd (create_socket sockfd
    (mkConnector cn kDisconnected None (backoff k) tn ba pe [] [] de true false ca)))) as Hclose.
  { unfold close_socket, create_socket. cbn. rewrite without_self. inv_fields; solve_field. }
  assert (connector_inv (retry sockfd (create_socket sockfd
    (mkConnector cn kDisconnected None (backoff k) tn ba pe [] [] de true false ca)))) as Hretry.
  { unfold retry, close_socket, create_socket. cbn. rewrite without_self. destruct cn; [|inv_fields; solve_field].
    inv_fields; solve_field. }
  assert (connecting sockfd (create_socket sockfd
    (mkConnector cn kDisconnected None (backoff k) tn ba pe [] [] de true false ca)) ⇓ connector_inv) as Hconn.
  { unfold connecting. cbn. inv_fields; solve_field. }
  by destruct e.
Qed.

(** Giving up an attempt, from an event or from [stopInLoop]. *)
Lemma give_up_inv s0 c :
  connector_inv c → state_ c = kConnecting → (batch c ≠ None → stopped c = true) →
  (removeAndResetChannel (setState s0 c) ⇓ λ '(sockfd, c'),
     connector_inv (retry sockfd c') ∧ state_ (retry sockfd c') = kDisconnected).
Proof.
  intros [Ht Hu Hs Hk Hr Hf Hcd Hb Hp Hq [k Hd]] H1 Hsp. rewrite H1 in Hk.
  destruct Hk as (sockfd & H2 & H3). open_connector c.
  destruct Ht as [->|[? _]]; [|done]. destruct Hs as [Hs|[_ [? _]]]; [|done].
  destruct sd; [|by destruct (Hu eq_refl) as [[? _] _]]. clear Hu Hf.
  unfold removeAndResetChannel. cbn. unfold retry, close_socket. cbn. rewrite without_self.
  destruct cn; cbn; (split; [|done]); inv_fields; solve_field.
Qed.

(** Without an attempt in progress, the channel is gone once its reset has run. *)
Lemma no_channel c :
  connector_inv c → state_ c ≠ kConnecting → occurrences FResetChannel (queued c) = 0%nat →
  channel_ c = None ∧ open_fds c = [].
Proof.
  intros Hc Hst Hr. pose proof (inv_sockets c Hc) as Hk. pose proof (inv_reset c Hc) as Hr'.
  destruct (state_ c); [|done|]; destruct Hk as [Ho Hw]; (split; [|done]);
    (destruct (channel_ c) as [[f [|]]|]; [by specialize (Hw _ eq_refl)|congruence|done]).
Qed.

Lemma start_inv inLoop sockfd e c :
  connector_inv c → started c = false → stopped c = false → start inLoop sockfd e c ⇓ connector_inv.
Proof.
  intros Hc Hst Hsp. destruct (inv_unstarted c Hc Hst) as [Hn Hq].
  assert (connector_inv (set_usage true (stopped c) (connected_at c) (set_connect true c))) as Hc'.
  { destruct Hc. open_connector c. inv_fields; try done; solve_field. }
  unfold start. destruct inLoop.
  - unfold startInLoop. apply yields_bind, yields_assert; [by rewrite bool_decide_true by apply Hn|].
    apply connect_inv; done.
  - clear Hc'. destruct Hc. destruct Hn as (? & ? & ? & ?). open_connector c. inv_fields; try done; solve_field.
    right. split; [lia|done].
Qed.

Lemma stop_inv c : connector_inv c → connector_inv (stop c).
Proof.
  intros [Ht Hu Hs Hk Hr Hf Hcd Hb Hp Hq Hd]. open_connector c. inv_fields; try done; solve_field.
Qed.

(** The timer of a retry: its functor is gone, and so is the channel it was set with. *)
Lemma timer_inv i sockfd e c :
  connector_inv c → allowed (ITimer i sockfd e) c = true → exec (ITimer i sockfd e) c ⇓ connector_inv.
Proof.
  intros Hc Ha. cbn in Ha. apply andb_true_iff in Ha as [Hb%bool_decide_eq_true Hi].
  destruct (timers c !! i) as [[t d]|] eqn:Ht; [|done]. apply Nat.ltb_lt in Hi.
  destruct (inv_timers c Hc) as [E|(Hst & t' & k & E)]; [by rewrite E in Ht|].
  rewrite E in Ht. destruct i as [|i]; [|done]. injection Ht as -> <-.
  assert (connector_inv (set_timers [] c)) as Hc'.
  { clear Hi. destruct Hc. open_connector c. inv_fields; try done; solve_field.
    all: clear inv_fresh0 inv_batch0 inv_stop0 inv_reset0; intuition congruence. }
  cbn. rewrite E. cbn. unfold startInLoop. apply yields_bind, yields_assert; [by rewrite bool_decide_true|].
  cbn. destruct (connect_ c) eqn:Hcn; [|done].
  assert (stopped c = false) as Hsp.
  { destruct (stopped c) eqn:Hs; [|done]. destruct (inv_stop c Hc Hs). congruence. }
  assert (occurrences FResetChannel (queued c) = 0%nat) as Hr.
  { destruct (decide (occurrences FResetChannel (queued c) = 0%nat)) as [|Hne]; [done|].
    destruct (inv_fresh c Hc Hne) as [?|Hall]; [congruence|].
    rewrite E in Hall. inversion Hall; subst. cbn in *. lia. }
  destruct (no_channel c Hc) as [Hch Ho]; [congruence|done|].
  assert (occurrences FStartInLoop (queued c) = 0%nat) as Hq.
  { destruct (inv_start c Hc) as [|[_ (_ & _ & ? & _)]]; [done|congruence]. }
  apply connect_inv; try done.
  cbn. destruct (started c) eqn:Hsd; [done|]. destruct (inv_unstarted c Hc Hsd) as [(_ & _ & ? & _) _]. congruence.
Qed.

Lemma restart_inv sockfd e c :
  connector_inv c → allowed (IRestart sockfd e) c = true → restart sockfd e c ⇓ connector_inv.
Proof.
  intros Hc Ha. unfold allowed in Ha. rewrite !andb_true_iff, negb_true_iff, bool_decide_eq_true, Nat.eqb_eq in Ha.
  destruct Ha as (((Hst & Hsp) & Hs) & Hr).
  destruct (no_channel c Hc) as [Hch Ho]; [congruence|done|].
  assert (occurrences FStartInLoop (queued c) = 0%nat) as Hq.
  { destruct (inv_start c Hc) as [|[_ (? & _)]]; [done|congruence]. }
  assert (timers c = []) as Ht by (destruct (inv_timers c Hc) as [|[? _]]; [done|congruence]).
  unfold restart, startInLoop. apply yields_bind, yields_assert; [by rewrite bool_decide_true|]. cbn.
  apply connect_inv; try done. destruct Hc. open_connector c. inv_fields; try done; solve_field.
  exists 0%nat. done.
Qed.

Lemma setState_same c : setState (state_ c) c = c.
Proof. by destruct c. Qed.

(** An event of a channel that is registered. *)
Lemma handleError_inv c :
  connector_inv c → state_ c = kConnecting → batch c = None →
  handleError c ⇓ λ c', connector_inv c' ∧ state_ c' = kDisconnected.
Proof.
  intros Hc Hst Hb. unfold handleError. rewrite Hst. apply yields_bind. rewrite <- (setState_same c).
  eapply yields_mono; [by apply give_up_inv; [done|done|congruence]|]. by intros [sockfd c'].
Qed.

Lemma handleWrite_inv err self c :
  connector_inv c → state_ c ≠ kConnected → batch c = None → handleWrite err self c ⇓ connector_inv.
Proof.
  intros Hc Hst Hb. unfold handleWrite. destruct (state_ c) eqn:E; [by apply yields_bind, yields_ret| |done].
  assert (removeAndResetChannel c ⇓ λ '(sockfd, c'), connector_inv (retry sockfd c')) as Hgive.
  { rewrite <- (setState_same c). eapply yields_mono; [by apply give_up_inv; [done|done|congruence]|].
    by intros [sockfd c'] [? _]. }
  apply yields_bind. destruct (negb (err =? 0)); [eapply yields_mono; [exact Hgive|]; by intros [sockfd c']|].
  destruct self; [eapply yields_mono; [exact Hgive|]; by intros [sockfd c']|]. clear Hgive.
  pose proof (inv_sockets c Hc) as Hk. rewrite E in Hk. destruct Hk as (sockfd & Hch & Ho).
  destruct Hc. unfold removeAndResetChannel. rewrite Hch. cbn.
  assert (started c = true) by (destruct (started c); [done|by destruct inv_unstarted0 as [[? _] _]; congruence]).
  assert (timers c = []) by (destruct inv_timers0 as [|[? _]]; [done|congruence]).
  assert (occurrences FStartInLoop (queued c) = 0%nat) by (destruct inv_start0 as [|[_ [? _]]]; [done|congruence]).
  open_connector c. unfold newConnectionCallback_, close_socket. cbn.
  destruct cn; cbn; rewrite without_self; inv_fields; try done; solve_field.
Qed.

(** Running a functor takes it off the queue. *)
Definition next_functor (rest : list Functor) (c : Connector) : Connector :=
  set_loop (turn c) (Some rest) (pendingFunctors_ c) c.

Lemma drop_stop_inv rest c :
  connector_inv c → batch c = Some (FStopInLoop :: rest) → state_ c ≠ kConnecting →
  connector_inv (next_functor rest c).
Proof. intros Hc Hb Hst. destruct Hc. open_connector c. inv_fields; try done; solve_field. Qed.

Lemma functor_stop_inv rest c :
  connector_inv c → batch c = Some (FStopInLoop :: rest) →
  stopInLoop (next_functor rest c) ⇓ connector_inv.
Proof.
  intros Hc Hb. unfold stopInLoop. change (state_ (next_functor rest c)) with (state_ c).
  destruct (state_ c) eqn:E; [apply yields_ret, drop_stop_inv; congruence| |apply yields_ret, drop_stop_inv; congruence].
  assert (stopped c = true) as Hsp.
  { apply (inv_stopping c Hc). unfold queued. rewrite Hb. cbn. rewrite occurrences_cons. cbn. lia. }
  pose proof (give_up_inv kDisconnected c Hc E (λ _, Hsp)) as Hg. apply yields_bind.
  unfold removeAndResetChannel in *. cbn in *. destruct (channel_ c) as [ch|]; [|done]. cbn in *.
  destruct Hg as [Hg Hs]. apply (drop_stop_inv rest) in Hg; [|unfold retry; cbn; by destruct (connect_ c)|congruence].
  destruct c as [cn st ch' dl tn ba pe ti op de sd sp ca]. unfold retry in *. cbn in *. by destruct cn.
Qed.

Lemma functor_reset_inv rest c :
  connector_inv c → batch c = Some (FResetChannel :: rest) →
  connector_inv (resetChannel (next_functor rest c)).
Proof.
  intros Hc Hb.
  assert (∃ f, channel_ c = Some (mkWriteChannel f false)) as [f Hch].
  { pose proof (inv_reset c Hc) as Hr. unfold queued in Hr. rewrite Hb in Hr. cbn in Hr.
    rewrite occurrences_cons in Hr. cbn in Hr. destruct (channel_ c) as [[f [|]]|]; [lia|by exists f|lia]. }
  assert (state_ c ≠ kConnecting) as Hst.
  { intros E. pose proof (inv_sockets c Hc) as Hk. rewrite E in Hk. destruct Hk as (? & ? & _). congruence. }
  destruct Hc. open_connector c. inv_fields; try done; solve_field.
  1-2: clear inv_fresh0 inv_batch0 inv_stop0 inv_stopping0; intuition congruence.
  by destruct st; [destruct inv_sockets0|..|destruct inv_sockets0].
Qed.

Lemma functor_start_inv rest sockfd e c :
  connector_inv c → batch c = Some (FStartInLoop :: rest) →
  startInLoop sockfd e (next_functor rest c) ⇓ connector_inv.
Proof.
  intros Hc Hb.
  assert (occurrences FStartInLoop (queued c) ≠ 0%nat) as Hne.
  { unfold queued. rewrite Hb. cbn. rewrite occurrences_cons. cbn. lia. }
  destruct (inv_start c Hc) as [|[H1 Hn]]; [done|]. pose proof Hn as (Hs & Hch & Ht & Ho).
  assert (started c = true) as Hst.
  { destruct (started c) eqn:E; [done|]. by destruct (inv_unstarted c Hc E). }
  unfold startInLoop. apply yields_bind, yields_assert; [by rewrite bool_decide_true|].
  change (connect_ (next_functor rest c)) with (connect_ c).
  assert (occurrences FStartInLoop (queued (next_functor rest c)) = 0%nat) as H0.
  { unfold queued in *. rewrite Hb in H1. cbn in *. rewrite occurrences_cons in H1. cbn in H1. lia. }
  assert (connector_inv (next_functor rest c)) as Hc'.
  { clear Hne. destruct Hc. open_connector c. inv_fields; try done; solve_field. }
  destruct (connect_ c) eqn:Hcn; [|done]. apply connect_inv; try done.
  cbn. destruct (stopped c) eqn:Hs'; [|done]. destruct (inv_stop c Hc Hs'). congruence.
Qed.

(** Every input that is allowed is handled, and preserves the invariant. *)
Lemma exec_inv i c : connector_inv c → allowed i c = true → exec i c ⇓ connector_inv.
Proof.
  intros Hc Ha. destruct i as [inLoop sockfd e| |sockfd e|error write err self|i sockfd e| |sockfd e|].
  - apply andb_true_iff in Ha as [?%negb_true_iff ?%negb_true_iff]. by apply start_inv.
  - by apply yields_ret, stop_inv.
  - by apply restart_inv.
  - apply andb_true_iff in Ha as [Hb%bool_decide_eq_true Hch].
    assert (state_ c = kConnecting) as Hst.
    { pose proof (inv_sockets c Hc) as Hk. destruct (channel_ c) as [ch|]; [|done].
      destruct (state_ c); [|done|]; destruct Hk as [_ Hk]; specialize (Hk _ eq_refl); congruence. }
    cbn. unfold handleEvent. apply yields_bind. destruct error.
    + eapply yields_mono; [by apply handleError_inv|]. intros c' [Hc' Hs']. destruct write; [|done].
      unfold handleWrite. rewrite Hs'. by apply yields_bind, yields_ret.
    + apply yields_ret. destruct write; [|done]. apply handleWrite_inv; congruence.
  - by apply timer_inv.
  - apply bool_decide_eq_true in Ha. destruct Hc. open_connector c. inv_fields; try done; solve_field.
  - cbn in *. destruct (batch c) as [[|f rest]|] eqn:Hb; [done| |done].
    destruct f; [by apply functor_start_inv|by apply functor_stop_inv|by apply yields_ret, functor_reset_inv].
  - apply bool_decide_eq_true in Ha. destruct Hc. open_connector c. inv_fields; try done; solve_field.
Qed.

Lemma exec_all_inv inputs : ∀ c,
  connector_inv c → allowed_all inputs c = true → exec_all inputs c ⇓ connector_inv.
Proof.
  induction inputs as [|i inputs IH]; intros c Hc Ha; [done|].
  cbn [allowed_all] in Ha. apply andb_true_iff in Ha as [Ha Hrest].
  pose proof (exec_inv i c Hc Ha) as Hi. cbn. apply yields_bind.
  destruct (exec i c) as [c'|] eqn:E; [|done]. by apply IH.
Qed.


(** An attempt that is refused, the retry, and [stop] while it is in progress. *)
Definition stopped_run : list Input :=
  [IStart true 3 ECONNREFUSED; IBeginFunctors; IEndFunctors; ITimer 0 4 EINPROGRESS; IStop; IBeginFunctors;
   IFunctor 0 EOTHER; IEndFunctors].


(** [stop] does not cancel the timer of a retry: when the connector is started
    again, the timer finds it connecting. *)
Theorem restart_with_timer_asserts :
  exec_all [IStart true 3 ECONNREFUSED; IStop; IBeginFunctors; IFunctor 0 EOTHER; IEndFunctors;
            IStart true 4 EINPROGRESS; ITimer 0 5 EINPROGRESS] Connector_new = Fault (AssertFailure 49).
Proof. reflexivity. Qed.

(** [start] right after [stop], from the loop's thread, while connecting. *)
Theorem start_after_stop_asserts :
  exec_all [IStart true 3 EINPROGRESS; IStop; IStart true 4 EINPROGRESS] Connector_new = Fault (AssertFailure 49).
Proof. reflexivity. Qed.

(** ** The connector on a shared loop *)

(** What the members of the connector leave alone, and that they only append
    to the queue. *)
Record quiet_step (c c' : Connector) : Prop := {
  quiet_batch : batch c' = batch c;
  quiet_pending : ∃ new, pendingFunctors_ c' = pendingFunctors_ c ++ new;
  quiet_turn : turn c' = turn c;
  quiet_delivered : delivered c' = delivered c;
  quiet_stopped : stopped c' = stopped c
}.

Lemma quiet_refl c : quiet_step c c.
Proof. split; try done. exists []. by rewrite app_nil_r. Qed.

Ltac quiet := split; [done|cbn; try (by eexists); by (exists []; rewrite app_nil_r)|done|done|done].

Lemma startInLoop_quiet sockfd e c c' : startInLoop sockfd e c = Ok c' → quiet_step c c'.
Proof.
  unfold startInLoop. intros E. inv_ok. destruct (connect_ c); inv_ok; [|by subst; apply quiet_refl].
  unfold connect, connecting in *. destruct e; inv_ok; subst.
  all: unfold retry; try case_match; quiet.
Qed.

Lemma restart_quiet sockfd e c c' : restart sockfd e c = Ok c' → quiet_step c c'.
Proof. unfold restart. intros [] %startInLoop_quiet. by split. Qed.

Lemma retry_quiet sockfd c : quiet_step c (retry sockfd c).
Proof. unfold retry. case_match; quiet. Qed.

Lemma quiet_trans c1 c2 c3 : quiet_step c1 c2 → quiet_step c2 c3 → quiet_step c1 c3.
Proof.
  intros [? [n1 H1] ? ? ?] [? [n2 H2] ? ? ?]. split; [congruence| |congruence..].
  exists (n1 ++ n2). by rewrite H2, H1, app_assoc.
Qed.

Lemma removeAndResetChannel_quiet c sockfd c' :
  removeAndResetChannel c = Ok (sockfd, c') → quiet_step c c' ∧ connect_ c' = connect_ c.
Proof.
  unfold removeAndResetChannel. destruct (channel_ c); [|done]. intros [= _ <-]. split; [quiet|done].
Qed.

Lemma setState_quiet st c : quiet_step c (setState st c).
Proof. quiet. Qed.

Lemma stopInLoop_quiet c c' : stopInLoop c = Ok c' → quiet_step c c'.
Proof.
  unfold stopInLoop. intros E. destruct (state_ c); [injection E as <-; apply quiet_refl| |injection E as <-; apply quiet_refl].
  apply bind_Ok_inv in E as ([sockfd c1] & H & [= <-]). destruct (removeAndResetChannel_quiet _ _ _ H) as [H1 _].
  eapply quiet_trans; [apply (setState_quiet kDisconnected)|]. eapply quiet_trans; [exact H1|apply retry_quiet].
Qed.

Lemma run_functor_quiet f sockfd e c c' : run_functor f sockfd e c = Ok c' → quiet_step c c'.
Proof.
  destruct f; cbn; [apply startInLoop_quiet|apply stopInLoop_quiet|]. intros [= <-]. quiet.
Qed.

(** An event hands on at most one socket, which it does when it ends connected. *)
Lemma handleError_quiet c c' : handleError c = Ok c' → quiet_step c c'.
Proof.
  unfold handleError. intros E. destruct (state_ c); [injection E as <-; apply quiet_refl| |injection E as <-; apply quiet_refl].
  apply bind_Ok_inv in E as ([sockfd c1] & H & [= <-]). destruct (removeAndResetChannel_quiet _ _ _ H) as [H1 _].
  eapply quiet_trans; [exact H1|apply retry_quiet].
Qed.

Definition hands_on (c c' : Connector) : Prop :=
  ∃ c1 sockfd, quiet_step c c1 ∧ c' = newConnectionCallback_ sockfd c1 ∧
    state_ c' = kConnected ∧ connect_ c' = true.

Lemma handleWrite_hands_on err self c c' :
  handleWrite err self c = Ok c' → quiet_step c c' ∨ hands_on c c'.
Proof.
  unfold handleWrite. intros E.
  destruct (state_ c); [inv_ok; subst; left; apply quiet_refl| |inv_ok; subst; left; apply quiet_refl].
  apply bind_Ok_inv in E as ([sockfd c1] & H & E). destruct (removeAndResetChannel_quiet _ _ _ H) as [H1 Hcn].
  destruct (negb (err =? 0)); [injection E as <-; left; eapply quiet_trans; [exact H1|apply retry_quiet]|].
  destruct self; injection E as <-; [left; eapply quiet_trans; [exact H1|apply retry_quiet]|]. cbn.
  set (c2 := set_usage _ _ _ _). assert (quiet_step c c2) as H2 by (eapply quiet_trans; [exact H1|quiet]).
  destruct (connect_ c1) eqn:Hc1; [right; by exists c2, sockfd|left].
  eapply quiet_trans; [exact H2|quiet].
Qed.

Lemma handleEvent_hands_on error write err self c c' :
  handleEvent error write err self c = Ok c' → quiet_step c c' ∨ hands_on c c'.
Proof.
  unfold handleEvent. intros E. apply bind_Ok_inv in E as (x & Ex & E).
  assert (quiet_step c x) as Hx
    by (destruct error; [by apply handleError_quiet|injection Ex as <-; apply quiet_refl]).
  destruct write; [|injection E as <-; by left].
  apply handleWrite_hands_on in E as [E|(c1 & sockfd & Hq & -> & ?)]; [left|right]; [by eapply quiet_trans|].
  exists c1, sockfd. split; [by eapply quiet_trans|done].
Qed.

(** What an attempt leaves, by the [errno] of [connect]. *)
Definition attempted (sockfd : Z) (e : Errno) (c c' : Connector) : Prop :=
  match e with
  | ESUCCESS | EINPROGRESS | EINTR | EISCONN =>
    state_ c' = kConnecting ∧ channel_ c' = Some (mkWriteChannel sockfd true) ∧ timers c' = timers c
  | EAGAIN | EADDRINUSE | EADDRNOTAVAIL | ECONNREFUSED | ENETUNREACH =>
    state_ c' = kDisconnected ∧ timers c' = timers c ++ [(turn c, kInitRetryDelayMs)] ∧
    retryDelayMs_ c' = 2 * kInitRetryDelayMs
  | _ => state_ c' = kDisconnected ∧ timers c' = timers c
  end.

Lemma restart_attempts sockfd e c c' : restart sockfd e c = Ok c' → attempted sockfd e c c'.
Proof.
  unfold restart, startInLoop. intros E. apply bind_Ok_inv in E as ([] & _ & E). cbn in E.
  unfold connect, connecting in E. destruct e; cbn in E |- *; try (injection E as <-; done).
  all: apply bind_Ok_inv in E as ([] & _ & [= <-]); done.
Qed.
