(* ===== verification/LogFile.v ===== *)
(** * Log files (muduo/base/LogFile.h, LogFile.cc; [AppendFile] of FileUtil.h, FileUtil.cc)

    The files on disk by name, with what stdio still buffers counted as written, and
    for an open file how many bytes stdio has surely handed to the kernel;
    [gmtime_r], the host name and the process id are parameters, and so is
    [fwrite_unlocked], which says how many of the bytes it has taken.  Every call of [time] is an input. *)
From Stdlib Require Import Strings.Byte.
From stdpp Require Import base numbers list strings gmap sorting.
From S2P Require Import Prelude Printf Date TimeZone TimeZoneSpec TimeText LogStream.
Open Scope Z_scope.
Open Scope muduo_scope.

Abbreviation Disk := (gmap (list byte) (list byte)).

(** ** AppendFile *)

(** [flushed]: so many bytes of the file are out of the buffer of stdio, whatever it has written by itself. *)
Record AppendFile := mkAppendFile { filename : list byte; writtenBytes_ : Z; flushed : Z }.

Section Files.
Context (fwrite : list byte → Z).

(** fopen(..., "ae"): the file is made if it does not exist. *)
Definition AppendFile_new (name : list byte) (disk : Disk) : AppendFile * Disk :=
  let content := default [] (disk !! name) in
  (mkAppendFile name 0 (size_of content), <[ name := content ]> disk).

Definition write (f : AppendFile) (logline : list byte) (disk : Disk) : Z * Disk :=
  let n := fwrite logline in
  (n, <[ filename f := default [] (disk !! filename f) ++ take (Z.to_nat n) logline ]> disk).

(** [while (remain > 0)], with [remain = len - n]. *)
Fixpoint append_loop (fuel : nat) (f : AppendFile) (logline : list byte) (n : Z) (disk : Disk) : option Disk :=
  match fuel with
  | O => None
  | S fuel =>
    if 0 <? size_of logline - n then
      let '(x, disk) := write f (drop (Z.to_nat n) logline) disk in
      if x =? 0 then Some disk else append_loop fuel f logline (n + x) disk
    else Some disk
  end.

Definition AppendFile_append (f : AppendFile) (logline : list byte) (disk : Disk) : option (AppendFile * Disk) :=
  let '(n, disk) := write f logline disk in
  disk ← append_loop (S (length logline)) f logline n disk;
  Some (mkAppendFile (filename f) (writtenBytes_ f + size_of logline) (flushed f), disk).

(** fflush(fp_) *)
Definition AppendFile_flush (f : AppendFile) (disk : Disk) : AppendFile :=
  mkAppendFile (filename f) (writtenBytes_ f) (size_of (default [] (disk !! filename f))).

(** ** LogFile *)

Context (gmtime_r : Z → tm) (hostname : list byte) (pid : Z).

Record LogFile := mkLogFile {
  basename_ : list byte;
  rollSize_ : Z;
  flushInterval_ : Z;
  checkEveryN_ : Z;
  count_ : Z;
  startOfPeriod_ : Z;
  lastRoll_ : Z;
  lastFlush_ : Z;
  file_ : option AppendFile;
  disk : Disk
}.

Definition kRollPerSeconds_ : Z := 60 * 60 * 24.

Definition getLogFileName (basename : list byte) (now : Z) : list byte :=
  basename ++ timebuf gmtime_r now ++ hostname ++ snprintf 32 (lit "." ++ decimal pid) ++ lit ".log".

Definition period (now : Z) : Z := Z.quot now kRollPerSeconds_ * kRollPerSeconds_.

(** [now]: what [time] returns. *)
Definition rollFile (now : Z) (l : LogFile) : bool * LogFile :=
  let name := getLogFileName (basename_ l) now in
  let start := period now in
  if lastRoll_ l <? now then
    let '(f, disk) := AppendFile_new name (disk l) in
    (true, mkLogFile (basename_ l) (rollSize_ l) (flushInterval_ l) (checkEveryN_ l) (count_ l)
             start now now (Some f) disk)
  else (false, l).

Definition LogFile_new (basename : list byte) (rollSize flushInterval checkEveryN now : Z) (disk : Disk) : outcome LogFile :=
  _ ← assertb 32 (bool_decide (x2f ∉ basename));
  mret (rollFile now (mkLogFile basename rollSize flushInterval checkEveryN 0 0 0 0 None disk)).2.

Definition set_count (n : Z) (l : LogFile) : LogFile :=
  mkLogFile (basename_ l) (rollSize_ l) (flushInterval_ l) (checkEveryN_ l) n
    (startOfPeriod_ l) (lastRoll_ l) (lastFlush_ l) (file_ l) (disk l).
Definition set_lastFlush (t : Z) (l : LogFile) : LogFile :=
  mkLogFile (basename_ l) (rollSize_ l) (flushInterval_ l) (checkEveryN_ l) (count_ l)
    (startOfPeriod_ l) (lastRoll_ l) t (file_ l) (disk l).
Definition set_file (f : AppendFile) (d : Disk) (l : LogFile) : LogFile :=
  mkLogFile (basename_ l) (rollSize_ l) (flushInterval_ l) (checkEveryN_ l) (count_ l)
    (startOfPeriod_ l) (lastRoll_ l) (lastFlush_ l) (Some f) d.

(** [file_->flush()] *)
Definition flush (l : LogFile) : outcome LogFile :=
  match file_ l with
  | None => Fault BadDeref
  | Some f => mret (set_file (AppendFile_flush f (disk l)) (disk l) l)
  end.

(** [now] is the time of the check, [now'] the time in [rollFile]. *)
Definition append_unlocked (now now' : Z) (logline : list byte) (l : LogFile) : outcome LogFile :=
  match file_ l with
  | None => Fault BadDeref
  | Some f =>
    match AppendFile_append f logline (disk l) with
    | None => Fault Undefined
    | Some (f, d) =>
      let l := set_file f d l in
      if rollSize_ l <? writtenBytes_ f then mret (rollFile now' l).2
      else
        count ← iadd (count_ l) 1;
        let l := set_count count l in
        if checkEveryN_ l <=? count_ l then
          let l := set_count 0 l in
          let thisPeriod_ := period now in
          if negb (thisPeriod_ =? startOfPeriod_ l) then mret (rollFile now' l).2
          else if flushInterval_ l <? now - lastFlush_ l then flush (set_lastFlush now l)
          else mret l
        else mret l
    end
  end.

Fixpoint append_all (inputs : list (Z * Z * list byte)) (l : LogFile) : outcome LogFile :=
  match inputs with
  | [] => mret l
  | (now, now', logline) :: inputs => l ← append_unlocked now now' logline l; append_all inputs l
  end.
End Files.

(** ** Writing *)

Section Write.
Context (fwrite : list byte → Z).
Hypothesis fwrite_bound : ∀ l, 0 ≤ fwrite l ≤ size_of l.

Lemma prefix_take (k l : list byte) i : k `prefix_of` drop i l → take i l ++ k `prefix_of` l.
Proof. intros [q Hq]. exists q. by rewrite <- app_assoc, <- Hq, take_drop. Qed.

(** The loop ends, and writes everything unless [fwrite] gives up. *)
Lemma append_loop_spec fuel : ∀ f logline n (d : Disk) c,
  d !! filename f = Some c → 0 ≤ n ≤ size_of logline → size_of logline - n < Z.of_nat fuel →
  ∃ k, append_loop fwrite fuel f logline n d = Some (<[ filename f := c ++ k ]> d) ∧
    k `prefix_of` drop (Z.to_nat n) logline ∧
    ((∀ l, l ≠ [] → fwrite l ≠ 0) → k = drop (Z.to_nat n) logline).
Proof.
  induction fuel as [|fuel IH]; intros f logline n d c Hd Hn Hf; [lia|]. cbn [append_loop].
  destruct (Z.ltb_spec 0 (size_of logline - n)) as [Hlt|Hge].
  - set (rem := drop (Z.to_nat n) logline). cbn. pose proof (fwrite_bound rem) as Hb.
    assert (size_of rem = size_of logline - n) as Hrem by (by apply size_of_drop).
    rewrite Hd. cbn. destruct (Z.eqb_spec (fwrite rem) 0) as [Hz|Hz].
    + exists []. rewrite Hz. cbn. rewrite take_0. split_and!; [done|apply prefix_nil|].
      intros Hp. exfalso. apply (Hp rem); [|done]. intros E. rewrite E, size_of_nil in Hrem. lia.
    + destruct (IH f logline (n + fwrite rem) (<[ filename f := c ++ take (Z.to_nat (fwrite rem)) rem ]> d)
        (c ++ take (Z.to_nat (fwrite rem)) rem)) as (k & -> & Hpre & Hall); [apply lookup_insert_eq|lia|lia|].
      assert (drop (Z.to_nat (n + fwrite rem)) logline = drop (Z.to_nat (fwrite rem)) rem) as Hdr.
      { unfold rem at 3. rewrite drop_drop. f_equal. lia. }
      rewrite Hdr in *. exists (take (Z.to_nat (fwrite rem)) rem ++ k). split_and!.
      * by rewrite insert_insert_eq, <- app_assoc.
      * by apply prefix_take.
      * intros Hp. rewrite Hall by done. apply take_drop.
  - exists []. rewrite app_nil_r, insert_id by done. split_and!; [done|apply prefix_nil|].
    intros _. rewrite drop_ge; [done|]. unfold size_of in *. lia.
Qed.

Lemma AppendFile_append_spec (f : AppendFile) (logline : list byte) (d : Disk) (c : list byte) :
  d !! filename f = Some c →
  ∃ k, AppendFile_append fwrite f logline d =
      Some (mkAppendFile (filename f) (writtenBytes_ f + size_of logline) (flushed f), <[ filename f := c ++ k ]> d) ∧
    k `prefix_of` logline ∧ ((∀ l, l ≠ [] → fwrite l ≠ 0) → k = logline).
Proof.
  intros Hd. unfold AppendFile_append, write. rewrite Hd. change (default [] (Some c)) with c.
  pose proof (fwrite_bound logline) as Hb.
  destruct (append_loop_spec (S (length logline)) f logline (fwrite logline)
    (<[ filename f := c ++ take (Z.to_nat (fwrite logline)) logline ]> d) (c ++ take (Z.to_nat (fwrite logline)) logline))
    as (k & Hk & Hpre & Hall); [apply lookup_insert_eq|done|unfold size_of in *; lia|].
  exists (take (Z.to_nat (fwrite logline)) logline ++ k). split_and!.
  - rewrite Hk. cbn. by rewrite insert_insert_eq, <- app_assoc.
  - by apply prefix_take.
  - intros Hp. rewrite Hall by done. apply take_drop.
Qed.
End Write.

(** ** Rolling *)

Section Rolling.
Context (fwrite : list byte → Z) (gmtime_r : Z → tm) (hostname : list byte) (pid : Z) (base : list byte) (disk0 : Disk).
Hypothesis fwrite_bound : ∀ l, 0 ≤ fwrite l ≤ size_of l.
Hypothesis fwrite_goes_on : ∀ l, l ≠ [] → fwrite l ≠ 0.
Hypothesis gmtime_tells_utc : gmtime_utc gmtime_r.
(** Up to the year 9999 the name tells the second; none of the names is taken. *)
Definition valid_time (t : Z) : Prop := 0 < t < 253402300800.

Lemma valid_time_year t : valid_time t → four_digit_year t.
Proof. unfold valid_time, four_digit_year. lia. Qed.

Abbreviation name := (getLogFileName gmtime_r hostname pid base).
Hypothesis fresh_names : ∀ t, valid_time t → disk0 !! name t = None.

Lemma name_inj t t' : valid_time t → valid_time t' → name t = name t' → t = t'.
Proof.
  unfold getLogFileName. intros Ht Ht' E%app_inv_head. apply app_inj_1 in E as [E _]; [|by rewrite !length_timebuf by (done || by apply valid_time_year)].
  apply (timebuf_inj gmtime_r gmtime_tells_utc); [by apply valid_time_year..|done].
Qed.

(** The contents of the files opened at times [ts], in order. *)
Definition contents (d : Disk) (ts : list Z) : list byte := concat ((λ t, default [] (d !! name t)) <$> ts).
Arguments contents : simpl never.

Lemma contents_other d ts t c :
  valid_time t → Forall valid_time ts → t ∉ ts → contents (<[ name t := c ]> d) ts = contents d ts.
Proof.
  intros Hv Hts Ht. unfold contents. f_equal. apply list_fmap_ext. intros i t' Hi%list_elem_of_lookup_2.
  rewrite Forall_forall in Hts.
  rewrite lookup_insert_ne; [done|]. intros E%name_inj; [by subst|done|by apply Hts].
Qed.

Record rolled (opened : list Z) (done : list byte) (l : LogFile) : Prop := {
  rolled_base : basename_ l = base;
  rolled_sorted : StronglySorted Z.lt opened;
  rolled_valid : Forall valid_time opened;
  rolled_file : ∃ before f c, opened = before ++ [lastRoll_ l] ∧ file_ l = Some f ∧
    filename f = name (lastRoll_ l) ∧ disk l !! filename f = Some c ∧ writtenBytes_ f = size_of c ∧ flushed f ≤ size_of c;
  rolled_period : startOfPeriod_ l = period (lastRoll_ l);
  rolled_contents : contents (disk l) opened = done;
  rolled_others n : (∀ t, t ∈ opened → n ≠ name t) → disk l !! n = disk0 !! n;
  rolled_count : 0 ≤ count_ l < checkEveryN_ l ∧ checkEveryN_ l < 2 ^ 31
}.

Lemma sorted_snoc (ts : list Z) t t' :
  StronglySorted Z.lt (ts ++ [t]) → t < t' → StronglySorted Z.lt (ts ++ [t] ++ [t']) ∧ t' ∉ ts ++ [t].
Proof.
  intros Hs Hlt.
  assert (∀ x, x ∈ ts ++ [t] → x < t') as Hall.
  { intros x [Hx| ->%list_elem_of_singleton]%elem_of_app; [|done].
    assert (x < t); [|lia]. clear -Hs Hx. induction ts as [|y ts IH]; [by apply elem_of_nil in Hx|].
    cbn in Hs. apply StronglySorted_inv in Hs as [Hs Hf]. apply elem_of_cons in Hx as [->|Hx]; [|by apply IH].
    rewrite Forall_forall in Hf. apply Hf. apply elem_of_app. right. by apply list_elem_of_singleton. }
  split; [|intros H%Hall; lia]. rewrite app_assoc. clear -Hs Hall. set (us := ts ++ [t]) in *. clearbody us.
  induction us as [|y us IH]; cbn; [repeat constructor|].
  apply StronglySorted_inv in Hs as [Hs Hf]. constructor; [apply IH; [done|]|].
  - intros x Hx. apply Hall. by right.
  - apply Forall_app. split; [done|]. apply Forall_singleton. apply Hall. by left.
Qed.

(** A file is opened only at a later time than the last one. *)
Lemma rollFile_rolled opened done l now b l' :
  rolled opened done l → valid_time now → rollFile gmtime_r hostname pid now l = (b, l') →
  ∃ more, rolled (opened ++ more) done l' ∧ (b = false → l' = l ∧ now ≤ lastRoll_ l) ∧
    (b = true → file_ l' = Some (mkAppendFile (name now) 0 0)) ∧ rollSize_ l' = rollSize_ l.
Proof.
  intros [Hb Hs Hv (before & f & c & Ho & Hf & Hfn & Hc & Hwb & Hfl) Hp Hcon Hoth Hcnt] Hnow Hr.
  unfold rollFile in Hr. rewrite Hb in Hr. destruct (Z.ltb_spec (lastRoll_ l) now) as [Hlt|Hge].
  - cbn in Hr. injection Hr as <- <-. exists [now]. subst opened.
    destruct (sorted_snoc before (lastRoll_ l) now Hs Hlt) as [Hs' Hnew].
    assert (disk l !! name now = None) as Hfree.
    { rewrite Hoth; [by apply fresh_names|]. rewrite Forall_forall in Hv.
      intros t Ht E%name_inj; [by subst|done|by apply Hv]. }
    rewrite Hfree. change (default [] None) with (@nil byte).
    split_and!; [|done|done|done].
    split; cbn [basename_ file_ lastRoll_ disk startOfPeriod_ count_ checkEveryN_]; try done.
    + by rewrite <- app_assoc.
    + apply Forall_app. split; [done|by apply Forall_singleton].
    + exists (before ++ [lastRoll_ l]), (mkAppendFile (name now) 0 0), [].
      split_and!; try done. apply lookup_insert_eq.
    + unfold contents. rewrite fmap_app, concat_app. cbn.
      rewrite lookup_insert_eq, !app_nil_r. fold (contents (<[ name now := [] ]> (disk l)) (before ++ [lastRoll_ l])).
      by rewrite contents_other.
    + intros n Hn. rewrite lookup_insert_ne.
      * apply Hoth. intros t Ht. apply Hn. apply elem_of_app. by left.
      * intros <-. apply (Hn now); [|done]. apply elem_of_app. right. by apply list_elem_of_singleton.
  - injection Hr as <- <-. exists []. rewrite app_nil_r. split_and!; try done.
    by split; try done; exists before, f, c.
Qed.

(** The line goes to the end of the last file. *)
Lemma set_file_rolled opened done l f logline :
  rolled opened done l → file_ l = Some f →
  ∃ d, AppendFile_append fwrite f logline (disk l) =
      Some (mkAppendFile (filename f) (writtenBytes_ f + size_of logline) (flushed f), d) ∧
    rolled opened (done ++ logline) (set_file (mkAppendFile (filename f) (writtenBytes_ f + size_of logline) (flushed f)) d l).
Proof.
  intros [Hb Hs Hv (before & f' & c & Ho & Hf' & Hfn & Hc & Hwb & Hfl) Hp Hcon Hoth Hcnt] Hf.
  rewrite Hf in Hf'. injection Hf' as <-. subst opened done.
  destruct (AppendFile_append_spec fwrite fwrite_bound f logline (disk l) c Hc) as (k & -> & _ & Hk).
  rewrite Hk by done. eexists. split; [done|]. pose proof Hv as Hv'. apply Forall_app in Hv' as [Hvb Hvl].
  rewrite Forall_singleton in Hvl.
  split; cbn; try done.
  - exists before, (mkAppendFile (filename f) (writtenBytes_ f + size_of logline) (flushed f)), (c ++ logline).
    split_and!; try done; [apply lookup_insert_eq|..]; cbn; rewrite size_of_app; [lia|]. pose proof (size_of_nonneg logline). lia.
  - unfold contents. rewrite !fmap_app, !concat_app. cbn. rewrite Hfn, lookup_insert_eq, !app_nil_r.
    fold (contents (<[ name (lastRoll_ l) := c ++ logline ]> (disk l)) before). fold (contents (disk l) before).
    rewrite Hfn in Hc. rewrite contents_other; [|done|done|]; [rewrite Hc; by apply app_assoc|].
    intros Hin. clear -Hs Hin. induction before as [|y ys IH]; [by apply elem_of_nil in Hin|].
    cbn in Hs. apply StronglySorted_inv in Hs as [Hs Hf]. apply elem_of_cons in Hin as [<-|Hin]; [|by apply IH].
    rewrite Forall_forall in Hf. specialize (Hf (lastRoll_ l)). rewrite elem_of_app, list_elem_of_singleton in Hf.
    specialize (Hf (or_intror eq_refl)). lia.
  - intros n Hn. rewrite Hfn, lookup_insert_ne; [by apply Hoth|]. intros <-.
    apply (Hn (lastRoll_ l)); [|done]. apply elem_of_app. right. by apply list_elem_of_singleton.
Qed.

Definition over_size (l : LogFile) : bool :=
  match file_ l with Some f => rollSize_ l <? writtenBytes_ f | None => false end.

(** Flushing, for the files and for what has left the buffer. *)
Lemma flush_rolled opened done l : rolled opened done l →
  flush l ⇓ λ l', rolled opened done l' ∧ over_size l' = over_size l ∧ rollSize_ l' = rollSize_ l ∧
    ∃ f, file_ l' = Some f ∧ flushed f = size_of (default [] (disk l' !! filename f)).
Proof.
  intros [Hb Hs Hv (before & f & c & Ho & Hf & Hfn & Hc & Hwb & Hfl) Hp Hcon Hoth Hcnt]. unfold flush. rewrite Hf. apply yields_ret.
  split_and!; [|unfold over_size; by rewrite Hf|done|by eexists].
  split; cbn; try done. exists before, (AppendFile_flush f (disk l)), c. split_and!; try done. cbn. by rewrite Hc.
Qed.

Lemma append_unlocked_rolled opened done l now now' logline :
  rolled opened done l → valid_time now' → 0 ≤ rollSize_ l →
  append_unlocked fwrite gmtime_r hostname pid now now' logline l ⇓ λ l', ∃ more,
    rolled (opened ++ more) (done ++ logline) l' ∧ (over_size l' = true → now' ≤ lastRoll_ l') ∧
    rollSize_ l' = rollSize_ l.
Proof.
  intros Hl Hnow Hsize. pose proof Hl as [_ _ _ (_ & f & _ & _ & Hf & _) _ _ _ _]. unfold append_unlocked. rewrite Hf.
  destruct (set_file_rolled opened done l f logline Hl Hf) as (d & -> & Hl1).
  set (f1 := mkAppendFile _ _ _) in *. set (l1 := set_file f1 d l) in *.
  change (rollSize_ l1) with (rollSize_ l).
  assert (∀ l2, rolled opened (done ++ logline) l2 → rollSize_ l2 = rollSize_ l →
    mret (rollFile gmtime_r hostname pid now' l2).2 ⇓ λ l', ∃ more,
      rolled (opened ++ more) (done ++ logline) l' ∧ (over_size l' = true → now' ≤ lastRoll_ l') ∧
      rollSize_ l' = rollSize_ l) as Hroll.
  { intros l2 Hl2 Hr2. destruct (rollFile _ _ _ now' l2) as [b l'] eqn:E.
    destruct (rollFile_rolled _ _ _ _ _ _ Hl2 Hnow E) as (more & Hm & Hno & Hyes & Hrs). exists more. cbn [snd].
    split_and!; [done| |congruence]. destruct b.
    - unfold over_size. rewrite Hyes by done. cbn. intros H0%Z.ltb_lt. lia.
    - destruct Hno as [-> Hle]; [done|]. done. }
  destruct (Z.ltb_spec (rollSize_ l) (writtenBytes_ f1)) as [Hover|Hunder]; [by apply Hroll|].
  pose proof (rolled_count _ _ _ Hl1) as [Hcnt Hmax].
  unfold iadd. rewrite checked_i32_ok by lia. run_ok.
  assert (∀ n, 0 ≤ n < checkEveryN_ l1 → rolled opened (done ++ logline) (set_count n l1)) as Hset.
  { intros n Hn. destruct Hl1. by split. }
  assert (∀ l2, rolled opened (done ++ logline) l2 → over_size l2 = false → rollSize_ l2 = rollSize_ l →
    ∃ more, rolled (opened ++ more) (done ++ logline) l2 ∧
      (over_size l2 = true → now' ≤ lastRoll_ l2) ∧ rollSize_ l2 = rollSize_ l) as Hstay.
  { intros l2 Hl2 Hf2 Hr2. exists []. rewrite app_nil_r. split_and!; [done| |done]. by rewrite Hf2. }
  assert (Hin : over_size l1 = false) by (apply Z.ltb_ge; done).
  cbn [checkEveryN_ count_ set_count]. destruct (Z.leb_spec (checkEveryN_ l1) (count_ l1 + 1)).
  - destruct (negb _); [by apply Hroll; [apply Hset; lia|]|].
    destruct (_ <? _); [|by apply yields_ret, Hstay; [apply Hset; lia|..]].
    eapply yields_mono; [apply (flush_rolled opened (done ++ logline))|].
    + destruct (Hset 0 ltac:(lia)). by split.
    + intros l2 (Hl2 & Ho2 & Hr2 & _). apply Hstay; [done|by rewrite Ho2|by rewrite Hr2].
  - apply yields_ret, Hstay; [apply Hset; lia|done|done].
Qed.

Lemma LogFile_new_rolled rollSize flushInterval checkEveryN now :
  x2f ∉ base → valid_time now → 0 < checkEveryN < 2 ^ 31 →
  LogFile_new gmtime_r hostname pid base rollSize flushInterval checkEveryN now disk0 ⇓ λ l,
    rolled [now] [] l ∧ rollSize_ l = rollSize ∧ over_size l = (rollSize <? 0).
Proof.
  intros Hb Hnow Hn. unfold LogFile_new. yassert; [by rewrite bool_decide_true|]. apply yields_ret.
  unfold rollFile, AppendFile_new. cbn [lastRoll_ basename_ disk rollSize_ flushInterval_ checkEveryN_ count_].
  rewrite (proj2 (Z.ltb_lt 0 now)) by (unfold valid_time in Hnow; lia). cbn [snd]. rewrite fresh_names by done.
  change (default [] None) with (@nil byte).
  split_and!; [|done|done]. split; cbn [lastRoll_ basename_ disk file_ count_ checkEveryN_]; try done; [..|lia].
  - repeat constructor.
  - constructor; [done|constructor].
  - exists [], (mkAppendFile (name now) 0 0), []. split_and!; try done. apply lookup_insert_eq.
  - unfold contents. cbn. by rewrite lookup_insert_eq.
  - intros n Hne. apply lookup_insert_ne. intros <-. apply (Hne now); [|done]. by apply list_elem_of_singleton.
Qed.

Lemma append_all_rolled inputs : ∀ opened done l,
  rolled opened done l → 0 ≤ rollSize_ l → Forall (λ '(_, now', _), valid_time now') inputs →
  (over_size l = true → False) ∨ (inputs ≠ []) →
  append_all fwrite gmtime_r hostname pid inputs l ⇓ λ l', ∃ more,
    rolled (opened ++ more) (done ++ concat (snd <$> inputs)) l' ∧
    (over_size l' = true → ∃ now now' line, last inputs = Some (now, now', line) ∧ now' ≤ lastRoll_ l').
Proof.
  induction inputs as [|[[now now'] line] inputs IH]; intros opened done l Hl Hr Hv Ho.
  { exists []. cbn. rewrite !app_nil_r. split; [done|]. by destruct Ho as [Ho|]; [intros ?%Ho|]. }
  apply Forall_cons in Hv as [Hv Hvs]. cbn [append_all].
  ystep append_unlocked_rolled; [done..|]. intros l1 (more1 & Hl1 & Hov1 & Hr1).
  change (concat (snd <$> (now, now', line) :: inputs)) with (line ++ concat (snd <$> inputs)). rewrite app_assoc.
  destruct inputs as [|i inputs'] eqn:Ei.
  - exists more1. cbn. rewrite app_nil_r. split; [done|]. intros H0. by exists now, now', line; auto.
  - eapply yields_mono; [apply (IH _ _ l1 Hl1); [lia|done|by right]|].
    intros l' (more & Hl' & Hov'). exists (more1 ++ more). by rewrite app_assoc.
Qed.

(** Rolling log files keep every line.  The files of a log, in the order
    they were opened, hold the lines in the order of the calls, whole and once,
    and other files are not touched; a file is opened only at a later second
    than the one before, so that no name is used twice; the current file is the
    last one, and it is over [rollSize] only if the last line came in the very
    second the file was opened (or the clock went back).  This is for an
    [fwrite] that makes progress, and clocks up to the year 9999. *)
Theorem log_file_keeps rollSize flushInterval checkEveryN now0 inputs :
  x2f ∉ base → 0 ≤ rollSize → 0 < checkEveryN < 2 ^ 31 → valid_time now0 →
  Forall (λ '(_, now', _), valid_time now') inputs →
  (l ← LogFile_new gmtime_r hostname pid base rollSize flushInterval checkEveryN now0 disk0;
   append_all fwrite gmtime_r hostname pid inputs l) ⇓ λ l, ∃ opened,
    contents (disk l) opened = concat (snd <$> inputs) ∧
    StronglySorted Z.lt opened ∧ last opened = Some (lastRoll_ l) ∧ startOfPeriod_ l = period (lastRoll_ l) ∧
    (∀ n, (∀ t, t ∈ opened → n ≠ name t) → disk l !! n = disk0 !! n) ∧
    (over_size l = true → ∃ now now' line, last inputs = Some (now, now', line) ∧ now' ≤ lastRoll_ l).
Proof.
  intros Hb Hr Hn Hnow Hv. ystep LogFile_new_rolled; [done..|]. intros l (Hl & Hrl & Hov).
  eapply yields_mono; [apply (append_all_rolled inputs [now0] []); [done|lia|done|]|].
  { left. rewrite Hov. intros H0%Z.ltb_lt. lia. }
  intros l' (more & [_ Hs _ (before & f & c & Ho & _) Hp Hc Hoth _] & Hov'). exists ([now0] ++ more).
  split_and!; try done. by rewrite Ho, last_snoc.
Qed.
End Rolling.

(** ** What a crash can lose *)

Section Loss.
Context (fwrite : list byte → Z) (gmtime_r : Z → tm) (hostname : list byte) (pid : Z) (base : list byte) (disk0 : Disk).
Hypothesis fwrite_bound : ∀ l, 0 ≤ fwrite l ≤ size_of l.
Hypothesis fwrite_goes_on : ∀ l, l ≠ [] → fwrite l ≠ 0.

(** The end of the current file that may still be in the buffer of stdio: the lines [late] of the log. *)
Record buffered (late : list (Z * list byte)) (l : LogFile) : Prop := {
  buf_file : ∃ f c, file_ l = Some f ∧ disk l !! filename f = Some c ∧ 0 ≤ flushed f ≤ size_of c ∧
    drop (Z.to_nat (flushed f)) c = concat late.*2;
  buf_times : Forall (λ x, lastFlush_ l ≤ x.1) late;
  buf_roll : lastRoll_ l ≤ lastFlush_ l;
  buf_count : 0 ≤ count_ l < checkEveryN_ l ∧ checkEveryN_ l < 2 ^ 31
}.

(** The state after an operation at time [now]: its last check was not long ago. *)
Definition checked (now : Z) (l : LogFile) : Prop := count_ l = 0 → now - lastFlush_ l ≤ flushInterval_ l.

Lemma rollFile_buffered late l now now' : buffered late l → 0 ≤ flushInterval_ l → now ≤ now' →
  let l' := (rollFile gmtime_r hostname pid now' l).2 in
  (buffered late l' ∨ buffered [] l') ∧ checked now l' ∧ lastFlush_ l' ≤ Z.max now' (lastFlush_ l) ∧ flushInterval_ l' = flushInterval_ l.
Proof.
  intros [Hf Ht Hr Hc] Hi Hn. unfold rollFile, checked. destruct (Z.ltb_spec (lastRoll_ l) now') as [Hlt|Hge]; cbn.
  - split_and!; try lia. right. split; cbn; [|constructor|lia|done].
    pose proof (size_of_nonneg (default [] (disk l !! getLogFileName gmtime_r hostname pid (basename_ l) now'))) as Hz.
    eexists _, _. split; [reflexivity|]. split; [cbn; apply lookup_insert_eq|]. cbn. split; [lia|]. apply drop_ge. unfold size_of. lia.
  - split_and!; try lia. left. by split.
Qed.

Lemma flush_buffered late l now : buffered late l → 0 ≤ flushInterval_ l → lastFlush_ l ≤ now →
  flush (set_lastFlush now l) ⇓ λ l', buffered [] l' ∧ checked now l' ∧ lastFlush_ l' = now ∧ flushInterval_ l' = flushInterval_ l.
Proof.
  intros [(f & c & Hf & Hd & Hb & He) Ht Hr Hc] Hi Hn. unfold flush. cbn [file_ set_lastFlush]. rewrite Hf. apply yields_ret.
  split_and!; [|unfold checked; cbn; lia|done|done]. split; cbn; try done; [|lia].
  eexists _, c. split_and!; [done|done|cbn; rewrite Hd; apply size_of_nonneg|cbn; by rewrite Hd|].
  cbn. rewrite Hd. apply drop_ge. cbn. unfold size_of. lia.
Qed.

Lemma append_buffered late l now now' line : buffered late l → 0 ≤ flushInterval_ l → lastFlush_ l ≤ now → now ≤ now' →
  append_unlocked fwrite gmtime_r hostname pid now now' line l ⇓ λ l',
    (buffered (late ++ [(now, line)]) l' ∨ buffered [] l') ∧ checked now l' ∧ lastFlush_ l' ≤ now' ∧ flushInterval_ l' = flushInterval_ l.
Proof.
  intros [(f & c & Hf & Hd & Hb & He) Ht Hr Hc] Hi Hn Hn'. unfold append_unlocked. rewrite Hf.
  destruct (AppendFile_append_spec fwrite fwrite_bound f line (disk l) c Hd) as (k & -> & _ & Hk). rewrite Hk by done.
  set (f1 := mkAppendFile _ _ _). set (l1 := set_file f1 _ l).
  assert (H1 : ∀ n, 0 ≤ n < checkEveryN_ l → buffered (late ++ [(now, line)]) (set_count n l1)).
  { intros n Hcn. split; cbn; [|apply Forall_app; split; [done|by apply Forall_singleton]|done|lia].
    exists f1, (c ++ line). split_and!; [done|apply lookup_insert_eq|apply Hb| |].
    - cbn. rewrite size_of_app. pose proof (size_of_nonneg line). lia.
    - cbn [flushed f1]. rewrite drop_app_le by (unfold size_of in Hb; lia). rewrite He, fmap_app, concat_app. cbn. by rewrite app_nil_r. }
  assert (Hl1 : buffered (late ++ [(now, line)]) l1) by exact (H1 (count_ l) (proj1 Hc)).
  destruct (rollSize_ l1 <? writtenBytes_ f1).
  { apply yields_ret. destruct (rollFile_buffered _ l1 now now' Hl1 Hi Hn') as (A & B & C & D).
    change (lastFlush_ l1) with (lastFlush_ l) in C. split_and!; [done|done|lia|done]. }
  unfold iadd. rewrite checked_i32_ok by (change (count_ l1) with (count_ l); lia). run_ok. cbn [checkEveryN_ count_ set_count].
  change (checkEveryN_ l1) with (checkEveryN_ l). change (count_ l1) with (count_ l).
  destruct (Z.leb_spec (checkEveryN_ l) (count_ l + 1)) as [Hle|Hgt].
  - pose proof (H1 0 ltac:(lia)) as H0. change (set_count 0 (set_count (count_ l + 1) l1)) with (set_count 0 l1). destruct (negb _).
    + apply yields_ret. destruct (rollFile_buffered _ _ now now' H0 Hi Hn') as (A & B & C & D).
      change (lastFlush_ (set_count 0 l1)) with (lastFlush_ l) in C. split_and!; [done|done|lia|done].
    + destruct (Z.ltb_spec (flushInterval_ (set_count 0 l1)) (now - lastFlush_ (set_count 0 l1))) as [Hfl|Hfl].
      * eapply yields_mono; [apply (flush_buffered _ (set_count 0 l1) now H0); [exact Hi|exact Hn]|].
        intros l' (A & B & C & D). split_and!; [by right|done|lia|done].
      * apply yields_ret. split_and!; [by left|unfold checked; cbn in *; lia|cbn; lia|done].
  - apply yields_ret. split_and!; [left; apply H1; lia|unfold checked; cbn; lia|cbn; lia|done].
Qed.
(** The clock does not go back. *)
Fixpoint clocks_ok (t : Z) (inputs : list (Z * Z * list byte)) : Prop :=
  match inputs with [] => True | (now, now', _) :: inputs => t ≤ now ≤ now' ∧ clocks_ok now' inputs end.
(** The lines with the times of their calls. *)
Definition stamped (inputs : list (Z * Z * list byte)) : list (Z * list byte) := (λ x, (x.1.1, x.2)) <$> inputs.

Lemma append_all_buffered inputs : ∀ late l t, buffered late l → 0 ≤ flushInterval_ l → lastFlush_ l ≤ t → clocks_ok t inputs →
  append_all fwrite gmtime_r hostname pid inputs l ⇓ λ l', ∃ early' late', late ++ stamped inputs = early' ++ late' ∧
    buffered late' l' ∧ flushInterval_ l' = flushInterval_ l ∧ (inputs = [] → l' = l) ∧
    ∀ x, last inputs = Some x → checked x.1.1 l'.
Proof.
  induction inputs as [|[[now now'] line] inputs IH]; intros late l t Hl Hi Hf Hc.
  { exists [], late. unfold stamped. cbn [fmap list_fmap app]. by rewrite app_nil_r. }
  destruct Hc as [[Hc1 Hc2] Hc]. cbn [append_all]. ystep (append_buffered late l now now' line); [done|done|lia|done|].
  intros l1 (Hl1 & Hk1 & Hf1 & Hi1).
  assert (∃ e1 late1, late ++ [(now, line)] = e1 ++ late1 ∧ buffered late1 l1) as (e1 & late1 & E1 & Hb1).
  { destruct Hl1 as [H|H]; [by exists [], (late ++ [(now, line)])|]. exists (late ++ [(now, line)]), []. by rewrite app_nil_r. }
  eapply yields_mono; [apply (IH late1 l1 now'); [done|lia|done|done]|].
  intros l' (e2 & late2 & E2 & Hb2 & Hi2 & Hn2 & Hk2). exists (e1 ++ e2), late2. split_and!; [|done|congruence|done|].
  - change (stamped ((now, now', line) :: inputs)) with ([(now, line)] ++ stamped inputs). by rewrite app_assoc, E1, <- !app_assoc, E2.
  - intros x. rewrite last_cons. destruct (last inputs) as [y|] eqn:El; intros [= <-]; [by apply Hk2|].
    apply last_None in El as ->. by rewrite Hn2.
Qed.

Lemma LogFile_new_buffered rollSize flushInterval checkEveryN now : x2f ∉ base → 0 < now → 0 < checkEveryN < 2 ^ 31 →
  LogFile_new gmtime_r hostname pid base rollSize flushInterval checkEveryN now disk0 ⇓ λ l,
    buffered [] l ∧ lastFlush_ l = now ∧ flushInterval_ l = flushInterval.
Proof.
  intros Hb Hnow Hn. unfold LogFile_new. yassert; [by rewrite bool_decide_true|]. apply yields_ret.
  unfold rollFile. cbn [lastRoll_]. rewrite (proj2 (Z.ltb_lt 0 now)) by done. cbn [AppendFile_new snd basename_ disk].
  set (n := getLogFileName gmtime_r hostname pid base now). clearbody n.
  split_and!; [|done|done]. split; cbn; [|constructor|lia|lia]. pose proof (size_of_nonneg (default [] (disk0 !! n))) as Hz.
  eexists _, _. split; [reflexivity|]. split; [apply lookup_insert_eq|]. cbn. split; [lia|]. apply drop_ge. unfold size_of. lia.
Qed.

(** A crash loses little of a log.  With a clock that does not go back, what of the current file may still be in the
    buffer of stdio is exactly the last lines of the log, all of them from the time of the last flush or later; when the periodic check has just been made (every [checkEveryN]-th line), these
    lines are no older than [flushInterval]; and after [flush] there are none. *)
Theorem log_file_loss rollSize flushInterval checkEveryN now0 inputs :
  x2f ∉ base → 0 ≤ flushInterval → 0 < checkEveryN < 2 ^ 31 → 0 < now0 → clocks_ok now0 inputs →
  (l ← LogFile_new gmtime_r hostname pid base rollSize flushInterval checkEveryN now0 disk0;
   append_all fwrite gmtime_r hostname pid inputs l) ⇓ λ l,
    (∃ early late f c, stamped inputs = early ++ late ∧ file_ l = Some f ∧ disk l !! filename f = Some c ∧
      drop (Z.to_nat (flushed f)) c = concat late.*2 ∧ Forall (λ x, lastFlush_ l ≤ x.1) late ∧
      (count_ l = 0 → ∀ x y, last inputs = Some x → y ∈ late → x.1.1 - y.1 ≤ flushInterval)) ∧
    flush l ⇓ λ l', buffered [] l'.
Proof.
  intros Hb Hi Hn Hnow Hc. ystep LogFile_new_buffered; [done..|]. intros l0 (Hl0 & Hf0 & Hi0).
  eapply yields_mono; [apply (append_all_buffered inputs [] l0 now0); [done|lia|lia|done]|].
  intros l (early & late & E & Hl & Hi' & _ & Hk). pose proof Hl as [(f & c & Hf & Hd & Hfl & He) Ht Hr Hcnt]. split.
  - exists early, late, f, c. split_and!; try done. intros E0 x y Hx Hy. specialize (Hk x Hx E0). rewrite Forall_forall in Ht.
    specialize (Ht y Hy). lia.
  - eapply yields_mono; [apply (flush_buffered late l (lastFlush_ l) Hl); lia|]. by intros l' (A & _).
Qed.
End Loss.

(** Two lines on two days. *)
Definition example_lines : list (Z * Z * list byte) :=
  [(86399, 86399, lit "late "); (86400, 86400, lit "early "); (86401, 86401, lit "next ")].

Lemma log_file_keeps_witness :
  (l ← LogFile_new utc_tm (lit "host") 1 (lit "log") 100 3 1 86000 ∅;
   append_all size_of utc_tm (lit "host") 1 example_lines l) ⇓ λ l, ∃ opened,
    contents utc_tm (lit "host") 1 (lit "log") (disk l) opened = lit "late early next ".
Proof.
  eapply yields_mono; [apply (log_file_keeps size_of utc_tm (lit "host") 1 (lit "log") ∅)|].
  - intros l. pose proof (size_of_nonneg l). lia.
  - intros [|x l]; [done|]. rewrite size_of_cons. pose proof (size_of_nonneg l). lia.
  - exact utc_tm_utc.
  - done.
  - vm_compute. set_solver.
  - lia.
  - lia.
  - unfold valid_time. lia.
  - repeat constructor.
  - intros l (opened & Hc & _). by exists opened.
Defined.

(** With a check at every line, the lines of the last three seconds can be lost. *)
Lemma log_file_loss_witness :
  (l ← LogFile_new utc_tm (lit "host") 1 (lit "log") 100 3 1 86000 ∅;
   append_all size_of utc_tm (lit "host") 1 example_lines l) ⇓ λ l, ∃ early late f c,
    stamped example_lines = early ++ late ∧ file_ l = Some f ∧ disk l !! filename f = Some c ∧
    drop (Z.to_nat (flushed f)) c = concat late.*2.
Proof.
  eapply yields_mono; [apply (log_file_loss size_of utc_tm (lit "host") 1 (lit "log") ∅)|].
  - intros l. pose proof (size_of_nonneg l). lia.
  - intros [|x l]; [done|]. rewrite size_of_cons. pose proof (size_of_nonneg l). lia.
  - by apply (bool_decide_unpack _).
  - lia.
  - lia.
  - lia.
  - cbn. lia.
  - intros l [(early & late & f & c & E & Hf & Hd & He & _) _]. by exists early, late, f, c.
Defined.
