(* ===== verification/FileUtil.v ===== *)
(** * Reading small files ([ReadSmallFile] of muduo/base/FileUtil.h, FileUtil.cc)

    A file that is read has its content and a position; the system calls are those of a class, [FileSystem], which say
    how many bytes a [read] gives.  [FileSystemLaws] is what read(2) documents. *)
From Stdlib Require Import Strings.Byte.
From stdpp Require Import base numbers list strings.
From S2P Require Import Prelude.
Open Scope Z_scope.
Open Scope muduo_scope.

Definition kBufferSize : Z := 64 * 1024.

(** ** The system *)

(** What [fstat] tells: the type of the file, its size, and its times. *)
Inductive FileType := Regular | Directory | OtherType.
Record Stat := mkStat { st_mode : FileType; st_size : Z; st_mtime : Z; st_ctime : Z }.

(** A call gives a value or an [errno]. *)
Abbreviation sys A := (sum A Z).

Class FileSystem := {
  EISDIR : Z;
  (** [open] of a name: the file. *)
  sys_open : list byte → sys (list byte);
  fstat : list byte → sys Stat;
  (** the content, the position and how much is asked for; how much there is *)
  sys_read : list byte → Z → Z → sys Z;
  sys_pread : list byte → Z → Z → sys Z
}.

(** Of what is left at most what was asked for, and nothing only at the end. *)
Definition read_ok (content : list byte) (pos count n : Z) : Prop :=
  0 ≤ n ≤ Z.min count (size_of content - pos) ∧ (n = 0 → count = 0 ∨ pos = size_of content).

Class FileSystemLaws `{FileSystem} := {
  read_law content pos count n : 0 ≤ pos ≤ size_of content → 0 ≤ count → sys_read content pos count = inl n → read_ok content pos count n;
  pread_law content pos count n : 0 ≤ pos ≤ size_of content → 0 ≤ count → sys_pread content pos count = inl n → read_ok content pos count n
}.

(** ** ReadSmallFile *)

(** [file] is what [fd_] refers to, [None] if it is negative; [offset] is where the next [read] starts. *)
Record ReadSmallFile := mkReadSmallFile {
  file : option (list byte);
  offset : Z;
  err_ : Z;
  buf_ : list byte
}.

(** Bytes at the front of the buffer. *)
Definition fill (chunk buf : list byte) : list byte := chunk ++ drop (length chunk) buf.

Section ReadSmallFile.
Context `{FileSystem}.

(** [buf]: what the memory of the buffer holds before. *)
Definition ReadSmallFile_new (buf : list byte) (filename : list byte) : ReadSmallFile :=
  match sys_open filename with
  | inl content => mkReadSmallFile (Some content) 0 0 (fill [x00] buf)
  | inr errno => mkReadSmallFile None 0 errno (fill [x00] buf)
  end.

(** What the pointers that are not null are given. *)
Record FileInfo := mkFileInfo { fileSize : option Z; modifyTime : option Z; createTime : option Z }.

(** [fstat], if the size is asked for; [std::string::reserve] of a negative [int] throws. *)
Definition read_info (maxSize : Z) (wantSize wantModify wantCreate : bool) (content : list byte) (err : Z) : outcome (Z * FileInfo) :=
  if wantSize then
    match fstat content with
    | inl statbuf =>
      let modify := if wantModify then Some (st_mtime statbuf) else None in
      let create := if wantCreate then Some (st_ctime statbuf) else None in
      match st_mode statbuf with
      | Regular =>
        if to_signed 32 (Z.min maxSize (st_size statbuf)) <? 0 then Fault LengthError
        else mret (err, mkFileInfo (Some (st_size statbuf)) modify create)
      | Directory => mret (EISDIR, mkFileInfo None modify create)
      | OtherType => mret (err, mkFileInfo None modify create)
      end
    | inr errno => mret (errno, mkFileInfo None None None)
    end
  else mret (err, mkFileInfo None None None).

(** The loop: what is read so far, the position in the file, the buffer, and the error; [None] without fuel. *)
Fixpoint read_loop (fuel : nat) (maxSize : Z) (file : list byte) (pos : Z) (content buf : list byte) (err : Z) :
    option (list byte * Z * list byte * Z) :=
  match fuel with
  | O => None
  | S fuel =>
    if size_of content <? u64 maxSize then
      let toRead := Z.min (u64 (u64 maxSize - size_of content)) kBufferSize in
      match sys_read file pos toRead with
      | inl n =>
        if 0 <? n then
          let chunk := slice file pos (pos + n) in
          read_loop fuel maxSize file (pos + n) (content ++ chunk) (fill chunk buf) err
        else Some (content, pos, buf, err)
      | inr errno => Some (content, pos, buf, errno)
      end
    else Some (content, pos, buf, err)
  end.

(** The [errno] that is returned, [*content], what the other pointers are given, and the object.  Every turn reads a byte. *)
Definition readToString (maxSize : Z) (content0 : list byte) (wantSize wantModify wantCreate : bool) (f : ReadSmallFile) :
    outcome (Z * list byte * FileInfo * ReadSmallFile) :=
  match file f with
  | Some bytes =>
    '(err, info) ← read_info maxSize wantSize wantModify wantCreate bytes (err_ f);
    match read_loop (S (length bytes)) maxSize bytes (offset f) [] (buf_ f) err with
    | Some (content, pos, buf, err) => mret (err, content, info, mkReadSmallFile (Some bytes) pos (err_ f) buf)
    | None => Fault Undefined
    end
  | None => mret (err_ f, content0, mkFileInfo None None None, f)
  end.

(** The [errno], [*size], and the object with its buffer. *)
Definition readToBuffer (f : ReadSmallFile) : Z * option Z * ReadSmallFile :=
  match file f with
  | Some bytes =>
    match sys_pread bytes 0 (kBufferSize - 1) with
    | inl n => (err_ f, Some n, mkReadSmallFile (Some bytes) (offset f) (err_ f) (fill (take (Z.to_nat n) bytes ++ [x00]) (buf_ f)))
    | inr errno => (errno, None, f)
    end
  | None => (err_ f, None, f)
  end.

(** [FileUtil::readFile] *)
Definition readFile (buf : list byte) (filename : list byte) (maxSize : Z) (content0 : list byte) (wantSize wantModify wantCreate : bool) :
    outcome (Z * list byte * FileInfo) :=
  '(err, content, info, _) ← readToString maxSize content0 wantSize wantModify wantCreate (ReadSmallFile_new buf filename);
  mret (err, content, info).
End ReadSmallFile.

(** ** What is read *)

Section Laws.
Context `{FileSystemLaws}.

(** The loop ends within its fuel, has read a prefix of the rest of the file, and without an error all that it may. *)
Lemma read_loop_spec fuel maxSize bytes pos content buf err : 0 ≤ maxSize < 2 ^ 31 → 0 ≤ pos ≤ size_of bytes →
  size_of content ≤ maxSize → size_of bytes - pos < Z.of_nat fuel →
  ∃ k buf' e, 0 ≤ k ≤ size_of bytes - pos ∧ size_of content + k ≤ maxSize ∧
    read_loop fuel maxSize bytes pos content buf err = Some (content ++ slice bytes pos (pos + k), pos + k, buf', e) ∧
    ((e = err ∧ k = Z.min (size_of bytes - pos) (maxSize - size_of content)) ∨ ∃ p n, sys_read bytes p n = inr e).
Proof.
  intros Hm. revert pos content buf. induction fuel as [|fuel IH]; intros pos content buf Hp Hc Hf; [lia|]. cbn [read_loop].
  pose proof (size_of_nonneg content) as Hc0. rewrite (to_unsigned_small 64 maxSize) by lia.
  assert (Hstop : content = content ++ slice bytes pos (pos + 0)) by (by rewrite Z.add_0_r, slice_empty, app_nil_r).
  destruct (Z.ltb_spec (size_of content) maxSize) as [Hlt|Hge].
  - rewrite (to_unsigned_small 64) by lia. destruct (sys_read bytes pos _) as [n|errno] eqn:E.
    + apply read_law in E as [Hn Hn0]; [|done|unfold kBufferSize; lia]. unfold kBufferSize in *. destruct (Z.ltb_spec 0 n) as [Hpos|Hneg].
      * assert (Hsz : size_of (content ++ slice bytes pos (pos + n)) = size_of content + n) by (rewrite size_of_app, size_of_slice; lia).
        destruct (IH (pos + n) (content ++ slice bytes pos (pos + n)) (fill (slice bytes pos (pos + n)) buf)) as (k & buf' & e & Hk & Hk2 & Hr & He);
          [lia|lia|lia|]. rewrite Hsz in Hk2, He.
        exists (n + k), buf', e. split_and!; [lia|lia|lia| |].
        -- rewrite Hr, <- app_assoc, slice_app_slice by lia. by rewrite Z.add_assoc.
        -- destruct He as [[-> He]|He]; [left; split; [done|lia]|by right].
      * exists 0, buf, err. rewrite <- Hstop, !Z.add_0_r. split_and!; [lia|lia|lia|done|]. left. split; [done|]. destruct Hn0; lia.
    + exists 0, buf, errno. rewrite <- Hstop, !Z.add_0_r. split_and!; [lia|lia|lia|done|]. right. by eexists _, _.
  - exists 0, buf, err. rewrite <- Hstop, !Z.add_0_r. split_and!; [lia|lia|lia|done|]. left. split; [done|lia].
Qed.

(** What [fstat] adds to the error. *)
Lemma read_info_err maxSize a b c bytes err : 0 ≤ maxSize < 2 ^ 31 → (∀ st, fstat bytes = inl st → 0 ≤ st_size st) →
  read_info maxSize a b c bytes err ⇓ λ '(e, _), e = err ∨ (a = true ∧ (fstat bytes = inr e ∨ e = EISDIR)).
Proof.
  intros Hm Hst. unfold read_info. destruct a; [|by left]. destruct (fstat bytes) as [st|errno] eqn:E; [|right; auto].
  destruct (st_mode st); [|right; auto|by left]. specialize (Hst st eq_refl). rewrite to_signed_small by (unfold in_signed; lia).
  rewrite (proj2 (Z.ltb_ge _ _)) by lia. by left.
Qed.

(** Reading a file gets the file: without an error of the system the content is the file up to
    [maxSize] bytes, and the result is 0; with one it is a prefix, and the result is the [errno] of [open], [fstat] or [read]
    (or that the file is a directory); it never fails otherwise, and always returns. *)
Theorem read_file_prefix buf filename maxSize content0 a b c : 0 ≤ maxSize < 2 ^ 31 →
  (∀ bytes st, fstat bytes = inl st → 0 ≤ st_size st) →
  readFile buf filename maxSize content0 a b c ⇓ λ '(err, content, info),
    match sys_open filename with
    | inr errno => err = errno ∧ content = content0
    | inl bytes =>
      (content = take (Z.to_nat maxSize) bytes ∧ (err = 0 ∨ (a = true ∧ (fstat bytes = inr err ∨ err = EISDIR)))) ∨
      (content `prefix_of` take (Z.to_nat maxSize) bytes ∧ ∃ p n, sys_read bytes p n = inr err)
    end.
Proof.
  intros Hm Hst. unfold readFile, readToString, ReadSmallFile_new. destruct (sys_open filename) as [bytes|errno]; cbn [file err_ buf_ offset]; [|done].
  apply yields_bind. ystep (read_info_err maxSize a b c bytes 0); [done|apply Hst|]. intros [e info] He.
  pose proof (size_of_nonneg bytes) as Hb.
  destruct (read_loop_spec (S (length bytes)) maxSize bytes 0 [] (fill [x00] buf) e) as (k & buf' & e' & Hk & Hk2 & -> & Hr);
    [done|lia|change (size_of (@nil byte)) with 0; lia|unfold size_of; lia|].
  change (size_of (@nil byte)) with 0 in *. apply yields_ret. cbn [app]. change (slice bytes 0 (0 + k)) with (take (Z.to_nat (k - 0)) bytes).
  destruct Hr as [[-> ->]|Hr].
  - left. split; [|done]. unfold size_of in *. destruct (decide (Z.of_nat (length bytes) ≤ maxSize)).
    + rewrite !take_ge by lia. done.
    + f_equal. lia.
  - right. split; [|done]. replace (take (Z.to_nat (k - 0)) bytes) with (take (Z.to_nat (k - 0)) (take (Z.to_nat maxSize) bytes)) by (rewrite take_take; f_equal; lia).
    eexists. symmetry. apply take_drop.
Qed.

(** [readToBuffer] stays within the buffer, whatever the size of the file, and ends the string. *)
Lemma readToBuffer_spec f bytes n f' : file f = Some bytes → size_of (buf_ f) = kBufferSize → readToBuffer f = (err_ f, Some n, f') →
  0 ≤ n < kBufferSize ∧ size_of (buf_ f') = kBufferSize ∧ (take (Z.to_nat n) bytes ++ [x00]) `prefix_of` buf_ f'.
Proof.
  intros Hf Hb. unfold readToBuffer. rewrite Hf. destruct (sys_pread bytes 0 (kBufferSize - 1)) as [m|errno] eqn:E; [|done]. intros [= -> <-].
  pose proof (size_of_nonneg bytes) as Hz. apply pread_law in E as [Hn _]; [|lia|unfold kBufferSize; lia]. split; [lia|]. cbn [buf_]. unfold fill. split.
  - unfold size_of in *. rewrite length_app, length_drop, !length_app, length_take; cbn; unfold kBufferSize in *; lia.
  - by eexists.
Qed.
End Laws.

(** ** A concrete system *)

(** One file, which is read at most three bytes at a time. *)
#[local] Instance sample_system : FileSystem := {|
  EISDIR := 21;
  sys_open name := if bool_decide (name = lit "f") then inl (lit "contents") else inr 2;
  fstat c := inl (mkStat Regular (size_of c) 5 6);
  sys_read c pos count := inl (Z.min 3 (Z.min count (size_of c - pos)));
  sys_pread c pos count := inl (Z.min 3 (Z.min count (size_of c - pos)))
|}.
#[local] Instance sample_system_laws : FileSystemLaws.
Proof. by split; intros c pos count n Hp Hc [= <-]; unfold read_ok; split; lia. Qed.

Lemma read_file_prefix_witness :
  readFile [] (lit "f") 5 [] true false false ⇓ λ '(err, content, info),
    match sys_open (lit "f") with
    | inr errno => err = errno ∧ content = []
    | inl bytes =>
      (content = take (Z.to_nat 5) bytes ∧ (err = 0 ∨ (true = true ∧ (fstat bytes = inr err ∨ err = EISDIR)))) ∨
      (content `prefix_of` take (Z.to_nat 5) bytes ∧ ∃ p n, sys_read bytes p n = inr err)
    end.
Proof. apply read_file_prefix; [lia|]. intros bytes st [= <-]. apply size_of_nonneg. Defined.

Example read_file_example :
  readFile [] (lit "f") 5 [] true false false = Ok (0, lit "conte", mkFileInfo (Some 8) None None) ∧
  readFile [] (lit "g") 5 [] true false false = Ok (2, [], mkFileInfo None None None) ∧
  readFile [] (lit "f") (-1) [] true false false = Fault LengthError.
Proof. by vm_compute. Qed.
