(* ===== verification/Logging.v ===== *)
(** * Logging (muduo/base/Logging.h, Logging.cc; CurrentThread.h, [cacheTid] of Thread.cc)

    A log statement makes a [Logger], shifts its message into the stream and
    destructs the [Logger], which hands the line to the output function.  What
    the process keeps: the level, the time zone and the output and flush
    functions (named by numbers, with what was given to them); what a thread
    keeps: the text of the second in which it logged last, and the text of its
    id.  The time of day, [errno], the thread id, [strerror_r] and [gmtime_r]
    are inputs. *)
From Stdlib Require Import Strings.Byte.
From stdpp Require Import base numbers list strings gmap.
From S2P Require Import Prelude Printf Timestamp Date TimeZone TimeZoneSpec TimeText LogStream.
Open Scope Z_scope.
Open Scope muduo_scope.

(** ** Levels and source files *)

Inductive LogLevel := TRACE | DEBUG | INFO | WARN | ERROR | FATAL.
#[export] Instance LogLevel_eq_dec : EqDecision LogLevel.
Proof. solve_decision. Defined.

Definition level_num (l : LogLevel) : Z :=
  match l with TRACE => 0 | DEBUG => 1 | INFO => 2 | WARN => 3 | ERROR => 4 | FATAL => 5 end.

Definition LogLevelName (l : LogLevel) : list byte :=
  match l with
  | TRACE => lit "TRACE " | DEBUG => lit "DEBUG " | INFO => lit "INFO  "
  | WARN => lit "WARN  " | ERROR => lit "ERROR " | FATAL => lit "FATAL "
  end.

(** The environment variables. *)
Definition initLogLevel (log_trace log_debug : bool) : LogLevel :=
  if log_trace then TRACE else if log_debug then DEBUG else INFO.

(** What follows the last slash, by [strrchr]. *)
Definition SourceFile (path : list byte) : list byte :=
  foldl (λ acc b, if bool_decide (b = x2f) then [] else acc ++ [b]) [] path.

(** ** State *)

(** Thread-local variables; [t_time] and [t_tidString] as C strings. *)
Record Local := mkLocal {
  t_time : list byte;
  t_lastSecond : Z;
  t_cachedTid : Z;
  t_tidString : list byte;
  t_tidStringLength : Z
}.
Definition Local_new : Local := mkLocal [] 0 0 [] 6.

Record Process := mkProcess {
  g_logLevel : LogLevel;
  g_logTimeZone : option Data;
  g_output : nat;
  g_flush : nat;
  locals : gmap nat Local;
  output : list (nat * list byte);
  flushed : list nat;
  aborted : bool
}.
Definition Process_new (level : LogLevel) (zone : option Data) : Process := mkProcess level zone 0 0 ∅ [] [] false.

Definition set_local (i : nat) (l : Local) (p : Process) : Process :=
  mkProcess (g_logLevel p) (g_logTimeZone p) (g_output p) (g_flush p) (<[ i := l ]> (locals p)) (output p) (flushed p) (aborted p).
Definition local_of (i : nat) (p : Process) : Local := default Local_new (locals p !! i).

Definition setLogLevel (level : LogLevel) (p : Process) : Process :=
  mkProcess level (g_logTimeZone p) (g_output p) (g_flush p) (locals p) (output p) (flushed p) (aborted p).
Definition setOutput (out : nat) (p : Process) : Process :=
  mkProcess (g_logLevel p) (g_logTimeZone p) out (g_flush p) (locals p) (output p) (flushed p) (aborted p).
Definition setFlush (flush : nat) (p : Process) : Process :=
  mkProcess (g_logLevel p) (g_logTimeZone p) (g_output p) flush (locals p) (output p) (flushed p) (aborted p).
Definition setTimeZone (tz : option Data) (p : Process) : Process :=
  mkProcess (g_logLevel p) tz (g_output p) (g_flush p) (locals p) (output p) (flushed p) (aborted p).

Section Logger.
Context (snprintf_g : double → list byte) (strerror : Z → list byte) (gmtime_r : Z → tm).

(** ** The time and the thread *)

(** [T(str, len)] asserts the length. *)
Definition T_new (str : list byte) (len : Z) : outcome (list byte) :=
  _ ← assertb 77 (size_of str =? len); mret str.

(** [Fmt(fmt, val)], given the text that [snprintf] makes. *)
Definition Fmt_new (text : list byte) : outcome (list byte) :=
  _ ← assertb 325 (size_of text <? 32); mret text.

(** The text of a second is made anew only when the second changes. *)
Definition cacheTime (zone : option Data) (seconds : Z) (l : Local) : outcome Local :=
  if negb (seconds =? t_lastSecond l) then
    tm_time ← (if TimeZone.valid zone then toLocalTime gmtime_r zone seconds else mret (gmtime_r seconds));
    text ← clock_text tm_time;
    _ ← assertb 154 (size_of text =? 17);
    mret (mkLocal (snprintf 64 text) seconds (t_cachedTid l) (t_tidString l) (t_tidStringLength l))
  else mret l.

Definition formatTime (zone : option Data) (time : Timestamp) (stream : FixedBuffer) (l : Local) :
    outcome (FixedBuffer * Local) :=
  let seconds := Z.quot (microSecondsSinceEpoch time) kMicroSecondsPerSecond in
  let microseconds := i32 (Z.rem (microSecondsSinceEpoch time) kMicroSecondsPerSecond) in
  l ← cacheTime zone seconds l;
  if TimeZone.valid zone then
    us ← Fmt_new (lit "." ++ zero_padded 6 microseconds ++ lit " ");
    _ ← assertb 160 (size_of us =? 8);
    time ← T_new (t_time l) 17; us ← T_new us 8;
    stream ← shift_all snprintf_g stream [LString time; LString us]; mret (stream, l)
  else
    us ← Fmt_new (lit "." ++ zero_padded 6 microseconds ++ lit "Z ");
    _ ← assertb 166 (size_of us =? 9);
    time ← T_new (t_time l) 17; us ← T_new us 9;
    stream ← shift_all snprintf_g stream [LString time; LString us]; mret (stream, l).

(** [CurrentThread::tid] and [cacheTid]; [gettid] is what the system says. *)
Definition tid (gettid : Z) (l : Local) : Local :=
  if t_cachedTid l =? 0 then
    let text := space_padded 5 gettid ++ lit " " in
    mkLocal (t_time l) (t_lastSecond l) gettid (snprintf 32 text) (size_of text)
  else l.

(** ** Impl and Logger *)

Record Impl := mkImpl {
  time_ : Timestamp;
  stream_ : FixedBuffer;
  level_ : LogLevel;
  line_ : Z;
  basename_ : list byte
}.
Definition set_stream (s : FixedBuffer) (i : Impl) : Impl := mkImpl (time_ i) s (level_ i) (line_ i) (basename_ i).

(** What surrounds a log statement: the array of the stream on the stack, the
    time, [errno], the id of the thread. *)
Record Around := mkAround { stack : list byte; now_ : Timestamp; errno : Z; gettid_ : Z }.

Definition Impl_new (zone : option Data) (level : LogLevel) (savedErrno : Z) (file : list byte) (line : Z)
    (a : Around) (l : Local) : outcome (Impl * Local) :=
  '(stream, l) ← formatTime zone (now_ a) (FixedBuffer_new (stack a)) l;
  let l := tid (gettid_ a) l in
  tidString ← T_new (t_tidString l) (t_tidStringLength l);
  name ← T_new (LogLevelName level) 6;
  stream ← shift_all snprintf_g stream [LString tidString; LString name];
  stream ← (if negb (savedErrno =? 0) then
      shift_all snprintf_g stream
        [LCString (Some (strerror savedErrno)); LCString (Some (lit " (errno=")); LInteger savedErrno; LCString (Some (lit ") "))]
    else mret stream);
  mret (mkImpl (now_ a) stream level line file, l).

Definition finish (i : Impl) : outcome Impl :=
  stream ← shift_all snprintf_g (stream_ i)
    [LCString (Some (lit " - ")); LString (basename_ i); LChar x3a; LInteger (line_ i); LChar x0a];
  mret (set_stream stream i).

(** The four constructors. *)
Inductive LoggerArgs :=
  | Plain
  | WithLevel (level : LogLevel)
  | WithFunc (level : LogLevel) (func : list byte)
  | ToAbort (toAbort : bool).

Definition Logger_new (zone : option Data) (args : LoggerArgs) (file : list byte) (line : Z) (a : Around) (l : Local) :
    outcome (Impl * Local) :=
  match args with
  | Plain => Impl_new zone INFO 0 file line a l
  | WithLevel level => Impl_new zone level 0 file line a l
  | WithFunc level func =>
    '(i, l) ← Impl_new zone level 0 file line a l;
    stream ← shift_all snprintf_g (stream_ i) [LCString (Some func); LChar x20];
    mret (set_stream stream i, l)
  | ToAbort toAbort => Impl_new zone (if toAbort then FATAL else ERROR) (errno a) file line a l
  end.

Definition Logger_destructor (i : Impl) (p : Process) : outcome Process :=
  i ← finish i;
  let out := output p ++ [(g_output p, toString (stream_ i))] in
  mret (if bool_decide (level_ i = FATAL)
        then mkProcess (g_logLevel p) (g_logTimeZone p) (g_output p) (g_flush p) (locals p) out (flushed p ++ [g_flush p]) true
        else mkProcess (g_logLevel p) (g_logTimeZone p) (g_output p) (g_flush p) (locals p) out (flushed p) (aborted p)).

(** ** Log statements *)

Inductive Macro := LOG_TRACE | LOG_DEBUG | LOG_INFO | LOG_WARN | LOG_ERROR | LOG_FATAL | LOG_SYSERR | LOG_SYSFATAL.

(** The test before the statement. *)
Definition enabled (level : LogLevel) (m : Macro) : bool :=
  match m with
  | LOG_TRACE => level_num level <=? level_num TRACE
  | LOG_DEBUG => level_num level <=? level_num DEBUG
  | LOG_INFO => level_num level <=? level_num INFO
  | _ => true
  end.
Definition macro_args (m : Macro) (func : list byte) : LoggerArgs :=
  match m with
  | LOG_TRACE => WithFunc TRACE func
  | LOG_DEBUG => WithFunc DEBUG func
  | LOG_INFO => Plain
  | LOG_WARN => WithLevel WARN
  | LOG_ERROR => WithLevel ERROR
  | LOG_FATAL => WithLevel FATAL
  | LOG_SYSERR => ToAbort false
  | LOG_SYSFATAL => ToAbort true
  end.

Record Statement := mkStatement {
  macro : Macro;
  file : list byte;
  line : Z;
  func : list byte;
  message : list Item
}.

(** Thread [i] runs a log statement. *)
Definition log (i : nat) (s : Statement) (a : Around) (p : Process) : outcome Process :=
  if enabled (g_logLevel p) (macro s) then
    '(impl, l) ← Logger_new (g_logTimeZone p) (macro_args (macro s) (func s)) (SourceFile (file s)) (line s) a (local_of i p);
    stream ← shift_all snprintf_g (stream_ impl) (message s);
    Logger_destructor (set_stream stream impl) (set_local i l p)
  else mret p.

(** [CHECK_NOTNULL(val)]: the names are logged if the pointer is null. *)
Definition CheckNotNull (i : nat) (path : list byte) (line : Z) (names : list byte) (ptr : Z) (a : Around) (p : Process) :
    outcome Process :=
  if ptr =? 0 then log i (mkStatement LOG_FATAL path line [] [LCString (Some names)]) a p else mret p.

Inductive Event :=
  | EvLog (i : nat) (s : Statement) (a : Around)
  | EvLevel (level : LogLevel)
  | EvOutput (out : nat)
  | EvFlush (flush : nat)
  | EvTimeZone (tz : option Data).

Definition event (e : Event) (p : Process) : outcome Process :=
  match e with
  | EvLog i s a => log i s a p
  | EvLevel level => mret (setLogLevel level p)
  | EvOutput out => mret (setOutput out p)
  | EvFlush flush => mret (setFlush flush p)
  | EvTimeZone tz => mret (setTimeZone tz p)
  end.

(** A process that has aborted does nothing any more. *)
Fixpoint run (es : list Event) (p : Process) : outcome Process :=
  match es with
  | [] => mret p
  | e :: es => if aborted p then mret p else p ← event e p; run es p
  end.
End Logger.

(** ** What is logged *)

Section Lines.
Context (snprintf_g : double → list byte) (strerror : Z → list byte) (gmtime_r : Z → tm).
Context (zone : option Data) (tids : nat → Z).

Definition seconds_of (t : Timestamp) : Z := Z.quot t kMicroSecondsPerSecond.
Definition clock_of (s : Z) : outcome tm :=
  if TimeZone.valid zone then toLocalTime gmtime_r zone s else mret (gmtime_r s).

(** The beginning of a line, from the time alone. *)
Definition time_text (t : Timestamp) : list byte :=
  match clock_of (seconds_of t) with Ok c => clock_digits c | Fault _ => [] end.
Definition us_text (t : Timestamp) : list byte :=
  lit "." ++ dec_digits 6 (Z.rem t kMicroSecondsPerSecond) ++ (if TimeZone.valid zone then lit " " else lit "Z ").
Definition tid_text (i : Z) : list byte := space_padded 5 i ++ lit " ".

Definition args_level (args : LoggerArgs) : LogLevel :=
  match args with
  | Plain => INFO
  | WithLevel level | WithFunc level _ => level
  | ToAbort toAbort => if toAbort then FATAL else ERROR
  end.
Definition errno_items (args : LoggerArgs) (a : Around) : list Item :=
  match args with
  | ToAbort _ =>
    if errno a =? 0 then []
    else [LCString (Some (strerror (errno a))); LCString (Some (lit " (errno=")); LInteger (errno a); LCString (Some (lit ") "))]
  | _ => []
  end.
Definition func_items (args : LoggerArgs) : list Item :=
  match args with WithFunc _ func => [LCString (Some func); LChar x20] | _ => [] end.
Definition head_items (args : LoggerArgs) (a : Around) : list Item :=
  [LString (time_text (now_ a)); LString (us_text (now_ a)); LString (tid_text (gettid_ a)); LString (LogLevelName (args_level args))].
Definition foot_items (s : Statement) : list Item :=
  [LCString (Some (lit " - ")); LString (SourceFile (file s)); LChar x3a; LInteger (line s); LChar x0a].

Definition line_items (s : Statement) (a : Around) : list Item :=
  let args := macro_args (macro s) (func s) in
  head_items args a ++ errno_items args a ++ func_items args ++ message s ++ foot_items s.

(** The line of a statement, in a buffer of [kSmallBuffer] bytes. *)
Definition log_line (s : Statement) (a : Around) : list byte :=
  foldl (emit kSmallBuffer snprintf_g) [] (line_items s a).

Definition fatal (m : Macro) : bool := match m with LOG_FATAL | LOG_SYSFATAL => true | _ => false end.

(** What a sequence of events puts out, what it flushes, and whether it aborts. *)
Fixpoint logged (es : list Event) (level : LogLevel) (out flush : nat) : list (nat * list byte) * list nat * bool :=
  match es with
  | [] => ([], [], false)
  | EvLog _ s a :: es =>
    if enabled level (macro s) then
      if fatal (macro s) then ([(out, log_line s a)], [flush], true)
      else let '(o, f, b) := logged es level out flush in ((out, log_line s a) :: o, f, b)
    else logged es level out flush
  | EvLevel level :: es => logged es level out flush
  | EvOutput out :: es => logged es level out flush
  | EvFlush flush :: es => logged es level out flush
  | EvTimeZone _ :: es => logged es level out flush
  end.

(** A time that can be logged: from the second after the epoch on, with a year of
    four digits in the zone. *)
Definition loggable (t : Timestamp) : Prop :=
  kMicroSecondsPerSecond ≤ t ∧ ∃ c, clock_of (seconds_of t) = Ok c ∧ clock_fits c.

Record event_ok (i : nat) (s : Statement) (a : Around) : Prop := {
  ok_stack : size_of (stack a) = kSmallBuffer;
  ok_now : loggable (now_ a);
  ok_errno : - 2 ^ 31 ≤ errno a < 2 ^ 31;
  ok_tid : gettid_ a = tids i;
  ok_line : - 2 ^ 31 ≤ line s < 2 ^ 31;
  ok_message : Forall item_ok (message s)
}.
Definition event_fine (e : Event) : Prop :=
  match e with EvLog i s a => event_ok i s a | EvTimeZone _ => False | _ => True end.

(** The texts a thread has cached are the right ones. *)
Record cached (i : nat) (l : Local) : Prop := {
  cached_time : t_lastSecond l = 0 ∨ ∃ c, clock_of (t_lastSecond l) = Ok c ∧ clock_fits c ∧ t_time l = clock_digits c;
  cached_tid : t_cachedTid l = 0 ∨ t_cachedTid l = tids i ∧ t_tidString l = tid_text (tids i) ∧
                 t_tidStringLength l = size_of (tid_text (tids i))
}.

Hypothesis snprintf_g_short : ∀ v, size_of (snprintf_g v) ≤ 31.
Hypothesis tids_ok : ∀ i, 0 < tids i < 2 ^ 31.

Lemma size_of_dec_digits k n : size_of (dec_digits k n) = Z.of_nat k.
Proof. unfold size_of. by rewrite length_dec_digits. Qed.

Lemma size_of_clock_digits c : size_of (clock_digits c) = 17.
Proof. unfold size_of. by rewrite length_clock_digits. Qed.

Lemma size_of_us_text t : size_of (us_text t) = if TimeZone.valid zone then 8 else 9.
Proof. unfold us_text. rewrite !size_of_app, size_of_dec_digits. by destruct (TimeZone.valid zone). Qed.

Lemma size_of_tid_text i : 0 < i < 2 ^ 31 → 6 ≤ size_of (tid_text i) ≤ 11.
Proof.
  intros Hi. unfold tid_text, space_padded, decimal, sign. rewrite (proj2 (Z.ltb_ge i 0)), Z.abs_eq by lia. cbn [app].
  destruct (num_digits_spec i) as (_ & H1 & Hk); [lia|]. specialize (Hk 10%nat ltac:(lia) ltac:(cbn; lia)).
  rewrite !size_of_app, size_of_dec_digits, length_dec_digits. change (size_of (lit " ")) with 1.
  unfold size_of. rewrite length_replicate. lia.
Qed.

Lemma cacheTime_spec i l t :
  cached i l → loggable t →
  cacheTime gmtime_r zone (seconds_of t) l ⇓ λ l', cached i l' ∧ t_time l' = time_text t ∧ size_of (time_text t) = 17.
Proof.
  intros Hl (Ht & c & Hclock & Hfit). pose proof Hl as [Hc Htid]. unfold cacheTime, time_text. fold (clock_of (seconds_of t)).
  assert (0 < seconds_of t) as Hpos.
  { unfold seconds_of. unfold kMicroSecondsPerSecond in *. apply Z.quot_str_pos. lia. }
  rewrite Hclock, size_of_clock_digits. destruct (Z.eqb_spec (seconds_of t) (t_lastSecond l)) as [E|]; cbn [negb].
  - apply yields_ret. destruct Hc as [Hc|(c' & Hc' & _ & Htime)]; [lia|]. rewrite <- E in Hc'.
    assert (c' = c) as -> by congruence. by split_and!.
  - cbn [mbind outcome_bind]. rewrite clock_text_digits by done. cbn [mbind outcome_bind].
    yassert; [by rewrite size_of_clock_digits|]. apply yields_ret. unfold snprintf.
    rewrite take_ge by (rewrite length_clock_digits; lia). split_and!; [|done|done].
    split; cbn; [|done]. right. by exists c.
Qed.

(** ** The parts of a line *)

(** Shifting items, when the stream holds what the items before them gave. *)
Lemma shift_more b its its' :
  buffer_ok kSmallBuffer b → toString b = foldl (emit kSmallBuffer snprintf_g) [] its → Forall item_ok its' →
  shift_all snprintf_g b its' ⇓ λ b', buffer_ok kSmallBuffer b' ∧
    toString b' = foldl (emit kSmallBuffer snprintf_g) [] (its ++ its').
Proof.
  intros Hb Ht Hok. eapply yields_mono; [by apply (shift_all_spec snprintf_g kSmallBuffer)|].
  intros b' [Hb' Ht']. split; [done|]. by rewrite foldl_app, <- Ht.
Qed.

Definition written (its : list Item) (b : FixedBuffer) : Prop :=
  buffer_ok kSmallBuffer b ∧ toString b = foldl (emit kSmallBuffer snprintf_g) [] its.

Lemma shift_written b its its' :
  written its b → Forall item_ok its' → shift_all snprintf_g b its' ⇓ written (its ++ its').
Proof. intros [Hb Ht] Hok. by apply shift_more. Qed.

Lemma T_new_spec s n : size_of s = n → T_new s n ⇓ λ s', s' = s.
Proof. intros <-. unfold T_new. by rewrite Z.eqb_refl. Qed.

Lemma Fmt_new_spec s : size_of s < 32 → Fmt_new s ⇓ λ s', s' = s.
Proof. intros Hs. unfold Fmt_new. by rewrite (proj2 (Z.ltb_lt _ _) Hs). Qed.

Lemma formatTime_spec i l a :
  cached i l → loggable (now_ a) → size_of (stack a) = kSmallBuffer →
  formatTime snprintf_g gmtime_r zone (now_ a) (FixedBuffer_new (stack a)) l ⇓ λ '(b, l'),
    cached i l' ∧ written [LString (time_text (now_ a)); LString (us_text (now_ a))] b.
Proof.
  intros Hl Hnow Hstack. unfold formatTime. unfold microSecondsSinceEpoch. fold (seconds_of (now_ a)).
  ystep (cacheTime_spec i); [done|done|]. intros l' (Hl' & -> & Hsize).
  pose proof Hnow as (Hge & _).
  destruct (split_microseconds (now_ a)) as (Hus & Hi & _); [unfold kMicroSecondsPerSecond in *; lia|].
  rewrite Hi, zero_padded_digits by (lia || exact Hus).
  assert (written [] (FixedBuffer_new (stack a))) as H0.
  { split; [split; [done|cbn; unfold kSmallBuffer; lia]|done]. }
  pose proof (size_of_us_text (now_ a)) as Hsz. unfold us_text in *.
  destruct (TimeZone.valid zone); 
    (ystep Fmt_new_spec; [lia|]; intros ? ->; yassert; ystep T_new_spec; [done|]; intros ? ->; ystep T_new_spec; [done|]; intros ? ->;
     ystep shift_written; [done|by repeat constructor|]; intros b Hb; by apply yields_ret).
Qed.

Lemma tid_spec i l : cached i l → cached i (tid (tids i) l) ∧
  t_tidString (tid (tids i) l) = tid_text (tids i) ∧ t_tidStringLength (tid (tids i) l) = size_of (tid_text (tids i)).
Proof.
  intros Hl. pose proof Hl as [Hc Ht]. pose proof (size_of_tid_text _ (tids_ok i)) as Hsize. unfold tid.
  destruct (Z.eqb_spec (t_cachedTid l) 0) as [E|E]; [|destruct Ht as [|(? & ? & ?)]; done].
  fold (tid_text (tids i)). cbn [t_tidString t_tidStringLength]. unfold snprintf.
  rewrite take_ge by (unfold size_of in Hsize; lia). split_and!; [|done..]. split; cbn; [done|]. by right.
Qed.

Lemma LogLevelName_size level : size_of (LogLevelName level) = 6.
Proof. by destruct level. Qed.

Definition saved_errno_items (savedErrno : Z) : list Item :=
  if savedErrno =? 0 then []
  else [LCString (Some (strerror savedErrno)); LCString (Some (lit " (errno=")); LInteger savedErrno; LCString (Some (lit ") "))].

Lemma Impl_new_spec i l a level savedErrno file line :
  cached i l → loggable (now_ a) → size_of (stack a) = kSmallBuffer → gettid_ a = tids i →
  - 2 ^ 31 ≤ savedErrno < 2 ^ 31 →
  Impl_new snprintf_g strerror gmtime_r zone level savedErrno file line a l ⇓ λ '(im, l'),
    cached i l' ∧ level_ im = level ∧ line_ im = line ∧ basename_ im = file ∧
    written ([LString (time_text (now_ a)); LString (us_text (now_ a)); LString (tid_text (gettid_ a)); LString (LogLevelName level)]
             ++ saved_errno_items savedErrno) (stream_ im).
Proof.
  intros Hl Hnow Hstack Htid Herr. unfold Impl_new.
  ystep (formatTime_spec i); [done..|]. intros [b l1] [Hl1 Hb]. rewrite Htid.
  destruct (tid_spec i l1 Hl1) as (Hl2 & -> & ->).
  ystep T_new_spec; [done|]. intros ? ->. ystep T_new_spec; [apply LogLevelName_size|]. intros ? ->.
  ystep shift_written; [done|by repeat constructor|]. intros b1 Hb1.
  unfold saved_errno_items. destruct (Z.eqb_spec savedErrno 0); cbn [negb].
  - apply yields_bind, yields_ret, yields_ret. rewrite app_nil_r. by split_and!.
  - ystep shift_written; [done|repeat constructor; cbn; lia|]. intros b2 Hb2. apply yields_ret. by split_and!.
Qed.

Lemma Logger_new_spec i l a args file line :
  cached i l → loggable (now_ a) → size_of (stack a) = kSmallBuffer → gettid_ a = tids i →
  - 2 ^ 31 ≤ errno a < 2 ^ 31 →
  Logger_new snprintf_g strerror gmtime_r zone args file line a l ⇓ λ '(im, l'),
    cached i l' ∧ level_ im = args_level args ∧ line_ im = line ∧ basename_ im = file ∧
    written (head_items args a ++ errno_items args a ++ func_items args) (stream_ im).
Proof.
  intros Hl Hnow Hstack Htid Herr.
  assert (∀ level savedErrno, - 2 ^ 31 ≤ savedErrno < 2 ^ 31 → _) as HImpl
    by (intros level e; exact (Impl_new_spec i l a level e file line Hl Hnow Hstack Htid)).
  destruct args as [|level|level func|toAbort]; cbn [Logger_new].
  1-2: eapply yields_mono; [apply HImpl; lia|]; intros [im l'] (? & ? & ? & ? & ?); by split_and!.
  - ystep HImpl; [lia|]. intros [im l'] (? & ? & ? & ? & Hw). ystep shift_written; [exact Hw|by repeat constructor|].
    intros b Hb. apply yields_ret. by split_and!.
  - eapply yields_mono; [by apply HImpl|]. intros [im l'] (? & ? & ? & ? & Hw). split_and!; try done.
    unfold errno_items, func_items. by rewrite app_nil_r.
Qed.

(** What [Logger_destructor] does to the process. *)
Definition put_line (text : list byte) (level : LogLevel) (p : Process) : Process :=
  mkProcess (g_logLevel p) (g_logTimeZone p) (g_output p) (g_flush p) (locals p) (output p ++ [(g_output p, text)])
    (if bool_decide (level = FATAL) then flushed p ++ [g_flush p] else flushed p)
    (if bool_decide (level = FATAL) then true else aborted p).

Lemma log_spec i s a p :
  g_logTimeZone p = zone → cached i (local_of i p) → event_ok i s a →
  log snprintf_g strerror gmtime_r i s a p ⇓ λ p',
    if enabled (g_logLevel p) (macro s) then
      ∃ l, cached i l ∧ p' = put_line (log_line s a) (args_level (macro_args (macro s) (func s))) (set_local i l p)
    else p' = p.
Proof.
  intros Hz Hl [Hst Hnow Herr Htid Hline Hmsg]. unfold log. destruct (enabled _ _); [|by apply yields_ret].
  rewrite Hz. ystep (Logger_new_spec i); [done..|]. intros [im l'] (Hl' & Hlv & Hln & Hbn & Hw).
  ystep shift_written; [exact Hw|done|]. intros b Hb. unfold Logger_destructor, finish. cbn [stream_ set_stream basename_ line_].
  apply yields_bind. ystep shift_written; [exact Hb|repeat constructor; cbn; lia|]. intros b' [_ Ht].
  apply yields_ret, yields_ret. exists l'. split; [done|]. cbn [stream_ set_stream level_]. unfold put_line, log_line, line_items.
  rewrite Ht, Hln, Hbn, Hlv, <- !app_assoc. unfold foot_items. by destruct (bool_decide _).
Qed.

(** C39. Logging.  The time zone is not changed while the threads log, and every statement
    is made at a time that can be logged: in the second 1 after the epoch or later (in the
    second 0 the statement asserts, [epoch_second_asserts]), at a time that the zone
    converts, with a year of four digits; its line number and [errno] are ints, and the
    thread keeps its id.  Statements are whole steps: levels and outputs change between
    them.  Then each enabled statement, and no other, gives the output function of the
    moment one line, which is made of its time (in the zone, or UTC), thread id,
    level, error text, function, message, file and line as if they were all
    formatted anew, although the text of the second and of the thread id are
    cached; parts that do not fit into 4000 bytes are left out; a fatal
    statement flushes and aborts after its line. *)
Theorem log_lines es level :
  Forall event_fine es →
  run snprintf_g strerror gmtime_r es (Process_new level zone) ⇓ λ p,
    (output p, flushed p, aborted p) = logged es level 0 0.
Proof.
  intros Hes.
  assert (∀ p, g_logTimeZone p = zone → aborted p = false → (∀ i, cached i (local_of i p)) →
    run snprintf_g strerror gmtime_r es p ⇓ λ p', let '(o, f, b) := logged es (g_logLevel p) (g_output p) (g_flush p) in
      output p' = output p ++ o ∧ flushed p' = flushed p ++ f ∧ aborted p' = b) as Hall.
  { induction Hes as [|e es He Hes IH]; intros p Hz Hab Hl; [cbn; by rewrite !app_nil_r|].
    cbn [run]. rewrite Hab. destruct e as [i s a|lv|out|fl|]; cbn [event logged event_fine] in *; try done.
    2: apply yields_bind, yields_ret; by apply (IH (setLogLevel lv p)).
    2: apply yields_bind, yields_ret; by apply (IH (setOutput out p)).
    2: apply yields_bind, yields_ret; by apply (IH (setFlush fl p)).
    ystep log_spec; [done|apply Hl|exact He|]. intros p' Hp'.
    destruct (enabled (g_logLevel p) (macro s)); [|subst p'; by apply IH].
    destruct Hp' as (l & Hl' & ->). unfold put_line.
    assert (args_level (macro_args (macro s) (func s)) = FATAL ↔ fatal (macro s) = true) as Hfatal by (by destruct (macro s)).
    destruct (fatal (macro s)).
    - rewrite !(bool_decide_true (_ = FATAL)) by (by apply Hfatal). destruct es; by apply yields_ret.
    - rewrite !(bool_decide_false (_ = FATAL)) by (intros E%Hfatal; done).
      eapply yields_mono; [apply IH; [done|done|]|].
      + intros j. unfold local_of. cbn. destruct (decide (i = j)) as [->|Hne]; [by rewrite lookup_insert_eq|].
        rewrite lookup_insert_ne by done. apply Hl.
      + cbn [g_logLevel g_output g_flush output flushed set_local]. intros p'. destruct (logged _ _ _ _) as [[o f] b].
        intros (-> & -> & ->). by rewrite <- app_assoc. }
  eapply yields_mono; [apply Hall; [done|done|]|].
  - intros i. unfold local_of. cbn. rewrite lookup_empty. split; by left.
  - cbn. intros p. destruct (logged _ _ _ _) as [[o f] b]. by intros (-> & -> & ->).
Qed.

(** ** Lines that fit *)

(** A line whose texts leave 32 bytes of the buffer is whole, and ends the line. *)
Lemma log_line_whole s a :
  size_of (texts snprintf_g (line_items s a)) + kMaxNumericSize ≤ kSmallBuffer →
  log_line s a = texts snprintf_g (line_items s a) ∧ last (log_line s a) = Some x0a.
Proof.
  intros Hsize. assert (log_line s a = texts snprintf_g (line_items s a)) as ->
    by (unfold log_line; by rewrite emit_all).
  split; [done|]. set (args := macro_args (macro s) (func s)).
  assert (line_items s a = (head_items args a ++ errno_items args a ++ func_items args ++ message s ++
    [LCString (Some (lit " - ")); LString (SourceFile (file s)); LChar x3a; LInteger (line s)]) ++ [LChar x0a]) as ->
    by (by rewrite <- !app_assoc).
  unfold texts. rewrite fmap_app, concat_app. apply last_snoc.
Qed.

End Lines.

(** ** Times that can be logged *)

Lemma loggable_utc gmtime_r t :
  gmtime_utc gmtime_r → kMicroSecondsPerSecond ≤ t → four_digit_year (seconds_of t) → loggable gmtime_r None t.
Proof.
  intros Hg Ht Hy. split; [done|]. exists (gmtime_r (seconds_of t)). split; [done|]. by apply gmtime_clock.
Qed.

Lemma loggable_zone gmtime_r data t :
  gmtime_utc gmtime_r → zone_ok data → kMicroSecondsPerSecond ≤ t < 2 ^ 62 →
  (∀ l, l ∈ localtimes data → four_digit_year (seconds_of t + gmtOffset l)) → loggable gmtime_r (Some data) t.
Proof.
  intros Hg Hz Ht Hy. split; [lia|]. destruct (passed_exists true data (seconds_of t)) as [n Hp]; [apply Hz|].
  destruct (zone_types _ Hz n) as (l & Hl & _); [apply Hp|].
  destruct (toLocalTime_spec gmtime_r data n l (seconds_of t) Hz Hp Hl) as (c & Hc & Htold).
  { unfold seconds_of, kMicroSecondsPerSecond in *. change (1000 * 1000) with 1000000 in *. euclid. }
  exists c. split; [exact Hc|]. destruct Htold as ((H1 & H2 & H3 & H4 & H5 & H6) & _).
  destruct (gmtime_clock gmtime_r Hg (seconds_of t + gmtOffset l)) as [Hfit _].
  { apply Hy. by eapply in_force_elem. }
  unfold clock_fits in *. rewrite H1, H2, H3, H4, H5, H6. exact Hfit.
Qed.

(** Reading a log.  A statement logged in UTC begins with the twenty-four
    characters that say when it was logged, to the microsecond, whatever the
    message is, also when it does not fit. *)
Theorem log_time_reads snprintf_g strerror gmtime_r s a :
  gmtime_utc gmtime_r → kMicroSecondsPerSecond ≤ now_ a → four_digit_year (seconds_of (now_ a)) →
  0 < gettid_ a < 2 ^ 31 →
  read_timestamp (take 24 (log_line snprintf_g strerror gmtime_r None s a)) = Ok (now_ a).
Proof.
  intros Hg Hnow Hy Htid. unfold log_line, line_items, head_items.
  set (its := errno_items _ _ _ ++ _). cbn [app foldl].
  set (t1 := time_text gmtime_r None (now_ a)). set (t2 := us_text None (now_ a)).
  assert (size_of t1 = 17) as H1.
  { subst t1. unfold time_text, clock_of. cbn. apply size_of_clock_digits. }
  assert (size_of t2 = 9) as H2 by (subst t2; by rewrite size_of_us_text).
  assert (∀ its text, text `prefix_of` foldl (emit kSmallBuffer snprintf_g) text its) as Hpre.
  { clear. induction its as [|it its IH]; intros text; cbn [foldl]; [done|]. etransitivity; [|apply IH].
    unfold emit. case_match; [|done]. by apply prefix_app_r. }
  assert (emit kSmallBuffer snprintf_g (emit kSmallBuffer snprintf_g [] (LString t1)) (LString t2) = t1 ++ t2) as Hem.
  { pose proof (emit_all snprintf_g kSmallBuffer [LString t1; LString t2] []) as E.
    unfold texts in E. cbn [fmap list_fmap concat item_text app foldl] in E. rewrite app_nil_r in E. apply E.
    rewrite size_of_app, H1, H2. done. }
  rewrite Hem.
  destruct (Hpre ([LString (tid_text (gettid_ a)); LString (LogLevelName (args_level (macro_args (macro s) (func s))))] ++ its)
    (t1 ++ t2)) as [k Hk]. cbn [app foldl] in Hk. rewrite Hk. clear Hk Hpre Hem.
  destruct (split_microseconds (now_ a)) as (Hus & _ & Hsum & _); [unfold kMicroSecondsPerSecond in *; lia|].
  destruct (gmtime_text gmtime_r Hg _ Hy) as [_ Hread].
  assert (t1 = clock_digits (gmtime_r (seconds_of (now_ a)))) as -> by done.
  assert (take 24 ((clock_digits (gmtime_r (seconds_of (now_ a))) ++ t2) ++ k) =
    clock_digits (gmtime_r (seconds_of (now_ a))) ++ lit "." ++ dec_digits 6 (Z.rem (now_ a) kMicroSecondsPerSecond)) as ->.
  { subst t2. unfold us_text. rewrite <- !app_assoc. rewrite !app_assoc. rewrite <- !(app_assoc _ _ k). 
    rewrite take_app_length'; [by rewrite <- app_assoc|]. by rewrite !length_app, length_clock_digits, length_dec_digits. }
  unfold read_timestamp. rewrite Hread. cbn [mbind outcome_bind]. f_equal.
  change (drop 1 (lit "." ++ ?l)) with (drop 0 l). rewrite drop_0, dec_value_digits, Z.mod_small by exact Hus. exact Hsum.
Qed.

(** ** Examples *)

Definition no_doubles (v : double) : list byte := lit "0".
Definition an_error (e : Z) : list byte := lit "Bad file descriptor".
Definition example_tids (i : nat) : Z := match i with O => 77 | _ => 12345 end.
Definition example_around (i : nat) (t : Timestamp) : Around := mkAround (replicate 4000 x00) t 9 (example_tids i).
Definition hello (m : Macro) : Statement := mkStatement m (lit "src/a/main.cc") 42 (lit "main") [LString (lit "n="); LInteger 7].
Definition example_events : list Event :=
  [EvLog 0 (hello LOG_INFO) (example_around 0 1700000000123456); EvLog 1 (hello LOG_DEBUG) (example_around 1 1700000000123457);
   EvLevel DEBUG; EvLog 0 (hello LOG_DEBUG) (example_around 0 1700000000999999);
   EvOutput 1; EvLog 1 (hello LOG_SYSFATAL) (example_around 1 1700000001000000); EvLog 0 (hello LOG_WARN) (example_around 0 1700000002000000)].

Lemma example_ok i m t :
  kMicroSecondsPerSecond ≤ t → four_digit_year (seconds_of t) →
  event_ok utc_tm None example_tids i (hello m) (example_around i t).
Proof.
  intros Ht Hy. split; try done; [apply loggable_utc; [exact utc_tm_utc|done|done]|].
  apply Forall_cons. split; [done|]. apply Forall_singleton. cbn. lia.
Qed.

Lemma example_fine : Forall (event_fine utc_tm None example_tids) example_events.
Proof.
  repeat (apply Forall_cons; split; [first [exact I|apply example_ok; [vm_compute; discriminate|vm_compute; split; [discriminate|reflexivity]]]|]).
  by apply Forall_nil.
Qed.

Lemma log_lines_witness :
  run no_doubles an_error utc_tm example_events (Process_new INFO None) ⇓ λ p,
    output p = [(0%nat, lit "20231114 22:13:20.123456Z    77 INFO  n=7 - main.cc:42" ++ [x0a]);
                (0%nat, lit "20231114 22:13:20.999999Z    77 DEBUG main n=7 - main.cc:42" ++ [x0a]);
                (1%nat, lit "20231114 22:13:21.000000Z 12345 FATAL Bad file descriptor (errno=9) n=7 - main.cc:42" ++ [x0a])] ∧
    flushed p = [0%nat] ∧ aborted p = true.
Proof.
  eapply yields_mono.
  - apply (log_lines no_doubles an_error utc_tm None example_tids).
    + intros v. vm_compute. discriminate.
    + intros [|i]; vm_compute; by split.
    + exact example_fine.
  - intros p Hp. rewrite (surjective_pairing (logged _ _ _ _ _ _ _ _)), (surjective_pairing (fst _)) in Hp.
    injection Hp as -> -> ->. split_and!; vm_compute; reflexivity.
Defined.

Lemma log_time_reads_witness :
  read_timestamp (take 24 (log_line no_doubles an_error utc_tm None (hello LOG_WARN) (example_around 1 1700000000123456))) =
  Ok 1700000000123456.
Proof.
  apply (log_time_reads no_doubles an_error utc_tm (hello LOG_WARN) (example_around 1 1700000000123456));
    [exact utc_tm_utc|vm_compute; discriminate|vm_compute; split; [discriminate|reflexivity]|cbn; lia].
Defined.

(** The first second after the epoch looks as if it were cached: the line that
    has to be made then fails the assertion on the length of the text. *)
Lemma epoch_second_asserts :
  log no_doubles an_error utc_tm 0 (hello LOG_INFO) (example_around 0 500000) (Process_new INFO None) = Fault (AssertFailure 77).
Proof. by vm_compute. Qed.

(** [setTimeZone] does not touch the cached text: until the second ends, lines
    carry the clock of the old zone and the form of the new one. *)
Definition zone_change : list Event :=
  [EvLog 0 (hello LOG_INFO) (example_around 0 1700000000100000); EvTimeZone (Some eastern);
   EvLog 0 (hello LOG_INFO) (example_around 0 1700000000200000); EvLog 0 (hello LOG_INFO) (example_around 0 1700000001000000)].
Lemma zone_change_is_late :
  run no_doubles an_error utc_tm zone_change (Process_new INFO None) ⇓ λ p,
    (take 25 ∘ snd) <$> output p =
      [lit "20231114 22:13:20.100000Z"; lit "20231114 22:13:20.200000 "; lit "20231114 17:13:21.000000 "].
Proof. by vm_compute. Qed.

(** A message that fills the buffer takes the place of what comes after it. *)
Lemma full_line_runs_on :
  last (log_line no_doubles an_error utc_tm None
    (mkStatement LOG_INFO (lit "main.cc") 42 [] [LString (replicate 3961 x61)]) (example_around 0 1700000000123456)) = Some x61.
Proof. by vm_compute. Qed.
