(* ===== verification/AsyncLogging.v ===== *)
(** * Asynchronous logging (muduo/base/AsyncLogging.h, AsyncLogging.cc)

    The front ends call [append], which is one critical section; the back end
    is the loop of [threadFunc], cut where other threads can come in between:
    before it takes the mutex, while it waits on the condition, and while it
    writes without the mutex.  Its wait ends by a notification, by the timeout
    or spuriously, so at any time.  [SIZE] is the size of the buffers,
    [kLargeBuffer] in the code. *)
From Stdlib Require Import Strings.Byte.
From stdpp Require Import base numbers list strings.
From S2P Require Import Prelude Timestamp LogStream.
Open Scope Z_scope.
Open Scope muduo_scope.

(** [unique_ptr<Buffer>]: null once it is moved from. *)
Abbreviation BufferPtr := (option FixedBuffer).
Definition deref (p : BufferPtr) : outcome FixedBuffer :=
  match p with Some b => Ok b | None => Fault BadDeref end.

(** What goes to the log file: a buffer, or the notice that buffers are
    dropped.  [OErased] is not output; it stands where dropped lines would be. *)
Inductive Out :=
  | OData (bytes : list byte)
  | ONotice (buffers : Z)
  | OErased (bytes : list byte).

(** Where the back end is. *)
Inductive Pc := BTop | BLock | BWait | BWrite | BDone.

Record AsyncLogging := mkAsyncLogging {
  running_ : bool;
  currentBuffer_ : BufferPtr;
  nextBuffer_ : BufferPtr;
  buffers_ : list BufferPtr;
  (** the back end's local variables *)
  pc : Pc;
  newBuffer1 : BufferPtr;
  newBuffer2 : BufferPtr;
  buffersToWrite : list BufferPtr;
  output : list Out
}.

#[export] Instance Pc_eq_dec : EqDecision Pc.
Proof. solve_decision. Defined.

Section Logging.
Context (SIZE : Z).

Definition new_buffer : FixedBuffer := FixedBuffer_new (replicate (Z.to_nat SIZE) x00).

(** After [start], with the back end at its loop. *)
Definition AsyncLogging_start : AsyncLogging :=
  mkAsyncLogging true (Some new_buffer) (Some new_buffer) [] BTop (Some new_buffer) (Some new_buffer) [] [].

Definition append (logline : list byte) (s : AsyncLogging) : outcome AsyncLogging :=
  current ← deref (currentBuffer_ s);
  if size_of logline <? avail current then
    current ← LogStream.append current logline;
    mret (mkAsyncLogging (running_ s) (Some current) (nextBuffer_ s) (buffers_ s)
            (pc s) (newBuffer1 s) (newBuffer2 s) (buffersToWrite s) (output s))
  else
    let buffers := buffers_ s ++ [currentBuffer_ s] in
    let '(current, next) :=
      match nextBuffer_ s with
      | Some b => (b, None)
      | None => (new_buffer, None)
      end in
    current ← LogStream.append current logline;
    mret (mkAsyncLogging (running_ s) (Some current) next buffers
            (pc s) (newBuffer1 s) (newBuffer2 s) (buffersToWrite s) (output s)).

Definition stop (s : AsyncLogging) : AsyncLogging :=
  mkAsyncLogging false (currentBuffer_ s) (nextBuffer_ s) (buffers_ s)
    (pc s) (newBuffer1 s) (newBuffer2 s) (buffersToWrite s) (output s).

(** ** The back end *)

Definition set_pc (p : Pc) (s : AsyncLogging) : AsyncLogging :=
  mkAsyncLogging (running_ s) (currentBuffer_ s) (nextBuffer_ s) (buffers_ s)
    p (newBuffer1 s) (newBuffer2 s) (buffersToWrite s) (output s).

Definition empty_ptr (p : BufferPtr) : bool :=
  match p with Some b => length_ b =? 0 | None => false end.
Definition is_empty {A} (l : list A) : bool := match l with [] => true | _ => false end.

(** The head of the loop. *)
Definition top (s : AsyncLogging) : outcome AsyncLogging :=
  if running_ s then
    _ ← assertb 71 (empty_ptr (newBuffer1 s));
    _ ← assertb 72 (empty_ptr (newBuffer2 s));
    _ ← assertb 73 (is_empty (buffersToWrite s));
    mret (set_pc BLock s)
  else mret (set_pc BDone s).

(** The rest of the critical section. *)
Definition collect (s : AsyncLogging) : AsyncLogging :=
  let buffers := buffers_ s ++ [currentBuffer_ s] in
  let '(next, new2) :=
    match nextBuffer_ s with
    | Some _ => (nextBuffer_ s, newBuffer2 s)
    | None => (newBuffer2 s, None)
    end in
  mkAsyncLogging (running_ s) (newBuffer1 s) next (buffersToWrite s) BWrite None new2 buffers (output s).

Definition lock (s : AsyncLogging) : AsyncLogging :=
  if is_empty (buffers_ s) then set_pc BWait s else collect s.

(** The text of the buffers, in order. *)
Fixpoint texts (bs : list BufferPtr) : outcome (list Out) :=
  match bs with
  | [] => mret []
  | p :: bs => b ← deref p; ts ← texts bs; mret (OData (toString b) :: ts)
  end.
Definition erased (bs : list BufferPtr) : list Out :=
  match bs with
  | [] => []
  | _ => [OErased (concat ((λ p, from_option toString [] p) <$> bs))]
  end.

(** [if (!newBuffer) { newBuffer = move(back); pop_back; reset }] *)
Definition recycle (line : Z) (p : BufferPtr) (bs : list BufferPtr) : outcome (BufferPtr * list BufferPtr) :=
  match p with
  | Some _ => mret (p, bs)
  | None =>
    _ ← assertb line (negb (is_empty bs));
    b ← deref (default None (last bs));
    mret (Some (LogStream.reset b), take (length bs - 1) bs)
  end.

Definition write (s : AsyncLogging) : outcome AsyncLogging :=
  let bs := buffersToWrite s in
  _ ← assertb 90 (negb (is_empty bs));
  let '(notice, rest, bs) :=
    if 25 <? size_of bs then ([ONotice (size_of bs - 2)], drop 2 bs, take 2 bs) else ([], [], bs) in
  ts ← texts bs;
  let out := output s ++ notice ++ ts ++ erased rest in
  let bs := if 2 <? size_of bs then take 2 bs else bs in
  '(new1, bs) ← recycle 117 (newBuffer1 s) bs;
  '(new2, bs) ← recycle 125 (newBuffer2 s) bs;
  mret (mkAsyncLogging (running_ s) (currentBuffer_ s) (nextBuffer_ s) (buffers_ s) BTop new1 new2 [] out).

Definition backend (s : AsyncLogging) : outcome AsyncLogging :=
  match pc s with
  | BTop => top s
  | BLock => mret (lock s)
  | BWait => mret (collect s)
  | BWrite => write s
  | BDone => mret s
  end.

(** ** Runs *)

Inductive Input := IAppend (logline : list byte) | IBackend | IStop.

Definition exec (i : Input) (s : AsyncLogging) : outcome AsyncLogging :=
  match i with
  | IAppend logline => append logline s
  | IBackend => backend s
  | IStop => mret (stop s)
  end.
Fixpoint exec_all (inputs : list Input) (s : AsyncLogging) : outcome AsyncLogging :=
  match inputs with
  | [] => mret s
  | i :: inputs => s ← exec i s; exec_all inputs s
  end.

Definition lines (inputs : list Input) : list (list byte) :=
  omap (λ i, if i is IAppend l then Some l else None) inputs.

(** What was written, and what would have been had nothing been dropped. *)
Definition written (out : list Out) : list byte :=
  concat ((λ o, if o is OData b then b else []) <$> out).
Definition accounted (out : list Out) : list byte :=
  concat ((λ o, match o with OData b | OErased b => b | ONotice _ => [] end) <$> out).
Definition dropping (out : list Out) : bool := existsb (λ o, if o is ONotice _ then true else false) out.
End Logging.
Arguments written : simpl never.
Arguments accounted : simpl never.
Arguments dropping : simpl never.
