(* ===== verification/AsyncLoggingSafety.v ===== *)
(** * Asynchronous logging: every line once and in order *)
From Stdlib Require Import Strings.Byte.
From stdpp Require Import base numbers list strings.
From S2P Require Import Prelude Timestamp LogStream AsyncLogging.
Open Scope Z_scope.
Open Scope muduo_scope.

Section Safety.
Context (SIZE : Z).
Hypothesis SIZE_pos : 0 < SIZE.

(** ** Buffers *)

Definition ptr_ok (p : BufferPtr) : Prop := ∃ b, p = Some b ∧ buffer_ok SIZE b.
(** A buffer to be filled. *)
Definition ptr_fresh (p : BufferPtr) : Prop := ∃ b, p = Some b ∧ buffer_ok SIZE b ∧ cur_ b = 0.
Definition ptext (l : list BufferPtr) : list byte := concat (from_option toString [] <$> l).
Arguments ptext : simpl never.

Lemma ptext_app l k : ptext (l ++ k) = ptext l ++ ptext k.
Proof. unfold ptext. by rewrite fmap_app, concat_app. Qed.

Lemma ptext_one b : ptext [Some b] = toString b.
Proof. unfold ptext. cbn. by rewrite app_nil_r. Qed.

Lemma toString_fresh b : cur_ b = 0 → toString b = [].
Proof. intros H. unfold toString, length_. rewrite H. apply slice_empty. Qed.

Lemma new_buffer_fresh : ptr_fresh (Some (new_buffer SIZE)).
Proof.
  exists (new_buffer SIZE). split_and!; [done| |done].
  split; [|by cbn; lia]. unfold size_of. cbn. rewrite length_replicate. lia.
Qed.

Lemma reset_fresh b : buffer_ok SIZE b → ptr_fresh (Some (LogStream.reset b)).
Proof. intros [Hs Hc]. exists (LogStream.reset b). split_and!; [done|split; [done|cbn; lia]|done]. Qed.

Lemma ptr_fresh_ok p : ptr_fresh p → ptr_ok p.
Proof. intros (b & -> & ? & _). by exists b. Qed.

(** A line in a fresh buffer. *)
Lemma append_fresh p line :
  ptr_fresh p → size_of line < SIZE →
  (b ← deref p; LogStream.append b line) ⇓ λ b', buffer_ok SIZE b' ∧ toString b' = line.
Proof.
  intros (b & -> & Hok & Hc) Hl. cbn [deref mbind outcome_bind].
  eapply yields_mono; [by apply fixed_append_spec|]. intros b' [Hok' ->].
  rewrite Hc, toString_fresh by done. by rewrite (proj2 (Z.ltb_lt _ _)) by lia.
Qed.

(** ** The invariant *)

Definition backend_inv (s : AsyncLogging) : Prop :=
  match pc s with
  | BWrite => newBuffer1 s = None ∧ buffersToWrite s ≠ [] ∧
      (ptr_fresh (newBuffer2 s) ∨ newBuffer2 s = None ∧ (2 ≤ length (buffersToWrite s))%nat)
  | _ => ptr_fresh (newBuffer1 s) ∧ ptr_fresh (newBuffer2 s) ∧ buffersToWrite s = []
  end.

Record logging_inv (done : list byte) (s : AsyncLogging) : Prop := {
  inv_current : ptr_ok (currentBuffer_ s);
  inv_next : ptr_fresh (nextBuffer_ s) ∨ nextBuffer_ s = None ∧ buffers_ s ≠ [];
  inv_buffers : Forall ptr_ok (buffers_ s);
  inv_write : Forall ptr_ok (buffersToWrite s);
  inv_backend : backend_inv s;
  inv_lines : accounted (output s) ++ ptext (buffersToWrite s) ++ ptext (buffers_ s) ++
    ptext [currentBuffer_ s] = done;
  inv_written : dropping (output s) = false → written (output s) = accounted (output s)
}.

Lemma inv_start : logging_inv [] (AsyncLogging_start SIZE).
Proof.
  pose proof new_buffer_fresh as Hn. split; cbn; auto using ptr_fresh_ok.
Qed.

Lemma append_inv done line s :
  logging_inv done s → size_of line < SIZE → append SIZE line s ⇓ logging_inv (done ++ line).
Proof.
  intros [(b & Hb & Hok) Hnext Hbs Hws Hbe Hl Hw] Hline. unfold append. rewrite Hb. cbn [deref mbind outcome_bind].
  unfold avail. rewrite (ok_size _ _ Hok). pose proof (fixed_append_spec SIZE b line Hok) as Happ.
  destruct (Z.ltb_spec (size_of line) (SIZE - cur_ b)) as [Hlt|Hge].
  - ystep Happ. intros b' [Hok' Ht]. apply yields_ret. split; try done; [by exists b'|].
    cbn. by rewrite <- Hl, Hb, !ptext_one, Ht, <- !app_assoc.
  - assert (∀ p, ptr_fresh p → (current ← deref p; current ← LogStream.append current line;
      mret (mkAsyncLogging (running_ s) (Some current) None (buffers_ s ++ [Some b]) (pc s) (newBuffer1 s)
        (newBuffer2 s) (buffersToWrite s) (output s))) ⇓ logging_inv (done ++ line)) as Hput.
    { intros p Hp. pose proof (append_fresh p line Hp Hline) as Hf.
      destruct Hp as (b0 & -> & _). cbn [deref mbind outcome_bind] in *.
      destruct (LogStream.append b0 line) as [b'|]; [|done]. destruct Hf as [Hok' Ht].
      cbn. split; cbn; try done; [by exists b'|right; by destruct (buffers_ s)| |].
      - apply Forall_app. split; [done|]. apply Forall_singleton. by exists b.
      - by rewrite ptext_app, <- Hl, Hb, !ptext_one, Ht, <- !app_assoc. }
    destruct Hnext as [(b0 & Hn & Hf)|[Hn _]]; rewrite Hn.
    + apply (Hput (Some b0)). by exists b0.
    + apply (Hput (Some (new_buffer SIZE))). apply new_buffer_fresh.
Qed.

Lemma top_inv done s : logging_inv done s → pc s = BTop → top s ⇓ logging_inv done.
Proof.
  intros [Hc Hn Hb Hws Hbe Hl Hw] Hpc. unfold top. unfold backend_inv in Hbe. rewrite Hpc in Hbe.
  destruct (running_ s); [|by split].
  destruct Hbe as ((b1 & H1 & Hf1 & Hz1) & (b2 & H2 & Hf2 & Hz2) & Hbw).
  unfold empty_ptr, length_. rewrite H1, H2, Hz1, Hz2, Hbw. cbn.
  split; try done. unfold backend_inv. cbn. rewrite H1, H2. split_and!; [by exists b1|by exists b2|done].
Qed.

Lemma collect_inv done s : logging_inv done s → pc s = BLock ∨ pc s = BWait → logging_inv done (collect s).
Proof.
  intros [Hc Hn Hb Hws Hbe Hl Hw] Hpc.
  assert (ptr_fresh (newBuffer1 s) ∧ ptr_fresh (newBuffer2 s) ∧ buffersToWrite s = []) as (H1 & H2 & Hbw).
  { unfold backend_inv in Hbe. by destruct Hpc as [Hpc|Hpc]; rewrite Hpc in Hbe. }
  rewrite Hbw in Hl. unfold collect.
  assert (Forall ptr_ok (buffers_ s ++ [currentBuffer_ s])) as Hall.
  { apply Forall_app. split; [done|]. by apply Forall_singleton. }
  assert (accounted (output s) ++ ptext (buffers_ s ++ [currentBuffer_ s]) ++ ptext [] ++ ptext [newBuffer1 s] = done) as Hl'.
  { rewrite ptext_app, <- Hl. destruct H1 as (b1 & -> & _ & Hz).
    by rewrite ptext_one, toString_fresh, app_nil_r by done. }
  destruct Hn as [Hf|[Hn Hne]].
  - destruct (nextBuffer_ s) as [b0|] eqn:Hn; [|by destruct Hf as (? & ? & _)].
    split; cbn; rewrite ?Hbw; auto using ptr_fresh_ok. unfold backend_inv. cbn.
    split_and!; [done|by destruct (buffers_ s)|by left].
  - rewrite Hn. split; cbn; rewrite ?Hbw; auto using ptr_fresh_ok. unfold backend_inv. cbn.
    split_and!; [done|by destruct (buffers_ s)|]. right. split; [done|]. rewrite length_app. cbn.
    destruct (buffers_ s); [done|]. cbn. lia.
Qed.

(** Writing. *)
Lemma accounted_app o o' : accounted (o ++ o') = accounted o ++ accounted o'.
Proof. unfold accounted. by rewrite fmap_app, concat_app. Qed.
Lemma written_app o o' : written (o ++ o') = written o ++ written o'.
Proof. unfold written. by rewrite fmap_app, concat_app. Qed.
Lemma dropping_app o o' : dropping (o ++ o') = dropping o || dropping o'.
Proof. apply existsb_app. Qed.

Lemma texts_spec bs :
  Forall ptr_ok bs → texts bs ⇓ λ ts, accounted ts = ptext bs ∧ written ts = ptext bs ∧ dropping ts = false.
Proof.
  induction 1 as [|p bs (b & -> & _) _ IH]; [done|]. cbn. destruct (texts bs) as [ts|]; [|done].
  cbn in *. destruct IH as (Ha & Hw & Hd).
  change (Some b :: bs) with ([Some b] ++ bs). change (OData (toString b) :: ts) with ([OData (toString b)] ++ ts).
  rewrite accounted_app, written_app, dropping_app, ptext_app, ptext_one, Ha, Hw, Hd.
  unfold accounted, written. cbn. by rewrite app_nil_r.
Qed.

Lemma erased_accounted bs : accounted (erased bs) = ptext bs.
Proof. destruct bs; [done|]. unfold erased, accounted, ptext. cbn. by rewrite app_nil_r. Qed.

Lemma recycle_spec line p bs :
  Forall ptr_ok bs → ptr_fresh p ∨ p = None ∧ bs ≠ [] →
  recycle line p bs ⇓ λ '(p', bs'), ptr_fresh p' ∧ Forall ptr_ok bs' ∧
    (length bs ≤ length bs' + (if p then 0 else 1))%nat.
Proof.
  intros Hbs [Hp|[-> Hne]].
  - destruct Hp as (b & -> & Hb). cbn. split_and!; [by exists b|done|lia].
  - unfold recycle. destruct bs as [|x bs] using rev_ind; [done|]. clear IHbs.
    apply Forall_app in Hbs as [Hbs (b & -> & Hok)%Forall_singleton].
    assert (is_empty (bs ++ [Some b]) = false) as -> by (by destruct bs). rewrite last_snoc.
    rewrite length_app. cbn. rewrite Nat.add_sub, take_app_length.
    split_and!; [by apply reset_fresh|done|lia].
Qed.

Lemma write_inv done s : logging_inv done s → pc s = BWrite → write s ⇓ logging_inv done.
Proof.
  intros [Hc Hn Hb Hws Hbe Hl Hw] Hpc. unfold backend_inv in Hbe. rewrite Hpc in Hbe. destruct Hbe as (H1 & Hne & H2).
  unfold write. set (bs := buffersToWrite s) in *. yassert; [by destruct bs|].
  set (part := if 25 <? size_of bs then _ else _).
  assert (∃ notice rest bs', part = (notice, rest, bs') ∧ bs = bs' ++ rest ∧ bs' ≠ [] ∧
    (newBuffer2 s = None → 2 ≤ length bs')%nat ∧ accounted notice = [] ∧ written notice = [] ∧
    (rest = [] ∨ dropping notice = true)) as (notice & rest & bs' & -> & Hsplit & Hne' & H2' & Ha & Hwr & Hd).
  { unfold part. destruct (Z.ltb_spec 25 (size_of bs)) as [Hbig|].
    - do 3 eexists. split; [done|]. rewrite take_drop. unfold size_of in Hbig.
      assert (length (take 2 bs) = 2)%nat as Ht by (rewrite length_take; lia).
      split_and!; try done; [by destruct (take 2 bs)|lia|by right].
    - exists [], [], bs. rewrite app_nil_r. split_and!; try done; [|by left].
      intros E. destruct H2 as [(b & H2 & _)|[_ H2]]; congruence || lia. }
  rewrite Hsplit in Hws, Hl. apply Forall_app in Hws as [Hws Hrest].
  ystep texts_spec; [done|]. intros ts (Hta & Htw & Htd).
  set (bs2 := if 2 <? size_of bs' then take 2 bs' else bs').
  assert (Forall ptr_ok bs2 ∧ bs2 ≠ [] ∧ (newBuffer2 s = None → 2 ≤ length bs2)%nat) as (Hok2 & Hne2 & Hlen2).
  { unfold bs2. destruct (Z.ltb_spec 2 (size_of bs')) as [Hbig|]; [|done]. unfold size_of in Hbig.
    assert (length (take 2 bs') = 2)%nat as Ht by (rewrite length_take; lia).
    split_and!; [by apply Forall_take|by destruct (take 2 bs')|lia]. }
  rewrite H1. ystep recycle_spec; [done|by right|]. intros [new1 bs3] (Hf1 & Hok3 & Hlen3).
  ystep recycle_spec; [done| |].
  { destruct H2 as [H2|[H2 _]]; [by left|right]. split; [done|]. specialize (Hlen2 H2). destruct bs3; [cbn in *; lia|done]. }
  intros [new2 bs4] (Hf2 & _ & _). apply yields_ret.
  split; cbn; try done.
  - rewrite !accounted_app, Ha, Hta, erased_accounted, <- Hl, ptext_app. unfold ptext at 3. cbn. by rewrite <- !app_assoc.
  - rewrite !dropping_app, !written_app, !accounted_app, Ha, Hta, Hwr, Htw, Htd. intros Hdr.
    apply orb_false_iff in Hdr as [Hd1 Hdr]. rewrite Hw by done.
    destruct Hd as [-> | Hd]; [done|]. by rewrite Hd in Hdr.
Qed.

Lemma logging_exec_inv done i s :
  logging_inv done s → (if i is IAppend l then size_of l < SIZE else True) →
  exec SIZE i s ⇓ logging_inv (done ++ concat (lines [i])).
Proof.
  intros Hs Hi. destruct i as [l| |]; cbn; rewrite ?app_nil_r.
  - by apply append_inv.
  - unfold backend. destruct (pc s) eqn:Hpc.
    + by apply top_inv.
    + unfold lock. destruct (is_empty (buffers_ s)); [|by apply yields_ret, collect_inv; auto].
      destruct Hs as [Hc Hn Hb Hws Hbe Hl Hw]. split; try done. unfold backend_inv in *. cbn. by rewrite Hpc in Hbe.
    + by apply yields_ret, collect_inv; auto.
    + by apply write_inv.
    + by apply yields_ret.
  - by destruct Hs.
Qed.

Lemma logging_run_inv inputs : ∀ done s,
  logging_inv done s → Forall (λ l, size_of l < SIZE) (lines inputs) →
  exec_all SIZE inputs s ⇓ logging_inv (done ++ concat (lines inputs)).
Proof.
  induction inputs as [|i inputs IH]; intros done s Hs Hl; [by cbn; rewrite app_nil_r|].
  change (lines (i :: inputs)) with (lines ([i] ++ inputs)) in *. unfold lines in *. rewrite omap_app in *.
  fold (lines [i]) in *. fold (lines inputs) in *. apply Forall_app in Hl as [Hi Hl]. cbn [exec_all].
  ystep logging_exec_inv; [done|by destruct i; [apply Forall_cons in Hi as [? _]|..]|].
  intros s' Hs'. rewrite concat_app, app_assoc. by apply IH.
Qed.

(** ** A round of the back end *)

Definition drained (s : AsyncLogging) : Prop := ptext (buffers_ s) ++ ptext [currentBuffer_ s] = [].

Lemma collect_drained done s :
  logging_inv done s → pc s = BLock ∨ pc s = BWait → drained (collect s) ∧ pc (collect s) = BWrite.
Proof.
  intros [_ _ _ _ Hbe _ _] Hpc.
  assert (ptr_fresh (newBuffer1 s) ∧ buffersToWrite s = []) as ((b1 & H1 & _ & Hz) & Hbw).
  { unfold backend_inv in Hbe. destruct Hpc as [Hpc|Hpc]; rewrite Hpc in Hbe; tauto. }
  unfold drained, collect. rewrite Hbw, H1.
  destruct (nextBuffer_ s); cbn; by rewrite ptext_one, toString_fresh by done.
Qed.

(** The round that starts at the head of the loop. *)
Definition round : list Input := [IBackend; IBackend; IBackend; IBackend].

Lemma write_flushes done s :
  logging_inv done s → pc s = BWrite → drained s →
  write s ⇓ λ s', logging_inv done s' ∧ pc s' = BTop ∧ accounted (output s') = done.
Proof.
  intros Hs Hpc Hd. pose proof (write_inv done s Hs Hpc) as Hw.
  destruct (write s) as [s'|] eqn:E; [|done]. cbn in Hw |- *.
  assert (pc s' = BTop ∧ currentBuffer_ s' = currentBuffer_ s ∧ buffers_ s' = buffers_ s) as (Hpc' & Hc & Hb).
  { unfold write in E. inv_ok. destruct (if 25 <? _ then _ else _) as [[notice rest] bs]. inv_ok.
    destruct x1 as [n1 b1]. inv_ok. destruct x1 as [n2 b2]. inv_ok. by subst. }
  split_and!; [done..|]. pose proof (inv_lines _ _ Hw) as Hl. pose proof (inv_backend _ _ Hw) as Hbe.
  unfold backend_inv in Hbe. rewrite Hpc' in Hbe. destruct Hbe as (_ & _ & Hbw).
  unfold drained in Hd. rewrite Hbw, Hb, Hc, Hd in Hl. by rewrite <- Hl, app_nil_r.
Qed.

Lemma backend_at s p : pc s = p → backend s = match p with
  | BTop => top s | BLock => mret (lock s) | BWait => mret (collect s) | BWrite => write s | BDone => mret s end.
Proof. by intros <-. Qed.

Lemma round_flushes done s :
  logging_inv done s → pc s = BTop → running_ s = true →
  exec_all SIZE round s ⇓ λ s', accounted (output s') = done ∧
    (dropping (output s') = false → written (output s') = done).
Proof.
  intros Hs Hpc Hrun. unfold round. cbn [exec_all exec].
  pose proof (top_inv done s Hs Hpc) as Ht. rewrite (backend_at s BTop Hpc).
  destruct (top s) as [s1|] eqn:E1; [|done]. cbn in Ht. cbn [mbind outcome_bind].
  assert (pc s1 = BLock) as Hpc1 by (unfold top in E1; rewrite Hrun in E1; inv_ok; by subst).
  rewrite (backend_at s1 BLock Hpc1). run_ok. unfold lock. destruct (is_empty (buffers_ s1)).
  - set (s2 := set_pc BWait s1).
    assert (logging_inv done s2) as Hs2.
    { destruct Ht. split; try done. unfold backend_inv in *. cbn. by rewrite Hpc1 in *. }
    rewrite (backend_at s2 BWait eq_refl). run_ok.
    destruct (collect_drained done s2 Hs2) as [Hd Hpc3]; [by right|].
    rewrite (backend_at _ BWrite Hpc3).
    ystep write_flushes; [by apply collect_inv; auto|done|done|]. intros s' (Hs' & _ & Hacc). apply yields_ret.
    split; [done|]. intros Hnd. by rewrite (inv_written _ _ Hs' Hnd).
  - destruct (collect_drained done s1 Ht) as [Hd Hpc3]; [by left|].
    rewrite (backend_at _ BWrite Hpc3).
    ystep write_flushes; [by apply collect_inv; auto|done|done|]. intros s3 (Hs3 & Hpc3' & Hacc).
    rewrite (backend_at s3 BTop Hpc3'). pose proof (top_inv done s3 Hs3 Hpc3') as Ht3.
    destruct (top s3) as [s4|] eqn:E4; [|done]. cbn.
    assert (output s4 = output s3) as -> by (unfold top in E4; destruct (running_ s3); inv_ok; by subst).
    split; [done|]. intros Hnd. by rewrite (inv_written _ _ Hs3 Hnd).
Qed.

(** C19. Asynchronous logging keeps the lines.  Every line is shorter than a
    buffer ([long_line_dropped] shows what happens to a longer one).  However the
    front ends' calls of [append], the back end's steps and [stop] are interleaved,
    no assertion of [threadFunc] fails and no moved-from buffer is used.  What has
    left the buffers - the text written and the text erased with a notice, where it
    was erased - followed by what is still in the buffers, those being written
    first, is exactly the text of the lines in the order of the calls; as long as
    no notice of erased buffers was written, the text written is a prefix of it.
    And from a state in which the back end is at the head of its loop and not
    stopped, one round of the back end takes all the text appended so far out of
    the buffers, and has written all of it unless a notice tells of erased
    buffers. *)
Theorem async_logging_fifo inputs :
  Forall (λ l, size_of l < SIZE) (lines inputs) →
  exec_all SIZE inputs (AsyncLogging_start SIZE) ⇓ λ s,
    accounted (output s) ++ ptext (buffersToWrite s) ++ ptext (buffers_ s) ++ ptext [currentBuffer_ s]
      = concat (lines inputs) ∧
    (dropping (output s) = false → written (output s) `prefix_of` concat (lines inputs)) ∧
    (pc s = BTop → running_ s = true →
     exec_all SIZE round s ⇓ λ s', accounted (output s') = concat (lines inputs) ∧
       (dropping (output s') = false → written (output s') = concat (lines inputs))).
Proof.
  intros Hl. eapply yields_mono; [apply (logging_run_inv inputs []); [apply inv_start|done]|].
  cbn [app]. intros s Hs. pose proof (inv_lines _ _ Hs) as Hacc.
  split_and!; [done| |by apply round_flushes].
  intros Hd. rewrite (inv_written _ _ Hs Hd). eexists. by rewrite <- Hacc.
Qed.
End Safety.

Definition example_inputs : list Input :=
  [IAppend (lit "one "); IAppend (lit "two "); IBackend; IBackend; IAppend (lit "three "); IBackend; IBackend].

Lemma async_logging_fifo_witness :
  Forall (λ l, size_of l < 8) (lines example_inputs) ∧
  exec_all 8 example_inputs (AsyncLogging_start 8) ⇓ λ s,
    accounted (output s) ++ ptext (buffersToWrite s) ++ ptext (buffers_ s) ++ ptext [currentBuffer_ s]
      = concat (lines example_inputs).
Proof.
  assert (Forall (λ l, size_of l < 8) (lines example_inputs)) as Hl by (repeat constructor).
  split; [done|]. eapply yields_mono; [apply (async_logging_fifo 8 ltac:(lia) example_inputs Hl)|]. by intros s (? & _).
Defined.

(** Lines appended while the back end writes are lost if it is stopped then:
    the loop ends without another round. *)
Example stop_loses_lines :
  (s ← exec_all 8 [IAppend (lit "one "); IBackend; IBackend; IBackend; IAppend (lit "two "); IStop; IBackend; IBackend]
         (AsyncLogging_start 8);
   mret (pc s, written (output s))) = Ok (BDone, lit "one ").
Proof. vm_compute. reflexivity. Qed.

(** A line as long as a buffer is dropped without notice. *)
Example long_line_dropped :
  (s ← exec_all 8 ([IAppend (lit "12345678"); IAppend (lit "x")] ++ round) (AsyncLogging_start 8);
   mret (output s)) = Ok [OData []; OData (lit "x")].
Proof. vm_compute. reflexivity. Qed.
