(* ===== verification/ProtobufCodecLite.v ===== *)
(** * Framing of protobuf messages (muduo/net/protobuf/ProtobufCodecLite.h, ProtobufCodecLite.cc)

    The codec over the modelled [Buffer].  The protobuf library and zlib are
    parameters: the serialized form of a message and its size, the parser, and
    the Adler-32 checksum. *)
From Stdlib Require Import Strings.Byte.
From stdpp Require Import base numbers list strings.
From S2P Require Import Prelude Date Endian Buffer.
Open Scope Z_scope.
Open Scope muduo_scope.

Definition kHeaderLen : Z := 4.
Definition kChecksumLen : Z := 4.
Definition kMaxMessageLen : Z := 64 * 1024 * 1024.

Inductive ErrorCode :=
  | kNoError | kInvalidLength | kCheckSumError | kInvalidNameLen | kUnknownMessageType | kParseError.

#[export] Instance ErrorCode_eq_dec : EqDecision ErrorCode.
Proof. solve_decision. Defined.

Definition errorCodeToString (errorCode : ErrorCode) : list byte :=
  match errorCode with
  | kNoError => lit "NoError"
  | kInvalidLength => lit "InvalidLength"
  | kCheckSumError => lit "CheckSumError"
  | kInvalidNameLen => lit "InvalidNameLen"
  | kUnknownMessageType => lit "UnknownMessageType"
  | kParseError => lit "ParseError"
  end.

(** What the protobuf library and zlib do. *)
Record Library (M : Type) := mkLibrary {
  ByteSize : M → Z;
  SerializeWithCachedSizesToArray : M → list byte;
  ParseFromArray : list byte → option M;
  adler32 : list byte → Z
}.
Arguments mkLibrary {M} _ _ _ _.
Arguments ByteSize {M} _ _.
Arguments SerializeWithCachedSizesToArray {M} _ _.
Arguments ParseFromArray {M} _ _.
Arguments adler32 {M} _ _.

(** A codec: its tag and its raw-message callback. *)
Record ProtobufCodecLite := mkCodec {
  tag_ : list byte;
  rawCb_ : option (list byte → bool)
}.
Definition kMinMessageLen (codec : ProtobufCodecLite) : Z := size_of (tag_ codec) + kChecksumLen.

(** Calls of the callbacks. *)
Inductive Event (M : Type) :=
  | EMessage (m : M)
  | EError (errorCode : ErrorCode).
Arguments EMessage {M} _.
Arguments EError {M} _.

Section Codec.
Context `{HostOrder} {M : Type} (lib : Library M) (codec : ProtobufCodecLite).

(** ** Encoding *)

Definition checksum (bs : list byte) : Z := i32 (adler32 lib bs).

(** [SerializeWithCachedSizesToArray] writes without regard to the size of the
    buffer; a size other than [ByteSize] is fatal. *)
Definition serializeToBuffer (message : M) (buf : Buffer) : outcome (Z * Buffer) :=
  let byte_size := ByteSize lib message in
  n ← iadd byte_size kChecksumLen;
  buf ← ensureWritableBytes buf (u64 n);
  let bytes := SerializeWithCachedSizesToArray lib message in
  v ← copy_to (buffer_ buf) (beginWrite buf) bytes;
  let buf := mkBuffer v (readerIndex_ buf) (writerIndex_ buf) in
  if size_of bytes =? byte_size then
    buf ← hasWritten buf (u64 byte_size);
    mret (byte_size, buf)
  else Fault (Fatal 135).

Definition fillEmptyBuffer (buf : Buffer) (message : M) : outcome Buffer :=
  _ ← assertb 45 (readableBytes buf =? 0);
  buf ← append buf (tag_ codec);
  '(byte_size, buf) ← serializeToBuffer message buf;
  bytes ← load (buffer_ buf) (peek buf) (i32 (readableBytes buf));
  let checkSum := checksum bytes in
  buf ← appendInt32 buf checkSum;
  _ ← assertb 53 (readableBytes buf =? u64 (size_of (tag_ codec) + byte_size + kChecksumLen));
  let len := i32 (hostToNetwork32 (u32 (i32 (readableBytes buf)))) in
  prepend buf (host_bytes 4 len).

(** ** Decoding *)

Definition asInt32 (buf : list byte) (off : Z) : outcome Z :=
  be32 ← load buf off 4;
  mret (i32 (networkToHost32 (u32 (i32 (host_value be32))))).

Definition validateChecksum (buf : list byte) (len : Z) : outcome bool :=
  expectedCheckSum ← asInt32 buf (len - kChecksumLen);
  bytes ← load buf 0 (len - kChecksumLen);
  mret (checksum bytes =? expectedCheckSum).

(** The message and [kNoError], or an error. *)
Definition parse (buf : list byte) (len : Z) : outcome (ErrorCode * option M) :=
  valid ← validateChecksum buf len;
  if (valid : bool) then
    front ← load buf 0 (size_of (tag_ codec));
    if bool_decide (front = tag_ codec) then
      let dataLen := len - kChecksumLen - size_of (tag_ codec) in
      data ← load buf (size_of (tag_ codec)) dataLen;
      match ParseFromArray lib data with
      | Some message => mret (kNoError, Some message)
      | None => mret (kParseError, None)
      end
    else mret (kUnknownMessageType, None)
  else mret (kCheckSumError, None).

(** One turn of the loop: whether it goes on, the callbacks, the buffer. *)
Definition onMessage_turn (buf : Buffer) : outcome (bool * list (Event M) * Buffer) :=
  if u32 (kMinMessageLen codec + kHeaderLen) <=? readableBytes buf then
    len ← peekInt32 buf;
    if (kMaxMessageLen <? len) || (len <? kMinMessageLen codec) then
      mret (false, [EError kInvalidLength], buf)
    else if u64 (kHeaderLen + len) <=? readableBytes buf then
      raw ← load (buffer_ buf) (peek buf) (kHeaderLen + len);
      if match rawCb_ codec with Some cb => negb (cb raw) | None => false end then
        buf ← retrieve buf (u64 (kHeaderLen + len));
        mret (true, [], buf)
      else
        bytes ← load (buffer_ buf) (peek buf + kHeaderLen) len;
        r ← parse bytes len;
        match r with
        | (kNoError, Some message) =>
          buf ← retrieve buf (u64 (kHeaderLen + len));
          mret (true, [EMessage message], buf)
        | (errorCode, _) => mret (false, [EError errorCode], buf)
        end
    else mret (false, [], buf)
  else mret (false, [], buf).

Fixpoint onMessage_loop (fuel : nat) (buf : Buffer) : option (outcome (list (Event M) * Buffer)) :=
  match fuel with
  | O => None
  | S fuel =>
    match onMessage_turn buf with
    | Fault f => Some (Fault f)
    | Ok (false, es, buf) => Some (Ok (es, buf))
    | Ok (true, es, buf) =>
      match onMessage_loop fuel buf with
      | Some (Ok (es', buf)) => Some (Ok (es ++ es', buf))
      | r => r
      end
    end
  end.

(** Enough fuel: every turn that goes on takes a whole frame. *)
Definition onMessage (buf : Buffer) : option (outcome (list (Event M) * Buffer)) :=
  onMessage_loop (S (length (content buf))) buf.

(** The loop's read callback: data arrives in segments. *)
Fixpoint feed (buf : Buffer) (chunks : list (list byte)) : option (outcome (list (Event M) * Buffer)) :=
  match chunks with
  | [] => Some (Ok ([], buf))
  | chunk :: chunks =>
    match append buf chunk with
    | Fault f => Some (Fault f)
    | Ok buf =>
      match onMessage buf with
      | Some (Ok (es, buf)) =>
        match feed buf chunks with
        | Some (Ok (es', buf)) => Some (Ok (es ++ es', buf))
        | r => r
        end
      | r => r
      end
    end
  end.
End Codec.
