(* ===== verification/ProtobufCodecSpec.v ===== *)
(** * What the protobuf codec promises *)
From Stdlib Require Import Strings.Byte.
From stdpp Require Import base numbers list strings.
From S2P Require Import Prelude Date Endian Buffer ProtobufCodecLite.
Open Scope Z_scope.
Open Scope muduo_scope.

(** What the code relies on: [ByteSize] is the number of bytes written, and
    the parser reads what was written. *)
Record LibraryLaws {M} (lib : Library M) : Prop := {
  ByteSize_exact m : ByteSize lib m = size_of (SerializeWithCachedSizesToArray lib m);
  Parse_Serialize m : ParseFromArray lib (SerializeWithCachedSizesToArray lib m) = Some m
}.

(** Parts of a list of bytes. *)
Lemma load_ok (l : list byte) off n :
  0 ≤ off → 0 ≤ n → off + n ≤ size_of l → load l off n = Ok (take (Z.to_nat n) (drop (Z.to_nat off) l)).
Proof.
  intros. rewrite load_spec by lia. unfold slice. do 2 f_equal. f_equal. lia.
Qed.

Section Spec.
Context `{HostOrder} {M : Type} (lib : Library M) (codec : ProtobufCodecLite).

(** ** The decoder on lists of bytes *)

Definition spec_parse (bs : list byte) : ErrorCode * option M :=
  let n := (length bs - 4)%nat in
  if checksum lib (take n bs) =? i32 (be_value (drop n bs)) then
    if bool_decide (take (length (tag_ codec)) bs = tag_ codec) then
      match ParseFromArray lib (drop (length (tag_ codec)) (take n bs)) with
      | Some m => (kNoError, Some m)
      | None => (kParseError, None)
      end
    else (kUnknownMessageType, None)
  else (kCheckSumError, None).

Definition spec_turn (c : list byte) : bool * list (Event M) * list byte :=
  let len := i32 (be_value (take 4 c)) in
  if size_of c <? kMinMessageLen codec + kHeaderLen then (false, [], c)
  else if (kMaxMessageLen <? len) || (len <? kMinMessageLen codec) then (false, [EError kInvalidLength], c)
  else if size_of c <? kHeaderLen + len then (false, [], c)
  else
    let n := Z.to_nat (kHeaderLen + len) in
    if match rawCb_ codec with Some cb => negb (cb (take n c)) | None => false end then (true, [], drop n c)
    else
      match spec_parse (drop 4 (take n c)) with
      | (kNoError, Some m) => (true, [EMessage m], drop n c)
      | (e, _) => (false, [EError e], c)
      end.

Lemma parse_spec bs :
  kMinMessageLen codec ≤ size_of bs → parse lib codec bs (size_of bs) = Ok (spec_parse bs).
Proof.
  unfold kMinMessageLen, kChecksumLen. intros Hsz. pose proof (size_of_nonneg (tag_ codec)).
  unfold parse, validateChecksum, asInt32, spec_parse, kChecksumLen, networkToHost32.
  rewrite !load_ok by lia. cbn [mbind outcome_bind mret outcome_ret].
  assert (length bs - 4 = Z.to_nat (size_of bs - 4))%nat as -> by (unfold size_of; lia).
  set (n := Z.to_nat (size_of bs - 4)). rewrite !drop_0.
  assert (take (Z.to_nat 4) (drop n bs) = drop n bs) as ->.
  { apply take_ge. rewrite length_drop. unfold n, size_of in *. lia. }
  rewrite network_value by (done || (rewrite ?length_drop; unfold n, size_of in *; lia)).
  destruct (checksum lib (take n bs) =? _); [|done].
  change (Z.to_nat (size_of (tag_ codec))) with (Z.to_nat (Z.of_nat (length (tag_ codec)))). rewrite Nat2Z.id.
  case_bool_decide; [|done]. rewrite skipn_firstn_comm.
  assert (Z.to_nat (size_of bs - 4 - size_of (tag_ codec)) = n - length (tag_ codec))%nat as ->
    by (unfold n, size_of; lia).
  by destruct (ParseFromArray _ _).
Qed.

(** One turn refines the one on bytes, whatever is in the buffer. *)
Lemma turn_spec b :
  size_of (tag_ codec) < 2 ^ 20 → buffer_ok b → kCheapPrepend ≤ size_of (buffer_ b) →
  onMessage_turn lib codec b ⇓ λ '(go, es, b'),
    spec_turn (content b) = (go, es, content b') ∧ buffer_ok b' ∧ kCheapPrepend ≤ size_of (buffer_ b').
Proof.
  intros Htag Hok Hsz. pose proof (size_of_nonneg (tag_ codec)) as Ht0.
  unfold onMessage_turn, spec_turn. rewrite to_unsigned_small by (unfold kMinMessageLen, kChecksumLen, kHeaderLen; lia).
  rewrite readableBytes_content by done. set (c := content b).
  rewrite (Z.ltb_antisym _ (size_of c)). destruct (Z.leb_spec (kMinMessageLen codec + kHeaderLen) (size_of c)) as [Hlen|];
    [|by apply yields_ret].
  unfold kMinMessageLen, kChecksumLen, kHeaderLen in *. cbn [negb].
  rewrite peekInt32_spec by (done || (rewrite readableBytes_content by done; fold c; lia)). run_ok. fold c.
  set (len := i32 (be_value (take 4 c))).
  destruct (Z.ltb_spec kMaxMessageLen len) as [|Hmax]; [by apply yields_ret|].
  destruct (Z.ltb_spec len (size_of (tag_ codec) + 4)) as [|Hmin]; [by apply yields_ret|]. cbn [orb].
  unfold kMaxMessageLen in Hmax. rewrite to_unsigned_small by lia.
  rewrite (Z.ltb_antisym _ (size_of c)). destruct (Z.leb_spec (4 + len) (size_of c)) as [Hall|];
    [|by apply yields_ret]. cbn [negb].
  destruct (load_peek b (Z.to_nat (4 + len)) Hok) as [Hraw _]; [rewrite readableBytes_content by done; fold c; lia|].
  rewrite Z2Nat.id in Hraw by lia. rewrite Hraw. run_ok. fold c. set (n := Z.to_nat (4 + len)).
  assert (retrieve b (4 + len) ⇓ λ b', content b' = drop n c ∧ buffer_ok b' ∧ kCheapPrepend ≤ size_of (buffer_ b')) as Hret.
  { eapply yields_mono; [apply retrieve_spec; try done; rewrite readableBytes_content by done; fold c; lia|].
    intros b' ([? ?] & -> & _). done. }
  destruct (match rawCb_ codec with Some cb => _ | None => false end).
  { apply yields_bind. eapply yields_mono; [apply Hret|]. intros b' (Hc & ? & ?). apply yields_ret. by rewrite Hc. }
  assert (load (buffer_ b) (peek b + 4) len = Ok (drop 4 (take n c))) as ->.
  { pose proof Hok as []. pose proof (size_of_content b Hok) as Hcs. fold c in Hcs.
    unfold peek. rewrite load_spec by lia. unfold c, content, slice. f_equal.
    rewrite take_take, skipn_firstn_comm, drop_drop. f_equal; [|f_equal]; lia. }
  run_ok.
  assert (size_of (drop 4 (take n c)) = len) as Hdl.
  { unfold size_of in *. rewrite length_drop, length_take. lia. }
  pose proof (parse_spec (drop 4 (take n c))) as Hp. rewrite Hdl in Hp. rewrite Hp by done. run_ok.
  destruct (spec_parse _) as [e m]. destruct e; try by apply yields_ret.
  destruct m; [|by apply yields_ret].
  apply yields_bind. eapply yields_mono; [apply Hret|]. intros b' (Hc & ? & ?). apply yields_ret. by rewrite Hc.
Qed.

(** A turn that goes on takes eight bytes at least. *)
Lemma spec_turn_shorter c es c' : spec_turn c = (true, es, c') → (length c' + 8 ≤ length c)%nat.
Proof.
  unfold spec_turn, kMinMessageLen, kChecksumLen, kHeaderLen, kMaxMessageLen. pose proof (size_of_nonneg (tag_ codec)).
  set (len := i32 _). destruct (Z.ltb_spec (size_of c) (size_of (tag_ codec) + 4 + 4)); [done|].
  destruct (Z.ltb_spec (64 * 1024 * 1024) len); [done|]. destruct (Z.ltb_spec len (size_of (tag_ codec) + 4)); [done|]. cbn [orb].
  destruct (Z.ltb_spec (size_of c) (4 + len)); [done|].
  assert (∀ c', drop (Z.to_nat (4 + len)) c = c' → (length c' + 8 ≤ length c)%nat) as Hd.
  { intros ? <-. rewrite length_drop. unfold size_of in *. lia. }
  destruct (match rawCb_ codec with Some cb => _ | None => false end); [by intros [= _ <-]; apply Hd|].
  destruct (spec_parse _) as [[] [m|]]; try done. intros [= _ <-]. by apply Hd.
Qed.

(** The decoder on all the bytes there are. *)
Fixpoint spec_loop (fuel : nat) (c : list byte) : list (Event M) * list byte :=
  match fuel with
  | O => ([], c)
  | S fuel =>
    match spec_turn c with
    | (false, es, c) => (es, c)
    | (true, es, c) => let r := spec_loop fuel c in (es ++ r.1, r.2)
    end
  end.
Definition decode (c : list byte) : list (Event M) * list byte := spec_loop (S (length c)) c.

Lemma codec_loop_enough fuel c : (length c < fuel)%nat → spec_loop fuel c = decode c.
Proof.
  unfold decode. revert c. induction fuel as [fuel IH] using lt_wf_ind. intros c Hf.
  destruct fuel as [|fuel]; [lia|]. cbn [spec_loop]. destruct (spec_turn c) as [[[] es] c'] eqn:Ht; [|done].
  apply spec_turn_shorter in Ht. rewrite (IH fuel) by lia.
  destruct (length c) as [|n]; [lia|]. by rewrite <- (IH (S n)) by lia.
Qed.

Lemma decode_turn c :
  decode c = match spec_turn c with
             | (false, es, c) => (es, c)
             | (true, es, c) => let r := decode c in (es ++ r.1, r.2)
             end.
Proof.
  unfold decode at 1. cbn [spec_loop]. destruct (spec_turn c) as [[[] es] c'] eqn:Ht; [|done].
  apply spec_turn_shorter in Ht. by rewrite codec_loop_enough by lia.
Qed.

Lemma onMessage_loop_spec fuel : ∀ b,
  size_of (tag_ codec) < 2 ^ 20 → buffer_ok b → kCheapPrepend ≤ size_of (buffer_ b) →
  (length (content b) < fuel)%nat →
  ∃ b', onMessage_loop lib codec fuel b = Some (Ok ((decode (content b)).1, b')) ∧
    represents b' (decode (content b)).2 ∧ kCheapPrepend ≤ size_of (buffer_ b').
Proof.
  induction fuel as [|fuel IH]; intros b Htag Hok Hsz Hf; [lia|]. cbn [onMessage_loop].
  pose proof (turn_spec b Htag Hok Hsz) as Ht.
  destruct (onMessage_turn lib codec b) as [[[go es] b1]|]; [|done]. destruct Ht as (Ht & Hok1 & Hsz1).
  rewrite decode_turn, Ht. destruct go; [|exists b1; by split].
  apply spec_turn_shorter in Ht. destruct (IH b1) as (b' & -> & Hrep & Hsz'); [done..|lia|]. by exists b'.
Qed.

(** ** Frames *)

Definition body (m : M) : list byte := tag_ codec ++ SerializeWithCachedSizesToArray lib m.
Definition frame_size (m : M) : Z := size_of (body m) + kChecksumLen.
Definition wire (m : M) : list byte :=
  be_bytes 4 (frame_size m) ++ body m ++ be_bytes 4 (checksum lib (body m)).

(** A message that both sides take: no longer than the limit, let through by
    the raw callback. *)
Definition sendable (m : M) : Prop :=
  frame_size m ≤ kMaxMessageLen ∧ match rawCb_ codec with Some cb => cb (wire m) = true | None => True end.

Lemma length_wire m : length (wire m) = Z.to_nat (kHeaderLen + frame_size m).
Proof.
  unfold wire, frame_size, kHeaderLen, kChecksumLen, size_of. rewrite !length_app, !length_be_bytes. lia.
Qed.

Lemma header_value m c : sendable m → i32 (be_value (take 4 (wire m ++ c))) = frame_size m.
Proof.
  intros [Hmax _]. unfold wire. rewrite <- app_assoc, take_app_length' by (by rewrite length_be_bytes).
  rewrite be_value_bytes. change (?x mod 2 ^ width 4) with (u32 x). rewrite to_signed_to_unsigned.
  pose proof (size_of_nonneg (body m)). unfold frame_size, kMaxMessageLen, kChecksumLen in *.
  apply to_signed_small; [lia|]. unfold in_signed. lia.
Qed.

Lemma frame_size_min m : kMinMessageLen codec ≤ frame_size m.
Proof.
  unfold kMinMessageLen, frame_size, body. rewrite size_of_app.
  pose proof (size_of_nonneg (SerializeWithCachedSizesToArray lib m)). lia.
Qed.

Lemma spec_parse_wire m :
  LibraryLaws lib → spec_parse (drop 4 (wire m)) = (kNoError, Some m).
Proof.
  intros Hlib. unfold wire. rewrite drop_app_length' by (by rewrite length_be_bytes).
  unfold spec_parse. set (k := be_bytes 4 _).
  assert (length k = 4)%nat as Hk by apply length_be_bytes.
  assert (length (body m ++ k) - 4 = length (body m))%nat as -> by (rewrite length_app; lia).
  rewrite take_app_length, drop_app_length. unfold k.
  rewrite be_value_bytes. change (?x mod 2 ^ width 4) with (u32 x). rewrite to_signed_to_unsigned.
  unfold checksum. rewrite (to_signed_small 32 (i32 _)) by (lia || by apply to_signed_range). rewrite Z.eqb_refl.
  unfold body. rewrite <- app_assoc, take_app_length, bool_decide_true, drop_app_length by done.
  by rewrite (Parse_Serialize lib Hlib).
Qed.

(** A whole frame. *)
Lemma turn_wire m c :
  LibraryLaws lib → sendable m → spec_turn (wire m ++ c) = (true, [EMessage m], c).
Proof.
  intros Hlib Hm. pose proof (frame_size_min m) as Hmin. pose proof Hm as [Hmax Hraw].
  pose proof (size_of_nonneg (tag_ codec)). unfold spec_turn. rewrite (header_value m c Hm).
  assert (size_of (wire m ++ c) = kHeaderLen + frame_size m + size_of c) as Hsz.
  { unfold size_of at 1. rewrite length_app, length_wire.
    unfold frame_size, kHeaderLen, kChecksumLen, size_of. lia. }
  pose proof (size_of_nonneg c). rewrite !(proj2 (Z.ltb_ge _ _)) by lia. cbn [orb].
  rewrite <- length_wire, take_app_length, drop_app_length.
  assert (match rawCb_ codec with Some cb => negb (cb (wire m)) | None => false end = false) as ->.
  { destruct (rawCb_ codec); [by rewrite Hraw|done]. }
  by rewrite spec_parse_wire.
Qed.

(** Part of a frame. *)
Lemma turn_partial m p q :
  sendable m → wire m = p ++ q → q ≠ [] → spec_turn p = (false, [], p).
Proof.
  intros Hm Heq Hq. pose proof (frame_size_min m) as Hmin. pose proof Hm as [Hmax _].
  unfold spec_turn. destruct (Z.ltb_spec (size_of p) (kMinMessageLen codec + kHeaderLen)) as [|Hp]; [done|].
  assert (size_of p < kHeaderLen + frame_size m) as Hshort.
  { assert (length (wire m) = length (p ++ q)) as Hl by congruence. rewrite length_wire, length_app in Hl.
    destruct q; [done|]. cbn in Hl. unfold size_of. lia. }
  assert (take 4 p = take 4 (wire m)) as ->.
  { rewrite Heq, take_app_le; [done|].
    pose proof (size_of_nonneg (tag_ codec)). unfold kHeaderLen, kMinMessageLen, kChecksumLen, size_of in *. lia. }
  pose proof (header_value m [] Hm) as Hh. rewrite app_nil_r in Hh. rewrite Hh.
  rewrite (proj2 (Z.ltb_ge kMaxMessageLen _)), (proj2 (Z.ltb_ge (frame_size m) _)) by lia. cbn [orb].
  by rewrite (proj2 (Z.ltb_lt _ _)) by lia.
Qed.

(** What is left of a stream of frames: the start of the next frame. *)
Definition partial (ms : list M) (c : list byte) : Prop :=
  match ms with [] => c = [] | m :: _ => (length c < length (wire m))%nat end.

Lemma decode_stream ms : ∀ c rest,
  LibraryLaws lib → Forall sendable ms → c ++ rest = concat (wire <$> ms) →
  ∃ ms1 ms2 c', ms = ms1 ++ ms2 ∧ decode c = (EMessage <$> ms1, c') ∧
    c' ++ rest = concat (wire <$> ms2) ∧ partial ms2 c'.
Proof.
  induction ms as [|m ms IH]; intros c rest Hlib Hms Heq.
  { apply app_nil in Heq as [-> ->]. exists [], [], []. split_and!; try done.
    rewrite decode_turn. unfold spec_turn. rewrite size_of_nil.
    pose proof (size_of_nonneg (tag_ codec)). unfold kMinMessageLen, kChecksumLen, kHeaderLen.
    by rewrite (proj2 (Z.ltb_lt _ _)) by lia. }
  apply Forall_cons in Hms as [Hm Hms]. change (concat (wire <$> m :: ms)) with (wire m ++ concat (wire <$> ms)) in Heq.
  destruct (decide (length (wire m) ≤ length c)%nat) as [Hle|Hlt].
  - assert (c = wire m ++ drop (length (wire m)) c) as Hc.
    { rewrite <- (take_drop (length (wire m)) c) at 1. f_equal.
      apply (f_equal (take (length (wire m)))) in Heq. by rewrite take_app_le, take_app_length in Heq. }
    set (c1 := drop (length (wire m)) c) in *. clearbody c1. subst c.
    rewrite <- app_assoc in Heq. apply app_inv_head in Heq.
    destruct (IH c1 rest Hlib Hms Heq) as (ms1 & ms2 & c' & -> & Hd & Hr & Hpart).
    exists (m :: ms1), ms2, c'. split_and!; try done.
    by rewrite decode_turn, turn_wire, Hd.
  - exists [], (m :: ms), c. split_and!; try done; [|unfold partial; lia].
    rewrite decode_turn, (turn_partial m c (drop (length c) (wire m))); [done|done| |].
    + rewrite <- (take_drop (length c) (wire m)) at 1. f_equal.
      apply (f_equal (take (length c))) in Heq. rewrite take_app_length, take_app_le in Heq by lia. done.
    + intros E. apply (f_equal length) in E. rewrite length_drop, length_nil in E. lia.
Qed.

(** ** The two sides *)

(** The reader: any bytes in any segments. *)
Lemma feed_decodes chunks : ∀ b,
  size_of (tag_ codec) < 2 ^ 20 → buffer_ok b → kCheapPrepend ≤ size_of (buffer_ b) →
  Forall (λ c, size_of c ≤ vector_max_size) chunks →
  ∃ r, feed lib codec b chunks = Some r ∧ r ⇓[λ f, f = LengthError] λ '(_, b'), buffer_ok b'.
Proof.
  induction chunks as [|chunk chunks IH]; intros b Htag Hok Hsz Hch; [by eexists|].
  apply Forall_cons in Hch as [Hc Hch]. cbn [feed].
  pose proof (append_or_spec b chunk Hok Hc) as Ha.
  destruct (append b chunk) as [b1|f]; [|exists (Fault f); by split; [|apply Ha]].
  destruct Ha as [[Hok1 _] [_ Hsz1]]. unfold onMessage.
  destruct (onMessage_loop_spec (S (length (content b1))) b1) as (b2 & -> & [Hok2 _] & Hsz2); [done|done|lia|lia|].
  destruct (IH b2 Htag Hok2 Hsz2 Hch) as (r & -> & Hr).
  destruct r as [[es b3]|f]; eexists; (split; [done|]); apply Hr.
Qed.

Lemma feed_stream chunks : ∀ b rest ms,
  LibraryLaws lib → size_of (tag_ codec) < 2 ^ 20 → Forall sendable ms →
  buffer_ok b → kCheapPrepend ≤ size_of (buffer_ b) → Forall (λ c, size_of c ≤ vector_max_size) chunks →
  content b ++ concat chunks ++ rest = concat (wire <$> ms) → partial ms (content b) →
  ∃ r, feed lib codec b chunks = Some r ∧ r ⇓[λ f, f = LengthError] λ '(es, b'),
    ∃ ms1 ms2, ms = ms1 ++ ms2 ∧ es = EMessage <$> ms1 ∧
      content b' ++ rest = concat (wire <$> ms2) ∧ partial ms2 (content b').
Proof.
  induction chunks as [|chunk chunks IH]; intros b rest ms Hlib Htag Hms Hok Hsz Hch Heq Hpart.
  { eexists. split; [done|]. by exists [], ms. }
  apply Forall_cons in Hch as [Hc Hch]. cbn [feed].
  pose proof (append_or_spec b chunk Hok Hc) as Ha.
  destruct (append b chunk) as [b1|f]; [|exists (Fault f); by split; [|apply Ha]].
  destruct Ha as [[Hok1 Hc1] [_ Hsz1]]. unfold onMessage.
  destruct (onMessage_loop_spec (S (length (content b1))) b1) as (b2 & -> & [Hok2 Hc2] & Hsz2); [done|done|lia|lia|].
  change (concat (chunk :: chunks)) with (chunk ++ concat chunks) in Heq.
  rewrite <- app_assoc, app_assoc, <- Hc1 in Heq.
  destruct (decode_stream ms (content b1) (concat chunks ++ rest) Hlib Hms Heq)
    as (ms1 & ms2 & c' & -> & Hd & Hr & Hp). rewrite Hd in Hc2 |- *. cbn [fst snd] in *. subst c'.
  apply Forall_app in Hms as [_ Hms].
  destruct (IH b2 rest ms2 Hlib Htag Hms Hok2 Hsz2 Hch Hr Hp) as (r & -> & Hy).
  destruct r as [[es b3]|f]; eexists; (split; [done|]); [|apply Hy].
  destruct Hy as (ms3 & ms4 & -> & -> & Hr' & Hp').
  exists (ms1 ++ ms3), ms4. by rewrite fmap_app, <- app_assoc.
Qed.

(** The writer. *)
Lemma serializeToBuffer_spec m b :
  LibraryLaws lib → buffer_ok b → frame_size m < 2 ^ 31 →
  writerIndex_ b + size_of (SerializeWithCachedSizesToArray lib m) + kChecksumLen ≤ vector_max_size →
  serializeToBuffer lib m b ⇓ λ '(n, b'),
    n = size_of (SerializeWithCachedSizesToArray lib m) ∧
    represents b' (content b ++ SerializeWithCachedSizesToArray lib m) ∧ room_kept b b'.
Proof.
  intros Hlib Hok Hf Hcap. unfold serializeToBuffer. rewrite (ByteSize_exact lib Hlib).
  unfold frame_size, body, kChecksumLen in *. rewrite size_of_app in Hf.
  set (bs := SerializeWithCachedSizesToArray lib m) in *.
  pose proof (size_of_nonneg bs). pose proof (size_of_nonneg (tag_ codec)).
  unfold iadd. rewrite checked_i32_ok by lia. run_ok. rewrite !to_unsigned_small by lia.
  ystep ensureWritableBytes_spec; [done|lia|left; lia|].
  intros b1 (Hok1 & Hc1 & Hw1 & Hr1 & _).
  pose proof (writableBytes_eq b1 Hok1) as Hwb. pose proof Hok1 as [R1 RW1 W1 S1].
  ystep copy_to_spec; [unfold beginWrite; lia..|].
  unfold beginWrite. intros v (Hv & Hcp & Hlow & _). rewrite Z.eqb_refl.
  assert (buffer_ok (mkBuffer v (readerIndex_ b1) (writerIndex_ b1))) as Hok2 by (split; cbn; lia).
  rewrite hasWritten_spec; [|done|rewrite writableBytes_eq by done; cbn; lia]. run_ok. apply yields_ret.
  split_and!; [done|split; [split; cbn; lia|]|unfold room_kept in *; cbn; lia].
  unfold content in *. cbn. rewrite <- (slice_app_slice v (readerIndex_ b1) (writerIndex_ b1)) by lia.
  rewrite Hlow by lia. by rewrite Hc1, Hcp.
Qed.

(** The end of the content after room was made. *)
Lemma room_kept_writer b b' c :
  room_kept b b' → represents b' c → writerIndex_ b' ≤ readerIndex_ b + size_of c.
Proof. intros [Hr _] [Hok <-]. rewrite size_of_content by done. lia. Qed.

Lemma fillEmptyBuffer_spec b m :
  LibraryLaws lib → represents b [] → kCheapPrepend ≤ readerIndex_ b → frame_size m < 2 ^ 31 →
  readerIndex_ b + frame_size m ≤ vector_max_size →
  fillEmptyBuffer lib codec b m ⇓ λ b', represents b' (wire m).
Proof.
  intros Hlib [Hok Hc] Hr Hf Hcap. unfold fillEmptyBuffer.
  rewrite readableBytes_content, Hc by done. yassert; [done|].
  pose proof (size_of_content b Hok) as Hw. rewrite Hc, size_of_nil in Hw.
  pose proof Hf as Hf'. unfold frame_size, body, kChecksumLen in Hf', Hcap. rewrite size_of_app in Hf', Hcap.
  set (bs := SerializeWithCachedSizesToArray lib m) in *.
  pose proof (size_of_nonneg bs). pose proof (size_of_nonneg (tag_ codec)).
  ystep append_spec; [done|left; lia|]. rewrite Hc. intros b1 (Hrep1 & Hk1 & _).
  pose proof (room_kept_writer _ _ _ Hk1 Hrep1) as Hw1. cbn [app] in *. pose proof Hrep1 as [Hok1 Hc1].
  ystep serializeToBuffer_spec; [done|done|done|fold bs; unfold kChecksumLen; lia|].
  intros [n b2] (-> & Hrep2 & Hk2). rewrite Hc1 in Hrep2. fold (body m) in Hrep2.
  pose proof Hrep2 as [Hok2 Hc2].
  assert (room_kept b b2) as Hk by (unfold room_kept in *; lia).
  pose proof (room_kept_writer _ _ _ Hk Hrep2) as Hw2.
  assert (size_of (body m) = size_of (tag_ codec) + size_of bs) as Hbody by apply size_of_app.
  rewrite readableBytes_content, Hc2 by done.
  rewrite to_signed_small by (lia || (unfold in_signed; lia)).
  destruct (load_peek b2 (length (body m)) Hok2) as [Hld _]; [rewrite readableBytes_content, Hc2 by done; unfold size_of; lia|].
  change (Z.of_nat (length (body m))) with (size_of (body m)) in Hld. rewrite Hc2, take_ge in Hld by lia.
  rewrite Hld. run_ok.
  rewrite appendInt32_bytes.
  assert (size_of (be_bytes 4 (checksum lib (body m))) = 4) as H4 by (unfold size_of; by rewrite length_be_bytes).
  ystep append_spec; [done|left; lia|]. rewrite Hc2. intros b3 (Hrep3 & Hk3 & _). pose proof Hrep3 as [Hok3 Hc3].
  rewrite readableBytes_content, Hc3, size_of_app, H4 by done. unfold kChecksumLen at 1.
  fold bs. rewrite (to_unsigned_small 64) by lia. rewrite Hbody, Z.eqb_refl. run_ok. rewrite <- Hbody.
  rewrite (to_signed_small 32 (size_of (body m) + 4)) by (lia || (unfold in_signed; lia)).
  unfold hostToNetwork32. rewrite network_image by (done || lia).
  eapply yields_mono; [apply prepend_spec; [done|unfold prependableBytes, size_of; rewrite length_be_bytes; unfold room_kept, kCheapPrepend in *; lia]|].
  intros b' (Hrep & _). by rewrite Hc3 in Hrep.
Qed.

(** C22. Framing is a faithful channel.  A message that fits the limit is
    encoded into one frame, without a failed assertion; a reader that gets the
    start of a stream of such frames, in any segments, hands over exactly the
    messages whose frames are complete, in order, and keeps the start of the next
    frame, which is shorter than that frame; and
    whatever bytes a peer sends, in whatever segments, the reader returns,
    without a failed assertion or a read outside its buffer (only an
    allocation may fail). *)
Theorem codec_stream b b0 rest ms chunks :
  LibraryLaws lib → size_of (tag_ codec) < 2 ^ 20 → Forall sendable ms →
  represents b [] → kCheapPrepend ≤ size_of (buffer_ b) → represents b0 [] → readerIndex_ b0 = kCheapPrepend →
  Forall (λ c, size_of c ≤ vector_max_size) chunks →
  Forall (λ m, fillEmptyBuffer lib codec b0 m ⇓ λ b', content b' = wire m) ms ∧
  (∃ r, feed lib codec b chunks = Some r ∧ r ⇓[λ f, f = LengthError] λ '(_, b'), buffer_ok b') ∧
  (concat chunks ++ rest = concat (wire <$> ms) →
   ∃ r, feed lib codec b chunks = Some r ∧ r ⇓[λ f, f = LengthError] λ '(es, b'),
     ∃ ms1 ms2, ms = ms1 ++ ms2 ∧ es = EMessage <$> ms1 ∧
       content b' ++ rest = concat (wire <$> ms2) ∧
       match ms2 with [] => content b' = [] | m :: _ => size_of (content b') < size_of (wire m) end).
Proof.
  intros Hlib Htag Hms [Hok Hc] Hsz Hb0 Hr0 Hch. split_and!.
  - eapply Forall_impl; [exact Hms|]. intros m [Hm _].
    eapply yields_mono; [apply fillEmptyBuffer_spec; try done|by intros b' []].
    all: rewrite ?Hr0; unfold kMaxMessageLen, kCheapPrepend, vector_max_size in *; lia.
  - by apply feed_decodes.
  - intros Heq. destruct (feed_stream chunks b rest ms Hlib Htag Hms Hok Hsz Hch) as (r & Hr & Hy).
    { by rewrite Hc. }
    { rewrite Hc. destruct ms as [|m ms]; [done|]. unfold partial. rewrite length_wire.
      pose proof (size_of_nonneg (body m)). unfold frame_size, kHeaderLen, kChecksumLen. cbn. lia. }
    exists r. split; [done|]. destruct r as [[es b']|]; [|done]. destruct Hy as (ms1 & ms2 & -> & -> & Hrest & Hp).
    exists ms1, ms2. split_and!; try done. unfold partial in Hp. destruct ms2; [done|]. unfold size_of. lia.
Qed.

(** The writer has no limit: a frame over the limit is sent, and the reader
    refuses it. *)
Lemma oversize_refused m c :
  kMaxMessageLen < frame_size m < 2 ^ 31 → spec_turn (wire m ++ c) = (false, [EError kInvalidLength], wire m ++ c).
Proof.
  intros Hm. unfold spec_turn.
  assert (i32 (be_value (take 4 (wire m ++ c))) = frame_size m) as ->.
  { unfold wire. rewrite <- app_assoc, take_app_length' by (by rewrite length_be_bytes).
    rewrite be_value_bytes. change (?x mod 2 ^ width 4) with (u32 x). rewrite to_signed_to_unsigned.
    unfold kMaxMessageLen in Hm. apply to_signed_small; [lia|]. unfold in_signed. lia. }
  pose proof (frame_size_min m). pose proof (size_of_nonneg c). unfold kMaxMessageLen in Hm.
  assert (size_of (wire m ++ c) = kHeaderLen + frame_size m + size_of c) as ->.
  { unfold size_of at 1. rewrite length_app, length_wire. unfold kHeaderLen, size_of. lia. }
  rewrite (proj2 (Z.ltb_ge _ _)) by lia. by rewrite (proj2 (Z.ltb_lt kMaxMessageLen _)) by apply Hm.
Qed.
End Spec.

(** ** An example *)

(** Adler-32: two sums modulo 65521. *)
Definition adler32_sums (bs : list byte) : Z :=
  let '(a, b) := foldl (λ '(a, b) x, let a := (a + Z_of_byte x) mod 65521 in (a, (b + a) mod 65521)) (1, 0) bs in
  b * 65536 + a.

(** Messages that are their own serialization. *)
Definition raw_library : Library (list byte) := mkLibrary size_of (λ m, m) Some adler32_sums.
Definition rpc_codec : ProtobufCodecLite := mkCodec (lit "RPC0") None.
Definition empty_buffer : Buffer := mkBuffer (replicate 16 x00) 8 8.

(** Two messages, in three segments that cut both frames. *)
Definition example_wire : list byte :=
  @wire _ raw_library rpc_codec (lit "hello") ++ @wire _ raw_library rpc_codec (lit "bye").
Definition example_chunks : list (list byte) :=
  [take 3 example_wire; take 20 (drop 3 example_wire); drop 23 example_wire].

Lemma codec_stream_witness :
  ∃ r, @feed true _ raw_library rpc_codec empty_buffer example_chunks = Some r ∧
    r ⇓[λ f, f = LengthError] λ '(es, b'), ∃ ms1 ms2,
      [lit "hello"; lit "bye"] = ms1 ++ ms2 ∧ es = EMessage <$> ms1 ∧
      match ms2 with
      | [] => content b' = []
      | m :: _ => size_of (content b') < size_of (@wire _ raw_library rpc_codec m)
      end.
Proof.
  destruct (@codec_stream true _ raw_library rpc_codec empty_buffer empty_buffer [] [lit "hello"; lit "bye"] example_chunks)
    as (_ & _ & H).
  - split; done.
  - vm_compute. reflexivity.
  - repeat constructor; vm_compute; congruence.
  - split; [split; vm_compute; congruence|reflexivity].
  - vm_compute. congruence.
  - split; [split; vm_compute; congruence|reflexivity].
  - reflexivity.
  - repeat constructor; vm_compute; congruence.
  - destruct H as (r & Hr & Hy); [vm_compute; reflexivity|]. exists r. split; [done|].
    destruct r as [[es b']|]; [|exact Hy]. destruct Hy as (ms1 & ms2 & ? & ? & _ & Hn). exists ms1, ms2. auto.
Defined.

Example codec_example :
  (r ← @feed true _ raw_library rpc_codec empty_buffer example_chunks;
   match r with Ok (es, _) => Some es | Fault _ => None end) = Some [EMessage (lit "hello"); EMessage (lit "bye")].
Proof. vm_compute. reflexivity. Qed.

(** A byte that is changed on the way is noticed. *)
Example codec_corrupted :
  (r ← @feed true _ raw_library rpc_codec empty_buffer [<[ 10%nat := x00 ]> example_wire];
   match r with Ok (es, _) => Some es | Fault _ => None end) = Some [EError kCheckSumError].
Proof. vm_compute. reflexivity. Qed.
