(* ===== verification/RpcChannel.v ===== *)
(** * Remote procedure calls (muduo/net/protorpc/RpcChannel.h, RpcChannel.cc, rpc.proto)

    A channel with its table of outstanding calls and its services; an
    operation returns the messages it gives to the codec.  A client and a server
    are two channels joined by two first-in first-out links of messages, which
    is what the codec makes of a connection.  [CallMethod] is two steps, since
    several threads may call it: the entry in the table, and the send. *)
From Stdlib Require Import Strings.Byte.
From stdpp Require Import base numbers list gmap strings.
From S2P Require Import Prelude.
Open Scope Z_scope.
Open Scope muduo_scope.

Abbreviation bytes := (list byte).

Inductive MessageType := REQUEST | RESPONSE | ERROR.
Inductive ErrorCode :=
  | NO_ERROR | WRONG_PROTO | NO_SERVICE | NO_METHOD | INVALID_REQUEST | INVALID_RESPONSE | TIMEOUT.

#[export] Instance ErrorCode_eq_dec : EqDecision ErrorCode.
Proof. solve_decision. Defined.

Record RpcMessage := mkRpcMessage {
  type : MessageType;
  id : Z;
  service : bytes;
  method : bytes;
  request : bytes;
  response : option bytes;
  error : option ErrorCode
}.

(** A protobuf service: its methods, and which requests they can parse. *)
Record Service := mkService {
  FindMethodByName : bytes → bool;
  ParseRequest : bytes → bytes → bool
}.

(** Whether the call has a response object, and its closure. *)
Record OutstandingCall := mkOutstandingCall { out_response : bool; out_done : option Z }.

Record RpcChannel := mkRpcChannel {
  id_ : Z;
  outstandings_ : gmap Z OutstandingCall;
  services_ : option (gmap bytes Service);
  (** calls that services work on; answered calls, with the closure that was
      run and the bytes that were parsed into the response *)
  serving : list Z;
  answered : list (Z * option Z * option bytes)
}.

Definition RpcChannel_new (services : option (gmap bytes Service)) : RpcChannel :=
  mkRpcChannel 0 ∅ services [] [].

Definition set_outstandings (id : Z) (m : gmap Z OutstandingCall) (ch : RpcChannel) : RpcChannel :=
  mkRpcChannel id m (services_ ch) (serving ch) (answered ch).
Definition set_serving (l : list Z) (ch : RpcChannel) : RpcChannel :=
  mkRpcChannel (id_ ch) (outstandings_ ch) (services_ ch) l (answered ch).
Definition set_answered (l : list (Z * option Z * option bytes)) (ch : RpcChannel) : RpcChannel :=
  mkRpcChannel (id_ ch) (outstandings_ ch) (services_ ch) (serving ch) l.

(** Up to the end of the critical section; the message is sent afterwards. *)
Definition CallMethod (service method request : bytes) (response : bool) (done : option Z) (ch : RpcChannel) :
    RpcChannel * RpcMessage :=
  let id := i64 (id_ ch + 1) in
  let message := mkRpcMessage REQUEST id service method request None None in
  let out := mkOutstandingCall response done in
  (set_outstandings id (<[ id := out ]> (outstandings_ ch)) ch, message).

(** What is wrong with a request, [NO_ERROR] if a service takes it. *)
Definition check_request (services : option (gmap bytes Service)) (message : RpcMessage) : ErrorCode :=
  match services with
  | Some services =>
    match services !! service message with
    | Some s =>
      if FindMethodByName s (method message) then
        if ParseRequest s (method message) (request message) then NO_ERROR else INVALID_REQUEST
      else NO_METHOD
    | None => NO_SERVICE
    end
  | None => NO_SERVICE
  end.

Definition onRpcMessage (message : RpcMessage) (ch : RpcChannel) : outcome (RpcChannel * list RpcMessage) :=
  match type message with
  | RESPONSE =>
    let i := id message in
    _ ← assertb 89 (bool_decide (is_Some (response message)) || bool_decide (is_Some (error message)));
    match outstandings_ ch !! i with
    | Some out =>
      let ch := set_outstandings (id_ ch) (delete i (outstandings_ ch)) ch in
      if out_response out
      then mret (set_answered (answered ch ++ [(i, out_done out, response message)]) ch, [])
      else mret (ch, [])
    | None => mret (ch, [])
    end
  | REQUEST =>
    let e := check_request (services_ ch) message in
    if bool_decide (e = NO_ERROR) then mret (set_serving (serving ch ++ [id message]) ch, [])
    else mret (ch, [mkRpcMessage RESPONSE (id message) [] [] [] None (Some e)])
  | ERROR => mret (ch, [])
  end.

Definition doneCallback (response : bytes) (id : Z) : RpcMessage :=
  mkRpcMessage RESPONSE id [] [] [] (Some response) None.

(** ** A client and a server *)

Record System := mkSystem {
  client : RpcChannel;
  server : RpcChannel;
  (** messages that threads are about to send, and those on their way *)
  calling : list RpcMessage;
  up : list RpcMessage;
  down : list RpcMessage;
  (** what was asked, and what the services have answered *)
  asked : gmap Z RpcMessage;
  answers : gmap Z bytes
}.

Definition System_new (services : gmap bytes Service) : System :=
  mkSystem (RpcChannel_new None) (RpcChannel_new (Some services)) [] [] [] ∅ ∅.

Inductive Input :=
  | ICall (service method request : bytes) (done : option Z)
  | ISend (k : nat)
  | IServe
  | IDone (k : nat) (response : bytes)
  | IReceive.

Definition exec (i : Input) (s : System) : outcome System :=
  match i with
  | ICall service method request done =>
    let '(c, m) := CallMethod service method request true done (client s) in
    mret (mkSystem c (server s) (calling s ++ [m]) (up s) (down s) (<[ id m := m ]> (asked s)) (answers s))
  | ISend k =>
    match calling s !! k with
    | Some m => mret (mkSystem (client s) (server s) (delete k (calling s)) (up s ++ [m]) (down s) (asked s) (answers s))
    | None => mret s
    end
  | IServe =>
    match up s with
    | m :: up =>
      '(srv, ms) ← onRpcMessage m (server s);
      mret (mkSystem (client s) srv (calling s) up (down s ++ ms) (asked s) (answers s))
    | [] => mret s
    end
  | IDone k response =>
    match serving (server s) !! k with
    | Some i =>
      let srv := set_serving (delete k (serving (server s))) (server s) in
      mret (mkSystem (client s) srv (calling s) (up s) (down s ++ [doneCallback response i]) (asked s)
              (<[ i := response ]> (answers s)))
    | None => mret s
    end
  | IReceive =>
    match down s with
    | m :: down =>
      '(c, ms) ← onRpcMessage m (client s);
      mret (mkSystem c (server s) (calling s) (up s ++ ms) down (asked s) (answers s))
    | [] => mret s
    end
  end.

Fixpoint exec_all (inputs : list Input) (s : System) : outcome System :=
  match inputs with
  | [] => mret s
  | i :: inputs => s ← exec i s; exec_all inputs s
  end.

(** ** The invariant *)

Definition ids (l : list RpcMessage) : list Z := id <$> l.
Definition finished (s : System) : list Z := (λ x, x.1.1) <$> answered (client s).
Definition in_flight (s : System) : list Z := ids (calling s) ++ ids (up s) ++ serving (server s) ++ ids (down s).

(** What the client is told about call [i]: the service's answer, or why there is none. *)
Definition told (s : System) (i : Z) (r : option bytes) : Prop :=
  ∃ m, asked s !! i = Some m ∧
  match r with
  | Some r => check_request (services_ (server s)) m = NO_ERROR ∧ answers s !! i = Some r
  | None => check_request (services_ (server s)) m ≠ NO_ERROR
  end.

Record rpc_inv (s : System) : Prop := {
  inv_nodup : NoDup (in_flight s ++ finished s);
  inv_all i : i ∈ in_flight s ++ finished s ↔ 1 ≤ i ≤ id_ (client s);
  inv_out i : i ∈ in_flight s ↔ ∃ d, outstandings_ (client s) !! i = Some (mkOutstandingCall true d);
  inv_requests : Forall (λ m, type m = REQUEST ∧ asked s !! id m = Some m) (calling s ++ up s);
  inv_serving : Forall (λ i, ∃ m, asked s !! i = Some m ∧ check_request (services_ (server s)) m = NO_ERROR) (serving (server s));
  inv_down : Forall (λ m, type m = RESPONSE ∧ told s (id m) (response m) ∧ (response m = None → is_Some (error m))) (down s);
  inv_answered : Forall (λ x, told s x.1.1 x.2) (answered (client s));
  inv_range : 0 ≤ id_ (client s)
}.

Lemma rpc_inv_new services : rpc_inv (System_new services).
Proof.
  split; cbn; try constructor; try done.
  - by intros ?%elem_of_nil.
  - intros. lia.
  - by intros ?%elem_of_nil.
  - intros (d & Hd). by rewrite lookup_empty in Hd.
Qed.

(** A call moves on: the same calls are in flight. *)
Lemma rpc_moved s s' :
  rpc_inv s → client s' = client s → in_flight s' ≡ₚ in_flight s →
  NoDup (in_flight s' ++ finished s') ∧
  (∀ i, i ∈ in_flight s' ++ finished s' ↔ 1 ≤ i ≤ id_ (client s')) ∧
  (∀ i, i ∈ in_flight s' ↔ ∃ d, outstandings_ (client s') !! i = Some (mkOutstandingCall true d)).
Proof.
  intros Hs Hc Hp. unfold finished. rewrite Hc. fold (finished s).
  assert (in_flight s' ++ finished s ≡ₚ in_flight s ++ finished s) as Hp' by (by rewrite Hp).
  split_and!.
  - rewrite Hp'. apply Hs.
  - intros i. rewrite Hp'. apply Hs.
  - intros i. rewrite Hp. apply Hs.
Qed.

Lemma told_mono s s' i r :
  services_ (server s') = services_ (server s) → asked s' !! i = asked s !! i → answers s' !! i = answers s !! i →
  told s i r → told s' i r.
Proof. intros E1 E2 E3 (m & Hm & Hr). exists m. by rewrite E1, E2, E3. Qed.


Lemma rpc_call_inv sv me rq d s :
  rpc_inv s → id_ (client s) < 2 ^ 63 - 1 → exec (ICall sv me rq d) s ⇓ rpc_inv.
Proof.
  intros Hs Hmax. pose proof (inv_range s Hs) as Hr. cbn.
  rewrite to_signed_small by (lia || (unfold in_signed; lia)).
  set (n := id_ (client s) + 1). set (m := mkRpcMessage REQUEST n sv me rq None None).
  set (s' := mkSystem _ _ _ _ _ _ _).
  assert (in_flight s' ≡ₚ n :: in_flight s) as Hp.
  { unfold in_flight, ids. cbn. rewrite fmap_app. cbn. rewrite <- app_assoc. cbn. by rewrite <- Permutation_middle. }
  assert (n ∉ in_flight s ++ finished s) as Hn by (intros ?%(inv_all s Hs); lia).
  assert (∀ i, i ≠ n → asked s' !! i = asked s !! i) as Hask by (intros; cbn; by rewrite lookup_insert_ne).
  assert (∀ i, i ∈ in_flight s ∨ i ∈ finished s → i ≠ n) as Hold by (intros i Hi ->; by apply Hn, elem_of_app).
  assert (∀ i r, i ∈ in_flight s ∨ i ∈ finished s → told s i r → told s' i r) as Htold.
  { intros i r Hi. apply told_mono; [done|by apply Hask, Hold|done]. }
  split.
  - rewrite Hp. cbn. apply NoDup_cons. split; [done|apply Hs].
  - intros i. rewrite Hp. cbn. rewrite elem_of_cons. change (finished s') with (finished s).
    rewrite (inv_all s Hs). unfold n. lia.
  - intros i. rewrite Hp, elem_of_cons, (inv_out s Hs). cbn. destruct (decide (i = n)) as [->|Hne].
    + rewrite lookup_insert_eq. split; [by eexists|by left].
    + rewrite lookup_insert_ne by done. naive_solver.
  - cbn. pose proof (inv_requests s Hs) as Hq. rewrite !Forall_app in *. destruct Hq as [Hq1 Hq2].
    assert (∀ l, (∀ i, i ∈ ids l → i ∈ in_flight s) → Forall (λ m, type m = REQUEST ∧ asked s !! id m = Some m) l →
      Forall (λ m0, type m0 = REQUEST ∧ <[ n := m ]> (asked s) !! id m0 = Some m0) l) as Hmap.
    { intros l Hl Hf. rewrite Forall_forall in *. intros x Hx. destruct (Hf x Hx) as [? Hx']. split; [done|].
      rewrite lookup_insert_ne; [done|]. apply not_eq_sym, Hold. left. apply Hl. by apply list_elem_of_fmap_2. }
    split_and!; [|constructor; [|constructor]|].
    + apply Hmap; [|done]. intros i Hi. unfold in_flight. apply elem_of_app. by left.
    + cbn. by rewrite lookup_insert_eq.
    + apply Hmap; [|done]. intros i Hi. unfold in_flight. rewrite !elem_of_app. auto.
  - cbn. pose proof (inv_serving s Hs) as Hq. rewrite Forall_forall in *. intros i Hi.
    rewrite lookup_insert_ne; [by apply Hq|]. apply not_eq_sym, Hold. left. unfold in_flight. rewrite !elem_of_app. auto.
  - pose proof (inv_down s Hs) as Hq. rewrite Forall_forall in *. intros x Hx. destruct (Hq x Hx) as (? & ? & ?).
    split_and!; try done. apply Htold; [|done]. left. unfold in_flight. rewrite !elem_of_app.
    right. right. right. by apply list_elem_of_fmap_2.
  - pose proof (inv_answered s Hs) as Hq. cbn. rewrite Forall_forall in *. intros x Hx. apply Htold; [|by apply Hq].
    right. unfold finished. by apply (list_elem_of_fmap_2 (λ x, x.1.1)).
  - cbn. unfold n. lia.
Qed.

Lemma rpc_send_inv k s : rpc_inv s → exec (ISend k) s ⇓ rpc_inv.
Proof.
  intros Hs. pose proof (inv_range s Hs) as Hrng. cbn. destruct (calling s !! k) as [m|] eqn:Hk; [|done]. cbn.
  apply delete_Permutation in Hk as Hperm. set (rest := delete k (calling s)) in *. clearbody rest.
  set (s' := mkSystem _ _ _ _ _ _ _).
  destruct (rpc_moved s s' Hs eq_refl) as (H1 & H2 & H3).
  { unfold in_flight, ids. cbn. rewrite Hperm, fmap_app. cbn. rewrite <- app_assoc. cbn.
    by rewrite <- !Permutation_middle. }
  pose proof (inv_requests s Hs) as Hq.
  split; try done; try apply Hs. cbn. rewrite Forall_app in *. destruct Hq as [Hq1 Hq2].
  rewrite Hperm in Hq1. apply Forall_cons in Hq1 as [Hm Hq1]. split; [done|]. apply Forall_app. split; [done|].
  by apply Forall_singleton.
Qed.

Lemma rpc_serve_inv s : rpc_inv s → exec IServe s ⇓ rpc_inv.
Proof.
  intros Hs. pose proof (inv_range s Hs) as Hrng. cbn. destruct (up s) as [|m up'] eqn:Hup; [done|].
  pose proof (inv_requests s Hs) as Hq. rewrite Hup in Hq. apply Forall_app in Hq as [Hq1 Hq2].
  apply Forall_cons in Hq2 as [[Ht Hm] Hq2]. unfold onRpcMessage. rewrite Ht.
  case_bool_decide as He; cbn.
  - set (s' := mkSystem _ _ _ _ _ _ _). destruct (rpc_moved s s' Hs eq_refl) as (H1 & H2 & H3).
    { unfold in_flight, ids. cbn. rewrite Hup. cbn. f_equiv. rewrite <- app_assoc, app_nil_r. cbn.
      by rewrite <- !Permutation_middle. }
    split; try done; try apply Hs; cbn.
    + by apply Forall_app.
    + apply Forall_app. split; [apply Hs|]. apply Forall_singleton. by exists m.
    + rewrite app_nil_r. apply Hs.
  - set (s' := mkSystem _ _ _ _ _ _ _). destruct (rpc_moved s s' Hs eq_refl) as (H1 & H2 & H3).
    { unfold in_flight, ids. cbn. rewrite Hup, fmap_app. cbn. f_equiv.
      rewrite !app_assoc, <- Permutation_cons_append. done. }
    split; try done; try apply Hs; cbn.
    + by apply Forall_app.
    + apply Forall_app. split; [apply Hs|]. apply Forall_singleton. cbn. split_and!; [done| |by eexists].
      by exists m.
Qed.

Lemma rpc_done_inv k r s : rpc_inv s → exec (IDone k r) s ⇓ rpc_inv.
Proof.
  intros Hs. pose proof (inv_range s Hs) as Hrng. cbn. destruct (serving (server s) !! k) as [i|] eqn:Hk; [|done]. cbn.
  apply delete_Permutation in Hk as Hperm. set (rest := delete k (serving (server s))) in *. clearbody rest.
  set (s' := mkSystem _ _ _ _ _ _ _).
  destruct (rpc_moved s s' Hs eq_refl) as (H1 & H2 & H3).
  { unfold in_flight, ids. cbn. rewrite Hperm, fmap_app. cbn. do 2 f_equiv.
    rewrite app_assoc, <- Permutation_cons_append. done. }
  pose proof (inv_serving s Hs) as Hq. rewrite Hperm in Hq. apply Forall_cons in Hq as [(m & Hm & Hc) Hq].
  assert (∀ j t, j ≠ i → told s j t → told s' j t) as Htold.
  { intros j t Hne. apply told_mono; try done. cbn. by rewrite lookup_insert_ne. }
  assert (∀ j, j ∈ ids (down s) ++ finished s → j ≠ i) as Hne.
  { pose proof (inv_nodup s Hs) as Hn. unfold in_flight in Hn. rewrite Hperm in Hn.
    assert (NoDup (i :: rest ++ ids (down s) ++ finished s)) as Hn'.
    { rewrite <- !app_assoc in Hn. apply NoDup_app in Hn as (_ & _ & Hn). by apply NoDup_app in Hn as (_ & _ & Hn). }
    apply NoDup_cons in Hn' as [Hn' _]. intros j Hj ->. apply Hn', elem_of_app. by right. }
  split; try done; try apply Hs.
  - cbn. apply Forall_app. split.
    + pose proof (inv_down s Hs) as Hd. rewrite Forall_forall in *. intros x Hx. destruct (Hd x Hx) as (? & ? & ?).
      split_and!; try done. apply Htold; [|done]. apply Hne, elem_of_app. left. by apply list_elem_of_fmap_2.
    + apply Forall_singleton. cbn. split_and!; try done. exists m. cbn. by rewrite lookup_insert_eq.
  - cbn. pose proof (inv_answered s Hs) as Hd. rewrite Forall_forall in *. intros x Hx. apply Htold; [|by apply Hd].
    apply Hne, elem_of_app. right. by apply (list_elem_of_fmap_2 (λ x, x.1.1)).
Qed.

Lemma rpc_receive_inv s : rpc_inv s → exec IReceive s ⇓ rpc_inv.
Proof.
  intros Hs. pose proof (inv_range s Hs) as Hrng. cbn. destruct (down s) as [|m down'] eqn:Hdown; [done|].
  pose proof (inv_down s Hs) as Hd. rewrite Hdown in Hd. apply Forall_cons in Hd as [(Ht & Htold & Herr) Hd].
  unfold onRpcMessage. rewrite Ht.
  assert (bool_decide (is_Some (response m)) || bool_decide (is_Some (error m)) = true) as ->.
  { apply orb_true_iff. rewrite !bool_decide_eq_true. destruct (response m); [by left|right; by apply Herr]. }
  run_ok.
  assert (in_flight s ≡ₚ id m :: ids (calling s) ++ ids (up s) ++ serving (server s) ++ ids down') as Hp.
  { unfold in_flight. rewrite Hdown. cbn. by rewrite <- !Permutation_middle. }
  destruct (proj1 (inv_out s Hs (id m))) as (d & Hout); [rewrite Hp; by left|].
  rewrite Hout. cbn. set (s' := mkSystem _ _ _ _ _ _ _).
  assert (in_flight s ≡ₚ id m :: in_flight s') as Hp'.
  { rewrite Hp. unfold in_flight. cbn. by rewrite app_nil_r. }
  assert (finished s' = finished s ++ [id m]) as Hf by (unfold finished; cbn; by rewrite fmap_app).
  assert (in_flight s' ++ finished s' ≡ₚ in_flight s ++ finished s) as Hall.
  { rewrite Hf, Hp', app_assoc, <- Permutation_cons_append. done. }
  assert (id m ∉ in_flight s') as Hnew.
  { pose proof (inv_nodup s Hs) as Hn. rewrite Hp' in Hn. cbn in Hn. apply NoDup_cons in Hn as [Hn _].
    intros H. apply Hn, elem_of_app. by left. }
  split; try done; try apply Hs.
  - rewrite Hall. apply Hs.
  - intros i. rewrite Hall. apply Hs.
  - intros i. cbn. destruct (decide (i = id m)) as [->|Hne].
    + rewrite lookup_delete_eq. split; [done|by intros (? & ?)].
    + rewrite lookup_delete_ne, <- (inv_out s Hs), Hp', elem_of_cons by done. naive_solver.
  - cbn. rewrite app_nil_r. apply Hs.
  - cbn. apply Forall_app. split; [apply Hs|by apply Forall_singleton].
Qed.

Definition is_call (i : Input) : bool := match i with ICall _ _ _ _ => true | _ => false end.
Definition calls (inputs : list Input) : Z := size_of (filter (λ i, is_call i = true) inputs).

Lemma exec_ids i s : exec i s ⇓[λ _, True] λ s', (is_call i = true → id_ (client s) < 2 ^ 63 - 1) → 0 ≤ id_ (client s) →
  id_ (client s') = id_ (client s) + (if is_call i then 1 else 0).
Proof.
  destruct i as [sv me rq d|k| |k r|]; cbn.
  - intros Hm ?. specialize (Hm eq_refl). rewrite to_signed_small by (lia || (unfold in_signed; lia)). done.
  - destruct (calling s !! k); cbn; lia.
  - destruct (up s) as [|m u]; cbn; [lia|]. destruct (onRpcMessage m (server s)) as [[srv ms]|]; cbn; [lia|done].
  - destruct (serving (server s) !! k); cbn; lia.
  - destruct (down s) as [|m u]; cbn; [lia|]. unfold onRpcMessage. destruct (type m); cbn.
    + case_bool_decide; cbn; lia.
    + destruct (_ || _); cbn; [|done]. destruct (outstandings_ _ !! _) as [out|]; cbn; [|lia].
      destruct (out_response out); cbn; lia.
    + lia.
Qed.

Lemma rpc_run_inv inputs : ∀ s,
  rpc_inv s → id_ (client s) + calls inputs < 2 ^ 63 →
  exec_all inputs s ⇓ λ s', rpc_inv s' ∧ id_ (client s') = id_ (client s) + calls inputs.
Proof.
  induction inputs as [|i inputs IH]; intros s Hs Hmax; [by cbn; split; [|unfold calls, size_of; cbn; lia]|].
  assert (calls (i :: inputs) = (if is_call i then 1 else 0) + calls inputs) as Hcalls.
  { unfold calls. rewrite filter_cons. destruct (decide (is_call i = true)) as [->|E%not_true_is_false].
    - rewrite size_of_cons. lia.
    - by rewrite E. }
  pose proof (size_of_nonneg (filter (λ i, is_call i = true) inputs)) as Hpos. fold (calls inputs) in Hpos.
  cbn [exec_all]. rewrite Hcalls in *. pose proof (inv_range s Hs) as Hr.
  assert (exec i s ⇓ rpc_inv) as He.
  { destruct i; [apply rpc_call_inv; [done|cbn in Hmax; lia]|by apply rpc_send_inv|by apply rpc_serve_inv|by apply rpc_done_inv|by apply rpc_receive_inv]. }
  pose proof (exec_ids i s) as Hids.
  destruct (exec i s) as [s1|]; [|done]. cbn in He, Hids |- *.
  assert (id_ (client s1) = id_ (client s) + (if is_call i then 1 else 0)) as E.
  { apply Hids; [|done]. intros Ei. rewrite Ei in Hmax. lia. }
  eapply yields_mono; [apply IH; [done|lia]|]. intros s' [? ?]. split; [done|lia].
Qed.

(** C20. Remote calls are answered once.  In any interleaving of calls by any
    number of threads, of messages on their way, of services that complete in
    any order and of answers that arrive, no assertion fails; every call made so
    far is either outstanding or answered, never both and never answered twice;
    an answer carries what the service returned for that very call, or comes
    without a response exactly if the server could not dispatch it; and when
    nothing is in flight any more, every call has been answered. *)
Theorem rpc_exactly_once services inputs :
  calls inputs < 2 ^ 63 →
  exec_all inputs (System_new services) ⇓ λ s,
    NoDup (finished s) ∧
    (∀ i, 1 ≤ i ≤ calls inputs ↔ i ∈ in_flight s ∨ i ∈ finished s) ∧
    (∀ i, i ∈ in_flight s → i ∉ finished s) ∧
    (∀ i, i ∈ in_flight s ↔ ∃ d, outstandings_ (client s) !! i = Some (mkOutstandingCall true d)) ∧
    Forall (λ x, told s x.1.1 x.2) (answered (client s)) ∧
    (calling s = [] → up s = [] → serving (server s) = [] → down s = [] →
     ∀ i, 1 ≤ i ≤ calls inputs → i ∈ finished s).
Proof.
  intros Hmax. eapply yields_mono; [apply rpc_run_inv; [apply rpc_inv_new|cbn; lia]|]. cbn.
  intros s [Hs Hid]. rewrite Z.add_0_l in Hid. pose proof (inv_nodup s Hs) as Hn. apply NoDup_app in Hn as (Hn1 & Hdis & Hn2).
  split_and!; [done| |done|apply Hs|apply Hs|].
  - intros i. by rewrite <- Hid, <- (inv_all s Hs), elem_of_app.
  - intros H1 H2 H3 H4 i Hi. rewrite <- Hid in Hi. apply (inv_all s Hs), elem_of_app in Hi as [Hi|]; [|done].
    unfold in_flight in Hi. rewrite H1, H2, H3, H4 in Hi. by apply elem_of_nil in Hi.
Qed.

Definition echo_service : Service := mkService (λ m, bool_decide (m = lit "Echo")) (λ _ _, true).
Definition example_services : gmap bytes Service := {[ lit "Test" := echo_service ]}.
(** Two calls of two threads, answered in the other order; the third has no method. *)
Definition example_inputs : list Input :=
  [ICall (lit "Test") (lit "Echo") (lit "a") (Some 1); ICall (lit "Test") (lit "Echo") (lit "b") (Some 2);
   ICall (lit "Test") (lit "Nope") (lit "c") (Some 3);
   ISend 1; ISend 0; ISend 0; IServe; IServe; IDone 0 (lit "B"); IServe; IReceive; IDone 0 (lit "A"); IReceive; IReceive].

Lemma rpc_exactly_once_witness :
  calls example_inputs < 2 ^ 63 ∧
  exec_all example_inputs (System_new example_services) ⇓ λ s,
    NoDup (finished s) ∧ Forall (λ x, told s x.1.1 x.2) (answered (client s)).
Proof.
  split; [vm_compute; reflexivity|].
  eapply yields_mono; [apply (rpc_exactly_once example_services example_inputs); vm_compute; reflexivity|].
  intros s (H1 & _ & _ & _ & H2 & _). done.
Defined.

Example rpc_example :
  (s ← exec_all example_inputs (System_new example_services); mret (answered (client s)))
  = Ok [(2, Some 2, Some (lit "B")); (3, Some 3, None); (1, Some 1, Some (lit "A"))].
Proof. vm_compute. reflexivity. Qed.

(** A peer can stop the process with an answer that has neither part. *)
Example empty_response_asserts (ch : RpcChannel) :
  onRpcMessage (mkRpcMessage RESPONSE 1 [] [] [] None None) ch = Fault (AssertFailure 89).
Proof. reflexivity. Qed.
