(* ===== verification/RpcServer.v ===== *)
(** * A server of remote procedure calls (muduo/net/protorpc/RpcServer.h, RpcServer.cc, RpcCodec.h,
      RpcCodec.cc; the destructor of RpcChannel.cc)

    The server makes a channel for each connection and keeps it in the context of the
    connection.  The channels share the server's table of services, through a pointer; the
    closures that the services get point to their channel, so that a channel which
    is gone makes them dangle. *)
From Stdlib Require Import Strings.Byte.
From stdpp Require Import base numbers list gmap strings.
From S2P Require Import Prelude ProtobufCodecLite RpcChannel.
Open Scope Z_scope.
Open Scope muduo_scope.

(** ** The codec *)

Definition rpctag : list byte := lit "RPC0".
Definition RpcCodec : ProtobufCodecLite := mkCodec rpctag None.

(** ** The destructor of a channel *)

(** The calls whose response and closure are deleted. *)
Definition RpcChannel_destructor (ch : RpcChannel) : list Z := (map_to_list (outstandings_ ch)).*1.

(** ** The server *)

Record RpcServer := mkRpcServer {
  services_ : gmap bytes Service;
  (** the channel in the context of each connection *)
  contexts : gmap Z RpcChannel;
  (** what was sent on which connection; the closures of calls that services work on *)
  sent : list (Z * RpcMessage);
  closures : list (Z * Z)
}.

Definition RpcServer_new : RpcServer := mkRpcServer ∅ ∅ [] [].

(** [services_[desc->full_name()] = service] *)
Definition registerService (full_name : bytes) (service : Service) (s : RpcServer) : RpcServer :=
  mkRpcServer (<[ full_name := service ]> (services_ s)) (contexts s) (sent s) (closures s).

Definition onConnection (conn : Z) (connected : bool) (s : RpcServer) : RpcServer :=
  if connected then mkRpcServer (services_ s) (<[ conn := RpcChannel_new (Some (services_ s)) ]> (contexts s)) (sent s) (closures s)
  else mkRpcServer (services_ s) (delete conn (contexts s)) (sent s) (closures s).

(** The channel sees the services that are in the server's table now. *)
Definition deref_services (s : RpcServer) (ch : RpcChannel) : RpcChannel :=
  mkRpcChannel (id_ ch) (outstandings_ ch) (Some (services_ s)) (serving ch) (answered ch).

(** A message of the codec, for the channel that was bound into the message callback. *)
Definition onMessage (conn : Z) (m : RpcMessage) (s : RpcServer) : outcome RpcServer :=
  match contexts s !! conn with
  | None => Fault BadDeref
  | Some ch =>
    let ch := deref_services s ch in
    '(ch', ms) ← onRpcMessage m ch;
    mret (mkRpcServer (services_ s) (<[ conn := ch' ]> (contexts s)) (sent s ++ (pair conn <$> ms))
           (closures s ++ (pair conn <$> drop (length (serving ch)) (serving ch'))))
  end.

(** A service runs its [k]-th closure: [doneCallback] of the channel that it points to. *)
Definition done_Run (k : nat) (response : bytes) (s : RpcServer) : outcome RpcServer :=
  match closures s !! k with
  | None => mret s
  | Some (conn, i) =>
    match contexts s !! conn with
    | None => Fault BadDeref
    | Some ch =>
      mret (mkRpcServer (services_ s) (contexts s) (sent s ++ [(conn, doneCallback response i)]) (delete k (closures s)))
    end
  end.

Inductive Event :=
  | ERegister (full_name : bytes) (service : Service)
  | EUp (conn : Z)
  | EDown (conn : Z)
  | EMessage (conn : Z) (m : RpcMessage)
  | EDone (k : nat) (response : bytes).

Definition exec_event (e : Event) (s : RpcServer) : outcome RpcServer :=
  match e with
  | ERegister name service => mret (registerService name service s)
  | EUp conn => mret (onConnection conn true s)
  | EDown conn => mret (onConnection conn false s)
  | EMessage conn m => onMessage conn m s
  | EDone k response => done_Run k response s
  end.

Fixpoint exec_events (es : list Event) (s : RpcServer) : outcome RpcServer :=
  match es with [] => mret s | e :: es => s ← exec_event e s; exec_events es s end.

(** ** Every request is answered once *)

(** A message that [onRpcMessage] does not assert on. *)
Definition message_ok (m : RpcMessage) : bool :=
  if type m is RESPONSE then bool_decide (is_Some (response m)) || bool_decide (is_Some (error m)) else true.

(** What the network does: messages of connections that are up, and no empty responses.  What the services have to
    do: a call is finished before its connection goes down.  What the program has to do: services are registered while
    there is no connection, whose thread would read the table without a lock. *)
Definition event_ok (e : Event) (s : RpcServer) : Prop :=
  match e with
  | ERegister _ _ => contexts s = ∅
  | EMessage conn m => is_Some (contexts s !! conn) ∧ message_ok m = true
  | EDown conn => conn ∉ (closures s).*1
  | _ => True
  end.
Fixpoint events_ok (es : list Event) (s : RpcServer) : Prop :=
  match es with
  | [] => True
  | e :: es => event_ok e s ∧ ∀ s', exec_event e s = Ok s' → events_ok es s'
  end.

(** The requests of a run: connection, id, and what is wrong with it at that time. *)
Definition asked_by (e : Event) (s : RpcServer) : list (Z * Z * ErrorCode) :=
  match e with
  | EMessage conn m => if type m is REQUEST then [(conn, id m, check_request (Some (services_ s)) m)] else []
  | _ => []
  end.
Fixpoint requests_of (es : list Event) (s : RpcServer) : list (Z * Z * ErrorCode) :=
  match es with
  | [] => []
  | e :: es => asked_by e s ++ match exec_event e s with Ok s' => requests_of es s' | Fault _ => [] end
  end.

(** What was sent in answer: the code of an error, or [NO_ERROR] with a response. *)
Definition answer_of (x : Z * RpcMessage) : Z * Z * ErrorCode := (x.1, id x.2, default NO_ERROR (error x.2)).
Definition server_answers (s : RpcServer) : list (Z * Z * ErrorCode) := answer_of <$> sent s.
Definition in_work (s : RpcServer) : list (Z * Z * ErrorCode) := (λ x, (x.1, x.2, NO_ERROR)) <$> closures s.

Record server_inv (s : RpcServer) : Prop := {
  sv_closures : Forall (λ x, is_Some (contexts s !! x.1)) (closures s);
  sv_sent : Forall (λ x, type x.2 = RESPONSE ∧ (is_Some (response x.2) ↔ error x.2 = None)) (sent s)
}.

(** A message that is not a request: nothing is sent and no service is called. *)
Lemma other_message m ch :
  type m ≠ REQUEST → message_ok m = true → ∃ ch', onRpcMessage m ch = Ok (ch', []) ∧ serving ch' = serving ch.
Proof.
  intros Ht Hm. unfold onRpcMessage, message_ok in *. destruct (type m); [done| |by eexists]. rewrite Hm. cbn.
  destruct (outstandings_ ch !! id m) as [out|]; [|by eexists]. destruct (out_response out); by eexists.
Qed.

Lemma exec_event_spec e s : server_inv s → event_ok e s → exec_event e s ⇓ λ s',
  server_inv s' ∧ server_answers s' ++ in_work s' ≡ₚ server_answers s ++ in_work s ++ asked_by e s.
Proof.
  intros [Hc Hs] Hok. destruct e as [name service|conn|conn|conn m|k r]; cbn [exec_event asked_by].
  - apply yields_ret. split; [by split|]. by rewrite app_nil_r.
  - apply yields_ret. split; [|by rewrite app_nil_r]. split; cbn; [|done]. eapply Forall_impl; [exact Hc|]. intros x Hx. cbn in *.
    destruct (decide (x.1 = conn)) as [->|]; [rewrite lookup_insert_eq; by eexists|by rewrite lookup_insert_ne].
  - apply yields_ret. split; [|by rewrite app_nil_r]. split; cbn; [|done]. cbn in Hok. rewrite Forall_forall in Hc |- *. intros x Hx.
    rewrite lookup_delete_ne; [by apply Hc|]. intros ->. apply Hok. by apply list_elem_of_fmap_2.
  - destruct Hok as [[ch Hch] Hm]. unfold onMessage. rewrite Hch.
    assert (∀ ch', Forall (λ x : Z * Z, is_Some (<[ conn := ch' ]> (contexts s) !! x.1)) (closures s)) as Hc'.
    { intros ch'. eapply Forall_impl; [exact Hc|]. intros x Hx. cbn in *.
      destruct (decide (x.1 = conn)) as [->|]; [rewrite lookup_insert_eq; by eexists|by rewrite lookup_insert_ne]. }
    destruct (type m) eqn:Ht; [|destruct (other_message m (deref_services s ch)) as (ch' & E & Hserv); [by rewrite Ht|done|]..].
    2-3: rewrite E; apply yields_bind, yields_ret; rewrite Hserv, drop_all; apply yields_ret;
      (split; [split|]; cbn [closures contexts sent]; [rewrite app_nil_r; apply Hc'|by rewrite app_nil_r|]);
      unfold server_answers, in_work; cbn [closures sent]; by rewrite !app_nil_r.
    unfold onRpcMessage. rewrite Ht. cbn [deref_services RpcChannel.services_].
    set (e := check_request _ m). destruct (decide (e = NO_ERROR)) as [He|He].
    + rewrite bool_decide_true by done. apply yields_bind, yields_ret. cbn [set_serving serving].
      rewrite drop_app_length. apply yields_ret. split; [split|]; cbn [closures contexts sent].
      * apply Forall_app. split; [apply Hc'|]. repeat constructor. cbn. rewrite lookup_insert_eq. by eexists.
      * by rewrite app_nil_r.
      * unfold server_answers, in_work. cbn [closures sent]. rewrite app_nil_r, fmap_app, He. done.
    + rewrite bool_decide_false by done. apply yields_bind, yields_ret. cbn [deref_services serving]. rewrite drop_all, app_nil_r. apply yields_ret.
      split; [split|]; cbn [closures contexts sent].
      * apply Hc'.
      * apply Forall_app. split; [done|]. repeat constructor; cbn; [by intros []|done].
      * unfold server_answers, in_work. cbn [closures sent]. rewrite fmap_app, <- app_assoc. f_equiv. apply Permutation_cons_append.
  - unfold done_Run. destruct (closures s !! k) as [[conn i]|] eqn:Hk; [|apply yields_ret; split; [by split|by rewrite app_nil_r]].
    rewrite Forall_forall in Hc. destruct (Hc (conn, i)) as [ch Hch]; [by eapply list_elem_of_lookup_2|]. cbn in Hch. rewrite Hch.
    apply yields_ret. split; [split|]; cbn [closures contexts sent].
    + rewrite Forall_forall. intros x Hx. apply Hc. eapply elem_of_sublist; [exact Hx|apply sublist_delete].
    + apply Forall_app. split; [done|]. repeat constructor; cbn; done.
    + unfold server_answers, in_work. cbn [closures sent]. rewrite app_nil_r, fmap_app, <- app_assoc. f_equiv. cbn.
      rewrite (delete_Permutation _ _ _ Hk) at 2. done.
Qed.

Lemma exec_events_spec es : ∀ s, server_inv s → events_ok es s → exec_events es s ⇓ λ s',
  server_inv s' ∧ server_answers s' ++ in_work s' ≡ₚ server_answers s ++ in_work s ++ requests_of es s.
Proof.
  induction es as [|e es IH]; intros s Hs Hok; cbn [exec_events requests_of]; [apply yields_ret; by rewrite app_nil_r|].
  destruct Hok as [He Hes]. pose proof (exec_event_spec e s Hs He) as Hy. apply yields_Ok in Hy as (s1 & E & Hs1 & HP).
  rewrite E. run_ok. eapply yields_mono; [by apply (IH s1 Hs1), Hes|]. intros s2 (Hs2 & HP2). split; [done|].
  rewrite HP2, app_assoc, HP, <- !app_assoc. done.
Qed.

(** C21. The server of remote procedure calls answers.  In any run in which services finish a call before its connection
    goes down, services are registered only while there is no connection (the table is not locked), and peers send
    no response that is empty (which asserts, [empty_response_asserts]), with connections that come and go and send any
    other messages: nothing fails, and every request of every connection is answered exactly once or is still worked on by
    its service.  It is answered on its own connection and with its own id: with the
    error code, if the services that were registered when it came do not take it, and with a
    response without an error otherwise. *)
Theorem rpc_server_answers es : events_ok es RpcServer_new →
  exec_events es RpcServer_new ⇓ λ s,
    server_answers s ++ in_work s ≡ₚ requests_of es RpcServer_new ∧
    Forall (λ x, type x.2 = RESPONSE ∧ (is_Some (response x.2) ↔ error x.2 = None)) (sent s).
Proof.
  intros Hok. eapply yields_mono; [apply exec_events_spec; [by repeat constructor|done]|]. intros s ([_ Hs] & HP). split; [|done].
  exact HP.
Qed.

(** A service that takes every request. *)
Definition any_service : Service := mkService (λ _, true) (λ _ _, true).
Definition sample_request (i : Z) (name : string) : RpcMessage := mkRpcMessage REQUEST i (lit name) (lit "m") [] None None.
Definition sample_events : list Event :=
  [ERegister (lit "a") any_service; EUp 1; EMessage 1 (sample_request 5 "a"); EMessage 1 (doneCallback (lit "r") 9); EMessage 1 (sample_request 6 "b"); EDone 0 (lit "r"); EDown 1].

Lemma rpc_server_answers_witness :
  exec_events sample_events RpcServer_new ⇓ λ s,
    server_answers s ++ in_work s ≡ₚ requests_of sample_events RpcServer_new.
Proof.
  eapply yields_mono; [apply (rpc_server_answers sample_events)|by intros s []].
  repeat (split; [cbn; try done; try (split; [by eexists|done])|intros s [= <-]]); [by apply not_elem_of_nil|exact I].
Defined.

Example rpc_server_example : requests_of sample_events RpcServer_new = [(1, 5, NO_ERROR); (1, 6, NO_SERVICE)].
Proof. by vm_compute. Qed.

(** A call that is finished after its connection went down uses a channel that is gone. *)
Lemma late_answer_dangles :
  exec_events [ERegister (lit "a") any_service; EUp 1; EMessage 1 (sample_request 5 "a"); EDown 1; EDone 0 (lit "r")] RpcServer_new = Fault BadDeref.
Proof. by vm_compute. Qed.

(** ** Calls that are left *)

(** Every call has a response object. *)
Definition with_response (ch : RpcChannel) : Prop := ∀ i o, outstandings_ ch !! i = Some o → out_response o = true.

Lemma exec_with_response i s : with_response (client s) → exec i s ⇓[λ _, True] λ s', with_response (client s').
Proof.
  intros Hw. destruct i as [sv me rq d|k| |k r|]; cbn [exec].
  - intros i o. cbn. destruct (decide (i = i64 (id_ (client s) + 1))) as [->|Hne].
    + rewrite lookup_insert_eq. by intros [= <-].
    + rewrite lookup_insert_ne by done. apply Hw.
  - by destruct (calling s !! k).
  - destruct (up s) as [|m l]; [done|]. destruct (onRpcMessage m (server s)) as [[srv ms]|]; done.
  - by destruct (serving (server s) !! k).
  - destruct (down s) as [|m l]; [done|]. unfold onRpcMessage.
    destruct (type m); [by destruct (bool_decide _)| |done]. destruct (assertb 89 _); [|done]. cbn.
    destruct (outstandings_ (client s) !! id m) as [out|] eqn:Ho; [|done].
    assert (with_response (set_outstandings (id_ (client s)) (delete (id m) (outstandings_ (client s))) (client s))) as Hd.
    { intros j o. cbn. rewrite lookup_delete_Some. intros [_ ?]. by eapply Hw. }
    by destruct (out_response out).
Qed.

Lemma exec_all_with_response inputs : ∀ s, with_response (client s) → exec_all inputs s ⇓[λ _, True] λ s', with_response (client s').
Proof.
  induction inputs as [|i inputs IH]; intros s Hw; [done|]. cbn [exec_all]. ostep exec_with_response; [done|]. intros s'. apply IH.
Qed.

(** No call is lost or freed twice.  After any run of a client and a server, the calls whose response
    and closure the client's channel deletes in its destructor, and those whose closure was run and whose response was
    deleted with it, are all calls that were made, each of them once. *)
Theorem rpc_destructor_frees services inputs : calls inputs < 2 ^ 63 →
  exec_all inputs (System_new services) ⇓ λ s,
    RpcChannel_destructor (client s) ++ finished s ≡ₚ seqZ 1 (calls inputs).
Proof.
  intros Hmax. pose proof (rpc_run_inv inputs (System_new services) (rpc_inv_new services)) as Hrun.
  pose proof (exec_all_with_response inputs (System_new services)) as Hw.
  apply yields_Ok in Hrun as (s & E & Hs & Hid); [|cbn; lia]. rewrite E in Hw |- *. cbn in Hw, Hid |- *.
  specialize (Hw ltac:(intros i o; cbn; by rewrite lookup_empty)). rewrite Z.add_0_l in Hid.
  assert (∀ i, i ∈ RpcChannel_destructor (client s) ↔ i ∈ in_flight s) as Hd.
  { intros i. unfold RpcChannel_destructor. rewrite (inv_out s Hs), list_elem_of_fmap. split.
    - intros ([j o] & -> & Ho%elem_of_map_to_list). pose proof (Hw _ _ Ho). destruct o as [b d]. cbn in *. subst b. by exists d.
    - intros (d & Ho). eexists (i, _). split; [done|]. by apply elem_of_map_to_list. }
  pose proof (inv_nodup s Hs) as Hn. apply NoDup_app in Hn as (Hn1 & Hdis & Hn2). apply NoDup_Permutation.
  - apply NoDup_app. split_and!; [apply NoDup_fst_map_to_list| |done]. intros i Hi. apply Hdis. by apply Hd.
  - apply NoDup_seqZ.
  - intros i. rewrite elem_of_app, Hd, <- elem_of_app, (inv_all s Hs), elem_of_seqZ, Hid. lia.
Qed.

Lemma rpc_destructor_frees_witness :
  calls example_inputs < 2 ^ 63 ∧ exec_all example_inputs (System_new example_services) ⇓ λ s,
    RpcChannel_destructor (client s) ++ finished s ≡ₚ seqZ 1 (calls example_inputs).
Proof.
  assert (calls example_inputs < 2 ^ 63) as H by (by vm_compute). split; [exact H|].
  exact (rpc_destructor_frees example_services example_inputs H).
Defined.
