(* ===== verification/Sudoku.v ===== *)
(** * A Sudoku solver with dancing links (examples/sudoku/sudoku.cc)

    The nodes of the solver are entries of one array; a pointer is an index, and
    a field is a map from the nodes that are in use.  Loops over linked lists
    take fuel: [None] means that it ran out, [Some (Fault f)] that the program
    fails. *)
From Stdlib Require Import Strings.Byte.
From stdpp Require Import base numbers list strings gmap.
From S2P Require Import Prelude.
Open Scope Z_scope.
Open Scope muduo_scope.

(** ** Programs with loops *)

Definition partial (A : Type) : Type := option (outcome A).
#[export] Instance partial_ret : MRet partial := λ A a, Some (Ok a).
#[export] Instance partial_bind : MBind partial :=
  λ A B f m, match m with Some (Ok a) => f a | Some (Fault e) => Some (Fault e) | None => None end.
Definition lift {A} (m : outcome A) : partial A := Some m.
Definition fail {A} (f : fault) : partial A := Some (Fault f).
Definition assertp (line : Z) (c : bool) : partial unit := lift (assertb line c).

(** [for (x : l) f(x);] *)
Fixpoint foreach {A S} (f : A → S → partial S) (l : list A) (s : S) : partial S :=
  match l with [] => mret s | x :: l => s ← f x s; foreach f l s end.

(** ** Nodes *)

Record Heap := mkHeap {
  lefts : gmap nat nat;
  rights : gmap nat nat;
  ups : gmap nat nat;
  downs : gmap nat nat;
  cols : gmap nat nat;
  names : gmap nat Z;
  sizes : gmap nat Z
}.

Definition kMaxNodes : nat := 1 + 81*4 + 9*9*9*4.
Definition kRow : Z := 100.
Definition kCol : Z := 200.
Definition kBox : Z := 300.
Definition kCells : Z := 81.
Definition kNoSolution : list byte := lit "NoSolution".

(** [p->f] *)
Definition read {A} (f : Heap → gmap nat A) (p : nat) (h : Heap) : partial A :=
  match f h !! p with Some x => mret x | None => fail BadDeref end.
(** [p->f = x] *)
Definition set_left (p x : nat) (h : Heap) : partial Heap :=
  _ ← read lefts p h; mret (mkHeap (<[ p := x ]> (lefts h)) (rights h) (ups h) (downs h) (cols h) (names h) (sizes h)).
Definition set_right (p x : nat) (h : Heap) : partial Heap :=
  _ ← read rights p h; mret (mkHeap (lefts h) (<[ p := x ]> (rights h)) (ups h) (downs h) (cols h) (names h) (sizes h)).
Definition set_up (p x : nat) (h : Heap) : partial Heap :=
  _ ← read ups p h; mret (mkHeap (lefts h) (rights h) (<[ p := x ]> (ups h)) (downs h) (cols h) (names h) (sizes h)).
Definition set_down (p x : nat) (h : Heap) : partial Heap :=
  _ ← read downs p h; mret (mkHeap (lefts h) (rights h) (ups h) (<[ p := x ]> (downs h)) (cols h) (names h) (sizes h)).
Definition set_col (p x : nat) (h : Heap) : partial Heap :=
  _ ← read cols p h; mret (mkHeap (lefts h) (rights h) (ups h) (downs h) (<[ p := x ]> (cols h)) (names h) (sizes h)).
(** [p->size += x]; a column has at most nine rows. *)
Definition add_size (p : nat) (x : Z) (h : Heap) : partial Heap :=
  s ← read sizes p h;
  mret (mkHeap (lefts h) (rights h) (ups h) (downs h) (cols h) (names h) (<[ p := s + x ]> (sizes h))).

(** A node that is linked to itself. *)
Definition new_node (p col : nat) (name : Z) (h : Heap) : Heap :=
  mkHeap (<[ p := p ]> (lefts h)) (<[ p := p ]> (rights h)) (<[ p := p ]> (ups h)) (<[ p := p ]> (downs h))
    (<[ p := col ]> (cols h)) (<[ p := name ]> (names h)) (<[ p := 0 ]> (sizes h)).

Definition put_left (old nnew : nat) (h : Heap) : partial Heap :=
  l ← read lefts old h; h ← set_left nnew l h;
  h ← set_right nnew old h;
  l ← read lefts old h; h ← set_right l nnew h;
  set_left old nnew h.

Definition put_up (old nnew : nat) (h : Heap) : partial Heap :=
  u ← read ups old h; h ← set_up nnew u h;
  h ← set_down nnew old h;
  u ← read ups old h; h ← set_down u nnew h;
  h ← set_up old nnew h;
  h ← add_size old 1 h;
  set_col nnew old h.

(** [for (Node* p = cur; p != stop; p = p->next) body(p);] *)
Fixpoint walk (fuel : nat) (next : Heap → gmap nat nat) (body : nat → Heap → partial Heap) (stop cur : nat) (h : Heap) : partial Heap :=
  match fuel with
  | O => None
  | S fuel =>
    if (cur =? stop)%nat then mret h
    else h ← body cur h; cur ← read next cur h; walk fuel next body stop cur h
  end.
(** A list has no more nodes than there are. *)
Definition walk_fuel : nat := S kMaxNodes.

(** Out of the list of its column, and back. *)
Definition hide (j : nat) (h : Heap) : partial Heap :=
  d ← read downs j h; u ← read ups j h; h ← set_up d u h;
  u ← read ups j h; d ← read downs j h; h ← set_down u d h;
  c ← read cols j h; add_size c (-1) h.
Definition unhide (j : nat) (h : Heap) : partial Heap :=
  c ← read cols j h; h ← add_size c 1 h;
  d ← read downs j h; h ← set_up d j h;
  u ← read ups j h; set_down u j h.

(** The other nodes of a row. *)
Definition hide_row (row : nat) (h : Heap) : partial Heap :=
  j ← read rights row h; walk walk_fuel rights hide row j h.
Definition unhide_row (row : nat) (h : Heap) : partial Heap :=
  j ← read lefts row h; walk walk_fuel lefts unhide row j h.

Definition cover (c : nat) (h : Heap) : partial Heap :=
  r ← read rights c h; l ← read lefts c h; h ← set_left r l h;
  l ← read lefts c h; r ← read rights c h; h ← set_right l r h;
  row ← read downs c h; walk walk_fuel downs hide_row c row h.

Definition uncover (c : nat) (h : Heap) : partial Heap :=
  row ← read ups c h; h ← walk walk_fuel ups unhide_row c row h;
  r ← read rights c h; h ← set_left r c h;
  l ← read lefts c h; set_right l c h.

Definition cover_col (j : nat) (h : Heap) : partial Heap := c ← read cols j h; cover c h.
Definition uncover_col (j : nat) (h : Heap) : partial Heap := c ← read cols j h; uncover c h.

(** ** The solver *)

Record SudokuSolver := mkSolver {
  root_ : nat;
  inout_ : list Z;
  columns_ : gmap Z nat;
  stack_ : list nat;
  nodes_ : Heap;
  cur_node_ : nat
}.

Definition with_nodes (h : Heap) (s : SudokuSolver) : SudokuSolver :=
  mkSolver (root_ s) (inout_ s) (columns_ s) (stack_ s) h (cur_node_ s).
Definition with_stack (l : list nat) (s : SudokuSolver) : SudokuSolver :=
  mkSolver (root_ s) (inout_ s) (columns_ s) l (nodes_ s) (cur_node_ s).
Definition with_inout (b : list Z) (s : SudokuSolver) : SudokuSolver :=
  mkSolver (root_ s) b (columns_ s) (stack_ s) (nodes_ s) (cur_node_ s).

(** A change of the nodes. *)
Definition on_nodes (f : Heap → partial Heap) (s : SudokuSolver) : partial SudokuSolver :=
  h ← f (nodes_ s); mret (with_nodes h s).

Definition new_column (n : Z) (s : SudokuSolver) : partial (nat * SudokuSolver) :=
  _ ← assertp 146 (bool_decide (cur_node_ s < kMaxNodes)%nat);
  let c := cur_node_ s in
  mret (c, mkSolver (root_ s) (inout_ s) (columns_ s) (stack_ s) (new_node c c n (nodes_ s)) (S c)).

(** [columns_[n]], an array of 400 pointers that are null at first. *)
Definition kColumns : Z := 400.
Definition column_at (n : Z) (s : SudokuSolver) : partial (option nat) :=
  if (0 <=? n) && (n <? kColumns) then mret (columns_ s !! n) else fail OutOfRange.

Definition append_column (n : Z) (s : SudokuSolver) : partial SudokuSolver :=
  old ← column_at n s;
  _ ← assertp 160 (bool_decide (old = None));
  '(c, s) ← new_column n s;
  s ← on_nodes (put_left (root_ s) c) s;
  mret (mkSolver (root_ s) (inout_ s) (<[ n := c ]> (columns_ s)) (stack_ s) (nodes_ s) (cur_node_ s)).

Definition new_row (col : Z) (s : SudokuSolver) : partial (nat * SudokuSolver) :=
  c ← column_at col s;
  match c with
  | None => fail (AssertFailure 169)
  | Some c =>
    _ ← assertp 170 (bool_decide (cur_node_ s < kMaxNodes)%nat);
    let r := cur_node_ s in
    let s := mkSolver (root_ s) (inout_ s) (columns_ s) (stack_ s) (new_node r c col (nodes_ s)) (S r) in
    s ← on_nodes (put_up c r) s;
    mret (r, s)
  end.

Definition get_row_col (row val : Z) : Z := kRow + row*10 + val.
Definition get_col_col (col val : Z) : Z := kCol + col*10 + val.
Definition get_box_col (box val : Z) : Z := kBox + box*10 + val.

Definition row_of (i : Z) : Z := i / 9.
Definition col_of (i : Z) : Z := i mod 9.
Definition box_of (i : Z) : Z := row_of i / 3 * 3 + col_of i / 3.

(** The loop over the columns that are left. *)
Fixpoint min_loop (fuel : nat) (root c cc : nat) (min_size : Z) (h : Heap) : partial nat :=
  match fuel with
  | O => None
  | S fuel =>
    if (cc =? root)%nat then mret c
    else
      s ← read sizes cc h;
      if s <? min_size then
        if s <=? 1 then mret cc else nxt ← read rights cc h; min_loop fuel root cc nxt s h
      else nxt ← read rights cc h; min_loop fuel root c nxt min_size h
  end.
Definition get_min_column (root : nat) (h : Heap) : partial nat :=
  c ← read rights root h;
  min_size ← read sizes c h;
  if 1 <? min_size then nxt ← read rights c h; min_loop walk_fuel root c nxt min_size h else mret c.

(** The cell and the value of a row. *)
Fixpoint read_row (fuel : nat) (n : nat) (cell val : Z) (h : Heap) : partial (Z * Z) :=
  match fuel with
  | O => None
  | S fuel =>
    if (cell =? -1) || (val =? -1) then
      name ← read names n h;
      let '(cell, val) := if name <? 100 then (name, val) else (cell, Z.rem name 10) in
      n ← read rights n h;
      read_row fuel n cell val h
    else mret (cell, val)
  end.
Definition set_cell (cell val : Z) (board : list Z) : partial (list Z) :=
  if (0 <=? cell) && (cell <? size_of board) then mret (<[ Z.to_nat cell := val ]> board) else fail OutOfRange.
Definition write_row (n : nat) (s : SudokuSolver) : partial SudokuSolver :=
  '(cell, val) ← read_row walk_fuel n (-1) (-1) (nodes_ s);
  b ← set_cell cell val (inout_ s); mret (with_inout b s).
Definition write_solution (s : SudokuSolver) : partial SudokuSolver := foreach write_row (stack_ s) s.

(** The loop of [solve] over the rows of a column; [solve] is the recursive call. *)
Fixpoint try_rows (solve : SudokuSolver → partial (bool * SudokuSolver)) (fuel : nat) (col row : nat) (s : SudokuSolver) :
    partial (bool * SudokuSolver) :=
  match fuel with
  | O => None
  | S fuel =>
    if (row =? col)%nat then mret (false, s)
    else
      let s := with_stack (stack_ s ++ [row]) s in
      j ← read rights row (nodes_ s);
      s ← on_nodes (walk walk_fuel rights cover_col row j) s;
      '(solved, s) ← solve s;
      if solved : bool then mret (true, s)
      else
        let s := with_stack (removelast (stack_ s)) s in
        j ← read lefts row (nodes_ s);
        s ← on_nodes (walk walk_fuel lefts uncover_col row j) s;
        row ← read downs row (nodes_ s);
        try_rows solve fuel col row s
  end.

Fixpoint solve_fuel (fuel : nat) (s : SudokuSolver) : partial (bool * SudokuSolver) :=
  match fuel with
  | O => None
  | S fuel =>
    l ← read lefts (root_ s) (nodes_ s);
    if (l =? root_ s)%nat then s ← write_solution s; mret (true, s)
    else
      col ← get_min_column (root_ s) (nodes_ s);
      s ← on_nodes (cover col) s;
      row ← read downs col (nodes_ s);
      '(solved, s) ← try_rows (solve_fuel fuel) walk_fuel col row s;
      if solved : bool then mret (true, s)
      else s ← on_nodes (uncover col) s; mret (false, s)
  end.
(** A call for every column at most. *)
Definition solve (s : SudokuSolver) : partial (bool * SudokuSolver) := solve_fuel walk_fuel s.

(** ** The constructor *)

(** The arrays of flags: the indices of those that are set. *)
Abbreviation Flags := (gset (Z * Z)).
Definition set_flag (i val : Z) (f : Flags) : partial Flags :=
  if (0 <=? val) && (val <? 10) then mret ({[ (i, val) ]} ∪ f) else fail OutOfRange.
Definition set_flags (board : list Z) : partial (Flags * Flags * Flags) :=
  foreach (λ i '(rows, cols, boxes),
    let val := nth (Z.to_nat i) board 0 in
    rows ← set_flag (row_of i) val rows;
    cols ← set_flag (col_of i) val cols;
    boxes ← set_flag (box_of i) val boxes;
    mret (rows, cols, boxes)) (seqZ 0 kCells) (∅, ∅, ∅).

Definition append_unless (f : Flags) (i v n : Z) (s : SudokuSolver) : partial SudokuSolver :=
  if bool_decide ((i, v) ∈ f) then mret s else append_column n s.

Definition append_cells (s : SudokuSolver) : partial SudokuSolver :=
  foreach (λ i s, if nth (Z.to_nat i) (inout_ s) 0 =? 0 then append_column i s else mret s) (seqZ 0 kCells) s.
Definition append_units (rows cols boxes : Flags) (s : SudokuSolver) : partial SudokuSolver :=
  foreach (λ i, foreach (λ v s,
    s ← append_unless rows i v (get_row_col i v) s;
    s ← append_unless cols i v (get_col_col i v) s;
    append_unless boxes i v (get_box_col i v) s) (seqZ 1 9)) (seqZ 0 9) s.

(** A choice of a value for a cell: a row of four nodes. *)
Definition add_choice (i v : Z) (s : SudokuSolver) : partial SudokuSolver :=
  '(n0, s) ← new_row i s;
  '(nr, s) ← new_row (get_row_col (row_of i) v) s;
  '(nc, s) ← new_row (get_col_col (col_of i) v) s;
  '(nb, s) ← new_row (get_box_col (box_of i) v) s;
  s ← on_nodes (put_left n0 nr) s;
  s ← on_nodes (put_left n0 nc) s;
  on_nodes (put_left n0 nb) s.
Definition add_choices (rows cols boxes : Flags) (s : SudokuSolver) : partial SudokuSolver :=
  foreach (λ i s,
    if nth (Z.to_nat i) (inout_ s) 0 =? 0 then
      foreach (λ v s,
        if bool_decide ((row_of i, v) ∈ rows) || bool_decide ((col_of i, v) ∈ cols) || bool_decide ((box_of i, v) ∈ boxes)
        then mret s else add_choice i v s) (seqZ 1 9) s
    else mret s) (seqZ 0 kCells) s.

Definition Heap_empty : Heap := mkHeap ∅ ∅ ∅ ∅ ∅ ∅ ∅.

Definition SudokuSolver_new (board : list Z) : partial SudokuSolver :=
  '(root, s) ← new_column 0 (mkSolver 0 board ∅ [] Heap_empty 0);
  h ← set_right root root (nodes_ s); h ← set_left root root h;
  let s := mkSolver root board ∅ [] h (cur_node_ s) in
  '(rows, cols, boxes) ← set_flags board;
  s ← append_cells s;
  s ← append_units rows cols boxes s;
  add_choices rows cols boxes s.

(** ** solveSudoku *)

(** [puzzle[i] - '0'], with a [char] that is signed. *)
Definition cell_value (b : byte) : Z := i8 (Z_of_byte b) - 48.
Definition cell_text (v : Z) : byte := byte_of_Z (v + 48).

Definition solveSudoku (puzzle : list byte) : partial (list byte) :=
  _ ← assertp 265 (size_of puzzle =? kCells);
  let board := cell_value <$> puzzle in
  if forallb (λ v, (0 <=? v) && (v <=? 9)) board then
    s ← SudokuSolver_new board;
    '(solved, s) ← solve s;
    mret (if solved : bool then cell_text <$> inout_ s else kNoSolution)
  else mret kNoSolution.
