(* ===== verification/DancingLinks.v ===== *)
(** * Dancing links: covering a column and taking it back

    Rings of nodes as chains of links; [cover] takes a column and the rows that
    meet it out of the problem, and [uncover] restores the nodes exactly as they
    were. *)
From stdpp Require Import base numbers list gmap.
From S2P Require Import Prelude Sudoku.
Open Scope nat_scope.

Lemma walk_fuel_enough n : n ≤ kMaxNodes → n < walk_fuel.
Proof. unfold walk_fuel. lia. Qed.
Lemma kMaxNodes_value : Z.of_nat kMaxNodes = 3241%Z.
Proof. by vm_compute. Qed.
Lemma walk_fuel_five : ∃ k, walk_fuel = 5 + k.
Proof. exists (kMaxNodes - 4). assert (4 ≤ kMaxNodes) by (apply Nat.leb_le; by vm_compute). unfold walk_fuel. lia. Qed.
#[local] Opaque walk_fuel kMaxNodes.

(** ** Chains *)

Definition link (nxt prv : gmap nat nat) (x y : nat) : Prop := nxt !! x = Some y ∧ prv !! y = Some x.

(** From [x] over the nodes [l] to [y]; a ring is a chain that comes back. *)
Fixpoint chain (nxt prv : gmap nat nat) (x : nat) (l : list nat) (y : nat) : Prop :=
  match l with [] => link nxt prv x y | z :: l => link nxt prv x z ∧ chain nxt prv z l y end.

Definition first_of (l : list nat) (y : nat) : nat := hd y l.
Definition last_of (x : nat) (l : list nat) : nat := default x (last l).

Section Chains.
Implicit Types (nxt prv : gmap nat nat) (l : list nat).

Lemma chain_app nxt prv l1 z l2 y : ∀ x,
  chain nxt prv x (l1 ++ z :: l2) y ↔ chain nxt prv x l1 z ∧ chain nxt prv z l2 y.
Proof. induction l1 as [|w l1 IH]; intros x; cbn; [done|]. rewrite IH. tauto. Qed.

Lemma chain_frame nxt prv nxt' prv' l y : ∀ x,
  chain nxt prv x l y → (∀ u, u ∈ x :: l → nxt' !! u = nxt !! u) → (∀ u, u ∈ l ++ [y] → prv' !! u = prv !! u) →
  chain nxt' prv' x l y.
Proof.
  induction l as [|z l IH]; intros x Hc Hn Hp; cbn in *.
  - destruct Hc as [H1 H2]. split; [by rewrite Hn by left|by rewrite Hp by left].
  - destruct Hc as [[H1 H2] Hc]. split; [split; [by rewrite Hn by left|by rewrite Hp by left]|].
    apply IH; [done| |]; intros u Hu; [apply Hn|apply Hp]; by right.
Qed.

Lemma chain_rev nxt prv l y : ∀ x, chain nxt prv x l y → chain prv nxt y (reverse l) x.
Proof.
  induction l as [|z l IH]; intros x Hc; cbn in Hc.
  - destruct Hc. by split.
  - destruct Hc as [[H1 H2] Hc]. rewrite reverse_cons, chain_app. split; [by apply IH|done].
Qed.

Lemma chain_first nxt prv x l y : chain nxt prv x l y → link nxt prv x (first_of l y).
Proof. destruct l; cbn; [done|by intros []]. Qed.

Lemma last_of_cons x z l : last_of x (z :: l) = last_of z l.
Proof. unfold last_of. rewrite last_cons. by destruct (last l). Qed.

Lemma chain_last nxt prv l y : ∀ x, chain nxt prv x l y → link nxt prv (last_of x l) y.
Proof. induction l as [|z l IH]; intros x; [done|]. rewrite last_of_cons. intros [_ H]. by apply IH. Qed.

Lemma last_of_in x l : last_of x l ∈ x :: l.
Proof.
  unfold last_of. destruct (last l) as [z|] eqn:E; cbn; [|by left]. right. by apply last_Some_elem_of.
Qed.
Lemma first_of_in l y : first_of l y ∈ l ++ [y].
Proof. destruct l; by left. Qed.

(** A chain is turned to another end. *)
Lemma chain_retarget nxt prv nxt' prv' l y b : ∀ x,
  chain nxt prv x l y → NoDup (x :: l) →
  (∀ u, u ∈ x :: l → u ≠ last_of x l → nxt' !! u = nxt !! u) → (∀ u, u ∈ l → prv' !! u = prv !! u) →
  link nxt' prv' (last_of x l) b → chain nxt' prv' x l b.
Proof.
  induction l as [|z l IH]; intros x Hc Hd Hn Hp Hl; [done|]. cbn. rewrite last_of_cons in *. destruct Hc as [[H1 H2] Hc].
  apply NoDup_cons in Hd as [Hx Hd]. split.
  - split; [|by rewrite Hp by left]. rewrite Hn; [done|by left|]. intros ->. apply Hx, last_of_in.
  - apply IH; [done|done| | |done]; intros u Hu; [intros Hne; apply Hn; [by right|done]|apply Hp; by right].
Qed.

(** Taking a node out of a ring. *)
Lemma chain_remove nxt prv c v1 z v2 :
  NoDup (c :: v1 ++ z :: v2) → chain nxt prv c (v1 ++ z :: v2) c →
  let a := last_of c v1 in let b := first_of v2 c in
  link nxt prv a z ∧ link nxt prv z b ∧ z ≠ a ∧ z ≠ b ∧ chain (<[ a := b ]> nxt) (<[ b := a ]> prv) c (v1 ++ v2) c.
Proof.
  intros Hd Hc a b. apply chain_app in Hc as [Hc1 Hc2].
  assert (a ∈ c :: v1) as Ha by apply last_of_in. assert (b ∈ v2 ++ [c]) as Hb by apply first_of_in.
  assert (z ∉ c :: v1 ∧ z ∉ v2 ++ [c] ∧ NoDup (c :: v1) ∧ (∀ u, u ∈ c :: v1 → u ∉ v2) ∧ NoDup (v2 ++ [c])) as (Hz1 & Hz2 & Hd1 & Hdis & Hd2).
  { rewrite app_comm_cons in Hd. apply NoDup_app in Hd as (H1 & H2 & H3). apply NoDup_cons in H3 as [H3 H4].
    split_and!; [intros H; apply (H2 z H); by left| |done|intros u Hu H; apply (H2 u Hu); by right|].
    - rewrite elem_of_app, list_elem_of_singleton. intros [?| ->]; [done|]. apply (H2 c); by left.
    - apply NoDup_app. split_and!; [done| |apply NoDup_singleton]. intros u Hu ->%list_elem_of_singleton.
      apply (H2 c); [by left|by right]. }
  split_and!; [by apply chain_last|by apply chain_first|by intros ->|by intros ->|].
  assert (chain (<[ a := b ]> nxt) (<[ b := a ]> prv) c v1 b) as Hleft.
  { apply (chain_retarget nxt prv _ _ v1 z b c Hc1 Hd1).
    - intros u Hu Hne. by rewrite lookup_insert_ne.
    - intros u Hu. rewrite lookup_insert_ne; [done|]. intros <-. apply NoDup_cons in Hd1 as [Hc _].
      apply elem_of_app in Hb as [Hb|Hb]; [apply (Hdis b); [by right|done]|]. apply list_elem_of_singleton in Hb. congruence.
    - split; by rewrite lookup_insert_eq. }
  unfold b, first_of in *. destruct v2 as [|b' v2]; cbn [hd] in *; [by rewrite app_nil_r|].
  apply chain_app. split; [done|]. destruct Hc2 as [_ Hc2]. apply (chain_frame nxt prv); [done| |].
  - intros u Hu. rewrite lookup_insert_ne; [done|]. intros <-. by apply (Hdis a).
  - intros u Hu. rewrite lookup_insert_ne; [done|]. intros <-. cbn in Hd2. apply NoDup_cons in Hd2 as [? _]. done.
Qed.

(** A new node at the end of a ring. *)
Lemma chain_insert nxt prv c v z :
  NoDup (c :: v) → z ∉ c :: v → chain nxt prv c v c → let a := last_of c v in
  chain (<[ a := z ]> (<[ z := c ]> nxt)) (<[ c := z ]> (<[ z := a ]> prv)) c (v ++ [z]) c.
Proof.
  intros Hd Hz Hc a. assert (a ∈ c :: v) as Ha by apply last_of_in. assert (z ≠ a) as Hza by (by intros ->).
  assert (z ≠ c) as Hzc by (intros ->; apply Hz; by left). apply chain_app. split.
  - apply (chain_retarget nxt prv _ _ v c z c Hc Hd).
    + intros u Hu Hne. rewrite !lookup_insert_ne; [done| |done]. by intros <-.
    + intros u Hu. apply NoDup_cons in Hd as [Hd _]. rewrite !lookup_insert_ne; [done| |]; [intros <-|by intros <-].
      apply Hz. by right.
    + split; [by rewrite lookup_insert_eq|]. rewrite lookup_insert_ne, lookup_insert_eq by done. done.
  - split; [|by rewrite lookup_insert_eq]. by rewrite lookup_insert_ne, lookup_insert_eq by done.
Qed.

(** A ring can be entered anywhere. *)
Lemma chain_rotate nxt prv c p x q : chain nxt prv c (p ++ x :: q) c → chain nxt prv x (q ++ c :: p) x.
Proof. rewrite !chain_app. by intros []. Qed.
End Chains.

(** The next step of a program. *)
Ltac pstep := cbn [mbind partial_bind mret partial_ret lefts rights ups downs cols names sizes].

(** ** Walks that can be taken back *)

(** [fwd] at each node of a list, where [bwd] takes every step back; [I] holds
    all along. *)
Inductive steps (I : Heap → Prop) (fwd bwd : nat → Heap → partial Heap) : list nat → Heap → Heap → Prop :=
  | steps_nil h : I h → steps I fwd bwd [] h h
  | steps_cons x l h h1 h2 : I h → fwd x h = Some (Ok h1) → bwd x h1 = Some (Ok h) →
      steps I fwd bwd l h1 h2 → steps I fwd bwd (x :: l) h h2.

Lemma steps_start I fwd bwd l h h' : steps I fwd bwd l h h' → I h.
Proof. by intros []. Qed.

Lemma steps_app I fwd bwd l1 l2 h h1 h2 : steps I fwd bwd l1 h h1 → steps I fwd bwd l2 h1 h2 → steps I fwd bwd (l1 ++ l2) h h2.
Proof. induction 1; intros Hl2; [done|]. cbn. econstructor; eauto. Qed.

Lemma steps_rev I fwd bwd l h h' : steps I fwd bwd l h h' → steps I bwd fwd (reverse l) h' h.
Proof.
  induction 1 as [h Hh|x l h h1 h2 Hh Hf Hb Hs IH]; [by constructor|]. rewrite reverse_cons.
  apply (steps_app _ _ _ _ _ _ _ _ IH). econstructor; [exact (steps_start _ _ _ _ _ _ Hs)|done|done|by constructor].
Qed.

Lemma steps_mono (I J : Heap → Prop) fwd bwd l h h' : (∀ h, I h → J h) → steps I fwd bwd l h h' → steps J fwd bwd l h h'.
Proof. intros Hij. induction 1; econstructor; eauto. Qed.

Lemma read_at {A} (f : Heap → gmap nat A) p h x : f h !! p = Some x → read f p h = Some (Ok x).
Proof. unfold read. by intros ->. Qed.

Lemma walk_steps I fwd bwd (nxt prv : Heap → gmap nat nat) stop l0 :
  (∀ h, I h → chain (nxt h) (prv h) stop l0 stop) → stop ∉ l0 →
  ∀ l l1 h h' fuel, l0 = l1 ++ l → steps I fwd bwd l h h' → length l < fuel →
  walk fuel nxt fwd stop (first_of l stop) h = Some (Ok h').
Proof.
  intros Hchain Hstop l l1 h h' fuel E Hs. revert l1 fuel E.
  induction Hs as [h Hh|x l h h1 h2 Hh Hf Hb Hs IH]; intros l1 fuel E Hlen; (destruct fuel as [|fuel]; [cbn in Hlen; lia|]); cbn [walk first_of hd].
  - by rewrite Nat.eqb_refl.
  - rewrite (proj2 (Nat.eqb_neq x stop)) by (intros ->; apply Hstop; rewrite E; apply elem_of_app; right; by left).
    rewrite Hf. cbn [mbind partial_bind]. pose proof (Hchain _ (steps_start _ _ _ _ _ _ Hs)) as Hc. rewrite E in Hc.
    apply chain_app in Hc as [_ Hc]. rewrite (read_at nxt x h1 _ (proj1 (chain_first _ _ _ _ _ Hc))). cbn [mbind partial_bind].
    apply (IH (l1 ++ [x])); [by rewrite <- app_assoc|cbn in Hlen; lia].
Qed.

(** Around a ring and back. *)
Lemma walk_ring I fwd bwd (nxt prv : Heap → gmap nat nat) stop l h h' :
  (∀ h, I h → chain (nxt h) (prv h) stop l stop) → stop ∉ l → length l < walk_fuel → steps I fwd bwd l h h' →
  (p ← read nxt stop h; walk walk_fuel nxt fwd stop p h) = Some (Ok h') ∧
  (p ← read prv stop h'; walk walk_fuel prv bwd stop p h') = Some (Ok h).
Proof.
  intros Hchain Hstop Hlen Hs. pose proof (steps_rev _ _ _ _ _ _ Hs) as Hr.
  assert (∀ h, I h → chain (prv h) (nxt h) stop (reverse l) stop) as Hchain' by (intros; by apply chain_rev, Hchain).
  split.
  - rewrite (read_at nxt stop h _ (proj1 (chain_first _ _ _ _ _ (Hchain _ (steps_start _ _ _ _ _ _ Hs))))). cbn [mbind partial_bind].
    by apply (walk_steps I fwd bwd nxt prv stop l Hchain Hstop l []).
  - rewrite (read_at prv stop h' _ (proj1 (chain_first _ _ _ _ _ (Hchain' _ (steps_start _ _ _ _ _ _ Hr))))). cbn [mbind partial_bind].
    assert (stop ∉ reverse l) as Hstop' by (by rewrite elem_of_reverse).
    apply (walk_steps I bwd fwd prv nxt stop (reverse l) Hchain' Hstop' (reverse l) []); [done|done|by rewrite length_reverse].
Qed.

(** ** Columns and rows *)

Section Problem.
Context (colf : nat → nat).

(** The nodes of a column, without those that are hidden. *)
Definition live (c : nat) (N H : list nat) : list nat := filter (λ n, colf n = c ∧ n ∉ H) N.

Definition vert (h : Heap) (L N H : list nat) : Prop :=
  ∀ c, c ∈ L → chain (downs h) (ups h) c (live c N H) c ∧ sizes h !! c = Some (Z.of_nat (length (live c N H))).

(** The fields that are never changed by [hide]. *)
Definition same_rows (h h' : Heap) : Prop :=
  lefts h' = lefts h ∧ rights h' = rights h ∧ cols h' = cols h ∧ names h' = names h.

Lemma live_elem c N H n : n ∈ live c N H ↔ (colf n = c ∧ n ∉ H) ∧ n ∈ N.
Proof. unfold live. by rewrite list_elem_of_filter. Qed.

Lemma live_nodup c L N H : NoDup (L ++ N) → c ∈ L → NoDup (c :: live c N H).
Proof.
  intros Hd Hc. apply NoDup_app in Hd as (_ & Hdis & Hn). apply NoDup_cons. split; [|by apply NoDup_filter].
  rewrite live_elem. intros [_ ?]. by apply (Hdis c).
Qed.

(** Hiding one node takes it out of its column only. *)
Lemma live_hide c N H j : j ∈ N → NoDup N → j ∉ H → colf j = c →
  ∃ v1 v2, live c N H = v1 ++ j :: v2 ∧ live c N (j :: H) = v1 ++ v2.
Proof.
  intros Hj Hd Hh Hc. apply list_elem_of_split in Hj as (n1 & n2 & ->). exists (live c n1 H), (live c n2 H).
  apply NoDup_app in Hd as (_ & Hd1 & Hd2). apply NoDup_cons in Hd2 as [Hd2 _]. unfold live. rewrite !filter_app, !filter_cons.
  rewrite decide_True by done. split; [done|]. rewrite decide_False by (intros [_ Hn]; apply Hn; by left).
  assert (∀ l : list nat, j ∉ l → filter (λ n, colf n = c ∧ n ∉ j :: H) l = filter (λ n, colf n = c ∧ n ∉ H) l) as Hsame.
  { intros l Hl. apply filter_ext_in. intros n Hn. rewrite not_elem_of_cons. split; [naive_solver|].
    intros [? ?]. split_and!; try done. by intros ->. }
  f_equal; apply Hsame; [|done]. intros Hin. apply (Hd1 j Hin). by left.
Qed.

Lemma live_hide_other c N H j : colf j ≠ c → live c N (j :: H) = live c N H.
Proof.
  intros Hc. unfold live. apply list_filter_iff. intros n. rewrite not_elem_of_cons. split; [naive_solver|].
  intros [? ?]. split_and!; try done. by intros ->.
Qed.

(** [hide] takes a node out of its column, and [unhide] puts it back. *)
Lemma hide_spec h L N H j :
  vert h L N H → NoDup (L ++ N) → j ∈ N → j ∉ H → colf j ∈ L → cols h !! j = Some (colf j) →
  ∃ h', hide j h = Some (Ok h') ∧ unhide j h' = Some (Ok h) ∧ vert h' L N (j :: H) ∧ same_rows h h'.
Proof.
  intros Hv Hd Hj Hh Hc Hcol. set (c := colf j) in *. destruct (Hv c Hc) as [Hch Hsz].
  assert (NoDup N) as HdN by (by apply NoDup_app in Hd as (_ & _ & ?)).
  destruct (live_hide c N H j Hj HdN Hh eq_refl) as (v1 & v2 & E1 & E2).
  pose proof (live_nodup c L N H Hd Hc) as Hdc. rewrite E1 in Hch, Hdc, Hsz.
  destruct (chain_remove _ _ _ _ _ _ Hdc Hch) as ([A1 A2] & [B1 B2] & Hja & Hjb & Hnew).
  set (a := last_of c v1) in *. set (b := first_of v2 c) in *.
  set (n := Z.of_nat (length (v1 ++ j :: v2))) in *.
  set (h' := mkHeap (lefts h) (rights h) (<[ b := a ]> (ups h)) (<[ a := b ]> (downs h)) (cols h) (names h) (<[ c := (n + -1)%Z ]> (sizes h))).
  assert (∀ x, x ∈ c :: v1 ++ v2 → ∀ c', c' ∈ L → c' ≠ c → x ∉ c' :: live c' N H) as Hother.
  { intros x Hx c' Hc' Hne. assert (x = c ∨ (x ∈ N ∧ colf x = c)) as Hx'.
    { apply elem_of_cons in Hx as [->|Hx]; [by left|]. right. rewrite <- E2 in Hx. apply live_elem in Hx. tauto. }
    rewrite not_elem_of_cons, live_elem. apply NoDup_app in Hd as (_ & Hdis & _). destruct Hx' as [->|[HxN Hxc]].
    - split; [done|]. intros [_ ?]. by apply (Hdis c).
    - split; [intros ->; by apply (Hdis c')|]. intros [[? _] _]. congruence. }
  assert (a ∈ c :: v1 ++ v2) as Ha.
  { assert (a ∈ c :: v1) as Hin by apply last_of_in. rewrite elem_of_cons in Hin |- *. rewrite elem_of_app. tauto. }
  assert (b ∈ c :: v1 ++ v2) as Hb.
  { assert (b ∈ v2 ++ [c]) as Hin by apply first_of_in.
    rewrite elem_of_app, list_elem_of_singleton in Hin. rewrite elem_of_cons, elem_of_app. tauto. }
  exists h'. split_and!.
  - unfold hide, set_up, set_down, add_size, read. rewrite B1. pstep. rewrite A2.
    pstep. rewrite B2. pstep.
    rewrite lookup_insert_ne, A2 by done. pstep. rewrite B1.
    pstep. rewrite A1. pstep. rewrite Hcol.
    pstep. rewrite Hsz. done.
  - unfold unhide, set_up, set_down, add_size, read. subst h'. pstep. rewrite Hcol.
    pstep. rewrite lookup_insert_eq. pstep.
    rewrite lookup_insert_ne, B1 by done. pstep.
    rewrite lookup_insert_eq. pstep.
    rewrite insert_insert_eq. rewrite (insert_id (ups h)) by done. rewrite A2. pstep.
    rewrite lookup_insert_eq. pstep. rewrite !insert_insert_eq, (insert_id (downs h)) by done.
    rewrite (insert_id (sizes h)) by (rewrite Hsz; f_equal; lia). by destruct h.
  - intros c' Hc'. destruct (decide (c' = c)) as [->|Hne].
    + rewrite E2. split; [exact Hnew|]. cbn. rewrite lookup_insert_eq. unfold n. f_equal. rewrite !length_app. cbn [length]. lia.
    + rewrite (live_hide_other c' N H j) by (by intros <-). destruct (Hv c' Hc') as [Hch' Hsz']. split.
      * apply (chain_frame (downs h) (ups h)); [done| |].
        -- intros u Hu. cbn. rewrite lookup_insert_ne; [done|]. intros <-. by apply (Hother a Ha c').
        -- intros u Hu. cbn. rewrite lookup_insert_ne; [done|]. intros <-. apply (Hother b Hb c' Hc' Hne).
           apply elem_of_app in Hu as [Hu|Hu%list_elem_of_singleton]; [by right|rewrite Hu; by left].
      * cbn. by rewrite lookup_insert_ne.
  - done.
Qed.

Lemma vert_ext h L N H H' : (∀ n, n ∈ N → n ∈ H ↔ n ∈ H') → vert h L N H → vert h L N H'.
Proof.
  intros HH Hv c Hc. assert (live c N H' = live c N H) as ->; [|by apply Hv].
  apply filter_ext_in. intros n Hn. by rewrite (HH n Hn).
Qed.

Lemma same_rows_trans h1 h2 h3 : same_rows h1 h2 → same_rows h2 h3 → same_rows h1 h3.
Proof. intros (?&?&?&?) (?&?&?&?). split_and!; congruence. Qed.

Section Rows.
Context (L N : list nat) (Hdist : NoDup (L ++ N)) (h0 : Heap) (c : nat) (Hc : c ∈ L).

(** A row that meets the column [c] in [n], with the other nodes. *)
Record row_ok (n : nat) (ms : list nat) : Prop := {
  row_ring : chain (rights h0) (lefts h0) n ms n;
  row_out : n ∉ ms;
  row_short : length ms < walk_fuel;
  row_mates m : m ∈ ms → m ∈ N ∧ colf m ∈ L ∧ colf m ≠ c ∧ cols h0 !! m = Some (colf m)
}.

Lemma hide_mates ms : ∀ h H,
  vert h L N H → same_rows h0 h → NoDup ms →
  (∀ m, m ∈ ms → m ∉ H ∧ m ∈ N ∧ colf m ∈ L ∧ cols h0 !! m = Some (colf m)) →
  ∃ h', steps (same_rows h0) hide unhide ms h h' ∧ vert h' L N (ms ++ H) ∧ same_rows h0 h'.
Proof.
  induction ms as [|m ms IH]; intros h H Hv Hs Hd Hm.
  { exists h. split_and!; [by constructor|done|done]. }
  apply NoDup_cons in Hd as [Hnot Hd]. destruct (Hm m ltac:(by left)) as (H1 & H2 & H3 & H4).
  assert (cols h !! m = Some (colf m)) as H4' by (destruct Hs as (_ & _ & -> & _); done).
  destruct (hide_spec h L N H m Hv Hdist H2 H1 H3 H4') as (h1 & Hf & Hb & Hv1 & Hs1).
  pose proof (same_rows_trans _ _ _ Hs Hs1) as Hs1'. destruct (IH h1 (m :: H) Hv1 Hs1' Hd) as (h2 & Hst & Hv2 & Hs2).
  { intros m' Hm'. destruct (Hm m' ltac:(by right)) as (K1 & K2 & K3 & K4). split_and!; try done.
    rewrite not_elem_of_cons. split; [by intros ->|done]. }
  exists h2. split_and!; [by econstructor| |done]. eapply vert_ext; [|exact Hv2].
  intros n _. rewrite !elem_of_app, !elem_of_cons. tauto.
Qed.

Lemma hide_row_spec n ms h H :
  row_ok n ms → vert h L N H → same_rows h0 h → NoDup ms → (∀ m, m ∈ ms → m ∉ H) →
  ∃ h', hide_row n h = Some (Ok h') ∧ unhide_row n h' = Some (Ok h) ∧ vert h' L N (ms ++ H) ∧ same_rows h0 h'.
Proof.
  intros [Hring Hout Hshort Hm] Hv Hs Hd Hh. destruct (hide_mates ms h H Hv Hs Hd) as (h' & Hst & Hv' & Hs').
  { intros m Hin. destruct (Hm m Hin) as (? & ? & ? & ?). split_and!; try done. by apply Hh. }
  exists h'. destruct (walk_ring (same_rows h0) hide unhide rights lefts n ms h h') as [Hf Hb]; [|done|done|done|by split_and!].
  intros h1 (-> & -> & _). done.
Qed.

(** All rows that meet the column. *)
Lemma hide_rows_spec rows : ∀ h H,
  (∀ n ms, (n, ms) ∈ rows → row_ok n ms) → vert h L N H → same_rows h0 h → (∀ m, m ∈ H → colf m ≠ c) →
  NoDup (concat (snd <$> rows)) → (∀ m, m ∈ concat (snd <$> rows) → m ∉ H) →
  ∃ h', steps (λ h, chain (downs h) (ups h) c (live c N []) c) hide_row unhide_row (fst <$> rows) h h' ∧
    vert h' L N (concat (snd <$> rows) ++ H) ∧ same_rows h0 h'.
Proof.
  induction rows as [|[n ms] rows IH]; intros h H Hrows Hv Hs HH Hd Hdis;
    (assert (chain (downs h) (ups h) c (live c N []) c) as Hch;
     [assert (live c N [] = live c N H) as ->; [|by apply Hv]; apply filter_ext_in; intros m _;
      split; [intros [E _]; split; [done|]; intros Hin; by apply (HH m)|intros [E _]; split; [done|apply not_elem_of_nil]]|]).
  { exists h. split_and!; [by constructor|done|done]. }
  cbn [fmap list_fmap concat snd fst] in *. apply NoDup_app in Hd as (Hd1 & Hd12 & Hd2).
  pose proof (Hrows n ms ltac:(by left)) as Hrow.
  destruct (hide_row_spec n ms h H Hrow Hv Hs Hd1) as (h1 & Hf & Hb & Hv1 & Hs1).
  { intros m Hm. apply Hdis, elem_of_app. by left. }
  destruct (IH h1 (ms ++ H)) as (h2 & Hst & Hv2 & Hs2); [|done|done| |done| |].
  { intros n' ms' Hin. apply Hrows. by right. }
  { intros m [Hm|Hm]%elem_of_app; [by apply (row_mates _ _ Hrow)|by apply HH]. }
  { intros m Hm. rewrite not_elem_of_app. split; [intros Hin; by apply (Hd12 m)|]. apply Hdis, elem_of_app. by right. }
  exists h2. split_and!; [by apply (steps_cons _ _ _ _ _ h h1)| |done]. eapply vert_ext; [|exact Hv2].
  intros m _. rewrite !elem_of_app. tauto.
Qed.
End Rows.
End Problem.
