(* ===== verification/ExactCover.v ===== *)
(** * Dancing links: the search finds an exact cover if there is one

    A problem has columns and options, and an option is a ring of nodes in
    different columns.  What the solver has not covered is again a problem; the
    search of [solve] is correct for it, returns, and restores all nodes when
    there is no solution. *)
From stdpp Require Import base numbers list gmap.
From S2P Require Import Prelude Sudoku DancingLinks.
Open Scope nat_scope.
#[local] Opaque walk_fuel kMaxNodes.

(** ** Options that share no node *)

Lemma option_unique {A} (O : list (list A)) o1 o2 n : NoDup (concat O) → o1 ∈ O → o2 ∈ O → n ∈ o1 → n ∈ o2 → o1 = o2.
Proof.
  induction O as [|o O IH]; intros Hd H1 H2 Hn1 Hn2; [by apply not_elem_of_nil in H1|]. cbn in Hd.
  apply NoDup_app in Hd as (_ & Hdis & Hd). apply elem_of_cons in H1 as [->|H1], H2 as [->|H2]; [done| | |by apply IH]; exfalso.
  - apply (Hdis n Hn1). apply elem_of_concat. eauto.
  - apply (Hdis n Hn2). apply elem_of_concat. eauto.
Qed.

Lemma option_nodup {A} (O : list (list A)) o : NoDup (concat O) → o ∈ O → NoDup o.
Proof.
  induction O as [|o' O IH]; intros Hd Ho; [by apply not_elem_of_nil in Ho|]. cbn in Hd. apply NoDup_app in Hd as (H1 & _ & H2).
  apply elem_of_cons in Ho as [->|Ho]; [done|by apply IH].
Qed.

Lemma sublist_concat_filter {A} (P : list A → Prop) `{!∀ x, Decision (P x)} (O : list (list A)) :
  concat (filter P O) `sublist_of` concat O.
Proof.
  induction O as [|o O IH]; [done|]. rewrite filter_cons. cbn. case_decide; cbn; [by apply sublist_app|by apply sublist_inserts_l].
Qed.

Section Cover.
Context (root : nat) (headers : list nat) (options : list (list nat)) (colf : nat → nat) (namef : nat → Z).

Record problem_ok : Prop := {
  prob_nodup : NoDup (root :: headers ++ concat options);
  prob_size : length (root :: headers ++ concat options) ≤ kMaxNodes;
  prob_cols o n : o ∈ options → n ∈ o → colf n ∈ headers;
  prob_distinct o : o ∈ options → NoDup (colf <$> o)
}.
Context (Hprob : problem_ok).

(** The columns [L] and the options [O] are left. *)
Record represents (h : Heap) (L : list nat) (O : list (list nat)) : Prop := {
  rep_head : chain (rights h) (lefts h) root L root;
  rep_vert : vert colf h L (concat O) [];
  rep_ring o p x q : o ∈ options → o = p ++ x :: q → chain (rights h) (lefts h) x (q ++ p) x;
  rep_cols n : n ∈ concat options → cols h !! n = Some (colf n);
  rep_names n : n ∈ concat options → names h !! n = Some (namef n);
  rep_columns c : c ∈ L → c ∈ headers;
  rep_options o : o ∈ O → o ∈ options;
  rep_nodup : NoDup (L ++ concat O);
  rep_closed o n : o ∈ O → n ∈ o → colf n ∈ L
}.

(** ** The rows of a column *)

Fixpoint split_at (c : nat) (p o : list nat) : option (nat * list nat) :=
  match o with
  | [] => None
  | n :: q => if decide (colf n = c) then Some (n, q ++ p) else split_at c (p ++ [n]) q
  end.
(** The node in [c] and the other ones, of every option that has one. *)
Definition rows_of (c : nat) (O : list (list nat)) : list (nat * list nat) := omap (split_at c []) O.

Lemma split_at_Some c o : ∀ p n ms, split_at c p o = Some (n, ms) →
  ∃ p' q, o = p' ++ n :: q ∧ ms = q ++ p ++ p' ∧ colf n = c.
Proof.
  induction o as [|x o IH]; intros p n ms; cbn; [done|]. destruct (decide _) as [Hx|Hx].
  - intros E. injection E as -> <-. exists [], o. by rewrite app_nil_r.
  - intros (p' & q & -> & -> & Hn)%IH. exists (x :: p'), q. by rewrite <- app_assoc.
Qed.

Lemma split_at_None c o : ∀ p, split_at c p o = None ↔ c ∉ colf <$> o.
Proof.
  induction o as [|x o IH]; intros p; cbn; [split; [intros _; apply not_elem_of_nil|done]|].
  rewrite not_elem_of_cons. destruct (decide (colf x = c)); [split; [done|intros []; congruence]|]. rewrite IH. split; [|tauto].
  intros H. split; [congruence|done].
Qed.

Lemma rows_of_elem c O n ms : (n, ms) ∈ rows_of c O ↔ ∃ o, o ∈ O ∧ split_at c [] o = Some (n, ms).
Proof. unfold rows_of. rewrite list_elem_of_omap. naive_solver. Qed.

Lemma live_app c l1 l2 H : live colf c (l1 ++ l2) H = live colf c l1 H ++ live colf c l2 H.
Proof. apply filter_app. Qed.

Lemma live_none c l H : c ∉ colf <$> l → live colf c l H = [].
Proof.
  intros Hc. apply filter_none. intros n Hn [<- _]. apply Hc. by apply list_elem_of_fmap_2.
Qed.

(** They are the nodes of the column. *)
Lemma rows_nodes c O : (∀ o, o ∈ O → NoDup (colf <$> o)) → fst <$> rows_of c O = live colf c (concat O) [].
Proof.
  induction O as [|o O IH]; intros Hd; [done|]. unfold rows_of. cbn [omap list_omap concat]. rewrite live_app.
  rewrite <- IH by (intros; apply Hd; by right). destruct (split_at c [] o) as [[n ms]|] eqn:E.
  - cbn [fmap list_fmap fst]. change (omap (split_at c []) O) with (rows_of c O).
    apply split_at_Some in E as (p & q & -> & _ & Hn). pose proof (Hd _ ltac:(by left)) as Ho.
    rewrite fmap_app, fmap_cons, Hn in Ho. apply NoDup_app in Ho as (_ & H1 & H2). apply NoDup_cons in H2 as [H2 _].
    rewrite live_app. unfold live at 2. rewrite filter_cons, decide_True by (split; [done|apply not_elem_of_nil]).
    fold (live colf c q []). rewrite !live_none; [done|done|]. intros Hin. apply (H1 c Hin). by left.
  - apply split_at_None in E. by rewrite live_none.
Qed.

Definition others (c : nat) (L : list nat) : list nat := filter (λ x, x ≠ c) L.
Definition without (c : nat) (O : list (list nat)) : list (list nat) := filter (λ o, c ∉ colf <$> o) O.

Lemma without_elem c O o : o ∈ without c O ↔ c ∉ colf <$> o ∧ o ∈ O.
Proof. unfold without. by rewrite list_elem_of_filter. Qed.
Lemma others_elem c L x : x ∈ others c L ↔ x ≠ c ∧ x ∈ L.
Proof. unfold others. by rewrite list_elem_of_filter. Qed.

(** The nodes that covering [c] hides. *)
Definition hidden (c : nat) (O : list (list nat)) : list nat := concat (snd <$> rows_of c O).

Lemma hidden_elem c O m : (∀ o, o ∈ O → NoDup (colf <$> o)) →
  m ∈ hidden c O ↔ ∃ o, o ∈ O ∧ m ∈ o ∧ c ∈ colf <$> o ∧ colf m ≠ c.
Proof.
  intros Hd. unfold hidden. rewrite elem_of_concat. split.
  - intros (ms & Hm & Hin). apply list_elem_of_fmap in Hin as ([n ms'] & -> & Hin). cbn in Hm.
    apply rows_of_elem in Hin as (o & Ho & E). exists o. apply split_at_Some in E as (p & q & -> & -> & Hn). cbn in Hm.
    pose proof (Hd _ Ho) as Hnd. rewrite fmap_app, fmap_cons in Hnd. apply NoDup_app in Hnd as (_ & H1 & H2).
    apply NoDup_cons in H2 as [H2 _]. split_and!; [done| | |].
    + rewrite elem_of_app in Hm |- *. rewrite elem_of_cons. tauto.
    + rewrite <- Hn. apply list_elem_of_fmap_2, elem_of_app. right. by left.
    + intros Hmc. apply elem_of_app in Hm as [Hm|Hm].
      * apply H2. rewrite Hn, <- Hmc. by apply list_elem_of_fmap_2.
      * apply (H1 (colf m)); [by apply list_elem_of_fmap_2|]. rewrite Hmc, Hn. by left.
  - intros (o & Ho & Hm & Hc & Hne). destruct (split_at c [] o) as [[n ms]|] eqn:E; [|by apply split_at_None in E].
    exists ms. split; [|apply list_elem_of_fmap; exists (n, ms); split; [done|]; apply rows_of_elem; eauto].
    apply split_at_Some in E as (p & q & -> & -> & Hn). cbn. rewrite elem_of_app in Hm |- *. rewrite elem_of_cons in Hm.
    destruct Hm as [|[->|]]; [by right|done|by left].
Qed.

Lemma hidden_nodup c O : NoDup (concat O) → NoDup (hidden c O).
Proof.
  assert (∀ O m, m ∈ hidden c O → m ∈ concat O) as Hsub.
  { intros O' m. unfold hidden. rewrite !elem_of_concat. intros (ms & Hm & Hin).
    apply list_elem_of_fmap in Hin as ([n ms'] & -> & Hin). apply rows_of_elem in Hin as (o & Ho & E).
    exists o. split; [|done]. apply split_at_Some in E as (p & q & -> & -> & _). cbn in Hm.
    rewrite elem_of_app in Hm |- *. rewrite elem_of_cons. tauto. }
  induction O as [|o O IH]; intros Hd; [apply NoDup_nil_2|]. cbn in Hd. apply NoDup_app in Hd as (Ho & Hdis & Hd).
  unfold hidden, rows_of. cbn [omap list_omap]. destruct (split_at c [] o) as [[n ms]|] eqn:E; [|by apply IH].
  cbn [fmap list_fmap concat snd]. change (concat (snd <$> omap (split_at c []) O)) with (hidden c O).
  apply split_at_Some in E as (p & q & -> & -> & _). cbn [app]. apply NoDup_app. split_and!; [| |by apply IH].
  - apply NoDup_app in Ho as (H1 & H2 & H3). apply NoDup_cons in H3 as [_ H3]. apply NoDup_app. split_and!; [done| |done].
    intros x Hq Hp. apply (H2 x Hp). by right.
  - intros m Hm Hin. apply (Hdis m); [|by apply Hsub]. rewrite elem_of_app in Hm |- *. rewrite elem_of_cons. tauto.
Qed.

(** The other columns lose the rows that meet [c]. *)
Lemma live_without c c' O : c' ≠ c → (∀ o, o ∈ O → NoDup (colf <$> o)) → NoDup (concat O) →
  live colf c' (concat O) (hidden c O) = live colf c' (concat (without c O)) [].
Proof.
  intros Hne Hcd Hd. assert (∀ O1, (∀ o, o ∈ O1 → o ∈ O) →
    live colf c' (concat O1) (hidden c O) = live colf c' (concat (without c O1)) []) as Hall; [|by apply Hall].
  induction O1 as [|o O1 IH]; intros Hsub; [done|]. unfold without. rewrite filter_cons. fold (without c O1).
  cbn [concat]. rewrite live_app, IH by (intros; apply Hsub; by right). pose proof (Hsub o ltac:(by left)) as Ho.
  destruct (decide (c ∉ colf <$> o)) as [Hc|Hc].
  - cbn [concat]. rewrite live_app. f_equal. apply filter_ext_in. intros n Hn. split; intros [E _]; (split; [done|]); [apply not_elem_of_nil|].
    rewrite hidden_elem by done. intros (o2 & Ho2 & Hn2 & Hc2 & _). apply Hc. by rewrite (option_unique O o o2 n).
  - assert (live colf c' o (hidden c O) = []) as ->; [|done]. apply filter_none. intros n Hn [E Hh]. apply Hh.
    apply hidden_elem; [done|]. exists o. split_and!; [done|done|by apply dec_stable|congruence].
Qed.

Lemma short_list l : NoDup l → (∀ x, x ∈ l → x ∈ root :: headers ++ concat options) → length l < walk_fuel.
Proof.
  intros Hd Hsub. apply walk_fuel_enough. etransitivity; [|apply Hprob]. apply submseteq_length, NoDup_submseteq; done.
Qed.

Lemma rep_in_problem h L O x : represents h L O → x ∈ L ++ concat O → x ∈ headers ++ concat options.
Proof.
  intros Hr. rewrite !elem_of_app. intros [Hx|Hx]; [left; by apply (rep_columns _ _ _ Hr)|right].
  rewrite elem_of_concat in Hx |- *. destruct Hx as (o & ? & Ho). exists o. split; [done|]. by apply (rep_options _ _ _ Hr).
Qed.

(** The heap without [c] in the list of columns. *)
Definition unlinked (a b : nat) (h : Heap) : Heap :=
  mkHeap (<[ b := a ]> (lefts h)) (<[ a := b ]> (rights h)) (ups h) (downs h) (cols h) (names h) (sizes h).

Lemma unlinked_ring h L O a b o p x q :
  represents h L O → a ∈ root :: L → b ∈ root :: L → o ∈ options → o = p ++ x :: q →
  chain (rights (unlinked a b h)) (lefts (unlinked a b h)) x (q ++ p) x.
Proof.
  intros Hr Ha Hb Ho E. apply (chain_frame (rights h) (lefts h)); [by apply (rep_ring _ _ _ Hr o)| |];
    intros u Hu; cbn; (rewrite lookup_insert_ne; [done|]); intros <-.
  all: assert (∀ y, y ∈ root :: L → y ∉ concat options) as Hdis;
    [intros y Hy Hin; pose proof (prob_nodup Hprob) as Hd; rewrite app_comm_cons in Hd; apply NoDup_app in Hd as (_ & Hd & _);
     apply (Hd y); [|done]; apply elem_of_cons in Hy as [->|Hy]; [by left|right; by apply (rep_columns _ _ _ Hr)]|].
  - apply (Hdis a Ha). apply elem_of_concat. exists o. split; [|done]. rewrite E. rewrite elem_of_cons, elem_of_app in Hu.
    rewrite elem_of_app, elem_of_cons. tauto.
  - apply (Hdis b Hb). apply elem_of_concat. exists o. split; [|done]. rewrite E. rewrite !elem_of_app, list_elem_of_singleton in Hu.
    rewrite elem_of_app, elem_of_cons. tauto.
Qed.

(** The rows of [c] are rings. *)
Lemma rep_rows h h1 L O c n ms :
  represents h L O → c ∈ L → cols h1 = cols h →
  (∀ o p x q, o ∈ options → o = p ++ x :: q → chain (rights h1) (lefts h1) x (q ++ p) x) →
  (n, ms) ∈ rows_of c O → row_ok colf L (concat O) h1 c n ms.
Proof.
  intros Hr Hc Hcols Hring Hin. pose proof Hin as Hin'. apply rows_of_elem in Hin as (o & Ho & E).
  pose proof (rep_options _ _ _ Hr o Ho) as Hopt. apply split_at_Some in E as (p & q & Eo & -> & Hn). cbn [app] in *.
  assert (NoDup (n :: q ++ p)) as Hd.
  { pose proof (rep_nodup _ _ _ Hr) as Hd. apply NoDup_app in Hd as (_ & _ & Hd). apply (option_nodup _ o) in Hd; [|done].
    rewrite Eo in Hd. by rewrite (Permutation_app_comm q p), Permutation_middle. }
  apply NoDup_cons in Hd as [Hout Hd]. assert (∀ m, m ∈ q ++ p → m ∈ o) as Hmo.
  { intros m. rewrite Eo, !elem_of_app, elem_of_cons. tauto. }
  assert (∀ m, m ∈ q ++ p → m ∈ concat O) as HmO by (intros m Hm; apply elem_of_concat; eauto).
  split; [by apply (Hring o)|done| |].
  - apply short_list; [done|]. intros x Hx. right. apply (rep_in_problem h L O); [done|]. apply elem_of_app. right. by apply HmO.
  - intros m Hm. split_and!; [by apply HmO|by apply (rep_closed _ _ _ Hr o), Hmo| |].
    + assert (m ∈ hidden c O) as Hh; [apply elem_of_concat; exists (q ++ p); split; [done|]; apply list_elem_of_fmap; by exists (n, q ++ p)|].
      apply hidden_elem in Hh as (_ & _ & _ & _ & ?); [done|]. intros o' Ho'. by apply (prob_distinct Hprob), (rep_options _ _ _ Hr).
    + rewrite Hcols. apply (rep_cols _ _ _ Hr). apply elem_of_concat. exists o. split; [by apply Hmo|done].
Qed.

(** Covering a column, and that uncovering it restores everything. *)
Lemma cover_spec h L O c :
  represents h L O → c ∈ L →
  ∃ h', cover c h = Some (Ok h') ∧ uncover c h' = Some (Ok h) ∧ represents h' (others c L) (without c O) ∧
    chain (downs h') (ups h') c (live colf c (concat O) []) c.
Proof.
  intros Hr Hc. pose proof (rep_nodup _ _ _ Hr) as Hd. pose proof Hd as Hd'. apply NoDup_app in Hd' as (HdL & Hdis & HdO).
  assert (∀ o, o ∈ O → NoDup (colf <$> o)) as Hcd by (intros o Ho; by apply (prob_distinct Hprob), (rep_options _ _ _ Hr)).
  pose proof Hc as Hin. apply list_elem_of_split in Hin as (l1 & l2 & EL).
  assert (NoDup (root :: L)) as HdR.
  { apply NoDup_cons. split; [|done]. intros Hin. pose proof (prob_nodup Hprob) as Hp. apply NoDup_cons in Hp as [Hp _].
    apply Hp, elem_of_app. left. by apply (rep_columns _ _ _ Hr). }
  assert (others c L = l1 ++ l2) as EL'.
  { unfold others. rewrite EL in HdL |- *. apply NoDup_app in HdL as (_ & H1 & H2). apply NoDup_cons in H2 as [H2 _].
    rewrite filter_app, filter_cons, decide_False by tauto. rewrite !filter_id; [done| |]; intros x Hx ->; [done|].
    apply (H1 c Hx). by left. }
  pose proof (rep_head _ _ _ Hr) as Hhead. rewrite EL in HdR, Hhead.
  destruct (chain_remove _ _ _ _ _ _ HdR Hhead) as ([A1 A2] & [B1 B2] & Hca & Hcb & Hnew).
  set (a := last_of root l1) in *. set (b := first_of l2 root) in *. set (h1 := unlinked a b h).
  assert (a ∈ root :: L) as Ha.
  { assert (a ∈ root :: l1) as Hin by apply last_of_in. rewrite EL. rewrite elem_of_cons in Hin |- *. rewrite elem_of_app. tauto. }
  assert (b ∈ root :: L) as Hb.
  { assert (b ∈ l2 ++ [root]) as Hin by apply first_of_in. rewrite EL. rewrite elem_of_app, list_elem_of_singleton in Hin.
    rewrite elem_of_cons, elem_of_app, elem_of_cons. tauto. }
  pose proof (λ o p x q, unlinked_ring h L O a b o p x q Hr Ha Hb) as Hring. fold h1 in Hring.
  pose proof (λ n ms, rep_rows h h1 L O c n ms Hr Hc eq_refl Hring) as Hrows.
  destruct (hide_rows_spec colf L (concat O) Hd h1 c Hc (rows_of c O) h1 []) as (h' & Hst & Hv' & (El & Er & Ec & En));
    [done|exact (rep_vert _ _ _ Hr)|done|intros m Hm; by apply not_elem_of_nil in Hm|by apply hidden_nodup|intros; apply not_elem_of_nil|].
  rewrite rows_nodes in Hst by done. change (concat (snd <$> rows_of c O)) with (hidden c O) in Hv'. rewrite app_nil_r in Hv'.
  pose proof (live_nodup colf c L (concat O) [] Hd Hc) as Hlive. apply NoDup_cons in Hlive as [Hcl Hlive].
  destruct (walk_ring (λ h, chain (downs h) (ups h) c (live colf c (concat O) []) c) hide_row unhide_row downs ups c
    (live colf c (concat O) []) h1 h') as [Hf Hbk]; [done|done| |done|].
  { apply short_list; [done|]. intros x Hx. right. apply (rep_in_problem h L O); [done|]. apply live_elem in Hx. apply elem_of_app. tauto. }
  exists h'. split_and!.
  - unfold cover, set_left, set_right, read. rewrite B1. pstep. rewrite A2. pstep. rewrite B2. pstep.
    rewrite lookup_insert_ne, A2 by done. pstep. rewrite B1. pstep. rewrite A1. pstep. exact Hf.
  - unfold uncover. revert Hbk. destruct (read ups c h') as [[row|]|]; [|done..]. pstep. intros ->. pstep.
    unfold set_left, set_right, read, h1, unlinked. pstep. rewrite lookup_insert_ne, B1 by done. pstep. rewrite lookup_insert_eq. pstep.
    rewrite insert_insert_eq, (insert_id (lefts h)) by done. rewrite A2. pstep. rewrite lookup_insert_eq. pstep.
    rewrite insert_insert_eq, (insert_id (rights h)) by done. by destruct h.
  - rewrite EL'. split.
    + rewrite Er, El. exact Hnew.
    + intros c' Hc'. rewrite <- EL', others_elem in Hc'. destruct Hc' as [Hne Hc']. rewrite <- (live_without c c' O) by done. by apply Hv'.
    + rewrite Er, El. exact Hring.
    + rewrite Ec. exact (rep_cols _ _ _ Hr).
    + rewrite En. exact (rep_names _ _ _ Hr).
    + intros x. rewrite <- EL', others_elem. intros [_ ?]. by apply (rep_columns _ _ _ Hr).
    + intros o. rewrite without_elem. intros [_ ?]. by apply (rep_options _ _ _ Hr).
    + rewrite <- EL'. apply NoDup_app. split_and!; [by apply NoDup_filter| |].
      * intros x. rewrite others_elem. intros [_ Hx] Hin. apply (Hdis x Hx). eapply elem_of_sublist; [exact Hin|apply sublist_concat_filter].
      * eapply sublist_NoDup; [exact HdO|apply sublist_concat_filter].
    + intros o n. rewrite without_elem, <- EL', others_elem. intros [Hco Ho] Hn. split; [|by apply (rep_closed _ _ _ Hr o)].
      intros <-. apply Hco. by apply list_elem_of_fmap_2.
  - pose proof (steps_rev _ _ _ _ _ _ Hst) as Hst'. exact (steps_start _ _ _ _ _ _ Hst').
Qed.

(** ** Covering the columns of a row *)

Lemma cover_col_spec h L O m :
  represents h L O → m ∈ concat options → colf m ∈ L →
  ∃ h', cover_col m h = Some (Ok h') ∧ uncover_col m h' = Some (Ok h) ∧ represents h' (others (colf m) L) (without (colf m) O).
Proof.
  intros Hr Hm Hc. destruct (cover_spec h L O (colf m) Hr Hc) as (h' & Hf & Hb & Hr' & _). exists h'.
  unfold cover_col, uncover_col. rewrite (read_at cols m h _ (rep_cols _ _ _ Hr m Hm)), (read_at cols m h' _ (rep_cols _ _ _ Hr' m Hm)).
  by split_and!.
Qed.

Lemma cover_steps ms : ∀ h L O,
  represents h L O → (∀ m, m ∈ ms → m ∈ concat options ∧ colf m ∈ L) → NoDup (colf <$> ms) →
  ∃ h' L' O', steps (λ h, ∃ L O, represents h L O) cover_col uncover_col ms h h' ∧ represents h' L' O' ∧
    (∀ x, x ∈ L' ↔ x ∈ L ∧ x ∉ colf <$> ms) ∧ (∀ o, o ∈ O' ↔ o ∈ O ∧ ∀ m, m ∈ ms → colf m ∉ colf <$> o).
Proof.
  induction ms as [|m ms IH]; intros h L O Hr Hm Hd.
  { exists h, L, O. split_and!; [constructor; eauto|done| |].
    - intros x. split; [intros; split; [done|apply not_elem_of_nil]|tauto].
    - intros o. split; [intros; split; [done|]|tauto]. intros m Hin. by apply not_elem_of_nil in Hin. }
  cbn in Hd. apply NoDup_cons in Hd as [Hnot Hd]. destruct (Hm m ltac:(by left)) as [Hmo Hmc].
  destruct (cover_col_spec h L O m Hr Hmo Hmc) as (h1 & Hf & Hb & Hr1).
  destruct (IH h1 _ _ Hr1) as (h2 & L2 & O2 & Hst & Hr2 & HL & HO); [|done|].
  { intros m' Hm'. destruct (Hm m' ltac:(by right)). split; [done|]. rewrite others_elem. split; [|done].
    intros E. apply Hnot. rewrite <- E. by apply list_elem_of_fmap_2. }
  exists h2, L2, O2. split_and!; [|done| |].
  - apply (steps_cons _ _ _ _ _ h h1); eauto.
  - intros x. rewrite HL, others_elem. cbn. rewrite not_elem_of_cons. tauto.
  - intros o. rewrite HO, without_elem. split.
    + intros [[H1 H2] H3]. split; [done|]. intros m' [->|Hm']%elem_of_cons; [done|by apply H3].
    + intros [H1 H2]. split_and!; [apply H2; by left|done|]. intros m' Hm'. apply H2. by right.
Qed.

(** ** Exact covers *)

Definition exact_cover (L : list nat) (O S : list (list nat)) : Prop :=
  (∀ o, o ∈ S → o ∈ O) ∧ colf <$> concat S ≡ₚ L.

(** What is left when the option [o] is chosen. *)
Definition chosen (o : list nat) (L L' : list nat) (O O' : list (list nat)) : Prop :=
  (∀ x, x ∈ L' ↔ x ∈ L ∧ x ∉ colf <$> o) ∧ (∀ o', o' ∈ O' ↔ o' ∈ O ∧ ∀ x, x ∈ colf <$> o → x ∉ colf <$> o').

Lemma exact_cover_choose o L L' O O' S :
  NoDup L → NoDup L' → NoDup (colf <$> o) → o ∈ O → (∀ n, n ∈ o → colf n ∈ L) → chosen o L L' O O' →
  exact_cover L' O' S → exact_cover L O (o :: S).
Proof.
  intros HdL HdL' Hdo Ho Hin [HL HO] [HS HP]. split.
  - intros o' [->|Ho']%elem_of_cons; [done|]. by apply HO, HS.
  - cbn. rewrite fmap_app, HP. apply NoDup_Permutation; [|done|].
    + apply NoDup_app. split_and!; [done| |done]. intros x Hx Hx'. apply HL in Hx' as [_ ?]. done.
    + intros x. rewrite elem_of_app, HL. split.
      * intros [(n & -> & Hn)%list_elem_of_fmap|[? _]]; [by apply Hin|done].
      * intros Hx. destruct (decide (x ∈ colf <$> o)); tauto.
Qed.

Lemma exact_cover_rest o L L' O O' S :
  NoDup L → NoDup L' → chosen o L L' O O' → exact_cover L O S → o ∈ S → ∃ S', exact_cover L' O' S'.
Proof.
  intros HdL HdL' [HL HO] [HS HP] Ho. apply list_elem_of_split in Ho as (s1 & s2 & ->). exists (s1 ++ s2).
  assert (colf <$> concat (s1 ++ o :: s2) ≡ₚ (colf <$> o) ++ (colf <$> concat (s1 ++ s2))) as HP'.
  { rewrite !concat_app. cbn. rewrite !fmap_app. rewrite !app_assoc. f_equiv. apply Permutation_app_comm. }
  rewrite HP' in HP. assert (NoDup ((colf <$> o) ++ (colf <$> concat (s1 ++ s2)))) as Hd by (by rewrite HP).
  apply NoDup_app in Hd as (_ & Hdis & Hd). split.
  - intros o' Ho'. apply HO. split; [apply HS; rewrite elem_of_app in Ho' |- *; rewrite elem_of_cons; tauto|].
    intros x Hx Hx'. apply (Hdis x Hx). apply list_elem_of_fmap in Hx' as (n & -> & Hn). apply list_elem_of_fmap_2, elem_of_concat. eauto.
  - apply NoDup_Permutation; [done|done|]. intros x. rewrite HL. rewrite <- HP, elem_of_app. split; [|tauto].
    intros Hx. split; [by right|]. intros Hx'. by apply (Hdis x).
Qed.

(** Every column is in an option of the cover. *)
Lemma exact_cover_meets L O S c : exact_cover L O S → c ∈ L → ∃ o n, o ∈ S ∧ n ∈ o ∧ colf n = c.
Proof.
  intros [_ HP] Hc. rewrite <- HP in Hc. apply list_elem_of_fmap in Hc as (n & -> & Hn). apply elem_of_concat in Hn as (o & ? & ?). eauto.
Qed.

(** ** The column with the fewest rows *)

Definition column_size (O : list (list nat)) (c : nat) : Z := Z.of_nat (length (live colf c (concat O) [])).

(** [c] has no more rows than those in [l], or at most one. *)
Definition smallest (O : list (list nat)) (c : nat) (l : list nat) : Prop :=
  (column_size O c ≤ 1)%Z ∨ ∀ c', c' ∈ l → (column_size O c ≤ column_size O c')%Z.

Lemma min_loop_spec h L O : represents h L O → ∀ l2 l1 fuel c,
  L = l1 ++ l2 → c ∈ l1 → (∀ c', c' ∈ l1 → (column_size O c ≤ column_size O c')%Z) → length l2 < fuel →
  ∃ c', min_loop fuel root c (first_of l2 root) (column_size O c) h = Some (Ok c') ∧ c' ∈ L ∧ smallest O c' L.
Proof.
  intros Hr. induction l2 as [|cc l2 IH]; intros l1 fuel c EL Hc Hmin Hfuel; (destruct fuel as [|fuel]; [cbn in Hfuel; lia|]);
    cbn [min_loop first_of hd].
  - rewrite Nat.eqb_refl. rewrite app_nil_r in EL. subst l1. exists c. split_and!; [done|done|by right].
  - assert (cc ∈ L) as Hcc by (rewrite EL; apply elem_of_app; right; by left).
    rewrite (proj2 (Nat.eqb_neq cc root)).
    2: { intros ->. pose proof (prob_nodup Hprob) as Hp. apply NoDup_cons in Hp as [Hp _]. apply Hp, elem_of_app. left.
         by apply (rep_columns _ _ _ Hr). }
    rewrite (read_at sizes cc h (column_size O cc)) by (by apply (rep_vert _ _ _ Hr)). pstep.
    pose proof (rep_head _ _ _ Hr) as Hch. rewrite EL in Hch. apply chain_app in Hch as [_ Hch]. apply chain_first in Hch as [Hch _].
    assert (L = (l1 ++ [cc]) ++ l2) as EL' by (by rewrite <- app_assoc). cbn in Hfuel.
    destruct (Z.ltb_spec (column_size O cc) (column_size O c)) as [Hlt|Hge].
    + destruct (Z.leb_spec (column_size O cc) 1) as [Hone|_]; [exists cc; split_and!; [done|done|by left]|].
      rewrite (read_at rights cc h _ Hch). pstep. apply (IH (l1 ++ [cc])); [done|apply elem_of_app; right; by left| |lia].
      intros c' [Hc'| ->%list_elem_of_singleton]%elem_of_app; [|lia]. specialize (Hmin c' Hc'). lia.
    + rewrite (read_at rights cc h _ Hch). pstep. apply (IH (l1 ++ [cc])); [done|apply elem_of_app; by left| |lia].
      intros c' [Hc'| ->%list_elem_of_singleton]%elem_of_app; [by apply Hmin|lia].
Qed.

Lemma get_min_column_spec h L O : represents h L O → L ≠ [] →
  ∃ c, get_min_column root h = Some (Ok c) ∧ c ∈ L ∧ smallest O c L.
Proof.
  intros Hr HL. destruct L as [|c L]; [done|]. pose proof (rep_head _ _ _ Hr) as [[Hc _] Hch]. unfold get_min_column.
  rewrite (read_at rights root h _ Hc). pstep.
  rewrite (read_at sizes c h (column_size O c)) by (apply (rep_vert _ _ _ Hr); by left). pstep.
  destruct (Z.ltb_spec 1 (column_size O c)) as [Hlt|Hle]; [|exists c; split_and!; [done|by left|by left]].
  rewrite (read_at rights c h _ (proj1 (chain_first _ _ _ _ _ Hch))). pstep.
  apply (min_loop_spec h (c :: L) O Hr L [c]); [done|by left| |].
  - intros c' ->%list_elem_of_singleton. lia.
  - pose proof (rep_nodup _ _ _ Hr) as Hd. apply NoDup_app in Hd as (Hd & _). apply NoDup_cons in Hd as [_ Hd].
    apply short_list; [done|]. intros x Hx. right. apply elem_of_app. left. apply (rep_columns _ _ _ Hr). by right.
Qed.

(** ** Reading a row back *)

Context (choice : list nat → Z * Z).

(** The names of an option say which value it puts into which cell. *)
Definition choice_ok (o : list nat) : Prop :=
  ∃ n0 n1 n2 n3, o = [n0; n1; n2; n3] ∧ let '(i, v) := choice o in
    (0 ≤ i < kCells ∧ 1 ≤ v ≤ 9)%Z ∧ namef n0 = i ∧ namef n1 = get_row_col (row_of i) v ∧
    namef n2 = get_col_col (col_of i) v ∧ namef n3 = get_box_col (box_of i) v.
Context (Hchoice : ∀ o, o ∈ options → choice_ok o).

Lemma unit_name k r v : (1 ≤ k → 0 ≤ r → 1 ≤ v ≤ 9 → (k * 100 + r * 10 + v <? 100) = false ∧ Z.rem (k * 100 + r * 10 + v) 10 = v)%Z.
Proof. intros Hk Hr Hv. split; [apply Z.ltb_ge; lia|]. Z.to_euclidean_division_equations. lia. Qed.

(** One turn of the loop. *)
Lemma read_row_step fuel n m cell val name h :
  names h !! n = Some name → rights h !! n = Some m → (cell =? -1)%Z || (val =? -1)%Z = true →
  read_row (S fuel) n cell val h =
    let '(cell, val) := if (name <? 100)%Z then (name, val) else (cell, Z.rem name 10) in read_row fuel m cell val h.
Proof.
  intros Hn Hr Hc. cbn [read_row]. rewrite Hc, (read_at names n h _ Hn). pstep. destruct (name <? 100)%Z; by rewrite (read_at rights n h _ Hr).
Qed.

Lemma read_row_spec h L O o n : represents h L O → o ∈ options → n ∈ o → read_row walk_fuel n (-1) (-1) h = Some (Ok (choice o)).
Proof.
  intros Hr Ho Hn. destruct (Hchoice o Ho) as (n0 & n1 & n2 & n3 & E & Hch). destruct (choice o) as [i v].
  destruct Hch as ([Hi Hv] & E0 & E1 & E2 & E3). unfold kCells in Hi.
  assert (∀ x, x ∈ o → names h !! x = Some (namef x)) as Hname.
  { intros x Hx. apply (rep_names _ _ _ Hr), elem_of_concat. eauto. }
  assert (names h !! n0 = Some i ∧ names h !! n1 = Some (1 * 100 + row_of i * 10 + v)%Z ∧
    names h !! n2 = Some (2 * 100 + col_of i * 10 + v)%Z ∧ names h !! n3 = Some (3 * 100 + box_of i * 10 + v)%Z) as (N0 & N1 & N2 & N3).
  { rewrite E in Hname. rewrite !Hname, E0, E1, E2, E3 by (rewrite !elem_of_cons; tauto). done. }
  destruct (rep_ring _ _ _ Hr o [] n0 [n1; n2; n3] Ho E) as ([R0 _] & [R1 _] & [R2 _] & [R3 _]).
  assert (0 ≤ row_of i ∧ 0 ≤ col_of i ∧ 0 ≤ box_of i)%Z as (P1 & P2 & P3).
  { unfold box_of, row_of, col_of. Z.to_euclidean_division_equations. lia. }
  destruct (unit_name 1 _ v ltac:(lia) P1 Hv) as [F1 V1]. destruct (unit_name 2 _ v ltac:(lia) P2 Hv) as [F2 V2].
  destruct (unit_name 3 _ v ltac:(lia) P3 Hv) as [F3 V3].
  assert ((i <? 100)%Z = true) as F0 by (apply Z.ltb_lt; lia).
  assert ((i =? -1)%Z = false ∧ (v =? -1)%Z = false) as [Qi Qv] by (split; apply Z.eqb_neq; lia).
  destruct walk_fuel_five as [k ->]. rewrite E in Hn. rewrite !elem_of_cons, elem_of_nil in Hn.
  assert (∀ f m, read_row (S f) m i v h = Some (Ok (i, v))) as Hend by (intros f m; cbn [read_row]; by rewrite Qi, Qv).
  destruct Hn as [->|[->|[->|[->|[]]]]]; cbn [Nat.add];
    repeat first [rewrite Hend | rewrite (read_row_step _ n0 n1 _ _ _ h N0 R0) by (by rewrite ?orb_true_r); rewrite F0
      | rewrite (read_row_step _ n1 n2 _ _ _ h N1 R1) by (by rewrite ?orb_true_r); rewrite F1, V1
      | rewrite (read_row_step _ n2 n3 _ _ _ h N2 R2) by (by rewrite ?orb_true_r); rewrite F2, V2
      | rewrite (read_row_step _ n3 n0 _ _ _ h N3 R3) by (by rewrite ?orb_true_r); rewrite F3, V3]; done.
Qed.

(** The board with the chosen values. *)
Definition fill (S : list (list nat)) (board : list Z) : list Z :=
  foldl (λ b o, <[ Z.to_nat (choice o).1 := (choice o).2 ]> b) board S.

Lemma write_rows_spec L O st S : Forall2 (λ n o, n ∈ o) st S → (∀ o, o ∈ S → o ∈ options) → ∀ s,
  represents (nodes_ s) L O → size_of (inout_ s) = kCells →
  foreach write_row st s = Some (Ok (with_inout (fill S (inout_ s)) s)).
Proof.
  intros Hst. induction Hst as [|n o st S Hn Hst IH]; intros HS s Hr Hb; [by destruct s|].
  assert (o ∈ options) as Ho by (apply HS; by left). destruct (Hchoice o Ho) as (? & ? & ? & ? & _ & Hch).
  assert (write_row n s = Some (Ok (with_inout (<[ Z.to_nat (choice o).1 := (choice o).2 ]> (inout_ s)) s))) as Hw.
  { unfold write_row. rewrite (read_row_spec _ L O o n Hr Ho Hn). pstep. destruct (choice o) as [i v]. destruct Hch as ([Hi _] & _).
    unfold set_cell. cbn [fst snd]. by rewrite (proj2 (Z.leb_le 0 i)), (proj2 (Z.ltb_lt i (size_of (inout_ s)))) by lia. }
  cbn [foreach]. rewrite Hw. pstep. rewrite IH; [done|intros; apply HS; by right|done|]. cbn. unfold size_of in *. by rewrite length_insert.
Qed.

(** ** The search *)

(** The solver [s] has to cover [L] with options of [O], and has chosen [S0]. *)
Record searching (s : SudokuSolver) (L : list nat) (O S0 : list (list nat)) : Prop := {
  search_rep : represents (nodes_ s) L O;
  search_root : root_ s = root;
  search_stack : Forall2 (λ n o, n ∈ o) (stack_ s) S0;
  search_chosen o : o ∈ S0 → o ∈ options;
  search_board : size_of (inout_ s) = kCells
}.

(** What the search returns: a solution on the board, or the solver as it was. *)
Definition searched (r : partial (bool * SudokuSolver)) (s : SudokuSolver) (none : Prop) (L : list nat) (O S0 : list (list nat)) : Prop :=
  (∃ S s', r = Some (Ok (true, s')) ∧ exact_cover L O S ∧ inout_ s' = fill (S0 ++ S) (inout_ s)) ∨
  (r = Some (Ok (false, s)) ∧ none).

Definition no_cover (L : list nat) (O : list (list nat)) : Prop := ∀ S, ¬ exact_cover L O S.

(** One row is tried: its columns are covered, and uncovered again. *)
Lemma choose_row h h1 L O c n :
  represents h L O → c ∈ L → represents h1 (others c L) (without c O) → n ∈ live colf c (concat O) [] →
  ∃ o h2 L2 O2, o ∈ O ∧ n ∈ o ∧ represents h2 L2 O2 ∧ chosen o L L2 O O2 ∧ length L2 < length L ∧
    (j ← read rights n h1; walk walk_fuel rights cover_col n j h1) = Some (Ok h2) ∧
    (j ← read lefts n h2; walk walk_fuel lefts uncover_col n j h2) = Some (Ok h1).
Proof.
  intros Hr Hc Hr1 Hn. apply live_elem in Hn as [[Hnc _] Hn]. apply elem_of_concat in Hn as (o & Hno & Ho).
  pose proof (rep_options _ _ _ Hr o Ho) as Hopt. pose proof Hno as E. apply list_elem_of_split in E as (p & q & E).
  set (ms := q ++ p). assert (o ≡ₚ n :: ms) as HP by (unfold ms; rewrite E, <- Permutation_middle; by rewrite (Permutation_app_comm q p)).
  assert (NoDup (colf <$> n :: ms)) as Hdc by (rewrite <- HP; by apply (prob_distinct Hprob)).
  cbn in Hdc. apply NoDup_cons in Hdc as [Hcn Hdc].
  destruct (cover_steps ms h1 _ _ Hr1) as (h2 & L2 & O2 & Hst & Hr2 & HL & HO); [|done|].
  { intros m Hm. assert (m ∈ o) as Hmo by (rewrite HP; by right). split; [apply elem_of_concat; eauto|].
    apply others_elem. split; [|by apply (rep_closed _ _ _ Hr o)]. rewrite <- Hnc. intros Em. apply Hcn. rewrite <- Em. by apply list_elem_of_fmap_2. }
  assert (∀ x, x ∈ colf <$> o ↔ x = c ∨ x ∈ colf <$> ms) as Hcols by (intros x; rewrite HP, fmap_cons, elem_of_cons, Hnc; done).
  assert (NoDup (n :: ms)) as Hdn.
  { rewrite <- HP. pose proof (rep_nodup _ _ _ Hr) as Hd. apply NoDup_app in Hd as (_ & _ & Hd). by apply (option_nodup _ o) in Hd. }
  apply NoDup_cons in Hdn as [Hnm Hdn].
  destruct (walk_ring (λ h, ∃ L O, represents h L O) cover_col uncover_col rights lefts n ms h1 h2) as [Hf Hb]; [|done| |done|].
  { intros h' (L' & O' & Hr'). by apply (rep_ring _ _ _ Hr' o). }
  { apply short_list; [done|]. intros x Hx. right. apply elem_of_app. right. apply elem_of_concat. exists o. split; [|done].
    rewrite HP. by right. }
  exists o, h2, L2, O2. split_and!; [done|done|done| | |done|done].
  - split; [intros x; rewrite HL, others_elem, Hcols; tauto|]. intros o'. rewrite HO, without_elem. split.
    + intros [[H1 H2] H3]. split; [done|]. intros x [->|(m & -> & Hm)%list_elem_of_fmap]%Hcols; [done|by apply H3].
    + intros [H1 H2]. split_and!; [apply H2, Hcols; by left|done|]. intros m Hm. apply H2, Hcols. right. by apply list_elem_of_fmap_2.
  - pose proof (rep_nodup _ _ _ Hr2) as Hd2. apply NoDup_app in Hd2 as (Hd2 & _).
    apply (submseteq_length (c :: L2) L), NoDup_submseteq; [apply NoDup_cons; split; [|done]|].
    + rewrite HL, others_elem. tauto.
    + intros x [->|Hx]%elem_of_cons; [done|]. rewrite HL, others_elem in Hx. tauto.
Qed.

Lemma fill_app S1 S2 b : fill (S1 ++ S2) b = fill S2 (fill S1 b).
Proof. apply foldl_app. Qed.

Lemma unchoose s h2 st : with_nodes (nodes_ s) (with_stack (stack_ s) (with_nodes h2 (with_stack st s))) = s.
Proof. by destruct s. Qed.

Section Rows.
Context (rec : SudokuSolver → partial (bool * SudokuSolver)) (s : SudokuSolver) (h : Heap) (L : list nat) (O S0 : list (list nat)) (c : nat).
Context (Hrep : represents h L O) (Hc : c ∈ L).
Context (Hcov : represents (nodes_ s) (others c L) (without c O)).
Context (Hring : chain (downs (nodes_ s)) (ups (nodes_ s)) c (live colf c (concat O) []) c).
Context (Hroot : root_ s = root) (Hstack : Forall2 (λ n o, n ∈ o) (stack_ s) S0) (HS0 : ∀ o, o ∈ S0 → o ∈ options).
Context (Hboard : size_of (inout_ s) = kCells).
Context (Hrec : ∀ s2 L2 O2 S2, searching s2 L2 O2 S2 → length L2 < length L → searched (rec s2) s2 (no_cover L2 O2) L2 O2 S2).

(** The solver with a row chosen. *)
Definition chose (n : nat) (h2 : Heap) : SudokuSolver := with_nodes h2 (with_stack (stack_ s ++ [n]) s).

(** A turn of the loop, by what the recursive call returns. *)
Lemma try_row_turn n h2 fuel next :
  n ≠ c → (j ← read rights n (nodes_ s); walk walk_fuel rights cover_col n j (nodes_ s)) = Some (Ok h2) →
  (j ← read lefts n h2; walk walk_fuel lefts uncover_col n j h2) = Some (Ok (nodes_ s)) → downs (nodes_ s) !! n = Some next →
  (∀ s', rec (chose n h2) = Some (Ok (true, s')) → try_rows rec (S fuel) c n s = Some (Ok (true, s'))) ∧
  (rec (chose n h2) = Some (Ok (false, chose n h2)) → try_rows rec (S fuel) c n s = try_rows rec fuel c next s).
Proof.
  intros Hne Hf Hb Hd. cbn [try_rows]. rewrite (proj2 (Nat.eqb_neq n c) Hne). cbn [nodes_ with_stack].
  destruct (read rights n (nodes_ s)) as [[j|]|]; [|done..]. revert Hf. pstep. intros Hf.
  unfold on_nodes. cbn [nodes_ with_stack]. rewrite !Hf. pstep. fold (chose n h2). split; [by intros s' ->|].
  intros ->. pstep. cbn [stack_ chose with_nodes with_stack nodes_]. rewrite removelast_last.
  destruct (read lefts n h2) as [[j'|]|]; [|done..]. revert Hb. pstep. intros Hb. rewrite Hb. pstep.
  cbn [nodes_ with_nodes]. rewrite (read_at downs n _ _ Hd). pstep. unfold chose. by rewrite unchoose.
Qed.

Lemma try_rows_spec : ∀ rest tried fuel, live colf c (concat O) [] = tried ++ rest → length rest < fuel →
  searched (try_rows rec fuel c (first_of rest c) s) s (∀ S o n, exact_cover L O S → o ∈ S → n ∈ o → n ∉ rest) L O S0.
Proof.
  induction rest as [|n rest IH]; intros tried fuel E Hfuel; (destruct fuel as [|fuel]; [cbn in Hfuel; lia|]).
  { right. cbn. rewrite Nat.eqb_refl. split; [done|]. intros. apply not_elem_of_nil. }
  assert (n ∈ live colf c (concat O) []) as Hn by (rewrite E; apply elem_of_app; right; by left).
  pose proof (rep_nodup _ _ _ Hrep) as Hd. assert (n ≠ c) as Hne.
  { intros ->. pose proof (live_nodup colf c L _ [] Hd Hc) as Hl. apply NoDup_cons in Hl as [Hl _]. done. }
  destruct (choose_row h (nodes_ s) L O c n Hrep Hc Hcov Hn) as (o & h2 & L2 & O2 & Ho & Hno & Hr2 & Hch & Hlt & Hf & Hb).
  assert (downs (nodes_ s) !! n = Some (first_of rest c)) as Hdown.
  { rewrite E in Hring. apply chain_app in Hring as [_ Hr]. by apply chain_first in Hr as [? _]. }
  destruct (try_row_turn n h2 fuel _ Hne Hf Hb Hdown) as [Htrue Hfalse]. cbn [first_of hd].
  pose proof (rep_options _ _ _ Hrep o Ho) as Hopt. apply NoDup_app in Hd as (HdL & _ & HdO).
  pose proof (rep_nodup _ _ _ Hr2) as Hd2. apply NoDup_app in Hd2 as (Hd2 & _).
  destruct (Hrec (chose n h2) L2 O2 (S0 ++ [o])) as [(S & s' & Er & Hec & Hio)|[Er Hno2]]; [|done| |].
  { split; [done|done| | |done].
    - apply Forall2_app; [done|by repeat constructor].
    - intros o' [?| ->%list_elem_of_singleton]%elem_of_app; [by apply HS0|done]. }
  - left. exists (o :: S), s'. split_and!; [by apply Htrue| |].
    + apply (exact_cover_choose o L L2 O O2); try done; [by apply (prob_distinct Hprob)|]. intros m. by apply (rep_closed _ _ _ Hrep).
    + rewrite Hio. cbn [chose inout_ with_nodes with_stack]. by rewrite <- app_assoc.
  - rewrite (Hfalse Er). destruct (IH (tried ++ [n]) fuel) as [?|[Ei Hi]]; [by rewrite <- app_assoc|cbn in Hfuel; lia|by left|].
    right. split; [done|]. intros S o' n' HS Ho' Hn'. rewrite not_elem_of_cons. split; [|by apply (Hi S o' n')].
    intros ->. assert (o' = o) as -> by (by apply (option_unique O o' o n HdO); [apply HS|..]).
    destruct (exact_cover_rest o L L2 O O2 S HdL Hd2 Hch HS Ho') as [S' HS']. by apply (Hno2 S').
Qed.
End Rows.

(** The search finds an exact cover if there is one. *)
Lemma solve_fuel_spec fuel : ∀ s L O S0,
  searching s L O S0 → length L < fuel → searched (solve_fuel fuel s) s (no_cover L O) L O S0.
Proof.
  induction fuel as [|fuel IH]; intros s L O S0 Hs Hfuel; [lia|]. pose proof Hs as [Hr Hroot Hst HS0 Hb]. cbn [solve_fuel]. rewrite Hroot.
  pose proof (chain_last _ _ _ _ _ (rep_head _ _ _ Hr)) as [_ Hlast]. rewrite (read_at lefts root _ _ Hlast). pstep.
  destruct (decide (L = [])) as [->|HL].
  - cbn. rewrite Nat.eqb_refl. left. exists [], (with_inout (fill S0 (inout_ s)) s).
    unfold write_solution. rewrite (write_rows_spec [] O _ S0) by done. split_and!; [done| |by rewrite app_nil_r].
    split; [intros o Ho; by apply not_elem_of_nil in Ho|done].
  - rewrite (proj2 (Nat.eqb_neq _ root)).
    2: { intros E. pose proof (prob_nodup Hprob) as Hp. apply NoDup_cons in Hp as [Hp _]. apply Hp, elem_of_app. left.
         apply (rep_columns _ _ _ Hr). unfold last_of in E. destruct (last L) as [x|] eqn:El; [|by apply last_None in El].
         cbn in E. subst x. by apply last_Some_elem_of. }
    destruct (get_min_column_spec _ _ _ Hr HL) as (c & -> & Hc & _). pstep.
    destruct (cover_spec _ _ _ c Hr Hc) as (h1 & Hf & Hbk & Hr1 & Hring). unfold on_nodes. rewrite Hf. pstep.
    cbn [nodes_ with_nodes]. rewrite (read_at downs c h1 _ (proj1 (chain_first _ _ _ _ _ Hring))). pstep.
    pose proof (rep_nodup _ _ _ Hr) as Hd. pose proof (live_nodup colf c L _ [] Hd Hc) as Hl. apply NoDup_cons in Hl as [_ Hl].
    destruct (try_rows_spec (solve_fuel fuel) (with_nodes h1 s) _ L O S0 c Hr Hc Hr1 Hring Hroot Hst HS0 Hb) with
      (rest := live colf c (concat O) []) (tried := @nil nat) (fuel := walk_fuel) as [(S & s' & -> & HS & Hio)|[-> Hnone]]; [|done| | |].
    + intros s2 L2 O2 S2 Hs2 Hlt. apply IH; [done|lia].
    + apply short_list; [done|]. intros x [_ Hx]%live_elem. right. apply (rep_in_problem (nodes_ s) L O); [done|]. apply elem_of_app. by right.
    + pstep. left. by exists S, s'.
    + pstep. right. cbn [nodes_ with_nodes]. rewrite Hbk. pstep. split; [by destruct s|].
      intros S HS. destruct (exact_cover_meets L O S c HS Hc) as (o & n & Ho & Hn & Hnc). apply (Hnone S o n HS Ho Hn).
      apply live_elem. split; [split; [done|apply not_elem_of_nil]|]. apply elem_of_concat. exists o. split; [done|by apply HS].
Qed.
End Cover.
