(* ===== verification/SudokuBuild.v ===== *)
(** * The constructor of the Sudoku solver builds the problem

    What the constructor leaves in the nodes is the exact cover problem of the
    board: a column for every empty cell and for every value that a row, a column
    or a box of the board lacks, and an option for every value that may be put
    into a cell. *)
From stdpp Require Import base numbers list gmap.
From S2P Require Import Prelude Sudoku DancingLinks ExactCover.
Open Scope nat_scope.
#[local] Opaque walk_fuel kMaxNodes.

(** ** Linking a new node *)

Definition same_columns (h h' : Heap) : Prop :=
  ups h' = ups h ∧ downs h' = downs h ∧ cols h' = cols h ∧ names h' = names h ∧ sizes h' = sizes h.
Lemma same_columns_trans h1 h2 h3 : same_columns h1 h2 → same_columns h2 h3 → same_columns h1 h3.
Proof. intros (?&?&?&?&?) (?&?&?&?&?). split_and!; congruence. Qed.

Lemma put_left_spec h c v z :
  chain (rights h) (lefts h) c v c → NoDup (c :: v) → z ∉ c :: v → is_Some (lefts h !! z) → is_Some (rights h !! z) →
  let a := last_of c v in
  ∃ h', put_left c z h = Some (Ok h') ∧ chain (rights h') (lefts h') c (v ++ [z]) c ∧
    lefts h' = <[ c := z ]> (<[ z := a ]> (lefts h)) ∧ rights h' = <[ a := z ]> (<[ z := c ]> (rights h)) ∧
    same_columns h h'.
Proof.
  intros Hc Hd Hz [zl Hzl] [zr Hzr] a. pose proof (chain_insert _ _ c v z Hd Hz Hc) as Hnew.
  pose proof (chain_last _ _ _ _ _ Hc) as [A1 A2]. fold a in A1, A2, Hnew.
  assert (z ≠ c ∧ z ≠ a) as [Hzc Hza] by (split; intros ->; apply Hz; [by left|apply last_of_in]).
  eexists. split.
  { unfold put_left, set_left, set_right, read. rewrite A2. pstep. rewrite Hzl. pstep. rewrite Hzr. pstep.
  rewrite lookup_insert_ne, A2 by done. pstep. rewrite lookup_insert_ne, A1 by done. pstep. rewrite lookup_insert_ne, A2 by done. done. }
  by split_and!.
Qed.

Lemma put_up_spec h c v z n :
  chain (downs h) (ups h) c v c → NoDup (c :: v) → z ∉ c :: v → is_Some (ups h !! z) → is_Some (downs h !! z) → is_Some (cols h !! z) →
  sizes h !! c = Some n → let a := last_of c v in
  ∃ h', put_up c z h = Some (Ok h') ∧ chain (downs h') (ups h') c (v ++ [z]) c ∧
    ups h' = <[ c := z ]> (<[ z := a ]> (ups h)) ∧ downs h' = <[ a := z ]> (<[ z := c ]> (downs h)) ∧
    lefts h' = lefts h ∧ rights h' = rights h ∧ cols h' = <[ z := c ]> (cols h) ∧ names h' = names h ∧
    sizes h' = <[ c := (n + 1)%Z ]> (sizes h).
Proof.
  intros Hc Hd Hz [zu Hzu] [zd Hzd] [zc Hzc] Hn a. pose proof (chain_insert _ _ c v z Hd Hz Hc) as Hnew.
  pose proof (chain_last _ _ _ _ _ Hc) as [A1 A2]. fold a in A1, A2, Hnew.
  assert (z ≠ c ∧ z ≠ a) as [Hzc' Hza] by (split; intros ->; apply Hz; [by left|apply last_of_in]).
  eexists. split.
  { unfold put_up, set_up, set_down, set_col, add_size, read. rewrite A2. pstep. rewrite Hzu. pstep. rewrite Hzd. pstep.
  rewrite lookup_insert_ne, A2 by done. pstep. rewrite lookup_insert_ne, A1 by done. pstep. rewrite lookup_insert_ne, A2 by done. pstep.
  rewrite Hn. pstep. rewrite Hzc. done. }
  by split_and!.
Qed.

(** ** Columns and rows under construction *)

Definition col_in (h : Heap) (n : nat) : nat := default 0 (cols h !! n).
Definition name_in (h : Heap) (n : nat) : Z := default 0%Z (names h !! n).

(** Columns [hs] with the names [ns], and the nodes [N] of rows. *)
Record built (s : SudokuSolver) (ns : list Z) (hs N : list nat) : Prop := {
  built_root : root_ s = 0;
  built_stack : stack_ s = [];
  built_nodup : NoDup (0 :: hs ++ N);
  built_cur : cur_node_ s = length (0 :: hs ++ N);
  built_below x : x ∈ 0 :: hs ++ N → x < cur_node_ s;
  built_head : chain (rights (nodes_ s)) (lefts (nodes_ s)) 0 hs 0;
  built_vert : vert (col_in (nodes_ s)) (nodes_ s) hs N [];
  built_cols n : n ∈ N → ∃ c, cols (nodes_ s) !! n = Some c ∧ c ∈ hs;
  built_names : Forall2 (λ n c, columns_ s !! n = Some c) ns hs;
  built_only n : is_Some (columns_ s !! n) → n ∈ ns;
  built_range n : n ∈ ns → (0 ≤ n < kColumns)%Z
}.

Lemma column_at_spec n s : (0 ≤ n < kColumns)%Z → column_at n s = Some (Ok (columns_ s !! n)).
Proof. intros [H1 H2]. unfold column_at. by rewrite (proj2 (Z.leb_le _ _) H1), (proj2 (Z.ltb_lt _ _) H2). Qed.

Lemma built_fresh s ns hs N : built s ns hs N → cur_node_ s ∉ 0 :: hs ++ N.
Proof. intros Hb Hin. apply (built_below _ _ _ _ Hb) in Hin. lia. Qed.

(** Which nodes are in a column does not depend on nodes outside of the list. *)
Lemma live_ext f g c N H : (∀ n, n ∈ N → f n = g n) → live f c N H = live g c N H.
Proof. intros E. apply filter_ext_in. intros n Hn. by rewrite E. Qed.

Lemma built_column s ns hs N name c : built s ns hs N → columns_ s !! name = Some c → c ∈ hs.
Proof.
  intros Hb Hc. assert (name ∈ ns) as Hin by (apply (built_only _ _ _ _ Hb); by eexists).
  apply list_elem_of_lookup in Hin as [k Hk]. destruct (Forall2_lookup_l _ _ _ _ _ (built_names _ _ _ _ Hb) Hk) as (c' & Hc' & E).
  assert (c' = c) as -> by congruence. by eapply list_elem_of_lookup_2.
Qed.

(** A node that is not in a list does not matter to it. *)
Lemma chain_other nxt prv x l y r u w : chain nxt prv x l y → r ∉ x :: l → r ∉ l ++ [y] → chain (<[ r := u ]> nxt) (<[ r := w ]> prv) x l y.
Proof.
  intros Hc H1 H2. apply (chain_frame nxt prv); [done| |]; intros v Hv; (rewrite lookup_insert_ne; [done|]); by intros <-.
Qed.

Lemma ring_other nxt prv c l r u w : chain nxt prv c l c → r ∉ c :: l → chain (<[ r := u ]> nxt) (<[ r := w ]> prv) c l c.
Proof.
  intros Hc Hr. apply chain_other; [done|done|]. rewrite elem_of_app, list_elem_of_singleton. rewrite elem_of_cons in Hr. tauto.
Qed.

(** The columns that a node is not put into. *)
Lemma live_disjoint f hs N c c' x : NoDup (hs ++ N) → c ∈ hs → c' ∈ hs → c' ≠ c → x ∈ c :: live f c N [] → x ∉ c' :: live f c' N [].
Proof.
  intros Hd Hc Hc' Hne Hx. apply NoDup_app in Hd as (_ & Hdis & _). rewrite not_elem_of_cons, live_elem.
  apply elem_of_cons in Hx as [->|Hx]; [split; [done|intros [_ ?]; by apply (Hdis c)]|].
  apply live_elem in Hx as [[E _] Hx]. split; [intros ->; by apply (Hdis c')|]. intros [[? _] _]. congruence.
Qed.

Lemma put_row_spec h hs N c r name :
  vert (col_in h) h hs N [] → NoDup (hs ++ N) → c ∈ hs → r ∉ hs → r ∉ N →
  ∃ h2, put_up c r (new_node r c name h) = Some (Ok h2) ∧ vert (col_in h2) h2 hs (N ++ [r]) [] ∧
    lefts h2 = <[ r := r ]> (lefts h) ∧ rights h2 = <[ r := r ]> (rights h) ∧
    cols h2 = <[ r := c ]> (cols h) ∧ names h2 = <[ r := name ]> (names h).
Proof.
  intros Hv Hd Hc Hr1 Hr2. set (f := col_in h) in *. destruct (Hv c Hc) as [Hvc Hsz].
  assert (∀ c', c' ∈ hs → r ∉ c' :: live f c' N []) as Hout.
  { intros c' Hc'. rewrite not_elem_of_cons, live_elem. split; [by intros ->|tauto]. }
  destruct (put_up_spec (new_node r c name h) c (live f c N []) r (Z.of_nat (length (live f c N []))))
    as (h2 & Hput & Hring & Eu & Ed & El & Er & Ec & En & Es); [by apply ring_other, Hout|by apply (live_nodup f c hs)|by apply Hout| | | | |].
  1-3: cbn; rewrite lookup_insert_eq; by eexists.
  { cbn. rewrite lookup_insert_ne by (by intros ->). done. }
  assert (cols h2 = <[ r := c ]> (cols h)) as Ec' by (rewrite Ec; cbn; by rewrite insert_insert_eq).
  exists h2. split_and!; try done. clear Hput Ec En El Er. intros c' Hc'.
  assert (live (col_in h2) c' (N ++ [r]) [] = live f c' N [] ++ (if decide (c' = c) then [r] else [])) as ->.
  { unfold live at 1. rewrite filter_app. fold (live (col_in h2) c' N []). rewrite (live_ext (col_in h2) f).
    2: { intros n Hn. unfold f, col_in. rewrite Ec', lookup_insert_ne; [done|]. by intros ->. }
    f_equal. rewrite filter_cons, filter_nil. assert (col_in h2 r = c) as -> by (unfold col_in; by rewrite Ec', lookup_insert_eq).
    destruct (decide (c' = c)) as [->|]; [by rewrite decide_True by (split; [done|apply not_elem_of_nil])|].
    rewrite decide_False; [done|]. intros [? _]. congruence. }
  destruct (decide (c' = c)) as [->|Hne].
  - split; [done|]. rewrite Es, lookup_insert_eq, length_app. cbn. f_equal. lia.
  - rewrite app_nil_r. destruct (Hv c' Hc') as [Hv' Hs']. pose proof (live_disjoint f hs N c c') as Hdis. split.
    + rewrite Eu, Ed. cbn. apply (chain_frame (downs h) (ups h)); [done| |]; intros u Hu.
      * rewrite !lookup_insert_ne; [done|..]; intros <-; try (by apply (Hout c' Hc')). by apply (Hdis _ Hd Hc Hc' Hne (last_of_in _ _)).
      * assert (u ∈ c' :: live f c' N []) as Hu' by (rewrite elem_of_app, list_elem_of_singleton in Hu; rewrite elem_of_cons; tauto).
        rewrite !lookup_insert_ne; [done|..]; intros <-; try (by apply (Hout c' Hc')). apply (Hdis c Hd Hc Hc' Hne); [by left|done].
    + rewrite Es, lookup_insert_ne by done. cbn. rewrite lookup_insert_ne; [done|]. by intros ->.
Qed.

Lemma new_row_spec s ns hs N name c :
  built s ns hs N → columns_ s !! name = Some c → cur_node_ s < kMaxNodes → let r := cur_node_ s in
  ∃ s', new_row name s = Some (Ok (r, s')) ∧ built s' ns hs (N ++ [r]) ∧ columns_ s' = columns_ s ∧ inout_ s' = inout_ s ∧
    lefts (nodes_ s') = <[ r := r ]> (lefts (nodes_ s)) ∧ rights (nodes_ s') = <[ r := r ]> (rights (nodes_ s)) ∧
    cols (nodes_ s') = <[ r := c ]> (cols (nodes_ s)) ∧ names (nodes_ s') = <[ r := name ]> (names (nodes_ s)).
Proof.
  intros Hb Hc Hcur r. pose proof (built_column _ _ _ _ _ _ Hb Hc) as Hch. pose proof (built_fresh _ _ _ _ Hb) as Hr. fold r in Hr.
  pose proof Hr as Hr'. rewrite !not_elem_of_cons, not_elem_of_app in Hr'. destruct Hr' as (Hr0 & Hr1 & Hr2).
  pose proof (built_nodup _ _ _ _ Hb) as Hd. pose proof Hd as Hd'. apply NoDup_cons in Hd' as [_ Hd'].
  destruct (put_row_spec (nodes_ s) hs N c r name (built_vert _ _ _ _ Hb) Hd' Hch Hr1 Hr2) as (h2 & Hput & Hv & El & Er & Ec & En).
  exists (mkSolver (root_ s) (inout_ s) (columns_ s) (stack_ s) h2 (S r)). cbn [nodes_ columns_ inout_].
  assert (0 :: hs ++ N ++ [r] = (0 :: hs ++ N) ++ [r]) as Eapp by (by rewrite app_assoc, app_comm_cons).
  split_and!; [|split; rewrite ?Eapp; cbn [cur_node_ nodes_]|done|done|done|done|done|done].
  - unfold new_row. rewrite column_at_spec by (apply (built_range _ _ _ _ Hb), (built_only _ _ _ _ Hb); by eexists).
    rewrite Hc. pstep. unfold assertp, assertb. rewrite bool_decide_true by done. unfold on_nodes. pstep. cbn [lift nodes_]. fold r.
    by rewrite Hput.
  - exact (built_root _ _ _ _ Hb).
  - exact (built_stack _ _ _ _ Hb).
  - apply NoDup_app. split_and!; [done| |apply NoDup_singleton]. by intros x Hx ->%list_elem_of_singleton.
  - rewrite length_app. unfold r. rewrite (built_cur _ _ _ _ Hb). cbn. lia.
  - intros x. rewrite elem_of_app, list_elem_of_singleton. intros [Hx| ->]; [apply (built_below _ _ _ _ Hb) in Hx; fold r in Hx; lia|lia].
  - rewrite Er, El. apply ring_other; [exact (built_head _ _ _ _ Hb)|]. by rewrite not_elem_of_cons.
  - done.
  - intros n [Hn| ->%list_elem_of_singleton]%elem_of_app; rewrite Ec; [|rewrite lookup_insert_eq; eauto].
    rewrite lookup_insert_ne by (by intros ->). exact (built_cols _ _ _ _ Hb n Hn).
  - exact (built_names _ _ _ _ Hb).
  - exact (built_only _ _ _ _ Hb).
  - exact (built_range _ _ _ _ Hb).
Qed.

Lemma Forall2_weaken_in {A B} (P Q : A → B → Prop) l k : Forall2 P l k → (∀ x y, x ∈ l → P x y → Q x y) → Forall2 Q l k.
Proof.
  induction 1 as [|x y l k Hxy Hlk IH]; intros Hpq; [constructor|]. constructor; [apply Hpq; [by left|done]|].
  apply IH. intros. apply Hpq; [by right|done].
Qed.

Lemma append_column_spec s ns hs n :
  built s ns hs [] → n ∉ ns → (0 ≤ n < kColumns)%Z → cur_node_ s < kMaxNodes →
  ∃ s', append_column n s = Some (Ok s') ∧ built s' (ns ++ [n]) (hs ++ [cur_node_ s]) [] ∧ inout_ s' = inout_ s.
Proof.
  intros Hb Hn Hrange Hcur. set (c := cur_node_ s). pose proof (built_fresh _ _ _ _ Hb) as Hc. fold c in Hc. rewrite app_nil_r in Hc.
  pose proof (built_nodup _ _ _ _ Hb) as Hd. rewrite app_nil_r in Hd.
  set (h1 := new_node c c n (nodes_ s)).
  destruct (put_left_spec h1 0 hs c) as (h2 & Hput & Hring & El & Er & Eu & Ed & Ec & En & Es);
    [apply ring_other; [exact (built_head _ _ _ _ Hb)|done]|done|done|cbn; rewrite lookup_insert_eq; by eexists..|].
  exists (mkSolver (root_ s) (inout_ s) (<[ n := c ]> (columns_ s)) (stack_ s) h2 (S c)). split_and!; [| |done].
  { unfold append_column, new_column. rewrite column_at_spec by done. pstep. unfold assertp, assertb. rewrite (bool_decide_true (columns_ s !! n = None)).
    2: { apply eq_None_not_Some. intros Hin. by apply Hn, (built_only _ _ _ _ Hb). }
    unfold lift. pstep. rewrite bool_decide_true by done. pstep. unfold on_nodes. cbn [root_ nodes_]. fold c h1.
    rewrite (built_root _ _ _ _ Hb), Hput. done. }
  assert (0 :: (hs ++ [c]) ++ [] = (0 :: hs) ++ [c]) as Eapp by (by rewrite app_nil_r). split; rewrite ?Eapp; cbn [cur_node_ nodes_ columns_].
  - exact (built_root _ _ _ _ Hb).
  - exact (built_stack _ _ _ _ Hb).
  - apply NoDup_app. split_and!; [done| |apply NoDup_singleton]. by intros x Hx ->%list_elem_of_singleton.
  - rewrite length_app. unfold c. rewrite (built_cur _ _ _ _ Hb), app_nil_r. cbn. lia.
  - intros x. rewrite elem_of_app, list_elem_of_singleton. pose proof (built_below _ _ _ _ Hb x) as Hx. rewrite app_nil_r in Hx. fold c in Hx.
    intros [?| ->]; [|lia]. apply Nat.lt_lt_succ_r. by apply Hx.
  - exact Hring.
  - intros c' [Hc'| ->%list_elem_of_singleton]%elem_of_app; unfold live, vert in *; rewrite filter_nil, Eu, Ed, Es; cbn.
    + pose proof (built_vert _ _ _ _ Hb c' Hc') as Hv. unfold live in Hv. rewrite filter_nil in Hv. destruct Hv as [Hv Hs].
      assert (c ≠ c') by (intros <-; apply Hc; by right). rewrite lookup_insert_ne by done. split; [|done].
      apply (ring_other _ _ c' []); [done|]. by rewrite list_elem_of_singleton.
    + rewrite lookup_insert_eq. split; [split; by rewrite lookup_insert_eq|done].
  - intros x Hx. by apply not_elem_of_nil in Hx.
  - apply Forall2_app; [|repeat constructor; by rewrite lookup_insert_eq].
    eapply Forall2_weaken_in; [exact (built_names _ _ _ _ Hb)|]. intros x y Hx Hxy. rewrite lookup_insert_ne; [done|]. by intros ->.
  - intros x. rewrite elem_of_app, list_elem_of_singleton. destruct (decide (x = n)) as [->|Hne]; [by right|].
    rewrite lookup_insert_ne by done. left. by apply (built_only _ _ _ _ Hb).
  - intros x [Hx| ->%list_elem_of_singleton]%elem_of_app; [by apply (built_range _ _ _ _ Hb)|done].
Qed.

(** ** Options *)

Definition names4 (c : Z * Z) : list Z :=
  [c.1; get_row_col (row_of c.1) c.2; get_col_col (col_of c.1) c.2; get_box_col (box_of c.1) c.2].

(** An option, with the names and the columns of its nodes. *)
Definition option_of (h : Heap) (columns : gmap Z nat) (o : list nat) (c : Z * Z) : Prop :=
  Forall2 (λ n name, names h !! n = Some name ∧ cols h !! n = columns !! name) o (names4 c).

Definition is_ring (h : Heap) (o : list nat) : Prop := ∀ p x q, o = p ++ x :: q → chain (rights h) (lefts h) x (q ++ p) x.

Lemma chain_is_ring h x l : chain (rights h) (lefts h) x l x → is_ring h (x :: l).
Proof.
  intros Hc p y q E. destruct p as [|z p]; injection E as -> E; [by rewrite app_nil_r, <- E|]. apply chain_rotate. by rewrite <- E.
Qed.

Record options_built (s : SudokuSolver) (ns : list Z) (hs : list nat) (os : list (list nat)) (cs : list (Z * Z)) : Prop := {
  ob_built : built s ns hs (concat os);
  ob_rings o : o ∈ os → is_ring (nodes_ s) o;
  ob_options : Forall2 (option_of (nodes_ s) (columns_ s)) os cs
}.

(** Heaps that agree on the links of the old nodes. *)
Definition old_links (r : nat) (h h' : Heap) : Prop := ∀ x, x < r → lefts h' !! x = lefts h !! x ∧ rights h' !! x = rights h !! x.

Lemma old_chain r h h' x l y :
  old_links r h h' → (∀ z, z ∈ x :: l ++ [y] → z < r) → chain (rights h) (lefts h) x l y → chain (rights h') (lefts h') x l y.
Proof.
  intros Ho Hz Hc. apply (chain_frame (rights h) (lefts h)); [done| |]; intros u Hu; apply Ho, Hz.
  - rewrite elem_of_cons in Hu. rewrite elem_of_cons, elem_of_app. tauto.
  - by right.
Qed.

(** Four nodes that are linked to themselves become a ring. *)
Lemma link_four h r :
  (∀ k, k < 4 → lefts h !! (r + k) = Some (r + k) ∧ rights h !! (r + k) = Some (r + k)) →
  ∃ h', (h ← put_left r (r + 1) h; h ← put_left r (r + 2) h; put_left r (r + 3) h) = Some (Ok h') ∧
    is_ring h' [r; r + 1; r + 2; r + 3] ∧ old_links r h h' ∧ same_columns h h'.
Proof.
  intros Hself. destruct (Hself 0 ltac:(lia)) as [L0 R0]. rewrite Nat.add_0_r in L0, R0.
  destruct (Hself 1 ltac:(lia)) as [L1 R1], (Hself 2 ltac:(lia)) as [L2 R2], (Hself 3 ltac:(lia)) as [L3 R3].
  destruct (put_left_spec h r [] (r + 1)) as (h1 & P1 & C1 & El1 & Er1 & E1);
    [by split|apply NoDup_singleton|rewrite list_elem_of_singleton; lia|by eexists..|].
  destruct (put_left_spec h1 r [r + 1] (r + 2)) as (h2 & P2 & C2 & El2 & Er2 & E2); [done|apply NoDup_cons; split; [|apply NoDup_singleton]| | | |].
  { rewrite list_elem_of_singleton. lia. }
  { rewrite elem_of_cons, list_elem_of_singleton. lia. }
  1-2: rewrite ?El1, ?Er1; cbn; rewrite !lookup_insert_ne by lia; by eexists.
  destruct (put_left_spec h2 r [r + 1; r + 2] (r + 3)) as (h3 & P3 & C3 & El3 & Er3 & E3); [done| | | | |].
  { repeat (apply NoDup_cons; split; [rewrite ?elem_of_cons, ?elem_of_nil; lia|]). apply NoDup_nil_2. }
  { rewrite !elem_of_cons, elem_of_nil. lia. }
  1-2: rewrite ?El2, ?Er2, ?El1, ?Er1; cbn; rewrite !lookup_insert_ne by lia; by eexists.
  exists h3. split_and!.
  - rewrite P1. pstep. rewrite P2. pstep. exact P3.
  - by apply chain_is_ring.
  - intros x Hx. rewrite El3, Er3, El2, Er2, El1, Er1. cbn. split; rewrite !lookup_insert_ne by lia; done.
  - eapply same_columns_trans; [exact E1|]. by eapply same_columns_trans.
Qed.

(** Nodes that have been added to a solver, not yet linked to each other. *)
Record added (s s' : SudokuSolver) (ns : list Z) (hs N ids : list nat) (nms : list Z) : Prop := {
  add_built : built s' ns hs (N ++ ids);
  add_same : columns_ s' = columns_ s ∧ inout_ s' = inout_ s;
  add_links : old_links (cur_node_ s) (nodes_ s) (nodes_ s');
  add_old x : x < cur_node_ s → cols (nodes_ s') !! x = cols (nodes_ s) !! x ∧ names (nodes_ s') !! x = names (nodes_ s) !! x;
  add_new : Forall2 (λ n name, (names (nodes_ s') !! n = Some name ∧ cols (nodes_ s') !! n = columns_ s !! name) ∧
    lefts (nodes_ s') !! n = Some n ∧ rights (nodes_ s') !! n = Some n) ids nms
}.

Lemma added_cur s s' ns hs N ids nms : built s ns hs N → added s s' ns hs N ids nms → cur_node_ s' = cur_node_ s + length ids.
Proof.
  intros Hb Ha. rewrite (built_cur _ _ _ _ (add_built _ _ _ _ _ _ _ Ha)), (built_cur _ _ _ _ Hb). cbn. rewrite !length_app. lia.
Qed.

Lemma added_nil s ns hs N : built s ns hs N → added s s ns hs N [] [].
Proof. intros Hb. split; [by rewrite app_nil_r|done|done|done|constructor]. Qed.

Lemma added_row s s' ns hs N ids nms name :
  built s ns hs N → added s s' ns hs N ids nms → name ∈ ns → cur_node_ s' < kMaxNodes →
  ∃ s2, new_row name s' = Some (Ok (cur_node_ s', s2)) ∧ added s s2 ns hs N (ids ++ [cur_node_ s']) (nms ++ [name]).
Proof.
  intros Hb Ha Hname Hcur. pose proof (added_cur _ _ _ _ _ _ _ Hb Ha) as Ecur. destruct Ha as [Hb' [Ec Ei] Hl Ho Hn].
  apply list_elem_of_lookup in Hname as [k Hk]. destruct (Forall2_lookup_l _ _ _ _ _ (built_names _ _ _ _ Hb') Hk) as (c & Hk' & Hc).
  destruct (new_row_spec s' ns hs (N ++ ids) name c Hb' Hc Hcur) as (s2 & Hrow & Hb2 & Ec2 & Ei2 & El & Er & Eco & En).
  exists s2. split; [done|]. rewrite <- app_assoc in Hb2. split; [done|split; congruence| | |].
  - intros x Hx. rewrite El, Er, !lookup_insert_ne by lia. by apply Hl.
  - intros x Hx. rewrite Eco, En, !lookup_insert_ne by lia. by apply Ho.
  - apply Forall2_app; [|repeat constructor; rewrite ?El, ?Er, ?Eco, ?En, lookup_insert_eq; congruence].
    eapply Forall2_weaken_in; [exact Hn|]. intros x y Hx Hxy.
    assert (x < cur_node_ s') as Hlt by (apply (built_below _ _ _ _ Hb'); right; apply elem_of_app; right; apply elem_of_app; by right).
    cbn beta in *. by rewrite El, Er, Eco, En, !lookup_insert_ne by lia.
Qed.

(** Only the links among the new nodes change. *)
Lemma built_relinked s ns hs N h' r :
  built s ns hs N → old_links r (nodes_ s) h' → (∀ x, x ∈ 0 :: hs → x < r) → same_columns (nodes_ s) h' → built (with_nodes h' s) ns hs N.
Proof.
  intros [H1 H2 H3 H4 H5 H6 H7 H8 H9 H10] Hl Hr (Eu & Ed & Ec & En & Es). split; cbn [nodes_ with_nodes columns_ cur_node_ root_ stack_]; try done.
  - apply (old_chain r (nodes_ s)); [done| |done]. intros z. rewrite elem_of_cons, elem_of_app, list_elem_of_singleton. intros Hz. apply Hr.
    rewrite elem_of_cons. tauto.
  - intros c Hc. destruct (H7 c Hc) as [Hv Hs]. unfold col_in in *. rewrite Ec. by rewrite Eu, Ed, Es.
  - intros n Hn. rewrite Ec. by apply H8.
Qed.

Lemma add_choice_spec s ns hs os cs i v :
  options_built s ns hs os cs → (∀ name, name ∈ names4 (i, v) → name ∈ ns) → cur_node_ s + 4 ≤ kMaxNodes →
  ∃ s' o, add_choice i v s = Some (Ok s') ∧ options_built s' ns hs (os ++ [o]) (cs ++ [(i, v)]) ∧ inout_ s' = inout_ s.
Proof.
  intros [Hb Hrings Hopts] Hnames Hcur. set (r := cur_node_ s). pose proof (added_nil _ _ _ _ Hb) as A0.
  assert (∀ k, k ∈ names4 (i, v) → k ∈ ns) as Hin by done. unfold names4 in Hin. cbn [fst snd] in Hin.
  destruct (added_row _ _ _ _ _ _ _ i Hb A0) as (s1 & R1 & A1); [apply Hin; rewrite !elem_of_cons; tauto|lia|].
  pose proof (added_cur _ _ _ _ _ _ _ Hb A1) as C1. cbn in C1.
  destruct (added_row _ _ _ _ _ _ _ (get_row_col (row_of i) v) Hb A1) as (s2 & R2 & A2); [apply Hin; rewrite !elem_of_cons; tauto|lia|].
  pose proof (added_cur _ _ _ _ _ _ _ Hb A2) as C2. cbn in C2.
  destruct (added_row _ _ _ _ _ _ _ (get_col_col (col_of i) v) Hb A2) as (s3 & R3 & A3); [apply Hin; rewrite !elem_of_cons; tauto|lia|].
  pose proof (added_cur _ _ _ _ _ _ _ Hb A3) as C3. cbn in C3.
  destruct (added_row _ _ _ _ _ _ _ (get_box_col (box_of i) v) Hb A3) as (s4 & R4 & A4); [apply Hin; rewrite !elem_of_cons; tauto|lia|].
  fold r in C1, C2, C3, A4, R1. rewrite C1, C2, C3 in A4. cbn [app] in A4. rewrite C1 in R2. rewrite C2 in R3. rewrite C3 in R4.
  set (o := [r; r + 1; r + 2; r + 3]) in *. destruct A4 as [Hb4 [Ec Ei] Hl Ho Hn]. fold r in Hl, Ho.
  pose proof Hn as Hself. unfold o, names4 in Hself. repeat (apply Forall2_cons in Hself as [[_ [? ?]] Hself]).
  destruct (link_four (nodes_ s4) r) as (h' & Hput & Hring & Hl' & Hsame).
  { intros k Hk. destruct k as [|[|[|[|k]]]]; [rewrite Nat.add_0_r; done|done..|lia]. }
  assert (∀ x, x ∈ 0 :: hs ++ concat os → x < r) as Hbelow by (intros x Hx; by apply (built_below _ _ _ _ Hb)).
  assert (∀ o' x, o' ∈ os → x ∈ o' → x < r) as Hold.
  { intros o' x Ho' Hx. apply Hbelow. rewrite elem_of_cons, elem_of_app, elem_of_concat. right. right. by exists o'. }
  pose proof Hsame as (_ & _ & Ecols & Enames & _).
  assert (concat (os ++ [o]) = concat os ++ o) as Econ by (rewrite concat_app; cbn [concat]; by rewrite app_nil_r).
  exists (with_nodes h' s4), o. split_and!; [| |by cbn].
  - unfold add_choice. rewrite R1. pstep. rewrite R2. pstep. rewrite R3. pstep. rewrite R4. pstep. revert Hput. unfold on_nodes.
    destruct (put_left r (r + 1) (nodes_ s4)) as [[x|]|]; [|done..]. pstep. cbn [nodes_ with_nodes].
    destruct (put_left r (r + 2) x) as [[y|]|]; [|done..]. pstep. cbn [nodes_ with_nodes]. by intros ->.
  - split.
    + rewrite Econ. apply (built_relinked _ _ _ _ h' r Hb4 Hl'); [|done]. intros x Hx. apply Hbelow.
      rewrite elem_of_cons in Hx |- *. rewrite elem_of_app. tauto.
    + intros o' [Ho'| ->%list_elem_of_singleton]%elem_of_app; [|done]. intros p x q E. cbn [nodes_ with_nodes].
      assert (∀ z, z ∈ x :: (q ++ p) ++ [x] → z < r) as Hz.
      { intros z Hz. apply (Hold o' z Ho'). rewrite E. rewrite elem_of_cons, !elem_of_app, list_elem_of_singleton in Hz.
        rewrite elem_of_app, elem_of_cons. tauto. }
      apply (old_chain r (nodes_ s4) h'); [done|done|]. apply (old_chain r (nodes_ s)); [done|done|]. by apply (Hrings o').
    + apply Forall2_app.
      * eapply Forall2_weaken_in; [exact Hopts|]. intros o' c' Ho' Hoc. eapply Forall2_weaken_in; [exact Hoc|]. intros n name Hno [E1 E2].
        cbn [nodes_ with_nodes columns_]. rewrite Ecols, Enames, Ec. destruct (Ho n) as [-> ->]; [by apply (Hold o')|done].
      * constructor; [|constructor]. unfold option_of. cbn [nodes_ with_nodes columns_]. rewrite Ecols, Enames, Ec.
        eapply Forall2_impl; [exact Hn|]. by intros n name [? _].
Qed.

(** ** The loops of the constructor *)

Lemma foreach_spec {A S} (f : A → S → partial S) (xs : list A) (Inv : list A → S → Prop) :
  (∀ l1 x l2 s, xs = l1 ++ x :: l2 → Inv l1 s → ∃ s', f x s = Some (Ok s') ∧ Inv (l1 ++ [x]) s') →
  ∀ s, Inv [] s → ∃ s', foreach f xs s = Some (Ok s') ∧ Inv xs s'.
Proof.
  intros Hstep. assert (∀ l2 l1 s, xs = l1 ++ l2 → Inv l1 s → ∃ s', foreach f l2 s = Some (Ok s') ∧ Inv xs s') as Hall.
  { induction l2 as [|x l2 IH]; intros l1 s E Hs; cbn; [exists s; split; [done|]; by rewrite E, app_nil_r|].
    destruct (Hstep _ _ _ _ E Hs) as (s1 & -> & Hs1). pstep. apply (IH (l1 ++ [x])); [by rewrite <- app_assoc|done]. }
  intros s. by apply (Hall xs []).
Qed.

Lemma in_cells i : i ∈ seqZ 0 kCells ↔ (0 ≤ i < kCells)%Z.
Proof. rewrite elem_of_seqZ. lia. Qed.

Section Board.
Context (board : list Z).
Definition cell (i : Z) : Z := nth (Z.to_nat i) board 0%Z.
Context (Hcells : ∀ i, (0 ≤ i < kCells)%Z → (0 ≤ cell i ≤ 9)%Z).

(** The flags say which values are given in which unit. *)
Definition given (unit : Z → Z) (u v : Z) : Prop := ∃ i, (0 ≤ i < kCells)%Z ∧ unit i = u ∧ cell i = v.

Lemma set_flag_spec unit f l i :
  (0 ≤ i < kCells)%Z → (∀ u v, (u, v) ∈ f ↔ ∃ k, k ∈ l ∧ unit k = u ∧ cell k = v) →
  ∃ f', set_flag (unit i) (cell i) f = Some (Ok f') ∧ ∀ u v, (u, v) ∈ f' ↔ ∃ k, k ∈ l ++ [i] ∧ unit k = u ∧ cell k = v.
Proof.
  intros Hi Hf. unfold set_flag. specialize (Hcells i Hi).
  rewrite (proj2 (Z.leb_le 0 _)), (proj2 (Z.ltb_lt (cell i) 10)) by lia. eexists. split; [done|]. intros u v.
  rewrite elem_of_union, elem_of_singleton, Hf. setoid_rewrite elem_of_app. setoid_rewrite list_elem_of_singleton. split.
  - intros [E|(k & ? & ? & ?)]; [injection E as -> ->; exists i; tauto|exists k; tauto].
  - intros (k & [?| ->] & <- & <-); [right; by exists k|by left].
Qed.

Lemma set_flags_spec :
  ∃ rows cols boxes, set_flags board = Some (Ok (rows, cols, boxes)) ∧ ∀ u v,
    ((u, v) ∈ rows ↔ given row_of u v) ∧ ((u, v) ∈ cols ↔ given col_of u v) ∧ ((u, v) ∈ boxes ↔ given box_of u v).
Proof.
  set (marked := λ (unit : Z → Z) (f : Flags) (l : list Z), ∀ u v, (u, v) ∈ f ↔ ∃ k, k ∈ l ∧ unit k = u ∧ cell k = v).
  destruct (foreach_spec (λ i '(rows, cols, boxes),
    let val := nth (Z.to_nat i) board 0%Z in
    rows ← set_flag (row_of i) val rows; cols ← set_flag (col_of i) val cols; boxes ← set_flag (box_of i) val boxes;
    mret (rows, cols, boxes)) (seqZ 0 kCells) (λ l '(rows, cols, boxes), marked row_of rows l ∧ marked col_of cols l ∧ marked box_of boxes l))
    with (s := (∅ : Flags, ∅ : Flags, ∅ : Flags)) as ([[rows cols] boxes] & Hf & H1 & H2 & H3).
  - intros l1 i l2 [[rows cols] boxes] E (H1 & H2 & H3).
    assert (0 ≤ i < kCells)%Z as Hi by (apply in_cells; rewrite E; apply elem_of_app; right; by left).
    destruct (set_flag_spec row_of rows l1 i Hi H1) as (f1 & E1 & G1), (set_flag_spec col_of cols l1 i Hi H2) as (f2 & E2 & G2),
      (set_flag_spec box_of boxes l1 i Hi H3) as (f3 & E3 & G3).
    exists (f1, f2, f3). split; [|done]. unfold cell in E1, E2, E3. cbv beta iota zeta. rewrite E1. pstep. rewrite E2. pstep. rewrite E3. done.
  - split_and!; intros u v; (split; [intros Hin; by apply not_elem_of_empty in Hin|intros (k & Hk & _); by apply not_elem_of_nil in Hk]).
  - exists rows, cols, boxes. split; [exact Hf|]. intros u v. unfold given. setoid_rewrite <- in_cells. split_and!; [apply H1|apply H2|apply H3].
Qed.

(** The names of the columns, in the order in which they are appended. *)
Context (rows cols boxes : Flags).

Definition cell_cols : list Z := filter (λ i, cell i = 0%Z) (seqZ 0 kCells).
Definition unless_in (f : Flags) (i v n : Z) : list Z := if decide ((i, v) ∈ f) then [] else [n].
Definition unit_cols (i v : Z) : list Z :=
  unless_in rows i v (get_row_col i v) ++ unless_in cols i v (get_col_col i v) ++ unless_in boxes i v (get_box_col i v).
Definition units_cols (i : Z) : list Z := concat (unit_cols i <$> seqZ 1 9).
Definition board_cols : list Z := cell_cols ++ concat (units_cols <$> seqZ 0 9).

(** All names there can be. *)
Definition all_cols : list Z :=
  seqZ 0 kCells ++ concat ((λ i, concat ((λ v, [get_row_col i v] ++ [get_col_col i v] ++ [get_box_col i v]) <$> seqZ 1 9)) <$> seqZ 0 9).

Lemma sublist_concat {A B} (f g : A → list B) xs : (∀ x, f x `sublist_of` g x) → concat (f <$> xs) `sublist_of` concat (g <$> xs).
Proof. intros Hfg. induction xs as [|x xs IH]; [done|]. cbn. by apply sublist_app. Qed.

Lemma unless_in_sublist f i v n : unless_in f i v n `sublist_of` [n].
Proof. unfold unless_in. destruct (decide _); [apply sublist_nil_l|done]. Qed.

Lemma unless_in_notin f i v n : (i, v) ∉ f → unless_in f i v n = [n].
Proof. intros Hn. unfold unless_in. by rewrite decide_False. Qed.

Lemma board_cols_sublist : board_cols `sublist_of` all_cols.
Proof.
  apply sublist_app; [apply sublist_filter|]. apply sublist_concat. intros i. apply sublist_concat. intros v.
  repeat apply sublist_app; apply unless_in_sublist.
Qed.

Lemma board_cols_nodup : NoDup board_cols.
Proof. eapply sublist_NoDup; [|apply board_cols_sublist]. apply (bool_decide_unpack _). by vm_compute. Qed.

Lemma board_cols_range n : n ∈ board_cols → (0 ≤ n < kColumns)%Z.
Proof.
  intros Hn. assert (Forall (λ n, 0 ≤ n < kColumns)%Z all_cols) as Hall by (apply (bool_decide_unpack _); by vm_compute).
  rewrite Forall_forall in Hall. apply Hall. exact (elem_of_sublist _ _ _ Hn board_cols_sublist).
Qed.

Lemma board_cols_length : length board_cols ≤ 324.
Proof. etransitivity; [apply sublist_length, board_cols_sublist|]. apply Nat.leb_le. by vm_compute. Qed.

(** A solver with the first columns [ns] of the board. *)
Definition columns_built (ns : list Z) (s : SudokuSolver) : Prop := (∃ hs, built s ns hs []) ∧ inout_ s = board.

Lemma built_cur_ns s ns hs N : built s ns hs N → cur_node_ s = S (length ns + length N).
Proof. intros Hb. rewrite (built_cur _ _ _ _ Hb), (Forall2_length _ _ _ (built_names _ _ _ _ Hb)). cbn. by rewrite length_app. Qed.

Lemma append_step ns n more s : columns_built ns s → ns ++ n :: more = board_cols →
  ∃ s', append_column n s = Some (Ok s') ∧ columns_built (ns ++ [n]) s'.
Proof.
  intros [[hs Hb] Hi] E. pose proof board_cols_nodup as Hd. pose proof board_cols_length as Hl. rewrite <- E in Hd, Hl.
  rewrite length_app in Hl. cbn in Hl. apply NoDup_app in Hd as (_ & Hd & _).
  destruct (append_column_spec s ns hs n Hb) as (s' & Hs & Hb' & Hi').
  - intros Hin. apply (Hd n Hin). by left.
  - apply board_cols_range. rewrite <- E, elem_of_app, elem_of_cons. tauto.
  - rewrite (built_cur_ns _ _ _ _ Hb). cbn. pose proof kMaxNodes_value. lia.
  - exists s'. split; [done|]. split; [by eexists|congruence].
Qed.

Lemma append_unless_step f ns i v n more s : columns_built ns s → ns ++ unless_in f i v n ++ more = board_cols →
  ∃ s', append_unless f i v n s = Some (Ok s') ∧ columns_built (ns ++ unless_in f i v n) s'.
Proof.
  intros Hs E. unfold append_unless, unless_in in *. destruct (decide _) as [Hin|Hin].
  - rewrite bool_decide_true by done. exists s. split; [done|by rewrite app_nil_r].
  - rewrite bool_decide_false by done. by apply (append_step ns n more).
Qed.

Lemma append_cells_spec s : columns_built [] s → ∃ s', append_cells s = Some (Ok s') ∧ columns_built cell_cols s'.
Proof.
  intros Hs. unfold append_cells. apply (foreach_spec _ (seqZ 0 kCells) (λ l s, columns_built (filter (λ i, cell i = 0%Z) l) s)); [|done].
  intros l1 i l2 s1 E Hs1. rewrite filter_app, filter_cons, filter_nil. rewrite (proj2 Hs1). fold (cell i).
  assert (cell_cols = filter (λ i, cell i = 0%Z) l1 ++ filter (λ i, cell i = 0%Z) (i :: l2)) as Ec by (unfold cell_cols; by rewrite E, filter_app).
  rewrite filter_cons in Ec. destruct (decide (cell i = 0%Z)) as [H0|H0].
  - rewrite (proj2 (Z.eqb_eq _ _) H0). apply (append_step _ i (filter (λ i, cell i = 0%Z) l2 ++ concat (units_cols <$> seqZ 0 9))); [done|].
    unfold board_cols. rewrite Ec. by rewrite <- app_assoc.
  - rewrite (proj2 (Z.eqb_neq _ _) H0), app_nil_r. by exists s1.
Qed.

Lemma append_units_spec s : columns_built cell_cols s → ∃ s', append_units rows cols boxes s = Some (Ok s') ∧ columns_built board_cols s'.
Proof.
  intros Hs. unfold append_units.
  apply (foreach_spec _ (seqZ 0 9) (λ l s, columns_built (cell_cols ++ concat (units_cols <$> l)) s)); [|by rewrite app_nil_r].
  intros l1 i l2 s1 E Hs1. set (ns := cell_cols ++ concat (units_cols <$> l1)) in *.
  assert (∀ m1 v m2, seqZ 1 9 = m1 ++ v :: m2 → (ns ++ concat (unit_cols i <$> m1)) ++ unit_cols i v ++
    concat (unit_cols i <$> m2) ++ concat (units_cols <$> l2) = board_cols) as Hsplit.
  { intros m1 v m2 Em. assert (units_cols i = concat (unit_cols i <$> m1) ++ unit_cols i v ++ concat (unit_cols i <$> m2)) as Eu.
    { unfold units_cols. by rewrite Em, fmap_app, concat_app, fmap_cons. }
    unfold board_cols, ns. rewrite E, fmap_app, concat_app, fmap_cons. cbn [concat]. rewrite Eu. by rewrite <- !app_assoc. }
  destruct (foreach_spec (λ v s, s ← append_unless rows i v (get_row_col i v) s; s ← append_unless cols i v (get_col_col i v) s;
    append_unless boxes i v (get_box_col i v) s) (seqZ 1 9) (λ m s, columns_built (ns ++ concat (unit_cols i <$> m)) s)) with (s := s1)
    as (s2 & Hf & Hs2); [|by rewrite app_nil_r|].
  - intros m1 v m2 s2 Em Hs2. specialize (Hsplit m1 v m2 Em). set (ns1 := ns ++ concat (unit_cols i <$> m1)) in *.
    unfold unit_cols at 1 in Hsplit. rewrite <- !app_assoc in Hsplit.
    destruct (append_unless_step _ _ _ _ _ _ _ Hs2 Hsplit) as (s3 & -> & Hs3). pstep. rewrite app_assoc in Hsplit.
    destruct (append_unless_step _ _ _ _ _ _ _ Hs3 Hsplit) as (s4 & -> & Hs4). pstep. rewrite app_assoc in Hsplit.
    destruct (append_unless_step _ _ _ _ _ _ _ Hs4 Hsplit) as (s5 & -> & Hs5). exists s5. split; [done|].
    rewrite fmap_app, concat_app. cbn [fmap list_fmap concat]. unfold unit_cols at 2. rewrite app_nil_r. rewrite <- !app_assoc in Hs5. by rewrite app_assoc.
  - exists s2. split; [done|]. rewrite fmap_app, concat_app. cbn [fmap list_fmap concat]. rewrite app_nil_r. by rewrite app_assoc.
Qed.

(** ** Choices *)

Definition blocked (i v : Z) : bool :=
  bool_decide ((row_of i, v) ∈ rows) || bool_decide ((col_of i, v) ∈ cols) || bool_decide ((box_of i, v) ∈ boxes).
Definition cell_choices (i : Z) : list (Z * Z) :=
  if decide (cell i = 0%Z) then pair i <$> filter (λ v, blocked i v = false) (seqZ 1 9) else [].
Definition board_choices : list (Z * Z) := concat (cell_choices <$> seqZ 0 kCells).

Lemma board_choices_elem i v :
  (i, v) ∈ board_choices ↔ (0 ≤ i < kCells ∧ 1 ≤ v ≤ 9)%Z ∧ cell i = 0%Z ∧ blocked i v = false.
Proof.
  unfold board_choices. rewrite elem_of_concat. split.
  - intros (l & Hl & (j & -> & Hj)%list_elem_of_fmap). apply in_cells in Hj. unfold cell_choices in Hl.
    destruct (decide _) as [H0|]; [|by apply not_elem_of_nil in Hl]. apply list_elem_of_fmap in Hl as (w & E & Hw). injection E as -> ->.
    apply list_elem_of_filter in Hw as [Hb Hw]. apply elem_of_seqZ in Hw. split_and!; try done; lia.
  - intros ([Hi Hv] & H0 & Hb). exists (cell_choices i). split; [|apply list_elem_of_fmap_2; by apply in_cells].
    unfold cell_choices. rewrite decide_True by done. apply list_elem_of_fmap_2, list_elem_of_filter. split; [done|]. apply elem_of_seqZ. lia.
Qed.

Lemma unit_range i : (0 ≤ i < kCells → 0 ≤ row_of i < 9 ∧ 0 ≤ col_of i < 9 ∧ 0 ≤ box_of i < 9)%Z.
Proof. unfold kCells, box_of, row_of, col_of. intros. Z.to_euclidean_division_equations. lia. Qed.

(** The columns of a choice are there. *)
Lemma choice_columns i v name : (i, v) ∈ board_choices → name ∈ names4 (i, v) → name ∈ board_cols.
Proof.
  intros ([Hi Hv] & H0 & Hb)%board_choices_elem Hn. destruct (unit_range i Hi) as (Hr & Hc & Hx).
  unfold blocked in Hb. apply orb_false_iff in Hb as [[Hb1 Hb2]%orb_false_iff Hb3]. rewrite bool_decide_eq_false in Hb1, Hb2, Hb3.
  unfold board_cols. rewrite elem_of_app. unfold names4 in Hn. cbn [fst snd] in Hn. rewrite !elem_of_cons, elem_of_nil in Hn.
  assert (∀ u, (0 ≤ u < 9)%Z → name ∈ unit_cols u v → name ∈ concat (units_cols <$> seqZ 0 9)) as Hunit.
  { intros u Hu Hin. apply elem_of_concat. exists (units_cols u). split; [|apply list_elem_of_fmap_2, elem_of_seqZ; lia].
    apply elem_of_concat. exists (unit_cols u v). split; [done|]. apply list_elem_of_fmap_2, elem_of_seqZ. lia. }
  destruct Hn as [->|[->|[->|[->|[]]]]]; [left|right; apply (Hunit _ Hr)|right; apply (Hunit _ Hc)|right; apply (Hunit _ Hx)].
  - apply list_elem_of_filter. split; [done|by apply in_cells].
  - unfold unit_cols. rewrite !elem_of_app, (unless_in_notin rows) by done. left. by left.
  - unfold unit_cols. rewrite !elem_of_app, (unless_in_notin cols) by done. right. left. by left.
  - unfold unit_cols. rewrite !elem_of_app, (unless_in_notin boxes) by done. right. right. by left.
Qed.

(** All choices there can be. *)
Definition all_choices : list (Z * Z) := concat ((λ i, pair i <$> seqZ 1 9) <$> seqZ 0 kCells).

Lemma board_choices_sublist : board_choices `sublist_of` all_choices.
Proof.
  apply sublist_concat. intros i. unfold cell_choices. destruct (decide _); [apply fmap_sublist, sublist_filter|apply sublist_nil_l].
Qed.
Lemma board_choices_length : length board_choices ≤ 729.
Proof. etransitivity; [apply sublist_length, board_choices_sublist|apply Nat.leb_le; by vm_compute]. Qed.
Lemma board_choices_nodup : NoDup board_choices.
Proof. eapply sublist_NoDup; [|apply board_choices_sublist]. apply (bool_decide_unpack _). by vm_compute. Qed.

Definition choices_built (cs : list (Z * Z)) (s : SudokuSolver) : Prop :=
  (∃ hs os, options_built s board_cols hs os cs) ∧ inout_ s = board.

Lemma options_length h columns os cs : Forall2 (option_of h columns) os cs → length (concat os) = 4 * length cs.
Proof. induction 1 as [|o c os cs Ho Hos IH]; [done|]. cbn [concat]. rewrite length_app, IH, (Forall2_length _ _ _ Ho). cbn. lia. Qed.

Lemma choice_step cs i v more s : choices_built cs s → cs ++ (i, v) :: more = board_choices →
  ∃ s', add_choice i v s = Some (Ok s') ∧ choices_built (cs ++ [(i, v)]) s'.
Proof.
  intros [(hs & os & Hb) Hi] E. pose proof board_choices_length as Hl. pose proof board_cols_length as Hl'.
  assert ((i, v) ∈ board_choices) as Hin by (rewrite <- E; apply elem_of_app; right; by left).
  rewrite <- E, length_app in Hl. cbn in Hl.
  destruct (add_choice_spec s board_cols hs os cs i v Hb) as (s' & o & Hs & Hb' & Hi').
  - intros name. by apply choice_columns.
  - rewrite (built_cur_ns _ _ _ _ (ob_built _ _ _ _ _ Hb)), (options_length _ _ _ _ (ob_options _ _ _ _ _ Hb)). pose proof kMaxNodes_value. lia.
  - exists s'. split; [done|]. split; [by eexists _, _|congruence].
Qed.

Lemma add_choices_spec s : columns_built board_cols s → ∃ s', add_choices rows cols boxes s = Some (Ok s') ∧ choices_built board_choices s'.
Proof.
  intros [[hs Hb] Hi]. unfold add_choices. apply (foreach_spec _ (seqZ 0 kCells) (λ l s, choices_built (concat (cell_choices <$> l)) s)).
  2: { split; [|done]. exists hs, []. split; [done|intros o Ho; by apply not_elem_of_nil in Ho|constructor]. }
  intros l1 i l2 s1 E Hs1. rewrite (proj2 Hs1). fold (cell i). rewrite fmap_app, concat_app. cbn [fmap list_fmap concat]. rewrite app_nil_r.
  assert (board_choices = concat (cell_choices <$> l1) ++ cell_choices i ++ concat (cell_choices <$> l2)) as Eb.
  { unfold board_choices. by rewrite E, fmap_app, concat_app, fmap_cons. }
  set (cs := concat (cell_choices <$> l1)) in *. unfold cell_choices at 1 in Eb. unfold cell_choices at 1.
  destruct (decide (cell i = 0%Z)) as [H0|H0]; [|rewrite (proj2 (Z.eqb_neq _ _) H0), app_nil_r; by exists s1].
  rewrite (proj2 (Z.eqb_eq _ _) H0).
  apply (foreach_spec _ (seqZ 1 9) (λ m s, choices_built (cs ++ (pair i <$> filter (λ v, blocked i v = false) m)) s)); [|by rewrite app_nil_r].
  intros m1 v m2 s2 Em Hs2. rewrite Em, filter_app, fmap_app, filter_cons in Eb. rewrite filter_app, fmap_app, filter_cons, filter_nil, app_assoc.
  fold (blocked i v). destruct (decide (blocked i v = false)) as [Hf|Hf].
  - rewrite Hf. eapply choice_step; [exact Hs2|]. rewrite Eb. cbn [fmap list_fmap]. by rewrite <- !app_assoc.
  - apply not_false_iff_true in Hf. rewrite Hf, app_nil_r. by exists s2.
Qed.
End Board.

(** ** The constructor *)

Lemma SudokuSolver_new_spec board :
  (∀ i, (0 ≤ i < kCells)%Z → (0 ≤ cell board i ≤ 9)%Z) →
  ∃ rows cols boxes s, SudokuSolver_new board = Some (Ok s) ∧ choices_built board rows cols boxes (board_choices board rows cols boxes) s ∧
    ∀ u v, ((u, v) ∈ rows ↔ given board row_of u v) ∧ ((u, v) ∈ cols ↔ given board col_of u v) ∧ ((u, v) ∈ boxes ↔ given board box_of u v).
Proof.
  intros Hcells. destruct (set_flags_spec board Hcells) as (rows & cols & boxes & Hf & Hflags).
  set (h0 := new_node 0 0 0 Heap_empty). set (s0 := mkSolver 0 board ∅ [] h0 1).
  assert (columns_built board [] s0) as Hs0.
  { split; [|done]. exists []. split; cbn; try done.
    - apply NoDup_singleton.
    - intros x ->%list_elem_of_singleton. lia.
    - intros c Hc. by apply not_elem_of_nil in Hc.
    - intros n Hn. by apply not_elem_of_nil in Hn.
    - by intros n [? ?].
    - intros n Hn. by apply not_elem_of_nil in Hn. }
  destruct (append_cells_spec board rows cols boxes s0 Hs0) as (s1 & H1 & Hs1).
  destruct (append_units_spec board rows cols boxes s1 Hs1) as (s2 & H2 & Hs2).
  destruct (add_choices_spec board rows cols boxes s2 Hs2) as (s3 & H3 & Hs3).
  exists rows, cols, boxes, s3. split_and!; [|done|done]. unfold SudokuSolver_new, new_column, assertp, assertb, lift.
  rewrite bool_decide_true by (cbn; pose proof kMaxNodes_value; lia). pstep. cbn [cur_node_ nodes_].
  assert (set_right 0 0 h0 = Some (Ok h0) ∧ set_left 0 0 h0 = Some (Ok h0)) as [Er El] by (split; by vm_compute).
  fold h0. rewrite Er. pstep. rewrite El. pstep. rewrite Hf. pstep. fold s0. rewrite H1. pstep. rewrite H2. pstep. exact H3.
Qed.
