(* ===== verification/SudokuSpec.v ===== *)
(** * The Sudoku solver is correct

    The exact covers of the problem that the constructor builds are the solutions
    of the puzzle, so [solveSudoku] returns a solution if there is one, and says
    so if there is none. *)
From Stdlib Require Import Strings.Byte.
From stdpp Require Import base numbers list strings gmap.
From S2P Require Import Prelude Sudoku DancingLinks ExactCover SudokuBuild.
Open Scope Z_scope.
Open Scope muduo_scope.
#[local] Opaque walk_fuel kMaxNodes.

(** ** What a solution is *)

(** The cells of a row, a column or a box. *)
Definition cells_of (unit : Z → Z) (u : Z) : list Z := filter (λ i, unit i = u) (seqZ 0 kCells).
Definition units : list (Z → Z) := [row_of; col_of; box_of].

(** A filled grid that agrees with the givens and has every value once in every unit. *)
Record solution (board grid : list Z) : Prop := {
  sol_length : size_of grid = kCells;
  sol_given i : 0 ≤ i < kCells → cell board i ≠ 0 → cell grid i = cell board i;
  sol_units unit u : unit ∈ units → 0 ≤ u < 9 → cell grid <$> cells_of unit u ≡ₚ seqZ 1 9
}.

Lemma cells_of_elem unit u i : i ∈ cells_of unit u ↔ unit i = u ∧ 0 ≤ i < kCells.
Proof. unfold cells_of. by rewrite list_elem_of_filter, in_cells. Qed.

Lemma cells_of_length unit u : unit ∈ units → 0 ≤ u < 9 → length (cells_of unit u) = 9%nat.
Proof.
  intros Hunit Hu. assert (u ∈ seqZ 0 9) as Hin by (apply elem_of_seqZ; lia). clear Hu. revert u Hin. apply Forall_forall.
  unfold units in Hunit. rewrite !elem_of_cons, elem_of_nil in Hunit.
  destruct Hunit as [->|[->|[->|[]]]]; apply (bool_decide_unpack _); by vm_compute.
Qed.

Lemma unit_in_range unit i : unit ∈ units → 0 ≤ i < kCells → 0 ≤ unit i < 9.
Proof.
  unfold units. rewrite !elem_of_cons, elem_of_nil. intros Hunit Hi. destruct (unit_range i Hi) as (? & ? & ?).
  by destruct Hunit as [->|[->|[->|[]]]].
Qed.

(** In a unit with every value, no value is there twice. *)
Lemma solution_inj board grid unit i j : solution board grid → unit ∈ units →
  0 ≤ i < kCells → 0 ≤ j < kCells → unit i = unit j → cell grid i = cell grid j → i = j.
Proof.
  intros Hs Hunit Hi Hj Hu Hv. pose proof (sol_units _ _ Hs unit (unit i) Hunit (unit_in_range _ _ Hunit Hi)) as HP.
  assert (NoDup (cell grid <$> cells_of unit (unit i))) as Hd by (rewrite HP; apply NoDup_seqZ).
  assert (i ∈ cells_of unit (unit i) ∧ j ∈ cells_of unit (unit i)) as [H1 H2] by (rewrite !cells_of_elem; done).
  apply list_elem_of_lookup in H1 as [k1 H1], H2 as [k2 H2]. assert (k1 = k2) as ->; [|congruence].
  eapply NoDup_lookup; [exact Hd|by rewrite list_lookup_fmap, H1|]. rewrite list_lookup_fmap, H2. cbn. by rewrite Hv.
Qed.

Lemma solution_value board grid i : solution board grid → 0 ≤ i < kCells → 1 ≤ cell grid i ≤ 9.
Proof.
  intros Hs Hi. assert (row_of ∈ units) as Hu by (by left). pose proof (sol_units _ _ Hs row_of (row_of i) Hu (unit_in_range _ _ Hu Hi)) as HP.
  assert (cell grid i ∈ cell grid <$> cells_of row_of (row_of i)) as Hin by (apply list_elem_of_fmap_2, cells_of_elem; done).
  rewrite HP in Hin. apply elem_of_seqZ in Hin. lia.
Qed.

(** A unit with every value has each of them once. *)
Lemma unit_complete grid unit u : unit ∈ units → 0 ≤ u < 9 →
  (∀ v, 1 ≤ v ≤ 9 → ∃ i, 0 ≤ i < kCells ∧ unit i = u ∧ cell grid i = v) → cell grid <$> cells_of unit u ≡ₚ seqZ 1 9.
Proof.
  intros Hunit Hu Hall. symmetry. apply submseteq_length_Permutation.
  - apply NoDup_submseteq; [apply NoDup_seqZ|]. intros v Hv. apply elem_of_seqZ in Hv. destruct (Hall v ltac:(lia)) as (i & Hi & <- & <-).
    apply list_elem_of_fmap_2, cells_of_elem. done.
  - rewrite length_fmap, cells_of_length by done. done.
Qed.


(** ** Names *)

(** The units, with the names of their columns. *)
Definition kinds : list ((Z → Z) * (Z → Z → Z)) := [(row_of, get_row_col); (col_of, get_col_col); (box_of, get_box_col)].

Lemma kinds_cases (P : (Z → Z) * (Z → Z → Z) → Prop) :
  P (row_of, get_row_col) → P (col_of, get_col_col) → P (box_of, get_box_col) → ∀ k, k ∈ kinds → P k.
Proof. intros H1 H2 H3 k. unfold kinds. rewrite !elem_of_cons, elem_of_nil. by intros [->|[->|[->|[]]]]. Qed.

Lemma kind_unit k : k ∈ kinds → k.1 ∈ units.
Proof. revert k. apply kinds_cases; unfold units; rewrite !elem_of_cons; tauto. Qed.

Lemma unit_kind unit : unit ∈ units → ∃ k, k ∈ kinds ∧ k.1 = unit.
Proof.
  unfold units, kinds. rewrite !elem_of_cons, elem_of_nil. intros [->|[->|[->|[]]]];
    [exists (row_of, get_row_col)|exists (col_of, get_col_col)|exists (box_of, get_box_col)]; (split; [rewrite !elem_of_cons; tauto|done]).
Qed.

(** A name tells the unit and the value. *)
Lemma names4_unit k i v u w : k ∈ kinds → 0 ≤ i < kCells → 1 ≤ v ≤ 9 → 0 ≤ u < 9 → 1 ≤ w ≤ 9 →
  k.2 u w ∈ names4 (i, v) ↔ k.1 i = u ∧ w = v.
Proof.
  intros Hk Hi Hv Hu Hw. destruct (unit_range i Hi) as (Hr & Hc & Hb). unfold kCells in Hi. revert k Hk.
  apply kinds_cases; unfold names4, get_row_col, get_col_col, get_box_col, kRow, kCol, kBox; cbn [fst snd]; rewrite !elem_of_cons, elem_of_nil;
    (split; [intros [?|[?|[?|[?|[]]]]]; lia|intros [<- <-]; tauto]).
Qed.

Lemma names4_cell i v j : 0 ≤ i < kCells → 1 ≤ v ≤ 9 → 0 ≤ j < kCells → j ∈ names4 (i, v) ↔ j = i.
Proof.
  intros Hi Hv Hj. destruct (unit_range i Hi) as (Hr & Hc & Hb). unfold kCells in *.
  unfold names4, get_row_col, get_col_col, get_box_col, kRow, kCol, kBox; cbn [fst snd]; rewrite !elem_of_cons, elem_of_nil. lia.
Qed.

Lemma names4_cases i v name : name ∈ names4 (i, v) → name = i ∨ ∃ k, k ∈ kinds ∧ name = k.2 (k.1 i) v.
Proof.
  unfold names4, kinds. cbn [fst snd]. rewrite !elem_of_cons, elem_of_nil. intros [->|[->|[->|[->|[]]]]]; [by left|right..].
  - exists (row_of, get_row_col). split; [by left|done].
  - exists (col_of, get_col_col). split; [right; by left|done].
  - exists (box_of, get_box_col). split; [right; right; by left|done].
Qed.

(** ** Filling in choices *)

Lemma cell_insert l i j v : 0 ≤ i < size_of l → 0 ≤ j → cell (<[ Z.to_nat i := v ]> l) j = if decide (j = i) then v else cell l j.
Proof.
  intros Hi Hj. unfold cell, size_of in *. rewrite !nth_lookup. destruct (decide (j = i)) as [->|Hne].
  - by rewrite list_lookup_insert_eq by lia.
  - by rewrite list_lookup_insert_ne by lia.
Qed.

Section Fill.
Context (ch : list nat → Z * Z).

Lemma fill_length S : ∀ b, size_of (fill ch S b) = size_of b.
Proof. induction S as [|o S IH]; intros b; [done|]. unfold fill in *. cbn. rewrite IH. unfold size_of. by rewrite length_insert. Qed.

Lemma fill_out S i : ∀ b, (∀ o, o ∈ S → 0 ≤ (ch o).1 < size_of b) → 0 ≤ i → i ∉ (λ o, (ch o).1) <$> S → cell (fill ch S b) i = cell b i.
Proof.
  induction S as [|o S IH]; intros b Hr Hi Hn; [done|]. rewrite fmap_cons, not_elem_of_cons in Hn. destruct Hn as [Hne Hn].
  change (fill ch (o :: S) b) with (fill ch S (<[ Z.to_nat (ch o).1 := (ch o).2 ]> b)). rewrite IH; [|intros o' Ho'|done|done].
  - rewrite cell_insert by (done || (apply Hr; by left)). by rewrite decide_False.
  - unfold size_of. rewrite length_insert. apply Hr. by right.
Qed.

Lemma fill_in S o : ∀ b, (∀ o, o ∈ S → 0 ≤ (ch o).1 < size_of b) → NoDup ((λ o, (ch o).1) <$> S) → o ∈ S →
  cell (fill ch S b) (ch o).1 = (ch o).2.
Proof.
  induction S as [|o' S IH]; intros b Hr Hd Ho; [by apply not_elem_of_nil in Ho|]. rewrite fmap_cons in Hd. apply NoDup_cons in Hd as [Hn Hd].
  change (fill ch (o' :: S) b) with (fill ch S (<[ Z.to_nat (ch o').1 := (ch o').2 ]> b)).
  assert (∀ o, o ∈ S → 0 ≤ (ch o).1 < size_of (<[ Z.to_nat (ch o').1 := (ch o').2 ]> b)) as Hr'.
  { intros o2 Ho2. unfold size_of. rewrite length_insert. apply Hr. by right. }
  pose proof (Hr o' ltac:(by left)) as Ho'. apply elem_of_cons in Ho as [->|Ho]; [|by apply IH].
  rewrite fill_out by (done || lia). rewrite cell_insert by lia. by rewrite decide_True.
Qed.
End Fill.

(** ** The problem that was built *)

Section Built.
Context (board : list Z) (rows cols boxes : Flags) (s : SudokuSolver) (hs : list nat) (os : list (list nat)).
Context (Hflags : ∀ u v, ((u, v) ∈ rows ↔ given board row_of u v) ∧ ((u, v) ∈ cols ↔ given board col_of u v) ∧ ((u, v) ∈ boxes ↔ given board box_of u v)).
Let names := board_cols board rows cols boxes.
Let choices := board_choices board rows cols boxes.
Context (Hbuilt : options_built s names hs os choices).
Let colf := col_in (nodes_ s).
Let namef := name_in (nodes_ s).

(** The column with a name. *)
Definition header (name : Z) : nat := default 0%nat (columns_ s !! name).
(** The cell and the value of an option. *)
Definition choice (o : list nat) : Z * Z :=
  match o with n0 :: n1 :: _ => (namef n0, Z.rem (namef n1) 10) | _ => (0, 0) end.

Lemma headers_named : hs = header <$> names.
Proof.
  assert (∀ ns cs, Forall2 (λ n c, columns_ s !! n = Some c) ns cs → cs = header <$> ns) as Hall.
  { intros ns cs Hn. induction Hn as [|n c ns cs Hc Hn IH]; [done|]. rewrite fmap_cons. unfold header at 1. rewrite Hc. cbn. by f_equal. }
  exact (Hall _ _ (built_names _ _ _ _ (ob_built _ _ _ _ _ Hbuilt))).
Qed.

Lemma headers_nodup : NoDup hs.
Proof.
  pose proof (built_nodup _ _ _ _ (ob_built _ _ _ _ _ Hbuilt)) as Hd. apply NoDup_cons in Hd as [_ Hd].
  by apply NoDup_app in Hd as (? & _).
Qed.

Lemma header_inj n1 n2 : n1 ∈ names → n2 ∈ names → header n1 = header n2 → n1 = n2.
Proof.
  intros H1 H2 E. pose proof headers_nodup as Hd. rewrite headers_named in Hd.
  apply list_elem_of_lookup in H1 as [k1 H1], H2 as [k2 H2]. assert (k1 = k2) as ->; [|congruence].
  eapply NoDup_lookup; [exact Hd|by rewrite list_lookup_fmap, H1|]. rewrite list_lookup_fmap, H2. cbn. by rewrite E.
Qed.

Lemma choice_range i v : (i, v) ∈ choices → 0 ≤ i < kCells ∧ 1 ≤ v ≤ 9.
Proof. intros Hin%board_choices_elem. tauto. Qed.

(** Names, columns and choices of the options. *)
Lemma option_named o c : option_of (nodes_ s) (columns_ s) o c → c ∈ choices →
  namef <$> o = names4 c ∧ colf <$> o = header <$> names4 c ∧ choice o = c.
Proof.
  intros Ho Hc. assert (namef <$> o = names4 c ∧ colf <$> o = header <$> names4 c) as [En Ec].
  { clear Hc. unfold option_of in Ho. induction Ho as [|n name o ns [H1 H2] Ho [IH1 IH2]]; [done|]. cbn. split; f_equal; try done.
    - unfold namef, name_in. by rewrite H1.
    - unfold colf, col_in, header. by rewrite H2. }
  split_and!; [done|done|]. destruct c as [i v]. destruct (choice_range i v Hc) as [Hi Hv]. destruct (unit_range i Hi) as (Hr & _ & _).
  destruct o as [|n0 [|n1 o]]; try done. cbn in En |- *. injection En as -> -> _. f_equal.
  apply (unit_name 1); lia.
Qed.

Lemma choices_of_options : choice <$> os = choices.
Proof.
  assert (∀ os cs, Forall2 (option_of (nodes_ s) (columns_ s)) os cs → (∀ c, c ∈ cs → c ∈ choices) → choice <$> os = cs) as Hall.
  { intros os' cs Ho. induction Ho as [|o c os' cs Ho Hos IH]; intros Hsub; [done|]. rewrite fmap_cons.
    rewrite (proj2 (proj2 (option_named o c Ho (Hsub c ltac:(by left))))). f_equal. apply IH. intros. apply Hsub. by right. }
  exact (Hall _ _ (ob_options _ _ _ _ _ Hbuilt) (λ c Hc, Hc)).
Qed.

Lemma option_facts o : o ∈ os → choice o ∈ choices ∧ option_of (nodes_ s) (columns_ s) o (choice o) ∧
  namef <$> o = names4 (choice o) ∧ colf <$> o = header <$> names4 (choice o).
Proof.
  intros Ho. apply list_elem_of_lookup in Ho as [k Hk].
  destruct (Forall2_lookup_l _ _ _ _ _ (ob_options _ _ _ _ _ Hbuilt) Hk) as (c & Hc & Hoc).
  assert (c ∈ choices) as Hin by (by eapply list_elem_of_lookup_2). destruct (option_named o c Hoc Hin) as (H1 & H2 & ->). done.
Qed.

Lemma choice_option c : c ∈ choices → ∃ o, o ∈ os ∧ choice o = c.
Proof. rewrite <- choices_of_options. intros (o & -> & ?)%list_elem_of_fmap. eauto. Qed.

Lemma choice_inj o1 o2 : o1 ∈ os → o2 ∈ os → choice o1 = choice o2 → o1 = o2.
Proof.
  intros H1 H2 E. assert (NoDup (choice <$> os)) as Hd by (rewrite choices_of_options; apply board_choices_nodup).
  apply list_elem_of_lookup in H1 as [k1 H1], H2 as [k2 H2]. assert (k1 = k2) as ->; [|congruence].
  eapply NoDup_lookup; [exact Hd|by rewrite list_lookup_fmap, H1|]. rewrite list_lookup_fmap, H2. cbn. by rewrite E.
Qed.

Lemma names4_nodup c : c ∈ choices → NoDup (names4 c).
Proof.
  destruct c as [i v]. intros [Hi Hv]%choice_range. destruct (unit_range i Hi) as (Hr & Hc & Hb). unfold kCells in Hi.
  unfold names4, get_row_col, get_col_col, get_box_col, kRow, kCol, kBox. cbn [fst snd].
  repeat (apply NoDup_cons; split; [rewrite !elem_of_cons, elem_of_nil || rewrite elem_of_nil; lia|]). apply NoDup_nil_2.
Qed.

Lemma names4_in c name : c ∈ choices → name ∈ names4 c → name ∈ names.
Proof. destruct c as [i v]. apply choice_columns. Qed.

Lemma built_problem : problem_ok 0 hs os colf.
Proof.
  pose proof (ob_built _ _ _ _ _ Hbuilt) as Hb. split.
  - exact (built_nodup _ _ _ _ Hb).
  - rewrite <- (built_cur _ _ _ _ Hb), (built_cur_ns _ _ _ _ Hb), (options_length _ _ _ _ (ob_options _ _ _ _ _ Hbuilt)).
    pose proof (board_choices_length board rows cols boxes). pose proof (board_cols_length board rows cols boxes).
    pose proof kMaxNodes_value. unfold choices, names. lia.
  - intros o n Ho Hn. destruct (built_cols _ _ _ _ Hb n) as (c & Hc & Hin); [apply elem_of_concat; eauto|].
    unfold colf, col_in. by rewrite Hc.
  - intros o Ho. destruct (option_facts o Ho) as (Hc & _ & _ & ->). apply NoDup_fmap_2_strong; [|by apply names4_nodup].
    intros x y Hx Hy. apply header_inj; by eapply names4_in.
Qed.

Lemma built_represents : represents 0 hs os colf namef (nodes_ s) hs os.
Proof.
  pose proof (ob_built _ _ _ _ _ Hbuilt) as Hb. split; try done.
  - exact (built_head _ _ _ _ Hb).
  - exact (built_vert _ _ _ _ Hb).
  - intros o p x q Ho E. by apply (ob_rings _ _ _ _ _ Hbuilt o).
  - intros n Hn. destruct (built_cols _ _ _ _ Hb n Hn) as (c & Hc & _). unfold colf, col_in. by rewrite Hc.
  - intros n (o & Hn & Ho)%elem_of_concat. destruct (option_facts o Ho) as (_ & Hoc & _).
    apply list_elem_of_lookup in Hn as [k Hk]. destruct (Forall2_lookup_l _ _ _ _ _ Hoc Hk) as (name & _ & E & _).
    unfold namef, name_in. by rewrite E.
  - pose proof (built_nodup _ _ _ _ Hb) as Hd. by apply NoDup_cons in Hd as [_ Hd].
  - intros o n Ho Hn. by apply (prob_cols _ _ _ _ built_problem o).
Qed.

Lemma built_choice o : o ∈ os → choice_ok namef choice o.
Proof.
  intros Ho. destruct (option_facts o Ho) as (Hc & _ & Hn & _). unfold choice_ok.
  destruct (choice o) as [i v] eqn:E. pose proof (choice_range i v Hc) as Hr.
  destruct o as [|n0 [|n1 [|n2 [|n3 [|]]]]]; try done. cbn in Hn. injection Hn as E0 E1 E2 E3.
  exists n0, n1, n2, n3. split; [done|]. destruct Hr as [[? ?] [? ?]]. by split_and!.
Qed.

(** ** Which columns and choices there are *)

Lemma names_elem name :
  name ∈ names ↔ (0 ≤ name < kCells ∧ cell board name = 0) ∨
    ∃ k u v, k ∈ kinds ∧ 0 ≤ u < 9 ∧ 1 ≤ v ≤ 9 ∧ ¬ given board k.1 u v ∧ name = k.2 u v.
Proof.
  unfold names, board_cols. rewrite elem_of_app. unfold cell_cols. rewrite list_elem_of_filter, in_cells, elem_of_concat.
  assert (∀ f u v n, name ∈ unless_in f u v n ↔ (u, v) ∉ f ∧ name = n) as Hunless.
  { intros f u v n. unfold unless_in. destruct (decide _) as [Hin|Hin].
    - split; [intros Hx; by apply not_elem_of_nil in Hx|tauto].
    - rewrite list_elem_of_singleton. tauto. }
  split.
  - intros [[? ?]|(l & Hl & (u & -> & Hu)%list_elem_of_fmap)]; [by left|right]. apply elem_of_concat in Hl as (l & Hl & (v & -> & Hv)%list_elem_of_fmap).
    apply elem_of_seqZ in Hu, Hv. unfold unit_cols in Hl. rewrite !elem_of_app, !Hunless in Hl. destruct (Hflags u v) as (F1 & F2 & F3).
    destruct Hl as [[Hf ->]|[[Hf ->]|[Hf ->]]];
      [exists (row_of, get_row_col), u, v|exists (col_of, get_col_col), u, v|exists (box_of, get_box_col), u, v]; cbn [fst snd];
      (split_and!; [unfold kinds; rewrite !elem_of_cons; tauto|lia|lia|lia|lia|tauto|done]).
  - intros [?|(k & u & v & Hk & Hu & Hv & Hg & E)]; [left; tauto|right]. exists (units_cols rows cols boxes u).
    split; [|apply list_elem_of_fmap_2, elem_of_seqZ; lia]. apply elem_of_concat. exists (unit_cols rows cols boxes u v).
    split; [|apply list_elem_of_fmap_2, elem_of_seqZ; lia]. unfold unit_cols. rewrite !elem_of_app, !Hunless. destruct (Hflags u v) as (F1 & F2 & F3).
    revert k Hk Hg E. apply (kinds_cases (λ k, _ → _ → _)); cbn [fst snd]; intros; tauto.
Qed.

Lemma choices_elem i v :
  (i, v) ∈ choices ↔ (0 ≤ i < kCells ∧ 1 ≤ v ≤ 9) ∧ cell board i = 0 ∧ ∀ k, k ∈ kinds → ¬ given board k.1 (k.1 i) v.
Proof.
  unfold choices. rewrite board_choices_elem. do 2 (apply and_iff_compat_l). unfold blocked.
  rewrite !orb_false_iff, !bool_decide_eq_false.
  rewrite (proj1 (Hflags (row_of i) v)), (proj1 (proj2 (Hflags (col_of i) v))), (proj2 (proj2 (Hflags (box_of i) v))). split.
  - intros [[? ?] ?]. by apply (kinds_cases (λ k, ¬ _)).
  - intros Hk. unfold kinds in Hk. split_and!.
    + apply (Hk (row_of, get_row_col)). by left.
    + apply (Hk (col_of, get_col_col)). right. by left.
    + apply (Hk (box_of, get_box_col)). right. right. by left.
Qed.

(** ** Covers are solutions *)

Lemma given_dec unit u v : Decision (given board unit u v).
Proof.
  destruct (decide (Exists (λ i, unit i = u ∧ cell board i = v) (seqZ 0 kCells))) as [H|H]; [left|right].
  - apply Exists_exists in H as (i & Hi & ? & ?). apply in_cells in Hi. by exists i.
  - intros (i & Hi & ? & ?). apply H, Exists_exists. exists i. split; [by apply in_cells|done].
Qed.

Section Covered.
Context (S : list (list nat)) (Hcover : exact_cover colf hs os S).

Lemma cover_elem name : name ∈ names → ∃ o, o ∈ S ∧ name ∈ names4 (choice o).
Proof.
  intros Hn. destruct Hcover as [HS HP]. assert (header name ∈ hs) as Hh by (rewrite headers_named; by apply list_elem_of_fmap_2).
  rewrite <- HP in Hh. apply list_elem_of_fmap in Hh as (n & E & (o & Hno & Ho)%elem_of_concat). exists o. split; [done|].
  destruct (option_facts o (HS o Ho)) as (Hc & _ & _ & Ec).
  assert (colf n ∈ header <$> names4 (choice o)) as Hin by (rewrite <- Ec; by apply list_elem_of_fmap_2).
  apply list_elem_of_fmap in Hin as (name' & E' & Hin). assert (name = name') as ->; [|done].
  apply header_inj; [done|by eapply names4_in|congruence].
Qed.

Lemma cover_cells : NoDup ((λ o, (choice o).1) <$> S).
Proof.
  destruct Hcover as [HS HP]. assert (NoDup (colf <$> concat S)) as Hd by (rewrite HP; apply headers_nodup).
  apply (NoDup_fmap_1 header). rewrite <- list_fmap_compose. eapply sublist_NoDup; [exact Hd|].
  assert (∀ S', (∀ o, o ∈ S' → o ∈ os) → (header ∘ (λ o, (choice o).1)) <$> S' `sublist_of` colf <$> concat S') as Hsub; [|by apply Hsub].
  clear HS HP Hd. induction S' as [|o S' IH]; intros HS; [done|]. cbn [concat]. rewrite fmap_cons, fmap_app.
  destruct (option_facts o (HS o ltac:(by left))) as (_ & _ & _ & ->). unfold names4. cbn [fmap list_fmap app].
  apply sublist_skip. do 3 apply sublist_cons. apply IH. intros. apply HS. by right.
Qed.

Lemma cover_range o : o ∈ S → choice o ∈ choices ∧ 0 ≤ (choice o).1 < kCells ∧ 1 ≤ (choice o).2 ≤ 9.
Proof.
  intros Ho. destruct (option_facts o (proj1 Hcover o Ho)) as (Hc & _). split; [done|]. destruct (choice o) as [i v]. by apply choice_range in Hc.
Qed.

Lemma cover_solution : size_of board = kCells → solution board (fill choice S board).
Proof.
  intros Hb. set (g := fill choice S board).
  assert (∀ o, o ∈ S → 0 ≤ (choice o).1 < size_of board) as Hr by (intros o Ho; rewrite Hb; by apply cover_range).
  assert (∀ o, o ∈ S → cell g (choice o).1 = (choice o).2) as Hin by (intros o Ho; by apply fill_in; [|apply cover_cells|]).
  assert (∀ i, 0 ≤ i < kCells → cell board i ≠ 0 → cell g i = cell board i) as Hgiven.
  { intros i Hi H0. apply fill_out; [done|lia|]. intros (o & -> & Ho)%list_elem_of_fmap. apply H0. destruct (cover_range o Ho) as [Hc _].
    destruct (choice o) as [j v]. by apply choices_elem in Hc as (_ & ? & _). }
  split; [by unfold g; rewrite fill_length|done|]. intros unit u Hunit Hu. apply unit_complete; [done|done|]. intros v Hv.
  destruct (unit_kind unit Hunit) as (k & Hk & <-). destruct (given_dec k.1 u v) as [(i & Hi & Hui & Hiv)|Hng].
  - exists i. split_and!; try done; try lia. rewrite Hgiven by (done || lia). done.
  - destruct (cover_elem (k.2 u v)) as (o & Ho & Hname); [apply names_elem; right; by exists k, u, v|].
    destruct (cover_range o Ho) as (_ & Hi & Hv'). pose proof (Hin o Ho) as Hval. destruct (choice o) as [i v'] eqn:E. cbn [fst snd] in *.
    apply names4_unit in Hname as [? ->]; try done. exists i. split_and!; try done; lia.
Qed.
End Covered.

(** ** Solutions are covers *)

Section Solved.
Context (g : list Z) (Hsol : solution board g).

Lemma solution_choice i : 0 ≤ i < kCells → cell board i = 0 → (i, cell g i) ∈ choices.
Proof.
  intros Hi H0. pose proof (solution_value _ _ i Hsol Hi) as Hv. apply choices_elem. split_and!; try done; try lia.
  intros k Hk (j & Hj & Hu & Hjv). assert (cell g j = cell board j) as Ej by (apply (sol_given _ _ Hsol); [done|lia]).
  assert (j = i) as ->; [|lia]. apply (solution_inj board g k.1); try done; [by apply kind_unit|]. congruence.
Qed.

Definition picked (o : list nat) : Prop := cell g (choice o).1 = (choice o).2.
#[local] Instance picked_dec o : Decision (picked o).
Proof. unfold picked. apply _. Defined.

(** Two picked options that share a column are the same. *)
Lemma picked_unique o1 o2 name : o1 ∈ os → o2 ∈ os → picked o1 → picked o2 → name ∈ names4 (choice o1) → name ∈ names4 (choice o2) → o1 = o2.
Proof.
  intros H1 H2 P1 P2 N1 N2. apply choice_inj; [done|done|]. unfold picked in *.
  destruct (option_facts o1 H1) as (C1 & _), (option_facts o2 H2) as (C2 & _).
  destruct (choice o1) as [i1 v1], (choice o2) as [i2 v2]. cbn [fst snd] in *.
  destruct (choice_range _ _ C1) as [I1 V1], (choice_range _ _ C2) as [I2 V2].
  assert (i1 = i2) as ->; [|congruence]. apply names4_cases in N1 as [->|(k & Hk & ->)].
  - by apply names4_cell in N2.
  - pose proof (kind_unit k Hk) as Hu. apply names4_unit in N2 as [E ->]; try done; [|by apply unit_in_range].
    apply (solution_inj board g k.1); try done. congruence.
Qed.

(** Every column is in a picked option. *)
Lemma picked_elem name : name ∈ names → ∃ o, o ∈ os ∧ picked o ∧ name ∈ names4 (choice o).
Proof.
  assert (∀ i, 0 ≤ i < kCells → cell board i = 0 → ∃ o, o ∈ os ∧ picked o ∧ choice o = (i, cell g i)) as Hpick.
  { intros i Hi H0. destruct (choice_option _ (solution_choice i Hi H0)) as (o & Ho & E). exists o. unfold picked. rewrite E. done. }
  intros [[Hi H0]|(k & u & v & Hk & Hu & Hv & Hng & ->)]%names_elem.
  - destruct (Hpick name Hi H0) as (o & Ho & Hp & E). exists o. rewrite E. split_and!; [done|done|by left].
  - assert (v ∈ cell g <$> cells_of k.1 u) as Hin.
    { rewrite (sol_units _ _ Hsol k.1 u) by (done || by apply kind_unit). apply elem_of_seqZ. lia. }
    apply list_elem_of_fmap in Hin as (i & -> & [Hui Hi]%cells_of_elem).
    assert (cell board i = 0) as H0.
    { destruct (decide (cell board i = 0)) as [|Hne]; [done|]. exfalso. apply Hng. exists i. split_and!; try done; try lia.
      symmetry. by apply (sol_given _ _ Hsol). }
    destruct (Hpick i Hi H0) as (o & Ho & Hp & E). exists o. rewrite E. split_and!; [done|done|]. by apply names4_unit.
Qed.

Lemma solution_cover : exact_cover colf hs os (filter picked os).
Proof.
  assert (∀ o, o ∈ filter picked os ↔ picked o ∧ o ∈ os) as HS by (intros o; by rewrite list_elem_of_filter).
  split; [intros o; rewrite HS; tauto|]. rewrite fmap_concat. apply NoDup_Permutation.
  - apply NoDup_concat_fmap.
    + apply NoDup_filter, (NoDup_fmap_1 choice). rewrite choices_of_options. apply board_choices_nodup.
    + intros o [_ Ho]%HS. by apply (prob_distinct _ _ _ _ built_problem).
    + intros o1 o2 c [P1 H1]%HS [P2 H2]%HS. destruct (option_facts o1 H1) as (C1 & _ & _ & ->), (option_facts o2 H2) as (C2 & _ & _ & ->).
      intros (n1 & E1 & N1)%list_elem_of_fmap (n2 & E2 & N2)%list_elem_of_fmap. apply (picked_unique o1 o2 n1); try done.
      assert (n1 = n2) as ->; [|done]. apply header_inj; [exact (names4_in _ _ C1 N1)|exact (names4_in _ _ C2 N2)|congruence].
  - apply headers_nodup.
  - intros x. rewrite elem_of_concat. split.
    + intros (l & Hx & (o & -> & [_ Ho]%HS)%list_elem_of_fmap). apply list_elem_of_fmap in Hx as (n & -> & Hn).
      by apply (prob_cols _ _ _ _ built_problem o).
    + rewrite headers_named. intros (name & -> & Hname)%list_elem_of_fmap. destruct (picked_elem name Hname) as (o & Ho & Hp & Hin).
      exists (colf <$> o). split; [|apply list_elem_of_fmap_2; by apply HS]. destruct (option_facts o Ho) as (_ & _ & _ & ->).
      by apply list_elem_of_fmap_2.
Qed.
End Solved.

(** ** The search on a board *)

Lemma solve_board : stack_ s = [] → root_ s = 0%nat → inout_ s = board → size_of board = kCells →
  (∃ s', solve s = Some (Ok (true, s')) ∧ solution board (inout_ s')) ∨ (solve s = Some (Ok (false, s)) ∧ ∀ g, ¬ solution board g).
Proof.
  intros Hst Hroot Hio Hb. unfold solve.
  destruct (solve_fuel_spec 0 hs os colf namef built_problem choice built_choice walk_fuel s hs os []) as [(S & s' & -> & Hec & E)|[-> Hno]].
  - split; [exact built_represents|done|by rewrite Hst|intros o Ho; by apply not_elem_of_nil in Ho|by rewrite Hio].
  - apply (short_list 0 hs os colf built_problem).
    + apply headers_nodup.
    + intros x Hx. right. apply elem_of_app. by left.
  - left. exists s'. split; [done|]. rewrite E, Hio. by apply cover_solution.
  - right. split; [done|]. intros g Hg. exact (Hno _ (solution_cover g Hg)).
Qed.
End Built.

(** ** Puzzles *)

(** A puzzle is the text of a board, and a cell of it is the value of its character. *)
Definition grid_of (puzzle : list byte) : list Z := cell_value <$> puzzle.
Definition digits (puzzle : list byte) : Prop := ∀ i, 0 ≤ i < kCells → 0 ≤ cell (grid_of puzzle) i ≤ 9.

Lemma digits_checked puzzle : size_of puzzle = kCells →
  forallb (λ v, (0 <=? v) && (v <=? 9)) (grid_of puzzle) = true ↔ digits puzzle.
Proof.
  intros Hsize. assert (size_of (grid_of puzzle) = kCells) as Hg by (unfold size_of, grid_of in *; by rewrite length_fmap).
  rewrite forallb_forall. split.
  - intros Hall i Hi. specialize (Hall (cell (grid_of puzzle) i)). rewrite andb_true_iff, !Z.leb_le in Hall. apply Hall.
    apply nth_In. unfold size_of in Hg. lia.
  - intros Hall v (k & Hk & <-)%(In_nth _ _ 0). specialize (Hall (Z.of_nat k)). unfold cell in Hall. rewrite Nat2Z.id in Hall.
    rewrite andb_true_iff, !Z.leb_le. apply Hall. unfold size_of in Hg. lia.
Qed.

(** What the result for a puzzle is: the text of a solution, or that there is none. *)
Definition answer (puzzle r : list byte) : Prop :=
  (digits puzzle ∧ ∃ g, solution (grid_of puzzle) g ∧ r = cell_text <$> g) ∨
  ((digits puzzle → ∀ g, ¬ solution (grid_of puzzle) g) ∧ r = kNoSolution).

Lemma solveSudoku_answers puzzle : size_of puzzle = kCells →
  ∃ r, solveSudoku puzzle = Some (Ok r) ∧ answer puzzle r.
Proof.
  intros Hsize. assert (size_of (grid_of puzzle) = kCells) as Hg by (unfold size_of, grid_of in *; by rewrite length_fmap).
  pose proof (digits_checked puzzle Hsize) as Hd. unfold solveSudoku, assertp, assertb. rewrite (proj2 (Z.eqb_eq _ _) Hsize). pstep.
  fold (grid_of puzzle). destruct (forallb _ _) eqn:E.
  - apply proj1 in Hd. specialize (Hd eq_refl). destruct (SudokuSolver_new_spec _ Hd) as (rows & cols & boxes & s & Hnew & [(hs & os & Hs) Hio] & Hflags).
    rewrite Hnew. pstep. pose proof (ob_built _ _ _ _ _ Hs) as Hb.
    destruct (solve_board _ _ _ _ s hs os Hflags Hs) as [(s' & -> & Hsol)|[-> Hno]];
      [by apply (built_stack _ _ _ _ Hb)|by apply (built_root _ _ _ _ Hb)|done|done|..]; pstep.
    + exists (cell_text <$> inout_ s'). split; [done|]. left. eauto.
    + exists kNoSolution. split; [done|]. by right.
  - exists kNoSolution. split; [done|]. right. split; [|done]. intros Hok. by apply Hd in Hok.
Qed.

(** C29. The solver of the Sudoku server is correct: for a puzzle of 81 characters
    [solveSudoku] returns (no assertion of it fails, no pointer that it follows is
    null or wild, the search ends within its fuel), and its result is the text of a solution of the puzzle
    if there is one: a grid that agrees with every given of the puzzle and has each of the values 1
    to 9 once in every row, column and box. The result is [kNoSolution] if no grid is, or if a
    character of the puzzle is not a digit. *)
Theorem sudoku_solved puzzle : size_of puzzle = kCells →
  ∃ r, solveSudoku puzzle = Some (Ok r) ∧
    ((digits puzzle ∧ ∃ g, solution (grid_of puzzle) g ∧ r = cell_text <$> g) ∨
     ((digits puzzle → ∀ g, ¬ solution (grid_of puzzle) g) ∧ r = kNoSolution)).
Proof. exact (solveSudoku_answers puzzle). Qed.

(** A puzzle with thirty givens. *)
Lemma sudoku_solved_witness :
  let puzzle := lit "530070000600195000098000060800060003400803001700020006060000280000419005000080079" in
  ∃ r, solveSudoku puzzle = Some (Ok r) ∧
    ((digits puzzle ∧ ∃ g, solution (grid_of puzzle) g ∧ r = cell_text <$> g) ∨
     ((digits puzzle → ∀ g, ¬ solution (grid_of puzzle) g) ∧ r = kNoSolution)).
Proof. intros puzzle. apply (sudoku_solved puzzle). reflexivity. Defined.

(** The grid that the solver finds for it. *)
Example sudoku_solved_example :
  solveSudoku (lit "530070000600195000098000060800060003400803001700020006060000280000419005000080079")
  = Some (Ok (lit "534678912672195348198342567859761423426853791713924856961537284287419635345286179")).
Proof. by vm_compute. Qed.
