(* ===== verification/SudokuServer.v ===== *)
(** * The Sudoku server (examples/sudoku/server_basic.cc)

    Requests are lines [id:puzzle] or [puzzle] that end in CR LF; the answer has the
    same id.  The input buffer is the bytes it holds, which is what a [Buffer]
    refines; of the connection the server sees whether it is still connected,
    so that [send] does anything, and what was sent. *)
From Stdlib Require Import Strings.Byte.
From stdpp Require Import base numbers list strings.
From S2P Require Import Prelude Buffer ByteQueue Http Sudoku DancingLinks SudokuBuild SudokuSpec.
Open Scope Z_scope.
Open Scope muduo_scope.

Record Conn := mkConn {
  connected : bool;
  sent : list byte
}.

Definition conn_send (data : list byte) (c : Conn) : Conn := if connected c then mkConn true (sent c ++ data) else c.
Definition conn_shutdown (c : Conn) : Conn := mkConn false (sent c).

(** The id and the puzzle of a line. *)
Definition split_request (request : list byte) : list byte * list byte :=
  let colon := find request x3a in
  if (colon =? length request)%nat then ([], request) else (take colon request, drop (colon + 1) request).

Definition processRequest (request : list byte) (c : Conn) : partial (bool * Conn) :=
  let '(id, puzzle) := split_request request in
  if size_of puzzle =? kCells then
    result ← solveSudoku puzzle;
    mret (true, conn_send (match id with [] => result ++ kCRLF | _ => id ++ lit ":" ++ result ++ kCRLF end) c)
  else mret (false, c).

(** The loop of [onMessage]: what is left in the buffer, and the connection. *)
Fixpoint message_loop (fuel : nat) (buf : list byte) (c : Conn) : partial (list byte * Conn) :=
  match fuel with
  | O => None
  | S fuel =>
    if kCells + 2 <=? size_of buf then
      match first_crlf buf with
      | Some crlf =>
        let request := take crlf buf in
        let buf := drop (crlf + 2) buf in
        '(good, c) ← processRequest request c;
        if good : bool then message_loop fuel buf c
        else mret (buf, conn_shutdown (conn_send (lit "Bad Request!" ++ kCRLF) c))
      | None =>
        mret (buf, if 100 <? size_of buf then conn_shutdown (conn_send (lit "Id too long!" ++ kCRLF) c) else c)
      end
    else mret (buf, c)
  end.
(** A turn takes a line out of the buffer. *)
Definition onMessage (buf : list byte) (c : Conn) : partial (list byte * Conn) := message_loop (S (length buf)) buf c.

(** Data arrives in segments. *)
Fixpoint feed (buf : list byte) (chunks : list (list byte)) (c : Conn) : partial (list byte * Conn) :=
  match chunks with
  | [] => mret (buf, c)
  | chunk :: chunks => '(buf, c) ← onMessage (buf ++ chunk) c; feed buf chunks c
  end.

(** ** Every call returns *)

Lemma processRequest_total request c : ∃ good c',
  processRequest request c = Some (Ok (good, c')) ∧ (connected c = false → c' = c).
Proof.
  unfold processRequest. destruct (split_request request) as [id puzzle]. destruct (Z.eqb_spec (size_of puzzle) kCells) as [Hs|Hs].
  - destruct (solveSudoku_answers puzzle Hs) as (r & -> & _). pstep. eexists _, _. split; [done|]. unfold conn_send. by intros ->.
  - by eexists _, _.
Qed.

Lemma drop_short crlf buf : first_crlf buf = Some crlf → (length (drop (crlf + 2) buf) < length buf)%nat.
Proof. intros H%first_crlf_lt. rewrite length_drop. lia. Qed.

(** The loop ends within its fuel, and nothing is sent to a connection that was shut down. *)
Lemma message_loop_total fuel : ∀ buf c, (length buf < fuel)%nat → ∃ buf' c',
  message_loop fuel buf c = Some (Ok (buf', c')) ∧ (connected c = false → c' = c).
Proof.
  induction fuel as [|fuel IH]; intros buf c Hf; [lia|]. cbn [message_loop]. destruct (_ <=? _); [|by eexists _, _].
  destruct (first_crlf buf) as [n|] eqn:Hn.
  - destruct (processRequest_total (take n buf) c) as ([] & c1 & -> & Hc1); pstep.
    + destruct (IH (drop (n + 2) buf) c1) as (b2 & c2 & H2 & Hc2); [apply drop_short in Hn; lia|]. exists b2, c2. split; [done|].
      intros H0. specialize (Hc1 H0) as ->. by apply Hc2.
    + eexists _, _. split; [done|]. intros H0. rewrite (Hc1 H0). unfold conn_send. rewrite H0. by destruct c; cbn in *; subst.
  - eexists _, _. split; [done|]. intros H0. destruct (_ <? _); [|done]. unfold conn_send. rewrite H0. by destruct c; cbn in *; subst.
Qed.

(** More fuel makes no difference. *)
Lemma message_loop_fuel f1 : ∀ f2 buf c, (length buf < f1)%nat → (length buf < f2)%nat → message_loop f1 buf c = message_loop f2 buf c.
Proof.
  induction f1 as [|f1 IH]; intros [|f2] buf c H1 H2; try lia. cbn [message_loop]. destruct (_ <=? _); [|done].
  destruct (first_crlf buf) as [n|] eqn:Hn; [|done].
  destruct (processRequest_total (take n buf) c) as ([] & c1 & -> & _); pstep; [|done]. apply drop_short in Hn. apply IH; lia.
Qed.

Lemma onMessage_total buf c : ∃ buf' c', onMessage buf c = Some (Ok (buf', c')) ∧ (connected c = false → c' = c).
Proof. apply message_loop_total. lia. Qed.

Lemma feed_total chunks : ∀ buf c, ∃ buf' c', feed buf chunks c = Some (Ok (buf', c')) ∧ (connected c = false → c' = c).
Proof.
  induction chunks as [|chunk chunks IH]; intros buf c; cbn [feed]; [by eexists _, _|].
  destruct (onMessage_total (buf ++ chunk) c) as (b1 & c1 & -> & Hc1). pstep. destruct (IH b1 c1) as (b2 & c2 & -> & Hc2).
  exists b2, c2. split; [done|]. intros H0. specialize (Hc1 H0) as ->. by apply Hc2.
Qed.

(** ** Requests and their answers *)

Record Request := mkRequest { req_id : list byte; req_puzzle : list byte }.

Definition prefix_text (r : Request) : list byte := match req_id r with [] => [] | id => id ++ lit ":" end.
Definition line_text (r : Request) : list byte := prefix_text r ++ req_puzzle r.
Definition request_text (r : Request) : list byte := line_text r ++ kCRLF.

(** The puzzle has 81 characters; the id fits into the length that the server has room for. *)
Record request_ok (r : Request) : Prop := {
  rok_size : size_of (req_puzzle r) = kCells;
  rok_id : size_of (req_id r) ≤ 17;
  rok_colon : x3a ∉ req_id r ∧ (req_id r = [] → x3a ∉ req_puzzle r);
  rok_cr : x0d ∉ req_id r ∧ x0d ∉ req_puzzle r
}.

(** What [solveSudoku] returns. *)
Definition result_of (puzzle : list byte) : list byte :=
  match solveSudoku puzzle with Some (Ok r) => r | _ => [] end.
Definition reply (r : Request) : list byte := prefix_text r ++ result_of (req_puzzle r) ++ kCRLF.

Section Good.
Context (r : Request) (Hr : request_ok r).

Lemma split_line : split_request (line_text r) = (req_id r, req_puzzle r).
Proof.
  destruct Hr as [_ _ [Hc Hc'] _]. unfold split_request, line_text, prefix_text. destruct (req_id r) as [|b id] eqn:E.
  - cbn [app]. rewrite find_none by auto. by rewrite Nat.eqb_refl.
  - change (lit ":") with [x3a]. rewrite <- app_assoc. cbn [app]. rewrite app_comm_cons. rewrite find_app by done.
    rewrite (proj2 (Nat.eqb_neq _ _)) by (rewrite length_app; cbn; lia). rewrite take_app_length. f_equal.
    rewrite drop_app_ge by (cbn; lia). replace (length (b :: id) + 1 - length (b :: id))%nat with 1%nat by lia. done.
Qed.

Lemma line_no_cr : x0d ∉ line_text r.
Proof.
  destruct Hr as [_ _ _ [H1 H2]]. unfold line_text, prefix_text. rewrite elem_of_app. intros [Hin|]; [|done].
  destruct (req_id r) as [|b id]; [by apply not_elem_of_nil in Hin|]. apply elem_of_app in Hin as [|Hin]; [done|].
  by apply list_elem_of_singleton in Hin.
Qed.

Lemma line_size : 81 ≤ size_of (line_text r) ≤ 99.
Proof.
  destruct Hr as [H1 H2 _ _]. pose proof (size_of_nonneg (req_id r)). unfold line_text, prefix_text. rewrite size_of_app. unfold kCells in H1.
  destruct (req_id r) as [|b id] eqn:E; rewrite ?size_of_app; change (size_of (lit ":")) with 1; change (size_of (@nil byte)) with 0 in *.
  all: lia.
Qed.

Lemma processRequest_good c : processRequest (line_text r) c = Some (Ok (true, conn_send (reply r) c)).
Proof.
  unfold processRequest, reply, result_of, prefix_text. rewrite split_line, (proj2 (Z.eqb_eq _ _) (rok_size _ Hr)).
  destruct (solveSudoku_answers _ (rok_size _ Hr)) as (a & -> & _). pstep. destruct (req_id r); [done|]. by rewrite <- app_assoc.
Qed.

Lemma onMessage_good rest c : onMessage (request_text r ++ rest) c = onMessage rest (conn_send (reply r) c).
Proof.
  pose proof line_size as Hl. pose proof (size_of_nonneg rest). unfold onMessage at 1, request_text. cbn [message_loop]. rewrite <- app_assoc.
  rewrite (proj2 (Z.leb_le _ _)) by (rewrite !size_of_app; unfold kCells; change (size_of kCRLF) with 2; lia).
  rewrite first_crlf_line by apply line_no_cr. rewrite take_app_length, processRequest_good. pstep.
  replace (drop (length (line_text r) + 2) (line_text r ++ kCRLF ++ rest)) with rest.
  - apply message_loop_fuel; [rewrite !length_app; cbn; lia|lia].
  - rewrite drop_app_ge by lia. by replace (length (line_text r) + 2 - length (line_text r))%nat with 2%nat by lia.
Qed.

(** A request that is not complete waits. *)
Lemma onMessage_waits b l c : request_text r = b ++ l → l ≠ [] → onMessage b c = Some (Ok (b, c)).
Proof.
  intros E Hne. pose proof line_size as Hl. unfold onMessage. cbn [message_loop]. destruct (_ <=? _); [|done].
  assert (size_of b ≤ 100) as Hb.
  { apply (f_equal size_of) in E. unfold request_text in E. rewrite !size_of_app in E. change (size_of kCRLF) with 2 in E.
    destruct l as [|x l]; [done|]. unfold size_of in *. cbn in *. lia. }
  destruct (first_crlf b) as [n|] eqn:Hn; [|by rewrite (proj2 (Z.ltb_ge 100 _) Hb)]. exfalso.
  pose proof (first_crlf_lt _ _ Hn) as Hlt. apply (first_crlf_app _ l) in Hn. rewrite <- E in Hn. unfold request_text in E, Hn.
  pose proof (first_crlf_line (line_text r) [] line_no_cr) as Hf. rewrite app_nil_r in Hf. rewrite Hf in Hn. injection Hn as <-.
  apply (f_equal length) in E. rewrite !length_app in E. destruct l; [done|]. cbn in E. lia.
Qed.
End Good.

(** Part of what the requests and the rest are is some of the requests, and part of what is next. *)
Lemma prefix_requests tail rs : ∀ b l, b ++ l = concat (request_text <$> rs) ++ tail →
  ∃ rs1 rs2 rest, rs = rs1 ++ rs2 ∧ b = concat (request_text <$> rs1) ++ rest ∧
    match rs2 with [] => rest ++ l = tail | r :: _ => ∃ l', request_text r = rest ++ l' ∧ l' ≠ [] end.
Proof.
  induction rs as [|r rs IH]; intros b l E; cbn [fmap list_fmap concat] in E.
  - by exists [], [], b.
  - rewrite <- app_assoc in E. destruct (decide (length (request_text r) ≤ length b)%nat) as [Hle|Hlt].
    + assert (b = request_text r ++ drop (length (request_text r)) b) as Eb.
      { rewrite <- (take_drop (length (request_text r)) b) at 1. f_equal. apply (f_equal (take (length (request_text r)))) in E.
        rewrite take_app_le, take_app_length in E by done. done. }
      rewrite Eb, <- app_assoc in E. apply app_inv_head in E. destruct (IH _ _ E) as (rs1 & rs2 & rest & -> & Er & Hm).
      exists (r :: rs1), rs2, rest. split_and!; [done| |done]. cbn. by rewrite <- app_assoc, <- Er.
    + exists [], (r :: rs), b. split_and!; [done|done|]. exists (drop (length b) (request_text r)).
      apply (f_equal (take (length (request_text r)))) in E. rewrite take_app_length, take_app_ge in E by lia. split.
      * rewrite <- E at 2. rewrite drop_app_length. done.
      * intros E0. apply (f_equal length) in E0. rewrite length_drop in E0. cbn in E0. lia.
Qed.

Lemma onMessage_requests rs rest sent : Forall request_ok rs →
  onMessage (concat (request_text <$> rs) ++ rest) (mkConn true sent) = onMessage rest (mkConn true (sent ++ concat (reply <$> rs))).
Proof.
  intros Hrs. revert sent. induction Hrs as [|r rs Hr Hrs IH]; intros sent; cbn [fmap list_fmap concat]; [by rewrite app_nil_r|].
  rewrite <- app_assoc, (onMessage_good r Hr). unfold conn_send. cbn [connected SudokuServer.sent]. by rewrite IH, <- app_assoc.
Qed.

(** What waits in the buffer is the beginning of the next request. *)
Definition waiting (buf : list byte) (rs : list Request) : Prop :=
  match rs with [] => buf = [] | r :: _ => ∃ l, request_text r = buf ++ l ∧ l ≠ [] end.

Lemma onMessage_waiting buf rs c : Forall request_ok rs → waiting buf rs → onMessage buf c = Some (Ok (buf, c)).
Proof. intros Hrs Hw. destruct Hrs as [|r rs Hr Hrs]; [by rewrite Hw|]. destruct Hw as (l & E & Hl). by eapply onMessage_waits. Qed.

(** Requests are answered before what comes after them is looked at. *)
Lemma feed_requests tail chunks : ∀ rs buf sent, Forall request_ok rs → waiting buf rs →
  buf ++ concat chunks = concat (request_text <$> rs) ++ tail →
  ∃ chunks', concat chunks' = tail ∧ feed buf chunks (mkConn true sent) = feed [] chunks' (mkConn true (sent ++ concat (reply <$> rs))).
Proof.
  induction chunks as [|chunk chunks IH]; intros [|r rs] buf sent Hrs Hw E.
  1, 3: cbn in Hw; subst buf; eexists; split; [exact E|]; by rewrite app_nil_r.
  - exfalso. destruct Hw as (l & El & Hl). cbn in E. apply (f_equal length) in E, El. rewrite !length_app in *. destruct l; [done|]. cbn in *. lia.
  - cbn [feed concat] in *. rewrite app_assoc in E. destruct (prefix_requests _ _ _ _ E) as (rs1 & rs2 & rest & Ers & Eb & Hw2).
    rewrite Ers in Hrs, E |- *. rewrite Eb in E |- *. apply Forall_app in Hrs as [Hrs1 Hrs2]. rewrite onMessage_requests by done.
    destruct rs2 as [|r2 rs2]; [by exists (rest :: chunks); rewrite app_nil_r|].
    rewrite (onMessage_waiting rest (r2 :: rs2)) by done. pstep.
    destruct (IH (r2 :: rs2) rest (sent ++ concat (reply <$> rs1)) Hrs2 Hw2) as (chunks' & E' & ->).
    { rewrite fmap_app, concat_app, <- !app_assoc in E. by apply app_inv_head in E. }
    exists chunks'. split; [done|]. by rewrite fmap_app, concat_app, app_assoc.
Qed.

Lemma feed_requests_start tail chunks rs : Forall request_ok rs → concat chunks = concat (request_text <$> rs) ++ tail →
  ∃ chunks', concat chunks' = tail ∧ feed [] chunks (mkConn true []) = feed [] chunks' (mkConn true (concat (reply <$> rs))).
Proof.
  intros Hrs E. apply (feed_requests tail chunks rs [] [] Hrs); [|done]. destruct rs as [|r rs]; [done|]. exists (request_text r).
  split; [done|]. unfold request_text. by destruct (line_text r).
Qed.

Lemma feed_nothing chunks c : concat chunks = [] → feed [] chunks c = Some (Ok ([], c)).
Proof. intros E. induction chunks as [|chunk chunks IH]; [done|]. cbn in E. apply app_eq_nil in E as [-> E]. cbn [feed]. by apply IH. Qed.

(** ** Bad requests *)

Section Bad.
Context (l more : list byte) (Hcr : x0d ∉ l) (Hl : size_of l ≤ 99) (Hbad : size_of (split_request l).2 ≠ kCells).
Context (Hmore : kCells + 2 ≤ size_of (l ++ kCRLF ++ more)).

(** A line that is not complete is short. *)
Lemma incomplete_short b tl : b ++ tl = l ++ kCRLF ++ more → first_crlf b = None → size_of b ≤ 100.
Proof.
  intros E Hn. destruct (decide (size_of b ≤ 100)) as [|Hgt]; [done|]. exfalso. apply (f_equal (take (length b))) in E.
  unfold size_of in *. rewrite take_app_length, app_assoc, take_app_ge in E by (rewrite length_app; cbn; lia). rewrite E, <- app_assoc in Hn.
  by rewrite first_crlf_line in Hn.
Qed.

Lemma feed_bad chunks : ∀ buf sent, buf ++ concat chunks = l ++ kCRLF ++ more → (size_of buf < kCells + 2 ∨ first_crlf buf = None) →
  ∃ buf', feed buf chunks (mkConn true sent) = Some (Ok (buf', mkConn false (sent ++ lit "Bad Request!" ++ kCRLF))).
Proof.
  induction chunks as [|chunk chunks IH]; intros buf sent E Hw; cbn [feed concat] in *.
  { exfalso. rewrite app_nil_r in E. rewrite E in Hw. rewrite first_crlf_line in Hw by done. destruct Hw; [lia|done]. }
  rewrite app_assoc in E. unfold onMessage. cbn [message_loop]. destruct (Z.leb_spec (kCells + 2) (size_of (buf ++ chunk))) as [Hs|Hs].
  2: { pstep. apply IH; [done|]. by left. }
  destruct (first_crlf (buf ++ chunk)) as [n|] eqn:Hn.
  - pose proof (first_crlf_lt _ _ Hn) as Hlt. pose proof (first_crlf_app _ (concat chunks) _ Hn) as Hn'. rewrite E, first_crlf_line in Hn' by done.
    injection Hn' as <-. assert (take (length l) (buf ++ chunk) = l) as ->.
    { apply (f_equal (take (length l))) in E. rewrite take_app_le, take_app_length in E by lia. done. }
    unfold processRequest. destruct (split_request l) as [id puzzle]. cbn [snd] in Hbad. rewrite (proj2 (Z.eqb_neq _ _) Hbad). pstep.
    unfold conn_send, conn_shutdown. cbn [connected SudokuServer.sent].
    destruct (feed_total chunks (drop (length l + 2) (buf ++ chunk)) (mkConn false (sent ++ lit "Bad Request!" ++ kCRLF))) as (b & c & -> & Hc).
    exists b. by rewrite Hc.
  - rewrite (proj2 (Z.ltb_ge 100 _)) by (by eapply incomplete_short). pstep. apply IH; [done|]. by right.
Qed.
End Bad.

(** The Sudoku server answers: whatever way the text of some requests
    (with ids of up to 17 characters) is cut into segments, every call of [onMessage]
    returns, and in the end exactly the answers to the requests were sent, each with the id of its
    request, in their order; nothing is left in the buffer and the connection is open.
    Each answer is a solution of its puzzle, or that there is none. *)
Theorem sudoku_server_answers rs chunks : Forall request_ok rs → concat chunks = concat (request_text <$> rs) →
  feed [] chunks (mkConn true []) = Some (Ok ([], mkConn true (concat (reply <$> rs)))) ∧
  Forall (λ r, answer (req_puzzle r) (result_of (req_puzzle r))) rs.
Proof.
  intros Hrs E. split.
  - destruct (feed_requests_start [] chunks rs Hrs) as (chunks' & E' & ->); [by rewrite app_nil_r|]. by apply feed_nothing.
  - eapply Forall_impl; [exact Hrs|]. intros r Hr. unfold result_of. by destruct (solveSudoku_answers _ (rok_size _ Hr)) as (a & -> & Ha).
Qed.

Definition sample_puzzle : list byte := lit "530070000600195000098000060800060003400803001700020006060000280000419005000080079".

Lemma sample_ok id : bool_decide (size_of id ≤ 17 ∧ x3a ∉ id ∧ x0d ∉ id) = true → request_ok (mkRequest id sample_puzzle).
Proof.
  intros (H1 & H2 & H3)%bool_decide_eq_true. assert (x3a ∉ sample_puzzle ∧ x0d ∉ sample_puzzle) as [? ?].
  { apply (bool_decide_unpack _). by vm_compute. }
  split; [reflexivity|done|by split|by split].
Qed.

(** Two requests in segments of one byte. *)
Lemma sudoku_server_answers_witness :
  let rs := [mkRequest (lit "a") sample_puzzle; mkRequest [] sample_puzzle] in
  feed [] ((λ b, [b]) <$> concat (request_text <$> rs)) (mkConn true []) = Some (Ok ([], mkConn true (concat (reply <$> rs)))).
Proof.
  intros rs. apply (sudoku_server_answers rs); [|reflexivity]. repeat apply Forall_cons_2; [| |apply Forall_nil_2]; apply sample_ok; by vm_compute.
Defined.

(** C32. The Sudoku server rejects: if a line whose puzzle does not have 81 characters comes
    after requests that are well-formed, then they are answered, the client is told, and the
    connection is shut down; whatever comes after that line, and however all of it is cut into segments, every call
    of [onMessage] returns and nothing else is sent.  (The server looks at a line only when 83
    bytes are there, so that a bad line that is shorter is rejected when enough follows it.) *)
Theorem sudoku_server_rejects rs l more chunks :
  Forall request_ok rs → x0d ∉ l → size_of l ≤ 99 → size_of (split_request l).2 ≠ kCells →
  kCells + 2 ≤ size_of (l ++ kCRLF ++ more) → concat chunks = concat (request_text <$> rs) ++ l ++ kCRLF ++ more →
  ∃ buf, feed [] chunks (mkConn true []) = Some (Ok (buf, mkConn false (concat (reply <$> rs) ++ lit "Bad Request!" ++ kCRLF))).
Proof.
  intros Hrs Hcr Hl Hbad Hmore E. destruct (feed_requests_start _ chunks rs Hrs E) as (chunks' & E' & ->).
  apply (feed_bad l more); try done. by left.
Qed.

(** A puzzle of 80 characters, an id with it, and a request after it. *)
Lemma sudoku_server_rejects_witness :
  let r := mkRequest (lit "a") sample_puzzle in let l := lit "bc:" ++ drop 1 sample_puzzle in
  ∃ buf, feed [] [request_text r; l; kCRLF ++ request_text r] (mkConn true []) =
    Some (Ok (buf, mkConn false (concat (reply <$> [r]) ++ lit "Bad Request!" ++ kCRLF))).
Proof.
  intros r l. apply (sudoku_server_rejects [r] l (request_text r)); [|apply (bool_decide_unpack _); by vm_compute..|reflexivity].
  apply Forall_cons_2; [|apply Forall_nil_2]. by apply sample_ok.
Defined.

(** ** Where the answer depends on segments *)

(** A request whose id is longer is answered if it comes at once, and is rejected if it comes in two parts. *)
Lemma long_id_depends :
  let line := lit "an-id-that-is-long:" ++ replicate 81 x61 in
  feed [] [line ++ kCRLF] (mkConn true []) = Some (Ok ([], mkConn true (lit "an-id-that-is-long:NoSolution" ++ kCRLF))) ∧
  ∃ buf, feed [] [line ++ [x0d]; [x0a]] (mkConn true []) = Some (Ok (buf, mkConn false (lit "Id too long!" ++ kCRLF))).
Proof. split; [by vm_compute|]. eexists. by vm_compute. Qed.
