(* ===== verification/CircularBuffer.v ===== *)
(** * Circular buffers

    What the sources use of [boost::circular_buffer], and what its documentation promises, as an
    interface; a list with its capacity implements it. *)
From stdpp Require Import base numbers list.
From S2P Require Import Prelude.
Open Scope Z_scope.

Class CircularBuffer (A T : Type) := {
  cb_new : nat → T;
  cb_resize : nat → A → T → T;
  cb_push_back : A → T → T;
  cb_clear : T → T;
  cb_set : nat → A → T → T;
  contents : T → list A;
  capacity : T → nat
}.

(** A push to a buffer that is full overwrites the first element. *)
Class CircularBufferLaws (A T : Type) `{CircularBuffer A T} := {
  cb_new_spec n : contents (cb_new n : T) = [] ∧ capacity (cb_new n : T) = n;
  cb_resize_spec n x (b : T) : (length (contents b) ≤ n ≤ capacity b)%nat →
    contents (cb_resize n x b) = contents b ++ replicate (n - length (contents b)) x ∧ capacity (cb_resize n x b) = capacity b;
  cb_push_spec x (b : T) : (0 < capacity b)%nat → capacity (cb_push_back x b) = capacity b ∧
    contents (cb_push_back x b) = (if (length (contents b) <? capacity b)%nat then contents b else tail (contents b)) ++ [x];
  cb_clear_spec (b : T) : contents (cb_clear b) = [] ∧ capacity (cb_clear b) = capacity b;
  cb_set_spec i x (b : T) : (i < length (contents b))%nat →
    contents (cb_set i x b) = <[ i := x ]> (contents b) ∧ capacity (cb_set i x b) = capacity b
}.

(** A list with its capacity. *)
Definition Ring (A : Type) : Type := list A * nat.
#[export] Instance Ring_buffer {A} : CircularBuffer A (Ring A) := {
  cb_new n := ([], n);
  cb_resize n x b := (resize n x b.1, b.2);
  cb_push_back x b := ((if (length b.1 <? b.2)%nat then b.1 else tail b.1) ++ [x], b.2);
  cb_clear b := ([], b.2);
  cb_set i x b := (<[ i := x ]> b.1, b.2);
  contents := fst;
  capacity := snd
}.
#[export] Instance Ring_laws {A} : CircularBufferLaws A (Ring A).
Proof. split; intros; try (by split). cbn in *. rewrite resize_ge by lia. by split. Qed.
