(* ===== verification/IdleConnection.v ===== *)
(** * Idle connections (examples/idleconnection/echo.h, echo.cc)

    An echo server that shuts connections down when they are idle, with a timing wheel: a
    circular buffer of buckets of shared pointers to entries, one entry for each connection, whose
    destructor shuts its connection down.  The count of an entry is in how many buckets it
    is, and the context of its connection has a weak pointer to it.
    A connection stands for its entry. *)
From Stdlib Require Import Strings.Byte.
From stdpp Require Import base numbers list gmap strings.
From S2P Require Import Prelude CircularBuffer.
Open Scope Z_scope.
Open Scope muduo_scope.

Abbreviation Bucket := (gset Z).

Section Server.
Context {T : Type} `{CircularBufferLaws Bucket T}.

(** The buckets; the connections that exist; those that have a context; those that are up; those that [shutdown] was
    called for; what [send] took over. *)
Record EchoServer := mkServer {
  connectionBuckets_ : T;
  existing : gset Z;
  contexts : gset Z;
  up : gset Z;
  shut : gset Z;
  sent : list (Z * list byte)
}.

Definition EchoServer_new (idleSeconds : Z) : EchoServer :=
  mkServer (cb_resize (Z.to_nat idleSeconds) ∅ (cb_new (Z.to_nat idleSeconds))) ∅ ∅ ∅ ∅ [].

(** [connectionBuckets_.back().insert(entry)] *)
Definition insert_back (c : Z) (b : T) : outcome T :=
  match last (contents b) with
  | Some bucket => mret (cb_set (pred (length (contents b))) ({[ c ]} ∪ bucket) b)
  | None => Fault Undefined
  end.

(** Whether a weak pointer to the entry of a connection can be locked. *)
Definition entry_alive (c : Z) (b : T) : bool := bool_decide (Exists (λ bucket : Bucket, c ∈ bucket) (contents b)).

Definition onConnection (c : Z) (connected : bool) (s : EchoServer) : outcome EchoServer :=
  if connected then
    b ← insert_back c (connectionBuckets_ s);
    mret (mkServer b ({[ c ]} ∪ existing s) ({[ c ]} ∪ contexts s) ({[ c ]} ∪ up s) (shut s) (sent s))
  else
    _ ← assertb 49 (bool_decide (c ∈ contexts s));
    mret (mkServer (connectionBuckets_ s) (existing s) (contexts s) (up s ∖ {[ c ]}) (shut s) (sent s)).

(** [TcpConnection::send] does nothing unless the state is [kConnected]. *)
Definition connected (c : Z) (s : EchoServer) : bool := bool_decide (c ∈ up s) && bool_decide (c ∉ shut s).
Definition send (c : Z) (msg : list byte) (s : EchoServer) : EchoServer :=
  if connected c s
  then mkServer (connectionBuckets_ s) (existing s) (contexts s) (up s) (shut s) (sent s ++ [(c, msg)]) else s.

Definition onMessage (c : Z) (msg : list byte) (s : EchoServer) : outcome EchoServer :=
  let s := send c msg s in
  _ ← assertb 64 (bool_decide (c ∈ contexts s));
  if entry_alive c (connectionBuckets_ s) then
    b ← insert_back c (connectionBuckets_ s);
    mret (mkServer b (existing s) (contexts s) (up s) (shut s) (sent s))
  else mret s.

(** The entries of a bucket that no other bucket has, when it is destroyed: their destructors
    shut those connections down that still exist. *)
Definition destroyed (old new : list Bucket) : gset Z := ⋃ old ∖ ⋃ new.

Definition onTimer (s : EchoServer) : EchoServer :=
  let b := cb_push_back ∅ (connectionBuckets_ s) in
  let dead := destroyed (contents (connectionBuckets_ s)) (contents b) in
  mkServer b (existing s) (contexts s) (up s) ((dead ∩ existing s) ∪ shut s) (sent s).

(** The last owner of a connection is gone. *)
Definition connection_gone (c : Z) (s : EchoServer) : EchoServer :=
  mkServer (connectionBuckets_ s) (existing s ∖ {[ c ]}) (contexts s) (up s) (shut s) (sent s).
End Server.
Arguments EchoServer T : clear implicits.

(** ** Runs *)

Inductive Event := EUp (c : Z) | EMessage (c : Z) (msg : list byte) | EDown (c : Z) | EGone (c : Z) | ETimer.
#[export] Instance Event_eq_dec : EqDecision Event.
Proof. solve_decision. Defined.

Section Runs.
Context {T : Type} `{CircularBufferLaws Bucket T}.

Definition exec (e : Event) (s : EchoServer T) : outcome (EchoServer T) :=
  match e with
  | EUp c => onConnection c true s
  | EMessage c msg => onMessage c msg s
  | EDown c => onConnection c false s
  | EGone c => mret (connection_gone c s)
  | ETimer => mret (onTimer s)
  end.
Fixpoint exec_all (es : list Event) (s : EchoServer T) : outcome (EchoServer T) :=
  match es with [] => mret s | e :: es => s ← exec e s; exec_all es s end.
End Runs.

(** ** The specification: how long connections have been idle *)

(** For each connection that was not shut down by the timer the number of ticks since it was
    active; the connections that exist, those that were there, those that are up, those that were shut down, and what
    was echoed. *)
Record Idle := mkIdle {
  idle : gmap Z Z;
  present : gset Z;
  seen : gset Z;
  open : gset Z;
  closed : gset Z;
  echoed : list (Z * list byte)
}.
Definition Idle_new : Idle := mkIdle ∅ ∅ ∅ ∅ ∅ [].

Definition spec_step (idleSeconds : Z) (i : Idle) (e : Event) : Idle :=
  match e with
  | EUp c => mkIdle (<[ c := 0 ]> (idle i)) ({[ c ]} ∪ present i) ({[ c ]} ∪ seen i) ({[ c ]} ∪ open i) (closed i) (echoed i)
  | EMessage c msg =>
    mkIdle (if bool_decide (is_Some (idle i !! c)) then <[ c := 0 ]> (idle i) else idle i) (present i) (seen i) (open i) (closed i)
      (echoed i ++ if bool_decide (c ∈ open i ∖ closed i) then [(c, msg)] else [])
  | EDown c => mkIdle (idle i) (present i) (seen i) (open i ∖ {[ c ]}) (closed i) (echoed i)
  | EGone c => mkIdle (idle i) (present i ∖ {[ c ]}) (seen i) (open i) (closed i) (echoed i)
  | ETimer =>
    let ticked := Z.succ <$> idle i in
    mkIdle (filter (λ x, x.2 < idleSeconds) ticked) (present i) (seen i) (open i)
      ((dom (filter (λ x, idleSeconds ≤ x.2) ticked) ∩ present i) ∪ closed i) (echoed i)
  end.

(** A connection goes up once, and has its messages and goes down after that. *)
Definition event_ok (e : Event) (i : Idle) : Prop :=
  match e with EUp c => c ∉ seen i | EMessage c _ | EDown c => c ∈ seen i | _ => True end.
Fixpoint events_ok (idleSeconds : Z) (es : list Event) (i : Idle) : Prop :=
  match es with [] => True | e :: es => event_ok e i ∧ events_ok idleSeconds es (spec_step idleSeconds i e) end.

(** ** The wheel *)

(** The last bucket first: which one of them is the first with a connection. *)
Fixpoint first_bucket (c : Z) (rs : list Bucket) : option nat :=
  match rs with [] => None | b :: rs => if bool_decide (c ∈ b) then Some 0%nat else S <$> first_bucket c rs end.

Lemma first_bucket_lt c rs k : first_bucket c rs = Some k → (k < length rs)%nat.
Proof.
  revert k. induction rs as [|b rs IH]; intros k Hk; cbn in *; [done|]. destruct (bool_decide _); [simplify_eq; lia|].
  destruct (first_bucket c rs) as [k'|]; [|done]. cbn in Hk. injection Hk as <-. specialize (IH k' eq_refl). lia.
Qed.

Lemma first_bucket_some c rs : is_Some (first_bucket c rs) ↔ c ∈ ⋃ rs.
Proof.
  induction rs as [|b rs IH]; cbn; [split; [by intros []|intros Hc; by apply not_elem_of_empty in Hc]|].
  rewrite elem_of_union, <- IH. case_bool_decide as Hc; [split; [by left|by eexists]|].
  rewrite fmap_is_Some. tauto.
Qed.

Lemma first_bucket_take c m rs : first_bucket c (take m rs) = k ← first_bucket c rs; if (k <? m)%nat then Some k else None.
Proof.
  revert m. induction rs as [|b rs IH]; intros [|m]; cbn [take first_bucket]; try done.
  - case_bool_decide; [done|]. by destruct (first_bucket c rs).
  - case_bool_decide; [done|]. rewrite IH. destruct (first_bucket c rs) as [k|]; [|done]. cbn [mbind option_bind fmap option_fmap option_map].
    by destruct (Nat.ltb_spec k m), (Nat.ltb_spec (S k) (S m)); try lia.
Qed.

Lemma union_reverse (rs : list Bucket) : ⋃ (reverse rs) = ⋃ rs.
Proof. apply union_list_reverse_L. Qed.

Lemma last_reverse_cons {A} (l : list A) : match reverse l with [] => l = [] | x :: r => last l = Some x ∧ l = reverse r ++ [x] end.
Proof.
  destruct l as [|y l' _] using rev_ind; [done|]. rewrite reverse_snoc. split; [apply last_snoc|]. by rewrite reverse_involutive.
Qed.

Section Refines.
Context {T : Type} `{CircularBufferLaws Bucket T} (idleSeconds : Z) (Hidle : 1 ≤ idleSeconds).
Let n : nat := Z.to_nat idleSeconds.

Record refines (i : Idle) (s : EchoServer T) : Prop := {
  rf_length : length (contents (connectionBuckets_ s)) = n;
  rf_capacity : capacity (connectionBuckets_ s) = n;
  rf_idle c : idle i !! c = Z.of_nat <$> first_bucket c (reverse (contents (connectionBuckets_ s)));
  rf_present : existing s = present i;
  rf_seen : contexts s = seen i;
  rf_open : up s = open i;
  rf_closed : shut s = closed i;
  rf_sent : sent s = echoed i
}.

Lemma entry_alive_idle i s c : refines i s → entry_alive c (connectionBuckets_ s) = bool_decide (is_Some (idle i !! c)).
Proof.
  intros Hr. unfold entry_alive. apply bool_decide_ext. rewrite (rf_idle i s Hr), fmap_is_Some, first_bucket_some, union_reverse.
  rewrite Exists_exists, elem_of_union_list. done.
Qed.

Lemma insert_back_spec i s c : refines i s → insert_back c (connectionBuckets_ s) ⇓ λ b,
  length (contents b) = n ∧ capacity b = n ∧ ∀ c', <[ c := 0 ]> (idle i) !! c' = Z.of_nat <$> first_bucket c' (reverse (contents b)).
Proof.
  intros Hr. unfold insert_back. pose proof (last_reverse_cons (contents (connectionBuckets_ s))) as Hl.
  pose proof (rf_length i s Hr) as Hn. pose proof (rf_idle i s Hr) as Hi. set (bs := contents (connectionBuckets_ s)) in *.
  destruct (reverse bs) as [|b0 rs] eqn:E; [rewrite Hl in Hn; cbn in Hn; unfold n in Hn; lia|]. destruct Hl as [-> Hbs].
  assert (pred (length bs) = length (reverse rs)) as Hp by (rewrite Hbs, length_app; cbn; lia).
  apply yields_ret. destruct (cb_set_spec (pred (length bs)) ({[ c ]} ∪ b0) (connectionBuckets_ s)) as [-> ->]; [fold bs; unfold n in Hn; lia|].
  fold bs. rewrite length_insert. split_and!; [done|apply Hr|].
  assert (<[ pred (length bs) := {[ c ]} ∪ b0 ]> bs = reverse rs ++ [{[ c ]} ∪ b0]) as ->.
  { rewrite Hp, Hbs at 1. rewrite insert_app_r_alt by lia. by rewrite Nat.sub_diag. }
  intros c'. rewrite reverse_snoc, reverse_involutive. cbn [first_bucket]. destruct (decide (c = c')) as [<-|Hne].
  - rewrite lookup_insert_eq, bool_decide_true; [done|]. apply elem_of_union. left. by apply elem_of_singleton.
  - rewrite lookup_insert_ne, Hi by done. cbn [first_bucket]. assert (c' ∈ {[ c ]} ∪ b0 ↔ c' ∈ b0) as Hc.
    { rewrite elem_of_union, elem_of_singleton. split; [by intros [|]|by right]. }
    by rewrite (bool_decide_ext _ _ Hc).
Qed.
(** The buckets after a tick: an empty one is the last, and the first one is gone. *)
Lemma tick_buckets i s : refines i s → let b := cb_push_back ∅ (connectionBuckets_ s) in
  length (contents b) = n ∧ capacity b = n ∧
  reverse (contents b) = ∅ :: take (pred n) (reverse (contents (connectionBuckets_ s))).
Proof.
  intros Hr b. pose proof (rf_length i s Hr) as Hn. pose proof (rf_capacity i s Hr) as Hc.
  destruct (cb_push_spec ∅ (connectionBuckets_ s)) as [Hb1 Hb2]; [unfold n in *; lia|]. fold b in Hb1, Hb2.
  rewrite Hc, Hn, Nat.ltb_irrefl in Hb2. destruct (contents (connectionBuckets_ s)) as [|b0 bs]; [cbn in Hn; unfold n in Hn; lia|]. cbn in Hn, Hb2.
  rewrite Hb2. split_and!; [rewrite length_app; cbn; lia|congruence|]. rewrite reverse_snoc, reverse_cons. f_equal.
  assert (pred n = length (reverse bs)) as -> by (rewrite length_reverse; lia). by rewrite take_app_length.
Qed.

Lemma tick_idle i s c : refines i s →
  Z.of_nat <$> first_bucket c (reverse (contents (cb_push_back ∅ (connectionBuckets_ s)))) =
  filter (λ x, x.2 < idleSeconds) (Z.succ <$> idle i) !! c.
Proof.
  intros Hr. destruct (tick_buckets i s Hr) as (_ & _ & ->). cbn [first_bucket]. rewrite bool_decide_false by apply not_elem_of_empty.
  rewrite first_bucket_take. rewrite map_lookup_filter, lookup_fmap, (rf_idle i s Hr).
  destruct (first_bucket c _) as [k|]; [|done]. cbn [mbind option_bind fmap option_fmap option_map guard].
  destruct (Nat.ltb_spec k (pred n)) as [Hlt|Hge]; cbn.
  - rewrite option_guard_True by (cbn; unfold n in *; lia). cbn. f_equal. lia.
  - by rewrite option_guard_False by (cbn; unfold n in *; lia).
Qed.

Lemma tick_destroyed i s c : refines i s →
  c ∈ destroyed (contents (connectionBuckets_ s)) (contents (cb_push_back ∅ (connectionBuckets_ s))) ↔
  c ∈ dom (filter (λ x, idleSeconds ≤ x.2) (Z.succ <$> idle i)).
Proof.
  intros Hr. unfold destroyed. rewrite elem_of_difference, <- !(union_reverse (contents _)), <- !first_bucket_some.
  rewrite elem_of_dom, map_lookup_filter, lookup_fmap, (rf_idle i s Hr). destruct (tick_buckets i s Hr) as (_ & _ & ->).
  cbn [first_bucket]. rewrite bool_decide_false by apply not_elem_of_empty. rewrite first_bucket_take.
  pose proof (rf_length i s Hr) as Hn. destruct (first_bucket c _) as [k|] eqn:Hk; cbn [mbind option_bind fmap option_fmap option_map].
  - apply first_bucket_lt in Hk. rewrite length_reverse, Hn in Hk. destruct (Nat.ltb_spec k (pred n)) as [Hlt|Hge]; cbn.
    + rewrite option_guard_False by (cbn; unfold n in *; lia). split; [intros [_ Hx]; exfalso; apply Hx; by eexists|by intros []].
    + rewrite option_guard_True by (cbn; unfold n in *; lia). split; [intros _; by eexists|]. intros _. split; [by eexists|by intros []].
  - split; [intros [[x Hx] _]; done|intros [x Hx]; done].
Qed.

Lemma exec_idle i s e : refines i s → event_ok e i → exec e s ⇓ refines (spec_step idleSeconds i e).
Proof.
  intros Hr Hok. pose proof Hr as [R1 R2 R3 R4 R5 R8 R6 R7]. destruct e as [c|c msg|c|c|]; cbn [exec spec_step event_ok] in *.
  - unfold onConnection. ystep insert_back_spec; [done|]. intros b (B1 & B2 & B3). apply yields_ret. split; cbn; try done; congruence.
  - assert (connected c s = bool_decide (c ∈ open i ∖ closed i)) as Hconn.
    { unfold connected. rewrite <- bool_decide_and. apply bool_decide_ext. by rewrite R8, R6, elem_of_difference. }
    assert (∀ b i', length (contents b) = n → capacity b = n → (∀ c', i' !! c' = Z.of_nat <$> first_bucket c' (reverse (contents b))) →
      refines (mkIdle i' (present i) (seen i) (open i) (closed i)
                 (echoed i ++ if bool_decide (c ∈ open i ∖ closed i) then [(c, msg)] else []))
        (let s' := send c msg s in mkServer b (existing s') (seen i) (up s') (shut s') (sent s'))) as Hsend.
    { intros b i' H1 H2 H3. unfold send. rewrite Hconn. destruct (bool_decide (c ∈ open i ∖ closed i));
        split; cbn; rewrite ?R7, ?app_nil_r; done. }
    assert (connectionBuckets_ (send c msg s) = connectionBuckets_ s ∧ contexts (send c msg s) = contexts s) as [Eb Ec]
      by (unfold send; by destruct (connected c s)).
    unfold onMessage. cbv zeta. rewrite Ec, Eb, R5. apply yields_bind, yields_assert; [by apply bool_decide_eq_true|].
    rewrite (entry_alive_idle i s c Hr). destruct (bool_decide (is_Some _)).
    + ystep insert_back_spec; [done|]. intros b (B1 & B2 & B3). apply yields_ret. by apply Hsend.
    + apply yields_ret. specialize (Hsend (connectionBuckets_ s) (idle i) R1 R2 R3). rewrite R5 in Ec.
      destruct (send c msg s). cbn in *. by subst.
  - unfold onConnection. rewrite R5. apply yields_bind, yields_assert; [by apply bool_decide_eq_true|]. apply yields_ret.
    split; cbn; try done. by rewrite R8.
  - apply yields_ret. split; cbn; try done. by rewrite R4.
  - apply yields_ret. destruct (tick_buckets i s Hr) as (B1 & B2 & _). split; cbn; try done.
    + intros c. by rewrite (tick_idle i s c Hr).
    + rewrite R4, R6. f_equal. f_equal. apply set_eq. intros c. by apply tick_destroyed.
Qed.

Lemma refines_new : refines Idle_new (EchoServer_new idleSeconds).
Proof.
  destruct (cb_new_spec (T := T) n) as [N1 N2]. destruct (cb_resize_spec n ∅ (cb_new (T := T) n)) as [M1 M2]; [rewrite N1, N2; cbn; lia|].
  rewrite N1 in M1. cbn in M1. rewrite Nat.sub_0_r in M1. split; cbn; fold n; try done.
  - by rewrite M1, length_replicate.
  - congruence.
  - intros c. rewrite M1, lookup_empty. assert (first_bucket c (reverse (replicate n ∅)) = None) as ->; [|done].
    apply eq_None_not_Some. rewrite first_bucket_some, union_reverse, elem_of_union_list. intros (X & HX & Hc).
    apply elem_of_replicate in HX as [-> _]. by apply not_elem_of_empty in Hc.
Qed.

Lemma exec_all_refines es : ∀ i s, refines i s → events_ok idleSeconds es i →
  exec_all es s ⇓ refines (foldl (spec_step idleSeconds) i es).
Proof.
  induction es as [|e es IH]; intros i s Hr Hok; [by apply yields_ret|]. destruct Hok as [He Hes]. cbn [exec_all foldl].
  ystep exec_idle; [done|done|]. intros s' Hr'. by apply IH.
Qed.

(** ** What the specification says *)

(** Nothing of a connection: no message, and it is not gone. *)
Definition quiet (c : Z) (e : Event) : Prop := e ≠ EUp c ∧ (∀ msg, e ≠ EMessage c msg) ∧ e ≠ EGone c.
Definition ticks (es : list Event) : Z := size_of (filter (λ e, e = ETimer) es).

(** A connection that exists has its time, or was shut down. *)
Definition timed (i : Idle) : Prop := ∀ c, c ∈ present i → is_Some (idle i !! c) ∨ c ∈ closed i.

Lemma spec_timed i e : timed i → timed (spec_step idleSeconds i e).
Proof.
  intros Ht c. destruct e as [c'|c' msg|c'|c'|]; cbn [spec_step].
  - cbn. rewrite elem_of_union, elem_of_singleton. destruct (decide (c' = c)) as [->|Hne]; [rewrite lookup_insert_eq; intros _; left; by eexists|].
    rewrite lookup_insert_ne by done. intros [->|Hc]; [done|by apply Ht].
  - cbn. case_bool_decide; [|apply Ht]. intros Hc. destruct (decide (c' = c)) as [->|Hne]; [rewrite lookup_insert_eq; left; by eexists|].
    rewrite lookup_insert_ne by done. by apply Ht.
  - apply Ht.
  - cbn. rewrite elem_of_difference. intros [Hc _]. by apply Ht.
  - cbn. intros Hc. destruct (Ht c Hc) as [[k Hk]|Hcl]; [|right; apply elem_of_union; by right].
    rewrite map_lookup_filter, lookup_fmap, Hk. cbn. destruct (decide (Z.succ k < idleSeconds)) as [Hlt|Hge].
    + left. rewrite option_guard_True by done. by eexists.
    + right. apply elem_of_union. left. apply elem_of_intersection. split; [|done]. apply elem_of_dom.
      rewrite map_lookup_filter, lookup_fmap, Hk. cbn. rewrite option_guard_True by (cbn; lia). by eexists.
Qed.

Lemma spec_all_timed es : timed (foldl (spec_step idleSeconds) Idle_new es).
Proof.
  induction es as [|x es IH] using rev_ind; [intros c Hc; by apply not_elem_of_empty in Hc|]. rewrite foldl_app. by apply spec_timed.
Qed.

Lemma closed_stays c es : ∀ i, c ∈ closed i → c ∈ closed (foldl (spec_step idleSeconds) i es).
Proof.
  induction es as [|e es IH]; intros i Hc; [done|]. cbn [foldl]. apply IH. destruct e; cbn; try done.
  apply elem_of_union. by right.
Qed.

Lemma spec_quiet c es : ∀ i k, Forall (quiet c) es → idle i !! c = Some k → k < idleSeconds → c ∈ present i → c ∉ closed i →
  c ∈ closed (foldl (spec_step idleSeconds) i es) ↔ idleSeconds ≤ k + ticks es.
Proof.
  induction es as [|e es IH]; intros i k Hq Hk Hlt Hp Hc; cbn [foldl]; [change (ticks []) with 0; split; [done|lia]|].
  apply Forall_cons in Hq as [(Q1 & Q2 & Q3) Hq]. unfold ticks in *. rewrite filter_cons.
  destruct e as [c'|c' msg|c'|c'|]; cbn [spec_step]; try (rewrite decide_False by done).
  - apply IH; cbn; try done; [rewrite lookup_insert_ne by congruence; done|]. apply elem_of_union. by right.
  - apply IH; cbn; try done. case_bool_decide; [|done]. rewrite lookup_insert_ne; [done|]. intros ->. by apply (Q2 msg).
  - by apply IH.
  - apply IH; cbn; try done. apply elem_of_difference. split; [done|]. rewrite elem_of_singleton. congruence.
  - rewrite decide_True by done. rewrite size_of_cons. destruct (decide (Z.succ k < idleSeconds)) as [Hlt'|Hge].
    + rewrite IH with (k := Z.succ k); try done; cbn; [lia|..].
      * rewrite map_lookup_filter, lookup_fmap, Hk. cbn. by rewrite option_guard_True.
      * rewrite elem_of_union, elem_of_intersection, elem_of_dom, map_lookup_filter, lookup_fmap, Hk. cbn.
        rewrite option_guard_False by (cbn; lia). intros [[[x Hx] _]|]; done.
    + pose proof (size_of_nonneg (filter (λ e, e = ETimer) es)). split; [intros _; lia|intros _]. apply closed_stays. cbn.
      apply elem_of_union. left. apply elem_of_intersection. split; [|done]. apply elem_of_dom.
      rewrite map_lookup_filter, lookup_fmap, Hk. cbn. rewrite option_guard_True by (cbn; lia). by eexists.
Qed.

(** C27. Idle connections are shut down.  In any run of an echo server (with connections that come up once, and
    have their messages after that) no assertion fails; a message is echoed exactly if its connection is up and was not shut
    down by the server before (afterwards [send] drops it), in the order of the messages; and the timing wheel does what its buckets are for, which is to count for each
    connection the ticks since it was last active: if a connection that was not shut down came up or had a message, and after that has no
    message, then the server calls its [shutdown] if and only if there were [idleSeconds] ticks since, as long as it exists. *)
Theorem idle_wheel es : events_ok idleSeconds es Idle_new →
  exec_all es (EchoServer_new idleSeconds) ⇓ λ s,
    shut s = closed (foldl (spec_step idleSeconds) Idle_new es) ∧ sent s = echoed (foldl (spec_step idleSeconds) Idle_new es) ∧
    ∀ es1 e es2 c, es = es1 ++ e :: es2 → e = EUp c ∨ (∃ msg, e = EMessage c msg) →
      let before := foldl (spec_step idleSeconds) Idle_new es1 in
      c ∉ closed before → c ∈ present (spec_step idleSeconds before e) → Forall (quiet c) es2 →
      (c ∈ shut s ↔ idleSeconds ≤ ticks es2).
Proof.
  intros Hok. eapply yields_mono; [apply exec_all_refines; [apply refines_new|done]|]. intros s Hr. pose proof (rf_closed _ _ Hr) as Hs.
  split; [done|]. split; [apply (rf_sent _ _ Hr)|]. intros es1 e es2 c -> He before Hc Hp Hq. rewrite Hs, foldl_app. cbn [foldl]. fold before.
  pose proof (spec_all_timed es1) as Ht. fold before in Ht.
  rewrite (spec_quiet c es2 _ 0); [done|done| |lia|done|].
  - destruct He as [-> |[msg ->]]; cbn; [by rewrite lookup_insert_eq|]. case_bool_decide as Hi; [by rewrite lookup_insert_eq|]. exfalso. cbn in Hp.
    by destruct (Ht c Hp).
  - by destruct He as [-> |[msg ->]].
Qed.
End Refines.

(** With two seconds: a connection that is idle, and one that has a message in between. *)
Lemma idle_wheel_witness :
  exec_all (T := Ring Bucket) [EUp 1; EUp 2; ETimer; EMessage 2 []; ETimer] (EchoServer_new 2) ⇓ λ s, 1 ∈ shut s ∧ 2 ∉ shut s.
Proof.
  assert (1 ≤ 2) as H2 by lia. set (es := [EUp 1; EUp 2; ETimer; EMessage 2 []; ETimer]).
  assert (events_ok 2 es Idle_new) as Hok by (cbn; split_and!; try done; by apply (bool_decide_unpack _)).
  eapply yields_mono; [apply (idle_wheel (T := Ring Bucket) 2 H2 es Hok)|]. intros s (_ & _ & Hs). split.
  - assert (1 ∈ shut s ↔ 2 ≤ ticks [EUp 2; ETimer; EMessage 2 []; ETimer]) as ->; [|by vm_compute].
    apply (Hs [] (EUp 1) [EUp 2; ETimer; EMessage 2 []; ETimer] 1);
      [reflexivity|by left|apply (bool_decide_unpack _); by vm_compute|apply (bool_decide_unpack _); by vm_compute|by repeat constructor].
  - assert (2 ∈ shut s ↔ 2 ≤ ticks [ETimer]) as ->; [|by vm_compute].
    apply (Hs [EUp 1; EUp 2; ETimer] (EMessage 2 []) [ETimer] 2);
      [reflexivity|by right; eexists|apply (bool_decide_unpack _); by vm_compute|apply (bool_decide_unpack _); by vm_compute|by repeat constructor].
Defined.

(** A message that comes after the wheel has shut its connection down is not echoed. *)
Example late_message_dropped :
  (s ← exec_all (T := Ring Bucket) [EUp 1; EMessage 1 (lit "a"); ETimer; ETimer; EMessage 1 (lit "b")] (EchoServer_new 2);
   mret (sent s)) = Ok [(1, lit "a")].
Proof. vm_compute. reflexivity. Qed.
