(* ===== verification/Hub.v ===== *)
(** * A publish-subscribe hub (examples/hub/codec.h, codec.cc, hub.cc; what pubsub.cc sends)

    Topics with their audiences, connections with the set of topics in their context, and the
    lines of the protocol.  The input buffer of a connection is the bytes it holds, which is what a [Buffer]
    refines; of a connection the hub sees whether it is connected, and what was sent. *)
From Stdlib Require Import Strings.Byte.
From stdpp Require Import base numbers list gmap strings.
From S2P Require Import Prelude Buffer ByteQueue Http.
Open Scope Z_scope.
Open Scope muduo_scope.

(** ** The codec *)

Inductive ParseResult := kError | kSuccess | kContinue.
#[export] Instance ParseResult_eq_dec : EqDecision ParseResult.
Proof. solve_decision. Defined.

(** The result, the command, the topic, the content, and what is left in the buffer. *)
Definition parseMessage (buf : bytes) : ParseResult * bytes * bytes * bytes * bytes :=
  match first_crlf buf with
  | Some crlf =>
    let line := take crlf buf in
    let space := find line x20 in
    if (space =? crlf)%nat then (kError, [], [], [], buf)
    else
      let cmd := take space line in
      let topic := drop (space + 1) line in
      let start := drop (crlf + 2) buf in
      if bool_decide (cmd = lit "pub") then
        match first_crlf start with
        | Some crlf => (kSuccess, cmd, topic, take crlf start, drop (crlf + 2) start)
        | None => (kContinue, cmd, topic, [], buf)
        end
      else (kSuccess, cmd, topic, [], start)
  | None => (kContinue, [], [], [], buf)
  end.

(** ** Topics *)

Record Topic := mkTopic {
  topic_ : bytes;
  content_ : bytes;
  lastPubTime_ : Z;
  audiences_ : gset Z
}.
Definition Topic_new (topic : bytes) : Topic := mkTopic topic [] 0 ∅.

Definition makeMessage (t : Topic) : bytes := lit "pub " ++ topic_ t ++ kCRLF ++ content_ t ++ kCRLF.

(** A connection: its input buffer, its context, and what was sent. *)
Record Conn := mkConn {
  connected : bool;
  input : bytes;
  connSub : gset bytes;
  sent : bytes
}.

Record PubSubServer := mkServer {
  topics_ : gmap bytes Topic;
  conns : gmap Z Conn
}.
Definition PubSubServer_new : PubSubServer := mkServer ∅ ∅.

Definition conn_send (message : bytes) (c : Conn) : Conn :=
  if connected c then mkConn true (input c) (connSub c) (sent c ++ message) else c.
Definition conn_shutdown (c : Conn) : Conn := mkConn false (input c) (connSub c) (sent c).
Definition set_input (b : bytes) (c : Conn) : Conn := mkConn (connected c) b (connSub c) (sent c).
Definition set_connSub (l : gset bytes) (c : Conn) : Conn := mkConn (connected c) (input c) l (sent c).

Definition on_conn (f : Conn → Conn) (c : Z) (s : PubSubServer) : PubSubServer := mkServer (topics_ s) (alter f c (conns s)).
Definition set_topic (t : Topic) (s : PubSubServer) : PubSubServer := mkServer (<[ topic_ t := t ]> (topics_ s)) (conns s).

(** The audience after [Topic::add]; what it sends is in [doSubscribe], which has the connection. *)
Definition Topic_add (c : Z) (t : Topic) : Topic := mkTopic (topic_ t) (content_ t) (lastPubTime_ t) ({[ c ]} ∪ audiences_ t).
Definition Topic_remove (c : Z) (t : Topic) : Topic := mkTopic (topic_ t) (content_ t) (lastPubTime_ t) (audiences_ t ∖ {[ c ]}).

(** [getTopic], which makes the topic if there is none. *)
Definition getTopic (topic : bytes) (s : PubSubServer) : Topic := default (Topic_new topic) (topics_ s !! topic).

(** ** The server *)

(** With [Topic::add]: the connection is sent the last publication, if there was one. *)
Definition doSubscribe (c : Z) (topic : bytes) (s : PubSubServer) : PubSubServer :=
  let s := on_conn (λ x, set_connSub ({[ topic ]} ∪ connSub x) x) c s in
  let t := Topic_add c (getTopic topic s) in
  let s := set_topic t s in
  if 0 <? lastPubTime_ t then on_conn (conn_send (makeMessage t)) c s else s.

Definition doUnsubscribe (c : Z) (topic : bytes) (s : PubSubServer) : PubSubServer :=
  let s := set_topic (Topic_remove c (getTopic topic s)) s in
  on_conn (λ x, set_connSub (connSub x ∖ {[ topic ]}) x) c s.

(** With [Topic::publish]: every connection of the audience is sent the message. *)
Definition doPublish (topic content : bytes) (time : Z) (s : PubSubServer) : PubSubServer :=
  let t := getTopic topic s in
  let t := mkTopic (topic_ t) content time (audiences_ t) in
  let s := set_topic t s in
  mkServer (topics_ s) (map_imap (λ c x, Some (if bool_decide (c ∈ audiences_ t) then conn_send (makeMessage t) x else x)) (conns s)).

Definition onConnection (c : Z) (up : bool) (s : PubSubServer) : PubSubServer :=
  if up then mkServer (topics_ s) (<[ c := mkConn true [] ∅ [] ]> (conns s))
  else
    match conns s !! c with
    | Some x => foldl (λ s topic, doUnsubscribe c topic s) (on_conn conn_shutdown c s) (elements (connSub x))
    | None => s
    end.

(** The loop of [onMessage]; the buffer is that of connection [c]. *)
Fixpoint message_loop (fuel : nat) (c : Z) (receiveTime : Z) (buf : bytes) (s : PubSubServer) : option (bytes * PubSubServer) :=
  match fuel with
  | O => None
  | S fuel =>
    match parseMessage buf with
    | (kSuccess, cmd, topic, content, buf) =>
      if bool_decide (cmd = lit "pub") then message_loop fuel c receiveTime buf (doPublish topic content receiveTime s)
      else if bool_decide (cmd = lit "sub") then message_loop fuel c receiveTime buf (doSubscribe c topic s)
      else if bool_decide (cmd = lit "unsub") then message_loop fuel c receiveTime buf (doUnsubscribe c topic s)
      else Some (buf, on_conn conn_shutdown c s)
    | (kError, _, _, _, buf) => Some (buf, on_conn conn_shutdown c s)
    | (kContinue, _, _, _, buf) => Some (buf, s)
    end
  end.
(** [chunk] was read into the input buffer; every turn takes a line. *)
Definition onMessage (c : Z) (chunk : bytes) (receiveTime : Z) (s : PubSubServer) : option PubSubServer :=
  match conns s !! c with
  | Some x =>
    let buf := input x ++ chunk in
    '(buf, s) ← message_loop (S (length buf)) c receiveTime buf s;
    Some (on_conn (set_input buf) c s)
  | None => Some s
  end.

(** [now]: the time and its text. *)
Definition timePublish (now : Z) (text : bytes) (s : PubSubServer) : PubSubServer := doPublish (lit "utc_time") text now s.

(** ** What a client sends *)

Definition subscribe_text (topic : bytes) : bytes := lit "sub " ++ topic ++ kCRLF.
Definition unsubscribe_text (topic : bytes) : bytes := lit "unsub " ++ topic ++ kCRLF.
Definition publish_text (topic content : bytes) : bytes := lit "pub " ++ topic ++ kCRLF ++ content ++ kCRLF.
