(* ===== verification/HubSpec.v ===== *)
(** * The hub delivers

    What subscribers of the hub get: the hub of [Hub], with a set of connections in each topic and a set of topics in each
    connection, refines a relation between connections and topics. *)
From Stdlib Require Import Strings.Byte.
From stdpp Require Import base numbers list gmap strings.
From S2P Require Import Prelude Buffer ByteQueue Http Hub.
Open Scope Z_scope.
Open Scope muduo_scope.

(** ** Commands *)

Inductive Cmd :=
  | CUp (c : Z)
  | CDown (c : Z)
  | CSub (c : Z) (topic : bytes)
  | CUnsub (c : Z) (topic : bytes)
  | CPub (source : option Z) (topic content : bytes)
  | CShut (c : Z).

(** [source] is who publishes: a connection, or the clock of the hub.

    The commands in a buffer, up to one that is wrong, and what is left. *)
Fixpoint commands_fuel (fuel : nat) (c : Z) (buf : bytes) : option (list Cmd * bytes) :=
  match fuel with
  | O => None
  | S fuel =>
    match parseMessage buf with
    | (kSuccess, cmd, topic, content, buf) =>
      if bool_decide (cmd = lit "pub") then '(cs, r) ← commands_fuel fuel c buf; Some (CPub (Some c) topic content :: cs, r)
      else if bool_decide (cmd = lit "sub") then '(cs, r) ← commands_fuel fuel c buf; Some (CSub c topic :: cs, r)
      else if bool_decide (cmd = lit "unsub") then '(cs, r) ← commands_fuel fuel c buf; Some (CUnsub c topic :: cs, r)
      else Some ([CShut c], buf)
    | (kError, _, _, _, buf) => Some ([CShut c], buf)
    | (kContinue, _, _, _, buf) => Some ([], buf)
    end
  end.
Definition commands (c : Z) (buf : bytes) : list Cmd * bytes := default ([], buf) (commands_fuel (S (length buf)) c buf).

(** The events of a run: connections, data that arrives, ticks of the clock. *)
Inductive Event :=
  | EUp (c : Z)
  | EDown (c : Z)
  | EData (c : Z) (chunk : bytes) (receiveTime : Z)
  | ETime (now : Z) (text : bytes).

Definition exec (e : Event) (s : PubSubServer) : option PubSubServer :=
  match e with
  | EUp c => Some (onConnection c true s)
  | EDown c => Some (onConnection c false s)
  | EData c chunk t => onMessage c chunk t s
  | ETime now text => Some (timePublish now text s)
  end.
Fixpoint exec_all (es : list Event) (s : PubSubServer) : option PubSubServer :=
  match es with [] => Some s | e :: es => s ← exec e s; exec_all es s end.

(** The commands of a run, in the order in which they are complete; [inputs] is what waits for more. *)
Definition commands_of (e : Event) (inputs : gmap Z bytes) : list Cmd * gmap Z bytes :=
  match e with
  | EUp c => ([CUp c], <[ c := [] ]> inputs)
  | EDown c => ([CDown c], inputs)
  | EData c chunk _ =>
    match inputs !! c with
    | Some b => let '(cs, rest) := commands c (b ++ chunk) in (cs, <[ c := rest ]> inputs)
    | None => ([], inputs)
    end
  | ETime _ text => ([CPub None (lit "utc_time") text], inputs)
  end.
Fixpoint trace (es : list Event) (inputs : gmap Z bytes) : list Cmd :=
  match es with [] => [] | e :: es => let '(cs, inputs) := commands_of e inputs in cs ++ trace es inputs end.

(** ** The specification *)

(** Who has subscribed to what, the last publication of each topic, and for each connection whether it is open
    and what it was sent, each a topic and a content. *)
Record Spec := mkSpec {
  subs : gset (Z * bytes);
  latest : gmap bytes bytes;
  outs : gmap Z (bool * list (bytes * bytes))
}.
Definition Spec_new : Spec := mkSpec ∅ ∅ ∅.

Definition message_text (m : bytes * bytes) : bytes := publish_text m.1 m.2.
Definition out_text (o : bool * list (bytes * bytes)) : bool * bytes := (o.1, concat (message_text <$> o.2)).
Definition deliver (m : bytes * bytes) (x : bool * list (bytes * bytes)) : bool * list (bytes * bytes) :=
  if x.1 then (true, x.2 ++ [m]) else x.

Definition spec_step (p : Spec) (c : Cmd) : Spec :=
  match c with
  | CUp c => mkSpec (subs p) (latest p) (<[ c := (true, []) ]> (outs p))
  | CDown c => mkSpec (filter (λ x, x.1 ≠ c) (subs p)) (latest p) (alter (λ x, (false, x.2)) c (outs p))
  | CSub c topic =>
    mkSpec ({[ (c, topic) ]} ∪ subs p) (latest p)
      match latest p !! topic with Some x => alter (deliver (topic, x)) c (outs p) | None => outs p end
  | CUnsub c topic => mkSpec (subs p ∖ {[ (c, topic) ]}) (latest p) (outs p)
  | CPub _ topic content =>
    mkSpec (subs p) (<[ topic := content ]> (latest p))
      (map_imap (λ c x, Some (if bool_decide ((c, topic) ∈ subs p) then deliver (topic, content) x else x)) (outs p))
  | CShut c => mkSpec (subs p) (latest p) (alter (λ x, (false, x.2)) c (outs p))
  end.

(** ** Refinement *)

Record refines (p : Spec) (s : PubSubServer) : Prop := {
  rf_outs c : (λ x, (connected x, sent x)) <$> conns s !! c = out_text <$> outs p !! c;
  rf_topics t x : topics_ s !! t = Some x → topic_ x = t;
  rf_audiences c t : c ∈ audiences_ (getTopic t s) ↔ (c, t) ∈ subs p;
  rf_context c x t : conns s !! c = Some x → t ∈ connSub x ↔ (c, t) ∈ subs p;
  rf_latest t : latest p !! t = (let x := getTopic t s in if 0 <? lastPubTime_ x then Some (content_ x) else None);
  rf_known c t : (c, t) ∈ subs p → is_Some (conns s !! c)
}.

Section Steps.
Context (p : Spec) (s : PubSubServer) (Hr : refines p s).

Lemma getTopic_topic t : topic_ (getTopic t s) = t.
Proof. unfold getTopic. destruct (topics_ s !! t) as [x|] eqn:E; [|done]. exact (rf_topics p s Hr t x E). Qed.

(** A topic is changed. *)
Lemma getTopic_set x s' t : topics_ s' = <[ topic_ x := x ]> (topics_ s) → getTopic t s' = if decide (topic_ x = t) then x else getTopic t s.
Proof. intros E. unfold getTopic. rewrite E. destruct (decide (topic_ x = t)) as [<-|Hne]; [by rewrite lookup_insert_eq|by rewrite lookup_insert_ne]. Qed.

Lemma topics_set x t y : <[ topic_ x := x ]> (topics_ s) !! t = Some y → topic_ y = t.
Proof. rewrite lookup_insert_Some. intros [[<- <-]|[_ E]]; [done|]. exact (rf_topics p s Hr t y E). Qed.
End Steps.

(** The command [c] on the server. *)
Definition exec_cmd (time : Z) (s : PubSubServer) (c : Cmd) : PubSubServer :=
  match c with
  | CUp c => onConnection c true s
  | CDown c => onConnection c false s
  | CSub c topic => doSubscribe c topic s
  | CUnsub c topic => doUnsubscribe c topic s
  | CPub _ topic content => doPublish topic content time s
  | CShut c => on_conn conn_shutdown c s
  end.

(** ** Every command is refined *)

Lemma conn_send_deliver m x o : (connected x, sent x) = out_text o →
  (connected (conn_send (message_text m) x), sent (conn_send (message_text m) x)) = out_text (deliver m o).
Proof.
  destruct x as [[] ? ? ?], o as [[] ms]; cbn; intros [= ->]; [|done]. unfold deliver, out_text. cbn.
  by rewrite fmap_app, concat_app; cbn; rewrite app_nil_r.
Qed.
Lemma conn_send_context m x : connSub (conn_send m x) = connSub x.
Proof. destruct x as [[] ? ? ?]; reflexivity. Qed.

Section Commands.
Context (p : Spec) (s : PubSubServer) (Hr : refines p s).

Lemma refines_sub time c t : is_Some (conns s !! c) → refines (spec_step p (CSub c t)) (exec_cmd time s (CSub c t)).
Proof.
  intros [x Hc]. cbn [exec_cmd spec_step]. unfold doSubscribe.
  set (s1 := on_conn _ c s). assert (Hg : getTopic t s1 = getTopic t s) by done.
  rewrite Hg. set (y := Topic_add c (getTopic t s)). rewrite (rf_latest p s Hr t). cbn zeta.
  assert (Hy : topic_ y = t) by (apply (getTopic_topic p s Hr)).
  set (s2 := if 0 <? lastPubTime_ y then _ else _).
  assert (Ht : topics_ s2 = <[ topic_ y := y ]> (topics_ s)) by (unfold s2; by destruct (0 <? _)).
  assert (Hcs : ∀ c', conns s2 !! c' = if decide (c' = c)
      then Some (let z := set_connSub ({[ t ]} ∪ connSub x) x in if 0 <? lastPubTime_ y then conn_send (makeMessage y) z else z)
      else conns s !! c').
  { intros c'. unfold s2, s1. destruct (0 <? _), (decide (c' = c)) as [->|Hne]; cbn [on_conn set_topic conns];
      rewrite ?lookup_alter_eq, ?(lookup_alter_ne _ _ c c') by done; by rewrite ?Hc. }
  assert (Hm : makeMessage y = message_text (t, content_ (getTopic t s))).
  { unfold makeMessage, message_text, publish_text. by rewrite Hy. }
  constructor; cbn [outs subs latest].
  - intros c'. rewrite Hcs, Hm. change (lastPubTime_ y) with (lastPubTime_ (getTopic t s)).
    pose proof (rf_outs p s Hr c') as Ho. destruct (decide (c' = c)) as [->|Hne].
    + rewrite Hc in Ho. destruct (outs p !! c) as [o|] eqn:Eo; [|done]. injection Ho as Ho1 Ho2.
      destruct (0 <? _); [rewrite lookup_alter_eq|]; rewrite Eo; cbn [fmap option_fmap option_map]; f_equal; [apply conn_send_deliver|]; by apply (f_equal2 pair).
    + destruct (0 <? _); [rewrite lookup_alter_ne by done|]; by rewrite Ho.
  - intros t' z. rewrite Ht. apply (topics_set p s Hr).
  - intros c' t'. rewrite (getTopic_set s y s2 t' Ht), Hy, elem_of_union, elem_of_singleton.
    destruct (decide (t = t')) as [<-|Hne].
    + cbn. rewrite elem_of_union, elem_of_singleton, (rf_audiences p s Hr). intuition congruence.
    + rewrite (rf_audiences p s Hr). intuition congruence.
  - intros c' z t'. rewrite Hcs. destruct (decide (c' = c)) as [->|Hne].
    + intros [= <-]. replace (connSub _) with ({[ t ]} ∪ connSub x).
      2:{ cbn zeta. destruct (0 <? _); [by rewrite conn_send_context|done]. }
      rewrite !elem_of_union, !elem_of_singleton, (rf_context p s Hr c x t' Hc). intuition congruence.
    + intros E. rewrite elem_of_union, elem_of_singleton, (rf_context p s Hr c' z t' E). intuition congruence.
  - intros t'. rewrite (getTopic_set s y s2 t' Ht), Hy, (rf_latest p s Hr t'). by destruct (decide (t = t')) as [<-|Hne].
  - intros c' t'. rewrite Hcs, elem_of_union, elem_of_singleton. destruct (decide (c' = c)) as [->|Hne]; [by eexists|].
    intros [[= ]|E]; [done|]. exact (rf_known p s Hr c' t' E).
Qed.

Lemma refines_unsub time c t : is_Some (conns s !! c) → refines (spec_step p (CUnsub c t)) (exec_cmd time s (CUnsub c t)).
Proof.
  intros [x Hc]. cbn [exec_cmd spec_step]. unfold doUnsubscribe.
  set (y := Topic_remove c (getTopic t s)). set (s2 := on_conn _ c _).
  assert (Hy : topic_ y = t) by (apply (getTopic_topic p s Hr)).
  assert (Ht : topics_ s2 = <[ topic_ y := y ]> (topics_ s)) by done.
  assert (Hcs : ∀ c', conns s2 !! c' = if decide (c' = c) then Some (set_connSub (connSub x ∖ {[ t ]}) x) else conns s !! c').
  { intros c'. unfold s2. cbn. destruct (decide (c' = c)) as [->|Hne]; [by rewrite lookup_alter_eq, Hc|by rewrite lookup_alter_ne]. }
  constructor; cbn [outs subs latest].
  - intros c'. rewrite Hcs, <- (rf_outs p s Hr c'). destruct (decide (c' = c)) as [->|Hne]; [by rewrite Hc|done].
  - intros t' z. rewrite Ht. apply (topics_set p s Hr).
  - intros c' t'. rewrite (getTopic_set s y s2 t' Ht), Hy, elem_of_difference, elem_of_singleton.
    destruct (decide (t = t')) as [<-|Hne].
    + cbn. rewrite elem_of_difference, elem_of_singleton, (rf_audiences p s Hr). intuition congruence.
    + rewrite (rf_audiences p s Hr). intuition congruence.
  - intros c' z t'. rewrite Hcs. destruct (decide (c' = c)) as [->|Hne].
    + intros [= <-]. cbn. rewrite !elem_of_difference, !elem_of_singleton, (rf_context p s Hr c x t' Hc). intuition congruence.
    + intros E. rewrite elem_of_difference, elem_of_singleton, (rf_context p s Hr c' z t' E). intuition congruence.
  - intros t'. rewrite (getTopic_set s y s2 t' Ht), Hy, (rf_latest p s Hr t'). by destruct (decide (t = t')) as [<-|Hne].
  - intros c' t'. rewrite Hcs, elem_of_difference. intros [E _]. destruct (decide (c' = c)); [by eexists|]. exact (rf_known p s Hr c' t' E).
Qed.

Lemma refines_pub time src t content : 0 < time → refines (spec_step p (CPub src t content)) (exec_cmd time s (CPub src t content)).
Proof.
  intros Htime. cbn [exec_cmd spec_step]. unfold doPublish. cbn zeta.
  set (y := mkTopic _ content time _). set (s2 := mkServer _ (map_imap _ _)).
  assert (Hy : topic_ y = t) by (apply (getTopic_topic p s Hr)).
  assert (Ht : topics_ s2 = <[ topic_ y := y ]> (topics_ s)) by done.
  assert (Ha : ∀ c, c ∈ audiences_ y ↔ (c, t) ∈ subs p) by (intros c; apply (rf_audiences p s Hr)).
  assert (Hm : makeMessage y = message_text (t, content)) by (unfold makeMessage, message_text, publish_text; by rewrite Hy).
  assert (Hcs : ∀ c, conns s2 !! c = (λ x, if bool_decide ((c, t) ∈ subs p) then conn_send (message_text (t, content)) x else x) <$> conns s !! c).
  { intros c. unfold s2. cbn [conns set_topic]. rewrite map_lookup_imap, Hm. destruct (conns s !! c) as [x|]; [|done]. cbn.
    by rewrite (bool_decide_ext _ _ (Ha c)). }
  constructor; cbn [outs subs latest].
  - intros c. rewrite Hcs, map_lookup_imap. pose proof (rf_outs p s Hr c) as Ho. destruct (conns s !! c) as [x|], (outs p !! c) as [o|]; try done.
    apply (inj Some) in Ho. cbn [fmap option_fmap option_map mbind option_bind]. f_equal. case_bool_decide; [by apply conn_send_deliver|done].
  - intros t' z. rewrite Ht. apply (topics_set p s Hr).
  - intros c' t'. rewrite (getTopic_set s y s2 t' Ht), Hy. destruct (decide (t = t')) as [<-|Hne]; [apply Ha|apply (rf_audiences p s Hr)].
  - intros c' z t'. rewrite Hcs. destruct (conns s !! c') as [x|] eqn:E; [|done]. cbn. intros [= <-].
    rewrite <- (rf_context p s Hr c' x t' E). case_bool_decide; [by rewrite conn_send_context|done].
  - intros t'. rewrite (getTopic_set s y s2 t' Ht), Hy. destruct (decide (t = t')) as [<-|Hne].
    + rewrite lookup_insert_eq. cbn zeta. unfold y. cbn [lastPubTime_ content_]. by rewrite (proj2 (Z.ltb_lt _ _) Htime).
    + rewrite lookup_insert_ne by done. apply (rf_latest p s Hr).
  - intros c' t' E. rewrite Hcs, fmap_is_Some. exact (rf_known p s Hr c' t' E).
Qed.

Lemma refines_shut time c : refines (spec_step p (CShut c)) (exec_cmd time s (CShut c)).
Proof.
  cbn [exec_cmd spec_step]. constructor; cbn [outs subs latest].
  - intros c'. cbn. pose proof (rf_outs p s Hr c') as Ho. destruct (decide (c' = c)) as [->|Hne].
    + rewrite !lookup_alter_eq. destruct (conns s !! c), (outs p !! c); try done. injection Ho as _ Ho. cbn. unfold out_text. cbn. by rewrite Ho.
    + by rewrite !lookup_alter_ne.
  - exact (rf_topics p s Hr).
  - exact (rf_audiences p s Hr).
  - intros c' z t'. cbn. rewrite lookup_alter_Some. intros [(<- & y & E & ->)|[Hne E]]; exact (rf_context p s Hr _ _ _ E).
  - exact (rf_latest p s Hr).
  - intros c' t' E. cbn. destruct (rf_known p s Hr c' t' E) as [x Hx]. destruct (decide (c' = c)) as [->|Hne].
    + rewrite lookup_alter_eq, Hx. by eexists.
    + rewrite lookup_alter_ne by done. by eexists.
Qed.

Lemma refines_up time c : conns s !! c = None → refines (spec_step p (CUp c)) (exec_cmd time s (CUp c)).
Proof.
  intros Hc. cbn [exec_cmd spec_step]. unfold onConnection. constructor; cbn [outs subs latest conns topics_].
  - intros c'. destruct (decide (c' = c)) as [->|Hne]; [by rewrite !lookup_insert_eq|]. rewrite !lookup_insert_ne by done. apply (rf_outs p s Hr).
  - exact (rf_topics p s Hr).
  - exact (rf_audiences p s Hr).
  - intros c' z t'. rewrite lookup_insert_Some. intros [[<- <-]|[_ E]]; [|exact (rf_context p s Hr _ _ _ E)].
    cbn. split; [by intros []%elem_of_empty|]. intros E. destruct (rf_known p s Hr c t' E) as [? E']. congruence.
  - exact (rf_latest p s Hr).
  - intros c' t' E. destruct (decide (c' = c)) as [->|Hne]; [rewrite lookup_insert_eq; by eexists|]. rewrite lookup_insert_ne by done.
    exact (rf_known p s Hr c' t' E).
Qed.
End Commands.

(** A connection is known to the specification when it is to the hub. *)
Lemma refines_known p s c : refines p s → is_Some (conns s !! c) ↔ is_Some (outs p !! c).
Proof. intros Hr. pose proof (rf_outs p s Hr c) as Ho. destruct (conns s !! c), (outs p !! c); try done; by split; eexists. Qed.

(** The loop of [onConnection] over the context. *)
Lemma refines_unsubs c l p s : refines p s → is_Some (conns s !! c) →
  refines (foldl spec_step p (CUnsub c <$> l)) (foldl (λ s t, doUnsubscribe c t s) s l).
Proof.
  revert p s. induction l as [|t l IH]; intros p s Hr Hc; [done|]. cbn [fmap list_fmap foldl].
  pose proof (refines_unsub p s Hr 0 c t Hc) as Hr'. apply IH; [exact Hr'|]. rewrite (refines_known _ _ c Hr').
  by rewrite <- (refines_known p s c Hr).
Qed.

Lemma spec_unsubs c l p : foldl spec_step p (CUnsub c <$> l) = mkSpec (filter (λ x, x.1 = c → x.2 ∉ l) (subs p)) (latest p) (outs p).
Proof.
  revert p. induction l as [|t l IH]; intros [S L O]; cbn [fmap list_fmap foldl spec_step subs latest outs].
  - f_equal. apply leibniz_equiv. intros x. rewrite elem_of_filter. pose proof (not_elem_of_nil x.2). tauto.
  - rewrite IH. cbn [subs latest outs]. f_equal. apply leibniz_equiv. intros [c' t'].
    rewrite !elem_of_filter, elem_of_difference, elem_of_singleton, not_elem_of_cons. cbn.
    destruct (decide (c' = c)) as [->|Hne]; intuition congruence.
Qed.

Lemma refines_down p s time c : refines p s → refines (spec_step p (CDown c)) (exec_cmd time s (CDown c)).
Proof.
  intros Hr. cbn [exec_cmd]. unfold onConnection. destruct (conns s !! c) as [x|] eqn:Hc.
  - pose proof (refines_shut p s Hr time c) as Hr'.
    assert (Hk : is_Some (conns (exec_cmd time s (CShut c)) !! c)) by (cbn; rewrite lookup_alter_eq, Hc; by eexists).
    pose proof (refines_unsubs c (elements (connSub x)) _ _ Hr' Hk) as H. rewrite spec_unsubs in H.
    replace (spec_step p (CDown c)) with (mkSpec (filter (λ y, y.1 = c → y.2 ∉ elements (connSub x)) (subs (spec_step p (CShut c))))
      (latest (spec_step p (CShut c))) (outs (spec_step p (CShut c)))); [exact H|].
    cbn [spec_step subs latest outs]. f_equal. apply leibniz_equiv. intros [c' t]. rewrite !elem_of_filter. cbn.
    rewrite elem_of_elements. pose proof (rf_context p s Hr c x t Hc).
    destruct (decide (c' = c)) as [->|Hne]; intuition congruence.
  - replace (spec_step p (CDown c)) with p; [exact Hr|]. destruct p as [S L O]. cbn [spec_step subs latest outs]. f_equal.
    + apply leibniz_equiv. intros [c' t]. rewrite elem_of_filter. cbn. split; [|tauto]. intros E. split; [|done]. intros ->.
      destruct (rf_known _ s Hr c t E). congruence.
    + symmetry. apply map_eq. intros c'. destruct (decide (c' = c)) as [->|Hne]; [|by rewrite lookup_alter_ne].
      rewrite lookup_alter_eq. pose proof (rf_outs _ s Hr c) as Ho. rewrite Hc in Ho. cbn in Ho. symmetry in Ho. apply fmap_None in Ho. cbn in Ho. by rewrite Ho.
Qed.

(** What the hub relies on: only connections that are known have commands, and one comes up once. *)
Definition cmd_ok (p : Spec) (c : Cmd) : Prop :=
  match c with
  | CUp c => outs p !! c = None
  | CSub c _ | CUnsub c _ => is_Some (outs p !! c)
  | _ => True
  end.

Lemma refines_cmd p s time k : refines p s → 0 < time → cmd_ok p k → refines (spec_step p k) (exec_cmd time s k).
Proof.
  intros Hr Ht Hk. destruct k as [c|c|c t|c t|src t x|c]; cbn [cmd_ok] in Hk.
  - apply refines_up; [done|]. apply eq_None_not_Some. rewrite (refines_known p s c Hr), Hk. by intros [].
  - by apply refines_down.
  - apply refines_sub; [done|]. by apply (refines_known p s c Hr).
  - apply refines_unsub; [done|]. by apply (refines_known p s c Hr).
  - by apply refines_pub.
  - by apply refines_shut.
Qed.

(** ** The loop of [onMessage] *)

(** A command that is parsed is taken out of the buffer. *)
Lemma parse_shrinks buf cmd t x buf' : parseMessage buf = (kSuccess, cmd, t, x, buf') → (length buf' < length buf)%nat.
Proof.
  unfold parseMessage. destruct (first_crlf buf) as [n|] eqn:E; [|done]. pose proof (first_crlf_lt _ _ E) as Hn.
  destruct (_ =? _)%nat; [done|]. case_bool_decide.
  - destruct (first_crlf (drop (n + 2) buf)) as [m|] eqn:E2; [|done]. intros [= _ _ _ <-]. rewrite !length_drop. lia.
  - intros [= _ _ _ <-]. rewrite length_drop. lia.
Qed.

Lemma commands_total fuel c buf : (length buf < fuel)%nat → is_Some (commands_fuel fuel c buf).
Proof.
  revert buf. induction fuel as [|fuel IH]; intros buf H; [lia|]. cbn [commands_fuel].
  destruct (parseMessage buf) as [[[[[] cmd] t] x] buf'] eqn:E; [by eexists| |by eexists]. pose proof (parse_shrinks _ _ _ _ _ E).
  destruct (IH buf') as [[cs r] Hc]; [lia|]. rewrite Hc. cbn. repeat case_bool_decide; by eexists.
Qed.

Lemma message_loop_commands fuel c time buf s :
  message_loop fuel c time buf s = '(cs, r) ← commands_fuel fuel c buf; Some (r, foldl (exec_cmd time) s cs).
Proof.
  revert buf s. induction fuel as [|fuel IH]; intros buf s; [done|]. cbn [message_loop commands_fuel].
  destruct (parseMessage buf) as [[[[[] cmd] t] x] buf']; [done| |done].
  repeat case_bool_decide; [..|done]; rewrite IH; destruct (commands_fuel fuel c buf') as [[cs r]|]; done.
Qed.

(** The commands of a connection. *)
Definition client_of (k : Cmd) : option Z :=
  match k with CUp _ | CDown _ => None | CSub c _ | CUnsub c _ | CShut c => Some c | CPub src _ _ => src end.

Lemma commands_client fuel c buf cs r : commands_fuel fuel c buf = Some (cs, r) → Forall (λ k, client_of k = Some c) cs.
Proof.
  revert buf cs. induction fuel as [|fuel IH]; intros buf cs; [done|]. cbn [commands_fuel].
  destruct (parseMessage buf) as [[[[[] cmd] t] x] buf']; try (intros [= <- <-]; by repeat constructor).
  repeat case_bool_decide; try (intros [= <- <-]; by repeat constructor);
    (destruct (commands_fuel fuel c buf') as [[cs' r']|] eqn:E; [|done]; cbn; intros [= <- <-]; constructor; [done|by eapply IH]).
Qed.

(** Commands of clients keep who is known, and all but a new connection the inputs. *)
Lemma spec_step_known p k c c0 : client_of k = Some c0 → is_Some (outs (spec_step p k) !! c) ↔ is_Some (outs p !! c).
Proof.
  destruct k as [c'|c'|c' t|c' t|src t x|c']; cbn [client_of spec_step outs]; intros Hk; [done|done|..].
  - destruct (latest p !! t); [|done]. destruct (decide (c' = c)) as [->|Hne]; [by rewrite lookup_alter_eq, fmap_is_Some|by rewrite lookup_alter_ne].
  - done.
  - rewrite map_lookup_imap. destruct (outs p !! c); cbn; [|done]. by split; eexists.
  - destruct (decide (c' = c)) as [->|Hne]; [by rewrite lookup_alter_eq, fmap_is_Some|by rewrite lookup_alter_ne].
Qed.

Lemma on_conn_input f c s c' : (∀ x, input (f x) = input x) → input <$> conns (on_conn f c s) !! c' = input <$> conns s !! c'.
Proof.
  intros Hf. cbn. destruct (decide (c' = c)) as [->|Hne]; [|by rewrite lookup_alter_ne].
  rewrite lookup_alter_eq. destruct (conns s !! c); [|done]. cbn. by rewrite Hf.
Qed.
Lemma conn_send_input m x : input (conn_send m x) = input x.
Proof. destruct x as [[] ? ? ?]; reflexivity. Qed.
Lemma unsub_input c t s c' : input <$> conns (doUnsubscribe c t s) !! c' = input <$> conns s !! c'.
Proof. unfold doUnsubscribe. by rewrite on_conn_input. Qed.

Lemma exec_input time s k c' : k ≠ CUp c' → input <$> conns (exec_cmd time s k) !! c' = input <$> conns s !! c'.
Proof.
  destruct k as [c|c|c t|c t|src t x|c]; intros Hk; cbn [exec_cmd].
  - cbn. rewrite lookup_insert_ne; [done|]. intros ->. done.
  - unfold onConnection. destruct (conns s !! c) as [x|]; [|done]. rewrite <- (on_conn_input conn_shutdown c s c') by done.
    generalize (on_conn conn_shutdown c s). induction (elements (connSub x)) as [|t l IH]; intros s'; [done|]. cbn [foldl].
    by rewrite IH, unsub_input.
  - unfold doSubscribe. cbn zeta. destruct (0 <? _); [rewrite on_conn_input by apply conn_send_input|]; cbn [conns set_topic]; by apply on_conn_input.
  - apply unsub_input.
  - unfold doPublish. cbn [conns set_topic]. rewrite map_lookup_imap. destruct (conns s !! c') as [y|]; [|done]. cbn.
    case_bool_decide; [by rewrite conn_send_input|done].
  - by apply on_conn_input.
Qed.

(** ** The commands of an event *)

(** The hub is in a state of the specification, and its inputs are those that wait. *)
Definition sim (p : Spec) (inputs : gmap Z bytes) (s : PubSubServer) : Prop :=
  refines p s ∧ ∀ c, input <$> conns s !! c = inputs !! c.

Lemma sim_known p inputs s c : sim p inputs s → is_Some (outs p !! c) ↔ is_Some (inputs !! c).
Proof. intros [Hr Hi]. by rewrite <- (refines_known p s c Hr), <- Hi, fmap_is_Some. Qed.

Lemma refines_clients time c cs p s : 0 < time → Forall (λ k, client_of k = Some c) cs → is_Some (outs p !! c) → refines p s →
  refines (foldl spec_step p cs) (foldl (exec_cmd time) s cs) ∧
  ∀ c', input <$> conns (foldl (exec_cmd time) s cs) !! c' = input <$> conns s !! c'.
Proof.
  intros Ht Hcs. revert p s. induction Hcs as [|k cs Hk Hcs IH]; intros p s Hc Hr; [done|]. cbn [foldl].
  destruct (IH (spec_step p k) (exec_cmd time s k)) as [IH1 IH2].
  - by rewrite (spec_step_known p k c c Hk).
  - apply refines_cmd; [done..|]. destruct k; cbn in Hk |- *; simplify_eq; done.
  - split; [exact IH1|]. intros c'. rewrite IH2. apply exec_input. by intros ->.
Qed.

(** [set_input] is not seen by the specification. *)
Lemma refines_set_input p s c b : refines p s → refines p (on_conn (set_input b) c s).
Proof.
  intros Hr. assert (Hcs : ∀ c' x, conns (on_conn (set_input b) c s) !! c' = Some x →
    ∃ y, conns s !! c' = Some y ∧ connected x = connected y ∧ connSub x = connSub y ∧ sent x = sent y).
  { intros c' x. cbn. rewrite lookup_alter_Some. intros [(<- & y & E & ->)|[Hne E]]; eauto 10. }
  constructor; try apply Hr.
  - intros c'. rewrite <- (rf_outs p s Hr c'). cbn. destruct (decide (c' = c)) as [->|Hne]; [|by rewrite lookup_alter_ne].
    rewrite lookup_alter_eq. by destruct (conns s !! c).
  - intros c' x t (y & E & _ & -> & _)%Hcs. exact (rf_context p s Hr c' y t E).
  - intros c' t E. destruct (rf_known p s Hr c' t E) as [x Hx]. cbn. destruct (decide (c' = c)) as [->|Hne].
    + rewrite lookup_alter_eq, Hx. by eexists.
    + rewrite lookup_alter_ne by done. by eexists.
Qed.

(** The times of the events, and that [c] comes up once. *)
Definition event_ok (inputs : gmap Z bytes) (e : Event) : Prop :=
  match e with EUp c => inputs !! c = None | EDown _ => True | EData _ _ time | ETime time _ => 0 < time end.

Lemma sim_event p inputs s e : sim p inputs s → event_ok inputs e →
  ∃ s', exec e s = Some s' ∧ let '(cs, inputs') := commands_of e inputs in sim (foldl spec_step p cs) inputs' s'.
Proof.
  intros Hs He. pose proof Hs as [Hr Hi]. destruct e as [c|c|c chunk time|now text]; cbn [exec commands_of event_ok] in *.
  - eexists; split; [done|]. split; [apply (refines_cmd p s 1 (CUp c)); [done|lia|]|].
    + cbn. apply eq_None_not_Some. rewrite (sim_known p inputs s c Hs), He. by intros [].
    + intros c'. destruct (decide (c' = c)) as [->|Hne]; [by rewrite lookup_insert_eq; cbn; rewrite lookup_insert_eq|].
      rewrite lookup_insert_ne, <- Hi by done. apply (exec_input 1 s (CUp c)). congruence.
  - eexists; split; [done|]. split; [by apply (refines_cmd p s 1 (CDown c)); [|lia|]|].
    intros c'. rewrite <- Hi. by apply (exec_input 1 s (CDown c)).
  - unfold onMessage. pose proof (Hi c) as Hc. destruct (conns s !! c) as [x|] eqn:Ex; cbn in Hc; rewrite <- Hc; [|by eexists].
    rewrite message_loop_commands. unfold commands. destruct (commands_total (S (length (input x ++ chunk))) c (input x ++ chunk)) as [[cs r] E]; [lia|].
    rewrite E. cbn [mbind option_bind default]. eexists; split; [done|].
    destruct (refines_clients time c cs p s) as [H1 H2]; [done|by eapply commands_client|rewrite (sim_known p inputs s c Hs), <- Hc; by eexists|done|].
    split; [by apply refines_set_input|]. intros c'. destruct (decide (c' = c)) as [->|Hne].
    + specialize (H2 c). rewrite Ex in H2. cbn. rewrite lookup_insert_eq, lookup_alter_eq.
      by destruct (conns (foldl (exec_cmd time) s cs) !! c).
    + rewrite lookup_insert_ne by done. cbn. rewrite lookup_alter_ne by done. by rewrite H2.
  - eexists; split; [done|]. split; [by apply (refines_cmd p s now (CPub None (lit "utc_time") text))|].
    intros c'. rewrite <- Hi. by apply (exec_input now s (CPub None (lit "utc_time") text)).
Qed.

(** ** Runs *)

Definition ups (es : list Event) : list Z := omap (λ e, match e with EUp c => Some c | _ => None end) es.

(** A connection comes up once, and the clock is past the epoch. *)
Definition legal_run (es : list Event) : Prop :=
  NoDup (ups es) ∧ Forall (λ e, match e with EData _ _ time | ETime time _ => 0 < time | _ => True end) es.

(** Only a new connection adds an input. *)
Lemma commands_of_known e inputs c : e ≠ EUp c → inputs !! c = None → (commands_of e inputs).2 !! c = None.
Proof.
  intros He Hc. destruct e as [c'|c'|c' chunk time|now text]; cbn [commands_of snd]; try done.
  - rewrite lookup_insert_ne; [done|congruence].
  - destruct (inputs !! c') eqn:E; [|done]. destruct (commands c' _) as [cs r]. cbn. rewrite lookup_insert_ne; [done|congruence].
Qed.

Lemma sim_run es p inputs s : sim p inputs s → legal_run es → (∀ c, c ∈ ups es → inputs !! c = None) →
  ∃ s', exec_all es s = Some s' ∧ refines (foldl spec_step p (trace es inputs)) s'.
Proof.
  revert p inputs s. induction es as [|e es IH]; intros p inputs s Hs [Hnd Hf] Hu; [exists s; split; [done|apply Hs]|].
  apply Forall_cons in Hf as [Hf0 Hf].
  assert (He : event_ok inputs e) by (destruct e; cbn in *; [apply Hu; by left|done..]).
  destruct (sim_event p inputs s e Hs He) as (s1 & E1 & Hs1). cbn [exec_all trace]. rewrite E1. cbn [mbind option_bind].
  assert (Hu' : ∀ c, c ∈ ups es → (commands_of e inputs).2 !! c = None).
  { intros c Hc. apply commands_of_known.
    - intros ->. cbn in Hnd. by apply NoDup_cons in Hnd as [? _].
    - apply Hu. destruct e; cbn; [by right|done..]. }
  destruct (commands_of e inputs) as [cs inputs']. rewrite foldl_app. apply (IH _ inputs' s1); [done| |done].
  split; [|done]. destruct e; cbn in Hnd; [by apply NoDup_cons in Hnd as [_ ?]|done..].
Qed.

Lemma sim_new : sim Spec_new ∅ PubSubServer_new.
Proof.
  split; [|done]. by constructor; cbn; intros *; rewrite ?lookup_empty.
Qed.

(** C25. A publish-subscribe hub delivers what its subscribers ask for: in every run of connections that come and go, data
    that arrives in chunks and ticks of the clock, the server never gets stuck, and its topics, audiences and contexts,
    each of which holds a part of the subscriptions, are a relation between connections and topics: a publication is sent, as one message, to exactly the open
    connections that are subscribed at that moment, a new subscriber is sent the latest publication of the topic if there
    is one, a connection that is gone is in no audience, and the outputs are in the order of the commands. *)
Theorem hub_delivers es : legal_run es →
  ∃ s, exec_all es PubSubServer_new = Some s ∧ refines (foldl spec_step Spec_new (trace es ∅)) s.
Proof. intros H. apply (sim_run es _ _ _ sim_new H). intros c _. apply lookup_empty. Qed.

Lemma hub_delivers_witness :
  let es := [EUp 1; EUp 2; EData 1 (lit "sub a" ++ [x0d]) 5; EData 2 (publish_text (lit "a") (lit "hi")) 6;
             EData 1 [x0a] 7; ETime 8 (lit "noon"); EDown 1] in
  ∃ s, exec_all es PubSubServer_new = Some s ∧ refines (foldl spec_step Spec_new (trace es ∅)) s.
Proof. apply hub_delivers. split; [by apply (bool_decide_unpack _); vm_compute|repeat constructor; lia]. Defined.

Example hub_example :
  (λ s, sent <$> conns s !! 1) <$> exec_all [EUp 1; EUp 2; EData 1 (lit "sub a" ++ [x0d]) 5; EData 2 (publish_text (lit "a") (lit "hi")) 6;
    EData 1 [x0a] 7; EData 2 (publish_text (lit "a") (lit "yo")) 6] PubSubServer_new
  = Some (Some (publish_text (lit "a") (lit "hi") ++ publish_text (lit "a") (lit "yo"))).
Proof. by vm_compute. Qed.

(** ** Clients *)

(** What can be in a line: anything but the end of a line. *)
Definition in_line (l : bytes) : Prop := first_crlf l = None.
#[export] Instance in_line_dec l : Decision (in_line l) := _.

(** What a client writes for a command (pubsub.cc), and the commands it can write. *)
Definition client_text (k : Cmd) : bytes :=
  match k with
  | CSub _ t => subscribe_text t
  | CUnsub _ t => unsubscribe_text t
  | CPub _ t x => publish_text t x
  | _ => []
  end.
Definition client_cmd (c : Z) (k : Cmd) : bool :=
  match k with
  | CSub c' t | CUnsub c' t => bool_decide (c' = c ∧ in_line t)
  | CPub src t x => bool_decide (src = Some c ∧ in_line t ∧ in_line x)
  | _ => false
  end.

Lemma client_cmd_of c k : client_cmd c k → client_of k = Some c.
Proof. destruct k; cbn; try done; rewrite bool_decide_spec; naive_solver. Qed.

(** A line of the protocol. *)
Lemma parse_command_line cmd t rest : x0d ∉ cmd → x20 ∉ cmd → in_line t → cmd ≠ lit "pub" →
  parseMessage (cmd ++ x20 :: t ++ kCRLF ++ rest) = (kSuccess, cmd, t, [], rest).
Proof.
  intros H1 H2 H3 H4. unfold parseMessage. replace (cmd ++ x20 :: t ++ kCRLF ++ rest) with ((cmd ++ x20 :: t) ++ kCRLF ++ rest)
    by (by rewrite <- !app_assoc).
  rewrite first_crlf_end. 2:{ change (x20 :: t) with ([x20] ++ t). rewrite app_assoc. apply first_crlf_skip; [|done].
    rewrite elem_of_app, list_elem_of_singleton. by intros [|]. }
  rewrite take_app_length, find_app by done.
  rewrite (proj2 (Nat.eqb_neq _ _)) by (rewrite length_app; cbn; lia).
  rewrite take_app_length, bool_decide_false by done. f_equal; [f_equal; f_equal|].
  - rewrite Nat.add_1_r. change (x20 :: t) with ([x20] ++ t). rewrite app_assoc. apply drop_app_length'. rewrite length_app. cbn; lia.
  - rewrite (app_assoc (cmd ++ x20 :: t)). apply drop_app_length'. rewrite (length_app (cmd ++ _)). done.
Qed.

Lemma parse_pub t x rest : in_line t → in_line x → parseMessage (publish_text t x ++ rest) = (kSuccess, lit "pub", t, x, rest).
Proof.
  intros H1 H2. unfold parseMessage. replace (publish_text t x ++ rest) with ((lit "pub" ++ x20 :: t) ++ kCRLF ++ (x ++ kCRLF ++ rest))
    by (unfold publish_text; by rewrite <- !app_assoc).
  rewrite first_crlf_end. 2:{ apply (first_crlf_skip (lit "pub ")); [by apply (bool_decide_unpack _)|done]. }
  rewrite take_app_length, find_app by (by apply (bool_decide_unpack _)).
  rewrite (proj2 (Nat.eqb_neq _ _)) by (rewrite length_app; cbn; lia).
  rewrite take_app_length, bool_decide_true by done.
  replace (drop _ (_ ++ kCRLF ++ _)) with (x ++ kCRLF ++ rest).
  2:{ rewrite (app_assoc (lit "pub" ++ x20 :: t)). symmetry. apply drop_app_length'. by rewrite (length_app (lit "pub" ++ _)). }
  rewrite first_crlf_end, take_app_length by done. f_equal. rewrite (app_assoc x). apply drop_app_length'. by rewrite length_app.
Qed.

(** What the hub parses of a command. *)
Definition parsed (k : Cmd) : bytes * bytes * bytes :=
  match k with
  | CSub _ t => (lit "sub", t, [])
  | CUnsub _ t => (lit "unsub", t, [])
  | CPub _ t x => (lit "pub", t, x)
  | _ => ([], [], [])
  end.
Lemma parse_text c k rest : client_cmd c k →
  parseMessage (client_text k ++ rest) = (kSuccess, (parsed k).1.1, (parsed k).1.2, (parsed k).2, rest).
Proof.
  destruct k as [| |c' t|c' t|src t x|]; cbn [client_cmd]; try done; rewrite bool_decide_spec.
  - intros [_ Ht]. cbn [client_text parsed fst snd]. unfold subscribe_text. change (lit "sub ") with (lit "sub" ++ [x20]).
    rewrite <- !app_assoc. by apply parse_command_line; [apply (bool_decide_unpack _)..| |].
  - intros [_ Ht]. cbn [client_text parsed fst snd]. unfold unsubscribe_text. change (lit "unsub ") with (lit "unsub" ++ [x20]).
    rewrite <- !app_assoc. by apply parse_command_line; [apply (bool_decide_unpack _)..| |].
  - intros (_ & Ht & Hx). by apply parse_pub.
Qed.

(** More data does not change what was parsed. *)
Lemma parse_app a b res cmd t x r : parseMessage a = (res, cmd, t, x, r) → res ≠ kContinue →
  parseMessage (a ++ b) = (res, cmd, t, x, r ++ b).
Proof.
  unfold parseMessage. destruct (first_crlf a) as [n|] eqn:E; [|by intros [= <- _ _ _ _]].
  pose proof (first_crlf_lt _ _ E) as Hn. rewrite (first_crlf_app _ b _ E), take_app_le by lia.
  destruct (_ =? _)%nat; [by intros [= <- <- <- <- <-]|]. rewrite drop_app_le by lia. case_bool_decide.
  - destruct (first_crlf (drop (n + 2) a)) as [m|] eqn:E2; [|by intros [= <- _ _ _ _]]. pose proof (first_crlf_lt _ _ E2) as Hm.
    rewrite (first_crlf_app _ b _ E2), take_app_le, drop_app_le by lia. by intros [= <- <- <- <- <-].
  - by intros [= <- <- <- <- <-].
Qed.

(** The buffer waits for the rest of a command. *)
Definition waits (b : bytes) : Prop := (parseMessage b).1.1.1.1 = kContinue.

Lemma waits_texts c cs : Forall (client_cmd c) cs → waits (concat (client_text <$> cs)) → cs = [].
Proof.
  intros [|k cs' Hk _]; [done|]. unfold waits. cbn [fmap list_fmap concat]. by rewrite (parse_text c k _ Hk).
Qed.

(** The command that was parsed is the one the client wrote. *)
Lemma commands_cons fuel c k buf r : client_cmd c k → parseMessage buf = (kSuccess, (parsed k).1.1, (parsed k).1.2, (parsed k).2, r) →
  commands_fuel (S fuel) c buf = '(cs, r) ← commands_fuel fuel c r; Some (k :: cs, r).
Proof.
  intros Hk E. cbn [commands_fuel]. rewrite E.
  destruct k as [| |c' t|c' t|src t x|]; cbn [client_cmd] in Hk; try done; rewrite bool_decide_spec in Hk; cbn [parsed fst snd].
  - destruct Hk as [-> _]. by rewrite bool_decide_false, bool_decide_true.
  - destruct Hk as [-> _]. do 2 rewrite bool_decide_false by done. by rewrite bool_decide_true.
  - destruct Hk as [-> _]. by rewrite bool_decide_true.
Qed.

Lemma commands_fuel_prefix fuel c b d cs : (length b < fuel)%nat → Forall (client_cmd c) cs → b ++ d = concat (client_text <$> cs) →
  ∃ cs1 cs2 r, cs = cs1 ++ cs2 ∧ commands_fuel fuel c b = Some (cs1, r) ∧ r ++ d = concat (client_text <$> cs2) ∧ waits r.
Proof.
  revert b cs. induction fuel as [|fuel IH]; intros b cs Hf Hcs Hb; [lia|].
  destruct (parseMessage b) as [[[[res cmd] t] x] r] eqn:E. destruct (decide (res = kContinue)) as [->|Hres].
  { exists [], cs, b. split_and!; [done| |done|unfold waits; by rewrite E]. cbn [commands_fuel]. rewrite E.
    revert E. unfold parseMessage. repeat case_match; by intros [= _ _ _ <-]. }
  pose proof (parse_app b d _ _ _ _ _ E Hres) as E'. rewrite Hb in E'. destruct Hcs as [|k cs Hk Hcs].
  { cbn in Hb. apply app_eq_nil in Hb as [-> _]. by injection E as <-. }
  cbn [fmap list_fmap concat] in E'. rewrite (parse_text c k _ Hk) in E'. injection E' as <- <- <- <- E'.
  pose proof (parse_shrinks _ _ _ _ _ E). destruct (IH r cs) as (cs1 & cs2 & r2 & -> & Hc & Hr & Hw); [lia|done|done|].
  exists (k :: cs1), cs2, r2. split_and!; [done| |done..]. rewrite (commands_cons fuel c k b r Hk E). by rewrite Hc.
Qed.

(** ** What arrives of a client *)

Definition data_of (c : Z) (es : list Event) : bytes :=
  concat ((λ e, match e with EData c' chunk _ => if bool_decide (c' = c) then chunk else [] | _ => [] end) <$> es).

(** Another event leaves the input of [c], and is no command of [c]. *)
Lemma commands_of_other e inputs c : (∀ chunk time, e ≠ EData c chunk time) → e ≠ EUp c →
  filter (λ k, client_of k = Some c) (commands_of e inputs).1 = [] ∧ (commands_of e inputs).2 !! c = inputs !! c.
Proof.
  intros H1 H2. destruct e as [c'|c'|c' chunk time|now text]; cbn [commands_of fst snd]; try done.
  - split; [done|]. rewrite lookup_insert_ne; [done|congruence].
  - assert (c' ≠ c) by (intros ->; by eapply H1). destruct (inputs !! c') as [b|]; [|done]. unfold commands.
    destruct (commands_fuel _ c' _) as [[cs r]|] eqn:E; cbn; rewrite lookup_insert_ne by done; [|done]. split; [|done].
    apply commands_client in E. apply filter_none. intros k Hk. rewrite Forall_forall in E. rewrite (E k Hk). congruence.
Qed.

Lemma trace_client es inputs c b cs : inputs !! c = Some b → waits b → c ∉ ups es → Forall (client_cmd c) cs →
  b ++ data_of c es = concat (client_text <$> cs) → filter (λ k, client_of k = Some c) (trace es inputs) = cs.
Proof.
  revert inputs b cs. induction es as [|e es IH]; intros inputs b cs Hi Hw Hu Hcs Hb.
  { unfold data_of in Hb. cbn in Hb. rewrite app_nil_r in Hb. rewrite Hb in Hw. symmetry. exact (waits_texts c cs Hcs Hw). }
  assert (He : e ≠ EUp c) by (intros ->; apply Hu; by left).
  assert (Hu' : c ∉ ups es) by (intros Hc; apply Hu; destruct e; cbn; [by right|done..]).
  assert (Hd : data_of c (e :: es) = match e with EData c' chunk _ => if bool_decide (c' = c) then chunk else [] | _ => [] end ++ data_of c es) by done.
  rewrite Hd in Hb. cbn [trace].
  destruct (match e with EData c' _ _ => bool_decide (c' = c) | _ => false end) eqn:Ee.
  - destruct e as [| |c' chunk time|]; try done. rewrite Ee in Hb. apply bool_decide_eq_true in Ee as ->.
    cbn [commands_of]. rewrite Hi, app_assoc in *.
    destruct (commands_fuel_prefix (S (length (b ++ chunk))) c (b ++ chunk) (data_of c es) cs) as (cs1 & cs2 & r & -> & Hc & Hr & Hw'); [lia|done..|].
    unfold commands. rewrite Hc. cbn [default id]. apply Forall_app in Hcs as [Hcs1 Hcs2]. rewrite filter_app. f_equal.
    + apply filter_id. intros k Hk. rewrite Forall_forall in Hcs1. by apply client_cmd_of, Hcs1.
    + apply (IH _ r); [by rewrite lookup_insert_eq|done..].
  - destruct (commands_of_other e inputs c) as [H1 H2]; [intros chunk time ->; by rewrite bool_decide_true in Ee|done|].
    destruct (commands_of e inputs) as [cs' inputs']. cbn in H1, H2. rewrite filter_app, H1. apply (IH _ b); [by rewrite H2|done..|].
    rewrite <- Hb. destruct e as [| |c' chunk time|]; try done. by rewrite Ee.
Qed.

(** Before a connection is up it has no commands. *)
Lemma commands_of_early e inputs c : e ≠ EUp c → inputs !! c = None →
  filter (λ k, client_of k = Some c) (commands_of e inputs).1 = [] ∧ (commands_of e inputs).2 !! c = None.
Proof.
  intros He Hi. destruct (match e with EData c' _ _ => bool_decide (c' = c) | _ => false end) eqn:Ee.
  - destruct e as [| |c' chunk time|]; try done. apply bool_decide_eq_true in Ee as ->. cbn [commands_of]. by rewrite Hi.
  - rewrite <- Hi. apply commands_of_other; [|done]. intros chunk time ->. by rewrite bool_decide_true in Ee.
Qed.

Lemma trace_early es es' inputs c : c ∉ ups es → inputs !! c = None →
  ∃ inputs', filter (λ k, client_of k = Some c) (trace (es ++ es') inputs) = filter (λ k, client_of k = Some c) (trace es' inputs').
Proof.
  revert inputs. induction es as [|e es IH]; intros inputs Hu Hi; [by exists inputs|]. cbn [app trace].
  destruct (commands_of_early e inputs c) as [H1 H2]; [intros ->; apply Hu; by left|done|].
  destruct (commands_of e inputs) as [cs inputs']. cbn in H1, H2. rewrite filter_app, H1. apply IH; [|done].
  intros Hc. apply Hu. destruct e; cbn; [by right|done..].
Qed.

(** What a client writes is what the hub does for it: when connection [c] comes up, once, and the chunks that arrive
    from then on, cut anywhere and between the events of others, are the subscriptions, cancellations and publications
    that a client writes one after another, then the commands of [c] in the run are exactly those, once each and in
    order, and the hub does not close the connection. *)
Theorem hub_session es es' c cs : c ∉ ups es → c ∉ ups es' → Forall (client_cmd c) cs →
  data_of c es' = concat (client_text <$> cs) →
  filter (λ k, client_of k = Some c) (trace (es ++ EUp c :: es') ∅) = cs.
Proof.
  intros Hu Hu' Hcs Hd. destruct (trace_early es (EUp c :: es') ∅ c Hu (lookup_empty c)) as [inputs ->].
  cbn [trace commands_of]. rewrite filter_app. apply (trace_client es' _ c [] cs); [by rewrite lookup_insert_eq|done..].
Qed.

Lemma hub_session_witness :
  filter (λ k, client_of k = Some 1) (trace ([EUp 2; EData 2 (lit "sub b") 3] ++ EUp 1 ::
    [EData 1 (lit "sub a b" ++ [x0d]) 5; EData 2 kCRLF 6; EData 1 (x0a :: lit "pub a" ++ kCRLF ++ lit "h") 7; EData 1 (lit "i" ++ kCRLF) 8]) ∅)
  = [CSub 1 (lit "a b"); CPub (Some 1) (lit "a") (lit "hi")].
Proof.
  apply (hub_session [EUp 2; EData 2 (lit "sub b") 3]); [by apply (bool_decide_unpack _); vm_compute..|repeat constructor|reflexivity].
Defined.
