(* ===== verification/PubSubClient.v ===== *)
(** * A client of the hub (examples/hub/pubsub.h, pubsub.cc)

    The connection of a [PubSubClient], its callback, and what it does with messages; and what goes through the hub from one client to
    another. *)
From Stdlib Require Import Strings.Byte.
From stdpp Require Import base numbers list gmap strings.
From S2P Require Import Prelude Buffer ByteQueue Http Hub HubSpec.
Open Scope Z_scope.
Open Scope muduo_scope.

(** The connection: whether it is connected, its input buffer, and what was sent. *)
Record ClientConn := mkClientConn { is_connected : bool; in_buffer : bytes; out : bytes }.

(** A callback is known by a number; [calls] are the calls of callbacks, with their arguments. *)
Record PubSubClient := mkClient {
  conn_ : option ClientConn;
  subscribeCallback_ : option Z;
  connection_calls : Z;
  calls : list (Z * (bytes * bytes) * Z)
}.
Definition PubSubClient_new : PubSubClient := mkClient None None 0 [].

Definition set_conn (c : option ClientConn) (p : PubSubClient) : PubSubClient :=
  mkClient c (subscribeCallback_ p) (connection_calls p) (calls p).

Definition connected (p : PubSubClient) : bool := match conn_ p with Some c => is_connected c | None => false end.

Definition send (message : bytes) (p : PubSubClient) : bool * PubSubClient :=
  match conn_ p with
  | Some c => if is_connected c then (true, set_conn (Some (mkClientConn true (in_buffer c) (out c ++ message))) p) else (false, p)
  | None => (false, p)
  end.

Definition subscribe (topic : bytes) (cb : option Z) (p : PubSubClient) : bool * PubSubClient :=
  send (subscribe_text topic) (mkClient (conn_ p) cb (connection_calls p) (calls p)).
Definition unsubscribe (topic : bytes) (p : PubSubClient) : PubSubClient := (send (unsubscribe_text topic) p).2.
Definition publish (topic content : bytes) (p : PubSubClient) : bool * PubSubClient := send (publish_text topic content) p.

(** [has_callback]: whether [connectionCallback_] is set. *)
Definition onConnection (has_callback up : bool) (p : PubSubClient) : PubSubClient :=
  let p := if up then set_conn (Some (mkClientConn true [] [])) p else set_conn None p in
  if has_callback then mkClient (conn_ p) (subscribeCallback_ p) (connection_calls p + 1) (calls p) else p.

Definition shutdown_conn (c : ClientConn) : ClientConn := mkClientConn false (in_buffer c) (out c).
(** [client_.disconnect()]. *)
Definition stop (p : PubSubClient) : PubSubClient := set_conn (shutdown_conn <$> conn_ p) p.

(** The loop of [onMessage]: what is left in the buffer, whether the connection was shut down, and the calls. *)
Fixpoint message_loop (fuel : nat) (cb : option Z) (receiveTime : Z) (buf : bytes) (out : list (Z * (bytes * bytes) * Z)) :
    option (bytes * bool * list (Z * (bytes * bytes) * Z)) :=
  match fuel with
  | O => None
  | S fuel =>
    match parseMessage buf with
    | (kSuccess, cmd, topic, content, buf) =>
      match bool_decide (cmd = lit "pub"), cb with
      | true, Some f => message_loop fuel cb receiveTime buf (out ++ [(f, (topic, content), receiveTime)])
      | _, _ => message_loop fuel cb receiveTime buf out
      end
    | (kError, _, _, _, buf) => Some (buf, true, out)
    | (kContinue, _, _, _, buf) => Some (buf, false, out)
    end
  end.
Definition onMessage (chunk : bytes) (receiveTime : Z) (p : PubSubClient) : option PubSubClient :=
  match conn_ p with
  | Some c =>
    let buf := in_buffer c ++ chunk in
    '(buf, shut, cs) ← message_loop (S (length buf)) (subscribeCallback_ p) receiveTime buf (calls p);
    let c := mkClientConn (is_connected c && negb shut) buf (out c) in
    Some (mkClient (Some c) (subscribeCallback_ p) (connection_calls p) cs)
  | None => Some p
  end.

(** ** What a client is called with *)

(** Data that arrives, each chunk with its time. *)
Fixpoint receive (chunks : list (bytes * Z)) (p : PubSubClient) : option PubSubClient :=
  match chunks with [] => Some p | (chunk, time) :: chunks => p ← onMessage chunk time p; receive chunks p end.

(** A message the hub sends is a publication. *)
Definition pub_of (m : bytes * bytes) : Cmd := CPub (Some 0) m.1 m.2.
Definition message_ok (m : bytes * bytes) : Prop := in_line m.1 ∧ in_line m.2.

Lemma pub_texts ms : concat (client_text <$> (pub_of <$> ms)) = concat (message_text <$> ms).
Proof. by rewrite <- list_fmap_compose. Qed.
Lemma pub_client ms : Forall message_ok ms → Forall (client_cmd 0) (pub_of <$> ms).
Proof. intros H. apply Forall_fmap. eapply Forall_impl; [exact H|]. intros m Hm. cbn. by apply bool_decide_pack. Qed.

(** The loop of the client does what the loop of the hub does with publications. *)
Lemma client_loop fuel f time buf ms r cs : commands_fuel fuel 0 buf = Some (pub_of <$> ms, r) →
  message_loop fuel (Some f) time buf cs = Some (r, false, cs ++ ((λ m, (f, m, time)) <$> ms)).
Proof.
  revert buf ms cs. induction fuel as [|fuel IH]; intros buf ms cs; [done|]. cbn [commands_fuel message_loop].
  destruct (parseMessage buf) as [[[[[] cmd] t] x] buf'].
  - destruct ms; [done|]. intros [=].
  - case_bool_decide as Hp.
    + destruct (commands_fuel fuel 0 buf') as [[cs' r']|] eqn:E; [|done]. destruct ms as [|[t' x'] ms]; [done|].
      cbn. intros [= -> -> -> ->]. rewrite (IH buf' ms) by done. by rewrite <- app_assoc.
    + destruct (commands_fuel fuel 0 buf') as [[cs' r']|] eqn:E; repeat case_bool_decide; destruct ms; try done; cbn; by intros [=].
  - destruct ms; [|done]. intros [= <-]. by rewrite app_nil_r.
Qed.

Section Receive.
Context (f : Z).

(** A client that is connected, waits in [b], has been called for [cs]. *)
Definition client_at (o : bytes) (k : Z) (b : bytes) (cs : list (Z * (bytes * bytes) * Z)) : PubSubClient :=
  mkClient (Some (mkClientConn true b o)) (Some f) k cs.

Lemma receive_messages chunks b o k cs ms : waits b → Forall message_ok ms → b ++ concat chunks.*1 = concat (message_text <$> ms) →
  ∃ ts, length ts = length ms ∧ receive chunks (client_at o k b cs) = Some (client_at o k [] (cs ++ zip_with (λ m t, (f, m, t)) ms ts)).
Proof.
  revert b cs ms. induction chunks as [|[chunk time] chunks IH]; intros b cs ms Hw Hms Hb.
  - cbn in Hb. rewrite app_nil_r in Hb. assert (ms = []) as ->.
    { rewrite Hb, <- pub_texts in Hw. apply (waits_texts 0) in Hw; [by apply fmap_nil_inv in Hw|by apply pub_client]. }
    cbn in Hb. subst b. exists []. split; [done|]. cbn. by rewrite app_nil_r.
  - cbn [fmap list_fmap concat fst] in Hb. rewrite app_assoc, <- pub_texts in Hb.
    destruct (commands_fuel_prefix (S (length (b ++ chunk))) 0 (b ++ chunk) (concat chunks.*1) (pub_of <$> ms)) as (cs1 & cs2 & r & E & Hc & Hr & Hw');
      [lia|by apply pub_client|done|].
    apply fmap_app_inv in E as (ms1 & ms2 & -> & -> & ->). rewrite pub_texts in Hr. apply Forall_app in Hms as [Hms1 Hms2].
    destruct (IH r (cs ++ ((λ m, (f, m, time)) <$> ms1)) ms2 Hw' Hms2 Hr) as (ts & Hl & Hrec).
    exists (replicate (length ms1) time ++ ts). split; [by rewrite !length_app, length_replicate, Hl|].
    cbn [receive]. unfold onMessage. cbn [client_at conn_ in_buffer is_connected subscribeCallback_ calls connection_calls out].
    rewrite (client_loop _ f time _ ms1 r cs Hc). cbn [mbind option_bind]. etrans; [exact Hrec|].
    do 2 f_equal. rewrite zip_with_app by (by rewrite length_replicate). rewrite <- app_assoc. f_equal. f_equal.
    clear. induction ms1 as [|m ms IH]; [done|]. cbn. by rewrite IH.
Qed.
End Receive.

(** ** What the hub sends can be parsed *)

Definition cmd_clean (k : Cmd) : Prop := match k with CPub _ t x => in_line t ∧ in_line x | _ => True end.

Lemma parse_clean buf cmd t x r : parseMessage buf = (kSuccess, cmd, t, x, r) → in_line t ∧ in_line x.
Proof.
  unfold parseMessage, in_line. destruct (first_crlf buf) as [n|] eqn:E; [|done]. pose proof (first_crlf_take _ _ E) as Hn.
  destruct (_ =? _)%nat; [done|]. case_bool_decide.
  - destruct (first_crlf (drop (n + 2) buf)) as [m|] eqn:E2; [|done]. intros [= _ <- <- _].
    split; [by apply first_crlf_drop|by apply first_crlf_take].
  - intros [= _ <- <- _]. split; [by apply first_crlf_drop|done].
Qed.

Lemma commands_clean fuel c buf cs r : commands_fuel fuel c buf = Some (cs, r) → Forall cmd_clean cs.
Proof.
  revert buf cs. induction fuel as [|fuel IH]; intros buf cs; [done|]. cbn [commands_fuel].
  destruct (parseMessage buf) as [[[[[] cmd] t] x] buf'] eqn:E; try (intros [= <- <-]; by repeat constructor). apply parse_clean in E.
  repeat case_bool_decide; try (intros [= <- <-]; by repeat constructor);
    (destruct (commands_fuel fuel c buf') as [[cs' r']|] eqn:E2; [|done]; cbn; intros [= <- <-]; constructor; [done|by eapply IH]).
Qed.

(** The texts of the clock are in a line. *)
Definition clock_ok (es : list Event) : Prop := Forall (λ e, match e with ETime _ text => in_line text | _ => True end) es.

Lemma trace_clean es inputs : clock_ok es → Forall cmd_clean (trace es inputs).
Proof.
  intros Hes. revert inputs. induction Hes as [|e es He Hes IH]; intros inputs; [done|]. cbn [trace].
  assert (Hc : Forall cmd_clean (commands_of e inputs).1).
  { destruct e as [c|c|c chunk time|now text]; cbn [commands_of]; try by repeat constructor.
    destruct (inputs !! c) as [b|]; [|done]. unfold commands. destruct (commands_fuel _ c _) as [[cs r]|] eqn:E; [|done].
    by apply commands_clean in E. }
  destruct (commands_of e inputs) as [cs inputs']. by apply Forall_app.
Qed.

Record spec_clean (p : Spec) : Prop := {
  sc_latest t x : latest p !! t = Some x → message_ok (t, x);
  sc_outs c o : outs p !! c = Some o → Forall message_ok o.2
}.

Lemma deliver_clean m o : message_ok m → Forall message_ok o.2 → Forall message_ok (deliver m o).2.
Proof. intros Hm Ho. unfold deliver. destruct o.1; [|done]. cbn. apply Forall_app. split; [done|]. by apply Forall_singleton. Qed.

Lemma alter_clean (g : bool * list (bytes * bytes) → bool * list (bytes * bytes)) c (m : gmap Z (bool * list (bytes * bytes))) c' o :
  (∀ o, Forall message_ok o.2 → Forall message_ok (g o).2) → (∀ c o, m !! c = Some o → Forall message_ok o.2) →
  alter g c m !! c' = Some o → Forall message_ok o.2.
Proof. intros Hg Hm. rewrite lookup_alter_Some. intros [(<- & o' & E & ->)|[_ E]]; [apply Hg|]; by eapply Hm. Qed.

Lemma spec_step_clean p k : spec_clean p → cmd_clean k → spec_clean (spec_step p k).
Proof.
  intros [Hl Ho] Hk. destruct k as [c|c|c t|c t|src t x|c]; cbn [spec_step]; constructor; cbn [latest outs]; try done.
  - intros c' o. rewrite lookup_insert_Some. intros [[_ <-]|[_ E]]; [done|by eapply Ho].
  - intros c' o. by apply alter_clean.
  - destruct (latest p !! t) as [x|] eqn:E; [|done]. intros c' o. apply alter_clean; [|done]. intros o'. apply deliver_clean. by apply Hl.
  - intros t' x'. rewrite lookup_insert_Some. intros [[<- <-]|[_ E]]; [done|by apply Hl].
  - intros c' o. rewrite map_lookup_imap. destruct (outs p !! c') as [o'|] eqn:E; [|done]. cbn. intros [= <-]. apply Ho in E.
    case_bool_decide; [by apply deliver_clean|done].
  - intros c' o. by apply alter_clean.
Qed.

Lemma spec_clean_steps cs p : spec_clean p → Forall cmd_clean cs → spec_clean (foldl spec_step p cs).
Proof. intros Hp Hcs. revert p Hp. induction Hcs as [|k cs Hk Hcs IH]; intros p Hp; [done|]. cbn. by apply IH, spec_step_clean. Qed.

(** C24. A publication goes from one client through the hub to the callback of another: in every run of the hub, a
    client with a subscription callback that reads what the hub has sent to its connection, in chunks cut anywhere, is
    called with exactly the topics and contents that the specification of the hub delivers to that connection, once each and in
    order; no publication, whatever its bytes, breaks the protocol: nothing is left in the buffer and the connection
    is not shut down. *)
Theorem hub_to_client es s c x chunks f : legal_run es → clock_ok es → exec_all es PubSubServer_new = Some s → conns s !! c = Some x →
  concat chunks.*1 = sent x →
  ∃ open ms ts, outs (foldl spec_step Spec_new (trace es ∅)) !! c = Some (open, ms) ∧ length ts = length ms ∧
    receive chunks (client_at f [] 0 [] []) = Some (client_at f [] 0 [] (zip_with (λ m t, (f, m, t)) ms ts)).
Proof.
  intros Hes Hclock He Hc Hch. destruct (sim_run es _ _ _ sim_new Hes) as (s' & He' & Hr); [intros; apply lookup_empty|].
  rewrite He in He'. injection He' as <-. set (p := foldl spec_step Spec_new (trace es ∅)) in *.
  assert (Hcl : spec_clean p) by (apply spec_clean_steps; [by constructor|by apply trace_clean]).
  pose proof (rf_outs p s Hr c) as Ho. rewrite Hc in Ho. destruct (outs p !! c) as [[open ms]|] eqn:Eo; [|done].
  injection Ho as _ Ho. cbn in Ho. destruct (receive_messages f chunks [] [] 0 [] ms) as (ts & Hl & Hrec); [done|by apply (sc_outs p Hcl c _ Eo)|by rewrite <- Ho|].
  by exists open, ms, ts.
Qed.

(** A run in which connection 1 gets a message of connection 2. *)
Definition sample_run : list Event :=
  [EUp 1; EUp 2; EData 1 (subscribe_text (lit "a")) 5; EData 2 (publish_text (lit "a") (lit "hi")) 6; ETime 7 (lit "noon")].
Definition sample_server : PubSubServer := default PubSubServer_new (exec_all sample_run PubSubServer_new).
Definition sample_conn : Conn := default (mkConn false [] ∅ []) (conns sample_server !! 1).

Lemma sample_exec : exec_all sample_run PubSubServer_new = Some sample_server.
Proof.
  unfold sample_server. assert (H : match exec_all sample_run PubSubServer_new with Some _ => true | None => false end = true) by (vm_compute; reflexivity).
  by destruct (exec_all sample_run PubSubServer_new).
Qed.
Lemma sample_conns : conns sample_server !! 1 = Some sample_conn.
Proof.
  unfold sample_conn. assert (H : match conns sample_server !! 1 with Some _ => true | None => false end = true) by (vm_compute; reflexivity).
  by destruct (conns sample_server !! 1).
Qed.

Lemma hub_to_client_witness :
  ∃ open ms ts, outs (foldl spec_step Spec_new (trace sample_run ∅)) !! 1 = Some (open, ms) ∧ length ts = length ms ∧
    receive [(lit "pub a" ++ [x0d], 8); (x0a :: lit "hi" ++ kCRLF, 9)] (client_at 3 [] 0 [] []) =
      Some (client_at 3 [] 0 [] (zip_with (λ m t, (3, m, t)) ms ts)).
Proof.
  apply (hub_to_client sample_run sample_server 1 sample_conn); [|repeat constructor|exact sample_exec|exact sample_conns|].
  - split; [by apply (bool_decide_unpack _); vm_compute|repeat constructor; lia].
  - vm_compute. reflexivity.
Defined.
