(* ===== verification/Chat.v ===== *)
(** * A chat server (examples/asio/chat: codec.h, server_threaded_efficient.cc)

    The codec with a length before every message, and the server whose threads share a list of connections by copying it
    on write: [connections_] is a shared pointer to a set, whose readers go through the set without the lock, and a writer
    changes the set in place only if no reader has it.  The sets are objects in a store that pointers name; the number of
    owners of an object is that of the pointers to it. *)
From Stdlib Require Import Strings.Byte.
From stdpp Require Import base numbers list gmap strings.
From S2P Require Import Prelude Endian.
Open Scope Z_scope.
Open Scope muduo_scope.

(** ** The codec *)

Definition kHeaderLen : Z := 4.
Definition kMaxLen : Z := 65536.

(** [LengthHeaderCodec::send]: what is sent for a message. *)
Definition encode (message : list byte) : list byte := be_bytes 4 (to_signed 32 (size_of message)) ++ message.

(** The loop of [LengthHeaderCodec::onMessage]: the messages, whether the connection was shut down, and what is left. *)
Fixpoint codec_loop (fuel : nat) (buf : list byte) (messages : list (list byte)) : option (list (list byte) * bool * list byte) :=
  match fuel with
  | O => None
  | S fuel =>
    if kHeaderLen <=? size_of buf then
      let len := to_signed 32 (be_value (take 4 buf)) in
      if (kMaxLen <? len) || (len <? 0) then Some (messages, true, buf)
      else if len + kHeaderLen <=? size_of buf then
        let buf := drop 4 buf in
        codec_loop fuel (drop (Z.to_nat len) buf) (messages ++ [take (Z.to_nat len) buf])
      else Some (messages, false, buf)
    else Some (messages, false, buf)
  end.
(** Every turn takes a header. *)
Definition codec_onMessage (buf : list byte) : option (list (list byte) * bool * list byte) := codec_loop (S (length buf)) buf [].

(** ** The server *)

(** Where a thread is in [onConnection] for a connection that is up or down: before the lock, the test of [unique], the
    copy, the assertion, the change, the unlock. *)
Inductive ConnAt := CLock | CUnique | CCopy | CAssert | CMutate | CUnlock.
(** Where a thread is in [onStringMessage]: in [getConnectionList], with a pointer to a list at its loop, and in the loop
    with the connections that are left. *)
Inductive MsgAt := MLock | MCopy | MUnlock (a : Z) | MBegin (a : Z) | MIter (a : Z) (rest : list Z).

Inductive Call :=
  | OnConnection (c : Z) (up : bool) (pc : ConnAt)
  | OnStringMessage (m : list byte) (pc : MsgAt).

(** [threads] has those that are in a call; [next] is an address that was not used. *)
Record ChatServer := mkChat {
  lists : gmap Z (gset Z);
  connections_ : Z;
  mutex_ : option Z;
  threads : gmap Z Call;
  next : Z;
  sent : list (Z * list byte)
}.
Definition ChatServer_new : ChatServer := mkChat {[ 0 := ∅ ]} 0 None ∅ 1 [].

(** The pointer to a list that a thread has. *)
Definition pointer (k : Call) : option Z :=
  match k with OnStringMessage _ (MUnlock a | MBegin a | MIter a _) => Some a | _ => None end.

(** Whether no thread has a pointer to a list. *)
Definition unshared (a : Z) (ts : gmap Z Call) : bool := bool_decide (map_Forall (λ _ k, pointer k ≠ Some a) ts).
(** [connections_.unique()] *)
Definition unique (s : ChatServer) : bool := unshared (connections_ s) (threads s).

(** A thread goes on. *)
Definition goto (tid : Z) (k : Call) (s : ChatServer) : ChatServer :=
  mkChat (lists s) (connections_ s) (mutex_ s) (<[ tid := k ]> (threads s)) (next s) (sent s).
Definition set_mutex (m : option Z) (s : ChatServer) : ChatServer := mkChat (lists s) (connections_ s) m (threads s) (next s) (sent s).
Definition leave (tid : Z) (s : ChatServer) : ChatServer :=
  mkChat (lists s) (connections_ s) (mutex_ s) (delete tid (threads s)) (next s) (sent s).
(** The list at [a] loses an owner; the last one destroys it. *)
Definition release (a : Z) (s : ChatServer) : ChatServer :=
  if unshared a (threads s) && negb (a =? connections_ s)
  then mkChat (delete a (lists s)) (connections_ s) (mutex_ s) (threads s) (next s) (sent s) else s.

(** A step in [onConnection]; [None] if the thread has to wait.  Changing a list that another thread reads is a data race. *)
Definition onConnection (tid c : Z) (up : bool) (pc : ConnAt) (s : ChatServer) : option (outcome ChatServer) :=
  let at_ pc := OnConnection c up pc in
  match pc with
  | CLock => if bool_decide (mutex_ s = None) then Some (mret (goto tid (at_ CUnique) (set_mutex (Some tid) s))) else None
  | CUnique => Some (mret (goto tid (at_ (if unique s then CAssert else CCopy)) s))
  | CCopy =>
    Some match lists s !! connections_ s with
    | Some l =>
      let old := connections_ s in
      let s := mkChat (<[ next s := l ]> (lists s)) (next s) (mutex_ s) (threads s) (next s + 1) (sent s) in
      mret (goto tid (at_ CAssert) (release old s))
    | None => Fault BadDeref
    end
  | CAssert => Some (_ ← assertb 52 (unique s); mret (goto tid (at_ CMutate) s))
  | CMutate =>
    Some match lists s !! connections_ s with
    | Some l =>
      if unshared (connections_ s) (threads s) then
        let l := if up then {[ c ]} ∪ l else l ∖ {[ c ]} in
        mret (goto tid (at_ CUnlock) (mkChat (<[ connections_ s := l ]> (lists s)) (connections_ s) (mutex_ s) (threads s) (next s) (sent s)))
      else Fault Undefined
    | None => Fault BadDeref
    end
  | CUnlock => Some (mret (leave tid (set_mutex None s)))
  end.

(** A step in [onStringMessage]. *)
Definition onStringMessage (tid : Z) (m : list byte) (pc : MsgAt) (s : ChatServer) : option (outcome ChatServer) :=
  let at_ pc := OnStringMessage m pc in
  match pc with
  | MLock => if bool_decide (mutex_ s = None) then Some (mret (goto tid (at_ MCopy) (set_mutex (Some tid) s))) else None
  | MCopy => Some (mret (goto tid (at_ (MUnlock (connections_ s))) s))
  | MUnlock a => Some (mret (goto tid (at_ (MBegin a)) (set_mutex None s)))
  | MBegin a =>
    Some match lists s !! a with
    | Some l => mret (goto tid (at_ (MIter a (elements l))) s)
    | None => Fault BadDeref
    end
  | MIter a (c :: rest) =>
    Some match lists s !! a with
    | Some _ => mret (goto tid (at_ (MIter a rest)) (mkChat (lists s) (connections_ s) (mutex_ s) (threads s) (next s) (sent s ++ [(c, encode m)])))
    | None => Fault BadDeref
    end
  | MIter a [] => Some (mret (release a (leave tid s)))
  end.

(** ** Runs *)

(** A thread enters a callback, or goes on in it. *)
Inductive Action := ACall (tid : Z) (k : Call) | AStep (tid : Z).

Definition entry (k : Call) : bool := match k with OnConnection _ _ CLock | OnStringMessage _ MLock => true | _ => false end.

Definition exec (a : Action) (s : ChatServer) : option (outcome ChatServer) :=
  match a with
  | ACall tid k => if bool_decide (threads s !! tid = None) && entry k then Some (mret (goto tid k s)) else None
  | AStep tid =>
    match threads s !! tid with
    | Some (OnConnection c up pc) => onConnection tid c up pc s
    | Some (OnStringMessage m pc) => onStringMessage tid m pc s
    | None => None
    end
  end.

(** Actions in any order; those that cannot be taken are left out. *)
Fixpoint run (l : list Action) (s : ChatServer) : outcome ChatServer :=
  match l with
  | [] => mret s
  | a :: l => match exec a s with Some m => s ← m; run l s | None => run l s end
  end.

(** ** The specification *)

(** The connections; the messages that threads deliver, each with the connections that it still goes to; what was sent. *)
Record Spec := mkSpec { members : gset Z; pending : gmap Z (list byte * list Z); out : list (Z * list byte) }.
Definition Spec_new : Spec := mkSpec ∅ ∅ [].

(** A connection comes or goes; a message is taken for all that are there; it is sent to one; its delivery ends. *)
Inductive Ev := VConn (c : Z) (up : bool) | VMsg (tid : Z) (m : list byte) | VSend (tid : Z) | VDone (tid : Z) | VTau.

Definition spec_step (p : Spec) (e : Ev) : Spec :=
  match e with
  | VConn c up => mkSpec (if up then {[ c ]} ∪ members p else members p ∖ {[ c ]}) (pending p) (out p)
  | VMsg tid m => mkSpec (members p) (<[ tid := (m, elements (members p)) ]> (pending p)) (out p)
  | VSend tid =>
    match pending p !! tid with
    | Some (m, c :: rest) => mkSpec (members p) (<[ tid := (m, rest) ]> (pending p)) (out p ++ [(c, encode m)])
    | _ => p
    end
  | VDone tid => mkSpec (members p) (delete tid (pending p)) (out p)
  | VTau => p
  end.

(** What an action is to the specification. *)
Definition label (a : Action) (s : ChatServer) : Ev :=
  match a with
  | ACall _ _ => VTau
  | AStep tid =>
    match threads s !! tid with
    | Some (OnConnection c up CMutate) => VConn c up
    | Some (OnStringMessage m MCopy) => VMsg tid m
    | Some (OnStringMessage _ (MIter _ (_ :: _))) => VSend tid
    | Some (OnStringMessage _ (MIter _ [])) => VDone tid
    | _ => VTau
    end
  end.
Fixpoint labels (l : list Action) (s : ChatServer) : list Ev :=
  match l with
  | [] => []
  | a :: l => match exec a s with Some (Ok s') => label a s :: labels l s' | Some (Fault _) => [] | None => labels l s end
  end.

(** The state of the server as a state of the specification: lists are values. *)
Definition list_at (ls : gmap Z (gset Z)) (a : Z) : gset Z := default ∅ (ls !! a).
Definition pending_of (ls : gmap Z (gset Z)) (k : Call) : option (list byte * list Z) :=
  match k with
  | OnStringMessage m (MUnlock a | MBegin a) => Some (m, elements (list_at ls a))
  | OnStringMessage m (MIter _ rest) => Some (m, rest)
  | _ => None
  end.
Definition abs (s : ChatServer) : Spec := mkSpec (list_at (lists s) (connections_ s)) (omap (pending_of (lists s)) (threads s)) (sent s).

(** ** The invariant *)

Definition critical (k : Call) : bool :=
  match k with
  | OnConnection _ _ CLock => false
  | OnConnection _ _ _ => true
  | OnStringMessage _ (MCopy | MUnlock _) => true
  | OnStringMessage _ _ => false
  end.
(** Between the test of [unique] and the change. *)
Definition writing (k : Call) : bool := match k with OnConnection _ _ (CAssert | CMutate) => true | _ => false end.

Record chat_inv (s : ChatServer) : Prop := {
  ci_list : is_Some (lists s !! connections_ s);
  ci_pointer tid k a : threads s !! tid = Some k → pointer k = Some a → is_Some (lists s !! a);
  ci_lock tid k : threads s !! tid = Some k → critical k = bool_decide (mutex_ s = Some tid);
  ci_owner tid : mutex_ s = Some tid → is_Some (threads s !! tid);
  ci_writing tid k : threads s !! tid = Some k → writing k = true → unique s = true;
  ci_next a : is_Some (lists s !! a) → a < next s;
  ci_live a : is_Some (lists s !! a) → a ≠ connections_ s → ∃ tid k, threads s !! tid = Some k ∧ pointer k = Some a
}.

Lemma unshared_spec a ts : unshared a ts = true ↔ ∀ tid k, ts !! tid = Some k → pointer k ≠ Some a.
Proof. unfold unshared. by rewrite bool_decide_eq_true. Qed.

(** What a thread delivers depends on the list that it points to only. *)
Lemma pending_lists ls ls' (ts : gmap Z Call) : (∀ tid k a, ts !! tid = Some k → pointer k = Some a → ls' !! a = ls !! a) →
  omap (pending_of ls') ts = omap (pending_of ls) ts.
Proof.
  intros H. apply map_eq. intros tid. rewrite !lookup_omap. destruct (ts !! tid) as [k|] eqn:E; [|done]. cbn.
  specialize (H tid k). destruct k as [c up pc|m [| |a|a|a rest]]; cbn; try done; unfold list_at; by rewrite (H a E).
Qed.

Section Step.
Context (s : ChatServer) (Hs : chat_inv s).

(** Two threads are not in their sections at once. *)
Lemma critical_alone tid tid' k k' : threads s !! tid = Some k → threads s !! tid' = Some k' →
  critical k = true → critical k' = true → tid' = tid.
Proof.
  intros E E' Hk Hk'. rewrite (ci_lock s Hs _ _ E) in Hk. rewrite (ci_lock s Hs _ _ E') in Hk'.
  apply bool_decide_eq_true in Hk, Hk'. congruence.
Qed.
Lemma writing_critical k : writing k = true → critical k = true.
Proof. by destruct k as [c up []|]. Qed.
Lemma writing_pointer k : writing k = true → pointer k = None.
Proof. by destruct k as [c up []|]. Qed.

(** A thread goes on: it keeps its pointer if it has one, gets a new one only in its section, and takes or gives back the lock. *)
Lemma goto_inv tid k' m' :
  let k := threads s !! tid in
  (∀ a, pointer k' = Some a → is_Some (lists s !! a)) →
  critical k' = bool_decide (m' = Some tid) → (∀ t, t ≠ tid → m' = Some t ↔ mutex_ s = Some t) →
  (pointer k' = None ∨ (k ≫= pointer) = pointer k' ∨ mutex_ s = Some tid) →
  ((k ≫= pointer) = None ∨ (k ≫= pointer) = pointer k') →
  (writing k' = true → unique s = true) →
  chat_inv (goto tid k' (set_mutex m' s)).
Proof.
  intros k Hp Hm1 Hm2 Hnew Hkeep Hw. constructor; cbn [goto set_mutex lists connections_ mutex_ threads next].
  - apply (ci_list s Hs).
  - intros t x a. rewrite lookup_insert_Some. intros [[_ <-]|[_ E]]; [apply Hp|by apply (ci_pointer s Hs t)].
  - intros t x. rewrite lookup_insert_Some. intros [[<- <-]|[Hne E]]; [done|]. rewrite (ci_lock s Hs t x E). apply bool_decide_ext. symmetry. by apply Hm2.
  - intros t E. destruct (decide (t = tid)) as [->|Hne]; [rewrite lookup_insert_eq; by eexists|]. rewrite lookup_insert_ne by done.
    apply (ci_owner s Hs). by apply Hm2.
  - intros t x E Hx. unfold unique. cbn [connections_ threads goto set_mutex]. apply unshared_spec. intros t' y. rewrite lookup_insert_Some.
    assert (Hu : unique s = true).
    { rewrite lookup_insert_Some in E. destruct E as [[_ <-]|[_ E]]; [by apply Hw|]. exact (ci_writing s Hs t x E Hx). }
    pose proof (proj1 (unshared_spec _ _) Hu) as Hu'. intros [[<- <-]|[_ E']]; [|by apply (Hu' t')].
    intros Hpk. destruct Hnew as [|[Hold|Hmu]]; [congruence| |].
    + rewrite Hpk in Hold. unfold k in Hold. destruct (threads s !! tid) as [z|] eqn:Ez; [|done]. by apply (Hu' tid z Ez).
    + rewrite lookup_insert_Some in E. destruct E as [[_ <-]|[Hne E]]; [apply writing_pointer in Hx; congruence|].
      apply writing_critical in Hx. rewrite (ci_lock s Hs t x E), Hmu, bool_decide_eq_true in Hx. congruence.
  - apply (ci_next s Hs).
  - intros a Ha Hne. destruct (ci_live s Hs a Ha Hne) as (t & x & E & Hx). destruct (decide (t = tid)) as [->|Ht].
    + exists tid, k'. rewrite lookup_insert_eq. split; [done|]. unfold k in Hkeep. rewrite E in Hkeep. cbn in Hkeep. destruct Hkeep; congruence.
    + exists t, x. by rewrite lookup_insert_ne.
Qed.

Lemma goto_abs tid k' m' : abs (goto tid k' (set_mutex m' s)) =
  mkSpec (members (abs s)) (match pending_of (lists s) k' with Some x => <[ tid := x ]> (pending (abs s)) | None => delete tid (pending (abs s)) end) (out (abs s)).
Proof.
  unfold abs. cbn. f_equal. rewrite omap_insert. by destruct (pending_of (lists s) k').
Qed.

Lemma goto_stutter tid k' m' : pending_of (lists s) k' = threads s !! tid ≫= pending_of (lists s) → abs (goto tid k' (set_mutex m' s)) = abs s.
Proof.
  intros E. rewrite goto_abs, E. destruct (abs s) as [M P O] eqn:Ea. cbn [members pending out]. f_equal.
  assert (HP : P !! tid = threads s !! tid ≫= pending_of (lists s)) by (unfold abs in Ea; injection Ea as _ <- _; apply lookup_omap).
  destruct (threads s !! tid ≫= pending_of (lists s)); [by apply insert_id|by apply delete_id].
Qed.

(** A list that nobody points to any more. *)
Lemma release_abs a : abs (release a s) = abs s.
Proof.
  unfold release. destruct (unshared a (threads s)) eqn:Hu; [|done]. destruct (Z.eqb_spec a (connections_ s)) as [|Hne]; [done|].
  unfold abs, list_at. cbn. f_equal; [by rewrite lookup_delete_ne|].
  apply pending_lists. intros t x b Ht Hx. apply lookup_delete_ne. intros ->. by apply (proj1 (unshared_spec _ _) Hu t x Ht).
Qed.
End Step.

(** The lock and the calls without what is live, for the moment when a pointer goes. *)
Lemma chat_release_inv s a :
  is_Some (lists s !! connections_ s) → (∀ tid k b, threads s !! tid = Some k → pointer k = Some b → is_Some (lists s !! b)) →
  (∀ tid k, threads s !! tid = Some k → critical k = bool_decide (mutex_ s = Some tid)) →
  (∀ tid, mutex_ s = Some tid → is_Some (threads s !! tid)) →
  (∀ tid k, threads s !! tid = Some k → writing k = true → unique s = true) →
  (∀ b, is_Some (lists s !! b) → b < next s) →
  (∀ b, is_Some (lists s !! b) → b ≠ connections_ s → b ≠ a → ∃ tid k, threads s !! tid = Some k ∧ pointer k = Some b) →
  chat_inv (release a s).
Proof.
  intros H1 H2 H3 H4 H5 H6 H7. unfold release. destruct (unshared a (threads s)) eqn:Hu.
  - pose proof (proj1 (unshared_spec _ _) Hu) as Hu'. destruct (Z.eqb_spec a (connections_ s)) as [->|Hne]; cbn [andb negb].
    + constructor; try done. intros b Hb Hbc. by apply H7.
    + constructor; cbn; try done.
      * by rewrite lookup_delete_ne.
      * intros t x b Ht Hx. rewrite lookup_delete_ne; [by apply (H2 t x)|]. intros ->. by apply (Hu' t x).
      * intros b. rewrite lookup_delete_is_Some. intros [_ Hb]. by apply H6.
      * intros b. rewrite lookup_delete_is_Some. intros [Hba Hb] Hbc. by apply H7.
  - constructor; try done. intros b Hb Hbc. destruct (decide (b = a)) as [->|Hne]; [|by apply H7].
    assert (Hn : ¬ map_Forall (λ _ k, pointer k ≠ Some a) (threads s)) by (by apply bool_decide_eq_false in Hu).
    apply map_not_Forall in Hn as (t & x & Ht & Hx); [|intros i y; apply _]. exists t, x. split; [done|]. destruct (decide (pointer x = Some a)); [done|tauto].
Qed.

(** A call ends; its pointer goes. *)
Lemma chat_leave_inv s tid k m' a : chat_inv s → threads s !! tid = Some k → (pointer k = None ∨ pointer k = Some a) →
  m' ≠ Some tid → (∀ t, t ≠ tid → m' = Some t ↔ mutex_ s = Some t) → chat_inv (release a (leave tid (set_mutex m' s))).
Proof.
  intros Hs Hk Hp Hm Hm2. apply chat_release_inv; cbn [leave set_mutex lists connections_ mutex_ threads next].
  - apply (ci_list s Hs).
  - intros t x b. rewrite lookup_delete_Some. intros [_ E]. by apply (ci_pointer s Hs t).
  - intros t x. rewrite lookup_delete_Some. intros [Hne E]. rewrite (ci_lock s Hs t x E). apply bool_decide_ext. symmetry. by apply Hm2.
  - intros t E. assert (t ≠ tid) by congruence. rewrite lookup_delete_ne by done. apply (ci_owner s Hs). by apply Hm2.
  - intros t x. rewrite lookup_delete_Some. intros [Hne E] Hx. pose proof (ci_writing s Hs t x E Hx) as Hu.
    unfold unique in *. cbn [connections_ threads leave set_mutex]. apply unshared_spec. intros t' y. rewrite lookup_delete_Some. intros [_ E'].
    by apply (proj1 (unshared_spec _ _) Hu t').
  - apply (ci_next s Hs).
  - intros b Hb Hbc Hba. destruct (ci_live s Hs b Hb Hbc) as (t & x & E & Hx). exists t, x. split; [|done].
    rewrite lookup_delete_ne; [done|]. intros ->. destruct Hp; congruence.
Qed.

(** The list is copied: no thread is between its test and its change. *)
Lemma copy_inv s l : chat_inv s → lists s !! connections_ s = Some l → (∀ tid k, threads s !! tid = Some k → writing k = false) →
  let s1 := mkChat (<[ next s := l ]> (lists s)) (next s) (mutex_ s) (threads s) (next s + 1) (sent s) in
  chat_inv (release (connections_ s) s1) ∧ unique (release (connections_ s) s1) = true ∧ abs (release (connections_ s) s1) = abs s.
Proof.
  intros Hs Hl Hw s1.
  assert (Hold : ∀ b, is_Some (lists s !! b) → lists s1 !! b = lists s !! b).
  { intros b Hb. apply (ci_next s Hs) in Hb. cbn. rewrite lookup_insert_ne; [done|lia]. }
  assert (Hu : unshared (next s) (threads s) = true).
  { apply unshared_spec. intros t x Ht Hx. apply (ci_pointer s Hs t x _ Ht), (ci_next s Hs) in Hx. lia. }
  split_and!.
  - apply chat_release_inv.
    + cbn. rewrite lookup_insert_eq. by eexists.
    + intros t x b Ht Hx. pose proof (ci_pointer s Hs t x b Ht Hx) as Hb. by rewrite Hold.
    + apply (ci_lock s Hs).
    + apply (ci_owner s Hs).
    + intros t x Ht Hx. by rewrite (Hw t x Ht) in Hx.
    + intros b. cbn. rewrite lookup_insert_is_Some'. intros [->|Hb]; [lia|]. apply (ci_next s Hs) in Hb. lia.
    + intros b. cbn. rewrite lookup_insert_is_Some'. intros [->|Hb] Hn Hc; [done|]. by apply (ci_live s Hs).
  - unfold release. by destruct (unshared _ _ && _).
  - rewrite release_abs. unfold abs, list_at. cbn. f_equal; [by rewrite lookup_insert_eq, Hl|].
    apply pending_lists. intros t x b Ht Hx. apply Hold. by apply (ci_pointer s Hs t x).
Qed.

(** The list is changed in place: nobody points to it. *)
Lemma mutate_inv s l' : chat_inv s → unique s = true →
  let s1 := mkChat (<[ connections_ s := l' ]> (lists s)) (connections_ s) (mutex_ s) (threads s) (next s) (sent s) in
  chat_inv s1 ∧ abs s1 = mkSpec l' (pending (abs s)) (out (abs s)).
Proof.
  intros Hs Hu s1. pose proof (proj1 (unshared_spec _ _) Hu) as Hu'.
  assert (Hsame : ∀ b, is_Some (lists s1 !! b) ↔ is_Some (lists s !! b)).
  { intros b. cbn. rewrite lookup_insert_is_Some'. split; [|by right]. intros [<-|Hb]; [apply (ci_list s Hs)|done]. }
  split.
  - constructor.
    + apply Hsame, (ci_list s Hs).
    + intros t x b Ht Hx. apply Hsame. by apply (ci_pointer s Hs t x).
    + apply (ci_lock s Hs).
    + apply (ci_owner s Hs).
    + done.
    + intros b Hb%Hsame. by apply (ci_next s Hs).
    + intros b Hb%Hsame. by apply (ci_live s Hs).
  - unfold abs, list_at. cbn. rewrite lookup_insert_eq. cbn. f_equal.
    apply pending_lists. intros t x b Ht Hx. rewrite lookup_insert_ne; [done|]. intros <-. by apply (Hu' t x).
Qed.

Lemma set_mutex_id s : set_mutex (mutex_ s) s = s.
Proof. by destruct s. Qed.
Lemma release_self s : release (connections_ s) s = s.
Proof. unfold release. by rewrite Z.eqb_refl, andb_false_r. Qed.

(** *** Every step *)

Section Steps.
Context (s : ChatServer) (Hs : chat_inv s).

(** A thread goes on within its section, or outside, with the pointer that it has. *)
Lemma goto_keep tid k k' : threads s !! tid = Some k → critical k' = critical k → pointer k' = pointer k → (writing k' = true → unique s = true) →
  chat_inv (goto tid k' s).
Proof.
  intros Hk Hc Hp Hw. rewrite <- (set_mutex_id s). apply goto_inv; rewrite ?Hk; cbn; rewrite ?Hp; auto.
  - intros a Ha. by apply (ci_pointer s Hs tid k).
  - rewrite Hc. by apply (ci_lock s Hs).
Qed.
Lemma goto_keep_abs tid k k' : threads s !! tid = Some k → pending_of (lists s) k' = pending_of (lists s) k → abs (goto tid k' s) = abs s.
Proof. intros Hk Hp. rewrite <- (set_mutex_id s) at 1. apply goto_stutter. by rewrite Hk. Qed.

(** A thread takes the lock. *)
Lemma goto_lock tid k k' : threads s !! tid = Some k → mutex_ s = None → critical k' = true → pointer k = None → pointer k' = None →
  writing k' = false → chat_inv (goto tid k' (set_mutex (Some tid) s)).
Proof.
  intros Hk Hm Hc Hp Hp' Hw. apply goto_inv; rewrite ?Hk; cbn; rewrite ?Hp, ?Hp'; auto; try done.
  - by rewrite bool_decide_true.
  - intros t Ht. rewrite Hm. split; congruence.
  - congruence.
Qed.

End Steps.

Lemma step_onConnection s tid c up pc m : chat_inv s → threads s !! tid = Some (OnConnection c up pc) → onConnection tid c up pc s = Some m →
  m ⇓ λ s', chat_inv s' ∧ abs s' = spec_step (abs s) (label (AStep tid) s).
Proof.
  intros Hs Hk. cbn [label]. rewrite Hk. destruct pc; cbn [onConnection].
  - case_bool_decide as Hm; [|done]. intros [= <-]. apply yields_ret. split; [by eapply goto_lock|]. apply goto_stutter. by rewrite Hk.
  - intros [= <-]. apply yields_ret. split.
    + apply (goto_keep s Hs _ _ _ Hk); by destruct (unique s).
    + apply (goto_keep_abs s _ _ _ Hk). by destruct (unique s).
  - destruct (ci_list s Hs) as [l Hl]. rewrite Hl. intros [= <-]. apply yields_ret.
    destruct (copy_inv s l Hs Hl) as (Hi & Hu & Ha).
    { intros t x Ht. destruct (writing x) eqn:Hw; [|done]. pose proof (critical_alone s Hs tid t _ x Hk Ht eq_refl (writing_critical x Hw)) as ->.
      rewrite Hk in Ht. by injection Ht as <-. }
    set (s2 := release _ _) in *. assert (Ht : threads s2 = threads s) by (unfold s2, release; by destruct (_ && _)).
    clearbody s2. assert (Hk2 : threads s2 !! tid = Some (OnConnection c up CCopy)) by (by rewrite Ht).
    split; [by apply (goto_keep s2 Hi _ _ _ Hk2)|]. cbn [spec_step]. rewrite <- Ha. by apply (goto_keep_abs s2 _ _ _ Hk2).
  - intros [= <-]. pose proof (ci_writing s Hs _ _ Hk eq_refl) as Hu. yassert; [done|]. apply yields_ret.
    split; [by apply (goto_keep s Hs _ _ _ Hk)|by apply (goto_keep_abs s _ _ _ Hk)].
  - destruct (ci_list s Hs) as [l Hl]. pose proof (ci_writing s Hs _ _ Hk eq_refl) as Hu. rewrite Hl. unfold unique in Hu. rewrite Hu.
    intros [= <-]. apply yields_ret. destruct (mutate_inv s (if up then {[ c ]} ∪ l else l ∖ {[ c ]}) Hs Hu) as [Hi Ha].
    set (s1 := mkChat _ _ _ _ _ _) in *. assert (Hk1 : threads s1 !! tid = Some (OnConnection c up CMutate)) by done.
    split; [by apply (goto_keep s1 Hi _ _ _ Hk1)|]. rewrite (goto_keep_abs s1 _ _ _ Hk1) by done. rewrite Ha. cbn [spec_step abs members pending out].
    unfold list_at. by rewrite Hl.
  - intros [= <-]. apply yields_ret. pose proof (ci_lock s Hs _ _ Hk) as Hm. symmetry in Hm. apply bool_decide_eq_true in Hm. split.
    + rewrite <- (release_self (leave tid (set_mutex None s))). cbn [connections_ leave set_mutex]. eapply chat_leave_inv; [done|done|by left|done|].
      intros t Ht. rewrite Hm. split; congruence.
    + unfold abs. cbn. f_equal. rewrite omap_delete, delete_id; [done|]. by rewrite lookup_omap, Hk.
Qed.

Lemma step_onStringMessage s tid msg pc m : chat_inv s → threads s !! tid = Some (OnStringMessage msg pc) → onStringMessage tid msg pc s = Some m →
  m ⇓ λ s', chat_inv s' ∧ abs s' = spec_step (abs s) (label (AStep tid) s).
Proof.
  intros Hs Hk. cbn [label]. rewrite Hk. pose proof (ci_lock s Hs _ _ Hk) as Hm. symmetry in Hm.
  destruct pc as [| |a|a|a [|c rest]]; cbn [onStringMessage].
  - destruct (bool_decide (mutex_ s = None)) eqn:Hm'; [|done]. apply bool_decide_eq_true in Hm'. intros [= <-]. apply yields_ret.
    split; [by eapply goto_lock|]. apply goto_stutter. by rewrite Hk.
  - apply bool_decide_eq_true in Hm. intros [= <-]. apply yields_ret. split.
    + rewrite <- (set_mutex_id s) at 2. apply goto_inv; rewrite ?Hk; cbn; auto; [|by rewrite bool_decide_true|done]. intros a [= <-]. apply (ci_list s Hs).
    + etrans; [exact (goto_abs s tid (OnStringMessage msg (MUnlock (connections_ s))) None)|done].
  - apply bool_decide_eq_true in Hm. intros [= <-]. apply yields_ret. split.
    + apply goto_inv; rewrite ?Hk; cbn; auto; [|intros t Ht; rewrite Hm; split; congruence|done].
      intros b [= <-]. by apply (ci_pointer s Hs tid _ a Hk).
    + apply goto_stutter. by rewrite Hk.
  - destruct (ci_pointer s Hs tid _ a Hk eq_refl) as [l Hl]. rewrite Hl. intros [= <-]. apply yields_ret.
    split; [by apply (goto_keep s Hs _ _ _ Hk)|]. apply (goto_keep_abs s _ _ _ Hk). cbn. unfold list_at. by rewrite Hl.
  - apply bool_decide_eq_false in Hm. intros [= <-]. apply yields_ret. split.
    + rewrite <- (set_mutex_id s). apply (chat_leave_inv s tid _ _ a Hs Hk); [by right|done|done].
    + rewrite release_abs. unfold abs. cbn. by rewrite omap_delete.
  - destruct (ci_pointer s Hs tid _ a Hk eq_refl) as [l Hl]. rewrite Hl. intros [= <-]. apply yields_ret.
    set (s1 := mkChat _ _ _ _ _ _). assert (Hi : chat_inv s1) by (destruct Hs; by constructor).
    assert (Hk1 : threads s1 !! tid = Some (OnStringMessage msg (MIter a (c :: rest)))) by done.
    split; [by apply (goto_keep s1 Hi _ _ _ Hk1)|]. cbn [spec_step].
    assert (Hp : pending (abs s) !! tid = Some (msg, c :: rest)) by (cbn; by rewrite lookup_omap, Hk). rewrite Hp.
    etrans; [exact (goto_abs s1 tid (OnStringMessage msg (MIter a rest)) None)|done].
Qed.

Lemma exec_chat a s m : chat_inv s → exec a s = Some m → m ⇓ λ s', chat_inv s' ∧ abs s' = spec_step (abs s) (label a s).
Proof.
  intros Hs. destruct a as [tid k|tid]; cbn [exec].
  - destruct (bool_decide (threads s !! tid = None)) eqn:Hn; [|done]. apply bool_decide_eq_true in Hn. destruct (entry k) eqn:He; [|done].
    intros [= <-]. apply yields_ret. cbn [label spec_step].
    assert (Hk : critical k = false ∧ pointer k = None ∧ writing k = false ∧ pending_of (lists s) k = None) by (by destruct k as [? ? []|? []]).
    destruct Hk as (H1 & H2 & H3 & H4). rewrite <- (set_mutex_id s) at 1 2. split.
    + apply goto_inv; rewrite ?Hn, ?H1, ?H2, ?H3; cbn; auto; try done. symmetry. apply bool_decide_eq_false. intros Hm.
      apply (ci_owner s Hs) in Hm as [x Hx]. congruence.
    + apply goto_stutter. by rewrite Hn.
  - destruct (threads s !! tid) as [[c up pc|msg pc]|] eqn:Hk; [by apply step_onConnection|by apply step_onStringMessage|done].
Qed.

Lemma ChatServer_new_inv : chat_inv ChatServer_new.
Proof.
  constructor; cbn [ChatServer_new lists connections_ mutex_ threads next]; intros *; rewrite ?lookup_empty; try done.
  - rewrite lookup_singleton_is_Some. by intros <-.
  - rewrite lookup_singleton_is_Some. by intros <-.
Qed.

Lemma run_chat l s : chat_inv s → run l s ⇓ λ s', chat_inv s' ∧ abs s' = foldl spec_step (abs s) (labels l s).
Proof.
  revert s. induction l as [|a l IH]; intros s Hs; [done|]. cbn [run labels]. destruct (exec a s) as [m|] eqn:E; [|by apply IH].
  pose proof (exec_chat a s m Hs E) as Hm. destruct m as [s'|]; [|done]. destruct Hm as [Hi Ha]. cbn [foldl]. rewrite <- Ha. by apply IH.
Qed.

(** C26. Copy-on-write lists are values.  However many threads handle connections and messages at the same time, and however
    they interleave, no thread reads a list that is changed or gone, no assertion fails, and the server does what it would do if every list were
    copied: a message is sent, once, to exactly the connections that were there when its thread took the list, whatever
    comes and goes while it is sent; and no list outlives its readers: when no call is in progress the current one is
    the only one. *)
Theorem chat_copy_on_write l : run l ChatServer_new ⇓ λ s,
  abs s = foldl spec_step Spec_new (labels l ChatServer_new) ∧ (threads s = ∅ → lists s = {[ connections_ s := members (abs s) ]}).
Proof.
  eapply yields_mono; [apply run_chat, ChatServer_new_inv|]. intros s [Hs Ha]. split; [done|].
  intros Ht. destruct (ci_list s Hs) as [x Hx]. apply map_eq. intros a. destruct (decide (a = connections_ s)) as [->|Hne].
  - rewrite lookup_singleton_eq, Hx. cbn. unfold list_at. by rewrite Hx.
  - rewrite lookup_singleton_ne by done. destruct (lists s !! a) eqn:E; [|done].
    destruct (ci_live s Hs a) as (tid & k & Hk & _); [by eexists|done|]. by rewrite Ht, lookup_empty in Hk.
Qed.

(** Connection 2 comes while the message of connection 1 is sent; it does not get it, and the list was copied. *)
Example chat_example :
  let call tid k n := ACall tid k :: replicate n (AStep tid) in
  let l := call 7 (OnConnection 1 true CLock) 6%nat ++ call 7 (OnStringMessage (lit "hi") MLock) 4%nat ++ call 8 (OnConnection 2 true CLock) 6%nat ++
           replicate 2%nat (AStep 7) ++ call 8 (OnStringMessage (lit "yo") MLock) 7%nat in
  (λ s, (sent s, elements (dom (lists s)), elements (members (abs s)))) <$> (match run l ChatServer_new with Ok s => Some s | _ => None end)
  = Some ([(1, encode (lit "hi")); (2, encode (lit "yo")); (1, encode (lit "yo"))], [1], [2; 1]).
Proof. by vm_compute. Qed.

(** ** The codec is a faithful channel *)

Definition message_ok (m : list byte) : Prop := size_of m ≤ kMaxLen.

Lemma header_length m : message_ok m → be_bytes 4 (to_signed 32 (size_of m)) = be_bytes 4 (size_of m) ∧
  to_signed 32 (be_value (be_bytes 4 (size_of m))) = size_of m.
Proof.
  unfold message_ok, kMaxLen. intros Hm. pose proof (size_of_nonneg m) as H0.
  assert (Hs : to_signed 32 (size_of m) = size_of m) by (apply to_signed_small; [lia|unfold in_signed; lia]).
  rewrite Hs. split; [done|]. rewrite be_value_bytes, Z.mod_small; [done|]. unfold width. lia.
Qed.

(** A message at the front of the buffer. *)
Lemma codec_loop_message fuel m buf ms : message_ok m → codec_loop (S fuel) (encode m ++ buf) ms = codec_loop fuel buf (ms ++ [m]).
Proof.
  intros Hm. destruct (header_length m Hm) as [H1 H2]. unfold encode. rewrite H1. cbn [codec_loop].
  pose proof (size_of_nonneg m) as H0. pose proof (size_of_nonneg buf) as H0'. unfold message_ok in Hm.
  assert (Hl : size_of (be_bytes 4 (size_of m)) = 4) by (unfold size_of at 1; by rewrite length_be_bytes).
  rewrite !size_of_app, Hl. unfold kHeaderLen. rewrite (proj2 (Z.leb_le _ _)) by lia.
  rewrite <- app_assoc. rewrite (take_app_length' (be_bytes 4 (size_of m))) by (by rewrite length_be_bytes).
  rewrite (drop_app_length' (be_bytes 4 (size_of m))) by (by rewrite length_be_bytes). rewrite H2.
  rewrite (proj2 (Z.ltb_ge _ _)), (proj2 (Z.ltb_ge (size_of m) 0)) by lia. cbn [orb]. rewrite (proj2 (Z.leb_le _ _)) by lia.
  rewrite (take_app_length' m), (drop_app_length' m) by (unfold size_of; lia). done.
Qed.

(** A buffer with less than a message waits. *)
Lemma codec_loop_partial fuel m b d ms : message_ok m → b ++ d = encode m → d ≠ [] → codec_loop (S fuel) b ms = Some (ms, false, b).
Proof.
  intros Hm Hb Hd. destruct (header_length m Hm) as [H1 H2]. unfold encode in Hb. rewrite H1 in Hb. cbn [codec_loop].
  destruct (Z.leb_spec kHeaderLen (size_of b)) as [Hle|]; [|done]. unfold kHeaderLen in *.
  assert (Hl : length (be_bytes 4 (size_of m)) = 4%nat) by apply length_be_bytes.
  assert (Ht : take 4 b = be_bytes 4 (size_of m)).
  { apply (f_equal (take 4)) in Hb. rewrite take_app_le in Hb by (unfold size_of in Hle; lia). by rewrite Hb, take_app_length' by done. }
  rewrite Ht, H2. pose proof (size_of_nonneg m). unfold message_ok in Hm.
  rewrite (proj2 (Z.ltb_ge _ _)), (proj2 (Z.ltb_ge (size_of m) 0)) by lia. cbn [orb].
  rewrite (proj2 (Z.leb_gt _ _)); [done|]. apply (f_equal size_of) in Hb. rewrite !size_of_app in Hb.
  assert (size_of (be_bytes 4 (size_of m)) = 4) as E by (unfold size_of at 1; by rewrite Hl). rewrite E in Hb.
  destruct d as [|x d]; [done|]. rewrite size_of_cons in Hb. pose proof (size_of_nonneg d). lia.
Qed.

(** What arrives of a stream of messages: the complete ones are taken, and the rest is the beginning of the others. *)
Lemma codec_loop_prefix fuel b d ms out : (length b < fuel)%nat → Forall message_ok ms → b ++ d = concat (encode <$> ms) →
  ∃ ms1 ms2 r, ms = ms1 ++ ms2 ∧ codec_loop fuel b out = Some (out ++ ms1, false, r) ∧ r ++ d = concat (encode <$> ms2) ∧ (d = [] → ms2 = []).
Proof.
  revert b ms out. induction fuel as [|fuel IH]; intros b ms out Hf Hms Hb; [lia|]. destruct Hms as [|m ms Hm Hms].
  { cbn in Hb. apply app_eq_nil in Hb as [-> ->]. exists [], [], []. split_and!; [done|by rewrite (app_nil_r out)|done|done]. }
  cbn [fmap list_fmap concat] in Hb. destruct (decide (length (encode m) ≤ length b)%nat) as [Hle|Hgt].
  - assert (∃ b', b = encode m ++ b' ∧ b' ++ d = concat (encode <$> ms)) as (b' & -> & Hb').
    { exists (drop (length (encode m)) b). assert (Ht : take (length (encode m)) b = encode m).
      { apply (f_equal (take (length (encode m)))) in Hb. by rewrite take_app_le, take_app_length in Hb. }
      split; [by rewrite <- Ht at 1; rewrite take_drop|]. apply (f_equal (drop (length (encode m)))) in Hb.
      by rewrite drop_app_le, drop_app_length in Hb. }
    rewrite codec_loop_message by done. rewrite length_app in Hf. assert (length (encode m) ≠ 0)%nat.
    { unfold encode. rewrite length_app, length_be_bytes. lia. }
    destruct (IH b' ms (out ++ [m])) as (ms1 & ms2 & r & -> & Hc & Hr & Hd); [lia|done|done|].
    exists (m :: ms1), ms2, r. rewrite Hc, <- app_assoc. done.
  - assert (∃ d', b ++ d' = encode m ∧ d' ≠ [] ∧ d = d' ++ concat (encode <$> ms)) as (d' & He & Hd' & Hd).
    { exists (drop (length b) (encode m)). assert (Ht : take (length b) (encode m) = b).
      { apply (f_equal (take (length b))) in Hb. rewrite take_app_length, take_app_le in Hb by lia. done. }
      split; [by rewrite <- Ht at 1; rewrite take_drop|]. split; [intros E%(f_equal length); rewrite length_drop in E; change (length (@nil byte)) with 0%nat in E; lia|].
      apply (f_equal (drop (length b))) in Hb. by rewrite drop_app_length, drop_app_le in Hb by lia. }
    exists [], (m :: ms), b. rewrite app_nil_r. split_and!; [done|by eapply codec_loop_partial|done|].
    intros ->. by destruct d'.
Qed.

(** Chunks that arrive one after another: the messages, whether the connection was shut down, and what is left. *)
Fixpoint feed (chunks : list (list byte)) (buf : list byte) : option (list (list byte) * bool * list byte) :=
  match chunks with
  | [] => Some ([], false, buf)
  | chunk :: chunks =>
    '(ms, shut, buf) ← codec_onMessage (buf ++ chunk);
    if shut : bool then Some (ms, true, buf) else '(ms', shut, buf) ← feed chunks buf; Some (ms ++ ms', shut, buf)
  end.

Lemma feed_messages chunks b ms : Forall message_ok ms → b ++ concat chunks = concat (encode <$> ms) → (chunks = [] → ms = []) →
  feed chunks b = Some (ms, false, []).
Proof.
  revert b ms. induction chunks as [|chunk chunks IH]; intros b ms Hms Hb He.
  { rewrite He in * by done. cbn in Hb. rewrite app_nil_r in Hb. by subst b. }
  cbn [concat] in Hb. rewrite app_assoc in Hb. cbn [feed]. unfold codec_onMessage.
  destruct (codec_loop_prefix (S (length (b ++ chunk))) (b ++ chunk) (concat chunks) ms []) as (ms1 & ms2 & r & -> & Hc & Hr & Hd); [lia|done|done|].
  rewrite Hc. cbn [mbind option_bind app]. apply Forall_app in Hms as [_ Hms]. rewrite (IH r ms2) by (done || (intros ->; by apply Hd)). done.
Qed.

(** What clients write is what the server reads: messages of at most 65536 bytes, sent one after another by the codec,
    come out whole, once and in order, however the stream is cut, and the connection is not shut down. *)
Theorem chat_codec_stream chunks ms : Forall message_ok ms → concat chunks = concat (encode <$> ms) → feed chunks [] = Some (ms, false, []).
Proof.
  intros Hms Hc. apply feed_messages; [done|done|]. intros ->. destruct ms as [|m ms]; [done|].
  cbn [fmap list_fmap concat] in Hc. apply (f_equal length) in Hc. unfold encode at 1 in Hc. rewrite !length_app, length_be_bytes in Hc.
  cbn [length] in Hc. lia.
Qed.

(** [send] does not look at the length: a longer message is one that the receiver takes as an error. *)
Lemma long_message_refused (m : list byte) : size_of m = 65537 → codec_onMessage (encode m) = Some ([], true, encode m).
Proof.
  intros Hm. unfold codec_onMessage, encode. cbn [codec_loop]. rewrite Hm.
  assert (Hs : size_of (be_bytes 4 (to_signed 32 65537)) = 4) by (unfold size_of; by rewrite length_be_bytes).
  rewrite size_of_app, Hs, Hm. rewrite (take_app_length' (be_bytes 4 _)) by (by rewrite length_be_bytes). reflexivity.
Qed.
