(* ===== verification/SudokuStat.v ===== *)
(** * Statistics of the Sudoku server (examples/sudoku/stat.h)

    Totals, and for each of the last seconds how many responses there were and how
    long they took together.  The circular buffers are an interface.  The
    methods lock the mutex for all they do, so that they are operations one after another. *)
From Stdlib Require Import Strings.Byte.
From stdpp Require Import base numbers list strings.
From S2P Require Import Prelude Printf Timestamp LogStream CircularBuffer.
Open Scope Z_scope.
Open Scope muduo_scope.

Section Stat.
Context {T : Type} `{CircularBufferLaws Z T}.

(** ** State and operations *)

Definition kSeconds : Z := 60.

Record SudokuStat := mkStat {
  lastSecond_ : Z;
  requests_ : T;
  latencies_ : T;
  totalRequests_ : Z;
  totalResponses_ : Z;
  totalSolved_ : Z;
  badRequests_ : Z;
  droppedRequests_ : Z;
  totalLatency_ : Z;
  badLatency_ : Z
}.

Definition SudokuStat_new : SudokuStat :=
  mkStat 0 (cb_new (Z.to_nat kSeconds)) (cb_new (Z.to_nat kSeconds)) 0 0 0 0 0 0 0.

Definition recordRequest (st : SudokuStat) : outcome SudokuStat :=
  n ← checked_i64 (totalRequests_ st + 1);
  mret (mkStat (lastSecond_ st) (requests_ st) (latencies_ st) n (totalResponses_ st) (totalSolved_ st)
    (badRequests_ st) (droppedRequests_ st) (totalLatency_ st) (badLatency_ st)).
Definition recordBadRequest (st : SudokuStat) : outcome SudokuStat :=
  n ← checked_i64 (badRequests_ st + 1);
  mret (mkStat (lastSecond_ st) (requests_ st) (latencies_ st) (totalRequests_ st) (totalResponses_ st) (totalSolved_ st)
    n (droppedRequests_ st) (totalLatency_ st) (badLatency_ st)).
Definition recordDroppedRequest (st : SudokuStat) : outcome SudokuStat :=
  n ← checked_i64 (droppedRequests_ st + 1);
  mret (mkStat (lastSecond_ st) (requests_ st) (latencies_ st) (totalRequests_ st) (totalResponses_ st) (totalSolved_ st)
    (badRequests_ st) n (totalLatency_ st) (badLatency_ st)).

Definition reset (st : SudokuStat) : SudokuStat :=
  mkStat 0 (cb_clear (requests_ st)) (cb_clear (latencies_ st)) 0 0 0 0 (droppedRequests_ st) 0 0.

(** [b[i] += d] and [b.back() += d]. *)
Definition add_at (i : nat) (d : Z) (b : T) : outcome T :=
  match contents b !! i with
  | Some x => y ← checked_i64 (x + d); mret (cb_set i y b)
  | None => Fault Undefined
  end.
Definition add_back (d : Z) (b : T) : outcome T :=
  match contents b with [] => Fault Undefined | l => add_at (pred (length l)) d b end.

(** [while (lastSecond_ < second)], which runs [n = second - lastSecond_] times. *)
Fixpoint push_seconds (n : nat) (last : Z) (rq lat : T) : Z * T * T :=
  match n with
  | O => (last, rq, lat)
  | S n => push_seconds n (last + 1) (cb_push_back 0 rq) (cb_push_back 0 lat)
  end.

(** A response within [elapsed_us] at [second]: the seconds that are kept. *)
Definition record_second (second elapsed_us last : Z) (rq lat : T) : outcome (Z * T * T) :=
  firstSecond ← checked_i64 (last - size_of (contents rq) + 1);
  '(last, rq, lat) ←
    (if last =? second then
      rq ← add_back 1 rq; lat ← add_back elapsed_us lat; mret (last, rq, lat)
    else if (last + 1 =? second) || (last =? 0) then
      rq ← add_back 1 (cb_push_back 0 rq); lat ← add_back elapsed_us (cb_push_back 0 lat); mret (second, rq, lat)
    else if last <? second then
      let '(last, rq, lat) :=
        if second <? last + kSeconds then push_seconds (Z.to_nat (second - last)) last rq lat
        else (second, cb_push_back 0 (cb_clear rq), cb_push_back 0 (cb_clear lat)) in
      rq ← add_back 1 rq; lat ← add_back elapsed_us lat; mret (last, rq, lat)
    else if firstSecond <=? second then
      let idx := second - firstSecond in
      _ ← assertb 149 (idx <? size_of (contents rq));
      rq ← add_at (Z.to_nat idx) 1 rq; lat ← add_at (Z.to_nat idx) elapsed_us lat; mret (last, rq, lat)
    else _ ← assertb 155 (second <? firstSecond); mret (last, rq, lat));
  _ ← assertb 159 (length (contents rq) =? length (contents lat))%nat;
  mret (last, rq, lat).

Definition recordResponse (now receive : Timestamp) (solved : bool) (st : SudokuStat) : outcome SudokuStat :=
  let second := secondsSinceEpoch now in
  elapsed_us ← checked_i64 (microSecondsSinceEpoch now - microSecondsSinceEpoch receive);
  _ ← assertb 90 (length (contents (requests_ st)) =? length (contents (latencies_ st)))%nat;
  responses ← checked_i64 (totalResponses_ st + 1);
  total_solved ← (if solved then checked_i64 (totalSolved_ st + 1) else mret (totalSolved_ st));
  if elapsed_us <? 0 then
    bad ← checked_i64 (badLatency_ st + 1);
    mret (mkStat (lastSecond_ st) (requests_ st) (latencies_ st) (totalRequests_ st) responses total_solved
      (badRequests_ st) (droppedRequests_ st) (totalLatency_ st) bad)
  else
    total ← checked_i64 (totalLatency_ st + elapsed_us);
    '(last, rq, lat) ← record_second second elapsed_us (lastSecond_ st) (requests_ st) (latencies_ st);
    mret (mkStat last rq lat (totalRequests_ st) responses total_solved
      (badRequests_ st) (droppedRequests_ st) total (badLatency_ st)).

(** The loops of [report] over a buffer: the sum of what is in it. *)
Fixpoint sum_loop (sum : Z) (l : list Z) : outcome Z :=
  match l with [] => mret sum | x :: l => s ← checked_i64 (sum + x); sum_loop s l end.
Definition numbers (l : list Z) : list Item := concat ((λ x, [LChar x20; LInteger x]) <$> l).
Definition line (name : string) (x : Z) : list Item := [LCString (Some (lit name)); LInteger x; LChar x0a].

Definition report_items (queueSize : Z) (st : SudokuStat) : outcome (list Item) :=
  requests ← sum_loop 0 (contents (requests_ st));
  latency ← sum_loop 0 (contents (latencies_ st));
  mret (line "task_queue_size " queueSize ++ line "total_requests " (totalRequests_ st) ++
    line "total_responses " (totalResponses_ st) ++ line "total_solved " (totalSolved_ st) ++
    line "bad_requests " (badRequests_ st) ++ line "dropped_requests " (droppedRequests_ st) ++
    line "latency_sum_us " (totalLatency_ st) ++
    (if 0 <? badLatency_ st then line "bad_latency" (badLatency_ st) else []) ++
    line "last_second " (lastSecond_ st) ++
    LCString (Some (lit "requests_per_second")) :: numbers (contents (requests_ st)) ++ LChar x0a ::
    line "requests_60s " requests ++
    LCString (Some (lit "latency_sum_us_per_second")) :: numbers (contents (latencies_ st)) ++ LChar x0a ::
    line "latency_sum_us_60s " latency ++
    line "latency_us_60s " (if requests =? 0 then 0 else Z.quot latency requests) ++
    line "latency_us_avg " (if totalResponses_ st =? 0 then 0 else Z.quot (totalLatency_ st) (totalResponses_ st))).

(** [report] with the array of its stream, whose content is arbitrary at first. *)
Definition report (snprintf_g : double → list byte) (data : list byte) (queueSize : Z) (st : SudokuStat) : outcome (list byte) :=
  items ← report_items queueSize st;
  b ← shift_all snprintf_g (FixedBuffer_new data) items;
  mret (toString b).
End Stat.
Arguments SudokuStat T : clear implicits.

(** ** What the seconds are *)

(** A response: its second, and how long it took. *)
Abbreviation event := (Z * Z)%type.

(** The sum of [d] over the responses of a second. *)
Definition tally (d : Z → Z) (evs : list event) (s : Z) : Z :=
  foldr (λ e acc, (if decide (e.1 = s) then d e.2 else 0) + acc) 0 evs.
Definition total (d : Z → Z) (evs : list event) : Z := foldr (λ e acc, d e.2 + acc) 0 evs.

(** The seconds that are kept: those since the first response up to the last one, of the
    last minute; a response after a gap of a minute starts anew, one before the first second is not kept. *)
Definition span_step (span : option (Z * Z)) (e : event) : option (Z * Z) :=
  match span with
  | None => Some (e.1, e.1)
  | Some (f, l) =>
    if e.1 <=? l then Some (f, l)
    else if e.1 <? l + kSeconds then Some (Z.max f (e.1 - kSeconds + 1), e.1)
    else Some (e.1, e.1)
  end.
Definition span (evs : list event) : option (Z * Z) := foldl span_step None evs.

(** A number for each second. *)
Definition row (d : Z → Z) (evs : list event) (f l : Z) : list Z := tally d evs <$> seqZ f (l - f + 1).

Lemma foldr_sum_app {A} (g : A → Z) (l k : list A) :
  foldr (λ e acc, g e + acc) 0 (l ++ k) = foldr (λ e acc, g e + acc) 0 l + foldr (λ e acc, g e + acc) 0 k.
Proof. induction l as [|x l IH]; cbn; [done|]. rewrite IH. lia. Qed.

Lemma tally_app d evs more s : tally d (evs ++ more) s = tally d evs s + tally d more s.
Proof. apply (foldr_sum_app (λ e : event, if decide (e.1 = s) then d e.2 else 0)). Qed.

Lemma total_app d evs more : total d (evs ++ more) = total d evs + total d more.
Proof. apply (foldr_sum_app (λ e : event, d e.2)). Qed.

Lemma tally_one d s e s' : tally d [(s, e)] s' = if decide (s = s') then d e else 0.
Proof. cbn. destruct (decide _); lia. Qed.

Lemma tally_none d evs s : (∀ e, e ∈ evs → e.1 ≠ s) → tally d evs s = 0.
Proof.
  induction evs as [|e evs IH]; intros Hn; [done|]. cbn. rewrite decide_False by (apply Hn; by left).
  fold (tally d evs s). rewrite IH by (intros; apply Hn; by right). lia.
Qed.

Lemma tally_bounds d evs s : (∀ e, e ∈ evs → 0 ≤ d e.2) → 0 ≤ tally d evs s ≤ total d evs.
Proof.
  induction evs as [|e evs IH]; intros Hd; cbn; [lia|]. fold (tally d evs s) (total d evs).
  pose proof (Hd e ltac:(by left)). specialize (IH ltac:(intros; apply Hd; by right)). destruct (decide _); lia.
Qed.

Lemma span_snoc evs e : span (evs ++ [e]) = span_step (span evs) e.
Proof. unfold span. by rewrite foldl_app. Qed.

Record span_facts (evs : list event) (f l : Z) : Prop := {
  sf_order : f ≤ l;
  sf_minute : l < f + kSeconds;
  sf_max e : e ∈ evs → e.1 ≤ l;
  sf_first : ∃ e, e ∈ evs ∧ e.1 ≤ f;
  sf_last : ∃ e, e ∈ evs ∧ e.1 = l
}.

Lemma span_spec evs : match span evs with None => evs = [] | Some (f, l) => span_facts evs f l end.
Proof.
  induction evs as [|e evs IH] using rev_ind; [done|]. rewrite span_snoc. unfold span_step, kSeconds.
  assert (∀ x, x ∈ evs ++ [e] ↔ x ∈ evs ∨ x = e) as Hin by (intros; by rewrite elem_of_app, list_elem_of_singleton).
  assert (e ∈ evs ++ [e]) as He by (apply Hin; by right).
  destruct (span evs) as [[f l]|].
  - destruct IH as [Ho Hm Hx (e1 & H1 & H1') (e2 & H2 & H2')]. unfold kSeconds in *.
    assert (e1 ∈ evs ++ [e] ∧ e2 ∈ evs ++ [e]) as [? ?] by (by rewrite !Hin; tauto).
    destruct (Z.leb_spec e.1 l); [|destruct (Z.ltb_spec e.1 (l + 60))]; (split; unfold kSeconds; [lia|lia| | |]); eauto.
    all: try (intros x [Hx'| ->]%Hin; [specialize (Hx x Hx')|]; lia).
    + exists e1. split; [done|lia].
    + exists e. split; [done|lia].
  - subst evs. split; unfold kSeconds; [lia|lia| |by exists e|by exists e]. intros x [Hx|Hx]%Hin; [by apply not_elem_of_nil in Hx|]. by rewrite Hx.
Qed.

Section Rows.
Context (d : Z → Z).

Lemma row_length evs f l : length (row d evs f l) = Z.to_nat (l - f + 1).
Proof. unfold row. by rewrite length_fmap, length_seqZ. Qed.

Lemma row_lookup evs f l s : f ≤ s ≤ l → row d evs f l !! Z.to_nat (s - f) = Some (tally d evs s).
Proof.
  intros Hs. unfold row. rewrite list_lookup_fmap. rewrite lookup_seqZ_lt by lia. cbn. do 2 f_equal. lia.
Qed.

Lemma row_record evs f l s e : f ≤ s ≤ l →
  <[ Z.to_nat (s - f) := tally d evs s + d e ]> (row d evs f l) = row d (evs ++ [(s, e)]) f l.
Proof.
  intros Hs. apply list_eq. intros i. destruct (decide (i = Z.to_nat (s - f))) as [->|Hne].
  - rewrite list_lookup_insert_eq by (rewrite row_length; lia). by rewrite row_lookup, tally_app, tally_one, decide_True by done.
  - rewrite list_lookup_insert_ne by done. destruct (decide (i < Z.to_nat (l - f + 1))%nat) as [Hi|Hi].
    + replace i with (Z.to_nat (f + Z.of_nat i - f)) by lia. rewrite !row_lookup by lia.
      by rewrite tally_app, tally_one, decide_False, Z.add_0_r by lia.
    + by rewrite !lookup_ge_None_2 by (rewrite row_length; lia).
Qed.

Lemma row_extend evs f l : f ≤ l + 1 → row d evs f l ++ [tally d evs (l + 1)] = row d evs f (l + 1).
Proof.
  intros Hf. unfold row. replace (l + 1 - f + 1) with ((l - f + 1) + 1) by lia. rewrite (seqZ_app f (l - f + 1) 1) by lia.
  rewrite fmap_app. f_equal. replace (f + (l - f + 1)) with (l + 1) by lia. done.
Qed.

Lemma row_tail evs f l : f ≤ l → tail (row d evs f l) = row d evs (f + 1) l.
Proof. intros Hf. unfold row. rewrite (seqZ_cons f) by lia. cbn. do 2 f_equal; lia. Qed.
End Rows.

(** The numbers of a second are those of its responses. *)
Lemma tally_total evs s : total (λ e, e) (filter (λ e : event, e.1 = s) evs) = tally (λ e, e) evs s.
Proof.
  induction evs as [|e evs IH]; [done|]. rewrite filter_cons. unfold tally. cbn [foldr]. fold (tally (λ e, e) evs s). rewrite <- IH.
  by destruct (decide (e.1 = s)).
Qed.
Lemma tally_count evs s : size_of (filter (λ e : event, e.1 = s) evs) = tally (λ _, 1) evs s.
Proof.
  induction evs as [|e evs IH]; [done|]. rewrite filter_cons. unfold tally. cbn [foldr]. fold (tally (λ _, 1) evs s). rewrite <- IH.
  destruct (decide (e.1 = s)); [by rewrite size_of_cons|done].
Qed.

(** ** The operations on the buffers *)

Section Buffers.
Context {T : Type} `{CircularBufferLaws Z T}.

(** A buffer that holds a number for each of the seconds from [f] to [l]. *)
Definition holds (d : Z → Z) (evs : list event) (f l : Z) (b : T) : Prop :=
  capacity b = Z.to_nat kSeconds ∧ contents b = row d evs f l.

Lemma add_at_spec d evs f l s e b : holds d evs f l b → f ≤ s ≤ l → - 2 ^ 63 ≤ tally d evs s + d e < 2 ^ 63 →
  add_at (Z.to_nat (s - f)) (d e) b ⇓ holds d (evs ++ [(s, e)]) f l.
Proof.
  intros [Hcap Hb] Hs Hx. unfold add_at. rewrite Hb, row_lookup by done.
  apply yields_bind, checked_i64_ok; [done|]. apply yields_ret. unfold holds.
  destruct (cb_set_spec (Z.to_nat (s - f)) (tally d evs s + d e) b) as [-> ->]; [rewrite Hb, row_length; lia|].
  by rewrite Hb, row_record.
Qed.

Lemma add_back_spec d evs f l e b : holds d evs f l b → f ≤ l → - 2 ^ 63 ≤ tally d evs l + d e < 2 ^ 63 →
  add_back (d e) b ⇓ holds d (evs ++ [(l, e)]) f l.
Proof.
  intros Hb Hf Hx. pose proof (add_at_spec d evs f l l e b Hb ltac:(lia) Hx) as Hadd. destruct Hb as [_ Hb]. unfold add_back.
  pose proof (row_length d evs f l) as Hl. rewrite Hb. destruct (row d evs f l) as [|x k] eqn:E; [cbn in Hl; lia|].
  rewrite Hl. by replace (Init.Nat.pred (Z.to_nat (l - f + 1))) with (Z.to_nat (l - f)) by lia.
Qed.

(** A second without responses yet. *)
Lemma push_spec d evs f l b : holds d evs f l b → f ≤ l < f + kSeconds → (∀ e, e ∈ evs → e.1 ≤ l) →
  holds d evs (Z.max f (l + 1 - kSeconds + 1)) (l + 1) (cb_push_back 0 b).
Proof.
  unfold kSeconds. intros [Hcap Hb] Hf Hx. destruct (cb_push_spec 0 b) as [Hcap' Hb']; [rewrite Hcap; unfold kSeconds; lia|].
  split; [congruence|]. rewrite Hb', Hb, Hcap, row_length. replace 0 with (tally d evs (l + 1)).
  2: { apply tally_none. intros e He ?. specialize (Hx e He). lia. }
  unfold kSeconds. destruct (Nat.ltb_spec (Z.to_nat (l - f + 1)) (Z.to_nat 60)) as [Hlt|Hge].
  - rewrite row_extend by lia. f_equal. lia.
  - rewrite row_tail, row_extend by lia. f_equal. lia.
Qed.

Lemma push_first d s b : capacity b = Z.to_nat kSeconds → contents b = [] → holds d [] s s (cb_push_back 0 b).
Proof.
  intros Hcap Hb. destruct (cb_push_spec 0 b) as [Hcap' Hb']; [rewrite Hcap; unfold kSeconds; lia|]. split; [congruence|].
  rewrite Hb', Hb, Hcap. unfold row. by rewrite Z.sub_diag.
Qed.

Lemma push_cleared d evs f l s b : holds d evs f l b → holds d [] s s (cb_push_back 0 (cb_clear b)).
Proof. intros [Hcap _]. destruct (cb_clear_spec b) as [H1 H2]. apply push_first; congruence. Qed.

(** A buffer that is empty, for responses that are all before. *)
Lemma holds_fresh d evs s b : (∀ e, e ∈ evs → e.1 < s) → holds d [] s s b → holds d evs s s b.
Proof.
  intros Hx [Hcap Hb]. split; [done|]. rewrite Hb. unfold row. rewrite Z.sub_diag.
  assert (tally d evs s = 0) as Hn by (apply tally_none; intros e He ?; specialize (Hx e He); lia).
  assert (∀ evs, tally d evs <$> seqZ s (0 + 1) = [tally d evs s]) as E by done. by rewrite !E, Hn.
Qed.

Lemma push_seconds_spec d1 d2 evs n : ∀ f l rq lat, holds d1 evs f l rq → holds d2 evs f l lat → f ≤ l < f + kSeconds → (∀ e, e ∈ evs → e.1 ≤ l) →
  ∃ rq' lat', push_seconds n l rq lat = (l + Z.of_nat n, rq', lat') ∧
    let f' := Z.max f (l + Z.of_nat n - kSeconds + 1) in holds d1 evs f' (l + Z.of_nat n) rq' ∧ holds d2 evs f' (l + Z.of_nat n) lat'.
Proof.
  induction n as [|n IH]; intros f l rq lat Hrq Hlat Hf Hx; cbn [push_seconds].
  - exists rq, lat. rewrite Z.add_0_r. unfold kSeconds in *. rewrite Z.max_l by lia. done.
  - assert (∀ e, e ∈ evs → e.1 ≤ l + 1) as Hx' by (intros e He; specialize (Hx e He); lia).
    destruct (IH _ (l + 1) _ _ (push_spec _ _ _ _ _ Hrq Hf Hx) (push_spec _ _ _ _ _ Hlat Hf Hx)) as (rq' & lat' & -> & H1 & H2);
      [unfold kSeconds in *; lia|done|].
    exists rq', lat'. replace (l + 1 + Z.of_nat n) with (l + Z.of_nat (S n)) in * by lia. split; [done|]. cbv zeta.
    replace (Z.max f _) with (Z.max (Z.max f (l + 1 - kSeconds + 1)) (l + Z.of_nat (S n) - kSeconds + 1)) by (unfold kSeconds; lia). done.
Qed.

(** A response before all seconds that are kept. *)
Lemma holds_before d evs f l s e b : s < f → holds d evs f l b → holds d (evs ++ [(s, e)]) f l b.
Proof.
  intros Hs [Hcap Hb]. split; [done|]. rewrite Hb. unfold row. apply list_fmap_ext. intros i x Hx%list_elem_of_lookup_2.
  apply elem_of_seqZ in Hx. rewrite tally_app, tally_one, decide_False by lia. lia.
Qed.

(** ** Recording a response *)

(** What the buffers say of the responses. *)
Definition seconds_at (evs : list event) (span : option (Z * Z)) (last : Z) (rq lat : T) : Prop :=
  match span with
  | None => last = 0 ∧ capacity rq = Z.to_nat kSeconds ∧ contents rq = [] ∧ capacity lat = Z.to_nat kSeconds ∧ contents lat = []
  | Some (f, l) => last = l ∧ holds (λ _, 1) evs f l rq ∧ holds (λ e, e) evs f l lat
  end.
Definition seconds_ok (evs : list event) : Z → T → T → Prop := seconds_at evs (span evs).

(** Responses of times after 1970, whose number and whose sum fit into 64 bits. *)
Record events_ok (evs : list event) : Prop := {
  eo_event e : e ∈ evs → 0 < e.1 < 2 ^ 62 ∧ 0 ≤ e.2;
  eo_count : total (λ _, 1) evs < 2 ^ 63;
  eo_sum : total (λ e, e) evs < 2 ^ 63
}.

Lemma events_ok_app evs more : events_ok (evs ++ more) → events_ok evs.
Proof.
  intros [He Hc Hs]. rewrite !total_app in Hc, Hs.
  assert (∀ e, e ∈ more → 0 ≤ e.2) as Hmore by (intros e Hin; apply He, elem_of_app; by right).
  pose proof (tally_bounds (λ _, 1) more 0 ltac:(intros; lia)). pose proof (tally_bounds (λ e, e) more 0 Hmore).
  split; [|lia|lia]. intros e Hin. apply He, elem_of_app. by left.
Qed.

Lemma tally_fits evs s e : events_ok (evs ++ [(s, e)]) → ∀ s',
  - 2 ^ 63 ≤ tally (λ _, 1) evs s' + 1 < 2 ^ 63 ∧ - 2 ^ 63 ≤ tally (λ e, e) evs s' + e < 2 ^ 63.
Proof.
  intros [He Hc Hs] s'. rewrite !total_app in Hc, Hs. cbn in Hc, Hs.
  assert (∀ x, x ∈ evs → 0 ≤ x.2) as Hevs by (intros x Hin; apply He, elem_of_app; by left).
  pose proof (tally_bounds (λ _, 1) evs s' ltac:(intros; lia)). pose proof (tally_bounds (λ e, e) evs s' Hevs).
  assert (0 ≤ e) by (apply (He (s, e)), elem_of_app; right; by left). lia.
Qed.

(** Both numbers of the last second. *)
Lemma add_last evs f l e rq lat : events_ok (evs ++ [(l, e)]) → holds (λ _, 1) evs f l rq → holds (λ e, e) evs f l lat → f ≤ l →
  ∃ rq' lat', add_back 1 rq = Ok rq' ∧ add_back e lat = Ok lat' ∧
    holds (λ _, 1) (evs ++ [(l, e)]) f l rq' ∧ holds (λ e, e) (evs ++ [(l, e)]) f l lat'.
Proof.
  intros Hok Hrq Hlat Hf. destruct (tally_fits _ _ _ Hok l) as [H1 H2].
  destruct (proj1 (yields_Ok _ _) (add_back_spec (λ _, 1) evs f l e rq Hrq Hf H1)) as (rq' & E1 & Hrq').
  destruct (proj1 (yields_Ok _ _) (add_back_spec (λ e, e) evs f l e lat Hlat Hf H2)) as (lat' & E2 & Hlat'). by exists rq', lat'.
Qed.

Lemma holds_lengths d1 d2 evs f l rq lat : holds d1 evs f l rq → holds d2 evs f l lat → (length (contents rq) =? length (contents lat))%nat = true.
Proof. intros [_ ->] [_ ->]. rewrite !row_length. apply Nat.eqb_refl. Qed.

Lemma record_second_spec evs s e last rq lat : seconds_ok evs last rq lat → events_ok (evs ++ [(s, e)]) →
  record_second s e last rq lat ⇓ λ '(last, rq, lat), seconds_ok (evs ++ [(s, e)]) last rq lat.
Proof.
  intros Hs Hok. assert (0 < s < 2 ^ 62 ∧ 0 ≤ e) as [Hsr He] by (apply (eo_event _ Hok (s, e)), elem_of_app; right; by left).
  unfold seconds_ok, seconds_at in Hs |- *. rewrite span_snoc. pose proof (span_spec evs) as Hspan. unfold record_second.
  destruct (span evs) as [[f l]|] eqn:Espan; cbn [span_step fst].
  2: { subst evs. destruct Hs as (-> & Hc1 & H1 & Hc2 & H2). rewrite H1. apply yields_bind, checked_i64_ok; [change (size_of (@nil Z)) with 0; lia|].
    rewrite (proj2 (Z.eqb_neq 0 s)), orb_true_r by lia.
    destruct (add_last [] s s e _ _ Hok (push_first _ s rq Hc1 H1) (push_first _ s lat Hc2 H2)) as (rq' & lat' & -> & -> & Hrq & Hlat); [lia|].
    cbn [mbind outcome_bind mret outcome_ret]. rewrite (holds_lengths _ _ _ _ _ _ _ Hrq Hlat). done. }
  destruct Hs as (-> & Hrq & Hlat). destruct Hspan as [Hfl Hmin Hmax _ (e0 & He0 & El)].
  assert (0 < l < 2 ^ 62) as Hlr by (rewrite <- El; apply (eo_event _ Hok e0), elem_of_app; by left).
  assert (size_of (contents rq) = l - f + 1) as Hsz by (destruct Hrq as [_ ->]; unfold size_of; rewrite row_length; lia).
  rewrite Hsz. apply yields_bind, checked_i64_ok; [unfold kSeconds in *; lia|]. replace (l - (l - f + 1) + 1) with f by lia.
  (* the last second has been brought up to [s] *)
  assert (∀ f' rq lat, holds (λ _, 1) evs f' s rq → holds (λ e, e) evs f' s lat → f' ≤ s →
    (rq ← add_back 1 rq; lat ← add_back e lat; mret (s, rq, lat)) ⇓
    λ '(last, rq, lat), last = s ∧ holds (λ _, 1) (evs ++ [(s, e)]) f' s rq ∧ holds (λ e, e) (evs ++ [(s, e)]) f' s lat) as Hadd.
  { intros f' rq1 lat1 H1 H2 Hf'. by destruct (add_last evs f' s e rq1 lat1 Hok H1 H2 Hf') as (rq' & lat' & -> & -> & Hrq' & Hlat'). }
  apply yields_bind. eapply yields_mono with (P := λ '(last, rq, lat), seconds_at (evs ++ [(s, e)]) (span_step (Some (f, l)) (s, e)) last rq lat).
  2: { intros [[last' rq'] lat']. unfold span_step. cbn [fst]. intros Hst. apply yields_bind, yields_assert; [|by apply yields_ret].
    destruct (s <=? l), (s <? l + kSeconds); destruct Hst as (_ & ? & ?); by eapply holds_lengths. }
  unfold span_step. cbn [fst]. destruct (Z.eqb_spec l s) as [->|Hne].
  { rewrite (proj2 (Z.leb_le s s)) by lia. by apply Hadd. }
  destruct (Z.leb_spec s l) as [Hle|Hlt].
  - rewrite (proj2 (Z.eqb_neq (l + 1) s)), (proj2 (Z.eqb_neq l 0)), (proj2 (Z.ltb_ge l s)) by lia. cbn [orb].
    destruct (Z.leb_spec f s) as [Hin|Hout].
    + apply yields_bind, yields_assert; [apply Z.ltb_lt; lia|]. destruct (tally_fits _ _ _ Hok s) as [H1 H2].
      apply yields_bind. eapply yields_mono; [apply (add_at_spec (λ _, 1) evs f l s e rq Hrq); [lia|done]|]. intros rq' Hrq'.
      apply yields_bind. eapply yields_mono; [apply (add_at_spec (λ e, e) evs f l s e lat Hlat); [lia|done]|]. intros lat' Hlat'. by apply yields_ret.
    + apply yields_bind, yields_assert; [by apply Z.ltb_lt|]. apply yields_ret. split_and!; [done|by apply holds_before..].
  - assert (∀ x, x ∈ evs → x.1 < s) as Hbefore by (intros x Hx; specialize (Hmax x Hx); lia).
    rewrite (proj2 (Z.eqb_neq l 0)), orb_false_r, (proj2 (Z.ltb_lt l s)) by lia.
    destruct (Z.eqb_spec (l + 1) s) as [<-|Hne1].
    + rewrite (proj2 (Z.ltb_lt (l + 1) (l + kSeconds))) by (unfold kSeconds; lia).
      apply Hadd; [by apply push_spec..|unfold kSeconds; lia].
    + destruct (Z.ltb_spec s (l + kSeconds)) as [Hnear|Hfar].
      * destruct (push_seconds_spec _ _ _ (Z.to_nat (s - l)) f l rq lat Hrq Hlat) as (rq' & lat' & -> & Hrq' & Hlat'); [done|done|].
        rewrite !Z2Nat.id in * by lia. replace (l + (s - l)) with s in * by lia. apply Hadd; [done|done|unfold kSeconds; lia].
      * apply Hadd; [apply holds_fresh; [done|]; by eapply push_cleared..|lia].
Qed.
End Buffers.

(** ** Sequences of operations *)

Inductive StatOp :=
  | ORequest
  | OBadRequest
  | ODroppedRequest
  | OResponse (now receive : Timestamp) (solved : bool)
  | OReset.

(** What happened since the last reset; requests that were dropped, since the start. *)
Record Counts := mkCounts {
  c_requests : Z;
  c_bad : Z;
  c_dropped : Z;
  c_responses : list (event * bool)
}.

Definition apply_op (c : Counts) (op : StatOp) : Counts :=
  match op with
  | ORequest => mkCounts (c_requests c + 1) (c_bad c) (c_dropped c) (c_responses c)
  | OBadRequest => mkCounts (c_requests c) (c_bad c + 1) (c_dropped c) (c_responses c)
  | ODroppedRequest => mkCounts (c_requests c) (c_bad c) (c_dropped c + 1) (c_responses c)
  | OResponse now receive solved =>
    mkCounts (c_requests c) (c_bad c) (c_dropped c) (c_responses c ++ [((secondsSinceEpoch now, now - receive), solved)])
  | OReset => mkCounts 0 0 (c_dropped c) []
  end.
Definition counts (ops : list StatOp) : Counts := foldl apply_op (mkCounts 0 0 0 []) ops.

(** The responses that did not take a negative time. *)
Definition timed (rs : list (event * bool)) : list event := filter (λ e : event, 0 ≤ e.2) (fst <$> rs).

(** Operations of times from 1970 on; not more of them, and not more time, than an [int64_t] counts. *)
Definition op_ok (op : StatOp) : Prop :=
  match op with OResponse now receive _ => 10 ^ 6 ≤ now < 2 ^ 62 ∧ 0 ≤ receive < 2 ^ 62 | _ => True end.
Definition cost (op : StatOp) : Z := match op with OResponse now receive _ => Z.max 0 (now - receive) | _ => 0 end.
Definition costs (ops : list StatOp) : Z := foldr (λ op acc, cost op + acc) 0 ops.
Record ops_ok (ops : list StatOp) : Prop := {
  oo_each : Forall op_ok ops;
  oo_number : size_of ops < 2 ^ 63;
  oo_costs : costs ops < 2 ^ 63
}.

Lemma cost_nonneg op : 0 ≤ cost op.
Proof. destruct op; cbn; lia. Qed.

Lemma costs_app ops more : costs (ops ++ more) = costs ops + costs more.
Proof. apply foldr_sum_app. Qed.

Lemma ops_ok_snoc ops op : ops_ok (ops ++ [op]) → ops_ok ops ∧ op_ok op.
Proof.
  intros [He Hn Hc]. apply Forall_app in He as [He Ho]. apply Forall_cons in Ho as [Ho _]. rewrite size_of_app in Hn. rewrite costs_app in Hc.
  pose proof (cost_nonneg op). change (size_of [op]) with 1 in Hn. cbn in Hc. split; [split; [done|lia|lia]|done].
Qed.

Lemma timed_snoc rs e b : timed (rs ++ [(e, b)]) = timed rs ++ (if decide (0 ≤ e.2) then [e] else []).
Proof. unfold timed. rewrite fmap_app, filter_app. cbn [fmap list_fmap fst]. by rewrite filter_cons, filter_nil. Qed.

Lemma seconds_range now : 10 ^ 6 ≤ now < 2 ^ 62 → 0 < secondsSinceEpoch now < 2 ^ 62.
Proof. intros Hn. unfold secondsSinceEpoch, kMicroSecondsPerSecond. Z.to_euclidean_division_equations. lia. Qed.

(** The counts stay below what the operations allow. *)
Record counts_bounded (ops : list StatOp) (c : Counts) : Prop := {
  cb_requests : 0 ≤ c_requests c ≤ size_of ops;
  cb_bad : 0 ≤ c_bad c ≤ size_of ops;
  cb_dropped : 0 ≤ c_dropped c ≤ size_of ops;
  cb_responses : size_of (c_responses c) ≤ size_of ops;
  cb_count : total (λ _, 1) (timed (c_responses c)) ≤ size_of ops;
  cb_sum : total (λ e, e) (timed (c_responses c)) ≤ costs ops;
  cb_each e : e ∈ timed (c_responses c) → 0 < e.1 < 2 ^ 62 ∧ 0 ≤ e.2
}.

Lemma counts_bounds ops : Forall op_ok ops → counts_bounded ops (counts ops).
Proof.
  induction ops as [|op ops IH] using rev_ind; intros Hok.
  { split; cbn; unfold size_of; cbn; try lia. intros e He. by apply not_elem_of_nil in He. }
  apply Forall_app in Hok as [Hok Hop]. apply Forall_cons in Hop as [Hop _]. specialize (IH Hok). unfold counts in *. rewrite foldl_app. cbn [foldl].
  set (c := foldl apply_op _ ops) in *. pose proof (size_of_nonneg ops). pose proof (cost_nonneg op).
  assert (0 ≤ costs ops) as Hpos. { clear. induction ops as [|op ops IH]; cbn; [lia|]. pose proof (cost_nonneg op). fold (costs ops). lia. }
  destruct IH as [H1 H2 H3 H4 H5 H6 H7].
  assert (size_of (ops ++ [op]) = size_of ops + 1 ∧ costs (ops ++ [op]) = costs ops + cost op) as [Es Ec].
  { rewrite size_of_app, costs_app. cbn. split; [done|lia]. }
  destruct op as [| | |now receive solved|]; cbn [apply_op]; split; cbn [c_requests c_bad c_dropped c_responses]; rewrite ?Es, ?Ec; try lia; try done.
  - rewrite size_of_app. change (size_of [_]) with 1. lia.
  - rewrite timed_snoc, total_app. destruct (decide _); cbn; lia.
  - rewrite timed_snoc, total_app. cbn [cost fst snd]. destruct (decide _); cbn; lia.
  - rewrite timed_snoc. intros e [He|He]%elem_of_app; [by apply H7|]. destruct (decide _) as [Hd|]; [|by apply not_elem_of_nil in He].
    apply list_elem_of_singleton in He as ->. split; [|done]. apply seconds_range. apply Hop.
  - change (size_of []) with 0. lia.
  - cbn. lia.
  - cbn. lia.
  - intros e He. by apply not_elem_of_nil in He.
Qed.

Lemma counts_events_ok ops : ops_ok ops → events_ok (timed (c_responses (counts ops))).
Proof. intros [He Hn Hc]. destruct (counts_bounds ops He) as []. split; [done|lia|lia]. Qed.

Section Runs.
Context {T : Type} `{CircularBufferLaws Z T}.

Definition exec_op (st : SudokuStat T) (op : StatOp) : outcome (SudokuStat T) :=
  match op with
  | ORequest => recordRequest st
  | OBadRequest => recordBadRequest st
  | ODroppedRequest => recordDroppedRequest st
  | OResponse now receive solved => recordResponse now receive solved st
  | OReset => mret (reset st)
  end.
Fixpoint exec_ops (st : SudokuStat T) (ops : list StatOp) : outcome (SudokuStat T) :=
  match ops with [] => mret st | op :: ops => st ← exec_op st op; exec_ops st ops end.

(** The state tells what happened. *)
Record stat_ok (c : Counts) (st : SudokuStat T) : Prop := {
  so_seconds : seconds_ok (timed (c_responses c)) (lastSecond_ st) (requests_ st) (latencies_ st);
  so_requests : totalRequests_ st = c_requests c;
  so_bad : badRequests_ st = c_bad c;
  so_dropped : droppedRequests_ st = c_dropped c;
  so_responses : totalResponses_ st = size_of (c_responses c);
  so_solved : totalSolved_ st = size_of (filter (λ r, r.2 = true) (c_responses c));
  so_latency : totalLatency_ st = total (λ e, e) (timed (c_responses c));
  so_negative : badLatency_ st = size_of (filter (λ r, r.1.2 < 0) (c_responses c))
}.

Lemma seconds_ok_lengths evs last rq lat : seconds_ok evs last rq lat →
  (length (contents rq) =? length (contents lat))%nat = true ∧ (capacity rq = Z.to_nat kSeconds ∧ capacity lat = Z.to_nat kSeconds).
Proof.
  unfold seconds_ok, seconds_at. destruct (span evs) as [[f l]|].
  - intros (_ & H1 & H2). split; [by eapply holds_lengths|]. split; [apply H1|apply H2].
  - intros (_ & Hc1 & -> & Hc2 & ->). done.
Qed.

Lemma filter_size_le {A} (P : A → Prop) `{∀ x, Decision (P x)} (l : list A) : size_of (filter P l) ≤ size_of l.
Proof. unfold size_of. pose proof (length_filter P l). lia. Qed.

Lemma filter_snoc_size {A} (P : A → Prop) `{∀ x, Decision (P x)} (l : list A) x :
  size_of (filter P (l ++ [x])) = size_of (filter P l) + if decide (P x) then 1 else 0.
Proof. rewrite filter_app, size_of_app, filter_cons, filter_nil. by destruct (decide (P x)). Qed.

Lemma recordResponse_spec c st now receive solved :
  stat_ok c st → op_ok (OResponse now receive solved) → size_of (c_responses c) + 1 < 2 ^ 63 →
  events_ok (timed (c_responses (apply_op c (OResponse now receive solved)))) →
  recordResponse now receive solved st ⇓ stat_ok (apply_op c (OResponse now receive solved)).
Proof.
  intros [S1 S2 S3 S4 S5 S6 S7 S8] [Hnow Hrec] Hn Hev. unfold recordResponse, microSecondsSinceEpoch.
  cbn [apply_op c_responses] in Hev. rewrite timed_snoc in Hev. cbn [fst snd] in Hev.
  pose proof (filter_size_le (λ r : event * bool, r.2 = true) (c_responses c)). pose proof (filter_size_le (λ r : event * bool, r.1.2 < 0) (c_responses c)).
  pose proof (size_of_nonneg (c_responses c)). pose proof (size_of_nonneg (filter (λ r : event * bool, r.2 = true) (c_responses c))).
  pose proof (size_of_nonneg (filter (λ r : event * bool, r.1.2 < 0) (c_responses c))).
  apply yields_bind, checked_i64_ok; [lia|]. apply yields_bind, yields_assert; [apply (seconds_ok_lengths _ _ _ _ S1)|].
  apply yields_bind, checked_i64_ok; [lia|]. apply yields_bind.
  eapply yields_mono with (P := λ n, n = totalSolved_ st + if decide (solved = true) then 1 else 0).
  { destruct solved; [apply checked_i64_ok; [lia|by rewrite decide_True]|]. apply yields_ret. rewrite decide_False by done. lia. }
  intros n ->. destruct (Z.ltb_spec (now - receive) 0) as [Hneg|Hpos].
  - apply yields_bind, checked_i64_ok; [lia|]. apply yields_ret.
    split; cbn [lastSecond_ requests_ latencies_ totalRequests_ totalResponses_ totalSolved_ badRequests_ droppedRequests_ totalLatency_ badLatency_ apply_op c_requests c_bad c_dropped c_responses];
      rewrite ?timed_snoc, ?filter_snoc_size, ?size_of_app; cbn [fst snd]; rewrite ?(decide_False (P := 0 ≤ now - receive)) by lia;
      rewrite ?app_nil_r, ?S6, ?S5, ?S8, ?(decide_True (P := now - receive < 0)) by lia; try done.
  - rewrite decide_True in Hev by done. pose proof (eo_sum _ Hev) as Hsum. rewrite total_app in Hsum. cbn in Hsum.
    pose proof (eo_event _ Hev) as Heach. assert (0 ≤ total (λ e, e) (timed (c_responses c))) as Hpos'.
    { destruct (tally_bounds (λ e, e) (timed (c_responses c)) 0); [|lia]. intros e He. apply Heach, elem_of_app. by left. }
    apply yields_bind, checked_i64_ok; [lia|]. apply yields_bind. eapply yields_mono; [by apply record_second_spec|].
    intros [[last rq] lat] Hs. apply yields_ret.
    split; cbn [lastSecond_ requests_ latencies_ totalRequests_ totalResponses_ totalSolved_ badRequests_ droppedRequests_ totalLatency_ badLatency_ apply_op c_requests c_bad c_dropped c_responses];
      rewrite ?timed_snoc, ?filter_snoc_size, ?size_of_app; cbn [fst snd]; rewrite ?(decide_True (P := 0 ≤ now - receive)) by lia;
      rewrite ?S6, ?S5, ?S7, ?S8, ?total_app, ?(decide_False (P := now - receive < 0)) by lia; try done; cbn; lia.
Qed.

Lemma exec_op_spec ops st op : ops_ok (ops ++ [op]) → stat_ok (counts ops) st → exec_op st op ⇓ stat_ok (counts (ops ++ [op])).
Proof.
  intros Hok Hst. pose proof (counts_events_ok _ Hok) as Hev. destruct (ops_ok_snoc _ _ Hok) as [Hops Hop].
  destruct (counts_bounds ops (oo_each _ Hops)) as [Hb1 Hb2 Hb3 Hb4 Hb5 Hb6 Hb7]. pose proof (oo_number _ Hok) as Hn. rewrite size_of_app in Hn.
  change (size_of [op]) with 1 in Hn. pose proof (size_of_nonneg ops). unfold counts in *. rewrite foldl_app in Hev |- *. cbn [foldl] in Hev |- *.
  set (c := foldl apply_op _ ops) in *. destruct Hst as [S1 S2 S3 S4 S5 S6 S7 S8].
  destruct op as [| | |now receive solved|]; cbn [exec_op apply_op].
  1-3: apply yields_bind, checked_i64_ok; [lia|]; apply yields_ret; split; cbn; try done; lia.
  - apply recordResponse_spec; [by split|done|lia|done].
  - apply yields_ret. unfold reset. destruct (cb_clear_spec (requests_ st)) as [C1 C2], (cb_clear_spec (latencies_ st)) as [C3 C4].
    destruct (seconds_ok_lengths _ _ _ _ S1) as (_ & L1 & L2). split; cbn; try done. split_and!; congruence.
Qed.

Lemma exec_ops_app st ops1 ops2 : exec_ops st (ops1 ++ ops2) = st ← exec_ops st ops1; exec_ops st ops2.
Proof. revert st. induction ops1 as [|op ops1 IH]; intros st; [done|]. cbn. destruct (exec_op st op); cbn; [apply IH|done]. Qed.

Lemma exec_ops_spec ops : ops_ok ops → exec_ops SudokuStat_new ops ⇓ stat_ok (counts ops).
Proof.
  induction ops as [|op ops IH] using rev_ind; intros Hok.
  - apply yields_ret. destruct (cb_new_spec (Z.to_nat kSeconds)) as [C1 C2]. split; cbn; try done.
  - rewrite exec_ops_app. destruct (ops_ok_snoc _ _ Hok) as [Hops _]. apply yields_bind. eapply yields_mono; [by apply IH|].
    intros st Hst. cbn [exec_ops]. apply yields_bind. eapply yields_mono; [by apply exec_op_spec|]. intros. by apply yields_ret.
Qed.
(** ** The report *)

Definition sum (l : list Z) : Z := foldr Z.add 0 l.

Lemma sum_loop_spec l : ∀ acc, 0 ≤ acc → Forall (λ x, 0 ≤ x) l → acc + sum l < 2 ^ 63 → sum_loop acc l = Ok (acc + sum l).
Proof.
  induction l as [|x l IH]; intros acc Ha Hl Hs; cbn [sum_loop sum foldr] in *; [by rewrite Z.add_0_r|].
  apply Forall_cons in Hl as [Hx Hl]. fold (sum l) in *. assert (0 ≤ sum l) by (clear - Hl; induction Hl; cbn; [|fold (sum l)]; lia).
  destruct (proj1 (yields_Ok _ (λ y, y = acc + x)) (checked_i64_ok (acc + x) _ ltac:(lia) eq_refl)) as (y & -> & ->). cbn.
  rewrite IH by (done || lia). f_equal. lia.
Qed.

Lemma sum_cons x l : sum (x :: l) = x + sum l.
Proof. done. Qed.

(** The seconds together are not more than all. *)
Lemma sum_tally d evs L : NoDup L → (∀ e, e ∈ evs → 0 ≤ d e.2) → sum (tally d evs <$> L) ≤ total d evs.
Proof.
  intros Hd Hpos. induction evs as [|e evs IH].
  - assert (sum (tally d [] <$> L) = 0) as ->; [|done]. clear. induction L; [done|]. rewrite fmap_cons, sum_cons, IHL. done.
  - assert (sum (tally d (e :: evs) <$> L) = sum (tally d evs <$> L) + if decide (e.1 ∈ L) then d e.2 else 0) as ->.
    { clear IH Hpos. induction Hd as [|s L Hs Hd IH]; [done|]. rewrite !fmap_cons, !sum_cons, IH.
      change (tally d (e :: evs) s) with ((if decide (e.1 = s) then d e.2 else 0) + tally d evs s).
      destruct (decide (e.1 = s)) as [->|Hne].
      - rewrite (decide_True (P := s ∈ s :: L)) by (by left). rewrite (decide_False (P := s ∈ L)) by done. lia.
      - destruct (decide (e.1 ∈ L)) as [Hin|Hin]; [rewrite decide_True by (by right)|rewrite decide_False by (by rewrite not_elem_of_cons)]; lia. }
    cbn. fold (total d evs). pose proof (Hpos e ltac:(by left)). specialize (IH ltac:(intros; apply Hpos; by right)). destruct (decide _); lia.
Qed.

(** What the buffers hold: at most a minute of numbers, the sum of which is known. *)
Lemma holds_sum d evs f l b : holds d evs f l b → l < f + kSeconds → (∀ e, e ∈ evs → 0 ≤ d e.2) → total d evs < 2 ^ 63 →
  (length (contents b) ≤ 60)%nat ∧ Forall (λ x, 0 ≤ x < 2 ^ 63) (contents b) ∧ ∃ s, sum_loop 0 (contents b) = Ok s ∧ 0 ≤ s < 2 ^ 63.
Proof.
  intros [_ ->] Hm Hpos Ht. unfold kSeconds in Hm. assert (Forall (λ x, 0 ≤ x < 2 ^ 63) (row d evs f l)) as Hall.
  { unfold row. apply Forall_fmap, Forall_true. intros s. cbn. pose proof (tally_bounds d evs s Hpos). lia. }
  split_and!; [rewrite row_length; lia|done|]. exists (sum (row d evs f l)).
  assert (Forall (λ x, 0 ≤ x) (row d evs f l)) as Hall' by (eapply Forall_impl; [exact Hall|]; cbn; lia).
  pose proof (sum_tally d evs (seqZ f (l - f + 1)) (NoDup_seqZ _ _) Hpos) as Hle. fold (row d evs f l) in Hle.
  split; [by rewrite sum_loop_spec by (done || lia)|]. split; [|lia]. clear - Hall'. induction Hall'; [done|]. rewrite sum_cons. lia.
Qed.

Section Text.
Context (snprintf_g : double → list byte).

Lemma texts_app its more : texts snprintf_g (its ++ more) = texts snprintf_g its ++ texts snprintf_g more.
Proof. unfold texts. by rewrite fmap_app, concat_app. Qed.

(** Items that are fine and that take at most [n] bytes. *)
Definition fits (n : Z) (its : list Item) : Prop := Forall item_ok its ∧ size_of (texts snprintf_g its) ≤ n.

Lemma fits_app n1 n2 its more : fits n1 its → fits n2 more → fits (n1 + n2) (its ++ more).
Proof. intros [H1 H2] [H3 H4]. split; [by apply Forall_app|]. rewrite texts_app, size_of_app. lia. Qed.

Lemma fits_text n str its : fits n its → fits (size_of str + n) (LCString (Some str) :: its).
Proof.
  intros [H1 H2]. split; [by constructor|]. change (texts snprintf_g (LCString (Some str) :: its)) with (str ++ texts snprintf_g its).
  rewrite size_of_app. lia.
Qed.
Lemma fits_char n ch its : fits n its → fits (1 + n) (LChar ch :: its).
Proof. intros [H1 H2]. split; [by constructor|]. change (texts snprintf_g (LChar ch :: its)) with (ch :: texts snprintf_g its). rewrite size_of_cons. lia. Qed.

Lemma fits_integer n x its : - 2 ^ 63 ≤ x < 2 ^ 64 → fits n its → fits (21 + n) (LInteger x :: its).
Proof.
  intros Hx [H1 H2]. split; [by constructor|]. destruct (convert_spec x) as (t & Ht & Hs & _); [lia|].
  change (texts snprintf_g (LInteger x :: its)) with (default [] (convert x) ++ texts snprintf_g its). rewrite Ht, size_of_app. change (default [] (Some t)) with t. lia.
Qed.

Lemma fits_nil : fits 0 [].
Proof. split; [constructor|done]. Qed.

Lemma fits_line name x : - 2 ^ 63 ≤ x < 2 ^ 64 → fits (size_of (lit name) + 22) (line name x).
Proof. intros Hx. unfold line. apply (fits_text 22). apply (fits_integer 1); [done|]. apply (fits_char 0), fits_nil. Qed.

Lemma fits_numbers l : Forall (λ x, 0 ≤ x < 2 ^ 63) l → fits (22 * Z.of_nat (length l)) (numbers l).
Proof.
  induction 1 as [|x l Hx Hl IH]; [apply fits_nil|]. change (numbers (x :: l)) with ([LChar x20; LInteger x] ++ numbers l).
  replace (22 * Z.of_nat (length (x :: l))) with (22 + 22 * Z.of_nat (length l)) by (cbn [length]; lia). apply fits_app; [|done].
  apply (fits_char 21), (fits_integer 0); [lia|apply fits_nil].
Qed.

Lemma fits_le n m its : fits n its → n ≤ m → fits m its.
Proof. intros [H1 H2] ?. split; [done|lia]. Qed.
End Text.

(** What the buffers of a state hold. *)
Lemma stat_buffers c st : stat_ok c st → events_ok (timed (c_responses c)) →
  ∀ b, b = requests_ st ∨ b = latencies_ st →
  (length (contents b) ≤ 60)%nat ∧ Forall (λ x, 0 ≤ x < 2 ^ 63) (contents b) ∧ ∃ s, sum_loop 0 (contents b) = Ok s ∧ 0 ≤ s < 2 ^ 63.
Proof.
  intros [Hs _ _ _ _ _ _ _] [He Hc Hsum] b Hb. unfold seconds_ok, seconds_at in Hs. pose proof (span_spec (timed (c_responses c))) as Hf.
  destruct (span _) as [[f l]|].
  - destruct Hs as (_ & H1 & H2). destruct Hf as [_ Hm _ _ _].
    destruct Hb as [-> | ->]; [apply (holds_sum _ _ _ _ _ H1 Hm)|apply (holds_sum _ _ _ _ _ H2 Hm)]; try done; intros e ?%He; lia.
  - destruct Hs as (_ & _ & H1 & _ & H2). assert (contents b = []) as -> by (destruct Hb as [-> | ->]; done).
    split_and!; [cbn; lia|constructor|by exists 0].
Qed.

Lemma quot_bounds a n : 0 ≤ a < 2 ^ 63 → 0 ≤ n → - 2 ^ 63 ≤ (if n =? 0 then 0 else Z.quot a n) < 2 ^ 64.
Proof.
  intros Ha Hn. destruct (Z.eqb_spec n 0); [lia|]. pose proof (Z.quot_pos a n). pose proof (Z.quot_le_upper_bound a n a). nia.
Qed.

(** Every line of the report has its room. *)
Lemma report_items_spec snprintf_g c st queueSize : stat_ok c st → events_ok (timed (c_responses c)) → 0 ≤ queueSize < 2 ^ 63 →
  0 ≤ c_requests c < 2 ^ 63 → 0 ≤ c_bad c < 2 ^ 63 → 0 ≤ c_dropped c < 2 ^ 63 → size_of (c_responses c) < 2 ^ 63 → 0 ≤ lastSecond_ st < 2 ^ 63 →
  ∃ items, report_items queueSize st = Ok items ∧ fits snprintf_g 3600 items.
Proof.
  intros Hst Hev Hq H1 H2 H3 H4 H5. destruct (stat_buffers c st Hst Hev _ (or_introl eq_refl)) as (L1 & F1 & requests & E1 & R1).
  destruct (stat_buffers c st Hst Hev _ (or_intror eq_refl)) as (L2 & F2 & latency & E2 & R2).
  destruct Hst as [_ S2 S3 S4 S5 S6 S7 S8]. unfold report_items. rewrite E1, E2. repeat run_ok. eexists. split; [reflexivity|].
  pose proof (filter_size_le (λ r : event * bool, r.2 = true) (c_responses c)) as G1. pose proof (filter_size_le (λ r : event * bool, r.1.2 < 0) (c_responses c)) as G2.
  pose proof (size_of_nonneg (c_responses c)) as G3. pose proof (size_of_nonneg (filter (λ r : event * bool, r.2 = true) (c_responses c))) as G4.
  assert (0 ≤ totalLatency_ st < 2 ^ 63) as G5.
  { rewrite S7. destruct (tally_bounds (λ e, e) (timed (c_responses c)) 0) as [? ?]; [intros e He; apply (eo_event _ Hev e He)|]. pose proof (eo_sum _ Hev). lia. }
  assert (fits snprintf_g 40 (if 0 <? badLatency_ st then line "bad_latency" (badLatency_ st) else [])) as Hbad.
  { destruct (0 <? badLatency_ st) eqn:Eb; [|apply (fits_le _ 0); [apply fits_nil|lia]]. apply Z.ltb_lt in Eb.
    eapply fits_le; [apply fits_line; lia|]. by vm_compute. }
  eapply fits_le.
  - repeat first [exact Hbad|apply fits_line|by apply fits_numbers|apply fits_app|apply fits_text|apply fits_char]; try lia.
    + apply quot_bounds; lia.
    + apply quot_bounds; lia.
  - repeat match goal with |- context [size_of (lit ?s)] => let v := eval vm_compute in (size_of (lit s)) in change (size_of (lit s)) with v end. lia.
Qed.

Lemma stat_last c st : stat_ok c st → events_ok (timed (c_responses c)) → 0 ≤ lastSecond_ st < 2 ^ 63.
Proof.
  intros [Hs _ _ _ _ _ _ _] [He _ _]. unfold seconds_ok, seconds_at in Hs. pose proof (span_spec (timed (c_responses c))) as Hf.
  destruct (span _) as [[f l]|]; [|destruct Hs as [-> _]; lia]. destruct Hs as [-> _], Hf as [_ _ _ _ (e & Hin & <-)]. specialize (He e Hin). lia.
Qed.

(** C33. The statistics of the Sudoku server are well-formed.  The responses are recorded at the second 1 of 1970 or
    later (one in the second 0 fails, [epoch_response_fails]) and before the microsecond [2^62], to requests received between 1970 and then, and there are not more
    of them, nor more time, than 64 bits can count.  After any sequence of such operations no operation has failed, and the state is the one that the comments of the class promise: the two buffers have the same size; if
    there was a response since the last reset, then the seconds that are kept end with
    the last one that had a response, and are at most the last minute up to it; and for each second that is kept the buffers hold
    the number of its responses that did not take a negative time - only those count here, as the code leaves the
    others out - and their time together.  The totals are right, too. *)
Theorem stat_wellformed ops : ops_ok ops →
  exec_ops SudokuStat_new ops ⇓ λ st,
    let evs := timed (c_responses (counts ops)) in
    stat_ok (counts ops) st ∧ length (contents (requests_ st)) = length (contents (latencies_ st)) ∧
    match span evs with
    | None => evs = [] ∧ lastSecond_ st = 0 ∧ contents (requests_ st) = []
    | Some (f, l) => lastSecond_ st = l ∧ size_of (contents (requests_ st)) = l - f + 1 ∧ span_facts evs f l ∧
        ∀ s, f ≤ s ≤ l → contents (requests_ st) !! Z.to_nat (s - f) = Some (size_of (filter (λ e, e.1 = s) evs)) ∧
                          contents (latencies_ st) !! Z.to_nat (s - f) = Some (total (λ e, e) (filter (λ e, e.1 = s) evs))
    end.
Proof.
  intros Hok. eapply yields_mono; [by apply exec_ops_spec|]. intros st Hst evs. split; [done|]. pose proof (so_seconds _ _ Hst) as Hs.
  destruct (seconds_ok_lengths _ _ _ _ Hs) as [Hl%Nat.eqb_eq _]. split; [done|]. fold evs in Hs. unfold seconds_ok, seconds_at in Hs.
  pose proof (span_spec evs) as Hf. destruct (span evs) as [[f l]|]; [|by destruct Hs as (? & _ & ? & _)].
  destruct Hs as (Hlast & [_ H1] & [_ H2]). split_and!; [done| |done|].
  - rewrite H1. unfold size_of. rewrite row_length. destruct Hf. lia.
  - intros s Hr. rewrite H1, H2, !row_lookup by done. rewrite <- tally_count, <- tally_total. done.
Qed.

(** The report of the statistics is complete: after any such sequence of operations [report] returns, and its
    text has all of its lines, with all numbers: the array of 4000 bytes of its stream is large
    enough for them, whatever they are. *)
Theorem stat_report_complete snprintf_g data ops queueSize :
  (∀ v, size_of (snprintf_g v) ≤ 31) → size_of data = kSmallBuffer → 0 ≤ queueSize < 2 ^ 63 → ops_ok ops →
  exec_ops SudokuStat_new ops ⇓ λ st, ∃ items, report_items queueSize st = Ok items ∧
    report snprintf_g data queueSize st = Ok (texts snprintf_g items).
Proof.
  intros Hg Hd Hq Hok. eapply yields_mono; [by apply exec_ops_spec|]. intros st Hst. pose proof (counts_events_ok _ Hok) as Hev.
  destruct (counts_bounds ops (oo_each _ Hok)) as [H1 H2 H3 H4 _ _ _]. pose proof (oo_number _ Hok). pose proof (stat_last _ _ Hst Hev).
  destruct (report_items_spec snprintf_g _ _ queueSize Hst Hev Hq) as (items & Hi & Hits & Hsz); [lia..|]. exists items. split; [done|].
  unfold report. rewrite Hi. run_ok. destruct (proj1 (yields_Ok _ _) (shift_all_spec snprintf_g kSmallBuffer Hg items (FixedBuffer_new data)
    ltac:(split; cbn; unfold kSmallBuffer in *; lia) Hits)) as (b & -> & _ & Hb). run_ok. f_equal. rewrite Hb.
  rewrite emit_all; [done|]. change (toString (FixedBuffer_new data)) with (@nil byte). cbn [app]. unfold kSmallBuffer, kMaxNumericSize. lia.
Qed.
End Runs.

Definition sample_ops : list StatOp :=
  [ORequest; OResponse 100000000 99999000 true; ORequest; OBadRequest; OResponse 102500000 102400000 false; OResponse 101500000 101499000 true].

Lemma sample_ops_ok : ops_ok sample_ops.
Proof. split; [repeat constructor; cbn; lia|by vm_compute|by vm_compute]. Qed.

(** Responses in three seconds, one of them later than the next. *)
Lemma stat_wellformed_witness :
  exec_ops (T := Ring Z) SudokuStat_new sample_ops ⇓ λ st,
    stat_ok (counts sample_ops) st ∧ length (contents (requests_ st)) = length (contents (latencies_ st)).
Proof.
  eapply yields_mono; [apply (stat_wellformed sample_ops), sample_ops_ok|]. intros st (H1 & H2 & _). by split.
Defined.

Lemma stat_report_complete_witness :
  exec_ops (T := Ring Z) SudokuStat_new sample_ops ⇓ λ st, ∃ items, report_items 0 st = Ok items ∧
    report (λ _, []) (replicate 4000 x00) 0 st = Ok (texts (λ _, []) items).
Proof.
  apply (stat_report_complete (λ _, []) (replicate 4000 x00) sample_ops 0);
    [intros _; change (0 ≤ 31); lia|unfold size_of; by rewrite length_replicate|lia|apply sample_ops_ok].
Defined.

(** What the buffers hold then. *)
Example stat_example : (λ st, (lastSecond_ st, contents (requests_ st), contents (latencies_ st))) <$> 
  match exec_ops (T := Ring Z) SudokuStat_new sample_ops with Ok st => Some st | _ => None end = Some (102, [1; 1; 1], [1000; 1000; 100000]).
Proof. by vm_compute. Qed.

(** ** Where the code does something else *)

(** A reset does not reset the number of requests that were dropped. *)
Lemma reset_keeps_dropped {T} `{CircularBuffer Z T} (st : SudokuStat T) : droppedRequests_ (reset st) = droppedRequests_ st.
Proof. done. Qed.

(** The report has no space between the name and the number of the times that are negative. *)
Lemma bad_latency_text (n : Z) g : 0 < n < 2 ^ 63 → texts g (line "bad_latency" n) = lit "bad_latency" ++ decimal n ++ [x0a].
Proof. intros Hn. unfold texts, line. cbn [fmap list_fmap item_text concat]. by rewrite convert_decimal by lia. Qed.

(** A response at the second 0 reads the back of a buffer that is empty. *)
Lemma epoch_response_fails : recordResponse (T := Ring Z) 0 0 true SudokuStat_new = Fault Undefined.
Proof. by vm_compute. Qed.
