(* ===== verification/Memcached.v ===== *)
(** * A memcached server: items and the store
      (examples/memcached/server/Item.h, Item.cc, MemcacheServer.h, MemcacheServer.cc)

    An [Item] owns one block of memory that holds its key and its value with the
    CR LF at its end.  The store is an array of hash sets of items, each with a
    lock of its own; [boost::hash_range] is a parameter.  An [unordered_set]
    whose equality compares keys is a map from keys to items. *)
From Stdlib Require Import Strings.Byte.
From stdpp Require Import base numbers list strings gmap.
From S2P Require Import Prelude Buffer LogStream Date.
Open Scope Z_scope.
Open Scope muduo_scope.

(** ** Item *)

Inductive UpdatePolicy := kInvalid | kSet | kAdd | kReplace | kAppend | kPrepend | kCas.
#[export] Instance UpdatePolicy_eq_dec : EqDecision UpdatePolicy.
Proof. solve_decision. Defined.

(** [data_]: the bytes written so far to the block of [capacity] bytes. *)
Record Item := mkItem {
  keylen_ : Z;
  flags_ : Z;
  rel_exptime_ : Z;
  valuelen_ : Z;
  receivedBytes_ : Z;
  cas_ : Z;
  hash_ : Z;
  data_ : list byte;
  capacity : Z
}.

Definition totalLen (i : Item) : Z := keylen_ i + valuelen_ i.
Definition key (i : Item) : list byte := slice (data_ i) 0 (keylen_ i).
(** [len] bytes from [value()]. *)
Definition value (i : Item) (len : Z) : list byte := slice (data_ i) (keylen_ i) (keylen_ i + len).
Definition neededBytes (i : Item) : Z := u64 (totalLen i - receivedBytes_ i).
Definition setCas (casArg : Z) (i : Item) : Item :=
  mkItem (keylen_ i) (flags_ i) (rel_exptime_ i) (valuelen_ i) (receivedBytes_ i) casArg (hash_ i) (data_ i) (capacity i).

Definition byte_at (l : list byte) (i : Z) : option byte := if 0 <=? i then l !! Z.to_nat i else None.

Definition endsWithCRLF (i : Item) : bool :=
  (receivedBytes_ i =? totalLen i) && bool_decide (byte_at (data_ i) (totalLen i - 2) = Some x0d) &&
  bool_decide (byte_at (data_ i) (totalLen i - 1) = Some x0a).

(** [memcpy] to [data_ + receivedBytes_]. *)
Definition Item_append (data : list byte) (i : Item) : outcome Item :=
  _ ← assertb 35 (size_of data <=? neededBytes i);
  if capacity i <? receivedBytes_ i + size_of data then Fault OutOfRange
  else
    let received := receivedBytes_ i + size_of data in
    _ ← assertb 38 (received <=? totalLen i);
    mret (mkItem (keylen_ i) (flags_ i) (rel_exptime_ i) (valuelen_ i) received (cas_ i) (hash_ i)
            (take (Z.to_nat (receivedBytes_ i)) (data_ i) ++ data ++ drop (Z.to_nat received) (data_ i)) (capacity i)).

(** The text between the key and the value; [SIZE] bytes of stack are its buffer. *)
Definition Item_head (needCas : bool) (i : Item) : outcome (list byte) :=
  len ← isub (valuelen_ i) 2;
  buf ← shift_all (λ _, []) (FixedBuffer_new (replicate (Z.to_nat kSmallBuffer) x00))
    [LChar x20; LInteger (flags_ i); LChar x20; LInteger len];
  buf ← (if needCas : bool then shift_all (λ _, []) buf [LChar x20; LInteger (cas_ i)] else mret buf);
  buf ← shift_all (λ _, []) buf [LCString (Some kCRLF)];
  mret (toString buf).

Definition Item_output (needCas : bool) (i : Item) (out : list byte) : outcome (list byte) :=
  head ← Item_head needCas i;
  mret (out ++ lit "VALUE " ++ key i ++ head ++ value i (valuelen_ i)).

Section Hash.
Context (hash : list byte → Z).

Definition makeItem (keyArg : list byte) (flagsArg exptimeArg valuelen casArg : Z) : outcome Item :=
  total ← iadd (i32 (size_of keyArg)) valuelen;
  let i := mkItem (i32 (size_of keyArg)) flagsArg exptimeArg valuelen 0 casArg (hash keyArg) [] (u64 total) in
  _ ← assertb 28 (2 <=? valuelen_ i);
  _ ← assertb 29 (receivedBytes_ i <? totalLen i);
  Item_append keyArg i.

Definition resetKey (k : list byte) (i : Item) : outcome Item :=
  _ ← assertb 58 (size_of k <=? 250);
  i ← Item_append k (mkItem (i32 (size_of k)) (flags_ i) (rel_exptime_ i) (valuelen_ i) 0 (cas_ i) (hash_ i) (data_ i) (capacity i));
  mret (mkItem (keylen_ i) (flags_ i) (rel_exptime_ i) (valuelen_ i) (receivedBytes_ i) (cas_ i) (hash k) (data_ i) (capacity i)).

(** ** The store *)

Abbreviation ItemMap := (gmap (list byte) Item).
Definition kShards : Z := 4096.

(** [shards_], empty ones left out, and the global counter. *)
Record Store := mkStore { shards_ : gmap Z ItemMap; g_cas : Z }.
Definition Store_new : Store := mkStore ∅ 0.

Definition shard_of (i : Item) : Z := hash_ i mod kShards.
Definition items_of (n : Z) (s : Store) : ItemMap := default ∅ (shards_ s !! n).
Definition set_items (n : Z) (m : ItemMap) (s : Store) : Store := mkStore (<[ n := m ]> (shards_ s)) (g_cas s).

(** [g_cas.incrementAndGet()], as the [uint64_t] it is passed as. *)
Definition incrementAndGet (s : Store) : outcome (Z * Store) :=
  if g_cas s =? 2 ^ 63 - 1 then Fault Undefined else mret (u64 (g_cas s + 1), mkStore (shards_ s) (g_cas s + 1)).

Definition find (i : Item) (s : Store) : option Item := items_of (shard_of i) s !! key i.
Definition insert (i : Item) (s : Store) : Store := set_items (shard_of i) (<[ key i := i ]> (items_of (shard_of i) s)) s.
Definition erase (i : Item) (s : Store) : Store := set_items (shard_of i) (delete (key i) (items_of (shard_of i) s)) s.

(** The item that [kAppend] and [kPrepend] make. *)
Definition joinItems (policy : UpdatePolicy) (item oldItem : Item) (cas : Z) : outcome Item :=
  let newLen := i32 (valuelen_ item + valuelen_ oldItem - 2) in
  newItem ← makeItem (key item) (flags_ oldItem) (rel_exptime_ oldItem) newLen cas;
  newItem ← (if bool_decide (policy = kAppend) then
      newItem ← Item_append (value oldItem (valuelen_ oldItem - 2)) newItem;
      Item_append (value item (valuelen_ item)) newItem
    else
      newItem ← Item_append (value item (valuelen_ item - 2)) newItem;
      Item_append (value oldItem (valuelen_ oldItem)) newItem);
  _ ← assertb 109 (neededBytes newItem =? 0);
  _ ← assertb 110 (endsWithCRLF newItem);
  mret newItem.

(** Whether the item was stored, whether there was one with its key. *)
Definition storeItem (item : Item) (policy : UpdatePolicy) (s : Store) : outcome (bool * bool * Store) :=
  _ ← assertb 46 (neededBytes item =? 0);
  let it := find item s in
  let exist := bool_decide (is_Some it) in
  match policy with
  | kSet =>
    '(c, s) ← incrementAndGet s;
    let item := setCas c item in
    let s := if exist then erase item s else s in
    mret (true, exist, insert item s)
  | kAdd =>
    if exist then mret (false, exist, s)
    else '(c, s) ← incrementAndGet s; mret (true, exist, insert (setCas c item) s)
  | kReplace =>
    if exist then
      '(c, s) ← incrementAndGet s;
      mret (true, exist, insert (setCas c item) (erase item s))
    else mret (false, exist, s)
  | kAppend | kPrepend =>
    match it with
    | Some oldItem =>
      '(c, s) ← incrementAndGet s;
      newItem ← joinItems policy item oldItem c;
      mret (true, exist, insert newItem (erase oldItem s))
    | None => mret (false, exist, s)
    end
  | kCas =>
    match it with
    | Some oldItem =>
      if cas_ oldItem =? cas_ item then
        '(c, s) ← incrementAndGet s;
        mret (true, exist, insert (setCas c item) (erase item s))
      else mret (false, exist, s)
    | None => mret (false, exist, s)
    end
  | kInvalid => Fault (AssertFailure 134)
  end.

Definition getItem (needle : Item) (s : Store) : option Item := find needle s.

Definition deleteItem (needle : Item) (s : Store) : bool * Store :=
  (bool_decide (is_Some (find needle s)), erase needle s).
End Hash.

(** ** What the store promises *)

(** An entry: the value without its CR LF. *)
Record Entry := mkEntry { e_flags : Z; e_exptime : Z; e_value : list byte; e_cas : Z }.
Definition with_cas (c : Z) (e : Entry) : Entry := mkEntry (e_flags e) (e_exptime e) (e_value e) c.

(** A table of entries and the number of updates so far. *)
Record Table := mkTable { entries : gmap (list byte) Entry; updates : Z }.
Definition Table_new : Table := mkTable ∅ 0.

(** Store [e] under [k] with a new number. *)
Definition put (k : list byte) (e : Entry) (t : Table) : Table :=
  mkTable (<[ k := with_cas (updates t + 1) e ]> (entries t)) (updates t + 1).

Definition update (p : UpdatePolicy) (k : list byte) (e : Entry) (t : Table) : bool * bool * Table :=
  match p, entries t !! k with
  | kSet, old => (true, bool_decide (is_Some old), put k e t)
  | kAdd, None => (true, false, put k e t)
  | kReplace, Some _ => (true, true, put k e t)
  | kAppend, Some old => (true, true, put k (mkEntry (e_flags old) (e_exptime old) (e_value old ++ e_value e) 0) t)
  | kPrepend, Some old => (true, true, put k (mkEntry (e_flags old) (e_exptime old) (e_value e ++ e_value old) 0) t)
  | kCas, Some old => if e_cas old =? e_cas e then (true, true, put k e t) else (false, true, t)
  | _, old => (false, bool_decide (is_Some old), t)
  end.

Definition remove (k : list byte) (t : Table) : bool * Table :=
  (bool_decide (is_Some (entries t !! k)), mkTable (delete k (entries t)) (updates t)).

Section Refinement.
Context (hash : list byte → Z).

(** The complete item of an entry. *)
Definition item_of (k : list byte) (e : Entry) : Item :=
  let bytes := k ++ e_value e ++ kCRLF in
  mkItem (size_of k) (e_flags e) (e_exptime e) (size_of (e_value e) + 2) (size_of bytes) (e_cas e) (hash k) bytes (size_of bytes).

Definition key_ok (k : list byte) : Prop := size_of k ≤ 250.
(** Values that can be counted with an [int], with room for a key. *)
Definition entry_ok (e : Entry) : Prop := size_of (e_value e) ≤ 2 ^ 30.

Lemma size_of_kCRLF : size_of kCRLF = 2.
Proof. done. Qed.

Lemma slice_app_middle {A} (a b c : list A) : slice (a ++ b ++ c) (size_of a) (size_of a + size_of b) = b.
Proof.
  unfold slice, size_of. rewrite Nat2Z.id, Z.add_simpl_l, Nat2Z.id, drop_app_length. apply take_app_length.
Qed.

Lemma item_key k e : key (item_of k e) = k.
Proof. apply (slice_app_middle [] k). Qed.

Lemma item_value k e : value (item_of k e) (size_of (e_value e)) = e_value e.
Proof. apply (slice_app_middle k (e_value e) kCRLF). Qed.

Lemma item_value_crlf k e : value (item_of k e) (valuelen_ (item_of k e)) = e_value e ++ kCRLF.
Proof.
  unfold value. cbn [data_ keylen_ valuelen_ item_of].
  replace (size_of (e_value e) + 2) with (size_of (e_value e ++ kCRLF)) by (rewrite size_of_app; done).
  rewrite <- (app_nil_r (e_value e ++ kCRLF)) at 1. apply (slice_app_middle k (e_value e ++ kCRLF) []).
Qed.

Lemma item_needs_nothing k e : key_ok k → entry_ok e → neededBytes (item_of k e) = 0.
Proof.
  intros Hk He. unfold neededBytes, totalLen. cbn. rewrite !size_of_app, size_of_kCRLF.
  replace (_ - _) with 0 by lia. done.
Qed.

Lemma item_ends k e : endsWithCRLF (item_of k e) = true.
Proof.
  unfold endsWithCRLF, totalLen, byte_at. cbn [receivedBytes_ keylen_ valuelen_ data_ item_of].
  rewrite !size_of_app, size_of_kCRLF. pose proof (size_of_nonneg k). pose proof (size_of_nonneg (e_value e)).
  rewrite (proj2 (Z.eqb_eq _ _)) by lia. rewrite !(proj2 (Z.leb_le 0 _)) by lia.
  replace (size_of k + (size_of (e_value e) + 2) - 2) with (size_of (k ++ e_value e) + 0) by (rewrite size_of_app; lia).
  replace (size_of k + (size_of (e_value e) + 2) - 1) with (size_of (k ++ e_value e) + 1) by (rewrite size_of_app; lia).
  rewrite app_assoc. unfold size_of. rewrite !Z2Nat.inj_add, !Nat2Z.id by lia.
  assert (∀ j, ((k ++ e_value e) ++ kCRLF) !! (length (k ++ e_value e) + j)%nat = kCRLF !! j) as Hl.
  { intros j. rewrite lookup_app_r by lia. f_equal. lia. }
  by rewrite !Hl.
Qed.

(** An item on its way: the key, and the part [got] of [len] bytes of value. *)
Definition item_part (k : list byte) (flags exptime len cas : Z) (got : list byte) : Item :=
  mkItem (size_of k) flags exptime len (size_of (k ++ got)) cas (hash k) (k ++ got) (size_of k + len).

Lemma item_part_full k e : item_of k e =
  item_part k (e_flags e) (e_exptime e) (size_of (e_value e) + 2) (e_cas e) (e_value e ++ kCRLF).
Proof. unfold item_of, item_part. cbv zeta. f_equal. rewrite !size_of_app, size_of_kCRLF. lia. Qed.

Lemma part_needs k flags exptime len cas got :
  key_ok k → size_of got ≤ len < 2 ^ 31 → neededBytes (item_part k flags exptime len cas got) = len - size_of got.
Proof.
  intros Hk Hl. unfold neededBytes, totalLen. cbn. rewrite size_of_app.
  pose proof (size_of_nonneg got). rewrite to_unsigned_small by lia. lia.
Qed.

Lemma part_append k flags exptime len cas got data :
  key_ok k → size_of got + size_of data ≤ len < 2 ^ 31 →
  Item_append data (item_part k flags exptime len cas got) = Ok (item_part k flags exptime len cas (got ++ data)).
Proof.
  intros Hk Hl. pose proof (size_of_nonneg data). unfold Item_append. rewrite part_needs by (done || lia).
  rewrite (proj2 (Z.leb_le (size_of data) _)) by lia. run_ok. cbn [capacity receivedBytes_ item_part].
  rewrite (proj2 (Z.ltb_ge _ _)) by (rewrite size_of_app; lia).
  unfold totalLen. cbn [keylen_ valuelen_ item_part].
  rewrite (proj2 (Z.leb_le _ _)) by (rewrite size_of_app; lia). run_ok.
  unfold item_part. cbn [flags_ rel_exptime_ cas_ hash_ data_]. rewrite take_ge by (unfold size_of; lia).
  rewrite drop_ge by (unfold size_of in *; lia). rewrite app_nil_r, app_assoc, <- size_of_app. done.
Qed.

Lemma makeItem_part k flags exptime len cas :
  key_ok k → 2 ≤ len < 2 ^ 31 - 250 → makeItem hash k flags exptime len cas = Ok (item_part k flags exptime len cas []).
Proof.
  intros Hk Hl. unfold key_ok in Hk. pose proof (size_of_nonneg k). unfold makeItem, iadd.
  assert (i32 (size_of k) = size_of k) as -> by (apply to_signed_small; [lia|unfold in_signed; cbn; lia]).
  rewrite checked_bind by lia. rewrite to_unsigned_small by lia. cbn [valuelen_ receivedBytes_].
  rewrite (proj2 (Z.leb_le 2 len)) by lia. unfold totalLen. cbn [keylen_ valuelen_].
  rewrite (proj2 (Z.ltb_lt 0 _)) by lia. do 2 run_ok.
  unfold Item_append, neededBytes, totalLen. cbn [keylen_ valuelen_ receivedBytes_ capacity].
  rewrite to_unsigned_small by lia. rewrite (proj2 (Z.leb_le (size_of k) _)) by lia. run_ok.
  rewrite (proj2 (Z.ltb_ge _ _)) by lia. rewrite (proj2 (Z.leb_le _ _)) by lia. run_ok.
  unfold item_part. cbn [flags_ rel_exptime_ cas_ hash_ data_]. rewrite drop_nil, !app_nil_r. done.
Qed.

(** The needle: whatever key it had, it stands for [k] now. *)
Definition needle_ok (i : Item) : Prop := valuelen_ i = 2 ∧ capacity i = 252.

Lemma resetKey_spec k i :
  key_ok k → needle_ok i → ∃ i', resetKey hash k i = Ok i' ∧ needle_ok i' ∧ key i' = k ∧ hash_ i' = hash k.
Proof.
  intros Hk [Hv Hc]. unfold key_ok in Hk. pose proof (size_of_nonneg k). unfold resetKey.
  rewrite (proj2 (Z.leb_le _ 250)) by done. run_ok.
  assert (i32 (size_of k) = size_of k) as -> by (apply to_signed_small; [lia|unfold in_signed; cbn; lia]).
  unfold Item_append, neededBytes, totalLen. cbn [keylen_ valuelen_ receivedBytes_ capacity flags_ rel_exptime_ cas_ hash_ data_].
  rewrite Hv, Hc. rewrite to_unsigned_small by lia. rewrite (proj2 (Z.leb_le (size_of k) _)) by lia. run_ok.
  rewrite (proj2 (Z.ltb_ge _ _)) by lia. rewrite (proj2 (Z.leb_le _ _)) by lia. do 2 run_ok.
  eexists. split; [done|]. split_and!; try done. cbn. apply (slice_app_middle [] k).
Qed.

Lemma bind_bind {A B C} (m : outcome A) (f : A → outcome B) (g : B → outcome C) :
  (m ≫= f) ≫= g = m ≫= λ x, f x ≫= g.
Proof. by destruct m. Qed.

(** Joining the values of two items. *)
Lemma joinItems_spec p k e old c :
  key_ok k → entry_ok e → size_of (e_value e) ≤ 2 ^ 20 → entry_ok old → p = kAppend ∨ p = kPrepend →
  joinItems hash p (item_of k e) (item_of k old) c =
    Ok (item_of k (mkEntry (e_flags old) (e_exptime old)
                     (if bool_decide (p = kAppend) then e_value old ++ e_value e else e_value e ++ e_value old) c)).
Proof.
  unfold entry_ok. intros Hk _ He Ho Hp. unfold joinItems. rewrite item_key.
  pose proof (size_of_nonneg (e_value e)). pose proof (size_of_nonneg (e_value old)).
  assert (∀ x y, 0 ≤ size_of x → size_of x + size_of y ≤ 2 ^ 30 + 2 ^ 20 →
    (newItem ← Item_append x (item_part k (e_flags old) (e_exptime old) (size_of (x ++ y) + 2) c []);
     newItem ← Item_append (y ++ kCRLF) newItem;
     _ ← assertb 109 (neededBytes newItem =? 0); _ ← assertb 110 (endsWithCRLF newItem); mret newItem) =
    Ok (item_of k (mkEntry (e_flags old) (e_exptime old) (x ++ y) c))) as Hjoin.
  { intros x y Hx Hxy. pose proof (size_of_nonneg y). rewrite part_append by (done || (rewrite ?size_of_app, ?size_of_nil; lia)). run_ok.
    rewrite part_append by (done || (rewrite ?size_of_app, ?size_of_nil, ?size_of_kCRLF; lia)). run_ok.
    cbn [app]. set (e' := mkEntry (e_flags old) (e_exptime old) (x ++ y) c).
    assert (item_part k (e_flags old) (e_exptime old) (size_of (x ++ y) + 2) c (x ++ y ++ kCRLF) = item_of k e') as ->.
    { rewrite item_part_full. cbn. by rewrite app_assoc. }
    rewrite item_ends. unfold neededBytes, totalLen. cbn [keylen_ valuelen_ receivedBytes_ item_of e_value e'].
    rewrite !size_of_app, size_of_kCRLF. replace (_ - _) with 0 by lia. change (u64 0 =? 0) with true. do 2 run_ok. done. }
  assert (i32 (valuelen_ (item_of k e) + valuelen_ (item_of k old) - 2) = size_of (e_value e) + size_of (e_value old) + 2) as ->.
  { cbn [valuelen_ item_of]. rewrite to_signed_small; [lia|lia|unfold in_signed; cbn; lia]. }
  rewrite makeItem_part by (done || lia). run_ok. rewrite !item_value_crlf.
  assert (∀ e', value (item_of k e') (valuelen_ (item_of k e') - 2) = e_value e') as Hv.
  { intros e'. cbn [valuelen_ item_of]. replace (_ + 2 - 2) with (size_of (e_value e')) by lia. apply item_value. }
  rewrite !Hv. cbn [flags_ rel_exptime_ item_of]. destruct Hp as [-> | ->].
  - change (bool_decide (kAppend = kAppend)) with true. cbv iota. rewrite bind_bind.
    rewrite <- Hjoin by lia. f_equal. rewrite size_of_app. do 2 f_equal. lia.
  - change (bool_decide (kPrepend = kAppend)) with false. cbv iota. rewrite bind_bind.
    rewrite <- Hjoin by lia. rewrite size_of_app. done.
Qed.

(** ** The sharded store is a table *)

Record represents (t : Table) (s : Store) : Prop := {
  rep_items k : items_of (hash k mod kShards) s !! k = item_of k <$> entries t !! k;
  rep_cas : g_cas s = updates t;
  rep_updates : 0 ≤ updates t;
  rep_ok k e : entries t !! k = Some e → key_ok k ∧ entry_ok e
}.

Lemma represents_new : represents Table_new Store_new.
Proof. split; try done. Qed.

Lemma find_represents t s i k :
  represents t s → key i = k → hash_ i = hash k → find i s = item_of k <$> entries t !! k.
Proof. intros Hs <- Hh. unfold find, shard_of. rewrite Hh. apply Hs. Qed.

Lemma items_set n m s n' : items_of n' (set_items n m s) = if decide (n' = n) then m else items_of n' s.
Proof.
  unfold items_of, set_items. cbn. destruct (decide (n' = n)) as [->|].
  - by rewrite lookup_insert_eq.
  - by rewrite lookup_insert_ne.
Qed.

Lemma insert_represents t s k e u :
  represents t s → key_ok k → entry_ok e → g_cas s = u → 0 ≤ u →
  represents (mkTable (<[ k := e ]> (entries t)) u) (insert (item_of k e) s).
Proof.
  intros [Hi _ _ Hok] Hk He Hu Hu0. split; [|done|done|].
  - intros k'. unfold insert. rewrite item_key, items_set. cbn [entries].
    change (shard_of (item_of k e)) with (hash k mod kShards). destruct (decide (k' = k)) as [->|Hne].
    + rewrite decide_True, !lookup_insert_eq by done. done.
    + rewrite (lookup_insert_ne (entries t)) by done. rewrite <- Hi.
      destruct (decide _) as [->|]; [|done]. by rewrite lookup_insert_ne.
  - intros k' e'. cbn. rewrite lookup_insert_Some. intros [[<- <-]|[_ ?]]; [done|by apply (Hok k')].
Qed.

Lemma erase_represents t s i k :
  represents t s → key i = k → hash_ i = hash k → represents (mkTable (delete k (entries t)) (updates t)) (erase i s).
Proof.
  intros [Hi Hc Hu Hok] <- Hh. split; [|done|done|].
  - intros k'. unfold erase, shard_of. rewrite Hh, items_set. cbn [entries]. destruct (decide (k' = key i)) as [->|Hne].
    + rewrite decide_True, !lookup_delete_eq by done. done.
    + rewrite (lookup_delete_ne (entries t)) by done. rewrite <- Hi.
      destruct (decide _) as [->|]; [|done]. by rewrite lookup_delete_ne.
  - intros k' e'. cbn. rewrite lookup_delete_Some. intros [_ ?]. by apply (Hok k').
Qed.

(** The store with the next number taken. *)
Definition counted_on (n : Z) (s : Store) : Store := mkStore (shards_ s) n.

Lemma incrementAndGet_ok t s :
  represents t s → updates t + 1 < 2 ^ 63 → incrementAndGet s = Ok (updates t + 1, counted_on (updates t + 1) s).
Proof.
  intros Hs Hu. unfold incrementAndGet. rewrite (rep_cas _ _ Hs). pose proof (rep_updates _ _ Hs).
  rewrite (proj2 (Z.eqb_neq _ _)), to_unsigned_small by lia. done.
Qed.

(** Storing with a new number, with or without taking the old item out first. *)
Lemma put_represents t s k e (b : bool) i :
  represents t s → key_ok k → entry_ok e → key i = k → hash_ i = hash k →
  let s1 := counted_on (updates t + 1) s in
  represents (put k e t) (insert (item_of k (with_cas (updates t + 1) e)) (if b then erase i s1 else s1)).
Proof.
  intros Hs Hk He Hi Hh s1. pose proof (rep_updates _ _ Hs).
  assert (represents (mkTable (entries t) (updates t + 1)) s1) as H1.
  { destruct Hs as [H1 H2 H3 H4]. split; [exact H1|done|cbn; lia|exact H4]. }
  unfold put. destruct b; [|apply (insert_represents _ s1 _ _ _ H1); [done|done|done|lia]].
  replace (<[ k := with_cas (updates t + 1) e ]> (entries t)) with (<[ k := with_cas (updates t + 1) e ]> (delete k (entries t)))
    by apply insert_delete_eq.
  pose proof (erase_represents _ s1 i k H1 Hi Hh) as H2.
  apply (insert_represents _ (erase i s1) k (with_cas (updates t + 1) e) (updates t + 1) H2); [done|done|done|lia].
Qed.

(** The values of an entry and of the one it is joined with, together. *)
Definition joins (p : UpdatePolicy) (k : list byte) (e : Entry) (t : Table) : Prop :=
  (p = kAppend ∨ p = kPrepend) → ∀ old, entries t !! k = Some old → size_of (e_value old) + size_of (e_value e) ≤ 2 ^ 30.

Lemma storeItem_refines t s p k e :
  represents t s → key_ok k → size_of (e_value e) ≤ 2 ^ 20 → joins p k e t → p ≠ kInvalid → updates t + 1 < 2 ^ 63 →
  let '(stored, existed, t') := update p k e t in
  ∃ s', storeItem hash (item_of k e) p s = Ok (stored, existed, s') ∧ represents t' s'.
Proof.
  intros Hs Hk Hv Hj Hp Hu. assert (entry_ok e) as He by (unfold entry_ok; lia).
  unfold storeItem. rewrite item_needs_nothing by done. change (0 =? 0) with true. run_ok.
  rewrite (find_represents t s _ k) by (done || apply item_key).
  pose proof (incrementAndGet_ok t s Hs Hu) as Hinc. set (c := updates t + 1) in *. set (s1 := counted_on c s) in *.
  assert (∀ (b : bool) e', entry_ok e' → represents (put k e' t)
    (insert (item_of k (with_cas c e')) (if b then erase (item_of k e) s1 else s1))) as Hput.
  { intros b e' He'. apply put_represents; try done. apply item_key. }
  assert (∀ e' s, erase (item_of k e') s = erase (item_of k e) s) as Hsame.
  { intros e' s'. unfold erase. by rewrite !item_key. }
  unfold update. destruct (entries t !! k) as [old|] eqn:Hold; cbn [fmap option_fmap option_map].
  - rewrite (bool_decide_true (is_Some (Some _))) by done. pose proof (rep_ok _ _ Hs _ _ Hold) as [_ Ho].
    destruct p; try done; rewrite ?Hinc; cbn [mbind outcome_bind].
    + eexists. split; [done|]. exact (Hput true e He).
    + by exists s.
    + eexists. split; [done|]. exact (Hput true e He).
    + rewrite joinItems_spec by (done || lia || by left). cbn [mbind outcome_bind]. rewrite Hsame. eexists. split; [done|].
      apply (Hput true (mkEntry (e_flags old) (e_exptime old) (e_value old ++ e_value e) 0)).
      unfold entry_ok. cbn. rewrite size_of_app. apply (Hj (or_introl eq_refl) _ Hold).
    + rewrite joinItems_spec by (done || lia || by right). cbn [mbind outcome_bind]. rewrite Hsame. eexists. split; [done|].
      apply (Hput true (mkEntry (e_flags old) (e_exptime old) (e_value e ++ e_value old) 0)).
      unfold entry_ok. cbn. rewrite size_of_app. specialize (Hj (or_intror eq_refl) _ Hold). lia.
    + cbn [cas_ item_of]. destruct (Z.eqb_spec (e_cas old) (e_cas e)); [|by exists s]. eexists. split; [done|]. exact (Hput true e He).
  - rewrite (bool_decide_false (is_Some None)) by (by intros [? ?]).
    destruct p; try done; rewrite ?Hinc; cbn [mbind outcome_bind]; try (by exists s);
      (eexists; split; [done|]; exact (Hput false e He)).
Qed.

Lemma getItem_refines t s i k :
  represents t s → key i = k → hash_ i = hash k → getItem i s = item_of k <$> entries t !! k.
Proof. apply find_represents. Qed.

Lemma deleteItem_refines t s i k :
  represents t s → key i = k → hash_ i = hash k →
  let '(b, t') := remove k t in ∃ s', deleteItem i s = (b, s') ∧ represents t' s'.
Proof.
  intros Hs Hi Hh. cbn. eexists. split; [unfold deleteItem|by apply erase_represents].
  rewrite (find_represents t s i k) by done. f_equal. apply bool_decide_ext. by rewrite fmap_is_Some.
Qed.

(** How long the values can be, so far. *)
Definition fits (n : Z) (t : Table) : Prop := ∀ k e, entries t !! k = Some e → size_of (e_value e) ≤ n.

Lemma put_fits n t k e m : fits n t → size_of (e_value e) ≤ m → n ≤ m → fits m (put k e t).
Proof.
  intros Hf He Hm k' e'. cbn. rewrite lookup_insert_Some. intros [[_ <-]|[_ He']]; [done|]. specialize (Hf _ _ He'). lia.
Qed.

Lemma update_fits n t p k e :
  fits n t → 0 ≤ n → fits (n + size_of (e_value e)) (update p k e t).2.
Proof.
  intros Hf Hn. pose proof (size_of_nonneg (e_value e)). assert (fits (n + size_of (e_value e)) t) as Hf'.
  { intros k' e' He'. specialize (Hf _ _ He'). lia. }
  unfold update. destruct (entries t !! k) as [old|] eqn:Hold.
  - specialize (Hf _ _ Hold) as Ho. destruct p; cbn [snd]; try done; try (apply (put_fits n); [done|cbn; rewrite ?size_of_app; lia|lia]).
    destruct (_ =? _); [|done]. apply (put_fits n); [done|lia|lia].
  - destruct p; cbn [snd]; try done; (apply (put_fits n); [done|lia|lia]).
Qed.

Lemma fits_joins n t p k e : fits n t → n + size_of (e_value e) ≤ 2 ^ 30 → joins p k e t.
Proof. intros Hf Hn _ old Hold. specialize (Hf _ _ Hold). lia. Qed.

Lemma update_updates p k e t : updates t ≤ updates (update p k e t).2 ≤ updates t + 1.
Proof. unfold update. destruct p, (entries t !! k); cbn; try lia. destruct (_ =? _); cbn; lia. Qed.

(** ** Any operations, in any order *)

Inductive Op := OStore (p : UpdatePolicy) (k : list byte) (e : Entry) | ODelete (k : list byte).

Definition needle (k : list byte) : Item := item_of k (mkEntry 0 0 [] 0).
Definition store_op (o : Op) (s : Store) : outcome Store :=
  match o with
  | OStore p k e => '(_, s) ← storeItem hash (item_of k e) p s; mret s
  | ODelete k => mret (deleteItem (needle k) s).2
  end.
Fixpoint store_ops (os : list Op) (s : Store) : outcome Store :=
  match os with [] => mret s | o :: os => s ← store_op o s; store_ops os s end.

Definition table_op (o : Op) (t : Table) : Table :=
  match o with OStore p k e => (update p k e t).2 | ODelete k => (remove k t).2 end.

Definition op_ok (o : Op) : Prop :=
  match o with OStore p k e => p ≠ kInvalid ∧ key_ok k ∧ size_of (e_value e) ≤ 2 ^ 20 | ODelete k => key_ok k end.
Definition op_size (o : Op) : Z := match o with OStore _ _ e => size_of (e_value e) | ODelete _ => 0 end.
Definition ops_size (os : list Op) : Z := foldr (λ o n, op_size o + n) 0 os.

Lemma op_size_nonneg o : 0 ≤ op_size o.
Proof. destruct o; [apply size_of_nonneg|done]. Qed.
Lemma ops_size_nonneg os : 0 ≤ ops_size os.
Proof. induction os as [|o os IH]; [done|]. cbn. pose proof (op_size_nonneg o). unfold ops_size in IH. lia. Qed.

Lemma store_ops_refine os : ∀ n t s,
  represents t s → fits n t → 0 ≤ n → Forall op_ok os → n + ops_size os ≤ 2 ^ 30 →
  updates t + size_of os < 2 ^ 63 →
  store_ops os s ⇓ λ s', represents (foldl (λ t o, table_op o t) t os) s' ∧
    fits (n + ops_size os) (foldl (λ t o, table_op o t) t os).
Proof.
  induction os as [|o os IH]; intros n t s Hs Hf Hn Hok Hsize Hu.
  { cbn. split; [done|]. intros k e He. specialize (Hf _ _ He). lia. }
  apply Forall_cons in Hok as [Ho Hok]. cbn [store_ops foldl ops_size foldr] in *. fold (ops_size os) in *.
  rewrite size_of_cons in Hu. pose proof (size_of_nonneg os). pose proof (ops_size_nonneg os). pose proof (op_size_nonneg o).
  assert (store_op o s ⇓ λ s', represents (table_op o t) s' ∧ fits (n + op_size o) (table_op o t) ∧ updates (table_op o t) ≤ updates t + 1) as Hstep.
  { destruct o as [p k e|k]; cbn [store_op table_op op_size op_ok] in *.
    - destruct Ho as (Hp & Hk & Hv).
      pose proof (storeItem_refines t s p k e Hs Hk Hv) as Hst. pose proof (update_fits n t p k e Hf Hn) as Hf'.
      pose proof (update_updates p k e t) as Hu'.
      destruct (update p k e t) as [[b x] t'] eqn:E. destruct Hst as (s' & -> & Hs'); [apply (fits_joins n); [done|lia]|done|lia|].
      cbn in *. split_and!; [done|done|lia].
    - destruct (deleteItem_refines t s (needle k) k Hs) as (s' & Hd & Hs'); [apply item_key|done|].
      rewrite Hd. cbn. split_and!; [done| |lia]. intros k' e'. cbn. rewrite lookup_delete_Some. intros [_ He'].
      specialize (Hf _ _ He'). lia. }
  apply yields_bind. eapply yields_mono; [exact Hstep|]. intros s1 (Hs1 & Hf1 & Hu1).
  eapply yields_mono; [apply (IH (n + op_size o) _ _ Hs1); [done|lia|done|lia|lia]|].
  intros s' [Hs' Hf']. split; [done|]. by rewrite <- Z.add_assoc in Hf'.
Qed.

(** A number is never used again: an entry that is there later is the old one, or newer. *)
Lemma number_unique os : ∀ t,
  (∀ k e, entries t !! k = Some e → e_cas e ≤ updates t) →
  ∀ k e', entries (foldl (λ t o, table_op o t) t os) !! k = Some e' →
    entries t !! k = Some e' ∨ updates t < e_cas e'.
Proof.
  induction os as [|o os IH]; intros t Ht k e' He'; [by left|]. cbn [foldl] in He'.
  assert (∀ k1 e1, entries (table_op o t) !! k1 = Some e1 →
    entries t !! k1 = Some e1 ∨ e_cas e1 = updates t + 1 ∧ updates (table_op o t) = updates t + 1) as Hstep.
  { clear -Ht. intros k1 e1 H1. destruct o as [p k e|k]; cbn in *.
    - unfold update, put in *. destruct p, (entries t !! k) as [old|]; cbn in *; try (by left);
        try (destruct (e_cas old =? e_cas e); cbn in *; [|by left]);
        (apply lookup_insert_Some in H1 as [[_ <-]|[_ ?]]; [by right|by left]).
    - apply lookup_delete_Some in H1 as [_ ?]. by left. }
  assert (updates t ≤ updates (table_op o t)) as Hmono.
  { destruct o as [p k1 e1|k1]; cbn; [|lia]. pose proof (update_updates p k1 e1 t). lia. }
  destruct (IH (table_op o t)) with (k := k) (e' := e') as [H|H]; [|done| |right; lia].
  - intros k1 e1 [H1|[-> ->]]%Hstep; [|lia]. specialize (Ht _ _ H1). lia.
  - destruct (Hstep _ _ H) as [?|[-> _]]; [by left|right; lia].
Qed.

(** The numbers of the entries, after any operations. *)
Lemma numbers_below os k e :
  entries (foldl (λ t o, table_op o t) Table_new os) !! k = Some e → e_cas e ≤ updates (foldl (λ t o, table_op o t) Table_new os).
Proof.
  revert k e. assert (∀ k e, entries Table_new !! k = Some e → e_cas e ≤ updates Table_new) as H0 by done.
  generalize dependent Table_new. induction os as [|o os IH]; intros t Ht; [exact Ht|]. cbn [foldl]. apply IH.
  intros k e He. destruct o as [p k1 e1|k1]; cbn in *.
  - pose proof (update_updates p k1 e1 t) as Hu. unfold update, put in *. destruct p, (entries t !! k1) as [old|]; cbn in *;
      try (destruct (e_cas old =? e_cas e1); cbn in *);
      try (apply lookup_insert_Some in He as [[_ <-]|[_ He]]; cbn; try lia); specialize (Ht _ _ He); lia.
  - apply lookup_delete_Some in He as [_ He]. by apply (Ht k).
Qed.

Lemma ops_size_app os os' : ops_size (os ++ os') = ops_size os + ops_size os'.
Proof. unfold ops_size. rewrite foldr_app. induction os as [|o os IH]; cbn; [done|]. rewrite IH. lia. Qed.

Lemma updates_count os : ∀ t, updates (foldl (λ t o, table_op o t) t os) ≤ updates t + size_of os.
Proof.
  induction os as [|o os IH]; intros t; cbn [foldl]; [rewrite size_of_nil; lia|]. rewrite size_of_cons.
  specialize (IH (table_op o t)). destruct o as [p k e|k]; cbn in *; [pose proof (update_updates p k e t)|]; lia.
Qed.

(** What is not stored changes nothing. *)
Lemma not_stored_same i p s x s' : storeItem hash i p s = Ok (false, x, s') → s' = s.
Proof.
  unfold storeItem. intros (_ & _ & H)%bind_Ok_inv. destruct p; try done.
  - by apply bind_Ok_inv in H as ([c s0] & _ & ?).
  - destruct (bool_decide _); [by injection H|by apply bind_Ok_inv in H as ([c s0] & _ & ?)].
  - destruct (bool_decide _); [by apply bind_Ok_inv in H as ([c s0] & _ & ?)|by injection H].
  - destruct (find i s); [|by injection H]. apply bind_Ok_inv in H as ([c s0] & _ & H). by apply bind_Ok_inv in H as (? & _ & ?).
  - destruct (find i s); [|by injection H]. apply bind_Ok_inv in H as ([c s0] & _ & H). by apply bind_Ok_inv in H as (? & _ & ?).
  - destruct (find i s) as [old|]; [|by injection H]. destruct (_ =? _); [by apply bind_Ok_inv in H as ([c s0] & _ & ?)|by injection H].
Qed.

(** C31. Check and set.  Whatever operations other clients perform in between, on
    any keys: an update with [kCas] and the number that was read with an item
    succeeds exactly if the item in the store is still the one that was read;
    it then stores the new value, and otherwise nothing changes.  Numbers are
    never used twice, not even after a deletion. *)
Theorem cas_exclusive ops1 ops2 k e :
  Forall op_ok (ops1 ++ ops2) → ops_size (ops1 ++ ops2) + size_of (e_value e) ≤ 2 ^ 30 →
  size_of (ops1 ++ ops2) + 1 < 2 ^ 63 → key_ok k → size_of (e_value e) ≤ 2 ^ 20 →
  (s1 ← store_ops ops1 Store_new; s2 ← store_ops ops2 s1; r ← storeItem hash (item_of k e) kCas s2; mret (s1, s2, r)) ⇓
    λ '(s1, s2, (stored, existed, s3)), ∀ i, getItem (needle k) s1 = Some i → cas_ i = e_cas e →
      (stored = true ↔ getItem (needle k) s2 = Some i) ∧
      existed = bool_decide (is_Some (getItem (needle k) s2)) ∧
      (stored = true → ∃ c, getItem (needle k) s3 = Some (item_of k (with_cas c e))) ∧
      (stored = false → s3 = s2).
Proof.
  intros Hok Hsize Hn Hk He. apply Forall_app in Hok as [Hok1 Hok2].
  rewrite ops_size_app in Hsize. rewrite size_of_app in Hn. pose proof (ops_size_nonneg ops1). pose proof (ops_size_nonneg ops2).
  pose proof (size_of_nonneg ops1). pose proof (size_of_nonneg ops2). pose proof (size_of_nonneg (e_value e)).
  set (t1 := foldl (λ t o, table_op o t) Table_new ops1). set (t2 := foldl (λ t o, table_op o t) t1 ops2).
  pose proof (updates_count ops1 Table_new) as Hc1. pose proof (updates_count ops2 t1) as Hc2. fold t1 in Hc1. fold t2 in Hc2. cbn in Hc1.
  ystep (store_ops_refine ops1 0 Table_new Store_new represents_new); [done|lia|done|lia|cbn; lia|].
  fold t1. intros s1 [Hs1 Hf1].
  ystep (store_ops_refine ops2 _ t1 s1 Hs1 Hf1); [lia|done|lia|lia|]. fold t2. intros s2 [Hs2 Hf2].
  pose proof (storeItem_refines t2 s2 kCas k e Hs2 Hk He) as Hst.
  destruct (update kCas k e t2) as [[b x] t3] eqn:Hup.
  destruct Hst as (s3 & Hst & Hs3); [by intros []|done|lia|]. rewrite Hst. run_ok. apply yields_ret.
  intros i Hi Hcas.
  assert (∀ t s, represents t s → getItem (needle k) s = item_of k <$> entries t !! k) as Hget.
  { intros t s Hs. apply getItem_refines; [done|apply item_key|done]. }
  rewrite (Hget _ _ Hs1) in Hi. destruct (entries t1 !! k) as [e1|] eqn:E1; [|done]. injection Hi as <-. cbn in Hcas.
  rewrite (Hget _ _ Hs2), (Hget _ _ Hs3).
  assert (e_cas e1 ≤ updates t1) as Hle by (by apply (numbers_below ops1 k)).
  assert (∀ e2, entries t2 !! k = Some e2 → e_cas e2 = e_cas e → e2 = e1) as Huniq.
  { intros e2 He2 Hc. destruct (number_unique ops2 t1) with (k := k) (e' := e2) as [Hsame|Hnew]; [|done|congruence|lia].
    intros k' e' He'. by apply (numbers_below ops1 k'). }
  unfold update in Hup. destruct (entries t2 !! k) as [e2|] eqn:E2.
  - cbn [fmap option_fmap option_map]. rewrite bool_decide_true by done.
    destruct (Z.eqb_spec (e_cas e2) (e_cas e)) as [Heq|Hne]; injection Hup as <- <- <-.
    + rewrite (Huniq e2) by done. split_and!; [done|done| |done]. intros _. eexists. cbn. by rewrite lookup_insert_eq.
    + split_and!; [|done|done|intros _; by eapply not_stored_same].
      split; [done|]. intros Heq. injection Heq as Hval. exfalso. apply Hne. congruence.
  - injection Hup as <- <- <-. cbn. split_and!; [done|done|done|intros _; by eapply not_stored_same].
Qed.
End Refinement.

(** The number is read, another key and the same key are stored, then the update
    is refused. *)
Lemma cas_exclusive_witness :
  let k := lit "a" in let e0 := mkEntry 1 0 (lit "x") 0 in let e := mkEntry 1 0 (lit "y") 1 in
  let m :=
    s1 ← store_ops size_of [OStore kSet k e0] Store_new;
    s2 ← store_ops size_of [OStore kAdd (lit "b") e0; OStore kSet k e0] s1;
    r ← storeItem size_of (item_of size_of k e) kCas s2; mret (s1, s2, r) in
  (m ⇓ λ '(s1, s2, (stored, existed, s3)), ∃ i, getItem (needle size_of k) s1 = Some i ∧ cas_ i = 1 ∧ stored = false ∧ existed = true) ∧
  (m ⇓ λ '(s1, s2, (stored, existed, s3)), ∀ i, getItem (needle size_of k) s1 = Some i → cas_ i = 1 → stored = false → s3 = s2).
Proof.
  intros k e0 e m. split; [vm_compute; by eexists|]. subst m.
  eapply yields_mono; [apply (cas_exclusive size_of [OStore kSet k e0] [OStore kAdd (lit "b") e0; OStore kSet k e0] k e)|].
  - cbn [app]. repeat apply Forall_cons_2; [..|by apply Forall_nil]; split_and!; done || by vm_compute.
  - by vm_compute.
  - by vm_compute.
  - by vm_compute.
  - by vm_compute.
  - intros [[s1 s2] [[stored existed] s3]] H i Hi Hc Hs. by apply (H i).
Defined.
