(* ===== verification/MemcachedSession.v ===== *)
(** * A memcached server: sessions (examples/memcached/server/Session.h, Session.cc;
      [onConnection] of MemcacheServer.cc)

    A session reads requests from the input buffer of its connection, works on
    the store and sends the answers.  The input buffer and [outputBuf_] are the
    bytes they hold, which is what a [Buffer] refines; of the connection the
    session sees whether it is still connected and what was sent.
    [boost::tokenizer], which calls the separator until it finds no more tokens,
    is the list of the tokens; dereferencing its end is a fault. *)
From Stdlib Require Import Strings.Byte.
From stdpp Require Import base numbers list strings gmap.
From S2P Require Import Prelude Printf Buffer ByteQueue Date Memcached.
Open Scope Z_scope.
Open Scope muduo_scope.

(** ** Tokens and numbers *)

Fixpoint skip_spaces (l : list byte) : list byte :=
  match l with
  | b :: l' => if bool_decide (b = x20) then skip_spaces l' else l
  | [] => []
  end.
(** Up to the first space. *)
Fixpoint until_space (l : list byte) : list byte * list byte :=
  match l with
  | b :: l' => if bool_decide (b = x20) then ([], l) else let '(t, r) := until_space l' in (b :: t, r)
  | [] => ([], [])
  end.

(** [SpaceSeparator::operator()]: the next token, and what follows it. *)
Definition separator (l : list byte) : option (list byte * list byte) :=
  match skip_spaces l with [] => None | l => Some (until_space l) end.

Fixpoint tokens_fuel (fuel : nat) (l : list byte) : list (list byte) :=
  match fuel with
  | O => []
  | S fuel => match separator l with Some (t, r) => t :: tokens_fuel fuel r | None => [] end
  end.
(** Every token takes a byte at least. *)
Definition tokens (l : list byte) : list (list byte) := tokens_fuel (S (length l)) l.

(** [strtoull(s, &end, 10)]: the value, and how many characters were read. *)
Definition is_space (b : byte) : bool := bool_decide (b ∈ [x20; x09; x0a; x0b; x0c; x0d]).
Fixpoint prefix_while (p : byte → bool) (l : list byte) : list byte :=
  match l with b :: l => if p b then b :: prefix_while p l else [] | [] => [] end.
Definition strtoull (s : list byte) : Z * nat :=
  let blanks := length (prefix_while is_space s) in
  let s := drop blanks s in
  let '(neg, signs) := match s with x2d :: _ => (true, 1%nat) | x2b :: _ => (false, 1%nat) | _ => (false, 0%nat) end in
  let ds := prefix_while is_digit (drop signs s) in
  match ds with
  | [] => (0, 0%nat)
  | _ =>
    let x := dec_value ds in
    (if 2 ^ 64 - 1 <? x then 2 ^ 64 - 1 else if neg : bool then u64 (- x) else x, (blanks + signs + length ds)%nat)
  end.

(** [Reader::read]: the number of the first token, and the other tokens.  A token
    is followed by a space or by the CR LF, so that [strtoull] stops there, or has
    gone past it because the token is blank. *)
Definition Reader_read (toks : list (list byte)) : option (Z * list (list byte)) :=
  match toks with
  | [] => None
  | t :: toks => let '(x, n) := strtoull t in if (n =? length t)%nat then Some (x, toks) else None
  end.

(** ** State *)

Inductive State := kNewCommand | kReceiveValue | kDiscardValue.
Inductive Protocol := kAscii | kBinary | kAuto.
#[export] Instance State_eq_dec : EqDecision State.
Proof. solve_decision. Defined.
#[export] Instance Protocol_eq_dec : EqDecision Protocol.
Proof. solve_decision. Defined.

Record Session := mkSession {
  state_ : State;
  protocol_ : Protocol;
  command_ : list byte;
  noreply_ : bool;
  policy_ : UpdatePolicy;
  currItem_ : option Item;
  bytesToDiscard_ : Z;
  needle_ : Item;
  outputBuf_ : list byte;
  bytesRead_ : Z;
  requestsProcessed_ : Z
}.

(** The session, the server's store, the connection, whether [stop] was called. *)
Record World := mkWorld {
  sess : Session;
  store : Store;
  connected : bool;
  sent : list byte;
  stopping : bool
}.

Definition with_sess (s : Session) (w : World) : World := mkWorld s (store w) (connected w) (sent w) (stopping w).
Definition with_store (s : Store) (w : World) : World := mkWorld (sess w) s (connected w) (sent w) (stopping w).

Definition set_state (st : State) (s : Session) : Session :=
  mkSession st (protocol_ s) (command_ s) (noreply_ s) (policy_ s) (currItem_ s) (bytesToDiscard_ s) (needle_ s) (outputBuf_ s) (bytesRead_ s) (requestsProcessed_ s).
Definition set_protocol (p : Protocol) (s : Session) : Session :=
  mkSession (state_ s) p (command_ s) (noreply_ s) (policy_ s) (currItem_ s) (bytesToDiscard_ s) (needle_ s) (outputBuf_ s) (bytesRead_ s) (requestsProcessed_ s).
Definition set_command (c : list byte) (s : Session) : Session :=
  mkSession (state_ s) (protocol_ s) c (noreply_ s) (policy_ s) (currItem_ s) (bytesToDiscard_ s) (needle_ s) (outputBuf_ s) (bytesRead_ s) (requestsProcessed_ s).
Definition set_noreply (b : bool) (s : Session) : Session :=
  mkSession (state_ s) (protocol_ s) (command_ s) b (policy_ s) (currItem_ s) (bytesToDiscard_ s) (needle_ s) (outputBuf_ s) (bytesRead_ s) (requestsProcessed_ s).
Definition set_policy (p : UpdatePolicy) (s : Session) : Session :=
  mkSession (state_ s) (protocol_ s) (command_ s) (noreply_ s) p (currItem_ s) (bytesToDiscard_ s) (needle_ s) (outputBuf_ s) (bytesRead_ s) (requestsProcessed_ s).
Definition set_currItem (i : option Item) (s : Session) : Session :=
  mkSession (state_ s) (protocol_ s) (command_ s) (noreply_ s) (policy_ s) i (bytesToDiscard_ s) (needle_ s) (outputBuf_ s) (bytesRead_ s) (requestsProcessed_ s).
Definition set_bytesToDiscard (n : Z) (s : Session) : Session :=
  mkSession (state_ s) (protocol_ s) (command_ s) (noreply_ s) (policy_ s) (currItem_ s) n (needle_ s) (outputBuf_ s) (bytesRead_ s) (requestsProcessed_ s).
Definition set_needle (i : Item) (s : Session) : Session :=
  mkSession (state_ s) (protocol_ s) (command_ s) (noreply_ s) (policy_ s) (currItem_ s) (bytesToDiscard_ s) i (outputBuf_ s) (bytesRead_ s) (requestsProcessed_ s).
Definition set_outputBuf (b : list byte) (s : Session) : Session :=
  mkSession (state_ s) (protocol_ s) (command_ s) (noreply_ s) (policy_ s) (currItem_ s) (bytesToDiscard_ s) (needle_ s) b (bytesRead_ s) (requestsProcessed_ s).
Definition set_bytesRead (n : Z) (s : Session) : Session :=
  mkSession (state_ s) (protocol_ s) (command_ s) (noreply_ s) (policy_ s) (currItem_ s) (bytesToDiscard_ s) (needle_ s) (outputBuf_ s) n (requestsProcessed_ s).
Definition count_request (s : Session) : Session :=
  mkSession (state_ s) (protocol_ s) (command_ s) (noreply_ s) (policy_ s) (currItem_ s) (bytesToDiscard_ s) (needle_ s) (outputBuf_ s) (bytesRead_ s) (u64 (requestsProcessed_ s + 1)).

Definition on_sess (f : Session → Session) (w : World) : World := with_sess (f (sess w)) w.

(** ** The connection *)

(** [send]: nothing is sent after [shutdown]. *)
Definition conn_send (data : list byte) (w : World) : World :=
  if connected w then mkWorld (sess w) (store w) true (sent w ++ data) (stopping w) else w.
(** [send] of a [Buffer] empties the buffer, if it sends it. *)
Definition conn_send_outputBuf (w : World) : World :=
  if connected w then on_sess (set_outputBuf []) (conn_send (outputBuf_ (sess w)) w) else w.
Definition conn_shutdown (w : World) : World := mkWorld (sess w) (store w) false (sent w) (stopping w).
Definition owner_stop (w : World) : World := mkWorld (sess w) (store w) (connected w) (sent w) true.

Definition reply (msg : list byte) (w : World) : World := if noreply_ (sess w) then w else conn_send msg w.
Definition reply_line (msg : string) (w : World) : World := reply (lit msg ++ kCRLF) w.

Definition resetRequest (s : Session) : Session :=
  set_bytesToDiscard 0 (set_currItem None (set_policy kInvalid (set_noreply false (set_command [] s)))).

Definition kLongestKeySize : Z := 250.
Definition kLongestKey : list byte := replicate 250 x78.

Section Ops.
Context (hash : list byte → Z) (startTime_ : Z).

Definition Session_new : outcome Session :=
  needle ← makeItem hash kLongestKey 0 0 2 0;
  mret (mkSession kNewCommand kAscii [] false kInvalid None 0 needle [] 0 0).

(** ** Values *)

(** The answer to a store that was or was not done. *)
Definition reply_stored (stored existed : bool) (w : World) : World :=
  if stored then reply_line "STORED" w
  else if bool_decide (policy_ (sess w) = kCas) then
    if existed then reply_line "EXISTS" w else reply_line "NOT_FOUND" w
  else reply_line "NOT_STORED" w.

(** All bytes of the value have come. *)
Definition finishValue (item : Item) (w : World) : outcome World :=
  w ← (if endsWithCRLF item then
         '(stored, existed, s) ← storeItem hash item (policy_ (sess w)) (store w);
         mret (reply_stored stored existed (with_store s w))
       else mret (reply_line "CLIENT_ERROR bad data chunk" w));
  mret (on_sess (λ s, set_state kNewCommand (resetRequest s)) w).

Definition receiveValue (buf : list byte) (w : World) : outcome (list byte * World) :=
  match currItem_ (sess w) with
  | None => Fault (AssertFailure 138)
  | Some item =>
    _ ← assertb 139 (bool_decide (state_ (sess w) = kReceiveValue));
    let avail := Z.min (size_of buf) (neededBytes item) in
    item ← Item_append (slice buf 0 avail) item;
    let buf := drop (Z.to_nat avail) buf in
    if neededBytes item =? 0 then w ← finishValue item w; mret (buf, w)
    else mret (buf, on_sess (set_currItem (Some item)) w)
  end.

Definition discardValue (buf : list byte) (w : World) : outcome (list byte * World) :=
  _ ← assertb 185 (bool_decide (currItem_ (sess w) = None));
  _ ← assertb 186 (bool_decide (state_ (sess w) = kDiscardValue));
  if size_of buf <? bytesToDiscard_ (sess w) then
    mret ([], on_sess (set_bytesToDiscard (bytesToDiscard_ (sess w) - size_of buf)) w)
  else
    mret (drop (Z.to_nat (bytesToDiscard_ (sess w))) buf,
          on_sess (λ s, set_state kNewCommand (resetRequest (set_bytesToDiscard 0 s))) w).

(** ** Requests *)

Definition command_policy (command : list byte) : option UpdatePolicy :=
  if bool_decide (command = lit "set") then Some kSet
  else if bool_decide (command = lit "add") then Some kAdd
  else if bool_decide (command = lit "replace") then Some kReplace
  else if bool_decide (command = lit "append") then Some kAppend
  else if bool_decide (command = lit "prepend") then Some kPrepend
  else if bool_decide (command = lit "cas") then Some kCas
  else None.

(** [*beg], which must not be the end. *)
Definition deref (toks : list (list byte)) : outcome (list byte * list (list byte)) :=
  match toks with t :: toks => mret (t, toks) | [] => Fault BadDeref end.

(** The numbers of an update: flags, time of expiry, length. *)
Definition read_numbers (toks : list (list byte)) : option (Z * Z * Z * list (list byte)) :=
  '(flags, toks) ← Reader_read toks;
  '(exptime, toks) ← Reader_read toks;
  '(bytes, toks) ← Reader_read toks;
  Some (u32 flags, i64 exptime, i32 bytes, toks).

Definition relative_exptime (exptime : Z) : Z :=
  if 60 * 60 * 24 * 30 <? exptime then
    let rel := i32 (exptime - startTime_) in if rel <? 1 then 1 else rel
  else i32 exptime.

Definition bad_format : string := "CLIENT_ERROR bad command line format".

(** Whether the request is finished. *)
Definition doUpdate (toks : list (list byte)) (w : World) : outcome (bool * World) :=
  match command_policy (command_ (sess w)) with
  | None => Fault (AssertFailure 340)
  | Some p =>
    let w := on_sess (set_policy p) w in
    '(key, toks) ← deref toks;
    let good := size_of key <=? kLongestKeySize in
    match (if good then read_numbers toks else None) with
    | None => mret (true, reply_line bad_format w)
    | Some (flags, exptime, bytes, toks) =>
      let rel_exptime := relative_exptime exptime in
      match (if bool_decide (p = kCas) then fst <$> Reader_read toks else Some 0) with
      | None => mret (true, reply_line bad_format w)
      | Some cas =>
        if 1024 * 1024 <? bytes then
          let w := reply_line "SERVER_ERROR object too large for cache" w in
          needle ← resetKey hash key (needle_ (sess w));
          let '(_, s) := deleteItem needle (store w) in
          n ← iadd bytes 2;
          mret (false, on_sess (λ ss, set_state kDiscardValue (set_bytesToDiscard (u64 n) (set_needle needle ss))) (with_store s w))
        else
          n ← iadd bytes 2;
          item ← makeItem hash key flags rel_exptime n cas;
          mret (false, on_sess (λ ss, set_state kReceiveValue (set_currItem (Some item) ss)) w)
      end
    end
  end.

Definition doDelete (toks : list (list byte)) (w : World) : outcome World :=
  _ ← assertb 398 (bool_decide (command_ (sess w) = lit "delete"));
  '(key, toks) ← deref toks;
  if negb (size_of key <=? kLongestKeySize) then mret (reply_line bad_format w)
  else if match toks with t :: _ => negb (bool_decide (t = lit "0")) | [] => false end then
    mret (reply_line "CLIENT_ERROR bad command line format.  Usage: delete <key> [noreply]" w)
  else
    needle ← resetKey hash key (needle_ (sess w));
    let '(deleted, s) := deleteItem needle (store w) in
    let w := on_sess (set_needle needle) (with_store s w) in
    mret (if deleted then reply_line "DELETED" w else reply_line "NOT_FOUND" w).

(** The loop of [get] and [gets]; whether all keys were short enough. *)
Fixpoint get_loop (cas : bool) (keys : list (list byte)) (w : World) : outcome (bool * World) :=
  match keys with
  | [] => mret (true, w)
  | key :: keys =>
    if negb (size_of key <=? kLongestKeySize) then mret (false, reply_line bad_format w)
    else
      needle ← resetKey hash key (needle_ (sess w));
      let w := on_sess (set_needle needle) w in
      out ← match getItem needle (store w) with
            | Some item => Item_output cas item (outputBuf_ (sess w))
            | None => mret (outputBuf_ (sess w))
            end;
      get_loop cas keys (on_sess (set_outputBuf out) w)
  end.

(** Ends in " noreply". *)
Definition strip_noreply (request : list byte) : bool * list byte :=
  if 8 <=? size_of request then
    let n := (length request - 8)%nat in
    if bool_decide (drop n request = lit " noreply") then (true, take n request) else (false, request)
  else (false, request).

(** Whether the request is finished.  A [get] also gives back spare capacity of the connection's output buffer, which
    has no effect on its content. *)
Definition processRequest (request : list byte) (w : World) : outcome (bool * World) :=
  _ ← assertb 203 (bool_decide (command_ (sess w) = []));
  _ ← assertb 204 (negb (noreply_ (sess w)));
  _ ← assertb 205 (bool_decide (policy_ (sess w) = kInvalid));
  _ ← assertb 206 (bool_decide (currItem_ (sess w) = None));
  _ ← assertb 207 (bytesToDiscard_ (sess w) =? 0);
  let w := on_sess count_request w in
  let '(noreply, request) := strip_noreply request in
  let w := if noreply then on_sess (set_noreply true) w else w in
  match tokens request with
  | [] => mret (true, reply_line "ERROR" w)
  | command :: toks =>
    let w := on_sess (set_command command) w in
    match command_policy command with
    | Some _ => doUpdate toks w
    | None =>
      if bool_decide (command = lit "get") || bool_decide (command = lit "gets") then
        '(all, w) ← get_loop (bool_decide (command = lit "gets")) toks w;
        if all : bool then
          let w := on_sess (λ s, set_outputBuf (outputBuf_ s ++ lit "END" ++ kCRLF) s) w in
          mret (true, conn_send_outputBuf w)
        else mret (true, w)
      else if bool_decide (command = lit "delete") then w ← doDelete toks w; mret (true, w)
      else if bool_decide (command = lit "version") then mret (true, reply_line "VERSION 0.01 muduo" w)
      else if bool_decide (command = lit "quit") then mret (true, conn_shutdown w)
      else if bool_decide (command = lit "shutdown") then mret (true, owner_stop (conn_shutdown w))
      else mret (true, reply_line "ERROR" w)
    end
  end.

(** ** onMessage *)

Definition isBinaryProtocol (firstByte : byte) : bool := Z_of_byte firstByte =? 128.

(** One turn of the loop, with bytes in the buffer: whether it goes on. *)
Definition turn (buf : list byte) (w : World) : outcome (bool * list byte * World) :=
  match state_ (sess w) with
  | kNewCommand =>
    w ← (if bool_decide (protocol_ (sess w) = kAuto) then
           _ ← assertb 86 (bytesRead_ (sess w) =? 0);
           first ← match buf with b :: _ => mret b | [] => Fault OutOfRange end;
           mret (on_sess (set_protocol (if isBinaryProtocol first then kBinary else kAscii)) w)
         else mret w);
    if bool_decide (protocol_ (sess w) = kBinary) then mret (true, buf, w)
    else
      match first_crlf buf with
      | Some n =>
        '(finished, w) ← processRequest (take n buf) w;
        mret (true, drop (n + 2) buf, if finished : bool then on_sess resetRequest w else w)
      | None => mret (false, buf, if 1024 <? size_of buf then conn_shutdown w else w)
      end
  | kReceiveValue => '(buf, w) ← receiveValue buf w; mret (true, buf, w)
  | kDiscardValue => '(buf, w) ← discardValue buf w; mret (true, buf, w)
  end.

Fixpoint message_loop (fuel : nat) (buf : list byte) (w : World) : option (outcome (list byte * World)) :=
  match fuel with
  | O => None
  | S fuel =>
    match buf with
    | [] => Some (Ok (buf, w))
    | _ =>
      match turn buf w with
      | Fault f => Some (Fault f)
      | Ok (true, buf, w) => message_loop fuel buf w
      | Ok (false, buf, w) => Some (Ok (buf, w))
      end
    end
  end.

(** A turn takes bytes out of the buffer, or finishes a value that needs no more. *)
Definition message_fuel (buf : list byte) : nat := 2 * length buf + 2.

Definition onMessage (buf : list byte) (w : World) : option (outcome (list byte * World)) :=
  match message_loop (message_fuel buf) buf w with
  | Some (Ok (rest, w)) =>
    Some (Ok (rest, on_sess (λ s, set_bytesRead (u64 (bytesRead_ s + (size_of buf - size_of rest))) s) w))
  | r => r
  end.

(** Data arrives in segments. *)
Fixpoint feed (buf : list byte) (chunks : list (list byte)) (w : World) : option (outcome (list byte * World)) :=
  match chunks with
  | [] => Some (Ok (buf, w))
  | c :: chunks =>
    match onMessage (buf ++ c) w with
    | Some (Ok (buf, w)) => feed buf chunks w
    | r => r
    end
  end.

(** [MemcacheServer::onConnection], with the sessions by the name of their connection. *)
Definition onConnection (up : bool) (name : list byte) (sessions : gmap (list byte) Session) :
    outcome (gmap (list byte) Session) :=
  if up : bool then
    session ← Session_new;
    _ ← assertb 163 (bool_decide (sessions !! name = None));
    mret (<[ name := session ]> sessions)
  else
    _ ← assertb 170 (bool_decide (is_Some (sessions !! name)));
    mret (delete name sessions).
End Ops.
