(* ===== verification/MemcachedSpec.v ===== *)
(** * A memcached server: correctness of sessions

    The state a session can be in; [onMessage] always returns; what a session does
    does not depend on how its input is cut into segments; and a session that is
    sent commands behaves as the table of [Memcached] says. *)
From Stdlib Require Import Strings.Byte.
From stdpp Require Import base numbers list strings gmap.
From S2P Require Import Prelude Printf Buffer ByteQueue Date LogStream Memcached MemcachedSession.
Open Scope Z_scope.
Open Scope muduo_scope.

Section Session.
Context (hash : list byte → Z) (startTime_ : Z).

(** ** The state of a session *)

(** Between requests. *)
Definition clean (s : Session) : Prop :=
  command_ s = [] ∧ noreply_ s = false ∧ policy_ s = kInvalid ∧ currItem_ s = None ∧ bytesToDiscard_ s = 0.

Definition base_ok (s : Session) : Prop := protocol_ s = kAscii ∧ needle_ok (needle_ s).

Definition sess_inv (s : Session) : Prop :=
  base_ok s ∧
  match state_ s with
  | kNewCommand => clean s
  | kReceiveValue => ∃ k flags exptime len cas got, currItem_ s = Some (item_part hash k flags exptime len cas got) ∧
      key_ok k ∧ 2 ≤ len ≤ 2 ^ 20 + 2 ∧ size_of got < len ∧ policy_ s ≠ kInvalid
  | kDiscardValue => currItem_ s = None ∧ 0 < bytesToDiscard_ s
  end.

Lemma sess_reply msg w : sess (reply msg w) = sess w.
Proof. unfold reply, conn_send. by destruct (noreply_ _), (connected w). Qed.

Lemma sess_reply_line msg w : sess (reply_line msg w) = sess w.
Proof. apply sess_reply. Qed.

Lemma sess_reply_stored b x w : sess (reply_stored b x w) = sess w.
Proof. unfold reply_stored. repeat case_match; apply sess_reply_line. Qed.

Lemma resetKey_ok k i i' : resetKey hash k i = Ok i' → needle_ok i → size_of k ≤ 250 → needle_ok i' ∧ key i' = k ∧ hash_ i' = hash k.
Proof. intros H Hi Hk. destruct (resetKey_spec hash k i Hk Hi) as (i2 & H2 & ? & ? & ?).
  assert (i2 = i') as -> by congruence. done. Qed.

(** A finished request leaves a clean session. *)
Lemma reset_inv s : base_ok s → state_ s = kNewCommand → sess_inv (resetRequest s).
Proof. intros Hb Hs. split; [done|]. cbn. rewrite Hs. by repeat split. Qed.

Lemma makeItem_inv k flags exptime n cas i :
  makeItem hash k flags exptime n cas = Ok i → key_ok k → n ≤ 2 ^ 20 + 2 →
  2 ≤ n ∧ i = item_part hash k flags exptime n cas [].
Proof.
  intros H Hk Hn. assert (2 ≤ n) as Hn2.
  { unfold makeItem in H. apply bind_Ok_inv in H as (x & _ & H). apply bind_Ok_inv in H as ([] & H & _).
    apply assertb_Ok_inv in H. by apply Z.leb_le in H. }
  split; [done|]. rewrite makeItem_part in H by (done || lia). by injection H.
Qed.

Lemma doUpdate_inv toks w fin w' :
  base_ok (sess w) → state_ (sess w) = kNewCommand → currItem_ (sess w) = None →
  doUpdate hash startTime_ toks w = Ok (fin, w') →
  if fin then base_ok (sess w') ∧ state_ (sess w') = kNewCommand else sess_inv (sess w').
Proof.
  intros Hb Hst Hnone H. unfold doUpdate in H. destruct (command_policy _) as [p|] eqn:Hp; [|done].
  assert (p ≠ kInvalid) as Hpv by (unfold command_policy in Hp; repeat case_match; simplify_eq; done).
  apply bind_Ok_inv in H as ([k toks'] & Hd & H).
  assert (∀ w, (fin, w') = (true, reply_line bad_format (on_sess (set_policy p) w)) → sess w = sess w → base_ok (sess w) → state_ (sess w) = kNewCommand →
    if fin then base_ok (sess w') ∧ state_ (sess w') = kNewCommand else sess_inv (sess w')) as Hbad.
  { intros w1 [= -> ->] _ Hb1 Hst1. by rewrite sess_reply_line. }
  destruct (Z.leb_spec (size_of k) kLongestKeySize) as [Hk|Hk].
  2: { injection H as <- <-. by apply (Hbad w). }
  destruct (read_numbers toks') as [[[[flags exptime] bytes] toks2]|]; [|injection H as <- <-; by apply (Hbad w)].
  destruct (if bool_decide (p = kCas) then _ else _) as [cas|]; [|injection H as <- <-; by apply (Hbad w)].
  destruct (Z.ltb_spec (1024 * 1024) bytes).
  - rewrite sess_reply_line in H. apply bind_Ok_inv in H as (i & Hi & H).
    destruct (deleteItem _ _) as [b st]. apply bind_Ok_inv in H as (n & Hn & H). injection H as <- <-.
    assert (needle_ok i) by (eapply resetKey_ok; [exact Hi|apply Hb|exact Hk]).
    unfold iadd, checked_i32 in Hn. destruct (_ && _) eqn:E; [|done]. injection Hn as <-.
    apply andb_true_iff in E as [_ E%Z.ltb_lt].
    split; [split; [|done]; cbn; rewrite sess_reply_line; apply Hb|]. cbn. rewrite sess_reply_line. cbn.
    split; [done|]. rewrite to_unsigned_small by lia. lia.
  - apply bind_Ok_inv in H as (n & Hn & H). apply bind_Ok_inv in H as (i & Hi & H). injection H as <- <-.
    unfold iadd, checked_i32 in Hn. destruct (_ && _) eqn:E; [|done]. injection Hn as <-.
    destruct (makeItem_inv _ _ _ _ _ _ Hi) as [H2 ->]; [exact Hk|lia|].
    split; [exact Hb|]. cbn. eexists k, _, _, _, _, []. split; [done|]. split_and!; [exact Hk|lia|lia|rewrite size_of_nil; lia|done].
Qed.

Lemma get_loop_inv cas keys : ∀ w all w',
  base_ok (sess w) → get_loop hash cas keys w = Ok (all, w') →
  base_ok (sess w') ∧ state_ (sess w') = state_ (sess w).
Proof.
  induction keys as [|k keys IH]; intros w all w' Hb H; cbn in H; [by injection H as <- <-|].
  destruct (Z.leb_spec (size_of k) kLongestKeySize) as [Hk|Hk]; cbn [negb] in H.
  - apply bind_Ok_inv in H as (i & Hi & H). apply bind_Ok_inv in H as (out & _ & H).
    destruct (resetKey_ok _ _ _ Hi) as (Hn & _); [apply Hb|exact Hk|].
    apply IH in H as [H1 H2]; [by split|]. split; [apply Hb|done].
  - injection H as <- <-. by rewrite sess_reply_line.
Qed.

Lemma doDelete_inv toks w w' :
  base_ok (sess w) → doDelete hash toks w = Ok w' → base_ok (sess w') ∧ state_ (sess w') = state_ (sess w).
Proof.
  intros Hb H. unfold doDelete in H. apply bind_Ok_inv in H as (_ & _ & H). apply bind_Ok_inv in H as ([k toks'] & _ & H).
  destruct (Z.leb_spec (size_of k) kLongestKeySize) as [Hk|Hk]; cbn [negb] in H; [|injection H as <-; by rewrite sess_reply_line].
  destruct (match toks' with t :: _ => negb (bool_decide (t = lit "0")) | [] => false end); [injection H as <-; by rewrite sess_reply_line|].
  apply bind_Ok_inv in H as (i & Hi & H). destruct (resetKey_ok _ _ _ Hi) as (Hn & _); [apply Hb|exact Hk|].
  destruct (deleteItem _ _) as [b st]. injection H as <-.
  destruct b; rewrite sess_reply_line; (split; [split; [apply Hb|done]|done]).
Qed.

Lemma processRequest_inv request w fin w' :
  sess_inv (sess w) → state_ (sess w) = kNewCommand → processRequest hash startTime_ request w = Ok (fin, w') →
  sess_inv (sess (if fin then on_sess resetRequest w' else w')).
Proof.
  intros [Hb Hc] Hst H. rewrite Hst in Hc. destruct Hc as (H1 & H2 & H3 & H4 & H5). unfold processRequest in H.
  do 5 apply bind_Ok_inv in H as (_ & _ & H).
  destruct (strip_noreply request) as [nr request'].
  set (w1 := if nr then _ else _) in H.
  assert (base_ok (sess w1) ∧ state_ (sess w1) = kNewCommand ∧ currItem_ (sess w1) = None) as (Hb1 & Hst1 & Hi1)
    by (subst w1; by destruct nr).
  clearbody w1. clear H1 H2 H3 H4 H5.
  assert (∀ w2, base_ok (sess w2) → state_ (sess w2) = kNewCommand → Ok (fin, w') = Ok (true, w2) →
    sess_inv (sess (if fin then on_sess resetRequest w' else w'))) as Hfin.
  { intros w2 Hb2 Hs2 [= -> ->]. by apply reset_inv. }
  destruct (tokens request') as [|command toks].
  { eapply Hfin; [| |symmetry; exact H]; by rewrite sess_reply_line. }
  set (w2 := on_sess (set_command command) w1) in H.
  assert (base_ok (sess w2) ∧ state_ (sess w2) = kNewCommand ∧ currItem_ (sess w2) = None) as (Hb2 & Hst2 & Hi2) by done.
  clearbody w2. destruct (command_policy command).
  { pose proof (doUpdate_inv _ _ _ _ Hb2 Hst2 Hi2 H) as Hu. destruct fin; [|done]. destruct Hu. by apply reset_inv. }
  destruct (_ || _).
  { apply bind_Ok_inv in H as ([all w3] & Hg & H). destruct (get_loop_inv _ _ _ _ _ Hb2 Hg) as [Hb3 Hst3].
    rewrite Hst2 in Hst3. destruct all; [|by apply (Hfin w3)]. eapply Hfin; [| |symmetry; exact H];
      unfold conn_send_outputBuf, conn_send; cbn; by destruct (connected w3). }
  destruct (bool_decide _).
  { apply bind_Ok_inv in H as (w3 & Hg & H). destruct (doDelete_inv _ _ _ Hb2 Hg) as [Hb3 Hst3].
    apply (Hfin w3); [done|congruence|done]. }
  repeat (destruct (bool_decide _); [eapply Hfin; [| |symmetry; exact H]; by rewrite ?sess_reply_line|]).
  eapply Hfin; [| |symmetry; exact H]; by rewrite sess_reply_line.
Qed.

(** ** Values *)

Lemma receive_part buf w k flags exptime len cas got :
  state_ (sess w) = kReceiveValue → currItem_ (sess w) = Some (item_part hash k flags exptime len cas got) →
  key_ok k → 2 ≤ len ≤ 2 ^ 20 + 2 → size_of got < len →
  let n := Z.to_nat (len - size_of got) in
  receiveValue hash buf w =
    if size_of buf <? len - size_of got
    then Ok ([], on_sess (set_currItem (Some (item_part hash k flags exptime len cas (got ++ buf)))) w)
    else w ← finishValue hash (item_part hash k flags exptime len cas (got ++ take n buf)) w; mret (drop n buf, w).
Proof.
  intros Hst Hi Hk Hl Hg n. pose proof (size_of_nonneg buf). pose proof (size_of_nonneg got).
  unfold receiveValue. rewrite Hi. rewrite bool_decide_true by done. run_ok.
  rewrite part_needs by (done || lia). unfold slice. cbn [Z.to_nat]. rewrite drop_0, Z.sub_0_r.
  destruct (Z.ltb_spec (size_of buf) (len - size_of got)) as [Hlt|Hge].
  - rewrite Z.min_l by lia. rewrite take_ge by (unfold size_of; lia). rewrite drop_ge by (unfold size_of; lia).
    rewrite part_append by (done || lia). run_ok. rewrite part_needs by (done || (rewrite size_of_app; lia)).
    rewrite (proj2 (Z.eqb_neq _ _)) by (rewrite size_of_app; lia). done.
  - rewrite Z.min_r by lia. fold n. assert (size_of (take n buf) = len - size_of got) as Hn.
    { subst n. rewrite size_of_take by lia. done. }
    rewrite part_append by (done || lia). run_ok. rewrite part_needs by (done || (rewrite size_of_app; lia)).
    rewrite (proj2 (Z.eqb_eq _ _)) by (rewrite size_of_app; lia). done.
Qed.

Lemma finishValue_inv item w w' : base_ok (sess w) → finishValue hash item w = Ok w' → sess_inv (sess w').
Proof.
  intros Hb H. unfold finishValue in H. apply bind_Ok_inv in H as (w1 & H1 & H). injection H as <-.
  assert (sess w1 = sess w) as Hs.
  { destruct (endsWithCRLF item); [|injection H1 as <-; apply sess_reply_line].
    apply bind_Ok_inv in H1 as ([[b x] s] & _ & H1). injection H1 as <-. by rewrite sess_reply_stored. }
  cbn. rewrite Hs. split; [exact Hb|]. by repeat split.
Qed.

(** What the item was before does not matter any more. *)
Lemma finishValue_currItem item i w : finishValue hash item (on_sess (set_currItem i) w) = finishValue hash item w.
Proof.
  unfold finishValue. cbn [sess store policy_ on_sess with_sess set_currItem].
  assert (∀ msg w1 w2, sess w1 = set_currItem i (sess w2) → store w1 = store w2 → connected w1 = connected w2 → sent w1 = sent w2 →
    stopping w1 = stopping w2 → on_sess (λ s, set_state kNewCommand (resetRequest s)) (reply_line msg w1) =
    on_sess (λ s, set_state kNewCommand (resetRequest s)) (reply_line msg w2)) as Hreply.
  { intros msg [] []. cbn. intros -> -> -> -> ->. unfold reply_line, reply, conn_send. cbn.
    by repeat case_match. }
  destruct (endsWithCRLF item); [|cbn; f_equal; by apply Hreply].
  destruct (storeItem _ _ _ _) as [[[b x] st]|]; [|done]. cbn [mbind outcome_bind mret outcome_ret]. f_equal.
  unfold reply_stored. cbn [sess with_store policy_ on_sess with_sess set_currItem].
  destruct b; [by apply Hreply|]. destruct (bool_decide _); [|by apply Hreply]. destruct x; by apply Hreply.
Qed.

(** ** Turns *)

Lemma turn_command buf w :
  state_ (sess w) = kNewCommand → protocol_ (sess w) = kAscii →
  turn hash startTime_ buf w =
    match first_crlf buf with
    | Some n => '(finished, w) ← processRequest hash startTime_ (take n buf) w;
                mret (true, drop (n + 2) buf, if finished : bool then on_sess resetRequest w else w)
    | None => mret (false, buf, if 1024 <? size_of buf then conn_shutdown w else w)
    end.
Proof.
  intros Hst Hp. unfold turn. rewrite Hst. rewrite (bool_decide_false (protocol_ (sess w) = kAuto)) by congruence.
  run_ok. by rewrite (bool_decide_false (protocol_ (sess w) = kBinary)) by congruence.
Qed.

Lemma turn_inv buf w b buf' w' :
  sess_inv (sess w) → buf ≠ [] → turn hash startTime_ buf w = Ok (b, buf', w') → sess_inv (sess w').
Proof.
  intros Hinv Hne H. pose proof Hinv as [Hb Hc]. destruct (state_ (sess w)) eqn:Hst; [|unfold turn in H; rewrite Hst in H..].
  - rewrite (turn_command _ _ Hst (proj1 Hb)) in H.
    destruct (first_crlf buf) as [n|].
    + apply bind_Ok_inv in H as ([fin w1] & H1 & H). injection H as <- <- <-.
      by eapply processRequest_inv.
    + injection H as <- <- <-. by destruct (1024 <? size_of buf).
  - apply bind_Ok_inv in H as ([buf1 w1] & H1 & H). injection H as <- <- <-.
    destruct Hc as (k & flags & exptime & len & cas & got & Hi & Hk & Hl & Hg & Hp).
    rewrite (receive_part _ _ _ _ _ _ _ _ Hst Hi Hk Hl Hg) in H1.
    destruct (Z.ltb_spec (size_of buf) (len - size_of got)).
    + injection H1 as <- <-. split; [exact Hb|]. cbn. rewrite Hst. do 6 eexists. split; [done|].
      split_and!; [done|lia|lia|rewrite size_of_app; lia|done].
    + apply bind_Ok_inv in H1 as (w2 & H2 & H1). injection H1 as <- <-. by eapply finishValue_inv.
  - apply bind_Ok_inv in H as ([buf1 w1] & H1 & H). injection H as <- <- <-. unfold discardValue in H1.
    do 2 apply bind_Ok_inv in H1 as (_ & _ & H1). destruct Hc as [Hi Hd].
    destruct (Z.ltb_spec (size_of buf) (bytesToDiscard_ (sess w))).
    + injection H1 as <- <-. split; [exact Hb|]. cbn. rewrite Hst. split; [done|]. cbn. lia.
    + injection H1 as <- <-. split; [exact Hb|]. by repeat split.
Qed.

(** ** onMessage returns *)

Definition busy (w : World) : nat := if state_ (sess w) is kNewCommand then 0 else 1.

Lemma turn_shrinks buf w buf' w' :
  sess_inv (sess w) → buf ≠ [] → turn hash startTime_ buf w = Ok (true, buf', w') →
  (2 * length buf' + busy w' < 2 * length buf + busy w)%nat.
Proof.
  intros Hinv Hne H. pose proof Hinv as [Hb Hc]. unfold busy at 2.
  destruct (state_ (sess w)) eqn:Hst; [|unfold turn in H; rewrite Hst in H..].
  - rewrite (turn_command _ _ Hst (proj1 Hb)) in H.
    destruct (first_crlf buf) as [n|] eqn:Hn'; [|done]. pose proof (first_crlf_lt _ _ Hn').
    apply bind_Ok_inv in H as ([fin w1] & H1 & H). injection H as <- <-. rewrite length_drop. unfold busy. case_match; lia.
  - apply bind_Ok_inv in H as ([buf1 w1] & H1 & H). injection H as <- <-.
    destruct Hc as (k & flags & exptime & len & cas & got & Hi & Hk & Hl & Hg & Hp).
    rewrite (receive_part _ _ _ _ _ _ _ _ Hst Hi Hk Hl Hg) in H1.
    destruct (Z.ltb_spec (size_of buf) (len - size_of got)).
    + injection H1 as <- <-. destruct buf; [done|]. unfold busy. cbn. case_match; lia.
    + apply bind_Ok_inv in H1 as (w2 & H2 & H1). injection H1 as <- <-. rewrite length_drop. unfold size_of in *.
      unfold busy. case_match; lia.
  - apply bind_Ok_inv in H as ([buf1 w1] & H1 & H). injection H as <- <-. unfold discardValue in H1.
    do 2 apply bind_Ok_inv in H1 as (_ & _ & H1). destruct Hc as [Hi Hd].
    destruct (Z.ltb_spec (size_of buf) (bytesToDiscard_ (sess w))).
    + injection H1 as <- <-. destruct buf; [done|]. unfold busy. cbn. case_match; lia.
    + injection H1 as <- <-. rewrite length_drop. unfold size_of in *. unfold busy. case_match; lia.
Qed.

Lemma loop_returns fuel : ∀ buf w,
  sess_inv (sess w) → (2 * length buf + busy w < fuel)%nat → ∃ r, message_loop hash startTime_ fuel buf w = Some r.
Proof.
  induction fuel as [|fuel IH]; intros buf w Hinv Hf; [lia|]. cbn [message_loop].
  destruct buf as [|x buf]; [by eexists|]. destruct (turn hash startTime_ (x :: buf) w) as [[[[] buf'] w']|f] eqn:Ht; [|by eexists..].
  assert (x :: buf ≠ []) as Hne by done. apply IH; [by apply (turn_inv _ _ _ _ _ Hinv Hne Ht)|].
  pose proof (turn_shrinks _ _ _ _ Hinv Hne Ht). lia.
Qed.

(** ** Segments *)

(** The loop comes to the result [r]. *)
Definition runs (buf : list byte) (w : World) (r : outcome (list byte * World)) : Prop :=
  ∃ fuel, message_loop hash startTime_ fuel buf w = Some r.

Lemma loop_mono fuel : ∀ fuel' buf w r,
  message_loop hash startTime_ fuel buf w = Some r → (fuel ≤ fuel')%nat → message_loop hash startTime_ fuel' buf w = Some r.
Proof.
  induction fuel as [|fuel IH]; intros [|fuel'] buf w r H Hle; try done; [lia|]. cbn [message_loop] in *.
  destruct buf; [done|]. destruct (turn _ _ _ _) as [[[[] ?] ?]|]; try done. apply IH; [done|lia].
Qed.

Lemma runs_det buf w r r' : runs buf w r → runs buf w r' → r = r'.
Proof.
  intros [f H] [f' H']. apply (loop_mono _ (f `max` f')) in H; [|lia]. apply (loop_mono _ (f `max` f')) in H'; [|lia]. congruence.
Qed.

Lemma runs_nil w : runs [] w (Ok ([], w)).
Proof. by exists 1%nat. Qed.

Lemma runs_turn buf w buf' w' r :
  buf ≠ [] → turn hash startTime_ buf w = Ok (true, buf', w') → runs buf' w' r → runs buf w r.
Proof. intros Hne Ht [f H]. exists (S f). destruct buf; [done|]. cbn [message_loop]. by rewrite Ht. Qed.

Lemma runs_fault buf w f : buf ≠ [] → turn hash startTime_ buf w = Fault f → runs buf w (Fault f).
Proof. intros Hne Ht. exists 1%nat. destruct buf; [done|]. cbn [message_loop]. by rewrite Ht. Qed.

Lemma runs_total buf w : sess_inv (sess w) →
  ∃ r, runs buf w r ∧ message_loop hash startTime_ (message_fuel buf) buf w = Some r.
Proof.
  intros Hinv. destruct (loop_returns (message_fuel buf) buf w Hinv) as [r Hr].
  { unfold message_fuel, busy. case_match; lia. }
  exists r. split; [by eexists|done].
Qed.

(** What a turn does when more bytes follow. *)
Inductive turn_more (b1 : list byte) (w : World) : Prop :=
  | more_same :
      (∀ b2, turn hash startTime_ (b1 ++ b2) w =
         match turn hash startTime_ b1 w with
         | Ok (b, b1', w') => Ok (true, b1' ++ b2, w')
         | Fault f => Fault f
         end) →
      (∀ b b1' w', turn hash startTime_ b1 w = Ok (b, b1', w') → b = true) → turn_more b1 w
  | more_value w' :
      turn hash startTime_ b1 w = Ok (true, [], w') →
      (∀ b2, turn hash startTime_ (b1 ++ b2) w = turn hash startTime_ b2 w') → turn_more b1 w
  | more_line :
      turn hash startTime_ b1 w = Ok (false, b1, if 1024 <? size_of b1 then conn_shutdown w else w) → turn_more b1 w.

Lemma command_more b1 w : sess_inv (sess w) → state_ (sess w) = kNewCommand → turn_more b1 w.
Proof.
  intros [Hb _] Hst.
  destruct (first_crlf b1) as [n|] eqn:Hn.
  - pose proof (first_crlf_lt _ _ Hn) as Hlt. apply more_same.
    + intros b2. rewrite !(turn_command _ _ Hst (proj1 Hb)), Hn, (first_crlf_app _ _ _ Hn).
      rewrite take_app_le by lia. destruct (processRequest _ _ _ w) as [[fin w1]|]; [|done]. cbn.
      by rewrite drop_app_le by lia.
    + intros b b1' w'. rewrite (turn_command _ _ Hst (proj1 Hb)), Hn. intros ([fin w1] & _ & H)%bind_Ok_inv. by injection H.
  - apply more_line. by rewrite (turn_command _ _ Hst (proj1 Hb)), Hn.
Qed.

Lemma value_more b1 w : sess_inv (sess w) → state_ (sess w) = kReceiveValue → turn_more b1 w.
Proof.
  intros [Hb Hc] Hst. rewrite Hst in Hc.
  destruct Hc as (k & flags & exptime & len & cas & got & Hi & Hk & Hl & Hg & Hp).
  assert (∀ buf, turn hash startTime_ buf w = '(buf, w) ← receiveValue hash buf w; mret (true, buf, w)) as Ht
    by (intros buf; unfold turn; by rewrite Hst).
  pose proof (λ buf, receive_part buf _ _ _ _ _ _ _ Hst Hi Hk Hl Hg) as Hr. cbv zeta in Hr.
  destruct (Z.ltb_spec (size_of b1) (len - size_of got)) as [Hlt|Hge].
  - eapply (more_value _ _ (on_sess (set_currItem (Some (item_part hash k flags exptime len cas (got ++ b1)))) w)).
    + rewrite Ht, Hr, (proj2 (Z.ltb_lt _ _)) by done. done.
    + intros b2. rewrite Ht, Hr. unfold turn. cbn [state_ sess on_sess with_sess set_currItem]. rewrite Hst.
      rewrite (receive_part b2 (on_sess _ w) k flags exptime len cas (got ++ b1)) by (done || (rewrite ?size_of_app; lia)).
      rewrite !size_of_app. pose proof (size_of_nonneg b2).
      destruct (Z.ltb_spec (size_of b1 + size_of b2) (len - size_of got)) as [Hlt2|Hge2].
      * rewrite (proj2 (Z.ltb_lt _ _)) by lia. cbn. by rewrite app_assoc.
      * rewrite (proj2 (Z.ltb_ge _ _)) by lia.
         assert (Z.to_nat (len - size_of got) = (length b1 + Z.to_nat (len - (size_of got + size_of b1)))%nat) as ->
           by (unfold size_of in *; lia).
         rewrite take_app_add, drop_app_add, app_assoc. by rewrite finishValue_currItem.
  - apply more_same.
    + intros b2. rewrite !Ht, !Hr, size_of_app. pose proof (size_of_nonneg b2).
      rewrite !(proj2 (Z.ltb_ge _ _)) by lia. rewrite take_app_le, drop_app_le by (unfold size_of in *; lia).
      destruct (finishValue _ _ w); done.
    + intros b b1' w'. rewrite Ht. intros ([? ?] & _ & H)%bind_Ok_inv. by injection H.
Qed.

Lemma discard_more b1 w : sess_inv (sess w) → state_ (sess w) = kDiscardValue → turn_more b1 w.
Proof.
  intros [Hb Hc] Hst. rewrite Hst in Hc.
  destruct Hc as [Hi Hd].
  assert (∀ buf, turn hash startTime_ buf w = '(buf, w) ← discardValue buf w; mret (true, buf, w)) as Ht
    by (intros buf; unfold turn; by rewrite Hst).
  assert (∀ buf w1, currItem_ (sess w1) = None → state_ (sess w1) = kDiscardValue → discardValue buf w1 =
    if size_of buf <? bytesToDiscard_ (sess w1) then
      Ok ([], on_sess (set_bytesToDiscard (bytesToDiscard_ (sess w1) - size_of buf)) w1)
    else Ok (drop (Z.to_nat (bytesToDiscard_ (sess w1))) buf,
          on_sess (λ s, set_state kNewCommand (resetRequest (set_bytesToDiscard 0 s))) w1)) as Hr.
  { intros buf w1 Hi1 Hst1. unfold discardValue. rewrite !bool_decide_true by done. do 2 run_ok. by destruct (_ <? _). }
  destruct (Z.ltb_spec (size_of b1) (bytesToDiscard_ (sess w))) as [Hlt|Hge].
  - eapply (more_value _ _ (on_sess (set_bytesToDiscard (bytesToDiscard_ (sess w) - size_of b1)) w)).
    + rewrite Ht, Hr, (proj2 (Z.ltb_lt _ _)) by done. done.
    + intros b2. rewrite Ht, Hr by done. unfold turn. cbn [state_ sess on_sess with_sess set_bytesToDiscard]. rewrite Hst.
      rewrite Hr by done. cbn [bytesToDiscard_ sess on_sess with_sess set_bytesToDiscard].
      rewrite size_of_app. destruct (Z.ltb_spec (size_of b1 + size_of b2) (bytesToDiscard_ (sess w))) as [Hlt2|Hge2].
      * rewrite (proj2 (Z.ltb_lt _ _)) by lia. cbn.
         by replace (bytesToDiscard_ (sess w) - size_of b1 - size_of b2) with (bytesToDiscard_ (sess w) - (size_of b1 + size_of b2)) by lia.
      * rewrite (proj2 (Z.ltb_ge _ _)) by lia. cbn. rewrite drop_app_ge by (unfold size_of in *; lia).
         do 3 f_equal. f_equal. unfold size_of in *. lia.
  - apply more_same.
    + intros b2. rewrite !Ht, !Hr, size_of_app by done. pose proof (size_of_nonneg b2).
      rewrite !(proj2 (Z.ltb_ge _ _)) by lia. cbn. by rewrite drop_app_le by (unfold size_of in *; lia).
    + intros b b1' w'. rewrite Ht. intros ([? ?] & _ & H)%bind_Ok_inv. by injection H.
Qed.

Lemma turn_app b1 w : sess_inv (sess w) → turn_more b1 w.
Proof.
  intros Hinv. destruct (state_ (sess w)) eqn:Hst; [by apply command_more|by apply value_more|by apply discard_more].
Qed.

Lemma runs_inv b w r w' : sess_inv (sess w) → runs b w (Ok (r, w')) → sess_inv (sess w').
Proof.
  intros Hinv [fuel H]. revert b w Hinv H. induction fuel as [|fuel IH]; intros b w Hinv H; [done|].
  cbn [message_loop] in H. destruct b as [|x b]; [by injection H as <- <-|].
  assert (x :: b ≠ []) as Hne by done.
  destruct (turn hash startTime_ (x :: b) w) as [[[[] b'] w1]|] eqn:Ht; try done.
  - apply (IH b' w1); [by apply (turn_inv _ _ _ _ _ Hinv Hne Ht)|done].
  - injection H as <- <-. by apply (turn_inv _ _ _ _ _ Hinv Hne Ht).
Qed.

(** Going on after a first part is going over the whole. *)
Lemma runs_app b1 w r1 b2 r :
  sess_inv (sess w) → runs b1 w r1 →
  match r1 with
  | Ok (rest, w1) => size_of rest ≤ 1024 ∧ runs (rest ++ b2) w1 r
  | Fault f => r = Fault f
  end → runs (b1 ++ b2) w r.
Proof.
  intros Hinv [fuel H]. revert b1 w Hinv H. induction fuel as [|fuel IH]; intros b1 w Hinv H Hr; [done|].
  cbn [message_loop] in H. destruct b1 as [|x b1]; [by injection H as <-; destruct Hr|].
  assert (x :: b1 ≠ []) as Hne by done. set (b := x :: b1) in *. clearbody b. clear x b1.
  assert (b ++ b2 ≠ []) as Hne2 by (intros [? _]%app_nil; done).
  destruct (turn_app b w Hinv) as [Hsame Htrue|w' Hv Hmore|Hline].
  - specialize (Hsame b2). destruct (turn hash startTime_ b w) as [[[[] b'] w']|f] eqn:Ht.
    + eapply runs_turn; [done|exact Hsame|]. apply IH; [by apply (turn_inv _ _ _ _ _ Hinv Hne Ht)|done|done].
    + by specialize (Htrue _ _ _ eq_refl).
    + injection H as <-. subst r. by apply runs_fault.
  - rewrite Hv in H. assert (runs [] w' r1) as Hr1 by (by exists fuel).
    apply (runs_det _ _ _ _ (runs_nil w')) in Hr1. subst r1. destruct Hr as [_ Hr]. cbn in Hr.
    destruct b2 as [|y b2]; [rewrite app_nil_r; by eapply runs_turn|].
    destruct Hr as [f Hr]. destruct f; [done|]. cbn [message_loop] in Hr. exists (S f).
    destruct (b ++ y :: b2) eqn:E; [by destruct b|]. cbn [message_loop]. rewrite <- E, Hmore. exact Hr.
  - rewrite Hline in H. injection H as <-. destruct Hr as [Hsz Hr]. by rewrite (proj2 (Z.ltb_ge _ _)) in Hr.
Qed.

(** ** The count of bytes is only a count *)

Definition recount (n : Z) : World → World := on_sess (set_bytesRead n).

Definition mapped {A B} (f : A → B) (m : outcome A) : outcome B :=
  match m with Ok a => Ok (f a) | Fault e => Fault e end.

Lemma mapped_bind {A B C} (f : B → C) (m : outcome A) (k : A → outcome B) : mapped f (m ≫= k) = m ≫= λ a, mapped f (k a).
Proof. by destruct m. Qed.

Lemma bind_ext {A B} (m : outcome A) (f g : A → outcome B) : (∀ a, f a = g a) → m ≫= f = m ≫= g.
Proof. intros H. by destruct m; cbn. Qed.

Lemma reply_line_recount msg n w : reply_line msg (recount n w) = recount n (reply_line msg w).
Proof. destruct w. unfold reply_line, reply, conn_send. cbn. by repeat case_match. Qed.

Lemma reply_stored_recount b x n w : reply_stored b x (recount n w) = recount n (reply_stored b x w).
Proof. unfold reply_stored. destruct b; [apply reply_line_recount|]. cbn. repeat case_match; apply reply_line_recount. Qed.

Lemma finishValue_recount item n w : finishValue hash item (recount n w) = mapped (recount n) (finishValue hash item w).
Proof.
  unfold finishValue. cbn [sess store policy_ recount on_sess with_sess set_bytesRead].
  destruct (endsWithCRLF item); [|cbn; by rewrite reply_line_recount].
  destruct (storeItem _ _ _ _) as [[[b x] st]|]; [|done]. cbn [mbind outcome_bind mret outcome_ret mapped].
  change (with_store st (recount n w)) with (recount n (with_store st w)). by rewrite reply_stored_recount.
Qed.

Lemma receiveValue_recount buf n w :
  receiveValue hash buf (recount n w) = mapped (λ '(b, w), (b, recount n w)) (receiveValue hash buf w).
Proof.
  unfold receiveValue. cbn [sess currItem_ state_ recount on_sess with_sess set_bytesRead].
  destruct (currItem_ (sess w)) as [item|]; [|done]. rewrite mapped_bind. apply bind_ext. intros _.
  rewrite mapped_bind. apply bind_ext. intros i. destruct (_ =? 0); [|done].
  change (on_sess (set_bytesRead n) w) with (recount n w). rewrite finishValue_recount. by destruct (finishValue _ _ _).
Qed.

Lemma discardValue_recount buf n w :
  discardValue buf (recount n w) = mapped (λ '(b, w), (b, recount n w)) (discardValue buf w).
Proof.
  unfold discardValue. cbn [sess currItem_ state_ bytesToDiscard_ recount on_sess with_sess set_bytesRead].
  rewrite !mapped_bind. do 2 (apply bind_ext; intros _). by destruct (_ <? _).
Qed.

Lemma doUpdate_recount toks n w :
  doUpdate hash startTime_ toks (recount n w) = mapped (λ '(b, w), (b, recount n w)) (doUpdate hash startTime_ toks w).
Proof.
  unfold doUpdate. cbn [sess command_ recount on_sess with_sess set_bytesRead].
  destruct (command_policy _) as [p|]; [|done].
  change (on_sess (set_policy p) (recount n w)) with (recount n (on_sess (set_policy p) w)).
  set (w1 := on_sess (set_policy p) w). rewrite mapped_bind. apply bind_ext. intros [k toks'].
  destruct (if _ <=? _ then _ else _) as [[[[flags exptime] bytes] toks2]|]; [|cbn; by rewrite reply_line_recount].
  destruct (if bool_decide _ then _ else _) as [cas|]; [|cbn; by rewrite reply_line_recount].
  destruct (1024 * 1024 <? bytes).
  - rewrite reply_line_recount. cbn [sess store recount on_sess with_sess set_bytesRead needle_].
    rewrite mapped_bind. apply bind_ext. intros i. destruct (deleteItem _ _) as [b st].
    rewrite mapped_bind. apply bind_ext. done.
  - rewrite mapped_bind. apply bind_ext. intros m. rewrite mapped_bind. apply bind_ext. done.
Qed.

Lemma doDelete_recount toks n w : doDelete hash toks (recount n w) = mapped (recount n) (doDelete hash toks w).
Proof.
  unfold doDelete. cbn [sess command_ recount on_sess with_sess set_bytesRead needle_ store].
  rewrite mapped_bind. apply bind_ext. intros _. rewrite mapped_bind. apply bind_ext. intros [k toks'].
  change (on_sess (set_bytesRead n) w) with (recount n w). rewrite !reply_line_recount.
  destruct (negb (_ <=? _)); [done|].
  destruct (match toks' with t :: _ => negb (bool_decide (t = lit "0")) | [] => false end); [done|].
  rewrite mapped_bind. apply bind_ext. intros i. destruct (deleteItem _ _) as [b st]. cbn.
  set (w1 := on_sess (set_needle i) (with_store st w)).
  change (on_sess (set_needle i) (with_store st (recount n w))) with (recount n w1). rewrite !reply_line_recount. by destruct b.
Qed.

Lemma get_loop_recount cas keys n : ∀ w,
  get_loop hash cas keys (recount n w) = mapped (λ '(b, w), (b, recount n w)) (get_loop hash cas keys w).
Proof.
  induction keys as [|k keys IH]; intros w; [done|]. cbn [get_loop]. rewrite reply_line_recount.
  destruct (negb _); [done|]. cbn [sess needle_ recount on_sess with_sess set_bytesRead].
  rewrite mapped_bind. apply bind_ext. intros i. cbn [sess store outputBuf_ on_sess with_sess set_needle].
  rewrite mapped_bind. apply bind_ext. intros out.
  by rewrite <- IH.
Qed.

Lemma processRequest_recount request n w :
  processRequest hash startTime_ request (recount n w) =
  mapped (λ '(b, w), (b, recount n w)) (processRequest hash startTime_ request w).
Proof.
  unfold processRequest.
  cbn [sess command_ noreply_ policy_ currItem_ bytesToDiscard_ recount on_sess with_sess set_bytesRead].
  do 5 (rewrite mapped_bind; apply bind_ext; intros _).
  change (on_sess count_request (recount n w)) with (recount n (on_sess count_request w)).
  set (w1 := on_sess count_request w). destruct (strip_noreply request) as [nr request'].
  set (w2 := if nr then on_sess (set_noreply true) w1 else w1).
  assert ((if nr then on_sess (set_noreply true) (recount n w1) else recount n w1) = recount n w2) as ->
    by (subst w2; by destruct nr).
  rewrite reply_line_recount. destruct (tokens request') as [|command toks]; [done|].
  set (w3 := on_sess (set_command command) w2).
  change (on_sess (set_command command) (recount n w2)) with (recount n w3).
  rewrite !reply_line_recount, doUpdate_recount, get_loop_recount, doDelete_recount.
  destruct (command_policy command); [done|]. destruct (_ || _).
  { destruct (get_loop _ _ _ _) as [[[] w4]|]; cbn; [|done..]. unfold conn_send_outputBuf, conn_send. cbn. by destruct (connected w4). }
  destruct (bool_decide _); [by destruct (doDelete _ _ _)|].
  repeat (destruct (bool_decide _); [done|]). done.
Qed.

Lemma turn_recount buf n w : protocol_ (sess w) = kAscii →
  turn hash startTime_ buf (recount n w) = mapped (λ '(b, buf, w), (b, buf, recount n w)) (turn hash startTime_ buf w).
Proof.
  intros Hp. destruct (state_ (sess w)) eqn:Hst.
  - rewrite !turn_command by done. destruct (first_crlf buf) as [k|].
    + rewrite processRequest_recount. by destruct (processRequest _ _ _ w) as [[[] w1]|].
    + by destruct (1024 <? _).
  - unfold turn. cbn [sess state_ recount on_sess with_sess set_bytesRead]. rewrite Hst.
    change (on_sess (set_bytesRead n) w) with (recount n w). rewrite receiveValue_recount. by destruct (receiveValue _ _ w) as [[? ?]|].
  - unfold turn. cbn [sess state_ recount on_sess with_sess set_bytesRead]. rewrite Hst.
    change (on_sess (set_bytesRead n) w) with (recount n w). rewrite discardValue_recount. by destruct (discardValue _ w) as [[? ?]|].
Qed.

Lemma runs_recount buf w r n :
  sess_inv (sess w) → runs buf w r → runs buf (recount n w) (mapped (λ '(b, w), (b, recount n w)) r).
Proof.
  intros Hinv [fuel H]. exists fuel. revert buf w Hinv H. induction fuel as [|fuel IH]; intros buf w Hinv H; [done|].
  cbn [message_loop] in *. destruct buf as [|x buf]; [by injection H as <-|].
  assert (x :: buf ≠ []) as Hne by done. rewrite turn_recount by apply Hinv.
  destruct (turn hash startTime_ (x :: buf) w) as [[[[] b'] w1]|] eqn:Ht; cbn; [|by injection H as <-..].
  apply IH; [by apply (turn_inv _ _ _ _ _ Hinv Hne Ht)|done].
Qed.

(** ** Segmentation *)

Lemma recount_same w : recount (bytesRead_ (sess w)) w = w.
Proof. by destruct w as [[] ? ? ? ?]. Qed.

Lemma runs_bytesRead b w rest w' : sess_inv (sess w) → runs b w (Ok (rest, w')) → bytesRead_ (sess w') = bytesRead_ (sess w).
Proof.
  intros Hinv H. pose proof (runs_recount _ _ _ (bytesRead_ (sess w)) Hinv H) as H'. rewrite recount_same in H'.
  pose proof (runs_det _ _ _ _ H H') as E. injection E as E. by rewrite E.
Qed.

(** What is left over is left over. *)
Lemma runs_rest b w rest w' : runs b w (Ok (rest, w')) → size_of rest ≤ 1024 → sess_inv (sess w) → runs rest w' (Ok (rest, w')).
Proof.
  intros [fuel H] Hsz. revert b w H. induction fuel as [|fuel IH]; intros b w H Hinv; [done|]. cbn [message_loop] in H.
  destruct b as [|x b]; [injection H as <- <-; apply runs_nil|]. assert (x :: b ≠ []) as Hne by done.
  destruct (turn_app (x :: b) w Hinv) as [Hsame Htrue|w1 Hv _|Hline].
  - destruct (turn hash startTime_ (x :: b) w) as [[[[] b'] w1]|] eqn:Ht; [|by specialize (Htrue _ _ _ eq_refl)|done].
    apply (IH b' w1); [done|by apply (turn_inv _ _ _ _ _ Hinv Hne Ht)].
  - rewrite Hv in H. apply (IH [] w1); [done|by apply (turn_inv _ _ _ _ _ Hinv Hne Hv)].
  - rewrite Hline in H. injection H as <- <-. rewrite (proj2 (Z.ltb_ge 1024 _)) in Hline |- * by done.
    exists 1%nat. cbn [message_loop]. by rewrite Hline.
Qed.

Definition counted (buf : list byte) : outcome (list byte * World) → outcome (list byte * World) :=
  mapped (λ '(rest, w), (rest, recount (u64 (bytesRead_ (sess w) + (size_of buf - size_of rest))) w)).

Lemma onMessage_runs buf w : sess_inv (sess w) → ∃ r, runs buf w r ∧ onMessage hash startTime_ buf w = Some (counted buf r).
Proof.
  intros Hinv. destruct (runs_total buf w Hinv) as (r & Hr & Hl). exists r. split; [done|].
  unfold onMessage. rewrite Hl. by destruct r as [[rest w']|].
Qed.

Lemma feed_runs chunks : ∀ buf w,
  sess_inv (sess w) → runs buf w (Ok (buf, w)) → 0 ≤ bytesRead_ (sess w) < 2 ^ 64 →
  (∀ b rest w', b `prefix_of` concat chunks → runs (buf ++ b) w (Ok (rest, w')) → size_of rest ≤ 1024) →
  feed hash startTime_ buf chunks w = onMessage hash startTime_ (buf ++ concat chunks) w.
Proof.
  induction chunks as [|c chunks IH]; intros buf w Hinv Hstable Hcount Hshort; cbn [feed concat].
  - rewrite app_nil_r. destruct (onMessage_runs buf w Hinv) as (r & Hr & ->).
    rewrite (runs_det _ _ _ _ Hr Hstable). cbn. rewrite Z.sub_diag, Z.add_0_r, to_unsigned_small by done.
    by rewrite recount_same.
  - destruct (onMessage_runs (buf ++ c) w Hinv) as (r1 & Hr1 & Hon). rewrite Hon.
    destruct (onMessage_runs (buf ++ c ++ concat chunks) w Hinv) as (r & Hr & ->). rewrite app_assoc in Hr |- *.
    destruct r1 as [[rest w1]|f]; cbn [counted mapped].
    2: { assert (runs ((buf ++ c) ++ concat chunks) w (Fault f)) as Hf by (by eapply runs_app).
         by rewrite (runs_det _ _ _ _ Hr Hf). }
    assert (size_of rest ≤ 1024) as Hsz by (apply (Hshort c rest w1); [by apply prefix_app_r|done]).
    pose proof (runs_inv _ _ _ _ Hinv Hr1) as Hinv1. pose proof (runs_bytesRead _ _ _ _ Hinv Hr1) as Ha.
    set (m := u64 _) in *. assert (0 ≤ m < 2 ^ 64) as Hm by (apply Z.mod_pos_bound; lia).
    assert (sess_inv (sess (recount m w1))) as Hinv1' by exact Hinv1.
    rewrite (IH rest (recount m w1)); [|done|exact (runs_recount _ _ _ m Hinv1 (runs_rest _ _ _ _ Hr1 Hsz Hinv))|exact Hm|].
    + destruct (runs_total (rest ++ concat chunks) w1 Hinv1) as (r2 & Hr2 & _).
      destruct (onMessage_runs (rest ++ concat chunks) (recount m w1) Hinv1') as (r2' & Hr2' & ->).
      rewrite (runs_det _ _ _ _ Hr2' (runs_recount _ _ _ m Hinv1 Hr2)).
      assert (r = r2) as ->.
      { eapply runs_det; [exact Hr|]. eapply runs_app; [done|exact Hr1|]. by split. }
      destruct r2 as [[rest2 w2]|]; [|done]. cbn. do 3 f_equal.
      pose proof (runs_bytesRead _ _ _ _ Hinv1 Hr2) as Ha2.
      change (recount (u64 (m + (size_of (rest ++ concat chunks) - size_of rest2))) w2 =
        recount (u64 (bytesRead_ (sess w2) + (size_of ((buf ++ c) ++ concat chunks) - size_of rest2))) w2).
      f_equal. subst m. rewrite Ha2, Ha, !size_of_app. unfold to_unsigned. rewrite Z.add_mod_idemp_l by lia. f_equal. lia.
    + intros b rest2 w2 Hb H2. destruct (runs_total (rest ++ b) w1 Hinv1) as (r2 & Hr2 & _).
      pose proof (runs_det _ _ _ _ H2 (runs_recount _ _ _ m Hinv1 Hr2)) as E. destruct r2 as [[rest3 w3]|]; [|done].
      cbn in E. injection E as <- _. apply (Hshort (c ++ b) rest2 w3); [by apply prefix_app|].
      rewrite app_assoc. eapply runs_app; [done|exact Hr1|]. by split.
Qed.

(** A new session. *)
Definition fresh_session : Session :=
  mkSession kNewCommand kAscii [] false kInvalid None 0 (item_part hash kLongestKey 0 0 2 0 []) [] 0 0.

Lemma Session_new_fresh : Session_new hash = Ok fresh_session.
Proof. unfold Session_new. by rewrite makeItem_part by (lia || by vm_compute). Qed.

Lemma fresh_inv : sess_inv fresh_session.
Proof. split; [split; [done|]|by repeat split]. by vm_compute. Qed.

(** What is left was in the buffer. *)
Lemma loop_shrinks fuel : ∀ b w rest w', sess_inv (sess w) → message_loop hash startTime_ fuel b w = Some (Ok (rest, w')) →
  (2 * length rest ≤ 2 * length b + busy w)%nat.
Proof.
  induction fuel as [|fuel IH]; intros b w rest w' Hinv H; [done|]. cbn [message_loop] in H.
  destruct b as [|x b]; [injection H as <- <-; lia|]. assert (x :: b ≠ []) as Hne by done.
  destruct (turn hash startTime_ (x :: b) w) as [[[[] b'] w1]|] eqn:Ht; [| |done].
  - pose proof (turn_shrinks _ _ _ _ Hinv Hne Ht). pose proof (turn_inv _ _ _ _ _ Hinv Hne Ht) as Hinv1.
    specialize (IH _ _ _ _ Hinv1 H). lia.
  - injection H as <- <-. destruct (turn_app (x :: b) w Hinv) as [_ Htrue|w2 Hv _|Hline]; [by specialize (Htrue _ _ _ Ht)|congruence|].
    rewrite Hline in Ht. injection Ht as <- _. lia.
Qed.

(** Less than a thousand bytes in all leave no long line pending. *)
Lemma short_input b w rest w' :
  sess_inv (sess w) → state_ (sess w) = kNewCommand → size_of b ≤ 1024 →
  onMessage hash startTime_ b w = Some (Ok (rest, w')) → size_of rest ≤ 1024.
Proof.
  intros Hinv Hst Hb H. destruct (onMessage_runs b w Hinv) as (r & [fuel Hr] & Hon). rewrite Hon in H.
  destruct r as [[rest' w1]|]; [|done]. injection H as <- _. apply loop_shrinks in Hr; [|done]. unfold busy in Hr. rewrite Hst in Hr.
  unfold size_of in *. lia.
Qed.

(** Segments do not matter.  Whatever way the input of a session is cut into
    segments, as long as no beginning of it leaves an incomplete line of more
    than 1024 bytes pending: [onMessage] always returns, and in the end the
    session, the store, what was sent and what is left in the buffer are as if
    all the bytes had come at once, also when the input makes the server fail. *)
Theorem session_segmentation chunks w :
  sess_inv (sess w) → 0 ≤ bytesRead_ (sess w) < 2 ^ 64 →
  (∀ b rest w', b `prefix_of` concat chunks → onMessage hash startTime_ b w = Some (Ok (rest, w')) → size_of rest ≤ 1024) →
  feed hash startTime_ [] chunks w = onMessage hash startTime_ (concat chunks) w ∧
  ∃ r, feed hash startTime_ [] chunks w = Some r.
Proof.
  intros Hinv Hc Hshort. rewrite (feed_runs chunks [] w); [|done|apply runs_nil|done|].
  - split; [done|]. destruct (onMessage_runs (concat chunks) w Hinv) as (r & _ & Hr). by eexists.
  - intros b rest w' Hb Hr. destruct (onMessage_runs b w Hinv) as (r & Hr' & Hon). cbn [app] in Hr.
    rewrite (runs_det _ _ _ _ Hr' Hr) in Hon. cbn in Hon. exact (Hshort _ _ _ Hb Hon).
Qed.
End Session.

(** The same requests in one segment and byte by byte. *)
Lemma session_segmentation_witness :
  let input := lit "set a 0 0 3" ++ kCRLF ++ lit "xyz" ++ kCRLF ++ lit "get a" ++ kCRLF in
  let w := mkWorld (fresh_session size_of) Store_new true [] false in
  feed size_of 0 [] ((λ b, [b]) <$> input) w = onMessage size_of 0 input w.
Proof.
  intros input w. assert (concat ((λ b, [b]) <$> input) = input) as E by (by vm_compute).
  rewrite <- E at 2. apply (session_segmentation size_of 0 ((λ b, [b]) <$> input) w); [apply fresh_inv|done|].
  rewrite E. intros b rest w' [l Hl] H. apply (short_input size_of 0 b w rest w'); [apply fresh_inv|done| |done].
  apply (f_equal size_of) in Hl. rewrite size_of_app in Hl. pose proof (size_of_nonneg l).
  assert (size_of input ≤ 1024) by (by vm_compute). lia.
Defined.

(** ** Where requests go wrong *)

Definition after (w : World) (lines : list (list byte)) : option (outcome (list byte * World)) :=
  feed size_of 0 [] ((λ l, l ++ kCRLF) <$> lines) w.
Definition new_world : World := mkWorld (fresh_session size_of) Store_new true [] false.

(** A length of -1 makes the server fail its assertion that a value has two bytes. *)
Lemma negative_length_fails : after new_world [lit "set a 5 0 -1"] = Some (Fault (AssertFailure 28)).
Proof. by vm_compute. Qed.

(** The largest length overflows when the CR LF is added. *)
Lemma huge_length_overflows : after new_world [lit "set a 5 0 2147483647"] = Some (Fault Undefined).
Proof. by vm_compute. Qed.

(** A request without a key reads past the last token. *)
Lemma missing_key_fails :
  after new_world [lit "set"] = Some (Fault BadDeref) ∧ after new_world [lit "delete noreply"] = Some (Fault BadDeref).
Proof. split; by vm_compute. Qed.

Definition sent_after (lines : list (list byte)) : option (list byte) :=
  match after new_world lines with Some (Ok (_, w)) => Some (sent w) | _ => None end.

(** The values that a refused [get] has collected are sent with the next one. *)
Lemma stale_values_sent :
  sent_after [lit "set a 0 0 1"; lit "x"; lit "get a " ++ replicate 251 x61; lit "get b"] =
  Some (lit "STORED" ++ kCRLF ++ lit bad_format ++ kCRLF ++ lit "VALUE a 0 1" ++ kCRLF ++ lit "x" ++ kCRLF ++ lit "END" ++ kCRLF).
Proof. by vm_compute. Qed.

(** A long request is served if it comes at once, and the connection is shut down
    if it comes in two segments. *)
Lemma long_line_depends :
  let input := lit "get " ++ concat (replicate 512 (lit "a ")) ++ lit "b" ++ kCRLF in
  let connected_after chunks :=
    match feed size_of 0 [] chunks new_world with Some (Ok (_, w)) => Some (connected w) | _ => None end in
  connected_after [input] = Some true ∧ connected_after [take 1028 input; drop 1028 input] = Some false.
Proof. split; by vm_compute. Qed.
