(* ===== verification/MemcachedCommands.v ===== *)
(** * A memcached server: commands and answers

    Commands as a client writes them, what the table of [Memcached] answers, and
    that a session does just that, however its input is cut into segments. *)
From Stdlib Require Import Strings.Byte.
From stdpp Require Import base numbers list strings gmap.
From S2P Require Import Prelude Printf Buffer ByteQueue Date LogStream Memcached MemcachedSession MemcachedSpec.
Open Scope Z_scope.
Open Scope muduo_scope.

(** ** Words *)

Definition word (t : list byte) : Prop := t ≠ [] ∧ x20 ∉ t.

Fixpoint join (toks : list (list byte)) : list byte :=
  match toks with
  | [] => []
  | [t] => t
  | t :: toks => t ++ [x20] ++ join toks
  end.

Lemma until_space_word t : x20 ∉ t → until_space t = (t, []).
Proof.
  induction t as [|b t IH]; [done|]. intros [Hb Ht]%not_elem_of_cons. cbn.
  rewrite bool_decide_false by (intros ->; by apply Hb). by rewrite IH.
Qed.

Lemma until_space_app a s : until_space (a ++ x20 :: s) = ((until_space a).1, (until_space a).2 ++ x20 :: s).
Proof.
  induction a as [|b a IH]; [done|]. cbn. destruct (bool_decide _); [done|]. rewrite IH. by destruct (until_space a).
Qed.

Lemma skip_spaces_word t l : word t → skip_spaces (t ++ l) = t ++ l.
Proof.
  intros [Hne Ht]. destruct t as [|b t]; [done|]. apply not_elem_of_cons in Ht as [Hb _]. cbn.
  by rewrite bool_decide_false by (intros ->; by apply Hb).
Qed.

Lemma separator_word t l : word t → l = [] ∨ (∃ s, l = x20 :: s) → separator (t ++ l) = Some (t, l).
Proof.
  intros Hw Hl. unfold separator. rewrite skip_spaces_word by done. destruct Hw as [Hne Ht].
  destruct (t ++ l) as [|b bl] eqn:E; [by apply app_nil in E as [? _]|]. rewrite <- E. f_equal.
  destruct Hl as [->|[s ->]]; [by rewrite app_nil_r, until_space_word|].
  by rewrite until_space_app, until_space_word.
Qed.

Lemma join_cons t toks : join (t :: toks) = t ++ match toks with [] => [] | _ => x20 :: join toks end.
Proof. destruct toks; [by rewrite app_nil_r|done]. Qed.

(** Words separated by single spaces are read back. *)
Lemma tokens_fuel_join toks : ∀ fuel,
  Forall word toks → (length toks < fuel)%nat →
  tokens_fuel fuel (join toks) = toks ∧ tokens_fuel fuel (match toks with [] => [] | _ => x20 :: join toks end) = toks.
Proof.
  induction toks as [|t toks IH]; intros fuel Hw Hf; [by destruct fuel|].
  apply Forall_cons in Hw as [Ht Hw]. destruct fuel as [|fuel]; [cbn in Hf; lia|]. cbn [length] in Hf.
  destruct (IH fuel Hw ltac:(lia)) as [_ IH2].
  assert (separator (join (t :: toks)) = Some (t, match toks with [] => [] | _ => x20 :: join toks end)) as Hs.
  { rewrite join_cons. apply separator_word; [done|]. destruct toks; [by left|right; by eexists]. }
  assert (separator (x20 :: join (t :: toks)) = separator (join (t :: toks))) as Hs2 by done.
  cbn [tokens_fuel]. rewrite Hs2, Hs. by rewrite IH2.
Qed.

Lemma length_join toks : Forall word toks → (length toks ≤ length (join toks))%nat.
Proof.
  induction 1 as [|t toks [Hne _] _ IH]; [done|]. rewrite join_cons, length_app. destruct t; [done|].
  destruct toks; cbn in *; lia.
Qed.

Lemma tokens_join toks : Forall word toks → tokens (join toks) = toks.
Proof. intros Hw. apply tokens_fuel_join; [done|]. pose proof (length_join toks Hw). lia. Qed.

(** ** noreply *)

Lemma tokens_noreply fuel : ∀ a, (length a < fuel)%nat → last (tokens_fuel fuel (a ++ lit " noreply")) = Some (lit "noreply").
Proof.
  induction fuel as [|fuel IH]; intros a Hf; [lia|]. cbn [tokens_fuel]. unfold separator.
  assert ((∃ b a', skip_spaces (a ++ lit " noreply") = b :: a' ++ lit " noreply" ∧ b ≠ x20 ∧ (length a' < length a)%nat) ∨
    skip_spaces (a ++ lit " noreply") = lit "noreply") as Hskip.
  { clear. induction a as [|b a IH]; [by right|]. cbn [app skip_spaces]. destruct (bool_decide_reflect (b = x20)) as [->|Hb].
    - destruct IH as [(b' & a' & E & ? & ?)|E]; [|by right]. left. exists b', a'. split_and!; [done|done|cbn; lia].
    - left. exists b, a. cbn. split_and!; [done|done|lia]. }
  destruct Hskip as [(b & a' & -> & Hb & Hlen)| ->].
  - change (b :: a' ++ lit " noreply") with ((b :: a') ++ x20 :: lit "noreply"). rewrite until_space_app.
    destruct (until_space (b :: a')) as [t r] eqn:E. cbn [fst snd].
    assert (length r ≤ length a')%nat as Hr.
    { clear -E Hb. cbn in E. rewrite bool_decide_false in E by done. destruct (until_space a') as [t' r'] eqn:E'. injection E as <- <-.
      revert t' r' E'. induction a' as [|c a' IH]; intros t' r' E'; [by injection E' as <- <-|]. cbn in E'.
      destruct (bool_decide _); [injection E' as <- <-; done|]. destruct (until_space a') as [t2 r2]. injection E' as <- <-.
      specialize (IH _ _ eq_refl). cbn. lia. }
    specialize (IH r ltac:(lia)). change (r ++ x20 :: lit "noreply") with (r ++ lit " noreply").
    destruct (tokens_fuel fuel (r ++ lit " noreply")); [done|exact IH].
  - cbn. by destruct fuel.
Qed.

Lemma strip_quiet l : strip_noreply (l ++ lit " noreply") = (true, l).
Proof.
  unfold strip_noreply. rewrite size_of_app. change (size_of (lit " noreply")) with 8.
  rewrite (proj2 (Z.leb_le 8 _)) by (pose proof (size_of_nonneg l); lia).
  rewrite length_app. change (length (lit " noreply")) with 8%nat. rewrite Nat.add_sub, drop_app_length, take_app_length.
  by rewrite bool_decide_true.
Qed.

Lemma strip_loud toks : Forall word toks → last toks ≠ Some (lit "noreply") → strip_noreply (join toks) = (false, join toks).
Proof.
  intros Hw Hlast. unfold strip_noreply. destruct (8 <=? _); [|done].
  destruct (bool_decide_reflect (drop (length (join toks) - 8) (join toks) = lit " noreply")) as [E|]; [|done].
  exfalso. apply Hlast. rewrite <- (tokens_join toks Hw) at 1. unfold tokens.
  rewrite <- (take_drop (length (join toks) - 8) (join toks)) at 2. rewrite E. apply tokens_noreply.
  rewrite length_take. lia.
Qed.

(** ** Numbers *)

Lemma prefix_while_all p l : Forall (λ b, p b = true) l → prefix_while p l = l.
Proof. induction 1 as [|b l Hb _ IH]; [done|]. cbn. by rewrite Hb, IH. Qed.

Lemma decimal_digits n : 0 ≤ n → ∃ b ds, decimal n = b :: ds ∧ Forall (λ b, is_digit b = true) (b :: ds).
Proof.
  intros Hn. unfold decimal, sign. rewrite (proj2 (Z.ltb_ge n 0)) by lia. cbn [app].
  pose proof (dec_digits_are (num_digits (Z.abs n)) (Z.abs n)) as Hd.
  pose proof (length_dec_digits (num_digits (Z.abs n)) (Z.abs n)) as Hl.
  destruct (num_digits_spec (Z.abs n)) as (_ & H1 & _); [lia|].
  destruct (dec_digits _ _) as [|b ds]; [cbn in Hl; lia|]. by exists b, ds.
Qed.

Lemma digit_not b : is_digit b = true → is_space b = false ∧ b ≠ x2d ∧ b ≠ x2b ∧ b ≠ x20 ∧ b ≠ x0d ∧ b ≠ x79.
Proof. destruct b; intros H; try discriminate H; repeat split; done. Qed.

Lemma strtoull_decimal n : 0 ≤ n < 2 ^ 64 → strtoull (decimal n) = (n, length (decimal n)).
Proof.
  intros Hn. destruct (decimal_digits n) as (b & ds & E & Hall); [lia|].
  pose proof (decimal_reads n ltac:(lia)) as Hv. rewrite E in Hv |- *.
  pose proof Hall as Hall'. apply Forall_cons in Hall' as [Hb _]. destruct (digit_not b Hb) as (Hsp & Hm & Hp & _).
  unfold strtoull. cbn [prefix_while]. rewrite Hsp. cbn [length drop].
  assert (match b :: ds with x2d :: _ => (true, 1%nat) | x2b :: _ => (false, 1%nat) | _ => (false, 0%nat) end = (false, 0%nat)) as ->
    by (by destruct b).
  cbn [drop]. rewrite (prefix_while_all is_digit (b :: ds)) by done. rewrite Hv.
  rewrite (proj2 (Z.ltb_ge _ _)) by lia. by destruct b.
Qed.

Lemma read_decimal n toks : 0 ≤ n < 2 ^ 64 → Reader_read (decimal n :: toks) = Some (n, toks).
Proof. intros Hn. unfold Reader_read. rewrite strtoull_decimal by done. by rewrite Nat.eqb_refl. Qed.

(** A word that fits on a request line. *)
Definition text_word (t : list byte) : Prop := word t ∧ x0d ∉ t.

Lemma decimal_word n : 0 ≤ n → text_word (decimal n).
Proof.
  intros Hn. destruct (decimal_digits n Hn) as (b & ds & -> & Hall). rewrite Forall_forall in Hall.
  split; [split; [done|]|]; intros Hin%Hall%digit_not; naive_solver.
Qed.

Lemma join_no_cr toks : Forall text_word toks → x0d ∉ join toks.
Proof.
  induction 1 as [|t toks [_ Ht] _ IH]; [apply not_elem_of_nil|]. rewrite join_cons. apply not_elem_of_app. split; [done|].
  destruct toks; [apply not_elem_of_nil|]. by apply not_elem_of_cons.
Qed.

(** ** The line before a value *)

Definition head_line (needCas : bool) (e : Entry) : list byte :=
  lit " " ++ decimal (e_flags e) ++ lit " " ++ decimal (size_of (e_value e)) ++
  (if needCas then lit " " ++ decimal (e_cas e) else []) ++ kCRLF.

Lemma size_of_decimal n : 0 ≤ n < 10 ^ 20 → 1 ≤ size_of (decimal n) ≤ 20.
Proof.
  intros Hn. unfold decimal, sign. rewrite (proj2 (Z.ltb_ge n 0)) by lia. cbn [app]. unfold size_of. rewrite length_dec_digits.
  destruct (num_digits_spec (Z.abs n)) as (_ & H1 & Hk); [lia|]. specialize (Hk 20%nat ltac:(lia) ltac:(cbn; lia)). lia.
Qed.

(** Shifting items that fit. *)
Lemma shift_fits b its :
  LogStream.buffer_ok kSmallBuffer b → Forall item_ok its →
  ∃ b', shift_all (λ _, []) b its = Ok b' ∧ LogStream.buffer_ok kSmallBuffer b' ∧
    (size_of (toString b ++ texts (λ _, []) its) + kMaxNumericSize ≤ kSmallBuffer →
     toString b' = toString b ++ texts (λ _, []) its).
Proof.
  intros Hb Hits. pose proof (shift_all_spec (λ _, []) kSmallBuffer ltac:(intros; done) its b Hb Hits) as Hs.
  destruct (shift_all _ b its) as [b'|]; [|done]. destruct Hs as [Hb' Ht]. exists b'. split_and!; [done|done|].
  intros Hsz. rewrite Ht. by apply emit_all.
Qed.

Lemma Item_head_spec hash needCas k e :
  0 ≤ e_flags e < 2 ^ 32 → 0 ≤ e_cas e < 2 ^ 64 → entry_ok e → Item_head needCas (item_of hash k e) = Ok (head_line needCas e).
Proof.
  intros Hf Hc He. unfold entry_ok in He. pose proof (size_of_nonneg (e_value e)) as Hv. unfold Item_head, isub.
  cbn [valuelen_ flags_ cas_ item_of]. rewrite checked_bind by lia. replace (size_of (e_value e) + 2 - 2) with (size_of (e_value e)) by lia.
  set (b0 := FixedBuffer_new _).
  assert (LogStream.buffer_ok kSmallBuffer b0) as Hb0 by (split; [done|by vm_compute]).
  pose proof (size_of_decimal (e_flags e) ltac:(lia)) as Hs1. pose proof (size_of_decimal (size_of (e_value e)) ltac:(lia)) as Hs2.
  pose proof (size_of_decimal (e_cas e) ltac:(lia)) as Hs3.
  assert (texts (λ _, []) [LChar x20; LInteger (e_flags e); LChar x20; LInteger (size_of (e_value e))] =
    lit " " ++ decimal (e_flags e) ++ lit " " ++ decimal (size_of (e_value e))) as T1.
  { unfold texts. cbn [fmap list_fmap concat item_text]. rewrite !convert_decimal by lia. cbn [default]. by rewrite app_nil_r. }
  assert (texts (λ _, []) [LChar x20; LInteger (e_cas e)] = lit " " ++ decimal (e_cas e)) as T2.
  { unfold texts. cbn [fmap list_fmap concat item_text]. rewrite !convert_decimal by lia. cbn [default]. by rewrite app_nil_r. }
  destruct (shift_fits b0 [LChar x20; LInteger (e_flags e); LChar x20; LInteger (size_of (e_value e))] Hb0) as (b1 & -> & Hb1 & Ht1).
  { repeat constructor; cbn; lia. }
  rewrite T1 in Ht1. change (toString b0) with (@nil byte) in Ht1. cbn [app] in Ht1.
  specialize (Ht1 ltac:(rewrite !size_of_app; change (size_of (lit " ")) with 1; unfold kMaxNumericSize, kSmallBuffer; lia)).
  run_ok. destruct needCas.
  - destruct (shift_fits b1 [LChar x20; LInteger (e_cas e)] Hb1) as (b2 & -> & Hb2 & Ht2); [repeat constructor; cbn; lia|].
    rewrite T2, Ht1 in Ht2.
    specialize (Ht2 ltac:(rewrite !size_of_app; change (size_of (lit " ")) with 1; unfold kMaxNumericSize, kSmallBuffer; lia)).
    run_ok. destruct (shift_fits b2 [LCString (Some kCRLF)] Hb2) as (b3 & -> & _ & Ht3); [by repeat constructor|].
    run_ok. rewrite Ht3, Ht2; [unfold head_line; rewrite <- !app_assoc; done|].
    rewrite Ht2, !size_of_app. change (size_of (lit " ")) with 1. change (size_of (texts _ [LCString (Some kCRLF)])) with 2.
    unfold kMaxNumericSize, kSmallBuffer. lia.
  - run_ok. destruct (shift_fits b1 [LCString (Some kCRLF)] Hb1) as (b3 & -> & _ & Ht3); [by repeat constructor|].
    run_ok. rewrite Ht3, Ht1; [unfold head_line; rewrite <- !app_assoc; done|].
    rewrite Ht1, !size_of_app. change (size_of (lit " ")) with 1. change (size_of (texts _ [LCString (Some kCRLF)])) with 2.
    unfold kMaxNumericSize, kSmallBuffer. lia.
Qed.

(** ** Commands *)

Inductive Command :=
  | Update (p : UpdatePolicy) (k : list byte) (flags exptime cas : Z) (v : list byte) (quiet : bool)
  | Get (needCas : bool) (keys : list (list byte))
  | Delete (k : list byte) (quiet : bool)
  | Version.

Definition policy_name (p : UpdatePolicy) : list byte :=
  match p with
  | kInvalid => [] | kSet => lit "set" | kAdd => lit "add" | kReplace => lit "replace"
  | kAppend => lit "append" | kPrepend => lit "prepend" | kCas => lit "cas"
  end.

Definition words (c : Command) : list (list byte) :=
  match c with
  | Update p k flags exptime cas v _ =>
    [policy_name p; k; decimal flags; decimal exptime; decimal (size_of v)] ++ (if bool_decide (p = kCas) then [decimal cas] else [])
  | Get needCas keys => (if needCas then lit "gets" else lit "get") :: keys
  | Delete k _ => [lit "delete"; k]
  | Version => [lit "version"]
  end.
Definition quiet (c : Command) : bool := match c with Update _ _ _ _ _ _ q | Delete _ q => q | _ => false end.
Definition request (c : Command) : list byte := join (words c) ++ (if quiet c then lit " noreply" else []).
Definition body (c : Command) : list byte := match c with Update _ _ _ _ _ v _ => v ++ kCRLF | _ => [] end.
Definition encode (c : Command) : list byte := request c ++ kCRLF ++ body c.

Definition key_word (k : list byte) : Prop := text_word k ∧ key_ok k.

(** What a client may send. *)
Definition command_ok (c : Command) : Prop :=
  size_of (request c) ≤ 1022 ∧
  match c with
  | Update p k flags exptime cas v _ => p ≠ kInvalid ∧ key_word k ∧ 0 ≤ flags < 2 ^ 32 ∧ 0 ≤ exptime < 2 ^ 63 ∧
      0 ≤ cas < 2 ^ 64 ∧ size_of v ≤ 2 ^ 20
  | Get _ keys => Forall key_word keys ∧ last keys ≠ Some (lit "noreply")
  | Delete k q => key_word k ∧ k ≠ lit "noreply"
  | Version => True
  end.

(** ** Answers *)

Section Serve.
Context (hash : list byte → Z) (startTime_ : Z).

Definition line (s : string) : list byte := lit s ++ kCRLF.

Definition stored_answer (p : UpdatePolicy) (stored existed : bool) : list byte :=
  if stored then line "STORED"
  else if bool_decide (p = kCas) then if existed then line "EXISTS" else line "NOT_FOUND"
  else line "NOT_STORED".

Definition value_answer (needCas : bool) (t : Table) (k : list byte) : list byte :=
  match entries t !! k with
  | Some e => lit "VALUE " ++ k ++ head_line needCas e ++ e_value e ++ kCRLF
  | None => []
  end.

(** The entry an update command carries. *)
Definition command_entry (flags exptime cas : Z) (v : list byte) (p : UpdatePolicy) : Entry :=
  mkEntry flags (relative_exptime startTime_ exptime) v (if bool_decide (p = kCas) then cas else 0).

Definition answer (c : Command) (t : Table) : list byte * Table :=
  match c with
  | Update p k flags exptime cas v q =>
    let '(stored, existed, t') := update p k (command_entry flags exptime cas v p) t in
    (if q then [] else stored_answer p stored existed, t')
  | Get needCas keys => (concat (value_answer needCas t <$> keys) ++ line "END", t)
  | Delete k q =>
    let '(deleted, t') := remove k t in
    (if q then [] else if deleted then line "DELETED" else line "NOT_FOUND", t')
  | Version => (line "VERSION 0.01 muduo", t)
  end.

Fixpoint answers (cs : list Command) (t : Table) : list byte * Table :=
  match cs with
  | [] => ([], t)
  | c :: cs => let '(a, t) := answer c t in let '(b, t) := answers cs t in (a ++ b, t)
  end.

(** ** Reading a request *)

(** A given word is one. *)
Ltac given_word := split; [split; [done|]|]; apply (bool_decide_unpack _); by vm_compute.

Lemma policy_name_read p : p ≠ kInvalid → command_policy (policy_name p) = Some p ∧ text_word (policy_name p).
Proof. destruct p; intros Hp; try done; (split; [by vm_compute|given_word]). Qed.

Lemma words_ok c : command_ok c → Forall text_word (words c).
Proof.
  intros [_ Hc]. destruct c as [p k flags exptime cas v q|needCas keys|k q|]; cbn [words].
  - destruct Hc as (Hp & [Hk _] & Hf & He & Hcas & Hv). pose proof (size_of_nonneg v).
    apply Forall_app. split; [|case_bool_decide; [apply Forall_singleton, decimal_word; lia|by apply Forall_nil]].
    apply Forall_cons. split; [by apply policy_name_read|]. apply Forall_cons. split; [done|].
    do 2 (apply Forall_cons; split; [apply decimal_word; lia|]). apply Forall_singleton, decimal_word. lia.
  - destruct Hc as [Hk _]. apply Forall_cons. split; [destruct needCas; given_word|].
    eapply Forall_impl; [exact Hk|]. by intros t [? _].
  - destruct Hc as [[Hk _] _]. apply Forall_cons. split; [given_word|by apply Forall_singleton].
  - apply Forall_singleton. given_word.
Qed.

Lemma decimal_not_noreply n : 0 ≤ n → decimal n ≠ lit "noreply".
Proof.
  intros Hn E. destruct (decimal_digits n Hn) as (b & ds & E' & Hall). rewrite E in E'. injection E' as <- <-.
  apply Forall_cons in Hall as [Hb _]. done.
Qed.

Lemma strip_request c : command_ok c → strip_noreply (request c) = (quiet c, join (words c)).
Proof.
  intros Hc. pose proof (words_ok c Hc) as Hw. unfold request. destruct (quiet c) eqn:Hq; [apply strip_quiet|].
  rewrite app_nil_r. apply strip_loud; [by eapply Forall_impl; [exact Hw|intros t [? _]]|].
  destruct Hc as [_ Hc]. destruct c as [p k flags exptime cas v q|needCas keys|k q|]; cbn [words].
  - destruct Hc as (Hp & _ & Hf & He & Hcas & Hv). pose proof (size_of_nonneg v).
    case_bool_decide; cbn [last app]; intros E%(inj Some); revert E; apply decimal_not_noreply; lia.
  - destruct Hc as [_ Hl]. destruct keys; [by destruct needCas|exact Hl].
  - destruct Hc as [_ Hne]. cbn [last]. by intros E%(inj Some).
  - done.
Qed.

Lemma request_no_cr c : command_ok c → x0d ∉ request c.
Proof.
  intros Hc. unfold request. apply not_elem_of_app. split; [by apply join_no_cr, words_ok|].
  destruct (quiet c); [|apply not_elem_of_nil]. apply (bool_decide_unpack _). by vm_compute.
Qed.

(** The session once the command word has been read. *)
Definition begun (c : Command) (w : World) : World :=
  let w := on_sess count_request w in
  let w := if quiet c then on_sess (set_noreply true) w else w in
  on_sess (set_command (hd [] (words c))) w.

(** ** Serving *)

Record ready (n : Z) (t : Table) (w : World) : Prop := {
  ready_inv : sess_inv hash (sess w);
  ready_state : state_ (sess w) = kNewCommand;
  ready_out : outputBuf_ (sess w) = [];
  ready_conn : connected w = true;
  ready_store : represents hash t (store w);
  ready_fits : fits n t;
  ready_entries k e : entries t !! k = Some e → 0 ≤ e_flags e < 2 ^ 32 ∧ 0 ≤ e_cas e ≤ updates t
}.

(** What a served command leaves: the table, the bytes sent. *)
Definition served (n : Z) (t : Table) (out : list byte) (w w' : World) : Prop :=
  ready n t w' ∧ sent w' = sent w ++ out.

Lemma processRequest_words c w :
  command_ok c → sess_inv hash (sess w) → state_ (sess w) = kNewCommand →
  processRequest hash startTime_ (request c) w =
    match command_policy (hd [] (words c)) with
    | Some _ => doUpdate hash startTime_ (tl (words c)) (begun c w)
    | None =>
      if bool_decide (hd [] (words c) = lit "get") || bool_decide (hd [] (words c) = lit "gets") then
        '(all, w) ← get_loop hash (bool_decide (hd [] (words c) = lit "gets")) (tl (words c)) (begun c w);
        if all : bool then
          mret (true, conn_send_outputBuf (on_sess (λ s, set_outputBuf (outputBuf_ s ++ lit "END" ++ kCRLF) s) w))
        else mret (true, w)
      else if bool_decide (hd [] (words c) = lit "delete") then w ← doDelete hash (tl (words c)) (begun c w); mret (true, w)
      else if bool_decide (hd [] (words c) = lit "version") then mret (true, reply_line "VERSION 0.01 muduo" (begun c w))
      else if bool_decide (hd [] (words c) = lit "quit") then mret (true, conn_shutdown (begun c w))
      else if bool_decide (hd [] (words c) = lit "shutdown") then mret (true, owner_stop (conn_shutdown (begun c w)))
      else mret (true, reply_line "ERROR" (begun c w))
    end.
Proof.
  intros Hc [_ Hcl] Hst. rewrite Hst in Hcl. destruct Hcl as (H1 & H2 & H3 & H4 & H5).
  unfold processRequest. rewrite H2, H5, !bool_decide_true by done. change (negb false) with true. change (0 =? 0) with true. do 5 run_ok.
  rewrite strip_request by done. pose proof (words_ok c Hc) as Hw.
  rewrite tokens_join by (eapply Forall_impl; [exact Hw|by intros t [? _]]). unfold begun.
  by destruct c as [p k flags exptime cas v q|needCas keys|k q|]; cbn [words hd tl].
Qed.

(** The request line is one turn of the loop. *)
Lemma turn_request c w w1 fin more :
  command_ok c → sess_inv hash (sess w) → state_ (sess w) = kNewCommand →
  processRequest hash startTime_ (request c) w = Ok (fin, w1) →
  turn hash startTime_ (request c ++ kCRLF ++ more) w = Ok (true, more, if fin : bool then on_sess resetRequest w1 else w1).
Proof.
  intros Hc Hinv Hst Hp. rewrite turn_command by (done || apply Hinv).
  rewrite first_crlf_line by (by apply request_no_cr). rewrite take_app_length, Hp. cbn [mbind outcome_bind]. do 2 f_equal.
  rewrite <- drop_drop, drop_app_length. done.
Qed.

Lemma runs_request c w w1 fin more r :
  command_ok c → sess_inv hash (sess w) → state_ (sess w) = kNewCommand →
  processRequest hash startTime_ (request c) w = Ok (fin, w1) →
  runs hash startTime_ (body c ++ more) (if fin : bool then on_sess resetRequest w1 else w1) r →
  runs hash startTime_ (encode c ++ more) w r.
Proof.
  intros Hc Hinv Hst Hp Hr. unfold encode. rewrite <- !app_assoc.
  eapply runs_turn; [intros [_ ?]%app_nil; done|by apply turn_request|exact Hr].
Qed.

Lemma reply_line_facts msg w : connected w = true → let w' := reply_line msg w in
  sess w' = sess w ∧ store w' = store w ∧ connected w' = true ∧ sent w' = sent w ++ (if noreply_ (sess w) then [] else line msg).
Proof. intros Hc. unfold reply_line, reply, conn_send. rewrite Hc. by destruct (noreply_ (sess w)); rewrite ?app_nil_r. Qed.

Lemma begun_facts c w : noreply_ (sess w) = false → let w' := begun c w in
  noreply_ (sess w') = quiet c ∧ (base_ok (sess w) → base_ok (sess w')) ∧ state_ (sess w') = state_ (sess w) ∧
  outputBuf_ (sess w') = outputBuf_ (sess w) ∧ command_ (sess w') = hd [] (words c) ∧
  store w' = store w ∧ connected w' = connected w ∧ sent w' = sent w.
Proof. intros Hn. unfold begun. by destruct (quiet c). Qed.

(** The end of a request that is finished. *)
Lemma ready_after n t w :
  base_ok (sess w) → state_ (sess w) = kNewCommand → outputBuf_ (sess w) = [] → connected w = true →
  represents hash t (store w) → fits n t →
  (∀ k e, entries t !! k = Some e → 0 ≤ e_flags e < 2 ^ 32 ∧ 0 ≤ e_cas e ≤ updates t) →
  ready n t (on_sess resetRequest w).
Proof. intros Hb Hst Ho Hc Hs Hf He. split; try done. by apply reset_inv. Qed.

Lemma serve_version n t w :
  ready n t w → ∃ w1, processRequest hash startTime_ (request Version) w = Ok (true, w1) ∧
    served n t (line "VERSION 0.01 muduo") w (on_sess resetRequest w1).
Proof.
  intros [Hinv Hst Ho Hc Hs Hf He]. rewrite processRequest_words by (done || by split).
  pose proof Hinv as [Hb Hcl]. rewrite Hst in Hcl. destruct Hcl as (_ & Hn & _).
  destruct (begun_facts Version w Hn) as (Bn & Bb & Bst & Bo & _ & Bs & Bc & Bsent).
  specialize (Bb Hb). cbn [words hd tl]. change (command_policy (lit "version")) with (@None UpdatePolicy). cbv iota.
  change (bool_decide (lit "version" = lit "get") || bool_decide (lit "version" = lit "gets")) with false. cbv iota.
  rewrite (bool_decide_false (lit "version" = lit "delete")), (bool_decide_true (lit "version" = lit "version")) by done.
  eexists. split; [done|].
  destruct (reply_line_facts "VERSION 0.01 muduo" (begun Version w)) as (F1 & F2 & F3 & F4); [by rewrite Bc|].
  split; [|change (sent (on_sess _ ?x)) with (sent x); by rewrite F4, Bn, Bsent]. apply ready_after; rewrite ?F1, ?F2, ?F3, ?Bst, ?Bo, ?Bs; done.
Qed.

Lemma doDelete_spec t w k :
  command_ (sess w) = lit "delete" → key_ok k → base_ok (sess w) → represents hash t (store w) →
  ∃ i s', needle_ok i ∧ represents hash (remove k t).2 s' ∧
    doDelete hash [k] w =
      Ok (reply_line (if (remove k t).1 then "DELETED" else "NOT_FOUND") (on_sess (set_needle i) (with_store s' w))).
Proof.
  intros Hcmd Hk Hb Hs. destruct (resetKey_spec hash k (needle_ (sess w)) Hk (proj2 Hb)) as (i & Hr & Hi & Hkey & Hhash).
  pose proof (deleteItem_refines hash t (store w) i k Hs Hkey Hhash) as Hd. unfold remove in *. destruct Hd as (s' & Hd & Hs').
  exists i, s'. split_and!; [done|done|]. unfold doDelete. rewrite Hcmd, bool_decide_true by done. run_ok.
  cbn [deref mbind outcome_bind mret outcome_ret]. rewrite (proj2 (Z.leb_le _ _)) by exact Hk. cbn [negb]. rewrite Hr.
  cbn [mbind outcome_bind]. rewrite Hd. by destruct (bool_decide _).
Qed.

Lemma serve_delete n t w k q :
  command_ok (Delete k q) → ready n t w →
  ∃ w1, processRequest hash startTime_ (request (Delete k q)) w = Ok (true, w1) ∧
    let '(out, t') := answer (Delete k q) t in served n t' out w (on_sess resetRequest w1).
Proof.
  intros Hok [Hinv Hst Ho Hc Hs Hf He]. rewrite processRequest_words by done. pose proof Hok as [_ [[_ Hk] _]].
  pose proof Hinv as [Hb Hcl]. rewrite Hst in Hcl. destruct Hcl as (_ & Hn & _).
  destruct (begun_facts (Delete k q) w Hn) as (Bn & Bb & Bst & Bo & Bcmd & Bs & Bc & Bsent). specialize (Bb Hb).
  set (w0 := begun (Delete k q) w) in *. clearbody w0. rewrite <- Bs in Hs.
  destruct (doDelete_spec t w0 k Bcmd Hk Bb Hs) as (i & s' & Hi & Hs' & Hd).
  exists (reply_line (if (remove k t).1 then "DELETED" else "NOT_FOUND") (on_sess (set_needle i) (with_store s' w0))). split.
  { cbn [words hd tl]. change (command_policy (lit "delete")) with (@None UpdatePolicy). cbv iota.
    change (bool_decide (lit "delete" = lit "get") || bool_decide (lit "delete" = lit "gets")) with false. cbv iota.
    rewrite (bool_decide_true (lit "delete" = lit "delete")) by done. by rewrite Hd. }
  assert (fits n (remove k t).2 ∧ ∀ k' e, entries (remove k t).2 !! k' = Some e →
    0 ≤ e_flags e < 2 ^ 32 ∧ 0 ≤ e_cas e ≤ updates (remove k t).2) as [Hf' He'].
  { split; [intros k' e'|intros k' e']; cbn; rewrite lookup_delete_Some; intros [_ ?]; [by apply (Hf k')|by apply (He k')]. }
  unfold answer. destruct (remove k t) as [b t']. cbn [fst snd] in *.
  set (msg := (if b then "DELETED" else "NOT_FOUND")%string).
  assert ((if q then [] else if b then line "DELETED" else line "NOT_FOUND") = if q then [] else line msg) as ->
    by (subst msg; by destruct b).
  set (w1 := on_sess (set_needle i) (with_store s' w0)).
  destruct (reply_line_facts msg w1) as (F1 & F2 & F3 & F4); [exact (eq_trans Bc Hc)|].
  split; [|change (sent (reply_line msg w1) = sent w ++ if q then [] else line msg); rewrite F4; cbn; by rewrite Bn, Bsent].
  apply ready_after; rewrite ?F1, ?F2, ?F3; try done.
  - split; [apply Bb|done].
  - by cbn; rewrite Bst.
  - by cbn; rewrite Bo.
Qed.

(** [get] collects the values in the order of the keys. *)
Lemma get_loop_spec needCas keys t : ∀ w,
  Forall key_ok keys → base_ok (sess w) → represents hash t (store w) → 0 ≤ updates t < 2 ^ 64 →
  (∀ k e, entries t !! k = Some e → 0 ≤ e_flags e < 2 ^ 32 ∧ 0 ≤ e_cas e ≤ updates t) →
  ∃ w', get_loop hash needCas keys w = Ok (true, w') ∧ base_ok (sess w') ∧
    state_ (sess w') = state_ (sess w) ∧ outputBuf_ (sess w') = outputBuf_ (sess w) ++ concat (value_answer needCas t <$> keys) ∧
    store w' = store w ∧ connected w' = connected w ∧ sent w' = sent w.
Proof.
  induction keys as [|k keys IH]; intros w Hkeys Hb Hs Hu He.
  { exists w. cbn. rewrite app_nil_r. by split_and!. }
  apply Forall_cons in Hkeys as [Hk Hkeys]. cbn [get_loop]. rewrite (proj2 (Z.leb_le _ _)) by exact Hk. cbn [negb].
  destruct (resetKey_spec hash k (needle_ (sess w)) Hk (proj2 Hb)) as (i & -> & Hi & Hkey & Hhash).
  cbn [mbind outcome_bind]. cbn [store on_sess with_sess]. rewrite (getItem_refines hash t (store w) i k Hs Hkey Hhash).
  assert (match item_of hash k <$> entries t !! k with
    | Some item => Item_output needCas item (outputBuf_ (sess (on_sess (set_needle i) w)))
    | None => mret (outputBuf_ (sess (on_sess (set_needle i) w)))
    end = Ok (outputBuf_ (sess w) ++ value_answer needCas t k)) as ->.
  { unfold value_answer. destruct (entries t !! k) as [e|] eqn:Ek; cbn [fmap option_fmap option_map]; [|by rewrite app_nil_r].
    destruct (He _ _ Ek) as [Hflags Hcas]. destruct (rep_ok _ _ _ Hs _ _ Ek) as [_ Hentry].
    unfold Item_output. rewrite Item_head_spec by (done || lia). cbn [mbind outcome_bind]. by rewrite item_key, item_value_crlf. }
  cbn [mbind outcome_bind].
  destruct (IH (on_sess (set_outputBuf (outputBuf_ (sess w) ++ value_answer needCas t k)) (on_sess (set_needle i) w)))
    as (w' & -> & H1 & H2 & H3 & H4 & H5 & H6); [done|split; [apply Hb|done]|done|done|done|].
  exists w'. split_and!; try done. rewrite H3. cbn. by rewrite <- app_assoc.
Qed.

Lemma serve_get n t w needCas keys :
  command_ok (Get needCas keys) → ready n t w → updates t < 2 ^ 63 →
  ∃ w1, processRequest hash startTime_ (request (Get needCas keys)) w = Ok (true, w1) ∧
    served n t (concat (value_answer needCas t <$> keys) ++ line "END") w (on_sess resetRequest w1).
Proof.
  intros Hok [Hinv Hst Ho Hc Hs Hf He] Hu. rewrite processRequest_words by done. pose proof Hok as [_ [Hk _]].
  pose proof Hinv as [Hb Hcl]. rewrite Hst in Hcl. destruct Hcl as (_ & Hn & _).
  destruct (begun_facts (Get needCas keys) w Hn) as (Bn & Bb & Bst & Bo & Bcmd & Bs & Bc & Bsent). specialize (Bb Hb).
  set (w0 := begun (Get needCas keys) w) in *. clearbody w0. rewrite <- Bs in Hs.
  destruct (get_loop_spec needCas keys t w0) as (w1 & Hg & G1 & G2 & G3 & G4 & G5 & G6); [|done|done| |done|].
  { eapply Forall_impl; [exact Hk|]. by intros k [_ ?]. }
  { pose proof (rep_updates _ _ _ Hs). lia. }
  eexists. split.
  { assert (command_policy (hd [] (words (Get needCas keys))) = None) as -> by (by destruct needCas).
    assert (bool_decide (hd [] (words (Get needCas keys)) = lit "get") || bool_decide (hd [] (words (Get needCas keys)) = lit "gets") = true) as ->
      by (by destruct needCas).
    assert (bool_decide (hd [] (words (Get needCas keys)) = lit "gets") = needCas) as -> by (by destruct needCas).
    cbn [words tl]. rewrite Hg. cbn [mbind outcome_bind]. done. }
  set (w2 := on_sess (λ s, set_outputBuf (outputBuf_ s ++ lit "END" ++ kCRLF) s) w1).
  assert (connected w2 = true) as Hc2 by (cbn; by rewrite G5, Bc). unfold conn_send_outputBuf, conn_send. rewrite Hc2.
  split; [|cbn; rewrite G3, G6, Bo, Bsent, Ho; by rewrite <- app_assoc].
  apply ready_after; cbn; try done; [congruence|by rewrite G4].
Qed.

(** ** Updates *)

(** The request line of an update prepares the item. *)
Lemma doUpdate_spec p k flags exptime cas v q w :
  command_ok (Update p k flags exptime cas v q) → command_ (sess w) = policy_name p →
  doUpdate hash startTime_ (tl (words (Update p k flags exptime cas v q))) w =
    let e := command_entry flags exptime cas v p in
    Ok (false, on_sess (λ ss, set_state kReceiveValue
      (set_currItem (Some (item_part hash k (e_flags e) (e_exptime e) (size_of v + 2) (e_cas e) [])) (set_policy p ss))) w).
Proof.
  intros [_ (Hp & [_ Hk] & Hf & He & Hcas & Hv)] Hcmd. pose proof (size_of_nonneg v). unfold key_ok in Hk.
  unfold doUpdate. rewrite Hcmd, (proj1 (policy_name_read p Hp)).
  cbn [words tl app deref]. cbn [mbind outcome_bind mret outcome_ret].
  rewrite (proj2 (Z.leb_le (size_of k) kLongestKeySize)) by exact Hk. unfold read_numbers.
  do 3 (rewrite read_decimal by lia; cbn [mbind option_bind]).
  rewrite !to_unsigned_small by lia. rewrite !to_signed_small by (lia || (unfold in_signed; cbn; lia)).
  assert ((if bool_decide (p = kCas) then fst <$> Reader_read (if bool_decide (p = kCas) then [decimal cas] else []) else Some 0) =
    Some (e_cas (command_entry flags exptime cas v p))) as ->.
  { unfold command_entry. cbn [e_cas]. destruct (bool_decide (p = kCas)); [|done]. by rewrite read_decimal. }
  rewrite (proj2 (Z.ltb_ge _ (size_of v))) by lia. unfold iadd. rewrite checked_bind by lia.
  rewrite makeItem_part by (done || lia). done.
Qed.

(** The numbers that [update] gives, and the flags. *)
Lemma update_entries p k e t :
  0 ≤ updates t → 0 ≤ e_flags e < 2 ^ 32 →
  (∀ k e, entries t !! k = Some e → 0 ≤ e_flags e < 2 ^ 32 ∧ 0 ≤ e_cas e ≤ updates t) →
  ∀ k' e', entries (update p k e t).2 !! k' = Some e' → 0 ≤ e_flags e' < 2 ^ 32 ∧ 0 ≤ e_cas e' ≤ updates (update p k e t).2.
Proof.
  intros Hu Hf Ht. assert (∀ e0, 0 ≤ e_flags e0 < 2 ^ 32 → ∀ k' e', entries (put k e0 t) !! k' = Some e' →
    0 ≤ e_flags e' < 2 ^ 32 ∧ 0 ≤ e_cas e' ≤ updates (put k e0 t)) as Hput.
  { intros e0 H0 k' e'. cbn. rewrite lookup_insert_Some. intros [[_ <-]|[_ H]]; cbn; [lia|]. destruct (Ht _ _ H). lia. }
  unfold update. destruct p, (entries t !! k) as [old|] eqn:Hold; cbn [snd]; try exact Ht; try (apply Hput; done);
    try (apply Hput; cbn; by apply (Ht _ _ Hold)). destruct (_ =? _); [by apply Hput|exact Ht].
Qed.

Lemma finishValue_spec n t w p k e :
  represents hash t (store w) → key_ok k → size_of (e_value e) ≤ 2 ^ 20 → p ≠ kInvalid → fits n t →
  n + size_of (e_value e) ≤ 2 ^ 30 → updates t + 1 < 2 ^ 63 → policy_ (sess w) = p → connected w = true →
  let '(stored, existed, t') := update p k e t in
  ∃ w', finishValue hash (item_of hash k e) w = Ok w' ∧ sess w' = set_state kNewCommand (resetRequest (sess w)) ∧
    represents hash t' (store w') ∧ connected w' = true ∧
    sent w' = sent w ++ (if noreply_ (sess w) then [] else stored_answer p stored existed).
Proof.
  intros Hs Hk Hv Hp Hf Hn Hu Hpol Hc. pose proof (storeItem_refines hash t (store w) p k e Hs Hk Hv) as Hst.
  destruct (update p k e t) as [[stored existed] t']. destruct Hst as (s' & Hst & Hs'); [by apply (fits_joins n)|done|done|].
  unfold finishValue. rewrite item_ends, Hpol, Hst. cbn [mbind outcome_bind mret outcome_ret].
  eexists. split; [done|]. set (w1 := with_store s' w).
  assert (∃ msg, reply_stored stored existed w1 = reply_line msg w1 ∧ stored_answer p stored existed = line msg) as (msg & -> & ->).
  { unfold reply_stored, stored_answer. change (policy_ (sess w1)) with (policy_ (sess w)). rewrite Hpol.
    destruct stored; [by eexists|]. destruct (bool_decide _); [|by eexists]. destruct existed; by eexists. }
  destruct (reply_line_facts msg w1) as (F1 & F2 & F3 & F4); [exact Hc|].
  change (sess (on_sess ?f ?x)) with (f (sess x)). change (store (on_sess _ ?x)) with (store x).
  change (connected (on_sess _ ?x)) with (connected x). change (sent (on_sess _ ?x)) with (sent x).
  rewrite F1, F2, F3, F4. by split_and!.
Qed.

Lemma serve_update n t w p k flags exptime cas v q :
  command_ok (Update p k flags exptime cas v q) → ready n t w → 0 ≤ n → n + size_of v ≤ 2 ^ 30 → updates t + 1 < 2 ^ 63 →
  ∃ w1 w2, processRequest hash startTime_ (request (Update p k flags exptime cas v q)) w = Ok (false, w1) ∧
    sess_inv hash (sess w1) ∧ state_ (sess w1) = kReceiveValue ∧
    (∃ e, currItem_ (sess w1) = Some (item_part hash k (e_flags e) (e_exptime e) (size_of v + 2) (e_cas e) [])) ∧
    (∀ more, turn hash startTime_ ((v ++ kCRLF) ++ more) w1 = Ok (true, more, w2)) ∧
    let '(out, t') := answer (Update p k flags exptime cas v q) t in served (n + size_of v) t' out w w2.
Proof.
  intros Hok [Hinv Hst Ho Hc Hs Hf He] Hn Hsize Hu. pose proof Hok as [_ (Hp & [_ Hk] & Hfl & Hex & Hcas & Hv)].
  pose proof (size_of_nonneg v) as Hv0. rewrite processRequest_words by done.
  pose proof Hinv as [Hb Hcl]. rewrite Hst in Hcl. destruct Hcl as (_ & Hnr & _).
  set (c := Update p k flags exptime cas v q) in *.
  destruct (begun_facts c w Hnr) as (Bn & Bb & Bst & Bo & Bcmd & Bs & Bc & Bsent). specialize (Bb Hb).
  set (w0 := begun c w) in *. clearbody w0. rewrite <- Bs in Hs. cbn [words hd] in Bcmd.
  set (e := command_entry flags exptime cas v p).
  set (w1 := on_sess (λ ss, set_state kReceiveValue (set_currItem
    (Some (item_part hash k (e_flags e) (e_exptime e) (size_of v + 2) (e_cas e) [])) (set_policy p ss))) w0).
  pose proof (finishValue_spec n t w1 p k e Hs Hk Hv Hp Hf Hsize Hu eq_refl (eq_trans Bc Hc)) as Hfin.
  change (answer c t) with (let '(stored, existed, t') := update p k e t in (if q then [] else stored_answer p stored existed, t')).
  pose proof (update_fits n t p k e Hf Hn) as Hf'.
  pose proof (update_entries p k e t (rep_updates _ _ _ Hs) Hfl He) as He'.
  destruct (update p k e t) as [[stored existed] t']. destruct Hfin as (w2 & Hw2 & F1 & F2 & F3 & F4).
  assert (sess_inv hash (sess w1)) as Hinv1.
  { split; [exact Bb|]. cbn. eexists k, _, _, _, _, []. split; [done|]. split_and!; [done|lia|lia|rewrite size_of_nil; lia|done]. }
  exists w1, w2. split_and!; [|done|done|by exists e| |].
  - change (hd [] (words c)) with (policy_name p). rewrite (proj1 (policy_name_read p Hp)).
    exact (doUpdate_spec p k flags exptime cas v q w0 Hok Bcmd).
  - intros more. unfold turn. change (state_ (sess w1)) with kReceiveValue. cbv iota.
    rewrite (receive_part hash _ w1 k (e_flags e) (e_exptime e) (size_of v + 2) (e_cas e) []) by (done || (rewrite ?size_of_nil; lia)).
    rewrite size_of_nil, Z.sub_0_r, !size_of_app. rewrite (proj2 (Z.ltb_ge _ _)) by (pose proof (size_of_nonneg more); rewrite size_of_kCRLF; lia).
    replace (Z.to_nat (size_of v + 2)) with (length (v ++ kCRLF)) by (rewrite length_app; unfold size_of; cbn; lia).
    rewrite take_app_length, drop_app_length. cbn [app].
    change (item_part hash k (e_flags e) (e_exptime e) (size_of v + 2) (e_cas e) (v ++ kCRLF)) with
      (item_part hash k (e_flags e) (e_exptime e) (size_of (e_value e) + 2) (e_cas e) (e_value e ++ kCRLF)).
    rewrite <- item_part_full, Hw2. done.
  - split; [|rewrite F4; cbn; rewrite Bn, Bsent; by destruct q].
    split; rewrite ?F1; try done. by cbn; rewrite Bo.
Qed.

(** ** A conversation *)

Definition cmd_size (c : Command) : Z := match c with Update _ _ _ _ _ v _ => size_of v | _ => 0 end.
Definition cmds_size (cs : list Command) : Z := foldr (λ c n, cmd_size c + n) 0 cs.

Lemma cmd_size_nonneg c : 0 ≤ cmd_size c.
Proof. destruct c; try done. apply size_of_nonneg. Qed.
Lemma cmds_size_nonneg cs : 0 ≤ cmds_size cs.
Proof. induction cs as [|c cs IH]; [done|]. cbn. pose proof (cmd_size_nonneg c). unfold cmds_size in IH. lia. Qed.

(** An input that ends within short pieces: what is pending is never long. *)
Definition pending_short (b : list byte) (w : World) : Prop :=
  ∃ rest w', runs hash startTime_ b w (Ok (rest, w')) ∧ size_of rest ≤ 1024.

(** Part of a request line. *)
Lemma pending_line b w :
  sess_inv hash (sess w) → state_ (sess w) = kNewCommand → first_crlf b = None → size_of b ≤ 1024 → pending_short b w.
Proof.
  intros Hinv Hst Hb Hsz. exists b, w. split; [|done]. destruct b as [|x b]; [apply runs_nil|].
  exists 1%nat. cbn [message_loop]. rewrite turn_command by (done || apply Hinv). by rewrite Hb, (proj2 (Z.ltb_ge _ _)).
Qed.

(** Part of a value. *)
Lemma pending_value b w k flags exptime len cas :
  sess_inv hash (sess w) → state_ (sess w) = kReceiveValue →
  currItem_ (sess w) = Some (item_part hash k flags exptime len cas []) → key_ok k → 2 ≤ len ≤ 2 ^ 20 + 2 →
  size_of b < len → pending_short b w.
Proof.
  intros Hinv Hst Hi Hk Hl Hb. destruct (decide (b = [])) as [->|Hne].
  { exists [], w. split; [apply runs_nil|by vm_compute]. }
  eexists [], _. split; [|by vm_compute]. eapply runs_turn; [done| |apply runs_nil].
  unfold turn. rewrite Hst. rewrite (receive_part hash b w k flags exptime len cas []) by (done || (rewrite ?size_of_nil; lia)).
  rewrite size_of_nil, Z.sub_0_r, (proj2 (Z.ltb_lt _ _)) by done. done.
Qed.

Lemma prefix_app_cases {A} (b l1 l2 : list A) :
  b `prefix_of` l1 ++ l2 → b `prefix_of` l1 ∨ ∃ b', b = l1 ++ b' ∧ b' `prefix_of` l2.
Proof.
  intros [k Hk]. apply app_eq_inv in Hk as [(l & -> & _)|(l & -> & ->)]; [left; by exists l|right].
  exists l. split; [done|by exists k].
Qed.

Lemma pending_request c w b :
  command_ok c → sess_inv hash (sess w) → state_ (sess w) = kNewCommand → b `prefix_of` request c ++ [x0d] → pending_short b w.
Proof.
  intros Hok Hinv Hst [l Hl]. apply pending_line; [done|done| |].
  - destruct (first_crlf_none (request c)) as [H1 H2]; [by apply request_no_cr|].
    destruct (first_crlf b) as [i|] eqn:Hb; [|done]. apply (first_crlf_app _ l) in Hb. rewrite <- Hl in Hb. congruence.
  - apply (f_equal size_of) in Hl. rewrite !size_of_app in Hl. change (size_of [x0d]) with 1 in Hl.
    pose proof (size_of_nonneg l). destruct Hok. lia.
Qed.

Lemma encode_prefix c b :
  b `prefix_of` encode c → b `prefix_of` request c ++ [x0d] ∨ ∃ b', b = request c ++ kCRLF ++ b' ∧ b' `prefix_of` body c.
Proof.
  intros Hb. unfold encode in Hb. rewrite app_assoc in Hb. change kCRLF with ([x0d] ++ [x0a]) in Hb.
  rewrite app_assoc, <- (app_assoc (request c ++ [x0d])) in Hb. apply prefix_app_cases in Hb as [Hb|(b' & -> & Hb)]; [by left|].
  destruct b' as [|y b']; [left; by rewrite app_nil_r|]. right. destruct Hb as [l Hl]. injection Hl as <- Hl.
  exists b'. split; [by rewrite <- app_assoc|by exists l].
Qed.

(** One command: what it leaves, and what a part of it leaves pending. *)
Lemma serve c n t w :
  command_ok c → ready n t w → 0 ≤ n → n + cmd_size c ≤ 2 ^ 30 → updates t + 1 < 2 ^ 63 →
  ∃ w', served (n + cmd_size c) (answer c t).2 (answer c t).1 w w' ∧
    (∀ more r, runs hash startTime_ more w' r → runs hash startTime_ (encode c ++ more) w r) ∧
    (∀ b, b `prefix_of` encode c → b ≠ encode c → pending_short b w).
Proof.
  intros Hok Hr Hn Hsize Hu. pose proof Hr as [Hinv Hst _ _ _ _ _].
  pose proof (λ b, pending_request c w b Hok Hinv Hst) as Hline. pose proof (encode_prefix c) as Hcases.
  assert (∀ w1 out t', processRequest hash startTime_ (request c) w = Ok (true, w1) → body c = [] → cmd_size c = 0 →
    answer c t = (out, t') → served n t' out w (on_sess resetRequest w1) →
    ∃ w', served (n + cmd_size c) (answer c t).2 (answer c t).1 w w' ∧
      (∀ more r, runs hash startTime_ more w' r → runs hash startTime_ (encode c ++ more) w r) ∧
      (∀ b, b `prefix_of` encode c → b ≠ encode c → pending_short b w)) as Hplain.
  { intros w1 out t' Hp Hbody Hz Ha Hserved. exists (on_sess resetRequest w1). rewrite Ha, Hz, Z.add_0_r. split_and!; [done| |].
    - intros more r Hm. eapply (runs_request c w w1 true); try done. by rewrite Hbody.
    - intros b Hb Hne. destruct (Hcases b Hb) as [Hb1|(b' & -> & Hb')]; [by apply Hline|]. exfalso. apply Hne.
      rewrite Hbody in Hb'. apply prefix_nil_inv in Hb' as ->. unfold encode. by rewrite Hbody. }
  destruct c as [p k flags exptime cas v q|needCas keys|k q|].
  - destruct (serve_update n t w p k flags exptime cas v q) as (w1 & w2 & Hp & Hinv1 & Hst1 & (e & Hi) & Ht & Hserved); [done..|].
    exists w2. destruct (answer _ t) as [out t']. split_and!; [done| |].
    + intros more r Hm. eapply (runs_request _ w w1 false); [done..|]. eapply runs_turn; [|apply Ht|exact Hm].
      cbn [body]. intros [[_ ?]%app_nil _]%app_nil. done.
    + intros b Hb Hne. destruct (Hcases b Hb) as [?|(b' & -> & Hb')]; [by apply Hline|].
      assert (pending_short b' w1) as (rest & w3 & Hrest & Hsz).
      { destruct Hok as [_ (_ & [_ Hk] & _ & _ & _ & Hv)]. pose proof (size_of_nonneg v).
        eapply (pending_value b' w1 k _ _ (size_of v + 2)); [done|done|exact Hi|done|lia|]. destruct Hb' as [l Hl]. cbn [body] in Hl.
        destruct l as [|y l]; [exfalso; apply Hne; unfold encode; cbn [body]; by rewrite Hl, app_nil_r|].
        apply (f_equal size_of) in Hl. rewrite !size_of_app, size_of_kCRLF, size_of_cons in Hl. pose proof (size_of_nonneg l). lia. }
      exists rest, w3. split; [|done]. set (c := Update p k flags exptime cas v q) in *.
      eapply runs_turn; [intros [_ ?]%app_nil; done|by apply turn_request|exact Hrest].
  - destruct (serve_get n t w needCas keys) as (w1 & Hp & Hserved); [done|done|lia|]. by eapply Hplain.
  - destruct (serve_delete n t w k q) as (w1 & Hp & Hserved); [done|done|]. destruct (answer (Delete k q) t) as [out t'] eqn:Ha.
    by eapply Hplain.
  - destruct (serve_version n t w) as (w1 & Hp & Hserved); [done|]. by eapply Hplain.
Qed.

Lemma answers_cons c cs t :
  answers (c :: cs) t = ((answer c t).1 ++ (answers cs (answer c t).2).1, (answers cs (answer c t).2).2).
Proof. cbn. destruct (answer c t) as [a t1]. cbn. by destruct (answers cs t1). Qed.

Lemma answer_updates c t : updates (answer c t).2 ≤ updates t + 1.
Proof.
  destruct c as [p k flags exptime cas v q|needCas keys|k q|]; cbn [answer]; try (cbn; lia).
  pose proof (update_updates p k (command_entry flags exptime cas v p) t) as Hu.
  by destruct (update _ _ _ _) as [[? ?] ?]; cbn in *; lia.
Qed.

(** A conversation at once, and any beginning of it. *)
Lemma serve_all cs : ∀ n t w,
  Forall command_ok cs → ready n t w → 0 ≤ n → n + cmds_size cs ≤ 2 ^ 30 → updates t + size_of cs < 2 ^ 63 →
  (∃ w', served (n + cmds_size cs) (answers cs t).2 (answers cs t).1 w w' ∧
     runs hash startTime_ (concat (encode <$> cs)) w (Ok ([], w'))) ∧
  ∀ b, b `prefix_of` concat (encode <$> cs) → pending_short b w.
Proof.
  induction cs as [|c cs IH]; intros n t w Hcs Hr Hn Hsize Hu.
  { split.
    - exists w. cbn. rewrite Z.add_0_r. split; [split; [done|by rewrite app_nil_r]|apply runs_nil].
    - intros b ->%prefix_nil_inv. exists [], w. split; [apply runs_nil|by vm_compute]. }
  apply Forall_cons in Hcs as [Hc Hcs]. rewrite size_of_cons in Hu. pose proof (size_of_nonneg cs).
  change (cmds_size (c :: cs)) with (cmd_size c + cmds_size cs) in *. pose proof (cmds_size_nonneg cs). pose proof (cmd_size_nonneg c).
  destruct (serve c n t w Hc Hr Hn) as (w1 & [Hr1 Hsent1] & Hruns & Hpre); [lia|lia|].
  pose proof (answer_updates c t). destruct (IH _ _ _ Hcs Hr1) as [(w2 & [Hr2 Hsent2] & Hruns2) Hpre2]; [lia..|].
  cbn [fmap list_fmap concat]. split.
  - exists w2. rewrite answers_cons. split; [|by apply Hruns]. split; [by rewrite Z.add_assoc|]. cbn [fst]. by rewrite Hsent2, Hsent1, app_assoc.
  - intros b Hb. apply prefix_app_cases in Hb as [Hb|(b' & -> & Hb)].
    + destruct (decide (b = encode c)) as [->|]; [|by apply Hpre]. rewrite <- (app_nil_r (encode c)).
      exists [], w1. split; [apply Hruns, runs_nil|by vm_compute].
    + destruct (Hpre2 b' Hb) as (rest & w3 & H3 & Hsz). exists rest, w3. split; [by apply Hruns|done].
Qed.

(** C30. A conversation.  The commands are [command_ok]: the request line has at most
    1022 bytes (a longer one is served or not depending on the segments,
    [long_line_depends]); keys are words of the text protocol of at most 250 bytes, and
    the last word of a [get] or the key of a [delete] is not [noreply], which the server
    takes for the option; flags have 32 bits, the expiration time is not negative and has
    63 bits, a [cas] number 64, and a value at most 2^20 bytes; all of them together stay
    within 2^30 bytes, and the updates within 2^63.  A client that sends such commands, in segments of any size, gets exactly the answers of the table, in the order of the commands: updates
    by each policy store or refuse, with the answer that says so or none at all
    for [noreply], and [get] returns the values, whatever bytes they consist of,
    that were stored under its keys.  In the end nothing is pending and the
    sharded store stands for the table. *)
Theorem memcached_serves cs chunks n t w :
  Forall command_ok cs → ready n t w → 0 ≤ n → n + cmds_size cs ≤ 2 ^ 30 → updates t + size_of cs < 2 ^ 63 →
  0 ≤ bytesRead_ (sess w) < 2 ^ 64 → concat chunks = concat (encode <$> cs) →
  ∃ w', feed hash startTime_ [] chunks w = Some (Ok ([], w')) ∧
    sent w' = sent w ++ (answers cs t).1 ∧ ready (n + cmds_size cs) (answers cs t).2 w'.
Proof.
  intros Hcs Hr Hn Hsize Hu Hcount Hchunks. pose proof (ready_inv _ _ _ Hr) as Hinv.
  destruct (serve_all cs n t w Hcs Hr Hn Hsize Hu) as [(w' & [Hr' Hsent] & Hruns) Hpre].
  rewrite (feed_runs hash startTime_ chunks [] w); [|done|apply runs_nil|done|].
  - cbn [app]. rewrite Hchunks. destruct (onMessage_runs hash startTime_ (concat (encode <$> cs)) w Hinv) as (r & Hr2 & ->).
    rewrite (runs_det _ _ _ _ _ _ Hr2 Hruns). eexists. split; [done|]. split; [exact Hsent|].
    destruct Hr' as [H1 H2 H3 H4 H5 H6 H7]. by split.
  - rewrite Hchunks. cbn [app]. intros b rest w1 Hb Hrun. destruct (Hpre b Hb) as (rest2 & w2 & Hrun2 & Hsz).
    pose proof (runs_det _ _ _ _ _ _ Hrun Hrun2) as E. by injection E as -> _.
Qed.
End Serve.

(** A new session on a store that stands for a table is ready. *)
Lemma fresh_ready hash n t s :
  represents hash t s → fits n t →
  (∀ k e, entries t !! k = Some e → 0 ≤ e_flags e < 2 ^ 32 ∧ 0 ≤ e_cas e ≤ updates t) →
  ready hash n t (mkWorld (fresh_session hash) s true [] false).
Proof. intros Hs Hf He. by split. Qed.

(** A value with a CR LF in it, stored, read and deleted, a byte per segment. *)
Lemma memcached_serves_witness :
  let cs := [Update kSet (lit "a") 5 0 0 (lit "x" ++ kCRLF ++ lit "y") false; Get true [lit "a"; lit "b"]; Delete (lit "a") true;
             Update kCas (lit "a") 5 0 1 (lit "z") false] in
  ∃ w', feed size_of 0 [] ((λ b, [b]) <$> concat (encode <$> cs)) (mkWorld (fresh_session size_of) Store_new true [] false) =
      Some (Ok ([], w')) ∧
    sent w' = lit "STORED" ++ kCRLF ++ lit "VALUE a 5 4 1" ++ kCRLF ++ lit "x" ++ kCRLF ++ lit "y" ++ kCRLF ++
      lit "END" ++ kCRLF ++ lit "NOT_FOUND" ++ kCRLF.
Proof.
  intros cs. destruct (memcached_serves size_of 0 cs ((λ b, [b]) <$> concat (encode <$> cs)) 0 Table_new
    (mkWorld (fresh_session size_of) Store_new true [] false)) as (w' & Hw & Hs & _).
  - assert (∀ k, k = lit "a" ∨ k = lit "b" → key_word k) as Hkw.
    { intros k [->| ->]; (split; [|by vm_compute]); (split; [split; [done|]|]; apply (bool_decide_unpack _); by vm_compute). }
    repeat apply Forall_cons_2; [| | | |by apply Forall_nil]; (split; [by vm_compute|]).
    + split; [done|]. split; [apply Hkw; by left|by vm_compute].
    + split; [|done]. repeat apply Forall_cons_2; [apply Hkw; by left|apply Hkw; by right|by apply Forall_nil].
    + split; [apply Hkw; by left|done].
    + split; [done|]. split; [apply Hkw; by left|by vm_compute].
  - apply fresh_ready; [apply represents_new|by intros k e|by intros k e].
  - done.
  - by vm_compute.
  - by vm_compute.
  - done.
  - by vm_compute.
  - exists w'. split; [exact Hw|]. rewrite Hs. by vm_compute.
Defined.
