(* ===== verification/Acceptor.v ===== *)
(** * Accepting connections (muduo/net/Acceptor.h, Acceptor.cc; [accept] of SocketsOps.cc)

    The acceptor on the process's table of descriptors, with its limit, and the
    kernel's queue of connections.  Other threads open and close descriptors
    between the system calls.  [errno] after a log line is what the logger's
    output function leaves there. *)
From stdpp Require Import base numbers list gmap.
From S2P Require Import Prelude Pollers EPollPoller PollPoller Channel.
Open Scope Z_scope.
Open Scope muduo_scope.

(** ** The system calls *)

Inductive File := FListen | FNull | FConn (c : Z) | FOther.

Record Kernel := mkKernel {
  fds : gmap Z File;
  limit : Z;
  backlog : list Z;
  (** every connection there has been *)
  arrivals : list Z
}.

#[export] Instance file_eq_dec : EqDecision File.
Proof. solve_decision. Defined.

Definition EPERM : Z := 1.
Definition EINTR : Z := 4.
Definition EBADF : Z := 9.
Definition EAGAIN : Z := 11.
Definition ENOMEM : Z := 12.
Definition EFAULT : Z := 14.
Definition EINVAL : Z := 22.
Definition ENFILE : Z := 23.
Definition EMFILE : Z := 24.
Definition EPROTO : Z := 71.
Definition ENOTSOCK : Z := 88.
Definition EOPNOTSUPP : Z := 95.
Definition ECONNABORTED : Z := 103.
Definition ENOBUFS : Z := 105.

(** The lowest free descriptor. *)
Definition free_fd (k : Kernel) : option Z :=
  head (filter (λ fd, fds k !! fd = None) (seqZ 0 (limit k))).

Definition set_fds (m : gmap Z File) (k : Kernel) : Kernel := mkKernel m (limit k) (backlog k) (arrivals k).
Definition set_backlog (q : list Z) (k : Kernel) : Kernel := mkKernel (fds k) (limit k) q (arrivals k).

Definition sys_open (f : File) (k : Kernel) : Z * Kernel :=
  match free_fd k with
  | Some fd => (fd, set_fds (<[ fd := f ]> (fds k)) k)
  | None => (-1, k)
  end.

(** accept(2): result, [errno] if negative; [err] is a passing error. *)
Definition sys_accept (err : option Z) (k : Kernel) : Z * Z * Kernel :=
  match err, free_fd k, backlog k with
  | Some e, _, _ => (-1, e, k)
  | None, None, _ => (-1, EMFILE, k)
  | None, Some _, [] => (-1, EAGAIN, k)
  | None, Some fd, c :: q => (fd, 0, set_backlog q (set_fds (<[ fd := FConn c ]> (fds k)) k))
  end.

(** close(2), which fails on -1. *)
Definition sys_close (fd : Z) (k : Kernel) : Kernel :=
  if fd <? 0 then k else set_fds (delete fd (fds k)) k.

(** What goes on outside the loop's thread: descriptors opened and closed, and
    connections of peers. *)
Inductive Other := OOpen | OClose (fd : Z) | OConnect (c : Z).
Definition other (o : Other) (k : Kernel) : Kernel :=
  match o with
  | OOpen => (sys_open FOther k).2
  | OClose fd => sys_close fd k
  | OConnect c => mkKernel (fds k) (limit k) (backlog k ++ [c]) (arrivals k ++ [c])
  end.
Definition others (os : list Other) (k : Kernel) : Kernel := foldl (λ k o, other o k) k os.

(** ** The acceptor *)

(** What becomes of a connection: the callback gets it, or it is closed at once. *)
Inductive Served := Handed (c fd : Z) | Refused (c : Z).

Record Acceptor (P : Type) := mkAcceptor {
  acceptSocket_ : Z;
  acceptChannel_ : Z;
  newConnectionCallback_ : bool;
  listening_ : bool;
  idleFd_ : Z;
  kernel : Kernel;
  chans : Channels * P;
  served : list Served
}.
Arguments mkAcceptor {P} _ _ _ _ _ _ _ _.
Arguments acceptSocket_ {P} _.
Arguments acceptChannel_ {P} _.
Arguments newConnectionCallback_ {P} _.
Arguments listening_ {P} _.
Arguments idleFd_ {P} _.
Arguments kernel {P} _.
Arguments chans {P} _.
Arguments served {P} _.

(** The system calls of one event: a passing error of each [accept], and what
    other threads do before the second one and before [open]. *)
Record Turn := mkTurn {
  t_err : option Z;
  t_err2 : option Z;
  t_race : list Other;
  t_race2 : list Other
}.

(** sockets::accept *)
Definition accept (err : option Z) (k : Kernel) : outcome (Z * Z * Kernel) :=
  let '(connfd, savedErrno, k) := sys_accept err k in
  if connfd <? 0 then
    if bool_decide (savedErrno ∈ [EAGAIN; ECONNABORTED; EINTR; EPROTO; EPERM; EMFILE])
    then mret (connfd, savedErrno, k)
    else if bool_decide (savedErrno ∈ [EBADF; EFAULT; EINVAL; ENFILE; ENOBUFS; ENOMEM; ENOTSOCK; EOPNOTSUPP])
    then Fault (Fatal 149)
    else Fault (Fatal 152)
  else mret (connfd, 0, k).

Section Operations.
Context `{PollerOps P} (log_errno : Z → Z).
Implicit Types w : Acceptor P.

Definition set_kernel (k : Kernel) w : Acceptor P :=
  mkAcceptor (acceptSocket_ w) (acceptChannel_ w) (newConnectionCallback_ w) (listening_ w) (idleFd_ w)
    k (chans w) (served w).
Definition set_idle (fd : Z) w : Acceptor P :=
  mkAcceptor (acceptSocket_ w) (acceptChannel_ w) (newConnectionCallback_ w) (listening_ w) fd
    (kernel w) (chans w) (served w).
Definition set_chans (cp : Channels * P) w : Acceptor P :=
  mkAcceptor (acceptSocket_ w) (acceptChannel_ w) (newConnectionCallback_ w) (listening_ w) (idleFd_ w)
    (kernel w) cp (served w).
Definition serve (x : list Served) w : Acceptor P :=
  mkAcceptor (acceptSocket_ w) (acceptChannel_ w) (newConnectionCallback_ w) (listening_ w) (idleFd_ w)
    (kernel w) (chans w) (served w ++ x).
Definition set_listening w : Acceptor P :=
  mkAcceptor (acceptSocket_ w) (acceptChannel_ w) (newConnectionCallback_ w) true (idleFd_ w)
    (kernel w) (chans w) (served w).
Definition setNewConnectionCallback w : Acceptor P :=
  mkAcceptor (acceptSocket_ w) (acceptChannel_ w) true (listening_ w) (idleFd_ w)
    (kernel w) (chans w) (served w).

(** close(2) in the loop's thread; a connection that is closed is refused. *)
Definition close (fd : Z) w : Acceptor P :=
  let f := if fd <? 0 then None else fds (kernel w) !! fd in
  let w := set_kernel (sys_close fd (kernel w)) w in
  match f with Some (FConn c) => serve [Refused c] w | _ => w end.

(** The constructor, for the channel at address [a]; [bind] succeeds. *)
Definition Acceptor_new (a : Z) (k : Kernel) (cp : Channels * P) : outcome (Acceptor P) :=
  let '(fd, k) := sys_open FListen k in
  if fd <? 0 then Fault (Fatal 91)
  else
    let cp := (<[ a := Channel_new fd ]> cp.1, cp.2) in
    let '(idle, k) := sys_open FNull k in
    _ ← assertb 32 (0 <=? idle);
    mret (mkAcceptor fd a false false idle k cp []).

Definition Acceptor_destructor w : outcome (Acceptor P) :=
  cp ← disableAll (chans w).1 (chans w).2 (acceptChannel_ w);
  cp ← remove cp.1 cp.2 (acceptChannel_ w);
  let w := close (idleFd_ w) (set_chans cp w) in
  mret (close (acceptSocket_ w) w).

Definition listen w : outcome (Acceptor P) :=
  let w := set_listening w in
  cp ← enableReading (chans w).1 (chans w).2 (acceptChannel_ w);
  mret (set_chans cp w).

(** No descriptor is left: the spare one accepts the connection, to close it. *)
Definition use_idle (t : Turn) w : Acceptor P :=
  let w := close (idleFd_ w) w in
  let '(fd, _, k) := sys_accept (t_err2 t) (others (t_race t) (kernel w)) in
  let w := set_idle fd (set_kernel k w) in
  let w := close (idleFd_ w) w in
  let '(fd, k) := sys_open FNull (others (t_race2 t) (kernel w)) in
  set_idle fd (set_kernel k w).

Definition handleRead (t : Turn) w : outcome (Acceptor P) :=
  '(connfd, errno, k) ← accept (t_err t) (kernel w);
  let w := set_kernel k w in
  if 0 <=? connfd then
    match fds k !! connfd with
    | Some (FConn c) =>
      if newConnectionCallback_ w then mret (serve [Handed c connfd] w)
      else mret (close connfd w)
    | _ => Fault BadDeref
    end
  else
    let errno := log_errno errno in
    if errno =? EMFILE then mret (use_idle t w) else mret w.

(** ** Runs *)

Inductive Input := IOther (o : Other) | IEvent (t : Turn).

Definition exec (i : Input) w : outcome (Acceptor P) :=
  match i with
  | IOther o => mret (set_kernel (other o (kernel w)) w)
  | IEvent t => handleRead t w
  end.
Fixpoint exec_all (inputs : list Input) w : outcome (Acceptor P) :=
  match inputs with
  | [] => mret w
  | i :: inputs => w ← exec i w; exec_all inputs w
  end.
End Operations.

(** ** Descriptors *)

Lemma free_fd_Some k fd : free_fd k = Some fd → 0 ≤ fd < limit k ∧ fds k !! fd = None.
Proof.
  unfold free_fd. intros Hf. assert (fd ∈ filter (λ fd, fds k !! fd = None) (seqZ 0 (limit k))) as Hin.
  { destruct (filter _ _); [done|]. simplify_eq/=. left. }
  apply list_elem_of_filter in Hin as [? Hin]. apply elem_of_seqZ in Hin. split; [lia|done].
Qed.

Lemma free_fd_exists k fd : 0 ≤ fd < limit k → fds k !! fd = None → is_Some (free_fd k).
Proof.
  intros Hfd Hn. unfold free_fd.
  assert (fd ∈ filter (λ fd, fds k !! fd = None) (seqZ 0 (limit k))) as Hin.
  { apply list_elem_of_filter. split; [done|]. apply elem_of_seqZ. lia. }
  destruct (filter _ _); [by apply elem_of_nil in Hin|by eexists].
Qed.

Lemma sys_open_ok f k fd :
  0 ≤ fd < limit k → fds k !! fd = None →
  ∃ fd', sys_open f k = (fd', set_fds (<[ fd' := f ]> (fds k)) k) ∧ 0 ≤ fd' < limit k ∧ fds k !! fd' = None.
Proof.
  intros Hfd Hn. destruct (free_fd_exists k fd Hfd Hn) as [fd' E]. exists fd'. unfold sys_open. rewrite E.
  split; [done|by apply free_fd_Some].
Qed.

(** ** The invariant *)

Section Invariant.
Context `{PollerOps P} (log_errno : Z → Z).
Implicit Types w : Acceptor P.

Definition conns (l : list Served) : list Z := (λ x, match x with Handed c _ | Refused c => c end) <$> l.
Arguments conns : simpl never.

(** The spare descriptor is reserved, connections go to the callback, and
    none is lost or taken out of order. *)
Record acceptor_ok w : Prop := {
  ok_callback : newConnectionCallback_ w = true;
  ok_listen : fds (kernel w) !! acceptSocket_ w = Some FListen;
  ok_idle : fds (kernel w) !! idleFd_ w = Some FNull;
  ok_range : 0 ≤ idleFd_ w < limit (kernel w);
  ok_served : conns (served w) ++ backlog (kernel w) = arrivals (kernel w)
}.


(** Other threads leave the acceptor's descriptors alone. *)
Definition hands_off w (o : Other) : bool :=
  match o with OClose fd => negb (fd =? acceptSocket_ w) && negb (fd =? idleFd_ w) | _ => true end.
Definition no_open (o : Other) : bool := if o is OOpen then false else true.

Definition passing (err : option Z) : bool :=
  match err with None => true | Some e => bool_decide (e ∈ [EAGAIN; ECONNABORTED; EINTR; EPROTO; EPERM]) end.

(** While the acceptor has given up its spare descriptor no other thread opens one. *)
Definition allowed (i : Input) w : bool :=
  match i with
  | IOther o => hands_off w o
  | IEvent t => passing (t_err t) &&
      forallb (λ o, hands_off w o && no_open o) (t_race t ++ t_race2 t)
  end.
Fixpoint allowed_all (inputs : list Input) w : bool :=
  match inputs with
  | [] => true
  | i :: inputs => allowed i w && match exec log_errno i w with Ok w => allowed_all inputs w | Fault _ => true end
  end.

(** What other threads cannot do without opening a descriptor. *)
Lemma others_quiet w os k :
  forallb (λ o, hands_off w o && no_open o) os = true →
  limit (others os k) = limit k ∧
  fds (others os k) !! acceptSocket_ w = fds k !! acceptSocket_ w ∧
  (∀ fd, fds k !! fd = None → fds (others os k) !! fd = None) ∧
  ∃ cs, backlog (others os k) = backlog k ++ cs ∧ arrivals (others os k) = arrivals k ++ cs.
Proof.
  revert k. induction os as [|o os IH]; intros k Ho; cbn [forallb] in Ho.
  { split_and!; try done. exists []. cbn. by rewrite !app_nil_r. }
  apply andb_true_iff in Ho as [[Hh Hn]%andb_true_iff Ho].
  change (others (o :: os) k) with (others os (other o k)).
  destruct (IH (other o k) Ho) as (-> & -> & Hfree & cs & -> & ->). destruct o as [|fd|c]; try done.
  - cbn in Hh. apply andb_true_iff in Hh as [Ha%negb_true_iff%Z.eqb_neq _].
    unfold other, sys_close in *. destruct (Z.ltb_spec fd 0) in Hfree |- *; [by split_and!; eauto|].
    split_and!; [done|by cbn; rewrite lookup_delete_ne by congruence| |by eauto].
    intros fd' Hf. apply Hfree. cbn. by apply lookup_delete_None; right.
  - split_and!; try done. exists (c :: cs). cbn. by rewrite <- !app_assoc.
Qed.

Lemma other_ok o w : hands_off w o = true → acceptor_ok w → acceptor_ok (set_kernel (other o (kernel w)) w).
Proof.
  intros Ho [H1 H2 H3 H4 H5]. destruct o as [|fd|c].
  - unfold other, sys_open. destruct (free_fd (kernel w)) as [fd|] eqn:E; [|by split].
    apply free_fd_Some in E as [_ E]. split; cbn; try done; rewrite lookup_insert_ne; congruence.
  - cbn in Ho. apply andb_true_iff in Ho as [Ha%negb_true_iff%Z.eqb_neq Hb%negb_true_iff%Z.eqb_neq].
    unfold other, sys_close. destruct (fd <? 0); [by split|].
    split; cbn; try done; rewrite lookup_delete_ne; congruence.
  - split; try done. cbn. by rewrite app_assoc, H5.
Qed.

Lemma close_open fd w f :
  0 ≤ fd → fds (kernel w) !! fd = Some f →
  close fd w = (if f is FConn c then serve [Refused c] else id)
                 (set_kernel (set_fds (delete fd (fds (kernel w))) (kernel w)) w).
Proof.
  intros Hfd Hf. unfold close, sys_close. rewrite (proj2 (Z.ltb_ge fd 0)), Hf by lia. by destruct f.
Qed.

(** The last call of [use_idle]. *)
Lemma reopen_ok w w1 os fd0 :
  forallb (λ o, hands_off w o && no_open o) os = true →
  newConnectionCallback_ w1 = true → acceptSocket_ w1 = acceptSocket_ w →
  fds (kernel w1) !! acceptSocket_ w = Some FListen →
  0 ≤ fd0 < limit (kernel w1) → fds (kernel w1) !! fd0 = None →
  conns (served w1) ++ backlog (kernel w1) = arrivals (kernel w1) →
  let '(fd, k) := sys_open FNull (others os (kernel w1)) in acceptor_ok (set_idle fd (set_kernel k w1)).
Proof.
  intros Ho Hcb Ha Hl Hfd Hn Hs.
  destruct (others_quiet w os (kernel w1) Ho) as (Elim & Elis & Efree & cs & Eb & Ea).
  destruct (sys_open_ok FNull (others os (kernel w1)) fd0) as (fd & -> & Hr & Hf); [lia|auto|].
  split; cbn; try done.
  - rewrite Ha, lookup_insert_ne by congruence. congruence.
  - apply lookup_insert_eq.
  - by rewrite Eb, Ea, app_assoc, Hs.
Qed.

Lemma use_idle_ok t w :
  forallb (λ o, hands_off w o && no_open o) (t_race t ++ t_race2 t) = true → acceptor_ok w →
  acceptor_ok (use_idle t w) ∧
  (t_err2 t = None → ∀ c q, backlog (kernel w) = c :: q → served (use_idle t w) = served w ++ [Refused c]).
Proof.
  rewrite forallb_app. intros [Hr1 Hr2]%andb_true_iff [Hcb Hl Hi Hr Hs]. unfold use_idle.
  rewrite (close_open (idleFd_ w) w FNull) by (done || lia). cbn [id set_kernel kernel idleFd_].
  set (k0 := set_fds (delete (idleFd_ w) (fds (kernel w))) (kernel w)).
  destruct (others_quiet w (t_race t) k0 Hr1) as (Elim & Elis & Efree & cs & Eb & Ea).
  set (k1 := others (t_race t) k0) in *.
  assert (fds k1 !! idleFd_ w = None) as Hidle by (apply Efree; apply lookup_delete_eq).
  assert (fds k1 !! acceptSocket_ w = Some FListen) as Hlis.
  { rewrite Elis. unfold k0. cbn. rewrite lookup_delete_ne; congruence. }
  change (backlog k0) with (backlog (kernel w)) in Eb. change (limit k0) with (limit (kernel w)) in Elim.
  change (arrivals k0) with (arrivals (kernel w)) in Ea.
  assert (conns (served w) ++ backlog k1 = arrivals k1) as Hs1 by (by rewrite Eb, Ea, app_assoc, Hs).
  clearbody k1. clear Elis Efree Ea.
  destruct (free_fd_exists k1 (idleFd_ w)) as [fd Hfd]; [lia|done|].
  destruct (free_fd_Some _ _ Hfd) as [Hfdr Hfdn].
  unfold sys_accept. rewrite Hfd.
  pose proof (reopen_ok w (set_kernel k1 w) (t_race2 t) fd Hr2 Hcb eq_refl Hlis Hfdr Hfdn Hs1) as Hnone.
  destruct (t_err2 t) as [e|]; [|destruct (backlog k1) as [|c q] eqn:Eq].
  1, 2: unfold close; cbn [set_idle set_kernel idleFd_ kernel Z.ltb Z.compare];
    change (sys_close (-1) k1) with k1; cbn [set_idle set_kernel idleFd_ kernel] in *;
    destruct (sys_open _ _) as [fd' k']; destruct Hnone; split; [by split|];
    intros Hn c q Hb; rewrite Hb in Eb; done.
  (* a connection was accepted *)
  rewrite (close_open _ _ (FConn c)) by (apply Hfdr || apply lookup_insert_eq).
  cbn [set_fds set_backlog fds serve set_kernel set_idle kernel backlog limit arrivals idleFd_].
  rewrite delete_insert_id by done.
  pose proof (reopen_ok w (serve [Refused c] (set_kernel (mkKernel (fds k1) (limit k1) q (arrivals k1)) w))
    (t_race2 t) fd Hr2 Hcb eq_refl Hlis Hfdr Hfdn) as Hone.
  cbn [kernel set_kernel backlog serve served arrivals] in Hone.
  destruct (sys_open _ _) as [fd' k'] in Hone |- *.
  assert (conns (served w ++ [Refused c]) ++ q = arrivals k1) as Hs2.
  { rewrite <- Hs1. unfold conns. by rewrite fmap_app, <- app_assoc. }
  destruct (Hone Hs2). split; [by split|]. intros _ c' q' Hb. rewrite Hb in Eb. by simplify_eq/=.
Qed.

(** One event: with a connection waiting and no passing error, exactly one is served. *)
Lemma handleRead_ok t w :
  allowed (IEvent t) w = true → acceptor_ok w →
  handleRead log_errno t w ⇓ λ w', acceptor_ok w' ∧
    (log_errno EMFILE = EMFILE → t_err t = None → t_err2 t = None → ∀ c q, backlog (kernel w) = c :: q →
     served w' = served w ++ [match free_fd (kernel w) with Some fd => Handed c fd | None => Refused c end]).
Proof.
  cbn [allowed]. intros [He Hr]%andb_true_iff Hw.
  destruct (use_idle_ok t w Hr Hw) as [Hidle Hserve]. destruct w as [a ch cb li idle k cp sv]. cbn in *.
  assert (∀ e, accept (t_err t) k = Ok (-1, e, k) →
    (t_err t = None → free_fd k = None → e = EMFILE) → (t_err t = None → free_fd k ≠ None → backlog k = []) →
    handleRead log_errno t (mkAcceptor a ch cb li idle k cp sv) ⇓ λ w', acceptor_ok w' ∧
    (log_errno EMFILE = EMFILE → t_err t = None → t_err2 t = None → ∀ c q, backlog k = c :: q →
     served w' = sv ++ [match free_fd k with Some fd => Handed c fd | None => Refused c end])) as Hfail.
  { intros e Hacc Hem Hnb. unfold handleRead. cbn [kernel]. rewrite Hacc. cbn.
    destruct (Z.eqb_spec (log_errno e) EMFILE) as [E|E]; cbn; (split; [done|]);
      intros Hlog Ht Ht2 c q Hb; destruct (free_fd k) eqn:Ef;
      try (by rewrite Hnb in Hb by done); [by eauto|by rewrite Hem in E by done]. }
  unfold accept, sys_accept in *. destruct (t_err t) as [e|] eqn:Et.
  { apply (Hfail e); try done. cbn in He. apply bool_decide_eq_true in He. cbn. rewrite bool_decide_true; [done|].
    set_solver. }
  destruct (free_fd k) as [fd|] eqn:Ef; [|by apply (Hfail EMFILE)].
  destruct (backlog k) as [|c q] eqn:Eb; [by apply (Hfail EAGAIN)|].
  destruct (free_fd_Some _ _ Ef) as [Hfd Hn]. unfold handleRead, accept, sys_accept. cbn [kernel]. rewrite Et, Ef, Eb. cbv iota beta.
  rewrite (proj2 (Z.ltb_ge fd 0)) by lia. cbv iota. run_ok. cbv iota. rewrite (proj2 (Z.leb_le 0 fd)) by lia.
  cbn [fds set_fds set_backlog]. rewrite lookup_insert_eq. cbn. destruct Hw as [Hcb Hl Hi Hrg Hs]. cbn in *. rewrite Hcb.
  cbn. split.
  - split; cbn; try done; [rewrite lookup_insert_ne; congruence..|].
    rewrite <- Hs. unfold conns. by rewrite fmap_app, <- app_assoc, Eb.
  - intros _ _ _ c' q' [= <- <-]. done.
Qed.

Lemma exec_all_ok inputs : ∀ w, acceptor_ok w → allowed_all inputs w = true → exec_all log_errno inputs w ⇓ acceptor_ok.
Proof.
  induction inputs as [|i inputs IH]; intros w Hw Ha; [done|]. cbn in Ha |- *. apply andb_true_iff in Ha as [Hi Ha].
  assert (exec log_errno i w ⇓ acceptor_ok) as He.
  { destruct i as [o|t]; [by apply other_ok|]. eapply yields_mono; [by apply handleRead_ok|]. by intros ? [? _]. }
  destruct (exec log_errno i w) as [w1|]; [|done]. by apply IH.
Qed.

End Invariant.

(** ** Construction and destruction *)

Section Lifetime.
Context `{PollerLaws P}.

(** An acceptor made with two descriptors to spare starts in the invariant. *)
Lemma Acceptor_new_ok a k (cp : Channels * P) fd fd' :
  0 ≤ fd < limit k → 0 ≤ fd' < limit k → fd ≠ fd' → fds k !! fd = None → fds k !! fd' = None →
  backlog k = arrivals k →
  Acceptor_new a k cp ⇓ λ w, acceptor_ok (setNewConnectionCallback w) ∧
    (chans w).1 = <[ a := Channel_new (acceptSocket_ w) ]> cp.1 ∧ (chans w).2 = cp.2 ∧ acceptChannel_ w = a ∧
    0 ≤ acceptSocket_ w < limit k.
Proof.
  intros Hfd Hfd' Hne Hn Hn' Hb. unfold Acceptor_new.
  destruct (sys_open_ok FListen k fd) as (l & -> & Hl & Hln); [done..|].
  rewrite (proj2 (Z.ltb_ge l 0)) by lia. set (k1 := set_fds _ k).
  assert (∃ i, 0 ≤ i < limit k1 ∧ fds k1 !! i = None) as (i0 & Hi0 & Hi0n).
  { destruct (decide (l = fd)) as [->|]; [exists fd'|exists fd]; cbn; (split; [lia|]); rewrite lookup_insert_ne; congruence. }
  destruct (sys_open_ok FNull k1 i0) as (i & -> & Hi & Hin); [done..|].
  rewrite (proj2 (Z.leb_le 0 i)) by lia. run_ok. split_and!; try done; [|cbn in *; lia..].
  split; cbn in *; try done; [|apply lookup_insert_eq].
  rewrite lookup_insert_ne, lookup_insert_eq; [done|]. intros ->. by rewrite lookup_insert_eq in Hin.
Qed.

(** [listen] registers the channel, on any poller. *)
Lemma listen_ok (w : Acceptor P) s e :
  simulates s (chans w).1 (chans w).2 → s !! acceptChannel_ w = Some e → e_status e = Fresh → fd_free s (e_fd e) →
  listen w ⇓ λ w', listening_ w' = true ∧
    simulates (<[ acceptChannel_ w := mkEntry (e_fd e) (Z.lor (e_mask e) kReadEvent) Registered ]> s)
      (chans w').1 (chans w').2.
Proof.
  intros Hsim He Hst Hfree. unfold listen. cbn.
  assert (spec_op s (EnableReading (acceptChannel_ w)) =
    Some (<[ acceptChannel_ w := mkEntry (e_fd e) (Z.lor (e_mask e) kReadEvent) Registered ]> s)) as Hs.
  { cbn. unfold spec_mask. rewrite He. cbn. rewrite Hst. rewrite !option_guard_True; [done|done|].
    destruct (sim_entry _ _ _ Hsim _ _ He) as (c & _ & _ & _ & _ & Hm & _).
    destruct Hm as [->|[->|[->| ->]]]; done. }
  ystep (simulates_op s (chans w).1 (chans w).2 (EnableReading (acceptChannel_ w)) _ Hsim Hs).
  intros [cs p] Hsim'. by apply yields_ret.
Qed.

(** The destructor of an acceptor that has listened leaves nothing open. *)
Lemma destructor_ok (w : Acceptor P) s e :
  acceptor_ok w → 0 ≤ acceptSocket_ w →
  simulates s (chans w).1 (chans w).2 → s !! acceptChannel_ w = Some e → e_status e = Registered →
  Acceptor_destructor w ⇓ λ w',
    fds (kernel w') = delete (acceptSocket_ w) (delete (idleFd_ w) (fds (kernel w))) ∧
    served w' = served w ∧
    simulates (<[ acceptChannel_ w := mkEntry (e_fd e) 0 Removed ]> s) (chans w').1 (chans w').2.
Proof.
  intros Hw Hpos Hsim He Hst. unfold Acceptor_destructor.
  set (a := acceptChannel_ w) in *. set (s1 := <[ a := mkEntry (e_fd e) 0 Registered ]> s).
  assert (spec_op s (DisableAll a) = Some s1) as Hs by (cbn; unfold spec_mask; rewrite He; cbn; by rewrite Hst).
  ystep (simulates_op _ _ _ (DisableAll a) _ Hsim Hs). intros [cs p] Hsim1. cbn [fst snd].
  assert (spec_op s1 (Remove a) = Some (<[ a := mkEntry (e_fd e) 0 Removed ]> s)) as Hs1.
  { unfold s1. cbn. rewrite lookup_insert_eq. cbn. by rewrite insert_insert_eq. }
  ystep (simulates_op _ _ _ (Remove a) _ Hsim1 Hs1). intros [cs2 p2] Hsim2. apply yields_ret.
  rewrite (close_open _ (set_chans _ w) FNull) by (apply Hw || apply (ok_range w Hw)). cbn [id].
  rewrite (close_open _ _ FListen); [done|done|].
  cbn. rewrite lookup_delete_ne; [apply Hw|]. pose proof (ok_idle w Hw). pose proof (ok_listen w Hw). congruence.
Qed.
End Lifetime.

(** ** Examples *)

(** Four descriptors: 0 is taken, 1 and 2 are the acceptor's. *)
Definition example_kernel : Kernel := mkKernel {[ 0 := FOther ]} 4 [] [].
Definition example_acceptor : outcome (Acceptor PollPoller) :=
  w ← Acceptor_new 1 example_kernel (∅, PollPoller_new);
  listen (setNewConnectionCallback w).
Definition quiet : Turn := mkTurn None None [] [].
Definition example_inputs : list Input :=
  [IOther (OConnect 7); IOther (OConnect 8); IOther (OConnect 9); IEvent quiet; IEvent quiet; IOther (OClose 3); IEvent quiet].


Example acceptor_serves_example :
  (w ← example_acceptor; w ← exec_all id example_inputs w; mret (served w, idleFd_ w))
  = Ok ([Handed 7 3; Refused 8; Handed 9 3], 2).
Proof. vm_compute. reflexivity. Qed.

(** Another thread that opens a descriptor after the spare one is given up
    takes it: the connection stays in the queue, and so does every later one. *)
Example idle_fd_race :
  let w := w ← example_acceptor;
    exec_all id [IOther (OConnect 7); IOther (OConnect 8); IEvent quiet; IEvent (mkTurn None None [OOpen] []); IEvent quiet] w in
  (w ← w; mret (served w, idleFd_ w, backlog (kernel w))) = Ok ([Handed 7 3], -1, [8]).
Proof. vm_compute. reflexivity. Qed.

(** [errno] is read after a log line: if writing the line changes it, the
    branch for EMFILE is not taken. *)
Example errno_after_log :
  (w ← example_acceptor;
   w ← exec_all (λ _, EAGAIN) [IOther (OConnect 7); IOther (OConnect 8); IEvent quiet; IEvent quiet; IEvent quiet] w;
   mret (served w, backlog (kernel w))) = Ok ([Handed 7 3], [8]).
Proof. vm_compute. reflexivity. Qed.

(** An acceptor that never listened cannot be destructed on [PollPoller]. *)
Example destructor_before_listen :
  (w ← Acceptor_new 1 example_kernel (∅, PollPoller_new); Acceptor_destructor w) = Fault (AssertFailure 122).
Proof. vm_compute. reflexivity. Qed.
