(* ===== verification/ConnLife.v ===== *)
(** * The life of a connection

    What a server or a client sees of the [TcpConnection]s it makes: the state
    of each, the calls that move it ([connectEstablished], [handleClose],
    [connectDestroyed] and the destructor), and the objects it has made.  The
    last section shows that these moves are those of the model of
    [TcpConnection]. *)
From Stdlib Require Import Strings.Byte.
From stdpp Require Import base numbers list gmap strings.
From S2P Require Import Prelude Channel TcpConnection.
Open Scope Z_scope.
Open Scope muduo_scope.

Inductive Life := LEstablished | LClosed | LDestroyed | LDestructed.
#[export] Instance life_eq_dec : EqDecision Life.
Proof. solve_decision. Defined.

Record Conn := mkConn {
  c_name : list byte;
  c_loop : nat;
  c_fd : Z;
  c_state : StateE;
  c_life : list Life
}.

Definition live (c : Conn) (s : StateE) (l : Life) : Conn :=
  mkConn (c_name c) (c_loop c) (c_fd c) s (c_life c ++ [l]).
Definition is_open (s : StateE) : bool := bool_decide (s = kConnected) || bool_decide (s = kDisconnecting).

(** What the members of [TcpConnection] do to the state. *)
Definition life_established (c : Conn) : outcome Conn :=
  _ ← assertb 326 (bool_decide (c_state c = kConnecting)); mret (live c kConnected LEstablished).
Definition life_closed (c : Conn) : outcome Conn :=
  _ ← assertb 412 (is_open (c_state c)); mret (live c kDisconnected LClosed).
(** [setState(kDisconnecting)], whatever the state is. *)
Definition life_set (c : Conn) : Conn := mkConn (c_name c) (c_loop c) (c_fd c) kDisconnecting (c_life c).
(** The test and the change of [state_] in [shutdown] and in [forceClose]; the functors they queue are in the
    queues of the server and of the client. *)
Definition life_shutdown (c : Conn) : Conn := if bool_decide (c_state c = kConnected) then life_set c else c.
Definition life_forceClose (c : Conn) : Conn := if is_open (c_state c) then life_set c else c.
(** [Channel::remove] asserts that the channel is disabled, which [kDisconnecting]
    leaves to [handleClose]. *)
Definition life_destroyed (c : Conn) : outcome Conn :=
  match c_state c with
  | kConnected => mret (live c kDisconnected LDestroyed)
  | kDisconnecting =>
    if bool_decide (LClosed ∈ c_life c) then mret (live c kDisconnecting LDestroyed) else Fault (AssertFailure 61)
  | s => mret (live c s LDestroyed)
  end.
(** The destructor, which closes the socket. *)
Definition life_destructed (c : Conn) : outcome Conn :=
  _ ← assertb 71 (bool_decide (c_state c = kDisconnected)); mret (live c kDisconnected LDestructed).

(** The calls a connection gets, in order. *)
Definition lifetime : list Life := [LEstablished; LClosed; LDestroyed; LDestructed].

(** ** The objects that were made *)

Definition destructed (c : Conn) : bool := bool_decide (LDestructed ∈ c_life c).
(** The connection [id], which must not be destructed. *)
Definition find_conn (id : Z) (m : gmap Z Conn) : outcome Conn :=
  match m !! id with
  | None => Fault BadDeref
  | Some c => if destructed c then Fault BadDeref else Ok c
  end.
(** A member of the connection [id]. *)
Definition update_conn (f : Conn → outcome Conn) (id : Z) (m : gmap Z Conn) : outcome (gmap Z Conn) :=
  c ← find_conn id m; c ← f c; mret (<[ id := c ]> m).

Ltac not_destructed := let H := fresh in intros H; cbn in H; rewrite ?elem_of_app, ?elem_of_cons, ?elem_of_nil in H; intuition discriminate.

Lemma find_conn_Ok id m c : m !! id = Some c → LDestructed ∉ c_life c → find_conn id m = Ok c.
Proof. intros Hc Hl. unfold find_conn, destructed. by rewrite Hc, bool_decide_false. Qed.

Lemma update_conn_Ok f id m c c' :
  m !! id = Some c → LDestructed ∉ c_life c → f c = Ok c' → update_conn f id m = Ok (<[ id := c' ]> m).
Proof. intros Hc Hl Hf. unfold update_conn. rewrite (find_conn_Ok id m c) by done. cbn. by rewrite Hf. Qed.

(** ** The life of a connection is that of [TcpConnection] *)

Section Link.
Context `{PollerOps P}.
Implicit Types w : World P.

Lemma on_channel_conn f w w' : on_channel f w = Ok w' → conn w' = conn w.
Proof. unfold on_channel. intros E. inv_ok. by subst. Qed.

Lemma connectEstablished_life c w w' :
  c_state c = state_ (conn w) → connectEstablished [] w = Ok w' →
  ∃ c', life_established c = Ok c' ∧ c_state c' = state_ (conn w').
Proof.
  intros Hc E. unfold connectEstablished in E. inv_ok. unfold life_established. rewrite Hc, H0.
  eexists. split; [done|]. apply on_channel_conn in H2. unfold callback in H3. cbn in H3. inv_ok. subst. cbn. by rewrite H2.
Qed.

Lemma handleClose_life c w w' :
  c_state c = state_ (conn w) → handleClose [] w = Ok w' →
  ∃ c', life_closed c = Ok c' ∧ c_state c' = state_ (conn w').
Proof.
  intros Hc E. unfold handleClose in E. inv_ok. unfold life_closed, is_open. rewrite Hc.
  unfold open in H0. rewrite H0. eexists. split; [done|].
  apply on_channel_conn in H1. unfold callback in H2. cbn in H2. inv_ok. subst. cbn. by rewrite H1.
Qed.

Lemma connectDestroyed_life c w w' :
  c_state c = state_ (conn w) → state_ (conn w) ≠ kDisconnecting → connectDestroyed [] w = Ok w' →
  ∃ c', life_destroyed c = Ok c' ∧ c_state c' = state_ (conn w').
Proof.
  intros Hc Hd E. unfold connectDestroyed in E. inv_ok. apply on_channel_conn in H1. rewrite H1.
  unfold life_destroyed, connected in *. rewrite Hc. case_bool_decide as Hst; inv_ok.
  - rewrite Hst. eexists. split; [done|].
    apply on_channel_conn in H0. unfold callback in H2. cbn in H2. inv_ok. subst. cbn. by rewrite H0.
  - subst. destruct (state_ (conn x)); try done; by eexists.
Qed.
End Link.
