(* ===== verification/EventLoopThread.v ===== *)
(** * Loop threads (muduo/net/EventLoopThread.h, EventLoopThread.cc)

    An [EventLoopThread], its owner (who constructs it, calls [startLoop] and
    destructs it) and the thread that runs [threadFunc], whose [EventLoop] is the
    machine of [EventLoop].  The mutex and the condition are those of the
    handshake; other threads use the loop as in [EventLoop]. *)
From stdpp Require Import base numbers list gmap.
From S2P Require Import Prelude Channel EventLoop EventLoopSafety.
Open Scope Z_scope.
Open Scope muduo_scope.

(** The thread: not created; in [callback_]; after [loop_] was published, in
    [loop]; after [loop]; after [loop_] was cleared; after the destructor of its
    [EventLoop]. *)
Inductive Worker := WNotCreated | WCallback | WPublished | WExited | WCleared | WDone.

(** The owner: before [startLoop]; about to lock the mutex, and waiting, in
    [startLoop]; after it; in the destructor, before the test of [loop_], before
    the two halves of [quit], and in [join]; after it.  [OFault]: it has used an
    [EventLoop] that is gone. *)
Inductive Owner :=
  | ONew | OEnter | OWait | OReturned
  | ODestruct | OQuit | OWake | OJoin | OGone | OFault.

#[export] Instance Worker_eq_dec : EqDecision Worker.
Proof. solve_decision. Defined.
#[export] Instance Owner_eq_dec : EqDecision Owner.
Proof. solve_decision. Defined.

(** [tid]s of the two threads. *)
Definition worker_tid : nat := 0.
Definition owner_tid : nat := 1.

Record EventLoopThread (E : Type) := mkEventLoopThread {
  loop_ : bool;           (* loop_ != NULL *)
  exiting_ : bool;
  started_ : bool;        (* thread_.started() *)
  worker : Worker;
  owner : Owner;
  sys : System E;         (* the EventLoop of threadFunc *)
  other_quit : bool;      (* someone other than the destructor has called quit *)
  other_fault : bool      (* someone other than the owner has used an EventLoop that is gone *)
}.
Arguments mkEventLoopThread {E} _ _ _ _ _ _ _ _.
Arguments loop_ {E} _.
Arguments exiting_ {E} _.
Arguments started_ {E} _.
Arguments worker {E} _.
Arguments owner {E} _.
Arguments sys {E} _.
Arguments other_quit {E} _.
Arguments other_fault {E} _.

Section Machine.
Context {E : Type} `{EventFd E}.
(** What the channels of the loop do, and what [callback_] does. *)
Variable handler : Z → list Call.
Variable callback_ : list Call.

Definition EventLoopThread_new : EventLoopThread E :=
  mkEventLoopThread false false false WNotCreated ONew (init worker_tid callback_) false false.

Definition with_owner (o : Owner) (t : EventLoopThread E) : EventLoopThread E :=
  mkEventLoopThread (loop_ t) (exiting_ t) (started_ t) (worker t) o (sys t) (other_quit t) (other_fault t).
Definition with_worker (p : bool) (w : Worker) (o : Owner) (t : EventLoopThread E) : EventLoopThread E :=
  mkEventLoopThread p (exiting_ t) (started_ t) w o (sys t) (other_quit t) (other_fault t).
(** The loop moves on; [quit] calls are noted. *)
Definition with_sys (s : System E) (t : EventLoopThread E) : EventLoopThread E :=
  mkEventLoopThread (loop_ t) (exiting_ t) (started_ t) (worker t) (owner t) s
    (other_quit t || quit_ (lp s) && negb (quit_ (lp (sys t)))) (other_fault t).
Definition with_loop (l : EventLoop E) (s : System E) : System E :=
  mkSystem l (pc s) (others s) (sent s) (ran s).

(** The [EventLoop] of [threadFunc] exists. *)
Definition loop_alive (t : EventLoopThread E) : bool :=
  match worker t with WCallback | WPublished | WExited | WCleared => true | _ => false end.

(** [cond_.notify()] *)
Definition notify (o : Owner) : Owner := if o is OWait then OEnter else o.

(** One step of [threadFunc]. *)
Definition threadFunc (active : list Z) (t : EventLoopThread E) : option (EventLoopThread E) :=
  match worker t with
  | WNotCreated => if started_ t then Some (with_worker (loop_ t) WCallback (owner t) t) else None
  | WCallback =>
    match pc (sys t) with
    | NotStarted (_ :: _) => s ← loop_step handler active (sys t); Some (with_sys s t)
    | _ => Some (with_worker true WPublished (notify (owner t)) t)
    end
  | WPublished =>
    match pc (sys t) with
    | Stopped => Some (with_worker (loop_ t) WExited (owner t) t)
    | _ => s ← loop_step handler active (sys t); Some (with_sys s t)
    end
  | WExited => Some (with_worker false WCleared (owner t) t)
  | WCleared => Some (with_worker (loop_ t) WDone (owner t) t)
  | WDone => None
  end.

(** The next step of [startLoop], from its beginning. *)
Definition startLoop (t : EventLoopThread E) : option (outcome (EventLoopThread E)) :=
  match owner t with
  | ONew | OReturned =>
    Some (_ ← assertb 41 (negb (started_ t));
          mret (mkEventLoopThread (loop_ t) (exiting_ t) true (worker t) OEnter (sys t) (other_quit t) (other_fault t)))
  | OEnter => Some (mret (with_owner (if loop_ t then OReturned else OWait) t))
  | _ => None
  end.

(** A wake-up of [cond_.wait()] that no one asked for. *)
Definition spurious (t : EventLoopThread E) : option (EventLoopThread E) :=
  if owner t is OWait then Some (with_owner OEnter t) else None.

(** The next step of the destructor, from its beginning. *)
Definition destructor (t : EventLoopThread E) : option (EventLoopThread E) :=
  match owner t with
  | ONew | OReturned =>
    Some (mkEventLoopThread (loop_ t) true (started_ t) (worker t) ODestruct (sys t) (other_quit t) (other_fault t))
  | ODestruct => Some (with_owner (if loop_ t then OQuit else OGone) t)
  | OQuit =>
    if loop_alive t then
      let l := (exec owner_tid ISetQuit (lp (sys t))).1 in
      Some (mkEventLoopThread (loop_ t) (exiting_ t) (started_ t) (worker t) OWake (with_loop l (sys t)) (other_quit t) (other_fault t))
    else Some (with_owner OFault t)
  | OWake =>
    if loop_alive t then
      let l := (exec owner_tid IWakeIfForeign (lp (sys t))).1 in
      Some (mkEventLoopThread (loop_ t) (exiting_ t) (started_ t) (worker t) OJoin (with_loop l (sys t)) (other_quit t) (other_fault t))
    else Some (with_owner OFault t)
  | OJoin => if worker t is WDone then Some (with_owner OGone t) else None
  | _ => None
  end.

(** Others use the loop, from when it exists; they do not stop when it is gone. *)
Definition other_move (m : Move) (s : System E) : option (System E) :=
  match m with
  | MLoop _ => None
  | MThread i => thread_step i s
  | MCall i c => thread_call i c s
  end.
Definition other_step (m : Move) (t : EventLoopThread E) : option (EventLoopThread E) :=
  s ← other_move m (sys t);
  match worker t with
  | WNotCreated => None
  | WDone => Some (mkEventLoopThread (loop_ t) (exiting_ t) (started_ t) (worker t) (owner t) (sys t) (other_quit t) true)
  | _ => Some (with_sys s t)
  end.

Inductive Event := EWorker (active : list Z) | EStartLoop | ESpurious | EDestruct | EOther (m : Move).

Definition thread_event (e : Event) (t : EventLoopThread E) : option (EventLoopThread E) :=
  match e with
  | EWorker active => threadFunc active t
  | EStartLoop => match startLoop t with Some (Ok t') => Some t' | _ => None end
  | ESpurious => spurious t
  | EDestruct => destructor t
  | EOther m => other_step m t
  end.

Inductive thread_run : EventLoopThread E → Prop :=
  | run_new : thread_run EventLoopThread_new
  | run_event t e t' : thread_run t → thread_event e t = Some t' → thread_run t'.

(** ** The loop and [quit] *)

(** A loop that has stopped was told to; other threads do not read its eventfd. *)
Record sys_inv (s : System E) : Prop := {
  sys_tid : threadId_ (lp s) = worker_tid;
  sys_stopped : pc s = Stopped → quit_ (lp s) = true;
  sys_others i k : others s !! i = Some k → IHandleRead ∉ k
}.

Lemma exec_no_read tid i (l : EventLoop E) : IHandleRead ∉ (exec tid i l).2.
Proof.
  assert (∀ cs : list Call, IHandleRead ∉ ICall <$> cs) as Hcs.
  { intros cs (c & ? & _)%list_elem_of_fmap. done. }
  destruct i as [[f|f|]| | | | |]; cbn; try apply not_elem_of_nil;
    unfold runInLoop, queueInLoop, quit; [case_match; [apply Hcs|]|..];
    rewrite !elem_of_cons, elem_of_nil; by intros [?|[?|[]]].
Qed.

Lemma exec_quit_stays tid i (l : EventLoop E) : quit_ l = true → quit_ (exec tid i l).1 = true.
Proof.
  intros Hq. destruct i; cbn; unfold wakeup, handleRead;
    destruct (eventfd_write (wakeupFd_ l)), (eventfd_read (wakeupFd_ l)); by repeat case_match.
Qed.

(** Every step of the loop thread, seen from outside. *)
Lemma loop_step_sys active s s' :
  loop_step handler active s = Some s' →
  threadId_ (lp s') = threadId_ (lp s) ∧ others s' = others s ∧
  ((∀ k, pc s ≠ NotStarted k) → quit_ (lp s) = true → quit_ (lp s') = true) ∧
  (pc s' = Stopped → quit_ (lp s) = true ∧ quit_ (lp s') = true) ∧
  (pc s' = Polling → quit_ (lp s) = false ∧ quit_ (lp s') = false) ∧
  (∀ k, pc s' = NotStarted k → ∃ k', pc s = NotStarted k') ∧
  (∀ i k, pc s = NotStarted (i :: k) → ∃ k', pc s' = NotStarted k').
Proof.
  assert (∀ i back k, let s2 := in_callback s i back k in
    threadId_ (lp s2) = threadId_ (lp s) ∧ others s2 = others s ∧ (quit_ (lp s) = true → quit_ (lp s2) = true) ∧
    ∃ k', pc s2 = back k') as Hcb.
  { intros i back k s2. subst s2. unfold in_callback.
    pose proof (exec_quit_stays (threadId_ (lp s)) i (lp s)) as Hq.
    assert (threadId_ (exec (threadId_ (lp s)) i (lp s)).1 = threadId_ (lp s)) as Ht.
    { destruct i; cbn; unfold wakeup, handleRead;
        destruct (eventfd_write (wakeupFd_ (lp s))), (eventfd_read (wakeupFd_ (lp s))); by repeat case_match. }
    destruct (exec (threadId_ (lp s)) i (lp s)) as [l next]. cbn in *. split_and!; try done. by eexists. }
  unfold loop_step. destruct (pc s) as [[|i k]| | |rest [|i k]| |rest [|i k]|] eqn:Hpc;
    try (destruct rest as [|a rest]); try (destruct (quit_ (lp s)) eqn:Hq); intros [= <-];
    repeat match goal with |- context [in_callback s ?i ?b ?k] =>
      destruct (Hcb i b k) as (-> & -> & ? & [k' Hk']); rewrite Hk'; clear Hcb end;
    cbn; split_and!; try done; try by eauto; try congruence; naive_solver.
Qed.

Lemma loop_step_inv active s s' : loop_step handler active s = Some s' → sys_inv s → sys_inv s'.
Proof.
  intros Hst [Ht Hs Ho]. destruct (loop_step_sys _ _ _ Hst) as (E1 & E2 & _ & E3 & _).
  split; [congruence|by intros [_ ?]%E3|]. rewrite E2. exact Ho.
Qed.

Context `{!EventFdLaws E}.

(** A step of another thread that uses the loop. *)
Lemma other_move_inv m s s' :
  other_move m s = Some s' →
  sys_inv s → sys_inv s' ∧ pc s' = pc s ∧ (quit_ (lp s) = true → quit_ (lp s') = true) ∧
    (readable (wakeupFd_ (lp s)) = true → readable (wakeupFd_ (lp s')) = true).
Proof.
  intros Hst [Ht Hs Ho]. destruct m as [|i|i c]; cbn in Hst; [done|..].
  - unfold thread_step in Hst. apply guard_Some in Hst as [_ Hst].
    destruct (others s !! i) as [[|x k]|] eqn:Hi; [done| |done].
    pose proof (exec_frame i x (lp s)) as (E1 & _ & _ & _ & E5). pose proof (exec_quit_stays i x (lp s)) as Hq.
    pose proof (exec_no_read i x (lp s)) as Hn. pose proof (Ho _ _ Hi) as Hk. apply not_elem_of_cons in Hk as [Hx Hk].
    destruct (exec i x (lp s)) as [l next]. injection Hst as <-. cbn in *. split_and!; [|done|done|by apply E5].
    split; cbn; [congruence|by intros ?%Hs%Hq|]. intros j q [[<- <-]|[_ ?]]%lookup_insert_Some; [|eauto].
    rewrite elem_of_app. tauto.
  - unfold thread_call in Hst. apply guard_Some in Hst as [_ Hst]. apply guard_Some in Hst as [_ Hst].
    injection Hst as <-. split_and!; try done. split; cbn; [done..|].
    intros j q [[<- <-]|[_ ?]]%lookup_insert_Some; [|eauto]. by rewrite list_elem_of_singleton.
Qed.

Lemma with_loop_inv i s :
  sys_inv s → sys_inv (with_loop (exec owner_tid i (lp s)).1 s).
Proof.
  intros [Ht Hs Ho]. pose proof (exec_frame owner_tid i (lp s)) as (E1 & _).
  split; cbn; [congruence|by intros ?%Hs; apply exec_quit_stays|done].
Qed.

(** ** The invariant *)

(** The destructor has stored to [quit_]. *)
Definition quitting (o : Owner) : bool :=
  match o with OWake | OJoin | OGone | OFault => true | _ => false end.
(** [startLoop] has returned. *)
Definition has_loop (o : Owner) : bool :=
  match o with OReturned | ODestruct | OQuit | OWake | OJoin => true | _ => false end.

Record thread_inv (t : EventLoopThread E) : Prop := {
  ti_sys : sys_inv (sys t);
  ti_loop : loop_ t = match worker t with WPublished | WExited => true | _ => false end;
  ti_started : started_ t = false → worker t = WNotCreated ∧ (owner t = ONew ∨ owner t = ODestruct ∨ owner t = OGone);
  ti_new : owner t = ONew → started_ t = false;
  ti_pc : match worker t with
          | WNotCreated | WCallback => ∃ k, pc (sys t) = NotStarted k
          | WPublished => True
          | _ => pc (sys t) = Stopped
          end;
  ti_wait : owner t = OWait → loop_ t = false;
  ti_returned : started_ t = true → has_loop (owner t) = true → worker t ≠ WNotCreated ∧ worker t ≠ WCallback;
  ti_quit : other_quit t = false → quit_ (lp (sys t)) = true → quitting (owner t) = true;
  ti_wake : other_quit t = false → quit_ (lp (sys t)) = true → pc (sys t) = Polling →
            readable (wakeupFd_ (lp (sys t))) = true ∨ owner t = OWake;
  ti_gone : other_quit t = false → owner t = OGone → started_ t = true → worker t = WDone;
  ti_fault : other_quit t = false → owner t = OFault → worker t = WDone;
  ti_other : other_fault t = true → worker t = WDone
}.

Lemma thread_inv_new : thread_inv EventLoopThread_new.
Proof. split; try done; cbn; by eauto. Qed.

Ltac ti_cases t :=
  let p := fresh "p" in let ex := fresh "ex" in let st := fresh "st" in let w := fresh "w" in
  let o := fresh "o" in let s := fresh "s" in let q := fresh "q" in let f := fresh "f" in
  destruct t as [p ex st w o s q f].

(** The destructor has not stored to [quit_] yet. *)
Ltac not_quit :=
  intros; match goal with
  | Hq : _ = false → quit_ (lp ?s) = true → false = true, H1 : quit_ (lp ?s) = true |- _ =>
    specialize (Hq ltac:(assumption) H1); done
  end.

(** The loop has ended only because the destructor told it to. *)
Lemma ended_quitting t :
  thread_inv t → other_quit t = false → pc (sys t) = Stopped → quitting (owner t) = true.
Proof. intros Ht Hq Hpc. apply (ti_quit t Ht Hq), (sys_stopped _ (ti_sys t Ht) Hpc). Qed.

(** The loop moves, in [callback_] or in [loop]. *)
Lemma with_sys_inv t s' :
  thread_inv t → sys_inv s' →
  (pc s' = pc (sys t) ∧ (quit_ (lp (sys t)) = true → readable (wakeupFd_ (lp (sys t))) = true → readable (wakeupFd_ (lp s')) = true) ∨
   worker t = WPublished ∧ (pc s' = Polling → quit_ (lp s') = false) ∨
   worker t = WCallback ∧ ∃ k, pc s' = NotStarted k) →
  thread_inv (with_sys s' t).
Proof.
  intros [] Hs' Hmove. split; cbn; try done.
  - destruct Hmove as [[-> _]|[[-> _]|[-> Hk]]]; [exact ti_pc0|exact I|exact Hk].
  - intros [Ho Hq]%orb_false_iff Hq'. rewrite Hq' in Hq. cbn in Hq. apply negb_false_iff in Hq. auto.
  - intros [Ho Hq]%orb_false_iff Hq' Hpc. rewrite Hq' in Hq. cbn in Hq. apply negb_false_iff in Hq.
    destruct Hmove as [[Epc Hr]|[[_ Hp]|[_ [k Hk]]]]; [|rewrite (Hp Hpc) in Hq'; done|congruence].
    rewrite Epc in Hpc. destruct (ti_wake0 Ho Hq Hpc); auto.
  - intros [? _]%orb_false_iff. auto.
  - intros [? _]%orb_false_iff. auto.
Qed.

Lemma threadFunc_inv active t t' : thread_inv t → threadFunc active t = Some t' → thread_inv t'.
Proof.
  intros Ht Hst. unfold threadFunc in Hst. destruct (worker t) eqn:Hw.
  - destruct (started_ t) eqn:Hs; [|done]. injection Hst as <-.
    destruct Ht. ti_cases t. cbn in *. subst. split; cbn in *; try done; try by intros ?%ti_other0.
    + intros _ Hl. destruct (ti_returned0 eq_refl Hl). done.
    + intros H1 H2. specialize (ti_gone0 H1 H2 eq_refl). done.
    + intros H1 H2. specialize (ti_fault0 H1 H2). done.
  - pose proof (ti_pc t Ht) as Hpc. rewrite Hw in Hpc. destruct Hpc as [k Hpc]. rewrite Hpc in Hst.
    destruct k as [|i k].
    + injection Hst as <-. destruct Ht. ti_cases t. cbn in *. subst. split; cbn in *; try done; try by intros ?%ti_other0.
      * intros Hs. by destruct (ti_started0 Hs).
      * by destruct o.
      * by destruct o.
      * intros H1 H2. specialize (ti_quit0 H1 H2). by destruct o.
      * intros H1 H2. rewrite Hpc. done.
      * intros H1 H2 H3. destruct o; try done. specialize (ti_gone0 H1 eq_refl H3). done.
      * intros H1 H2. destruct o; try done. specialize (ti_fault0 H1 eq_refl). done.
    + destruct (loop_step handler active (sys t)) as [s'|] eqn:E'; [|done]. injection Hst as <-.
      apply with_sys_inv; [done|eapply loop_step_inv; [done|apply Ht]|]. right; right. split; [done|].
      destruct (loop_step_sys _ _ _ E') as (_ & _ & _ & _ & _ & _ & Hn). by eapply Hn.
  - assert (pc (sys t) = Stopped ∨ pc (sys t) ≠ Stopped) as [Hpc|Hpc] by (destruct (pc (sys t)); auto).
    + rewrite Hpc in Hst. injection Hst as <-. pose proof (ended_quitting t Ht) as Hend.
      destruct Ht. ti_cases t. cbn in *. subst. split; cbn in *; try done; try by intros ?%ti_other0.
      * intros Hs. by destruct (ti_started0 Hs).
      * intros H1 H2 H3. specialize (ti_gone0 H1 H2 H3). done.
      * intros H1 H2. specialize (ti_fault0 H1 H2). done.
    + assert (loop_step handler active (sys t) ≫= (λ s, Some (with_sys s t)) = Some t') as Hst'
        by (by destruct (pc (sys t))).
      destruct (loop_step handler active (sys t)) as [s'|] eqn:E'; [|done]. injection Hst' as <-.
      apply with_sys_inv; [done|eapply loop_step_inv; [done|apply Ht]|]. right; left. split; [done|].
      destruct (loop_step_sys _ _ _ E') as (_ & _ & _ & _ & Hp & _). intros Hpol. by apply Hp.
  - injection Hst as <-. destruct Ht. ti_cases t. cbn in *. subst. split; cbn in *; try done; try by intros ?%ti_other0.
    + intros Hs. by destruct (ti_started0 Hs).
    + intros H1 H2 H3. specialize (ti_gone0 H1 H2 H3). done.
    + intros H1 H2. specialize (ti_fault0 H1 H2). done.
  - injection Hst as <-. destruct Ht. ti_cases t. cbn in *. subst. split; cbn in *; try done; try by intros ?%ti_other0.
    intros Hs. by destruct (ti_started0 Hs).
  - done.
Qed.

Lemma startLoop_inv t t' : thread_inv t → startLoop t = Some (Ok t') → thread_inv t'.
Proof.
  intros Ht Hst. unfold startLoop in Hst. destruct (owner t) eqn:Ho; try done.
  - injection Hst as Hst. apply bind_Ok_inv in Hst as ([] & Hs & [= <-]).
    destruct Ht. ti_cases t. cbn in *. subst. split; cbn in *; try done.
    intros H1 H2. specialize (ti_quit0 H1 H2). done.
  - injection Hst as <-. destruct Ht. ti_cases t. cbn in *. subst.
    assert (q = false → quit_ (lp s) = true → False) as Hnq by (intros H1 H2; specialize (ti_quit0 H1 H2); done).
    destruct w; cbn in *; split; cbn in *; try done; try (intros H1 H2; by destruct (Hnq H1 H2)).
    all: intros Hs; destruct (ti_started0 Hs) as [? [?|[?|?]]]; done.
  - exfalso. destruct Ht. injection Hst as Hst. apply bind_Ok_inv in Hst as ([] & Hs & _).
    apply assertb_Ok_inv, negb_true_iff in Hs. destruct (ti_started0 Hs) as [_ [?|[?|?]]]; congruence.
Qed.

Lemma spurious_wakeup_inv t t' : thread_inv t → spurious t = Some t' → thread_inv t'.
Proof.
  intros [] Hst. unfold spurious in Hst. ti_cases t. cbn in *. destruct o; try done. injection Hst as <-.
  split; cbn in *; try done.
  - intros Hs; destruct (ti_started0 Hs) as [? [?|[?|?]]]; done.
  - not_quit.
Qed.

(** While the destructor is between its test and [join], the thread was published. *)
Lemma destructing_started t : thread_inv t → owner t = OQuit ∨ owner t = OWake ∨ owner t = OJoin →
  started_ t = true ∧ worker t ≠ WNotCreated ∧ worker t ≠ WCallback.
Proof.
  intros [] Ho. assert (started_ t = true) as Hs.
  { destruct (started_ t) eqn:Hs; [done|]. destruct (ti_started0 eq_refl) as [_ Hn]. intuition congruence. }
  split; [done|]. apply ti_returned0; [done|]. by destruct Ho as [->|[->| ->]].
Qed.

Lemma destructor_inv t t' : thread_inv t → destructor t = Some t' → thread_inv t'.
Proof.
  intros Ht Hst. unfold destructor in Hst. destruct (owner t) eqn:Ho; try done.
  - injection Hst as <-. destruct Ht. ti_cases t. cbn in *. subst. rewrite (ti_new0 eq_refl) in *.
    split; cbn in *; try done; try not_quit. intros _. by destruct (ti_started0 eq_refl); auto.
  - injection Hst as <-. destruct Ht. ti_cases t. cbn in *. subst. split; cbn in *; try done; try not_quit.
    intros Hs. destruct (ti_started0 Hs) as [? [?|[?|?]]]; done.
  - injection Hst as <-. pose proof (ended_quitting t Ht) as Hend. rewrite Ho in Hend.
    destruct Ht. ti_cases t. cbn in *. subst.
    assert (q = false → quit_ (lp s) = true → False) as Hnq by (intros H1 H2; specialize (ti_quit0 H1 H2); done).
    destruct w; cbn in *; split; cbn in *; try done; try (intros H1 H2; by destruct (Hnq H1 H2)); try naive_solver.
  - destruct (destructing_started t Ht) as (Hs & Hw1 & Hw2); [auto|]. destruct (loop_alive t) eqn:Ha; injection Hst as <-.
    + pose proof (with_loop_inv ISetQuit (sys t) (ti_sys t Ht)) as Hsys. destruct Ht. ti_cases t. cbn in *. subst.
      split; cbn in *; try done; auto.
    + assert (worker t = WDone) as Hw by (unfold loop_alive in Ha; by destruct (worker t)).
      destruct Ht. ti_cases t. cbn in *. subst. split; cbn in *; try done. congruence.
  - destruct (destructing_started t Ht) as (Hs & Hw1 & Hw2); [auto|]. destruct (loop_alive t) eqn:Ha; injection Hst as <-.
    + pose proof (with_loop_inv IWakeIfForeign (sys t) (ti_sys t Ht)) as Hsys.
      pose proof (exec_wakes owner_tid IWakeIfForeign (lp (sys t))) as Hwake.
      pose proof (sys_tid _ (ti_sys t Ht)) as Htid.
      destruct Ht. ti_cases t. cbn in *. subst. split; cbn in *; try done.
      intros _ _ _. left. apply Hwake; [done|]. left. by rewrite Htid.
    + assert (worker t = WDone) as Hw by (unfold loop_alive in Ha; by destruct (worker t)).
      destruct Ht. ti_cases t. cbn in *. subst. split; cbn in *; try done. congruence.
  - destruct (worker t) eqn:Hw; try done. injection Hst as <-. destruct (destructing_started t Ht) as (Hs & _ & _); [auto|].
    destruct Ht. ti_cases t. cbn in *. subst. split; cbn in *; try done. congruence.
Qed.

Lemma other_step_cases m t t' :
  other_step m t = Some t' →
  (∃ s', other_move m (sys t) = Some s' ∧ worker t ≠ WDone ∧ t' = with_sys s' t) ∨
  worker t = WDone ∧
  t' = mkEventLoopThread (loop_ t) (exiting_ t) (started_ t) (worker t) (owner t) (sys t) (other_quit t) true.
Proof.
  unfold other_step. destruct (other_move m (sys t)) as [s'|]; [|done]. cbn.
  destruct (worker t); intros [= <-]; try (left; by exists s'). by right.
Qed.

Lemma thread_event_inv e t t' : thread_inv t → thread_event e t = Some t' → thread_inv t'.
Proof.
  intros Ht Hst. destruct e as [active| | | |m]; cbn in Hst.
  - by eapply threadFunc_inv.
  - destruct (startLoop t) as [[t1|]|] eqn:E'; [|done|done]. injection Hst as <-. by eapply startLoop_inv.
  - by eapply spurious_wakeup_inv.
  - by eapply destructor_inv.
  - destruct (other_step_cases m t t' Hst) as [(s' & Hm & _ & ->)|[Hw ->]].
    + destruct (other_move_inv m (sys t) s' Hm (ti_sys t Ht)) as (Hs' & Hpc & _ & Hr).
      apply with_sys_inv; [done|done|]. left. auto.
    + destruct Ht. split; cbn; try done.
Qed.

Lemma thread_run_inv t : thread_run t → thread_inv t.
Proof. induction 1; [apply thread_inv_new|by eapply thread_event_inv]. Qed.

(** ** Safety *)

(** C18. Loop threads.  In every interleaving of the owner, the thread and other
    users of the loop, who use it also after it is gone: [loop_] points to the
    thread's [EventLoop] only while that exists, from the end of [callback_] to the
    end of [loop].  As long as only the destructor calls [quit]: [startLoop] never
    waits for a notification that has been sent, and when it has returned, the loop
    it returned lives, with its initial callback done, until the destructor stores
    to [quit_]; when the destructor has returned, the thread has ended; and no one
    uses a loop that is gone before the destructor has stored to [quit_].  After
    that store the loop can go under a thread that is still using it: under the
    destructor, only between its store and its wakeup ([quit_after_end_dangles]),
    and under any other user at any place, such as between the push and the wakeup
    of [queueInLoop] ([other_user_dangles]). *)
Theorem loop_thread_safe t :
  thread_run t →
  (loop_ t = true ↔ worker t = WPublished ∨ worker t = WExited) ∧
  (worker t = WNotCreated ∨ worker t = WCallback → ∃ k, pc (sys t) = NotStarted k) ∧
  (other_quit t = false →
     (owner t = OWait → worker t = WNotCreated ∨ worker t = WCallback) ∧
     (owner t = OReturned ∨ owner t = OQuit → worker t = WPublished ∧ pc (sys t) ≠ Stopped) ∧
     (owner t = OGone → started_ t = true → worker t = WDone) ∧
     (owner t = OFault → worker t = WDone ∧ quit_ (lp (sys t)) = true) ∧
     (other_fault t = true → worker t = WDone ∧ quit_ (lp (sys t)) = true ∧ quitting (owner t) = true) ∧
     (owner t = OJoin → quit_ (lp (sys t)) = true → pc (sys t) = Polling → readable (wakeupFd_ (lp (sys t))) = true)).
Proof.
  intros Ht%thread_run_inv. pose proof (ended_quitting t Ht) as Hend.
  pose proof (sys_stopped _ (ti_sys t Ht)) as Hstop. destruct Ht.
  split; [rewrite ti_loop0; destruct (worker t); naive_solver|].
  split; [intros [Hw|Hw]; by rewrite Hw in ti_pc0|]. intros Hq. split_and!.
  - intros Ho. rewrite ti_loop0 in ti_wait0. specialize (ti_wait0 Ho). rewrite Ho in Hend.
    destruct (worker t); auto; try done; by specialize (Hend Hq ti_pc0).
  - intros Ho. assert (pc (sys t) ≠ Stopped) as Hpc.
    { intros Hpc. specialize (Hend Hq Hpc). by destruct Ho as [Ho|Ho]; rewrite Ho in Hend. }
    split; [|done]. assert (started_ t = true) as Hs.
    { destruct (started_ t) eqn:Hs; [done|]. destruct (ti_started0 eq_refl) as [_ Hn]. intuition congruence. }
    destruct (ti_returned0 Hs) as [? ?]; [by destruct Ho as [-> | ->]|]. by destruct (worker t).
  - auto.
  - intros Ho. specialize (ti_fault0 Hq Ho). split; [done|]. rewrite ti_fault0 in ti_pc0. auto.
  - intros Ho. specialize (ti_other0 Ho). split; [done|]. rewrite ti_other0 in ti_pc0. auto.
  - intros Ho Hqt Hpc. destruct (ti_wake0 Hq Hqt Hpc); [done|congruence].
Qed.

(** ** Progress *)

Fixpoint thread_events (es : list Event) (t : EventLoopThread E) : option (EventLoopThread E) :=
  match es with
  | [] => Some t
  | e :: es => t' ← thread_event e t; thread_events es t'
  end.

Lemma thread_events_app es es' t t' :
  thread_events es t = Some t' → thread_events (es ++ es') t = thread_events es' t'.
Proof.
  revert t. induction es as [|e es IH]; intros t Hr; cbn in *; [by injection Hr as ->|].
  destruct (thread_event e t); [|done]. cbn in *. auto.
Qed.

(** The thread alone. *)
Lemma worker_runs n active : ∀ t s',
  loop_run handler n active (sys t) = Some s' →
  worker t = WPublished ∨ worker t = WCallback ∧ (∃ k, pc s' = NotStarted k) →
  ∃ t', thread_events (replicate n (EWorker active)) t = Some t' ∧ sys t' = s' ∧ worker t' = worker t ∧
    owner t' = owner t ∧ loop_ t' = loop_ t ∧ started_ t' = started_ t.
Proof.
  induction n as [|n IH]; intros t s' Hr Hw; cbn in Hr; [injection Hr as <-; by exists t|].
  destruct (loop_step handler active (sys t)) as [s1|] eqn:E1; [|done]. cbn in Hr.
  assert (threadFunc active t = Some (with_sys s1 t)) as Hf.
  { unfold threadFunc. destruct Hw as [Hw|[Hw [k Hk]]]; rewrite Hw.
    - assert (pc (sys t) ≠ Stopped) as Hns by (intros Hpc; unfold loop_step in E1; by rewrite Hpc in E1).
      destruct (pc (sys t)); try done; by rewrite E1.
    - assert (∃ i k', pc (sys t) = NotStarted (i :: k')) as (i & k' & ->); [|by rewrite E1].
      assert (∃ k1, pc s1 = NotStarted k1) as [k1 Hk1].
      { clear -Hr Hk EventFdLaws0. revert s1 Hr. induction n as [|n IH]; intros s1 Hr; cbn in Hr; [injection Hr as <-; eauto|].
        destruct (loop_step handler active s1) as [s2|] eqn:E2; [|done]. cbn in Hr. destruct (IH s2 Hr) as [k2 Hk2].
        destruct (loop_step_sys _ _ _ E2) as (_ & _ & _ & _ & _ & Hn & _). by eapply Hn. }
      destruct (loop_step_sys _ _ _ E1) as (_ & _ & _ & _ & _ & Hn & _). destruct (Hn _ Hk1) as [k0 Hk0].
      destruct k0 as [|i k0]; [|by exists i, k0]. unfold loop_step in E1. rewrite Hk0 in E1. by simplify_eq/=. }
  destruct (IH (with_sys s1 t) s' Hr) as (t' & Ht' & ?); [done|]. exists t'. cbn. by rewrite Hf.
Qed.

(** From anywhere in [loop], the thread comes back to the test. *)
Lemma to_test active s : sys_inv s → (∀ k, pc s ≠ NotStarted k) → pc s ≠ Stopped →
  ∃ n s', loop_run handler n active s = Some s' ∧ pc s' = Test.
Proof.
  intros _ Hn Hs.
  assert (∀ s, pc s = BeforeSwap → ∃ n s', loop_run handler n active s = Some s' ∧ pc s' = Test) as Hswap.
  { intros s1 H1. set (s2 := mkSystem (set_pending (lp s1) []) (Running (pendingFunctors_ (lp s1)) []) (others s1) (sent s1) (EventLoop.ran s1)).
    destruct (running_ends handler active (pendingFunctors_ (lp s1)) s2 eq_refl) as (s3 & _ & ((n & Hr) & _) & Hpc & _).
    exists (1 + n)%nat, s3. split; [|done]. cbn. unfold loop_step. by rewrite H1. }
  assert (∀ rest s, pc s = Handling rest [] → ∃ n s', loop_run handler n active s = Some s' ∧ pc s' = Test) as Hhand.
  { intros rest s1 H1. destruct (handling_ends handler active rest s1 H1) as (s2 & _ & ((n & Hr) & _) & Hpc & _).
    destruct (Hswap s2 Hpc) as (m & s3 & Hr' & Hpc'). exists (n + m)%nat, s3. split; [|done].
    by rewrite (loop_run_app _ _ _ _ _ _ Hr). }
  destruct (pc s) as [k| | |rest k| |rest k|] eqn:Hpc; [by destruct (Hn k)|by exists 0%nat, s| | | | |done].
  - destruct (Hhand active (mkSystem (set_active (lp s) true (iteration_ (lp s) + 1) active (currentActiveChannel_ (lp s)))
      (Handling active []) (others s) (sent s) (EventLoop.ran s)) eq_refl) as (n & s' & Hr & Hpc').
    exists (1 + n)%nat, s'. split; [|done]. cbn. unfold loop_step. by rewrite Hpc.
  - destruct (callback_ends handler active (Handling rest) k s) as (s2 & _ & ((n & Hr) & _) & Hpc2 & _); [|done|].
    { intros s' i k' E'. unfold loop_step. by rewrite E'. }
    destruct (Hhand rest s2 Hpc2) as (m & s3 & Hr' & Hpc'). exists (n + m)%nat, s3. split; [|done].
    by rewrite (loop_run_app _ _ _ _ _ _ Hr).
  - by apply Hswap.
  - destruct (callback_ends handler active (Running rest) k s) as (s2 & _ & ((n & Hr) & _) & Hpc2 & _); [|done|].
    { intros s' i k' E'. unfold loop_step. by rewrite E'. }
    destruct (running_ends handler active rest s2 Hpc2) as (s3 & _ & ((m & Hr') & _) & Hpc' & _).
    exists (n + m)%nat, s3. split; [|done]. by rewrite (loop_run_app _ _ _ _ _ _ Hr).
Qed.

Lemma loop_run_quit n active : ∀ s s',
  loop_run handler n active s = Some s' → (∀ k, pc s ≠ NotStarted k) → quit_ (lp s) = true → quit_ (lp s') = true.
Proof.
  induction n as [|n IH]; intros s s' Hr Hn Hq; cbn in Hr; [by injection Hr as <-|].
  destruct (loop_step handler active s) as [s1|] eqn:E1; [|done]. cbn in Hr.
  destruct (loop_step_sys _ _ _ E1) as (_ & _ & Hq1 & _ & _ & Hn1 & _).
  apply (IH s1); [done| |auto]. intros k Hk. destruct (Hn1 k Hk) as [k' Hk']. by destruct (Hn k').
Qed.

Definition is_worker (e : Event) : bool := if e is EWorker _ then true else false.

(** [threadFunc] ends when [quit_] is set while it is in [loop]. *)
Lemma worker_ends active t :
  thread_inv t → (∀ k, pc (sys t) ≠ NotStarted k) → worker t = WPublished → quit_ (lp (sys t)) = true →
  ∃ n t', thread_events (replicate n (EWorker active)) t = Some t' ∧ worker t' = WDone ∧ owner t' = owner t.
Proof.
  intros Ht Hn Hw Hq.
  assert (∃ n t', thread_events (replicate n (EWorker active)) t = Some t' ∧ worker t' = WPublished ∧
    pc (sys t') = Stopped ∧ owner t' = owner t) as (n & t1 & H1 & Hw1 & Hpc1 & Ho1).
  { assert (pc (sys t) = Stopped ∨ pc (sys t) ≠ Stopped) as [Hs|Hs] by (destruct (pc (sys t)); auto).
    { by exists 0%nat, t. }
    destruct (to_test active (sys t) (ti_sys t Ht) Hn Hs) as (n & s' & Hr & Hpc).
    pose proof (loop_run_quit _ _ _ _ Hr Hn Hq) as Hq'.
    destruct (worker_runs (n + 1) active t (mkSystem (set_looping (lp s') false) Stopped (others s') (sent s') (EventLoop.ran s')))
      as (t' & He & Hsys & Hw' & Ho' & _); [|by left|].
    { rewrite (loop_run_app _ _ _ _ _ _ Hr). cbn. unfold loop_step. by rewrite Hpc, Hq'. }
    exists (n + 1)%nat, t'. split_and!; [done|congruence|by rewrite Hsys|done]. }
  assert (threadFunc active t1 = Some (with_worker (loop_ t1) WExited (owner t1) t1)) as H2
    by (unfold threadFunc; by rewrite Hw1, Hpc1).
  exists (n + 3)%nat. eexists. rewrite replicate_add, (thread_events_app _ _ _ _ H1). cbn. rewrite H2.
  split; [done|]. split; [done|]. exact Ho1.
Qed.

(** [quit_] stays set once [loop] has begun. *)
Lemma quit_stays e t t' :
  thread_inv t → thread_event e t = Some t' → (∀ k, pc (sys t) ≠ NotStarted k) → quit_ (lp (sys t)) = true →
  (∀ k, pc (sys t') ≠ NotStarted k) ∧ quit_ (lp (sys t')) = true.
Proof.
  intros Ht Hst Hn Hq.
  assert (∀ active s', loop_step handler active (sys t) = Some s' →
    (∀ k, pc s' ≠ NotStarted k) ∧ quit_ (lp s') = true) as Hstep.
  { intros active s' E1. destruct (loop_step_sys _ _ _ E1) as (_ & _ & Hq1 & _ & _ & Hn1 & _).
    split; [|auto]. intros k Hk. destruct (Hn1 k Hk) as [k' Hk']. by destruct (Hn k'). }
  destruct e as [active| | | |m]; cbn in Hst.
  - unfold threadFunc in Hst.
    assert (sys t' = sys t ∨ loop_step handler active (sys t) = Some (sys t')) as [->|E1]; [|done|by apply (Hstep active)].
    destruct (worker t); [destruct (started_ t)|..]; try done; try (injection Hst as <-; by left).
    all: destruct (pc (sys t)) as [[|i k]| | | | | |]; try (injection Hst as <-; by left).
    all: destruct (loop_step handler active (sys t)); [|done]; injection Hst as <-; by right.
  - unfold startLoop in Hst. destruct (owner t); try done; [|injection Hst as <-; done|];
      destruct (started_ t); cbn in Hst; try done; injection Hst as <-; done.
  - unfold spurious in Hst. destruct (owner t); try done. injection Hst as <-. done.
  - unfold destructor in Hst. destruct (owner t); try done;
      try destruct (loop_alive t); try destruct (worker t); try done; injection Hst as <-; try done.
    all: cbn; split; [done|]; by apply (exec_quit_stays owner_tid IWakeIfForeign).
  - destruct (other_step_cases m t t' Hst) as [(s' & Hm & _ & ->)|[_ ->]]; [|done].
    destruct (other_move_inv m (sys t) s' Hm (ti_sys t Ht)) as (_ & Hpc & Hq' & _). cbn. rewrite Hpc. auto.
Qed.

Lemma fault_stays e t t' : thread_event e t = Some t' → owner t = OFault → owner t' = OFault.
Proof.
  intros Hst Hf. destruct e as [active| | | |m]; cbn in Hst.
  - unfold threadFunc in Hst. destruct (worker t); [destruct (started_ t)|..]; try done; try (injection Hst as <-; exact Hf).
    all: destruct (pc (sys t)) as [[|i k]| | | | | |]; try (injection Hst as <-; cbn; by rewrite Hf).
    all: destruct (loop_step handler active (sys t)); [|done]; injection Hst as <-; exact Hf.
  - unfold startLoop in Hst. by rewrite Hf in Hst.
  - unfold spurious in Hst. by rewrite Hf in Hst.
  - unfold destructor in Hst. by rewrite Hf in Hst.
  - by destruct (other_step_cases m t t' Hst) as [(s' & _ & _ & ->)|[_ ->]].
Qed.

(** After a [quit] that was not lost. *)
Definition told (t : EventLoopThread E) : Prop :=
  thread_inv t ∧ (owner t = OFault ∨ (∀ k, pc (sys t) ≠ NotStarted k) ∧ quit_ (lp (sys t)) = true).

Lemma told_events es : ∀ t t', told t → thread_events es t = Some t' → told t'.
Proof.
  induction es as [|e es IH]; intros t t' [Ht Hq] He; cbn in He; [by injection He as <-|].
  destruct (thread_event e t) as [t1|] eqn:E1; [|done]. cbn in He. apply (IH t1); [|done].
  split; [by eapply thread_event_inv|].
  destruct Hq as [Hf|[Hn Hq]]; [left; by eapply fault_stays|right; by eapply quit_stays].
Qed.

(** The callback ends, and its thread publishes the loop. *)
Lemma callback_publishes t :
  worker t = WCallback → (∃ k, pc (sys t) = NotStarted k) → owner t = OEnter ∨ owner t = OWait →
  ∃ n t1, thread_events (replicate n (EWorker [])) t = Some t1 ∧ loop_ t1 = true ∧ owner t1 = OEnter.
Proof.
  intros Hw0 [k Hk] Ho0.
  destruct (callback_ends handler [] NotStarted k (sys t)) as (s' & _ & ((n & Hr) & _) & Hpc & _); [|done|].
  { intros s1 i k' E'. unfold loop_step. by rewrite E'. }
  destruct (worker_runs n [] t s' Hr) as (t1 & He & Hsys & Hw1 & Ho1 & _); [right; split; [done|by eexists]|].
  exists (n + 1)%nat. eexists. rewrite replicate_add, (thread_events_app _ _ _ _ He). cbn.
  unfold threadFunc. rewrite Hw1, Hw0, Hsys, Hpc. split; [done|]. split; [done|]. cbn. rewrite Ho1.
  by destruct Ho0 as [-> | ->].
Qed.

Lemma workers_allowed n : Forall (λ e, is_worker e = true ∨ e = EStartLoop) (replicate n (EWorker [])).
Proof. apply Forall_replicate. by left. Qed.

(** The thread publishes its loop to an owner in [startLoop]. *)
Lemma startLoop_woken t :
  thread_inv t → other_quit t = false → owner t = OEnter ∨ owner t = OWait →
  ∃ es t1, thread_events es t = Some t1 ∧ loop_ t1 = true ∧ owner t1 = OEnter ∧
    Forall (λ e, is_worker e = true ∨ e = EStartLoop) es.
Proof.
  intros Ht Hq Ho. pose proof (ti_pc t Ht) as Hpc. pose proof (ended_quitting t Ht Hq) as Hend.
  assert (started_ t = true) as Hs.
  { destruct (started_ t) eqn:Hs; [done|]. destruct (ti_started t Ht Hs) as [_ Hn]. intuition congruence. }
  destruct (worker t) eqn:Hw;
    try (specialize (Hend Hpc); by destruct Ho as [Ho|Ho]; rewrite Ho in Hend).
  - destruct (callback_publishes (with_worker (loop_ t) WCallback (owner t) t)) as (n & t1 & H1 & Hl & Ho1); [done..|].
    exists (EWorker [] :: replicate n (EWorker [])), t1. cbn. unfold threadFunc. rewrite Hw, Hs. cbn.
    split_and!; try done. constructor; [by left|apply workers_allowed].
  - destruct (callback_publishes t Hw) as (n & t1 & H1 & Hl & Ho1); [done..|].
    exists (replicate n (EWorker [])), t1. split_and!; try done. apply workers_allowed.
  - destruct Ho as [Ho|Ho]; [exists [], t; split_and!; try done; by rewrite (ti_loop t Ht), Hw|].
    pose proof (ti_wait t Ht Ho) as Hl. by rewrite (ti_loop t Ht), Hw in Hl.
Qed.

(** The thread that was told to quit ends. *)
Lemma told_ends t :
  told t → owner t = OJoin →
  ∃ n t', thread_events (replicate n (EWorker [])) t = Some t' ∧ worker t' = WDone ∧ owner t' = OJoin.
Proof.
  intros [Ht [?|[Hn Hq]]] Ho; [congruence|]. pose proof (ti_pc t Ht) as Hpc. destruct (worker t) eqn:Hw.
  - destruct Hpc as [k Hk]. by destruct (Hn k).
  - destruct Hpc as [k Hk]. by destruct (Hn k).
  - destruct (worker_ends [] t) as (n & t' & ? & ? & Ho'); try done. exists n, t'. by rewrite Ho'.
  - exists 2%nat, (with_worker false WDone (owner t) t). split_and!; [|done|done].
    assert (threadFunc [] t = Some (with_worker false WCleared (owner t) t)) as E2 by (unfold threadFunc; by rewrite Hw).
    cbn. by rewrite E2.
  - exists 1%nat, (with_worker (loop_ t) WDone (owner t) t). split_and!; [|done|done].
    cbn. unfold threadFunc. by rewrite Hw.
  - by exists 0%nat, t.
Qed.

(** Loop threads start and stop.  From any state in which [startLoop] is under
    way, if only the destructor calls [quit], the thread and the owner by
    themselves get to the return of [startLoop], whatever [callback_] does.  And
    when the destructor calls [quit] after the thread has entered [loop], then
    however others interfere, the thread by itself comes to its end and the
    destructor returns from [join], whatever the handlers do. *)
Theorem loop_thread_progress t :
  thread_run t → other_quit t = false →
  (owner t = OEnter ∨ owner t = OWait →
   ∃ es t', thread_events es t = Some t' ∧ owner t' = OReturned ∧
     Forall (λ e, is_worker e = true ∨ e = EStartLoop) es) ∧
  (owner t = OQuit → (∀ k, pc (sys t) ≠ NotStarted k) →
   ∀ es t2, thread_events (EDestruct :: es) t = Some t2 → owner t2 = OJoin →
   ∃ n t', thread_events (replicate n (EWorker []) ++ [EDestruct]) t2 = Some t' ∧ owner t' = OGone).
Proof.
  intros Ht%thread_run_inv Hq. split.
  - intros Ho. destruct (startLoop_woken t Ht Hq Ho) as (es & t1 & H1 & Hl & Ho1 & Hes).
    exists (es ++ [EStartLoop]). eexists. rewrite (thread_events_app _ _ _ _ H1). cbn. unfold startLoop. rewrite Ho1, Hl.
    cbn. split_and!; [done..|]. apply Forall_app. split; [done|]. constructor; [by right|done].
  - intros Ho Hn es t2 He Ho2. cbn in He. destruct (destructor t) as [t1|] eqn:E1; [|done]. cbn in He.
    assert (told t1) as Ht1.
    { split; [by eapply destructor_inv|]. unfold destructor in E1. rewrite Ho in E1.
      destruct (loop_alive t); injection E1 as <-; [right|by left]. split; [done|]. done. }
    destruct (told_ends t2 (told_events _ _ _ Ht1 He) Ho2) as (n & t3 & H3 & Hw3 & Ho3).
    exists n. eexists. rewrite (thread_events_app _ _ _ _ H3). cbn. unfold destructor. rewrite Ho3, Hw3. done.
Qed.
End Machine.

(** ** Runs *)

Lemma thread_events_run {E} `{EventFd E} handler callback_ es : ∀ t t' : EventLoopThread E,
  thread_run handler callback_ t → thread_events handler es t = Some t' → thread_run handler callback_ t'.
Proof.
  induction es as [|e es IH]; intros t t' Hr He; cbn in He; [by injection He as <-|].
  destruct (thread_event handler e t) as [t1|] eqn:E1; [|done]. apply (IH t1); [by eapply run_event|done].
Qed.

(** [startLoop], with a thread that publishes before or after the owner waits. *)
Definition start_events : list Event :=
  [EStartLoop; EWorker []; EStartLoop; EWorker []; EStartLoop].
Definition no_callback : EventLoopThread N := EventLoopThread_new [].

Lemma loop_thread_safe_witness :
  ∃ t : EventLoopThread N, thread_events no_handler start_events no_callback = Some t ∧
    owner t = OReturned ∧ worker t = WPublished ∧ pc (sys t) ≠ Stopped.
Proof.
  eexists. split; [vm_compute; reflexivity|]. split; [reflexivity|].
  match goal with |- worker ?t0 = _ ∧ _ =>
    destruct (loop_thread_safe no_handler [] t0) as (_ & _ & Hs);
      [apply (thread_events_run no_handler [] start_events no_callback t0); [apply run_new|vm_compute; reflexivity]|]
  end.
  destruct (Hs eq_refl) as (_ & Hret & _). apply Hret. by left.
Defined.

(** A destructor that quits a loop that has begun, with the thread in [poll]. *)
Definition stop_events : list Event :=
  start_events ++ [EWorker []; EWorker []; EDestruct; EDestruct].

Lemma loop_thread_progress_witness :
  ∃ t t2 : EventLoopThread N,
    thread_events no_handler stop_events no_callback = Some t ∧
    thread_events no_handler [EDestruct; EDestruct] t = Some t2 ∧
    ∃ n t', thread_events no_handler (replicate n (EWorker []) ++ [EDestruct]) t2 = Some t' ∧ owner t' = OGone.
Proof.
  eexists _, _. split; [vm_compute; reflexivity|]. split; [vm_compute; reflexivity|].
  match goal with |- ∃ n t', thread_events _ _ ?t2 = _ ∧ _ =>
    assert (∃ t, thread_events no_handler stop_events no_callback = Some t ∧
      thread_events no_handler [EDestruct; EDestruct] t = Some t2 ∧
      other_quit t = false ∧ owner t = OQuit ∧ pc (sys t) = Polling ∧ owner t2 = OJoin) as (t & H1 & H2 & H3 & H4 & H5 & H6)
  end.
  { eexists. split; [vm_compute; reflexivity|]. repeat split; vm_compute; reflexivity. }
  destruct (loop_thread_progress no_handler [] t) as [_ Hp]; [|exact H3|].
  { apply (thread_events_run no_handler [] stop_events no_callback t); [apply run_new|exact H1]. }
  apply (Hp H4) with (es := [EDestruct]); [|exact H2|exact H6]. intros k Hk. rewrite H5 in Hk. discriminate.
Defined.

(** ** What can go wrong *)

(** The destructor right after [startLoop]: [quit] comes before [loop], which
    clears [quit_]. *)
Definition early_quit : list Event :=
  start_events ++ [EDestruct; EDestruct; EDestruct; EDestruct].

Definition deaf (t : EventLoopThread N) : Prop :=
  worker t = WPublished ∧ owner t = OJoin ∧ pendingFunctors_ (lp (sys t)) = [] ∧
  match pc (sys t) with
  | NotStarted [] => True
  | Test | Polling | BeforeSwap | Running [] [] => quit_ (lp (sys t)) = false
  | Handling _ k => quit_ (lp (sys t)) = false ∧ (k = [] ∨ k = [IHandleRead])
  | _ => False
  end.

Lemma deaf_step active t t' : deaf t → threadFunc no_handler active t = Some t' → deaf t'.
Proof.
  intros (Hw & Ho & Hp & Hpc) Hst. unfold threadFunc in Hst. rewrite Hw in Hst.
  assert (∃ s', loop_step no_handler active (sys t) = Some s' ∧ t' = with_sys s' t) as (s' & Hs & ->).
  { destruct (pc (sys t)); try done; destruct (loop_step no_handler active (sys t)) as [s'|]; try done;
      injection Hst as <-; by exists s'. }
  clear Hst. unfold loop_step in Hs.
  destruct (pc (sys t)) as [[|i k]| | |rest k| |rest k|]; try done.
  - injection Hs as <-. done.
  - rewrite Hpc in Hs. injection Hs as <-. done.
  - injection Hs as <-. repeat split; try done. by left.
  - destruct Hpc as [Hq [->| ->]].
    + destruct rest as [|a rest]; injection Hs as <-; repeat split; try done. cbn. unfold channel_code.
      destruct (a =? wakeupChannel_); [by right|by left].
    + injection Hs as <-. unfold in_callback. cbn. unfold handleRead.
      destruct (eventfd_read (wakeupFd_ (lp (sys t)))). repeat split; try done. by left.
  - injection Hs as <-. rewrite Hp. done.
  - destruct rest, k; try done. injection Hs as <-. done.
Qed.

(** The join never returns, whatever [poll] reports, unless someone else quits
    the loop. *)
Theorem early_quit_lost :
  ∃ t : EventLoopThread N, thread_events no_handler early_quit no_callback = Some t ∧ owner t = OJoin ∧
    ∀ es t', Forall (λ e, if e is EOther _ then False else True) es → thread_events no_handler es t = Some t' →
      owner t' = OJoin ∧ worker t' = WPublished.
Proof.
  eexists. split; [vm_compute; reflexivity|]. split; [done|]. intros es t' Hes He.
  match type of He with thread_events _ _ ?t0 = _ => assert (deaf t0) as Hd by done; revert Hd He; generalize t0 end.
  induction Hes as [|e es Hn _ IH]; intros t Hd He; cbn in He; [injection He as <-; by destruct Hd as (? & ? & _)|].
  destruct (thread_event no_handler e t) as [t1|] eqn:E1; [|done]. cbn in He. apply (IH t1); [|done].
  pose proof Hd as (Hw & Ho & _).
  destruct e as [active| | | |m]; cbn in E1; [by eapply deaf_step| | | |done].
  - unfold startLoop in E1. by rewrite Ho in E1.
  - unfold spurious in E1. by rewrite Ho in E1.
  - unfold destructor in E1. by rewrite Ho, Hw in E1.
Qed.

(** After the store to [quit_], the loop can end and be destructed before the
    destructor's [wakeup]. *)
Lemma quit_after_end_dangles :
  option_map owner (thread_events no_handler
    (start_events ++ [EWorker []; EDestruct; EDestruct; EDestruct;
                      EWorker []; EWorker []; EWorker []; EWorker []; EDestruct]) no_callback) = Some OFault.
Proof. vm_compute. reflexivity. Qed.

(** Another thread has pushed its functor in [queueInLoop] and not yet woken the loop up, which ends, told by the
    destructor, and is destructed meanwhile. *)
Lemma other_user_dangles :
  option_map (λ t, (worker t, other_fault t)) (thread_events no_handler
    (start_events ++ [EWorker []; EOther (MCall 2 (QueueInLoop (Fn 1 []))); EOther (MThread 2); EOther (MThread 2);
                      EDestruct; EDestruct; EDestruct;
                      EWorker []; EWorker []; EWorker []; EWorker []; EOther (MThread 2)]) no_callback) = Some (WDone, true).
Proof. vm_compute. reflexivity. Qed.

(** A callback whose functor quits the loop: [loop_] is cleared before the owner
    looks, and [startLoop] waits for ever. *)
Definition quick_end : list Event := [EStartLoop; EWorker []; EStartLoop] ++ replicate 20 (EWorker [0]) ++ [EStartLoop].

Lemma quick_end_hangs :
  option_map (λ t : EventLoopThread N, (owner t, worker t, loop_ t))
    (thread_events no_handler quick_end (EventLoopThread_new [QueueInLoop (Fn 1 [Quit])])) =
  Some (OWait, WDone, false).
Proof. vm_compute. reflexivity. Qed.
