(* ===== verification/EventLoopThreadPool.v ===== *)
(** * Pools of event loops (muduo/net/EventLoopThreadPool.h, EventLoopThreadPool.cc)

    A loop is its identity; [startLoop] gives the loop of the [i]-th thread.
    Every member function is called in the thread of [baseLoop_], or aborts. *)
From stdpp Require Import base numbers list.
From S2P Require Import Prelude.
Open Scope Z_scope.
Open Scope muduo_scope.

Record EventLoopThreadPool := mkPool {
  baseLoop_ : nat;
  started_ : bool;
  numThreads_ : Z;
  next_ : Z;
  loops_ : list nat
}.

Definition EventLoopThreadPool_new (baseLoop : nat) : EventLoopThreadPool :=
  mkPool baseLoop false 0 0 [].
Definition setThreadNum (numThreads : Z) (p : EventLoopThreadPool) : EventLoopThreadPool :=
  mkPool (baseLoop_ p) (started_ p) numThreads (next_ p) (loops_ p).

(** [LOG_FATAL] of [EventLoop::abortNotInLoopThread]. *)
Definition assertInLoopThread (inLoopThread : bool) : outcome unit :=
  if inLoopThread then Ok tt else Fault (Fatal 229).

Definition start (inLoopThread : bool) (startLoop : Z → nat) (p : EventLoopThreadPool) :
    outcome EventLoopThreadPool :=
  _ ← assertb 35 (negb (started_ p));
  _ ← assertInLoopThread inLoopThread;
  let new := (λ i, startLoop (Z.of_nat i)) <$> seq 0 (Z.to_nat (numThreads_ p)) in
  mret (mkPool (baseLoop_ p) true (numThreads_ p) (next_ p) (loops_ p ++ new)).

(** [loops_[i]]; outside the vector, undefined behaviour. *)
Definition loop_at (p : EventLoopThreadPool) (i : Z) : outcome nat :=
  match (if 0 <=? i then loops_ p !! Z.to_nat i else None) with
  | Some l => Ok l
  | None => Fault Undefined
  end.

Definition getNextLoop (inLoopThread : bool) (p : EventLoopThreadPool) : outcome (nat * EventLoopThreadPool) :=
  _ ← assertInLoopThread inLoopThread;
  _ ← assertb 57 (started_ p);
  match loops_ p with
  | [] => mret (baseLoop_ p, p)
  | _ =>
    loop ← loop_at p (next_ p);
    let next := next_ p + 1 in
    let next := if size_of (loops_ p) <=? u64 next then 0 else next in
    mret (loop, mkPool (baseLoop_ p) (started_ p) (numThreads_ p) next (loops_ p))
  end.

Definition getLoopForHash (inLoopThread : bool) (hashCode : Z) (p : EventLoopThreadPool) : outcome nat :=
  _ ← assertInLoopThread inLoopThread;
  match loops_ p with
  | [] => mret (baseLoop_ p)
  | _ => loop_at p (u64 hashCode mod size_of (loops_ p))
  end.

Definition getAllLoops (inLoopThread : bool) (p : EventLoopThreadPool) : outcome (list nat) :=
  _ ← assertInLoopThread inLoopThread;
  _ ← assertb 88 (started_ p);
  mret (match loops_ p with [] => [baseLoop_ p] | ls => ls end).

(** [k] calls of [getNextLoop] in a row. *)
Fixpoint next_loops (k : nat) (p : EventLoopThreadPool) : outcome (list nat * EventLoopThreadPool) :=
  match k with
  | O => mret ([], p)
  | S k =>
    '(l, p) ← getNextLoop true p;
    '(ls, p) ← next_loops k p;
    mret (l :: ls, p)
  end.

(** ** The pool once it is started *)

Record pool_ok (p : EventLoopThreadPool) : Prop := {
  ok_started : started_ p = true;
  ok_size : size_of (loops_ p) < 2 ^ 31;
  ok_next : loops_ p = [] ∧ next_ p = 0 ∨ 0 ≤ next_ p < size_of (loops_ p)
}.

(** The loops of a pool, the base loop if it has no threads. *)
Definition all_loops (p : EventLoopThreadPool) : list nat :=
  match loops_ p with [] => [baseLoop_ p] | ls => ls end.

Lemma start_spec startLoop base n p :
  0 ≤ n < 2 ^ 31 → p = setThreadNum n (EventLoopThreadPool_new base) →
  start true startLoop p ⇓ λ p',
    pool_ok p' ∧ next_ p' = 0 ∧ baseLoop_ p' = base ∧
    loops_ p' = (λ i, startLoop (Z.of_nat i)) <$> seq 0 (Z.to_nat n).
Proof.
  intros Hn ->. unfold start. apply yields_bind, yields_assert; [done|]. apply yields_bind. cbn. split_and!; try done.
  assert (length ((λ i, startLoop (Z.of_nat i)) <$> seq 0 (Z.to_nat n)) = Z.to_nat n) as Hl.
  { by rewrite length_fmap, length_seq. }
  split; cbn; [done|unfold size_of; lia|].
  destruct (Z.to_nat n) eqn:E; [by left|]. right. unfold size_of. rewrite Hl. lia.
Qed.

(** The same loops, and the next one. *)
Definition same_loops (p p' : EventLoopThreadPool) : Prop :=
  loops_ p' = loops_ p ∧ baseLoop_ p' = baseLoop_ p.

Lemma getNextLoop_spec p :
  pool_ok p →
  getNextLoop true p ⇓ λ '(l, p'),
    pool_ok p' ∧ same_loops p p' ∧ all_loops p !! Z.to_nat (next_ p) = Some l ∧
    next_ p' = (next_ p + 1) mod size_of (all_loops p).
Proof.
  intros [Hst Hsz Hnext]. unfold getNextLoop, all_loops, same_loops. rewrite Hst. apply yields_bind. cbn.
  destruct (loops_ p) as [|l0 ls] eqn:Hl.
  - destruct Hnext as [[_ Hn]|Hn]; [|by destruct Hn; unfold size_of in *; cbn in *; lia].
    cbn. rewrite Hn. split_and!; [split; rewrite ?Hl; auto|done..].
  - destruct Hnext as [[? _]|Hn]; [done|]. unfold loop_at. rewrite Hl.
    rewrite (proj2 (Z.leb_le 0 _)) by lia.
    destruct (lookup_lt_is_Some_2 (l0 :: ls) (Z.to_nat (next_ p))) as [l Hlk]; [unfold size_of in Hn; lia|].
    rewrite Hlk. apply yields_bind. cbn [yields]. apply yields_ret.
    rewrite to_unsigned_small by lia.
    destruct (Z.leb_spec (size_of (l0 :: ls)) (next_ p + 1)).
    + split_and!; [split; cbn; auto; right; lia|done..|]. cbn.
      replace (next_ p + 1) with (size_of (l0 :: ls)) by lia. by rewrite Z.mod_same by lia.
    + split_and!; [split; cbn; auto; right; lia|done..|]. cbn. by rewrite Z.mod_small by lia.
Qed.

Lemma next_loops_spec k : ∀ p,
  pool_ok p →
  next_loops k p ⇓ λ '(ls, p'),
    pool_ok p' ∧ same_loops p p' ∧ length ls = k ∧
    ∀ i l, ls !! i = Some l →
      all_loops p !! Z.to_nat ((next_ p + Z.of_nat i) mod size_of (all_loops p)) = Some l.
Proof.
  induction k as [|k IH]; intros p Hp; [by apply yields_ret|]. cbn [next_loops].
  ystep getNextLoop_spec; [done|]. intros [l p1] (Hp1 & Hs1 & Hl & Hn1).
  ystep IH; [done|]. intros [ls p2] (Hp2 & Hs2 & Hlen & Hls). apply yields_ret.
  assert (all_loops p1 = all_loops p) as Ha by (unfold all_loops; by rewrite (proj1 Hs1), (proj2 Hs1)).
  assert (0 < size_of (all_loops p)) as Hpos.
  { unfold all_loops. destruct (loops_ p); [done|]. rewrite size_of_cons. pose proof (size_of_nonneg l0). lia. }
  assert (0 ≤ next_ p < size_of (all_loops p)) as Hr.
  { destruct Hp as [_ _ [[E ->]|Hn]]; [lia|]. unfold all_loops. destruct (loops_ p) eqn:E; [|done].
    by unfold size_of in Hn; cbn in Hn; lia. }
  split_and!; [done|destruct Hs1, Hs2; split; congruence|cbn; lia|].
  intros [|i] x Hx; cbn in Hx.
  - simplify_eq. by rewrite Z.add_0_r, Z.mod_small by lia.
  - specialize (Hls i x Hx). rewrite Ha, Hn1 in Hls.
    rewrite Zplus_mod_idemp_l in Hls. rewrite Nat2Z.inj_succ.
    by replace (next_ p + Z.succ (Z.of_nat i)) with (next_ p + 1 + Z.of_nat i) by lia.
Qed.

(** Round robin.  A pool of [n] threads, once started in the thread of its
    base loop, hands out its loops in turn, the [i]-th call the loop of thread
    [i] modulo [n], and the base loop only if there are no threads; equal hash
    codes give the same loop. *)
Theorem round_robin startLoop base n k :
  0 ≤ n < 2 ^ 31 →
  (p ← start true startLoop (setThreadNum n (EventLoopThreadPool_new base)); next_loops k p) ⇓ λ '(ls, p),
    length ls = k ∧
    (∀ i l, ls !! i = Some l → l = if n =? 0 then base else startLoop (Z.of_nat i mod n)) ∧
    ∀ h, getLoopForHash true h p = Ok (if n =? 0 then base else startLoop (u64 h mod n)).
Proof.
  intros Hn. ystep start_spec; [done..|]. intros p (Hp & Hnext & Hbase & Hloops).
  eapply yields_mono; [by apply next_loops_spec|]. intros [ls p'] (_ & [Hl' Hb'] & Hlen & Hls).
  assert (size_of (loops_ p) = n) as Hsz.
  { rewrite Hloops. unfold size_of. rewrite length_fmap, length_seq. lia. }
  assert (∀ j, 0 ≤ j < n → loops_ p !! Z.to_nat j = Some (startLoop j)) as Hat.
  { intros j Hj. rewrite Hloops, list_lookup_fmap, lookup_seq_lt by lia. cbn. do 2 f_equal. lia. }
  split; [done|]. destruct (Z.eqb_spec n 0) as [->|Hn0].
  - assert (loops_ p = []) as E by (destruct (loops_ p); [done|rewrite size_of_cons in Hsz; pose proof (size_of_nonneg l); lia]).
    split.
    + intros i l Hi. specialize (Hls i l Hi). unfold all_loops in Hls. rewrite E, Z.mod_1_r in Hls. injection Hls as <-. done.
    + intros h. unfold getLoopForHash. rewrite Hl', E. cbn. by rewrite Hb', Hbase.
  - assert (all_loops p = loops_ p) as E.
    { unfold all_loops. destruct (loops_ p) eqn:E; [|done]. by unfold size_of in Hsz; cbn in Hsz; lia. }
    split.
    + intros i l Hi. specialize (Hls i l Hi). rewrite E, Hnext, Hsz, Z.add_0_l in Hls.
      rewrite Hat in Hls by (apply Z.mod_pos_bound; lia). congruence.
    + intros h. unfold getLoopForHash, loop_at. rewrite Hl'. cbn [assertInLoopThread mbind outcome_bind].
      pose proof (Z.mod_pos_bound (u64 h) n ltac:(lia)) as Hh. rewrite Hsz.
      destruct (loops_ p) eqn:E'; [by unfold size_of in Hsz; cbn in Hsz; lia|].
      rewrite (proj2 (Z.leb_le 0 _)), Hat by lia. done.
Qed.

Lemma round_robin_witness :
  (p ← start true (λ i, Z.to_nat (i + 1)) (setThreadNum 3 (EventLoopThreadPool_new 0)); next_loops 5 p) ⇓ λ '(ls, _),
    ls = [1; 2; 3; 1; 2]%nat.
Proof.
  pose proof (round_robin (λ i, Z.to_nat (i + 1)) 0 3 5 ltac:(lia)) as H.
  destruct (_ ≫= _) as [[ls p]|] eqn:E in H |- *; [|destruct H].
  vm_compute in E. injection E as <- _. reflexivity.
Defined.
