(* ===== verification/TcpClient.v ===== *)
(** * TCP clients (muduo/net/TcpClient.h, TcpClient.cc)

    A client in the thread of its loop: its connector (the model of
    [Connector], run on the same loop), the connections it has made (their
    life, as in [ConnLife]), the loop's queue, which both share, and the
    [TcpConnectionPtr]s the user keeps.  User code runs between any two steps
    of the loop, and inside [handleClose] as the connection callback. *)
From Stdlib Require Import Strings.Byte.
From stdpp Require Import base numbers list gmap strings.
From S2P Require Import Prelude LogStream Date Connector Channel TcpConnection ConnLife.
Open Scope Z_scope.
Open Scope muduo_scope.

(** What is queued in the loop: functors of the connector, and those of a
    connection.  [shutdownInLoop] is bound to a plain pointer, the others to
    a [TcpConnectionPtr]. *)
Inductive QFunctor :=
  | QConnector (f : Connector.Functor)
  | QShutdown (id : Z)
  | QForceClose (id : Z)
  | QDestroy (id : Z).
#[export] Instance QFunctor_eq_dec : EqDecision QFunctor.
Proof. solve_decision. Defined.

Definition functor_of (f : QFunctor) : option Connector.Functor :=
  if f is QConnector f then Some f else None.
Definition conn_of (f : QFunctor) : option Z :=
  match f with QConnector _ => None | QShutdown id | QForceClose id | QDestroy id => Some id end.
(** The connection a functor keeps alive. *)
Definition ref_of (f : QFunctor) : option Z :=
  match f with QForceClose id | QDestroy id => Some id | _ => None end.

Record TcpClient := mkTcpClient {
  alive : bool;
  connector_ : Connector;
  connector_alive : bool;
  name_ : list byte;
  retry_ : bool;
  connect_ : bool;
  nextConnId_ : Z;
  connection_ : option Z;
  (** the connection whose close callback is [detail::removeConnection] *)
  detached : option Z;
  objects : gmap Z Conn;
  (** the user's pointers, and the [guardThis] of a [handleClose] that is running *)
  holders : gset Z;
  guard : option Z;
  (** the functors of this turn that have run and those that have not, and the queue *)
  ran : list QFunctor;
  batch : list QFunctor;
  pending : list QFunctor
}.

Definition TcpClient_new (name : list byte) : TcpClient :=
  mkTcpClient true Connector_new true name false true 1 None None ∅ ∅ None [] [] [].

Definition set_connector (c : Connector) (q : list QFunctor) (s : TcpClient) : TcpClient :=
  mkTcpClient (alive s) c (connector_alive s) (name_ s) (retry_ s) (connect_ s) (nextConnId_ s) (connection_ s)
    (detached s) (objects s) (holders s) (guard s) (ran s) (batch s) q.
Definition set_flags (r c : bool) (s : TcpClient) : TcpClient :=
  mkTcpClient (alive s) (connector_ s) (connector_alive s) (name_ s) r c (nextConnId_ s) (connection_ s)
    (detached s) (objects s) (holders s) (guard s) (ran s) (batch s) (pending s).
Definition set_next (n : Z) (s : TcpClient) : TcpClient :=
  mkTcpClient (alive s) (connector_ s) (connector_alive s) (name_ s) (retry_ s) (connect_ s) n (connection_ s)
    (detached s) (objects s) (holders s) (guard s) (ran s) (batch s) (pending s).
Definition set_connection (c : option Z) (s : TcpClient) : TcpClient :=
  mkTcpClient (alive s) (connector_ s) (connector_alive s) (name_ s) (retry_ s) (connect_ s) (nextConnId_ s) c
    (detached s) (objects s) (holders s) (guard s) (ran s) (batch s) (pending s).
Definition set_objects (m : gmap Z Conn) (s : TcpClient) : TcpClient :=
  mkTcpClient (alive s) (connector_ s) (connector_alive s) (name_ s) (retry_ s) (connect_ s) (nextConnId_ s)
    (connection_ s) (detached s) m (holders s) (guard s) (ran s) (batch s) (pending s).
Definition set_holders (h : gset Z) (g : option Z) (s : TcpClient) : TcpClient :=
  mkTcpClient (alive s) (connector_ s) (connector_alive s) (name_ s) (retry_ s) (connect_ s) (nextConnId_ s)
    (connection_ s) (detached s) (objects s) h g (ran s) (batch s) (pending s).
Definition set_queue (r b p : list QFunctor) (s : TcpClient) : TcpClient :=
  mkTcpClient (alive s) (connector_ s) (connector_alive s) (name_ s) (retry_ s) (connect_ s) (nextConnId_ s)
    (connection_ s) (detached s) (objects s) (holders s) (guard s) r b p.
Definition set_gone (ca : bool) (d : option Z) (s : TcpClient) : TcpClient :=
  mkTcpClient false (connector_ s) ca (name_ s) (retry_ s) (connect_ s) (nextConnId_ s)
    (connection_ s) d (objects s) (holders s) (guard s) (ran s) (batch s) (pending s).

(** ** Connections and the loop *)

Definition queueInLoop (f : QFunctor) (s : TcpClient) : TcpClient :=
  set_queue (ran s) (batch s) (pending s ++ [f]) s.
Definition on_conn (f : Conn → outcome Conn) (id : Z) (s : TcpClient) : outcome TcpClient :=
  m ← update_conn f id (objects s); mret (set_objects m s).

(** A member of the connector; what it queues goes to the loop's queue. *)
Definition on_connector (f : Connector → outcome Connector) (s : TcpClient) : outcome TcpClient :=
  if connector_alive s then
    c ← f (connector_ s);
    mret (set_connector c (pending s ++ (QConnector <$>
      drop (length (Connector.pendingFunctors_ (connector_ s))) (Connector.pendingFunctors_ c))) s)
  else Fault BadDeref.

(** Whether a functor, of those queued or those whose turn has not ended,
    keeps the connection alive. *)
Definition queue_holds (id : Z) (s : TcpClient) : bool :=
  bool_decide (Some id ∈ ref_of <$> ran s ++ batch s ++ pending s).
Definition held (id : Z) (s : TcpClient) : bool :=
  bool_decide (connection_ s = Some id) || bool_decide (id ∈ holders s) || bool_decide (guard s = Some id) ||
  queue_holds id s.

(** A [TcpConnectionPtr] goes away. *)
Definition release (id : Z) (s : TcpClient) : outcome TcpClient :=
  if held id s then mret s else on_conn life_destructed id s.
Fixpoint release_all (ids : list Z) (s : TcpClient) : outcome TcpClient :=
  match ids with
  | [] => mret s
  | id :: ids => s ← release id s; release_all ids s
  end.

(** [TcpConnection::shutdown] and [TcpConnection::forceClose]. *)
Definition shutdown (inLoopThread : bool) (id : Z) (s : TcpClient) : outcome TcpClient :=
  c ← find_conn id (objects s);
  if bool_decide (c_state c = kConnected) then
    s ← on_conn (λ c, mret (life_shutdown c)) id s;
    mret (if inLoopThread then s else queueInLoop (QShutdown id) s)
  else mret s.
Definition forceClose (id : Z) (s : TcpClient) : outcome TcpClient :=
  c ← find_conn id (objects s);
  if is_open (c_state c) then
    s ← on_conn (λ c, mret (life_forceClose c)) id s;
    mret (queueInLoop (QForceClose id) s)
  else mret s.

(** ** Operations *)

Definition connect (inLoopThread : bool) (sockfd : Z) (e : Errno) (s : TcpClient) : outcome TcpClient :=
  on_connector (Connector.start inLoopThread sockfd e) (set_flags (retry_ s) true s).

Definition disconnect (inLoopThread : bool) (s : TcpClient) : outcome TcpClient :=
  let s := set_flags (retry_ s) false s in
  match connection_ s with
  | Some id => shutdown inLoopThread id s
  | None => mret s
  end.

Definition stop (s : TcpClient) : outcome TcpClient :=
  on_connector (λ c, mret (Connector.stop c)) (set_flags (retry_ s) false s).

Definition enableRetry (s : TcpClient) : TcpClient := set_flags true (connect_ s) s.

(** [name_ + buf], with [snprintf(buf, 32, ":%s#%d", peer, nextConnId_)]. *)
Definition connName (peer : list byte) (s : TcpClient) : list byte :=
  name_ s ++ take 31 (lit ":" ++ peer ++ lit "#" ++ default [] (convert (nextConnId_ s))).

Definition newConnection (peer : list byte) (sockfd : Z) (s : TcpClient) : outcome TcpClient :=
  let id := nextConnId_ s in
  let n := connName peer s in
  next ← iadd id 1;
  let s := set_next next s in
  let s := set_objects (<[ id := mkConn n 0 sockfd kConnecting [] ]> (objects s)) s in
  let old := connection_ s in
  let s := set_connection (Some id) s in
  s ← (if old is Some old then release old s else mret s);
  on_conn life_established id s.

(** The close callback of a connection: the first part of [removeConnection],
    which ends with the test of [retry_ && connect_], and the second. *)
Definition forget_connection (id : Z) (s : TcpClient) : outcome (bool * TcpClient) :=
  _ ← assertb 169 (bool_decide (connection_ s = Some id));
  let s := queueInLoop (QDestroy id) (set_connection None s) in
  mret (retry_ s && connect_ s, s).
Definition reconnect (sockfd : Z) (e : Errno) (s : TcpClient) : outcome TcpClient :=
  on_connector (Connector.restart sockfd e) s.
Definition removeConnection (id : Z) (sockfd : Z) (e : Errno) (s : TcpClient) : outcome TcpClient :=
  '(again, s) ← forget_connection id s;
  if (again : bool) then reconnect sockfd e s else mret s.

(** [detail::removeConnection] *)
Definition detail_removeConnection (id : Z) (s : TcpClient) : TcpClient := queueInLoop (QDestroy id) s.

Definition closeCallback_ (id : Z) (sockfd : Z) (e : Errno) (s : TcpClient) : outcome TcpClient :=
  if bool_decide (detached s = Some id) then mret (detail_removeConnection id s)
  else if alive s then removeConnection id sockfd e s
  else Fault BadDeref.

(** The destructor, in the loop's thread.  The timer that [removeConnector] is
    bound to keeps the connector for a second, a retry timer for longer. *)
Definition unique (id : Z) (s : TcpClient) : bool := negb (held id (set_connection None s)).
Definition TcpClient_destructor (s : TcpClient) : outcome TcpClient :=
  match connection_ s with
  | Some id =>
    let u := unique id s in
    let s := set_gone (connector_alive s) (Some id) s in
    s ← (if u then forceClose id s else mret s);
    let s := set_connection None s in
    s ← (if Connector.timers (connector_ s) is [] then
           _ ← Connector_destructor (connector_ s); mret (set_gone false (detached s) s)
         else mret s);
    release id s
  | None =>
    s ← on_connector (λ c, mret (Connector.stop c)) s;
    mret (set_gone true (detached s) s)
  end.

(** ** What users do *)

Inductive Act :=
  | AConnect (inLoopThread : bool) (sockfd : Z) (e : Errno)
  | ADisconnect (inLoopThread : bool)
  | AStop
  | AEnableRetry
  | AShutdown (inLoopThread : bool) (id : Z)
  | AForceClose (id : Z)
  | AHold (id : Z)
  | ADrop (id : Z)
  | ADestruct.

Definition on_client (f : TcpClient → outcome TcpClient) (s : TcpClient) : outcome TcpClient :=
  if alive s then f s else Fault BadDeref.

Definition run_act (a : Act) (s : TcpClient) : outcome TcpClient :=
  match a with
  | AConnect inLoop sockfd e => on_client (connect inLoop sockfd e) s
  | ADisconnect inLoop => on_client (disconnect inLoop) s
  | AStop => on_client stop s
  | AEnableRetry => on_client (λ s, mret (enableRetry s)) s
  | AShutdown inLoop id => shutdown inLoop id s
  | AForceClose id => forceClose id s
  | AHold id => _ ← find_conn id (objects s); mret (set_holders ({[ id ]} ∪ holders s) (guard s) s)
  | ADrop id => release id (set_holders (holders s ∖ {[ id ]}) (guard s) s)
  | ADestruct => on_client TcpClient_destructor s
  end.
Fixpoint run_acts (acts : list Act) (s : TcpClient) : outcome TcpClient :=
  match acts with
  | [] => mret s
  | a :: acts => s ← run_act a s; run_acts acts s
  end.

(** ** The loop *)

(** [TcpConnection::handleClose]: [acts] is what the connection callback does. *)
Definition close_begin (id : Z) (s : TcpClient) : outcome TcpClient :=
  s ← on_conn life_closed id s; mret (set_holders (holders s) (Some id) s).
Definition handleClose (id : Z) (acts : list Act) (sockfd : Z) (e : Errno) (s : TcpClient) : outcome TcpClient :=
  s ← close_begin id s;
  s ← run_acts acts s;
  s ← closeCallback_ id sockfd e s;
  release id (set_holders (holders s) None s).

(** An event of the connector's channel; a connection that is made is handed
    to [newConnection], the connector's callback, which is the last thing the
    connector's handler does. *)
Definition handleEvent (error write : bool) (err : Z) (self : bool) (peer : list byte) (s : TcpClient)
  : outcome TcpClient :=
  let d := length (Connector.delivered (connector_ s)) in
  s ← on_connector (Connector.handleEvent error write err self) s;
  match drop d (Connector.delivered (connector_ s)) with
  | sockfd :: _ => on_client (newConnection peer sockfd) s
  | [] => mret s
  end.

Definition run_functor (f : QFunctor) (acts : list Act) (sockfd : Z) (e : Errno) (s : TcpClient) : outcome TcpClient :=
  match f with
  | QConnector _ => on_connector (Connector.exec (Connector.IFunctor sockfd e)) s
  | QShutdown id => _ ← find_conn id (objects s); mret s
  | QForceClose id =>
    c ← find_conn id (objects s);
    if is_open (c_state c) then handleClose id acts sockfd e s else mret s
  | QDestroy id => on_conn life_destroyed id s
  end.

Inductive Input :=
  | IAct (a : Act)
  | IEvent (error write : bool) (err : Z) (isSelfConnect : bool) (peer : list byte)
  | ITimer (i : nat) (sockfd : Z) (e : Errno)
  | IClose (id : Z) (acts : list Act) (sockfd : Z) (e : Errno)
  | IBeginFunctors
  | IFunctor (acts : list Act) (sockfd : Z) (e : Errno)
  | IEndFunctors.

Definition exec (i : Input) (s : TcpClient) : outcome TcpClient :=
  match i with
  | IAct a => run_act a s
  | IEvent error write err self peer => handleEvent error write err self peer s
  | ITimer i sockfd e => on_connector (Connector.exec (Connector.ITimer i sockfd e)) s
  | IClose id acts sockfd e => handleClose id acts sockfd e s
  | IBeginFunctors =>
    c ← Connector.exec Connector.IBeginFunctors (connector_ s);
    mret (set_queue [] (pending s) [] (set_connector c [] s))
  | IFunctor acts sockfd e =>
    match batch s with
    | f :: rest => run_functor f acts sockfd e (set_queue (ran s ++ [f]) rest (pending s) s)
    | [] => mret s
    end
  | IEndFunctors =>
    c ← Connector.exec Connector.IEndFunctors (connector_ s);
    release_all (remove_dups (omap ref_of (ran s))) (set_queue [] [] (pending s) (set_connector c (pending s) s))
  end.

Fixpoint exec_all (inputs : list Input) (s : TcpClient) : outcome TcpClient :=
  match inputs with
  | [] => mret s
  | i :: inputs => s ← exec i s; exec_all inputs s
  end.

(** ** How a client is used *)

Definition connector_functors (q : list QFunctor) : list Connector.Functor := omap functor_of q.
Definition valid (id : Z) (s : TcpClient) : bool :=
  if objects s !! id is Some c then negb (destructed c) else false.
Definition open_conn (id : Z) (s : TcpClient) : bool :=
  if objects s !! id is Some c then is_open (c_state c) else false.

(** [connect] once, and not after [stop]; a connection that the client has left
    behind is not dropped while it is open, unless it is about to be closed;
    the client is not destructed while a functor of its connector is queued
    and a connection exists. *)
Definition act_allowed (a : Act) (s : TcpClient) : bool :=
  match a with
  | AConnect inLoop sockfd e => alive s && Connector.allowed (Connector.IStart inLoop sockfd e) (connector_ s)
  | ADisconnect _ | AStop | AEnableRetry => alive s
  | AShutdown _ id | AForceClose id | AHold id => valid id s
  | ADrop id => bool_decide (id ∈ holders s) &&
      (negb (open_conn id s) || bool_decide (connection_ s = Some id) ||
       bool_decide (QForceClose id ∈ batch s ++ pending s))
  | ADestruct => alive s &&
      (bool_decide (connection_ s = None) || bool_decide (connector_functors (batch s ++ pending s) = []))
  end.
Fixpoint acts_allowed (acts : list Act) (s : TcpClient) : bool :=
  match acts with
  | [] => true
  | a :: acts => act_allowed a s && match run_act a s with Ok s' => acts_allowed acts s' | Fault _ => true end
  end.
Definition close_allowed (id : Z) (acts : list Act) (s : TcpClient) : bool :=
  match close_begin id s with Ok s' => acts_allowed acts s' | Fault _ => true end.

(** Events come between the runs of functors: those of a connection to an open
    one, in a turn after the one it was made in. *)
Definition allowed (i : Input) (s : TcpClient) : bool :=
  match i with
  | IAct a => act_allowed a s
  | IEvent error write err self peer => connector_alive s && (nextConnId_ s <? 2 ^ 31 - 1) &&
      Connector.allowed (Connector.IEvent error write err self) (connector_ s)
  | ITimer i sockfd e => connector_alive s && Connector.allowed (Connector.ITimer i sockfd e) (connector_ s)
  | IClose id acts _ _ => open_conn id s && bool_decide (Connector.batch (connector_ s) = None) &&
      (Connector.connected_at (connector_ s) <? Connector.turn (connector_ s))%nat && close_allowed id acts s
  | IBeginFunctors => Connector.allowed Connector.IBeginFunctors (connector_ s)
  | IFunctor acts _ _ =>
    match batch s with
    | QForceClose id :: rest =>
      negb (open_conn id s) || close_allowed id acts (set_queue (ran s ++ [QForceClose id]) rest (pending s) s)
    | _ :: _ => true
    | [] => false
    end
  | IEndFunctors => bool_decide (batch s = []) && negb (bool_decide (Connector.batch (connector_ s) = None))
  end.

Fixpoint allowed_all (inputs : list Input) (s : TcpClient) : bool :=
  match inputs with
  | [] => true
  | i :: inputs => allowed i s && match exec i s with Ok s' => allowed_all inputs s' | Fault _ => true end
  end.
