(* ===== verification/TcpClientSafety.v ===== *)
(** * TCP clients: the connector, the connections and their pointers *)
From Stdlib Require Import Strings.Byte.
From stdpp Require Import base numbers list gmap strings.
From S2P Require Import Prelude LogStream Date Connector Channel TcpConnection ConnLife TcpClient.
Open Scope Z_scope.
Open Scope muduo_scope.

(** ** What matters of the client for one connection *)

Definition pend (id : Z) (q : list QFunctor) : list QFunctor := filter (λ f, conn_of f = Some id) q.
Arguments pend : simpl never.

Lemma pend_queue_app id q q' : pend id (q ++ q') = pend id q ++ pend id q'.
Proof. apply filter_app. Qed.
Lemma pend_cons id f q : pend id (f :: q) = (if decide (conn_of f = Some id) then [f] else []) ++ pend id q.
Proof. unfold pend. rewrite filter_cons. by case_decide. Qed.
Lemma pend_queue_one id f : pend id [f] = if decide (conn_of f = Some id) then [f] else [].
Proof. unfold pend. rewrite filter_cons, filter_nil. done. Qed.
Lemma pend_connector id fs : pend id (QConnector <$> fs) = [].
Proof. induction fs as [|f fs IH]; [done|]. cbn [fmap list_fmap]. by rewrite pend_cons, IH. Qed.
Lemma elem_of_pend id f q : f ∈ pend id q ↔ conn_of f = Some id ∧ f ∈ q.
Proof. unfold pend. by rewrite list_elem_of_filter. Qed.

(** The functors queued for it; whether one that has run keeps it, or a pointer
    that is about to go away (one of [kept]); whether it is the client's, or was left behind; whether the user has it, and whether
    its [handleClose] is running. *)
Record View := mkView {
  v_pend : list QFunctor;
  v_ran : bool;
  v_kept : bool;
  v_current : bool;
  v_left : bool;
  v_user : bool;
  v_closing : bool
}.

Definition queue (s : TcpClient) : list QFunctor := batch s ++ pending s.
Arguments queue : simpl never.
Definition view_of (kept : list Z) (id : Z) (s : TcpClient) : View :=
  mkView (pend id (queue s)) (bool_decide (Some id ∈ ref_of <$> ran s)) (bool_decide (id ∈ kept))
    (bool_decide (connection_ s = Some id)) (negb (alive s) && bool_decide (detached s = Some id))
    (bool_decide (id ∈ holders s)) (bool_decide (guard s = Some id)).
Definition idle : View := mkView [] false false false false false false.

(** Where a connection is in its life. *)
Definition obj_inv (id : Z) (v : View) (c : Conn) : Prop :=
  match c_life c with
  | [LEstablished] =>
    is_open (c_state c) = true ∧ QDestroy id ∉ v_pend v ∧ v_closing v = false ∧ v_ran v = false ∧
    (v_current v = true ∨ v_left v = true ∧ (v_user v = true ∨ QForceClose id ∈ v_pend v))
  | [LEstablished; LClosed] =>
    c_state c = kDisconnected ∧
    if v_closing v then QDestroy id ∉ v_pend v ∧ (v_current v = true ∨ v_left v = true)
    else v_current v = false ∧ ∃ l, v_pend v = l ++ [QDestroy id] ∧ QDestroy id ∉ l
  | [LEstablished; LClosed; LDestroyed] =>
    c_state c = kDisconnected ∧ v_pend v = [] ∧ v_current v = false ∧ v_closing v = false ∧
    (v_user v = true ∨ v_ran v = true ∨ v_kept v = true)
  | [LEstablished; LClosed; LDestroyed; LDestructed] =>
    c_state c = kDisconnected ∧ v_pend v = [] ∧ v_current v = false ∧ v_closing v = false ∧
    v_user v = false ∧ v_ran v = false ∧ v_kept v = false
  | _ => False
  end.

Definition conn_ok (kept : list Z) (id : Z) (s : TcpClient) : Prop :=
  match objects s !! id with
  | Some c => 1 ≤ id < nextConnId_ s ∧ obj_inv id (view_of kept id s) c
  | None => view_of kept id s = idle
  end.

(** ** The rest of the client *)

(** [resetChannel] comes before a [forceCloseInLoop] of the connection that
    the connector has just made. *)
Fixpoint reset_first (id : Z) (q : list QFunctor) : Prop :=
  match q with
  | [] => True
  | f :: q => (f = QForceClose id → QConnector FResetChannel ∉ q) ∧ reset_first id q
  end.

Lemma reset_first_app id q q' :
  reset_first id q → (QForceClose id ∈ q → QConnector FResetChannel ∉ q') → reset_first id q' → reset_first id (q ++ q').
Proof.
  induction q as [|f q IH]; [done|]. intros [Hf Hq] Hn Hq'. split.
  - intros ->. rewrite elem_of_app. intros [?|?]; [by apply Hf|]. apply Hn; [left|done].
  - apply IH; [done| |done]. intros ?. apply Hn. by right.
Qed.
Lemma reset_first_none id q : QForceClose id ∉ q → reset_first id q.
Proof.
  induction q as [|f q IH]; [done|]. rewrite not_elem_of_cons. intros [? ?]. split; [congruence|auto].
Qed.
Lemma reset_first_snoc id q f : reset_first id q → f ≠ QConnector FResetChannel → reset_first id (q ++ [f]).
Proof.
  intros Hq Hf. apply reset_first_app; [done| |].
  - intros _. rewrite list_elem_of_singleton. congruence.
  - split; [intros _; apply not_elem_of_nil|done].
Qed.

(** [connect_] is cleared by [stop]; a client that is gone has stopped its
    connector or taken it along. *)
Definition alive_ok (s : TcpClient) : Prop :=
  if alive s then connector_alive s = true ∧ detached s = None ∧ (stopped (connector_ s) = true → connect_ s = false)
  else connection_ s = None ∧
       if connector_alive s then stopped (connector_ s) = true
       else connector_functors (queue s) = [] ∧ Connector.timers (connector_ s) = [] ∧
            Connector.channel_ (connector_ s) = None.

Record client_inv (kept : list Z) (s : TcpClient) : Prop := {
  ci_connector : connector_inv (connector_ s);
  ci_batch : default [] (Connector.batch (connector_ s)) = connector_functors (batch s);
  ci_pending : Connector.pendingFunctors_ (connector_ s) = connector_functors (pending s);
  ci_phase : Connector.batch (connector_ s) = None → batch s = [] ∧ ran s = [];
  ci_next : 1 ≤ nextConnId_ s < 2 ^ 31;
  ci_connection id : connection_ s = Some id →
    Connector.state_ (connector_ s) = Connector.kConnected ∧ reset_first id (queue s);
  ci_alive : alive_ok s;
  ci_objects id : conn_ok kept id s
}.

Lemma client_inv_new name : client_inv [] (TcpClient_new name).
Proof. split; cbn; try done. apply connector_inv_new. Qed.

(** ** Moves *)

(** One connection moves on; the connector is not involved. *)
Record same_client (s s' : TcpClient) : Prop := {
  same_connector : connector_ s' = connector_ s;
  same_connector_alive : connector_alive s' = connector_alive s;
  same_alive : alive s' = alive s;
  same_detached : detached s' = detached s;
  same_next : nextConnId_ s' = nextConnId_ s;
  same_connect : connect_ s' = connect_ s;
  same_batch : connector_functors (batch s') = connector_functors (batch s);
  same_pending : connector_functors (pending s') = connector_functors (pending s)
}.

Lemma connector_functors_app q q' :
  connector_functors (q ++ q') = connector_functors q ++ connector_functors q'.
Proof. apply omap_app. Qed.

Lemma same_alive_ok s s' :
  same_client s s' → (∀ i, connection_ s' = Some i → connection_ s = Some i) → alive_ok s → alive_ok s'.
Proof.
  intros [] Hc. unfold alive_ok, queue. rewrite !connector_functors_app, same_batch0, same_pending0.
  rewrite same_connector0, same_connector_alive0, same_alive0, same_detached0, same_connect0.
  destruct (alive s); [done|]. intros [Hn ?]. split; [|done].
  destruct (connection_ s') as [i|]; [|done]. specialize (Hc i eq_refl). congruence.
Qed.

Lemma client_inv_move kept kept' s s' id c c' :
  client_inv kept s → objects s !! id = Some c → same_client s s' →
  objects s' = <[ id := c' ]> (objects s) →
  (Connector.batch (connector_ s) = None → batch s' = [] ∧ ran s' = []) →
  (∀ i, connection_ s' = Some i → connection_ s = Some i ∧ reset_first i (queue s')) →
  (∀ id', id' ≠ id → view_of kept' id' s' = view_of kept id' s) →
  obj_inv id (view_of kept' id s') c' → client_inv kept' s'.
Proof.
  intros Hs Hc Hsame Ho Hph Hcn Hv Hobj. pose proof Hsame as [E1 E2 E3 E4 E5 E6 E7 E8].
  split; rewrite ?E1, ?E5, ?E7, ?E8; try apply Hs; try done.
  - intros i Hi. destruct (Hcn i Hi). split; [|done]. by eapply ci_connection.
  - eapply same_alive_ok; [done| |apply Hs]. intros i Hi. by apply Hcn.
  - intros id'. unfold conn_ok. rewrite Ho. destruct (decide (id' = id)) as [->|Hne].
    + rewrite lookup_insert_eq. split; [|done]. pose proof (ci_objects kept s Hs id) as Hk.
      unfold conn_ok in Hk. rewrite Hc in Hk. rewrite E5. apply Hk.
    + rewrite lookup_insert_ne, Hv, E5 by done. apply (ci_objects kept s Hs id').
Qed.

(** The connector moves on; the connections are not involved. *)
Lemma client_inv_connector kept s s' :
  client_inv kept s → objects s' = objects s → nextConnId_ s' = nextConnId_ s →
  (∀ id, view_of kept id s' = view_of kept id s) →
  connector_inv (connector_ s') →
  default [] (Connector.batch (connector_ s')) = connector_functors (batch s') →
  Connector.pendingFunctors_ (connector_ s') = connector_functors (pending s') →
  (Connector.batch (connector_ s') = None → batch s' = [] ∧ ran s' = []) →
  (∀ id, connection_ s' = Some id →
     Connector.state_ (connector_ s') = Connector.kConnected ∧ reset_first id (queue s')) →
  alive_ok s' → client_inv kept s'.
Proof.
  intros Hs Ho Hn Hv H1 H2 H3 H4 H5 H6. split; try done; [rewrite Hn; apply Hs|].
  intros id. unfold conn_ok. rewrite Ho, Hn, Hv. apply (ci_objects kept s Hs id).
Qed.

Lemma connector_functors_fmap fs : connector_functors (QConnector <$> fs) = fs.
Proof. induction fs as [|f fs IH]; [done|]. unfold connector_functors in *. cbn. by rewrite IH. Qed.

Lemma elem_of_connector_functors f q : QConnector f ∈ q ↔ f ∈ connector_functors q.
Proof.
  unfold connector_functors. rewrite list_elem_of_omap. split.
  - intros H. by exists (QConnector f).
  - intros ([g|?|?|?] & Hin & Hg); try done. cbn in Hg. by simplify_eq.
Qed.

(** A member of the connector. *)
Lemma on_connector_inv kept f s :
  client_inv kept s → connector_alive s = true →
  (f (connector_ s) ⇓ λ c,
     connector_inv c ∧ Connector.batch c = Connector.batch (connector_ s) ∧
     (∃ new, Connector.pendingFunctors_ c = Connector.pendingFunctors_ (connector_ s) ++ new ∧
        (connection_ s ≠ None → Connector.state_ c = Connector.kConnected ∧ FResetChannel ∉ new)) ∧
     (stopped c = true → stopped (connector_ s) = true ∨ connect_ s = false) ∧
     (stopped (connector_ s) = true → stopped c = true)) →
  on_connector f s ⇓ λ s', client_inv kept s' ∧ nextConnId_ s' = nextConnId_ s ∧ connection_ s' = connection_ s ∧
    guard s' = guard s ∧ alive s' = alive s ∧ connect_ s' = connect_ s ∧ connector_alive s' = true ∧
    f (connector_ s) = Ok (connector_ s') ∧ (∃ new, queue s' = queue s ++ new) ∧
    (connection_ s ≠ None → QConnector FResetChannel ∉ queue s → QConnector FResetChannel ∉ queue s').
Proof.
  intros Hs Hal Hf. unfold on_connector. rewrite Hal. destruct (f (connector_ s)) as [c|] eqn:Ef; [|done]. cbn.
  destruct Hf as (Hc & Hb & (new & Hp & Hcn) & Hst & Hst').
  rewrite Hp, drop_app_length. split_and!; try done.
  - eapply (client_inv_connector kept s); try done; cbn.
    + intros id. unfold view_of, queue. cbn. by rewrite app_assoc, !pend_queue_app, pend_connector, app_nil_r.
    + rewrite Hb. apply Hs.
    + rewrite Hp, connector_functors_app, connector_functors_fmap. f_equal. apply Hs.
    + rewrite Hb. apply Hs.
    + intros id Hid. destruct Hcn as [? Hnew]; [congruence|]. split; [done|]. unfold queue. cbn. rewrite app_assoc.
      apply reset_first_app; [by eapply ci_connection| |apply reset_first_none].
      * intros _. by rewrite elem_of_connector_functors, connector_functors_fmap.
      * rewrite list_elem_of_fmap. by intros (? & ? & ?).
    + pose proof (ci_alive kept s Hs) as Ha. unfold alive_ok in *. cbn. rewrite Hal in *.
      destruct (alive s); [|naive_solver]. destruct Ha as (_ & ? & Ha). split_and!; try done. intros Hsp.
      destruct (Hst Hsp); auto.
  - unfold queue. cbn. eexists. by rewrite app_assoc.
  - intros Hne Hq. destruct (Hcn Hne) as [_ Hnew]. unfold queue in *. cbn. rewrite app_assoc, elem_of_app.
    rewrite (elem_of_connector_functors _ (_ <$> _)), connector_functors_fmap. tauto.
Qed.

(** ** Pointers *)

Definition view_held (v : View) : bool :=
  v_current v || v_user v || v_closing v || v_ran v || existsb (λ f, bool_decide (ref_of f ≠ None)) (v_pend v).

Lemma held_view id s : held id s = view_held (view_of [] id s).
Proof.
  unfold held, view_held, queue_holds, queue. cbn.
  rewrite <- !orb_assoc. do 3 f_equal. rewrite fmap_app.
  apply eq_true_iff_eq. rewrite orb_true_iff, !bool_decide_eq_true, elem_of_app, existsb_exists.
  apply or_iff_compat_l. rewrite list_elem_of_fmap. split.
  - intros (f & Hf & Hin). exists f. rewrite <- list_elem_of_In, elem_of_pend, bool_decide_eq_true.
    split; [|congruence]. split; [|done]. by destruct f.
  - intros (f & Hin & Hf). apply list_elem_of_In, elem_of_pend in Hin as [Hc Hin]. apply bool_decide_eq_true in Hf.
    exists f. split; [|done]. by destruct f.
Qed.

Lemma existsb_in {A} (p : A → bool) x l : x ∈ l → p x = true → existsb p l = true.
Proof. intros ? ?. apply existsb_exists. exists x. by rewrite <- list_elem_of_In. Qed.

(** What obj_inv says of a connection that a pointer in [kept] is the last to hold. *)
Lemma view_kept kept id s : id ∉ kept →
  view_of (id :: kept) id s =
  mkView (v_pend (view_of [] id s)) (v_ran (view_of [] id s)) true (v_current (view_of [] id s)) (v_left (view_of [] id s))
    (v_user (view_of [] id s)) (v_closing (view_of [] id s)) ∧
  view_of kept id s = view_of [] id s.
Proof.
  intros Hid. unfold view_of. cbn. rewrite (bool_decide_true (id ∈ id :: kept)) by left.
  by rewrite (bool_decide_false (id ∈ kept)), (bool_decide_false (id ∈ [])) by (done || apply not_elem_of_nil).
Qed.

Lemma view_kept_ne kept id id' s : id' ≠ id → view_of (id :: kept) id' s = view_of kept id' s.
Proof.
  intros Hne. unfold view_of. f_equal. apply bool_decide_ext. rewrite elem_of_cons. tauto.
Qed.

Lemma client_inv_mono id kept s :
  client_inv (id :: kept) s → (∀ c, objects s !! id = Some c →
    obj_inv id (view_of (id :: kept) id s) c → obj_inv id (view_of kept id s) c) →
  objects s !! id ≠ None → client_inv kept s.
Proof.
  intros Hs Hobj Hid. split; try apply Hs. intros id'. pose proof (ci_objects _ s Hs id') as Hk. unfold conn_ok in *.
  destruct (decide (id' = id)) as [->|Hne]; [|by rewrite <- (view_kept_ne kept id)].
  destruct (objects s !! id) as [c|]; [|done]. destruct Hk. split; [done|]. by apply Hobj.
Qed.

(** The five stages of a connection, as goals and hypotheses. *)
Ltac stages Hobj c :=
  unfold obj_inv in Hobj; destruct (c_life c) as [|[] [|[] [|[] [|[] [|]]]]] eqn:?Hlife; try done;
  cbn [v_pend v_ran v_kept v_current v_left v_user v_closing] in Hobj.

(** A pointer goes away: the connection is destructed when it was the last. *)
Lemma release_inv id kept s :
  client_inv (id :: kept) s → id ∉ kept →
  release id s ⇓ λ s', client_inv kept s' ∧ (∃ m, s' = set_objects m s) ∧ ∀ id', id' ≠ id → objects s' !! id' = objects s !! id'.
Proof.
  intros Hs Hid. pose proof (ci_objects _ s Hs id) as Hk. unfold conn_ok in Hk.
  destruct (view_kept kept id s Hid) as [Hv1 Hv2]. rewrite Hv1 in Hk.
  destruct (objects s !! id) as [c|] eqn:Hc; [|discriminate]. destruct Hk as [_ Hobj].
  assert (set_objects (objects s) s = s) as Hset by (by destruct s).
  unfold release. rewrite held_view. destruct (view_held (view_of [] id s)) eqn:Hh.
  - split_and!; [|by exists (objects s)|done]. apply (client_inv_mono id); [done| |congruence]. intros c0. rewrite Hc, Hv1, Hv2.
    intros [= <-] _. clear Hv1 Hv2. unfold view_held in Hh. destruct (view_of [] id s) as [p r k cu l u cl] eqn:Hview. cbn in *.
    stages Hobj c; unfold obj_inv; rewrite Hlife; cbn; [exact Hobj|exact Hobj| |by destruct Hobj as (_ & _ & _ & _ & _ & _ & ?)].
    destruct Hobj as (? & -> & -> & -> & _). cbn in Hh. rewrite orb_false_r, ?orb_false_r in Hh.
    split_and!; try done. destruct u; [by left|]. by destruct r; [right; left|].
  - assert (c_life c = [LEstablished; LClosed; LDestroyed] ∧ c_state c = kDisconnected ∧
      obj_inv id (view_of [] id s) (live c kDisconnected LDestructed)) as (Hlife & Hst & Hobj').
    { clear Hv1 Hv2. unfold view_held in Hh. destruct (view_of [] id s) as [p r k cu l u cl] eqn:Hview. cbn in *.
      rewrite !orb_false_iff in Hh. destruct Hh as ((((-> & ->) & ->) & ->) & Hp).
      stages Hobj c.
      - destruct Hobj as (_ & _ & _ & _ & [|[_ [|Hin]]]); [done..|]. by rewrite (existsb_in _ _ _ Hin) in Hp.
      - destruct Hobj as (_ & _ & q & -> & _). rewrite (existsb_in _ (QDestroy id)) in Hp; [done| |done].
        apply elem_of_app; right; by left.
      - destruct Hobj as (-> & -> & _). split_and!; try done. unfold obj_inv. cbn. rewrite Hlife. cbn.
        split_and!; try done. pose proof (f_equal v_kept Hview) as Hkept. cbn in Hkept. by subst.
      - by destruct Hobj as (_ & _ & _ & _ & _ & _ & ?). }
    unfold on_conn. rewrite (update_conn_Ok _ _ _ c (live c kDisconnected LDestructed));
      [|done|rewrite Hlife; not_destructed|unfold life_destructed; by rewrite Hst]. cbn.
    split_and!; [|by eexists|intros id' Hne; by rewrite lookup_insert_ne].
    eapply (client_inv_move (id :: kept) kept s _ id c); try done; [apply Hs|..].
    + intros i Hi. split; [done|]. by eapply (ci_connection _ s Hs).
    + intros id' Hne. by rewrite <- (view_kept_ne kept id id').
    + by change (view_of kept id (set_objects _ s)) with (view_of kept id s); rewrite Hv2.
Qed.

(** ** Members of the connections *)

Definition push (f : QFunctor) (v : View) : View :=
  mkView (v_pend v ++ [f]) (v_ran v) (v_kept v) (v_current v) (v_left v) (v_user v) (v_closing v).

Lemma view_queue kept id f s :
  conn_of f = Some id → view_of kept id (queueInLoop f s) = push f (view_of kept id s).
Proof. intros Hf. unfold view_of, push, queue. cbn. by rewrite app_assoc, pend_queue_app, pend_queue_one, decide_True by done. Qed.
Lemma view_queue_ne kept id f s :
  conn_of f ≠ Some id → view_of kept id (queueInLoop f s) = view_of kept id s.
Proof. intros Hf. unfold view_of, queue. cbn. by rewrite app_assoc, pend_queue_app, pend_queue_one, decide_False, app_nil_r by done. Qed.

(** What user code leaves alone. *)
Record act_post (s s' : TcpClient) : Prop := {
  post_guard : guard s' = guard s;
  post_connection i : connection_ s' = Some i → connection_ s = Some i ∧
    (QConnector FResetChannel ∉ queue s → QConnector FResetChannel ∉ queue s')
}.
Definition acted (kept : list Z) (s s' : TcpClient) : Prop := client_inv kept s' ∧ act_post s s'.

Lemma acted_same kept s s' :
  client_inv kept s' → guard s' = guard s → connection_ s' = connection_ s → queue s' = queue s → acted kept s s'.
Proof. intros Hs Hg Hc Hq. split; [done|]. split; [done|]. rewrite Hc, Hq. auto. Qed.

(** An open connection, to which a member is applied that queues [f]. *)
Lemma push_inv kept s id c c' f :
  client_inv kept s → objects s !! id = Some c → c_life c = [LEstablished] →
  c_life c' = [LEstablished] → is_open (c_state c') = true → conn_of f = Some id → f ≠ QDestroy id →
  functor_of f = None →
  acted kept s (queueInLoop f (set_objects (<[ id := c' ]> (objects s)) s)).
Proof.
  intros Hs Hc Hl Hl' Ho Hf Hne Hfn.
  pose proof (ci_objects _ s Hs id) as Hk. unfold conn_ok in Hk. rewrite Hc in Hk. destruct Hk as [_ Hobj].
  assert (f ≠ QConnector FResetChannel) as Hnr by (by intros ->).
  split; [|split; [done|]].
  - eapply (client_inv_move kept kept s _ id c c'); try done.
    + split; try done. cbn. rewrite connector_functors_app. unfold connector_functors at 2. cbn. by rewrite Hfn, app_nil_r.
    + apply Hs.
    + intros i Hi. split; [done|]. unfold queue. cbn. rewrite app_assoc. apply reset_first_snoc; [|done].
      by eapply (ci_connection _ s Hs).
    + intros id' Hid'. rewrite view_queue_ne; [done|congruence].
    + rewrite view_queue by done. change (view_of kept id (set_objects _ s)) with (view_of kept id s).
      unfold obj_inv in *. rewrite Hl in Hobj. rewrite Hl'. cbn in *. destruct Hobj as (_ & Hd & Hg & Hr & Hown).
      split_and!; [done| |done|done|].
      * rewrite elem_of_app, list_elem_of_singleton. naive_solver.
      * rewrite elem_of_app. tauto.
  - intros i Hi. split; [done|]. intros Hq. unfold queue. cbn. rewrite app_assoc. intros [Hin|Hin]%elem_of_app; [done|].
    apply list_elem_of_singleton in Hin. congruence.
Qed.

(** Only an established connection is open. *)
Lemma open_established kept s id c :
  client_inv kept s → objects s !! id = Some c → is_open (c_state c) = true →
  c_life c = [LEstablished] ∧ obj_inv id (view_of kept id s) c.
Proof.
  intros Hs Hc Ho. pose proof (ci_objects _ s Hs id) as Hk. unfold conn_ok in Hk. rewrite Hc in Hk.
  destruct Hk as [_ Hobj]. split; [|done]. clear Hc.
  stages Hobj c; destruct Hobj as (Hst & _); by rewrite Hst in Ho.
Qed.

Lemma is_open_connected c : c_state c = kConnected → is_open (c_state c) = true.
Proof. intros ->. done. Qed.

Lemma conn_shutdown_inv kept inLoop id s :
  client_inv kept s → valid id s = true → shutdown inLoop id s ⇓ acted kept s.
Proof.
  intros Hs Hv. unfold valid in Hv. destruct (objects s !! id) as [c|] eqn:Hc; [|done].
  apply negb_true_iff, bool_decide_eq_false in Hv.
  unfold shutdown. rewrite (find_conn_Ok id _ c) by done. cbn.
  case_bool_decide as Hst; [|by apply acted_same].
  destruct (open_established kept s id c) as [Hl Hobj]; [done|done|by apply is_open_connected|].
  unfold on_conn. rewrite (update_conn_Ok _ _ _ c (life_shutdown c)) by done. cbn.
  unfold life_shutdown. rewrite bool_decide_true by done.
  destruct inLoop; [|by eapply push_inv].
  apply acted_same; try done. eapply (client_inv_move kept kept s _ id c); try done; [apply Hs|..].
  - intros i Hi. split; [done|]. by eapply (ci_connection _ s Hs).
  - unfold obj_inv in *. rewrite Hl in Hobj. cbn. rewrite Hl. change (view_of kept id (set_objects _ s)) with (view_of kept id s).
    tauto.
Qed.

Lemma forceClose_inv kept id s :
  client_inv kept s → valid id s = true → forceClose id s ⇓ acted kept s.
Proof.
  intros Hs Hv. unfold valid in Hv. destruct (objects s !! id) as [c|] eqn:Hc; [|done].
  apply negb_true_iff, bool_decide_eq_false in Hv.
  unfold forceClose. rewrite (find_conn_Ok id _ c) by done. cbn.
  destruct (is_open (c_state c)) eqn:Ho; [|by apply acted_same].
  destruct (open_established kept s id c) as [Hl Hobj]; [done..|].
  unfold on_conn. rewrite (update_conn_Ok _ _ _ c (life_forceClose c)) by done. cbn.
  unfold life_forceClose. rewrite Ho. by eapply push_inv.
Qed.

(** ** User code *)

Lemma set_flags_inv kept r b s :
  client_inv kept s → (b = connect_ s ∨ b = false ∨ stopped (connector_ s) = false) → client_inv kept (set_flags r b s).
Proof.
  intros Hs Hb. split; try apply Hs. pose proof (ci_alive _ s Hs) as Ha. unfold alive_ok in *. cbn.
  destruct (alive s); [|done]. destruct Ha as (? & ? & Ha). split_and!; try done. intros Hsp.
  destruct Hb as [->|[->|Hb]]; [auto|done|congruence].
Qed.

(** The connection of the client exists, and so does the one that is closing. *)
Lemma current_conn kept s id :
  client_inv kept s → connection_ s = Some id ∨ guard s = Some id →
  ∃ c, objects s !! id = Some c ∧ LDestructed ∉ c_life c ∧ obj_inv id (view_of kept id s) c.
Proof.
  intros Hs Hid. pose proof (ci_objects _ s Hs id) as Hk. unfold conn_ok in Hk.
  assert (v_current (view_of kept id s) = true ∨ v_closing (view_of kept id s) = true) as Hv
    by (destruct Hid; [left|right]; by apply bool_decide_eq_true).
  destruct (objects s !! id) as [c|]; [|rewrite Hk in Hv; by destruct Hv].
  destruct Hk as [_ Hobj]. exists c. split_and!; [done| |done].
  stages Hobj c; [not_destructed..|not_destructed|].
  destruct Hobj as (_ & _ & E1 & E2 & _). destruct Hv; congruence.
Qed.

Lemma current_valid kept s id : client_inv kept s → connection_ s = Some id → valid id s = true.
Proof.
  intros Hs Hid. destruct (current_conn kept s id) as (c & Hc & Hd & _); [done|by left|].
  unfold valid. rewrite Hc. by apply negb_true_iff, bool_decide_eq_false.
Qed.

Lemma connected_started kept s id : client_inv kept s → connection_ s = Some id → started (connector_ s) = true.
Proof.
  intros Hs Hid. destruct (ci_connection _ s Hs id Hid) as [Hst _].
  destruct (started (connector_ s)) eqn:E; [done|].
  destruct (inv_unstarted _ (ci_connector _ s Hs) E) as [[Hd _] _]. congruence.
Qed.

Lemma acted_flags kept r b s s' :
  acted kept (set_flags r b s) s' → acted kept s s'.
Proof. intros [? [? Hp]]. split; [done|]. split; [done|]. exact Hp. Qed.

(** A member of the connector that user code calls. *)
Lemma acted_connector kept f s :
  client_inv kept s → connector_alive s = true →
  (f (connector_ s) ⇓ λ c,
     connector_inv c ∧ Connector.batch c = Connector.batch (connector_ s) ∧
     (∃ new, Connector.pendingFunctors_ c = Connector.pendingFunctors_ (connector_ s) ++ new ∧
        (connection_ s ≠ None → Connector.state_ c = Connector.kConnected ∧ FResetChannel ∉ new)) ∧
     (stopped c = true → stopped (connector_ s) = true ∨ connect_ s = false) ∧
     (stopped (connector_ s) = true → stopped c = true)) →
  on_connector f s ⇓ acted kept s.
Proof.
  intros Hs Ha Hf. eapply yields_mono; [by apply on_connector_inv|].
  intros s' (? & _ & Hc & Hg & _ & _ & _ & _ & _ & Hq). split; [done|]. split; [done|].
  intros i Hi. split; [congruence|]. apply Hq. congruence.
Qed.

Lemma connect_act_inv inLoop sockfd e s :
  client_inv [] s → act_allowed (AConnect inLoop sockfd e) s = true →
  run_act (AConnect inLoop sockfd e) s ⇓ acted [] s.
Proof.
  intros Hs Ha. cbn in Ha. rewrite !andb_true_iff, !negb_true_iff in Ha. destruct Ha as (Hal & Hst & Hsp).
  cbn. unfold on_client. rewrite Hal. unfold connect.
  assert (client_inv [] (set_flags (retry_ s) true s)) as Hs' by (apply set_flags_inv; auto).
  pose proof (ci_alive _ s Hs) as Hok. unfold alive_ok in Hok. rewrite Hal in Hok.
  assert (connection_ s = None) as Hnone.
  { destruct (connection_ s) eqn:E; [|done]. by rewrite (connected_started _ s _ Hs E) in Hst. }
  eapply yields_mono; [|apply acted_flags].
  apply acted_connector; [done|by destruct Hok|].
  pose proof (start_inv inLoop sockfd e (connector_ s) (ci_connector _ s Hs) Hst Hsp) as Hstart.
  cbn. destruct (Connector.start inLoop sockfd e (connector_ s)) as [c|] eqn:E; [|done]. cbn in Hstart |- *.
  assert (Connector.batch c = Connector.batch (connector_ s) ∧ stopped c = stopped (connector_ s) ∧
    ∃ new, Connector.pendingFunctors_ c = Connector.pendingFunctors_ (connector_ s) ++ new) as (Hb & Hsp' & new & Hn).
  { unfold Connector.start in E. destruct inLoop.
    - apply startInLoop_quiet in E as [? ? ? ? ?]. done.
    - injection E as <-. split_and!; try done. by eexists. }
  rewrite Hnone. split_and!; try done; [by exists new|rewrite Hsp'; auto|by rewrite Hsp'].
Qed.

Lemma stop_connector_inv kept s :
  client_inv kept s → connector_alive s = true → connect_ s = false ∨ stopped (connector_ s) = true →
  on_connector (λ c, mret (Connector.stop c)) s ⇓ λ s', acted kept s s' ∧ stopped (connector_ s') = true ∧
    alive s' = alive s ∧ connection_ s' = connection_ s ∧ connector_alive s' = true ∧ connect_ s' = connect_ s.
Proof.
  intros Hs Ha Hcn. pose proof (on_connector_inv kept (λ c, mret (Connector.stop c)) s Hs Ha) as H. cbn in H.
  eapply yields_mono; [apply H|].
  - split_and!; [by apply Connector.stop_inv, Hs|done| |tauto|done].
    exists [FStopInLoop]. split; [done|]. intros Hne. split; [|by rewrite list_elem_of_singleton].
    destruct (connection_ s) eqn:E; [|done]. by eapply (ci_connection _ s Hs).
  - intros s' (? & _ & Hc & Hg & Hal & Hcn' & Hca & [= Hs'] & _ & Hq). split_and!; try done; [|by rewrite <- Hs'].
    split; [done|]. split; [done|]. intros i Hi. split; [congruence|]. apply Hq. congruence.
Qed.

Lemma stop_act_inv s : client_inv [] s → alive s = true → run_act AStop s ⇓ acted [] s.
Proof.
  intros Hs Hal. cbn. unfold on_client. rewrite Hal. unfold stop.
  pose proof (ci_alive _ s Hs) as Hok. unfold alive_ok in Hok. rewrite Hal in Hok.
  eapply yields_mono; [apply (stop_connector_inv []); [apply set_flags_inv; auto|by destruct Hok|by left]|].
  intros s' [? _]. by eapply acted_flags.
Qed.

Lemma disconnect_act_inv inLoop s : client_inv [] s → alive s = true → run_act (ADisconnect inLoop) s ⇓ acted [] s.
Proof.
  intros Hs Hal. cbn. unfold on_client. rewrite Hal. unfold disconnect. cbn.
  assert (client_inv [] (set_flags (retry_ s) false s)) as Hs' by (apply set_flags_inv; auto).
  destruct (connection_ s) as [id|] eqn:E; [|by apply acted_same].
  eapply yields_mono; [apply conn_shutdown_inv; [done|by apply (current_valid [])]|]. intros s'. apply acted_flags.
Qed.

(** The user takes a pointer, and gives one up. *)
Lemma hold_inv id s : client_inv [] s → valid id s = true → run_act (AHold id) s ⇓ acted [] s.
Proof.
  intros Hs Hv. unfold valid in Hv. destruct (objects s !! id) as [c|] eqn:Hc; [|done].
  apply negb_true_iff, bool_decide_eq_false in Hv.
  cbn. rewrite (find_conn_Ok id _ c) by done. cbn. apply acted_same; try done.
  eapply (client_inv_move [] [] s _ id c c); try done; [cbn; by rewrite insert_id|apply Hs|..].
  - intros i Hi. split; [done|]. by eapply (ci_connection _ s Hs).
  - intros id' Hne. unfold view_of. cbn. f_equal. apply bool_decide_ext. set_solver.
  - pose proof (ci_objects _ s Hs id) as Hk. unfold conn_ok in Hk. rewrite Hc in Hk. destruct Hk as [_ Hobj].
    assert (v_user (view_of [] id (set_holders ({[id]} ∪ holders s) (guard s) s)) = true) as Hu.
    { apply bool_decide_eq_true. cbn. set_solver. }
    assert (∀ v, v_user v = true → v_pend v = v_pend (view_of [] id s) → v_current v = v_current (view_of [] id s) →
      v_ran v = v_ran (view_of [] id s) →
      v_left v = v_left (view_of [] id s) → v_closing v = v_closing (view_of [] id s) → obj_inv id v c) as Hgen.
    { clear -Hobj Hv. intros v E1 E2 E3 E4 E5 E6. unfold obj_inv in *. rewrite E1, E2, E3, E4, E5, E6.
      destruct (c_life c) as [|[] [|[] [|[] [|[] [|]]]]]; try done; [tauto|tauto|]. destruct Hv. set_solver. }
    by apply Hgen.
Qed.

(** A step that leaves the connections as they are to every observer but [id]. *)
Lemma acted_release id s s' :
  client_inv [id] s' → guard s' = guard s → queue s' = queue s ∨ connection_ s' = None → connection_ s' = connection_ s ∨ connection_ s' = None →
  release id s' ⇓ acted [] s.
Proof.
  intros Hs' Hg Hq Hc. eapply yields_mono; [apply (release_inv id []); [done|apply not_elem_of_nil]|].
  intros s2 (? & (m & ->) & _). split; [done|]. split; [done|]. cbn. intros i Hi.
  destruct Hc as [<-|Hc]; [|congruence]. split; [done|]. change (queue (set_objects m s')) with (queue s').
  destruct Hq as [->|Hq]; [done|congruence].
Qed.

Lemma drop_inv id s : client_inv [] s → act_allowed (ADrop id) s = true → run_act (ADrop id) s ⇓ acted [] s.
Proof.
  intros Hs Ha. cbn in Ha. apply andb_true_iff in Ha as [Hin%bool_decide_eq_true Ha].
  cbn. apply acted_release; try done; [|by left..].
  pose proof (ci_objects _ s Hs id) as Hk. unfold conn_ok in Hk.
  assert (v_user (view_of [] id s) = true) as Hu by (by apply bool_decide_eq_true).
  destruct (objects s !! id) as [c|] eqn:Hc; [|rewrite Hk in Hu; done]. destruct Hk as [_ Hobj].
  unfold open_conn in Ha. rewrite Hc in Ha.
  eapply (client_inv_move [] [id] s _ id c c); try done; [cbn; by rewrite insert_id|apply Hs|..].
  - intros i Hi. split; [done|]. by eapply (ci_connection _ s Hs).
  - intros id' Hne. unfold view_of. cbn. f_equal; apply bool_decide_ext; set_solver.
  - assert (v_kept (view_of [id] id (set_holders (holders s ∖ {[id]}) (guard s) s)) = true) as Hkp
      by (apply bool_decide_eq_true; by left).
    assert (negb (is_open (c_state c)) = true ∨ v_current (view_of [] id s) = true ∨
      QForceClose id ∈ v_pend (view_of [] id s)) as Ha'.
    { rewrite !orb_true_iff in Ha. destruct Ha as [[?|?]|Hf%bool_decide_eq_true]; [by left|by right; left|].
      right; right. by apply elem_of_pend. }
    assert (∀ v, v_kept v = true → v_pend v = v_pend (view_of [] id s) → v_current v = v_current (view_of [] id s) →
      v_ran v = v_ran (view_of [] id s) →
      v_left v = v_left (view_of [] id s) → v_closing v = v_closing (view_of [] id s) → obj_inv id v c) as Hgen.
    { clear -Hobj Hu Ha'. intros v E1 E2 E3 E4 E5 E6. unfold obj_inv in *. rewrite E1, E2, E3, E4, E5, E6.
      destruct (c_life c) as [|[] [|[] [|[] [|[] [|]]]]]; try done; [|tauto|].
      - destruct Hobj as (Ho & Hobj). rewrite Ho in Ha'. destruct Ha' as [?|Ha']; [done|]. tauto.
      - destruct Hobj as (_ & _ & _ & _ & ? & _). congruence. }
    by apply Hgen.
Qed.

(** ** The destructor *)

(** The client leaves its connection behind. *)
Lemma leave_inv s id :
  client_inv [] s → alive s = true → connection_ s = Some id → connector_functors (queue s) = [] →
  guard s = Some id ∨ id ∈ holders s ∨ QForceClose id ∈ queue s →
  client_inv [id] (set_gone false (Some id) (set_connection None s)).
Proof.
  intros Hs Hal Hid Hq Hown. pose proof (ci_connector _ s Hs) as Hc.
  destruct (ci_connection _ s Hs id Hid) as [Hst _].
  split; try apply Hs; try done.
  - assert (Connector.queued (connector_ s) = []) as Hqd.
    { unfold Connector.queued. rewrite (ci_batch _ s Hs), (ci_pending _ s Hs), <- connector_functors_app. exact Hq. }
    unfold alive_ok. cbn. split_and!; [done|done| |].
    + destruct (inv_timers _ Hc) as [|[? _]]; [done|congruence].
    + apply (no_channel _ Hc); [congruence|by rewrite Hqd].
  - intros id'. pose proof (ci_objects _ s Hs id') as Hk. unfold conn_ok in *. cbn.
    destruct (decide (id' = id)) as [->|Hne].
    + destruct (current_conn [] s id) as (c & Hco & _ & Hobj); [done|by left|]. rewrite Hco in *.
      split; [apply Hk|]. clear Hk Hco. unfold view_of in *. cbn in *. rewrite Hal, Hid in Hobj. cbn in Hobj.
      rewrite (bool_decide_true (Some id = Some id)) in * by done.
      rewrite (bool_decide_true (id ∈ [id])) by (by left). rewrite (bool_decide_false (None = Some id)) by done.
      stages Hobj c; unfold obj_inv; rewrite Hlife; cbn.
      * destruct Hobj as (? & ? & Hg & ? & _). split_and!; try done. right. split; [done|].
        destruct Hown as [Hg'|[Hu|Hf]]; [by apply bool_decide_eq_false in Hg|left; by apply bool_decide_eq_true|].
        right. by apply elem_of_pend.
      * destruct Hobj as (? & Hobj). split; [done|]. destruct (bool_decide (guard s = Some id)); [|by destruct Hobj].
        destruct Hobj. auto.
      * by destruct Hobj as (_ & _ & ? & _).
      * by destruct Hobj as (_ & _ & ? & _).
    + assert (view_of [id] id' (set_gone false (Some id) (set_connection None s)) = view_of [] id' s) as ->; [|done].
      unfold view_of. cbn. rewrite Hal, Hid. cbn.
      rewrite (bool_decide_false (Some id = Some id')) by congruence.
      rewrite (bool_decide_false (id' ∈ [id])) by (by rewrite list_elem_of_singleton).
      rewrite (bool_decide_false (id' ∈ [])) by apply not_elem_of_nil. done.
Qed.

(** A connection that is not [unique] is held by someone who matters. *)
Lemma not_unique s id :
  client_inv [] s → connection_ s = Some id → unique id s = false →
  guard s = Some id ∨ id ∈ holders s ∨ QForceClose id ∈ queue s.
Proof.
  intros Hs Hid Hu. apply negb_false_iff in Hu. rewrite held_view in Hu.
  destruct (current_conn [] s id) as (c & _ & _ & Hobj); [done|by left|].
  assert (guard s = Some id ∨ v_closing (view_of [] id s) = false) as [?|Hg]; [|by left|].
  { destruct (decide (guard s = Some id)); [by left|right; by apply bool_decide_eq_false]. }
  assert (v_current (view_of [] id s) = true) as Hcur by (by apply bool_decide_eq_true).
  stages Hobj c.
  2: { rewrite Hg in Hobj. destruct Hobj as (_ & ? & _). congruence. }
  2-3: destruct Hobj as (_ & _ & ? & _); congruence.
  destruct Hobj as (_ & Hd & _ & Hr & _).
  unfold view_held in Hu. cbn in Hu, Hr, Hd, Hg. rewrite Hr, Hg in Hu. cbn in Hu. rewrite !orb_false_r in Hu.
  rewrite (bool_decide_false (None = Some id)) in Hu by done. cbn in Hu.
  apply orb_true_iff in Hu as [Hu%bool_decide_eq_true|Hp]; [auto|].
  apply existsb_exists in Hp as (f & Hin%list_elem_of_In & Hf%bool_decide_eq_true).
  right; right. change (f ∈ pend id (queue s)) in Hin. pose proof Hin as [Hcf Hq]%elem_of_pend.
  destruct f as [| |i|i]; try done; injection Hcf as ->; [done|]. by destruct Hd.
Qed.

Lemma unique_established s id :
  client_inv [] s → connection_ s = Some id → unique id s = true →
  ∃ c, objects s !! id = Some c ∧ c_life c = [LEstablished] ∧ is_open (c_state c) = true.
Proof.
  intros Hs Hid Hu. apply negb_true_iff in Hu. rewrite held_view in Hu. unfold view_held in Hu.
  rewrite !orb_false_iff in Hu. destruct Hu as ((((_ & _) & Hg) & _) & _). cbn in Hg.
  destruct (current_conn [] s id) as (c & Hc & _ & Hobj); [done|by left|]. exists c. split; [done|].
  assert (v_current (view_of [] id s) = true) as Hcur by (by apply bool_decide_eq_true).
  assert (v_closing (view_of [] id s) = false) as Hcl by done.
  stages Hobj c.
  - by destruct Hobj.
  - rewrite Hcl in Hobj. destruct Hobj as (_ & ? & _). congruence.
  - destruct Hobj as (_ & _ & ? & _). congruence.
  - destruct Hobj as (_ & _ & ? & _). congruence.
Qed.

Lemma destruct_inv s : client_inv [] s → act_allowed ADestruct s = true → run_act ADestruct s ⇓ acted [] s.
Proof.
  intros Hs Ha. cbn in Ha. apply andb_true_iff in Ha as [Hal Ha]. cbn. unfold on_client. rewrite Hal.
  pose proof (ci_alive _ s Hs) as Hok. unfold alive_ok in Hok. rewrite Hal in Hok. destruct Hok as (Hca & Hdet & Hsp).
  unfold TcpClient_destructor. destruct (connection_ s) as [id|] eqn:Hid.
  - assert (connector_functors (queue s) = []) as Hq.
    { apply orb_true_iff in Ha as [?%bool_decide_eq_true|?%bool_decide_eq_true]; [congruence|done]. }
    destruct (ci_connection _ s Hs id Hid) as [Hst _].
    assert (Connector.timers (connector_ s) = []) as Hti
      by (destruct (inv_timers _ (ci_connector _ s Hs)) as [|[? _]]; [done|congruence]).
    assert (∀ s2, client_inv [] s2 → connection_ s2 = Some id → alive s2 = true → connector_ s2 = connector_ s →
      guard s2 = guard s → connector_functors (queue s2) = [] →
      guard s2 = Some id ∨ id ∈ holders s2 ∨ QForceClose id ∈ queue s2 →
      (s3 ← (_ ← Connector_destructor (connector_ s2); mret (set_gone false (Some id) (set_connection None s2)));
       release id s3) ⇓ acted [] s) as Hleave.
    { intros s2 H1 H2 H3 H4 H5 H6 H7. pose proof (leave_inv s2 id H1 H3 H2 H6 H7) as Hl.
      pose proof (ci_alive _ _ Hl) as Hl'. unfold alive_ok in Hl'. cbn in Hl'. destruct Hl' as (_ & _ & _ & Hch).
      unfold Connector_destructor. rewrite bool_decide_true by done. cbn. apply acted_release; try done; by right. }
    destruct (unique id s) eqn:Hu.
    + destruct (unique_established s id Hs Hid Hu) as (c & Hc & Hlife & Ho).
      unfold forceClose. cbn. rewrite (find_conn_Ok id _ c) by (done || (rewrite Hlife; not_destructed)). cbn. rewrite Ho.
      unfold on_conn. cbn. rewrite (update_conn_Ok _ _ _ c (life_forceClose c)) by (done || (rewrite Hlife; not_destructed)).
      cbn. rewrite Hti. unfold life_forceClose. rewrite Ho.
      destruct (push_inv [] s id c (mkConn (c_name c) (c_loop c) (c_fd c) kDisconnecting (c_life c)) (QForceClose id))
        as [Hp _]; try done.
      apply (Hleave _ Hp); try done.
      * unfold queue in *. cbn. rewrite app_assoc, connector_functors_app, Hq. done.
      * right; right. unfold queue. cbn. rewrite app_assoc, elem_of_app, list_elem_of_singleton. auto.
    + cbn. rewrite Hti. apply (Hleave s); try done. by apply not_unique.
  - pose proof (set_flags_inv [] (retry_ s) false s Hs ltac:(auto)) as Hs'.
    pose proof (stop_connector_inv [] _ Hs' Hca ltac:(by left)) as Hstop.
    unfold on_connector in *. cbn in Hstop |- *. rewrite Hca in *. cbn in *.
    destruct Hstop as ([Hi [Hg Hpost]] & Hst & _).
    split; [|split; [done|cbn; congruence]].
    split; try apply Hi; [done|]. intros id'. pose proof (ci_objects _ _ Hi id') as Hk. unfold conn_ok in *. cbn in *.
    unfold view_of in *. cbn in *. by rewrite Hal, Hdet in *.
Qed.

Lemma run_act_inv a s : client_inv [] s → act_allowed a s = true → run_act a s ⇓ acted [] s.
Proof.
  intros Hs Ha. destruct a as [inLoop sockfd e|inLoop| | |inLoop id|id|id|id|].
  - by apply connect_act_inv.
  - by apply disconnect_act_inv.
  - by apply stop_act_inv.
  - cbn in *. unfold on_client. rewrite Ha. apply acted_same; try done. apply set_flags_inv; auto.
  - by apply conn_shutdown_inv.
  - by apply forceClose_inv.
  - by apply hold_inv.
  - by apply drop_inv.
  - by apply destruct_inv.
Qed.

Lemma run_acts_inv acts : ∀ s, client_inv [] s → acts_allowed acts s = true → run_acts acts s ⇓ acted [] s.
Proof.
  induction acts as [|a acts IH]; intros s Hs Ha; [by apply acted_same|].
  cbn in Ha |- *. apply andb_true_iff in Ha as [Ha Hrest]. pose proof (run_act_inv a s Hs Ha) as H1.
  destruct (run_act a s) as [s1|]; [|done]. cbn. destruct H1 as [Hs1 [Hg1 Hp1]].
  eapply yields_mono; [by apply IH|]. intros s2 [Hs2 [Hg2 Hp2]]. split; [done|]. split; [congruence|].
  intros i Hi. destruct (Hp2 i Hi) as [Hi1 Hr2]. destruct (Hp1 i Hi1) as [Hi0 Hr1]. auto.
Qed.

(** ** A connection closes *)

(** The state in which its [handleClose] starts: after an event, or when
    [forceCloseInLoop] has been taken off the queue. *)
Definition at_close (id : Z) (s s0 : TcpClient) : Prop :=
  s0 = s ∨ ∃ rest, batch s = QForceClose id :: rest ∧
    s0 = set_queue (ran s ++ [QForceClose id]) rest (pending s) s.

Lemma view_popped id id' f rest s :
  batch s = f :: rest → conn_of f = Some id → id' ≠ id →
  view_of [] id' (set_queue (ran s ++ [f]) rest (pending s) s) = view_of [] id' s.
Proof.
  intros Hb Hf Hne. unfold view_of, queue. cbn. rewrite Hb, <- app_comm_cons, pend_cons, decide_False by congruence.
  cbn. f_equal. apply bool_decide_ext. rewrite fmap_app, elem_of_app.
  split; [|by left]. intros [?|Hin]; [done|]. apply list_elem_of_singleton in Hin. destruct f; simplify_eq/=.
Qed.

Lemma close_begin_inv id s s0 c :
  client_inv [] s → guard s = None → at_close id s s0 → objects s !! id = Some c → is_open (c_state c) = true →
  close_begin id s0 ⇓ λ s1, client_inv [] s1 ∧ guard s1 = Some id ∧ connection_ s1 = connection_ s ∧ queue s1 = queue s0.
Proof.
  intros Hs Hg Hs0 Hc Ho. destruct (open_established [] s id c Hs Hc Ho) as [Hl Hobj].
  assert (objects s0 = objects s) as Ho0 by (by destruct Hs0 as [->|(? & _ & ->)]).
  unfold close_begin, on_conn. rewrite (update_conn_Ok _ _ _ c (live c kDisconnected LClosed));
    [|by rewrite Ho0|rewrite Hl; not_destructed|unfold life_closed; by rewrite Ho].
  cbn. split_and!; try done; [|by destruct Hs0 as [->|(? & _ & ->)]].
  assert (∀ id', id' ≠ id → view_of [] id' s0 = view_of [] id' s) as Hv.
  { destruct Hs0 as [->|(rest & Hb & ->)]; [done|]. intros id' Hne. by eapply view_popped. }
  eapply (client_inv_move [] [] s _ id c); try done.
  - destruct Hs0 as [->|(rest & Hb & ->)]; split; try done. cbn. by rewrite Hb.
  - cbn. by rewrite Ho0.
  - destruct Hs0 as [->|(rest & Hb & ->)]; [apply Hs|]. intros Hn. destruct (ci_phase _ s Hs Hn). congruence.
  - intros i Hi. assert (connection_ s = Some i) as Hi' by (by destruct Hs0 as [->|(? & _ & ->)]). split; [done|].
    destruct (ci_connection _ s Hs i Hi') as [_ Hr]. destruct Hs0 as [->|(rest & Hb & ->)]; [done|].
    unfold queue in *. cbn. rewrite Hb in Hr. apply Hr.
  - intros id' Hne. rewrite <- Hv by done. unfold view_of. cbn. f_equal.
    assert (guard s0 = None) as -> by (by destruct Hs0 as [->|(? & _ & ->)]).
    by rewrite !bool_decide_false by congruence.
  - unfold obj_inv in *. rewrite Hl in Hobj. cbn [live c_life c_state]. rewrite Hl. cbn in *.
    rewrite (bool_decide_true (Some id = Some id)) by done. split; [done|].
    destruct Hobj as (_ & Hd & _ & _ & Hown).
    destruct Hs0 as [->|(rest & Hb & ->)]; cbn; [split; [done|]; tauto|].
    split; [|tauto]. intros [_ Hin]%elem_of_pend. apply Hd, elem_of_pend. split; [done|].
    unfold queue in *. cbn in Hin. rewrite Hb. by right.
Qed.

Lemma held_queue id s : QDestroy id ∈ queue s → held id s = true.
Proof.
  intros Hin. unfold held, queue_holds. rewrite (bool_decide_true (Some id ∈ _)); [by rewrite !orb_true_r|].
  apply list_elem_of_fmap. exists (QDestroy id). split; [done|]. apply elem_of_app. by right.
Qed.

(** The end of [handleClose], whichever close callback the connection has. *)
Lemma removed_inv id s s' :
  client_inv [] s → guard s = Some id → v_left (view_of [] id s) = true ∨ connection_ s = Some id →
  QDestroy id ∉ queue s →
  s' = set_holders (holders s) None (queueInLoop (QDestroy id) (set_connection None s)) →
  client_inv [] s'.
Proof.
  intros Hs Hg Hown Hd ->. destruct (current_conn [] s id) as (c & Hc & _ & Hobj); [done|by right|].
  eapply (client_inv_move [] [] s _ id c c); try done.
  - split; try done. cbn. rewrite connector_functors_app. by rewrite app_nil_r.
  - cbn. by rewrite insert_id.
  - apply Hs.
  - intros id' Hne. unfold view_of. cbn. unfold queue. cbn. rewrite app_assoc, pend_queue_app, pend_queue_one, decide_False, app_nil_r by (cbn; congruence).
    f_equal; [|by rewrite Hg, !bool_decide_false by congruence].
    rewrite bool_decide_false by done. symmetry. apply bool_decide_eq_false. intros Hid'.
    destruct Hown as [Hl|?]; [|congruence]. cbn in Hl. apply andb_true_iff in Hl as [Hal%negb_true_iff _].
    pose proof (ci_alive _ s Hs) as Ha. unfold alive_ok in Ha. rewrite Hal in Ha. destruct Ha. congruence.
  - assert (v_closing (view_of [] id s) = true) as Hcl by (by apply bool_decide_eq_true).
    assert (v_pend (view_of [] id s) = pend id (queue s)) as Hpe by done.
    assert (pend id (queue (set_holders (holders s) None (queueInLoop (QDestroy id) (set_connection None s)))) =
            pend id (queue s) ++ [QDestroy id]) as Hq.
    { unfold queue. cbn. by rewrite app_assoc, pend_queue_app, pend_queue_one, decide_True by done. }
    unfold view_of, obj_inv. cbn. rewrite Hq, (bool_decide_false (None = Some id)) by done.
    stages Hobj c; rewrite Hcl in Hobj.
    + by destruct Hobj as (_ & _ & ? & _).
    + destruct Hobj as (? & _). split; [done|]. split; [done|]. exists (pend id (queue s)). split; [done|].
      intros [_ ?]%elem_of_pend. done.
    + by destruct Hobj as (_ & _ & _ & ? & _).
    + by destruct Hobj as (_ & _ & _ & ? & _).
Qed.

Lemma on_connector_guard f g s :
  on_connector f (set_holders (holders s) g s) =
  (s' ← on_connector f s; mret (set_holders (holders s') g s')).
Proof. unfold on_connector. cbn. destruct (connector_alive s); [|done]. by destruct (f (connector_ s)). Qed.

(** Starting again: the reset of the channel has run. *)
Lemma reconnect_inv sockfd e s :
  client_inv [] s → alive s = true → connection_ s = None → connect_ s = true →
  Connector.state_ (connector_ s) = Connector.kConnected → QConnector FResetChannel ∉ queue s →
  reconnect sockfd e s ⇓ λ s', client_inv [] s' ∧ guard s' = guard s ∧ (∀ f, f ∈ queue s → f ∈ queue s').
Proof.
  intros Hs Hal Hn Hcn Hst Hr. pose proof (ci_alive _ s Hs) as Ha. unfold alive_ok in Ha. rewrite Hal in Ha.
  destruct Ha as (Hca & _ & Hsp).
  assert (stopped (connector_ s) = false) as Hnsp by (destruct (stopped (connector_ s)); [|done]; by rewrite Hsp in Hcn).
  assert (started (connector_ s) = true) as Hstd.
  { destruct (started (connector_ s)) eqn:E; [done|].
    destruct (inv_unstarted _ (ci_connector _ s Hs) E) as [[Hd _] _]. congruence. }
  pose proof (restart_inv sockfd e (connector_ s) (ci_connector _ s Hs)) as Hre.
  assert (Connector.allowed (Connector.IRestart sockfd e) (connector_ s) = true) as Hall.
  { cbn. rewrite Hnsp, Hstd, bool_decide_true by done. cbn. apply Nat.eqb_eq.
    unfold Connector.queued. rewrite (ci_batch _ s Hs), (ci_pending _ s Hs), <- connector_functors_app.
    fold (queue s). unfold occurrences. apply length_zero_iff_nil, filter_none. intros f Hf Hsame.
    destruct f; try done. apply Hr, elem_of_connector_functors, Hf. }
  specialize (Hre Hall). unfold reconnect.
  eapply yields_mono; [apply (on_connector_inv [] _ s Hs Hca)|].
  - destruct (restart sockfd e (connector_ s)) as [c|] eqn:E; [|done]. cbn in Hre |- *.
    apply restart_quiet in E as [Hb [new Hp] _ _ Hs']. split_and!; try done; [|rewrite Hs'; auto|by rewrite Hs'].
    exists new. by rewrite Hn.
  - intros s' (? & _ & _ & ? & _ & _ & _ & _ & [new Hq] & _). split_and!; [done..|].
    intros f Hin. rewrite Hq. apply elem_of_app. by left.
Qed.

(** The connection whose [handleClose] is running. *)
Lemma closing_conn s id :
  client_inv [] s → guard s = Some id →
  QDestroy id ∉ queue s ∧ (v_left (view_of [] id s) = true ∧ alive s = false ∧ detached s = Some id ∨
                           connection_ s = Some id ∧ alive s = true ∧ detached s = None).
Proof.
  intros Hs Hg. destruct (current_conn [] s id) as (c & _ & _ & Hobj); [done|by right|].
  assert (v_closing (view_of [] id s) = true) as Hcl by (by apply bool_decide_eq_true).
  pose proof (ci_alive _ s Hs) as Hok. unfold alive_ok in Hok.
  stages Hobj c; rewrite Hcl in Hobj.
  - by destruct Hobj as (_ & _ & ? & _).
  - destruct Hobj as (_ & Hd & Hown). split.
    { intros Hin. by apply Hd, elem_of_pend. }
    destruct Hown as [Hc%bool_decide_eq_true|Hl].
    + right. destruct (alive s); [by destruct Hok as (_ & ? & _)|by destruct Hok; congruence].
    + left. split; [done|]. cbn in Hl. apply andb_true_iff in Hl as [?%negb_true_iff ?%bool_decide_eq_true]. done.
  - by destruct Hobj as (_ & _ & _ & ? & _).
  - by destruct Hobj as (_ & _ & _ & ? & _).
Qed.

Lemma closeCallback_inv id sockfd e s :
  client_inv [] s → guard s = Some id → (connection_ s = Some id → QConnector FResetChannel ∉ queue s) →
  (s' ← closeCallback_ id sockfd e s; mret (set_holders (holders s') None s')) ⇓ λ s',
    client_inv [] s' ∧ guard s' = None ∧ QDestroy id ∈ queue s'.
Proof.
  intros Hs Hg Hr. destruct (closing_conn s id Hs Hg) as [Hd Hown]. unfold closeCallback_.
  assert (QDestroy id ∈ queue (queueInLoop (QDestroy id) s)) as Hin.
  { unfold queue. cbn. rewrite app_assoc, elem_of_app, list_elem_of_singleton. by right. }
  destruct Hown as [(Hl & Hal & Hdet)|(Hid & Hal & Hdet)]; rewrite Hdet.
  - rewrite bool_decide_true by done. cbn. split_and!; [|done|exact Hin].
    pose proof (ci_alive _ s Hs) as Hok. unfold alive_ok in Hok. rewrite Hal in Hok. destruct Hok as [Hn _].
    eapply (removed_inv id s); try done; [by left|]. by destruct s; cbn in *; subst.
  - rewrite bool_decide_false, Hal by done. unfold removeConnection, forget_connection. rewrite bool_decide_true by done. cbn.
    pose proof (removed_inv id s _ Hs Hg (or_intror Hid) Hd eq_refl) as Hs'.
    destruct (retry_ s && connect_ s) eqn:Hagain; [|by split_and!].
    apply andb_true_iff in Hagain as [_ Hcn]. unfold reconnect.
    set (s2 := queueInLoop (QDestroy id) (set_connection None s)) in *.
    change (holders s) with (holders s2) in Hs'. fold (reconnect sockfd e s2). unfold reconnect.
    rewrite <- (on_connector_guard (restart sockfd e) None s2).
    eapply yields_mono; [apply reconnect_inv; try done|].
    + by eapply (ci_connection _ s Hs).
    + unfold queue. cbn. rewrite app_assoc, elem_of_app, list_elem_of_singleton. intros [?|?]; [by apply Hr|done].
    + intros s3 (? & ? & Hq). split_and!; [done..|]. by apply Hq.
Qed.

Lemma handleClose_inv id acts sockfd e s s0 c :
  client_inv [] s → guard s = None → at_close id s s0 → objects s !! id = Some c → is_open (c_state c) = true →
  close_allowed id acts s0 = true → (connection_ s = Some id → QConnector FResetChannel ∉ queue s0) →
  handleClose id acts sockfd e s0 ⇓ λ s', client_inv [] s' ∧ guard s' = None.
Proof.
  intros Hs Hg Hs0 Hc Ho Ha Hr. pose proof (close_begin_inv id s s0 c Hs Hg Hs0 Hc Ho) as H1.
  unfold handleClose, close_allowed in *. destruct (close_begin id s0) as [s1|]; [|done]. cbn.
  destruct H1 as (Hs1 & Hg1 & Hc1 & Hq1). pose proof (run_acts_inv acts s1 Hs1 Ha) as H2.
  destruct (run_acts acts s1) as [s2|]; [|done]. cbn. destruct H2 as [Hs2 [Hg2 Hp2]].
  assert (connection_ s2 = Some id → QConnector FResetChannel ∉ queue s2) as Hr2.
  { intros Hi. destruct (Hp2 id Hi) as [Hi1 Hr2]. apply Hr2. rewrite Hq1. apply Hr. congruence. }
  pose proof (closeCallback_inv id sockfd e s2 Hs2 ltac:(congruence) Hr2) as H3.
  destruct (closeCallback_ id sockfd e s2) as [s3|]; [|done]. cbn in *. destruct H3 as (Hs3 & Hg3 & Hq3).
  unfold release. rewrite held_queue by done. done.
Qed.

(** ** The events of the loop *)

Definition ready (s : TcpClient) : Prop := client_inv [] s ∧ guard s = None.

Lemma event_connecting error write err self c :
  connector_inv c → Connector.allowed (Connector.IEvent error write err self) c = true →
  Connector.state_ c = Connector.kConnecting.
Proof.
  intros Hc Ha. apply andb_true_iff in Ha as [_ Hch]. pose proof (inv_sockets c Hc) as Hk.
  destruct (Connector.channel_ c) as [ch|]; [|done].
  destruct (Connector.state_ c); [|done|]; destruct Hk as [_ Hk]; specialize (Hk _ eq_refl); congruence.
Qed.

Lemma not_connected s : client_inv [] s → Connector.state_ (connector_ s) ≠ Connector.kConnected → connection_ s = None.
Proof. intros Hs Hst. destruct (connection_ s) eqn:E; [|done]. by destruct (ci_connection _ s Hs _ E). Qed.

Lemma client_newConnection_inv peer sockfd s :
  ready s → alive s = true → connection_ s = None → nextConnId_ s + 1 < 2 ^ 31 →
  Connector.state_ (connector_ s) = Connector.kConnected → newConnection peer sockfd s ⇓ ready.
Proof.
  intros [Hs Hg] Hal Hn Hmax Hst. pose proof (ci_next _ s Hs) as Hnext.
  unfold newConnection, iadd. rewrite checked_i32_ok by lia. cbn. rewrite Hn. cbn.
  unfold on_conn. cbn. erewrite update_conn_Ok; [|apply lookup_insert_eq|not_destructed|done]. cbn.
  rewrite insert_insert_eq. set (id := nextConnId_ s) in *. set (c := live _ _ _).
  pose proof (ci_objects _ s Hs id) as Hk. unfold conn_ok in Hk.
  assert (view_of [] id s = idle) as Hid by (destruct (objects s !! id); [destruct Hk; lia|done]).
  split; [|done]. split; try apply Hs; cbn; [lia|..].
  - intros i [= <-]. split; [done|]. apply reset_first_none. change (queue _) with (queue s). intros Hin.
    pose proof (f_equal v_pend Hid) as Hp. cbn in Hp. apply (not_elem_of_nil (QForceClose id)). rewrite <- Hp.
    by apply elem_of_pend.
  - pose proof (ci_alive _ s Hs) as Ha. unfold alive_ok in *. cbn. by rewrite Hal in *.
  - intros id'. unfold conn_ok. cbn. destruct (decide (id' = id)) as [->|Hne].
    + rewrite lookup_insert_eq. split; [lia|]. unfold obj_inv. cbn.
      pose proof (f_equal v_pend Hid) as H1. pose proof (f_equal v_ran Hid) as H2.
      pose proof (f_equal v_closing Hid) as H7. cbn in H1, H2, H7. change (pend id (queue _)) with (pend id (queue s)).
      rewrite H1, H2, H7, (bool_decide_true (Some id = Some id)) by done.
      split_and!; try done; [apply not_elem_of_nil|by left].
    + rewrite lookup_insert_ne by done. pose proof (ci_objects _ s Hs id') as Hk'. unfold conn_ok in Hk'.
      assert (view_of [] id' s = view_of [] id' (mkTcpClient (alive s) (connector_ s) (connector_alive s) (name_ s)
        (retry_ s) (connect_ s) (id + 1) (Some id) (detached s) (<[id:=c]> (objects s)) (holders s) (guard s) (ran s)
        (batch s) (pending s))) as Hv.
      { unfold view_of. cbn. rewrite Hn. f_equal. by rewrite !bool_decide_false by congruence. }
      rewrite Hv in Hk'. destruct (objects s !! id'); [|exact Hk']. destruct Hk'. split; [lia|done].
Qed.

Lemma handleEvent_inv error write err self peer s :
  ready s → allowed (IEvent error write err self peer) s = true → exec (IEvent error write err self peer) s ⇓ ready.
Proof.
  intros [Hs Hg] Ha. cbn [allowed] in Ha. rewrite !andb_true_iff, Z.ltb_lt in Ha. destruct Ha as ((Hca & Hmax) & Hev).
  pose proof (ci_connector _ s Hs) as Hc. pose proof (event_connecting _ _ _ _ _ Hc Hev) as Hst.
  assert (connection_ s = None) as Hn by (apply not_connected; [done|congruence]).
  pose proof (exec_inv _ _ Hc Hev) as Hex. cbn [Connector.exec] in Hex. cbn [exec]. unfold handleEvent.
  pose proof (on_connector_inv [] (Connector.handleEvent error write err self) s Hs Hca) as Hon.
  destruct (Connector.handleEvent error write err self (connector_ s)) as [c|] eqn:E; [|done]. cbn in Hex.
  pose proof (handleEvent_hands_on _ _ _ _ _ _ E) as Hh.
  assert (Connector.batch c = Connector.batch (connector_ s) ∧
    (∃ new, Connector.pendingFunctors_ c = Connector.pendingFunctors_ (connector_ s) ++ new) ∧
    stopped c = stopped (connector_ s)) as (Hb & [new Hp] & Hsp).
  { destruct Hh as [[] | (c1 & fd & [] & -> & _)]; done. }
  destruct (on_connector _ s) as [s1|]; cbn in Hon |- *.
  2: { apply Hon. split_and!; try done; [|rewrite Hsp; auto|by rewrite Hsp]. exists new. by rewrite Hn. }
  destruct Hon as (Hs1 & Hn1 & Hc1 & Hg1 & Hal1 & _ & Hca1 & [= Hcc] & _).
  { split_and!; try done; [|rewrite Hsp; auto|by rewrite Hsp]. exists new. by rewrite Hn. }
  assert (ready s1) as Hr1 by (split; [done|congruence]). rewrite <- Hcc.
  destruct Hh as [[_ _ _ Hd _] | (c1 & fd & [_ _ _ Hd _] & Hc' & Hst' & Hcn)].
  { by rewrite Hd, drop_all. }
  assert (Connector.delivered c = Connector.delivered (connector_ s) ++ [fd]) as ->.
  { rewrite Hc'. cbn. by rewrite Hd. }
  rewrite drop_app_length. unfold on_client.
  assert (alive s1 = true) as Hal.
  { destruct (alive s1) eqn:Hal; [done|]. pose proof (ci_alive _ s1 Hs1) as Ha. unfold alive_ok in Ha.
    rewrite Hal, Hca1 in Ha. destruct Ha as [_ Ha]. destruct (inv_stop _ (ci_connector _ s1 Hs1) Ha) as [Hf _]. congruence. }
  rewrite Hal. apply client_newConnection_inv; try done; [congruence| |congruence].
  rewrite Hn1. lia.
Qed.

Lemma timer_event_inv i sockfd e s :
  ready s → allowed (ITimer i sockfd e) s = true → exec (ITimer i sockfd e) s ⇓ ready.
Proof.
  intros [Hs Hg] Ha. cbn [allowed] in Ha. apply andb_true_iff in Ha as [Hca Ha].
  pose proof (ci_connector _ s Hs) as Hc. pose proof (exec_inv _ _ Hc Ha) as Hex.
  assert (connection_ s = None) as Hn.
  { apply not_connected; [done|]. cbn in Ha. apply andb_true_iff in Ha as [_ Ha].
    destruct (inv_timers _ Hc) as [Ht|[? _]]; [by rewrite Ht in Ha|congruence]. }
  cbn [exec]. eapply yields_mono; [apply (on_connector_inv [] _ s Hs Hca)|].
  - destruct (Connector.exec (Connector.ITimer i sockfd e) (connector_ s)) as [c|] eqn:E; [|done]. cbn in Hex |- *.
    cbn in E. apply startInLoop_quiet in E as [Hb [new Hp] _ _ Hsp]. cbn in Hb, Hp, Hsp.
    split_and!; try done; [|rewrite Hsp; auto|by rewrite Hsp]. exists new. by rewrite Hn.
  - intros s' (? & _ & _ & ? & _). split; [done|congruence].
Qed.

Lemma begin_inv s : ready s → allowed IBeginFunctors s = true → exec IBeginFunctors s ⇓ ready.
Proof.
  intros [Hs Hg] Ha. pose proof (exec_inv _ _ (ci_connector _ s Hs) Ha) as Hex.
  cbn in Ha. apply bool_decide_eq_true in Ha. destruct (ci_phase _ s Hs Ha) as [Hb Hr].
  cbn in Hex |- *. split; [|done].
  assert (queue (set_queue [] (pending s) [] (set_connector (Connector.set_loop (Connector.turn (connector_ s))
    (Some (Connector.pendingFunctors_ (connector_ s))) [] (connector_ s)) [] s)) = queue s) as Hq.
  { unfold queue. cbn. by rewrite Hb, app_nil_r. }
  eapply (client_inv_connector [] s); try done.
  - intros id. unfold view_of. rewrite Hq. cbn. by rewrite Hr.
  - cbn. apply Hs.
  - cbn. intros id Hid. rewrite Hq. by apply (ci_connection _ s Hs id).
  - pose proof (ci_alive _ s Hs) as Hok. unfold alive_ok in *. rewrite Hq. cbn. exact Hok.
Qed.

(** The functors of a turn go away together. *)
Lemma release_all_inv ids : ∀ s, NoDup ids → client_inv ids s → guard s = None → release_all ids s ⇓ ready.
Proof.
  induction ids as [|id ids IH]; intros s Hnd Hs Hg; [done|].
  apply NoDup_cons in Hnd as [Hid Hnd]. pose proof (release_inv id ids s Hs Hid) as H1.
  cbn. destruct (release id s) as [s1|]; [|done]. destruct H1 as (Hs1 & (m & ->) & _). by apply IH.
Qed.

Lemma elem_of_refs id q : id ∈ remove_dups (omap ref_of q) ↔ Some id ∈ ref_of <$> q.
Proof.
  rewrite elem_of_remove_dups, list_elem_of_omap, list_elem_of_fmap. split; intros (f & ? & ?); by exists f.
Qed.

Lemma end_inv s : ready s → allowed IEndFunctors s = true → exec IEndFunctors s ⇓ ready.
Proof.
  intros [Hs Hg] Ha. cbn in Ha. apply andb_true_iff in Ha as [Hb%bool_decide_eq_true Hn%negb_true_iff].
  apply bool_decide_eq_false in Hn. pose proof (ci_batch _ s Hs) as Hcb. rewrite Hb in Hcb.
  assert (Connector.allowed Connector.IEndFunctors (connector_ s) = true) as Hall.
  { cbn. apply bool_decide_eq_true. destruct (Connector.batch (connector_ s)) as [b|]; [|done]. by cbn in Hcb; subst. }
  pose proof (exec_inv _ _ (ci_connector _ s Hs) Hall) as Hex. cbn in Hex |- *.
  apply release_all_inv; [apply NoDup_remove_dups| |done].
  assert (queue s = pending s) as Hq by (unfold queue; by rewrite Hb).
  split; cbn; try done; try apply Hs.
  - intros id Hid. unfold queue. cbn. rewrite <- Hq. by apply (ci_connection _ s Hs id).
  - pose proof (ci_alive _ s Hs) as Hok. unfold alive_ok in *. rewrite Hq in Hok. exact Hok.
  - intros id. pose proof (ci_objects _ s Hs id) as Hk. unfold conn_ok in *. cbn.
    assert (view_of (remove_dups (omap ref_of (ran s))) id (set_queue [] [] (pending s)
      (set_connector (Connector.set_loop (S (Connector.turn (connector_ s))) None
        (Connector.pendingFunctors_ (connector_ s)) (connector_ s)) (pending s) s)) =
      let v := view_of [] id s in
      mkView (v_pend v) false (v_ran v) (v_current v) (v_left v) (v_user v) (v_closing v)) as ->.
    { unfold view_of. rewrite Hq. unfold queue. cbn. f_equal.
      apply bool_decide_ext, elem_of_refs. }
    destruct (objects s !! id) as [c|]; [|by rewrite Hk].
    destruct Hk as [? Hobj]. split; [done|]. cbn zeta. clear -Hobj.
    destruct (view_of [] id s) as [p r k cu l u cl] eqn:Hv. pose proof (f_equal v_kept Hv) as Hkept. cbn in Hkept. subst k.
    rewrite (bool_decide_false (id ∈ [])) in Hobj by apply not_elem_of_nil.
    stages Hobj c; unfold obj_inv; rewrite Hlife; cbn; [tauto|exact Hobj| |tauto].
    destruct Hobj as (? & ? & ? & ? & [?|[?|?]]); by auto 10.
Qed.

(** ** The functors *)

(** The connector's functor, when a connection exists: it leaves the state and
    queues no reset. *)
Lemma connector_functor_connected f sockfd e c c' :
  Connector.state_ c = Connector.kConnected → Connector.run_functor f sockfd e c = Ok c' →
  Connector.state_ c' = Connector.kConnected ∧ Connector.pendingFunctors_ c' = Connector.pendingFunctors_ c.
Proof.
  intros Hst E. destruct f; cbn in E.
  - unfold startInLoop in E. by rewrite Hst in E.
  - unfold stopInLoop in E. rewrite Hst in E. by injection E as <-.
  - by injection E as <-.
Qed.

Lemma functor_connector_inv f rest acts sockfd e s :
  ready s → batch s = QConnector f :: rest → exec (IFunctor acts sockfd e) s ⇓ ready.
Proof.
  intros [Hs Hg] Hb. pose proof (ci_batch _ s Hs) as Hcb. rewrite Hb in Hcb.
  change (connector_functors (QConnector f :: rest)) with (f :: connector_functors rest) in Hcb.
  destruct (Connector.batch (connector_ s)) as [b|] eqn:Eb; [|done]. cbn in Hcb. subst b.
  assert (connector_alive s = true) as Hca.
  { destruct (connector_alive s) eqn:E; [done|]. pose proof (ci_alive _ s Hs) as Hok. unfold alive_ok in Hok. rewrite E in Hok.
    destruct (alive s); [by destruct Hok|]. destruct Hok as (_ & Hq & _). unfold queue in Hq. rewrite Hb in Hq. done. }
  assert (Connector.allowed (Connector.IFunctor sockfd e) (connector_ s) = true) as Hall by (cbn; by rewrite Eb).
  pose proof (exec_inv _ _ (ci_connector _ s Hs) Hall) as Hex. cbn [exec]. rewrite Hb. cbn [run_functor].
  unfold on_connector. cbn [connector_alive set_queue connector_]. rewrite Hca.
  destruct (Connector.exec (Connector.IFunctor sockfd e) (connector_ s)) as [c|] eqn:E; [|done]. cbn in Hex |- *.
  cbn in E. rewrite Eb in E. pose proof (run_functor_quiet _ _ _ _ _ E) as [Hqb [new Hp] _ _ Hsp]. cbn in Hqb, Hp, Hsp.
  rewrite Hp, drop_app_length. split; [|done].
  assert (∀ s', batch s' = rest → pending s' = pending s ++ (QConnector <$> new) →
    ∀ id, pend id (queue s') = pend id (queue s)) as Hpend.
  { intros s' H1 H2 id. unfold queue. rewrite H1, H2, Hb, app_assoc, !pend_queue_app, pend_connector, pend_cons. cbn.
    by rewrite app_nil_r. }
  eapply (client_inv_connector [] s); try done; cbn.
  - intros id. unfold view_of. cbn. f_equal; [by apply Hpend|]. apply bool_decide_ext.
    rewrite fmap_app, elem_of_app. split; [|by left]. intros [?|Hin]; [done|]. apply list_elem_of_singleton in Hin. done.
  - by rewrite Hqb.
  - rewrite Hp, connector_functors_app, connector_functors_fmap. f_equal. apply Hs.
  - by rewrite Hqb.
  - intros id Hid. destruct (ci_connection _ s Hs id Hid) as [Hst Hr].
    destruct (λ H, connector_functor_connected f sockfd e _ c H E) as [Hst' Hp']; [exact Hst|]. split; [done|].
    rewrite Hp in Hp'. cbn in Hp'. rewrite <- (app_nil_r (Connector.pendingFunctors_ _)) in Hp' at 2. apply app_inv_head in Hp'. subst new.
    unfold queue in *. cbn. rewrite app_nil_r. rewrite Hb in Hr. apply Hr.
  - pose proof (ci_alive _ s Hs) as Hok. unfold alive_ok in *. cbn. rewrite Hca, Hsp in *. exact Hok.
Qed.

(** A functor of a connection that is queued finds it alive. *)
Lemma functor_conn s f rest id :
  ready s → batch s = f :: rest → conn_of f = Some id →
  ∃ c p, objects s !! id = Some c ∧ LDestructed ∉ c_life c ∧ pend id (queue s) = f :: p ∧
    (c_life c = [LEstablished] ∧ is_open (c_state c) = true ∧ f ≠ QDestroy id ∨
     c_life c = [LEstablished; LClosed] ∧ c_state c = kDisconnected ∧ connection_ s ≠ Some id ∧
     ((f = QDestroy id ∧ p = []) ∨ (f ≠ QDestroy id ∧ ∃ l, p = l ++ [QDestroy id] ∧ QDestroy id ∉ l))) ∧
    obj_inv id (view_of [] id s) c.
Proof.
  intros [Hs Hg] Hb Hf. pose proof (ci_objects _ s Hs id) as Hk. unfold conn_ok in Hk.
  assert (pend id (queue s) = f :: pend id (rest ++ pending s)) as Hp.
  { unfold queue. rewrite Hb. cbn. by rewrite pend_cons, decide_True. }
  destruct (objects s !! id) as [c|]; [|apply (f_equal v_pend) in Hk; cbn in Hk; congruence].
  destruct Hk as [_ Hobj]. exists c, (pend id (rest ++ pending s)). pose proof Hobj as Hobj'.
  assert (v_closing (view_of [] id s) = false) as Hcl by (apply bool_decide_eq_false; by rewrite Hg).
  assert (v_pend (view_of [] id s) = pend id (queue s)) as Hv by done. rewrite Hp in Hv.
  stages Hobj' c.
  - destruct Hobj' as (Ho & Hd & _). rewrite Hv in Hd. split_and!; try done; [not_destructed|]. left. split_and!; try done.
    intros ->. apply Hd. by left.
  - rewrite Hcl, Hv in Hobj'. destruct Hobj' as (Hst & Hcur & l & Hl & Hd). cbn in Hcur. apply bool_decide_eq_false in Hcur.
    split_and!; try done; [not_destructed|]. right. split_and!; try done. destruct l as [|g l]; injection Hl as -> Hl; [auto|].
    right. split; [intros ->; apply Hd; by left|]. exists l. split; [done|]. intros ?. apply Hd. by right.
  - destruct Hobj' as (_ & Hn & _). congruence.
  - destruct Hobj' as (_ & Hn & _). congruence.
Qed.

(** Taking a functor of a connection off the queue. *)
Lemma pop_inv s f rest id c c' :
  ready s → batch s = f :: rest → conn_of f = Some id → objects s !! id = Some c →
  obj_inv id (view_of [] id (set_queue (ran s ++ [f]) rest (pending s) s)) c' →
  ready (set_objects (<[ id := c' ]> (objects s)) (set_queue (ran s ++ [f]) rest (pending s) s)).
Proof.
  intros [Hs Hg] Hb Hf Hc Hobj. split; [|done]. eapply (client_inv_move [] [] s _ id c c'); try done.
  - split; try done. cbn. rewrite Hb. by destruct f.
  - intros Hn. destruct (ci_phase _ s Hs Hn). congruence.
  - intros i Hi. split; [done|]. destruct (ci_connection _ s Hs i Hi) as [_ Hr]. unfold queue in *. rewrite Hb in Hr.
    apply Hr.
  - intros id' Hne. by eapply view_popped.
Qed.

Lemma view_popped_self s f rest id p :
  batch s = f :: rest → conn_of f = Some id → pend id (queue s) = f :: p →
  let s' := set_queue (ran s ++ [f]) rest (pending s) s in
  view_of [] id s' = mkView p (v_ran (view_of [] id s) || bool_decide (ref_of f = Some id)) false
    (v_current (view_of [] id s)) (v_left (view_of [] id s)) (v_user (view_of [] id s)) (v_closing (view_of [] id s)).
Proof.
  intros Hb Hf Hp s'. subst s'. unfold view_of. cbn. f_equal.
  - unfold queue in *. rewrite Hb in Hp. cbn in *. rewrite pend_cons, decide_True in Hp by done. by injection Hp.
  - apply eq_true_iff_eq. rewrite orb_true_iff, !bool_decide_eq_true, fmap_app, elem_of_app.
    apply or_iff_compat_l. change (ref_of <$> [f]) with [ref_of f].
    rewrite list_elem_of_singleton. split; intros E; by symmetry.
Qed.

Lemma set_objects_id s id c : objects s !! id = Some c → set_objects (<[ id := c ]> (objects s)) s = s.
Proof. intros Hc. rewrite insert_id by done. by destruct s. Qed.

Lemma functor_shutdown_inv id rest acts sockfd e s :
  ready s → batch s = QShutdown id :: rest → exec (IFunctor acts sockfd e) s ⇓ ready.
Proof.
  intros Hs Hb. destruct (functor_conn s _ rest id Hs Hb eq_refl) as (c & p & Hc & Hd & Hp & Hstage & Hobj).
  cbn [exec]. rewrite Hb. cbn [run_functor]. cbn [objects set_queue]. rewrite (find_conn_Ok id _ c) by done. cbn.
  rewrite <- (set_objects_id _ id c) by done. apply (pop_inv s _ rest id c c); try done.
  erewrite view_popped_self by done. cbn. rewrite orb_false_r.
  destruct Hstage as [(Hl & Ho & _)|(Hl & Hst & Hn & [[? _]|(_ & l & -> & Hld)])]; [|done|];
    unfold obj_inv in *; rewrite Hl in *; cbn in *; rewrite Hp in Hobj; cbn in Hobj.
  - rewrite !elem_of_cons in Hobj. destruct Hobj as (_ & Hnd & Hcl & Hr & Hown).
    split_and!; try done; [intros ?; apply Hnd; by right|]. destruct Hown as [?|[? [?|[?|?]]]]; auto. done.
  - destruct Hs as [_ Hg]. rewrite (bool_decide_false (guard s = Some id)) in * by congruence.
    split; [done|]. split; [by destruct Hobj as (_ & ? & _)|by exists l].
Qed.

Lemma functor_destroy_inv id rest acts sockfd e s :
  ready s → batch s = QDestroy id :: rest → exec (IFunctor acts sockfd e) s ⇓ ready.
Proof.
  intros Hs Hb. destruct (functor_conn s _ rest id Hs Hb eq_refl) as (c & p & Hc & Hd & Hp & Hstage & Hobj).
  destruct Hstage as [(_ & _ & ?)|(Hl & Hst & Hn & [[_ ->]|[? _]])]; [done| |done].
  cbn [exec]. rewrite Hb. cbn [run_functor]. unfold on_conn.
  rewrite (update_conn_Ok _ _ _ c (live c kDisconnected LDestroyed)) by (done || (unfold life_destroyed; by rewrite Hst)).
  apply (pop_inv s _ rest id c); try done. erewrite view_popped_self by done.
  unfold obj_inv. cbn. rewrite Hl. cbn. destruct Hs as [_ Hg].
  rewrite !bool_decide_false by congruence. split_and!; try done.
  rewrite (bool_decide_true (Some id = Some id)), orb_true_r by done. right; by left.
Qed.

Lemma reset_first_head id q : reset_first id (QForceClose id :: q) → QConnector FResetChannel ∉ q.
Proof. intros [H _]. by apply H. Qed.

Lemma functor_forceClose_inv id rest acts sockfd e s :
  ready s → batch s = QForceClose id :: rest → allowed (IFunctor acts sockfd e) s = true →
  exec (IFunctor acts sockfd e) s ⇓ ready.
Proof.
  intros Hs Hb Ha. destruct (functor_conn s _ rest id Hs Hb eq_refl) as (c & p & Hc & Hd & Hp & Hstage & Hobj).
  cbn [exec]. rewrite Hb. cbn [run_functor]. cbn [objects set_queue]. rewrite (find_conn_Ok id _ c) by done. cbn.
  cbn [allowed] in Ha. rewrite Hb in Ha. unfold open_conn in Ha. rewrite Hc in Ha.
  destruct Hstage as [(Hl & Ho & _)|(Hl & Hst & Hn & [[? _]|(_ & l & -> & Hld)])]; [|done|].
  - rewrite Ho in *. cbn in Ha. destruct Hs as [Hs Hg]. apply (handleClose_inv id acts sockfd e s _ c); try done.
    + right. by exists rest.
    + intros Hid. destruct (ci_connection _ s Hs id Hid) as [_ Hr]. unfold queue in *. cbn. rewrite Hb in Hr.
      by apply (reset_first_head id).
  - rewrite Hst. cbn. rewrite <- (set_objects_id _ id c) by done. apply (pop_inv s _ rest id c c); try done.
    erewrite view_popped_self by done. unfold obj_inv in *. rewrite Hl in *. cbn in *.
    destruct Hs as [_ Hg]. rewrite (bool_decide_false (guard s = Some id)) in * by congruence.
    split; [done|]. split; [by destruct Hobj as (_ & ? & _)|by exists l].
Qed.

Lemma no_reset_later s id :
  client_inv [] s → connection_ s = Some id →
  (Connector.connected_at (connector_ s) < Connector.turn (connector_ s))%nat → QConnector FResetChannel ∉ queue s.
Proof.
  intros Hs Hid Hlt Hin. destruct (ci_connection _ s Hs id Hid) as [Hst _].
  destruct (inv_connected _ (ci_connector _ s Hs) Hst) as [Hat _].
  assert (Connector.connected_at (connector_ s) = Connector.turn (connector_ s)); [|lia]. apply Hat.
  unfold Connector.queued. rewrite (ci_batch _ s Hs), (ci_pending _ s Hs), <- connector_functors_app. fold (queue s).
  apply elem_of_connector_functors in Hin. unfold occurrences. intros Hz%length_zero_iff_nil.
  apply (not_elem_of_nil FResetChannel). rewrite <- Hz. by apply list_elem_of_filter.
Qed.

Lemma close_event_inv id acts sockfd e s :
  ready s → allowed (IClose id acts sockfd e) s = true → exec (IClose id acts sockfd e) s ⇓ ready.
Proof.
  intros [Hs Hg] Ha. cbn [allowed] in Ha. rewrite !andb_true_iff, Nat.ltb_lt in Ha.
  destruct Ha as (((Ho & _) & Hlt) & Hacts). unfold open_conn in Ho.
  destruct (objects s !! id) as [c|] eqn:Hc; [|done]. cbn [exec].
  apply (handleClose_inv id acts sockfd e s s c); try done; [by left|].
  intros Hid. by eapply no_reset_later.
Qed.

Lemma client_exec_inv i s : ready s → allowed i s = true → exec i s ⇓ ready.
Proof.
  intros Hs Ha. destruct i as [a|error write err self peer|i sockfd e|id acts sockfd e| |acts sockfd e|].
  - eapply yields_mono; [apply run_act_inv; [apply Hs|done]|]. intros s' [? [Hg _]]. split; [done|]. rewrite Hg. apply Hs.
  - by apply handleEvent_inv.
  - by apply timer_event_inv.
  - by apply close_event_inv.
  - by apply begin_inv.
  - destruct (batch s) as [|[f|id|id|id] rest] eqn:Hb; [cbn in *; by rewrite Hb in *| | | |].
    + by eapply functor_connector_inv.
    + by eapply functor_shutdown_inv.
    + by eapply functor_forceClose_inv.
    + by eapply functor_destroy_inv.
  - by apply end_inv.
Qed.

Lemma client_run_inv inputs : ∀ s, ready s → allowed_all inputs s = true → exec_all inputs s ⇓ ready.
Proof.
  induction inputs as [|i inputs IH]; intros s Hs Ha; [done|]. cbn in Ha |- *.
  apply andb_true_iff in Ha as [Hi Ha]. pose proof (client_exec_inv i s Hs Hi) as Hex.
  destruct (exec i s) as [s1|]; [|done]. by apply IH.
Qed.

(** ** Safety *)

(** What the environment sees of a connection. *)
Record client_conn_safe (s : TcpClient) (id : Z) (c : Conn) : Prop := {
  safe_life : c_life c `prefix_of` lifetime;
  safe_destructed : LDestructed ∈ c_life c ↔ held id s = false;
  safe_owner : is_open (c_state c) = true → connection_ s = Some id ∨ alive s = false ∧ detached s = Some id;
  safe_current : connection_ s = Some id → c_life c = [LEstablished] ∧ is_open (c_state c) = true;
  safe_closed : c_life c = [LEstablished; LClosed] → QDestroy id ∈ queue s
}.

Lemma ready_conn_safe s id c : ready s → objects s !! id = Some c → client_conn_safe s id c.
Proof.
  intros [Hs Hg] Hc. pose proof (ci_objects _ s Hs id) as Hk. unfold conn_ok in Hk. rewrite Hc in Hk. destruct Hk as [_ Hobj].
  assert (v_closing (view_of [] id s) = false) as Hcl by (apply bool_decide_eq_false; by rewrite Hg).
  assert (v_current (view_of [] id s) = bool_decide (connection_ s = Some id)) as Hcur by done.
  assert (v_left (view_of [] id s) = true → alive s = false ∧ detached s = Some id) as Hleft.
  { cbn. rewrite andb_true_iff, negb_true_iff, bool_decide_eq_true. done. }
  pose proof (held_view id s) as Hheld. unfold view_held in Hheld. rewrite Hcl in Hheld.
  assert (v_pend (view_of [] id s) = pend id (queue s)) as Hp by done.
  stages Hobj c.
  - destruct Hobj as (Ho & Hd & _ & Hr & Hown). split; rewrite ?Hlife; try done; [by eexists| |].
    + split; [intros H; exfalso; revert H; not_destructed|]. rewrite Hheld. intros Hf. exfalso.
      rewrite !orb_false_iff in Hf. destruct Hf as ((((? & ?) & _) & _) & Hf).
      destruct Hown as [?|[_ [?|Hin]]]; [congruence..|]. by rewrite (existsb_in _ _ _ Hin) in Hf.
    + intros _. destruct Hown as [Hc'|[Hl _]]; [left|right; by apply Hleft]. rewrite Hcur in Hc'. by apply bool_decide_eq_true in Hc'.
  - rewrite Hcl in Hobj. destruct Hobj as (Hst & Hn & l & Hl & Hd). rewrite Hcur in Hn. apply bool_decide_eq_false in Hn.
    assert (QDestroy id ∈ pend id (queue s)) as Hin by (rewrite <- Hp, Hl; apply elem_of_app; right; by left).
    split; rewrite ?Hlife, ?Hst; try done; [by eexists| |].
    + split; [intros H; exfalso; revert H; not_destructed|]. rewrite held_queue; [done|]. by apply elem_of_pend in Hin as [_ ?].
    + intros _. by apply elem_of_pend in Hin as [_ ?].
  - destruct Hobj as (Hst & Hpe & Hn & _ & Hk). rewrite Hcur in Hn. pose proof Hn as Hn'%bool_decide_eq_false.
    split; rewrite ?Hlife, ?Hst; try done; [by eexists|].
    split; [intros H; exfalso; revert H; not_destructed|]. rewrite Hheld.
    destruct Hk as [Hu|[Hr|Hkp]]; [by rewrite Hu, !orb_true_r|by rewrite Hr, !orb_true_r|].
    cbn in Hkp. by apply bool_decide_eq_true, elem_of_nil in Hkp.
  - destruct Hobj as (Hst & Hpe & Hn & _ & Hu & Hr & _). rewrite Hcur in Hn. pose proof Hn as Hn'%bool_decide_eq_false.
    split; rewrite ?Hlife, ?Hst; try done. split; [|intros _; right; right; right; by left].
    intros _. by rewrite Hheld, Hcur, Hn, Hu, Hr, Hpe.
Qed.


(** Two connections of a client that retries: the first is closed by the peer,
    the second by the user, who keeps a pointer to it; then the client is
    destructed, while its connector waits to retry, and the pointer dropped. *)
Definition peer : list byte := lit "10.0.0.1:80".
Definition functors (n : nat) : list Input := [IBeginFunctors] ++ replicate n (IFunctor [] 9 ECONNREFUSED) ++ [IEndFunctors].
Definition example_inputs : list Input :=
  [IAct AEnableRetry; IAct (AConnect true 3 EINPROGRESS); IEvent false true 0 false peer] ++ functors 1 ++
  [IClose 1 [] 4 EINPROGRESS] ++ functors 1 ++ [IEvent false true 0 false peer] ++ functors 1 ++
  [IAct (AHold 2); IAct (AShutdown false 2); IAct (AForceClose 2)] ++ functors 2 ++ functors 1 ++ [IAct ADestruct] ++
  functors 1 ++ [ITimer 0 7 EINPROGRESS; IAct (ADrop 2)].


Example example_client_lives :
  (s ← exec_all example_inputs (TcpClient_new (lit "client"));
   mret (c_life <$> objects s !! 1, c_life <$> objects s !! 2, connection_ s, Connector.timers (connector_ s)))
  = Ok (Some lifetime, Some lifetime, None, []).
Proof. vm_compute. reflexivity. Qed.

(** ** Reconnecting *)

(** A connection that closes without the user interfering. *)
Lemma handleClose_retry id sockfd e s s' :
  alive s = true → detached s = None → retry_ s = true → connect_ s = true →
  handleClose id [] sockfd e s = Ok s' →
  connection_ s' = None ∧ restart sockfd e (connector_ s) = Ok (connector_ s').
Proof.
  intros Hal Hdet Hr Hcn E. unfold handleClose in E. apply bind_Ok_inv in E as (s1 & E1 & E).
  apply bind_Ok_inv in E as (s2 & [= <-] & E). apply bind_Ok_inv in E as (s3 & E3 & E).
  unfold close_begin, on_conn in E1. apply bind_Ok_inv in E1 as (s0 & E0 & [= <-]).
  apply bind_Ok_inv in E0 as (m & _ & [= <-]).
  unfold closeCallback_ in E3. cbn in E3. rewrite Hdet, bool_decide_false, Hal in E3 by done.
  unfold removeConnection, forget_connection in E3. cbn in E3.
  apply bind_Ok_inv in E3 as ([again s4] & E4 & E3). apply bind_Ok_inv in E4 as ([] & _ & [= <- <-]).
  cbn in E3. rewrite Hr, Hcn in E3. cbn in E3. unfold reconnect, on_connector in E3. cbn in E3.
  destruct (connector_alive s); [|done]. apply bind_Ok_inv in E3 as (c & Ec & [= <-]). cbn in E.
  assert (∃ m', s' = set_objects m' (set_holders (holders s) None (set_connector c (pending s ++ [QDestroy id] ++
    (QConnector <$> drop (length (Connector.pendingFunctors_ (connector_ s))) (Connector.pendingFunctors_ c)))
    (set_connection None s)))) as [m' ->]; [|done].
  unfold release in E. rewrite <- app_assoc in E. destruct (held id _).
  - injection E as <-. by exists m.
  - unfold on_conn in E. apply bind_Ok_inv in E as (m' & _ & [= <-]). by exists m'.
Qed.

(** A client with [enableRetry] comes back.  In any state that it reaches, when
    its connection closes while neither [disconnect] nor [stop] has been called,
    it forgets the connection and at once tries again with the next socket: the
    attempt is in progress, or, when [connect] fails in a way that may pass, a
    retry is set after the initial delay of 500 milliseconds, whatever the delays
    were before. *)
Theorem client_reconnects name inputs id sockfd e :
  allowed_all inputs (TcpClient_new name) = true →
  exec_all inputs (TcpClient_new name) ⇓ λ s,
    connection_ s = Some id → allowed (IClose id [] sockfd e) s = true → retry_ s = true → connect_ s = true →
    exec (IClose id [] sockfd e) s ⇓ λ s',
      connection_ s' = None ∧ attempted sockfd e (connector_ s) (connector_ s') ∧
      Connector.timers (connector_ s) = [].
Proof.
  intros Ha. eapply yields_mono; [apply client_run_inv; [split; [apply client_inv_new|done]|done]|].
  intros s Hs Hid Hall Hr Hcn. pose proof (close_event_inv id [] sockfd e s Hs Hall) as Hok.
  destruct Hs as [Hs _]. cbn [exec] in *. destruct (handleClose id [] sockfd e s) as [s'|] eqn:E; [|done]. cbn in *.
  pose proof (ci_alive _ s Hs) as Hal. unfold alive_ok in Hal.
  destruct (alive s) eqn:Halive; [|destruct Hal; congruence]. destruct Hal as (_ & Hdet & _).
  destruct (handleClose_retry id sockfd e s s') as [Hn Hre]; try done. split_and!; [done|by apply restart_attempts|].
  destruct (ci_connection _ s Hs id Hid) as [Hst _].
  destruct (inv_timers _ (ci_connector _ s Hs)) as [|[? _]]; [done|congruence].
Qed.

Definition connected_inputs : list Input :=
  [IAct AEnableRetry; IAct (AConnect true 3 EINPROGRESS); IEvent false true 0 false peer] ++ functors 1.

Lemma client_reconnects_witness :
  exec_all connected_inputs (TcpClient_new (lit "client")) ⇓ λ s,
    exec (IClose 1 [] 4 ECONNREFUSED) s ⇓ λ s',
      connection_ s' = None ∧ attempted 4 ECONNREFUSED (connector_ s) (connector_ s') ∧
      Connector.timers (connector_ s) = [].
Proof.
  assert (allowed_all connected_inputs (TcpClient_new (lit "client")) = true) as Ha by (vm_compute; reflexivity).
  assert (exec_all connected_inputs (TcpClient_new (lit "client")) ⇓ λ s,
    connection_ s = Some 1 ∧ allowed (IClose 1 [] 4 ECONNREFUSED) s = true ∧ retry_ s = true ∧ connect_ s = true) as Hs
    by (vm_compute; repeat split).
  pose proof (client_reconnects (lit "client") connected_inputs 1 4 ECONNREFUSED Ha) as Hc.
  destruct (exec_all connected_inputs (TcpClient_new (lit "client"))) as [s|]; [|exact Hc].
  destruct Hs as (H1 & H2 & H3 & H4). exact (Hc H1 H2 H3 H4).
Defined.

(** ** What the rules of use are for *)

Definition client_run (inputs : list Input) : outcome TcpClient :=
  exec_all (connected_inputs ++ inputs) (TcpClient_new (lit "client")).

(** [connect] on a client whose connection is gone: the connector still says
    connected. *)
Lemma connect_again_asserts :
  client_run [IAct (ADisconnect true); IClose 1 [] 0 EOTHER; IBeginFunctors; IFunctor [] 0 EOTHER; IEndFunctors;
              IAct (AConnect true 4 EINPROGRESS)] = Fault (AssertFailure 49).
Proof. vm_compute. reflexivity. Qed.

(** The destructor in the turn in which the connection was made: the connector
    is destroyed with its channel, whose reset is still queued. *)
Lemma destruct_when_connected_asserts :
  exec_all [IAct (AConnect true 3 EINPROGRESS); IEvent false true 0 false peer; IAct ADestruct]
    (TcpClient_new (lit "client")) = Fault (AssertFailure 37).
Proof. vm_compute. reflexivity. Qed.

(** [stop], then the destructor, with a connection: [stopInLoop] is bound to the
    connector, which is gone when it runs. *)
Lemma stop_then_destruct_dangles :
  client_run [IAct AStop; IAct ADestruct; IBeginFunctors; IFunctor [] 0 EOTHER] = Fault BadDeref.
Proof. vm_compute. reflexivity. Qed.

(** A connection that the user holds survives the destructor open, and asserts
    when the user lets go of it. *)
Lemma drop_left_behind_asserts :
  client_run [IAct (AHold 1); IAct ADestruct; IAct (ADrop 1)] = Fault (AssertFailure 71).
Proof. vm_compute. reflexivity. Qed.

(** [stop] in another thread, between the test of [connect_] and [restart]: the
    connector is started again, and goes on retrying after [stopInLoop]. *)
Definition stop_races (s : TcpClient) : outcome TcpClient :=
  s ← close_begin 1 s;
  '(again, s) ← forget_connection 1 s;
  s ← stop s;
  s ← (if (again : bool) then reconnect 4 EINPROGRESS s else mret s);
  exec_all (functors 2) (set_holders (holders s) None s).

Lemma stop_race_lost :
  (s ← client_run []; s ← stop_races s;
   mret (connect_ s, Connector.connect_ (connector_ s), Connector.timers (connector_ s)))
  = Ok (false, true, [(1%nat, 500)]).
Proof. vm_compute. reflexivity. Qed.
