(* ===== verification/TcpServer.v ===== *)
(** * TCP servers (muduo/net/TcpServer.h, TcpServer.cc)

    A server in the thread of its base loop, the connection objects it has
    made, the functors queued in the loops of its pool, the pointers that user
    code keeps and the calls of other threads.  Of a connection
    it is the life that matters here: the state of [TcpConnection], the calls
    that move it, and its destruction when the last [TcpConnectionPtr] (in
    [connections_], bound to a functor or kept by the user) is gone.  The pointer
    of a functor goes when it has run; in the loop it goes a little later, with
    the vector the functor was swapped into. *)
From Stdlib Require Import Strings.Byte.
From stdpp Require Import base numbers list gmap strings.
From S2P Require Import Prelude LogStream Date Channel TcpConnection ConnLife EventLoopThreadPool.
Open Scope Z_scope.
Open Scope muduo_scope.

(** ** The server *)

(** The functors of the server, [forceCloseInLoop], and those that another thread's [send], [shutdown],
    [startRead] or [stopRead] queues ([FInLoop]), which are bound to a plain [this]. *)
Inductive Functor := FEstablish (id : Z) | FRemove (id : Z) | FDestroy (id : Z) | FForceClose (id : Z) | FInLoop (id : Z).
#[export] Instance Functor_eq_dec : EqDecision Functor.
Proof. solve_decision. Defined.
Definition functor_conn (f : Functor) : Z :=
  match f with FEstablish id | FRemove id | FDestroy id | FForceClose id | FInLoop id => id end.
(** The server's own functors. *)
Definition of_server (f : Functor) : bool :=
  match f with FEstablish _ | FRemove _ | FDestroy _ => true | FForceClose _ | FInLoop _ => false end.
(** Whether a [TcpConnectionPtr] is bound to it. *)
Definition holding (f : Functor) : bool := if f is FInLoop _ then false else true.

(** A call of another thread that goes on later: the test of [state_] succeeded and its change follows, with the
    functor that is queued then; or the functor is queued. *)
Inductive Call := CSet (id : Z) (next : option Functor) | CQueue (f : Functor).
#[export] Instance Call_eq_dec : EqDecision Call.
Proof. solve_decision. Defined.
Definition call_conn (k : Call) : Z := match k with CSet id _ => id | CQueue f => functor_conn f end.

Record TcpServer := mkTcpServer {
  alive : bool;
  name_ : list byte;
  ipPort_ : list byte;
  server_started : bool;
  listening_ : bool;
  threadPool_ : EventLoopThreadPool;
  nextConnId_ : Z;
  connections_ : gmap (list byte) Z;
  (** the connection objects by number, and the queued functors with their loops *)
  objects : gmap Z Conn;
  queue : list (nat * Functor);
  (** the connections user code keeps a pointer to, and the calls of other threads *)
  users : gset Z;
  calls : list Call
}.

Definition TcpServer_new (base : nat) (name ipPort : list byte) : TcpServer :=
  mkTcpServer true name ipPort false false (EventLoopThreadPool_new base) 1 ∅ ∅ [] ∅ [].

Definition set_pool (p : EventLoopThreadPool) (s : TcpServer) : TcpServer :=
  mkTcpServer (alive s) (name_ s) (ipPort_ s) (server_started s) (listening_ s) p (nextConnId_ s)
    (connections_ s) (objects s) (queue s) (users s) (calls s).
Definition set_listening (s : TcpServer) : TcpServer :=
  mkTcpServer (alive s) (name_ s) (ipPort_ s) true true (threadPool_ s) (nextConnId_ s)
    (connections_ s) (objects s) (queue s) (users s) (calls s).
Definition set_next (n : Z) (s : TcpServer) : TcpServer :=
  mkTcpServer (alive s) (name_ s) (ipPort_ s) (server_started s) (listening_ s) (threadPool_ s) n
    (connections_ s) (objects s) (queue s) (users s) (calls s).
Definition set_connections (m : gmap (list byte) Z) (s : TcpServer) : TcpServer :=
  mkTcpServer (alive s) (name_ s) (ipPort_ s) (server_started s) (listening_ s) (threadPool_ s) (nextConnId_ s)
    m (objects s) (queue s) (users s) (calls s).
Definition set_objects (m : gmap Z Conn) (s : TcpServer) : TcpServer :=
  mkTcpServer (alive s) (name_ s) (ipPort_ s) (server_started s) (listening_ s) (threadPool_ s) (nextConnId_ s)
    (connections_ s) m (queue s) (users s) (calls s).
Definition set_queue (q : list (nat * Functor)) (s : TcpServer) : TcpServer :=
  mkTcpServer (alive s) (name_ s) (ipPort_ s) (server_started s) (listening_ s) (threadPool_ s) (nextConnId_ s)
    (connections_ s) (objects s) q (users s) (calls s).
Definition set_users (u : gset Z) (s : TcpServer) : TcpServer :=
  mkTcpServer (alive s) (name_ s) (ipPort_ s) (server_started s) (listening_ s) (threadPool_ s) (nextConnId_ s)
    (connections_ s) (objects s) (queue s) u (calls s).
Definition set_calls (k : list Call) (s : TcpServer) : TcpServer :=
  mkTcpServer (alive s) (name_ s) (ipPort_ s) (server_started s) (listening_ s) (threadPool_ s) (nextConnId_ s)
    (connections_ s) (objects s) (queue s) (users s) k.
Definition set_dead (s : TcpServer) : TcpServer :=
  mkTcpServer false (name_ s) (ipPort_ s) (server_started s) (listening_ s) (threadPool_ s) (nextConnId_ s)
    ∅ (objects s) (queue s) (users s) (calls s).

Definition base (s : TcpServer) : nat := baseLoop_ (threadPool_ s).

Definition deref (id : Z) (s : TcpServer) : outcome Conn := find_conn id (objects s).
(** A member of the connection [id]. *)
Definition on_conn (f : Conn → outcome Conn) (id : Z) (s : TcpServer) : outcome TcpServer :=
  m ← update_conn f id (objects s); mret (set_objects m s).
Definition queueInLoop (l : nat) (f : Functor) (s : TcpServer) : TcpServer :=
  set_queue (queue s ++ [(l, f)]) s.

(** The server's functors of a connection. *)
Definition pend (id : Z) (q : list (nat * Functor)) : list (nat * Functor) :=
  filter (λ p, of_server p.2 = true ∧ functor_conn p.2 = id) q.
Arguments pend : simpl never.

(** Whether a [TcpConnectionPtr] to it is left: with the user, in [forceCloseInLoop] or its call, ... *)
Definition refs (id : Z) (s : TcpServer) : bool :=
  bool_decide (id ∈ users s) || bool_decide (FForceClose id ∈ (queue s).*2) ||
  bool_decide (CQueue (FForceClose id) ∈ calls s).
Arguments refs : simpl never.
(** ... or with the server. *)
Definition held (id : Z) (s : TcpServer) : bool :=
  existsb (λ p : list byte * Z, p.2 =? id) (map_to_list (connections_ s)) ||
  match pend id (queue s) with [] => false | _ => true end || refs id s.

(** A [TcpConnectionPtr] goes out of scope. *)
Definition release (id : Z) (s : TcpServer) : outcome TcpServer :=
  if held id s then mret s else on_conn life_destructed id s.

(** [name_ + buf], with [snprintf(buf, 64, "-%s#%d", ipPort_, nextConnId_)]. *)
Definition connName (s : TcpServer) (id : Z) : list byte :=
  name_ s ++ take 63 (lit "-" ++ ipPort_ s ++ lit "#" ++ default [] (convert id)).

Definition removeConnectionInLoop (id : Z) (s : TcpServer) : outcome TcpServer :=
  c ← deref id s;
  let n := if connections_ s !! c_name c is Some _ then 1 else 0 in
  let s := set_connections (delete (c_name c) (connections_ s)) s in
  _ ← assertb 113 (n =? 1);
  mret (queueInLoop (c_loop c) (FDestroy id) s).

(** The close callback, called in the thread of the connection's loop. *)
Definition removeConnection (id : Z) (s : TcpServer) : outcome TcpServer :=
  if negb (alive s) then Fault BadDeref
  else
    c ← deref id s;
    if (c_loop c =? base s)%nat then removeConnectionInLoop id s
    else mret (queueInLoop (base s) (FRemove id) s).

Definition newConnection (sockfd : Z) (s : TcpServer) : outcome TcpServer :=
  '(ioLoop, pool) ← getNextLoop true (threadPool_ s);
  let s := set_pool pool s in
  let id := nextConnId_ s in
  let n := connName s id in
  next ← iadd id 1;
  let s := set_next next s in
  let s := set_objects (<[ id := mkConn n ioLoop sockfd kConnecting [] ]> (objects s)) s in
  let old := connections_ s !! n in
  let s := set_connections (<[ n := id ]> (connections_ s)) s in
  s ← (if old is Some old then release old s else mret s);
  if (ioLoop =? base s)%nat then on_conn life_established id s
  else mret (queueInLoop ioLoop (FEstablish id) s).

Definition start (inLoopThread : bool) (startLoop : Z → nat) (s : TcpServer) : outcome TcpServer :=
  if server_started s then mret s
  else
    p ← EventLoopThreadPool.start inLoopThread startLoop (threadPool_ s);
    let s := set_pool p s in
    _ ← assertb 65 (negb (listening_ s));
    mret (set_listening s).

Definition setThreadNum (numThreads : Z) (s : TcpServer) : outcome TcpServer :=
  _ ← assertb 55 (0 <=? numThreads);
  mret (set_pool (EventLoopThreadPool.setThreadNum numThreads (threadPool_ s)) s).

(** A connection closes: [handleClose] ends with the server's close callback. *)
Definition close_connection (id : Z) (s : TcpServer) : outcome TcpServer :=
  s ← on_conn life_closed id s; removeConnection id s.

Definition run_functor (f : Functor) (s : TcpServer) : outcome TcpServer :=
  s ← match f with
      | FEstablish id => on_conn life_established id s
      | FRemove id => if alive s then removeConnectionInLoop id s else Fault BadDeref
      | FDestroy id => on_conn life_destroyed id s
      | FForceClose id =>
        c ← deref id s;
        if is_open (c_state c) then close_connection id s else mret s
      | FInLoop id => _ ← deref id s; mret s
      end;
  if holding f then release (functor_conn f) s else mret s.

(** ** User code *)

(** [forceClose] in the thread of the connection's loop. *)
Definition forceClose (id : Z) (s : TcpServer) : outcome TcpServer :=
  c ← deref id s;
  if is_open (c_state c) then
    s ← on_conn (λ c, mret (life_forceClose c)) id s;
    mret (queueInLoop (c_loop c) (FForceClose id) s)
  else mret s.

Inductive Member := MSend | MShutdown | MForceClose | MForceCloseWithDelay | MRead.

(** A member function in another thread, up to its test of [state_]; [startRead] and [stopRead] have none. *)
Definition begin_call (id : Z) (m : Member) (s : TcpServer) : outcome TcpServer :=
  c ← deref id s;
  let up := bool_decide (c_state c = kConnected) in
  let go (b : bool) k := if b then set_calls (calls s ++ [k]) s else s in
  mret match m with
       | MSend => go up (CQueue (FInLoop id))
       | MShutdown => go up (CSet id (Some (FInLoop id)))
       | MForceClose => go (is_open (c_state c)) (CSet id (Some (FForceClose id)))
       | MForceCloseWithDelay => go (is_open (c_state c)) (CSet id None)
       | MRead => go true (CQueue (FInLoop id))
       end.
(** The [n]-th call changes [state_], and queues its functor. *)
Definition resume_set (n : nat) (s : TcpServer) : outcome TcpServer :=
  match calls s !! n with
  | Some (CSet id next) =>
    s ← on_conn (λ c, mret (life_set c)) id s;
    let rest := delete n (calls s) in
    mret (set_calls (if next is Some f then rest ++ [CQueue f] else rest) s)
  | _ => mret s
  end.
Definition resume_queue (n : nat) (s : TcpServer) : outcome TcpServer :=
  match calls s !! n with
  | Some (CQueue f) =>
    c ← deref (functor_conn f) s;
    mret (queueInLoop (c_loop c) f (set_calls (delete n (calls s)) s))
  | _ => mret s
  end.

(** The destructor: every connection is destroyed in its loop. *)
Fixpoint destroy_all (ids : list Z) (s : TcpServer) : outcome TcpServer :=
  match ids with
  | [] => mret s
  | id :: ids =>
    c ← deref id s;
    s ← (if (c_loop c =? base s)%nat
         then s ← on_conn life_destroyed id s; release id s
         else mret (queueInLoop (c_loop c) (FDestroy id) s));
    destroy_all ids s
  end.
Definition TcpServer_destructor (s : TcpServer) : outcome TcpServer :=
  destroy_all (snd <$> map_to_list (connections_ s)) (set_dead s).

(** ** Runs *)

(** The first functor queued in loop [l]. *)
Fixpoint take_first (l : nat) (q : list (nat * Functor)) : option (Functor * list (nat * Functor)) :=
  match q with
  | [] => None
  | (l', f) :: q =>
    if (l' =? l)%nat then Some (f, q)
    else '(g, q') ← take_first l q; Some (g, (l', f) :: q')
  end.

Inductive Input :=
  | IStart (inLoopThread : bool) (startLoop : Z → nat)
  | IAccept (sockfd : Z)
  | IRun (l : nat)
  | IClose (id : Z)
  | IShutdown (id : Z)                  (* in the thread of the connection's loop, as the next two *)
  | IForceClose (id : Z)
  | IForceCloseWithDelay (id : Z)
  | IHold (id : Z)
  | IDrop (id : Z)
  | ICall (id : Z) (m : Member)         (* in another thread *)
  | ISet (n : nat)
  | IQueue (n : nat)
  | IDestruct.

Definition exec (i : Input) (s : TcpServer) : outcome TcpServer :=
  match i with
  | IStart inLoop startLoop => start inLoop startLoop s
  | IAccept sockfd => newConnection sockfd s
  | IRun l =>
    match take_first l (queue s) with
    | Some (f, q) => run_functor f (set_queue q s)
    | None => mret s
    end
  | IClose id => close_connection id s
  | IShutdown id => on_conn (λ c, mret (life_shutdown c)) id s
  | IForceClose id => forceClose id s
  | IForceCloseWithDelay id => on_conn (λ c, mret (life_forceClose c)) id s
  | IHold id => _ ← deref id s; mret (set_users ({[ id ]} ∪ users s) s)
  | IDrop id => release id (set_users (users s ∖ {[ id ]}) s)
  | ICall id m => begin_call id m s
  | ISet n => resume_set n s
  | IQueue n => resume_queue n s
  | IDestruct => TcpServer_destructor s
  end.

Fixpoint exec_all (inputs : list Input) (s : TcpServer) : outcome TcpServer :=
  match inputs with
  | [] => mret s
  | i :: inputs => s ← exec i s; exec_all inputs s
  end.

Definition valid (id : Z) (s : TcpServer) : bool :=
  if objects s !! id is Some c then negb (destructed c) else false.
Definition open_conn (id : Z) (s : TcpServer) : bool :=
  if objects s !! id is Some c then is_open (c_state c) else false.

(** [start] is called in the base loop's thread; connections are accepted
    while listening; events come to connections that are open.  Another thread
    calls members through a pointer it keeps; the pointer is not dropped while a
    call is under way or a functor bound to a plain [this] is queued; and the
    close does not come between the test and the change of [state_]. *)
Definition allowed (i : Input) (s : TcpServer) : bool :=
  match i with
  | IStart inLoop _ => inLoop
  | IAccept _ => listening_ s && (nextConnId_ s <? 2 ^ 31 - 1)
  | IRun _ => true
  | IClose id => open_conn id s
  | IShutdown id | IForceClose id | IForceCloseWithDelay id | IHold id => valid id s
  | IDrop id => bool_decide (id ∈ users s) && negb (existsb (λ k, call_conn k =? id) (calls s)) &&
      negb (bool_decide (FInLoop id ∈ (queue s).*2))
  | ICall id _ => bool_decide (id ∈ users s)
  | ISet n => if calls s !! n is Some (CSet id _) then open_conn id s else false
  | IQueue _ => true
  | IDestruct => false
  end.

Fixpoint allowed_all (inputs : list Input) (s : TcpServer) : bool :=
  match inputs with
  | [] => true
  | i :: inputs => allowed i s && match exec i s with Ok s' => allowed_all inputs s' | Fault _ => true end
  end.
