(* ===== verification/TcpServerSafety.v ===== *)
(** * TCP servers: the life of their connections *)
From Stdlib Require Import Strings.Byte.
From stdpp Require Import base numbers list gmap strings.
From S2P Require Import Prelude LogStream Date Channel TcpConnection ConnLife EventLoopThreadPool TcpServer.
Open Scope Z_scope.
Open Scope muduo_scope.

(** ** Names *)

(** Short enough for the buffer of [newConnection]. *)
Definition short_ipPort (s : TcpServer) : Prop := size_of (ipPort_ s) ≤ 50.

Lemma connName_inj s id id' :
  short_ipPort s → 1 ≤ id < 2 ^ 31 → 1 ≤ id' < 2 ^ 31 → connName s id = connName s id' → id = id'.
Proof.
  unfold short_ipPort, connName. intros Hs Hid Hid' Heq%app_inv_head.
  destruct (convert_digits 10 id) as (t & Ht & Hsz & Hv & _); [lia|lia|].
  destruct (convert_digits 10 id') as (t' & Ht' & Hsz' & Hv' & _); [lia|lia|].
  rewrite (proj2 (Z.ltb_ge id 0)) in Hsz by lia. rewrite (proj2 (Z.ltb_ge id' 0)) in Hsz' by lia.
  rewrite Ht, Ht' in Heq.
  change (default [] (Some t)) with t in Heq. change (default [] (Some t')) with t' in Heq.
  rewrite !take_ge in Heq by (rewrite !length_app; cbn; unfold size_of in *; lia).
  do 3 apply app_inv_head in Heq. congruence.
Qed.

(** ** Queues *)

Lemma pend_app id q q' : pend id (q ++ q') = pend id q ++ pend id q'.
Proof. apply filter_app. Qed.

Lemma pend_one id l f : pend id [(l, f)] = if of_server f && (functor_conn f =? id) then [(l, f)] else [].
Proof.
  unfold pend. rewrite filter_cons, filter_nil. cbn. destruct (of_server f); cbn; [|by rewrite decide_False by naive_solver].
  destruct (Z.eqb_spec (functor_conn f) id).
  - by rewrite decide_True.
  - by rewrite decide_False by naive_solver.
Qed.

Lemma elem_push (g f : Functor) (l : nat) q : g ∈ (q ++ [(l, f)]).*2 ↔ g ∈ q.*2 ∨ g = f.
Proof. rewrite fmap_app, elem_of_app. cbn. by rewrite list_elem_of_singleton. Qed.

Lemma take_first_spec l q f q' :
  take_first l q = Some (f, q') → ∃ q1 q2, q = q1 ++ (l, f) :: q2 ∧ q' = q1 ++ q2.
Proof.
  revert q'. induction q as [|[l0 g] q IH]; intros q' Hq; [done|]. cbn in Hq.
  destruct (Nat.eqb_spec l0 l) as [->|].
  - simplify_eq. by exists [], q'.
  - destruct (take_first l q) as [[h q0]|]; [|done]. cbn in Hq. simplify_eq.
    destruct (IH q0 eq_refl) as (q1 & q2 & -> & ->). by exists ((l0, g) :: q1), q2.
Qed.

Lemma take_first_pend_at l q f q' id :
  take_first l q = Some (f, q') →
  ∃ p1 p2, pend id q = p1 ++ (if of_server f && (functor_conn f =? id) then [(l, f)] else []) ++ p2 ∧
           pend id q' = p1 ++ p2.
Proof.
  intros (q1 & q2 & -> & ->)%take_first_spec. exists (pend id q1), (pend id q2).
  change ((l, f) :: q2) with ([(l, f)] ++ q2). by rewrite !pend_app, pend_one.
Qed.

(** Taking a functor off the queue. *)
Lemma take_first_pend l q f q' :
  take_first l q = Some (f, q') → of_server f = true →
  (∀ id, id ≠ functor_conn f → pend id q' = pend id q) ∧
  (∀ x, pend (functor_conn f) q = [x] → x = (l, f) ∧ pend (functor_conn f) q' = []) ∧
  pend (functor_conn f) q ≠ [].
Proof.
  intros Hq Hf. split_and!.
  - intros id Hid. destruct (take_first_pend_at _ _ _ _ id Hq) as (p1 & p2 & -> & ->).
    by rewrite Hf, (proj2 (Z.eqb_neq _ _)) by congruence.
  - intros x. destruct (take_first_pend_at _ _ _ _ (functor_conn f) Hq) as (p1 & p2 & -> & ->).
    rewrite Hf, Z.eqb_refl. destruct p1 as [|y [|z r]]; cbn; [intros [= <- ->]; done|done|done].
  - destruct (take_first_pend_at _ _ _ _ (functor_conn f) Hq) as (p1 & p2 & -> & _).
    rewrite Hf, Z.eqb_refl. by destruct p1.
Qed.
Lemma take_first_user l q f q' id :
  take_first l q = Some (f, q') → of_server f = false → pend id q' = pend id q.
Proof. intros Hq Hf. destruct (take_first_pend_at _ _ _ _ id Hq) as (p1 & p2 & -> & ->). by rewrite Hf. Qed.

(** ** The users' side *)

(** A call queues a functor of its connection, which is not one of the server's. *)
Definition call_shape (k : Call) : Prop :=
  match k with
  | CSet _ None => True
  | CSet id (Some f) => functor_conn f = id ∧ of_server f = false
  | CQueue f => of_server f = false
  end.

(** Functors with a plain [this], and calls, are those of a thread that keeps a pointer. *)
Record users_ok (s : TcpServer) : Prop := {
  ok_plain id : FInLoop id ∈ (queue s).*2 → id ∈ users s;
  ok_call k : k ∈ calls s → call_conn k ∈ users s;
  ok_functor k : k ∈ calls s →
    call_shape k
}.

(** The users of a connection, as the server sees them. *)
Definition same_users (s s' : TcpServer) : Prop :=
  users s' = users s ∧ calls s' = calls s ∧
  ∀ f, of_server f = false → f ∈ (queue s').*2 ↔ f ∈ (queue s).*2.

Lemma same_users_refl s s' : users s' = users s → calls s' = calls s → queue s' = queue s → same_users s s'.
Proof. intros ? ? Hq. split_and!; [done..|]. by rewrite Hq. Qed.
Lemma same_users_push s s' l f :
  users s' = users s → calls s' = calls s → queue s' = queue s ++ [(l, f)] → of_server f = true → same_users s s'.
Proof.
  intros ? ? Hq Hf. split_and!; [done..|]. intros g Hg. rewrite Hq, elem_push. split; [|by left]. intros [?|?]; [done|]. congruence.
Qed.
Lemma same_users_trans s1 s2 s3 : same_users s1 s2 → same_users s2 s3 → same_users s1 s3.
Proof.
  intros (? & ? & H12) (? & ? & H23). split_and!; [congruence..|]. intros f Hf. by rewrite H23, H12.
Qed.
Lemma same_users_ok s s' : same_users s s' → users_ok s → users_ok s'.
Proof.
  intros (Hu & Hk & Hq) [H1 H2 H3]. split; rewrite ?Hu, ?Hk; [|done..]. intros id Hin. by apply H1, Hq.
Qed.
Lemma same_users_refs s s' id : same_users s s' → refs id s' = refs id s.
Proof.
  intros (Hu & Hk & Hq). unfold refs. rewrite Hu, Hk. do 2 f_equal.
  apply bool_decide_ext. by apply Hq.
Qed.

(** ** The invariant *)

(** Where a connection is in its life: its functors [p], its entry [m] in [connections_], and whether
    the users have a pointer to it. *)
Definition conn_inv (b : nat) (p : list (nat * Functor)) (m : option Z) (h : bool) (id : Z) (c : Conn) : Prop :=
  match c_life c with
  | [] => c_state c = kConnecting ∧ p = [(c_loop c, FEstablish id)] ∧ m = Some id
  | [LEstablished] => is_open (c_state c) = true ∧ p = [] ∧ m = Some id
  | [LEstablished; LClosed] => c_state c = kDisconnected ∧
      (p = [(b, FRemove id)] ∧ m = Some id ∨ p = [(c_loop c, FDestroy id)] ∧ m = None)
  | [LEstablished; LClosed; LDestroyed] => c_state c = kDisconnected ∧ p = [] ∧ m = None ∧ h = true
  | [LEstablished; LClosed; LDestroyed; LDestructed] => c_state c = kDisconnected ∧ p = [] ∧ m = None ∧ h = false
  | _ => False
  end.

Record server_inv (s : TcpServer) : Prop := {
  inv_alive : alive s = true;
  inv_short : short_ipPort s;
  inv_next : 1 ≤ nextConnId_ s < 2 ^ 31;
  inv_objects id c : objects s !! id = Some c →
    1 ≤ id < nextConnId_ s ∧ c_name c = connName s id ∧
    conn_inv (base s) (pend id (queue s)) (connections_ s !! c_name c) (refs id s) id c;
  inv_connections n id : connections_ s !! n = Some id → ∃ c, objects s !! id = Some c ∧ c_name c = n;
  inv_queue id : objects s !! id = None → pend id (queue s) = [] ∧ refs id s = false;
  inv_users : users_ok s;
  inv_started : if server_started s
    then listening_ s = true ∧ pool_ok (threadPool_ s)
    else listening_ s = false ∧
      ∃ b n, 0 ≤ n < 2 ^ 31 ∧ threadPool_ s = EventLoopThreadPool.setThreadNum n (EventLoopThreadPool_new b)
}.

(** The members that do not change when a connection moves on. *)
Definition same_server (s s' : TcpServer) : Prop :=
  alive s' = alive s ∧ name_ s' = name_ s ∧ ipPort_ s' = ipPort_ s ∧
  server_started s' = server_started s ∧ listening_ s' = listening_ s ∧
  threadPool_ s' = threadPool_ s ∧ nextConnId_ s' = nextConnId_ s.

Lemma connName_same s s' id : name_ s' = name_ s → ipPort_ s' = ipPort_ s → connName s' id = connName s id.
Proof. unfold connName. by intros -> ->. Qed.

(** One connection moves on. *)
Lemma server_inv_update s s' id c c' :
  server_inv s → objects s !! id = Some c → c_name c' = c_name c → same_server s s' →
  objects s' = <[ id := c' ]> (objects s) →
  (∀ id', id' ≠ id → pend id' (queue s') = pend id' (queue s) ∧ refs id' s' = refs id' s) → users_ok s' →
  connections_ s' = connections_ s ∨ connections_ s' = delete (c_name c) (connections_ s) →
  conn_inv (base s) (pend id (queue s')) (connections_ s' !! c_name c) (refs id s') id c' →
  server_inv s'.
Proof.
  intros Hs Hc Hn (E1 & E2 & E3 & E4 & E5 & E6 & E7) Ho Hq Hu Hm Hci.
  assert (∀ id1, connName s' id1 = connName s id1) as Hname by (intros; by apply connName_same).
  destruct (inv_objects s Hs id c Hc) as (Hid & Hcn & _).
  split; rewrite ?E1, ?E4, ?E5, ?E6, ?E7; try apply Hs; [..|done].
  - unfold short_ipPort. rewrite E3. apply Hs.
  - intros id1 c1 H1. rewrite Ho in H1. rewrite Hname. unfold base. rewrite E6. fold (base s).
    apply lookup_insert_Some in H1 as [[<- <-]|[Hne H1]].
    + rewrite Hn. auto.
    + destruct (inv_objects s Hs id1 c1 H1) as (Hid1 & Hcn1 & Hci1). destruct (Hq id1) as [-> ->]; [done|].
      split_and!; try done; [lia..|].
      assert (connections_ s' !! c_name c1 = connections_ s !! c_name c1) as ->; [|done].
      destruct Hm as [->| ->]; [done|]. rewrite lookup_delete_ne; [done|]. rewrite Hcn, Hcn1.
      intros Heq. apply connName_inj in Heq; [done|apply Hs|..]; pose proof (inv_next s Hs); lia.
  - intros n id1 H1. assert (connections_ s !! n = Some id1) as H1'.
    { destruct Hm as [<-|Hm]; [done|]. rewrite Hm in H1. by apply lookup_delete_Some in H1 as [_ ?]. }
    destruct (inv_connections s Hs n id1 H1') as (c1 & Hc1 & Hn1). rewrite Ho.
    destruct (decide (id1 = id)) as [->|]; [|exists c1; by rewrite lookup_insert_ne].
    exists c'. rewrite lookup_insert_eq. split; [done|]. congruence.
  - intros id1 H1. rewrite Ho in H1. apply lookup_insert_None in H1 as [H1 ?].
    destruct (Hq id1) as [-> ->]; [congruence|]. by apply Hs.
Qed.

(** The same when the users' side is as it was. *)
Lemma server_inv_step s s' id c c' :
  server_inv s → objects s !! id = Some c → c_name c' = c_name c → same_server s s' →
  objects s' = <[ id := c' ]> (objects s) →
  (∀ id', id' ≠ id → pend id' (queue s') = pend id' (queue s)) → same_users s s' →
  connections_ s' = connections_ s ∨ connections_ s' = delete (c_name c) (connections_ s) →
  conn_inv (base s) (pend id (queue s')) (connections_ s' !! c_name c) (refs id s) id c' →
  server_inv s'.
Proof.
  intros Hs Hc Hn Hss Ho Hq Hu Hm Hci. eapply server_inv_update; try done.
  - intros id' Hid'. split; [by apply Hq|by apply same_users_refs].
  - eapply same_users_ok; [done|apply Hs].
  - by rewrite (same_users_refs s s').
Qed.

(** [held] is what the name says. *)
Lemma held_spec s s' id c :
  server_inv s → objects s !! id = Some c →
  connections_ s' = connections_ s ∨ connections_ s' = delete (c_name c) (connections_ s) →
  held id s' =
    (bool_decide (connections_ s' !! c_name c = Some id) ||
     match pend id (queue s') with [] => false | _ => true end || refs id s').
Proof.
  intros Hs Hc Hcs. unfold held. do 2 f_equal.
  apply eq_true_iff_eq. rewrite existsb_exists, bool_decide_eq_true. split.
  - intros ([n id'] & Hin & Heq%Z.eqb_eq). cbn in Heq. subst id'.
    apply list_elem_of_In, elem_of_map_to_list in Hin.
    assert (connections_ s !! n = Some id) as Hn.
    { destruct Hcs as [<-|Hcs]; [done|]. rewrite Hcs in Hin. by apply lookup_delete_Some in Hin as [_ ?]. }
    destruct (inv_connections s Hs n id Hn) as (c1 & Hc1 & <-). by simplify_eq.
  - intros Hl. exists (c_name c, id). split; [|apply Z.eqb_refl].
    by apply list_elem_of_In, elem_of_map_to_list.
Qed.

(** ** The operations *)

(** What a queued functor says about its connection. *)
Lemma conn_inv_functor b p m h id c :
  conn_inv b p m h id c → p ≠ [] →
  (p = [(c_loop c, FEstablish id)] ∧ c_life c = [] ∧ c_state c = kConnecting ∧ m = Some id) ∨
  (p = [(b, FRemove id)] ∧ c_life c = [LEstablished; LClosed] ∧ c_state c = kDisconnected ∧ m = Some id) ∨
  (p = [(c_loop c, FDestroy id)] ∧ c_life c = [LEstablished; LClosed] ∧ c_state c = kDisconnected ∧ m = None).
Proof.
  unfold conn_inv. intros Hc Hp. destruct (c_life c) as [|[] [|[] [|[] [|[] [|]]]]]; naive_solver.
Qed.

(** A connection the users have a pointer to. *)
Lemma conn_inv_held b p m id c : conn_inv b p m true id c → LDestructed ∉ c_life c.
Proof.
  unfold conn_inv. intros Hc. destruct (c_life c) as [|[] [|[] [|[] [|[] [|]]]]]; try done; not_destructed.
Qed.

(** Whether [h] only matters once the connection is destroyed. *)
Lemma conn_inv_refs b p m h h' id c :
  conn_inv b p m h id c → h' = h ∨ LDestroyed ∉ c_life c → conn_inv b p m h' id c.
Proof.
  intros Hc [->|Hl]; [done|]. unfold conn_inv in *.
  destruct (c_life c) as [|[] [|[] [|[] [|[] [|]]]]]; try done; destruct Hl; rewrite !elem_of_cons; auto.
Qed.

Lemma deref_Ok id s c : objects s !! id = Some c → LDestructed ∉ c_life c → deref id s = Ok c.
Proof. apply find_conn_Ok. Qed.

Lemma on_conn_Ok f id s c c' :
  objects s !! id = Some c → LDestructed ∉ c_life c → f c = Ok c' →
  on_conn f id s = Ok (set_objects (<[ id := c' ]> (objects s)) s).
Proof. intros Hc Hl Hf. unfold on_conn. by rewrite (update_conn_Ok f id _ c c'). Qed.

(** A pointer to the connection [id], which moved on to [c'], goes away: [c'] is as it is with a pointer left. *)
Lemma server_release_inv s s' id c c' :
  server_inv s → objects s !! id = Some c → c_name c' = c_name c → same_server s s' →
  objects s' = <[ id := c' ]> (objects s) →
  (∀ id', id' ≠ id → pend id' (queue s') = pend id' (queue s) ∧ refs id' s' = refs id' s) → users_ok s' →
  connections_ s' = connections_ s ∨ connections_ s' = delete (c_name c) (connections_ s) →
  conn_inv (base s) (pend id (queue s')) (connections_ s' !! c_name c) true id c' →
  release id s' ⇓ server_inv.
Proof.
  intros Hs Hc Hn Hss Ho Hq Hu Hm Hci. unfold release. rewrite (held_spec s s' id c) by done.
  destruct (_ || _) eqn:Hh.
  - apply yields_ret. eapply server_inv_update; try done. eapply conn_inv_refs; [done|].
    destruct (refs id s'); [by left|right]. rewrite orb_false_r in Hh. unfold conn_inv in Hci.
    destruct (c_life c') as [|[] [|[] [|[] [|[] [|]]]]]; try done; try not_destructed.
    destruct Hci as (_ & E1 & E2 & _). by rewrite E1, E2 in Hh.
  - apply orb_false_iff in Hh as [[Hm0%bool_decide_eq_false Hp0]%orb_false_iff Hr].
    assert (c_life c' = [LEstablished; LClosed; LDestroyed] ∧ c_state c' = kDisconnected ∧
            pend id (queue s') = [] ∧ connections_ s' !! c_name c = None) as (Hl & Hst & Hp & Hm1).
    { unfold conn_inv in Hci. destruct (c_life c') as [|[] [|[] [|[] [|[] [|]]]]]; try done.
      - by destruct Hci as (_ & _ & ?).
      - by destruct Hci as (_ & _ & ?).
      - destruct Hci as (_ & [[E _]|[E _]]); by rewrite E in Hp0.
      - tauto.
      - by destruct Hci as (_ & _ & _ & ?). }
    erewrite on_conn_Ok; [|rewrite Ho; apply lookup_insert_eq|rewrite Hl; not_destructed
      |unfold life_destructed; by rewrite Hst]. apply yields_ret.
    eapply (server_inv_update s _ id c (live c' kDisconnected LDestructed)); try done.
    + cbn. by rewrite Ho, insert_insert_eq.
    + by destruct Hu.
    + cbn. rewrite Hp, Hm1. change (refs id (set_objects _ s')) with (refs id s'). rewrite Hr.
      unfold conn_inv. cbn. by rewrite Hl.
Qed.

(** Taking a functor off the queue, as the users see it. *)
Lemma take_first_elem l q f q' g :
  take_first l q = Some (f, q') → (g ∈ q'.*2 → g ∈ q.*2) ∧ (g ≠ f → g ∈ q.*2 → g ∈ q'.*2) ∧ f ∈ q.*2.
Proof.
  intros (q1 & q2 & -> & ->)%take_first_spec. rewrite !fmap_app, !elem_of_app, fmap_cons, !elem_of_cons.
  cbn. naive_solver.
Qed.

Lemma take_first_refs s l f q id :
  take_first l (queue s) = Some (f, q) → f ≠ FForceClose id → refs id (set_queue q s) = refs id s.
Proof.
  intros Hq Hf. destruct (take_first_elem _ _ _ _ (FForceClose id) Hq) as (H1 & H2 & _).
  unfold refs. do 2 f_equal. apply bool_decide_ext. cbn. split; [done|]. apply H2. congruence.
Qed.

Lemma take_first_users s l f q :
  take_first l (queue s) = Some (f, q) → users_ok s → users_ok (set_queue q s).
Proof.
  intros Hq [H1 H2 H3]. split; [|done..]. intros id Hin. cbn in Hin. apply H1.
  by apply (take_first_elem _ _ _ _ (FInLoop id) Hq).
Qed.

(** The server's functors, one by one: the connection goes on, and a pointer goes away. *)
Lemma run_server_functor_inv s l f q :
  server_inv s → take_first l (queue s) = Some (f, q) → of_server f = true →
  run_functor f (set_queue q s) ⇓ server_inv.
Proof.
  intros Hs Hq Hof. destruct (take_first_pend _ _ _ _ Hq Hof) as (Hother & Hone & Hne).
  destruct (objects s !! functor_conn f) as [c|] eqn:Hc; [|by destruct Hne; apply Hs].
  destruct (inv_objects s Hs _ c Hc) as (Hid & Hcn & Hci). pose proof (inv_alive s Hs) as Hal.
  pose proof (take_first_users _ _ _ _ Hq (inv_users s Hs)) as Hu.
  assert (∀ id, refs id (set_queue q s) = refs id s) as Hr
    by (intros; eapply take_first_refs; [done|by destruct f]).
  unfold run_functor.
  destruct (conn_inv_functor _ _ _ _ _ _ Hci Hne) as [(Hp & Hlife & Hst & Hm)|[(Hp & Hlife & Hst & Hm)|(Hp & Hlife & Hst & Hm)]];
    destruct (Hone _ Hp) as [Hf Hp']; injection Hf as Hl Hf; rewrite <- Hf in *; cbn [functor_conn holding] in *;
    set (id := functor_conn f) in *; clearbody id; clear Hf f; rewrite Hp in *.
  - erewrite on_conn_Ok; [|exact Hc|by rewrite Hlife; not_destructed|unfold life_established; by rewrite Hst]. run_ok.
    apply (server_release_inv s _ id c (live c kConnected LEstablished)); try done.
    + intros id' Hne'. split; [by apply Hother|apply Hr].
    + by destruct Hu.
    + by left.
    + cbn. rewrite Hp'. unfold conn_inv. cbn. by rewrite Hlife.
  - cbn. rewrite Hal. unfold removeConnectionInLoop.
    rewrite (deref_Ok _ _ c) by (done || (rewrite Hlife; not_destructed)). cbn.
    rewrite Hm. cbn. set (s' := queueInLoop _ _ _).
    assert (same_users (set_queue q s) s') as Hsu by (by eapply same_users_push).
    apply (server_release_inv s s' id c c); try done.
    + cbn. by rewrite insert_id.
    + intros id' Hne'. rewrite (same_users_refs _ _ _ Hsu). split; [|apply Hr].
      cbn. rewrite pend_app, pend_one. cbn. rewrite (proj2 (Z.eqb_neq _ _)), app_nil_r by congruence. auto.
    + by eapply same_users_ok.
    + by right.
    + cbn. rewrite pend_app, pend_one, Hp'. cbn. rewrite Z.eqb_refl. unfold conn_inv. rewrite Hlife, lookup_delete_eq. auto.
  - erewrite on_conn_Ok; [|exact Hc|by rewrite Hlife; not_destructed|unfold life_destroyed; by rewrite Hst]. run_ok.
    apply (server_release_inv s _ id c (live c kDisconnected LDestroyed)); try done.
    + intros id' Hne'. split; [by apply Hother|apply Hr].
    + by destruct Hu.
    + by left.
    + cbn. rewrite Hp'. unfold conn_inv. cbn. by rewrite Hlife.
Qed.

(** An open connection closes, and the server removes it. *)
Lemma close_connection_spec id s c h :
  objects s !! id = Some c → c_life c = [LEstablished] → is_open (c_state c) = true →
  connections_ s !! c_name c = Some id → alive s = true → pend id (queue s) = [] →
  let c' := live c kDisconnected LClosed in
  close_connection id s ⇓ λ s',
    same_server s s' ∧ objects s' = <[ id := c' ]> (objects s) ∧ same_users s s' ∧
    (∀ id', id' ≠ id → pend id' (queue s') = pend id' (queue s)) ∧
    (connections_ s' = connections_ s ∨ connections_ s' = delete (c_name c) (connections_ s)) ∧
    conn_inv (base s) (pend id (queue s')) (connections_ s' !! c_name c) h id c'.
Proof.
  intros Hc Hlife Hop Hm Hal Hp c'. unfold close_connection.
  erewrite on_conn_Ok; [|done|rewrite Hlife; not_destructed|unfold life_closed; by rewrite Hop]. run_ok.
  assert (∀ s', objects s' = <[ id := c' ]> (objects s) → deref id s' = Ok c') as Hd.
  { intros s' Hs'. apply deref_Ok; [by rewrite Hs', lookup_insert_eq|cbn; rewrite Hlife; not_destructed]. }
  assert (∀ l f id', id' ≠ functor_conn f → pend id' (queue s ++ [(l, f)]) = pend id' (queue s)) as Hpo.
  { intros l f id' Hne. rewrite pend_app, pend_one, (proj2 (Z.eqb_neq _ _)), andb_false_r, app_nil_r by congruence. done. }
  unfold removeConnection. cbn. rewrite Hal. cbn. rewrite Hd by done. cbn.
  change (base (set_objects _ s)) with (base s).
  destruct (c_loop c =? base s)%nat.
  - unfold removeConnectionInLoop. cbn. rewrite Hd by done. cbn. rewrite Hm. cbn.
    do 2 (split; [done|]). split; [by eapply same_users_push|].
    split; [by intros id' Hne; apply Hpo|]. split; [by right|].
    rewrite pend_app, pend_one, Hp. cbn. rewrite Z.eqb_refl, lookup_delete_eq. unfold conn_inv. cbn. rewrite Hlife. cbn. auto.
  - cbn. do 2 (split; [done|]). split; [by eapply same_users_push|].
    split; [by intros id' Hne; apply Hpo|]. split; [by left|].
    rewrite pend_app, pend_one, Hp. cbn. rewrite Z.eqb_refl. unfold conn_inv. cbn. rewrite Hlife. cbn. auto.
Qed.

(** [forceCloseInLoop], and the functors that are bound to a plain [this]. *)
Lemma run_user_functor_inv s l f q :
  server_inv s → take_first l (queue s) = Some (f, q) → of_server f = false →
  run_functor f (set_queue q s) ⇓ server_inv.
Proof.
  intros Hs Hq Hof. destruct (take_first_elem _ _ _ _ f Hq) as (_ & _ & Hin).
  pose proof (take_first_users _ _ _ _ Hq (inv_users s Hs)) as Hu.
  assert (refs (functor_conn f) s = true) as Hrf.
  { unfold refs. destruct f as [| | |id|id]; try done; cbn [functor_conn].
    - rewrite (bool_decide_true (FForceClose id ∈ _)) by done. by rewrite orb_true_r.
    - rewrite bool_decide_true; [done|]. by apply (ok_plain _ (inv_users s Hs)). }
  destruct (objects s !! functor_conn f) as [c|] eqn:Hc;
    [|destruct (inv_queue s Hs _ Hc); congruence].
  destruct (inv_objects s Hs _ c Hc) as (Hid & Hcn & Hci). rewrite Hrf in Hci.
  pose proof (conn_inv_held _ _ _ _ _ Hci) as Hlive.
  assert (∀ id, pend id q = pend id (queue s)) as Hpq by (intros; by eapply take_first_user).
  unfold run_functor. destruct f as [| | |id|id]; try done; cbn [functor_conn holding] in *.
  - rewrite (deref_Ok _ _ c) by done. run_ok.
    assert (∀ id', id' ≠ id → refs id' (set_queue q s) = refs id' s) as Hr
      by (intros id' Hne; eapply take_first_refs; [done|congruence]).
    destruct (is_open (c_state c)) eqn:Hop.
    + assert (c_life c = [LEstablished] ∧ pend id (queue s) = [] ∧ connections_ s !! c_name c = Some id) as (Hlife & Hp & Hm).
      { unfold conn_inv in Hci. destruct (c_life c) as [|[] [|[] [|[] [|[] [|]]]]]; try done;
          destruct Hci as (Hst & ?); try (rewrite Hst in Hop; done); tauto. }
      ystep (close_connection_spec id (set_queue q s) c true); try done; [apply Hs|cbn; by rewrite Hpq|].
      intros s' (Hss & Ho & Hsu & Hp' & Hm' & Hci').
      apply (server_release_inv s s' id c (live c kDisconnected LClosed)); try done.
      * intros id' Hne. rewrite (same_users_refs _ _ _ Hsu), Hp' by done. by rewrite Hr, <- Hpq.
      * by eapply same_users_ok.
    + run_ok. apply (server_release_inv s _ id c c); try done; cbn.
      * by rewrite insert_id.
      * intros id' Hne. by rewrite Hr, Hpq.
      * by left.
      * by rewrite Hpq.
  - rewrite (deref_Ok _ _ c) by done. run_ok.
    apply (server_inv_update s _ id c c); try done; cbn.
    + by rewrite insert_id.
    + intros id' _. rewrite Hpq. split; [done|]. by eapply take_first_refs.
    + by left.
    + rewrite Hpq. rewrite (take_first_refs s l (FInLoop id) q) by done. by rewrite Hrf.
Qed.

Lemma run_functor_inv s l f q :
  server_inv s → take_first l (queue s) = Some (f, q) → run_functor f (set_queue q s) ⇓ server_inv.
Proof.
  intros Hs Hq. destruct (of_server f) eqn:Hf; [by eapply run_server_functor_inv|by eapply run_user_functor_inv].
Qed.

(** A new connection. *)
Lemma server_inv_insert s p c q :
  server_inv s → server_started s = true → pool_ok p → baseLoop_ p = base s →
  let id := nextConnId_ s in
  id + 1 < 2 ^ 31 → c_name c = connName s id →
  (∀ id', id' ≠ id → pend id' q = pend id' (queue s)) → (∀ h, conn_inv (base s) (pend id q) (Some id) h id c) →
  let s' := mkTcpServer (alive s) (name_ s) (ipPort_ s) (server_started s) (listening_ s) p (id + 1)
    (<[ connName s id := id ]> (connections_ s)) (<[ id := c ]> (objects s)) q (users s) (calls s) in
  same_users s s' → server_inv s'.
Proof.
  intros Hs Hst Hp Hb id Hid Hn Hq Hci s' Hsu. pose proof (inv_next s Hs) as Hnext.
  split; cbn [alive nextConnId_ objects connections_ queue server_started listening_ threadPool_ s']; try apply Hs; [lia|..].
  - intros id1 c1 [[<- <-]|[Hne H1]]%lookup_insert_Some.
    + split_and!; [lia..|done|]. unfold base. cbn. rewrite Hb, Hn, lookup_insert_eq. apply Hci.
    + destruct (inv_objects s Hs id1 c1 H1) as (Hid1 & Hcn1 & Hci1).
      split_and!; [lia..|done|]. rewrite (same_users_refs s s') by done. unfold base. cbn. rewrite Hb, Hq by done.
      rewrite lookup_insert_ne; [done|]. rewrite Hcn1. intros Heq.
      apply connName_inj in Heq; [|apply Hs|lia..]. lia.
  - intros n id1 [[<- <-]|[Hne H1]]%lookup_insert_Some; [exists c; by rewrite lookup_insert_eq|].
    destruct (inv_connections s Hs n id1 H1) as (c1 & Hc1 & Hn1). exists c1.
    destruct (inv_objects s Hs id1 c1 Hc1) as (? & _). by rewrite lookup_insert_ne by lia.
  - intros id1 [H1 Hne]%lookup_insert_None. rewrite (same_users_refs s s'), Hq by done. by apply Hs.
  - eapply same_users_ok; [done|apply Hs].
  - pose proof (inv_started s Hs) as Hsd. rewrite Hst in Hsd |- *. by destruct Hsd.
Qed.

Lemma newConnection_inv sockfd s :
  server_inv s → listening_ s = true → nextConnId_ s + 1 < 2 ^ 31 → newConnection sockfd s ⇓ server_inv.
Proof.
  intros Hs Hli Hmax. pose proof (inv_started s Hs) as Hsd. pose proof (inv_next s Hs) as Hnext.
  destruct (server_started s) eqn:Hst; [|destruct Hsd; congruence]. destruct Hsd as [_ Hp].
  unfold newConnection. ystep getNextLoop_spec; [done|]. intros [ioLoop p'] (Hp' & [_ Hb] & _).
  cbn [nextConnId_ set_pool]. set (id := nextConnId_ s) in *.
  unfold iadd. apply yields_bind. rewrite checked_i32_ok by lia. cbn [yields].
  assert (objects s !! id = None) as Hnone.
  { destruct (objects s !! id) as [c|] eqn:Hc; [|done]. destruct (inv_objects s Hs id c Hc). lia. }
  assert (pend id (queue s) = []) as Hpend by (by apply Hs).
  assert (connName (set_pool p' s) id = connName s id) as -> by done.
  set (c := mkConn (connName s id) ioLoop sockfd kConnecting []).
  assert (connections_ s !! connName s id = None) as Hold.
  { destruct (connections_ s !! connName s id) as [id1|] eqn:H1; [|done]. exfalso.
    destruct (inv_connections s Hs _ _ H1) as (c1 & Hc1 & Hn1).
    destruct (inv_objects s Hs id1 c1 Hc1) as (Hid1 & Hcn1 & _). rewrite Hn1 in Hcn1.
    apply connName_inj in Hcn1; [|apply Hs|lia..]. lia. }
  cbn [connections_ set_objects set_next set_pool]. rewrite Hold. run_ok. cbn.
  unfold base at 1. cbn.
  destruct (Nat.eqb_spec ioLoop (baseLoop_ p')) as [Heq|Hne].
  - erewrite on_conn_Ok; [|apply lookup_insert_eq|not_destructed|done]. apply yields_ret.
    unfold set_objects, set_connections, set_next, set_pool. cbn. rewrite insert_insert_eq.
    by apply (server_inv_insert s p' (live c kConnected LEstablished) (queue s)).
  - unfold queueInLoop, set_queue, set_connections, set_objects, set_next, set_pool. cbn.
    apply (server_inv_insert s p' c (queue s ++ [(ioLoop, FEstablish id)])); try done.
    + intros id' Hid'. rewrite pend_app, pend_one. cbn. rewrite (proj2 (Z.eqb_neq _ _)), app_nil_r by (unfold id; congruence). done.
    + fold id. rewrite pend_app, pend_one, Hpend. cbn. by rewrite Z.eqb_refl.
    + by eapply same_users_push.
Qed.

(** ** User code *)

(** The state changes within an open connection. *)
Lemma open_change_inv id s c :
  server_inv s → objects s !! id = Some c → is_open (c_state c) = true →
  server_inv (set_objects (<[ id := life_set c ]> (objects s)) s).
Proof.
  intros Hs Hc Hop. destruct (inv_objects s Hs id c Hc) as (_ & _ & Hci).
  eapply (server_inv_step s _ id c (life_set c)); try done; [by left|].
  unfold conn_inv in *. cbn. destruct (c_life c) as [|[] [|[] [|[] [|[] [|]]]]]; try done;
    destruct Hci as (Hst & ?); by (rewrite Hst in Hop || split).
Qed.

Lemma valid_spec id s : valid id s = true → ∃ c, objects s !! id = Some c ∧ LDestructed ∉ c_life c.
Proof.
  unfold valid. destruct (objects s !! id) as [c|]; [|done]. intros Hv%negb_true_iff%bool_decide_eq_false. eauto.
Qed.
Lemma objects_id s id c : objects s !! id = Some c → set_objects (<[ id := c ]> (objects s)) s = s.
Proof. intros Hc. unfold set_objects. rewrite insert_id by done. by destruct s. Qed.

(** [shutdown] and [forceClose] change the state only of an open connection. *)
Lemma life_change_inv f id s :
  (∀ c, f c = c ∨ is_open (c_state c) = true ∧ f c = life_set c) →
  server_inv s → valid id s = true → on_conn (λ c, mret (f c)) id s ⇓ server_inv.
Proof.
  intros Hf Hs (c & Hc & Hl)%valid_spec. erewrite on_conn_Ok; [|done..]. apply yields_ret.
  destruct (Hf c) as [->|[Hop ->]]; [by rewrite objects_id|by apply open_change_inv].
Qed.
Lemma life_shutdown_cases c : life_shutdown c = c ∨ is_open (c_state c) = true ∧ life_shutdown c = life_set c.
Proof. unfold life_shutdown. case_bool_decide as E; [right|by left]. by rewrite E. Qed.
Lemma life_forceClose_cases c : life_forceClose c = c ∨ is_open (c_state c) = true ∧ life_forceClose c = life_set c.
Proof. unfold life_forceClose. destruct (is_open (c_state c)) eqn:E; [by right|by left]. Qed.

(** The users' pointers and calls change, for a connection that is not yet destroyed or that stays held. *)
Lemma server_users_inv s s' id c :
  server_inv s → objects s !! id = Some c → same_server s s' → objects s' = objects s →
  connections_ s' = connections_ s → (∀ id', pend id' (queue s') = pend id' (queue s)) →
  (∀ id', id' ≠ id → refs id' s' = refs id' s) → users_ok s' →
  refs id s' = refs id s ∨ refs id s' = true ∧ LDestructed ∉ c_life c ∨ LDestroyed ∉ c_life c → server_inv s'.
Proof.
  intros Hs Hc Hss Ho Hm Hp Hr Hu Hh. destruct (inv_objects s Hs id c Hc) as (_ & _ & Hci).
  apply (server_inv_update s s' id c c); try done.
  - by rewrite Ho, insert_id.
  - intros id' Hne. split; [apply Hp|by apply Hr].
  - by left.
  - rewrite Hp, Hm. destruct Hh as [->|[[-> Hl]|Hl]]; [done| |by eapply conn_inv_refs; [|right]].
    destruct (refs id s); [done|]. unfold conn_inv in *.
    destruct (c_life c) as [|[] [|[] [|[] [|[] [|]]]]]; try done; [by destruct Hci as (_ & _ & _ & ?)|].
    destruct Hl. rewrite !elem_of_cons. auto.
Qed.

Lemma server_forceClose_inv id s : server_inv s → valid id s = true → forceClose id s ⇓ server_inv.
Proof.
  intros Hs (c & Hc & Hl)%valid_spec. unfold forceClose. rewrite (deref_Ok _ _ c) by done. run_ok.
  destruct (is_open (c_state c)) eqn:Hop; [|by apply yields_ret].
  erewrite on_conn_Ok; [|done..]. unfold life_forceClose. rewrite Hop. run_ok. apply yields_ret.
  pose proof (open_change_inv id s c Hs Hc Hop) as Hs1. set (s1 := set_objects _ s) in *.
  apply (server_users_inv s1 _ id (life_set c)); try done.
  - apply lookup_insert_eq.
  - intros id'. cbn. by rewrite pend_app, pend_one, app_nil_r.
  - intros id' Hne. unfold refs. do 2 f_equal. apply bool_decide_ext. cbn.
    rewrite elem_push. naive_solver.
  - pose proof (inv_users s1 Hs1) as [H1 H2 H3]. split; [|done..]. intros id'. cbn.
    rewrite elem_push. intros [?|?]; [by apply H1|done].
  - right; left. split; [|done]. unfold refs. rewrite (bool_decide_true (FForceClose id ∈ _)); [by rewrite orb_true_r|].
    cbn. rewrite elem_push. by right.
Qed.

Lemma server_hold_inv id s : server_inv s → valid id s = true → exec (IHold id) s ⇓ server_inv.
Proof.
  intros Hs (c & Hc & Hl)%valid_spec. cbn. rewrite (deref_Ok _ _ c) by done. run_ok. apply yields_ret.
  apply (server_users_inv s _ id c); try done.
  - intros id' Hne. unfold refs. do 2 f_equal. apply bool_decide_ext. cbn.
    rewrite elem_of_union, elem_of_singleton. naive_solver.
  - pose proof (inv_users s Hs) as [H1 H2 H3]. split; cbn; [| |done]; intros; rewrite elem_of_union; right; auto.
  - right; left. split; [|done]. unfold refs. rewrite bool_decide_true; [done|]. cbn.
    rewrite elem_of_union, elem_of_singleton. by left.
Qed.

Lemma user_object id s : server_inv s → id ∈ users s → ∃ c, objects s !! id = Some c ∧ LDestructed ∉ c_life c.
Proof.
  intros Hs Hu. assert (refs id s = true) as Hr by (unfold refs; by rewrite bool_decide_true).
  destruct (objects s !! id) as [c|] eqn:Hc; [|destruct (inv_queue s Hs id Hc); congruence].
  exists c. split; [done|]. destruct (inv_objects s Hs id c Hc) as (_ & _ & Hci). rewrite Hr in Hci.
  by eapply conn_inv_held.
Qed.

Lemma server_drop_inv id s : server_inv s → allowed (IDrop id) s = true → exec (IDrop id) s ⇓ server_inv.
Proof.
  intros Hs [[Hu%bool_decide_eq_true Hk%negb_true_iff]%andb_true_iff Hf%negb_true_iff%bool_decide_eq_false]%andb_true_iff.
  destruct (user_object id s Hs Hu) as (c & Hc & Hl). destruct (inv_objects s Hs id c Hc) as (_ & _ & Hci).
  assert (∀ id', id' ≠ id → refs id' (set_users (users s ∖ {[id]}) s) = refs id' s) as Hr.
  { intros id' Hne. unfold refs. do 2 f_equal. apply bool_decide_ext. cbn.
    rewrite elem_of_difference, elem_of_singleton. naive_solver. }
  cbn. apply (server_release_inv s _ id c c); try done.
  - cbn. by rewrite insert_id.
  - intros id' Hne. split; [done|by apply Hr].
  - pose proof (inv_users s Hs) as [H1 H2 H3]. split; cbn; [..|done]; intros x Hx;
      rewrite elem_of_difference, elem_of_singleton; (split; [by auto|]); intros Heq; [by subst|].
    apply not_true_iff_false in Hk. apply Hk, existsb_exists. exists x. split; [by apply list_elem_of_In|by apply Z.eqb_eq].
  - by left.
  - cbn. unfold refs in Hci. by rewrite bool_decide_true in Hci.
Qed.

(** A call of another thread goes one step on: the connections are as they were. *)
Lemma server_calls_inv s ks id :
  server_inv s → id ∈ users s →
  (∀ k, k ∈ ks → k ∈ calls s ∨ call_conn k = id ∧
     call_shape k) →
  (∀ k, k ∈ calls s → call_conn k = id ∨ k ∈ ks) →
  server_inv (set_calls ks s).
Proof.
  intros Hs Hu Hks Hold. destruct (user_object id s Hs Hu) as (c & Hc & Hl).
  apply (server_users_inv s _ id c); try done.
  - intros id' Hne. unfold refs. f_equal. apply bool_decide_ext. cbn. split; intros Hk.
    + destruct (Hks _ Hk) as [?|[Heq _]]; [done|by destruct Hne].
    + destruct (Hold _ Hk) as [?|?]; [by destruct Hne|done].
  - pose proof (inv_users s Hs) as [H1 H2 H3]. split; cbn; [done|..]; intros k Hk;
      destruct (Hks k Hk) as [?|[<- ?]]; auto.
  - right; left. split; [|done]. unfold refs. by rewrite bool_decide_true.
Qed.

Lemma begin_call_inv id m s : server_inv s → id ∈ users s → begin_call id m s ⇓ server_inv.
Proof.
  intros Hs Hu. destruct (user_object id s Hs Hu) as (c & Hc & Hl). unfold begin_call.
  rewrite (deref_Ok _ _ c) by done. run_ok. apply yields_ret.
  assert (∀ (b : bool) k, call_conn k = id →
    call_shape k →
    server_inv (if b then set_calls (calls s ++ [k]) s else s)) as Hgo.
  { intros [] k Hk Hko; [|done]. apply (server_calls_inv s _ id); try done.
    - intros k'. rewrite elem_of_app, list_elem_of_singleton. intros [?| ->]; [by left|by right].
    - intros k' Hk'. right. rewrite elem_of_app. by left. }
  destruct m; (by apply Hgo) || by apply (Hgo true).
Qed.

Lemma elem_of_delete {A} (l : list A) n x y : l !! n = Some x → y ∈ l → y = x ∨ y ∈ delete n l.
Proof.
  intros Hx Hy. apply delete_Permutation in Hx. rewrite Hx in Hy. by apply elem_of_cons in Hy.
Qed.
Lemma delete_elem_of {A} (l : list A) n y : y ∈ delete n l → y ∈ l.
Proof.
  revert n. induction l as [|x l IH]; intros [|n]; cbn; [done..|intros; by apply elem_of_cons; right|].
  intros [->|?]%elem_of_cons; apply elem_of_cons; [by left|right; by eapply IH].
Qed.

Lemma resume_set_inv n s : server_inv s → allowed (ISet n) s = true → resume_set n s ⇓ server_inv.
Proof.
  intros Hs Ha. cbn in Ha. unfold resume_set. destruct (calls s !! n) as [[id next|f]|] eqn:Hn; try done.
  pose proof (list_elem_of_lookup_2 _ _ _ Hn) as Hin. pose proof (ok_call _ (inv_users s Hs) _ Hin) as Hu.
  pose proof (ok_functor _ (inv_users s Hs) _ Hin) as Hf. cbn in Hu, Hf.
  destruct (user_object id s Hs Hu) as (c & Hc & Hl). unfold open_conn in Ha. rewrite Hc in Ha.
  erewrite on_conn_Ok; [|done..]. run_ok. apply yields_ret.
  apply (server_calls_inv _ _ id); [by apply open_change_inv|done|..].
  - intros k Hk. cbn. destruct next as [f|]; [apply elem_of_app in Hk as [Hk|Hk]|];
      [left; by eapply delete_elem_of| |left; by eapply delete_elem_of].
    apply list_elem_of_singleton in Hk as ->. right. done.
  - intros k Hk. cbn in Hk. destruct (elem_of_delete _ _ _ k Hn Hk) as [->|?]; [by left|right].
    destruct next; [|done]. apply elem_of_app. by left.
Qed.

Lemma resume_queue_inv n s : server_inv s → resume_queue n s ⇓ server_inv.
Proof.
  intros Hs. unfold resume_queue. destruct (calls s !! n) as [[id next|f]|] eqn:Hn; try by apply yields_ret.
  pose proof (list_elem_of_lookup_2 _ _ _ Hn) as Hin. pose proof (inv_users s Hs) as [H1 H2 H3].
  pose proof (H2 _ Hin) as Hu. pose proof (H3 _ Hin) as Hf. cbn in Hu, Hf.
  destruct (user_object _ s Hs Hu) as (c & Hc & Hl). rewrite (deref_Ok _ _ c) by done. run_ok. apply yields_ret.
  apply (server_users_inv s _ (functor_conn f) c); try done.
  - intros id'. cbn. by rewrite pend_app, pend_one, Hf, app_nil_r.
  - intros id' Hne. unfold refs. f_equal; [f_equal|]; apply bool_decide_ext; cbn.
    + rewrite elem_push. split; [|by left]. intros [?|Heq]; [done|]. by rewrite <- Heq in Hne.
    + split; [apply delete_elem_of|]. intros Hk. destruct (elem_of_delete _ _ _ _ Hn Hk) as [[= <-]|?]; done.
  - split; cbn.
    + intros id'. rewrite elem_push. intros [?|Heq]; [by apply H1|]. by rewrite <- Heq in Hu.
    + intros k Hk. eapply H2, delete_elem_of, Hk.
    + intros k Hk. eapply H3, delete_elem_of, Hk.
  - right; left. split; [|done]. unfold refs. by rewrite bool_decide_true.
Qed.

(** The connection closes, and the server removes it. *)
Lemma close_inv id s : server_inv s → open_conn id s = true → close_connection id s ⇓ server_inv.
Proof.
  intros Hs Hop. unfold open_conn in Hop. destruct (objects s !! id) as [c|] eqn:Hc; [|done].
  destruct (inv_objects s Hs id c Hc) as (Hid & Hcn & Hci).
  assert (c_life c = [LEstablished] ∧ pend id (queue s) = [] ∧ connections_ s !! c_name c = Some id) as (Hlife & Hp & Hm).
  { unfold conn_inv in Hci. destruct (c_life c) as [|[] [|[] [|[] [|[] [|]]]]]; try done;
      destruct Hci as (Hst & ?); try (rewrite Hst in Hop; done); tauto. }
  eapply yields_mono; [apply (close_connection_spec id s c (refs id s)); auto; apply Hs|].
  intros s' (? & ? & ? & ? & ? & ?). by apply (server_inv_step s s' id c (live c kDisconnected LClosed)).
Qed.

Lemma server_start_inv startLoop s : server_inv s → start true startLoop s ⇓ server_inv.
Proof.
  intros Hs. pose proof (inv_started s Hs) as Hsd. unfold start.
  destruct (server_started s) eqn:Hst; [by apply yields_ret|]. destruct Hsd as (Hli & b & n & Hn & Hp).
  ystep EventLoopThreadPool.start_spec; [done|exact Hp|]. intros p (Hok & _ & Hb & _).
  cbn. rewrite Hli. cbn. apply yields_ret.
  assert (baseLoop_ p = base s) as Hbase by (unfold base; by rewrite Hp).
  assert (same_users s (set_listening (set_pool p s))) as Hsu by by apply same_users_refl.
  split; cbn; try apply Hs.
  - intros id c Hc. rewrite (same_users_refs _ _ _ Hsu). unfold base. cbn. rewrite Hbase. by apply Hs.
  - eapply same_users_ok; [exact Hsu|apply Hs].
  - done.
Qed.

Lemma server_exec_inv i s : server_inv s → allowed i s = true → exec i s ⇓ server_inv.
Proof.
  intros Hs Ha. destruct i as [inLoop startLoop|sockfd|l|id|id|id|id|id|id|id m|n|n|].
  - cbn in Ha. subst. by apply server_start_inv.
  - cbn in Ha. apply andb_true_iff in Ha as [Hl Hn%Z.ltb_lt]. apply newConnection_inv; [done..|lia].
  - cbn. destruct (take_first l (queue s)) as [[f q]|] eqn:Hq; [by eapply run_functor_inv|done].
  - by apply close_inv.
  - apply life_change_inv; [apply life_shutdown_cases|done..].
  - by apply server_forceClose_inv.
  - apply life_change_inv; [apply life_forceClose_cases|done..].
  - by apply server_hold_inv.
  - by apply server_drop_inv.
  - apply begin_call_inv; [done|]. by apply bool_decide_eq_true in Ha.
  - by apply resume_set_inv.
  - by apply resume_queue_inv.
  - done.
Qed.

Lemma server_run_inv inputs : ∀ s, server_inv s → allowed_all inputs s = true → exec_all inputs s ⇓ server_inv.
Proof.
  induction inputs as [|i inputs IH]; intros s Hs Ha; [done|]. cbn in Ha |- *.
  apply andb_true_iff in Ha as [Hi Ha]. pose proof (server_exec_inv i s Hs Hi) as Hex.
  destruct (exec i s) as [s1|]; [|done]. by apply IH.
Qed.

Lemma server_inv_new base name ipPort n :
  0 ≤ n < 2 ^ 31 → size_of ipPort ≤ 50 →
  setThreadNum n (TcpServer_new base name ipPort) ⇓ server_inv.
Proof.
  intros Hn Hsz. unfold setThreadNum. rewrite (proj2 (Z.leb_le 0 n)) by lia. cbn.
  split; cbn; try done.
  - split; cbn; intros ? []%not_elem_of_nil.
  - split; [done|]. by exists base, n.
Qed.

(** ** Safety *)

(** What the environment sees of a connection with the server's functors [p], the entry [m], and [h] if the users
    have a pointer to it. *)
Record conn_safe (p : list (nat * Functor)) (m : option Z) (h : bool) (id : Z) (c : Conn) : Prop := {
  safe_life : c_life c `prefix_of` lifetime;
  safe_entry : m = Some id ∨ m = None;
  safe_open : is_open (c_state c) = true → m = Some id;
  safe_destructed : LDestructed ∈ c_life c ↔ p = [] ∧ m = None ∧ h = false;
  safe_quiet : p = [] →
    is_open (c_state c) = true ∧ m = Some id ∨
    c_state c = kDisconnected ∧ c_life c = if h then take 3 lifetime else lifetime
}.

Lemma conn_inv_safe b p m h id c : conn_inv b p m h id c → conn_safe p m h id c.
Proof.
  unfold conn_inv. intros Hc.
  destruct (c_life c) as [|[] [|[] [|[] [|[] [|]]]]] eqn:El; try done.
  all: split; [rewrite El; by eexists|..]; rewrite ?El.
  1-4: destruct Hc as (Hst & -> & ->); rewrite ?Hst; try naive_solver; set_solver.
  1-4: destruct Hc as (Hst & -> & ->); rewrite ?Hst; try naive_solver; set_solver.
  1-4: destruct Hc as (Hst & Hp); rewrite ?Hst; destruct Hp as [[-> ->]|[-> ->]]; try naive_solver; set_solver.
  1-4: destruct Hc as (Hst & -> & -> & ->); rewrite ?Hst; try naive_solver; set_solver.
  1-4: destruct Hc as (Hst & -> & -> & ->); rewrite ?Hst; try naive_solver; set_solver.
Qed.


Definition example_server : outcome TcpServer := setThreadNum 2 (TcpServer_new 0 (lit "echo") (lit "0.0.0.0:2007")).
Definition example_run (inputs : list Input) : outcome TcpServer := s ← example_server; exec_all inputs s.
Definition example_start : Input := IStart true (λ i, Z.to_nat (i + 1)).

(** Two connections on two threads; the first is shut down by another thread, and closes; the second is closed by
    force. *)
Definition example_inputs : list Input :=
  [example_start; IAccept 7; IAccept 8; IRun 1; IRun 2;
   IHold 1; ICall 1 MShutdown; ISet 0; IQueue 0; IRun 1; IClose 1; IRun 0; IRun 1; IDrop 1;
   IForceClose 2; IRun 2; IRun 0].


Example example_lives :
  (s ← example_run example_inputs;
   mret (c_life <$> objects s !! 1, connections_ s !! connName s 1, c_life <$> objects s !! 2, queue s))
  = Ok (Some lifetime, None, Some (take 2 lifetime), [(2%nat, FDestroy 2)]).
Proof. vm_compute. reflexivity. Qed.

(** ** Uses that are not safe *)

(** [shutdown] in another thread binds its functor to a plain [this]: the connection closes and is destroyed while the
    thread still has a pointer, which the thread drops when its call returns; the functor runs on an object that is gone. *)
Lemma plain_functor_dangles :
  example_run [example_start; IAccept 7; IRun 1; IHold 1; ICall 1 MShutdown; ISet 0; IClose 1; IRun 0; IRun 1;
               IQueue 0; IDrop 1; IRun 1] = Fault BadDeref.
Proof. vm_compute. reflexivity. Qed.

(** The connection closes between the test and the change of [state_] in another thread's [shutdown]: the connection
    ends in [kDisconnecting], and its destructor asserts. *)
Lemma late_set_asserts :
  example_run [example_start; IAccept 7; IRun 1; IHold 1; ICall 1 MShutdown; IClose 1; ISet 0; IQueue 0;
               IRun 0; IRun 1; IRun 1; IDrop 1] = Fault (AssertFailure 71).
Proof. vm_compute. reflexivity. Qed.

(** ** The destructor *)

(** The close callback binds [this]: a server that is destructed while a
    closed connection still waits for [removeConnectionInLoop], or that has
    connections which close later, is used after it is gone. *)
Lemma removal_after_destructor :
  example_run [example_start; IAccept 7; IRun 1; IClose 1; IDestruct; IRun 0] = Fault BadDeref ∧
  example_run [example_start; IAccept 7; IRun 1; IDestruct; IClose 1] = Fault BadDeref.
Proof. split; vm_compute; reflexivity. Qed.

(** [start] called in a thread other than the loop's aborts. *)
Lemma start_elsewhere startLoop s :
  server_inv s → server_started s = false → start false startLoop s = Fault (Fatal 229).
Proof.
  intros Hs Hst. pose proof (inv_started s Hs) as H. rewrite Hst in H. destruct H as (_ & b & n & _ & Hp).
  unfold start. by rewrite Hst, Hp.
Qed.
